(* ===== verification/_CoqProject ===== *)
-Q . S2P
Prelude.v
GoInt.v
Float64.v
GoSort.v
Utf8.v
Strconv.v
Limits.v
Token.v
Lexer.v
LexerFacts.v
Types.v
Value.v
ValueFacts.v
MapFacts.v
Ast.v
Parser.v
ParserStmt.v
ParserTotal.v
ParserMono.v
ParserRoundFacts.v
Ops.v
OpsFacts.v
Fold.v
FoldFacts.v
Resolver.v
Ownership.v
Resolve.v
Scoping.v
ResolverFacts.v
MarkFacts.v
ResolveFacts.v
Environment.v
EnvFacts.v
IntFast.v
Display.v
Defs.v
Store.v
StoreFacts.v
RetagFacts.v
Interp.v
Eval.v
FastFacts.v
Load.v
Dispatch.v
BalanceFacts.v
TermFacts.v
LoadFacts.v
Modules.v
ModulesFacts.v
Channels.v
ChannelFacts.v
Lists.v
SortFacts.v
Maps.v
MapsFacts.v
Decimal.v
DecimalLib.v
DecimalFacts.v
DecimalRound.v
DecimalText.v
Doctree.v
DocFacts.v
DocLaws.v
DocLib.v
DocLibFacts.v
DocTail.v
Json.v
JsonFacts.v
JsonRound.v
Binary.v
BinaryLaws.v
GlobalSafe.v
GlobalSafeFacts.v
SpawnCapture.v
SpawnCaptureFacts.v
StructLits.v
Strings.v
StringsFacts.v
Asn1.v
Asn1Facts.v
