(* ===== verification/Prelude.v ===== *)
(** * A verification library for the Jennifer interpreter

    Jennifer is a statically declared, dynamically checked scripting language with value
    semantics.  A program goes through the lexer (internal/lexer), the parser and its
    constant folder and resolver (internal/parser), and a tree-walking evaluator
    (internal/interpreter) that calls native libraries (internal/lib) through a builtin
    interface.  This library models the lexer, the parser, the folder, the resolver with its
    ownership analysis, the value model, the scopes, the stores, the evaluator, the
    channels between tasks and some of the native libraries, and proves what makes them
    correct.

    ** Files and what they model

    Foundations
    - Prelude: scopes, error results with their [let?] notation, deferred [Sprintf]
      messages, source positions, tactics, lemmas on lists shared by the components.
    - GoSort: [sort.SliceStable] and [sort.Search] by their contracts.
    - GoInt: int64 as [Z] with explicit wrap-around; [addOverflow], [subOverflow],
      [mulOverflow], [flooredMod] of interpreter.go.
    - Float64: IEEE binary64 on [SpecFloat]; [compareIntFloat] (value.go), [floorDiv],
      [floatSign] (interpreter.go).
    - Utf8: Go's rune decoding and [utf8.RuneCountInString], [ValidString]; base64.
    - Strconv: [ParseUint], [ParseInt] and [ParseFloat] as the parser uses them.
    - Limits: the budgets of internal/limits as a class with the two builds as instances.

    Lexer, parser and AST
    - Token, Lexer (internal/lexer/token.go, lexer.go): every scanner with its errors,
      positions and budgets.  Scanning loops carry fuel equal to the remaining input plus
      one; LexerFacts proves that every loop consumes input, so the fuel is never used up.
    - Types, Ast (internal/parser/ast.go): types, operators, every expression and statement
      node with the annotations later passes leave on it, and the induction principle of the tree.
    - Parser, ParserStmt (internal/parser/parser.go): the whole recursive-descent parser over
      the token stream, as a state-and-error monad with the depth counters; recursive calls
      go through the record [PRec] and [run] ties the knot with fuel.
    - Fold (internal/parser/fold.go): [tryFoldUnary], [tryFoldBinary].
    - Resolver, Ownership, Resolve (internal/parser/resolver.go, ownership.go): scope
      analysis, enum matches, borrow, move and ownership marks, by structural recursion; each
      function returns the annotated tree.  Scoping is the declarative specification of a
      correctly addressed tree, Erase the tree without annotations.

    Values and stores
    - Value (value.go): kinds, equality, exact numeric comparison, the map hash index,
      deep copy, declared-type matching, zero values; Display: rendering.
    - Ops (interpreter.go): operators on evaluated operands.
    - Defs (module.go): module tables, struct identity, retagging across modules, the
      impersonation check.
    - Store (interpreter.go): type stamping at bindings, reads and writes through lvalue
      paths, append, ranges, slices.  A Go pointer into a container is a [place]: the value
      there and the function that puts a new one back.

    Scopes and evaluation
    - Environment (environment.go): frames with slot arrays from a pool, name maps,
      lookup, definition, assignment, spawn snapshots.
    - IntFast (intfast.go): the allocation-free paths for ints and conditions.
    - Interp: the state ([World]: frames, call-chain counters, task and channel element
      types, host state), a state-and-error monad, the static tables of an interpreter,
      and [Host], the interface to code outside the evaluator.
    - Eval (interpreter.go): one definition per [eval...]/[exec...] function.  Recursive
      calls go through the record [Rec]; [run] ties the knot with fuel.

    Analyses at load
    - GlobalSafe (globalsafe.go): which methods may write a global, by a scan of every body
      and a worklist over the call graph; SpawnCapture (spawncapture.go): which globals a spawn
      copies, by a scan and a fixpoint; and (argsnap.go) which arguments a call copies at
      once; StructLits (structlit_check.go): the fields of struct and enum literals.
    - Load (interpreter.go, module.go): [Run] up to the module imports - [use] statements,
      hoisting of types and methods, the checks for by-value cycles - the resolution of declared
      types, and the zero values of named types.
    - Modules (module.go, module/resolve.go): the checks on a module's declarations and exports,
      aliases, the file an import names, and the loader with its cache and stack; the load phase
      of an interactive input; the check of matches on enums of modules.

    Concurrency
    - Channels (waitset.go, lib/channel/channellib.go): send, receive, close, cancellation and
      [selectRecv] with its wake-up lists, as a step relation over any number of goroutines,
      one atomic operation per step.

    Libraries (internal/lib), one function per builtin with its argument checks and errors
    - Lists (lists/listslib.go), callbacks through a state-passing parameter; Maps
      (maps/mapslib.go).
    - Decimal (decimal/arith.go): exact decimals over [Z]; DecimalLib (decimallib.go): the
      builtins over a heap of payloads.
    - Doctree (doctree/node.go, edit.go): the compact document tree of json, toml and yaml,
      with its sorted key index, heights and sizes, addressing and the write verbs; DocLib
      (doctree/lib.go): the shared builtins over a heap of payloads; DocTail: the backing
      array appends share, as a step relation over goroutines.
    - Json (json/jsondecode.go, jsonlib.go, jsonnode.go): the decoder over bytes with its
      stacks, limits and positions, and the encoder.
    - Binary (binary/binarylib.go, numbers.go): bulk operations on bytes and
      the readers of fixed-width numbers; a Go panic is a value of the model.
    - Strings (strings/stringslib.go, limits/size.go): the text builtins on byte strings, with
      the parts of Go's strings package they call; Go's case tables are an interface.
    - Asn1 (asn1/asn1codec.go, asn1lib.go): BER decoding, DER encoding with its memo, and the
      builtins, over a heap of elements that may be shared.

    ** What the theorems show

    - LexerFacts (C10): scanning ends on every source with a token stream closed
      by EOF or a positioned error; tokens are well formed; string literals round-trip.
    - MapFacts (C6, C7): the map key encoding agrees with value equality; the
      hash index refines the linear scan; lookup after update; map equality is extensional;
      a deep copy cannot be told from its source.
    - OpsFacts (C9): int arithmetic is exact or an overflow error; comparison is
      exact across int and float; bit operators; operators keep values well formed.
    - FoldFacts (C8): a folded literal is the value evaluation gives.
    - EnvFacts (C11): the frame pool leaks nothing and its byte accounting is
      exact (a step relation with an invariant), an assignment changes one permitted
      binding, reads see the last write, slot addresses agree with names, a spawn snapshot
      is a detached copy of what is visible.
    - StoreFacts (C5, C12): binding establishes the declared type, writes through any
      path preserve it, a read sees the write; byte-level string slicing is slicing of the runes.
    - RetagFacts: the retagging skip check is sound, crossing a module
      boundary and back is the identity; a gap in the impersonation check.
    - FastFacts (C1): the integer fast paths and the amount of fuel cannot be observed.
    - TermFacts (C2): without while, for and repeat every evaluation ends.
    - BalanceFacts (C3, C4, C32): every evaluation restores counters, frames, declarations and
      charged bytes however it ends; constants never change; exit is neither caught nor
      replaced.
    - ParserTotal, ParserMono (C34): every token stream has one parse outcome, without
      reading past its end; ParserRoundFacts (C35, C36): an expression
      written with minimal parentheses parses back to itself; nested
      indexes escape the nesting limit.
    - ChannelFacts (C37): under a fair scheduler no wake-up of a select is lost; a send
      can succeed after the close.
    - ResolverFacts, MarkFacts, ResolveFacts (C39): an accepted program carries exactly the
      addresses a search by name finds, and differs from its input in annotations only.
      With EnvFacts, reading through these addresses is reading by name.
    - GlobalSafeFacts (C21), SpawnCaptureFacts (C14, C26): both analyses end and compute
      reachability in the call graph; a global the capture analysis misses; StructLits (C30):
      a literal the load check rejects has no value, one it accepts has all its fields.
    - LoadFacts (C19): the cycle checks accept exactly the programs whose types have zero values;
      module types under a library's name, and prefixes that are read twice, break this.
      ModulesFacts (C17): modules are loaded once and after what they import, and the stack is
      restored on every path; what the check of the exports guarantees, and what escapes it; what a
      rejected interactive input leaves behind; a match on a module's enum that passes its check
      always selects an arm; a bare import names one file below the search path, a vendored one
      stays in its package.
    - MarkFacts (C40) also shows that the ownership flags are the greatest consistent ones.
    - SortFacts (C24), MapsFacts (C27): lists.sort is a stable sort in the
      language's order, lists.range an exact progression, the maps library computes with
      finite maps.
    - DecimalFacts (C18), DecimalRound (C20), DecimalText: decimal
      arithmetic is exact, rounding is the textbook rounding, exact division is complete, and
      decimals round-trip through text.
    - DocFacts, DocLaws (C16): nodes refine abstract documents - trees of scalars,
      lists and association lists without a key twice - with one representation each; after
      a set, the path reads the new value and other paths what they read before.
    - DocLibFacts (C23): every document the builtins make is well formed and within the depth
      and size limits, and none is changed; JsonFacts (C31): so is every decoded one, and the
      decoder always returns.  DocTail (C28): appends that share a backing array never change
      what a holder of a list reads, in any interleaving.
    - JsonRound (C25): decoding what was encoded gives the document back.
    - BinaryLaws (C15): the binary library never panics, its chunked
      bitwise operations are the byte-wise ones, joining undoes splitting.
    - StringsFacts (C22, C33): the strings library searches and cuts runes on valid text, and
      its size checks are exact; joining undoes splitting.
    - Asn1Facts (C13, C29, C38): the two-pass encoder over shared elements writes DER, decoding reads
      it back, and every builtin keeps the heap of elements well formed; contents of integers and
      identifiers, equality.

    ** Fuel

    The evaluator can diverge, so [run n] carries fuel and ends in [NoFuel] when it is used
    up.  C1 shows that an evaluation that ends, ends the same way with every larger amount
    of fuel, so fuel is not part of any other result; C2 shows that programs without the
    conditional loops always have enough.  The parser's fuel bounds nesting; C34 shows that
    [parseFuel] of the token limit is enough for every input, and that more changes nothing.
    The ownership loop runs at most one pass more than there are methods (C40).  The json
    decoder's fuel is the nesting limit for values and the text's length for loops; C31 shows
    that it never runs out.  A depth-first search over the types of a program has one unit per
    type and the module loader one per file, which is enough (C19, C17).

    ** What is not modelled

    - Values are immutable here.  The Go code shares backing arrays and copies at binding
      sites; copies are kept where the source makes them ([Copy]), but that a skipped copy
      (a borrow or move mark of the ownership analysis) is unobservable is assumed, not
      proved.  A result marked as owned by its module method is copied here.
    - The evaluator takes declared types as already resolved to the identity of their module;
      the resolution is in Load, the walk over the statements that applies it is not modelled.
    - [Host] stands for library builtins, module method bodies, func values of other
      interpreters, the execution of spawned tasks, namespace constants and the zero values
      of structs, enums and opaque types (which Load builds).  Theorems about the evaluator state what they
      need of it ([HostKeeps], [HostEnds]).
    - One call chain in the evaluator: concurrent tasks and cancellation are outside it;
      channel operations are modelled on their own (Channels), the task library is not;
      profiling and diagnostics are omitted.
    - The file system, the reading of a file and [Run] after the imports are parameters of the
      loader.  The preprocessor, linter, command line and the libraries other than
      channel, lists, maps, decimal, json, binary, strings and asn1 are not modelled: file-system, network and process
      I/O, or native code behind the builtin interface.  The interpreter-side static
      analyses (globalsafe.go, argsnap.go, spawncapture.go, structlit_check.go) give marks
      that the evaluator takes as input.
    - Container heights and sizes of documents are unbounded integers (the limits keep them
      far below their width), the address test that shortcuts node equality and the text of
      a float are parameters, and the Builder the toml decoder grows trees with is left out.
      Next in line: the task library as a step relation, and further pure libraries (toml,
      convert). *)

From Stdlib Require Export ZArith Lia.
From stdpp Require Export base decidable list strings gmap.
From Stdlib Require Import Ascii SpecFloat.

#[global] Set Default Goal Selector "!".

(** ** Scopes and notations *)

Declare Scope go_scope.
Delimit Scope go_scope with go.

(** A rune constant, written as in the Go source: [#"{"] is the code point of
    the left brace. *)
Definition rune_of_ascii (c : ascii) : Z := Z.of_N (N_of_ascii c).
Notation "# c" := (rune_of_ascii c%char) (at level 1, c at level 0, format "# c") : go_scope.

(** ** Deferred [fmt.Sprintf]

    An error message is kept as its format string together with its operands:
    the model decides which message is raised and with which operands, and does
    not render it. *)
Inductive fmtarg :=
  | AInt (z : Z)
  | AStr (s : string)
  | AFloat (f : SpecFloat.spec_float).

Record message := Sprintf { msg_format : string; msg_args : list fmtarg }.

(** A source position: file, line, column. *)
Record position := Pos { pos_file : string; pos_line : Z; pos_col : Z }.

#[export] Instance position_eq_dec : EqDecision position.
Proof. solve_decision. Defined.

(** ** Results

    A Go function returning [(T, error)]: exactly one side is meaningful. *)
Inductive result (E A : Type) :=
  | Ok (a : A)
  | Err (e : E).
Arguments Ok {E A} a.
Arguments Err {E A} e.

Definition rbind {E A B} (r : result E A) (k : A -> result E B) : result E B :=
  match r with
  | Ok a => k a
  | Err e => Err e
  end.

Notation "'let?' x ':=' c 'in' k" := (rbind c (fun x => k))
  (at level 10, x pattern, c at level 200, k at level 200,
   format "'let?'  x  ':='  c  'in' '//' k") : go_scope.

Definition is_ok {E A} (r : result E A) : bool :=
  match r with Ok _ => true | Err _ => false end.

Lemma rbind_Ok_inv {E A B} (r : result E A) (k : A -> result E B) b :
  rbind r k = Ok b -> exists a, r = Ok a /\ k a = Ok b.
Proof. destruct r; simpl; [eauto | discriminate]. Qed.

Lemma rbind_Err_inv {E A B} (r : result E A) (k : A -> result E B) e :
  rbind r k = Err e -> r = Err e \/ exists a, r = Ok a /\ k a = Err e.
Proof. destruct r; simpl; [eauto | intros [= ->]; auto]. Qed.

(** ** Automation *)

(** Reflect the boolean comparisons in the context and the goal. *)
Ltac b2p :=
  repeat match goal with
  | H : (_ && _)%bool = true |- _ => apply andb_true_iff in H as [? ?]
  | H : (_ || _)%bool = false |- _ => apply orb_false_iff in H as [? ?]
  | H : (_ || _)%bool = true |- _ => apply orb_true_iff in H
  | H : (_ && _)%bool = false |- _ => apply andb_false_iff in H
  | H : negb _ = true |- _ => apply negb_true_iff in H
  | H : negb _ = false |- _ => apply negb_false_iff in H
  | H : (_ =? _)%Z = true |- _ => apply Z.eqb_eq in H
  | H : (_ =? _)%Z = false |- _ => apply Z.eqb_neq in H
  | H : (_ <? _)%Z = true |- _ => apply Z.ltb_lt in H
  | H : (_ <? _)%Z = false |- _ => apply Z.ltb_ge in H
  | H : (_ <=? _)%Z = true |- _ => apply Z.leb_le in H
  | H : (_ <=? _)%Z = false |- _ => apply Z.leb_gt in H
  end.

(** Settle every boolean comparison of the goal by arithmetic. *)
Ltac zbool :=
  repeat match goal with
  | |- context [(?a <? ?b)%Z] => destruct (Z.ltb_spec a b); try lia
  | |- context [(?a <=? ?b)%Z] => destruct (Z.leb_spec a b); try lia
  | |- context [(?a =? ?b)%Z] => destruct (Z.eqb_spec a b); try lia
  end; simpl; try lia.

(** Case split on the innermost [if]/[match] scrutinee of the goal. *)
Ltac split_if :=
  match goal with
  | |- context [if ?b then _ else _] => destruct b eqn:?
  end.

(** Case split on a scrutinee in a hypothesis. *)
Ltac split_if_in H :=
  match type of H with
  | context [if ?b then _ else _] => destruct b eqn:?
  end.

Create HintDb go discriminated.
Create Rewrite HintDb go.

(** ** Lists *)

Lemma take_drop_range {A} (l : list A) (i j : nat) :
  (i <= j)%nat -> take i l ++ take (j - i) (drop i l) = take j l.
Proof.
  intros Hij. rewrite take_drop_commute.
  replace (i + (j - i))%nat with j by lia.
  rewrite <- (take_drop i (take j l)) at 2.
  by rewrite take_take, Nat.min_l by done.
Qed.
