(* ===== verification/GoInt.v ===== *)
(** * Machine integers: Go's [int64] and Jennifer's checked integer arithmetic

    [int64] values are integers of [Z] inside [minInt64 .. maxInt64]; the Go
    operators wrap around modulo 2^64.  On top of them this file models the
    overflow helpers of internal/interpreter/interpreter.go ([addOverflow],
    [subOverflow], [mulOverflow], [flooredMod]), the integer fast path operators
    of internal/interpreter/intfast.go ([intArith], [intCompare]) being built
    from them in IntFast.v, and proves that each is exact: it returns the
    mathematical result when that fits in an [int64] and reports overflow
    otherwise. *)

From S2P Require Import Prelude.
Open Scope Z_scope.

(** ** Go's int64 *)

Definition minInt64 : Z := - 2 ^ 63.
Definition maxInt64 : Z := 2 ^ 63 - 1.

(** Membership of the int64 range, decidable. *)
Definition int64_range (z : Z) : Prop := minInt64 <= z <= maxInt64.
Definition int64_rangeb (z : Z) : bool := (minInt64 <=? z) && (z <=? maxInt64).

(** Two's-complement reduction to 64 bits: what every Go int64 operator applies
    to the mathematical result. *)
Definition wrap64 (z : Z) : Z := (z + 2 ^ 63) mod 2 ^ 64 - 2 ^ 63.

Definition add64 (a b : Z) : Z := wrap64 (a + b).
Definition sub64 (a b : Z) : Z := wrap64 (a - b).
Definition mul64 (a b : Z) : Z := wrap64 (a * b).
(** Go's [/] and [%] truncate toward zero; [MinInt64 / -1] wraps. *)
Definition quot64 (a b : Z) : Z := wrap64 (Z.quot a b).
Definition rem64 (a b : Z) : Z := wrap64 (Z.rem a b).
Definition neg64 (a : Z) : Z := wrap64 (- a).
(** Bitwise operators on the two's-complement representation. *)
Definition and64 (a b : Z) : Z := Z.land a b.
Definition or64 (a b : Z) : Z := Z.lor a b.
Definition xor64 (a b : Z) : Z := Z.lxor a b.
Definition not64 (a : Z) : Z := Z.lnot a.
(** [a << uint(b)] and the arithmetic [a >> uint(b)], for [0 <= b]. *)
Definition shl64 (a b : Z) : Z := wrap64 (Z.shiftl a b).
Definition shr64 (a b : Z) : Z := Z.shiftr a b.

(** ** Checked arithmetic (interpreter.go) *)

(** [addOverflow]: the sum and whether it overflowed. *)
Definition addOverflow (a b : Z) : Z * bool :=
  let s := add64 a b in
  if ((0 <? a) && (0 <? b) && (s <? 0)) || ((a <? 0) && (b <? 0) && (0 <=? s))
  then (0, true) else (s, false).

Definition subOverflow (a b : Z) : Z * bool :=
  let d := sub64 a b in
  if ((0 <=? a) && (b <? 0) && (d <? 0)) || ((a <? 0) && (0 <? b) && (0 <=? d))
  then (0, true) else (d, false).

Definition mulOverflow (a b : Z) : Z * bool :=
  if (a =? 0) || (b =? 0) then (0, false)
  else if ((a =? minInt64) && (b =? -1)) || ((b =? minInt64) && (a =? -1))
  then (0, true)
  else
    let p := mul64 a b in
    if negb (quot64 p a =? b) then (0, true) else (p, false).

(** [flooredMod]: the remainder consistent with floored division. *)
Definition flooredMod (a b : Z) : Z :=
  let r := rem64 a b in
  if negb (r =? 0) && negb (Bool.eqb (r <? 0) (b <? 0)) then add64 r b else r.

(** The floored quotient, as written inline in [evalArithmetic], [intArith] and
    [tryFoldBinary]: truncated division adjusted by one when the signs differ
    and the division is inexact. *)
Definition flooredDiv (a b : Z) : Z :=
  let q := quot64 a b in
  if negb (rem64 a b =? 0) && negb (Bool.eqb (a <? 0) (b <? 0)) then sub64 q 1 else q.

(** ** Range lemmas *)

Lemma int64_rangeb_true z : int64_rangeb z = true <-> int64_range z.
Proof. unfold int64_rangeb, int64_range. rewrite andb_true_iff, !Z.leb_le. lia. Qed.

Lemma int64_rangeb_false z : int64_rangeb z = false <-> ~ int64_range z.
Proof. rewrite <- int64_rangeb_true. destruct (int64_rangeb z); intuition congruence. Qed.

#[export] Instance int64_range_dec z : Decision (int64_range z).
Proof. unfold int64_range. apply _. Defined.

Lemma wrap64_range z : int64_range (wrap64 z).
Proof.
  unfold wrap64, int64_range, minInt64, maxInt64.
  pose proof (Z.mod_pos_bound (z + 2 ^ 63) (2 ^ 64)). lia.
Qed.

Lemma wrap64_id z : int64_range z -> wrap64 z = z.
Proof.
  unfold wrap64, int64_range, minInt64, maxInt64. intros.
  rewrite Z.mod_small; lia.
Qed.

(** One wrap-around step in either direction: enough for sums and differences. *)
Lemma wrap64_high z : 2 ^ 63 <= z < 2 ^ 63 + 2 ^ 64 -> wrap64 z = z - 2 ^ 64.
Proof.
  unfold wrap64. intros. rewrite (Z.mod_eq _ (2 ^ 64)) by lia.
  replace ((z + 2 ^ 63) / 2 ^ 64) with 1; [lia | ].
  apply (Z.div_unique_pos _ _ 1 (z + 2 ^ 63 - 2 ^ 64)); lia.
Qed.

Lemma wrap64_low z : - 2 ^ 63 - 2 ^ 64 <= z < - 2 ^ 63 -> wrap64 z = z + 2 ^ 64.
Proof.
  unfold wrap64. intros. rewrite (Z.mod_eq _ (2 ^ 64)) by lia.
  replace ((z + 2 ^ 63) / 2 ^ 64) with (-1); [lia | ].
  apply (Z.div_unique_pos _ _ (-1) (z + 2 ^ 63 + 2 ^ 64)); lia.
Qed.

(** [wrap64 z] differs from [z] by a multiple of 2^64. *)
Lemma wrap64_cong z : exists k, wrap64 z = z + k * 2 ^ 64.
Proof.
  exists (- ((z + 2 ^ 63) / 2 ^ 64)). unfold wrap64.
  rewrite (Z.mod_eq _ (2 ^ 64)) by lia. lia.
Qed.

#[export] Hint Resolve wrap64_range : go.

Ltac int64_unfold := unfold int64_range, minInt64, maxInt64 in *.

(** Three-way case analysis on whether a sum or difference fits. *)
Lemma wrap64_cases z :
  - 2 ^ 64 <= z < 2 ^ 64 ->
  (int64_range z /\ wrap64 z = z) \/
  (maxInt64 < z /\ wrap64 z = z - 2 ^ 64) \/
  (z < minInt64 /\ wrap64 z = z + 2 ^ 64).
Proof.
  intros. destruct (decide (int64_range z)) as [Hr | Hr].
  - left. auto using wrap64_id.
  - right. int64_unfold. destruct (Z_lt_le_dec z 0).
    + right. split; [lia | apply wrap64_low; lia].
    + left. split; [lia | apply wrap64_high; lia].
Qed.

(** ** The checked operations are exact *)

(** What a checked operation promises: the mathematical result when it is an
    int64, the overflow flag otherwise. *)
Definition checked64 (z : Z) : Z * bool :=
  if int64_rangeb z then (z, false) else (0, true).

Lemma checked64_in z : int64_range z -> checked64 z = (z, false).
Proof. unfold checked64. by intros ->%int64_rangeb_true. Qed.

Lemma checked64_out z : ~ int64_range z -> checked64 z = (0, true).
Proof. unfold checked64. by intros ->%int64_rangeb_false. Qed.

#[export] Hint Rewrite checked64_in checked64_out using (int64_unfold; lia) : go.

Lemma addOverflow_checked a b :
  int64_range a -> int64_range b -> addOverflow a b = checked64 (a + b).
Proof.
  intros Ha Hb. unfold addOverflow, add64.
  destruct (wrap64_cases (a + b)) as [[Hr ->] | [[Hr ->] | [Hr ->]]];
    [int64_unfold; lia | ..]; autorewrite with go; int64_unfold; zbool; done.
Qed.

Lemma subOverflow_checked a b :
  int64_range a -> int64_range b -> subOverflow a b = checked64 (a - b).
Proof.
  intros Ha Hb. unfold subOverflow, sub64.
  destruct (wrap64_cases (a - b)) as [[Hr ->] | [[Hr ->] | [Hr ->]]];
    [int64_unfold; lia | ..]; autorewrite with go; int64_unfold; zbool; done.
Qed.

Lemma quot_half a b : 2 <= Z.abs b -> 2 * Z.abs (Z.quot a b) <= Z.abs a.
Proof.
  intros Hb. rewrite <- Z.quot_abs by lia.
  pose proof (Z.mul_quot_le (Z.abs a) (Z.abs b)).
  pose proof (Z.quot_pos (Z.abs a) (Z.abs b)). nia.
Qed.

Lemma quot_range a b :
  int64_range a -> b <> 0 -> ~ (a = minInt64 /\ b = -1) -> int64_range (Z.quot a b).
Proof.
  intros Ha Hb Hm. int64_unfold.
  destruct (decide (2 <= Z.abs b)) as [H2 | H2]; [pose proof (quot_half a b H2); lia | ].
  assert (b = 1 \/ b = -1) as [-> | ->] by lia; [rewrite Z.quot_1_r; lia | ].
  change (-1) with (- (1)). rewrite Z.quot_opp_r, Z.quot_1_r; lia.
Qed.

(** The probe [p / a != b] detects exactly the overflowing products. *)
Lemma mul64_probe a b :
  int64_range a -> int64_range b -> a <> 0 -> b <> 0 ->
  ~ (a = minInt64 /\ b = -1) -> ~ (b = minInt64 /\ a = -1) ->
  (quot64 (mul64 a b) a = b <-> int64_range (a * b)).
Proof.
  intros Ha Hb Ha0 Hb0 Hx Hy. unfold mul64. split.
  - intros Hq. destruct (wrap64_cong (a * b)) as [k Hk].
    assert (Hpr : int64_range (wrap64 (a * b))) by apply wrap64_range.
    assert (Hne : ~ (wrap64 (a * b) = minInt64 /\ a = -1)).
    { intros [Hp ->]. rewrite wrap64_id in Hp; int64_unfold; lia. }
    unfold quot64 in Hq. rewrite wrap64_id in Hq by auto using quot_range.
    pose proof (Z.quot_rem' (wrap64 (a * b)) a) as Hqr. rewrite Hq in Hqr.
    pose proof (Z.rem_bound_abs (wrap64 (a * b)) a Ha0).
    assert (k = 0) by (int64_unfold; lia). subst k.
    rewrite Z.mul_0_l, Z.add_0_r in Hk. by rewrite <- Hk.
  - intros Hr. rewrite wrap64_id by done. unfold quot64.
    rewrite (Z.mul_comm a b), Z.quot_mul by done. by apply wrap64_id.
Qed.

Lemma mulOverflow_checked a b :
  int64_range a -> int64_range b -> mulOverflow a b = checked64 (a * b).
Proof.
  intros Ha Hb. unfold mulOverflow.
  destruct (Z.eqb_spec a 0) as [-> | Ha0]; [done | ].
  destruct (Z.eqb_spec b 0) as [-> | Hb0]; [by rewrite Z.mul_0_r | ]. simpl.
  split_if.
  { symmetry. apply checked64_out. b2p. int64_unfold. intuition (b2p; subst; lia). }
  assert (~ (a = minInt64 /\ b = -1) /\ ~ (b = minInt64 /\ a = -1)) as [Hx Hy].
  { b2p. intuition (b2p; congruence). }
  pose proof (mul64_probe a b Ha Hb Ha0 Hb0 Hx Hy) as Hp.
  destruct (Z.eqb_spec (quot64 (mul64 a b) a) b) as [Hq | Hq]; simpl.
  - rewrite checked64_in by tauto. unfold mul64. by rewrite wrap64_id by tauto.
  - rewrite checked64_out; tauto.
Qed.

Lemma rem64_rem a b : int64_range a -> int64_range b -> b <> 0 -> rem64 a b = Z.rem a b.
Proof.
  intros Ha Hb Hb0. apply wrap64_id. pose proof (Z.rem_bound_abs a b Hb0).
  int64_unfold. lia.
Qed.

(** The adjusted truncated remainder is the floored one, Rocq's [Z.modulo]. *)
Lemma flooredMod_modulo a b :
  int64_range a -> int64_range b -> b <> 0 -> flooredMod a b = a mod b.
Proof.
  intros Ha Hb Hb0. unfold flooredMod. rewrite rem64_rem by done.
  pose proof (Z.quot_rem' a b) as Hqr. pose proof (Z.rem_bound_abs a b Hb0) as Hrb.
  destruct (Z.eqb_spec (Z.rem a b) 0) as [H0 | H0]; simpl.
  - rewrite H0. symmetry. apply Z.mod_divide; [done | ]. exists (Z.quot a b). lia.
  - destruct (Z.ltb_spec (Z.rem a b) 0), (Z.ltb_spec b 0); simpl.
    + apply (Z.mod_unique_neg _ _ (Z.quot a b)); lia.
    + unfold add64. rewrite wrap64_id by (int64_unfold; lia).
      apply (Z.mod_unique_pos _ _ (Z.quot a b - 1)); lia.
    + unfold add64. rewrite wrap64_id by (int64_unfold; lia).
      apply (Z.mod_unique_neg _ _ (Z.quot a b - 1)); lia.
    + apply (Z.mod_unique_pos _ _ (Z.quot a b)); lia.
Qed.

Lemma flooredDiv_div a b :
  int64_range a -> int64_range b -> b <> 0 -> ~ (a = minInt64 /\ b = -1) ->
  flooredDiv a b = a / b.
Proof.
  intros Ha Hb Hb0 Hm. unfold flooredDiv. rewrite rem64_rem by done.
  pose proof (Z.quot_rem' a b) as Hqr. pose proof (Z.rem_bound_abs a b Hb0) as Hrb.
  pose proof (quot_range a b Ha Hb0 Hm) as Hqrg.
  unfold quot64. rewrite (wrap64_id (Z.quot a b)) by done.
  destruct (Z.eqb_spec (Z.rem a b) 0) as [H0 | H0]; simpl.
  { symmetry. replace a with (Z.quot a b * b) at 1 by lia. by apply Z.div_mul. }
  assert ((a < 0 -> Z.rem a b <= 0) /\ (0 <= a -> 0 <= Z.rem a b)) as [Hsn Hsp]
    by (split; intros; [apply Z.rem_nonpos | apply Z.rem_nonneg]; lia).
  destruct (Z.ltb_spec a 0), (Z.ltb_spec b 0); simpl;
    try (apply (Z.div_unique_pos _ _ _ (Z.rem a b)); lia);
    try (apply (Z.div_unique_neg _ _ _ (Z.rem a b)); lia).
  - assert (E : Z.quot a b - 1 = a / b)
      by (apply (Z.div_unique_pos _ _ _ (Z.rem a b + b)); lia).
    unfold sub64. rewrite E. apply wrap64_id. rewrite <- E.
    destruct (Z.eq_dec b 1) as [-> | ]; [rewrite Z.rem_1_r in H0; lia | ].
    pose proof (quot_half a b). int64_unfold. lia.
  - assert (E : Z.quot a b - 1 = a / b)
      by (apply (Z.div_unique_neg _ _ _ (Z.rem a b + b)); lia).
    unfold sub64. rewrite E. apply wrap64_id. rewrite <- E.
    destruct (Z.eq_dec b (-1)) as [-> | ]; [pose proof (Z.rem_bound_abs a (-1)); lia | ].
    pose proof (quot_half a b). int64_unfold. lia.
Qed.

(** A shifted number and bits below the shift do not overlap. *)
Lemma lor_low k a b : 0 <= k -> 0 <= b < 2 ^ k -> Z.lor (Z.shiftl a k) b = a * 2 ^ k + b.
Proof.
  intros Hk Hb. pose proof (Z.add_lor_land (Z.shiftl a k) b) as H.
  assert (Hl : Z.land (Z.shiftl a k) b = 0).
  { apply Z.bits_inj'. intros n Hn. rewrite Z.land_spec, Z.bits_0.
    destruct (Z.lt_ge_cases n k); [by rewrite Z.shiftl_spec_low | ].
    rewrite <- (Z.mod_small b (2 ^ k)) by done. by rewrite Z.mod_pow2_bits_high, andb_false_r by lia. }
  rewrite Z.shiftl_mul_pow2 in * by lia. lia.
Qed.
