(* ===== verification/Float64.v ===== *)
(** * Go's [float64] and Jennifer's mixed int/float comparison

    A float64 is an IEEE 754 binary64 datum, taken from the Standard Library's
    executable specification [SpecFloat] at precision 53 and maximal exponent
    1024.  The file models [compareIntFloat] and [isNaN] of
    internal/interpreter/value.go and [floorDiv] and [floatSign] of
    internal/interpreter/interpreter.go, and proves that an int64 and a float64
    are compared exactly (no rounding through a promotion of the integer).

    Every finite binary64 is an integer multiple of 2^-1074, so its exact value
    is the integer [fval f] counted in that unit; comparing floats, or an
    integer and a float, exactly is comparing those integers. *)

From Stdlib Require Import SpecFloat.
From S2P Require Import Prelude GoInt.
Open Scope Z_scope.

(** ** The binary64 operations *)

Abbreviation float64 := spec_float (only parsing).

Definition prec : Z := 53.
Definition emax : Z := 1024.

Definition fvalid (f : float64) : bool := valid_binary prec emax f.

Definition fadd (a b : float64) : float64 := SFadd prec emax a b.
Definition fsub (a b : float64) : float64 := SFsub prec emax a b.
Definition fmul (a b : float64) : float64 := SFmul prec emax a b.
Definition fdiv (a b : float64) : float64 := SFdiv prec emax a b.
Definition fneg (a : float64) : float64 := SFopp a.
Definition feqb (a b : float64) : bool := SFeqb a b.
Definition fltb (a b : float64) : bool := SFltb a b.
Definition fleb (a b : float64) : bool := SFleb a b.

Definition fzero : float64 := S754_zero false.

(** [float64(n)]: round to nearest even. *)
Definition float64_of_int64 (n : Z) : float64 := binary_normalize prec emax n 0 false.

(** [int64(f)]: truncation toward zero.  Go leaves the conversion of a NaN, an
    infinity or an out-of-range float to the implementation; every use in the
    source is guarded by a range test, so the model's choice (0, or the
    unbounded truncation) is never observed. *)
Definition int64_of_float64 (f : float64) : Z :=
  match f with
  | S754_finite s m e =>
      cond_Zopp s (if 0 <=? e then Zpos m * 2 ^ e else Zpos m / 2 ^ (- e))
  | _ => 0
  end.

(** The literal 9223372036854775808.0, i.e. 2^63, and its opposite. *)
Definition two63 : float64 := S754_finite false 4503599627370496 11.
Definition neg_two63 : float64 := S754_finite true 4503599627370496 11.

(** ** The source's functions *)

(** value.go: [isNaN]. *)
Definition isNaN (f : float64) : bool := negb (feqb f f).

(** value.go: [compareIntFloat], the sign of (n - f). *)
Definition compareIntFloat (n : Z) (f : float64) : Z :=
  if isNaN f then 1
  else if fleb two63 f then -1
  else if fltb f neg_two63 then 1
  else
    let tf := int64_of_float64 f in
    if n <? tf then -1
    else if tf <? n then 1
    else
      let frac := fsub f (float64_of_int64 tf) in
      if fltb fzero frac then -1
      else if fltb frac fzero then 1
      else 0.

(** interpreter.go: [floatSign]. *)
Definition floatSign (a b : float64) : Z :=
  if fltb a b then -1 else if fltb b a then 1 else 0.

(** interpreter.go: [floorDiv]. *)
Definition floorDiv (a b : float64) : float64 :=
  let q := fdiv a b in
  if negb (feqb q q) || fleb two63 q || fleb q neg_two63 then q
  else if fltb q fzero && negb (feqb q (float64_of_int64 (int64_of_float64 q)))
  then float64_of_int64 (sub64 (int64_of_float64 q) 1)
  else float64_of_int64 (int64_of_float64 q).

(** interpreter.go, [evalArithmetic]: [r-r != 0] holds exactly for the
    non-finite results; fold.go asks [math.IsInf || math.IsNaN] instead. *)
Definition nonfinite_by_sub (r : float64) : bool := negb (feqb (fsub r r) fzero).
Definition IsInf (f : float64) : bool :=
  match f with S754_infinity _ => true | _ => false end.
Definition IsNaN (f : float64) : bool :=
  match f with S754_nan => true | _ => false end.

(** ** Exact values *)

(** The value of a finite float in units of 2^-1074. *)
Definition fval (f : float64) : Z :=
  match f with
  | S754_finite s m e => cond_Zopp s (Zpos m) * 2 ^ (e + 1074)
  | _ => 0
  end.

Definition ffinite (f : float64) : bool :=
  match f with S754_zero _ | S754_finite _ _ _ => true | _ => false end.

(** The value of an integer in the same unit. *)
Definition zval (n : Z) : Z := n * 2 ^ 1074.

(** Sign of a comparison, as the Go code spells it. *)
Definition csign (c : comparison) : Z :=
  match c with Lt => -1 | Eq => 0 | Gt => 1 end.

(** ** Digits *)

Lemma digits2_log2 p : Zpos (digits2_pos p) = Z.log2 (Zpos p) + 1.
Proof.
  assert (H : forall q, Zpos (digits2_pos q) = Zpos (Pos.size q)).
  { induction q; simpl; rewrite ?Pos2Z.inj_succ; [by rewrite IHq | by rewrite IHq | done]. }
  rewrite H. destruct p; simpl; rewrite ?Pos2Z.inj_succ; lia.
Qed.

Lemma log2_scale p k : 0 <= k -> Z.log2 (Zpos p * 2 ^ k) = Z.log2 (Zpos p) + k.
Proof. intros. rewrite Z.log2_mul_pow2 by lia. lia. Qed.

(** What [valid_binary] says of a finite datum: bounded exponent, at most 53
    bits, and exactly 53 above the smallest exponent. *)
Lemma fvalid_finite s m e :
  fvalid (S754_finite s m e) = true <->
  (-1074 <= e <= 971 /\ Zpos m < 2 ^ 53 /\ (-1074 < e -> 2 ^ 52 <= Zpos m)).
Proof.
  unfold fvalid, valid_binary, bounded, canonical_mantissa, fexp, emin, prec, emax.
  rewrite andb_true_iff, Z.eqb_eq, Z.leb_le, digits2_log2.
  pose proof (Z.log2_spec (Zpos m) ltac:(lia)) as [Hl Hu].
  pose proof (Z.log2_nonneg (Zpos m)).
  split.
  - intros [He Hx]. assert (Hd : Z.log2 (Zpos m) <= 52) by lia.
    split; [lia | split].
    + apply Z.lt_le_trans with (1 := Hu). apply Z.pow_le_mono_r; lia.
    + intros. assert (Z.log2 (Zpos m) = 52) as E by lia. by rewrite E in Hl.
  - intros (He & Hm & Hn).
    assert (Z.log2 (Zpos m) <= 52).
    { destruct (Z_le_gt_dec (Z.log2 (Zpos m)) 52) as [ | Hg]; [done | ].
      assert (2 ^ 53 <= 2 ^ Z.log2 (Zpos m)) by (apply Z.pow_le_mono_r; lia). lia. }
    assert (-1074 < e -> Z.log2 (Zpos m) = 52).
    { intros Hlt. specialize (Hn Hlt). assert (52 <= Z.log2 (Zpos m)); [ | lia].
      change 52 with (Z.log2 (2 ^ 52)) at 1. by apply Z.log2_le_mono. }
    lia.
Qed.

(** ** Float comparison is exact comparison of values *)

Lemma mag_lt s1 m1 e1 s2 m2 e2 :
  fvalid (S754_finite s1 m1 e1) = true -> fvalid (S754_finite s2 m2 e2) = true ->
  e1 < e2 -> Zpos m1 * 2 ^ (e1 + 1074) < Zpos m2 * 2 ^ (e2 + 1074).
Proof.
  intros (He1 & Hm1 & _)%fvalid_finite (He2 & _ & Hn2)%fvalid_finite Hlt.
  specialize (Hn2 ltac:(lia)).
  replace (e2 + 1074) with (e1 + 1074 + (e2 - e1)) by lia.
  rewrite (Z.pow_add_r 2 (e1 + 1074)) by lia.
  assert (2 <= 2 ^ (e2 - e1)).
  { change 2 with (2 ^ 1) at 1. apply Z.pow_le_mono_r; lia. }
  assert (0 < 2 ^ (e1 + 1074)) by (apply Z.pow_pos_nonneg; lia).
  generalize dependent (2 ^ (e1 + 1074)). generalize dependent (2 ^ (e2 - e1)).
  intros K HK P HP. rewrite (Z.mul_comm P K), Z.mul_assoc.
  apply Z.mul_lt_mono_pos_r; [done | ].
  assert (2 ^ 52 * 2 <= Zpos m2 * K) by (apply Z.mul_le_mono_nonneg; lia). lia.
Qed.

(** The magnitude comparison made by [SFcompare], on valid data. *)
Lemma mag_compare s1 m1 e1 s2 m2 e2 :
  fvalid (S754_finite s1 m1 e1) = true -> fvalid (S754_finite s2 m2 e2) = true ->
  match e1 ?= e2 with Lt => Lt | Gt => Gt | Eq => Pos.compare_cont Eq m1 m2 end
  = (Zpos m1 * 2 ^ (e1 + 1074) ?= Zpos m2 * 2 ^ (e2 + 1074)).
Proof.
  intros H1 H2. destruct (Z.compare_spec e1 e2) as [-> | Hl | Hl].
  - assert (0 < 2 ^ (e2 + 1074)).
    { apply fvalid_finite in H2 as [? _]. apply Z.pow_pos_nonneg; lia. }
    rewrite (Z.mul_comm (Zpos m1)), (Z.mul_comm (Zpos m2)).
    by rewrite <- Zmult_compare_compat_l by lia.
  - symmetry. apply Z.compare_lt_iff. by eapply mag_lt.
  - symmetry. apply Z.compare_gt_iff. by eapply mag_lt.
Qed.

Lemma fval_sign s m e :
  fvalid (S754_finite s m e) = true ->
  if s then fval (S754_finite s m e) < 0 else 0 < fval (S754_finite s m e).
Proof.
  intros [He _]%fvalid_finite. unfold fval.
  assert (0 < 2 ^ (e + 1074)) by (apply Z.pow_pos_nonneg; lia).
  destruct s; unfold cond_Zopp; nia.
Qed.

Lemma fcompare_exact x y :
  fvalid x = true -> fvalid y = true -> ffinite x = true -> ffinite y = true ->
  SFcompare x y = Some (fval x ?= fval y).
Proof.
  intros Hx Hy Fx Fy.
  destruct x as [ | | | s1 m1 e1], y as [ | | | s2 m2 e2]; try discriminate; cbn [SFcompare].
  - done.
  - apply fval_sign in Hy. change (fval (S754_zero s)) with 0.
    destruct s2; f_equal; symmetry; [apply Z.compare_gt_iff | apply Z.compare_lt_iff]; exact Hy.
  - apply fval_sign in Hx. change (fval (S754_zero s)) with 0.
    destruct s1; f_equal; symmetry; [apply Z.compare_lt_iff | apply Z.compare_gt_iff]; exact Hx.
  - f_equal. pose proof (mag_compare _ _ _ _ _ _ Hx Hy) as Hc.
    destruct s1, s2.
    + unfold fval, cond_Zopp. rewrite !Z.mul_opp_l, Z.compare_opp.
      rewrite (Z.compare_antisym (Zpos m1 * _)), <- Hc. by destruct (e1 ?= e2).
    + apply fval_sign in Hx, Hy. symmetry. apply Z.compare_lt_iff. lia.
    + apply fval_sign in Hx, Hy. symmetry. apply Z.compare_gt_iff. lia.
    + exact Hc.
Qed.

Section Exact.
Context (x y : float64) (Hx : fvalid x = true) (Hy : fvalid y = true)
  (Fx : ffinite x = true) (Fy : ffinite y = true).

Lemma feqb_exact : feqb x y = (fval x =? fval y).
Proof.
  unfold feqb, SFeqb. rewrite fcompare_exact by done.
  destruct (Z.compare_spec (fval x) (fval y)) as [-> | H | H];
    [by rewrite Z.eqb_refl | symmetry; apply Z.eqb_neq; lia..].
Qed.

Lemma fltb_exact : fltb x y = (fval x <? fval y).
Proof. unfold fltb, SFltb. rewrite fcompare_exact by done. by unfold Z.ltb; destruct (_ ?= _). Qed.

Lemma fleb_exact : fleb x y = (fval x <=? fval y).
Proof. unfold fleb, SFleb. rewrite fcompare_exact by done. by unfold Z.leb; destruct (_ ?= _). Qed.
End Exact.

(** ** Rounding: exact on representable data, sign-preserving elsewhere *)

Lemma iter_pos_nat {A} (f : A -> A) p x : SpecFloat.iter_pos f p x = Nat.iter (Pos.to_nat p) f x.
Proof.
  revert x. induction p as [p IH | p IH | ]; intros x; cbn [SpecFloat.iter_pos].
  - rewrite !IH, Pos2Nat.inj_xI. replace (S (2 * Pos.to_nat p))
      with (Pos.to_nat p + (Pos.to_nat p + 1))%nat by lia.
    by rewrite !Nat.iter_add.
  - rewrite !IH, Pos2Nat.inj_xO. replace (2 * Pos.to_nat p)%nat
      with (Pos.to_nat p + Pos.to_nat p)%nat by lia.
    by rewrite Nat.iter_add.
  - done.
Qed.

Lemma shr_1_half m r s :
  0 <= m -> shr_1 {| shr_m := m; shr_r := r; shr_s := s |}
            = {| shr_m := m / 2; shr_r := Z.odd m; shr_s := r || s |}.
Proof.
  intros Hm. destruct m as [ | [p | p | ] | p]; [done | .. | lia]; cbn [shr_1].
  - f_equal. change (Zpos p~1) with (2 * Zpos p + 1).
    rewrite Z.mul_comm, Z.div_add_l by lia. by rewrite Z.add_0_r.
  - f_equal. change (Zpos p~0) with (2 * Zpos p).
    by rewrite Z.mul_comm, Z.div_mul by lia.
  - done.
Qed.

Lemma shr_iter_m n m r s :
  0 <= m -> shr_m (Nat.iter n shr_1 {| shr_m := m; shr_r := r; shr_s := s |})
            = m / 2 ^ Z.of_nat n.
Proof.
  revert m r s. induction n as [ | n IH]; intros m r s Hm.
  - by rewrite Z.div_1_r.
  - rewrite Nat.iter_succ_r, shr_1_half by done. rewrite IH by (apply Z.div_pos; lia).
    rewrite Z.div_div by lia. f_equal.
    by rewrite Nat2Z.inj_succ, Z.pow_succ_r by lia.
Qed.

Lemma shr_iter_exact n m :
  0 <= m ->
  Nat.iter n shr_1 {| shr_m := m * 2 ^ Z.of_nat n; shr_r := false; shr_s := false |}
  = {| shr_m := m; shr_r := false; shr_s := false |}.
Proof.
  revert m. induction n as [ | n IH]; intros m Hm.
  - by rewrite Z.mul_1_r.
  - rewrite Nat.iter_succ_r, Nat2Z.inj_succ, Z.pow_succ_r by lia.
    rewrite shr_1_half by (apply Z.mul_nonneg_nonneg; lia).
    replace (m * (2 * 2 ^ Z.of_nat n)) with ((m * 2 ^ Z.of_nat n) * 2) by lia.
    rewrite Z.div_mul by lia. rewrite Z.odd_mul, andb_false_r. apply IH, Hm.
Qed.

Lemma shr_m_div m l e n :
  0 <= m -> 0 <= n ->
  shr_m (fst (shr (shr_record_of_loc m l) e n)) = m / 2 ^ n.
Proof.
  intros Hm Hn. destruct n as [ | p | p]; [ | | lia].
  - rewrite Z.div_1_r. by destruct l as [ | []].
  - cbn [shr fst]. rewrite iter_pos_nat.
    destruct (shr_record_of_loc m l) as [m' r s] eqn:E.
    assert (m' = m) as -> by (destruct l as [ | []]; by injection E).
    rewrite shr_iter_m by done. by rewrite positive_nat_Z.
Qed.

Lemma shr_e_add mrs e n : 0 <= n -> snd (shr mrs e n) = e + n.
Proof. destruct n; simpl; lia. Qed.

Lemma shr_exact m e n :
  0 <= m -> 0 <= n ->
  shr {| shr_m := m * 2 ^ n; shr_r := false; shr_s := false |} e n
  = ({| shr_m := m; shr_r := false; shr_s := false |}, e + n).
Proof.
  intros Hm Hn. destruct n as [ | p | p]; [ | | lia].
  - by rewrite Z.mul_1_r, Z.add_0_r.
  - cbn [shr]. rewrite iter_pos_nat. f_equal.
    rewrite <- (positive_nat_Z p). apply shr_iter_exact, Hm.
Qed.

(** Rounding leaves a mantissa that already has the right exponent alone. *)
Lemma round_aux_canonical s m e k :
  0 <= k -> fvalid (S754_finite s m e) = true ->
  binary_round_aux prec emax s (Zpos m * 2 ^ k) (e - k) loc_Exact = S754_finite s m e.
Proof.
  intros Hk Hv. pose proof Hv as (He & _)%fvalid_finite.
  unfold fvalid, valid_binary, bounded, canonical_mantissa in Hv.
  apply andb_true_iff in Hv as [Hc%Z.eqb_eq He'].
  assert (Hd : Zdigits2 (Zpos m * 2 ^ k) + (e - k) = Zpos (digits2_pos m) + e).
  { assert (0 < 2 ^ k) by (apply Z.pow_pos_nonneg; lia).
    destruct (Zpos m * 2 ^ k) as [ | q | q] eqn:E; [lia | | lia]. cbn [Zdigits2].
    rewrite !digits2_log2, <- E, log2_scale by done. lia. }
  unfold binary_round_aux, shr_fexp, shr_record_of_loc. rewrite Hd, Hc.
  replace (e - (e - k)) with k by lia.
  rewrite shr_exact by lia. cbn [loc_of_shr_record round_nearest_even shr_m].
  replace (e - k + k) with e by lia. change (Zdigits2 (Zpos m)) with (Zpos (digits2_pos m)).
  rewrite Hc, Z.sub_diag. cbn [shr shr_m]. by rewrite He'.
Qed.

Lemma iter_xO p d : Zpos (Pos.iter xO p d) = Zpos p * 2 ^ Zpos d.
Proof.
  induction d as [ | d IH] using Pos.peano_ind; [simpl; lia | ].
  rewrite Pos.iter_succ. change (Zpos (Pos.iter xO p d)~0) with (2 * Zpos (Pos.iter xO p d)).
  rewrite IH, Pos2Z.inj_succ, Z.pow_succ_r by lia. lia.
Qed.

Lemma shl_align_le m e e' :
  e' <= e -> shl_align m e e' = (Pos.iter xO m (Z.to_pos (e - e')), e') \/
             (e = e' /\ shl_align m e e' = (m, e)).
Proof.
  intros Hle. unfold shl_align. destruct (e' - e) as [ | d | d] eqn:E; [ | lia | ].
  - right. split; [lia | done].
  - left. by replace (Z.to_pos (e - e')) with d by lia.
Qed.

Lemma shl_align_val m e e' :
  e' <= e -> Zpos (fst (shl_align m e e')) = Zpos m * 2 ^ (e - e').
Proof.
  intros Hle. unfold shl_align. destruct (e' - e) as [ | d | d] eqn:E; [ | lia | ].
  - simpl. replace (e - e') with 0 by lia. lia.
  - cbn [fst]. rewrite iter_xO. f_equal. f_equal. lia.
Qed.

Lemma shl_align_gt m e e' : e < e' -> shl_align m e e' = (m, e).
Proof. intros. unfold shl_align. by destruct (e' - e) eqn:E; [ | | lia]. Qed.

(** A representable integer converts to its own float. *)
Lemma float64_of_int64_repr s m e n :
  fvalid (S754_finite s m e) = true -> fval (S754_finite s m e) = zval n ->
  float64_of_int64 n = S754_finite s m e.
Proof.
  intros Hv Heq. pose proof Hv as (He & _)%fvalid_finite.
  pose proof Hv as Hc. unfold fvalid, valid_binary, bounded, canonical_mantissa in Hc.
  apply andb_true_iff in Hc as [Hc%Z.eqb_eq _].
  assert (Hn : exists p, n = cond_Zopp s (Zpos p) /\ Zpos p * 2 ^ 1074 = Zpos m * 2 ^ (e + 1074)).
  { unfold fval, zval in Heq. assert (0 < 2 ^ (e + 1074)) by (apply Z.pow_pos_nonneg; lia).
    assert (0 < 2 ^ 1074) by (apply Z.pow_pos_nonneg; lia).
    destruct n as [ | p | p], s; unfold cond_Zopp in *; try nia; exists p; split; nia. }
  destruct Hn as (p & -> & Hp).
  assert (Hround : binary_round prec emax s p 0 = S754_finite s m e).
  { assert (Hdig : Zpos (digits2_pos p) + 0 = Zpos (digits2_pos m) + e).
    { rewrite !digits2_log2. apply (f_equal Z.log2) in Hp.
      rewrite !log2_scale in Hp by lia. lia. }
    unfold binary_round. rewrite Hdig, Hc.
    destruct (Z_le_gt_dec e 0) as [Hle | Hgt].
    - assert (Zpos m = Zpos p * 2 ^ (- e)) as Hm.
      { replace 1074 with (- e + (e + 1074)) in Hp at 1 by lia.
        rewrite Z.pow_add_r, Z.mul_assoc in Hp by lia.
        apply Z.mul_reg_r in Hp; [done | apply Z.pow_nonzero; lia]. }
      pose proof (round_aux_canonical s m e 0 ltac:(lia) Hv) as Hr.
      rewrite Z.mul_1_r, Z.sub_0_r in Hr.
      pose proof (shl_align_val p 0 e Hle) as Hs. replace (0 - e) with (- e) in Hs by lia.
      rewrite <- Hm in Hs.
      destruct (shl_align_le p 0 e Hle) as [E | [<- E]]; rewrite E in *; cbn [fst] in Hs;
        by rewrite Hs.
    - rewrite shl_align_gt by lia.
      assert (Zpos p = Zpos m * 2 ^ e) as Hm.
      { rewrite Z.pow_add_r, Z.mul_assoc in Hp by lia.
        apply Z.mul_reg_r in Hp; [done | apply Z.pow_nonzero; lia]. }
      pose proof (round_aux_canonical s m e e ltac:(lia) Hv) as Hr.
      rewrite Z.sub_diag in Hr. by rewrite Hm. }
  unfold float64_of_int64, binary_normalize. destruct s; exact Hround.
Qed.

(** Every integer below 2^53 in magnitude is representable. *)
Lemma small_int_repr n :
  n <> 0 -> Z.abs n < 2 ^ 53 ->
  exists s m e, fvalid (S754_finite s m e) = true /\ fval (S754_finite s m e) = zval n.
Proof.
  intros Hn Hlt. set (d := Z.log2 (Z.abs n)).
  pose proof (Z.log2_spec (Z.abs n) ltac:(lia)) as [Hl Hu]. fold d in Hl, Hu.
  assert (0 <= d <= 52) as Hd.
  { split; [apply Z.log2_nonneg | ]. destruct (Z_le_gt_dec d 52) as [ | Hg]; [done | ].
    assert (2 ^ 53 <= 2 ^ d) by (apply Z.pow_le_mono_r; lia). lia. }
  assert (Hpow : 2 ^ d * 2 ^ (52 - d) = 2 ^ 52) by (rewrite <- Z.pow_add_r by lia; f_equal; lia).
  assert (0 < 2 ^ (52 - d)) by (apply Z.pow_pos_nonneg; lia).
  exists (n <? 0), (Z.to_pos (Z.abs n * 2 ^ (52 - d))), (d - 52). split.
  - apply fvalid_finite. rewrite Z2Pos.id by nia. split; [lia | split; [ | nia]].
    replace (2 ^ 53) with (2 ^ Z.succ d * 2 ^ (52 - d));
      [nia | rewrite <- Z.pow_add_r by lia; f_equal; lia].
  - unfold fval, zval. rewrite Z2Pos.id by nia.
    replace (d - 52 + 1074) with (1074 - (52 - d)) by lia.
    replace (2 ^ 1074) with (2 ^ (52 - d) * 2 ^ (1074 - (52 - d)))
      by (rewrite <- Z.pow_add_r by lia; f_equal; lia).
    unfold cond_Zopp. destruct (Z.ltb_spec n 0); nia.
Qed.

(** ** Truncation *)

Lemma int64_of_float64_bounds f :
  fvalid f = true -> ffinite f = true ->
  let t := int64_of_float64 f in
  (0 <= fval f /\ zval t <= fval f < zval (t + 1)) \/
  (fval f <= 0 /\ zval (t - 1) < fval f <= zval t).
Proof.
  intros Hv Hf. assert (0 < 2 ^ 1074) by (apply Z.pow_pos_nonneg; lia).
  destruct f as [s | | | s m e]; cbn [int64_of_float64 fval]; [ | done | done | ].
  { left. unfold zval. lia. }
  apply fvalid_finite in Hv as (He & _).
  set (t := if 0 <=? e then Zpos m * 2 ^ e else Zpos m / 2 ^ (- e)).
  assert (Ht : t * 2 ^ 1074 <= Zpos m * 2 ^ (e + 1074) < (t + 1) * 2 ^ 1074).
  { subst t. destruct (Z.leb_spec 0 e).
    - rewrite Z.pow_add_r by lia. nia.
    - assert (2 ^ 1074 = 2 ^ (- e) * 2 ^ (e + 1074)) as ->
        by (rewrite <- Z.pow_add_r by lia; f_equal; lia).
      assert (0 < 2 ^ (- e)) by (apply Z.pow_pos_nonneg; lia).
      assert (0 < 2 ^ (e + 1074)) by (apply Z.pow_pos_nonneg; lia).
      pose proof (Z.mul_div_le (Zpos m) (2 ^ (- e)) ltac:(lia)).
      pose proof (Z.mul_succ_div_gt (Zpos m) (2 ^ (- e)) ltac:(lia)). nia. }
  assert (0 < Zpos m * 2 ^ (e + 1074)).
  { assert (0 < 2 ^ (e + 1074)) by (apply Z.pow_pos_nonneg; lia). nia. }
  unfold zval. destruct s; unfold cond_Zopp; [right | left]; nia.
Qed.

(** An integral float above the subnormal range of fractions is its truncation. *)
Lemma trunc_integral s m e :
  fvalid (S754_finite s m e) = true -> 0 <= e ->
  fval (S754_finite s m e) = zval (int64_of_float64 (S754_finite s m e)).
Proof.
  intros _ He. cbn [fval int64_of_float64]. destruct (Z.leb_spec 0 e); [ | lia].
  unfold zval, cond_Zopp. rewrite Z.pow_add_r by lia. destruct s; lia.
Qed.

(** [float64(int64(f))] is exact for every finite f. *)
Lemma float64_of_trunc f :
  fvalid f = true -> ffinite f = true ->
  let g := float64_of_int64 (int64_of_float64 f) in
  fvalid g = true /\ ffinite g = true /\ fval g = zval (int64_of_float64 f).
Proof.
  intros Hv Hf g. subst g.
  destruct f as [s | | | s m e]; [by repeat split | done | done | ].
  destruct (decide (int64_of_float64 (S754_finite s m e) = 0)) as [-> | Hn]; [by repeat split | ].
  assert (exists s' m' e', fvalid (S754_finite s' m' e') = true /\
    fval (S754_finite s' m' e') = zval (int64_of_float64 (S754_finite s m e)))
    as (s' & m' & e' & Hv' & Hq).
  { destruct (Z_le_gt_dec 0 e) as [He | He].
    - exists s, m, e. split; [done | by apply trunc_integral].
    - apply small_int_repr; [done | ]. apply fvalid_finite in Hv as (? & Hm & _).
      cbn [int64_of_float64]. destruct (Z.leb_spec 0 e); [lia | ].
      assert (0 <= Zpos m / 2 ^ (- e) <= Zpos m).
      { assert (1 <= 2 ^ (- e)) by (change 1 with (2 ^ 0); apply Z.pow_le_mono_r; lia).
        split; [apply Z.div_pos; lia | ]. apply Z.div_le_upper_bound; nia. }
      unfold cond_Zopp. destruct s; lia. }
  rewrite (float64_of_int64_repr _ _ _ _ Hv' Hq). by repeat split.
Qed.

(** ** The sign of a difference survives rounding *)

Lemma shift_pos m e :
  0 < m -> -1074 <= e ->
  0 < m / 2 ^ Z.max 0 (fexp prec emax (Zdigits2 m + e) - e) /\
  -1074 <= e + Z.max 0 (fexp prec emax (Zdigits2 m + e) - e).
Proof.
  intros Hm He. destruct m as [ | p | p]; [lia | | lia]. cbn [Zdigits2].
  rewrite digits2_log2. pose proof (Z.log2_nonneg (Zpos p)).
  pose proof (Z.log2_spec (Zpos p) Hm) as [Hl _].
  unfold fexp, emin, prec, emax. split; [ | lia]. apply Z.div_str_pos. split.
  - apply Z.pow_pos_nonneg; lia.
  - etransitivity; [ | exact Hl]. apply Z.pow_le_mono_r; lia.
Qed.

Lemma shr_pos_m m l e n :
  0 < m -> shr_m (fst (shr (shr_record_of_loc m l) e n)) = m / 2 ^ Z.max 0 n /\
           snd (shr (shr_record_of_loc m l) e n) = e + Z.max 0 n.
Proof.
  intros Hm. destruct (Z_le_gt_dec 0 n).
  - rewrite Z.max_r by lia. rewrite shr_m_div, shr_e_add by lia. done.
  - rewrite Z.max_l by lia. destruct n; [lia | lia | ]. cbn [shr fst snd].
    rewrite Z.div_1_r, Z.add_0_r. by destruct l as [ | []].
Qed.

Lemma round_aux_sign s m e l :
  0 < m -> -1074 <= e ->
  SFcompare (binary_round_aux prec emax s m e l) fzero = Some (if s then Lt else Gt).
Proof.
  intros Hm He. unfold binary_round_aux, shr_fexp.
  destruct (shift_pos m e Hm He) as [Hq He'].
  destruct (shr_pos_m m l e (fexp prec emax (Zdigits2 m + e) - e) Hm) as [E1 E2].
  destruct (shr (shr_record_of_loc m l) e _) as [mrs' e']. cbn [fst snd] in E1, E2.
  rewrite <- E1 in Hq. rewrite <- E2 in He'. clear E1 E2.
  set (q := round_nearest_even (shr_m mrs') (loc_of_shr_record mrs')).
  assert (Hq' : 0 < q).
  { subst q. destruct (loc_of_shr_record mrs') as [ | []]; simpl; try lia. destruct (Z.even _); lia. }
  destruct (shift_pos q e' Hq' He') as [Hq'' _].
  destruct (shr_pos_m q loc_Exact e' (fexp prec emax (Zdigits2 q + e') - e') Hq') as [E1 _].
  destruct (shr (shr_record_of_loc q loc_Exact) e' _) as [mrs'' e'']. cbn [fst] in E1.
  rewrite <- E1 in Hq''. destruct (shr_m mrs'') as [ | p | p]; [lia | | lia].
  destruct (e'' <=? emax - prec); by destruct s.
Qed.

Lemma normalize_sign d e :
  -1074 <= e -> SFcompare (binary_normalize prec emax d e false) fzero = Some (d ?= 0).
Proof.
  intros He. destruct d as [ | p | p]; [done | ..]; unfold binary_normalize, binary_round;
    (destruct (Z_le_gt_dec (fexp prec emax (Zpos (digits2_pos p) + e)) e) as [Hle | Hgt];
     [ destruct (shl_align_le p e _ Hle) as [-> | [Heq ->]] | rewrite shl_align_gt by lia ];
     apply round_aux_sign; try lia; unfold fexp, emin, prec, emax; lia).
Qed.

(** Floating subtraction never loses or changes the sign of the exact
    difference (binary64 has gradual underflow). *)
Lemma fsub_sign x y :
  fvalid x = true -> fvalid y = true -> ffinite x = true -> ffinite y = true ->
  SFcompare (fsub x y) fzero = Some (fval x ?= fval y).
Proof.
  intros Hx Hy Fx Fy. destruct x as [ | | | s1 m1 e1]; try discriminate;
    destruct y as [ | | | s2 m2 e2]; try discriminate.
  - by destruct s, s0.
  - rewrite <- fcompare_exact by done. by destruct s2.
  - rewrite <- fcompare_exact by done. by destruct s1.
  - pose proof Hx as [He1 _]%fvalid_finite. pose proof Hy as [He2 _]%fvalid_finite.
    unfold fsub, SFsub. rewrite normalize_sign by lia.
    rewrite !shl_align_val by lia. f_equal. unfold fval.
    set (ez := Z.min e1 e2). assert (0 < 2 ^ (ez + 1074)) by (apply Z.pow_pos_nonneg; lia).
    replace (e1 + 1074) with ((e1 - ez) + (ez + 1074)) by lia.
    replace (e2 + 1074) with ((e2 - ez) + (ez + 1074)) by lia.
    rewrite (Z.pow_add_r 2 (e1 - ez)), (Z.pow_add_r 2 (e2 - ez)), !Z.mul_assoc by lia.
    rewrite <- Zmult_compare_compat_r, <- Z.compare_sub by lia.
    unfold cond_Zopp. by destruct s1, s2; rewrite ?Z.mul_opp_l.
Qed.

(** ** The mixed comparison is exact *)

Lemma isNaN_finite f : fvalid f = true -> isNaN f = IsNaN f.
Proof.
  intros Hv. unfold isNaN. destruct f as [s | s | | s m e]; [by destruct s | by destruct s | done | ].
  by rewrite feqb_exact, Z.eqb_refl by done.
Qed.

(** The order of an int64 and a non-NaN float64, computed without rounding. *)
Definition exactIntFloat (n : Z) (f : float64) : comparison :=
  match f with
  | S754_infinity s => if s then Gt else Lt
  | _ => zval n ?= fval f
  end.

Lemma zval_lt a b : a < b -> zval a < zval b.
Proof. unfold zval. assert (0 < 2 ^ 1074) by (apply Z.pow_pos_nonneg; lia). nia. Qed.

Lemma zval_le a b : a <= b -> zval a <= zval b.
Proof. unfold zval. assert (0 < 2 ^ 1074) by (apply Z.pow_pos_nonneg; lia). nia. Qed.

Lemma fval_two63 : fval two63 = zval (2 ^ 63).
Proof. unfold zval, fval, two63, cond_Zopp. rewrite <- !Z.pow_add_r by lia.
  change (Zpos 4503599627370496) with (2 ^ 52). by rewrite <- Z.pow_add_r by lia. Qed.

Lemma fval_neg_two63 : fval neg_two63 = zval (- 2 ^ 63).
Proof.
  pose proof fval_two63 as H. unfold zval, fval, two63, neg_two63, cond_Zopp in *. lia.
Qed.

Lemma compareIntFloat_sign n f :
  int64_range n -> fvalid f = true -> IsNaN f = false ->
  compareIntFloat n f = csign (exactIntFloat n f).
Proof.
  intros Hn Hv Hnan. unfold compareIntFloat. rewrite isNaN_finite, Hnan by done.
  destruct (ffinite f) eqn:Hf.
  2:{ destruct f as [ | [] | | ]; done. }
  assert (Hex : exactIntFloat n f = (zval n ?= fval f)) by by destruct f. rewrite Hex. clear Hex.
  rewrite fleb_exact, fltb_exact, fval_two63, fval_neg_two63 by done.
  destruct (Z.leb_spec (zval (2 ^ 63)) (fval f)) as [Hhi | Hhi].
  { assert (zval n < fval f) as ->%Z.compare_lt_iff; [ | done].
    assert (zval n < zval (2 ^ 63)) by (apply zval_lt; int64_unfold; lia). lia. }
  destruct (Z.ltb_spec (fval f) (zval (- 2 ^ 63))) as [Hlo | Hlo].
  { assert (fval f < zval n) as ->%Z.compare_gt_iff; [ | done].
    assert (zval (- 2 ^ 63) <= zval n) by (apply zval_le; int64_unfold; lia). lia. }
  pose proof (int64_of_float64_bounds f Hv Hf) as Hb. cbv zeta in Hb.
  destruct (Z.ltb_spec n (int64_of_float64 f)) as [Hlt | Hge].
  { assert (zval n < fval f) as ->%Z.compare_lt_iff; [ | done].
    destruct Hb as [[_ Hb] | [_ Hb]].
    - assert (zval n < zval (int64_of_float64 f)) by (by apply zval_lt). lia.
    - assert (zval n <= zval (int64_of_float64 f - 1)) by (apply zval_le; lia). lia. }
  destruct (Z.ltb_spec (int64_of_float64 f) n) as [Hgt | Hle].
  { assert (fval f < zval n) as ->%Z.compare_gt_iff; [ | done].
    destruct Hb as [[_ Hb] | [_ Hb]].
    - assert (zval (int64_of_float64 f + 1) <= zval n) by (apply zval_le; lia). lia.
    - assert (zval (int64_of_float64 f) < zval n) by (by apply zval_lt). lia. }
  assert (int64_of_float64 f = n) as Ht by lia.
  destruct (float64_of_trunc f Hv Hf) as (Gv & Gf & Ge). rewrite Ht in *.
  pose proof (fsub_sign f (float64_of_int64 n) Hv Gv Hf Gf) as Hs. rewrite Ge in Hs.
  unfold fltb, SFltb. rewrite Hs.
  assert (Hs' : SFcompare fzero (fsub f (float64_of_int64 n)) = Some (zval n ?= fval f)).
  { rewrite (Z.compare_antisym (fval f)). revert Hs.
    destruct (fsub f (float64_of_int64 n)) as [ | [] | | []]; simpl; congruence || by intros [= <-]. }
  rewrite Hs'. rewrite (Z.compare_antisym (zval n)). by destruct (zval n ?= fval f).
Qed.

(** [float64(int64(f)) == f] tests integrality exactly. *)
Lemma integral_test f :
  fvalid f = true -> ffinite f = true ->
  feqb (float64_of_int64 (int64_of_float64 f)) f = (zval (int64_of_float64 f) =? fval f).
Proof.
  intros Hv Hf. destruct (float64_of_trunc f Hv Hf) as (Gv & Gf & Ge).
  by rewrite feqb_exact, Ge by done.
Qed.

(** The two non-finiteness tests of the source agree. *)
Lemma nonfinite_by_sub_spec r : nonfinite_by_sub r = IsInf r || IsNaN r.
Proof.
  unfold nonfinite_by_sub. destruct r as [[] | [] | | s m e]; try done.
  unfold fsub, SFsub. by rewrite Z.sub_diag.
Qed.
