(* ===== verification/GoSort.v ===== *)
(** * Sorting and searching (Go's package sort)

    [sort.SliceStable] by its contract: the sorted order with equal elements in their original
    order, which has one result, here computed by insertion.  [sort.Search] is the binary
    search of the library.  The lemmas are shared by the libraries that sort. *)

From Stdlib Require Import Sorted Permutation Ascii.
From S2P Require Import Prelude.

Section Stable.
Context {A : Type} (lt : A -> A -> bool).

Fixpoint insertSorted (x : A) (l : list A) : list A :=
  match l with
  | [] => [x]
  | y :: l' => if lt y x then y :: insertSorted x l' else x :: l
  end.

(** [sort.SliceStable(l, lt)]. *)
Fixpoint sliceStable (l : list A) : list A :=
  match l with [] => [] | x :: l => insertSorted x (sliceStable l) end.

Lemma insertSorted_perm x l : insertSorted x l ≡ₚ x :: l.
Proof.
  induction l as [ | y l IH]; simpl; [done | ]. destruct (lt y x); [ | done].
  rewrite IH. apply perm_swap.
Qed.

Lemma sliceStable_perm l : sliceStable l ≡ₚ l.
Proof. induction l as [ | x l IH]; simpl; [done | ]. by rewrite insertSorted_perm, IH. Qed.

(** Elements that never pass each other keep their order. *)
Lemma insertSorted_filter (Q : A -> bool) x l :
  Forall (fun y => Q x = true -> Q y = true -> lt y x = false) l ->
  List.filter Q (insertSorted x l) = List.filter Q (x :: l).
Proof.
  induction l as [ | y l IH]; intros H; [done | ]. inv H. simpl.
  destruct (lt y x) eqn:E; [ | done]. simpl. rewrite IH by done. simpl.
  destruct (Q x), (Q y); try done. discriminate (H2 eq_refl eq_refl).
Qed.

Lemma sliceStable_filter (Q : A -> bool) l :
  (forall x y, x ∈ l -> y ∈ l -> Q x = true -> Q y = true -> lt y x = false) ->
  List.filter Q (sliceStable l) = List.filter Q l.
Proof.
  induction l as [ | x l IH]; intros H; [done | ]. simpl sliceStable. rewrite insertSorted_filter.
  - simpl. rewrite IH; [done | ]. intros. apply H; set_solver.
  - rewrite sliceStable_perm. apply Forall_forall. intros y Hy. apply H; set_solver.
Qed.

(** Sortedness, for a strict weak order on the elements that satisfy [P]. *)
Context (P : A -> Prop)
  (asym : forall a b, P a -> P b -> lt a b = true -> lt b a = false)
  (trans : forall a b c, P a -> P b -> P c -> lt b a = false -> lt c b = false -> lt c a = false).

Lemma insertSorted_sorted x l :
  P x -> Forall P l -> StronglySorted (fun a b => lt b a = false) l ->
  StronglySorted (fun a b => lt b a = false) (insertSorted x l).
Proof.
  intros Hx. induction l as [ | y l IH]; intros Hl Hs; simpl; [by repeat constructor | ].
  inv Hl. inv Hs. destruct (lt y x) eqn:E; constructor; auto.
  - rewrite insertSorted_perm. constructor; [by apply asym | done].
  - by constructor.
  - constructor; [done | ]. rewrite Forall_forall in *. intros z Hz. apply (trans x y z); auto.
Qed.

Lemma sliceStable_sorted l :
  Forall P l -> StronglySorted (fun a b => lt b a = false) (sliceStable l).
Proof.
  induction l as [ | x l IH]; intros H; simpl; [constructor | ]. inv H.
  apply insertSorted_sorted; [done | by rewrite sliceStable_perm | auto].
Qed.
End Stable.

(** A sorted arrangement of given elements is unique when no two of them are tied. *)
Lemma sorted_unique {A} (R : A -> A -> Prop) (l1 l2 : list A) :
  (forall a b, a ∈ l1 -> b ∈ l1 -> R a b -> R b a -> a = b) ->
  l1 ≡ₚ l2 -> StronglySorted R l1 -> StronglySorted R l2 -> l1 = l2.
Proof.
  intros Hanti Hp H1. revert l2 Hp. induction H1 as [ | x l1 H1 IH Hx]; intros l2 Hp H2.
  { by apply Permutation_nil_l in Hp. }
  destruct l2 as [ | y l2]; [by apply Permutation_nil_r in Hp | ].
  inversion H2 as [ | ? ? H2' Hy]; subst. rewrite Forall_forall in Hx, Hy.
  assert (x = y) as ->.
  { assert (x ∈ y :: l2) as Hxin by (rewrite <- Hp; by left).
    assert (y ∈ x :: l1) as Hyin by (rewrite Hp; by left).
    apply elem_of_cons in Hxin as [ | Hxin]; [done | ]. apply elem_of_cons in Hyin as [ | Hyin]; [done | ].
    apply Hanti; [by left | by right | by apply Hx | by apply Hy]. }
  f_equal. apply IH; [ | by apply Permutation_cons_inv in Hp | done].
  intros a b Ha Hb. apply Hanti; by right.
Qed.

(** [sort.Search(n, f)]: every round halves the interval, so [n] rounds are enough. *)
Fixpoint searchRounds (fuel i j : nat) (f : nat -> bool) : nat :=
  match fuel with
  | O => i
  | S fuel =>
      if (i <? j)%nat then
        let h := ((i + j) / 2)%nat in
        if f h then searchRounds fuel i h f else searchRounds fuel (S h) j f
      else i
  end.

Definition Search (n : nat) (f : nat -> bool) : nat := searchRounds n 0 n f.

Lemma searchRounds_spec fuel : forall i j f n,
  (i <= j <= n)%nat -> (j - i <= fuel)%nat ->
  (forall a b, (a <= b)%nat -> f a = true -> f b = true) ->
  (forall m, (m < i)%nat -> f m = false) -> (forall m, (j <= m < n)%nat -> f m = true) ->
  let k := searchRounds fuel i j f in
  (k <= n)%nat /\ (forall m, (m < k)%nat -> f m = false) /\ (forall m, (k <= m < n)%nat -> f m = true).
Proof.
  induction fuel as [ | fuel IH]; intros i j f n Hij Hfuel Hmono Hlo Hhi; cbn [searchRounds].
  { assert (j = i) by lia. subst. split_and!; auto; lia. }
  destruct (Nat.ltb_spec i j) as [Hlt | Hge].
  - pose proof (Nat.div_mod (i + j) 2 ltac:(lia)). pose proof (Nat.mod_upper_bound (i + j) 2 ltac:(lia)).
    set (h := ((i + j) / 2)%nat) in *. destruct (f h) eqn:Eh.
    + apply IH; try done; try lia. intros m Hm. by apply (Hmono h m); [lia | ].
    + apply IH; try done; try lia. intros m Hm.
      destruct (f m) eqn:Em; [ | done]. rewrite (Hmono m h) in Eh; [done | lia | done].
  - assert (j = i) by lia. subst. split_and!; auto; lia.
Qed.

Lemma Search_spec n f :
  (forall a b, (a <= b)%nat -> f a = true -> f b = true) ->
  (Search n f <= n)%nat /\ (forall m, (m < Search n f)%nat -> f m = false) /\
  (forall m, (Search n f <= m < n)%nat -> f m = true).
Proof. intros H. apply searchRounds_spec; auto; lia. Qed.

(** ** Orders *)

Definition notGt (c : comparison) : bool := match c with Gt => false | _ => true end.

(** An order on a type whose [Gt] is the reversed [Lt] and that composes. *)
Record lawful {T} (cmp : T -> T -> comparison) : Prop := {
  lawful_antisym : forall a b, cmp b a = CompOpp (cmp a b);
  lawful_trans : forall a b c, notGt (cmp a b) = true -> notGt (cmp b c) = true -> notGt (cmp a c) = true }.

Lemma ascii_compare_N a b : Ascii.compare a b = (Ascii.N_of_ascii a ?= Ascii.N_of_ascii b)%N.
Proof. done. Qed.

Lemma String_compare_lawful : lawful String.compare.
Proof.
  split; [intros; apply String.compare_antisym | ].
  intros a. induction a as [ | x a IH]; intros [ | y b] [ | z c]; simpl; try done.
  specialize (IH b c). rewrite !ascii_compare_N.
  destruct (N.compare_spec (Ascii.N_of_ascii x) (Ascii.N_of_ascii y)),
    (N.compare_spec (Ascii.N_of_ascii y) (Ascii.N_of_ascii z)),
    (N.compare_spec (Ascii.N_of_ascii x) (Ascii.N_of_ascii z)); simpl; try done; lia.
Qed.

Lemma string_compare_Eq s t : String.compare s t = Eq <-> s = t.
Proof.
  split; [apply String.compare_eq_iff | intros ->].
  induction t as [ | c t IH]; simpl; [done | ]. by rewrite ascii_compare_N, N.compare_refl.
Qed.

Lemma string_ltb_spec a b : String.ltb a b = true <-> String.compare a b = Lt.
Proof. unfold String.ltb. by destruct (String.compare a b). Qed.

(** [b] not below [a] is [a] at most [b]. *)
Lemma string_ltb_false a b : String.ltb b a = false <-> notGt (String.compare a b) = true.
Proof.
  unfold String.ltb. rewrite (lawful_antisym _ String_compare_lawful a b). by destruct (String.compare a b).
Qed.

Lemma string_leb_notGt a b : String.leb a b = notGt (String.compare a b).
Proof. unfold String.leb. by destruct (String.compare a b). Qed.
