(* ===== verification/Utf8.v ===== *)
(** * Go strings and runes

    A Go string is a byte sequence, modelled by [string] (whose characters are
    bytes); a rune is a code point in [Z].  The file models what the sources use
    of Go's UTF-8 support: [strings.Builder.WriteRune] / [string(rune)]
    ([encodeRune]), [utf8.DecodeRuneInString] ([decodeRune]), the conversions
    [[]rune(s)] and [string(runes)], and [utf8.RuneCountInString]; and proves
    that decoding inverts encoding on valid code points.  Base64 encoding stands at the end. *)

From Stdlib Require Import Ascii.
From S2P Require Import Prelude.
Open Scope Z_scope.

Local Ltac Zify.zify_post_hook ::= Z.div_mod_to_equations.

Abbreviation rune := Z (only parsing).

Definition RuneError : rune := 65533. (* U+FFFD *)

Definition byte_of (c : ascii) : Z := Z.of_N (N_of_ascii c).
Definition chr (b : Z) : ascii := ascii_of_N (Z.to_N b).

(** A Unicode scalar value: in range and not a surrogate. *)
Definition valid_rune (r : rune) : bool :=
  ((0 <=? r) && (r <? 55296)) || ((57343 <? r) && (r <=? 1114111)).

Definition str1 (b : Z) : string := String (chr b) EmptyString.

(** [WriteRune]: an invalid code point is written as U+FFFD. *)
Definition encodeRune (r : rune) : string :=
  let r := if valid_rune r then r else RuneError in
  if r <? 128 then str1 r
  else if r <? 2048 then
    str1 (192 + r / 64) +:+ str1 (128 + r mod 64)
  else if r <? 65536 then
    str1 (224 + r / 4096) +:+ str1 (128 + r / 64 mod 64) +:+ str1 (128 + r mod 64)
  else
    str1 (240 + r / 262144) +:+ str1 (128 + r / 4096 mod 64) +:+
    str1 (128 + r / 64 mod 64) +:+ str1 (128 + r mod 64).

Definition in_range (lo hi b : Z) : bool := (lo <=? b) && (b <=? hi).
Definition continuation (b : Z) : bool := in_range 128 191 b.

(** The accepted range of the second byte, by first byte (no overlong forms, no
    surrogates, nothing above U+10FFFF). *)
Definition second_ok (b0 b1 : Z) : bool :=
  if b0 =? 224 then in_range 160 191 b1
  else if b0 =? 237 then in_range 128 159 b1
  else if b0 =? 240 then in_range 144 191 b1
  else if b0 =? 244 then in_range 128 143 b1
  else continuation b1.

(** [utf8.DecodeRuneInString]: the first rune and its width in bytes;
    [(RuneError, 1)] on an invalid encoding, [(RuneError, 0)] on the empty
    string. *)
Definition decodeRune (s : string) : rune * nat :=
  match s with
  | EmptyString => (RuneError, 0%nat)
  | String c0 s1 =>
      let b0 := byte_of c0 in
      if b0 <? 128 then (b0, 1%nat)
      else if in_range 194 223 b0 then
        match s1 with
        | String c1 _ =>
            let b1 := byte_of c1 in
            if second_ok b0 b1 then ((b0 - 192) * 64 + (b1 - 128), 2%nat)
            else (RuneError, 1%nat)
        | _ => (RuneError, 1%nat)
        end
      else if in_range 224 239 b0 then
        match s1 with
        | String c1 (String c2 _) =>
            let b1 := byte_of c1 in let b2 := byte_of c2 in
            if second_ok b0 b1 && continuation b2
            then ((b0 - 224) * 4096 + (b1 - 128) * 64 + (b2 - 128), 3%nat)
            else (RuneError, 1%nat)
        | _ => (RuneError, 1%nat)
        end
      else if in_range 240 244 b0 then
        match s1 with
        | String c1 (String c2 (String c3 _)) =>
            let b1 := byte_of c1 in let b2 := byte_of c2 in let b3 := byte_of c3 in
            if second_ok b0 b1 && continuation b2 && continuation b3
            then ((b0 - 240) * 262144 + (b1 - 128) * 4096 + (b2 - 128) * 64 + (b3 - 128), 4%nat)
            else (RuneError, 1%nat)
        | _ => (RuneError, 1%nat)
        end
      else (RuneError, 1%nat)
  end.

Fixpoint sdrop (n : nat) (s : string) : string :=
  match n, s with
  | S n, String _ s => sdrop n s
  | _, _ => s
  end.

(** The first [n] bytes of a string. *)
Fixpoint stake (n : nat) (s : string) : string :=
  match n, s with
  | S n, String c s => String c (stake n s)
  | _, _ => ""
  end.

(** [strings.Repeat] of one byte. *)
Fixpoint Repeat (c : ascii) (n : nat) : string :=
  match n with O => "" | S n => String c (Repeat c n) end.

(** [[]rune(s)]: the loop consumes at least one byte per rune, so the byte
    length is enough fuel. *)
Fixpoint runes_fuel (fuel : nat) (s : string) : list rune :=
  match fuel, s with
  | S fuel, String _ _ =>
      let '(r, w) := decodeRune s in r :: runes_fuel fuel (sdrop w s)
  | _, _ => []
  end.

Definition runes_of_string (s : string) : list rune := runes_fuel (String.length s) s.

(** [string(runes)]. *)
Fixpoint string_of_runes (rs : list rune) : string :=
  match rs with
  | [] => EmptyString
  | r :: rs => encodeRune r +:+ string_of_runes rs
  end.

Definition RuneCountInString (s : string) : nat := length (runes_of_string s).

(** [[]byte(s)]. *)
Fixpoint bytesOf (s : string) : list Z :=
  match s with EmptyString => [] | String c s => Z.of_N (N_of_ascii c) :: bytesOf s end.

(** [string(b)]. *)
Fixpoint string_of_bytes (b : list Z) : string :=
  match b with [] => EmptyString | x :: b => String (ascii_of_N (Z.to_N x)) (string_of_bytes b) end.

(** ** Lemmas *)

Lemma byte_of_chr b : 0 <= b < 256 -> byte_of (chr b) = b.
Proof.
  intros. unfold byte_of, chr. rewrite N_ascii_embedding by lia. lia.
Qed.

Lemma string_app_cons c (a b : string) : String c a +:+ b = String c (a +:+ b).
Proof. done. Qed.

Lemma string_app_nil (b : string) : EmptyString +:+ b = b.
Proof. done. Qed.

Lemma valid_rune_bounds r :
  valid_rune r = true -> 0 <= r <= 1114111 /\ ~ (55296 <= r <= 57343).
Proof. unfold valid_rune. intros H. b2p. destruct H; b2p; lia. Qed.

Lemma string_app_assoc (a b c : string) : (a +:+ b) +:+ c = a +:+ (b +:+ c).
Proof. induction a as [ | x a IH]; [done | exact (f_equal (String x) IH)]. Qed.

Lemma string_app_nil_r (a : string) : a +:+ EmptyString = a.
Proof. induction a as [ | x a IH]; [done | exact (f_equal (String x) IH)]. Qed.

Lemma string_length_app (a b : string) :
  String.length (a +:+ b) = (String.length a + String.length b)%nat.
Proof. induction a as [ | x a IH]; [done | exact (f_equal S IH)]. Qed.

Lemma sdrop_length n s : String.length (sdrop n s) = (String.length s - n)%nat.
Proof. revert s. induction n as [ | n IH]; intros [ | c s]; simpl; rewrite ?IH; lia. Qed.

Lemma stake_sdrop n s : stake n s +:+ sdrop n s = s.
Proof.
  revert s. induction n as [ | n IH]; intros [ | c s]; try done.
  change (String c (stake n s +:+ sdrop n s) = String c s). by rewrite IH.
Qed.

Lemma string_of_runes_app a b :
  string_of_runes (a ++ b) = string_of_runes a +:+ string_of_runes b.
Proof. induction a as [ | r a IH]; simpl; [done | by rewrite IH, string_app_assoc]. Qed.

#[export] Hint Rewrite string_app_cons string_app_nil string_app_assoc string_app_nil_r string_of_runes_app : go.

(** Decoding returns the encoded rune and its width, whatever follows. *)
Lemma decode_encode r s :
  valid_rune r = true ->
  exists w, decodeRune (encodeRune r +:+ s) = (r, w) /\ sdrop w (encodeRune r +:+ s) = s /\
            (1 <= w)%nat /\ String.length (encodeRune r) = w.
Proof.
  intros Hv. unfold encodeRune. rewrite Hv.
  apply valid_rune_bounds in Hv as [Hr Hs].
  destruct (Z.ltb_spec r 128) as [H1 | H1].
  { exists 1%nat. unfold str1; autorewrite with go; simpl. rewrite byte_of_chr by lia.
    destruct (Z.ltb_spec r 128); [ | lia]. repeat split; lia. }
  destruct (Z.ltb_spec r 2048) as [H2 | H2].
  { exists 2%nat. unfold str1; autorewrite with go; simpl. rewrite !byte_of_chr by lia.
    unfold second_ok, continuation, in_range.
    split; [ | repeat split; lia].
    zbool; f_equal; lia. }
  destruct (Z.ltb_spec r 65536) as [H3 | H3].
  { exists 3%nat. unfold str1; autorewrite with go; simpl. rewrite !byte_of_chr by lia.
    unfold second_ok, continuation, in_range.
    split; [ | repeat split; lia].
    zbool; f_equal; lia. }
  exists 4%nat. unfold str1; autorewrite with go; simpl. rewrite !byte_of_chr by lia.
  unfold second_ok, continuation, in_range.
  split; [ | repeat split; lia].
  zbool; f_equal; lia.
Qed.

Lemma runes_fuel_string rs fuel :
  Forall (fun r => valid_rune r = true) rs ->
  (String.length (string_of_runes rs) <= fuel)%nat ->
  runes_fuel fuel (string_of_runes rs) = rs.
Proof.
  intros Hrs. revert fuel. induction Hrs as [ | r rs Hr _ IH]; intros fuel Hf.
  - by destruct fuel.
  - simpl in *. destruct (decode_encode r (string_of_runes rs) Hr) as (w & Hd & Hs & Hw & Hl).
    rewrite string_length_app, Hl in Hf. destruct fuel as [ | fuel]; [lia | ].
    assert (exists c t, encodeRune r +:+ string_of_runes rs = String c t) as (c & t & E).
    { destruct (encodeRune r +:+ string_of_runes rs) eqn:E; [ | eauto].
      apply (f_equal String.length) in E. rewrite string_length_app, Hl in E. simpl in E. lia. }
    cbn [runes_fuel]. rewrite E at 1. rewrite Hd, Hs. f_equal. apply IH. lia.
Qed.

(** [[]rune(string(rs)) == rs] on valid code points. *)
Lemma runes_of_string_of_runes rs :
  Forall (fun r => valid_rune r = true) rs -> runes_of_string (string_of_runes rs) = rs.
Proof. intros. by apply runes_fuel_string. Qed.

(** * Base64 *)

Open Scope string_scope.
Open Scope list_scope.
Open Scope Z_scope.

(** Digit [n] of the standard alphabet. *)
Definition digit64 (n : Z) : ascii :=
  let c := if n <? 26 then 65 + n
           else if n <? 52 then 71 + n
           else if n <? 62 then n - 4
           else if n =? 62 then 43 else 47 in
  ascii_of_N (Z.to_N c).

(** Three bytes give four digits of six bits; the last group is padded with [=]. *)
Fixpoint EncodeToString (src : list Z) : string :=
  match src with
  | a :: b :: c :: rest =>
      let v := Z.lor (Z.lor (Z.shiftl a 16) (Z.shiftl b 8)) c in
      String (digit64 (Z.shiftr v 18)) (String (digit64 (Z.land (Z.shiftr v 12) 63))
        (String (digit64 (Z.land (Z.shiftr v 6) 63)) (String (digit64 (Z.land v 63)) (EncodeToString rest))))
  | [a; b] =>
      let v := Z.lor (Z.shiftl a 16) (Z.shiftl b 8) in
      String (digit64 (Z.shiftr v 18)) (String (digit64 (Z.land (Z.shiftr v 12) 63))
        (String (digit64 (Z.land (Z.shiftr v 6) 63)) "="))
  | [a] =>
      let v := Z.shiftl a 16 in
      String (digit64 (Z.shiftr v 18)) (String (digit64 (Z.land (Z.shiftr v 12) 63)) "==")
  | [] => ""
  end.

Example EncodeToString_ex : EncodeToString [104; 101; 108; 108; 111] = "aGVsbG8=".
Proof. reflexivity. Qed.
