(* ===== verification/Strconv.v ===== *)
(** * Reading numbers (Go's strconv, as the parser uses it)

    [ParseUint] and [ParseInt] with base 10 or with the base taken from the prefix
    (base 0), and [ParseFloat] on decimal literals, correctly rounded to binary64.  An
    error is the reason of Go's [NumError].  The lexer strips digit separators, so [_] is
    a syntax error here. *)

From Stdlib Require Import Ascii SpecFloat.
From S2P Require Import Prelude Utf8 Float64.
Open Scope string_scope.
Open Scope Z_scope.

Definition ErrSyntax : string := "invalid syntax".
Definition ErrRange : string := "value out of range".

Definition inChars (lo hi c : ascii) : bool := (byte_of lo <=? byte_of c) && (byte_of c <=? byte_of hi).

Definition digitVal (c : ascii) : option Z :=
  if inChars "0" "9" c then Some (byte_of c - byte_of "0")
  else if inChars "a" "z" c then Some (byte_of c - byte_of "a" + 10)
  else if inChars "A" "Z" c then Some (byte_of c - byte_of "A" + 10)
  else None.

(** The digit loop of [ParseUint], for 64 bits. *)
Fixpoint uintLoop (base n : Z) (s : string) : result string Z :=
  match s with
  | EmptyString => Ok n
  | String c s =>
      match digitVal c with
      | None => Err ErrSyntax
      | Some d =>
          if base <=? d then Err ErrSyntax
          else if 2 ^ 64 - 1 <? n * base + d then Err ErrRange
          else uintLoop base (n * base + d) s
      end
  end.

Definition HasPrefix (s p : string) : bool := String.prefix p s.

Definition HasSuffix (s p : string) : bool :=
  (String.length p <=? String.length s)%nat &&
  bool_decide (sdrop (String.length s - String.length p) s = p).

(** The base a literal with base 0 announces, and its digits. *)
Definition announcedBase (s : string) : Z * string :=
  match s with
  | String "0" (String c (String d s')) =>
      if bool_decide (c = "x"%char) || bool_decide (c = "X"%char) then (16, String d s')
      else if bool_decide (c = "o"%char) || bool_decide (c = "O"%char) then (8, String d s')
      else if bool_decide (c = "b"%char) || bool_decide (c = "B"%char) then (2, String d s')
      else (8, String c (String d s'))
  | String "0" s' => (8, s')
  | _ => (10, s)
  end.

(** [strconv.ParseUint(s, base, 64)] for base 0 or 10. *)
Definition ParseUint (s : string) (base : Z) : result string Z :=
  if bool_decide (s = "") then Err ErrSyntax
  else
    let '(b, digits) := if base =? 0 then announcedBase s else (base, s) in
    uintLoop b 0 digits.

(** [strconv.ParseInt(s, base, 64)]. *)
Definition ParseInt (s : string) (base : Z) : result string Z :=
  let '(neg, digits) :=
    match s with
    | String "-" s' => (true, s')
    | String "+" s' => (false, s')
    | _ => (false, s)
    end in
  match ParseUint digits base with
  | Err e => Err e
  | Ok un =>
      if negb neg && (2 ^ 63 <=? un) then Err ErrRange
      else if neg && (2 ^ 63 <? un) then Err ErrRange
      else Ok (if neg then - un else un)
  end.

(** ** Decimal floating-point literals *)

(** A run of digits: its value continuing [n], their number, and the rest. *)
Fixpoint digitRun (s : string) (n : Z) (count : nat) : Z * nat * string :=
  match s with
  | String c s' =>
      if inChars "0" "9" c then digitRun s' (n * 10 + (byte_of c - byte_of "0")) (S count)
      else (n, count, s)
  | EmptyString => (n, count, s)
  end.

(** The exponent digits; the value stops growing at 10000. *)
Fixpoint expRun (s : string) (e : Z) : Z * string :=
  match s with
  | String c s' =>
      if inChars "0" "9" c
      then expRun s' (if e <? 10000 then e * 10 + (byte_of c - byte_of "0") else e)
      else (e, s)
  | EmptyString => (e, s)
  end.

Definition readExp (s : string) : option (Z * string) :=
  match s with
  | String c s' =>
      if bool_decide (c = "e"%char) || bool_decide (c = "E"%char) then
        let '(sign, s') :=
          match s' with
          | String "-" r => (-1, r)
          | String "+" r => (1, r)
          | _ => (1, s')
          end in
        match s' with
        | String d _ =>
            if inChars "0" "9" d then let '(e, r) := expRun s' 0 in Some (sign * e, r) else None
        | EmptyString => None
        end
      else Some (0, s)
  | EmptyString => Some (0, s)
  end.

(** [m * 10 ^ e], rounded to nearest even. *)
Definition decimalToFloat (m e : Z) : float64 :=
  match m with
  | Zpos p =>
      if 0 <=? e then binary_normalize prec emax (m * 10 ^ e) 0 false
      else
        match 10 ^ (- e) with
        | Zpos q => SFdiv prec emax (S754_finite false p 0) (S754_finite false q 0)
        | _ => fzero
        end
  | _ => fzero
  end.

(** [strconv.ParseFloat(s, 64)] on an unsigned decimal literal. *)
Definition ParseFloat (s : string) : result string float64 :=
  let '(n, c1, s1) := digitRun s 0 0 in
  let '(m, c2, s2) :=
    match s1 with
    | String "." r => digitRun r n 0
    | _ => (n, 0%nat, s1)
    end in
  if ((c1 =? 0) && (c2 =? 0))%nat then Err ErrSyntax
  else
    match readExp s2 with
    | Some (e, "") =>
        let f := decimalToFloat m (e - Z.of_nat c2) in
        if IsInf f then Err ErrRange else Ok f
    | _ => Err ErrSyntax
    end.

(** [strconv.ParseFloat] on a text with a sign. *)
Definition parseSigned (s : string) : result string float64 :=
  match s with
  | String "-" r => match ParseFloat r with Ok f => Ok (fneg f) | Err e => Err e end
  | _ => ParseFloat s
  end.

Example ParseFloat_tenth : ParseFloat "0.1" = Ok (S754_finite false 7205759403792794 (-56)).
Proof. vm_compute. reflexivity. Qed.

Example ParseFloat_big : ParseFloat "1.7976931348623159e308" = Err ErrRange.
Proof. vm_compute. reflexivity. Qed.

Example ParseInt_hex : ParseInt "0xff" 0 = Ok 255.
Proof. reflexivity. Qed.
