(* ===== verification/Limits.v ===== *)
(** * Build-time limits (internal/limits)

    The two builds of the interpreter differ in the constants of
    internal/limits: nesting_std.go (the jennifer binary) and nesting_tiny.go
    (jennifer-tiny).  The components that enforce a limit are stated over this
    interface; [limits_std] and [limits_tiny] are its two implementations. *)

From S2P Require Import Prelude.
Open Scope Z_scope.

Class Limits := {
  MaxNestingDepth : Z;
  MaxCallDepth : Z;
  MaxCopyChainBytes : Z;
  MaxRangeElements : Z;
  MaxTokens : Z;
  MaxSourceBytes : Z;
  MaxDecodedNodes : Z;
  MaxAllocBytes : Z;
  MaxStringBytes : Z;
  (** What the clients rely on: every budget admits at least one unit, and a
      materialised range is far below the int64 range. *)
  MaxNestingDepth_pos : 0 < MaxNestingDepth;
  MaxTokens_pos : 0 < MaxTokens;
  MaxRangeElements_bound : 0 < MaxRangeElements < 2 ^ 32;
  MaxDecodedNodes_bound : 0 < MaxDecodedNodes < 2 ^ 62;
  MaxAllocBytes_bound : 0 < MaxAllocBytes < 2 ^ 31;
  MaxStringBytes_bound : 0 < MaxStringBytes < 2 ^ 31
}.

Definition limits_std : Limits.
Proof.
  refine {| MaxNestingDepth := 1000; MaxCallDepth := 10000;
            MaxCopyChainBytes := Z.shiftl 1 30; MaxRangeElements := Z.shiftl 1 22;
            MaxTokens := Z.shiftl 1 22; MaxSourceBytes := Z.shiftl 64 20;
            MaxDecodedNodes := Z.shiftl 1 21; MaxAllocBytes := Z.shiftl 256 20;
            MaxStringBytes := Z.shiftl 1 30 |}; vm_compute; done.
Defined.

Definition limits_tiny : Limits.
Proof.
  refine {| MaxNestingDepth := 64; MaxCallDepth := 120;
            MaxCopyChainBytes := Z.shiftl 64 20; MaxRangeElements := Z.shiftl 1 20;
            MaxTokens := Z.shiftl 1 18; MaxSourceBytes := Z.shiftl 8 20;
            MaxDecodedNodes := Z.shiftl 1 18; MaxAllocBytes := Z.shiftl 32 20;
            MaxStringBytes := Z.shiftl 128 20 |}; vm_compute; done.
Defined.
