(* ===== verification/Token.v ===== *)
(** * Tokens (internal/lexer/token.go)

    The token types in declaration order (Go's [iota] numbering is
    [TokenType_code]), their display names, the token record with its string
    parts, and the keyword table. *)

From S2P Require Import Prelude.
Open Scope Z_scope.

Inductive TokenType :=
  | TOKEN_EOF | TOKEN_ILLEGAL | TOKEN_INT | TOKEN_FLOAT | TOKEN_STRING
  | TOKEN_STRING_INTERP | TOKEN_IDENT | TOKEN_VARREF | TOKEN_DEFINE | TOKEN_FUNC
  | TOKEN_AS | TOKEN_INIT | TOKEN_CONST | TOKEN_INCLUDE | TOKEN_IMPORT | TOKEN_USE
  | TOKEN_RETURN | TOKEN_IF | TOKEN_ELSEIF | TOKEN_ELSE | TOKEN_WHILE | TOKEN_FOR
  | TOKEN_REPEAT | TOKEN_UNTIL | TOKEN_MATCH | TOKEN_WHEN | TOKEN_BREAK | TOKEN_CONTINUE
  | TOKEN_EXIT | TOKEN_TRY | TOKEN_CATCH | TOKEN_THROW | TOKEN_DEFER | TOKEN_ERRDEFER
  | TOKEN_TRUE | TOKEN_FALSE | TOKEN_NULL | TOKEN_AND | TOKEN_OR | TOKEN_NOT | TOKEN_DIV
  | TOKEN_INT_TYPE | TOKEN_FLOAT_TYPE | TOKEN_STRING_TYPE | TOKEN_BOOL_TYPE
  | TOKEN_BYTES_TYPE | TOKEN_LIST | TOKEN_MAP | TOKEN_OF | TOKEN_TO | TOKEN_IN
  | TOKEN_STRUCT | TOKEN_ENUM | TOKEN_LEN | TOKEN_TASK | TOKEN_SPAWN | TOKEN_EXPORT
  | TOKEN_LBRACE | TOKEN_RBRACE | TOKEN_LPAREN | TOKEN_RPAREN | TOKEN_LBRACKET
  | TOKEN_RBRACKET | TOKEN_SEMI | TOKEN_COMMA | TOKEN_COLON | TOKEN_ASSIGN | TOKEN_DOT
  | TOKEN_DOTDOT | TOKEN_PLUS | TOKEN_MINUS | TOKEN_STAR | TOKEN_SLASH | TOKEN_PERCENT
  | TOKEN_LT | TOKEN_GT | TOKEN_LE | TOKEN_GE | TOKEN_EQ | TOKEN_NEQ | TOKEN_BIT_AND
  | TOKEN_BIT_OR | TOKEN_BIT_XOR | TOKEN_BIT_NOT | TOKEN_SHL | TOKEN_SHR
  | TOKEN_COMMENT_LINE | TOKEN_COMMENT_BLOCK | TOKEN_COMMENT_SHEBANG | TOKEN_BLANK_LINE.

(** The [iota] value of a token type. *)
Definition TokenType_code (t : TokenType) : nat :=
  match t with
  | TOKEN_EOF => 0
  | TOKEN_ILLEGAL => 1
  | TOKEN_INT => 2
  | TOKEN_FLOAT => 3
  | TOKEN_STRING => 4
  | TOKEN_STRING_INTERP => 5
  | TOKEN_IDENT => 6
  | TOKEN_VARREF => 7
  | TOKEN_DEFINE => 8
  | TOKEN_FUNC => 9
  | TOKEN_AS => 10
  | TOKEN_INIT => 11
  | TOKEN_CONST => 12
  | TOKEN_INCLUDE => 13
  | TOKEN_IMPORT => 14
  | TOKEN_USE => 15
  | TOKEN_RETURN => 16
  | TOKEN_IF => 17
  | TOKEN_ELSEIF => 18
  | TOKEN_ELSE => 19
  | TOKEN_WHILE => 20
  | TOKEN_FOR => 21
  | TOKEN_REPEAT => 22
  | TOKEN_UNTIL => 23
  | TOKEN_MATCH => 24
  | TOKEN_WHEN => 25
  | TOKEN_BREAK => 26
  | TOKEN_CONTINUE => 27
  | TOKEN_EXIT => 28
  | TOKEN_TRY => 29
  | TOKEN_CATCH => 30
  | TOKEN_THROW => 31
  | TOKEN_DEFER => 32
  | TOKEN_ERRDEFER => 33
  | TOKEN_TRUE => 34
  | TOKEN_FALSE => 35
  | TOKEN_NULL => 36
  | TOKEN_AND => 37
  | TOKEN_OR => 38
  | TOKEN_NOT => 39
  | TOKEN_DIV => 40
  | TOKEN_INT_TYPE => 41
  | TOKEN_FLOAT_TYPE => 42
  | TOKEN_STRING_TYPE => 43
  | TOKEN_BOOL_TYPE => 44
  | TOKEN_BYTES_TYPE => 45
  | TOKEN_LIST => 46
  | TOKEN_MAP => 47
  | TOKEN_OF => 48
  | TOKEN_TO => 49
  | TOKEN_IN => 50
  | TOKEN_STRUCT => 51
  | TOKEN_ENUM => 52
  | TOKEN_LEN => 53
  | TOKEN_TASK => 54
  | TOKEN_SPAWN => 55
  | TOKEN_EXPORT => 56
  | TOKEN_LBRACE => 57
  | TOKEN_RBRACE => 58
  | TOKEN_LPAREN => 59
  | TOKEN_RPAREN => 60
  | TOKEN_LBRACKET => 61
  | TOKEN_RBRACKET => 62
  | TOKEN_SEMI => 63
  | TOKEN_COMMA => 64
  | TOKEN_COLON => 65
  | TOKEN_ASSIGN => 66
  | TOKEN_DOT => 67
  | TOKEN_DOTDOT => 68
  | TOKEN_PLUS => 69
  | TOKEN_MINUS => 70
  | TOKEN_STAR => 71
  | TOKEN_SLASH => 72
  | TOKEN_PERCENT => 73
  | TOKEN_LT => 74
  | TOKEN_GT => 75
  | TOKEN_LE => 76
  | TOKEN_GE => 77
  | TOKEN_EQ => 78
  | TOKEN_NEQ => 79
  | TOKEN_BIT_AND => 80
  | TOKEN_BIT_OR => 81
  | TOKEN_BIT_XOR => 82
  | TOKEN_BIT_NOT => 83
  | TOKEN_SHL => 84
  | TOKEN_SHR => 85
  | TOKEN_COMMENT_LINE => 86
  | TOKEN_COMMENT_BLOCK => 87
  | TOKEN_COMMENT_SHEBANG => 88
  | TOKEN_BLANK_LINE => 89
  end%nat.

(** All token types, in declaration order. *)
Definition TokenTypes : list TokenType :=
  [TOKEN_EOF; TOKEN_ILLEGAL; TOKEN_INT; TOKEN_FLOAT; TOKEN_STRING; TOKEN_STRING_INTERP;
   TOKEN_IDENT; TOKEN_VARREF; TOKEN_DEFINE; TOKEN_FUNC; TOKEN_AS; TOKEN_INIT;
   TOKEN_CONST; TOKEN_INCLUDE; TOKEN_IMPORT; TOKEN_USE; TOKEN_RETURN; TOKEN_IF;
   TOKEN_ELSEIF; TOKEN_ELSE; TOKEN_WHILE; TOKEN_FOR; TOKEN_REPEAT; TOKEN_UNTIL;
   TOKEN_MATCH; TOKEN_WHEN; TOKEN_BREAK; TOKEN_CONTINUE; TOKEN_EXIT; TOKEN_TRY;
   TOKEN_CATCH; TOKEN_THROW; TOKEN_DEFER; TOKEN_ERRDEFER; TOKEN_TRUE; TOKEN_FALSE;
   TOKEN_NULL; TOKEN_AND; TOKEN_OR; TOKEN_NOT; TOKEN_DIV; TOKEN_INT_TYPE;
   TOKEN_FLOAT_TYPE; TOKEN_STRING_TYPE; TOKEN_BOOL_TYPE; TOKEN_BYTES_TYPE; TOKEN_LIST;
   TOKEN_MAP; TOKEN_OF; TOKEN_TO; TOKEN_IN; TOKEN_STRUCT; TOKEN_ENUM; TOKEN_LEN;
   TOKEN_TASK; TOKEN_SPAWN; TOKEN_EXPORT; TOKEN_LBRACE; TOKEN_RBRACE; TOKEN_LPAREN;
   TOKEN_RPAREN; TOKEN_LBRACKET; TOKEN_RBRACKET; TOKEN_SEMI; TOKEN_COMMA; TOKEN_COLON;
   TOKEN_ASSIGN; TOKEN_DOT; TOKEN_DOTDOT; TOKEN_PLUS; TOKEN_MINUS; TOKEN_STAR;
   TOKEN_SLASH; TOKEN_PERCENT; TOKEN_LT; TOKEN_GT; TOKEN_LE; TOKEN_GE; TOKEN_EQ;
   TOKEN_NEQ; TOKEN_BIT_AND; TOKEN_BIT_OR; TOKEN_BIT_XOR; TOKEN_BIT_NOT; TOKEN_SHL;
   TOKEN_SHR; TOKEN_COMMENT_LINE; TOKEN_COMMENT_BLOCK; TOKEN_COMMENT_SHEBANG;
   TOKEN_BLANK_LINE].

Lemma TokenType_code_spec t : TokenTypes !! TokenType_code t = Some t.
Proof. by destruct t. Qed.

(** Equality of token types is equality of their codes. *)
#[export] Instance TokenType_eq_dec : EqDecision TokenType.
Proof.
  intros a b. destruct (decide (TokenType_code a = TokenType_code b)) as [E | E].
  - left. pose proof (TokenType_code_spec a) as Ha. rewrite E, TokenType_code_spec in Ha.
    congruence.
  - right. congruence.
Defined.

(** [TokenType.String]. *)
Definition TokenType_String (t : TokenType) : string :=
  match t with
  | TOKEN_EOF => "EOF"
  | TOKEN_ILLEGAL => "ILLEGAL"
  | TOKEN_INT => "INT"
  | TOKEN_FLOAT => "FLOAT"
  | TOKEN_STRING => "STRING"
  | TOKEN_STRING_INTERP => "STRING_INTERP"
  | TOKEN_IDENT => "IDENT"
  | TOKEN_VARREF => "VARREF"
  | TOKEN_DEFINE => "DEF"
  | TOKEN_FUNC => "FUNC"
  | TOKEN_AS => "AS"
  | TOKEN_INIT => "INIT"
  | TOKEN_CONST => "CONST"
  | TOKEN_INCLUDE => "INCLUDE"
  | TOKEN_IMPORT => "IMPORT"
  | TOKEN_USE => "USE"
  | TOKEN_RETURN => "RETURN"
  | TOKEN_IF => "IF"
  | TOKEN_ELSEIF => "ELSEIF"
  | TOKEN_ELSE => "ELSE"
  | TOKEN_WHILE => "WHILE"
  | TOKEN_FOR => "FOR"
  | TOKEN_REPEAT => "REPEAT"
  | TOKEN_UNTIL => "UNTIL"
  | TOKEN_MATCH => "MATCH"
  | TOKEN_WHEN => "WHEN"
  | TOKEN_BREAK => "BREAK"
  | TOKEN_CONTINUE => "CONTINUE"
  | TOKEN_EXIT => "EXIT"
  | TOKEN_TRY => "TRY"
  | TOKEN_CATCH => "CATCH"
  | TOKEN_THROW => "THROW"
  | TOKEN_DEFER => "DEFER"
  | TOKEN_ERRDEFER => "ERRDEFER"
  | TOKEN_TRUE => "TRUE"
  | TOKEN_FALSE => "FALSE"
  | TOKEN_NULL => "NULL"
  | TOKEN_AND => "AND"
  | TOKEN_OR => "OR"
  | TOKEN_NOT => "NOT"
  | TOKEN_DIV => "DIV"
  | TOKEN_INT_TYPE => "INT_TYPE"
  | TOKEN_FLOAT_TYPE => "FLOAT_TYPE"
  | TOKEN_STRING_TYPE => "STRING_TYPE"
  | TOKEN_BOOL_TYPE => "BOOL_TYPE"
  | TOKEN_BYTES_TYPE => "BYTES_TYPE"
  | TOKEN_LIST => "LIST"
  | TOKEN_MAP => "MAP"
  | TOKEN_OF => "OF"
  | TOKEN_TO => "TO"
  | TOKEN_IN => "IN"
  | TOKEN_STRUCT => "STRUCT"
  | TOKEN_ENUM => "ENUM"
  | TOKEN_LEN => "LEN"
  | TOKEN_TASK => "TASK"
  | TOKEN_SPAWN => "SPAWN"
  | TOKEN_EXPORT => "EXPORT"
  | TOKEN_LBRACE => "LBRACE"
  | TOKEN_RBRACE => "RBRACE"
  | TOKEN_LPAREN => "LPAREN"
  | TOKEN_RPAREN => "RPAREN"
  | TOKEN_LBRACKET => "LBRACKET"
  | TOKEN_RBRACKET => "RBRACKET"
  | TOKEN_SEMI => "SEMI"
  | TOKEN_COMMA => "COMMA"
  | TOKEN_COLON => "COLON"
  | TOKEN_ASSIGN => "ASSIGN"
  | TOKEN_DOT => "DOT"
  | TOKEN_DOTDOT => "DOTDOT"
  | TOKEN_PLUS => "PLUS"
  | TOKEN_MINUS => "MINUS"
  | TOKEN_STAR => "STAR"
  | TOKEN_SLASH => "SLASH"
  | TOKEN_PERCENT => "PERCENT"
  | TOKEN_LT => "LT"
  | TOKEN_GT => "GT"
  | TOKEN_LE => "LE"
  | TOKEN_GE => "GE"
  | TOKEN_EQ => "EQ"
  | TOKEN_NEQ => "NEQ"
  | TOKEN_BIT_AND => "BIT_AND"
  | TOKEN_BIT_OR => "BIT_OR"
  | TOKEN_BIT_XOR => "BIT_XOR"
  | TOKEN_BIT_NOT => "BIT_NOT"
  | TOKEN_SHL => "SHL"
  | TOKEN_SHR => "SHR"
  | TOKEN_COMMENT_LINE => "COMMENT_LINE"
  | TOKEN_COMMENT_BLOCK => "COMMENT_BLOCK"
  | TOKEN_COMMENT_SHEBANG => "COMMENT_SHEBANG"
  | TOKEN_BLANK_LINE => "BLANK_LINE"
  end.

(** [StringPart]: one piece of an interpolated string. *)
Record StringPart := {
  IsExpr : bool;
  Text : string;
  PartLine : Z;
  PartCol : Z
}.

(** [Token]. *)
Record Token := {
  Type_ : TokenType;
  Lexeme : string;
  Raw : string;
  Parts : list StringPart;
  Line : Z;
  Col : Z;
  File : string
}.

(** The [keywords] table. *)
Definition keywords : list (string * TokenType) :=
  [("def", TOKEN_DEFINE); ("func", TOKEN_FUNC); ("as", TOKEN_AS); ("init", TOKEN_INIT);
   ("const", TOKEN_CONST); ("include", TOKEN_INCLUDE); ("import", TOKEN_IMPORT);
   ("use", TOKEN_USE); ("return", TOKEN_RETURN); ("if", TOKEN_IF);
   ("elseif", TOKEN_ELSEIF); ("else", TOKEN_ELSE); ("while", TOKEN_WHILE);
   ("for", TOKEN_FOR); ("repeat", TOKEN_REPEAT); ("until", TOKEN_UNTIL);
   ("match", TOKEN_MATCH); ("when", TOKEN_WHEN); ("break", TOKEN_BREAK);
   ("continue", TOKEN_CONTINUE); ("exit", TOKEN_EXIT); ("try", TOKEN_TRY);
   ("catch", TOKEN_CATCH); ("throw", TOKEN_THROW); ("defer", TOKEN_DEFER);
   ("errdefer", TOKEN_ERRDEFER); ("true", TOKEN_TRUE); ("false", TOKEN_FALSE);
   ("null", TOKEN_NULL); ("and", TOKEN_AND); ("or", TOKEN_OR); ("not", TOKEN_NOT);
   ("int", TOKEN_INT_TYPE); ("float", TOKEN_FLOAT_TYPE); ("string", TOKEN_STRING_TYPE);
   ("bool", TOKEN_BOOL_TYPE); ("bytes", TOKEN_BYTES_TYPE); ("list", TOKEN_LIST);
   ("map", TOKEN_MAP); ("of", TOKEN_OF); ("to", TOKEN_TO); ("in", TOKEN_IN);
   ("struct", TOKEN_STRUCT); ("enum", TOKEN_ENUM); ("len", TOKEN_LEN);
   ("task", TOKEN_TASK); ("spawn", TOKEN_SPAWN); ("export", TOKEN_EXPORT)].

(** [lookupKeyword]. *)
Definition lookupKeyword (ident : string) : option TokenType :=
  match List.find (fun '(k, _) => bool_decide (k = ident)) keywords with
  | Some (_, t) => Some t
  | None => None
  end.
