(* ===== verification/Lexer.v ===== *)
(** * The lexer (internal/lexer/lexer.go)

    [Lexer] keeps the decoded source, the read position and the current line and
    column, as in the Go struct.  Every scanning function threads it explicitly:
    it returns the new lexer next to its result, or a positioned [LexError].
    The Go [for] loops become recursive functions with a step bound; the bound
    passed everywhere, [fuelOf], is one more than the number of unread runes, and
    LexerFacts.v proves that it is never exhausted. *)

From Stdlib Require Import Ascii.
From S2P Require Import Prelude Utf8 Limits Token.
Open Scope Z_scope.
Open Scope go_scope.

(** ** State, errors, results *)

Record Lexer := mkLexer {
  src : list rune;
  lpos : nat;
  line : Z;
  col : Z;
  file : string
}.

Record LexError := mkLexError {
  Msg : message;
  ErrFile : string;
  ErrLine : Z;
  ErrCol : Z
}.

(** Outcome of a scanning function; [LFuel] marks an exhausted step bound. *)
Inductive lout (A : Type) :=
  | LOk (a : A) (l : Lexer)
  | LErr (e : LexError)
  | LFuel.
Arguments LOk {A} a l.
Arguments LErr {A} e.
Arguments LFuel {A}.

Definition lbind {A B} (c : lout A) (k : A -> Lexer -> lout B) : lout B :=
  match c with
  | LOk a l => k a l
  | LErr e => LErr e
  | LFuel => LFuel
  end.

Notation "'do' a ',' l '<-' c ';' k" := (lbind c (fun a l => k))
  (at level 10, a name, l name, c at level 200, k at level 200,
   format "'do'  a ','  l  '<-'  c ';' '//' k") : go_scope.

Definition lexErr {A} (l : Lexer) (fmt : string) (args : list fmtarg) (ln cl : Z) : lout A :=
  LErr (mkLexError (Sprintf fmt args) (file l) ln cl).

Definition dquote : string := str1 34.

(** ** Construction *)

Definition BOM : rune := 65279.

(** [New]: decode the source and strip one leading byte-order mark. *)
Definition New (source : string) : Lexer :=
  let runes := runes_of_string source in
  let runes :=
    match runes with
    | r :: rest => if r =? BOM then rest else runes
    | [] => runes
    end in
  mkLexer runes 0 1 1 "".

Definition NewWithFile (source fname : string) : Lexer :=
  let l := New source in mkLexer (src l) (lpos l) (line l) (col l) fname.

(** ** Character classes *)

Definition isASCIIDigit (r : rune) : bool := (#"0" <=? r) && (r <=? #"9").

Definition isHexDigit (r : rune) : bool :=
  isASCIIDigit r || ((#"a" <=? r) && (r <=? #"f")) || ((#"A" <=? r) && (r <=? #"F")).

Definition isOctDigit (r : rune) : bool := (#"0" <=? r) && (r <=? #"7").
Definition isBinDigit (r : rune) : bool := (r =? #"0") || (r =? #"1").

Definition hexDigitValue (r : rune) : Z :=
  if (#"0" <=? r) && (r <=? #"9") then r - #"0"
  else if (#"a" <=? r) && (r <=? #"f") then (r - #"a") + 10
  else (r - #"A") + 10.

Definition isIdentStart (r : rune) : bool :=
  ((#"a" <=? r) && (r <=? #"z")) || ((#"A" <=? r) && (r <=? #"Z")).
Definition isIdentPart (r : rune) : bool := isIdentStart r || isASCIIDigit r.
Definition isIdentPartLoose (r : rune) : bool :=
  isIdentStart r || isASCIIDigit r || (r =? #"_").

Definition baseName (base : Z) : string :=
  if base =? 2 then "binary"
  else if base =? 8 then "octal"
  else if base =? 16 then "hex"
  else "decimal".

(** ** Reading the source *)

Definition newline : rune := 10.

(** [l.src[l.pos]] where [l.pos < len(l.src)]. *)
Definition cur (l : Lexer) : option rune := src l !! lpos l.

Definition advance (l : Lexer) : Lexer :=
  match cur l with
  | None => l
  | Some ch =>
      if ch =? newline
      then mkLexer (src l) (S (lpos l)) (line l + 1) 1 (file l)
      else mkLexer (src l) (S (lpos l)) (line l) (col l + 1) (file l)
  end.

Definition peek (l : Lexer) (offset : nat) : option rune := src l !! (lpos l + offset)%nat.

(** [next, ok := l.peek(k); ok && next == r]. *)
Definition peekIs (l : Lexer) (offset : nat) (r : rune) : bool :=
  match peek l offset with
  | Some next => next =? r
  | None => false
  end.

Definition curIs (l : Lexer) (p : rune -> bool) : bool :=
  match cur l with Some ch => p ch | None => false end.

(** [strings.Builder.WriteRune]. *)
Definition WriteRune (b : string) (r : rune) : string := b +:+ encodeRune r.

(** [string(l.src[from:l.pos])]. *)
Definition srcSlice (l : Lexer) (from : nat) : string :=
  string_of_runes (take (lpos l - from) (drop from (src l))).

(** The step bound of a loop: one more than the unread runes. *)
Definition fuelOf (l : Lexer) : nat := S (length (src l) - lpos l).

Definition mkTok (t : TokenType) (lexeme : string) (ln cl : Z) : Token :=
  {| Type_ := t; Lexeme := lexeme; Raw := ""; Parts := []; Line := ln; Col := cl; File := "" |}.

(** ** Comments and blank lines *)

Fixpoint lineCommentLoop (fuel : nat) (l : Lexer) (b : string) : lout string :=
  match fuel with
  | O => LFuel
  | S fuel =>
      match cur l with
      | Some ch =>
          if ch =? newline then LOk b l
          else lineCommentLoop fuel (advance l) (WriteRune b ch)
      | None => LOk b l
      end
  end.

Definition readLineComment (l : Lexer) : lout Token :=
  let startLine := line l in
  let startCol := col l in
  let isShebang := (startLine =? 1) && (startCol =? 1) && peekIs l 1 #"!" in
  do b, l <- lineCommentLoop (fuelOf l) l "";
  LOk (mkTok (if isShebang then TOKEN_COMMENT_SHEBANG else TOKEN_COMMENT_LINE)
         b startLine startCol) l.

Section WithLimits.
Context {L : Limits}.

(** The body of the [depth > 0] loop of [readBlockComment]. *)
Fixpoint blockCommentLoop (fuel : nat) (l : Lexer) (depth : Z) (b : string)
    (startLine startCol : Z) : lout string :=
  match fuel with
  | O => LFuel
  | S fuel =>
      if 0 <? depth then
        match cur l with
        | None => lexErr l "unterminated block comment" [] startLine startCol
        | Some ch =>
            if (ch =? #"/") && peekIs l 1 #"*" then
              let b := WriteRune (WriteRune b #"/") #"*" in
              let l := advance (advance l) in
              let depth := depth + 1 in
              if MaxNestingDepth <? depth then
                lexErr l "block comment nesting exceeds %d levels" [AInt MaxNestingDepth]
                  startLine startCol
              else blockCommentLoop fuel l depth b startLine startCol
            else if (ch =? #"*") && peekIs l 1 #"/" then
              let b := WriteRune (WriteRune b #"*") #"/" in
              blockCommentLoop fuel (advance (advance l)) (depth - 1) b startLine startCol
            else blockCommentLoop fuel (advance l) depth (WriteRune b ch) startLine startCol
        end
      else LOk b l
  end.

Definition readBlockComment (l : Lexer) : lout Token :=
  let startLine := line l in
  let startCol := col l in
  let b := WriteRune (WriteRune "" #"/") #"*" in
  let l := advance (advance l) in
  do b, l <- blockCommentLoop (fuelOf l) l 1 b startLine startCol;
  LOk (mkTok TOKEN_COMMENT_BLOCK b startLine startCol) l.

(** The leading loop of [nextTrivia]: count newlines, skip other white space. *)
Fixpoint triviaLoop (fuel : nat) (l : Lexer) (newlines : Z) : lout Z :=
  match fuel with
  | O => LFuel
  | S fuel =>
      match cur l with
      | Some ch =>
          if ch =? newline then triviaLoop fuel (advance l) (newlines + 1)
          else if (ch =? #" ") || (ch =? 9) || (ch =? 13)
          then triviaLoop fuel (advance l) newlines
          else LOk newlines l
      | None => LOk newlines l
      end
  end.

(** [nextTrivia]: [Some tok] is the Go result [(tok, true, nil)]. *)
Definition nextTrivia (l : Lexer) : lout (option Token) :=
  let startLine := line l in
  let startCol := col l in
  do newlines, l <- triviaLoop (fuelOf l) l 0;
  if 2 <=? newlines then LOk (Some (mkTok TOKEN_BLANK_LINE "" startLine startCol)) l
  else
    match cur l with
    | None => LOk None l
    | Some ch =>
        if ch =? #"#" then do tok, l <- readLineComment l; LOk (Some tok) l
        else if (ch =? #"/") && peekIs l 1 #"*"
        then do tok, l <- readBlockComment l; LOk (Some tok) l
        else LOk None l
    end.

(** ** String literals *)

Fixpoint rawStringLoop (fuel : nat) (l : Lexer) (b : string) (startLine startCol : Z)
    : lout Token :=
  match fuel with
  | O => LFuel
  | S fuel =>
      match cur l with
      | None => lexErr l "unterminated string literal" [] startLine startCol
      | Some ch =>
          if ch =? #"'" then LOk (mkTok TOKEN_STRING b startLine startCol) (advance l)
          else rawStringLoop fuel (advance l) (WriteRune b ch) startLine startCol
      end
  end.

Definition readRawString (l : Lexer) (startLine startCol : Z) : lout Token :=
  rawStringLoop (fuelOf l) l "" startLine startCol.

(** The [width]-digit loop of [readUnicodeEscape]. *)
Fixpoint hexLoop (width : nat) (total : Z) (l : Lexer) (v : Z) (letter : rune)
    (escLine escCol : Z) : lout Z :=
  match width with
  | O => LOk v l
  | S width =>
      match cur l with
      | Some ch =>
          if isHexDigit ch
          then hexLoop width total (advance l) (v * 16 + hexDigitValue ch) letter escLine escCol
          else lexErr l "\%c escape needs exactly %d hex digits" [AInt letter; AInt total]
                 escLine escCol
      | None => lexErr l "\%c escape needs exactly %d hex digits" [AInt letter; AInt total]
                  escLine escCol
      end
  end.

Definition readUnicodeEscape (l : Lexer) (width : nat) : lout rune :=
  let letter := default 0 (cur l) in
  let escLine := line l in
  let escCol := col l in
  let l := advance l in
  do v, l <- hexLoop width (Z.of_nat width) l 0 letter escLine escCol;
  if (1114111 <? v) || ((55296 <=? v) && (v <=? 57343))
  then lexErr l "\%c escape U+%04X is not a valid Unicode code point" [AInt letter; AInt v]
         escLine escCol
  else LOk v l.

Definition readCookedEscape (l : Lexer) (startLine startCol : Z) : lout rune :=
  let l := advance l in
  match cur l with
  | None => lexErr l "unterminated escape in string" [] startLine startCol
  | Some esc =>
      if esc =? #"n" then LOk 10 (advance l)
      else if esc =? #"r" then LOk 13 (advance l)
      else if esc =? #"t" then LOk 9 (advance l)
      else if esc =? #"\" then LOk #"\" (advance l)
      else if esc =? 34 then LOk 34 (advance l)
      else if esc =? #"'" then LOk #"'" (advance l)
      else if esc =? #"{" then LOk #"{" (advance l)
      else if esc =? #"}" then LOk #"}" (advance l)
      else if esc =? #"0" then LOk 0 (advance l)
      else if esc =? #"u" then readUnicodeEscape l 4
      else if esc =? #"U" then readUnicodeEscape l 8
      else lexErr l "unknown escape sequence \%c" [AInt esc] (line l) (col l)
  end.

(** The loop of [copyNestedString], past the opening quote. *)
Fixpoint nestedStringLoop (fuel : nat) (l : Lexer) (b : string) (quote : rune)
    (strLine strCol : Z) : lout string :=
  match fuel with
  | O => LFuel
  | S fuel =>
      match cur l with
      | None =>
          lexErr l "unterminated string literal in interpolation slot" [] strLine strCol
      | Some ch =>
          let b := WriteRune b ch in
          if negb (quote =? #"'") && (ch =? #"\") then
            let l := advance l in
            match cur l with
            | None => lexErr l "unterminated escape in string" [] strLine strCol
            | Some ch' =>
                nestedStringLoop fuel (advance l) (WriteRune b ch') quote strLine strCol
            end
          else
            let l := advance l in
            if ch =? quote then LOk b l else nestedStringLoop fuel l b quote strLine strCol
      end
  end.

Definition copyNestedString (l : Lexer) (b : string) (quote : rune) : lout string :=
  let strLine := line l in
  let strCol := col l in
  let b := WriteRune b quote in
  let l := advance l in
  nestedStringLoop (fuelOf l) l b quote strLine strCol.

(** The loop of [scanInterpSlot]. *)
Fixpoint interpSlotLoop (fuel : nat) (l : Lexer) (depth : Z) (b : string)
    (strLine strCol : Z) : lout string :=
  match fuel with
  | O => LFuel
  | S fuel =>
      match cur l with
      | None =>
          lexErr l "unterminated interpolation slot `{` in string literal" [] strLine strCol
      | Some ch =>
          if ch =? #"{" then
            let depth := depth + 1 in
            if MaxNestingDepth <? depth then
              lexErr l "interpolation slot nesting exceeds %d levels" [AInt MaxNestingDepth]
                strLine strCol
            else interpSlotLoop fuel (advance l) depth (WriteRune b ch) strLine strCol
          else if ch =? #"}" then
            let depth := depth - 1 in
            if depth =? 0 then LOk b (advance l)
            else interpSlotLoop fuel (advance l) depth (WriteRune b ch) strLine strCol
          else if (ch =? 34) || (ch =? #"'") then
            do b, l <- copyNestedString l b ch;
            interpSlotLoop fuel l depth b strLine strCol
          else if ch =? #"\" then
            let b := WriteRune b ch in
            let l := advance l in
            match cur l with
            | Some ch' => interpSlotLoop fuel (advance l) depth (WriteRune b ch') strLine strCol
            | None => interpSlotLoop fuel l depth b strLine strCol
            end
          else interpSlotLoop fuel (advance l) depth (WriteRune b ch) strLine strCol
      end
  end.

Definition scanInterpSlot (l : Lexer) (strLine strCol : Z) : lout string :=
  interpSlotLoop (fuelOf l) l 1 "" strLine strCol.

(** [flush] of [readCookedString]. *)
Definition flush (lit : string) (parts : list StringPart) : list StringPart :=
  if bool_decide (lit = "") then parts
  else parts ++ [{| IsExpr := false; Text := lit; PartLine := 0; PartCol := 0 |}].

Fixpoint cookedStringLoop (fuel : nat) (l : Lexer) (lit : string) (parts : list StringPart)
    (hasExpr : bool) (startLine startCol : Z) : lout Token :=
  match fuel with
  | O => LFuel
  | S fuel =>
      match cur l with
      | None => lexErr l "unterminated string literal" [] startLine startCol
      | Some ch =>
          if ch =? 34 then
            let l := advance l in
            if negb hasExpr then LOk (mkTok TOKEN_STRING lit startLine startCol) l
            else LOk {| Type_ := TOKEN_STRING_INTERP; Lexeme := ""; Raw := "";
                        Parts := flush lit parts; Line := startLine; Col := startCol;
                        File := "" |} l
          else if ch =? #"\" then
            do r, l <- readCookedEscape l startLine startCol;
            cookedStringLoop fuel l (WriteRune lit r) parts hasExpr startLine startCol
          else if ch =? #"{" then
            if MaxTokens <=? Z.of_nat (length parts) then
              lexErr l "interpolated string exceeds %d slots; the literal is too large"
                [AInt MaxTokens] startLine startCol
            else
              let l := advance l in
              let exprLine := line l in
              let exprCol := col l in
              do s, l <- scanInterpSlot l startLine startCol;
              let parts := flush lit parts ++
                [{| IsExpr := true; Text := s; PartLine := exprLine; PartCol := exprCol |}] in
              cookedStringLoop fuel l "" parts true startLine startCol
          else if ch =? #"}" then
            lexErr l "unexpected `}` in string literal; write `\}` for a literal `}`" []
              (line l) (col l)
          else cookedStringLoop fuel (advance l) (WriteRune lit ch) parts hasExpr
                 startLine startCol
      end
  end.

Definition readCookedString (l : Lexer) (startLine startCol : Z) : lout Token :=
  cookedStringLoop (fuelOf l) l "" [] false startLine startCol.

Definition readString (l : Lexer) (quote : rune) (startLine startCol : Z) : lout Token :=
  let l := advance l in
  if quote =? #"'" then readRawString l startLine startCol
  else readCookedString l startLine startCol.

(** [withRaw]: stamp a literal with its source spelling. *)
Definition withRaw (startPos : nat) (o : lout Token) : lout Token :=
  match o with
  | LOk tok l =>
      LOk {| Type_ := Type_ tok; Lexeme := Lexeme tok; Raw := srcSlice l startPos;
             Parts := Parts tok; Line := Line tok; Col := Col tok; File := File tok |} l
  | o => o
  end.

(** ** Numbers, variables, identifiers *)

Fixpoint digitsLoop (fuel : nat) (l : Lexer) (isDigit : rune -> bool) (kind : string)
    (b : string) (prevWasUnderscore : bool) (startLine startCol : Z) : lout string :=
  let finish :=
    if prevWasUnderscore
    then lexErr l "`_` digit separator may not end a %s literal" [AStr kind] startLine startCol
    else LOk b l in
  match fuel with
  | O => LFuel
  | S fuel =>
      match cur l with
      | Some c =>
          if isDigit c then
            digitsLoop fuel (advance l) isDigit kind (WriteRune b c) false startLine startCol
          else if c =? #"_" then
            if bool_decide (b = "") then
              lexErr l "`_` digit separator may not start a %s literal" [AStr kind]
                startLine startCol
            else if prevWasUnderscore then
              lexErr l "consecutive `_` in numeric literal" [] startLine startCol
            else digitsLoop fuel (advance l) isDigit kind b true startLine startCol
          else finish
      | None => finish
      end
  end.

Definition readSeparatedDigits (l : Lexer) (startLine startCol : Z)
    (isDigit : rune -> bool) (kind : string) : lout string :=
  digitsLoop (fuelOf l) l isDigit kind "" false startLine startCol.

Definition readBasedInt (l : Lexer) (startLine startCol base : Z) (prefix : string)
    (isDigit : rune -> bool) : lout Token :=
  let l := advance (advance l) in
  if negb (curIs l isDigit) then
    lexErr l "expected %s digit after `%s`" [AStr (baseName base); AStr prefix]
      startLine startCol
  else
    do digits, l <- readSeparatedDigits l startLine startCol isDigit (baseName base);
    LOk (mkTok TOKEN_INT (prefix +:+ digits) startLine startCol) l.

(** The digit loop of the exponent. *)
Fixpoint skipDigits (fuel : nat) (l : Lexer) : lout unit :=
  match fuel with
  | O => LFuel
  | S fuel => if curIs l isASCIIDigit then skipDigits fuel (advance l) else LOk tt l
  end.

(** The part of [readNumber] after the integer part and the optional fraction. *)
Definition readExponent (l : Lexer) (lexeme : string) (isFloat : bool)
    (startLine startCol : Z) : lout Token :=
  if curIs l (fun c => (c =? #"e") || (c =? #"E")) then
    let expStart := lpos l in
    let l := advance l in
    let l := if curIs l (fun c => (c =? #"+") || (c =? #"-")) then advance l else l in
    if negb (curIs l isASCIIDigit) then
      lexErr l "exponent in float literal requires at least one digit" [] startLine startCol
    else
      do _u, l <- skipDigits (fuelOf l) l;
      LOk (mkTok TOKEN_FLOAT (lexeme +:+ srcSlice l expStart) startLine startCol) l
  else LOk (mkTok (if isFloat then TOKEN_FLOAT else TOKEN_INT) lexeme startLine startCol) l.

(** The decimal part of [readNumber]. *)
Definition readDecimal (l : Lexer) (startLine startCol : Z) : lout Token :=
  do digits, l <- readSeparatedDigits l startLine startCol isASCIIDigit "decimal";
  if curIs l (fun c => c =? #".") &&
     match peek l 1 with Some c => isASCIIDigit c | None => false end
  then
    let l := advance l in
    do fraction, l <- readSeparatedDigits l startLine startCol isASCIIDigit "decimal";
    readExponent l (digits +:+ "." +:+ fraction) true startLine startCol
  else readExponent l digits false startLine startCol.

Definition readNumber (l : Lexer) (startLine startCol : Z) : lout Token :=
  match cur l, peek l 1 with
  | Some c0, Some c1 =>
      if c0 =? #"0" then
        if (c1 =? #"x") || (c1 =? #"X")
        then readBasedInt l startLine startCol 16 "0x" isHexDigit
        else if (c1 =? #"o") || (c1 =? #"O")
        then readBasedInt l startLine startCol 8 "0o" isOctDigit
        else if (c1 =? #"b") || (c1 =? #"B")
        then readBasedInt l startLine startCol 2 "0b" isBinDigit
        else readDecimal l startLine startCol
      else readDecimal l startLine startCol
  | _, _ => readDecimal l startLine startCol
  end.

(** The identifier loops of [readVarRef] and [readIdentifierOrKeyword]: collect
    while [isPart], giving up once the name passes 64 bytes. *)
Fixpoint identLoop (fuel : nat) (l : Lexer) (isPart : rune -> bool) (fmt : string)
    (b : string) (startLine startCol : Z) : lout string :=
  match fuel with
  | O => LFuel
  | S fuel =>
      match cur l with
      | Some c =>
          if isPart c then
            let b := WriteRune b c in
            let l := advance l in
            if (64 <? String.length b)%nat
            then lexErr l fmt [AStr b] startLine startCol
            else identLoop fuel l isPart fmt b startLine startCol
          else LOk b l
      | None => LOk b l
      end
  end.

Definition readVarRef (l : Lexer) (startLine startCol : Z) : lout Token :=
  let l := advance l in
  if negb (curIs l isIdentStart) then
    lexErr l "expected identifier after '$'" [] startLine startCol
  else
    do name, l <- identLoop (fuelOf l) l isIdentPart
      ("variable name " +:+ dquote +:+ "%.40s..." +:+ dquote +:+ " exceeds 64 characters")
      "" startLine startCol;
    LOk (mkTok TOKEN_VARREF name startLine startCol) l.

Fixpoint lastChar (s : string) : option ascii :=
  match s with
  | EmptyString => None
  | String c EmptyString => Some c
  | String _ s => lastChar s
  end.

Definition readIdentifierOrKeyword (l : Lexer) (startLine startCol : Z) : lout Token :=
  do name, l <- identLoop (fuelOf l) l isIdentPartLoose
    ("identifier " +:+ dquote +:+ "%.40s..." +:+ dquote +:+ " exceeds 64 characters")
    "" startLine startCol;
  match lookupKeyword name with
  | Some kw => LOk (mkTok kw name startLine startCol) l
  | None =>
      if bool_decide (lastChar name = Some "_"%char) then
        lexErr l "identifier %q may not end with `_`" [AStr name] startLine startCol
      else LOk (mkTok TOKEN_IDENT name startLine startCol) l
  end.

(** ** Next *)

(** A one-rune token. *)
Definition single (l : Lexer) (t : TokenType) (lexeme : string) : lout Token :=
  LOk (mkTok t lexeme (line l) (col l)) (advance l).

Definition Next (l : Lexer) : lout Token :=
  do triv, l <- nextTrivia l;
  match triv with
  | Some tok => LOk tok l
  | None =>
      match cur l with
      | None => LOk (mkTok TOKEN_EOF "" (line l) (col l)) l
      | Some ch =>
          let startLine := line l in
          let startCol := col l in
          let startPos := lpos l in
          let two t lexeme := LOk (mkTok t lexeme startLine startCol) (advance (advance l)) in
          if ch =? #"{" then single l TOKEN_LBRACE "{"
          else if ch =? #"}" then single l TOKEN_RBRACE "}"
          else if ch =? #"(" then single l TOKEN_LPAREN "("
          else if ch =? #")" then single l TOKEN_RPAREN ")"
          else if ch =? #"[" then single l TOKEN_LBRACKET "["
          else if ch =? #"]" then single l TOKEN_RBRACKET "]"
          else if ch =? #";" then single l TOKEN_SEMI ";"
          else if ch =? #":" then single l TOKEN_COLON ":"
          else if ch =? #"," then single l TOKEN_COMMA ","
          else if ch =? #"=" then
            if peekIs (advance l) 0 #"=" then two TOKEN_EQ "==" else single l TOKEN_ASSIGN "="
          else if ch =? #"!" then
            if peekIs (advance l) 0 #"=" then two TOKEN_NEQ "!="
            else lexErr l "unexpected character '!'; use `not` for logical negation, or `!=` for inequality"
                   [] startLine startCol
          else if ch =? #"<" then
            if peekIs (advance l) 0 #"=" then two TOKEN_LE "<="
            else if peekIs (advance l) 0 #"<" then two TOKEN_SHL "<<"
            else single l TOKEN_LT "<"
          else if ch =? #">" then
            if peekIs (advance l) 0 #"=" then two TOKEN_GE ">="
            else if peekIs (advance l) 0 #">" then two TOKEN_SHR ">>"
            else single l TOKEN_GT ">"
          else if ch =? #"&" then single l TOKEN_BIT_AND "&"
          else if ch =? #"|" then single l TOKEN_BIT_OR "|"
          else if ch =? #"^" then single l TOKEN_BIT_XOR "^"
          else if ch =? #"~" then single l TOKEN_BIT_NOT "~"
          else if ch =? #"+" then single l TOKEN_PLUS "+"
          else if ch =? #"-" then single l TOKEN_MINUS "-"
          else if ch =? #"*" then single l TOKEN_STAR "*"
          else if ch =? #"/" then
            if peekIs (advance l) 0 #"/" then two TOKEN_DIV "//" else single l TOKEN_SLASH "/"
          else if ch =? #"%" then single l TOKEN_PERCENT "%"
          else if ch =? #"." then
            if peekIs (advance l) 0 #"." then two TOKEN_DOTDOT ".." else single l TOKEN_DOT "."
          else if (ch =? 34) || (ch =? #"'") then
            withRaw startPos (readString l ch startLine startCol)
          else if ch =? #"$" then readVarRef l startLine startCol
          else if isASCIIDigit ch then withRaw startPos (readNumber l startLine startCol)
          else if isIdentStart ch then readIdentifierOrKeyword l startLine startCol
          else lexErr l "unexpected character %q" [AInt ch] startLine startCol
      end
  end.

(** ** The token stream *)

Definition setFile (tok : Token) (f : string) : Token :=
  {| Type_ := Type_ tok; Lexeme := Lexeme tok; Raw := Raw tok; Parts := Parts tok;
     Line := Line tok; Col := Col tok; File := f |}.

Fixpoint tokenizeLoop (fuel : nat) (l : Lexer) (out : list Token) : lout (list Token) :=
  match fuel with
  | O => LFuel
  | S fuel =>
      do tok, l <- Next l;
      let tok := if bool_decide (file l = "") then tok else setFile tok (file l) in
      if MaxTokens <=? Z.of_nat (length out) then
        LErr (mkLexError
          (Sprintf "token budget exceeded (over %d tokens); the source file is too large to lex"
             [AInt MaxTokens]) (File tok) (Line tok) (Col tok))
      else
        let out := out ++ [tok] in
        if bool_decide (Type_ tok = TOKEN_EOF) then LOk out l
        else tokenizeLoop fuel l out
  end.

Definition tokenizeAll (l : Lexer) : lout (list Token) := tokenizeLoop (fuelOf l) l [].

Definition TokenizeWithFile (source fname : string) : lout (list Token) :=
  tokenizeAll (NewWithFile source fname).

Definition Tokenize (source : string) : lout (list Token) := TokenizeWithFile source "".

Definition TokenizeAt (source fname : string) (ln cl : Z) : lout (list Token) :=
  let l := NewWithFile source fname in
  tokenizeAll (mkLexer (src l) (lpos l) ln cl (file l)).

End WithLimits.
