(* ===== verification/LexerFacts.v ===== *)
(** * The lexer is total, partitions its source and positions every token

    A small program logic for the scanning functions of Lexer.v.  [steps l l']
    says that [l'] is [l] moved forward over the runes in between, with the line
    and column counted along; [read l l'] are those runes.  [lspec p l o Q] says
    that the outcome [o] of a function started in [l] is a result satisfying [Q]
    in a lexer reachable by [steps], or an error that names [l]'s file and stands
    at [p] or at a position reachable from [l], and never an exhausted step bound.
    Each function has one [lspec] lemma that says which text it reads; the theorem
    about the token stream is read off the one for [Next].  The last part lexes
    a text written from words. *)

From Stdlib Require Import Ascii.
From S2P Require Import Prelude Utf8 Limits Token Lexer.
Open Scope Z_scope.
Open Scope go_scope.

(** ** Specification vocabulary *)

(** The line and column after reading [rs] from line [ln], column [cl]. *)
Fixpoint trackPos (rs : list rune) (ln cl : Z) : Z * Z :=
  match rs with
  | [] => (ln, cl)
  | r :: rs => if r =? newline then trackPos rs (ln + 1) 1 else trackPos rs ln (cl + 1)
  end.

(** The runes between two offsets. *)
Definition between (s : list rune) (i j : nat) : list rune := take (j - i) (drop i s).

Definition rem (l : Lexer) : nat := (length (src l) - lpos l)%nat.

Record steps (l l' : Lexer) : Prop := {
  steps_src : src l' = src l;
  steps_file : file l' = file l;
  steps_le : (lpos l <= lpos l')%nat;
  steps_bound : (lpos l <= length (src l) -> lpos l' <= length (src l))%nat;
  steps_track : (line l', col l') = trackPos (between (src l) (lpos l) (lpos l')) (line l) (col l)
}.

Definition read (l l' : Lexer) : list rune := between (src l) (lpos l) (lpos l').

(** [q] is [p], or a position that reading on from [l] passes. *)
Definition placed (l : Lexer) (p q : Z * Z) : Prop :=
  q = p \/ exists l', steps l l' /\ q = (line l', col l').

Definition lspec {A} (p : Z * Z) (l : Lexer) (o : lout A) (Q : A -> Lexer -> Prop) : Prop :=
  match o with
  | LOk a l' => steps l l' /\ Q a l'
  | LErr e => ErrFile e = file l /\ placed l p (ErrLine e, ErrCol e)
  | LFuel => False
  end.

(** ** What a token's text looks like *)

Definition isWhite (r : rune) : bool := (r =? newline) || (r =? #" ") || (r =? 9) || (r =? 13).

Fixpoint newlines (rs : list rune) : Z :=
  match rs with
  | [] => 0
  | r :: rs => (if r =? newline then 1 else 0) + newlines rs
  end.

(** White space that makes no token. *)
Definition gap (rs : list rune) : Prop := Forall (fun r => isWhite r = true) rs /\ newlines rs < 2.

Definition punctuation : list (string * TokenType) :=
  [("{", TOKEN_LBRACE); ("}", TOKEN_RBRACE); ("(", TOKEN_LPAREN); (")", TOKEN_RPAREN);
   ("[", TOKEN_LBRACKET); ("]", TOKEN_RBRACKET); (";", TOKEN_SEMI); (":", TOKEN_COLON);
   (",", TOKEN_COMMA); ("=", TOKEN_ASSIGN); ("==", TOKEN_EQ); ("!=", TOKEN_NEQ);
   ("<", TOKEN_LT); ("<=", TOKEN_LE); ("<<", TOKEN_SHL); (">", TOKEN_GT); (">=", TOKEN_GE);
   (">>", TOKEN_SHR); ("&", TOKEN_BIT_AND); ("|", TOKEN_BIT_OR); ("^", TOKEN_BIT_XOR);
   ("~", TOKEN_BIT_NOT); ("+", TOKEN_PLUS); ("-", TOKEN_MINUS); ("*", TOKEN_STAR);
   ("/", TOKEN_SLASH); ("//", TOKEN_DIV); ("%", TOKEN_PERCENT); (".", TOKEN_DOT);
   ("..", TOKEN_DOTDOT)].

(** A block comment's text after its opening: [d] comments are open, and the last one is
    closed exactly at the end. *)
Fixpoint closes (d : Z) (rs : list rune) : bool :=
  match rs with
  | [] => d =? 0
  | c :: rs1 =>
      (0 <? d) &&
      match rs1 with
      | c' :: rs2 =>
          if (c =? #"/") && (c' =? #"*") then closes (d + 1) rs2
          else if (c =? #"*") && (c' =? #"/") then closes (d - 1) rs2
          else closes d rs1
      | [] => closes d rs1
      end
  end.

(** Numbers: the digits without separators, after the base prefix in lower case. *)
Definition noSep (rs : list rune) : list rune := List.filter (fun r => negb (r =? #"_")) rs.

Definition based (rs : list rune) : option (string * list rune) :=
  match rs with
  | z :: c :: ds =>
      if z =? #"0" then
        if (c =? #"x") || (c =? #"X") then Some ("0x", ds)
        else if (c =? #"o") || (c =? #"O") then Some ("0o", ds)
        else if (c =? #"b") || (c =? #"B") then Some ("0b", ds)
        else None
      else None
  | _ => None
  end.

Definition numLexeme (rs : list rune) : string :=
  match based rs with
  | Some (p, ds) => p +:+ string_of_runes (noSep ds)
  | None => string_of_runes (noSep rs)
  end.

Definition floatMark (r : rune) : bool := (r =? #".") || (r =? #"e") || (r =? #"E").

Definition numType (rs : list rune) : TokenType :=
  match based rs with
  | Some _ => TOKEN_INT
  | None => if existsb floatMark rs then TOKEN_FLOAT else TOKEN_INT
  end.

(** Cooked strings: plain runes and escapes. *)
Definition escapes : list (rune * rune) :=
  [(#"n", 10); (#"r", 13); (#"t", 9); (#"\", #"\"); (34, 34); (#"'", #"'"); (#"{", #"{");
   (#"}", #"}"); (#"0", 0)].

Definition hexValue (v : Z) (ds : list rune) : Z :=
  fold_left (fun v c => v * 16 + hexDigitValue c) ds v.

Inductive escape : list rune -> rune -> Prop :=
  | escape_letter c r : In (c, r) escapes -> escape [c] r
  | escape_hex c w ds :
      In (c, w) [(#"u", 4%nat); (#"U", 8%nat)] -> length ds = w ->
      Forall (fun d => isHexDigit d = true) ds -> valid_rune (hexValue 0 ds) = true ->
      escape (c :: ds) (hexValue 0 ds).

Inductive cooked : list rune -> list rune -> Prop :=
  | cooked_nil : cooked [] []
  | cooked_plain r rs vs :
      ~ In r [34; #"\"; #"{"; #"}"] -> cooked rs vs -> cooked (r :: rs) (r :: vs)
  | cooked_escape es r rs vs :
      escape es r -> cooked rs vs -> cooked (#"\" :: es ++ rs) (r :: vs).

(** A token and its text. *)
Inductive spells (rs : list rune) (tok : Token) : Prop :=
  | spells_punct :
      In (Lexeme tok, Type_ tok) punctuation -> rs = runes_of_string (Lexeme tok) -> spells rs tok
  | spells_name c cs :
      rs = c :: cs -> isIdentStart c = true -> Forall (fun r => isIdentPartLoose r = true) rs ->
      Lexeme tok = string_of_runes rs ->
      Type_ tok = default TOKEN_IDENT (lookupKeyword (Lexeme tok)) -> spells rs tok
  | spells_var c cs :
      rs = #"$" :: c :: cs -> isIdentStart c = true ->
      Forall (fun r => isIdentPart r = true) (c :: cs) ->
      Lexeme tok = string_of_runes (c :: cs) -> Type_ tok = TOKEN_VARREF -> spells rs tok
  | spells_number c cs :
      rs = c :: cs -> isASCIIDigit c = true -> Raw tok = string_of_runes rs ->
      Lexeme tok = numLexeme rs -> Type_ tok = numType rs -> spells rs tok
  | spells_raw cs :
      rs = #"'" :: cs ++ [ #"'" ] -> ~ In #"'" cs -> Raw tok = string_of_runes rs ->
      Lexeme tok = string_of_runes cs -> Type_ tok = TOKEN_STRING -> spells rs tok
  | spells_cooked cs vs :
      rs = 34 :: cs ++ [34] -> cooked cs vs -> Raw tok = string_of_runes rs ->
      Lexeme tok = string_of_runes vs -> Type_ tok = TOKEN_STRING -> spells rs tok
  | spells_interp cs :
      rs = 34 :: cs ++ [34] -> Raw tok = string_of_runes rs ->
      Type_ tok = TOKEN_STRING_INTERP -> spells rs tok
  | spells_line cs :
      rs = #"#" :: cs -> ~ In newline cs -> Lexeme tok = string_of_runes rs ->
      Type_ tok = TOKEN_COMMENT_LINE \/ Type_ tok = TOKEN_COMMENT_SHEBANG -> spells rs tok
  | spells_block cs :
      rs = #"/" :: #"*" :: cs -> closes 1 cs = true -> Lexeme tok = string_of_runes rs ->
      Type_ tok = TOKEN_COMMENT_BLOCK -> spells rs tok
  | spells_blank :
      Forall (fun r => isWhite r = true) rs -> 2 <= newlines rs -> Lexeme tok = "" ->
      Type_ tok = TOKEN_BLANK_LINE -> spells rs tok.

(** A token stream over the source [s] from offset [o]: after a gap comes a token that spells
    its text and carries the line and column of its first rune (counted from [ln], [cl] at
    offset 0), and the stream goes on where it ends; after the last gap, at the end of the
    source, stands the end-of-file token. *)
Inductive stream (s : list rune) (ln cl : Z) : nat -> list Token -> Prop :=
  | stream_eof o tok :
      (o <= length s)%nat -> gap (drop o s) -> Type_ tok = TOKEN_EOF ->
      (Line tok, Col tok) = trackPos s ln cl ->
      stream s ln cl o [tok]
  | stream_tok o start stop tok rest :
      (o <= start)%nat -> (start < stop <= length s)%nat -> gap (between s o start) ->
      spells (between s start stop) tok ->
      (Line tok, Col tok) = trackPos (take start s) ln cl ->
      stream s ln cl stop rest ->
      stream s ln cl o (tok :: rest).

(** ** Steps *)

Lemma trackPos_app a b ln cl :
  trackPos (a ++ b) ln cl = trackPos b (fst (trackPos a ln cl)) (snd (trackPos a ln cl)).
Proof.
  revert ln cl. induction a as [ | r a IH]; intros ln cl; simpl; [done | ].
  by destruct (r =? newline).
Qed.

Lemma between_app s i j k :
  (i <= j)%nat -> (j <= k)%nat -> between s i k = between s i j ++ between s j k.
Proof.
  intros Hij Hjk. unfold between.
  replace (drop j s) with (drop (j - i) (drop i s)) by (rewrite drop_drop; f_equal; lia).
  replace (k - j)%nat with ((k - i) - (j - i))%nat by lia.
  symmetry. apply take_drop_range. lia.
Qed.

Lemma between_refl s i : between s i i = [].
Proof. unfold between. by rewrite Nat.sub_diag. Qed.

Lemma between_0 s i : between s 0 i = take i s.
Proof. unfold between. by rewrite Nat.sub_0_r. Qed.

Lemma between_end s i : between s i (length s) = drop i s.
Proof. unfold between. apply take_ge. by rewrite length_drop. Qed.

Lemma steps_refl l : steps l l.
Proof. split; auto with lia. by rewrite between_refl. Qed.

Lemma steps_trans l1 l2 l3 : steps l1 l2 -> steps l2 l3 -> steps l1 l3.
Proof.
  intros [S1 F1 L1 B1 T1] [S2 F2 L2 B2 T2]. split; try congruence; try lia.
  - rewrite S1 in B2. lia.
  - rewrite (between_app _ _ (lpos l2)) by lia.
    rewrite trackPos_app, <- T1. simpl. by rewrite T2, S1.
Qed.

Lemma between_one s i ch : s !! i = Some ch -> between s i (S i) = [ch].
Proof.
  intros E. unfold between. replace (S i - i)%nat with 1%nat by lia. by rewrite (drop_S _ _ _ E).
Qed.

Lemma advance_steps l : steps l (advance l).
Proof.
  unfold advance, cur. destruct (src l !! lpos l) as [ch | ] eqn:E; [ | apply steps_refl].
  pose proof (between_one _ _ _ E) as Hb. pose proof (lookup_lt_Some _ _ _ E).
  destruct (ch =? newline) eqn:En; split; simpl; try lia; try done;
    rewrite Hb; simpl; by rewrite En.
Qed.

Lemma advance_pos l ch : cur l = Some ch -> lpos (advance l) = S (lpos l).
Proof. unfold advance. intros ->. by destruct (ch =? newline). Qed.

Lemma advance_rem l ch : cur l = Some ch -> (rem (advance l) < rem l)%nat.
Proof.
  intros H. pose proof (advance_steps l) as [S _ _ _ _]. unfold rem.
  rewrite S, (advance_pos _ _ H). apply lookup_lt_Some in H. lia.
Qed.

Lemma steps_rem l l' : steps l l' -> (rem l' <= rem l)%nat.
Proof. intros [S _ L _ _]. unfold rem. rewrite S. lia. Qed.

Lemma advance_rem_le l : (rem (advance l) <= rem l)%nat.
Proof. apply steps_rem, advance_steps. Qed.

Lemma advance_file l : file (advance l) = file l.
Proof. apply advance_steps. Qed.

Lemma peek_advance l ch : cur l = Some ch -> peek l 1 = cur (advance l).
Proof.
  intros E. unfold peek, cur. rewrite (steps_src _ _ (advance_steps l)), (advance_pos _ _ E).
  f_equal. lia.
Qed.

#[export] Hint Resolve steps_refl advance_steps advance_rem_le : go.
#[export] Hint Rewrite advance_file : go.
#[export] Hint Extern 2 (steps _ (advance _)) => eapply steps_trans; [ | apply advance_steps] : go.

(** ** What is read *)

Lemma read_refl l : read l l = [].
Proof. apply between_refl. Qed.

Lemma read_app l l1 l2 : steps l l1 -> steps l1 l2 -> read l l2 = read l l1 ++ read l1 l2.
Proof.
  intros H1 H2. unfold read. rewrite (steps_src _ _ H1).
  apply between_app; by apply steps_le.
Qed.

Lemma read_advance l ch : cur l = Some ch -> read l (advance l) = [ch].
Proof. intros E. unfold read. rewrite (advance_pos _ _ E). by apply between_one. Qed.

Lemma read_cons l l' ch :
  cur l = Some ch -> steps (advance l) l' -> read l l' = ch :: read (advance l) l'.
Proof.
  intros E Hs. rewrite (read_app l (advance l) l'); [ | auto with go | done].
  by rewrite (read_advance _ _ E).
Qed.

Lemma read_head l l' c rs : read l l' = c :: rs -> cur l = Some c.
Proof.
  unfold read, between, cur. intros E.
  rewrite <- (Nat.add_0_r (lpos l)), <- lookup_drop.
  destruct (lpos l' - lpos l)%nat; [done | ]. destruct (drop (lpos l) (src l)); [done | ].
  cbn in E |- *. congruence.
Qed.

Lemma read_progress l l' : steps l l' -> read l l' <> [] -> (lpos l < lpos l')%nat.
Proof.
  intros Hs Hr. apply steps_le in Hs. destruct (decide (lpos l = lpos l')) as [E | ]; [ | lia].
  unfold read in Hr. by rewrite E, between_refl in Hr.
Qed.

#[export] Hint Rewrite read_refl : go.

(** ** Rules of the logic *)

Lemma lspec_ok {A} p l (a : A) l' (Q : A -> Lexer -> Prop) :
  steps l l' -> Q a l' -> lspec p l (LOk a l') Q.
Proof. done. Qed.

Lemma lspec_err {A} p l l' fmt args ln cl (Q : A -> Lexer -> Prop) :
  file l' = file l -> placed l p (ln, cl) -> lspec p l (lexErr l' fmt args ln cl) Q.
Proof. done. Qed.

Lemma placed_steps p l l' q : steps l l' -> placed l' p q -> placed l p q.
Proof.
  intros Hs [-> | (l'' & Hs' & ->)]; [by left | right]. exists l''.
  split; [by eapply steps_trans | done].
Qed.

Lemma lspec_steps {A} p l l' (o : lout A) (Q : A -> Lexer -> Prop) :
  steps l l' -> lspec p l' o Q -> lspec p l o Q.
Proof.
  intros Hs. destruct o as [a l'' | e | ]; simpl; [ | | done].
  - intros [Hs' HQ]. split; [by eapply steps_trans | done].
  - rewrite (steps_file _ _ Hs). intros [? ?]. split; [done | by eapply placed_steps].
Qed.

Lemma lspec_place {A} p p' l (o : lout A) (Q : A -> Lexer -> Prop) :
  placed l p p' -> lspec p' l o Q -> lspec p l o Q.
Proof.
  intros Hp. destruct o as [a l' | e | ]; simpl; [done | | done].
  intros [? [-> | Hr]]; (split; [done | ]); [done | by right].
Qed.

Lemma lspec_bind {A B} p l (c : lout A) (k : A -> Lexer -> lout B) Q R :
  lspec p l c Q -> (forall a l', steps l l' -> Q a l' -> lspec p l' (k a l') R) ->
  lspec p l (lbind c k) R.
Proof.
  intros Hc Hk. destruct c as [a l' | e | ]; simpl in *; [ | done | done].
  destruct Hc as [Hs HQ]. by eapply lspec_steps, Hk.
Qed.

Lemma lspec_mono {A} p l (o : lout A) (Q R : A -> Lexer -> Prop) :
  lspec p l o Q -> (forall a l', steps l l' -> Q a l' -> R a l') -> lspec p l o R.
Proof. destruct o; simpl; [intros [? ?]; auto | done | done]. Qed.

(** Move the logic's start past one [advance]. *)
Lemma lspec_advance {A} p l (o : lout A) Q : lspec p (advance l) o Q -> lspec p l o Q.
Proof. apply lspec_steps, advance_steps. Qed.

(** The same, keeping the rune that was read. *)
Lemma lspec_read {A} p l (o : lout A) ch (Q R : A -> Lexer -> Prop) :
  cur l = Some ch -> lspec p (advance l) o Q ->
  (forall a l', read l l' = ch :: read (advance l) l' -> Q a l' -> R a l') -> lspec p l o R.
Proof.
  intros E Ho HR. apply lspec_advance. eapply lspec_mono; [exact Ho | ]. intros a l' Hs HQ.
  apply HR; [by apply read_cons | done].
Qed.

Definition anyQ {A} : A -> Lexer -> Prop := fun _ _ => True.

(** ** Loops

    Each loop is verified by induction on its bound under the hypothesis that the
    bound exceeds the number of unread runes. *)

(** Discharge a bound obligation after one or two [advance]s. *)
Ltac fuel_lia :=
  repeat match goal with
  | H : cur ?l = Some _ |- _ =>
      lazymatch goal with
      | _ : (rem (advance l) < rem l)%nat |- _ => fail
      | _ => pose proof (advance_rem _ _ H)
      end
  | |- context [rem (advance ?l)] =>
      lazymatch goal with
      | _ : (rem (advance l) <= rem l)%nat |- _ => fail
      | _ => pose proof (advance_rem_le l)
      end
  | H : steps ?l ?l' |- _ =>
      lazymatch goal with
      | _ : (rem l' <= rem l)%nat |- _ => fail
      | _ => pose proof (steps_rem _ _ H)
      end
  end; lia.

(** An error at the recorded position, or at one that was passed. *)
Ltac place :=
  first [ by left
        | right; eexists; split; [ | reflexivity]; by eauto 6 with go ].

Ltac lerr := apply lspec_err; [by autorewrite with go | place].

Ltac lsolve :=
  first [ done | lerr | apply lspec_ok; [by eauto 6 with go | first [assumption | by autorewrite with go]] ].

(** One scanning branch: split the conditions, close errors and returns. *)
Ltac lbranch := repeat (split_if || case_match); try lsolve.

Lemma fuelOf_rem l : (rem l < fuelOf l)%nat.
Proof. unfold fuelOf, rem. lia. Qed.

#[export] Hint Resolve fuelOf_rem : go.

Section Loops.
Context {L : Limits}.

(** A collected text grows by one rune. *)
Lemma collect_step b ch rs : WriteRune b ch +:+ string_of_runes rs = b +:+ string_of_runes (ch :: rs).
Proof. unfold WriteRune. apply string_app_assoc. Qed.

Lemma lineCommentLoop_spec p fuel l b :
  (rem l < fuel)%nat ->
  lspec p l (lineCommentLoop fuel l b)
    (fun b' l' => b' = b +:+ string_of_runes (read l l') /\ ~ In newline (read l l')).
Proof.
  revert l b. induction fuel as [ | fuel IH]; intros l b Hf; [lia | ]. cbn [lineCommentLoop].
  assert (b = b +:+ string_of_runes (read l l) /\ ~ In newline (read l l)) as Hnil
    by (rewrite read_refl; simpl; rewrite string_app_nil_r; split; [done | constructor || tauto]).
  destruct (cur l) as [ch | ] eqn:E; lbranch. b2p.
  eapply lspec_read; [exact E | apply IH; fuel_lia | ]. intros b' l' -> [-> Hn].
  split; [apply collect_step | ]. by intros [-> | ?].
Qed.

Lemma triviaLoop_spec p fuel l n :
  (rem l < fuel)%nat ->
  lspec p l (triviaLoop fuel l n)
    (fun n' l' => n' = n + newlines (read l l') /\ Forall (fun r => isWhite r = true) (read l l')).
Proof.
  revert l n. induction fuel as [ | fuel IH]; intros l n Hf; [lia | ]. cbn [triviaLoop].
  assert (n = n + newlines (read l l) /\ Forall (fun r => isWhite r = true) (read l l)) as Hnil
    by (rewrite read_refl; simpl; split; [lia | constructor]).
  destruct (cur l) as [ch | ] eqn:E; [ | by apply lspec_ok; auto with go].
  destruct (ch =? newline) eqn:En; [ | destruct ((ch =? #" ") || (ch =? 9) || (ch =? 13)) eqn:Ew].
  3: by apply lspec_ok; auto with go.
  all: eapply lspec_read; [exact E | apply IH; fuel_lia | ]; intros n' l' -> [-> Hw];
    cbn [newlines]; rewrite En; (split; [lia | ]); constructor; [unfold isWhite; rewrite En | done].
  - done.
  - exact Ew.
Qed.

Lemma closes_cons d c rs :
  0 < d -> closes d rs = true ->
  (forall c' rs', rs = c' :: rs' -> (c =? #"/") && (c' =? #"*") = false /\ (c =? #"*") && (c' =? #"/") = false) ->
  closes d (c :: rs) = true.
Proof.
  intros Hd Hc Hn. cbn [closes]. rewrite (proj2 (Z.ltb_lt _ _)) by done. cbn [andb].
  destruct rs as [ | c' rs']; [done | ]. by destruct (Hn c' rs' eq_refl) as [-> ->].
Qed.

Lemma blockCommentLoop_spec fuel l depth b ln cl :
  (rem l < fuel)%nat -> 0 <= depth ->
  lspec (ln, cl) l (blockCommentLoop fuel l depth b ln cl)
    (fun b' l' => b' = b +:+ string_of_runes (read l l') /\ closes depth (read l l') = true).
Proof.
  revert l depth b. induction fuel as [ | fuel IH]; intros l depth b Hf Hd; [lia | ].
  cbn [blockCommentLoop]. destruct (Z.ltb_spec 0 depth) as [Hp | ].
  2: { apply lspec_ok; auto with go. rewrite read_refl. simpl. rewrite string_app_nil_r.
       split; [done | zbool]. }
  destruct (cur l) as [ch | ] eqn:E; [ | lsolve]. unfold peekIs. rewrite (peek_advance l ch E).
  assert (forall c d (o : lout string), cur (advance l) = Some c -> 0 < depth ->
    lspec (ln, cl) (advance (advance l)) o
      (fun b' l' => b' = WriteRune (WriteRune b ch) c +:+ string_of_runes (read (advance (advance l)) l') /\
                    closes d (read (advance (advance l)) l') = true) ->
    (forall rs, closes d rs = true -> closes depth (ch :: c :: rs) = true) ->
    lspec (ln, cl) l o
      (fun b' l' => b' = b +:+ string_of_runes (read l l') /\ closes depth (read l l') = true)) as Htwo.
  { intros c d o Ec _ Ho Hcl. eapply lspec_read; [exact E | eapply lspec_read; [exact Ec | exact Ho | ] | ].
    - intros b' l' Hr HQ. pose proof (conj Hr HQ) as HR. exact HR.
    - intros b' l' -> (-> & -> & Hc). split; [by rewrite !collect_step | by apply Hcl]. }
  destruct (cur (advance l)) as [c | ] eqn:Ec.
  - destruct ((ch =? #"/") && (c =? #"*")) eqn:E1; [ | destruct ((ch =? #"*") && (c =? #"/")) eqn:E2].
    + b2p. subst. split_if; [lerr | ]. eapply (Htwo _ (depth + 1)); [done | done | apply IH; [fuel_lia | lia] | ].
      intros rs Hrs. cbn [closes]. by rewrite (proj2 (Z.ltb_lt _ _)) by done.
    + b2p. subst. eapply (Htwo _ (depth - 1)); [done | done | apply IH; [fuel_lia | lia] | ].
      intros rs Hrs. cbn [closes]. by rewrite (proj2 (Z.ltb_lt _ _)) by done.
    + eapply lspec_read; [exact E | apply IH; [fuel_lia | lia] | ]. intros b' l' -> [-> Hc].
      split; [apply collect_step | ]. apply closes_cons; [done | done | ].
      intros c' rs' Hr. apply read_head in Hr. rewrite Ec in Hr. injection Hr as <-. by split.
  - rewrite !andb_false_r. eapply lspec_read; [exact E | apply IH; [fuel_lia | lia] | ]. intros b' l' -> [-> Hc].
    split; [apply collect_step | ]. apply closes_cons; [done | done | ].
    intros c' rs' Hr. apply read_head in Hr. congruence.
Qed.

Lemma rawStringLoop_spec fuel l b ln cl :
  (rem l < fuel)%nat ->
  lspec (ln, cl) l (rawStringLoop fuel l b ln cl)
    (fun tok l' => Type_ tok = TOKEN_STRING /\ File tok = "" /\ Line tok = ln /\ Col tok = cl /\
       exists cs, read l l' = cs ++ [ #"'" ] /\ ~ In #"'" cs /\ Lexeme tok = b +:+ string_of_runes cs).
Proof.
  revert l b. induction fuel as [ | fuel IH]; intros l b Hf; [lia | ]. cbn [rawStringLoop].
  destruct (cur l) as [ch | ] eqn:E; [ | lsolve]. destruct (Z.eqb_spec ch #"'") as [-> | Hc].
  - apply lspec_ok; auto with go. do 4 (split; [done | ]). exists [].
    rewrite (read_advance _ _ E). simpl. rewrite string_app_nil_r. split_and!; [done | tauto | done].
  - eapply lspec_read; [exact E | apply IH; fuel_lia | ].
    intros tok l' -> (? & ? & ? & ? & cs & -> & Hn & ->). do 4 (split; [done | ]). exists (ch :: cs).
    split; [done | ]. split; [by intros [? | ?] | apply collect_step].
Qed.

Lemma hexDigitValue_nonneg ch : isHexDigit ch = true -> 0 <= hexDigitValue ch.
Proof.
  unfold hexDigitValue, isHexDigit, isASCIIDigit. intros. b2p.
  split_if; b2p; [lia | ]. split_if; b2p; intuition (b2p; lia).
Qed.

Lemma hexLoop_spec w t l v c ln cl :
  0 <= v ->
  lspec (ln, cl) l (hexLoop w t l v c ln cl)
    (fun v' l' => 0 <= v' /\ v' = hexValue v (read l l') /\ length (read l l') = w /\
                  Forall (fun d => isHexDigit d = true) (read l l')).
Proof.
  revert l v. induction w as [ | w IH]; intros l v Hv; cbn [hexLoop].
  { apply lspec_ok; auto with go. rewrite read_refl. by repeat constructor. }
  destruct (cur l) as [ch | ] eqn:E; [ | lsolve]. split_if; [ | lsolve].
  pose proof (hexDigitValue_nonneg ch ltac:(done)).
  eapply lspec_read; [exact E | apply IH; lia | ]. intros v' l' -> (? & -> & <- & Hh).
  split_and!; [done | done | done | by constructor].
Qed.

(** A Unicode escape yields a scalar value or an error. *)
Lemma readUnicodeEscape_spec p l w c :
  cur l = Some c ->
  lspec p l (readUnicodeEscape l w)
    (fun r l' => valid_rune r = true /\ exists ds, read l l' = c :: ds /\ r = hexValue 0 ds /\
       length ds = w /\ Forall (fun d => isHexDigit d = true) ds).
Proof.
  intros E. unfold readUnicodeEscape. apply (lspec_place _ (line l, col l)); [place | ].
  eapply (lspec_read _ _ _ _ (fun r l' => valid_rune r = true /\ r = hexValue 0 (read (advance l) l') /\
            length (read (advance l) l') = w /\ Forall (fun d => isHexDigit d = true) (read (advance l) l')));
    [exact E | eapply lspec_bind; [by apply hexLoop_spec | ] | ].
  - intros v l' Hs (Hv & -> & Hl & Hh). split_if; [lerr | ].
    assert (valid_rune (hexValue 0 (read (advance l) l')) = true) as Hr.
    { unfold valid_rune. b2p. zbool; intuition (b2p; lia). }
    by apply lspec_ok; [auto with go | ].
  - intros r l' -> (? & -> & ? & ?). split; [done | ]. by eexists.
Qed.

(** An escape reads the backslash and one of the documented forms. *)
Lemma readCookedEscape_spec l ln cl :
  cur l = Some #"\" ->
  lspec (ln, cl) l (readCookedEscape l ln cl)
    (fun r l' => valid_rune r = true /\ (rem l' < rem l)%nat /\
                 exists es, read l l' = #"\" :: es /\ escape es r).
Proof.
  intros E. unfold readCookedEscape. pose proof (advance_rem _ _ E).
  destruct (cur (advance l)) as [esc | ] eqn:E'; [ | lerr].
  assert (forall r, In (esc, r) escapes -> valid_rune r = true ->
    lspec (ln, cl) l (LOk r (advance (advance l)))
      (fun r l' => valid_rune r = true /\ (rem l' < rem l)%nat /\
                   exists es, read l l' = #"\" :: es /\ escape es r)) as Hlet.
  { intros r Hin Hv. apply lspec_ok; [auto with go | ]. split; [done | ]. split; [fuel_lia | ].
    exists [esc]. rewrite (read_cons _ _ _ E) by auto with go. rewrite (read_advance _ _ E').
    split; [done | by constructor]. }
  assert (forall w, In (esc, w) [(#"u", 4%nat); (#"U", 8%nat)] ->
    lspec (ln, cl) l (readUnicodeEscape (advance l) w)
      (fun r l' => valid_rune r = true /\ (rem l' < rem l)%nat /\
                   exists es, read l l' = #"\" :: es /\ escape es r)) as Hhex.
  { intros w Hin. apply lspec_advance. eapply lspec_mono; [by eapply readUnicodeEscape_spec | ].
    intros r l' Hs (Hv & ds & Hr & -> & Hl & Hh). split; [done | ].
    split; [apply steps_rem in Hs; lia | ]. exists (esc :: ds). rewrite (read_cons _ _ _ E), Hr by done.
    split; [done | by eapply escape_hex]. }
  repeat match goal with
  | |- context [if esc =? ?c then _ else _] =>
      destruct (Z.eqb_spec esc c) as [-> | ];
      [first [apply Hlet; [simpl; tauto | done] | apply Hhex; simpl; tauto] | ]
  end.
  lerr.
Qed.

Lemma nestedStringLoop_spec fuel l b q ln cl :
  (rem l < fuel)%nat -> lspec (ln, cl) l (nestedStringLoop fuel l b q ln cl) anyQ.
Proof.
  revert l b. induction fuel as [ | fuel IH]; intros l b Hf; [lia | ].
  cbn [nestedStringLoop]. destruct (cur l) as [ch | ] eqn:E; [ | lsolve].
  split_if.
  - destruct (cur (advance l)) as [ch' | ] eqn:E'; [ | lsolve].
    do 2 apply lspec_advance. apply IH. fuel_lia.
  - split_if; [lsolve | ]. apply lspec_advance, IH. fuel_lia.
Qed.

Lemma copyNestedString_spec p l b q ch :
  cur l = Some ch ->
  lspec p l (copyNestedString l b q) (fun _ l' => (rem l' < rem l)%nat).
Proof.
  intros E. apply (lspec_place _ (line l, col l)); [place | ]. unfold copyNestedString.
  apply lspec_advance. eapply lspec_mono; [apply nestedStringLoop_spec; auto with go | ].
  intros ? l' Hs _. fuel_lia.
Qed.

Lemma interpSlotLoop_spec fuel l depth b ln cl :
  (rem l < fuel)%nat -> lspec (ln, cl) l (interpSlotLoop fuel l depth b ln cl) anyQ.
Proof.
  revert l depth b. induction fuel as [ | fuel IH]; intros l depth b Hf; [lia | ].
  cbn [interpSlotLoop]. destruct (cur l) as [ch | ] eqn:E; [ | lsolve].
  repeat split_if; try lsolve; try (apply lspec_advance, IH; fuel_lia).
  - eapply lspec_bind; [by eapply copyNestedString_spec | ].
    intros b' l' Hs Hr. cbn beta in Hr. apply IH. lia.
  - apply lspec_advance. destruct (cur (advance l)) as [ch' | ] eqn:E';
      [apply lspec_advance | ]; apply IH; fuel_lia.
Qed.

Lemma scanInterpSlot_spec l ln cl : lspec (ln, cl) l (scanInterpSlot l ln cl) anyQ.
Proof. apply interpSlotLoop_spec. auto with go. Qed.

(** What a cooked string reads: everything to the closing quote; without a slot, its value. *)
Definition cookedQ (lit : string) (h : bool) (ln cl : Z) (l : Lexer) (tok : Token) (l' : Lexer) : Prop :=
  File tok = "" /\ Line tok = ln /\ Col tok = cl /\
  exists cs, read l l' = cs ++ [34] /\
    (Type_ tok = TOKEN_STRING_INTERP \/
     Type_ tok = TOKEN_STRING /\ h = false /\
     exists vs, cooked cs vs /\ Lexeme tok = lit +:+ string_of_runes vs).

Lemma cookedStringLoop_spec fuel l lit parts h ln cl :
  (rem l < fuel)%nat ->
  lspec (ln, cl) l (cookedStringLoop fuel l lit parts h ln cl) (cookedQ lit h ln cl l).
Proof.
  revert l lit parts h. induction fuel as [ | fuel IH]; intros l lit parts h Hf; [lia | ].
  cbn [cookedStringLoop]. destruct (cur l) as [ch | ] eqn:E; [ | lsolve].
  destruct (Z.eqb_spec ch 34) as [-> | Hq].
  { destruct h; (apply lspec_ok; [auto with go | ]); do 3 (split; [done | ]); exists [];
      rewrite (read_advance _ _ E); (split; [done | ]); [by left | right].
    do 2 (split; [done | ]). exists []. split; [constructor | ]. simpl. by rewrite string_app_nil_r. }
  destruct (Z.eqb_spec ch #"\") as [-> | Hb].
  { eapply lspec_bind; [by apply readCookedEscape_spec | ]. intros r l1 Hs1 (_ & Hr & es & He & Hesc).
    eapply lspec_mono; [apply IH; lia | ]. intros tok l' Hs (? & ? & ? & cs & Hcs & HT).
    do 3 (split; [done | ]). exists (#"\" :: es ++ cs).
    rewrite (read_app _ _ _ Hs1 Hs), He, Hcs. split; [cbn [app]; by rewrite app_assoc | ].
    destruct HT as [? | (? & -> & vs & Hc & ->)]; [by left | right]. do 2 (split; [done | ]).
    exists (r :: vs). split; [by constructor | apply collect_step]. }
  destruct (Z.eqb_spec ch #"{") as [-> | Ho].
  { split_if; [lerr | ]. cbv zeta.
    eapply (lspec_read _ _ _ _ (fun tok l' => (File tok = "" /\ Line tok = ln /\ Col tok = cl) /\
              Type_ tok = TOKEN_STRING_INTERP /\ exists cs, read (advance l) l' = cs ++ [34]));
      [exact E | eapply lspec_bind; [apply scanInterpSlot_spec | ] | ].
    - intros s l1 Hs1 _. eapply lspec_mono; [apply IH; fuel_lia | ].
      intros tok l' Hs (? & ? & ? & cs & Hcs & HT).
      split; [done | ]. split; [by destruct HT as [? | (_ & ? & _)] | ].
      exists (read (advance l) l1 ++ cs). by rewrite (read_app _ _ _ Hs1 Hs), Hcs, app_assoc.
    - unfold cookedQ. intros tok l' -> ((? & ? & ?) & ? & cs & ->). do 3 (split; [done | ]).
      exists (#"{" :: cs). split; [done | by left]. }
  destruct (Z.eqb_spec ch #"}") as [-> | Hc]; [lerr | ].
  eapply lspec_read; [exact E | apply IH; fuel_lia | ].
  unfold cookedQ. intros tok l' -> (? & ? & ? & cs & -> & HT). do 3 (split; [done | ]). exists (ch :: cs).
  split; [done | ]. destruct HT as [? | (? & -> & vs & Hck & ->)]; [by left | right].
  do 2 (split; [done | ]). exists (ch :: vs). split; [ | apply collect_step]. constructor; [ | done].
  intros [<- | [<- | [<- | [<- | []]]]]; done.
Qed.

Lemma noSep_app a b : noSep (a ++ b) = noSep a ++ noSep b.
Proof. apply List.filter_app. Qed.

Lemma digitsLoop_spec fuel l d k b p ln cl :
  (rem l < fuel)%nat -> d #"_" = false ->
  lspec (ln, cl) l (digitsLoop fuel l d k b p ln cl)
    (fun b' l' => b' = b +:+ string_of_runes (noSep (read l l')) /\
                  Forall (fun r => d r || (r =? #"_") = true) (read l l') /\ curIs l' d = false).
Proof.
  intros Hf Hd. revert l b p Hf. induction fuel as [ | fuel IH]; intros l b p Hf; [lia | ].
  cbn [digitsLoop].
  assert (b = b +:+ string_of_runes (noSep (read l l)) /\
          Forall (fun r => d r || (r =? #"_") = true) (read l l)) as Hnil
    by (rewrite read_refl; simpl; rewrite string_app_nil_r; split; [done | constructor || tauto]).
  destruct (cur l) as [ch | ] eqn:E.
  2: { split_if; [lerr | ]. apply lspec_ok; [auto with go | ]. unfold curIs. rewrite E. tauto. }
  destruct (d ch) eqn:Hch.
  { eapply lspec_read; [exact E | apply IH; fuel_lia | ]. intros b' l' -> (-> & Hall & Hn).
    assert ((ch =? #"_") = false) as Hu by (destruct (Z.eqb_spec ch #"_"); [congruence | done]).
    cbn [noSep List.filter]. rewrite Hu. cbn [negb]. split_and!; [apply collect_step | | done].
    constructor; [by rewrite Hch | done]. }
  destruct (ch =? #"_") eqn:Hu.
  { split_if; [lerr | ]. split_if; [lerr | ].
    eapply lspec_read; [exact E | apply IH; fuel_lia | ]. intros b' l' -> (-> & Hall & Hn).
    cbn [noSep List.filter]. rewrite Hu. cbn [negb]. split_and!; [done | | done].
    constructor; [rewrite Hu; apply orb_true_r | done]. }
  split_if; [lerr | ]. apply lspec_ok; [auto with go | ]. unfold curIs. rewrite E. tauto.
Qed.

Lemma skipDigits_spec p fuel l :
  (rem l < fuel)%nat ->
  lspec p l (skipDigits fuel l) (fun _ l' => Forall (fun r => isASCIIDigit r = true) (read l l')).
Proof.
  revert l. induction fuel as [ | fuel IH]; intros l Hf; [lia | ].
  assert (Forall (fun r => isASCIIDigit r = true) (read l l)) as Hnil by (by rewrite read_refl).
  cbn [skipDigits]. unfold curIs. destruct (cur l) as [ch | ] eqn:E; lbranch.
  eapply lspec_read; [exact E | apply IH; fuel_lia | ]. intros _ l' -> Hall. by constructor.
Qed.

(** The name collected by [identLoop]: at most 64 bytes, all the characters the class
    accepts. *)
Definition allChars (p : rune -> bool) (s : string) : Prop :=
  forall c, In c (String.list_ascii_of_string s) -> p (rune_of_ascii c) = true.

Definition asciiOnly (p : rune -> bool) : Prop := forall r, p r = true -> 0 <= r < 128.

Lemma encodeRune_ascii r : 0 <= r < 128 -> encodeRune r = str1 r.
Proof.
  intros. unfold encodeRune, valid_rune.
  replace ((0 <=? r) && (r <? 55296)) with true by (symmetry; zbool). simpl.
  destruct (Z.ltb_spec r 128); [done | lia].
Qed.

Lemma rune_of_chr r : 0 <= r < 256 -> rune_of_ascii (chr r) = r.
Proof. apply byte_of_chr. Qed.

Lemma allChars_app p a b : allChars p a -> allChars p b -> allChars p (a +:+ b).
Proof.
  intros Ha Hb c Hc. induction a as [ | x a IH]; autorewrite with go in Hc; [by apply Hb | ].
  destruct Hc as [<- | Hc]; [apply Ha; by left | ].
  apply IH; [ | done]. intros y Hy. apply Ha. by right.
Qed.

Lemma allChars_rune p r : asciiOnly p -> p r = true -> allChars p (encodeRune r).
Proof.
  intros Hp Hr c. pose proof (Hp r Hr) as Hb. rewrite encodeRune_ascii by done.
  intros [<- | []]. by rewrite rune_of_chr by lia.
Qed.

Lemma allChars_runes p rs :
  asciiOnly p -> Forall (fun r => p r = true) rs -> allChars p (string_of_runes rs).
Proof.
  intros Hp. induction 1 as [ | r rs Hr _ IH]; [by intros c [] | ].
  cbn [string_of_runes]. by apply allChars_app; [apply allChars_rune | ].
Qed.

Lemma identLoop_spec fuel l isPart fmt b ln cl :
  (rem l < fuel)%nat -> (String.length b <= 64)%nat ->
  lspec (ln, cl) l (identLoop fuel l isPart fmt b ln cl)
    (fun name l' => (String.length name <= 64)%nat /\ name = b +:+ string_of_runes (read l l') /\
                    Forall (fun r => isPart r = true) (read l l') /\ curIs l' isPart = false).
Proof.
  revert l b. induction fuel as [ | fuel IH]; intros l b Hf Hb; [lia | ].
  assert (b = b +:+ string_of_runes (read l l) /\ Forall (fun r => isPart r = true) (read l l)) as Hnil
    by (rewrite read_refl; simpl; rewrite string_app_nil_r; split; [done | constructor || tauto]).
  cbn [identLoop]. destruct (cur l) as [ch | ] eqn:E.
  2: { apply lspec_ok; [auto with go | ]. unfold curIs. rewrite E. tauto. }
  split_if. 2: { apply lspec_ok; [auto with go | ]. unfold curIs. rewrite E. tauto. }
  split_if; [lerr | ].
  eapply lspec_read; [exact E | apply IH; [fuel_lia | by apply Nat.ltb_ge] | ].
  intros name l' -> (Hl & -> & Hall & Hc). split_and!; [done | apply collect_step | by constructor | done].
Qed.

(** A loop that stops after the runes of a class moves past one it starts on. *)
Lemma steps_moved l l' p ch :
  steps l l' -> cur l = Some ch -> p ch = true -> curIs l' p = false -> (lpos l < lpos l')%nat.
Proof.
  intros Hs E Hp Hn. pose proof (steps_le _ _ Hs). destruct (decide (lpos l' = lpos l)) as [Ep | ]; [ | lia].
  unfold curIs, cur in Hn. rewrite Ep, (steps_src _ _ Hs) in Hn. unfold cur in E. rewrite E in Hn.
  congruence.
Qed.

Lemma read_nonempty l l' ch : cur l = Some ch -> (lpos l < lpos l')%nat -> exists cs, read l l' = ch :: cs.
Proof.
  intros E Hp. unfold read, between. destruct (lpos l' - lpos l)%nat eqn:Ed; [lia | ].
  rewrite (drop_S _ _ _ E). by eexists.
Qed.

(** Same loop, started on an accepted character: it reads at least that. *)
Lemma identLoop_start l isPart fmt ln cl ch :
  cur l = Some ch -> isPart ch = true ->
  lspec (ln, cl) l (identLoop (fuelOf l) l isPart fmt "" ln cl)
    (fun name l' => (String.length name <= 64)%nat /\
       exists cs, read l l' = ch :: cs /\ name = string_of_runes (ch :: cs) /\
                  Forall (fun r => isPart r = true) (ch :: cs)).
Proof.
  intros E Hc. eapply lspec_mono; [apply identLoop_spec; [auto with go | simpl; lia] | ].
  intros name l' Hs (Hl & -> & Hall & Hn). split; [done | ].
  destruct (read_nonempty l l' ch E) as [cs Hr]; [by eapply steps_moved | ].
  rewrite Hr in *. by exists cs.
Qed.

End Loops.

(** ** Tokens *)

Section Tokens.
Context {L : Limits}.

(** What the parser relies on in the names it receives. *)
Definition nameOK (tok : Token) : Prop :=
  match Type_ tok with
  | TOKEN_IDENT =>
      (String.length (Lexeme tok) <= 64)%nat /\ lookupKeyword (Lexeme tok) = None /\
      lastChar (Lexeme tok) <> Some "_"%char /\ allChars isIdentPartLoose (Lexeme tok) /\
      exists c s, Lexeme tok = String c s /\ isIdentStart (rune_of_ascii c) = true
  | TOKEN_VARREF =>
      (String.length (Lexeme tok) <= 64)%nat /\ allChars isIdentPart (Lexeme tok) /\
      exists c s, Lexeme tok = String c s /\ isIdentStart (rune_of_ascii c) = true
  | _ => True
  end.

(** A token read by a reader that started in [l]. *)
Definition tokQ (l : Lexer) (tok : Token) (l' : Lexer) : Prop :=
  Type_ tok <> TOKEN_EOF /\ File tok = "" /\ Line tok = line l /\ Col tok = col l /\ nameOK tok /\
  spells (read l l') tok.

(** Where the reader of [l] reports an error. *)
Abbreviation here l := (line l, col l).

Lemma identStart_ascii : asciiOnly isIdentStart.
Proof. intros r. unfold isIdentStart. intros H. b2p. destruct H; b2p; unfold rune_of_ascii in *; simpl in *; lia. Qed.

Lemma digit_ascii : asciiOnly isASCIIDigit.
Proof. intros r. unfold isASCIIDigit. intros H. b2p. unfold rune_of_ascii in *; simpl in *; lia. Qed.

Lemma identPart_ascii : asciiOnly isIdentPart.
Proof.
  intros r. unfold isIdentPart. intros H. b2p.
  destruct H; [by apply identStart_ascii | by apply digit_ascii].
Qed.

Lemma identPartLoose_ascii : asciiOnly isIdentPartLoose.
Proof.
  intros r. unfold isIdentPartLoose. intros H. b2p. destruct H as [H | H]; b2p.
  - destruct H; [by apply identStart_ascii | by apply digit_ascii].
  - subst. done.
Qed.

Lemma name_start r : isIdentStart r = true ->
  forall s, exists c s', encodeRune r +:+ s = String c s' /\ isIdentStart (rune_of_ascii c) = true.
Proof.
  intros H s. pose proof (identStart_ascii r H). rewrite encodeRune_ascii by done.
  exists (chr r), s. split; [done | ]. by rewrite rune_of_chr by lia.
Qed.

Lemma readVarRef_spec l :
  cur l = Some #"$" -> lspec (here l) l (readVarRef l (line l) (col l)) (tokQ l).
Proof.
  intros E0. unfold readVarRef, curIs. destruct (cur (advance l)) as [ch | ] eqn:E; cbn match; cbn [negb]; [ | lerr].
  split_if; b2p; [lerr | ].
  assert (isIdentPart ch = true) as Hp by (unfold isIdentPart; by rewrite Heqb).
  apply lspec_advance. eapply lspec_bind; [by apply (identLoop_start _ _ _ _ _ ch) | ].
  intros name l' Hs (Hl & cs & Hr & -> & Hall). apply lspec_ok; [auto with go | ].
  unfold tokQ. rewrite (read_cons _ _ _ E0 Hs), Hr. do 4 (split; [done | ]). split.
  - split; [done | ]. split; [ | by apply name_start]. by apply allChars_runes; [apply identPart_ascii | ].
  - by eapply spells_var.
Qed.

Lemma lookupKeyword_type name kw : lookupKeyword name = Some kw ->
  kw <> TOKEN_EOF /\ kw <> TOKEN_IDENT /\ kw <> TOKEN_VARREF.
Proof.
  unfold lookupKeyword. destruct (List.find _ keywords) as [[k t] | ] eqn:E; [ | done].
  intros [= <-]. apply find_some in E as [E _]. revert E. unfold keywords. simpl.
  intros E. repeat (destruct E as [[= <- <-] | E]; [done | ]). done.
Qed.

Lemma readIdentifierOrKeyword_spec l ch :
  cur l = Some ch -> isIdentStart ch = true ->
  lspec (here l) l (readIdentifierOrKeyword l (line l) (col l)) (tokQ l).
Proof.
  intros E Hc. unfold readIdentifierOrKeyword.
  assert (isIdentPartLoose ch = true) as Hp by (unfold isIdentPartLoose; by rewrite Hc).
  eapply lspec_bind; [by apply (identLoop_start _ _ _ _ _ ch) | ].
  intros name l' Hs (Hl & cs & Hr & -> & Hall).
  assert (forall t, lookupKeyword (string_of_runes (ch :: cs)) = t ->
    spells (ch :: cs) (mkTok (default TOKEN_IDENT t) (string_of_runes (ch :: cs)) (line l) (col l))) as Hsp.
  { intros t Ht. eapply spells_name; try done. cbn [Lexeme Type_ mkTok]. by rewrite Ht. }
  destruct (lookupKeyword _) as [kw | ] eqn:Ek.
  - pose proof (lookupKeyword_type _ _ Ek) as (? & ? & ?). apply lspec_ok; [auto with go | ].
    unfold tokQ. rewrite Hr. do 4 (split; [done | ]). split; [ | exact (Hsp (Some kw) eq_refl)].
    unfold nameOK. simpl. by destruct kw.
  - case_bool_decide as Hl'; [lerr | ]. apply lspec_ok; [auto with go | ].
    unfold tokQ. rewrite Hr. do 4 (split; [done | ]). split; [ | exact (Hsp None eq_refl)].
    unfold nameOK. cbn [Lexeme Type_ mkTok]. do 3 (split; [done | ]).
    split; [ | by apply name_start]. by apply allChars_runes; [apply identPartLoose_ascii | ].
Qed.

(** *** Numbers *)

(** A number read from [l], before its spelling is recorded. *)
Definition numQ (l : Lexer) (tok : Token) (l' : Lexer) : Prop :=
  Type_ tok = numType (read l l') /\ Lexeme tok = numLexeme (read l l') /\
  File tok = "" /\ Line tok = line l /\ Col tok = col l /\ (lpos l < lpos l')%nat.

Lemma readBasedInt_spec l base pre d c1 :
  cur l = Some #"0" -> cur (advance l) = Some c1 -> d #"_" = false ->
  (forall ds, based (#"0" :: c1 :: ds) = Some (pre, ds)) ->
  lspec (here l) l (readBasedInt l (line l) (col l) base pre d) (numQ l).
Proof.
  intros E0 E1 Hd Hb. unfold readBasedInt. split_if; [lerr | ].
  do 2 apply lspec_advance. eapply lspec_bind; [apply digitsLoop_spec; auto with go | ].
  intros digits l' Hs (-> & _ & _). apply lspec_ok; [auto with go | ].
  unfold numQ, numType, numLexeme.
  rewrite (read_cons _ _ _ E0) by (eapply steps_trans; [apply advance_steps | done]).
  rewrite (read_cons _ _ _ E1 Hs), Hb. split_and!; try done.
  apply steps_le in Hs. rewrite (advance_pos _ _ E1), (advance_pos _ _ E0) in Hs. lia.
Qed.

(** Digits and separators mark no float and are not the letters of a base. *)
Lemma plain_digits rs :
  Forall (fun r => isASCIIDigit r || (r =? #"_") = true) rs -> existsb floatMark rs = false.
Proof.
  induction 1 as [ | r rs Hr _ IH]; [done | ]. cbn [existsb]. rewrite IH, orb_false_r.
  unfold floatMark, isASCIIDigit in *. b2p. unfold rune_of_ascii in *. simpl in *.
  destruct Hr; b2p; zbool.
Qed.

Lemma noSep_digits rs : Forall (fun r => isASCIIDigit r = true) rs -> noSep rs = rs.
Proof.
  induction 1 as [ | r rs Hr _ IH]; [done | ]. unfold noSep in *. cbn [List.filter].
  rewrite IH. unfold isASCIIDigit in Hr. b2p. destruct (Z.eqb_spec r #"_") as [-> | ]; [ | done].
  unfold rune_of_ascii in *. simpl in *. lia.
Qed.

Lemma srcSlice_read l l' : src l' = src l -> srcSlice l' (lpos l) = string_of_runes (read l l').
Proof. intros E. unfold srcSlice, read, between. by rewrite E. Qed.

(** The type and lexeme of a decimal number read from [l]. *)
Definition decimalQ (l : Lexer) (tok : Token) (l' : Lexer) : Prop :=
  Type_ tok = (if existsb floatMark (read l l') then TOKEN_FLOAT else TOKEN_INT) /\
  Lexeme tok = string_of_runes (noSep (read l l')) /\
  File tok = "" /\ Line tok = line l /\ Col tok = col l.

(** The exponent of a number that started in [l]. *)
Lemma readExponent_spec l l1 f :
  steps l l1 -> existsb floatMark (read l l1) = f ->
  lspec (here l) l1 (readExponent l1 (string_of_runes (noSep (read l l1))) f (line l) (col l))
    (decimalQ l).
Proof.
  intros Hs Hf. unfold readExponent, curIs. destruct (cur l1) as [c | ] eqn:E.
  2: { apply lspec_ok; [auto with go | ]. unfold decimalQ. by rewrite Hf. }
  split_if. 2: { apply lspec_ok; [auto with go | ]. unfold decimalQ. by rewrite Hf. }
  cbv zeta.
  match goal with |- context [if ?b then advance (advance l1) else advance l1] =>
    set (l2 := if b then advance (advance l1) else advance l1) end.
  assert (steps (advance l1) l2 /\ noSep (read l1 l2) = read l1 l2) as [Hs2 Hsign].
  { assert (negb (c =? #"_") = true) as Hc by (b2p; destruct Heqb; b2p; by subst).
    subst l2. destruct (cur (advance l1)) as [c2 | ] eqn:E2; [ | split; [auto with go | ]].
    - split_if; (split; [auto with go | ]).
      + rewrite (read_cons _ _ _ E), (read_advance _ _ E2) by auto with go.
        unfold noSep. cbn [List.filter]. rewrite Hc. b2p.
        match goal with H : _ \/ _ |- _ => destruct H; b2p; by subst end.
      + rewrite (read_advance _ _ E). unfold noSep. cbn [List.filter]. by rewrite Hc.
    - rewrite (read_advance _ _ E). unfold noSep. cbn [List.filter]. by rewrite Hc. }
  assert (steps l1 l2) as Hs12 by (eapply steps_trans; eauto with go).
  eapply lspec_steps; [exact Hs12 | ]. split_if; [lerr | ].
  eapply lspec_bind; [apply skipDigits_spec; auto with go | ].
  intros u l' Hs' Hd. assert (steps l1 l') as Hs1' by (by eapply steps_trans).
  apply lspec_ok; [auto with go | ].
  unfold decimalQ. rewrite (srcSlice_read l1 l') by (by apply steps_src).
  assert (noSep (read l1 l') = read l1 l') as Hn.
  { by rewrite (read_app l1 l2 l' Hs12 Hs'), noSep_app, Hsign, (noSep_digits _ Hd). }
  rewrite (read_app l l1 l' Hs Hs1'), noSep_app, existsb_app, string_of_runes_app, Hn.
  split_and!; [ | done ..].
  rewrite (read_cons l1 l' c E) by (by eapply steps_trans). cbn [existsb].
  assert (floatMark c = true) as -> by (unfold floatMark; b2p; destruct Heqb; b2p; by subst).
  cbn [orb]. by rewrite orb_true_r.
Qed.

Lemma readDecimal_spec l ch :
  cur l = Some ch -> isASCIIDigit ch = true ->
  lspec (here l) l (readDecimal l (line l) (col l))
    (fun tok l' => decimalQ l tok l' /\ (lpos l < lpos l')%nat).
Proof.
  intros E0 Hc. unfold readDecimal. eapply lspec_bind; [by apply digitsLoop_spec; [auto with go | ] | ].
  intros digits l1 Hs1 (-> & Hd1 & Hn1). autorewrite with go.
  pose proof (steps_moved _ _ _ _ Hs1 E0 Hc Hn1) as Hp.
  assert (forall l2 o, steps l1 l2 ->
    lspec (here l) l2 o
      (decimalQ l) ->
    lspec (here l) l2 o
      (fun tok l' => decimalQ l tok l' /\ (lpos l < lpos l')%nat)) as Hmoved.
  { intros l2 o Hs12 Ho. eapply lspec_mono; [exact Ho | ]. intros tok l' Hs' ?.
    apply steps_le in Hs12, Hs'. split; [done | lia]. }
  split_if.
  2: { apply Hmoved; [auto with go | ]. apply readExponent_spec; [done | by apply plain_digits]. }
  b2p. unfold curIs in *. destruct (cur l1) as [c | ] eqn:E; [ | done]. b2p. subst c.
  apply lspec_advance. eapply lspec_bind; [by apply digitsLoop_spec; [auto with go | ] | ].
  intros fraction l2 Hs2 (-> & _ & _). autorewrite with go.
  assert (steps l l2) as Hs by (eapply steps_trans; [exact Hs1 | ]; eapply steps_trans; [apply advance_steps | done]).
  assert (read l l2 = read l l1 ++ #"." :: read (advance l1) l2) as Hr.
  { rewrite (read_app l l1 l2) by (try done; by eapply steps_trans; [apply advance_steps | ]).
    by rewrite (read_cons _ _ _ E Hs2). }
  match goal with |- context [readExponent l2 ?s _ _ _] =>
    replace s with (string_of_runes (noSep (read l l2))) end.
  - apply Hmoved; [by eapply steps_trans; [apply advance_steps | ] | ].
    apply readExponent_spec; [done | ]. rewrite Hr, existsb_app. cbn [existsb]. by rewrite orb_true_r.
  - rewrite Hr, noSep_app, string_of_runes_app. done.
Qed.

Lemma based_none l l' :
  (cur l = Some #"0" -> forall c, cur (advance l) = Some c ->
     forall ds, based (#"0" :: c :: ds) = None) ->
  steps l l' -> based (read l l') = None.
Proof.
  intros Hn Hs. destruct (read l l') as [ | z [ | c ds]] eqn:Er; [done | done | ].
  pose proof (read_head _ _ _ _ Er) as Ez. cbn [based].
  destruct (Z.eqb_spec z #"0") as [-> | ]; [ | done].
  assert (cur (advance l) = Some c) as Ec; [ | apply (Hn Ez c Ec ds)].
  assert (steps (advance l) l') as Hs'.
  { assert (lpos l < lpos l')%nat by (apply read_progress; [done | by rewrite Er]).
    destruct Hs as [Es F Hle B T]. pose proof (advance_steps l) as Ha. pose proof (advance_pos _ _ Ez) as Hp.
    split; rewrite ?(steps_src _ _ Ha), ?(steps_file _ _ Ha), ?Hp; try done; try lia.
    pose proof (steps_track _ _ Ha) as Tk. rewrite T, Hp in *.
    rewrite (between_app _ (lpos l) (S (lpos l)) (lpos l')), trackPos_app, <- Tk by lia. done. }
  rewrite (read_cons _ _ _ Ez Hs') in Er. injection Er as Er. by eapply read_head.
Qed.

Lemma readNumber_spec l ch :
  cur l = Some ch -> isASCIIDigit ch = true ->
  lspec (here l) l (readNumber l (line l) (col l)) (numQ l).
Proof.
  intros E Hc. unfold readNumber. rewrite E, (peek_advance l ch E).
  assert ((cur l = Some #"0" -> forall c, cur (advance l) = Some c ->
             forall ds, based (#"0" :: c :: ds) = None) ->
          lspec (here l) l (readDecimal l (line l) (col l)) (numQ l)) as Hdec.
  { intros Hn. eapply lspec_mono; [by eapply readDecimal_spec | ]. intros tok l' Hs HQ.
    destruct HQ as ((? & ? & ? & ? & ?) & ?).
    unfold numQ, numType, numLexeme. by rewrite (based_none _ _ Hn Hs). }
  destruct (cur (advance l)) as [c1 | ] eqn:E1; [ | by apply Hdec].
  destruct (Z.eqb_spec ch #"0") as [-> | Hz]; [ | apply Hdec; congruence].
  destruct ((c1 =? #"x") || (c1 =? #"X")) eqn:Bx.
  { apply (readBasedInt_spec l 16 "0x" isHexDigit c1); [done | done | done | ].
    intros ds. cbn [based]. by rewrite Bx. }
  destruct ((c1 =? #"o") || (c1 =? #"O")) eqn:Bo.
  { apply (readBasedInt_spec l 8 "0o" isOctDigit c1); [done | done | done | ].
    intros ds. cbn [based]. by rewrite Bx, Bo. }
  destruct ((c1 =? #"b") || (c1 =? #"B")) eqn:Bb.
  { apply (readBasedInt_spec l 2 "0b" isBinDigit c1); [done | done | done | ].
    intros ds. cbn [based]. by rewrite Bx, Bo, Bb. }
  apply Hdec. intros _ c [= <-] ds. cbn [based]. by rewrite Bx, Bo, Bb.
Qed.

(** *** Strings, comments, punctuation *)

(** A literal stamped with its spelling. *)
Lemma withRaw_number l ch :
  cur l = Some ch -> isASCIIDigit ch = true ->
  lspec (here l) l (withRaw (lpos l) (readNumber l (line l) (col l))) (tokQ l).
Proof.
  intros E Hc. pose proof (readNumber_spec l ch E Hc) as Ho.
  destruct (readNumber _ _ _) as [tok l' | e | ]; [ | done | done].
  destruct Ho as [Hs (Ht & Hlex & ? & ? & ? & Hp)]. split; [done | ].
  rewrite (srcSlice_read l l') by (by apply steps_src). unfold tokQ, nameOK.
  cbn [Type_ Lexeme Raw File Line Col]. rewrite Ht.
  assert (numType (read l l') = TOKEN_INT \/ numType (read l l') = TOKEN_FLOAT) as Hnt.
  { unfold numType. destruct (based _) as [[] | ]; [by left | ]. split_if; [by right | by left]. }
  destruct (read_nonempty l l' ch E Hp) as [cs Hr].
  split_and!; [by destruct Hnt as [-> | ->] | done | done | done | by destruct Hnt as [-> | ->] | ].
  by eapply spells_number.
Qed.

Lemma withRaw_string l q :
  cur l = Some q -> q = 34 \/ q = #"'" ->
  lspec (here l) l (withRaw (lpos l) (readString l q (line l) (col l))) (tokQ l).
Proof.
  intros E Hq.
  assert (lspec (here l) l (readString l q (line l) (col l))
    (fun tok l' => (Type_ tok = TOKEN_STRING \/ Type_ tok = TOKEN_STRING_INTERP) /\
       File tok = "" /\ Line tok = line l /\ Col tok = col l /\
       forall tok', Type_ tok' = Type_ tok -> Lexeme tok' = Lexeme tok ->
         Raw tok' = string_of_runes (read l l') -> spells (read l l') tok')) as Ho.
  { unfold readString. split_if; b2p; (eapply lspec_read; [exact E | | ]).
    - apply rawStringLoop_spec. auto with go.
    - intros tok l' -> (? & ? & ? & ? & cs & -> & Hn & Hlex). split_and!; [by left | done.. | ].
      intros tok' ? ? ?. subst q. eapply (spells_raw _ _ cs); [done | done | done | by etrans; [ | exact Hlex] | congruence].
    - apply cookedStringLoop_spec. auto with go.
    - intros tok l' -> (? & ? & ? & cs & -> & HT). destruct Hq as [-> | ?]; [ | done].
      split_and!; [by destruct HT as [? | [? _]]; auto | done .. | ]. intros tok' ? ? ?.
      destruct HT as [? | (? & _ & vs & Hck & Hlex)]; [by eapply spells_interp; [ | | congruence] | ].
      eapply spells_cooked; [done | done | done | by etrans; [ | exact Hlex] | congruence]. }
  destruct (readString _ _ _ _) as [tok l' | e | ]; [ | done | done].
  destruct Ho as [Hs (Ht & ? & ? & ? & Hsp)]. split; [done | ].
  rewrite (srcSlice_read l l') by (by apply steps_src). unfold tokQ, nameOK.
  cbn [Type_ Lexeme Raw File Line Col].
  split_and!; [by destruct Ht as [-> | ->] | done | done | done | by destruct Ht as [-> | ->] | ].
  by apply Hsp.
Qed.

Lemma readLineComment_spec l :
  cur l = Some #"#" -> lspec (here l) l (readLineComment l) (tokQ l).
Proof.
  intros E. unfold readLineComment, fuelOf. cbn [lineCommentLoop]. rewrite E.
  cbn [Z.eqb newline]. eapply lspec_bind.
  - eapply lspec_read; [exact E | | intros b l' Hr HQ; exact (conj Hr HQ)].
    apply lineCommentLoop_spec. pose proof (advance_rem _ _ E). unfold rem in *. lia.
  - intros b l' Hs (Hr & -> & Hn). apply lspec_ok; [auto with go | ]. unfold tokQ. rewrite Hr.
    match goal with |- context [if ?b then TOKEN_COMMENT_SHEBANG else TOKEN_COMMENT_LINE] =>
      set (t := if b then TOKEN_COMMENT_SHEBANG else TOKEN_COMMENT_LINE) end.
    assert (t = TOKEN_COMMENT_LINE \/ t = TOKEN_COMMENT_SHEBANG) as Ht by (subst t; split_if; auto).
    split_and!; [by destruct Ht as [-> | ->] | done | done | done | by destruct Ht as [-> | ->] | ].
    by eapply spells_line.
Qed.

Lemma readBlockComment_spec l :
  cur l = Some #"/" -> cur (advance l) = Some #"*" ->
  lspec (here l) l (readBlockComment l) (tokQ l).
Proof.
  intros E0 E1. unfold readBlockComment. do 2 apply lspec_advance.
  eapply lspec_bind; [apply blockCommentLoop_spec; [auto with go | lia] | ].
  intros b l' Hs [-> Hc]. apply lspec_ok; [auto with go | ]. unfold tokQ.
  rewrite (read_cons _ _ _ E0) by (eapply steps_trans; [apply advance_steps | done]).
  rewrite (read_cons _ _ _ E1 Hs). split_and!; [done .. | ]. by eapply spells_block.
Qed.

(** A punctuation token is read where its text stands. *)
Lemma punct_spec l l' t lex :
  steps l l' -> In (lex, t) punctuation -> read l l' = runes_of_string lex ->
  lspec (here l) l (LOk (mkTok t lex (line l) (col l)) l') (tokQ l).
Proof.
  intros Hs Hin Hr. apply lspec_ok; [done | ]. unfold tokQ.
  assert (t <> TOKEN_EOF /\ t <> TOKEN_IDENT /\ t <> TOKEN_VARREF) as (? & ? & ?).
  { clear Hr. unfold punctuation in Hin. cbn [In] in Hin.
    repeat (destruct Hin as [[= <- <-] | Hin]; [done | ]). done. }
  split_and!; [done .. | unfold nameOK; simpl; by destruct t | ]. by apply spells_punct.
Qed.

Lemma single_spec l c t lex :
  cur l = Some c -> In (lex, t) punctuation -> runes_of_string lex = [c] ->
  lspec (here l) l (single l t lex) (tokQ l).
Proof. intros E Hin Hr. apply punct_spec; [auto with go | done | ]. by rewrite (read_advance _ _ E). Qed.

Lemma two_spec l c c' t lex :
  cur l = Some c -> peekIs (advance l) 0 c' = true -> In (lex, t) punctuation ->
  runes_of_string lex = [c; c'] ->
  lspec (here l) l (LOk (mkTok t lex (line l) (col l)) (advance (advance l))) (tokQ l).
Proof.
  intros E Hp Hin Hr. apply punct_spec; [auto with go | done | ].
  unfold peekIs, peek in Hp. rewrite Nat.add_0_r in Hp.
  destruct (src (advance l) !! lpos (advance l)) as [d | ] eqn:Ed; [ | done]. b2p. subst d.
  rewrite (read_cons _ _ _ E), (read_advance _ c') by (done || auto with go). done.
Qed.

(** Where a token of the stream lies: it starts in a lexer [l0] reached over a gap, carries
    its position and spells what is read from there; the last token stands at the end. *)
Definition tokenAt (l : Lexer) (tok : Token) (l' : Lexer) : Prop :=
  exists l0, steps l l0 /\ steps l0 l' /\ gap (read l l0) /\ File tok = "" /\
    Line tok = line l0 /\ Col tok = col l0 /\ nameOK tok /\
    if bool_decide (Type_ tok = TOKEN_EOF) then l' = l0 /\ cur l0 = None
    else spells (read l0 l') tok.

Lemma lspec_tokenAt l0 l o :
  steps l0 l -> gap (read l0 l) -> lspec (here l) l o (tokQ l) -> lspec (here l0) l o (tokenAt l0).
Proof.
  intros Hs Hg Ho. apply (lspec_place _ (here l)); [place | ]. eapply lspec_mono; [exact Ho | ].
  intros tok l' Hs' (Ht & HF & HL & HC & HN & Hsp). exists l. do 7 (split; [done | ]).
  by rewrite bool_decide_false.
Qed.

Lemma nextTrivia_spec l :
  lspec (here l) l (nextTrivia l)
    (fun t l' => match t with Some tok => tokenAt l tok l' | None => gap (read l l') end).
Proof.
  unfold nextTrivia. eapply lspec_bind; [apply triviaLoop_spec; auto with go | ].
  intros n l1 Hs [-> Hw]. destruct (Z.leb_spec 2 (0 + newlines (read l l1))).
  { apply lspec_ok; [auto with go | ]. exists l. rewrite read_refl.
    split_and!; [auto with go | done | by constructor | done | done | done | done | ].
    rewrite bool_decide_false by done. by apply spells_blank. }
  assert (gap (read l l1)) as Hg by (split; [done | lia]).
  assert (forall o, lspec (here l1) l1 o (tokQ l1) ->
    lspec (here l) l1 (lbind o (fun tok l => LOk (Some tok) l))
      (fun t l' => match t with Some tok => tokenAt l tok l' | None => gap (read l l') end)) as Hcom.
  { intros o Ho. eapply lspec_bind; [by apply lspec_tokenAt | ]. intros tok l2 _ Ht.
    by apply lspec_ok; [auto with go | ]. }
  destruct (cur l1) as [ch | ] eqn:E; [ | by apply lspec_ok; [auto with go | ]].
  destruct (Z.eqb_spec ch #"#") as [-> | ]; [by apply Hcom, readLineComment_spec | ].
  split_if; [ | by apply lspec_ok; [auto with go | ]]. b2p. subst ch.
  unfold peekIs in *. rewrite (peek_advance _ _ E) in *.
  destruct (cur (advance l1)) as [c | ] eqn:E1; [ | done]. b2p. subst c.
  by apply Hcom, readBlockComment_spec.
Qed.

Lemma Next_spec l : lspec (here l) l (Next l) (tokenAt l).
Proof.
  unfold Next. eapply lspec_bind; [apply nextTrivia_spec | ].
  intros [tok | ] l1 Hs Ht; [by apply lspec_ok; [auto with go | ] | ].
  destruct (cur l1) as [ch | ] eqn:E.
  2: { apply lspec_ok; [auto with go | ]. exists l1. by split_and!; [auto with go .. | ]. }
  eapply lspec_tokenAt; [done | done | ]. cbv zeta.
  repeat match goal with
  | |- context [if ch =? ?c then _ else _] =>
      destruct (Z.eqb_spec ch c) as [-> | ];
      [repeat match goal with
       | |- context [if peekIs (advance l1) 0 ?d then _ else _] =>
           destruct (peekIs (advance l1) 0 d) eqn:?;
           [by eapply (two_spec l1); [exact E | done | simpl; tauto | done] | ]
       end; first [by eapply (single_spec l1); [exact E | simpl; tauto | done] | lerr] | ]
  end.
  destruct ((ch =? 34) || (ch =? #"'")) eqn:Hq.
  { apply withRaw_string; [done | ]. b2p. destruct Hq; b2p; auto. }
  destruct (Z.eqb_spec ch #"$") as [-> | ]; [by apply readVarRef_spec | ].
  split_if; [by eapply withRaw_number | ].
  split_if; [by eapply readIdentifierOrKeyword_spec | lerr].
Qed.

End Tokens.

(** ** The token stream *)

Section Stream.
Context {L : Limits}.

(** What [tokenizeLoop] returns from [l], in terms of the position [(ln, cl)] of
    offset 0. *)
Definition streamFrom (l : Lexer) (ln cl : Z) (ts : list Token) : Prop :=
  stream (src l) ln cl (lpos l) ts /\ Forall nameOK ts /\ Forall (fun t => File t = file l) ts.

Definition posOK (l : Lexer) (ln cl : Z) : Prop :=
  (lpos l <= length (src l))%nat /\
  (line l, col l) = trackPos (take (lpos l) (src l)) ln cl.

Lemma posOK_steps l l' ln cl : posOK l ln cl -> steps l l' -> posOK l' ln cl.
Proof.
  intros [Hb Ht] Hs. pose proof (steps_le _ _ Hs). pose proof (steps_bound _ _ Hs Hb).
  unfold posOK. rewrite (steps_src _ _ Hs). split; [done | ].
  rewrite (steps_track _ _ Hs). rewrite <- !between_0.
  rewrite (between_app _ 0 (lpos l)), trackPos_app by lia.
  rewrite between_0, <- Ht. done.
Qed.

Lemma cur_None_end l : cur l = None -> (length (src l) <= lpos l)%nat.
Proof. apply lookup_ge_None_1. Qed.

(** A token's text is not empty. *)
Lemma spells_nonempty rs tok : spells rs tok -> rs <> [].
Proof.
  destruct 1 as [Hin Hr | ? ? ? ? ? ? ? | ? ? ? ? ? ? ? | ? ? ? ? ? ? ? | ? ? ? ? ? ? | ? ? ? ? ? ? ?
                 | ? ? ? ? | ? ? ? ? ? | ? ? ? ? ? | Hw Hn _ _]; try (by subst).
  - rewrite Hr. clear Hr. revert Hin. unfold punctuation. cbn [In]. intros Hin.
    repeat (destruct Hin as [[= <- _] | Hin]; [done | ]). done.
  - intros ->. simpl in *. lia.
Qed.

Lemma spells_setFile rs tok f : spells rs tok -> spells rs (setFile tok f).
Proof.
  destruct 1; [by eapply spells_punct | by eapply spells_name | by eapply spells_var
              | by eapply spells_number | by eapply spells_raw | by eapply spells_cooked
              | by eapply spells_interp | by eapply spells_line | by eapply spells_block
              | by eapply spells_blank].
Qed.

(** One round of the loop, with the token stamped with the file. *)
Lemma streamFrom_cons l tok l' tok' ln cl ts :
  posOK l ln cl -> steps l l' -> tokenAt l tok l' -> tok' = setFile tok (file l) ->
  Type_ tok <> TOKEN_EOF -> streamFrom l' ln cl ts -> streamFrom l ln cl (tok' :: ts).
Proof.
  intros Hp Hs (l0 & Hs1 & Hs2 & Hg & HF & HL & HC & HN & Hsp) -> Ht (Hst & Hn & Hf).
  rewrite bool_decide_false in Hsp by done.
  rewrite (steps_src _ _ Hs) in Hst. rewrite (steps_file _ _ Hs) in Hf.
  pose proof (posOK_steps _ _ _ _ Hp Hs1) as [_ Ht0]. destruct Hp as [Hb _].
  rewrite (steps_src _ _ Hs1) in Ht0.
  pose proof (read_progress _ _ Hs2 (spells_nonempty _ _ Hsp)).
  unfold read in Hg, Hsp. rewrite (steps_src _ _ Hs1) in Hsp.
  split; [ | split; by constructor].
  apply (stream_tok _ _ _ _ (lpos l0) (lpos l')); auto.
  - by apply steps_le.
  - split; [done | ]. by apply (steps_bound _ _ Hs).
  - by apply spells_setFile.
  - simpl. by rewrite HL, HC.
Qed.

Lemma streamFrom_eof l tok l' tok' ln cl :
  posOK l ln cl -> steps l l' -> tokenAt l tok l' -> tok' = setFile tok (file l) ->
  Type_ tok = TOKEN_EOF -> streamFrom l ln cl [tok'].
Proof.
  intros Hp Hs (l0 & Hs1 & Hs2 & Hg & HF & HL & HC & HN & Hpos) -> Ht.
  rewrite bool_decide_true in Hpos by done. destruct Hpos as [-> Hc].
  apply cur_None_end in Hc. pose proof (posOK_steps _ _ _ _ Hp Hs1) as [Hb0 Ht0].
  rewrite (steps_src _ _ Hs1) in Ht0, Hc, Hb0. rewrite take_ge in Ht0 by lia. destruct Hp as [Hb _].
  unfold read in Hg. replace (lpos l0) with (length (src l)) in Hg by lia. rewrite between_end in Hg.
  split; [ | split; by repeat constructor].
  apply stream_eof; auto. simpl. by rewrite HL, HC.
Qed.

Lemma setFile_same tok : setFile tok (File tok) = tok.
Proof. by destruct tok. Qed.

Lemma tokenizeLoop_spec fuel l out ln cl :
  (rem l < fuel)%nat -> posOK l ln cl ->
  lspec (line l, col l) l (tokenizeLoop fuel l out)
    (fun ts _ => exists rest, ts = out ++ rest /\ streamFrom l ln cl rest /\
                              Z.of_nat (length ts) <= MaxTokens).
Proof.
  revert l out. induction fuel as [ | fuel IH]; intros l out Hf Hp; [lia | ].
  cbn [tokenizeLoop]. pose proof (Next_spec l) as HN.
  destruct (Next l) as [tok l' | e | ]; [ | done | done]. destruct HN as [Hs Ht]. cbn [lbind].
  set (tok' := if bool_decide (file l' = "") then tok else _).
  assert (tok' = setFile tok (file l)) as Etok.
  { subst tok'. rewrite (steps_file _ _ Hs). case_bool_decide as Hfile; [ | done].
    destruct Ht as (? & _ & _ & _ & HF & _). rewrite Hfile, <- HF. by rewrite setFile_same. }
  split_if.
  { destruct Ht as (l0 & Hs0 & _ & _ & _ & HL & HC & _). rewrite Etok. split; [done | ]. right.
    exists l0. cbn. by rewrite HL, HC. }
  b2p. eapply lspec_steps; [exact Hs | ].
  case_bool_decide as Ht'; rewrite Etok in Ht'; simpl in Ht'.
  - apply lspec_ok; [auto with go | ]. exists [tok'].
    split; [done | ]. split; [by eapply streamFrom_eof | ]. rewrite length_app. simpl. lia.
  - assert (rem l' < rem l)%nat as Hr.
    { destruct Ht as (l0 & Hs1 & Hs2 & _ & _ & _ & _ & _ & Hsp).
      rewrite bool_decide_false in Hsp by done.
      pose proof (read_progress _ _ Hs2 (spells_nonempty _ _ Hsp)).
      pose proof (steps_le _ _ Hs1). pose proof (steps_bound _ _ Hs (proj1 Hp)).
      unfold rem. rewrite (steps_src _ _ Hs). lia. }
    apply (lspec_place _ (line l', col l')); [place | ].
    eapply lspec_mono; [apply IH; [lia | by eapply posOK_steps] | ].
    intros ts l'' _ (rest & -> & Hst & Hlen). exists (tok' :: rest).
    split; [by rewrite <- app_assoc | ]. split; [by eapply streamFrom_cons | ].
    by rewrite <- app_assoc in Hlen |- *.
Qed.

(** The source as the lexer sees it: decoded, without a leading byte-order mark. *)
Definition sourceRunes (source : string) : list rune := src (New source).

Lemma TokenizeAt_spec source fname ln cl :
  match TokenizeAt source fname ln cl with
  | LOk ts _ =>
      stream (sourceRunes source) ln cl 0 ts /\ Forall nameOK ts /\
      Forall (fun t => File t = fname) ts /\ Z.of_nat (length ts) <= MaxTokens
  | LErr e =>
      ErrFile e = fname /\
      exists o, (o <= length (sourceRunes source))%nat /\
        (ErrLine e, ErrCol e) = trackPos (take o (sourceRunes source)) ln cl
  | LFuel => False
  end.
Proof.
  unfold TokenizeAt, tokenizeAll. set (l := mkLexer _ _ _ _ _).
  assert (posOK l ln cl) as Hp by (split; simpl; [lia | done]).
  pose proof (tokenizeLoop_spec (fuelOf l) l [] ln cl (fuelOf_rem l) Hp) as H.
  destruct (tokenizeLoop _ _ _) as [ts l' | e | ]; [ | | done].
  - by destruct H as [_ (rest & -> & (Hst & Hn & Hfl) & Hlen)].
  - destruct H as [Hf [Hpl | (l' & Hs & Hpl)]]; (split; [done | ]); rewrite Hpl.
    + exists 0%nat. split; [lia | done].
    + pose proof (posOK_steps _ _ _ _ Hp Hs) as [Hb Ht]. rewrite (steps_src _ _ Hs) in Hb, Ht.
      by exists (lpos l').
Qed.

Lemma Tokenize_At source : Tokenize source = TokenizeAt source "" 1 1.
Proof. done. Qed.

(** What the parser relies on in a successful lex of an embedded slot or a
    file: every token is stamped with the file, the token budget is respected,
    and every identifier or variable name is 1 to 64 bytes of its character
    class, starts with a letter, and an identifier is no keyword and does not end
    in an underscore. *)
Theorem TokenizeAt_wellformed (source fname : string) (ln cl : Z) (ts : list Token) (l : Lexer)
    (H : TokenizeAt source fname ln cl = LOk ts l) :
  Forall nameOK ts /\ Forall (fun t => File t = fname) ts /\
  Z.of_nat (length ts) <= MaxTokens.
Proof.
  pose proof (TokenizeAt_spec source fname ln cl) as Hs. rewrite H in Hs. by destruct Hs.
Qed.

End Stream.

(** ** String literals round trip *)

Section Quoting.
Context {L : Limits}.

(** The escaped spelling of a rune in a cooked literal. *)
Definition quoteRune (r : rune) : list rune :=
  if r =? 10 then [ #"\"; #"n"]
  else if r =? 13 then [ #"\"; #"r"]
  else if r =? 9 then [ #"\"; #"t"]
  else if r =? 0 then [ #"\"; #"0"]
  else if (r =? 34) || (r =? #"\") || (r =? #"{") || (r =? #"}") then [ #"\"; r]
  else [r].

Definition unread (l : Lexer) : list rune := drop (lpos l) (src l).

Lemma unread_cons l r rs :
  unread l = r :: rs -> cur l = Some r /\ unread (advance l) = rs.
Proof.
  unfold unread, cur, advance. intros H.
  assert (src l !! lpos l = Some r) as E.
  { rewrite <- (Nat.add_0_r (lpos l)), <- lookup_drop, H. done. }
  split; [done | ]. unfold cur. rewrite E.
  assert (drop (S (lpos l)) (src l) = rs).
  { rewrite (drop_S _ _ _ E) in H. by injection H. }
  by destruct (r =? newline).
Qed.

Lemma unread_rem l : rem l = length (unread l).
Proof. unfold rem, unread. by rewrite length_drop. Qed.

(** Reading one quoted rune. *)
Lemma cookedStringLoop_quoted fuel l r rest lit parts h ln cl :
  unread l = quoteRune r ++ rest ->
  exists l', unread l' = rest /\
    cookedStringLoop (S fuel) l lit parts h ln cl =
    cookedStringLoop fuel l' (WriteRune lit r) parts h ln cl.
Proof.
  unfold quoteRune. intros H.
  repeat (match type of H with
    | context [if ?b then _ else _] => destruct b eqn:?
    end; b2p; subst; simpl in H);
  apply unread_cons in H as [E1 H];
  try (apply unread_cons in H as [E2 H]; exists (advance (advance l)); split; [done | ];
       cbn [cookedStringLoop]; rewrite E1; simpl; unfold readCookedEscape; rewrite E2;
       by repeat match goal with H : _ \/ _ |- _ => destruct H; b2p; subst end).
  exists (advance l). split; [done | ]. cbn [cookedStringLoop]. rewrite E1.
  repeat match goal with
  | Hn : ?x <> ?y |- context [?x =? ?y] => destruct (Z.eqb_spec x y); [done | ]
  end. done.
Qed.

Lemma cookedStringLoop_text rs fuel l lit rest ln cl :
  (rem l < fuel)%nat -> unread l = flat_map quoteRune rs ++ 34 :: rest ->
  exists l', unread l' = rest /\
    cookedStringLoop fuel l lit [] false ln cl =
    LOk (mkTok TOKEN_STRING (lit +:+ string_of_runes rs) ln cl) l'.
Proof.
  revert fuel l lit. induction rs as [ | r rs IH]; intros fuel l lit Hf H;
    (destruct fuel as [ | fuel]; [lia | ]); simpl in H.
  - apply unread_cons in H as [E H]. exists (advance l). split; [done | ].
    cbn [cookedStringLoop]. rewrite E. simpl. by autorewrite with go.
  - rewrite <- app_assoc in H.
    destruct (cookedStringLoop_quoted fuel l r _ lit [] false ln cl H) as (l1 & H1 & ->).
    destruct (IH fuel l1 (WriteRune lit r)) as (l2 & H2 & ->); [ | done | ].
    + rewrite unread_rem, H1. rewrite unread_rem, H, length_app in Hf.
      assert (1 <= length (quoteRune r))%nat; [ | lia].
      unfold quoteRune. repeat split_if; simpl; lia.
    + exists l2. split; [done | ]. unfold WriteRune. by autorewrite with go.
Qed.

(** A cooked string literal denotes its text.  Quoting any sequence of runes
    with the documented escapes and reading the literal back, wherever it stands
    in a source, yields the string token with exactly that text and stops right
    after the closing quote. *)
Theorem readString_roundtrip (before rs rest : list rune) (ln cl sl sc : Z) (f : string) :
  exists l', unread l' = rest /\
    readString (mkLexer (before ++ 34 :: flat_map quoteRune rs ++ 34 :: rest)
                  (length before) ln cl f) 34 sl sc
    = LOk (mkTok TOKEN_STRING (string_of_runes rs) sl sc) l'.
Proof.
  set (l := mkLexer _ _ _ _ _).
  assert (unread l = 34 :: flat_map quoteRune rs ++ 34 :: rest) as H by apply drop_app_length.
  apply unread_cons in H as [_ H].
  apply (cookedStringLoop_text rs (fuelOf (advance l)) (advance l) "" rest sl sc); auto with go.
Qed.

End Quoting.

(** ** A text written from words

    Words with a gap before each: punctuation, names and keywords, variables, decimal
    integers and quoted strings. *)

Inductive word :=
  | WPunct (lex : string) (t : TokenType)
  | WName (name : list rune)
  | WVar (name : list rune)
  | WInt (digits : list rune)
  | WString (rs : list rune).

Definition wordRunes (w : word) : list rune :=
  match w with
  | WPunct lex _ => runes_of_string lex
  | WName name => name
  | WVar name => #"$" :: name
  | WInt digits => digits
  | WString rs => 34 :: flat_map quoteRune rs ++ [34]
  end.

Definition wordToken (w : word) : TokenType * string :=
  match w with
  | WPunct lex t => (t, lex)
  | WName name => (default TOKEN_IDENT (lookupKeyword (string_of_runes name)), string_of_runes name)
  | WVar name => (TOKEN_VARREF, string_of_runes name)
  | WInt digits => (TOKEN_INT, string_of_runes digits)
  | WString rs => (TOKEN_STRING, string_of_runes rs)
  end.

(** A name: a letter, then runes of the class, 64 at most. *)
Definition okIdent (isPart : rune -> bool) (name : list rune) : bool :=
  match name with c :: _ => isIdentStart c | [] => false end &&
  forallb isPart name && (length name <=? 64)%nat.

Definition okWord (w : word) : bool :=
  match w with
  | WPunct lex t => existsb (fun '(l, u) => bool_decide (l = lex) && bool_decide (u = t)) punctuation
  | WName name =>
      okIdent isIdentPartLoose name &&
      (bool_decide (is_Some (lookupKeyword (string_of_runes name))) ||
       negb (bool_decide (last name = Some #"_")))
  | WVar name => okIdent isIdentPart name
  | WInt digits => negb (bool_decide (digits = [])) && forallb isASCIIDigit digits
  | WString rs => forallb valid_rune rs
  end.

Definition okGap (g : list rune) : bool := forallb isWhite g && (newlines g <? 2).

(** A word after a gap that separates it from what stands before. *)
Definition okPiece (p : list rune * word) : bool :=
  okGap (fst p) && negb (bool_decide (fst p = [])) && okWord (snd p).

Definition writeText (ps : list (list rune * word)) (last : list rune) : list rune :=
  flat_map (fun p => fst p ++ wordRunes (snd p)) ps ++ last.

Section Words.
Context {L : Limits}.

(** What follows a word: the end of the text, or white space. *)
Definition separated (rest : list rune) : Prop :=
  match rest with r :: _ => isWhite r = true | [] => True end.

Lemma unread_nil l : unread l = [] -> cur l = None.
Proof.
  unfold unread, cur. intros E. rewrite <- (Nat.add_0_r (lpos l)), <- lookup_drop, E. done.
Qed.

Lemma unread_cur l : cur l = head (unread l).
Proof.
  destruct (unread l) as [ | r rs] eqn:E; [by apply unread_nil | by apply unread_cons in E as [-> _]].
Qed.

Lemma unread_peek l r rs : unread l = r :: rs -> peek l 1 = head rs.
Proof. intros H. pose proof (unread_cons _ _ _ H) as [E H']. by rewrite (peek_advance _ _ E), unread_cur, H'. Qed.

(** The gap before something that is neither white space nor a comment. *)
Definition solid (rest : list rune) : Prop :=
  match rest with
  | [] => True
  | c :: rest =>
      isWhite c = false /\ c <> #"#" /\ (c = #"/" -> head rest <> Some #"*")
  end.

Lemma triviaLoop_gap g fuel l n rest :
  (rem l < fuel)%nat -> forallb isWhite g = true -> solid rest -> unread l = g ++ rest ->
  exists l', unread l' = rest /\ triviaLoop fuel l n = LOk (n + newlines g) l'.
Proof.
  revert fuel l n. induction g as [ | r g IH]; intros fuel l n Hf Hg Hr Hu;
    (destruct fuel as [ | fuel]; [lia | ]); cbn [triviaLoop app forallb newlines] in *.
  - exists l. split; [done | ]. rewrite Z.add_0_r, unread_cur, Hu. destruct rest as [ | c rest]; [done | ].
    cbn [head]. destruct Hr as [Hw _]. unfold isWhite in Hw. b2p.
    repeat match goal with H : ?x <> ?y |- context [?x =? ?y] => destruct (Z.eqb_spec x y); [done | ] end.
    done.
  - apply andb_true_iff in Hg as [Hw Hg]. pose proof (unread_cons _ _ _ Hu) as [E Hu']. rewrite E.
    pose proof (advance_rem _ _ E).
    destruct (IH fuel (advance l) (if r =? newline then n + 1 else n)) as (l' & Hl' & EQ); [lia | done.. | ].
    exists l'. split; [done | ].
    destruct (r =? newline) eqn:En; [rewrite EQ; f_equal; lia | ].
    unfold isWhite in Hw. rewrite En in Hw. cbn [orb] in Hw. rewrite Hw, EQ; f_equal; lia.
Qed.

Lemma nextTrivia_gap g l rest :
  okGap g = true -> solid rest -> unread l = g ++ rest ->
  exists l', unread l' = rest /\ nextTrivia l = LOk None l'.
Proof.
  intros Hg Hr Hu. unfold okGap in Hg. b2p.
  destruct (triviaLoop_gap g (fuelOf l) l 0 rest) as (l' & Hl' & EQ); [auto with go | done.. | ].
  exists l'. split; [done | ]. unfold nextTrivia. rewrite EQ. cbn [lbind].
  rewrite (proj2 (Z.leb_gt _ _)) by lia. rewrite unread_cur, Hl'.
  destruct rest as [ | c rest]; [done | ]. cbn [head]. destruct Hr as (_ & Hh & Hs).
  destruct (Z.eqb_spec c #"#"); [done | ]. destruct (Z.eqb_spec c #"/") as [-> | ]; [ | done].
  cbn [andb]. unfold peekIs. rewrite (unread_peek _ _ _ Hl'). specialize (Hs eq_refl).
  destruct (head rest) as [d | ]; [ | done]. destruct (Z.eqb_spec d #"*"); [congruence | done].
Qed.

(** *** Words one by one *)

(** Past the gap, what [Next] returns is the word. *)
Definition ReadsWord (w : word) : Prop :=
  forall l0 l rest, nextTrivia l0 = LOk None l -> unread l = wordRunes w ++ rest -> separated rest ->
  exists tok l', Next l0 = LOk tok l' /\ unread l' = rest /\ (Type_ tok, Lexeme tok) = wordToken w.

Lemma separated_head rest c : separated rest -> isWhite c = false -> head rest <> Some c.
Proof. destruct rest as [ | r rest]; [done | ]. cbn. intros Hr Hc [= ->]. congruence. Qed.

Lemma peekIs_head l d : peekIs l 0 d = match head (unread l) with Some c => c =? d | None => false end.
Proof.
  unfold peekIs, peek. rewrite Nat.add_0_r. change (src l !! lpos l) with (cur l). by rewrite unread_cur.
Qed.

Lemma separated_peek l rest d : unread l = rest -> separated rest -> isWhite d = false -> peekIs l 0 d = false.
Proof.
  intros Hu Hs Hd. rewrite peekIs_head, Hu. pose proof (separated_head rest d Hs Hd).
  destruct (head rest) as [c | ]; [ | done]. by destruct (Z.eqb_spec c d); [subst | ].
Qed.

Lemma next_punct lex t : In (lex, t) punctuation -> ReadsWord (WPunct lex t).
Proof.
  intros Hin l0 l rest Ht Hu Hs. unfold Next. rewrite Ht. cbn [lbind]. clear Ht.
  unfold punctuation in Hin. cbn [In] in Hin.
  repeat (destruct Hin as [[= <- <-] | Hin];
    [cbn [wordRunes] in Hu; match type of Hu with unread _ = runes_of_string ?s ++ _ =>
       let r := eval vm_compute in (runes_of_string s) in change (runes_of_string s) with r in Hu end;
     cbn [app] in Hu; pose proof (unread_cons _ _ _ Hu) as [E Hu1]; rewrite E;
     unfold single; cbn [Z.eqb];
     first [ rewrite ?(separated_peek _ _ _ Hu1 Hs) by done;
             by eexists _, (advance l)
           | pose proof (unread_cons _ _ _ Hu1) as [E1 Hu2];
             rewrite !(peekIs_head (advance l)), Hu1;
             by eexists _, (advance (advance l)) ] | ]).
  done.
Qed.

(** What a class stops at. *)
Lemma white_stops p rest :
  (forall c, isWhite c = true -> p c = false) -> separated rest ->
  match head rest with Some c => p c | None => false end = false.
Proof. destruct rest as [ | c rest]; [done | ]. cbn. auto. Qed.

Lemma white_cases c : isWhite c = true -> c = 10 \/ c = 32 \/ c = 9 \/ c = 13.
Proof. unfold isWhite, newline. rewrite !orb_true_iff, !Z.eqb_eq. change #" " with 32. tauto. Qed.

Lemma white_not_part c : isWhite c = true -> isIdentPartLoose c = false /\ isIdentPart c = false /\ isASCIIDigit c = false.
Proof. intros H. apply white_cases in H as [-> | [-> | [-> | ->]]]; done. Qed.

Lemma identLoop_text isPart fmt name fuel l b rest ln cl :
  asciiOnly isPart -> (rem l < fuel)%nat -> forallb isPart name = true ->
  (String.length b + length name <= 64)%nat ->
  match head rest with Some c => isPart c | None => false end = false -> unread l = name ++ rest ->
  exists l', unread l' = rest /\
    identLoop fuel l isPart fmt b ln cl = LOk (b +:+ string_of_runes name) l'.
Proof.
  intros Ha. revert fuel l b. induction name as [ | c name IH]; intros fuel l b Hf Hn Hl Hr Hu;
    (destruct fuel as [ | fuel]; [lia | ]); cbn [identLoop app forallb length] in *.
  - exists l. split; [done | ]. rewrite unread_cur, Hu. simpl. rewrite string_app_nil_r.
    destruct (head rest) as [c | ]; [by rewrite Hr | done].
  - apply andb_true_iff in Hn as [Hc Hn]. pose proof (unread_cons _ _ _ Hu) as [E Hu'].
    rewrite E, Hc. pose proof (advance_rem _ _ E).
    assert (String.length (WriteRune b c) = S (String.length b)) as Hb.
    { unfold WriteRune. rewrite string_length_app, encodeRune_ascii by (by apply Ha). simpl. lia. }
    rewrite (proj2 (Nat.ltb_ge _ _)) by lia.
    destruct (IH fuel (advance l) (WriteRune b c)) as (l' & Hl' & EQ); [lia | done | lia | done | done | ].
    exists l'. split; [done | ]. rewrite EQ. by rewrite collect_step.
Qed.

(** The tests of [Next] before the one for names fail on a letter. *)
Ltac letters Hc := repeat match goal with
  | |- context [if ?c =? ?d then _ else _] =>
      destruct (Z.eqb_spec c d) as [-> | ]; [discriminate Hc | ]
  end.

Lemma okIdent_inv p name :
  okIdent p name = true ->
  exists c cs, name = c :: cs /\ isIdentStart c = true /\ forallb p name = true /\ (length name <= 64)%nat.
Proof.
  unfold okIdent. destruct name as [ | c cs]; [done | ]. intros H. b2p. exists c, cs.
  split_and!; try done. by apply Nat.leb_le.
Qed.

Lemma lastChar_app a b : b <> "" -> lastChar (a +:+ b) = lastChar b.
Proof.
  intros Hb. induction a as [ | x a IH]; [done | ]. rewrite string_app_cons. cbn [lastChar].
  destruct (a +:+ b) as [ | y s] eqn:E; [by destruct a | done].
Qed.

Lemma lastChar_runes rs :
  Forall (fun r => isIdentPartLoose r = true) rs -> lastChar (string_of_runes rs) = Some "_"%char ->
  last rs = Some #"_".
Proof.
  induction rs as [ | r rs IH] using rev_ind; [done | ]. rewrite Forall_app, Forall_singleton.
  intros [_ Hr] Hl. rewrite last_snoc. pose proof (identPartLoose_ascii r Hr).
  rewrite string_of_runes_app in Hl. cbn [string_of_runes] in Hl.
  rewrite string_app_nil_r, encodeRune_ascii in Hl by done. rewrite lastChar_app in Hl by done.
  cbn in Hl. injection Hl as Hl. f_equal. rewrite <- (rune_of_chr r) by lia. by rewrite Hl.
Qed.

Lemma next_name name : okWord (WName name) = true -> ReadsWord (WName name).
Proof.
  intros Hok l0 l rest Ht Hu Hs. cbn [okWord wordRunes] in *. apply andb_true_iff in Hok as [Hok Hkw].
  destruct (okIdent_inv _ _ Hok) as (c & cs & -> & Hc & Hp & Hl). 
  unfold Next. rewrite Ht. cbn [lbind].
  pose proof (unread_cons _ _ _ Hu) as [E _]. rewrite E. cbv zeta.
  letters Hc.
  rewrite (proj2 (orb_false_iff (c =? 34) _)) by (split; apply Z.eqb_neq; intros ->; discriminate Hc).
  letters Hc.
  destruct (isASCIIDigit c) eqn:Ed.
  { exfalso. unfold isASCIIDigit, isIdentStart, rune_of_ascii in *. simpl in *. b2p.
    destruct Hc; b2p; lia. }
  rewrite Hc. unfold readIdentifierOrKeyword.
  destruct (identLoop_text isIdentPartLoose
    ("identifier " +:+ dquote +:+ "%.40s..." +:+ dquote +:+ " exceeds 64 characters")
    (c :: cs) (fuelOf l) l "" rest (line l) (col l)) as (l' & Hl' & EQ);
    [apply identPartLoose_ascii | auto with go | done | done | | done | ].
  { apply white_stops; [ | done]. intros d Hd. by apply white_not_part. }
  rewrite EQ. cbn [lbind]. rewrite string_app_nil. cbn [wordToken].
  destruct (lookupKeyword (string_of_runes (c :: cs))) as [kw | ] eqn:Ek; [by do 2 eexists | ].
  rewrite bool_decide_false in Hkw by (by intros [? ?]). cbn [orb] in Hkw.
  rewrite bool_decide_false; [by do 2 eexists | ]. intros Hlast.
  apply lastChar_runes in Hlast; [ | by apply Forall_forall; intros x Hx; rewrite forallb_forall in Hp;
    apply Hp, list_elem_of_In]. by rewrite bool_decide_true in Hkw.
Qed.

Lemma next_var name : okWord (WVar name) = true -> ReadsWord (WVar name).
Proof.
  intros Hok l0 l rest Ht Hu Hs. cbn [okWord wordRunes app] in *.
  destruct (okIdent_inv _ _ Hok) as (c & cs & -> & Hc & Hp & Hl).
  unfold Next. rewrite Ht. cbn [lbind].
  pose proof (unread_cons _ _ _ Hu) as [E Hu']. rewrite E. cbv zeta. cbn [Z.eqb orb].
  pose proof (unread_cons _ _ _ Hu') as [E' _].
  cbn. unfold readVarRef, curIs. rewrite E', Hc. cbn [negb].
  destruct (identLoop_text isIdentPart
    ("variable name " +:+ dquote +:+ "%.40s..." +:+ dquote +:+ " exceeds 64 characters")
    (c :: cs) (fuelOf (advance l)) (advance l) "" rest (line l) (col l)) as (l' & Hl' & EQ);
    [apply identPart_ascii | auto with go | done | done | | done | ].
  { apply white_stops; [ | done]. intros d Hd. by apply white_not_part. }
  rewrite EQ. cbn [lbind]. rewrite string_app_nil. by do 2 eexists.
Qed.

Lemma digitsLoop_text digits kind fuel l b rest ln cl :
  (rem l < fuel)%nat -> forallb isASCIIDigit digits = true -> separated rest ->
  unread l = digits ++ rest ->
  exists l', unread l' = rest /\
    digitsLoop fuel l isASCIIDigit kind b false ln cl = LOk (b +:+ string_of_runes digits) l'.
Proof.
  revert fuel l b. induction digits as [ | c digits IH]; intros fuel l b Hf Hn Hs Hu;
    (destruct fuel as [ | fuel]; [lia | ]); cbn [digitsLoop app forallb] in *.
  - exists l. split; [done | ]. rewrite unread_cur, Hu. simpl. rewrite string_app_nil_r.
    destruct rest as [ | c rest]; [done | ]. cbn [head] in *. apply white_cases in Hs as [-> | [-> | [-> | ->]]]; done.
  - apply andb_true_iff in Hn as [Hc Hn]. pose proof (unread_cons _ _ _ Hu) as [E Hu'].
    rewrite E, Hc. pose proof (advance_rem _ _ E).
    destruct (IH fuel (advance l) (WriteRune b c)) as (l' & Hl' & EQ); [lia | done | done | done | ].
    exists l'. split; [done | ]. rewrite EQ. by rewrite collect_step.
Qed.

(** White space after the digits: no fraction and no exponent. *)
Lemma readDecimal_text digits l rest ln cl :
  forallb isASCIIDigit digits = true -> separated rest -> unread l = digits ++ rest ->
  exists l', unread l' = rest /\
    readDecimal l ln cl = LOk (mkTok TOKEN_INT (string_of_runes digits) ln cl) l'.
Proof.
  intros Hd Hs Hu.
  destruct (digitsLoop_text digits "decimal" (fuelOf l) l "" rest ln cl) as (l' & Hl' & EQ);
    [auto with go | done.. | ].
  exists l'. split; [done | ]. unfold readDecimal, readSeparatedDigits. rewrite EQ. cbn [lbind].
  rewrite string_app_nil.
  assert (forall p : rune -> bool, (forall c, isWhite c = true -> p c = false) -> curIs l' p = false) as Hc.
  { intros p Hp. unfold curIs. rewrite unread_cur, Hl'. by apply white_stops. }
  rewrite Hc by (by intros c [-> | [-> | [-> | ->]]]%white_cases). cbn [andb].
  unfold readExponent. by rewrite Hc by (by intros c [-> | [-> | [-> | ->]]]%white_cases).
Qed.

Lemma digit_not_base c : isASCIIDigit c = true \/ isWhite c = true ->
  (c =? #"x") || (c =? #"X") = false /\ (c =? #"o") || (c =? #"O") = false /\
  (c =? #"b") || (c =? #"B") = false.
Proof.
  intros [H | [-> | [-> | [-> | ->]]]%white_cases]; [ | done ..].
  split_and!; apply orb_false_iff; split; apply Z.eqb_neq; intros ->; discriminate H.
Qed.

Lemma next_int digits : okWord (WInt digits) = true -> ReadsWord (WInt digits).
Proof.
  intros Hok l0 l rest Ht Hu Hs. cbn [okWord wordRunes] in *. apply andb_true_iff in Hok as [Hne Hd].
  destruct digits as [ | c ds]; [done | ]. assert (Hc := Hd). cbn [forallb] in Hc.
  apply andb_true_iff in Hc as [Hc Hds].
  unfold Next. rewrite Ht. cbn [lbind].
  pose proof (unread_cons _ _ _ Hu) as [E _]. rewrite E. cbv zeta. letters Hc.
  rewrite (proj2 (orb_false_iff (c =? 34) _)) by (split; apply Z.eqb_neq; intros ->; discriminate Hc).
  letters Hc. rewrite Hc.
  destruct (readDecimal_text (c :: ds) l rest (line l) (col l) Hd Hs Hu) as (l' & Hl' & EQ).
  assert (readNumber l (line l) (col l) = readDecimal l (line l) (col l)) as ->.
  { unfold readNumber. rewrite E, (unread_peek l c (ds ++ rest) Hu).
    destruct (head (ds ++ rest)) as [c1 | ] eqn:Eh; [ | done].
    destruct (digit_not_base c1) as (-> & -> & ->); [ | by destruct (c =? #"0")].
    destruct ds as [ | d ds]; cbn [app head forallb] in *.
    - destruct rest; [done | ]. injection Eh as ->. by right.
    - injection Eh as ->. left. by apply andb_true_iff in Hds as [? _]. }
  rewrite EQ. by do 2 eexists.
Qed.

Lemma next_string rs : ReadsWord (WString rs).
Proof.
  intros l0 l rest Ht Hu Hs. cbn [wordRunes app] in *. rewrite <- app_assoc in Hu. cbn [app] in Hu.
  unfold Next. rewrite Ht. cbn [lbind].
  pose proof (unread_cons _ _ _ Hu) as [E Hu']. rewrite E. cbv zeta.
  destruct (cookedStringLoop_text rs (fuelOf (advance l)) (advance l) "" rest (line l) (col l))
    as (l' & Hl' & EQ); [auto with go | done | ].
  assert (readString l 34 (line l) (col l)
          = LOk (mkTok TOKEN_STRING (string_of_runes rs) (line l) (col l)) l') as HR by exact EQ.
  cbn [Z.eqb orb]. cbn -[readString]. rewrite HR. by do 2 eexists.
Qed.

Lemma next_word w : okWord w = true -> ReadsWord w.
Proof.
  intros Hok. destruct w as [lex t | name | name | digits | rs].
  - cbn [okWord] in Hok. apply existsb_exists in Hok as ([lex' t'] & Hin & Hb). b2p.
    repeat match goal with H : bool_decide _ = true |- _ => apply bool_decide_eq_true in H end.
    subst. by apply next_punct.
  - by apply next_name.
  - by apply next_var.
  - by apply next_int.
  - apply next_string.
Qed.

(** A word before white space starts no comment. *)
Lemma solid_word w rest : okWord w = true -> separated rest -> solid (wordRunes w ++ rest).
Proof.
  intros Hok Hs. destruct w as [lex t | name | name | digits | rs]; cbn [wordRunes].
  - cbn [okWord] in Hok. apply existsb_exists in Hok as ([lex' t'] & Hin & Hb). b2p.
    repeat match goal with H : bool_decide _ = true |- _ => apply bool_decide_eq_true in H end. subst.
    unfold punctuation in Hin. cbn [In] in Hin.
    assert (forall d, isWhite d = false -> head rest <> Some d) as Hh by (intros; by apply separated_head).
    repeat (destruct Hin as [[= <- _] | Hin];
      [cbn -[In head]; split_and!; [done | done | intros ?; first [done | by apply Hh]] | ]). done.
  - cbn [okWord] in Hok. apply andb_true_iff in Hok as [Hok _].
    destruct (okIdent_inv _ _ Hok) as (c & cs & -> & Hc & _). cbn.
    assert (isWhite c = false) as Hw.
    { destruct (isWhite c) eqn:Ew; [ | done]. apply white_cases in Ew as [-> | [-> | [-> | ->]]]; discriminate Hc. }
    split_and!; [done | intros ->; discriminate Hc | intros ->; discriminate Hc].
  - done.
  - cbn [okWord] in Hok. apply andb_true_iff in Hok as [Hne Hd]. destruct digits as [ | c ds]; [done | ].
    cbn [forallb] in Hd. apply andb_true_iff in Hd as [Hc _]. cbn.
    assert (isWhite c = false) as Hw.
    { destruct (isWhite c) eqn:Ew; [ | done]. apply white_cases in Ew as [-> | [-> | [-> | ->]]]; discriminate Hc. }
    split_and!; [done | intros ->; discriminate Hc | intros ->; discriminate Hc].
  - done.
Qed.

Lemma writeText_cons g w ps last :
  writeText ((g, w) :: ps) last = g ++ wordRunes w ++ writeText ps last.
Proof. unfold writeText. cbn [flat_map fst snd]. by rewrite <- !app_assoc. Qed.

Lemma writeText_separated ps last :
  forallb okPiece ps = true -> okGap last = true -> separated (writeText ps last).
Proof.
  intros Hps Hl. destruct ps as [ | [g w] ps].
  - cbn. unfold okGap in Hl. b2p. destruct last as [ | r last]; [done | ]. cbn in *. by b2p.
  - rewrite writeText_cons. cbn [forallb] in Hps. unfold okPiece, okGap in Hps. cbn [fst snd] in Hps. b2p.
    destruct g as [ | r g]; [done | ]. cbn in *. by b2p.
Qed.

Lemma wordToken_type w : okWord w = true -> fst (wordToken w) <> TOKEN_EOF.
Proof.
  intros Hok. destruct w as [lex t | name | name | digits | rs]; try done; cbn [okWord wordToken fst] in *.
  - apply existsb_exists in Hok as ([lex' t'] & Hin & Hb). b2p.
    repeat match goal with H : bool_decide _ = true |- _ => apply bool_decide_eq_true in H end. subst.
    unfold punctuation in Hin. cbn [In] in Hin. by repeat (destruct Hin as [[= _ <-] | Hin]; [done | ]).
  - destruct (lookupKeyword _) eqn:E; [by apply lookupKeyword_type in E as [? _] | done].
Qed.

Lemma tokenizeLoop_words ps last : forall fuel l out,
  forallb okPiece ps = true -> okGap last = true -> (rem l < fuel)%nat ->
  Z.of_nat (length out + length ps) < MaxTokens -> unread l = writeText ps last ->
  exists ts l', tokenizeLoop fuel l out = LOk ts l' /\
    map (fun t => (Type_ t, Lexeme t)) ts
    = map (fun t => (Type_ t, Lexeme t)) out ++ map (fun p => wordToken (snd p)) ps ++ [(TOKEN_EOF, "")].
Proof.
  induction ps as [ | [g w] ps IH]; intros fuel l out Hps Hl Hf Hm Hu;
    (destruct fuel as [ | fuel]; [lia | ]); cbn [tokenizeLoop].
  - cbn in Hu. rewrite <- (app_nil_r last) in Hu.
    destruct (nextTrivia_gap last l [] Hl I Hu) as (l1 & Hu1 & EQ).
    assert (Next l = LOk (mkTok TOKEN_EOF "" (line l1) (col l1)) l1) as ->.
    { unfold Next. rewrite EQ. cbn [lbind]. by rewrite (unread_nil _ Hu1). }
    cbn [lbind]. cbn [length] in Hm. rewrite (proj2 (Z.leb_gt _ _)) by lia.
    set (tok := if bool_decide (file l1 = "") then _ else _).
    assert (Type_ tok = TOKEN_EOF /\ Lexeme tok = "") as [Et El] by (subst tok; by case_bool_decide).
    rewrite bool_decide_true by done. eexists _, _. split; [done | ]. rewrite map_app. cbn. by rewrite Et, El.
  - assert (separated (writeText ps last)) as Hsep.
    { apply writeText_separated; [ | done]. cbn [forallb] in Hps. by b2p. }
    cbn [forallb] in Hps. unfold okPiece in Hps. cbn [fst snd] in Hps. b2p.
    rewrite writeText_cons in Hu.
    destruct (nextTrivia_gap g l (wordRunes w ++ writeText ps last)) as (l1 & Hu1 & EQ); [done | | done | ].
    { by apply solid_word. }
    destruct (next_word w ltac:(done) l l1 (writeText ps last) EQ Hu1 Hsep) as (tok & l' & EN & Hu' & Etok).
    rewrite EN. cbn [lbind]. cbn [length] in Hm. rewrite (proj2 (Z.leb_gt _ _)) by lia.
    set (tok' := if bool_decide (file l' = "") then _ else _).
    assert ((Type_ tok', Lexeme tok') = wordToken w) as Etok' by (subst tok'; destruct (bool_decide (file l' = "")); exact Etok).
    assert (Type_ tok' <> TOKEN_EOF) as Hne.
    { pose proof (wordToken_type w ltac:(done)) as Hw. by rewrite <- Etok' in Hw. }
    rewrite bool_decide_false by done.
    destruct (IH fuel l' (out ++ [tok'])) as (ts & l2 & ET & EM); [done | done | | | done | ].
    { rewrite unread_rem, Hu'. rewrite unread_rem, Hu, !length_app in Hf.
      assert (0 < length g)%nat by (destruct g; [done | simpl; lia]). lia. }
    { rewrite length_app. cbn [length]. lia. }
    exists ts, l2. split; [done | ]. rewrite EM, map_app, <- app_assoc. cbn. by rewrite Etok'.
Qed.

(** *** The text as a source *)

Abbreviation Valid := (Forall (fun r => valid_rune r = true)).

Lemma valid_ascii p rs : asciiOnly p -> forallb p rs = true -> Valid rs.
Proof.
  intros Ha Hp. apply Forall_forall. intros r Hr. rewrite forallb_forall in Hp.
  assert (0 <= r < 128) by (apply Ha, Hp; by apply list_elem_of_In). unfold valid_rune. zbool.
Qed.

Lemma white_ascii : asciiOnly isWhite.
Proof. intros r [-> | [-> | [-> | ->]]]%white_cases; lia. Qed.

Lemma quoteRune_valid r : valid_rune r = true -> Valid (quoteRune r).
Proof. intros Hr. unfold quoteRune. repeat split_if; repeat (constructor; [done | ]); constructor. Qed.

Lemma wordRunes_valid w : okWord w = true -> Valid (wordRunes w).
Proof.
  intros Hok. destruct w as [lex t | name | name | digits | rs]; cbn [okWord wordRunes] in *.
  - apply existsb_exists in Hok as ([lex' t'] & Hin & Hb). b2p.
    repeat match goal with H : bool_decide _ = true |- _ => apply bool_decide_eq_true in H end. subst.
    unfold punctuation in Hin. cbn [In] in Hin.
    repeat (destruct Hin as [[= <- _] | Hin]; [by repeat (constructor; [done | ]) | ]). done.
  - apply andb_true_iff in Hok as [(c & cs & -> & _ & Hp & _)%okIdent_inv _].
    by eapply valid_ascii; [apply identPartLoose_ascii | ].
  - apply okIdent_inv in Hok as (c & cs & -> & _ & Hp & _). constructor; [done | ].
    by eapply valid_ascii; [apply identPart_ascii | ].
  - apply andb_true_iff in Hok as [_ Hd]. by eapply valid_ascii; [apply digit_ascii | ].
  - constructor; [done | ]. apply Forall_app. split; [ | by repeat constructor].
    induction rs as [ | r rs IH]; [constructor | ]. cbn [flat_map forallb] in *.
    apply andb_true_iff in Hok as [Hr Hrs]. apply Forall_app. split; [by apply quoteRune_valid | auto].
Qed.

Lemma writeText_valid ps last :
  forallb okPiece ps = true -> okGap last = true -> Valid (writeText ps last).
Proof.
  intros Hps Hl. assert (forall g, okGap g = true -> Valid g) as Hg.
  { intros g H. unfold okGap in H. b2p. by eapply valid_ascii; [apply white_ascii | ]. }
  induction ps as [ | [g w] ps IH]; [cbn; auto | ]. rewrite writeText_cons.
  cbn [forallb] in Hps. unfold okPiece in Hps. cbn [fst snd] in Hps. b2p.
  apply Forall_app. split; [auto | ]. apply Forall_app. split; [by apply wordRunes_valid | auto].
Qed.

(** The source the lexer sees is the text. *)
Lemma sourceRunes_text rs : Valid rs -> separated rs -> sourceRunes (string_of_runes rs) = rs.
Proof.
  intros Hv Hs. unfold sourceRunes, New.
  rewrite runes_of_string_of_runes by done.
  destruct rs as [ | r rs]; [done | ]. cbn. destruct (Z.eqb_spec r BOM) as [-> | ]; [discriminate Hs | done].
Qed.

Lemma unread_source source f : unread (NewWithFile source f) = sourceRunes source.
Proof. done. Qed.

(** C10: lexing ends on every source, and the tokens partition it.  A list of tokens that
    [Tokenize] returns covers the source from left to right: between two tokens, before the
    first and after the last there is only white space with fewer than two line breaks, and
    every token spells exactly the text between its bounds (punctuation by its table; names
    with their keyword type; variables with their [$]; numbers without separators, as float
    exactly with a dot or an exponent; raw strings; cooked strings with their escapes
    replaced; comments, nested ones closed; a blank line as white space with two line breaks
    or more), carries the line and column of its first character, and the list ends with one
    end-of-file token at the end; there are at most [MaxTokens].  Of an interpolated string
    only the raw text is stated.  An error stands at a position of the source.  Every text
    written from fewer than [MaxTokens] words, each after a gap (punctuation, names and
    keywords of at most 64 characters, variables, decimal integers, quoted strings), is
    accepted, with exactly the tokens of the words in order and the end-of-file token. *)
Theorem Tokenize_stream (source : string) :
  match Tokenize source with
  | LOk ts _ => stream (sourceRunes source) 1 1 0 ts /\ Z.of_nat (length ts) <= MaxTokens
  | LErr e =>
      ErrFile e = "" /\
      exists o, (o <= length (sourceRunes source))%nat /\
        (ErrLine e, ErrCol e) = trackPos (take o (sourceRunes source)) 1 1
  | LFuel => False
  end /\
  forall ps last,
    forallb okPiece ps = true -> okGap last = true -> Z.of_nat (length ps) < MaxTokens ->
    source = string_of_runes (writeText ps last) ->
    exists ts l, Tokenize source = LOk ts l /\
      map (fun t => (Type_ t, Lexeme t)) ts
      = map (fun p => wordToken (snd p)) ps ++ [(TOKEN_EOF, "")].
Proof.
  split.
  - rewrite Tokenize_At. pose proof (TokenizeAt_spec source "" 1 1) as H.
    destruct (TokenizeAt _ _ _ _); [tauto | done | done].
  - intros ps last Hps Hl Hm ->.
    pose proof (sourceRunes_text _ (writeText_valid ps last Hps Hl) (writeText_separated ps last Hps Hl)) as Hsrc.
    rewrite <- (unread_source _ "") in Hsrc.
    exact (tokenizeLoop_words ps last _ _ [] Hps Hl (fuelOf_rem _) Hm Hsrc).
Qed.

End Words.

Definition samplePieces : list (list rune * word) :=
  [([ #" " ], WName (runes_of_string "def")); ([ #" "; 9 ], WVar (runes_of_string "x1"));
   ([10], WPunct "<=" TOKEN_LE); ([ #" " ], WInt (runes_of_string "042"));
   ([13; 10; #" "], WString (runes_of_string "a{b")); ([ #" " ], WPunct ";" TOKEN_SEMI)].

Lemma Tokenize_stream_witness :
  exists ts l,
    @Tokenize limits_std (string_of_runes (writeText samplePieces [10])) = LOk ts l /\
    map (fun t => (Type_ t, Lexeme t)) ts
    = [(TOKEN_DEFINE, "def"); (TOKEN_VARREF, "x1"); (TOKEN_LE, "<="); (TOKEN_INT, "042");
       (TOKEN_STRING, "a{b"); (TOKEN_SEMI, ";"); (TOKEN_EOF, "")].
Proof.
  assert (forallb okPiece samplePieces = true) as H1 by (vm_compute; reflexivity).
  assert (okGap [10] = true) as H2 by (vm_compute; reflexivity).
  assert (Z.of_nat (length samplePieces) < @MaxTokens limits_std) as H3 by (vm_compute; reflexivity).
  remember (string_of_runes (writeText samplePieces [10])) as source eqn:Es.
  destruct (@Tokenize_stream limits_std source) as [_ Hw].
  destruct (Hw samplePieces [10] H1 H2 H3 Es) as (ts & l & HT & HM).
  exists ts, l. split; [exact HT | ]. rewrite HM. vm_compute. reflexivity.
Defined.

Lemma TokenizeAt_wellformed_witness :
  let ts := map (fun t => setFile t "a.j")
    [mkTok TOKEN_VARREF "x" 3 7; mkTok TOKEN_ASSIGN "=" 3 9; mkTok TOKEN_IDENT "f" 3 10;
     mkTok TOKEN_EOF "" 3 11] in
  @TokenizeAt limits_std "$x=f" "a.j" 3 7 =
    LOk ts (mkLexer (runes_of_string "$x=f") 4 3 11 "a.j") /\ Forall nameOK ts.
Proof.
  intros ts.
  assert (@TokenizeAt limits_std "$x=f" "a.j" 3 7 =
    LOk ts (mkLexer (runes_of_string "$x=f") 4 3 11 "a.j")) as H by (vm_compute; reflexivity).
  split; [exact H | ].
  exact (proj1 (@TokenizeAt_wellformed limits_std "$x=f" "a.j" 3 7 ts _ H)).
Defined.
