(* ===== verification/Types.v ===== *)
(** * Declared types (internal/parser/ast.go)

    [Typ] is the Go struct [Type] with the fields each kind uses: a list, task or
    channel type carries its element pointer, a map type its key and value
    pointers (the parser sets both or neither), a struct type its identity.  The
    [Resolved] mark of the interpreter, which equality ignores, is left out.  The
    file also holds the operators of the language. *)

From S2P Require Import Prelude.
Open Scope string_scope.
#[local] Set Warnings "-register-all".

Inductive TypeKind :=
  | KTypeInvalid | KTypeInt | KTypeFloat | KTypeString | KTypeBool | KTypeNull | KTypeBytes
  | KTypeList | KTypeMap | KTypeStruct | KTypeTask | KTypeFunc | KTypeChannel.

#[export] Instance TypeKind_eq_dec : EqDecision TypeKind.
Proof. solve_decision. Defined.

Definition TypeKind_String (k : TypeKind) : string :=
  match k with
  | KTypeInt => "int"
  | KTypeFloat => "float"
  | KTypeString => "string"
  | KTypeBool => "bool"
  | KTypeNull => "null"
  | KTypeBytes => "bytes"
  | KTypeList => "list"
  | KTypeMap => "map"
  | KTypeStruct => "struct"
  | KTypeTask => "task"
  | KTypeFunc => "func"
  | KTypeChannel => "channel"
  | KTypeInvalid => "<invalid>"
  end.

Inductive Typ :=
  | TypeInvalid
  | TypeInt
  | TypeFloat
  | TypeString
  | TypeBool
  | TypeNull
  | TypeBytes
  | TypeList (Element : option Typ)
  | TypeMap (KeyValType : option (Typ * Typ))
  | TypeStruct (StructNS ModPath StructName : string)
  | TypeTask (Element : option Typ)
  | TypeFunc
  | TypeChannel (Element : option Typ).

(** Induction reaching the types under the pointers. *)
Section Typ_ind.
Variable P : Typ -> Prop.
Hypothesis Hinvalid : P TypeInvalid.
Hypothesis Hint_ : P TypeInt.
Hypothesis Hfloat : P TypeFloat.
Hypothesis Hstring : P TypeString.
Hypothesis Hbool : P TypeBool.
Hypothesis Hnull : P TypeNull.
Hypothesis Hbytes : P TypeBytes.
Hypothesis Hlist : forall e, (forall t, e = Some t -> P t) -> P (TypeList e).
Hypothesis Hmap : forall e, (forall k v, e = Some (k, v) -> P k /\ P v) -> P (TypeMap e).
Hypothesis Hstruct : forall a b c, P (TypeStruct a b c).
Hypothesis Htask : forall e, (forall t, e = Some t -> P t) -> P (TypeTask e).
Hypothesis Hfunc : P TypeFunc.
Hypothesis Hchannel : forall e, (forall t, e = Some t -> P t) -> P (TypeChannel e).

Fixpoint Typ_deep_ind (t : Typ) : P t.
Proof.
  destruct t as [ | | | | | | | [e | ] | [[k v] | ] | | [e | ] | | [e | ]];
    try first [exact Hinvalid | exact Hint_ | exact Hfloat | exact Hstring | exact Hbool
              | exact Hnull | exact Hbytes | exact Hfunc | apply Hstruct].
  - apply Hlist. intros t [= <-]. apply Typ_deep_ind.
  - apply Hlist. discriminate.
  - apply Hmap. intros k' v' [= <- <-]. split; apply Typ_deep_ind.
  - apply Hmap. discriminate.
  - apply Htask. intros t [= <-]. apply Typ_deep_ind.
  - apply Htask. discriminate.
  - apply Hchannel. intros t [= <-]. apply Typ_deep_ind.
  - apply Hchannel. discriminate.
Defined.
End Typ_ind.

Definition Kind (t : Typ) : TypeKind :=
  match t with
  | TypeInvalid => KTypeInvalid
  | TypeInt => KTypeInt
  | TypeFloat => KTypeFloat
  | TypeString => KTypeString
  | TypeBool => KTypeBool
  | TypeNull => KTypeNull
  | TypeBytes => KTypeBytes
  | TypeList _ => KTypeList
  | TypeMap _ => KTypeMap
  | TypeStruct _ _ _ => KTypeStruct
  | TypeTask _ => KTypeTask
  | TypeFunc => KTypeFunc
  | TypeChannel _ => KTypeChannel
  end.

(** [Type.String]. *)
Fixpoint Type_String (t : Typ) : string :=
  match t with
  | TypeList None => "list of <?>"
  | TypeList (Some e) => "list of " +:+ Type_String e
  | TypeMap None => "map of <?> to <?>"
  | TypeMap (Some (k, v)) => "map of " +:+ Type_String k +:+ " to " +:+ Type_String v
  | TypeStruct ns _ name =>
      if bool_decide (name = "") then "struct"
      else if bool_decide (ns <> "") then ns +:+ "." +:+ name
      else name
  | TypeTask None => "task of <?>"
  | TypeTask (Some e) => "task of " +:+ Type_String e
  | TypeChannel None => "channel of <?>"
  | TypeChannel (Some e) => "channel of " +:+ Type_String e
  | t => TypeKind_String (Kind t)
  end.

(** [Type.Equal]. *)
Fixpoint Type_Equal (t o : Typ) : bool :=
  match t, o with
  | TypeList e, TypeList e' | TypeTask e, TypeTask e' | TypeChannel e, TypeChannel e' =>
      match e, e' with
      | None, None => true
      | Some e, Some e' => Type_Equal e e'
      | _, _ => false
      end
  | TypeMap kv, TypeMap kv' =>
      match kv, kv' with
      | None, None => true
      | Some (k, v), Some (k', v') => Type_Equal k k' && Type_Equal v v'
      | _, _ => false
      end
  | TypeStruct ns mp n, TypeStruct ns' mp' n' =>
      bool_decide (n = n') && bool_decide (ns = ns') && bool_decide (mp = mp')
  | _, _ => bool_decide (Kind t = Kind o)
  end.

(** Structural comparison decides identity of types. *)
Lemma Type_Equal_spec t o : Type_Equal t o = true <-> t = o.
Proof.
  revert o. induction t using Typ_deep_ind; intros o; destruct o; simpl; try (split; done).
  1, 4, 5: destruct e as [t | ], Element as [t' | ]; try (split; done);
    rewrite (H t eq_refl t'); split; congruence.
  - destruct e as [[k v] | ], KeyValType as [[k' v'] | ]; try (split; done).
    destruct (H k v eq_refl) as [Hk Hv]. rewrite andb_true_iff, Hk, Hv.
    split; [intros [-> ->] | intros [= -> ->]]; done.
  - rewrite !andb_true_iff, !bool_decide_eq_true. split; [intros [[-> ->] ->] | intros [=]]; auto.
Qed.

#[export] Instance Typ_eq_dec : EqDecision Typ.
Proof.
  refine (fun t o => (if Type_Equal t o as b return Type_Equal t o = b -> Decision (t = o)
                      then fun H => left _ else fun H => right _) eq_refl).
  - by apply Type_Equal_spec.
  - intros E. apply Type_Equal_spec in E. congruence.
Defined.

(** ** Operators *)

Inductive BinaryOp :=
  | OpAdd | OpSub | OpMul | OpDiv | OpFloorDiv | OpMod
  | OpLt | OpGt | OpLe | OpGe | OpEq | OpNeq | OpAnd | OpOr
  | OpBitOr | OpBitXor | OpBitAnd | OpShl | OpShr.

#[export] Instance BinaryOp_eq_dec : EqDecision BinaryOp.
Proof. solve_decision. Defined.

Definition BinaryOp_String (o : BinaryOp) : string :=
  match o with
  | OpAdd => "+" | OpSub => "-" | OpMul => "*" | OpDiv => "/" | OpFloorDiv => "//"
  | OpMod => "%" | OpLt => "<" | OpGt => ">" | OpLe => "<=" | OpGe => ">="
  | OpEq => "==" | OpNeq => "!=" | OpAnd => "and" | OpOr => "or" | OpBitOr => "|"
  | OpBitXor => "^" | OpBitAnd => "&" | OpShl => "<<" | OpShr => ">>"
  end.

Definition IsComparison (o : BinaryOp) : bool :=
  match o with
  | OpLt | OpGt | OpLe | OpGe | OpEq | OpNeq => true
  | _ => false
  end.

Definition IsLogical (o : BinaryOp) : bool :=
  match o with OpAnd | OpOr => true | _ => false end.

Inductive UnaryOp := OpNeg | OpNot | OpBitNot.

#[export] Instance UnaryOp_eq_dec : EqDecision UnaryOp.
Proof. solve_decision. Defined.

Definition UnaryOp_String (o : UnaryOp) : string :=
  match o with OpNeg => "-" | OpNot => "not" | OpBitNot => "~" end.
