(* ===== verification/Value.v ===== *)
(** * Runtime values (internal/interpreter/value.go)

    [Value] has one constructor per [ValueKind], carrying the fields that kind
    uses, including the recorded element types and the advisory hash index of a
    map.  Sub-values are stored by value, as in the source.  Tasks, channels and
    opaque objects are handles: a task or channel is the address of its shared
    state (kept in [Handles]), a wrapped object the address of its box with the
    wrapped tree, a native object the address of a library payload whose two
    operations are the interface [NativeObject]. *)

From stdpp Require Import pretty.
From Stdlib Require Import SpecFloat.
From S2P Require Import Prelude GoInt Float64 Utf8 Types.
Open Scope string_scope.
Open Scope Z_scope.
#[local] Set Warnings "-register-all".

(** ** Data *)

#[local] Unset Elimination Schemes.
Inductive Value :=
  | VNull
  | VInt (n : Z)
  | VFloat (f : float64)
  | VString (Str : string) (strRunes : Z)
  | VBool (b : bool)
  | VBytes (Bytes : list Z)
  | VList (List_ : list Value) (ElemTyp : option Typ)
  | VMap (Map_ : list (Value * Value)) (KeyTyp ValTyp : option Typ)
         (mapIdx : option (gmap string nat))
  | VStruct (StructNS ModPath StructName : string) (Fields : list (string * Value))
  | VTask (Task : option nat)
  | VObject (StructNS StructName : string) (Obj : option (nat * option Value))
  | VEnum (StructNS ModPath StructName Variant : string) (Fields : list (string * Value))
  | VFunc (Fn : option (nat * string)) (FnHome : option nat)
  | VChannel (Chan : option nat).
#[local] Set Elimination Schemes.

(** A native payload is identified by its address. *)
Class NativeObject := {
  EqualNative : nat -> nat -> bool;
  DisplayNative : nat -> string
}.

(** The part of [TaskState] and [ChannelState] the values' own operations read. *)
Record TaskInfo := { task_done : bool; task_err : bool; task_ElemTyp : option Typ }.
Record ChanInfo := { chan_closed : bool; chan_ElemTyp : option Typ }.
Record Handles := { taskStates : gmap nat TaskInfo; chanStates : gmap nat ChanInfo }.

Inductive ValueKind :=
  | KindNull | KindInt | KindFloat | KindString | KindBool | KindBytes | KindList | KindMap
  | KindStruct | KindTask | KindObject | KindEnum | KindFunc | KindChannel.

#[export] Instance ValueKind_eq_dec : EqDecision ValueKind.
Proof. solve_decision. Defined.

Definition kindOf (v : Value) : ValueKind :=
  match v with
  | VNull => KindNull
  | VInt _ => KindInt
  | VFloat _ => KindFloat
  | VString _ _ => KindString
  | VBool _ => KindBool
  | VBytes _ => KindBytes
  | VList _ _ => KindList
  | VMap _ _ _ _ => KindMap
  | VStruct _ _ _ _ => KindStruct
  | VTask _ => KindTask
  | VObject _ _ _ => KindObject
  | VEnum _ _ _ _ _ => KindEnum
  | VFunc _ _ => KindFunc
  | VChannel _ => KindChannel
  end.

Definition ValueKind_String (k : ValueKind) : string :=
  match k with
  | KindNull => "null"
  | KindInt => "int"
  | KindFloat => "float"
  | KindString => "string"
  | KindBool => "bool"
  | KindBytes => "bytes"
  | KindList => "list"
  | KindMap => "map"
  | KindStruct => "struct"
  | KindTask => "task"
  | KindObject => "object"
  | KindEnum => "enum"
  | KindFunc => "func"
  | KindChannel => "channel"
  end.

(** ** Constructors *)

Definition Null : Value := VNull.
Definition IntVal (n : Z) : Value := VInt n.
Definition FloatVal (f : float64) : Value := VFloat f.
Definition BoolVal (b : bool) : Value := VBool b.
Definition BytesVal (data : list Z) : Value := VBytes data.

Definition MaxInt32 : Z := 2147483647.

Definition StringVal (s : string) : Value :=
  let n := Z.of_nat (RuneCountInString s) in
  VString s (if MaxInt32 <? n then 0 else n).

(** [runeLen] / [RuneLen] of a string value. *)
Definition runeLen (s : string) (strRunes : Z) : Z :=
  if negb (strRunes =? 0) then strRunes else Z.of_nat (RuneCountInString s).

Definition StructVal (name : string) (fields : list (string * Value)) : Value :=
  VStruct "" "" name fields.
Definition NamespacedStructVal (ns name : string) (fields : list (string * Value)) : Value :=
  VStruct ns "" name fields.
Definition EnumVal (ns modPath enum variant : string) (fields : list (string * Value)) : Value :=
  VEnum ns modPath enum variant fields.
Definition FuncVal (m : option (nat * string)) : Value := VFunc m None.
Definition ListVal (elemT : Typ) (data : list Value) : Value := VList data (Some elemT).
Definition MapVal (keyT valT : Typ) (entries : list (Value * Value)) : Value :=
  VMap entries (Some keyT) (Some valT) None.
Definition ChannelVal (state : nat) : Value := VChannel (Some state).

(** ** Numeric views *)

Definition AsFloat (v : Value) : float64 * bool :=
  match v with
  | VInt n => (float64_of_int64 n, true)
  | VFloat f => (f, true)
  | _ => (fzero, false)
  end.

Definition isNumeric (v : Value) : bool :=
  match v with VInt _ | VFloat _ => true | _ => false end.

Definition CompareNumeric (a b : Value) : Z :=
  match a, b with
  | VInt x, VInt y => if x <? y then -1 else if y <? x then 1 else 0
  | VFloat x, VFloat y => if fltb x y then -1 else if fltb y x then 1 else 0
  | VInt x, VFloat y => compareIntFloat x y
  | VFloat x, VInt y => - compareIntFloat y x
  | _, _ =>
      let af := fst (AsFloat a) in
      let bf := fst (AsFloat b) in
      if fltb af bf then -1 else if fltb bf af then 1 else 0
  end.

(** ** Map keys and the hash index *)

Definition hexDigit (d : Z) : Ascii.ascii :=
  match String.get (Z.to_nat d) "0123456789abcdef" with Some c => c | None => Ascii.zero end.

(** [strconv.FormatUint(n, 16)]. *)
Fixpoint hexLoop (fuel : nat) (n : Z) (acc : string) : string :=
  match fuel with
  | O => acc
  | S fuel =>
      let acc := String (hexDigit (n mod 16)) acc in
      if n / 16 =? 0 then acc else hexLoop fuel (n / 16) acc
  end.
Definition FormatHex (n : Z) : string := hexLoop 16 n "".

(** [math.Float64bits]. *)
Definition Float64bits (f : float64) : Z :=
  let sign (s : bool) := if s then 2 ^ 63 else 0 in
  match f with
  | S754_zero s => sign s
  | S754_infinity s => sign s + 2047 * 2 ^ 52
  | S754_nan => 2047 * 2 ^ 52 + 2 ^ 51 + 1
  | S754_finite s m e =>
      if Zpos m <? 2 ^ 52 then sign s + Zpos m
      else sign s + (e + 1075) * 2 ^ 52 + (Zpos m - 2 ^ 52)
  end.

Definition FormatInt (n : Z) : string := pretty n.

(** [mapKeyEncode]: [None] is the Go result [("", false)]. *)
Definition mapKeyEncode (v : Value) : option string :=
  match v with
  | VString s _ => Some ("s" +:+ s)
  | VInt n => Some ("i" +:+ FormatInt n)
  | VFloat f =>
      let bits := Some ("f" +:+ FormatHex (Float64bits f)) in
      if negb (feqb f f) then None
      else if fleb neg_two63 f && fltb f two63 then
        let tf := int64_of_float64 f in
        if feqb (float64_of_int64 tf) f then Some ("i" +:+ FormatInt tf) else bits
      else bits
  | VBool b => Some (if b then "b1" else "b0")
  | VNull => Some "n"
  | _ => None
  end.

Definition mapIndexUsable (entries : list (Value * Value)) (mapIdx : option (gmap string nat))
    : bool :=
  match mapIdx with
  | Some idx => bool_decide (size idx = length entries)
  | None => false
  end.

(** The loop of [buildMapIndex]. *)
Fixpoint indexLoop (i : nat) (entries : list (Value * Value)) (idx : gmap string nat)
    : option (gmap string nat) :=
  match entries with
  | [] => Some idx
  | (k, _) :: entries =>
      match mapKeyEncode k with
      | None => None
      | Some enc => indexLoop (S i) entries (<[enc := i]> idx)
      end
  end.

(** The index [buildMapIndex] leaves behind. *)
Definition buildIndex (entries : list (Value * Value)) : option (gmap string nat) :=
  match indexLoop 0 entries ∅ with
  | Some idx => if bool_decide (size idx = length entries) then Some idx else None
  | None => None
  end.

Definition buildMapIndex (v : Value) : Value :=
  match v with
  | VMap entries kt vt _ => VMap entries kt vt (buildIndex entries)
  | v => v
  end.

Definition DropMapIndex (v : Value) : Value :=
  match v with
  | VMap entries kt vt _ => VMap entries kt vt None
  | v => v
  end.

(** ** Equality *)

Section Equality.
Context {NO : NativeObject}.

Section Body.
Variable eq : Value -> Value -> bool.

Fixpoint fieldsEqual (a b : list (string * Value)) : bool :=
  match a, b with
  | [], [] => true
  | (n, x) :: a, (n', y) :: b => bool_decide (n = n') && eq x y && fieldsEqual a b
  | _, _ => false
  end.

Fixpoint listEqual (a b : list Value) : bool :=
  match a, b with
  | [], [] => true
  | x :: a, y :: b => eq x y && listEqual a b
  | _, _ => false
  end.

(** [mapContainsEntry]. *)
Definition mapContainsEntry (m : list (Value * Value)) (e : Value * Value) : bool :=
  existsb (fun '(k, x) => eq k (fst e) && eq x (snd e)) m.

(** The index of the second map's keys; [None] is [indexable == false]. *)
Fixpoint oIndexLoop (i : nat) (entries : list (Value * Value)) (idx : gmap string nat)
    : option (gmap string nat) :=
  match entries with
  | [] => Some idx
  | (k, _) :: entries =>
      match mapKeyEncode k with
      | None => None
      | Some enc =>
          match idx !! enc with
          | Some _ => None
          | None => oIndexLoop (S i) entries (<[enc := i]> idx)
          end
      end
  end.

(** The loop of the indexed comparison. *)
Fixpoint indexedEqual (a b : list (Value * Value)) (oIdx : gmap string nat)
    (seen : list bool) : bool :=
  match a with
  | [] => true
  | (k, x) :: a =>
      match mapKeyEncode k with
      | None => false
      | Some enc =>
          match oIdx !! enc with
          | None => false
          | Some pos =>
              if default false (seen !! pos) then false
              else
                match b !! pos with
                | Some (_, y) =>
                    if eq x y then indexedEqual a b oIdx (<[pos := true]> seen) else false
                | None => false
                end
          end
      end
  end.

Definition mapEqual (a b : list (Value * Value)) : bool :=
  if negb (length a =? length b)%nat then false
  else
    match oIndexLoop 0 b ∅ with
    | Some oIdx => indexedEqual a b oIdx (replicate (length b) false)
    | None => forallb (mapContainsEntry b) a && forallb (mapContainsEntry a) b
    end.

(** The body of [Value.Equal], over its recursive calls. *)
Definition equalBody (v o : Value) : bool :=
  match v, o with
  | VNull, VNull => true
  | VInt a, VInt b => a =? b
  | VFloat a, VFloat b => feqb a b
  | VString a _, VString b _ => bool_decide (a = b)
  | VBool a, VBool b => Bool.eqb a b
  | VBytes a, VBytes b => bool_decide (a = b)
  | VStruct ns mp n fs, VStruct ns' mp' n' fs' =>
      bool_decide (n = n') && bool_decide (ns = ns') && bool_decide (mp = mp') &&
      fieldsEqual fs fs'
  | VEnum ns mp n va fs, VEnum ns' mp' n' va' fs' =>
      bool_decide (n = n') && bool_decide (ns = ns') && bool_decide (mp = mp') &&
      bool_decide (va = va') && fieldsEqual fs fs'
  | VFunc f _, VFunc g _ => bool_decide (f = g)
  | VTask a, VTask b => bool_decide (a = b)
  | VChannel a, VChannel b => bool_decide (a = b)
  | VObject ns n obj, VObject ns' n' obj' =>
      if negb (bool_decide (ns = ns') && bool_decide (n = n')) then false
      else
        match obj, obj' with
        | Some (p, inner), Some (p', inner') =>
            if bool_decide (p = p') then true
            else
              match inner, inner' with
              | Some x, Some y => eq x y
              | None, None => EqualNative p p'
              | _, _ => false
              end
        | None, None => true
        | _, _ => false
        end
  | VList a _, VList b _ => listEqual a b
  | VMap a _ _ _, VMap b _ _ _ => mapEqual a b
  | VInt n, VFloat f => compareIntFloat n f =? 0
  | VFloat f, VInt n => compareIntFloat n f =? 0
  | _, _ => false
  end.
End Body.

(** Nesting depth of a value: the fuel its comparison needs. *)
Fixpoint vdepth (v : Value) : nat :=
  match v with
  | VList l _ => S (list_max (map vdepth l))
  | VMap m _ _ _ => S (list_max (map (fun '(k, x) => Nat.max (vdepth k) (vdepth x)) m))
  | VStruct _ _ _ fs | VEnum _ _ _ _ fs => S (list_max (map (fun '(_, x) => vdepth x) fs))
  | VObject _ _ (Some (_, Some x)) => S (vdepth x)
  | _ => O
  end.

Fixpoint equalFuel (fuel : nat) (v o : Value) : bool :=
  match fuel with
  | O => false
  | S fuel => equalBody (equalFuel fuel) v o
  end.

Definition Equal (v o : Value) : bool := equalFuel (S (vdepth v + vdepth o)) v o.

(** ** Lookup and update *)

(** The linear scan of [LookupKey]. *)
Fixpoint scanKey (i : nat) (entries : list (Value * Value)) (key : Value) : option nat :=
  match entries with
  | [] => None
  | (k, _) :: entries => if Equal k key then Some i else scanKey (S i) entries key
  end.

(** [LookupKey]; [None] is the Go result -1. *)
Definition LookupKey (v key : Value) : option nat :=
  match v with
  | VMap entries _ _ mapIdx =>
      match mapKeyEncode key, mapIdx with
      | Some enc, Some idx =>
          if mapIndexUsable entries mapIdx then idx !! enc else scanKey 0 entries key
      | _, _ => scanKey 0 entries key
      end
  | _ => None
  end.

(** [v.Map[pos].Value = val]. *)
Definition setEntry (entries : list (Value * Value)) (pos : nat) (val : Value)
    : list (Value * Value) :=
  alter (fun e => (fst e, val)) pos entries.

(** The linear tail of [UpsertKey]. *)
Definition upsertScan (entries : list (Value * Value)) (kt vt : option Typ)
    (mapIdx : option (gmap string nat)) (key val : Value) : Value :=
  match scanKey 0 entries key with
  | Some i => VMap (setEntry entries i val) kt vt mapIdx
  | None => VMap (entries ++ [(key, val)]) kt vt None
  end.

Definition UpsertKey (v key val : Value) : Value :=
  match v with
  | VMap entries kt vt mapIdx =>
      match mapKeyEncode key with
      | Some enc =>
          let mapIdx :=
            if mapIndexUsable entries mapIdx then mapIdx else buildIndex entries in
          match mapIdx with
          | Some idx =>
              if mapIndexUsable entries mapIdx then
                match idx !! enc with
                | Some pos => VMap (setEntry entries pos val) kt vt mapIdx
                | None =>
                    VMap (entries ++ [(key, val)]) kt vt
                      (Some (<[enc := length entries]> idx))
                end
              else upsertScan entries kt vt mapIdx key val
          | None => upsertScan entries kt vt mapIdx key val
          end
      | None => upsertScan entries kt vt mapIdx key val
      end
  | v => v
  end.

End Equality.

(** ** Copying *)

Fixpoint DeepCopy (v : Value) : Value :=
  match v with
  | VList l et => VList (map DeepCopy l) et
  | VMap m kt vt _ =>
      let out := map (fun '(k, x) => (DeepCopy k, DeepCopy x)) m in
      VMap out kt vt (buildIndex out)
  | VBytes b => VBytes b
  | VTask t => VTask t
  | VChannel c => VChannel c
  | VStruct ns mp n fs => VStruct ns mp n (map (fun '(f, x) => (f, DeepCopy x)) fs)
  | VEnum ns mp n va fs => VEnum ns mp n va (map (fun '(f, x) => (f, DeepCopy x)) fs)
  | VObject ns n obj => VObject ns n obj
  | v => v
  end.

Definition Copy (v : Value) : Value := DeepCopy v.

(** ** Declared types *)

Definition ZeroFor (t : Typ) : Value :=
  match t with
  | TypeInt => IntVal 0
  | TypeFloat => FloatVal fzero
  | TypeString => StringVal ""
  | TypeBool => BoolVal false
  | TypeNull => Null
  | TypeBytes => BytesVal []
  | TypeStruct _ _ name => StructVal name []
  | TypeList e => ListVal (default TypeInvalid e) []
  | TypeMap (Some (k, v)) => MapVal k v []
  | TypeMap None => MapVal TypeInvalid TypeInvalid []
  | TypeFunc => FuncVal None
  | _ => Null
  end.

(** The element type recorded on a task or channel handle. *)
Definition taskElem (h : Handles) (t : option nat) : option Typ :=
  p ← t; i ← taskStates h !! p; task_ElemTyp i.
Definition chanElem (h : Handles) (c : option nat) : option Typ :=
  p ← c; i ← chanStates h !! p; chan_ElemTyp i.

Fixpoint MatchesDeclared (h : Handles) (v : Value) (t : Typ) : bool :=
  match t with
  | TypeInt => match v with VInt _ => true | _ => false end
  | TypeFloat => match v with VFloat _ => true | _ => false end
  | TypeString => match v with VString _ _ => true | _ => false end
  | TypeBool => match v with VBool _ => true | _ => false end
  | TypeNull => match v with VNull => true | _ => false end
  | TypeBytes => match v with VBytes _ => true | _ => false end
  | TypeStruct ns mp n =>
      match v with
      | VStruct ns' mp' n' _ | VEnum ns' mp' n' _ _ =>
          bool_decide (n' = n) && bool_decide (ns' = ns) && bool_decide (mp' = mp)
      | VObject ns' n' _ =>
          bool_decide (n' = n) && bool_decide (ns' = ns) && bool_decide ("" = mp)
      | _ => false
      end
  | TypeList te =>
      match v with
      | VList l (Some et) => match te with None => true | Some te => Type_Equal te et end
      | VList l None =>
          forallb (fun e => match te with None => true | Some te => MatchesDeclared h e te end) l
      | _ => false
      end
  | TypeMap kv =>
      match v with
      | VMap _ (Some kt) (Some vt) _ =>
          match kv with
          | None => true
          | Some (k, x) => Type_Equal k kt && Type_Equal x vt
          end
      | VMap m _ _ _ =>
          forallb (fun '(ek, ex) =>
            match kv with
            | None => true
            | Some (k, x) => MatchesDeclared h ek k && MatchesDeclared h ex x
            end) m
      | _ => false
      end
  | TypeTask te =>
      match v with
      | VTask p =>
          match te, taskElem h p with Some te, Some et => Type_Equal te et | _, _ => true end
      | _ => false
      end
  | TypeChannel te =>
      match v with
      | VChannel p =>
          match te, chanElem h p with Some te, Some et => Type_Equal te et | _, _ => true end
      | _ => false
      end
  | TypeFunc => match v with VFunc _ _ => true | _ => false end
  | TypeInvalid => false
  end.

Definition valueTypeLabel (v : Value) : string :=
  match v with
  | VStruct ns _ n _ | VEnum ns _ n _ _ | VObject ns n _ =>
      if bool_decide (ns <> "") then ns +:+ "." +:+ n
      else if bool_decide (n <> "") then n
      else ValueKind_String (kindOf v)
  | VList _ (Some et) => "list of " +:+ Type_String et
  | VMap _ (Some kt) (Some vt) _ =>
      "map of " +:+ Type_String kt +:+ " to " +:+ Type_String vt
  | v => ValueKind_String (kindOf v)
  end.

(** [shallowValueBytes], for a given cell size. *)
Definition shallowValueBytes (valueCellBytes : Z) (v : Value) : Z :=
  match v with
  | VList l _ => valueCellBytes * Z.of_nat (length l)
  | VMap m _ _ _ => valueCellBytes * 2 * Z.of_nat (length m)
  | VStruct _ _ _ fs | VEnum _ _ _ _ fs => valueCellBytes * Z.of_nat (length fs)
  | VString s _ => Z.of_nat (String.length s)
  | VBytes b => Z.of_nat (length b)
  | _ => 0
  end.
