(* ===== verification/ValueFacts.v ===== *)
(** * Properties of values: equality, map keys, the hash index, copies

    The comparison terminates (its depth bound is never reached), the canonical
    key encoding agrees with it, and the advisory hash index of a map is invisible:
    looking a key up or updating it through the index gives what the linear scan
    over the entries gives. *)

From stdpp Require Import pretty.
From Stdlib Require Import SpecFloat.
From S2P Require Import Prelude GoInt Float64 Utf8 Types Value.
Open Scope Z_scope.

(** ** Induction on values *)

Section Value_ind.
Variable P : Value -> Prop.
Hypothesis Hscalar : forall v,
  match v with
  | VList _ _ | VMap _ _ _ _ | VStruct _ _ _ _ | VEnum _ _ _ _ _
  | VObject _ _ (Some (_, Some _)) => False
  | _ => True
  end -> P v.
Hypothesis Hlist : forall l et, Forall P l -> P (VList l et).
Hypothesis Hmap : forall m kt vt idx,
  Forall (fun e => P (fst e) /\ P (snd e)) m -> P (VMap m kt vt idx).
Hypothesis Hstruct : forall ns mp n fs, Forall (fun e => P (snd e)) fs -> P (VStruct ns mp n fs).
Hypothesis Henum : forall ns mp n va fs,
  Forall (fun e => P (snd e)) fs -> P (VEnum ns mp n va fs).
Hypothesis Hobject : forall ns n p x, P x -> P (VObject ns n (Some (p, Some x))).

Fixpoint Value_deep_ind (v : Value) : P v.
Proof.
  destruct v as [ | | | | | | l et | m kt vt idx | ns mp n fs | | ns n [[p [x | ]] | ]
                 | ns mp n va fs | | ]; try (apply Hscalar; exact I).
  - apply Hlist. induction l; constructor; [apply Value_deep_ind | assumption].
  - apply Hmap. induction m as [ | [k x] m IH]; constructor; [ | assumption].
    split; apply Value_deep_ind.
  - apply Hstruct. induction fs as [ | [f x] fs IH]; constructor; [ | assumption].
    apply Value_deep_ind.
  - apply Hobject, Value_deep_ind.
  - apply Henum. induction fs as [ | [f x] fs IH]; constructor; [ | assumption].
    apply Value_deep_ind.
Defined.
End Value_ind.

(** ** The comparison's depth bound *)

Lemma list_max_In n l : In n l -> (n <= list_max l)%nat.
Proof.
  intros H. pose proof (proj1 (list_max_le l (list_max l)) (le_n _)) as HF.
  rewrite Stdlib.Lists.List.Forall_forall in HF. auto.
Qed.

Lemma vdepth_list x l et : In x l -> (vdepth x < vdepth (VList l et))%nat.
Proof. intros H. simpl. apply Nat.lt_succ_r, list_max_In, in_map, H. Qed.

Lemma vdepth_entry k x m :
  In (k, x) m ->
  (Nat.max (vdepth k) (vdepth x) <=
   list_max (map (fun '(k, x) => Nat.max (vdepth k) (vdepth x)) m))%nat.
Proof.
  intros H. eapply (in_map (fun '(k, x) => Nat.max (vdepth k) (vdepth x))) in H.
  by apply list_max_In in H.
Qed.

Ltac depth_lia :=
  repeat match goal with
  | H : In (_, _) _ |- _ => apply vdepth_entry in H
  end; simpl; lia.

Lemma vdepth_field (f : string) x fs :
  In (f, x) fs -> (vdepth x < S (list_max (map (fun '(_, x) => vdepth x) fs)))%nat.
Proof.
  intros H. eapply (in_map (fun '((_, x) : string * Value) => vdepth x)) in H. apply list_max_In in H. lia.
Qed.

Section Unfold.
Context {NO : NativeObject}.

Section Ext.
Variables eq1 eq2 : Value -> Value -> bool.

Lemma fieldsEqual_ext a b :
  (forall f x f' y, In (f, x) a -> In (f', y) b -> eq1 x y = eq2 x y) ->
  fieldsEqual eq1 a b = fieldsEqual eq2 a b.
Proof.
  revert b. induction a as [ | [n x] a IH]; intros [ | [n' y] b] H; simpl; try done.
  rewrite (H n x n' y) by (by left). f_equal. apply IH.
  intros. eapply H; right; eassumption.
Qed.

Lemma listEqual_ext a b :
  (forall x y, In x a -> In y b -> eq1 x y = eq2 x y) ->
  listEqual eq1 a b = listEqual eq2 a b.
Proof.
  revert b. induction a as [ | x a IH]; intros [ | y b] H; simpl; try done.
  rewrite (H x y) by (by left). f_equal. apply IH. intros. apply H; by right.
Qed.

Lemma mapContainsEntry_ext m e :
  (forall k x, In (k, x) m -> eq1 k (fst e) = eq2 k (fst e) /\ eq1 x (snd e) = eq2 x (snd e)) ->
  mapContainsEntry eq1 m e = mapContainsEntry eq2 m e.
Proof.
  intros H. unfold mapContainsEntry. induction m as [ | [k x] m IH]; simpl; [done | ].
  destruct (H k x (or_introl eq_refl)) as [-> ->]. f_equal. apply IH.
  intros. apply H. by right.
Qed.

Lemma forallb_ext_in {A} (f g : A -> bool) l :
  (forall x, In x l -> f x = g x) -> forallb f l = forallb g l.
Proof.
  intros H. induction l as [ | x l IH]; simpl; [done | ].
  rewrite (H x) by (by left). f_equal. apply IH. intros. apply H. by right.
Qed.

Lemma indexedEqual_ext a b oIdx seen :
  (forall k x k' y, In (k, x) a -> In (k', y) b -> eq1 x y = eq2 x y) ->
  indexedEqual eq1 a b oIdx seen = indexedEqual eq2 a b oIdx seen.
Proof.
  revert seen. induction a as [ | [k x] a IH]; intros seen H; simpl; [done | ].
  destruct (mapKeyEncode k) as [enc | ]; [ | done].
  destruct (oIdx !! enc) as [pos | ]; [ | done]. destruct (default _ _); [done | ].
  destruct (b !! pos) as [[k' y] | ] eqn:E; [ | done].
  rewrite (H k x k' y); [ | by left | by apply list_elem_of_In, (list_elem_of_lookup_2 _ pos)].
  destruct (eq2 x y); [ | done]. apply IH. intros. eapply H; [by right | eassumption].
Qed.

Lemma equalBody_ext v o :
  (forall x y, (vdepth x < vdepth v)%nat -> (vdepth y < vdepth o)%nat -> eq1 x y = eq2 x y) ->
  (forall x y, (vdepth x < vdepth v)%nat -> (vdepth y < vdepth o)%nat -> eq1 y x = eq2 y x) ->
  equalBody eq1 v o = equalBody eq2 v o.
Proof.
  intros H H'. destruct v; destruct o; cbn [equalBody]; try done.
  - apply listEqual_ext. intros. apply H; by apply vdepth_list.
  - unfold mapEqual. split_if; [done | ].
    destruct (oIndexLoop 0 Map_0 ∅) as [oIdx | ].
    + apply indexedEqual_ext. intros k x k' y H1 H2. apply H; depth_lia.
    + f_equal; apply forallb_ext_in; intros [k x] Hin; apply mapContainsEntry_ext;
        intros k' x' Hin'; simpl; [split; apply H' | split; apply H]; depth_lia.
  - f_equal. apply fieldsEqual_ext. intros. apply H; by eapply vdepth_field.
  - split_if; [done | ]. destruct Obj as [[p [x | ]] | ], Obj0 as [[p' [y | ]] | ]; try done.
    split_if; [done | ]. apply H; simpl; lia.
  - f_equal. apply fieldsEqual_ext. intros. apply H; by eapply vdepth_field.
Qed.
End Ext.

Lemma equalFuel_enough n m v o :
  (vdepth v + vdepth o < n)%nat -> (vdepth v + vdepth o < m)%nat ->
  equalFuel n v o = equalFuel m v o.
Proof.
  revert m v o. induction n as [ | n IH]; intros m v o Hn Hm; [lia | ].
  destruct m as [ | m]; [lia | ]. cbn [equalFuel]. apply equalBody_ext;
    intros; apply IH; lia.
Qed.

(** [Equal] satisfies the source's recursive equation. *)
Lemma Equal_unfold v o : Equal v o = equalBody Equal v o.
Proof.
  unfold Equal at 1. cbn [equalFuel].
  apply equalBody_ext; intros; apply equalFuel_enough; lia.
Qed.

End Unfold.

(** ** The key encoding *)

(** *** Hexadecimal digits and float bit patterns are injective *)

Definition hexVal (c : Ascii.ascii) : Z :=
  let b := Z.of_N (Ascii.N_of_ascii c) in if b <? 97 then b - 48 else b - 87.

Lemma hexVal_digit d : 0 <= d < 16 -> hexVal (hexDigit d) = d.
Proof.
  intros H.
  assert (d = 0 \/ d = 1 \/ d = 2 \/ d = 3 \/ d = 4 \/ d = 5 \/ d = 6 \/ d = 7 \/ d = 8 \/
          d = 9 \/ d = 10 \/ d = 11 \/ d = 12 \/ d = 13 \/ d = 14 \/ d = 15) as Hd by lia.
  repeat (destruct Hd as [-> | Hd]; [done | ]). by subst.
Qed.

Fixpoint hexRead (acc : Z) (s : string) : Z :=
  match s with
  | EmptyString => acc
  | String c s => hexRead (acc * 16 + hexVal c) s
  end.

Lemma hexLoop_read fuel n acc :
  0 <= n < 16 ^ Z.of_nat fuel -> hexRead 0 (hexLoop fuel n acc) = hexRead n acc.
Proof.
  revert n acc. induction fuel as [ | fuel IH]; intros n acc H.
  { simpl in *. by replace n with 0 by lia. }
  cbn [hexLoop]. rewrite Nat2Z.inj_succ, Z.pow_succ_r in H by lia.
  pose proof (Z.mod_pos_bound n 16 ltac:(lia)). pose proof (Z.div_mod n 16 ltac:(lia)) as Hd.
  assert (n / 16 * 16 + n mod 16 = n) as Hn by lia.
  destruct (Z.eqb_spec (n / 16) 0) as [E | E].
  - cbn [hexRead]. rewrite hexVal_digit by done. f_equal. lia.
  - rewrite IH by (split; [apply Z.div_pos; lia | apply Z.div_lt_upper_bound; lia]).
    cbn [hexRead]. by rewrite hexVal_digit, Hn by done.
Qed.

Lemma FormatHex_inj a b :
  0 <= a < 2 ^ 64 -> 0 <= b < 2 ^ 64 -> FormatHex a = FormatHex b -> a = b.
Proof.
  intros Ha Hb H. apply (f_equal (hexRead 0)) in H. unfold FormatHex in H.
  by rewrite !hexLoop_read in H by done.
Qed.

Lemma Float64bits_range f : fvalid f = true -> 0 <= Float64bits f < 2 ^ 64.
Proof.
  destruct f as [s | s | | s m e]; intros Hv; try (destruct s; done); [done | ].
  apply fvalid_finite in Hv as (He & Hm & _). simpl. destruct (Z.ltb_spec (Zpos m) (2 ^ 52)); destruct s; lia.
Qed.

Lemma Float64bits_inj f g :
  fvalid f = true -> fvalid g = true -> IsNaN f = false -> IsNaN g = false ->
  Float64bits f = Float64bits g -> f = g.
Proof.
  destruct f as [s | s | | s m e], g as [s' | s' | | s' m' e']; intros Hf Hg Hn Hn'; try done;
    try (apply fvalid_finite in Hf as (He & Hm & Hc));
    try (apply fvalid_finite in Hg as (He' & Hm' & Hc')); unfold Float64bits; cbv zeta.
  all: try (destruct (Z.ltb_spec (Zpos m) (2 ^ 52))); try (destruct (Z.ltb_spec (Zpos m') (2 ^ 52))).
  all: destruct s, s'; intros Hbits; try lia; try done.
  all: try (assert (e = -1074 /\ e' = -1074) as [-> ->] by lia; f_equal; lia).
  all: assert (e = e') by lia; subst; f_equal; lia.
Qed.

(** *** Exact equality of numbers *)

(** A float that denotes the int64 [n]. *)
Definition denotes (f : float64) (n : Z) : Prop := ffinite f = true /\ fval f = zval n.

Lemma zval_inj a b : zval a = zval b -> a = b.
Proof. unfold zval. assert (0 < 2 ^ 1074) by (apply Z.pow_pos_nonneg; lia). nia. Qed.

Lemma compareIntFloat_eq n f :
  int64_range n -> fvalid f = true ->
  (compareIntFloat n f =? 0) = true <-> denotes f n.
Proof.
  intros Hn Hv. unfold denotes. destruct (IsNaN f) eqn:E.
  { destruct f; try done. split; [done | by intros [? _]]. }
  assert ((csign (zval n ?= fval f) =? 0) = true <-> fval f = zval n) as Hc.
  { by destruct (Z.compare_spec (zval n) (fval f)) as [-> | H | H]; split; auto; simpl; lia. }
  rewrite compareIntFloat_sign by done. unfold exactIntFloat.
  destruct f as [s | s | | s m e]; try done.
  - rewrite Hc. by split; [ | intros [_ ?]].
  - by destruct s; split; [ | intros [? _] | | intros [? _]].
  - rewrite Hc. by split; [ | intros [_ ?]].
Qed.

(** The integer a float denotes is its truncation. *)
Lemma denotes_trunc f n : fvalid f = true -> denotes f n -> int64_of_float64 f = n.
Proof.
  intros Hv [Hf Hd].
  destruct (int64_of_float64_bounds f Hv Hf) as [[? Hb] | [? Hb]]; rewrite Hd in Hb;
    destruct (Z.lt_trichotomy (int64_of_float64 f) n) as [H' | [-> | H']]; try done.
  - pose proof (zval_le (int64_of_float64 f + 1) n). lia.
  - pose proof (zval_lt n (int64_of_float64 f)). lia.
  - pose proof (zval_lt (int64_of_float64 f) n). lia.
  - pose proof (zval_le n (int64_of_float64 f - 1)). lia.
Qed.

(** The integral branch of the encoding: exactly the floats that denote an
    int64, encoded as that int. *)
Lemma mapKeyEncode_integral f n :
  fvalid f = true -> int64_range n -> denotes f n ->
  mapKeyEncode (VFloat f) = Some ("i" +:+ FormatInt n).
Proof.
  intros Hv Hn [Hf Hd]. cbn [mapKeyEncode].
  pose proof (denotes_trunc f n Hv (conj Hf Hd)) as Et.
  rewrite integral_test, Et, Hd by done.
  rewrite feqb_exact, fleb_exact, fltb_exact, fval_two63, fval_neg_two63, Hd by done.
  rewrite !Z.eqb_refl. unfold int64_range, minInt64, maxInt64 in Hn.
  pose proof (zval_le (- 2 ^ 63) n). pose proof (zval_lt n (2 ^ 63)).
  destruct (Z.leb_spec (zval (- 2 ^ 63)) (zval n)); [ | lia].
  by destruct (Z.ltb_spec (zval n) (zval (2 ^ 63))); [ | lia].
Qed.

Lemma fval_inj s m e s' m' e' :
  fvalid (S754_finite s m e) = true -> fvalid (S754_finite s' m' e') = true ->
  fval (S754_finite s m e) = fval (S754_finite s' m' e') ->
  S754_finite s m e = S754_finite s' m' e'.
Proof.
  intros Hv Hv' H. pose proof (fval_sign s m e Hv) as Hs. pose proof (fval_sign s' m' e' Hv') as Hs'.
  assert (s = s') as -> by (destruct s, s'; lia || done).
  assert (Zpos m * 2 ^ (e + 1074) = Zpos m' * 2 ^ (e' + 1074)) as Hm
    by (destruct s'; simpl in H; lia).
  destruct (Z.lt_trichotomy e e') as [He | [-> | He]].
  - pose proof (mag_lt s' m e s' m' e' Hv Hv' He). lia.
  - apply fvalid_finite in Hv as (? & _).
    assert (0 < 2 ^ (e' + 1074)) by (apply Z.pow_pos_nonneg; lia).
    assert (Zpos m = Zpos m') as [= ->] by nia. done.
  - pose proof (mag_lt s' m' e' s' m e Hv' Hv He). lia.
Qed.

Lemma feqb_spec f g :
  fvalid f = true -> fvalid g = true ->
  feqb f g = true <->
  (ffinite f = true /\ ffinite g = true /\ fval f = fval g) \/
  (exists s, f = S754_infinity s /\ g = S754_infinity s).
Proof.
  intros Hv Hv'. destruct (ffinite f) eqn:Ef, (ffinite g) eqn:Eg.
  - rewrite feqb_exact, Z.eqb_eq by done. split; [by left | ]. intros [(_ & _ & ?) | (s & -> & ->)]; done.
  - split; [ | by intros [(_ & ? & _) | (s & -> & ->)]].
    destruct f as [[] | [] | | [] ? ?], g as [[] | [] | | [] ? ?]; done.
  - split; [ | by intros [(? & _ & _) | (s & -> & ->)]].
    destruct f as [[] | [] | | [] ? ?], g as [[] | [] | | [] ? ?]; done.
  - split; [ | intros [(? & _ & _) | (s & -> & ->)]; [done | by destruct s]].
    destruct f as [? | s | | ? ? ?], g as [? | s' | | ? ? ?]; try done.
    destruct s, s'; try done; right; eauto.
Qed.

(** What the encoding of a float is. *)
Inductive encCase (f : float64) : Prop :=
  | enc_nan : IsNaN f = true -> mapKeyEncode (VFloat f) = None -> encCase f
  | enc_int n : int64_range n -> denotes f n ->
      mapKeyEncode (VFloat f) = Some ("i" +:+ FormatInt n) -> encCase f
  | enc_bits : IsNaN f = false -> (forall n, int64_range n -> ~ denotes f n) ->
      mapKeyEncode (VFloat f) = Some ("f" +:+ FormatHex (Float64bits f)) -> encCase f.

Lemma encCase_of f : fvalid f = true -> encCase f.
Proof.
  intros Hv. destruct (IsNaN f) eqn:En.
  { apply enc_nan; [done | ]. by destruct f. }
  set (n := int64_of_float64 f).
  destruct (ffinite f) eqn:Hf.
  2: { apply enc_bits; [done | by intros n' _ [? _]; congruence | ].
       destruct f as [? | [] | | ? ? ?]; done. }
  destruct (decide (int64_range n /\ fval f = zval n)) as [[Hr Hd] | Hd].
  { apply (enc_int _ n); [done | done | ]. by apply mapKeyEncode_integral. }
  assert (forall n', int64_range n' -> ~ denotes f n') as Hno.
  { intros n' Hn' Hd'. apply Hd. pose proof (denotes_trunc f n' Hv Hd') as E.
    fold n in E. rewrite E. split; [done | apply Hd']. }
  apply enc_bits; [done | done | ]. cbn [mapKeyEncode].
  rewrite feqb_exact, Z.eqb_refl by done. cbn [negb].
  destruct (fleb neg_two63 f && fltb f two63) eqn:Er; [ | done].
  rewrite integral_test by done. destruct (Z.eqb_spec (zval (int64_of_float64 f)) (fval f)) as [E | ]; [ | done].
  destruct (Hno n); [ | done]. b2p.
  rewrite fleb_exact, fltb_exact, fval_neg_two63, fval_two63 in * by done. b2p.
  unfold int64_range, minInt64, maxInt64, zval in *. fold n in E.
  assert (0 < 2 ^ 1074) by (apply Z.pow_pos_nonneg; lia). nia.
Qed.

(** *** The encoding mirrors the comparison *)

(** Representation invariant of scalars: int64 payloads, valid floats. *)
Definition scalarOK (v : Value) : Prop :=
  match v with
  | VInt n => int64_range n
  | VFloat f => fvalid f = true
  | _ => True
  end.

Lemma FormatInt_inj a b : FormatInt a = FormatInt b -> a = b.
Proof. apply (inj pretty). Qed.

Section Encode.
Context {NO : NativeObject}.

Lemma encode_int_float n f :
  int64_range n -> fvalid f = true ->
  (compareIntFloat n f =? 0) = true <-> mapKeyEncode (VFloat f) = mapKeyEncode (VInt n).
Proof.
  intros Hn Hv. rewrite compareIntFloat_eq by done.
  destruct (encCase_of f Hv) as [Hnan -> | n' Hr Hd -> | _ Hno ->]; cbn [mapKeyEncode].
  - split; [by intros [? _]; destruct f | done].
  - split.
    + intros Hd'. do 3 f_equal. apply (denotes_trunc _ _ Hv) in Hd, Hd'. congruence.
    + by intros [= ->%FormatInt_inj].
  - split; [intros Hd; by destruct (Hno n) | done].
Qed.

Lemma encode_float_float f g :
  fvalid f = true -> fvalid g = true -> IsNaN f = false -> IsNaN g = false ->
  feqb f g = true <-> mapKeyEncode (VFloat f) = mapKeyEncode (VFloat g).
Proof.
  intros Hf Hg Nf Ng. rewrite feqb_spec by done.
  destruct (encCase_of f Hf) as [? _ | n Hr Hd -> | _ Hno ->]; [congruence | | ];
    (destruct (encCase_of g Hg) as [? _ | n' Hr' Hd' -> | _ Hno' ->]; [congruence | | ]).
  - destruct Hd as [Hff Hfd], Hd' as [Hgf Hgd]. split.
    + intros [(_ & _ & E) | (s & -> & _)]; [ | done].
      do 3 f_equal. apply zval_inj. congruence.
    + intros [= ->%FormatInt_inj]. left. by rewrite Hfd, Hgd.
  - split; [ | done]. intros [(_ & Hgf & E) | (s & -> & _)]; [ | by destruct Hd].
    destruct (Hno' n Hr). split; [done | ]. rewrite <- E. apply Hd.
  - split; [ | done]. intros [(Hff & _ & E) | (s & -> & ->)]; [ | by destruct Hd'].
    destruct (Hno n' Hr'). split; [done | ]. rewrite E. apply Hd'.
  - split.
    + assert (forall h, ffinite h = true -> (forall n, int64_range n -> ~ denotes h n) ->
              exists s m e, h = S754_finite s m e) as Hfin.
      { intros h Hh Hnz. destruct h as [s | | | s m e]; [ | done | done | eauto].
        by destruct (Hnz 0). }
      intros [(Hff & Hgf & E) | (s & -> & ->)]; [ | done].
      destruct (Hfin f Hff Hno) as (s & m & e & ->), (Hfin g Hgf Hno') as (s' & m' & e' & ->).
      by rewrite (fval_inj _ _ _ _ _ _ Hf Hg E).
    + intros [= E]. apply FormatHex_inj in E; [ | by apply Float64bits_range ..].
      apply Float64bits_inj in E as ->; try done.
      destruct (ffinite g) eqn:Eg; [by left | right]. destruct g; try done. eauto.
Qed.

(** Two hashable keys compare equal exactly when they have the same encoding. *)
Lemma mapKeyEncode_Equal a b ea eb :
  scalarOK a -> scalarOK b -> mapKeyEncode a = Some ea -> mapKeyEncode b = Some eb ->
  Equal a b = true <-> ea = eb.
Proof.
  intros Ha Hb Ea Eb. rewrite Equal_unfold.
  assert (ea = eb <-> mapKeyEncode a = mapKeyEncode b) as -> by (rewrite Ea, Eb; split; congruence).
  assert (forall f, mapKeyEncode (VFloat f) <> None -> IsNaN f = false) as Hnan by (by intros []).
  destruct a; try discriminate Ea; destruct b; try discriminate Eb; cbn [equalBody].
  all: try (split; [discriminate | cbn; repeat split_if; discriminate]).
  - done.
  - rewrite Z.eqb_eq. split; [by intros -> | by intros [= ->%FormatInt_inj]].
  - rewrite encode_int_float by done. by split.
  - rewrite encode_int_float by done. by split.
  - apply encode_float_float; try done; apply Hnan; congruence.
  - rewrite bool_decide_eq_true. cbn. split; [by intros -> | by intros [=]].
  - destruct b0, b; cbn; by split.
Qed.

(** A hashable key equals no key that is not hashable. *)
Lemma mapKeyEncode_unhashable a b ea :
  scalarOK a -> scalarOK b -> mapKeyEncode a = Some ea -> mapKeyEncode b = None ->
  Equal a b = false /\ Equal b a = false.
Proof.
  intros Ha Hb Ea Eb. rewrite !Equal_unfold.
  assert (forall f, scalarOK (VFloat f) -> mapKeyEncode (VFloat f) = None -> f = S754_nan) as Hnan.
  { intros f Hf E. destruct (encCase_of f Hf) as [Hn _ | ? ? ? E' | ? ? E']; [by destruct f | congruence ..]. }
  destruct a; try discriminate Ea; destruct b; try discriminate Eb; cbn [equalBody]; try done.
  - by rewrite (Hnan _ Hb Eb).
  - rewrite (Hnan _ Hb Eb). by destruct f as [[] | [] | | [] ? ?].
Qed.

End Encode.

(** ** The hash index *)

Section Index.
Context {NO : NativeObject}.

Abbreviation entries := (list (Value * Value)).

Definition keysOK (m : entries) : Prop := Forall (fun e => scalarOK (fst e)) m.

Definition keyAt (m : entries) (i : nat) (enc : string) : Prop :=
  exists k x, m !! i = Some (k, x) /\ mapKeyEncode k = Some enc.

Definition hashableKeys (m : entries) : Prop := Forall (fun e => is_Some (mapKeyEncode (fst e))) m.

(** A trusted index maps exactly the encodings of the keys to their positions. *)
Definition indexOK (m : entries) (mapIdx : option (gmap string nat)) : Prop :=
  match mapIdx with
  | Some idx =>
      size idx = length m ->
      hashableKeys m /\ forall enc i, idx !! enc = Some i <-> keyAt m i enc
  | None => True
  end.

Definition mapOK (v : Value) : Prop :=
  match v with
  | VMap m _ _ mapIdx => keysOK m /\ indexOK m mapIdx
  | _ => True
  end.

Lemma keyAt_cons k x m i enc :
  keyAt ((k, x) :: m) i enc <->
  (i = 0%nat /\ mapKeyEncode k = Some enc) \/ (exists j, i = S j /\ keyAt m j enc).
Proof.
  unfold keyAt. destruct i as [ | i]; simpl; split.
  - intros (k' & x' & [= <- <-] & E). by left.
  - intros [[_ E] | (j & ? & _)]; [by exists k, x | done].
  - intros H. right. eauto.
  - intros [[? _] | (j & [= ->] & H)]; [done | exact H].
Qed.

Lemma size_insert_le (idx : gmap string nat) enc i :
  (size (<[enc := i]> idx) <= S (size idx))%nat.
Proof.
  destruct (idx !! enc) eqn:E; [rewrite map_size_insert_Some by eauto | rewrite map_size_insert_None by done]; lia.
Qed.

Lemma indexLoop_spec i m idx idx' :
  indexLoop i m idx = Some idx' ->
  hashableKeys m /\ (size idx' <= size idx + length m)%nat /\
  (size idx' = size idx + length m ->
   forall enc j, idx' !! enc = Some j <->
     idx !! enc = Some j \/ exists t, j = i + t /\ keyAt m t enc)%nat.
Proof.
  revert i idx. induction m as [ | [k x] m IH]; intros i idx; simpl.
  { intros [= ->]. split; [constructor | ]. split; [lia | ]. intros _ enc j. split; [by left | ].
    intros [? | (t & _ & k & x & H & _)]; [done | ]. by rewrite lookup_nil in H. }
  destruct (mapKeyEncode k) as [e | ] eqn:Ek; [ | done]. intros H.
  apply IH in H as (Hh & Hle & Hiff). pose proof (size_insert_le idx e i).
  split; [by constructor | ]. split; [lia | ]. intros Hs enc j.
  assert (idx !! e = None) as Hnew.
  { destruct (idx !! e) eqn:E; [ | done]. rewrite map_size_insert_Some in Hle by eauto. lia. }
  rewrite map_size_insert_None in Hiff by done. rewrite Hiff by lia. setoid_rewrite keyAt_cons.
  rewrite Ek, lookup_insert_Some. split.
  - intros [[[-> ->] | [? ?]] | (t & -> & Ht)]; [right; exists 0%nat; split; [lia | by left] | by left | ].
    right. exists (S t). split; [lia | right; eauto].
  - intros [Hi | (t & -> & [[-> [= ->]] | (t' & -> & Ht)])].
    + left. right. split; [congruence | done].
    + left. left. split; [done | lia].
    + right. exists t'. split; [lia | done].
Qed.

Lemma buildIndex_OK m : indexOK m (buildIndex m).
Proof.
  unfold buildIndex. destruct (indexLoop 0 m ∅) as [idx | ] eqn:E; [ | done].
  case_bool_decide as Hs; [ | done]. simpl. intros _.
  apply indexLoop_spec in E as (Hh & _ & Hiff). split; [done | ]. intros enc i.
  rewrite Hiff by (rewrite map_size_empty; lia). rewrite lookup_empty. split.
  - by intros [? | (t & -> & Ht)].
  - intros H. right. by exists i.
Qed.

(** Position of the first entry whose key equals [key]. *)
Lemma scanKey_Some j m key i :
  scanKey j m key = Some i <->
  exists t k x, i = (j + t)%nat /\ m !! t = Some (k, x) /\ Equal k key = true /\
    forall t' k' x', (t' < t)%nat -> m !! t' = Some (k', x') -> Equal k' key = false.
Proof.
  revert j. induction m as [ | [k x] m IH]; intros j; simpl.
  { split; [done | ]. by intros (t & k & x & _ & H & _). }
  destruct (Equal k key) eqn:E.
  - split.
    + intros [= <-]. exists 0%nat, k, x. repeat split; try done; lia.
    + intros ([ | t] & k' & x' & -> & H & He & Hlt); [by rewrite Nat.add_0_r | ].
      by rewrite (Hlt 0%nat k x ltac:(lia) eq_refl) in E.
  - rewrite IH. split.
    + intros (t & k' & x' & -> & H & He & Hlt). exists (S t), k', x'.
      repeat split; [lia | done | done | ]. intros [ | t'] k'' x'' Ht H''; [by injection H'' as <- <- | ].
      eapply (Hlt t'); [lia | exact H''].
    + intros ([ | t] & k' & x' & -> & H & He & Hlt); [injection H as <- <-; congruence | ].
      exists t, k', x'. repeat split; [lia | done | done | ].
      intros t' k'' x'' Ht H''. by apply (Hlt (S t') k'' x''); [lia | ].
Qed.

Lemma scanKey_None j m key :
  scanKey j m key = None <-> forall t k x, m !! t = Some (k, x) -> Equal k key = false.
Proof.
  revert j. induction m as [ | [k x] m IH]; intros j; simpl; [done | ].
  destruct (Equal k key) eqn:E.
  - split; [done | ]. intros H. by rewrite (H 0%nat k x eq_refl) in E.
  - rewrite IH. split.
    + intros H [ | t] k' x'; [by intros [= <- <-] | apply H].
    + intros H t. apply (H (S t)).
Qed.

Lemma keyAt_lt m i enc : keyAt m i enc -> (i < length m)%nat.
Proof. intros (k & x & H & _). by eapply lookup_lt_Some. Qed.

Lemma keysOK_lookup m i k x : keysOK m -> m !! i = Some (k, x) -> scalarOK k.
Proof. intros Hm H. by apply (Forall_lookup_1 _ _ _ _ Hm) in H. Qed.

Lemma hashable_lookup m i k x : hashableKeys m -> m !! i = Some (k, x) -> is_Some (mapKeyEncode k).
Proof. intros Hm H. by apply (Forall_lookup_1 _ _ _ _ Hm) in H. Qed.

(** Under a trusted index the entry keys equal to [key] are those at the
    position its encoding is mapped to. *)
Lemma index_scan m idx key enc :
  keysOK m -> scalarOK key -> indexOK m (Some idx) -> size idx = length m ->
  mapKeyEncode key = Some enc -> idx !! enc = scanKey 0 m key.
Proof.
  intros Hm Hk Hi Hs Ek. destruct (Hi Hs) as [Hh Hiff].
  assert (forall t k x, m !! t = Some (k, x) -> Equal k key = true <-> keyAt m t enc) as Heq.
  { intros t k x Ht. destruct (hashable_lookup _ _ _ _ Hh Ht) as [e Ee].
    rewrite (mapKeyEncode_Equal k key e enc) by eauto using keysOK_lookup.
    split; [intros ->; by exists k, x | ]. intros (k' & x' & Ht' & E'). simplify_eq. done. }
  destruct (scanKey 0 m key) as [i | ] eqn:E.
  - apply scanKey_Some in E as (t & k & x & -> & Ht & He & _). apply Hiff. by eapply Heq.
  - destruct (idx !! enc) as [i | ] eqn:Ei; [ | done]. apply Hiff in Ei.
    destruct Ei as (k & x & Ht & E'). rewrite scanKey_None in E.
    assert (Equal k key = true); [ | by rewrite (E i k x Ht) in *]. by apply (Heq i k x Ht); exists k, x.
Qed.

Lemma LookupKey_scan m kt vt mapIdx key :
  mapOK (VMap m kt vt mapIdx) -> scalarOK key ->
  LookupKey (VMap m kt vt mapIdx) key = scanKey 0 m key.
Proof.
  intros [Hm Hi] Hk. cbn [LookupKey]. destruct (mapKeyEncode key) as [enc | ] eqn:Ek; [ | done].
  destruct mapIdx as [idx | ]; [ | done]. cbn [mapIndexUsable].
  case_bool_decide as Hs; [ | done]. by apply index_scan.
Qed.

End Index.
