(* ===== verification/MapFacts.v ===== *)
(** * Maps refine association lists

    The specification of a map value is its entry list with the operations
    [specLookup] and [specUpsert], which know nothing of the hash index.  The
    operations of value.go implement them, keep the index invariant, and satisfy
    the laws of a finite map up to the language's [==]. *)


From S2P Require Import Prelude GoInt Float64 Utf8 Types Value ValueFacts.
Open Scope Z_scope.

Section Maps.
Context {NO : NativeObject}.

Abbreviation entries := (list (Value * Value)).

(** ** The specification *)

Definition specLookup (m : entries) (key : Value) : option Value :=
  i ← scanKey 0 m key; e ← m !! i; Some (snd e).

Definition specUpsert (m : entries) (key val : Value) : entries :=
  match scanKey 0 m key with
  | Some i => setEntry m i val
  | None => m ++ [(key, val)]
  end.

(** The entries of a map value. *)
Definition entriesOf (v : Value) : entries :=
  match v with VMap m _ _ _ => m | _ => [] end.

Definition typesOf (v : Value) : option (option Typ * option Typ) :=
  match v with VMap _ kt vt _ => Some (kt, vt) | _ => None end.

(** Reading a key the way the source does: position, then entry. *)
Definition mapGet (v key : Value) : option Value :=
  i ← LookupKey v key; e ← entriesOf v !! i; Some (snd e).

(** ** Updates keep keys, lengths and the index *)

Lemma setEntry_length m i val : length (setEntry m i val) = length m.
Proof. apply length_alter. Qed.

Lemma setEntry_lookup m i val t :
  setEntry m i val !! t =
  if bool_decide (t = i) then (fun e => (fst e, val)) <$> m !! t else m !! t.
Proof.
  unfold setEntry. case_bool_decide as H; [subst; apply list_lookup_alter_eq | ].
  by apply list_lookup_alter_ne.
Qed.

(** Two entry lists with the same keys. *)
Definition sameKeys (m m' : entries) : Prop := map fst m = map fst m'.

Lemma setEntry_sameKeys m i val : sameKeys m (setEntry m i val).
Proof.
  unfold sameKeys, setEntry. revert i. induction m as [ | [k x] m IH]; intros [ | i]; simpl; try done.
  f_equal. apply IH.
Qed.

Lemma sameKeys_lookup m m' i k x :
  sameKeys m m' -> m !! i = Some (k, x) -> exists x', m' !! i = Some (k, x').
Proof.
  unfold sameKeys. intros H Hi.
  assert (map fst m' !! i = Some k) as E by (rewrite <- H, list_lookup_fmap, Hi; done).
  rewrite list_lookup_fmap in E. destruct (m' !! i) as [[k' x'] | ]; simplify_eq/=. eauto.
Qed.

Lemma sameKeys_keyAt m m' i enc : sameKeys m m' -> keyAt m i enc -> keyAt m' i enc.
Proof.
  intros H (k & x & Hi & E). destruct (sameKeys_lookup _ _ _ _ _ H Hi) as [x' Hi'].
  by exists k, x'.
Qed.

Lemma sameKeys_Forall (P : Value -> Prop) m m' :
  sameKeys m m' -> Forall (fun e => P (fst e)) m -> Forall (fun e => P (fst e)) m'.
Proof.
  unfold sameKeys. intros H HF. revert m' H.
  induction HF as [ | [k x] m Hk _ IH]; intros [ | [k' x'] m'] H; try done.
  injection H as <- H. constructor; auto.
Qed.

Lemma sameKeys_indexOK m m' idx : sameKeys m m' -> indexOK m idx -> indexOK m' idx.
Proof.
  intros H. destruct idx as [idx | ]; [ | done]. simpl. intros Hi Hs.
  assert (length m' = length m) as Hl.
  { apply (f_equal length) in H. by rewrite !length_map in H. }
  destruct (Hi ltac:(lia)) as [Hh Hiff]. split.
  - by apply (sameKeys_Forall (fun k => is_Some (mapKeyEncode k)) m).
  - intros enc i. rewrite Hiff. split; by apply sameKeys_keyAt.
Qed.

Lemma keyAt_snoc m k x i enc :
  keyAt (m ++ [(k, x)]) i enc <->
  keyAt m i enc \/ (i = length m /\ mapKeyEncode k = Some enc).
Proof.
  unfold keyAt. split.
  - intros (k' & x' & H & E). rewrite lookup_app_Some in H.
    destruct H as [H | [Hl H]]; [by left; exists k', x' | right].
    apply list_lookup_singleton_Some in H as [? [= -> ->]]. split; [lia | done].
  - intros [(k' & x' & H & E) | [-> E]].
    + exists k', x'. by rewrite lookup_app_l_Some with (x := (k', x')).
    + exists k, x. by rewrite lookup_app_r, Nat.sub_diag by done.
Qed.

(** Appending a fresh hashable key extends the index. *)
Lemma indexOK_snoc m idx key val enc :
  indexOK m (Some idx) -> size idx = length m -> mapKeyEncode key = Some enc ->
  idx !! enc = None -> indexOK (m ++ [(key, val)]) (Some (<[enc := length m]> idx)).
Proof.
  intros Hi Hs Ek Hnew. destruct (Hi Hs) as [Hh Hiff]. intros _. split.
  - apply Forall_app. split; [done | ]. by constructor.
  - intros enc' i. rewrite keyAt_snoc, <- Hiff, Ek, lookup_insert_Some. split.
    + intros [[-> <-] | [? ?]]; [by right | by left].
    + intros [H | [-> [= ->]]]; [right | by left]. split; [congruence | done].
Qed.

(** ** [UpsertKey] implements [specUpsert] *)

Lemma upsertScan_spec m kt vt idx key val :
  let v := upsertScan m kt vt idx key val in
  entriesOf v = specUpsert m key val /\ typesOf v = Some (kt, vt) /\
  (keysOK m -> scalarOK key -> indexOK m idx -> mapOK v).
Proof.
  unfold upsertScan, specUpsert. destruct (scanKey 0 m key) as [i | ]; cbn [entriesOf typesOf mapOK].
  - do 2 (split; [done | ]). intros Hm Hk Hi.
    pose proof (setEntry_sameKeys m i val) as Hs.
    split; [by eapply sameKeys_Forall | by eapply sameKeys_indexOK].
  - do 2 (split; [done | ]). intros Hm Hk _. split; [ | done].
    apply Forall_app. split; [done | by constructor].
Qed.

Lemma UpsertKey_spec m kt vt idx key val :
  mapOK (VMap m kt vt idx) -> scalarOK key ->
  let v := UpsertKey (VMap m kt vt idx) key val in
  entriesOf v = specUpsert m key val /\ typesOf v = Some (kt, vt) /\ mapOK v.
Proof.
  intros [Hm Hi] Hk. cbn [UpsertKey].
  assert (forall idx', indexOK m idx' ->
    let v := upsertScan m kt vt idx' key val in
    entriesOf v = specUpsert m key val /\ typesOf v = Some (kt, vt) /\ mapOK v) as Hscan.
  { intros idx' Hi'. destruct (upsertScan_spec m kt vt idx' key val) as (H1 & H2 & H3).
    split; [exact H1 | ]. split; [exact H2 | by apply H3]. }
  destruct (mapKeyEncode key) as [enc | ] eqn:Ek; [ | by apply Hscan].
  cbv zeta. set (idx1 := if mapIndexUsable m idx then idx else buildIndex m).
  assert (indexOK m idx1) as Hi1 by (subst idx1; split_if; [done | apply buildIndex_OK]).
  destruct idx1 as [idx2 | ]; [ | by apply Hscan]. clear Hi idx.
  cbn [mapIndexUsable]. case_bool_decide as Hs; [ | by apply Hscan].
  pose proof (index_scan m idx2 key enc Hm Hk Hi1 Hs Ek) as Hsc.
  unfold specUpsert. rewrite <- Hsc. destruct (idx2 !! enc) as [pos | ] eqn:E;
    cbn [entriesOf typesOf mapOK].
  - pose proof (setEntry_sameKeys m pos val) as Hsk. do 2 (split; [done | ]).
    split; [by eapply sameKeys_Forall | by eapply sameKeys_indexOK].
  - do 2 (split; [done | ]). split; [ | by apply indexOK_snoc].
    apply Forall_app. split; [done | by constructor].
Qed.

(** ** Laws of the specification *)

(** Hashable keys behave as an equivalence: equality is equality of encodings. *)
Lemma Equal_hashable_cong k key key' :
  scalarOK k -> scalarOK key -> scalarOK key' ->
  is_Some (mapKeyEncode key) -> is_Some (mapKeyEncode key') ->
  Equal key key' = true -> Equal k key = Equal k key'.
Proof.
  intros Hk H1 H2 [e1 E1] [e2 E2] H.
  apply (mapKeyEncode_Equal _ _ _ _ H1 H2 E1 E2) in H as ->.
  destruct (mapKeyEncode k) as [e | ] eqn:E.
  - apply eq_true_iff_eq. by rewrite (mapKeyEncode_Equal k key e e2), (mapKeyEncode_Equal k key' e e2).
  - by rewrite (proj2 (mapKeyEncode_unhashable key k e2 H1 Hk E1 E)),
      (proj2 (mapKeyEncode_unhashable key' k e2 H2 Hk E2 E)).
Qed.

Lemma Equal_hashable_refl key :
  scalarOK key -> is_Some (mapKeyEncode key) -> Equal key key = true.
Proof. intros H [e E]. by apply (mapKeyEncode_Equal key key e e). Qed.

Lemma scanKey_app j m1 m2 key :
  scanKey j (m1 ++ m2) key =
  match scanKey j m1 key with
  | Some i => Some i
  | None => scanKey (j + length m1) m2 key
  end.
Proof.
  revert j. induction m1 as [ | [k x] m1 IH]; intros j; simpl; [by rewrite Nat.add_0_r | ].
  destruct (Equal k key); [done | ]. rewrite IH. by rewrite Nat.add_succ_r.
Qed.

Lemma scanKey_sameKeys j m m' key : sameKeys m m' -> scanKey j m key = scanKey j m' key.
Proof.
  unfold sameKeys. revert j m'. induction m as [ | [k x] m IH]; intros j [ | [k' x'] m']; simpl; try done.
  intros [= -> H]. destruct (Equal k' key); [done | by apply IH].
Qed.

Lemma scanKey_lookup m key i :
  scanKey 0 m key = Some i -> exists k x, m !! i = Some (k, x) /\ Equal k key = true.
Proof. intros H. apply scanKey_Some in H as (t & k & x & -> & ? & ? & _). eauto. Qed.

Lemma specLookup_upsert m key key' val :
  keysOK m -> scalarOK key -> scalarOK key' ->
  is_Some (mapKeyEncode key) -> is_Some (mapKeyEncode key') ->
  specLookup (specUpsert m key val) key' =
  if Equal key key' then Some val else specLookup m key'.
Proof.
  intros Hm H1 H2 E1 E2. unfold specUpsert, specLookup.
  destruct (scanKey 0 m key) as [i | ] eqn:Es.
  - rewrite <- (scanKey_sameKeys 0 m _ key' (setEntry_sameKeys m i val)).
    destruct (scanKey_lookup _ _ _ Es) as (k & x & Hi & Hk).
    destruct (Equal key key') eqn:Ee.
    + assert (scanKey 0 m key' = Some i) as ->.
      { rewrite <- Es. clear -Hm H1 H2 E1 E2 Ee NO. generalize 0%nat.
        induction Hm as [ | [k x] m Hk Hm IH]; intros j; simpl; [done | ].
        rewrite (Equal_hashable_cong k key key') by done. destruct (Equal k key'); [done | apply IH]. }
      simpl. rewrite setEntry_lookup, bool_decide_true, Hi by done. done.
    + destruct (scanKey 0 m key') as [i' | ] eqn:Es'; [ | done]. simpl.
      rewrite setEntry_lookup. case_bool_decide as Hii; [ | done]. subst i'.
      destruct (scanKey_lookup _ _ _ Es') as (k' & x' & Hi' & Hk').
      rewrite Hi in Hi'. injection Hi' as <- <-.
      apply keysOK_lookup in Hi as Hok; [ | done].
      destruct (mapKeyEncode k) as [e | ] eqn:E.
      * destruct E1 as [e1 E1], E2 as [e2 E2].
        apply (mapKeyEncode_Equal _ _ _ _ Hok H1 E E1) in Hk.
        apply (mapKeyEncode_Equal _ _ _ _ Hok H2 E E2) in Hk'. subst.
        assert (Equal key key' = true) by (by apply (mapKeyEncode_Equal _ _ e2 e2)). congruence.
      * destruct E1 as [e1 E1]. destruct (mapKeyEncode_unhashable key k e1); congruence.
  - rewrite scanKey_app. simpl. destruct (Equal key key') eqn:Ee.
    + assert (scanKey 0 m key' = None) as ->.
      { rewrite scanKey_None in Es |- *. intros t k x Ht.
        rewrite <- (Equal_hashable_cong k key key') by eauto using keysOK_lookup. by eapply Es. }
      simpl. by rewrite lookup_app_r, Nat.sub_diag by lia.
    + destruct (scanKey 0 m key') as [i' | ] eqn:Es'; [ | done]. simpl.
      destruct (scanKey_lookup _ _ _ Es') as (k' & x' & Hi' & Hk').
      by rewrite (lookup_app_l_Some _ _ _ _ Hi'), Hi'.
Qed.

(** ** Equality of maps *)

(** A well-formed map: hashable keys, no two of them equal. *)
Definition encs (m : entries) : list (option string) := map (fun e => mapKeyEncode (fst e)) m.

Definition uniqueKeys (m : entries) : Prop := hashableKeys m /\ NoDup (encs m).

Lemma encs_lookup m i enc : encs m !! i = Some (Some enc) <-> keyAt m i enc.
Proof.
  unfold encs, keyAt. rewrite list_lookup_fmap. destruct (m !! i) as [[k x] | ]; simpl.
  - split; [intros [= E]; by exists k, x | ]. by intros (k' & x' & [= <- <-] & ->).
  - split; [done | ]. by intros (? & ? & ? & _).
Qed.

Lemma uniqueKeys_inj m i j enc : uniqueKeys m -> keyAt m i enc -> keyAt m j enc -> i = j.
Proof. intros [_ Hn] Hi Hj. apply encs_lookup in Hi, Hj. by eapply NoDup_lookup. Qed.

Lemma scan_keyAt m key enc i :
  keysOK m -> uniqueKeys m -> scalarOK key -> mapKeyEncode key = Some enc ->
  scanKey 0 m key = Some i <-> keyAt m i enc.
Proof.
  intros Hm Hu Hk Ek.
  assert (forall t k x, m !! t = Some (k, x) -> Equal k key = true <-> keyAt m t enc) as Heq.
  { intros t k x Ht. destruct (hashable_lookup _ _ _ _ (proj1 Hu) Ht) as [e Ee].
    rewrite (mapKeyEncode_Equal k key e enc) by eauto using keysOK_lookup.
    split; [intros ->; by exists k, x | ]. intros (k' & x' & Ht' & E'). simplify_eq. done. }
  split.
  - intros H. apply scanKey_Some in H as (t & k & x & -> & Ht & He & _). by eapply Heq.
  - intros H. destruct H as (k & x & Hi & E) eqn:EH.
    assert (Equal k key = true) as Hkk by (by apply (Heq i k x Hi)).
    destruct (scanKey 0 m key) as [j | ] eqn:Es.
    + apply scanKey_Some in Es as (t & k' & x' & -> & Ht & He & _). f_equal.
      apply (uniqueKeys_inj m _ _ enc Hu); [by eapply Heq | done].
    + rewrite scanKey_None in Es. by rewrite (Es i k x Hi) in Hkk.
Qed.

Lemma oIndexLoop_unique i m idx :
  hashableKeys m -> NoDup (encs m) ->
  (forall enc, Some enc ∈ encs m -> idx !! enc = None) ->
  exists idx', oIndexLoop i m idx = Some idx' /\
    forall enc j, idx' !! enc = Some j <->
      idx !! enc = Some j \/ exists t, j = (i + t)%nat /\ keyAt m t enc.
Proof.
  intros Hh. revert i idx. induction Hh as [ | [k x] m [e Ee] Hh IH]; intros i idx Hn Hnew; simpl in *.
  { exists idx. split; [done | ]. intros enc j. split; [by left | ].
    intros [? | (t & _ & k & x & H & _)]; [done | ]. by rewrite lookup_nil in H. }
  rewrite Ee in *. apply NoDup_cons in Hn as [Hnot Hn].
  rewrite (Hnew e) by left.
  destruct (IH (S i) (<[e := i]> idx) Hn) as (idx' & -> & Hiff).
  { intros enc Henc. rewrite lookup_insert_ne; [apply Hnew; by right | ]. by intros ->. }
  exists idx'. split; [done | ]. intros enc j. rewrite Hiff, lookup_insert_Some.
  setoid_rewrite keyAt_cons. rewrite Ee. split.
  - intros [[[-> ->] | [? ?]] | (t & -> & Ht)]; [right; exists 0%nat; split; [lia | by left] | by left | ].
    right. exists (S t). split; [lia | right; eauto].
  - intros [Hi | (t & -> & [[-> [= ->]] | (t' & -> & Ht)])].
    + left. right. split; [ | done]. intros ->. by rewrite (Hnew enc) in Hi by left.
    + left. left. split; [done | lia].
    + right. exists t'. split; [lia | done].
Qed.

(** Each entry of [a] meets an entry of [b] with the same key and an equal value. *)
Definition entryIn (b : entries) (e : Value * Value) : Prop :=
  exists enc pos k y, mapKeyEncode (fst e) = Some enc /\ b !! pos = Some (k, y) /\
    mapKeyEncode k = Some enc /\ Equal (snd e) y = true.

Lemma indexedEqual_spec a b idx seen :
  NoDup (encs a) -> (forall enc i, idx !! enc = Some i <-> keyAt b i enc) ->
  (forall enc pos, Some enc ∈ encs a -> keyAt b pos enc -> default false (seen !! pos) = false) ->
  indexedEqual Equal a b idx seen = true <-> Forall (entryIn b) a.
Proof.
  intros Hn Hidx. revert seen. induction a as [ | [k x] a IH]; intros seen Hseen; simpl in *.
  { by split. }
  apply NoDup_cons in Hn as [Hnot Hn]. rewrite Forall_cons.
  destruct (mapKeyEncode k) as [enc | ] eqn:Ek.
  2: { split; [done | ]. intros [(enc & ? & ? & ? & E & _) _]. simpl in E. congruence. }
  destruct (idx !! enc) as [pos | ] eqn:Ei.
  2: { split; [done | ]. intros [(enc' & pos & k' & y & E & Hb & E' & _) _].
       simpl in E. rewrite Ek in E. injection E as <-.
       assert (idx !! enc = Some pos) by (apply Hidx; by exists k', y). congruence. }
  apply Hidx in Ei as Hat. rewrite (Hseen enc pos) by (done || left).
  destruct Hat as (k' & y & Hb & Ek'). rewrite Hb.
  assert (entryIn b (k, x) <-> Equal x y = true) as ->.
  { split.
    - intros (enc' & pos' & k'' & y' & E1 & E2 & E3 & E4). simpl in E1, E4.
      rewrite Ek in E1. injection E1 as <-.
      assert (idx !! enc = Some pos') as E5 by (apply Hidx; by exists k'', y').
      rewrite Ei in E5. injection E5 as ->. rewrite Hb in E2. by injection E2 as -> ->.
    - intros H. by exists enc, pos, k', y. }
  destruct (Equal x y); [ | split; [done | by intros [? _]]].
  rewrite IH; [tauto | done | ].
  intros enc' pos' Hin' Hat'. rewrite list_lookup_insert_ne.
  - eapply Hseen; [by right | done].
  - intros ->. destruct Hat' as (k2 & y2 & Hb2 & E2). rewrite Hb in Hb2. injection Hb2 as -> ->.
    rewrite Ek' in E2. injection E2 as ->. done.
Qed.

Lemma mapEqual_entries a b :
  uniqueKeys a -> uniqueKeys b ->
  mapEqual Equal a b = true <-> length a = length b /\ Forall (entryIn b) a.
Proof.
  intros Ha Hb. unfold mapEqual. destruct (Nat.eqb_spec (length a) (length b)) as [Hl | Hl]; simpl.
  2: { split; [done | by intros [? _]]. }
  destruct (oIndexLoop_unique 0 b ∅ (proj1 Hb) (proj2 Hb)) as (idx & -> & Hiff).
  { intros. apply lookup_empty. }
  rewrite indexedEqual_spec; [tauto | apply Ha | | ].
  - intros enc i. rewrite Hiff, lookup_empty. split; [by intros [? | (t & -> & ?)] | ].
    intros. right. by exists i.
  - intros enc pos _ Hat. by rewrite lookup_replicate_2 by (by eapply keyAt_lt).
Qed.

(** Optional values compared by [==]. *)
Definition optEqual (x y : option Value) : bool :=
  match x, y with
  | Some x, Some y => Equal x y
  | None, None => true
  | _, _ => false
  end.

Lemma specLookup_keyAt m key enc v :
  keysOK m -> uniqueKeys m -> scalarOK key -> mapKeyEncode key = Some enc ->
  specLookup m key = Some v <-> exists i k, m !! i = Some (k, v) /\ mapKeyEncode k = Some enc.
Proof.
  intros Hm Hu Hk Ek. unfold specLookup. split.
  - destruct (scanKey 0 m key) as [i | ] eqn:Es; [ | done]. simpl.
    apply (scan_keyAt m key enc) in Es as (k & x & Hi & E); [ | done ..].
    rewrite Hi. simpl. intros [= <-]. by exists i, k.
  - intros (i & k & Hi & E). assert (scanKey 0 m key = Some i) as ->; [ | by simpl; rewrite Hi].
    apply (scan_keyAt m key enc); [done .. | ]. by exists k, v.
Qed.

Lemma specLookup_None m key enc :
  keysOK m -> uniqueKeys m -> scalarOK key -> mapKeyEncode key = Some enc ->
  specLookup m key = None <-> Some enc ∉ encs m.
Proof.
  intros Hm Hu Hk Ek. rewrite eq_None_not_Some. apply not_iff_compat.
  rewrite list_elem_of_lookup. split.
  - intros [v H]. apply (specLookup_keyAt m key enc) in H as (i & k & Hi & E); [ | done ..].
    exists i. apply encs_lookup. by exists k, v.
  - intros [i Hi]. apply encs_lookup in Hi as (k & v & Hi & E). exists v.
    apply (specLookup_keyAt m key enc); [done .. | ]. by exists i, k.
Qed.

Lemma encs_incl a b :
  Forall (entryIn b) a -> incl (encs a) (encs b).
Proof.
  intros HF o Ho. apply in_map_iff in Ho as ([k x] & <- & Hin).
  rewrite Stdlib.Lists.List.Forall_forall in HF.
  destruct (HF _ Hin) as (enc & pos & k' & y & E & Hb & E' & _). simpl in *. rewrite E, <- E'.
  apply (in_map (fun e => mapKeyEncode (fst e)) b (k', y)).
  apply list_elem_of_In. by eapply list_elem_of_lookup_2.
Qed.

Lemma mapEqual_lookup a b :
  keysOK a -> keysOK b -> uniqueKeys a -> uniqueKeys b ->
  mapEqual Equal a b = true <->
  forall key, scalarOK key -> is_Some (mapKeyEncode key) ->
    optEqual (specLookup a key) (specLookup b key) = true.
Proof.
  intros Ha Hb Hua Hub. rewrite mapEqual_entries by done. split.
  - intros [Hl HF] key Hk [enc Ek].
    destruct (specLookup a key) as [x | ] eqn:Ea.
    + apply (specLookup_keyAt a key enc) in Ea as (i & k & Hi & E); [ | done ..].
      apply (Forall_lookup_1 _ _ _ _ HF) in Hi as (enc' & pos & k' & y & E1 & E2 & E3 & E4).
      simpl in *. rewrite E in E1. injection E1 as <-.
      assert (specLookup b key = Some y) as ->; [ | done].
      apply (specLookup_keyAt b key enc); [done .. | by exists pos, k'].
    + apply (specLookup_None a key enc) in Ea; [ | done ..].
      assert (specLookup b key = None) as ->; [ | done].
      apply (specLookup_None b key enc); [done .. | ]. intros Hin. apply Ea.
      apply list_elem_of_In. apply list_elem_of_In in Hin. revert Hin.
      apply NoDup_length_incl; [by apply NoDup_ListNoDup, Hua | | by apply encs_incl].
      unfold encs. rewrite !length_map. lia.
  - intros H. assert (Forall (entryIn b) a) as HF.
    { apply Forall_lookup. intros i [k x] Hi. destruct (hashable_lookup _ _ _ _ (proj1 Hua) Hi) as [enc E].
      pose proof (keysOK_lookup _ _ _ _ Ha Hi) as Hk. specialize (H k Hk (ex_intro _ _ E)).
      assert (specLookup a k = Some x) as Ea.
      { apply (specLookup_keyAt a k enc); [done .. | by exists i, k]. }
      rewrite Ea in H. destruct (specLookup b k) as [y | ] eqn:Eb; [ | done].
      apply (specLookup_keyAt b k enc) in Eb as (pos & k' & Hp & E'); [ | done ..].
      by exists enc, pos, k', y. }
    split; [ | done]. pose proof (encs_incl a b HF) as Hab.
    assert (incl (encs b) (encs a)) as Hba.
    { intros o Ho. apply list_elem_of_In in Ho as Ho'. apply list_elem_of_lookup in Ho' as [i Hi].
      unfold encs in Hi. rewrite list_lookup_fmap in Hi. destruct (b !! i) as [[k y] | ] eqn:Ei; [ | done].
      simpl in Hi. injection Hi as <-. destruct (hashable_lookup _ _ _ _ (proj1 Hub) Ei) as [enc E].
      pose proof (keysOK_lookup _ _ _ _ Hb Ei) as Hk.
      specialize (H k Hk (ex_intro _ _ E)).
      assert (specLookup b k = Some y) as Eb by (apply (specLookup_keyAt b k enc); [done .. | by exists i, k]).
      rewrite Eb in H. apply list_elem_of_In. rewrite E. apply dec_stable.
      intros Hno. apply (specLookup_None a k enc) in Hno; [ | done ..]. by rewrite Hno in H. }
    assert (forall m, length m = length (encs m)) as Hlen by (intros; unfold encs; by rewrite length_map).
    rewrite !Hlen. apply Nat.le_antisymm; apply NoDup_incl_length;
      [by apply NoDup_ListNoDup, Hua | done | by apply NoDup_ListNoDup, Hub | done].
Qed.

Lemma mapGet_Upsert m kt vt idx key key' val :
  mapOK (VMap m kt vt idx) -> scalarOK key -> scalarOK key' ->
  is_Some (mapKeyEncode key) -> is_Some (mapKeyEncode key') ->
  mapGet (UpsertKey (VMap m kt vt idx) key val) key' =
  if Equal key key' then Some val else mapGet (VMap m kt vt idx) key'.
Proof.
  intros Hok Hk Hk' Hh Hh'.
  assert (forall v, mapOK v -> typesOf v <> None -> mapGet v key' = specLookup (entriesOf v) key') as Hget.
  { intros [] Hv Ht; try done. unfold mapGet. by rewrite LookupKey_scan. }
  destruct (UpsertKey_spec m kt vt idx key val Hok Hk) as (E & T & Hok').
  rewrite Hget, E by (done || by rewrite T). rewrite (Hget (VMap m kt vt idx)) by done.
  apply specLookup_upsert; try done. apply Hok.
Qed.

(** ** Theorems *)

(** C7: the canonical key encoding mirrors [==] exactly.  For a hashable key [a]
    (string, int, float, bool, null) and any well-formed [b], [a == b] holds
    precisely when the encodings agree: equal keys never get two encodings (an
    int and the float denoting it share one, -0.0 and 0.0 too), distinct keys
    never collide, and no unhashable value equals a hashable one. *)
Theorem mapKeyEncode_mirrors_Equal (a b : Value) :
  scalarOK a -> scalarOK b -> is_Some (mapKeyEncode a) ->
  Equal a b = true <-> mapKeyEncode a = mapKeyEncode b.
Proof.
  intros Ha Hb [ea Ea]. destruct (mapKeyEncode b) as [eb | ] eqn:Eb.
  - rewrite (mapKeyEncode_Equal a b ea eb Ha Hb Ea Eb), Ea. split; congruence.
  - rewrite (proj1 (mapKeyEncode_unhashable a b ea Ha Hb Ea Eb)), Ea. split; congruence.
Qed.

(** C6: the hash index is invisible.  On a map whose index invariant holds,
    [LookupKey] returns what the linear scan returns, and [UpsertKey] produces
    exactly the entries of the scan-based specification (first equal key updated
    in place, otherwise appended), keeps the recorded types, and re-establishes
    the invariant, whatever the state of the index before. *)
Theorem map_operations_refine_scan (m : entries) (kt vt : option Typ)
    (idx : option (gmap string nat)) (key val : Value)
    (Hok : mapOK (VMap m kt vt idx)) (Hkey : scalarOK key) :
  LookupKey (VMap m kt vt idx) key = scanKey 0 m key /\
  entriesOf (UpsertKey (VMap m kt vt idx) key val) = specUpsert m key val /\
  typesOf (UpsertKey (VMap m kt vt idx) key val) = Some (kt, vt) /\
  mapOK (UpsertKey (VMap m kt vt idx) key val).
Proof. split; [by apply LookupKey_scan | by apply UpsertKey_spec]. Qed.

(** Lookup after update.  Reading any hashable key after [UpsertKey] yields
    the stored value when the keys compare equal, and what the map held before
    otherwise. *)
Theorem map_get_upsert (m : entries) (kt vt : option Typ) (idx : option (gmap string nat))
    (key key' val : Value)
    (Hok : mapOK (VMap m kt vt idx)) (Hk : scalarOK key) (Hk' : scalarOK key')
    (Hh : is_Some (mapKeyEncode key)) (Hh' : is_Some (mapKeyEncode key')) :
  mapGet (UpsertKey (VMap m kt vt idx) key val) key' =
  if Equal key key' then Some val else mapGet (VMap m kt vt idx) key'.
Proof. by apply mapGet_Upsert. Qed.

(** Equality of maps is equality of the mappings.  Two well-formed maps
    (hashable, pairwise distinct keys) compare equal exactly when every hashable
    key is absent from both or bound to equal values in both: insertion order,
    recorded types and the state of the index do not matter. *)
Theorem map_Equal_extensional (a b : entries) (kt vt kt' vt' : option Typ)
    (ia ib : option (gmap string nat))
    (Ha : keysOK a) (Hb : keysOK b) (Hua : uniqueKeys a) (Hub : uniqueKeys b) :
  Equal (VMap a kt vt ia) (VMap b kt' vt' ib) = true <->
  forall key, scalarOK key -> is_Some (mapKeyEncode key) ->
    optEqual (specLookup a key) (specLookup b key) = true.
Proof. rewrite Equal_unfold. by apply mapEqual_lookup. Qed.

End Maps.

(** A concrete native payload: identity. *)
Definition identityNative : NativeObject :=
  {| EqualNative := Nat.eqb; DisplayNative := fun _ => "" |}.

Definition demoMap : list (Value * Value) :=
  [(VInt 1, VBool true); (VString "a" 1, VInt 7); (VBool true, VNull)].

Lemma demoMap_ok : keysOK demoMap /\ uniqueKeys demoMap.
Proof.
  split; [by repeat constructor | ]. split.
  - unfold hashableKeys, demoMap. repeat constructor; by eexists.
  - apply (bool_decide_unpack _). vm_compute. exact I.
Qed.

Definition one : float64 := float64_of_int64 1.

Lemma mapKeyEncode_mirrors_Equal_witness :
  @Equal identityNative (VInt 1) (VFloat one) = true <->
  mapKeyEncode (VInt 1) = mapKeyEncode (VFloat one).
Proof.
  apply (@mapKeyEncode_mirrors_Equal identityNative (VInt 1) (VFloat one)).
  - vm_compute. split; discriminate.
  - vm_compute. reflexivity.
  - eexists. vm_compute. reflexivity.
Defined.

Lemma map_operations_refine_scan_witness :
  @entriesOf (@UpsertKey identityNative (VMap demoMap None None (buildIndex demoMap))
    (VFloat one) VNull) = (VInt 1, VNull) :: tl demoMap.
Proof.
  pose proof (@map_operations_refine_scan identityNative demoMap None None (buildIndex demoMap)
    (VFloat one) VNull (conj (proj1 demoMap_ok) (buildIndex_OK demoMap)) eq_refl) as (_ & H & _).
  rewrite H. vm_compute. reflexivity.
Defined.

Lemma map_get_upsert_witness :
  @mapGet identityNative (@UpsertKey identityNative (VMap demoMap None None None)
    (VInt 1) VNull) (VFloat one) = Some VNull.
Proof.
  rewrite (@map_get_upsert identityNative demoMap None None None (VInt 1) (VFloat one) VNull).
  - vm_compute. reflexivity.
  - split; [apply demoMap_ok | exact I].
  - vm_compute. split; discriminate.
  - vm_compute. reflexivity.
  - eexists. vm_compute. reflexivity.
  - eexists. vm_compute. reflexivity.
Defined.

Lemma map_Equal_extensional_witness :
  @Equal identityNative (VMap demoMap None None None) (VMap demoMap None None (buildIndex demoMap))
    = true.
Proof.
  destruct demoMap_ok as [Hk Hu].
  apply (@map_Equal_extensional identityNative demoMap demoMap None None None None None
           (buildIndex demoMap) Hk Hk Hu Hu).
  apply (@mapEqual_lookup identityNative demoMap demoMap Hk Hk Hu Hu).
  vm_compute. reflexivity.
Defined.

(** * Copies *)

(** A value without its advisory indexes, its recorded types rewritten by [f]. *)
Fixpoint erase (f : option Typ -> option Typ) (v : Value) : Value :=
  match v with
  | VList l et => VList (map (erase f) l) (f et)
  | VMap m kt vt _ => VMap (map (fun '(k, x) => (erase f k, erase f x)) m) (f kt) (f vt) None
  | VStruct ns mp n fs => VStruct ns mp n (map (fun '(g, x) => (g, erase f x)) fs)
  | VEnum ns mp n va fs => VEnum ns mp n va (map (fun '(g, x) => (g, erase f x)) fs)
  | VObject ns n (Some (p, Some x)) => VObject ns n (Some (p, Some (erase f x)))
  | v => v
  end.

(** Only the indexes erased; indexes and types erased. *)
Definition eraseIdx : Value -> Value := erase (fun t => t).
Definition skeleton : Value -> Value := erase (fun _ => None).

Lemma mapKeyEncode_erase f v : mapKeyEncode (erase f v) = mapKeyEncode v.
Proof. destruct v as [ | | | | | | | | | | ? ? [[? [? | ]] | ] | | | ]; done. Qed.

(** ** Equality ignores indexes *)

Section Erase.
Context {NO : NativeObject}.
Variables eq1 eq2 : Value -> Value -> bool.
Variable f : option Typ -> option Typ.

Definition eraseEntry (e : Value * Value) : Value * Value :=
  let '(k, x) := e in (erase f k, erase f x).

Lemma listEqual_erase a b :
  (forall x y, In x a -> In y b -> eq1 x y = eq2 (erase f x) (erase f y)) ->
  listEqual eq1 a b = listEqual eq2 (map (erase f) a) (map (erase f) b).
Proof.
  revert b. induction a as [ | x a IH]; intros [ | y b] H; simpl; try done.
  rewrite (H x y) by (by left). f_equal. apply IH. intros. apply H; by right.
Qed.

Lemma fieldsEqual_erase a b :
  (forall g x g' y, In (g, x) a -> In (g', y) b -> eq1 x y = eq2 (erase f x) (erase f y)) ->
  fieldsEqual eq1 a b =
  fieldsEqual eq2 (map (fun '(g, x) => (g, erase f x)) a) (map (fun '(g, x) => (g, erase f x)) b).
Proof.
  revert b. induction a as [ | [n x] a IH]; intros [ | [n' y] b] H; simpl; try done.
  rewrite (H n x n' y) by (by left). f_equal. apply IH. intros. eapply H; right; eassumption.
Qed.

Lemma oIndexLoop_erase i b idx : oIndexLoop i (map eraseEntry b) idx = oIndexLoop i b idx.
Proof.
  revert i idx. induction b as [ | [k y] b IH]; intros i idx; simpl; [done | ].
  rewrite mapKeyEncode_erase. destruct (mapKeyEncode k); [ | done]. by destruct (idx !! _).
Qed.

Lemma indexedEqual_erase a b oIdx seen :
  (forall k x k' y, In (k, x) a -> In (k', y) b -> eq1 x y = eq2 (erase f x) (erase f y)) ->
  indexedEqual eq1 a b oIdx seen = indexedEqual eq2 (map eraseEntry a) (map eraseEntry b) oIdx seen.
Proof.
  revert seen. induction a as [ | [k x] a IH]; intros seen H; simpl; [done | ].
  rewrite mapKeyEncode_erase. destruct (mapKeyEncode k) as [enc | ]; [ | done].
  destruct (oIdx !! enc) as [pos | ]; [ | done]. destruct (default _ _); [done | ].
  rewrite list_lookup_fmap. destruct (b !! pos) as [[k' y] | ] eqn:E; [ | done]. simpl.
  rewrite (H k x k' y); [ | by left | by apply list_elem_of_In, (list_elem_of_lookup_2 _ pos)].
  destruct (eq2 _ _); [ | done]. apply IH. intros. eapply H; [by right | eassumption].
Qed.

Lemma contains_erase m k0 x0 :
  (forall k x, In (k, x) m -> eq1 k k0 = eq2 (erase f k) (erase f k0) /\
                             eq1 x x0 = eq2 (erase f x) (erase f x0)) ->
  mapContainsEntry eq1 m (k0, x0) =
  mapContainsEntry eq2 (map eraseEntry m) (erase f k0, erase f x0).
Proof.
  intros H. unfold mapContainsEntry. simpl. induction m as [ | [k x] m IH]; simpl; [done | ].
  destruct (H k x (or_introl eq_refl)) as [-> ->]. f_equal. apply IH. intros. apply H. by right.
Qed.

Lemma forallb_erase (p q : Value * Value -> bool) l :
  (forall e, In e l -> p e = q (eraseEntry e)) -> forallb p l = forallb q (map eraseEntry l).
Proof.
  intros H. induction l as [ | e l IH]; simpl; [done | ].
  rewrite (H e) by (by left). f_equal. apply IH. intros. apply H. by right.
Qed.

Lemma equalBody_erase v o :
  (forall x y, (vdepth x < vdepth v)%nat -> (vdepth y < vdepth o)%nat ->
               eq1 x y = eq2 (erase f x) (erase f y)) ->
  (forall x y, (vdepth x < vdepth v)%nat -> (vdepth y < vdepth o)%nat ->
               eq1 y x = eq2 (erase f y) (erase f x)) ->
  equalBody eq1 v o = equalBody eq2 (erase f v) (erase f o).
Proof.
  intros H H'.
  assert (forall ns n obj, erase f (VObject ns n obj) =
    VObject ns n (match obj with Some (p, Some x) => Some (p, Some (erase f x)) | _ => obj end)) as Eo.
  { by intros ns n [[p [x | ]] | ]. }
  destruct v, o; rewrite ?Eo; cbn [equalBody erase]; try done.
  - apply listEqual_erase. intros. apply H; by apply vdepth_list.
  - unfold mapEqual. rewrite !length_map. split_if; [done | ].
    fold eraseEntry. rewrite oIndexLoop_erase. destruct (oIndexLoop 0 Map_0 ∅) as [oIdx | ].
    + apply indexedEqual_erase. intros. apply H; depth_lia.
    + f_equal; apply forallb_erase; intros [k x] Hin; apply contains_erase;
        intros k' x' Hin'; [split; apply H' | split; apply H]; depth_lia.
  - f_equal. apply fieldsEqual_erase. intros. apply H; by eapply vdepth_field.
  - split_if; [done | ]. destruct Obj as [[p [x | ]] | ], Obj0 as [[p' [y | ]] | ]; try done.
    split_if; [done | ]. apply H; simpl; lia.
  - f_equal. apply fieldsEqual_erase. intros. apply H; by eapply vdepth_field.
Qed.
End Erase.

Section Copy.
Context {NO : NativeObject}.

Lemma Equal_erase f v o : Equal v o = Equal (erase f v) (erase f o).
Proof.
  remember (vdepth v + vdepth o)%nat as n eqn:En. assert (vdepth v + vdepth o <= n)%nat as Hn by lia.
  clear En. revert v o Hn. induction n as [ | n IH]; intros v o Hn;
    rewrite (Equal_unfold v), (Equal_unfold (erase f v)); apply equalBody_erase; intros;
    try lia; apply IH; lia.
Qed.

Lemma erase_DeepCopy f v : erase f (DeepCopy v) = erase f v.
Proof.
  induction v as [v Hv | l et IH | m kt vt idx IH | ns mp n fs IH | ns mp n va fs IH | ns n p x IH]
    using Value_deep_ind.
  - by destruct v.
  - cbn. f_equal. rewrite map_map. apply map_ext_Forall. exact IH.
  - cbn. f_equal. rewrite map_map. apply map_ext_Forall.
    eapply Forall_impl; [exact IH | ]. intros [k x] [Hk Hx]. simpl in *. by rewrite Hk, Hx.
  - cbn. f_equal. rewrite map_map. apply map_ext_Forall.
    eapply Forall_impl; [exact IH | ]. intros [k x] Hx. simpl in *. by rewrite Hx.
  - cbn. f_equal. rewrite map_map. apply map_ext_Forall.
    eapply Forall_impl; [exact IH | ]. intros [k x] Hx. simpl in *. by rewrite Hx.
  - done.
Qed.

Lemma MatchesDeclared_erase h v t : MatchesDeclared h (eraseIdx v) t = MatchesDeclared h v t.
Proof.
  revert t. induction v as [v Hv | l et IH | m kt vt idx IH | ns mp n fs IH | ns mp n va fs IH | ns n p x IH]
    using Value_deep_ind; intros t; try (by destruct t).
  - destruct v as [ | | | | | | | | | | ? ? [[? [? | ]] | ] | | | ]; done.
  - destruct t; try done. cbn. destruct et; [done | ].
    induction IH as [ | x l Hx _ IHl]; simpl; [done | ]. rewrite IHl. by destruct Element; rewrite ?Hx.
  - destruct t; try done. cbn.
    assert (forallb (fun '(ek, ex) => match KeyValType with None => true
        | Some (k, x) => MatchesDeclared h ek k && MatchesDeclared h ex x end)
        (map (fun '(k, x) => (eraseIdx k, eraseIdx x)) m) =
      forallb (fun '(ek, ex) => match KeyValType with None => true
        | Some (k, x) => MatchesDeclared h ek k && MatchesDeclared h ex x end) m) as E.
    { induction IH as [ | [k x] m [Hk Hx] _ IHm]; simpl; [done | ]. rewrite IHm.
      simpl in *. by destruct KeyValType as [[? ?] | ]; rewrite ?Hk, ?Hx. }
    by destruct kt, vt; rewrite ?E.
Qed.

(** Every map reachable in a value without going through an opaque object has a
    trustworthy index. *)
Fixpoint allIndexOK (v : Value) : Prop :=
  match v with
  | VList l _ => foldr (fun x P => allIndexOK x /\ P) True l
  | VMap m _ _ idx =>
      indexOK m idx /\ foldr (fun '(k, x) P => (allIndexOK k /\ allIndexOK x) /\ P) True m
  | VStruct _ _ _ fs | VEnum _ _ _ _ fs => foldr (fun '(_, x) P => allIndexOK x /\ P) True fs
  | _ => True
  end.

Lemma DeepCopy_indexOK v : allIndexOK (DeepCopy v).
Proof.
  induction v as [v Hv | l et IH | m kt vt idx IH | ns mp n fs IH | ns mp n va fs IH | ns n p x IH]
    using Value_deep_ind.
  - by destruct v.
  - cbn. induction IH; simpl; auto.
  - cbn. split; [apply buildIndex_OK | ].
    induction IH as [ | [k x] m [Hk Hx] _ IHm]; simpl in *; auto.
  - cbn. induction IH as [ | [k x] m Hx _ IHm]; simpl in *; auto.
  - cbn. induction IH as [ | [k x] m Hx _ IHm]; simpl in *; auto.
  - done.
Qed.

Lemma Equal_DeepCopy_l v o : Equal (DeepCopy v) o = Equal v o.
Proof. by rewrite (Equal_erase (fun t => t)), erase_DeepCopy, <- Equal_erase. Qed.

Lemma Equal_DeepCopy_r v o : Equal o (DeepCopy v) = Equal o v.
Proof. by rewrite (Equal_erase (fun t => t)), erase_DeepCopy, <- Equal_erase. Qed.

Lemma MatchesDeclared_DeepCopy h v t : MatchesDeclared h (DeepCopy v) t = MatchesDeclared h v t.
Proof.
  by rewrite <- MatchesDeclared_erase, (erase_DeepCopy _ v : eraseIdx _ = _), MatchesDeclared_erase.
Qed.

(** A deep copy is indistinguishable from its source.  [==] against any
    value on either side, and matching against any declared type under any
    handle state, give the same answers for [v.DeepCopy()] as for [v]; and every
    hash index in the copy is trustworthy even when the source's was stale. *)
Theorem DeepCopy_transparent (h : Handles) (v o : Value) (t : Typ) :
  Equal (DeepCopy v) o = Equal v o /\ Equal o (DeepCopy v) = Equal o v /\
  MatchesDeclared h (DeepCopy v) t = MatchesDeclared h v t /\
  allIndexOK (DeepCopy v).
Proof.
  split; [apply Equal_DeepCopy_l | ]. split; [apply Equal_DeepCopy_r | ].
  split; [apply MatchesDeclared_DeepCopy | apply DeepCopy_indexOK].
Qed.

End Copy.
