(* ===== verification/Ast.v ===== *)
(** * The abstract syntax tree (internal/parser/ast.go)

    One constructor per node type, with the node's position first and the
    annotations the evaluator reads: the constant-folding result, the resolved
    (depth, slot) address of a variable (-1 when unresolved), the move and borrow
    marks.  The pre-resolved [*MethodDef] of a call is represented by the hoisted
    method's name together with its [ReturnsOwned] mark.  The induction principle of
    the tree follows. *)

From S2P Require Import Prelude Float64 Types Value.
Open Scope Z_scope.
#[local] Set Warnings "-register-all".

Abbreviation pos := position (only parsing).

(** [Param], [StructField], [StructDef], [EnumVariant], [EnumDef]. *)
Record Param := { param_Name : string; param_Type : Typ; param_pos : pos; param_Borrow : bool }.
Record StructFieldDecl := { field_Name : string; field_Type : Typ; field_pos : pos }.
Record StructDef := {
  struct_pos : pos; struct_Name : string; struct_Fields : list StructFieldDecl;
  struct_Exported : bool
}.
Record EnumVariant := {
  variant_Name : string; variant_Fields : list StructFieldDecl; variant_pos : pos
}.
Record EnumDef := {
  enum_pos : pos; enum_Name : string; enum_Variants : list EnumVariant; enum_Exported : bool
}.

(** A pre-resolved user method: its name and [ReturnsOwned]. *)
Record MethodRef := { ref_Name : string; ref_ReturnsOwned : bool }.

Record SpawnCaptures := { AllGlobals : bool; Globals : list string }.

#[local] Unset Elimination Schemes.
Inductive Expr :=
  | IntLit (p : pos) (Value_ : Z)
  | FloatLit (p : pos) (Value_ : float64)
  | StringLit (p : pos) (Value_ : string)
  | InterpStringExpr (p : pos) (Parts : list (string * option Expr))
  | BoolLit (p : pos) (Value_ : bool)
  | NullLit (p : pos)
  | ListLit (p : pos) (Elements : list Expr)
  | MapLit (p : pos) (Entries : list (Expr * Expr))
  | IndexExpr (p : pos) (Target Index : Expr)
  | RangeExpr (p : pos) (Lo Hi : Expr)
  | SliceExpr (p : pos) (Target : Expr) (Lo Hi : option Expr)
  | StructLit (p : pos) (NS Enum Name : string) (Bare : bool)
      (Fields : list (string * Expr * pos))
  | FieldAccessExpr (p : pos) (Target : Expr) (Field : string)
  | VarExpr (p : pos) (Name : string) (Depth Slot : Z) (Move : bool)
  | ConstRefExpr (p : pos) (Name : string) (Depth Slot : Z)
  | CallExpr (p : pos) (Callee : string) (Args : list Expr) (Method : option MethodRef)
      (MoveArg : nat) (ArgSnap : list bool)
  | CallValueExpr (p : pos) (Callee : Expr) (Args : list Expr) (ArgSnap : list bool)
  | LenExpr (p : pos) (Operand : Expr)
  | SpawnExpr (p : pos) (Body : list Stmt) (Captures : option SpawnCaptures)
  | QualifiedCallExpr (p : pos) (Prefix Callee : string) (Args : list Expr)
      (MoveArg : nat) (ArgSnap : list bool)
  | QualifiedConstRefExpr (p : pos) (Prefix Name : string)
  | PreEval (p : pos) (v : Value)
  | UnaryExpr (p : pos) (Op : UnaryOp) (Operand : Expr) (Folded : option Expr)
  | BinaryExpr (p : pos) (Op : BinaryOp) (Left Right : Expr) (Folded : option Expr)

with Stmt :=
  | DefineStmt (p : pos) (IsConst Exported : bool) (VarName : string) (VarType : Typ)
      (InitExpr : option Expr) (Slot : Z) (Borrow : bool)
  | AssignStmt (p : pos) (VarName : string) (Value_ : Expr) (Depth Slot : Z)
  | IndexAssignStmt (p : pos) (Target : Expr) (Value_ : Expr)
  | AppendStmt (p : pos) (Target : Expr) (Value_ : Expr)
  | FieldAssignStmt (p : pos) (Target : Expr) (Value_ : Expr)
  | IfStmt (p : pos) (Cond : Expr) (Then : Block) (ElseIfs : list (Expr * Block))
      (Else : option Block)
  | MatchStmt (p : pos) (Subject : Expr) (Arms : list MatchArm) (Else : option Block)
      (EnumType : option Typ)
  | WhileStmt (p : pos) (Cond : Expr) (Body : Block)
  | ForStmt (p : pos) (Init : option Stmt) (Cond : option Expr) (Step : option Stmt)
      (Body : Block) (HeaderSlots : nat)
  | ForEachStmt (p : pos) (VarName : string) (Coll : Expr) (Body : Block) (IterSlot : Z)
  | ReturnStmt (p : pos) (Value_ : option Expr)
  | BreakStmt (p : pos)
  | ContinueStmt (p : pos)
  | RepeatStmt (p : pos) (Body : Block) (Cond : Expr)
  | ExitStmt (p : pos) (Code : option Expr)
  | TryStmt (p : pos) (Body : Block) (CatchName : string) (CatchBody : Block)
      (CatchPos : pos) (CatchSlot : Z)
  | ThrowStmt (p : pos) (Value_ : Expr)
  | DeferStmt (p : pos) (Call : Expr) (OnError : bool)
  | ExprStmt (p : pos) (Expr_ : Expr)

with Block := mkBlock (p : pos) (Stmts : list Stmt) (NumSlots : nat)

with MatchArm :=
  mkArm (p : pos) (Values : list Expr) (Body : Block) (Variant Bind : string) (BindSlot : Z).
#[local] Set Elimination Schemes.

Record MethodDef := {
  method_pos : pos;
  method_Name : string;
  method_Params : list Param;
  method_Body : Block;
  method_Exported : bool;
  method_GlobalSafe : bool;
  method_ReentryFree : bool;
  method_ReturnsOwned : bool
}.

(** [ImportStmt], [ModuleImportStmt], [Program]. *)
Record ImportStmt := { import_pos : pos; import_Name : string; import_AsName : string }.
Record ModuleImportStmt := { modimport_pos : pos; modimport_Path : string; modimport_AsName : string }.

Record Program := {
  prog_pos : pos;
  prog_Imports : list ImportStmt;
  prog_ModuleImports : list ModuleImportStmt;
  prog_Methods : list MethodDef;
  prog_Structs : list StructDef;
  prog_Enums : list EnumDef;
  prog_TopLevel : list Stmt;
  prog_NumGlobals : nat
}.

Definition block_Stmts (b : Block) : list Stmt := let '(mkBlock _ s _) := b in s.
Definition block_NumSlots (b : Block) : nat := let '(mkBlock _ _ n) := b in n.

(** [posFor]: a node's source position. *)
Definition posFor (e : Expr) : pos :=
  match e with
  | IntLit p _ | FloatLit p _ | StringLit p _ | InterpStringExpr p _ | BoolLit p _ | NullLit p
  | ListLit p _ | MapLit p _ | IndexExpr p _ _ | RangeExpr p _ _ | SliceExpr p _ _ _
  | StructLit p _ _ _ _ _ | FieldAccessExpr p _ _ | VarExpr p _ _ _ _ | ConstRefExpr p _ _ _
  | CallExpr p _ _ _ _ _ | CallValueExpr p _ _ _ | LenExpr p _ | SpawnExpr p _ _
  | QualifiedCallExpr p _ _ _ _ _ | QualifiedConstRefExpr p _ _ | PreEval p _
  | UnaryExpr p _ _ _ | BinaryExpr p _ _ _ _ => p
  end.

(** * Induction over the syntax tree *)

Definition onOpt {A} (P : A -> Prop) (o : option A) : Prop :=
  match o with Some a => P a | None => True end.

Definition forall_all {A} (P : A -> Prop) (f : forall a, P a) : forall l, Forall P l :=
  fix go l := match l with [] => @List.Forall_nil A P | x :: l => @List.Forall_cons A P x l (f x) (go l) end.

Definition onOpt_all {A} (P : A -> Prop) (f : forall a, P a) (o : option A) : onOpt P o :=
  match o with Some a => f a | None => I end.

Section Ind.
Variables (PE : Expr -> Prop) (PS : Stmt -> Prop) (PB : Block -> Prop) (PA : MatchArm -> Prop).

(** Leaves: nodes without parts. *)
Definition leafE (e : Expr) : Prop :=
  match e with
  | IntLit _ _ | FloatLit _ _ | StringLit _ _ | BoolLit _ _ | NullLit _ | VarExpr _ _ _ _ _
  | ConstRefExpr _ _ _ _ | QualifiedConstRefExpr _ _ _ | PreEval _ _ => True
  | _ => False
  end.

Hypothesis HLeaf : forall e, leafE e -> PE e.
Hypothesis HInterp : forall p parts, Forall (fun x => onOpt PE (snd x)) parts -> PE (InterpStringExpr p parts).
Hypothesis HList : forall p es, Forall PE es -> PE (ListLit p es).
Hypothesis HMap : forall p kvs, Forall (fun x => PE (fst x) /\ PE (snd x)) kvs -> PE (MapLit p kvs).
Hypothesis HIndex : forall p a b, PE a -> PE b -> PE (IndexExpr p a b).
Hypothesis HRange : forall p a b, PE a -> PE b -> PE (RangeExpr p a b).
Hypothesis HSlice : forall p t lo hi, PE t -> onOpt PE lo -> onOpt PE hi -> PE (SliceExpr p t lo hi).
Hypothesis HStruct : forall p ns en nm ba fs,
  Forall (fun x => PE (snd (fst x))) fs -> PE (StructLit p ns en nm ba fs).
Hypothesis HField : forall p t f, PE t -> PE (FieldAccessExpr p t f).
Hypothesis HCall : forall p c args m mv sn, Forall PE args -> PE (CallExpr p c args m mv sn).
Hypothesis HCallValue : forall p f args sn, PE f -> Forall PE args -> PE (CallValueExpr p f args sn).
Hypothesis HLen : forall p a, PE a -> PE (LenExpr p a).
Hypothesis HSpawn : forall p body caps, Forall PS body -> PE (SpawnExpr p body caps).
Hypothesis HQual : forall p pr c args mv sn, Forall PE args -> PE (QualifiedCallExpr p pr c args mv sn).
Hypothesis HUnary : forall p op a f, PE a -> PE (UnaryExpr p op a f).
Hypothesis HBinary : forall p op a b f, PE a -> PE b -> PE (BinaryExpr p op a b f).

Hypothesis HDefine : forall p c x n t o sl bo, onOpt PE o -> PS (DefineStmt p c x n t o sl bo).
Hypothesis HAssign : forall p n v d sl, PE v -> PS (AssignStmt p n v d sl).
Hypothesis HIndexAssign : forall p t v, PE t -> PE v -> PS (IndexAssignStmt p t v).
Hypothesis HAppend : forall p t v, PE t -> PE v -> PS (AppendStmt p t v).
Hypothesis HFieldAssign : forall p t v, PE t -> PE v -> PS (FieldAssignStmt p t v).
Hypothesis HIf : forall p c b elifs els,
  PE c -> PB b -> Forall (fun x => PE (fst x) /\ PB (snd x)) elifs -> onOpt PB els -> PS (IfStmt p c b elifs els).
Hypothesis HMatch : forall p e arms els et, PE e -> Forall PA arms -> onOpt PB els -> PS (MatchStmt p e arms els et).
Hypothesis HWhile : forall p c b, PE c -> PB b -> PS (WhileStmt p c b).
Hypothesis HFor : forall p i c st b h,
  onOpt PS i -> onOpt PE c -> onOpt PS st -> PB b -> PS (ForStmt p i c st b h).
Hypothesis HForEach : forall p x c b i, PE c -> PB b -> PS (ForEachStmt p x c b i).
Hypothesis HReturn : forall p o, onOpt PE o -> PS (ReturnStmt p o).
Hypothesis HBreak : forall p, PS (BreakStmt p).
Hypothesis HContinue : forall p, PS (ContinueStmt p).
Hypothesis HRepeat : forall p b c, PB b -> PE c -> PS (RepeatStmt p b c).
Hypothesis HExit : forall p o, onOpt PE o -> PS (ExitStmt p o).
Hypothesis HTry : forall p b x cb cp i, PB b -> PB cb -> PS (TryStmt p b x cb cp i).
Hypothesis HThrow : forall p e, PE e -> PS (ThrowStmt p e).
Hypothesis HDefer : forall p e o, PE e -> PS (DeferStmt p e o).
Hypothesis HExpr : forall p e, PE e -> PS (ExprStmt p e).
Hypothesis HBlock : forall p ss n, Forall PS ss -> PB (mkBlock p ss n).
Hypothesis HArm : forall p vs b v bi sl, Forall PE vs -> PB b -> PA (mkArm p vs b v bi sl).

Fixpoint expr_induction (e : Expr) : PE e :=
  match e with
  | InterpStringExpr p parts => HInterp p parts (forall_all _ (fun x => onOpt_all _ expr_induction (snd x)) parts)
  | ListLit p es => HList p es (forall_all _ expr_induction es)
  | MapLit p kvs => HMap p kvs (forall_all _ (fun x => conj (expr_induction (fst x)) (expr_induction (snd x))) kvs)
  | IndexExpr p a b => HIndex p a b (expr_induction a) (expr_induction b)
  | RangeExpr p a b => HRange p a b (expr_induction a) (expr_induction b)
  | SliceExpr p t lo hi =>
      HSlice p t lo hi (expr_induction t) (onOpt_all _ expr_induction lo) (onOpt_all _ expr_induction hi)
  | StructLit p ns en nm ba fs => HStruct p ns en nm ba fs (forall_all _ (fun x => expr_induction (snd (fst x))) fs)
  | FieldAccessExpr p t f => HField p t f (expr_induction t)
  | CallExpr p c args m mv sn => HCall p c args m mv sn (forall_all _ expr_induction args)
  | CallValueExpr p f args sn => HCallValue p f args sn (expr_induction f) (forall_all _ expr_induction args)
  | LenExpr p a => HLen p a (expr_induction a)
  | SpawnExpr p body caps => HSpawn p body caps (forall_all _ stmt_induction body)
  | QualifiedCallExpr p pr c args mv sn => HQual p pr c args mv sn (forall_all _ expr_induction args)
  | UnaryExpr p op a f => HUnary p op a f (expr_induction a)
  | BinaryExpr p op a b f => HBinary p op a b f (expr_induction a) (expr_induction b)
  | e => HLeaf e I
  end
with stmt_induction (s : Stmt) : PS s :=
  match s with
  | DefineStmt p c x n t o sl bo => HDefine p c x n t o sl bo (onOpt_all _ expr_induction o)
  | AssignStmt p n v d sl => HAssign p n v d sl (expr_induction v)
  | IndexAssignStmt p t v => HIndexAssign p t v (expr_induction t) (expr_induction v)
  | AppendStmt p t v => HAppend p t v (expr_induction t) (expr_induction v)
  | FieldAssignStmt p t v => HFieldAssign p t v (expr_induction t) (expr_induction v)
  | IfStmt p c b elifs els =>
      HIf p c b elifs els (expr_induction c) (block_induction b)
        (forall_all _ (fun x => conj (expr_induction (fst x)) (block_induction (snd x))) elifs)
        (onOpt_all _ block_induction els)
  | MatchStmt p e arms els et =>
      HMatch p e arms els et (expr_induction e) (forall_all _ arm_induction arms) (onOpt_all _ block_induction els)
  | WhileStmt p c b => HWhile p c b (expr_induction c) (block_induction b)
  | ForStmt p i c st b h =>
      HFor p i c st b h (onOpt_all _ stmt_induction i) (onOpt_all _ expr_induction c)
        (onOpt_all _ stmt_induction st) (block_induction b)
  | ForEachStmt p x c b i => HForEach p x c b i (expr_induction c) (block_induction b)
  | ReturnStmt p o => HReturn p o (onOpt_all _ expr_induction o)
  | BreakStmt p => HBreak p
  | ContinueStmt p => HContinue p
  | RepeatStmt p b c => HRepeat p b c (block_induction b) (expr_induction c)
  | ExitStmt p o => HExit p o (onOpt_all _ expr_induction o)
  | TryStmt p b x cb cp i => HTry p b x cb cp i (block_induction b) (block_induction cb)
  | ThrowStmt p e => HThrow p e (expr_induction e)
  | DeferStmt p e o => HDefer p e o (expr_induction e)
  | ExprStmt p e => HExpr p e (expr_induction e)
  end
with block_induction (b : Block) : PB b :=
  match b with mkBlock p ss n => HBlock p ss n (forall_all _ stmt_induction ss) end
with arm_induction (a : MatchArm) : PA a :=
  match a with mkArm p vs b v bi sl => HArm p vs b v bi sl (forall_all _ expr_induction vs) (block_induction b) end.

Lemma ast_induction : (forall e, PE e) /\ (forall s, PS s) /\ (forall b, PB b) /\ (forall a, PA a).
Proof.
  split; [exact expr_induction | split; [exact stmt_induction | split; [exact block_induction | exact arm_induction]]].
Qed.
End Ind.

(** Induction over expressions only. *)
Ltac expr_induct :=
  match goal with
  | |- forall e, @?P e =>
      apply (expr_induction P (fun _ => True) (fun _ => True) (fun _ => True)); cbv beta; try (intros; exact I)
  end.
