(* ===== verification/Parser.v ===== *)
(** * The parser (internal/parser/parser.go): state, tokens, expressions

    The recursive-descent parser over a token stream.  [parser] is the Go struct, with the
    unread tokens in place of the slice and its index: the position only moves forward.  A
    parsing function ends with a node and the new state, with a positioned error, by
    reading past the end of the stream (Go's index panic), or without fuel.  After an error
    the state is of no use to any caller, so it is dropped.

    Functions that call each other without a fixed order (an expression inside an
    argument list, a block inside a statement) take the recursive calls from a record
    [PRec]; the ladder of precedences is plain composition.  Loops run at most once per
    unread token. *)

From Stdlib Require Import Ascii.
From S2P Require Import Prelude GoInt Float64 Utf8 Limits Token Lexer.
From S2P Require Import Types Value Ast Strconv.
Open Scope string_scope.
Open Scope list_scope.
Open Scope Z_scope.

(** ** State and results *)

Record parser := mkParser {
  tokens : list Token;
  seed : option Expr;
  exprDepth : Z;
  stmtDepth : Z;
  typeDepth : Z;
  sublexBudget : option Z;
  noStructLit : bool
}.

(** [ParseError]; an error of the lexer on an interpolation slot. *)
Inductive parseError :=
  | EParse (msg : message) (p : position)
  | ELex (e : LexError).

Inductive pout (A : Type) :=
  | POk (a : A) (p : parser)
  | PErr (e : parseError)
  | PPanic
  | PFuel.
Arguments POk {A}. Arguments PErr {A}. Arguments PPanic {A}. Arguments PFuel {A}.

Definition P (A : Type) : Type := parser -> pout A.

Definition pret {A} (a : A) : P A := fun p => POk a p.
Definition pbind {A B} (c : P A) (k : A -> P B) : P B :=
  fun p =>
    match c p with
    | POk a p' => k a p'
    | PErr e => PErr e
    | PPanic => PPanic
    | PFuel => PFuel
    end.

Declare Scope parse_scope.
Delimit Scope parse_scope with parse.
Notation "'let*' x ':=' c 'in' k" := (pbind c (fun x => k))
  (at level 10, x pattern, c at level 200, k at level 200,
   format "'let*'  x  ':='  c  'in' '//' k") : parse_scope.
Open Scope parse_scope.

Definition tokPos (t : Token) : position := Pos (File t) (Line t) (Col t).

Definition perrPos {A} (q : position) (fmt : string) (args : list fmtarg) : P A :=
  fun _ => PErr (EParse (Sprintf fmt args) q).
Definition perr {A} (t : Token) (fmt : string) (args : list fmtarg) : P A :=
  perrPos (tokPos t) fmt args.

Definition pget : P parser := fun p => POk p p.

Definition setTokens (ts : list Token) (p : parser) : parser :=
  mkParser ts (seed p) (exprDepth p) (stmtDepth p) (typeDepth p) (sublexBudget p) (noStructLit p).
Definition setSeed (s : option Expr) (p : parser) : parser :=
  mkParser (tokens p) s (exprDepth p) (stmtDepth p) (typeDepth p) (sublexBudget p) (noStructLit p).
Definition setExprDepth (d : Z) (p : parser) : parser :=
  mkParser (tokens p) (seed p) d (stmtDepth p) (typeDepth p) (sublexBudget p) (noStructLit p).
Definition setStmtDepth (d : Z) (p : parser) : parser :=
  mkParser (tokens p) (seed p) (exprDepth p) d (typeDepth p) (sublexBudget p) (noStructLit p).
Definition setTypeDepth (d : Z) (p : parser) : parser :=
  mkParser (tokens p) (seed p) (exprDepth p) (stmtDepth p) d (sublexBudget p) (noStructLit p).
Definition setBudget (b : option Z) (p : parser) : parser :=
  mkParser (tokens p) (seed p) (exprDepth p) (stmtDepth p) (typeDepth p) b (noStructLit p).
Definition setNoStructLit (b : bool) (p : parser) : parser :=
  mkParser (tokens p) (seed p) (exprDepth p) (stmtDepth p) (typeDepth p) (sublexBudget p) b.

Definition pmod (f : parser -> parser) : P unit := fun p => POk tt (f p).

(** A loop may run once for every unread token, and once more to stop. *)
Definition looping {A} (body : nat -> P A) : P A := fun p => body (S (length (tokens p))) p.

(** ** Tokens *)

Definition isTrivia (t : TokenType) : bool :=
  match t with
  | TOKEN_COMMENT_LINE | TOKEN_COMMENT_BLOCK | TOKEN_COMMENT_SHEBANG | TOKEN_BLANK_LINE => true
  | _ => false
  end.

(** [stripTrivia] and [stripTriviaInPlace]. *)
Definition stripTrivia (toks : list Token) : list Token :=
  filter (fun t => isTrivia (Type_ t) = false) toks.

Definition peek : P Token :=
  fun p => match tokens p with t :: _ => POk t p | [] => PPanic end.
Definition peekN (n : nat) : P Token :=
  fun p => match tokens p !! n with Some t => POk t p | None => PPanic end.
Definition advance : P Token :=
  fun p =>
    match tokens p with
    | t :: rest => POk t (if bool_decide (Type_ t = TOKEN_EOF) then p else setTokens rest p)
    | [] => PPanic
    end.

Definition check (tt : TokenType) : P bool :=
  let* t := peek in pret (bool_decide (Type_ t = tt)).

(** [match]. *)
Definition accept (tt : TokenType) : P (option Token) :=
  let* c := check tt in
  if (c : bool) then let* t := advance in pret (Some t) else pret None.

(** [lex[:i]] where rune [n] starts at [i], if there is one; every rune takes a byte at least. *)
Fixpoint runePrefix (fuel : nat) (n : Z) (lex : string) : option string :=
  match fuel, lex with
  | O, _ | _, EmptyString => None
  | S fuel, _ =>
      if n =? 0 then Some ""
      else
        let w := snd (decodeRune lex) in
        match runePrefix fuel (n - 1) (sdrop w lex) with Some s => Some (stake w lex +:+ s) | None => None end
  end.

(** The first 128 runes of a lexeme. *)
Definition describeLexeme (lex : string) : string :=
  match runePrefix (String.length lex) 128 lex with Some s => s +:+ "..." | None => lex end.

Definition letterFirst (lex : string) : bool :=
  match lex with
  | EmptyString => false
  | String c _ => inChars "a"%char "z"%char c || inChars "A"%char "Z"%char c
  end.

Definition isReservedWordToken (t : Token) : bool :=
  if bool_decide (Type_ t = TOKEN_IDENT) || bool_decide (Lexeme t = "") then false
  else letterFirst (Lexeme t).

Definition tt_ (t : TokenType) : fmtarg := AStr (TokenType_String t).

Definition expect (tt : TokenType) (ctx : string) : P Token :=
  let* t := peek in
  if bool_decide (Type_ t = tt) then advance
  else
    let args := [tt_ tt; AStr ctx; tt_ (Type_ t); AStr (describeLexeme (Lexeme t))] in
    if bool_decide (tt = TOKEN_IDENT) && isReservedWordToken t
    then perr t "expected %s %s, got %s (%q) - `%s` is a reserved word and cannot be used as a name"
           (args ++ [AStr (Lexeme t)])
    else perr t "expected %s %s, got %s (%q)" args.

(** A statement keyword: [t, _ := p.match(tt)] where the caller has seen it. *)
Definition keyword (tt : TokenType) : P Token :=
  let* o := accept tt in
  pret (match o with
        | Some t => t
        | None => {| Type_ := TOKEN_EOF; Lexeme := ""; Raw := ""; Parts := []; Line := 0; Col := 0; File := "" |}
        end).

(** ** Names *)

Definition hasChar (c : ascii) (s : string) : bool :=
  existsb (fun d => bool_decide (d = c)) (String.list_ascii_of_string s).

Definition containsUnderscore (s : string) : bool := hasChar "_"%char s.

(** The loop of [isValidConstName]. *)
Fixpoint constLoop (s : string) (atChunkStart prevUnderscore : bool) : bool :=
  match s with
  | EmptyString => true
  | String c s =>
      if bool_decide (c = "_"%char) then
        if prevUnderscore then false else constLoop s true true
      else if atChunkStart then
        if inChars "A"%char "Z"%char c then constLoop s false false else false
      else if inChars "A"%char "Z"%char c || inChars "0"%char "9"%char c then constLoop s false false
      else false
  end.

Definition lastChar (s : string) : option ascii := last (String.list_ascii_of_string s).

Definition isValidConstName (s : string) : bool :=
  match s with
  | EmptyString => false
  | String c _ =>
      if bool_decide (c = "_"%char) || bool_decide (lastChar s = Some "_"%char) then false
      else constLoop s true false
  end.

Definition isPostDotName (t : Token) : bool :=
  bool_decide (Type_ t = TOKEN_IDENT) || letterFirst (Lexeme t).

Definition expectFieldName (ctx : string) : P Token :=
  let* t := peek in
  if isPostDotName t then advance
  else perr t "expected identifier %s, got %s (%q)" [AStr ctx; tt_ (Type_ t); AStr (Lexeme t)].

(** A name without underscores, or the given complaint. *)
Definition noUnderscore (t : Token) (fmt : string) : P unit :=
  if containsUnderscore (Lexeme t) then perr t fmt [AStr (Lexeme t)] else pret tt.

(** [allowStructLit] around the rest of a function. *)
Definition allowStructLit {A} (c : P A) : P A :=
  let* p := pget in
  let saved := noStructLit p in
  let* _ := pmod (setNoStructLit false) in
  let* a := c in
  let* _ := pmod (setNoStructLit saved) in
  pret a.

(** ** Recursion *)

Record PRec := mkPRec {
  r_expr : P Expr;
  r_or : P Expr;
  r_not : P Expr;
  r_unary : P Expr;
  r_type : P Typ;
  r_block : P Block
}.

Section Parse.
Context `{Limits}.
Variable rec : PRec.

(** ** Types *)

Definition parseType : P Typ :=
  let* t := peek in
  let* p := pget in
  if MaxNestingDepth <=? typeDepth p then
    perr t "compound type nesting exceeds %d levels" [AInt MaxNestingDepth]
  else
    let* _ := pmod (setTypeDepth (typeDepth p + 1)) in
    let* ty :=
      match Type_ t with
      | TOKEN_INT_TYPE => let* _ := advance in pret TypeInt
      | TOKEN_FLOAT_TYPE => let* _ := advance in pret TypeFloat
      | TOKEN_STRING_TYPE => let* _ := advance in pret TypeString
      | TOKEN_BOOL_TYPE => let* _ := advance in pret TypeBool
      | TOKEN_BYTES_TYPE => let* _ := advance in pret TypeBytes
      | TOKEN_NULL => let* _ := advance in pret TypeNull
      | TOKEN_LIST =>
          let* _ := advance in
          let* _ := expect TOKEN_OF "after `list`" in
          let* elem := r_type rec in
          pret (TypeList (Some elem))
      | TOKEN_MAP =>
          let* _ := advance in
          let* _ := expect TOKEN_OF "after `map`" in
          let* keyT := r_type rec in
          let* _ := expect TOKEN_TO "after map key type" in
          let* valT := r_type rec in
          pret (TypeMap (Some (keyT, valT)))
      | TOKEN_TASK =>
          let* _ := advance in
          let* _ := expect TOKEN_OF "after `task`" in
          let* elem := r_type rec in
          pret (TypeTask (Some elem))
      | TOKEN_FUNC => let* _ := advance in pret TypeFunc
      | TOKEN_IDENT =>
          let* _ := advance in
          let* isOf := check TOKEN_OF in
          if bool_decide (Lexeme t = "channel") && isOf then
            let* _ := advance in
            let* elem := r_type rec in
            pret (TypeChannel (Some elem))
          else
            let* dot := check TOKEN_DOT in
            let* dotted :=
              (if dot : bool then let* n := peekN 1 in pret (bool_decide (Type_ n = TOKEN_IDENT))
               else pret false) in
            if dotted : bool then
              let* _ := advance in
              let* name := advance in
              pret (TypeStruct (Lexeme t) "" (Lexeme name))
            else pret (TypeStruct "" "" (Lexeme t))
      | _ => perr t "expected type, got %s (%q)" [tt_ (Type_ t); AStr (Lexeme t)]
      end in
    let* _ := pmod (setTypeDepth (typeDepth p)) in
    pret ty.

(** ** Expressions *)

Definition nestingError {A} : P A :=
  let* t := peek in
  perr t "expression nesting exceeds %d levels" [AInt MaxNestingDepth].

Definition deepenExpr : P unit :=
  let* p := pget in
  if MaxNestingDepth <=? exprDepth p then nestingError
  else pmod (setExprDepth (exprDepth p + 1)).

(** One charged level around a prefix operand. *)
Definition deeperExpr {A} (c : P A) : P A :=
  let* _ := deepenExpr in
  let* a := c in
  let* p := pget in
  let* _ := pmod (setExprDepth (exprDepth p - 1)) in
  pret a.

(** *** Lists of expressions *)

(** Arguments up to the first one without a comma. *)
Fixpoint argsLoop (fuel : nat) (args : list Expr) : P (list Expr) :=
  match fuel with
  | O => fun _ => PFuel
  | S fuel =>
      let* arg := r_expr rec in
      let* c := accept TOKEN_COMMA in
      match c with
      | Some _ => argsLoop fuel (args ++ [arg])
      | None => pret (args ++ [arg])
      end
  end.

Definition parseArgs (close : string) : P (list Expr) :=
  let* _ := advance in
  allowStructLit
    (let* empty := check TOKEN_RPAREN in
     let* args := (if empty : bool then pret [] else looping (fun n => argsLoop n [])) in
     let* _ := expect TOKEN_RPAREN close in
     pret args).

Definition parseParenArgs : P (list Expr) := parseArgs "to close call argument list".

Definition parseCallTail (callee : Token) : P Expr :=
  if bool_decide (Type_ callee = TOKEN_IDENT) && containsUnderscore (Lexeme callee) then
    perr callee "function name %q may not contain `_` (use camelCase)" [AStr (Lexeme callee)]
  else
    let* args := parseParenArgs in
    pret (CallExpr (tokPos callee) (Lexeme callee) args None 0 []).

Fixpoint elemsLoop (fuel : nat) (elems : list Expr) : P (list Expr) :=
  match fuel with
  | O => fun _ => PFuel
  | S fuel =>
      let* close := check TOKEN_RBRACKET in
      if close : bool then pret elems
      else
        let* e := r_expr rec in
        let* c := accept TOKEN_COMMA in
        match c with
        | Some _ => elemsLoop fuel (elems ++ [e])
        | None => pret (elems ++ [e])
        end
  end.

Definition parseListLit : P Expr :=
  let* bra := keyword TOKEN_LBRACKET in
  allowStructLit
    (let* elems := looping (fun n => elemsLoop n []) in
     let* _ := expect TOKEN_RBRACKET "to close list literal" in
     pret (ListLit (tokPos bra) elems)).

Fixpoint entriesLoop (fuel : nat) (kvs : list (Expr * Expr)) : P (list (Expr * Expr)) :=
  match fuel with
  | O => fun _ => PFuel
  | S fuel =>
      let* close := check TOKEN_RBRACE in
      if close : bool then pret kvs
      else
        let* k := r_expr rec in
        let* _ := expect TOKEN_COLON "between map key and value" in
        let* v := r_expr rec in
        let* c := accept TOKEN_COMMA in
        match c with
        | Some _ => entriesLoop fuel (kvs ++ [(k, v)])
        | None => pret (kvs ++ [(k, v)])
        end
  end.

Definition parseMapLit : P Expr :=
  let* brace := keyword TOKEN_LBRACE in
  allowStructLit
    (let* kvs := looping (fun n => entriesLoop n []) in
     let* _ := expect TOKEN_RBRACE "to close map literal" in
     pret (MapLit (tokPos brace) kvs)).

(** [name: expr] fields; a trailing comma is allowed. *)
Fixpoint litFieldsLoop (fuel : nat) (seen : list string) (fs : list (string * Expr * position))
    : P (list (string * Expr * position)) :=
  match fuel with
  | O => fun _ => PFuel
  | S fuel =>
      let* fname := expectFieldName "for struct field name in literal" in
      if bool_decide (Lexeme fname ∈ seen) then
        perr fname "field %q assigned twice in struct literal" [AStr (Lexeme fname)]
      else
        let* _ := expect TOKEN_COLON "after struct field name" in
        let* val := r_expr rec in
        let fs := fs ++ [(Lexeme fname, val, tokPos fname)] in
        let* c := accept TOKEN_COMMA in
        match c with
        | None => pret fs
        | Some _ =>
            let* close := check TOKEN_RBRACE in
            if close : bool then pret fs else litFieldsLoop fuel (Lexeme fname :: seen) fs
        end
  end.

(** [parseStructLitTail]: the fields; the caller supplies name, position and prefix. *)
Definition parseStructLitTail : P (list (string * Expr * position)) :=
  let* _ := advance in
  allowStructLit
    (let* empty := check TOKEN_RBRACE in
     let* fs := (if empty : bool then pret [] else looping (fun n => litFieldsLoop n [] [])) in
     let* _ := expect TOKEN_RBRACE "to close struct literal" in
     pret fs).

(** The name after a dot. *)
Definition postDotName (ctx : string) : P Token :=
  let* t := peek in
  if isPostDotName t then advance else expect TOKEN_IDENT ctx.

Definition parseQualifiedTail (prefix : Token) : P Expr :=
  let* _ := advance in
  let* name := postDotName "after `.` in qualified call" in
  let base := tokPos prefix in
  let* dot := check TOKEN_DOT in
  if dot && negb (isValidConstName (Lexeme prefix)) && negb (isValidConstName (Lexeme name)) then
    let* _ := advance in
    let* variant := postDotName "for enum variant after `.`" in
    let* p := pget in
    let* brace := check TOKEN_LBRACE in
    if negb (noStructLit p) && brace then
      let* fs := parseStructLitTail in
      pret (StructLit base (Lexeme prefix) (Lexeme name) (Lexeme variant) false fs)
    else pret (StructLit base (Lexeme prefix) (Lexeme name) (Lexeme variant) true [])
  else
    let* paren := check TOKEN_LPAREN in
    if paren : bool then
      let* _ := noUnderscore name "function name %q may not contain `_` (use camelCase)" in
      let* args := parseArgs "to close qualified call argument list" in
      pret (QualifiedCallExpr base (Lexeme prefix) (Lexeme name) args 0 [])
    else
      let* p := pget in
      let* brace := check TOKEN_LBRACE in
      if negb (noStructLit p) && brace then
        let* fs := parseStructLitTail in
        pret (StructLit base (Lexeme prefix) "" (Lexeme name) false fs)
      else if negb (isValidConstName (Lexeme name)) && isValidConstName (Lexeme prefix) then
        pret (FieldAccessExpr base (ConstRefExpr base (Lexeme prefix) (-1) (-1)) (Lexeme name))
      else pret (QualifiedConstRefExpr base (Lexeme prefix) (Lexeme name)).

(** *** Interpolated strings *)

Definition isSpace (r : rune) : bool :=
  ((9 <=? r) && (r <=? 13)) || (r =? 32) || (r =? 133) || (r =? 160) || (r =? 5760) ||
  ((8192 <=? r) && (r <=? 8202)) || (r =? 8232) || (r =? 8233) || (r =? 8239) || (r =? 8287) ||
  (r =? 12288).

(** [strings.TrimSpace(s) == ""]. *)
Definition blank (s : string) : bool := forallb isSpace (runes_of_string s).

(** A slot: a parser of its own on the slot's tokens, at this nesting depth, sharing the
    byte budget. *)
Definition parseSlot (t : Token) (sp : StringPart) (budget : Z) : P (Expr * Z) :=
  let here := Pos (File t) (PartLine sp) (PartCol sp) in
  if blank (Text sp) then
    perrPos here "empty interpolation slot `{}`; a slot must hold one expression" []
  else
    let budget := budget - Z.of_nat (String.length (Text sp)) in
    if budget <? 0 then
      perrPos here "nested string interpolation re-lexes more than %d bytes; flatten the interpolation"
        [AInt MaxSourceBytes]
    else
      fun p =>
        match TokenizeAt (Text sp) (File t) (PartLine sp) (PartCol sp) with
        | LErr e => PErr (ELex e)
        | LFuel => PFuel
        | LOk toks _ =>
            let sub := mkParser (stripTrivia toks) None (exprDepth p) 0 0 (Some budget) false in
            match (let* e := r_expr rec in
                   let* next := peek in
                   if bool_decide (Type_ next = TOKEN_EOF) then pret e
                   else perr next "interpolation slot must be a single expression, got extra %s (%q)"
                          [tt_ (Type_ next); AStr (describeLexeme (Lexeme next))]) sub with
            | POk e sub' => POk (e, default 0 (sublexBudget sub')) p
            | PErr e => PErr e
            | PPanic => PPanic
            | PFuel => PFuel
            end
        end.

Fixpoint partsLoop (t : Token) (parts : list StringPart) (budget : Z)
    (out : list (string * option Expr)) : P (list (string * option Expr) * Z) :=
  match parts with
  | [] => pret (out, budget)
  | sp :: parts =>
      if negb (IsExpr sp) then partsLoop t parts budget (out ++ [(Text sp, None)])
      else
        let* r := parseSlot t sp budget in
        partsLoop t parts (snd r) (out ++ [("", Some (fst r))])
  end.

Definition buildInterpString (t : Token) : P Expr :=
  let* p := pget in
  let* r := partsLoop t (Parts t) (default MaxSourceBytes (sublexBudget p)) [] in
  let* _ :=
    match sublexBudget p with
    | Some _ => pmod (setBudget (Some (snd r)))
    | None => pret tt
    end in
  pret (InterpStringExpr (tokPos t) (fst r)).

(** *** Atoms *)

Definition isBased (lex : string) : bool :=
  HasPrefix lex "0x" || HasPrefix lex "0o" || HasPrefix lex "0b".

Definition upperFirst (s : string) : string :=
  match s with
  | String c r => String (if inChars "a"%char "z"%char c then chr (byte_of c - 32) else c) r
  | EmptyString => s
  end.

(** A type keyword in expression position: the error and its hint. *)
Definition typeKeywordError (t : Token) : P Expr :=
  let* next := peekN 1 in
  let hint :=
    if bool_decide (Type_ next = TOKEN_LPAREN) && negb (bool_decide (Type_ t = TOKEN_BYTES_TYPE)) then
      " (use `convert.to" +:+ upperFirst (Lexeme t) +:+ "(...)` to convert a value)"
    else if bool_decide (Type_ t = TOKEN_BYTES_TYPE) then
      " (use `convert.bytesFromString(s, codec)` to build bytes from a string)"
    else " (type names belong after `as` in a declaration)" in
  perr t "type name %q cannot appear in expression position%s" [AStr (Lexeme t); AStr hint].

Definition identAtom (t : Token) : P Expr :=
  let* _ := advance in
  let* dot := check TOKEN_DOT in
  if dot : bool then parseQualifiedTail t
  else
    let* p := pget in
    let* brace := check TOKEN_LBRACE in
    if negb (noStructLit p) && brace then
      let* fs := parseStructLitTail in
      pret (StructLit (tokPos t) "" "" (Lexeme t) false fs)
    else
      let* paren := check TOKEN_LPAREN in
      if negb paren then pret (ConstRefExpr (tokPos t) (Lexeme t) (-1) (-1))
      else parseCallTail t.

Definition taskAtom (t : Token) : P Expr :=
  let* _ := advance in
  let* dot := check TOKEN_DOT in
  if negb dot then
    perr t "`task` in expression position must be followed by `.function(...)` (the `task` library); for the type, write `task of T` in a declaration" []
  else
    parseQualifiedTail
      {| Type_ := TOKEN_IDENT; Lexeme := "task"; Raw := ""; Parts := []; Line := Line t; Col := Col t;
         File := File t |}.

Definition parsePrimaryAtom : P Expr :=
  let* p := pget in
  match seed p with
  | Some s => let* _ := pmod (setSeed None) in pret s
  | None =>
      let* t := peek in
      match Type_ t with
      | TOKEN_INT =>
          let* _ := advance in
          match ParseInt (Lexeme t) (if isBased (Lexeme t) then 0 else 10) with
          | Ok n => pret (IntLit (tokPos t) n)
          | Err reason =>
              perr t "invalid int literal %q: %s" [AStr (describeLexeme (Lexeme t)); AStr reason]
          end
      | TOKEN_FLOAT =>
          let* _ := advance in
          match ParseFloat (Lexeme t) with
          | Ok f => pret (FloatLit (tokPos t) f)
          | Err reason =>
              perr t "invalid float literal %q: %s" [AStr (describeLexeme (Lexeme t)); AStr reason]
          end
      | TOKEN_STRING => let* _ := advance in pret (StringLit (tokPos t) (Lexeme t))
      | TOKEN_STRING_INTERP => let* _ := advance in buildInterpString t
      | TOKEN_TRUE => let* _ := advance in pret (BoolLit (tokPos t) true)
      | TOKEN_FALSE => let* _ := advance in pret (BoolLit (tokPos t) false)
      | TOKEN_NULL => let* _ := advance in pret (NullLit (tokPos t))
      | TOKEN_LEN =>
          let* _ := advance in
          let* _ := expect TOKEN_LPAREN "after `len`" in
          let* operand := r_expr rec in
          let* _ := expect TOKEN_RPAREN "to close `len` argument" in
          pret (LenExpr (tokPos t) operand)
      | TOKEN_SPAWN =>
          let* _ := advance in
          let* body := r_block rec in
          pret (SpawnExpr (tokPos t) (block_Stmts body) None)
      | TOKEN_TASK => taskAtom t
      | TOKEN_VARREF => let* _ := advance in pret (VarExpr (tokPos t) (Lexeme t) (-1) (-1) false)
      | TOKEN_IDENT => identAtom t
      | TOKEN_INT_TYPE | TOKEN_FLOAT_TYPE | TOKEN_STRING_TYPE | TOKEN_BOOL_TYPE | TOKEN_BYTES_TYPE =>
          typeKeywordError t
      | TOKEN_LPAREN =>
          let* _ := advance in
          let* e := allowStructLit (r_expr rec) in
          let* _ := expect TOKEN_RPAREN "to close grouped expression" in
          pret e
      | TOKEN_LBRACKET => parseListLit
      | TOKEN_LBRACE => parseMapLit
      | _ => perr t "unexpected token %s (%q) in expression" [tt_ (Type_ t); AStr (Lexeme t)]
      end
  end.

(** *** Suffixes *)

Definition parseBracketSuffix (target : Expr) : P Expr :=
  let* bra := peek in
  let* _ := advance in
  allowStructLit
    (let* t := peek in
     let* lo :=
       (if bool_decide (Type_ t = TOKEN_DOTDOT) then pret None
        else let* e := r_or rec in pret (Some e)) in
     let* t := peek in
     if bool_decide (Type_ t = TOKEN_DOTDOT) then
       let* _ := advance in
       let* t := peek in
       let* hi :=
         (if bool_decide (Type_ t = TOKEN_RBRACKET) then pret None
          else let* e := r_or rec in pret (Some e)) in
       let* _ := expect TOKEN_RBRACKET "to close slice expression" in
       pret (SliceExpr (tokPos bra) target lo hi)
     else
       let* _ := expect TOKEN_RBRACKET "to close index expression" in
       pret (IndexExpr (tokPos bra) target (default (NullLit (tokPos bra)) lo))).

Definition parseFieldSuffix (e : Expr) : P Expr :=
  let* dot := peek in
  let* _ := advance in
  let* name := expectFieldName "after `.` for field name" in
  pret (FieldAccessExpr (tokPos dot) e (Lexeme name)).

(** The postfix loop of [parsePrimary]. *)
Fixpoint suffixLoop (fuel : nat) (e : Expr) : P Expr :=
  match fuel with
  | O => fun _ => PFuel
  | S fuel =>
      let* t := peek in
      match Type_ t with
      | TOKEN_LBRACKET =>
          let* n := peekN 1 in
          if bool_decide (Type_ n = TOKEN_RBRACKET) then
            perr t "`[]` is the append form, only valid as a write target: `$xs[] = item;` or `$s.items[] = item;`" []
          else let* e := parseBracketSuffix e in suffixLoop fuel e
      | TOKEN_DOT => let* e := parseFieldSuffix e in suffixLoop fuel e
      | TOKEN_LPAREN =>
          let* args := parseParenArgs in
          suffixLoop fuel (CallValueExpr (tokPos t) e args [])
      | _ => pret e
      end
  end.

Definition parsePrimary : P Expr :=
  let* e := parsePrimaryAtom in
  looping (fun n => suffixLoop n e).

(** *** The precedence ladder *)

(** The minimal int literal exists only negated. *)
Definition foldMostNegativeInt : P (option Expr) :=
  let* t := peek in
  match ParseUint (Lexeme t) (if isBased (Lexeme t) then 0 else 10) with
  | Ok u =>
      if u =? 2 ^ 63 then
        let* _ := advance in pret (Some (IntLit (tokPos t) minInt64))
      else pret None
  | Err _ => pret None
  end.

(** A prefix operator and its operand. *)
Definition prefixed (t : Token) (op : UnaryOp) (operand : P Expr) : P Expr :=
  let* e := deeperExpr operand in
  pret (UnaryExpr (tokPos t) op e None).

Definition parseUnaryMinus : P Expr :=
  let* p := pget in
  match seed p with
  | Some _ => parsePrimary
  | None =>
      let* m := accept TOKEN_MINUS in
      match m with
      | Some t =>
          let* n := peek in
          let* lit := (if bool_decide (Type_ n = TOKEN_INT) then foldMostNegativeInt else pret None) in
          match lit with
          | Some e => pret e
          | None => prefixed t OpNeg (r_unary rec)
          end
      | None =>
          let* b := accept TOKEN_BIT_NOT in
          match b with
          | Some t => prefixed t OpBitNot (r_unary rec)
          | None => parsePrimary
          end
      end
  end.

(** The loop of a left-associative rung: an operator of the rung, a charged level, the
    operand of the next rung. *)
Fixpoint binLoop (fuel : nat) (ops : TokenType -> option BinaryOp) (next : P Expr) (lhs : Expr)
    : P Expr :=
  match fuel with
  | O => fun _ => PFuel
  | S fuel =>
      let* t := peek in
      match ops (Type_ t) with
      | None => pret lhs
      | Some op =>
          let* _ := deepenExpr in
          let* _ := advance in
          let* rhs := next in
          binLoop fuel ops next (BinaryExpr (posFor lhs) op lhs rhs None)
      end
  end.

Definition rung (ops : TokenType -> option BinaryOp) (next : P Expr) : P Expr :=
  let* lhs := next in
  let* p := pget in
  let* e := looping (fun n => binLoop n ops next lhs) in
  let* _ := pmod (setExprDepth (exprDepth p)) in
  pret e.

Definition mulOps (t : TokenType) : option BinaryOp :=
  match t with
  | TOKEN_STAR => Some OpMul
  | TOKEN_SLASH => Some OpDiv
  | TOKEN_DIV => Some OpFloorDiv
  | TOKEN_PERCENT => Some OpMod
  | _ => None
  end.
Definition addOps (t : TokenType) : option BinaryOp :=
  match t with TOKEN_PLUS => Some OpAdd | TOKEN_MINUS => Some OpSub | _ => None end.
Definition shiftOps (t : TokenType) : option BinaryOp :=
  match t with TOKEN_SHL => Some OpShl | TOKEN_SHR => Some OpShr | _ => None end.
Definition bitAndOps (t : TokenType) : option BinaryOp :=
  match t with TOKEN_BIT_AND => Some OpBitAnd | _ => None end.
Definition bitXorOps (t : TokenType) : option BinaryOp :=
  match t with TOKEN_BIT_XOR => Some OpBitXor | _ => None end.
Definition bitOrOps (t : TokenType) : option BinaryOp :=
  match t with TOKEN_BIT_OR => Some OpBitOr | _ => None end.
Definition comparisonOps (t : TokenType) : option BinaryOp :=
  match t with
  | TOKEN_LT => Some OpLt
  | TOKEN_GT => Some OpGt
  | TOKEN_LE => Some OpLe
  | TOKEN_GE => Some OpGe
  | TOKEN_EQ => Some OpEq
  | TOKEN_NEQ => Some OpNeq
  | _ => None
  end.
Definition andOps (t : TokenType) : option BinaryOp :=
  match t with TOKEN_AND => Some OpAnd | _ => None end.
Definition orOps (t : TokenType) : option BinaryOp :=
  match t with TOKEN_OR => Some OpOr | _ => None end.

Definition parseMul : P Expr := rung mulOps parseUnaryMinus.
Definition parseAdd : P Expr := rung addOps parseMul.
Definition parseShift : P Expr := rung shiftOps parseAdd.
Definition parseBitAnd : P Expr := rung bitAndOps parseShift.
Definition parseBitXor : P Expr := rung bitXorOps parseBitAnd.
Definition parseBitOr : P Expr := rung bitOrOps parseBitXor.
Definition parseComparison : P Expr := rung comparisonOps parseBitOr.

Definition parseNot : P Expr :=
  let* p := pget in
  match seed p with
  | Some _ => parseComparison
  | None =>
      let* n := accept TOKEN_NOT in
      match n with
      | Some t => prefixed t OpNot (r_not rec)
      | None => parseComparison
      end
  end.

Definition parseAnd : P Expr := rung andOps parseNot.
Definition parseOr : P Expr := rung orOps parseAnd.

Definition parseRange : P Expr :=
  let* lo := parseOr in
  let* t := peek in
  if negb (bool_decide (Type_ t = TOKEN_DOTDOT)) then pret lo
  else
    let* _ := advance in
    let* hi := parseOr in
    let* t := peek in
    if bool_decide (Type_ t = TOKEN_DOTDOT) then
      perr t "range `..` is non-associative; write `a..b`, not `a..b..c`" []
    else pret (RangeExpr (posFor lo) lo hi).

Definition parseExpr : P Expr :=
  let* p := pget in
  if MaxNestingDepth <=? exprDepth p then nestingError
  else
    let* _ := pmod (setExprDepth (exprDepth p + 1)) in
    let* e := parseRange in
    let* p := pget in
    let* _ := pmod (setExprDepth (exprDepth p - 1)) in
    pret e.

Definition parseExprFrom (primary : Expr) : P Expr :=
  let* _ := pmod (setSeed (Some primary)) in
  parseExpr.
End Parse.
