(* ===== verification/ParserStmt.v ===== *)
(** * The parser (internal/parser/parser.go): statements, declarations, programs

    The statement forms, the top-level declarations and the entry points, over the
    expression parser of [Parser].  [run] closes the recursion: one unit of fuel per nested
    call of an expression, an operand, a type or a block. *)

From S2P Require Import Prelude Limits Token Lexer Types Value Ast Strconv Parser.
Open Scope string_scope.
Open Scope list_scope.
Open Scope Z_scope.
Open Scope parse_scope.

(** [expect] for its effect. *)
Definition skip (ty : TokenType) (ctx : string) : P unit := let* _ := expect ty ctx in pret tt.

Definition isType (tt : TokenType) (t : Token) : bool := bool_decide (Type_ t = tt).

Section Statements.
Context `{Limits}.
Variable rec : PRec.

(** ** Simple statements *)

Definition dollarName {A} (v : Token) (fmt : string) (c : P A) : P A :=
  if isType TOKEN_VARREF v then perr v fmt [AStr (Lexeme v)] else c.

(** The two halves of [parseDefineLike]. *)
Definition parseConstTail (def : Token) : P Stmt :=
  let* name := expect TOKEN_IDENT "after `const`" in
  if negb (isValidConstName (Lexeme name)) then
    perr name "constant name %q must be uppercase letters and digits in single-`_`-separated chunks, each chunk starting with a letter (e.g. MAX_RETRIES, SHA256); `_` must be followed by a letter, with no leading, trailing, or consecutive `_`"
      [AStr (Lexeme name)]
  else
    let* _ := expect TOKEN_AS "after constant name" in
    let* ty := r_type rec in
    let* _ := expect TOKEN_INIT "(constants require an `init` initializer)" in
    let* init := r_expr rec in
    let* _ := expect TOKEN_SEMI "to terminate constant define" in
    pret (DefineStmt (tokPos def) true false (Lexeme name) ty (Some init) (-1) false).

Definition parseVarTail (def : Token) : P Stmt :=
  let* name := expect TOKEN_IDENT "after `def`" in
  let* _ := noUnderscore name "variable name %q may not contain `_` (use camelCase; `_` is only allowed in constant names)" in
  let* _ := expect TOKEN_AS "after variable name" in
  let* ty := r_type rec in
  let* i := accept TOKEN_INIT in
  let* init :=
    match i with
    | Some _ => let* e := r_expr rec in pret (Some e)
    | None => pret None
    end in
  let* _ := expect TOKEN_SEMI "to terminate define" in
  pret (DefineStmt (tokPos def) false false (Lexeme name) ty init (-1) false).

Definition parseDefineLike : P Stmt :=
  let* def := keyword TOKEN_DEFINE in
  let* c := accept TOKEN_CONST in
  let* v := peek in
  dollarName v "drop the `$` here: write `def %s` (the `$` is only for use-site references)"
    (match c with
     | Some _ => parseConstTail def
     | None => parseVarTail def
     end).

(** An expression unless the statement ends here. *)
Definition optionalExpr : P (option Expr) :=
  let* semi := check TOKEN_SEMI in
  if semi : bool then pret None else let* e := r_expr rec in pret (Some e).

Definition parseReturn : P Stmt :=
  let* ret := keyword TOKEN_RETURN in
  let* value := optionalExpr in
  let* _ := expect TOKEN_SEMI "to terminate return" in
  pret (ReturnStmt (tokPos ret) value).

Definition parseBreak : P Stmt :=
  let* bk := keyword TOKEN_BREAK in
  let* _ := expect TOKEN_SEMI "to terminate break" in
  pret (BreakStmt (tokPos bk)).

Definition parseContinue : P Stmt :=
  let* ct := keyword TOKEN_CONTINUE in
  let* _ := expect TOKEN_SEMI "to terminate continue" in
  pret (ContinueStmt (tokPos ct)).

Definition parseRepeat : P Stmt :=
  let* rp := keyword TOKEN_REPEAT in
  let* body := r_block rec in
  let* _ := expect TOKEN_UNTIL "after `repeat { ... }` body" in
  let* _ := expect TOKEN_LPAREN "before `repeat ... until` condition" in
  let* cond := r_expr rec in
  let* _ := expect TOKEN_RPAREN "to close `repeat ... until` condition" in
  let* _ := expect TOKEN_SEMI "to terminate `repeat ... until` statement" in
  pret (RepeatStmt (tokPos rp) body cond).

Definition parseExit : P Stmt :=
  let* ex := keyword TOKEN_EXIT in
  let* code := optionalExpr in
  let* _ := expect TOKEN_SEMI "to terminate exit" in
  pret (ExitStmt (tokPos ex) code).

Definition parseTry : P Stmt :=
  let* tk := keyword TOKEN_TRY in
  let* body := r_block rec in
  let* catchTok := expect TOKEN_CATCH "after `try { ... }` body" in
  let* _ := expect TOKEN_LPAREN "before catch binding" in
  let* name := expect TOKEN_IDENT "for catch binding name" in
  let* _ := noUnderscore name "catch variable name %q may not contain `_` (use camelCase)" in
  let* _ := expect TOKEN_RPAREN "to close catch binding" in
  let* handler := r_block rec in
  pret (TryStmt (tokPos tk) body (Lexeme name) handler (tokPos catchTok) (-1)).

Definition parseThrow : P Stmt :=
  let* tk := keyword TOKEN_THROW in
  let* e := r_expr rec in
  let* _ := expect TOKEN_SEMI "to terminate throw" in
  pret (ThrowStmt (tokPos tk) e).

Definition isCall (e : Expr) : bool :=
  match e with CallExpr _ _ _ _ _ _ | QualifiedCallExpr _ _ _ _ _ _ => true | _ => false end.

Definition parseDefer : P Stmt :=
  let* t := peek in
  let onError := isType TOKEN_ERRDEFER t in
  let keyword := if onError then "errdefer" else "defer" in
  let* tk := advance in
  let* e := r_expr rec in
  if negb (isCall e) then
    perrPos (posFor e) "`%s` requires a function call, e.g. `%s fs.close($f);`"
      [AStr keyword; AStr keyword]
  else
    let* _ := expect TOKEN_SEMI ("to terminate " +:+ keyword) in
    pret (DeferStmt (tokPos tk) e onError).

(** ** Assignments *)

Definition parseAssign (consumeSemi : bool) : P Stmt :=
  let* vref := keyword TOKEN_VARREF in
  let* _ := expect TOKEN_ASSIGN "in assignment" in
  let* val := r_expr rec in
  let* _ := (if consumeSemi then skip TOKEN_SEMI "to terminate assignment" else pret tt) in
  pret (AssignStmt (tokPos vref) (Lexeme vref) val (-1) (-1)).

Definition parseAppend (vref : Token) (target : Expr) : P Stmt :=
  let* _ := advance in
  let* _ := advance in
  let* a := accept TOKEN_ASSIGN in
  match a with
  | None => perr vref "`$%s[]` is write-only (append form); reads are not allowed" [AStr (Lexeme vref)]
  | Some _ =>
      let* val := r_expr rec in
      let* _ := expect TOKEN_SEMI "to terminate append" in
      pret (AppendStmt (tokPos vref) target val)
  end.

(** The suffixes of an lvalue, up to the append form: the chain and whether [[]] follows. *)
Fixpoint lvalueLoop (fuel : nat) (target : Expr) : P (Expr * bool) :=
  match fuel with
  | O => fun _ => PFuel
  | S fuel =>
      let* t := peek in
      match Type_ t with
      | TOKEN_LBRACKET =>
          let* n := peekN 1 in
          if isType TOKEN_RBRACKET n then pret (target, true)
          else let* e := parseBracketSuffix rec target in lvalueLoop fuel e
      | TOKEN_DOT => let* e := parseFieldSuffix target in lvalueLoop fuel e
      | _ => pret (target, false)
      end
  end.

(** The statement of [lvalue = value], by the last suffix of the chain. *)
Definition assignTo (vref : Token) (target val : Expr) : P Stmt :=
  match target with
  | IndexExpr _ _ _ => pret (IndexAssignStmt (tokPos vref) target val)
  | FieldAccessExpr _ _ _ => pret (FieldAssignStmt (tokPos vref) target val)
  | SliceExpr q _ _ _ =>
      perrPos q "slice assignment (`$xs[a..b] = ...`) is not supported; a slice is a read-only copy" []
  | _ => perr vref "expected index or field expression on left of `=`" []
  end.

(** Always a statement or an error: a chain that no [=] follows is continued as an
    expression. *)
Definition tryParseIndexAssign : P Stmt :=
  let* vref := keyword TOKEN_VARREF in
  let* chain := looping (fun n => lvalueLoop n (VarExpr (tokPos vref) (Lexeme vref) (-1) (-1) false)) in
  let '(target, append) := chain in
  if append : bool then parseAppend vref target
  else
    let* a := accept TOKEN_ASSIGN in
    match a with
    | None =>
        let* e := parseExprFrom rec target in
        let* _ := expect TOKEN_SEMI "to terminate statement" in
        pret (ExprStmt (tokPos vref) e)
    | Some _ =>
        let* val := r_expr rec in
        let* _ := expect TOKEN_SEMI "to terminate assignment" in
        assignTo vref target val
    end.

(** ** Control flow *)

Definition parseParenCond (ctx : string) : P Expr :=
  let* _ := expect TOKEN_LPAREN ("after `" +:+ ctx +:+ "`") in
  let* c := r_expr rec in
  let* _ := expect TOKEN_RPAREN ("to close `" +:+ ctx +:+ "` condition") in
  pret c.

Fixpoint elseIfLoop (fuel : nat) (arms : list (Expr * Block)) : P (list (Expr * Block)) :=
  match fuel with
  | O => fun _ => PFuel
  | S fuel =>
      let* more := check TOKEN_ELSEIF in
      if negb more then pret arms
      else
        let* _ := advance in
        let* c := parseParenCond "elseif" in
        let* b := r_block rec in
        elseIfLoop fuel (arms ++ [(c, b)])
  end.

Definition parseIf : P Stmt :=
  let* ift := keyword TOKEN_IF in
  let* cond := parseParenCond "if" in
  let* body := r_block rec in
  let* elseIfs := looping (fun n => elseIfLoop n []) in
  let* e := accept TOKEN_ELSE in
  let* els :=
    match e with
    | Some _ => let* b := r_block rec in pret (Some b)
    | None => pret None
    end in
  pret (IfStmt (tokPos ift) cond body elseIfs els).

Definition parseWhile : P Stmt :=
  let* wt := keyword TOKEN_WHILE in
  let* cond := parseParenCond "while" in
  let* body := r_block rec in
  pret (WhileStmt (tokPos wt) cond body).

(** The values of a [when] arm. *)
Fixpoint whenLoop (fuel : nat) (values : list Expr) : P (list Expr) :=
  match fuel with
  | O => fun _ => PFuel
  | S fuel =>
      let* c := accept TOKEN_COMMA in
      match c with
      | Some _ => let* v := r_expr rec in whenLoop fuel (values ++ [v])
      | None => pret values
      end
  end.

Definition whenValues : P (list Expr) :=
  let* v := r_expr rec in
  looping (fun n => whenLoop n [v]).

Definition parseWhen : P MatchArm :=
  let* wt := advance in
  let* p := pget in
  let* _ := pmod (setNoStructLit true) in
  let* values := whenValues in
  let* _ := pmod (setNoStructLit (noStructLit p)) in
  let* body := r_block rec in
  pret (mkArm (tokPos wt) values body "" "" (-1)).

Fixpoint armsLoop (fuel : nat) (arms : list MatchArm) (els : option Block)
    : P (list MatchArm * option Block) :=
  match fuel with
  | O => fun _ => PFuel
  | S fuel =>
      let* t := peek in
      match Type_ t with
      | TOKEN_WHEN =>
          match els with
          | Some _ => perr t "a `when` arm cannot follow `else` in a `match` (else must be last)" []
          | None => let* arm := parseWhen in armsLoop fuel (arms ++ [arm]) els
          end
      | TOKEN_ELSE =>
          match els with
          | Some _ => perr t "a `match` can have only one `else`" []
          | None =>
              let* _ := advance in
              let* body := r_block rec in
              armsLoop fuel arms (Some body)
          end
      | _ => pret (arms, els)
      end
  end.

Definition parseMatch : P Stmt :=
  let* mt := keyword TOKEN_MATCH in
  let* subject := parseParenCond "match" in
  let* _ := expect TOKEN_LBRACE "to begin `match` body" in
  let* r := looping (fun n => armsLoop n [] None) in
  let* _ := expect TOKEN_RBRACE "to end `match` body (each arm is `when V { ... }` or `else { ... }`)" in
  pret (MatchStmt (tokPos mt) subject (fst r) (snd r) None).

Definition parseForEachTail (ft : Token) : P Stmt :=
  let* _ := keyword TOKEN_DEFINE in
  let* name := expect TOKEN_IDENT "after `def` in for-each" in
  let* _ := noUnderscore name "iteration variable name %q may not contain `_` (use camelCase)" in
  let* _ := expect TOKEN_IN "after for-each variable" in
  let* coll := r_expr rec in
  let* _ := expect TOKEN_RPAREN "to close for-each header" in
  let* body := r_block rec in
  pret (ForEachStmt (tokPos ft) (Lexeme name) coll body (-1)).

(** The token types at the front of the stream, read only while they match. *)
Fixpoint ahead (n : nat) (tts : list TokenType) : P bool :=
  match tts with
  | [] => pret true
  | ty :: tts => let* t := peekN n in if isType ty t then ahead (S n) tts else pret false
  end.

Definition forInit : P (option Stmt) :=
  let* def := check TOKEN_DEFINE in
  if def : bool then let* s := parseDefineLike in pret (Some s)
  else
    let* asg := ahead 0 [TOKEN_VARREF; TOKEN_ASSIGN] in
    if asg : bool then let* s := parseAssign true in pret (Some s)
    else
      let* t := peek in
      if negb (isType TOKEN_SEMI t) then
        perr t "expected for-init (define or assignment), got %s (%q)" [tt_ (Type_ t); AStr (Lexeme t)]
      else let* _ := advance in pret None.

Definition forStep : P (option Stmt) :=
  let* asg := ahead 0 [TOKEN_VARREF; TOKEN_ASSIGN] in
  if asg : bool then let* s := parseAssign false in pret (Some s)
  else
    let* t := peek in
    if negb (isType TOKEN_RPAREN t) then
      perr t "expected for-step (assignment) or `)`, got %s (%q)" [tt_ (Type_ t); AStr (Lexeme t)]
    else pret None.

Definition parseFor : P Stmt :=
  let* ft := keyword TOKEN_FOR in
  let* _ := expect TOKEN_LPAREN "after `for`" in
  let* each := ahead 0 [TOKEN_DEFINE; TOKEN_IDENT; TOKEN_IN] in
  if each : bool then parseForEachTail ft
  else
    let* init := forInit in
    let* cond := optionalExpr in
    let* _ := expect TOKEN_SEMI "after for-condition" in
    let* step := forStep in
    let* _ := expect TOKEN_RPAREN "to close for-header" in
    let* body := r_block rec in
    pret (ForStmt (tokPos ft) init cond step body 0).

(** ** Statements and blocks *)

Definition exprStatement : P Stmt :=
  let* start := peek in
  let* e := r_expr rec in
  let* _ := expect TOKEN_SEMI "to terminate statement" in
  pret (ExprStmt (tokPos start) e).

Definition varStatement : P Stmt :=
  let* n := peekN 1 in
  match Type_ n with
  | TOKEN_ASSIGN => parseAssign true
  | TOKEN_LBRACKET | TOKEN_DOT => tryParseIndexAssign
  | _ => exprStatement
  end.

Definition parseStatement : P Stmt :=
  let* t := peek in
  match Type_ t with
  | TOKEN_DEFINE => parseDefineLike
  | TOKEN_FUNC => perr t "functions can only be defined at the top level" []
  | TOKEN_IF => parseIf
  | TOKEN_WHILE => parseWhile
  | TOKEN_FOR => parseFor
  | TOKEN_REPEAT => parseRepeat
  | TOKEN_MATCH => parseMatch
  | TOKEN_BREAK => parseBreak
  | TOKEN_CONTINUE => parseContinue
  | TOKEN_RETURN => parseReturn
  | TOKEN_EXIT => parseExit
  | TOKEN_TRY => parseTry
  | TOKEN_THROW => parseThrow
  | TOKEN_DEFER | TOKEN_ERRDEFER => parseDefer
  | TOKEN_VARREF => varStatement
  | _ => exprStatement
  end.

Fixpoint stmtsLoop (fuel : nat) (stmts : list Stmt) : P (list Stmt) :=
  match fuel with
  | O => fun _ => PFuel
  | S fuel =>
      let* t := peek in
      match Type_ t with
      | TOKEN_RBRACE | TOKEN_EOF => pret stmts
      | _ => let* s := parseStatement in stmtsLoop fuel (stmts ++ [s])
      end
  end.

Definition parseBlock : P Block :=
  let* lb := expect TOKEN_LBRACE "to begin block" in
  let* p := pget in
  if MaxNestingDepth <=? stmtDepth p then
    perr lb "block nesting exceeds %d levels" [AInt MaxNestingDepth]
  else
    let* _ := pmod (setStmtDepth (stmtDepth p + 1)) in
    let* stmts := looping (fun n => stmtsLoop n []) in
    let* _ := expect TOKEN_RBRACE "to end block" in
    let* _ := pmod (setStmtDepth (stmtDepth p)) in
    pret (mkBlock (tokPos lb) stmts 0).

(** ** Declarations *)

(** [as NAME], without underscores; no clause is the empty name. *)
Definition asClause (ctx fmt : string) : P string :=
  let* a := accept TOKEN_AS in
  match a with
  | None => pret ""
  | Some _ =>
      let* alias := expect TOKEN_IDENT ctx in
      let* _ := noUnderscore alias fmt in
      pret (Lexeme alias)
  end.

Definition parseModuleImport : P ModuleImportStmt :=
  let* imp := keyword TOKEN_IMPORT in
  let* path := expect TOKEN_STRING "a quoted module path after `import`" in
  if negb (HasSuffix (Lexeme path) ".j") && negb (HasPrefix (Lexeme path) "@") then
    perr path "module path %q must end in `.j`" [AStr (describeLexeme (Lexeme path))]
  else
    let* alias := asClause "after `as` in `import`" "module alias %q may not contain `_`" in
    let* _ := expect TOKEN_SEMI "after `import` statement" in
    pret {| modimport_pos := tokPos imp; modimport_Path := Lexeme path; modimport_AsName := alias |}.

(** The library's name: [task] is a keyword, and allowed. *)
Definition importName : P string :=
  let* t := accept TOKEN_TASK in
  match t with
  | Some _ => pret "task"
  | None =>
      let* name := expect TOKEN_IDENT "after `use`" in
      let* _ := noUnderscore name "library name %q may not contain `_`" in
      pret (Lexeme name)
  end.

Definition parseImport : P ImportStmt :=
  let* use := keyword TOKEN_USE in
  let* name := importName in
  let* alias := asClause "after `as` in `use`" "library alias %q may not contain `_`" in
  let* _ := expect TOKEN_SEMI "after `use` statement" in
  pret {| import_pos := tokPos use; import_Name := name; import_AsName := alias |}.

Fixpoint paramsLoop (fuel : nat) (params : list Param) : P (list Param) :=
  match fuel with
  | O => fun _ => PFuel
  | S fuel =>
      let* v := peek in
      dollarName v "parameter name has no `$`: write `%s as TYPE`"
        (let* pname := expect TOKEN_IDENT "for parameter name" in
         let* _ := noUnderscore pname "parameter name %q may not contain `_` (use camelCase)" in
         let* _ := expect TOKEN_AS "after parameter name" in
         let* ptype := r_type rec in
         let params := params ++ [{| param_Name := Lexeme pname; param_Type := ptype;
                                     param_pos := tokPos pname; param_Borrow := false |}] in
         let* c := accept TOKEN_COMMA in
         match c with
         | Some _ => paramsLoop fuel params
         | None => pret params
         end)
  end.

Definition parseMethodDef (exported : bool) : P MethodDef :=
  let* def := keyword TOKEN_FUNC in
  let* name := expect TOKEN_IDENT "after `func`" in
  let* _ := noUnderscore name "function name %q may not contain `_` (use camelCase: `myFunction`)" in
  let* _ := expect TOKEN_LPAREN "after function name" in
  let* empty := check TOKEN_RPAREN in
  let* params := (if empty : bool then pret [] else looping (fun n => paramsLoop n [])) in
  let* _ := expect TOKEN_RPAREN "to close parameter list" in
  let* body := r_block rec in
  pret {| method_pos := tokPos def; method_Name := Lexeme name; method_Params := params;
          method_Body := body; method_Exported := exported; method_GlobalSafe := false;
          method_ReentryFree := false; method_ReturnsOwned := false |}.

(** The field list of a struct or of an enum variant, [what] in its messages. *)
Fixpoint fieldsLoop (fuel : nat) (what : string) (fields : list StructFieldDecl)
    : P (list StructFieldDecl) :=
  match fuel with
  | O => fun _ => PFuel
  | S fuel =>
      let* v := peek in
      dollarName v "field name has no `$`: write `%s as TYPE`"
        (let* fname := expectFieldName ("for " +:+ what +:+ " field name") in
         let* _ := noUnderscore fname (what +:+ " field name %q may not contain `_` (use camelCase)") in
         if bool_decide (Lexeme fname ∈ map field_Name fields) then
           perr fname (what +:+ " field %q declared twice") [AStr (Lexeme fname)]
         else
           let* _ := expect TOKEN_AS ("after " +:+ what +:+ " field name") in
           let* ftype := r_type rec in
           let fields := fields ++ [{| field_Name := Lexeme fname; field_Type := ftype;
                                       field_pos := tokPos fname |}] in
           let* c := accept TOKEN_COMMA in
           match c with
           | None => pret fields
           | Some _ =>
               let* close := check TOKEN_RBRACE in
               if close : bool then pret fields else fieldsLoop fuel what fields
           end)
  end.

Definition parseFields (what close : string) : P (list StructFieldDecl) :=
  let* empty := check TOKEN_RBRACE in
  let* fields := (if empty : bool then pret [] else looping (fun n => fieldsLoop n what [])) in
  let* _ := expect TOKEN_RBRACE close in
  pret fields.

Definition parseStructDef (exported : bool) : P StructDef :=
  let* def := keyword TOKEN_DEFINE in
  let* _ := expect TOKEN_STRUCT "after `def`" in
  let* name := expect TOKEN_IDENT "for struct name" in
  let* _ := noUnderscore name "struct name %q may not contain `_` (use PascalCase or camelCase)" in
  let* _ := expect TOKEN_LBRACE "after struct name" in
  let* fields := parseFields "struct" "to close struct field list" in
  let* _ := expect TOKEN_SEMI "to terminate struct definition" in
  pret {| struct_pos := tokPos def; struct_Name := Lexeme name; struct_Fields := fields;
          struct_Exported := exported |}.

Fixpoint variantsLoop (fuel : nat) (variants : list EnumVariant) : P (list EnumVariant) :=
  match fuel with
  | O => fun _ => PFuel
  | S fuel =>
      let* vname := expect TOKEN_IDENT "for enum variant name" in
      let* _ := noUnderscore vname "enum variant name %q may not contain `_` (use PascalCase)" in
      if bool_decide (Lexeme vname ∈ map variant_Name variants) then
        perr vname "enum variant %q declared twice" [AStr (Lexeme vname)]
      else
        let* payload := accept TOKEN_LBRACE in
        let* fields :=
          match payload with
          | Some _ => parseFields "enum variant" "to close enum variant field list"
          | None => pret []
          end in
        let variants := variants ++ [{| variant_Name := Lexeme vname; variant_Fields := fields;
                                        variant_pos := tokPos vname |}] in
        let* c := accept TOKEN_COMMA in
        match c with
        | None => pret variants
        | Some _ =>
            let* close := check TOKEN_RBRACE in
            if close : bool then pret variants else variantsLoop fuel variants
        end
  end.

Definition parseEnumDef (exported : bool) : P EnumDef :=
  let* def := keyword TOKEN_DEFINE in
  let* _ := expect TOKEN_ENUM "after `def`" in
  let* name := expect TOKEN_IDENT "for enum name" in
  let* _ := noUnderscore name "enum name %q may not contain `_` (use PascalCase)" in
  let* _ := expect TOKEN_LBRACE "after enum name" in
  let* empty := check TOKEN_RBRACE in
  if empty : bool then perr name "enum %q must declare at least one variant" [AStr (Lexeme name)]
  else
    let* variants := looping (fun n => variantsLoop n []) in
    let* _ := expect TOKEN_RBRACE "to close enum variant list" in
    let* _ := expect TOKEN_SEMI "to terminate enum definition" in
    pret {| enum_pos := tokPos def; enum_Name := Lexeme name; enum_Variants := variants;
            enum_Exported := exported |}.

(** ** Programs *)

Definition addImport (i : ImportStmt) (g : Program) : Program :=
  Build_Program (prog_pos g) (prog_Imports g ++ [i]) (prog_ModuleImports g) (prog_Methods g)
    (prog_Structs g) (prog_Enums g) (prog_TopLevel g) (prog_NumGlobals g).
Definition addModuleImport (m : ModuleImportStmt) (g : Program) : Program :=
  Build_Program (prog_pos g) (prog_Imports g) (prog_ModuleImports g ++ [m]) (prog_Methods g)
    (prog_Structs g) (prog_Enums g) (prog_TopLevel g) (prog_NumGlobals g).
Definition addMethod (m : MethodDef) (g : Program) : Program :=
  Build_Program (prog_pos g) (prog_Imports g) (prog_ModuleImports g) (prog_Methods g ++ [m])
    (prog_Structs g) (prog_Enums g) (prog_TopLevel g) (prog_NumGlobals g).
Definition addStruct (s : StructDef) (g : Program) : Program :=
  Build_Program (prog_pos g) (prog_Imports g) (prog_ModuleImports g) (prog_Methods g)
    (prog_Structs g ++ [s]) (prog_Enums g) (prog_TopLevel g) (prog_NumGlobals g).
Definition addEnum (e : EnumDef) (g : Program) : Program :=
  Build_Program (prog_pos g) (prog_Imports g) (prog_ModuleImports g) (prog_Methods g)
    (prog_Structs g) (prog_Enums g ++ [e]) (prog_TopLevel g) (prog_NumGlobals g).
Definition addTopLevel (s : Stmt) (g : Program) : Program :=
  Build_Program (prog_pos g) (prog_Imports g) (prog_ModuleImports g) (prog_Methods g)
    (prog_Structs g) (prog_Enums g) (prog_TopLevel g ++ [s]) (prog_NumGlobals g).

(** What follows [export]: a method, a struct, an enum or a constant. *)
Definition parseExported (prog : Program) : P Program :=
  let* exp := keyword TOKEN_EXPORT in
  let* t := peek in
  match Type_ t with
  | TOKEN_FUNC => let* m := parseMethodDef true in pret (addMethod m prog)
  | TOKEN_DEFINE =>
      let* n := peekN 1 in
      match Type_ n with
      | TOKEN_STRUCT => let* sd := parseStructDef true in pret (addStruct sd prog)
      | TOKEN_ENUM => let* ed := parseEnumDef true in pret (addEnum ed prog)
      | TOKEN_CONST =>
          let* st := parseDefineLike in
          match st with
          | DefineStmt q true _ name ty init slot borrow =>
              pret (addTopLevel (DefineStmt q true true name ty init slot borrow) prog)
          | _ => perr exp "only `def const`, `def struct`, `def enum`, and `func` can be exported" []
          end
      | _ => perr exp "`export` must precede a top-level `def const`, `def struct`, `def enum`, or `func`" []
      end
  | _ => perr exp "`export` must precede a top-level `def const`, `def struct`, `def enum`, or `func`" []
  end.

(** A [def] at the top level. *)
Definition parseTopDefine (prog : Program) : P Program :=
  let* n := peekN 1 in
  match Type_ n with
  | TOKEN_STRUCT => let* sd := parseStructDef false in pret (addStruct sd prog)
  | TOKEN_ENUM => let* ed := parseEnumDef false in pret (addEnum ed prog)
  | _ => let* st := parseStatement in pret (addTopLevel st prog)
  end.

(** One turn of the loop of [parseProgram]; none at the end of the stream. *)
Definition parseItem (prog : Program) : P (option Program) :=
  let* t := peek in
  match Type_ t with
  | TOKEN_EOF => pret None
  | TOKEN_USE => let* imp := parseImport in pret (Some (addImport imp prog))
  | TOKEN_IMPORT => let* m := parseModuleImport in pret (Some (addModuleImport m prog))
  | TOKEN_EXPORT => let* g := parseExported prog in pret (Some g)
  | TOKEN_FUNC => let* m := parseMethodDef false in pret (Some (addMethod m prog))
  | TOKEN_DEFINE => let* g := parseTopDefine prog in pret (Some g)
  | _ => let* st := parseStatement in pret (Some (addTopLevel st prog))
  end.

Fixpoint programLoop (fuel : nat) (prog : Program) : P Program :=
  match fuel with
  | O => fun _ => PFuel
  | S fuel =>
      let* o := parseItem prog in
      match o with
      | None => pret prog
      | Some g => programLoop fuel g
      end
  end.

Definition emptyProgram : Program := Build_Program (Pos "" 1 1) [] [] [] [] [] [] 0.

Definition parseProgram : P Program := looping (fun n => programLoop n emptyProgram).
End Statements.

(** ** Closing the recursion *)

Definition noFuel : PRec :=
  mkPRec (fun _ => PFuel) (fun _ => PFuel) (fun _ => PFuel) (fun _ => PFuel) (fun _ => PFuel)
    (fun _ => PFuel).

Fixpoint run `{Limits} (fuel : nat) : PRec :=
  match fuel with
  | O => noFuel
  | S fuel =>
      let rec := run fuel in
      mkPRec (parseExpr rec) (parseOr rec) (parseNot rec) (parseUnaryMinus rec) (parseType rec)
        (parseBlock rec)
  end.

(** ** Entry points *)

Definition newParser (toks : list Token) : parser := mkParser toks None 0 0 0 None false.

Definition endsWithEOF (toks : list Token) : bool :=
  match last toks with Some t => isType TOKEN_EOF t | None => false end.

Definition ParseTokens `{Limits} (fuel : nat) (toks : list Token) : pout Program :=
  let stripped := stripTrivia toks in
  if negb (endsWithEOF stripped) then
    PErr (EParse (Sprintf "token stream must be non-empty and end with EOF" []) (Pos "" 0 0))
  else parseProgram (run fuel) (newParser stripped).

Definition Parse `{Limits} (fuel : nat) (source : string) : pout Program :=
  match Tokenize source with
  | LErr e => PErr (ELex e)
  | LFuel => PFuel
  | LOk toks _ => parseProgram (run fuel) (newParser (stripTrivia toks))
  end.
