(* ===== verification/ParserTotal.v ===== *)
(** * The parser is total

    Whatever the tokens, as long as an end-of-file token is among them, the parser neither
    reads past the end of the stream nor loops: with enough fuel for the nesting that the
    limits allow it returns a program or a positioned error.

    The argument is a small program logic.  [safe Q] says of an outcome that it is an error
    or a result in [Q]; [adv b p0 p] relates the state [p0] a function starts in to a later
    state [p]: the depth counters and the struct-literal flag are back, no seed is pending,
    an end-of-file token is still ahead and, when [b], a token was consumed.  [weight] is
    the measure of a state: nesting levels still allowed, each worth more than the longest
    stream the lexer makes for an interpolation slot, then the unread tokens.  A nested call
    happens at a smaller weight: after a token, or one level deeper. *)

From S2P Require Import Prelude Limits Token Lexer LexerFacts Types Value Ast Strconv.
From S2P Require Import Parser ParserStmt.
Open Scope Z_scope.
Open Scope parse_scope.

Definition safe {A} (Q : A -> parser -> Prop) (o : pout A) : Prop :=
  match o with
  | POk a p => Q a p
  | PErr _ => True
  | PPanic | PFuel => False
  end.

Lemma safe_mono {A} (Q Q' : A -> parser -> Prop) o :
  (forall a p, Q a p -> Q' a p) -> safe Q o -> safe Q' o.
Proof. destruct o; cbn; auto. Qed.

Lemma safe_bind {A B} Q (c : P A) (k : A -> P B) p :
  safe (fun a p' => safe Q (k a p')) (c p) -> safe Q (pbind c k p).
Proof. unfold pbind. by destruct (c p). Qed.

Lemma safe_ret {A} (Q : A -> parser -> Prop) a p : Q a p -> safe Q (pret a p).
Proof. done. Qed.
Lemma safe_get (Q : parser -> parser -> Prop) p : Q p p -> safe Q (pget p).
Proof. done. Qed.
Lemma safe_mod (Q : unit -> parser -> Prop) f p : Q tt (f p) -> safe Q (pmod f p).
Proof. done. Qed.

(** ** Reaching a later state *)

Definition hasEOF (p : parser) : Prop := Exists (fun t => Type_ t = TOKEN_EOF) (tokens p).

Record adv (b : bool) (p0 p : parser) : Prop := {
  adv_eof : hasEOF p;
  adv_seed : seed p = None;
  adv_expr : exprDepth p = exprDepth p0;
  adv_stmt : stmtDepth p = stmtDepth p0;
  adv_type : typeDepth p = typeDepth p0;
  adv_lit : noStructLit p = noStructLit p0;
  adv_len : (length (tokens p) + Nat.b2n b <= length (tokens p0))%nat
}.

Lemma adv_refl p : hasEOF p -> seed p = None -> adv false p p.
Proof. intros ??; constructor; cbn; auto; lia. Qed.

Lemma adv_trans b c p0 p1 p2 : adv b p0 p1 -> adv c p1 p2 -> adv (b || c) p0 p2.
Proof.
  intros [??????L] [??????M]; constructor; try congruence.
  destruct b, c; cbn in *; lia.
Qed.

Lemma adv_weaken b p0 p : adv b p0 p -> adv false p0 p.
Proof. intros [??????L]; constructor; auto. destruct b; cbn in *; lia. Qed.

(** The bracketed changes of the state: done on both sides, and undone. *)
Lemma adv_setLit b v p0 p : adv b p0 p -> adv b (setNoStructLit v p0) (setNoStructLit v p).
Proof. intros []; by constructor. Qed.
Lemma adv_unsetLit b v p0 p :
  adv b (setNoStructLit v p0) p -> adv b p0 (setNoStructLit (noStructLit p0) p).
Proof. intros []; by constructor. Qed.
Lemma adv_setExpr b d p0 p : adv b p0 p -> adv b (setExprDepth d p0) (setExprDepth d p).
Proof. intros []; by constructor. Qed.
Lemma adv_unsetExpr b d p0 p :
  adv b (setExprDepth d p0) p -> adv b p0 (setExprDepth (exprDepth p0) p).
Proof. intros []; by constructor. Qed.
Lemma adv_setStmt b d p0 p : adv b p0 p -> adv b (setStmtDepth d p0) (setStmtDepth d p).
Proof. intros []; by constructor. Qed.
Lemma adv_unsetStmt b d p0 p :
  adv b (setStmtDepth d p0) p -> adv b p0 (setStmtDepth (stmtDepth p0) p).
Proof. intros []; by constructor. Qed.
Lemma adv_setType b d p0 p : adv b p0 p -> adv b (setTypeDepth d p0) (setTypeDepth d p).
Proof. intros []; by constructor. Qed.
Lemma adv_unsetType b d p0 p :
  adv b (setTypeDepth d p0) p -> adv b p0 (setTypeDepth (typeDepth p0) p).
Proof. intros []; by constructor. Qed.
Lemma adv_setBudget b d p0 p : adv b p0 p -> adv b p0 (setBudget d p).
Proof. intros []; by constructor. Qed.

(** ** Tokens *)

Lemma hasEOF_cons p : hasEOF p -> exists t rest, tokens p = t :: rest.
Proof. unfold hasEOF. destruct (tokens p); [by inversion 1 | eauto]. Qed.

Lemma safe_peek (Q : Token -> parser -> Prop) p :
  hasEOF p -> (forall t rest, tokens p = t :: rest -> Q t p) -> safe Q (peek p).
Proof. intros (t & rest & E)%hasEOF_cons HQ. unfold peek. rewrite E. by eapply HQ. Qed.

(** The token after one that is not the last is there. *)
Lemma safe_peekN1 (Q : Token -> parser -> Prop) p t rest :
  hasEOF p -> tokens p = t :: rest -> Type_ t <> TOKEN_EOF ->
  (forall n rest', rest = n :: rest' -> Q n p) -> safe Q (peekN 1 p).
Proof.
  intros He E Ht HQ. unfold hasEOF in He. rewrite E in He.
  unfold peekN. rewrite E. apply Exists_cons in He as [?|He]; [done|].
  destruct rest as [|n rest]; [by inversion He | by eapply HQ].
Qed.

Lemma safe_advance (Q : Token -> parser -> Prop) b p0 p :
  adv b p0 p -> (forall t p', adv b p0 p' -> Q t p') -> safe Q (advance p).
Proof.
  intros Ha HQ. destruct (hasEOF_cons p (adv_eof _ _ _ Ha)) as (t & rest & E).
  unfold advance. rewrite E. cbn. apply HQ. case_bool_decide as Ht; [done|].
  destruct Ha as [He ? ? ? ? ? L]; constructor; cbn; auto.
  - unfold hasEOF in *. rewrite E in He. by apply Exists_cons in He as [?|?].
  - rewrite E in L. cbn in L. lia.
Qed.

(** An advance over a token that is not the last. *)
Lemma safe_advance_tok (Q : Token -> parser -> Prop) b p0 p t rest :
  adv b p0 p -> tokens p = t :: rest -> Type_ t <> TOKEN_EOF ->
  (forall t p', adv true p0 p' -> Q t p') -> safe Q (advance p).
Proof.
  intros Ha E Ht HQ. unfold advance. rewrite E. cbn. rewrite bool_decide_false by done.
  apply HQ. destruct Ha as [He ? ? ? ? ? L]; constructor; cbn; auto.
  - unfold hasEOF in *. rewrite E in He. by apply Exists_cons in He as [?|?].
  - rewrite E in L. cbn in L. destruct b; cbn in *; lia.
Qed.

Lemma safe_check (Q : bool -> parser -> Prop) tt p :
  hasEOF p ->
  (forall t rest, tokens p = t :: rest -> Q (bool_decide (Type_ t = tt)) p) -> safe Q (check tt p).
Proof. intros He HQ. apply safe_bind, safe_peek; [done|]. intros t rest E. by eapply HQ. Qed.

Lemma safe_accept (Q : option Token -> parser -> Prop) tt b p0 p :
  adv b p0 p -> tt <> TOKEN_EOF ->
  (forall t p', adv true p0 p' -> Q (Some t) p') -> Q None p -> safe Q (accept tt p).
Proof.
  intros Ha Htt HS HN. apply safe_bind, safe_check; [apply Ha|]. intros t rest E.
  case_bool_decide as Ht; [|done]. apply safe_bind.
  eapply safe_advance_tok; [done | done | congruence | intros; by apply HS].
Qed.

Lemma safe_expect (Q : Token -> parser -> Prop) tt ctx b p0 p :
  adv b p0 p -> tt <> TOKEN_EOF ->
  (forall t p', adv true p0 p' -> Q t p') -> safe Q (expect tt ctx p).
Proof.
  intros Ha Htt HQ. apply safe_bind, safe_peek; [apply Ha|]. intros t rest E.
  case_bool_decide as Ht; [eapply safe_advance_tok; [done | done | congruence | done] |].
  by destruct (_ && _).
Qed.

Lemma safe_keyword (Q : Token -> parser -> Prop) tt b p0 p :
  adv b p0 p -> tt <> TOKEN_EOF ->
  (forall t p', adv b p0 p' -> Q t p') -> safe Q (keyword tt p).
Proof.
  intros Ha Htt HQ. apply safe_bind. eapply safe_accept; [done | done | |].
  - intros t p' Hp. cbn. apply HQ. destruct b; [done | by eapply adv_weaken].
  - cbn. by apply HQ.
Qed.

(** A keyword its caller has seen. *)
Lemma safe_keyword_tok (Q : Token -> parser -> Prop) tt b p0 p t rest :
  adv b p0 p -> tokens p = t :: rest -> Type_ t = tt -> tt <> TOKEN_EOF ->
  (forall t p', adv true p0 p' -> Q t p') -> safe Q (keyword tt p).
Proof.
  intros Ha E Ht Htt HQ. apply safe_bind, safe_bind, safe_check; [apply Ha|].
  intros u rest' E'. rewrite E in E'. injection E' as <- <-. rewrite bool_decide_true by done.
  apply safe_bind. eapply safe_advance_tok; [done | done | congruence |]. intros. by apply HQ.
Qed.

Lemma safe_expectFieldName (Q : Token -> parser -> Prop) ctx b p0 p :
  adv b p0 p -> (forall t p', adv b p0 p' -> Q t p') -> safe Q (expectFieldName ctx p).
Proof.
  intros Ha HQ. apply safe_bind, safe_peek; [apply Ha|]. intros t rest E.
  destruct (isPostDotName t); [by eapply safe_advance | done].
Qed.

Lemma safe_postDotName (Q : Token -> parser -> Prop) ctx b p0 p :
  adv b p0 p -> (forall t p', adv b p0 p' -> Q t p') -> safe Q (postDotName ctx p).
Proof.
  intros Ha HQ. apply safe_bind, safe_peek; [apply Ha|]. intros t rest E.
  destruct (isPostDotName t); [by eapply safe_advance|].
  eapply safe_expect; [done | done |]. intros u p' Hp. apply HQ.
  destruct b; [done | by eapply adv_weaken].
Qed.

Lemma safe_noUnderscore (Q : unit -> parser -> Prop) t fmt p :
  Q tt p -> safe Q (noUnderscore t fmt p).
Proof. unfold noUnderscore. by destruct (containsUnderscore _). Qed.

(** A bracketed computation with struct literals allowed. *)
Lemma safe_allow {A} (Q : A -> parser -> Prop) (c : P A) b b' p0 p :
  adv b p0 p ->
  (adv b (setNoStructLit false p0) (setNoStructLit false p) ->
   safe (fun a p' => adv b' (setNoStructLit false p0) p' /\ forall p'', adv b' p0 p'' -> Q a p'')
     (c (setNoStructLit false p))) ->
  safe Q (allowStructLit c p).
Proof.
  intros Ha Hc. apply safe_bind, safe_get, safe_bind, safe_mod, safe_bind.
  eapply safe_mono; [|by apply Hc, adv_setLit]. intros a p' [Hp HQ].
  apply safe_bind, safe_mod, safe_ret, HQ. rewrite (adv_lit _ _ _ Ha). by eapply adv_unsetLit.
Qed.

(** ** Weights *)

Section Body.
Context `{Limits}.
Variables (rec : PRec) (fuel : Z).

Definition weight (p : parser) : Z :=
  (MaxNestingDepth - exprDepth p + 1) * (MaxTokens + 1) + Z.of_nat (length (tokens p)).

(** A state in which a nested call is affordable. *)
Record pre (p : parser) : Prop := {
  pre_eof : hasEOF p;
  pre_seed : seed p = None;
  pre_depth : exprDepth p <= MaxNestingDepth;
  pre_weight : weight p < fuel
}.

(** From [p0] on such states are reached at once, or after a token. *)
Definition ready (b : bool) (p0 : parser) : Prop :=
  exprDepth p0 <= MaxNestingDepth /\ weight p0 < fuel + Z.b2z b.

Lemma adv_pre b p0 p : adv b p0 p -> ready b p0 -> pre p.
Proof.
  intros [? ? E ? ? ? L] [D W]. constructor; auto; [lia|].
  unfold weight in *. rewrite E. destruct b; cbn in *; lia.
Qed.

Lemma adv_ready b p0 p : adv b p0 p -> ready true p0 -> ready true p.
Proof.
  intros [? ? E ? ? ? L] [D W]. split; [lia|].
  unfold weight in *. rewrite E. destruct b; cbn in *; lia.
Qed.

Lemma ready_weaken b p : ready false p -> ready b p.
Proof. intros [??]; split; [done|]. destruct b; cbn in *; lia. Qed.

Lemma pre_ready p b : pre p -> ready b p.
Proof. intros []; apply ready_weaken. split; [done | cbn; lia]. Qed.

Lemma pre_refl p : pre p -> adv false p p.
Proof. intros []; by apply adv_refl. Qed.

(** A deeper state is worth at least one stream less. *)
Lemma weight_deepen p d :
  exprDepth p < d -> weight (setExprDepth d p) + (MaxTokens + 1) <= weight p.
Proof. intros. unfold weight; cbn. pose proof MaxTokens_pos. nia. Qed.

Lemma ready_setLit b v p : ready b p -> ready b (setNoStructLit v p).
Proof. done. Qed.
Lemma ready_setStmt b v p : ready b p -> ready b (setStmtDepth v p).
Proof. done. Qed.
Lemma ready_setType b v p : ready b p -> ready b (setTypeDepth v p).
Proof. done. Qed.
Lemma ready_setExpr b c d p :
  ready b p -> exprDepth p < d <= MaxNestingDepth -> ready c (setExprDepth d p).
Proof.
  intros [D W] Hd. split; [cbn; lia|]. pose proof (weight_deepen p d). pose proof MaxTokens_pos.
  destruct b, c; cbn in *; lia.
Qed.

Definition callable {A} (b : bool) (c : P A) : Prop :=
  forall p, pre p -> safe (fun _ p' => adv b p p') (c p).

(** A loop that is given more turns than there are tokens. *)
Definition loopsAt {A} (b : bool) (n : nat) (c : P A) : Prop :=
  forall p, (length (tokens p) < n)%nat -> pre p -> safe (fun _ p' => adv b p p') (c p).

Lemma loops_callable {A} b (c : nat -> P A) : (forall n, loopsAt b n (c n)) -> callable b (looping c).
Proof. intros Hc p Hp. apply Hc; [lia | done]. Qed.

Lemma safe_call {A} (Q : A -> parser -> Prop) (c : P A) b b' p0 p :
  callable b' c -> adv b p0 p -> ready b p0 ->
  (forall a p', adv (b || b') p0 p' -> Q a p') -> safe Q (c p).
Proof.
  intros Hc Ha Hr HQ. eapply safe_mono; [|by eapply Hc, adv_pre].
  intros a p' Hp. by eapply HQ, adv_trans.
Qed.

(** The next turn of a loop. *)
Lemma safe_next {A} (Q : A -> parser -> Prop) (c : P A) b' n p0 p :
  loopsAt b' n c -> adv true p0 p -> ready true p0 -> (length (tokens p0) < S n)%nat ->
  (forall a p', adv true p0 p' -> Q a p') -> safe Q (c p).
Proof.
  intros Hc Ha Hr Hn HQ. eapply safe_mono; [|eapply Hc; [|by eapply adv_pre]].
  - intros a p' Hp. eapply HQ, (adv_trans true b'); done.
  - destruct Ha. cbn in *. lia.
Qed.

(** A function of the ladder runs where a nested call is affordable after one token; with
    a seed pending it may consume nothing. *)
Definition entry {A} (c : P A) : Prop :=
  forall p, hasEOF p -> ready true p ->
    safe (fun _ p' => adv (bool_decide (seed p = None)) p p') (c p).

Lemma entry_callable {A} (c : P A) : entry c -> callable true c.
Proof.
  intros Hc p Hp. eapply safe_mono; [|apply Hc; [apply Hp | by apply pre_ready]].
  intros a p'. by rewrite bool_decide_true by apply Hp.
Qed.

Lemma safe_entry {A} (Q : A -> parser -> Prop) (c : P A) b p0 p :
  entry c -> adv b p0 p -> ready true p0 ->
  (forall a p', adv true p0 p' -> Q a p') -> safe Q (c p).
Proof.
  intros Hc Ha Hr HQ. eapply safe_mono; [|apply Hc; [apply Ha|]].
  - intros a p'. rewrite bool_decide_true by apply Ha. intros Hp. apply HQ.
    rewrite <- (orb_true_r b). by eapply adv_trans.
  - by eapply adv_ready.
Qed.

(** The same without a seed. *)
Definition entry0 {A} (c : P A) : Prop :=
  forall p, hasEOF p -> seed p = None -> ready true p -> safe (fun _ p' => adv true p p') (c p).

(** A function called at a token its caller has seen. *)
Definition entryTok {A} (c : P A) : Prop :=
  forall p t rest, hasEOF p -> seed p = None -> tokens p = t :: rest -> Type_ t <> TOKEN_EOF ->
    ready true p -> safe (fun _ p' => adv true p p') (c p).

Lemma safe_entryTok {A} (Q : A -> parser -> Prop) (c : P A) b p0 p t rest :
  entryTok c -> adv b p0 p -> tokens p = t :: rest -> Type_ t <> TOKEN_EOF -> ready true p0 ->
  (forall a p', adv true p0 p' -> Q a p') -> safe Q (c p).
Proof.
  intros Hc Ha E Ht Hr HQ.
  eapply safe_mono; [|eapply Hc; [apply Ha | apply Ha | done | done | by eapply adv_ready]].
  intros a p' Hp. apply HQ. rewrite <- (orb_true_r b). by eapply adv_trans.
Qed.

(** What the nested calls do. *)
Hypothesis Hexpr : forall p,
  hasEOF p -> seed p = None -> exprDepth p <= MaxNestingDepth ->
  weight p < fuel + (MaxTokens + 1) -> safe (fun _ p' => adv true p p') (r_expr rec p).
Hypothesis Hor : callable true (r_or rec).
Hypothesis Hnot : callable true (r_not rec).
Hypothesis Hunary : callable true (r_unary rec).
Hypothesis Htype : callable true (r_type rec).
Hypothesis Hblock : callable true (r_block rec).

Lemma r_expr_callable : callable true (r_expr rec).
Proof. intros p [? ? ? ?]. apply Hexpr; auto. pose proof MaxTokens_pos. lia. Qed.

Create HintDb parse.
#[local] Hint Resolve r_expr_callable Hor Hnot Hunary Htype Hblock : parse.
#[local] Hint Resolve loops_callable entry_callable : parse.
#[local] Hint Resolve ready_weaken pre_ready ready_setLit : parse.

(** One step of the program logic; the states reached are tracked by [adv] hypotheses. *)
Ltac ptoken :=
  lazymatch goal with
  | |- safe _ (peek _) => eapply safe_peek; [by eapply adv_eof | intros ? ? ?]
  | |- safe _ (check _ _) => eapply safe_check; [by eapply adv_eof | intros ? ? ?]
  | |- safe _ (keyword _ _) =>
      first [ eapply safe_keyword_tok; [eassumption | eassumption | eassumption | discriminate
                                       | intros ? ? ?]
            | eapply safe_keyword; [eassumption | discriminate | intros ? ? ?] ]
  | |- safe _ (expect _ _ _) => eapply safe_expect; [eassumption | discriminate | intros ? ? ?]
  | |- safe _ (accept _ _) =>
      eapply safe_accept; [eassumption | discriminate | intros ? ? ? |]
  | |- safe _ (expectFieldName _ _) => eapply safe_expectFieldName; [eassumption | intros ? ? ?]
  | |- safe _ (postDotName _ _) => eapply safe_postDotName; [eassumption | intros ? ? ?]
  | |- safe _ (noUnderscore _ _ _) => apply safe_noUnderscore
  | |- safe _ (advance _) =>
      first [ eapply safe_advance_tok; [eassumption | eassumption | congruence | intros ? ? ?]
            | eapply safe_advance; [eassumption | intros ? ? ?] ]
  | |- safe _ (peekN 1 _) =>
      eapply safe_peekN1; [by eapply adv_eof | eassumption | congruence | intros ? ? ?]
  end.

(** Facts of a test that came out true. *)
Ltac ptest :=
  repeat match goal with
  | E : _ && _ = true |- _ => apply andb_true_iff in E as [? ?]
  | E : bool_decide _ = true |- _ => apply bool_decide_eq_true in E
  | E : negb _ = true |- _ => apply negb_true_iff in E
  | E : negb _ = false |- _ => apply negb_false_iff in E
  end.

Ltac pstep :=
  lazymatch goal with
  | |- safe _ (pbind _ _ _) => apply safe_bind
  | |- safe _ (pret _ _) => apply safe_ret
  | |- safe _ (pget _) => apply safe_get
  | |- safe _ (pmod _ _) => apply safe_mod
  | |- safe _ (perr _ _ _ _) => exact I
  | |- safe _ (perrPos _ _ _ _) => exact I
  | |- safe _ ((if bool_decide _ then _ else _) _) => case_bool_decide
  | |- safe _ ((if negb (bool_decide _) then _ else _) _) => case_bool_decide; cbn [negb]
  | |- safe _ ((match ?x with _ => _ end) _) => destruct x eqn:?; ptest
  | |- safe _ (match ?x with _ => _ end) => destruct x eqn:?; ptest
  | |- safe _ (let '_ := ?x in _) => destruct x eqn:?; ptest
  | |- _ => first
      [ ptoken
      | eapply safe_call; [solve [eauto with parse] | eassumption | solve [eauto with parse]
                          | cbn [orb]; intros ? ? ?]
      | eapply safe_entry; [solve [eauto with parse] | eassumption | solve [eauto with parse]
                           | intros ? ? ?]
      | eapply safe_entryTok; [solve [eauto with parse] | eassumption | eassumption | congruence
                              | solve [eauto with parse] | intros ? ? ?]
      | eapply safe_next; [solve [eauto] | eassumption | solve [eauto with parse] | eassumption
                          | intros ? ? ?] ]
  end.

Ltac padv := first [eassumption | by eapply adv_weaken].
Ltac pauto := repeat pstep; try padv.

(** Start of a proof that a function is callable. *)
Ltac pstart :=
  intros p Hp; pose proof (pre_refl p Hp); pose proof (pre_ready p false Hp).

Lemma parseType_entry : entry0 (parseType rec).
Proof.
  intros p He Hs Hr. assert (adv false p p) as H0 by (by apply adv_refl). unfold parseType. pstep. ptoken. do 3 pstep; [exact I|]. do 3 pstep.
  apply safe_mono with (fun _ p' => adv true (setTypeDepth (typeDepth p + 1) p) p').
  { intros a p' Ha. do 3 pstep. by eapply adv_unsetType. }
  pose proof (adv_setType _ (typeDepth p + 1) _ _ H0) as Ha.
  assert (ready true (setTypeDepth (typeDepth p + 1) p)) by done.
  cbn zeta. pauto.
Qed.

(** ** Expressions *)

(** A struct-literal bracket: its states are tracked from a copy of the start. *)
Ltac pallow :=
  lazymatch goal with
  | Ha : adv ?b ?p0 ?p |- safe _ (allowStructLit _ ?p) =>
      eapply (safe_allow _ _ b true p0 p Ha); intros ?;
      assert (ready b (setNoStructLit false p0)) by eauto with parse;
      assert (ready true (setNoStructLit false p0)) by eauto with parse;
      apply safe_mono with (fun _ p' => adv true (setNoStructLit false p0) p');
      [ intros ? ? ?; split; [eassumption | intros ? ?] |]
  end.

(** The turns of a loop, by induction on their bound. *)
Ltac pturn :=
  intros p Hn Hp; pose proof (pre_refl p Hp); pose proof (pre_ready p false Hp).

Lemma argsLoop_loops n args : loopsAt true n (argsLoop rec n args).
Proof. revert args; induction n as [|n IH]; intros args; pturn; [lia|]. cbn [argsLoop]. pauto. Qed.
Lemma elemsLoop_loops n elems : loopsAt false n (elemsLoop rec n elems).
Proof. revert elems; induction n as [|n IH]; intros elems; pturn; [lia|]. cbn [elemsLoop]. pauto. Qed.
Lemma entriesLoop_loops n kvs : loopsAt false n (entriesLoop rec n kvs).
Proof. revert kvs; induction n as [|n IH]; intros kvs; pturn; [lia|]. cbn [entriesLoop]. pauto. Qed.
Lemma litFieldsLoop_loops n seen fs : loopsAt true n (litFieldsLoop rec n seen fs).
Proof.
  revert seen fs; induction n as [|n IH]; intros seen fs; pturn; [lia|]. cbn [litFieldsLoop]. pauto.
Qed.
#[local] Hint Resolve argsLoop_loops elemsLoop_loops entriesLoop_loops litFieldsLoop_loops : parse.

(** Start of a proof about a function called at a token that was seen. *)
Ltac ptok :=
  intros p ? ? ? ? Et ? ?; assert (adv false p p) by (by apply adv_refl).

Lemma parseArgs_entry close : entryTok (parseArgs rec close).
Proof.
  ptok. unfold parseArgs. do 2 pstep. pallow; pauto.
Qed.
Lemma parseStructLitTail_entry : entryTok (parseStructLitTail rec).
Proof. ptok. unfold parseStructLitTail. do 2 pstep. pallow; pauto. Qed.
Lemma parseListLit_entry p t rest :
  hasEOF p -> seed p = None -> tokens p = t :: rest -> Type_ t = TOKEN_LBRACKET -> ready true p ->
  safe (fun _ p' => adv true p p') (parseListLit rec p).
Proof.
  intros ? ? Et ? ?; assert (adv false p p) by (by apply adv_refl).
  unfold parseListLit. do 2 pstep. pallow; pauto.
Qed.
Lemma parseMapLit_entry p t rest :
  hasEOF p -> seed p = None -> tokens p = t :: rest -> Type_ t = TOKEN_LBRACE -> ready true p ->
  safe (fun _ p' => adv true p p') (parseMapLit rec p).
Proof.
  intros ? ? Et ? ?; assert (adv false p p) by (by apply adv_refl).
  unfold parseMapLit. do 2 pstep. pallow; pauto.
Qed.
#[local] Hint Resolve parseArgs_entry parseStructLitTail_entry : parse.

Lemma parseBracketSuffix_entry target : entryTok (parseBracketSuffix rec target).
Proof. ptok. unfold parseBracketSuffix. do 4 pstep. pallow; pauto. Qed.
Lemma parseFieldSuffix_entry e : entryTok (parseFieldSuffix e).
Proof. ptok. unfold parseFieldSuffix. pauto. Qed.
#[local] Hint Resolve parseBracketSuffix_entry parseFieldSuffix_entry : parse.

Lemma parseCallTail_entry callee : entryTok (parseCallTail rec callee).
Proof. ptok. unfold parseCallTail, parseParenArgs. pauto. Qed.
Lemma parseQualifiedTail_entry prefix : entryTok (parseQualifiedTail rec prefix).
Proof. ptok. unfold parseQualifiedTail. cbn zeta. pauto. Qed.
#[local] Hint Resolve parseCallTail_entry parseQualifiedTail_entry : parse.

(** *** Interpolated strings *)

Lemma stripTrivia_length toks : (length (stripTrivia toks) <= length toks)%nat.
Proof. unfold stripTrivia. apply length_filter. Qed.

Lemma stripTrivia_eof toks :
  Exists (fun t => Type_ t = TOKEN_EOF) toks ->
  Exists (fun t => Type_ t = TOKEN_EOF) (stripTrivia toks).
Proof.
  rewrite !Exists_exists. intros (t & Hin & Ht). exists t. split; [|done].
  apply list_elem_of_filter. split; [by rewrite Ht | done].
Qed.

Lemma stream_hasEOF s ln cl o ts :
  stream s ln cl o ts -> Exists (fun t => Type_ t = TOKEN_EOF) ts.
Proof. induction 1; [by constructor | by constructor 2]. Qed.

(** A slot is parsed in a state of its own; the state around it does not change. *)
Lemma safe_slot (Q : Expr * Z -> parser -> Prop) t sp budget p :
  ready true p -> (forall r, Q r p) -> safe Q (parseSlot rec t sp budget p).
Proof.
  intros Hr HQ. unfold parseSlot. cbn zeta. destruct (blank _); [done|].
  destruct (_ <? 0); [done|].
  pose proof (TokenizeAt_spec (Text sp) (File t) (PartLine sp) (PartCol sp)) as HT.
  destruct (TokenizeAt _ _ _ _) as [toks l| |]; [|done|done].
  destruct HT as (Hs & _ & _ & Hlen). apply stream_hasEOF, stripTrivia_eof in Hs.
  set (sub := mkParser _ _ _ _ _ _ _).
  assert (adv false sub sub) by (by apply adv_refl).
  match goal with |- context [pbind ?c ?k sub] => enough (safe (fun _ _ => True) (pbind c k sub)) as Hsub end.
  { destruct (pbind _ _ sub); try done. apply HQ. }
  apply safe_bind. eapply safe_mono; [|apply Hexpr; [done | done | apply Hr |]].
  { intros e p1 Hp. cbn beta in Hp. by pauto. }
  destruct Hr as [_ W]. unfold weight in *. cbn. pose proof (stripTrivia_length toks).
  cbn in W. lia.
Qed.

Lemma safe_parts (Q : list (string * option Expr) * Z -> parser -> Prop) t parts budget out p :
  ready true p -> (forall r, Q r p) -> safe Q (partsLoop rec t parts budget out p).
Proof.
  intros Hr HQ. revert budget out. induction parts as [|sp parts IH]; intros budget out; cbn [partsLoop].
  - apply safe_ret, HQ.
  - destruct (IsExpr sp); cbn [negb]; [|done]. apply safe_bind, safe_slot; [done|]. intros r. apply IH.
Qed.

Lemma safe_buildInterpString (Q : Expr -> parser -> Prop) t b p0 p :
  adv b p0 p -> ready true p0 -> (forall e p', adv b p0 p' -> Q e p') ->
  safe Q (buildInterpString rec t p).
Proof.
  intros Ha Hr HQ. unfold buildInterpString. apply safe_bind, safe_get, safe_bind, safe_parts.
  { by eapply adv_ready. }
  intros r. apply safe_bind. destruct (sublexBudget p).
  - apply safe_mod, safe_ret, HQ. by apply adv_setBudget.
  - apply safe_ret, safe_ret. by apply HQ.
Qed.

(** *** Atoms and suffixes *)

Lemma identAtom_entry t : entryTok (identAtom rec t).
Proof. ptok. unfold identAtom. pauto. Qed.
Lemma taskAtom_entry t : entryTok (taskAtom rec t).
Proof. ptok. unfold taskAtom. pauto. Qed.
#[local] Hint Resolve identAtom_entry taskAtom_entry : parse.

Lemma parsePrimaryAtom_entry : entry (parsePrimaryAtom rec).
Proof.
  intros p He Hr. unfold parsePrimaryAtom. apply safe_bind, safe_get.
  destruct (seed p) as [s|] eqn:Es.
  { do 3 pstep. rewrite bool_decide_false by done. constructor; cbn; try done. lia. }
  rewrite bool_decide_true by done. assert (adv false p p) by (by apply adv_refl).
  apply safe_bind, safe_peek; [done|]. intros t rest Et.
  destruct (Type_ t) eqn:Ht.
  all: try by pauto.
  all: try (unfold typeKeywordError; by pauto).
  - do 2 pstep. by eapply safe_buildInterpString.
  - by eapply parseMapLit_entry.
  - do 3 pstep. pallow; pauto.
  - by eapply parseListLit_entry.
Qed.

(** The loops that start without a token: [b] says whether one was consumed. *)
Lemma safe_suffixLoop (Q : Expr -> parser -> Prop) n e b p0 p :
  adv b p0 p -> ready true p0 -> (length (tokens p) < n)%nat ->
  (forall e p', adv b p0 p' -> Q e p') -> safe Q (suffixLoop rec n e p).
Proof.
  intros Ha Hr Hn HQ. revert e p Ha Hn. induction n as [|n IH]; intros e p Ha Hn; [lia|].
  assert (adv false p p) by (apply adv_refl; apply Ha).
  assert (ready true p) by exact (adv_ready _ _ _ Ha Hr).
  assert (forall p', adv true p p' -> forall e, safe Q (suffixLoop rec n e p')) as Hnext.
  { intros p' Hp' e'. apply IH; [|destruct Hp'; cbn in *; lia].
    rewrite <- (orb_false_r b). eapply adv_trans; [done | by eapply adv_weaken]. }
  cbn [suffixLoop]. unfold parseParenArgs. pauto; auto.
Qed.

Lemma parsePrimary_entry : entry (parsePrimary rec).
Proof.
  intros p He Hr. unfold parsePrimary. apply safe_bind.
  eapply safe_mono; [|by apply parsePrimaryAtom_entry]. intros e p' Hp. cbn beta in Hp.
  eapply safe_suffixLoop; eauto.
Qed.
#[local] Hint Resolve parsePrimary_entry : parse.

(** ** The ladder *)

(** One charged level around a nested call. *)
Lemma safe_deeper {A} (Q : A -> parser -> Prop) (c : P A) p0 p :
  callable true c -> adv true p0 p -> ready true p0 ->
  (forall a p', adv true p0 p' -> Q a p') -> safe Q (deeperExpr c p).
Proof.
  intros Hc Ha Hr HQ. unfold deeperExpr, deepenExpr, nestingError.
  do 3 pstep. destruct (_ <=? _) eqn:E; [by repeat pstep|]. do 2 pstep.
  eapply safe_call; [done | by apply adv_setExpr | | cbn [orb]; intros a p' Hp].
  { apply (ready_setExpr true); [done|]. destruct Ha, Hr. lia. }
  do 5 pstep. apply HQ. destruct Ha as [? ? E' ? ? ? ?], Hp as [? ? Ed ? ? ? ?].
  constructor; cbn in *; try congruence; try lia. done.
Qed.

Lemma safe_prefixed (Q : Expr -> parser -> Prop) t op c p0 p :
  callable true c -> adv true p0 p -> ready true p0 ->
  (forall a p', adv true p0 p' -> Q a p') -> safe Q (prefixed t op c p).
Proof.
  intros Hc Ha Hr HQ. apply safe_bind. eapply safe_deeper; eauto. intros. by apply safe_ret, HQ.
Qed.

Lemma parseUnaryMinus_entry : entry (parseUnaryMinus rec).
Proof.
  intros p He Hr. unfold parseUnaryMinus. apply safe_bind, safe_get.
  destruct (seed p) as [s|] eqn:Es.
  { pose proof (parsePrimary_entry p He Hr) as Hp. by rewrite Es in Hp. }
  rewrite bool_decide_true by done. assert (adv false p p) by (by apply adv_refl).
  unfold foldMostNegativeInt. pauto.
  all: try (eapply safe_prefixed; eauto with parse).
Qed.

(** A rung over an [entry]: the loop charges one level per operator, and the rung gives
    them back. *)
Lemma safe_binLoop (Q : Expr -> parser -> Prop) n ops next lhs b p0 p :
  entry next -> (forall ty op, ops ty = Some op -> ty <> TOKEN_EOF) ->
  adv b p0 p -> ready true p0 -> (length (tokens p) < n)%nat ->
  (forall d e p', adv b (setExprDepth d p0) p' -> Q e p') -> safe Q (binLoop n ops next lhs p).
Proof.
  intros Hn Hops Ha Hr Hl HQ. revert lhs p0 p Ha Hr Hl HQ.
  induction n as [|n IH]; intros lhs p0 p Ha Hr Hl HQ; [lia|].
  cbn [binLoop]. do 2 pstep. destruct (ops (Type_ t)) as [op|] eqn:Eo.
  2: { apply safe_ret, (HQ (exprDepth p0)). by destruct p0. }
  apply Hops in Eo. unfold deepenExpr, nestingError. do 3 pstep.
  destruct (_ <=? _) eqn:E; [by repeat pstep|]. apply Z.leb_gt in E. do 2 pstep.
  set (d := exprDepth p + 1) in *.
  assert (exprDepth p0 < d <= MaxNestingDepth) as Hd by (destruct Ha; lia).
  assert (adv false (setExprDepth d p) (setExprDepth d p)) by (apply adv_refl; apply Ha).
  assert (ready true (setExprDepth d p)) as Hrd.
  { apply (ready_setExpr true); [by eapply adv_ready | destruct Ha; lia]. }
  eapply safe_advance_tok; [done | done | done |]. intros t1 p1 Hp1. pstep.
  eapply safe_entry; [done | done | done |]. intros rhs p2 Hp2.
  apply (IH _ (setExprDepth d p0)).
  - rewrite <- (orb_false_r b). eapply adv_trans; [by apply adv_setExpr | by eapply adv_weaken].
  - by apply (ready_setExpr true).
  - destruct Hp2; cbn in *; lia.
  - intros d' e p' Hp'. by eapply (HQ d').
Qed.

Lemma rung_entry ops next :
  (forall ty op, ops ty = Some op -> ty <> TOKEN_EOF) -> entry next -> entry (rung ops next).
Proof.
  intros Hops Hn p He Hr. unfold rung. apply safe_bind.
  eapply safe_mono; [|by apply Hn]. intros lhs p1 Hp1. cbn beta in Hp1.
  do 3 pstep. eapply safe_binLoop; [done | done | done | done | lia |].
  intros d e p2 Hp2. do 3 pstep. rewrite (adv_expr _ _ _ Hp1). by eapply adv_unsetExpr.
Qed.

Lemma parseMul_entry : entry (parseMul rec).
Proof. apply rung_entry, parseUnaryMinus_entry. by intros []. Qed.
Lemma parseComparison_entry : entry (parseComparison rec).
Proof.
  repeat (apply rung_entry; [by intros []|]). exact parseUnaryMinus_entry.
Qed.

Lemma parseNot_entry : entry (parseNot rec).
Proof.
  intros p He Hr. unfold parseNot. apply safe_bind, safe_get.
  pose proof (parseComparison_entry p He Hr) as Hc.
  destruct (seed p) as [s|] eqn:Es; [done|].
  assert (adv false p p) by (by apply adv_refl).
  do 2 pstep; [|done]. rewrite bool_decide_true by done. eapply safe_prefixed; eauto with parse.
Qed.

Lemma parseOr_entry : entry (parseOr rec).
Proof. repeat (apply rung_entry; [by intros []|]). exact parseNot_entry. Qed.

Lemma parseRange_entry : entry (parseRange rec).
Proof.
  intros p He Hr. pose proof (parseOr_entry p He Hr) as Ho. revert Ho.
  generalize (bool_decide (seed p = None)) as b. intros b Ho. unfold parseRange. apply safe_bind.
  eapply safe_mono; [|exact Ho]. intros lo p1 Hp1. cbn beta in Hp1.
  do 3 pstep; [|by pstep]. do 2 pstep. pstep.
  eapply safe_entry; [exact parseOr_entry | done | done |]. intros hi p2 Hp2.
  pauto. destruct b; [done | by eapply adv_weaken].
Qed.

Lemma parseExpr_entry p :
  hasEOF p -> exprDepth p <= MaxNestingDepth -> weight p < fuel + (MaxTokens + 1) + 1 ->
  safe (fun _ p' => adv (bool_decide (seed p = None)) p p') (parseExpr rec p).
Proof.
  intros He Hd Hw. unfold parseExpr, nestingError. do 2 pstep. destruct (_ <=? _) eqn:E.
  { apply safe_bind, safe_peek; done. }
  apply Z.leb_gt in E. do 3 pstep. set (p1 := setExprDepth (exprDepth p + 1) p).
  eapply safe_mono; [|apply (parseRange_entry p1); [done|]].
  - intros e p2 Hp2. do 5 pstep. rewrite (adv_expr _ _ _ Hp2). cbn.
    replace (exprDepth p + 1 - 1) with (exprDepth p) by lia. exact (adv_unsetExpr _ _ _ _ Hp2).
  - split; [cbn; lia|]. pose proof (weight_deepen p (exprDepth p + 1) ltac:(lia)) as Hwd. fold p1 in Hwd.
    cbn [Z.b2z]. lia.
Qed.

(** Continuing an expression from a primary that is already there. *)
Lemma safe_parseExprFrom (Q : Expr -> parser -> Prop) primary b p0 p :
  adv b p0 p -> ready true p0 -> (forall e p', adv b p0 p' -> Q e p') ->
  safe Q (parseExprFrom rec primary p).
Proof.
  intros Ha Hr HQ. unfold parseExprFrom. do 2 pstep.
  pose proof (adv_ready _ _ _ Ha Hr) as [D W].
  eapply safe_mono; [|apply parseExpr_entry; [apply Ha | exact D |]].
  - intros e p' Hp. apply HQ. rewrite <- (orb_false_r b). eapply adv_trans; [done|].
    cbn in Hp. destruct Hp; by constructor.
  - pose proof MaxTokens_pos. unfold weight in *. cbn in *. lia.
Qed.

(** ** Statements *)

Lemma skip_callable ty ctx : ty <> TOKEN_EOF -> callable true (skip ty ctx).
Proof. intros Ht. pstart. unfold skip. pstep. eapply safe_expect; [done | done |]. by intros. Qed.
#[local] Hint Extern 1 (callable _ (skip _ _)) => apply skip_callable; discriminate : parse.

Lemma parseDefineLike_callable : callable true (parseDefineLike rec).
Proof. pstart. unfold parseDefineLike, dollarName, parseConstTail, parseVarTail. pauto. Qed.
Lemma optionalExpr_callable : callable false (optionalExpr rec).
Proof. pstart. unfold optionalExpr. pauto. Qed.
#[local] Hint Resolve parseDefineLike_callable optionalExpr_callable : parse.

Lemma parseReturn_callable : callable true (parseReturn rec).
Proof. pstart. unfold parseReturn. pauto. Qed.
Lemma parseBreak_callable : callable true parseBreak.
Proof. pstart. unfold parseBreak. pauto. Qed.
Lemma parseContinue_callable : callable true parseContinue.
Proof. pstart. unfold parseContinue. pauto. Qed.
Lemma parseRepeat_callable : callable true (parseRepeat rec).
Proof. pstart. unfold parseRepeat. pauto. Qed.
Lemma parseExit_callable : callable true (parseExit rec).
Proof. pstart. unfold parseExit. pauto. Qed.
Lemma parseTry_callable : callable true (parseTry rec).
Proof. pstart. unfold parseTry. pauto. Qed.
Lemma parseThrow_callable : callable true (parseThrow rec).
Proof. pstart. unfold parseThrow. pauto. Qed.
Lemma parseDefer_callable : callable true (parseDefer rec).
Proof. pstart. unfold parseDefer. cbn zeta. pauto. Qed.
#[local] Hint Resolve parseReturn_callable parseBreak_callable parseContinue_callable
  parseRepeat_callable parseExit_callable parseTry_callable parseThrow_callable
  parseDefer_callable : parse.

Lemma parseAssign_callable semi : callable true (parseAssign rec semi).
Proof. pstart. unfold parseAssign. pauto. Qed.
Lemma parseAppend_callable vref target : callable true (parseAppend rec vref target).
Proof. pstart. unfold parseAppend. pauto. Qed.
Lemma lvalueLoop_loops n target : loopsAt false n (lvalueLoop rec n target).
Proof.
  revert target; induction n as [|n IH]; intros target; pturn; [lia|]. cbn [lvalueLoop]. pauto.
Qed.
#[local] Hint Resolve parseAssign_callable parseAppend_callable lvalueLoop_loops : parse.

Lemma tryParseIndexAssign_callable : callable true (tryParseIndexAssign rec).
Proof.
  pstart. unfold tryParseIndexAssign, assignTo. pauto. all: try exact I.
  eapply safe_parseExprFrom; [eassumption | eauto with parse |]. intros ? p2 Hp2. pauto.
Qed.

Lemma parseParenCond_callable ctx : callable true (parseParenCond rec ctx).
Proof. pstart. unfold parseParenCond. pauto. Qed.
#[local] Hint Resolve tryParseIndexAssign_callable parseParenCond_callable : parse.

Lemma elseIfLoop_loops n arms : loopsAt false n (elseIfLoop rec n arms).
Proof.
  revert arms; induction n as [|n IH]; intros arms; pturn; [lia|]. cbn [elseIfLoop]. pauto.
Qed.
#[local] Hint Resolve elseIfLoop_loops : parse.
Lemma parseIf_callable : callable true (parseIf rec).
Proof. pstart. unfold parseIf. pauto. Qed.
Lemma parseWhile_callable : callable true (parseWhile rec).
Proof. pstart. unfold parseWhile. pauto. Qed.
#[local] Hint Resolve parseIf_callable parseWhile_callable : parse.

Lemma whenLoop_loops n values : loopsAt false n (whenLoop rec n values).
Proof.
  revert values; induction n as [|n IH]; intros values; pturn; [lia|]. cbn [whenLoop]. pauto.
Qed.
#[local] Hint Resolve whenLoop_loops : parse.
Lemma whenValues_callable : callable true (whenValues rec).
Proof. pstart. unfold whenValues. pauto. Qed.
#[local] Hint Resolve whenValues_callable : parse.

Lemma parseWhen_callable : callable true (parseWhen rec).
Proof.
  pstart. unfold parseWhen. do 2 pstep. do 5 pstep.
  eapply safe_call; [exact whenValues_callable | by apply (adv_setLit _ true) | by eauto with parse |].
  cbn [orb]. intros values p2 Hp2. do 2 pstep.
  match goal with Ha : adv false p ?q |- _ => rewrite (adv_lit _ _ _ Ha) end.
  apply adv_unsetLit in Hp2. pauto.
Qed.
#[local] Hint Resolve parseWhen_callable : parse.

Lemma armsLoop_loops n arms els : loopsAt false n (armsLoop rec n arms els).
Proof.
  revert arms els; induction n as [|n IH]; intros arms els; pturn; [lia|]. cbn [armsLoop]. pauto.
Qed.
#[local] Hint Resolve armsLoop_loops : parse.
Lemma parseMatch_callable : callable true (parseMatch rec).
Proof. pstart. unfold parseMatch. pauto. Qed.

Lemma parseForEachTail_callable ft : callable true (parseForEachTail rec ft).
Proof. pstart. unfold parseForEachTail. pauto. Qed.
#[local] Hint Resolve parseMatch_callable parseForEachTail_callable : parse.

(** Looking ahead stops at the first token that does not match, so before the end. *)
Lemma safe_ahead (Q : bool -> parser -> Prop) n tts p :
  hasEOF p -> Forall (fun t => Type_ t <> TOKEN_EOF) (take n (tokens p)) ->
  Forall (fun ty => ty <> TOKEN_EOF) tts -> (forall b, Q b p) -> safe Q (ahead n tts p).
Proof.
  intros He Hn Ht HQ. revert n Hn. induction Ht as [|ty tts Hty _ IH]; intros n Hn; cbn [ahead].
  { by apply safe_ret. }
  apply safe_bind. unfold peekN. destruct (tokens p !! n) as [t|] eqn:E; cbn [safe].
  - unfold isType. case_bool_decide as Ey; [|by apply safe_ret]. apply IH.
    rewrite (take_S_r _ _ _ E). apply Forall_app. split; [done|]. constructor; [congruence | done].
  - apply lookup_ge_None in E. rewrite take_ge in Hn by done.
    unfold hasEOF in He. rewrite Exists_exists in He. destruct He as (t & Hin & Hte).
    rewrite Forall_forall in Hn. by destruct (Hn t Hin).
Qed.

Lemma ahead_callable tts : Forall (fun ty => ty <> TOKEN_EOF) tts -> callable false (ahead 0 tts).
Proof. intros Ht. pstart. apply safe_ahead; [apply Hp | by constructor | done | done]. Qed.
#[local] Hint Extern 1 (callable _ (ahead 0 _)) =>
  apply ahead_callable; repeat constructor; discriminate : parse.

Lemma forInit_callable : callable true (forInit rec).
Proof.
  pstart. unfold forInit, isType. pauto.
Qed.
Lemma forStep_callable : callable false (forStep rec).
Proof. pstart. unfold forStep. pauto. Qed.
#[local] Hint Resolve forInit_callable forStep_callable : parse.
Lemma parseFor_callable : callable true (parseFor rec).
Proof. pstart. unfold parseFor. pauto. Qed.

Lemma exprStatement_callable : callable true (exprStatement rec).
Proof. pstart. unfold exprStatement. pauto. Qed.
#[local] Hint Resolve parseFor_callable exprStatement_callable : parse.

Lemma parseStatement_callable : callable true (parseStatement rec).
Proof. pstart. unfold parseStatement, varStatement. pauto. Qed.
#[local] Hint Resolve parseStatement_callable : parse.

Lemma stmtsLoop_loops n stmts : loopsAt false n (stmtsLoop rec n stmts).
Proof.
  revert stmts; induction n as [|n IH]; intros stmts; pturn; [lia|]. cbn [stmtsLoop]. pauto.
Qed.
#[local] Hint Resolve stmtsLoop_loops : parse.

Lemma parseBlock_entry : entry0 (parseBlock rec).
Proof.
  intros p He Hs Hr. assert (adv false p p) by (by apply adv_refl). unfold parseBlock.
  do 4 pstep. destruct (_ <=? _); [done|]. do 3 pstep.
  assert (adv true p p') as Ha by done. rewrite (adv_stmt _ _ _ Ha).
  set (d := stmtDepth p + 1). apply (adv_setStmt _ d) in Ha.
  assert (ready true (setStmtDepth d p)) by done.
  do 6 pstep. eapply adv_unsetStmt. eassumption.
Qed.

(** ** Declarations and programs *)

Lemma asClause_callable ctx fmt : callable false (asClause ctx fmt).
Proof. pstart. unfold asClause. pauto. Qed.
Lemma importName_callable : callable true importName.
Proof. pstart. unfold importName. pauto. Qed.
#[local] Hint Resolve asClause_callable importName_callable : parse.
Lemma parseModuleImport_callable : callable true parseModuleImport.
Proof. pstart. unfold parseModuleImport. pauto. Qed.
Lemma parseImport_callable : callable true parseImport.
Proof. pstart. unfold parseImport. pauto. Qed.

Lemma paramsLoop_loops n params : loopsAt true n (paramsLoop rec n params).
Proof.
  revert params; induction n as [|n IH]; intros params; pturn; [lia|]. cbn [paramsLoop].
  unfold dollarName. pauto.
Qed.
#[local] Hint Resolve paramsLoop_loops : parse.
Lemma parseMethodDef_callable exported : callable true (parseMethodDef rec exported).
Proof. pstart. unfold parseMethodDef. pauto. Qed.

Lemma fieldsLoop_loops n what fields : loopsAt true n (fieldsLoop rec n what fields).
Proof.
  revert fields; induction n as [|n IH]; intros fields; pturn; [lia|]. cbn [fieldsLoop].
  unfold dollarName. pauto.
Qed.
#[local] Hint Resolve fieldsLoop_loops : parse.
Lemma parseFields_callable what close : callable true (parseFields rec what close).
Proof. pstart. unfold parseFields. pauto. Qed.
#[local] Hint Resolve parseFields_callable : parse.
Lemma parseStructDef_callable exported : callable true (parseStructDef rec exported).
Proof. pstart. unfold parseStructDef. pauto. Qed.
Lemma variantsLoop_loops n variants : loopsAt true n (variantsLoop rec n variants).
Proof.
  revert variants; induction n as [|n IH]; intros variants; pturn; [lia|]. cbn [variantsLoop]. pauto.
Qed.
#[local] Hint Resolve variantsLoop_loops : parse.
Lemma parseEnumDef_callable exported : callable true (parseEnumDef rec exported).
Proof. pstart. unfold parseEnumDef. pauto. Qed.
#[local] Hint Resolve parseModuleImport_callable parseImport_callable parseMethodDef_callable
  parseStructDef_callable parseEnumDef_callable : parse.

Lemma parseExported_callable prog : callable true (parseExported rec prog).
Proof. pstart. unfold parseExported. pauto. Qed.
Lemma parseTopDefine_callable prog p t rest :
  pre p -> tokens p = t :: rest -> Type_ t <> TOKEN_EOF ->
  safe (fun _ p' => adv true p p') (parseTopDefine rec prog p).
Proof.
  intros Hp Et Ht. pose proof (pre_refl p Hp); pose proof (pre_ready p false Hp).
  unfold parseTopDefine. pauto.
Qed.
#[local] Hint Resolve parseExported_callable : parse.

(** A turn of the program loop stops at the end or consumes a token. *)
Lemma safe_item (Q : option Program -> parser -> Prop) prog p :
  pre p -> Q None p -> (forall g p', adv true p p' -> Q (Some g) p') -> safe Q (parseItem rec prog p).
Proof.
  intros Hp HN HS. pose proof (pre_refl p Hp); pose proof (pre_ready p false Hp).
  unfold parseItem. do 2 pstep. destruct (Type_ t) eqn:Ht.
  all: try by (pauto; auto).
  pstep. eapply safe_mono; [|eapply parseTopDefine_callable; [done | done | congruence]].
  intros g p' Hp'. apply safe_ret. by apply HS.
Qed.

Lemma programLoop_loops n prog : loopsAt false n (programLoop rec n prog).
Proof.
  revert prog; induction n as [|n IH]; intros prog; pturn; [lia|]. cbn [programLoop].
  pstep. eapply safe_item; [done | by apply safe_ret |]. intros g p' Hp'. pauto.
Qed.

Lemma parseProgram_callable : callable false (parseProgram rec).
Proof. unfold parseProgram. apply loops_callable. intros n. apply programLoop_loops. Qed.
End Body.

(** ** The recursion *)

Section Total.
Context `{Limits}.

Lemma entry0_callable {A} (n : nat) (c : P A) :
  entry0 (Z.of_nat n) c -> callable (Z.of_nat (S n)) true c.
Proof. intros Hc p []. apply Hc; auto. split; [done|]. cbn [Z.b2z]. lia. Qed.

Lemma entry_entry0 {A} fuel (c : P A) : entry fuel c -> entry0 fuel c.
Proof. intros Hc p He Hs Hr. pose proof (Hc p He Hr) as Hp. by rewrite bool_decide_true in Hp. Qed.

(** A state has at least the weight of one stream: without fuel nothing is affordable. *)
Lemma weight_pos p : exprDepth p <= MaxNestingDepth -> MaxTokens + 1 <= weight p.
Proof. intros. unfold weight. pose proof MaxTokens_pos. nia. Qed.

Lemma pre_zero p : ~ pre 0 p.
Proof. intros []. pose proof (weight_pos p). pose proof MaxTokens_pos. lia. Qed.

Lemma run_safe (n : nat) :
  (forall p, hasEOF p -> seed p = None -> exprDepth p <= MaxNestingDepth ->
     weight p < Z.of_nat n + (MaxTokens + 1) -> safe (fun _ p' => adv true p p') (r_expr (run n) p)) /\
  callable (Z.of_nat n) true (r_or (run n)) /\ callable (Z.of_nat n) true (r_not (run n)) /\
  callable (Z.of_nat n) true (r_unary (run n)) /\ callable (Z.of_nat n) true (r_type (run n)) /\
  callable (Z.of_nat n) true (r_block (run n)).
Proof.
  induction n as [|n (He & Ho & Hn & Hu & Ht & Hb)].
  { split_and!; try (intros p Hp; by apply pre_zero in Hp).
    intros p _ _ Hd Hw. pose proof (weight_pos p Hd). lia. }
  cbn [run]. split_and!.
  - intros p Hp Hs Hd Hw.
    assert (safe (fun _ p' => adv (bool_decide (seed p = None)) p p') (parseExpr (run n) p)) as Hx
      by (eapply parseExpr_entry; eauto; lia).
    by rewrite bool_decide_true in Hx.
  - by eapply entry0_callable, entry_entry0, parseOr_entry.
  - by eapply entry0_callable, entry_entry0, parseNot_entry.
  - by eapply entry0_callable, entry_entry0, parseUnaryMinus_entry.
  - by eapply entry0_callable, parseType_entry.
  - by eapply entry0_callable, parseBlock_entry.
Qed.

(** Fuel for a stream of this length: all the nesting there can be, and the tokens. *)
Definition parseFuel (len : Z) : Z := (MaxNestingDepth + 1) * (MaxTokens + 1) + len + 1.

Definition finished {A} (o : pout A) : Prop :=
  (exists a p, o = POk a p) \/ (exists e, o = PErr e).

Lemma parseProgram_finished (fuel : nat) toks :
  Exists (fun t => Type_ t = TOKEN_EOF) toks -> parseFuel (Z.of_nat (length toks)) <= Z.of_nat fuel ->
  finished (parseProgram (run fuel) (newParser toks)).
Proof.
  intros He Hf. destruct (run_safe fuel) as (He' & Ho & Hn & Hu & Ht & Hb).
  assert (safe (fun _ p' => adv false (newParser toks) p')
            (parseProgram (run fuel) (newParser toks))) as Hs.
  { eapply parseProgram_callable; eauto. constructor; [done | done | cbn |].
    - pose proof MaxNestingDepth_pos. lia.
    - unfold weight, parseFuel in *. cbn. lia. }
  unfold finished. destruct (parseProgram _ _); [eauto | eauto | done | done].
Qed.

Lemma endsWithEOF_Exists toks :
  endsWithEOF toks = true -> Exists (fun t => Type_ t = TOKEN_EOF) toks.
Proof.
  unfold endsWithEOF, isType. destruct (last toks) as [t|] eqn:E; [|done].
  intros Ht%bool_decide_eq_true. apply Exists_exists. exists t. split; [|done].
  by apply last_Some_elem_of.
Qed.

Lemma ParseTokens_finished (fuel : nat) toks :
  parseFuel (Z.of_nat (length toks)) <= Z.of_nat fuel -> finished (ParseTokens fuel toks).
Proof.
  intros Hf. unfold ParseTokens. destruct (endsWithEOF _) eqn:E; cbn [negb]; [|right; eauto].
  apply parseProgram_finished; [by apply endsWithEOF_Exists|].
  pose proof (stripTrivia_length toks). unfold parseFuel in *. lia.
Qed.

Lemma Parse_finished (fuel : nat) source :
  parseFuel MaxTokens <= Z.of_nat fuel -> finished (Parse fuel source).
Proof.
  intros Hf. unfold Parse. rewrite Tokenize_At.
  pose proof (TokenizeAt_spec source "" 1 1) as HT.
  destruct (TokenizeAt _ _ _ _) as [toks l| |]; [|right; eauto|done].
  destruct HT as (Hs & _ & _ & Hlen). apply parseProgram_finished.
  - by eapply stripTrivia_eof, stream_hasEOF.
  - pose proof (stripTrivia_length toks). unfold parseFuel in *. lia.
Qed.
End Total.
