(* ===== verification/ParserMono.v ===== *)
(** * Fuel only bounds the parser

    More fuel never changes an outcome that is not "out of fuel": [run] is monotone in the
    order in which the out-of-fuel outcome is below everything.  With totality this makes
    the parser a function of its tokens, whatever fuel it is given above the bound. *)

From S2P Require Import Prelude Limits Token Lexer LexerFacts Types Value Ast Strconv.
From S2P Require Import Parser ParserStmt ParserTotal.
Open Scope Z_scope.
Open Scope parse_scope.

Definition ple {A} (o o' : pout A) : Prop := o = PFuel \/ o = o'.
Definition mle {A} (c c' : P A) : Prop := forall p, ple (c p) (c' p).

#[global] Instance ple_po {A} : PreOrder (@ple A).
Proof. split; unfold ple; [by right |]. intros x y z [->| ->] [->| ->]; auto. Qed.
#[global] Instance mle_po {A} : PreOrder (@mle A).
Proof.
  split; unfold mle; [intros x p; reflexivity|]. intros x y z H1 H2 p. etrans; [apply H1 | apply H2].
Qed.

Lemma mle_bind {A B} (c c' : P A) (k k' : A -> P B) :
  mle c c' -> (forall a, mle (k a) (k' a)) -> mle (pbind c k) (pbind c' k').
Proof.
  intros Hc Hk p. unfold pbind. destruct (Hc p) as [->|<-]; [by left|].
  destruct (c p); [apply Hk | by right ..].
Qed.

Lemma mle_fuel {A} (c : P A) : mle (fun _ => PFuel) c.
Proof. by left. Qed.

Lemma mle_allow {A} (c c' : P A) : mle c c' -> mle (allowStructLit c) (allowStructLit c').
Proof. intros Hc. unfold allowStructLit. repeat (apply mle_bind; [done || reflexivity | intros ?]). reflexivity. Qed.

Lemma mle_looping {A} (c c' : nat -> P A) : (forall n, mle (c n) (c' n)) -> mle (looping c) (looping c').
Proof. intros Hc p. apply Hc. Qed.

Record rle (r r' : PRec) : Prop := {
  rle_expr : mle (r_expr r) (r_expr r');
  rle_or : mle (r_or r) (r_or r');
  rle_not : mle (r_not r) (r_not r');
  rle_unary : mle (r_unary r) (r_unary r');
  rle_type : mle (r_type r) (r_type r');
  rle_block : mle (r_block r) (r_block r')
}.

Section Mono.
Context `{Limits}.
Variables (r r' : PRec).
Hypothesis Hr : rle r r'.

Create HintDb mono.
#[local] Hint Resolve mle_allow mle_looping mle_fuel : mono.
#[local] Hint Extern 1 (mle ?c ?c) => reflexivity : mono.
#[local] Hint Extern 1 (mle (r_expr _) _) => apply (rle_expr _ _ Hr) : mono.
#[local] Hint Extern 1 (mle (r_or _) _) => apply (rle_or _ _ Hr) : mono.
#[local] Hint Extern 1 (mle (r_not _) _) => apply (rle_not _ _ Hr) : mono.
#[local] Hint Extern 1 (mle (r_unary _) _) => apply (rle_unary _ _ Hr) : mono.
#[local] Hint Extern 1 (mle (r_type _) _) => apply (rle_type _ _ Hr) : mono.
#[local] Hint Extern 1 (mle (r_block _) _) => apply (rle_block _ _ Hr) : mono.

(** Both sides are the same program up to the nested calls. *)
Ltac mono :=
  repeat first
    [ solve [eauto with mono]
    | lazymatch goal with
      | |- mle (pbind _ _) _ => apply mle_bind; [|intros ?]
      | |- mle (allowStructLit _) _ => apply mle_allow
      | |- mle (looping _) _ => apply mle_looping; intros ?
      | |- mle (match ?x with _ => _ end) _ => destruct x
      end ].

(** A loop: by induction on its bound, generalizing what it carries. *)
Lemma argsLoop_mono n args : mle (argsLoop r n args) (argsLoop r' n args).
Proof. revert args; induction n; intros args; cbn [argsLoop]; mono. Qed.
Lemma elemsLoop_mono n elems : mle (elemsLoop r n elems) (elemsLoop r' n elems).
Proof. revert elems; induction n; intros elems; cbn [elemsLoop]; mono. Qed.
Lemma entriesLoop_mono n kvs : mle (entriesLoop r n kvs) (entriesLoop r' n kvs).
Proof. revert kvs; induction n; intros kvs; cbn [entriesLoop]; mono. Qed.
Lemma litFieldsLoop_mono n seen fs : mle (litFieldsLoop r n seen fs) (litFieldsLoop r' n seen fs).
Proof. revert seen fs; induction n; intros seen fs; cbn [litFieldsLoop]; mono. Qed.
#[local] Hint Resolve argsLoop_mono elemsLoop_mono entriesLoop_mono litFieldsLoop_mono : mono.

Lemma parseType_mono : mle (parseType r) (parseType r').
Proof. unfold parseType. mono. Qed.
Lemma parseArgs_mono close : mle (parseArgs r close) (parseArgs r' close).
Proof. unfold parseArgs. mono. Qed.
#[local] Hint Resolve parseArgs_mono : mono.
Lemma parseCallTail_mono callee : mle (parseCallTail r callee) (parseCallTail r' callee).
Proof. unfold parseCallTail, parseParenArgs. mono. Qed.
Lemma parseListLit_mono : mle (parseListLit r) (parseListLit r').
Proof. unfold parseListLit. mono. Qed.
Lemma parseMapLit_mono : mle (parseMapLit r) (parseMapLit r').
Proof. unfold parseMapLit. mono. Qed.
Lemma parseStructLitTail_mono : mle (parseStructLitTail r) (parseStructLitTail r').
Proof. unfold parseStructLitTail. mono. Qed.
#[local] Hint Resolve parseCallTail_mono parseListLit_mono parseMapLit_mono
  parseStructLitTail_mono : mono.
Lemma parseQualifiedTail_mono prefix : mle (parseQualifiedTail r prefix) (parseQualifiedTail r' prefix).
Proof. unfold parseQualifiedTail. mono. Qed.
#[local] Hint Resolve parseQualifiedTail_mono : mono.

Lemma parseSlot_mono t sp budget : mle (parseSlot r t sp budget) (parseSlot r' t sp budget).
Proof.
  unfold parseSlot. cbn zeta. destruct (blank _); [reflexivity|]. destruct (_ <? 0); [reflexivity|].
  intros p. destruct (TokenizeAt _ _ _ _) as [toks l| |]; [|by right ..].
  set (sub := mkParser _ _ _ _ _ _ _).
  match goal with |- ple (match ?c sub with _ => _ end) (match ?c' sub with _ => _ end) =>
    assert (mle c c') as Hc by mono end.
  destruct (Hc sub) as [->| ->]; [by left | by right].
Qed.
#[local] Hint Resolve parseSlot_mono : mono.
Lemma partsLoop_mono t parts budget out : mle (partsLoop r t parts budget out) (partsLoop r' t parts budget out).
Proof. revert budget out; induction parts; intros budget out; cbn [partsLoop]; mono. Qed.
#[local] Hint Resolve partsLoop_mono : mono.
Lemma buildInterpString_mono t : mle (buildInterpString r t) (buildInterpString r' t).
Proof. unfold buildInterpString. mono. Qed.
#[local] Hint Resolve buildInterpString_mono : mono.

Lemma parsePrimaryAtom_mono : mle (parsePrimaryAtom r) (parsePrimaryAtom r').
Proof. unfold parsePrimaryAtom, identAtom, taskAtom. mono. Qed.
Lemma parseBracketSuffix_mono e : mle (parseBracketSuffix r e) (parseBracketSuffix r' e).
Proof. unfold parseBracketSuffix. mono. Qed.
#[local] Hint Resolve parsePrimaryAtom_mono parseBracketSuffix_mono : mono.
Lemma suffixLoop_mono n e : mle (suffixLoop r n e) (suffixLoop r' n e).
Proof. revert e; induction n; intros e; cbn [suffixLoop]; unfold parseParenArgs; mono. Qed.
#[local] Hint Resolve suffixLoop_mono : mono.
Lemma parseUnaryMinus_mono : mle (parseUnaryMinus r) (parseUnaryMinus r').
Proof. unfold parseUnaryMinus, parsePrimary, prefixed, deeperExpr. mono. Qed.

Lemma binLoop_mono n ops next next' e : mle next next' -> mle (binLoop n ops next e) (binLoop n ops next' e).
Proof. intros Hn. revert e; induction n; intros e; cbn [binLoop]; mono. Qed.
Lemma rung_mono ops next next' : mle next next' -> mle (rung ops next) (rung ops next').
Proof. intros Hn. unfold rung. mono. by apply binLoop_mono. Qed.

Lemma parseNot_mono : mle (parseNot r) (parseNot r').
Proof.
  assert (mle (parseComparison r) (parseComparison r')).
  { repeat apply rung_mono. apply parseUnaryMinus_mono. }
  unfold parseNot, prefixed, deeperExpr. mono.
Qed.
Lemma parseOr_mono : mle (parseOr r) (parseOr r').
Proof. repeat apply rung_mono. apply parseNot_mono. Qed.
#[local] Hint Resolve parseOr_mono : mono.
Lemma parseExpr_mono : mle (parseExpr r) (parseExpr r').
Proof. unfold parseExpr, parseRange. mono. Qed.
#[local] Hint Resolve parseExpr_mono : mono.

Lemma lvalueLoop_mono n e : mle (lvalueLoop r n e) (lvalueLoop r' n e).
Proof. revert e; induction n; intros e; cbn [lvalueLoop]; mono. Qed.
Lemma parseDefineLike_mono : mle (parseDefineLike r) (parseDefineLike r').
Proof. unfold parseDefineLike, dollarName, parseConstTail, parseVarTail. mono. Qed.
Lemma parseAssign_mono semi : mle (parseAssign r semi) (parseAssign r' semi).
Proof. unfold parseAssign. mono. Qed.
#[local] Hint Resolve lvalueLoop_mono parseDefineLike_mono parseAssign_mono : mono.
Lemma tryParseIndexAssign_mono : mle (tryParseIndexAssign r) (tryParseIndexAssign r').
Proof. unfold tryParseIndexAssign, parseAppend, parseExprFrom. mono. Qed.
Lemma elseIfLoop_mono n arms : mle (elseIfLoop r n arms) (elseIfLoop r' n arms).
Proof. revert arms; induction n; intros arms; cbn [elseIfLoop]; unfold parseParenCond; mono. Qed.
Lemma whenLoop_mono n vs : mle (whenLoop r n vs) (whenLoop r' n vs).
Proof. revert vs; induction n; intros vs; cbn [whenLoop]; mono. Qed.
#[local] Hint Resolve tryParseIndexAssign_mono elseIfLoop_mono whenLoop_mono : mono.
Lemma armsLoop_mono n arms els : mle (armsLoop r n arms els) (armsLoop r' n arms els).
Proof.
  revert arms els; induction n; intros arms els; cbn [armsLoop]; unfold parseWhen, whenValues; mono.
Qed.
#[local] Hint Resolve armsLoop_mono : mono.

Lemma parseFor_mono : mle (parseFor r) (parseFor r').
Proof. unfold parseFor, parseForEachTail, forInit, forStep, optionalExpr. mono. Qed.
#[local] Hint Resolve parseFor_mono : mono.

Lemma parseStatement_mono : mle (parseStatement r) (parseStatement r').
Proof.
  unfold parseStatement, parseIf, parseWhile, parseRepeat, parseMatch, parseReturn, parseExit,
    parseTry, parseThrow, parseDefer, varStatement, exprStatement, optionalExpr, parseParenCond. mono.
Qed.
#[local] Hint Resolve parseStatement_mono : mono.
Lemma stmtsLoop_mono n stmts : mle (stmtsLoop r n stmts) (stmtsLoop r' n stmts).
Proof. revert stmts; induction n; intros stmts; cbn [stmtsLoop]; mono. Qed.
#[local] Hint Resolve stmtsLoop_mono : mono.
Lemma parseBlock_mono : mle (parseBlock r) (parseBlock r').
Proof. unfold parseBlock. mono. Qed.

Lemma paramsLoop_mono n params : mle (paramsLoop r n params) (paramsLoop r' n params).
Proof. revert params; induction n; intros params; cbn [paramsLoop]; unfold dollarName; mono. Qed.
Lemma fieldsLoop_mono n what fs : mle (fieldsLoop r n what fs) (fieldsLoop r' n what fs).
Proof. revert fs; induction n; intros fs; cbn [fieldsLoop]; unfold dollarName; mono. Qed.
#[local] Hint Resolve paramsLoop_mono fieldsLoop_mono : mono.
Lemma variantsLoop_mono n vs : mle (variantsLoop r n vs) (variantsLoop r' n vs).
Proof. revert vs; induction n; intros vs; cbn [variantsLoop]; unfold parseFields; mono. Qed.
#[local] Hint Resolve variantsLoop_mono : mono.
Lemma parseItem_mono prog : mle (parseItem r prog) (parseItem r' prog).
Proof.
  unfold parseItem, parseExported, parseTopDefine, parseMethodDef, parseStructDef, parseEnumDef,
    parseFields. mono.
Qed.
#[local] Hint Resolve parseItem_mono : mono.
Lemma programLoop_mono n prog : mle (programLoop r n prog) (programLoop r' n prog).
Proof. revert prog; induction n; intros prog; cbn [programLoop]; mono. Qed.
Lemma parseProgram_mono : mle (parseProgram r) (parseProgram r').
Proof. apply mle_looping. intros n. apply programLoop_mono. Qed.
End Mono.

Section Function.
Context `{Limits}.

Lemma run_le n m : (n <= m)%nat -> rle (run n) (run m).
Proof.
  revert m. induction n as [|n IH]; intros m Hm; [by split; apply mle_fuel|].
  destruct m as [|m]; [lia|]. assert (rle (run n) (run m)) by (apply IH; lia). cbn [run].
  split; cbn; [by apply parseExpr_mono | by apply parseOr_mono | by apply parseNot_mono
    | by apply parseUnaryMinus_mono | by apply parseType_mono | by apply parseBlock_mono].
Qed.

Lemma ParseTokens_le n m toks : (n <= m)%nat -> ple (ParseTokens n toks) (ParseTokens m toks).
Proof.
  intros Hm. unfold ParseTokens. destruct (endsWithEOF _); [|by right].
  apply parseProgram_mono. by apply run_le.
Qed.

Lemma Parse_le n m source : (n <= m)%nat -> ple (Parse n source) (Parse m source).
Proof.
  intros Hm. unfold Parse. destruct (Tokenize source); [|by right ..].
  apply parseProgram_mono. by apply run_le.
Qed.

(** What a monotone function with a bound for its fuel computes. *)
Lemma settled {A} (f : nat -> pout A) (bound : Z) :
  (forall n m, (n <= m)%nat -> ple (f n) (f m)) ->
  (forall n, bound <= Z.of_nat n -> finished (f n)) ->
  exists o, finished o /\ forall n, f n = o \/ (f n = PFuel /\ Z.of_nat n < bound).
Proof.
  intros Hle Hfin. set (b := Z.to_nat bound).
  assert (finished (f b)) as Hb by (apply Hfin; lia). exists (f b). split; [done|].
  intros n. destruct (le_lt_dec b n) as [Hn|Hn].
  - left. destruct (Hle b n Hn) as [E| ->]; [|done]. rewrite E in Hb. by destruct Hb as [(?&?&?)|(?&?)].
  - destruct (Hle n b ltac:(lia)) as [E|E]; [right; split; [done | lia] | by left].
Qed.

(** C34: the parser is a total function of its tokens.  For every token stream there is one
    outcome, a program or a positioned error: with fuel for the nesting that the limits
    allow [ParseTokens] ends with it (it neither loops nor reads past the end of the
    stream), and with less fuel it ends with the same outcome or runs out of fuel.  The same
    holds of [Parse] for every source text, with one bound for all of them. *)
Theorem Parse_total (toks : list Token) (source : string) :
  (exists o, finished o /\ forall fuel : nat,
     ParseTokens fuel toks = o \/
     (ParseTokens fuel toks = PFuel /\ Z.of_nat fuel < parseFuel (Z.of_nat (length toks)))) /\
  (exists o, finished o /\ forall fuel : nat,
     Parse fuel source = o \/ (Parse fuel source = PFuel /\ Z.of_nat fuel < parseFuel MaxTokens)).
Proof.
  split; apply settled.
  - intros n m. apply ParseTokens_le.
  - intros n. apply ParseTokens_finished.
  - intros n m. apply Parse_le.
  - intros n. apply Parse_finished.
Qed.
End Function.
