(* ===== verification/ParserRoundFacts.v ===== *)
(** * Expressions round-trip through the parser: the proof

    [Parses l n ts e]: rung [l] of the ladder reads [ts] as [e], whatever follows as long as
    it does not continue an expression of that rung, with [n] levels of nesting to spare.
    A rung climbs to the looser ones ([climb]), parentheses bring any expression to the
    tightest ([parens]).  The left spine of a binary rung and of the postfix forms is read
    by a loop, so for those the statement is about the loop ([Spine], [SufSpine]).  The writer comes first; the
    last part is about the nesting limit. *)


From stdpp Require Import pretty.
From Stdlib Require Import Ascii Wf_nat.
From S2P Require Import Prelude GoInt Float64 Utf8 Strconv Limits Token Lexer Types Value Ast Parser.
From S2P Require Import ParserStmt.
Open Scope string_scope.
Open Scope Z_scope.

Lemma digit_cases (x : N) :
  (x < 10)%N -> (x = 0 \/ x = 1 \/ x = 2 \/ x = 3 \/ x = 4 \/ x = 5 \/ x = 6 \/ x = 7 \/ x = 8 \/ x = 9)%N.
Proof. lia. Qed.

Lemma digitVal_pretty (x : N) :
  (x < 10)%N -> digitVal (pretty_N_char x) = Some (Z.of_N x).
Proof. intros Hx%digit_cases. by repeat destruct Hx as [->|Hx]; [..|subst]. Qed.

Lemma uintLoop_pretty (x : N) s :
  Z.of_N x < 2 ^ 64 -> uintLoop 10 0 (pretty_N_go x s) = uintLoop 10 (Z.of_N x) s.
Proof.
  revert s. induction (N.lt_wf_0 x) as [x _ IH]; intros s Hx.
  destruct (N.eq_dec x 0%N) as [->|Hn]; [done|].
  pose proof (N.div_mod' x 10%N) as Hdm. pose proof (N.mod_lt x 10%N ltac:(done)) as Hm.
  assert (x / 10 < x)%N by (apply N.div_lt; lia).
  rewrite pretty_N_go_step by lia. rewrite IH by lia. cbn [uintLoop].
  rewrite digitVal_pretty by done.
  rewrite (proj2 (Z.leb_gt _ _)) by lia. rewrite (proj2 (Z.ltb_ge _ _)) by lia.
  f_equal. lia.
Qed.

(** A positive number starts with a digit that is not zero. *)
Lemma pretty_go_head (x : N) s :
  (0 < x)%N -> exists c s', pretty_N_go x s = String c s' /\ c <> "0"%char /\ c <> "-"%char /\ c <> "+"%char.
Proof.
  revert s. induction (N.lt_wf_0 x) as [x _ IH]; intros s Hx.
  rewrite pretty_N_go_step by done. destruct (N.eq_dec (x / 10)%N 0%N) as [E|E].
  - rewrite E, pretty_N_go_0. do 2 eexists. split; [done|].
    assert (x mod 10 = x)%N as -> by (apply N.mod_small; apply N.div_small_iff in E; lia).
    apply N.div_small_iff in E; [|done]. apply digit_cases in E.
    repeat destruct E as [->|E]; subst; done.
  - apply IH; [apply N.div_lt; lia | by apply N.neq_0_lt_0].
Qed.

Lemma FormatInt_pos n : 0 < n -> FormatInt n = pretty_N_go (Z.to_N n) "".
Proof. intros Hn. destruct n as [|n|n]; try lia. done. Qed.

(** How a literal starts: no sign, and no prefix of another base. *)
Definition plain (s : string) : Prop :=
  s = "0" \/ exists c s', s = String c s' /\ c <> "0"%char /\ c <> "-"%char /\ c <> "+"%char.

Lemma FormatInt_plain n : 0 <= n -> plain (FormatInt n).
Proof.
  intros Hn. destruct (Z.eq_dec n 0) as [->|]; [by left|]. right.
  rewrite FormatInt_pos by lia. apply pretty_go_head. lia.
Qed.

Lemma ParseUint_FormatInt n : 0 <= n < 2 ^ 64 -> ParseUint (FormatInt n) 10 = Ok n.
Proof.
  intros Hn. destruct (Z.eq_dec n 0) as [->|]; [done|].
  unfold ParseUint. destruct (FormatInt_plain n ltac:(lia)) as [E|(c & s' & E & _)].
  { exfalso. revert E. change "0" with (FormatInt 0). by intros ?%(inj pretty). }
  rewrite bool_decide_false by (by rewrite E).
  cbn [Z.eqb]. rewrite FormatInt_pos by lia. rewrite uintLoop_pretty by lia. cbn. f_equal. lia.
Qed.

Lemma ParseInt_FormatInt n : 0 <= n < 2 ^ 63 -> ParseInt (FormatInt n) 10 = Ok n.
Proof.
  intros Hn. unfold ParseInt. pose proof (ParseUint_FormatInt n ltac:(lia)) as HU.
  assert ((match FormatInt n with
           | String "-" s' => (true, s')
           | String "+" s' => (false, s')
           | _ => (false, FormatInt n)
           end) = (false, FormatInt n)) as ->.
  { destruct (FormatInt_plain n ltac:(lia)) as [->|(c & s' & -> & H0 & H1 & H2)]; [done|].
    destruct c as [[] [] [] [] [] [] [] []]; done. }
  rewrite HU. cbn [negb andb]. by rewrite (proj2 (Z.leb_gt _ _)) by lia.
Qed.

Open Scope string_scope.
Open Scope list_scope.
Open Scope parse_scope.
Open Scope nat_scope.

(** ** The precedence table *)

Definition binLevel (op : BinaryOp) : nat :=
  match op with
  | OpOr => 1
  | OpAnd => 2
  | OpLt | OpGt | OpLe | OpGe | OpEq | OpNeq => 4
  | OpBitOr => 5
  | OpBitXor => 6
  | OpBitAnd => 7
  | OpShl | OpShr => 8
  | OpAdd | OpSub => 9
  | OpMul | OpDiv | OpFloorDiv | OpMod => 10
  end.

Definition unLevel (op : UnaryOp) : nat := match op with OpNot => 3 | OpNeg | OpBitNot => 11 end.

(** Ranges bind loosest, then the operators; postfix forms and bare names at 12, other
    atoms at 13. *)
Definition level (e : Expr) : nat :=
  match e with
  | RangeExpr _ _ _ => 0
  | BinaryExpr _ op _ _ _ => binLevel op
  | UnaryExpr _ op _ _ => unLevel op
  | IntLit _ n => if (n <? 0)%Z then 11 else 13
  | IndexExpr _ _ _ | SliceExpr _ _ _ _ | FieldAccessExpr _ _ _ | CallValueExpr _ _ _ _
  | ConstRefExpr _ _ _ _ | QualifiedConstRefExpr _ _ _ => 12
  | StructLit _ _ _ _ bare _ => if bare then 12 else 13
  | _ => 13
  end.

Definition isSuffix (e : Expr) : bool :=
  match e with
  | IndexExpr _ _ _ | SliceExpr _ _ _ _ | FieldAccessExpr _ _ _ | CallValueExpr _ _ _ _ => true
  | _ => false
  end.

(** The level at which a token continues an expression. *)
Definition tokLevel (ty : TokenType) : option nat :=
  match ty with
  | TOKEN_DOTDOT => Some 0
  | TOKEN_OR => Some 1
  | TOKEN_AND => Some 2
  | TOKEN_LT | TOKEN_GT | TOKEN_LE | TOKEN_GE | TOKEN_EQ | TOKEN_NEQ => Some 4
  | TOKEN_BIT_OR => Some 5
  | TOKEN_BIT_XOR => Some 6
  | TOKEN_BIT_AND => Some 7
  | TOKEN_SHL | TOKEN_SHR => Some 8
  | TOKEN_PLUS | TOKEN_MINUS => Some 9
  | TOKEN_STAR | TOKEN_SLASH | TOKEN_DIV | TOKEN_PERCENT => Some 10
  | TOKEN_LBRACKET | TOKEN_DOT | TOKEN_LPAREN | TOKEN_LBRACE => Some 12
  | _ => None
  end.

Definition binTok (op : BinaryOp) : TokenType :=
  match op with
  | OpAdd => TOKEN_PLUS | OpSub => TOKEN_MINUS | OpMul => TOKEN_STAR | OpDiv => TOKEN_SLASH
  | OpFloorDiv => TOKEN_DIV | OpMod => TOKEN_PERCENT | OpLt => TOKEN_LT | OpGt => TOKEN_GT
  | OpLe => TOKEN_LE | OpGe => TOKEN_GE | OpEq => TOKEN_EQ | OpNeq => TOKEN_NEQ
  | OpAnd => TOKEN_AND | OpOr => TOKEN_OR | OpBitOr => TOKEN_BIT_OR | OpBitXor => TOKEN_BIT_XOR
  | OpBitAnd => TOKEN_BIT_AND | OpShl => TOKEN_SHL | OpShr => TOKEN_SHR
  end.

Definition unTok (op : UnaryOp) : TokenType :=
  match op with OpNeg => TOKEN_MINUS | OpNot => TOKEN_NOT | OpBitNot => TOKEN_BIT_NOT end.

(** ** Writing an expression

    A node stands where one token of its text stands: a literal at its token, a prefix
    operator at the operator, a list or map at its opening bracket, a call, struct literal
    or name at its first name, a postfix form at its bracket or dot.  That token is written
    at the node's position and the delimiters at [q].  A float is written by [floatText]. *)

#[export] Instance float64_eq_dec : EqDecision float64.
Proof. solve_decision. Defined.

Definition tokAt (p : position) (ty : TokenType) (lex : string) : Token :=
  {| Type_ := ty; Lexeme := lex; Raw := ""; Parts := []; Line := pos_line p; Col := pos_col p;
     File := pos_file p |}.

Section Writing.
Variables (floatText : float64 -> string) (q : position).
Abbreviation tok := (tokAt q).

Definition wrap (b : bool) (ts : list Token) : list Token :=
  if b then tok TOKEN_LPAREN "(" :: ts ++ [tok TOKEN_RPAREN ")"] else ts.

(** Items with a comma between them. *)
Fixpoint commas (items : list (list Token)) : list Token :=
  match items with
  | [] => []
  | ts :: items =>
      match items with [] => ts | _ => ts ++ tok TOKEN_COMMA "," :: commas items end
  end.

(** The name of a struct literal: bare, with a prefix, or with a prefix and an enum. *)
Definition structName (p : position) (ns en name : string) : list Token :=
  if bool_decide (ns = "") then [tokAt p TOKEN_IDENT name]
  else if bool_decide (en = "") then [tokAt p TOKEN_IDENT ns; tok TOKEN_DOT "."; tok TOKEN_IDENT name]
  else [tokAt p TOKEN_IDENT ns; tok TOKEN_DOT "."; tok TOKEN_IDENT en; tok TOKEN_DOT ".";
        tok TOKEN_IDENT name].

Fixpoint body (e : Expr) : list Token :=
  let target t :=
    wrap (negb (isSuffix t) && (level t <? 13)%nat) in
  match e with
  | IntLit p n =>
      if (n <? 0)%Z then [tok TOKEN_MINUS "-"; tokAt p TOKEN_INT (FormatInt (- n))]
      else [tokAt p TOKEN_INT (FormatInt n)]
  | FloatLit p f => [tokAt p TOKEN_FLOAT (floatText f)]
  | StringLit p s => [tokAt p TOKEN_STRING s]
  | BoolLit p b => [if b then tokAt p TOKEN_TRUE "true" else tokAt p TOKEN_FALSE "false"]
  | NullLit p => [tokAt p TOKEN_NULL "null"]
  | VarExpr p x _ _ _ => [tokAt p TOKEN_VARREF x]
  | ConstRefExpr p x _ _ => [tokAt p TOKEN_IDENT x]
  | QualifiedConstRefExpr p pre x => [tokAt p TOKEN_IDENT pre; tok TOKEN_DOT "."; tok TOKEN_IDENT x]
  | ListLit p es => tokAt p TOKEN_LBRACKET "[" :: commas (map body es) ++ [tok TOKEN_RBRACKET "]"]
  | MapLit p kvs =>
      tokAt p TOKEN_LBRACE "{" ::
      commas (map (fun kv => body (fst kv) ++ tok TOKEN_COLON ":" :: body (snd kv)) kvs) ++
      [tok TOKEN_RBRACE "}"]
  | StructLit p ns en name bare fs =>
      structName p ns en name ++
      if bare then []
      else tok TOKEN_LBRACE "{" ::
           commas (map (fun f => tokAt (snd f) TOKEN_IDENT (fst (fst f)) :: tok TOKEN_COLON ":" ::
                                 body (snd (fst f))) fs) ++
           [tok TOKEN_RBRACE "}"]
  | CallExpr p f args _ _ _ =>
      tokAt p TOKEN_IDENT f :: tok TOKEN_LPAREN "(" :: commas (map body args) ++ [tok TOKEN_RPAREN ")"]
  | QualifiedCallExpr p pre f args _ _ =>
      tokAt p TOKEN_IDENT pre :: tok TOKEN_DOT "." :: tok TOKEN_IDENT f :: tok TOKEN_LPAREN "(" ::
      commas (map body args) ++ [tok TOKEN_RPAREN ")"]
  | LenExpr p x => tokAt p TOKEN_LEN "len" :: tok TOKEN_LPAREN "(" :: body x ++ [tok TOKEN_RPAREN ")"]
  | IndexExpr p t i =>
      target t (body t) ++ tokAt p TOKEN_LBRACKET "[" :: wrap (level i <? 1)%nat (body i) ++
      [tok TOKEN_RBRACKET "]"]
  | SliceExpr p t lo hi =>
      target t (body t) ++ tokAt p TOKEN_LBRACKET "[" ::
      match lo with Some x => wrap (level x <? 1)%nat (body x) | None => [] end ++
      tok TOKEN_DOTDOT ".." ::
      match hi with Some x => wrap (level x <? 1)%nat (body x) | None => [] end ++
      [tok TOKEN_RBRACKET "]"]
  | FieldAccessExpr p t f => target t (body t) ++ [tokAt p TOKEN_DOT "."; tok TOKEN_IDENT f]
  | CallValueExpr p f args _ =>
      target f (body f) ++ tokAt p TOKEN_LPAREN "(" :: commas (map body args) ++ [tok TOKEN_RPAREN ")"]
  | RangeExpr _ lo hi =>
      wrap (level lo <? 1)%nat (body lo) ++ tok TOKEN_DOTDOT ".." :: wrap (level hi <? 1)%nat (body hi)
  | UnaryExpr p op x _ =>
      tokAt p (unTok op) (UnaryOp_String op) :: wrap (level x <? unLevel op)%nat (body x)
  | BinaryExpr _ op l r _ =>
      wrap (level l <? binLevel op)%nat (body l) ++ tok (binTok op) (BinaryOp_String op) ::
      wrap (level r <? S (binLevel op))%nat (body r)
  | _ => []
  end.

Definition emit (lvl : nat) (e : Expr) : list Token := wrap (level e <? lvl)%nat (body e).
Definition emitTarget (t : Expr) : list Token :=
  wrap (negb (isSuffix t) && (level t <? 13)%nat) (body t).

(** ** What is written: parsed, unresolved trees *)

(** A struct literal's name: bare, [prefix.Name], or [prefix.Enum.Variant], whose two
    qualifiers are not spelled like constants; only a variant may stand without fields. *)
Definition okName (ns en : string) (bare : bool) : bool :=
  if bool_decide (en = "") then negb bare
  else negb (bool_decide (ns = "")) && negb (isValidConstName ns) && negb (isValidConstName en).

Fixpoint ok (e : Expr) : bool :=
  match e with
  | IntLit _ n => (minInt64 <=? n)%Z && (n <=? maxInt64)%Z && ((0 <=? n)%Z || (n =? minInt64)%Z)
  | FloatLit _ f =>
      match ParseFloat (floatText f) with Ok g => bool_decide (g = f) | Err _ => false end
  | StringLit _ _ | BoolLit _ _ | NullLit _ => true
  | VarExpr _ _ d s mv => (d =? -1)%Z && (s =? -1)%Z && negb mv
  | ConstRefExpr _ _ d s => (d =? -1)%Z && (s =? -1)%Z
  | QualifiedConstRefExpr _ pre x => isValidConstName x || negb (isValidConstName pre)
  | ListLit _ es => forallb ok es
  | MapLit _ kvs => forallb (fun kv => ok (fst kv) && ok (snd kv)) kvs
  | StructLit _ ns en _ bare fs =>
      okName ns en bare && (negb bare || bool_decide (length fs = 0)) &&
      forallb (fun f => ok (snd (fst f))) fs && bool_decide (NoDup (map (fun f => fst (fst f)) fs))
  | CallExpr _ f args m mv snap =>
      negb (containsUnderscore f) && forallb ok args &&
      match m, mv, snap with None, O, [] => true | _, _, _ => false end
  | QualifiedCallExpr _ _ f args mv snap =>
      negb (containsUnderscore f) && forallb ok args &&
      match mv, snap with O, [] => true | _, _ => false end
  | LenExpr _ x => ok x
  | IndexExpr _ t i => ok t && ok i
  | SliceExpr _ t lo hi =>
      ok t && match lo with Some x => ok x | None => true end &&
      match hi with Some x => ok x | None => true end
  | FieldAccessExpr _ t _ => ok t
  | CallValueExpr _ f args snap =>
      ok f && forallb ok args && match snap with [] => true | _ => false end
  | RangeExpr p lo hi => bool_decide (p = posFor lo) && ok lo && ok hi
  | UnaryExpr _ _ x f => ok x && match f with None => true | _ => false end
  | BinaryExpr p _ l r f =>
      bool_decide (p = posFor l) && ok l && ok r && match f with None => true | _ => false end
  | _ => false
  end.
End Writing.

(** ** Nesting, as the parser charges it *)

Definition maxList (l : list nat) : nat := foldr Nat.max 0%nat l.

(** Operators of rung [l] on the left spine. *)
Fixpoint chain (l : nat) (e : Expr) : nat :=
  match e with
  | BinaryExpr _ op x _ _ => if (binLevel op =? l)%nat then S (chain l x) else 0%nat
  | _ => 0%nat
  end.

(** One level for the parentheses. *)
Definition charge (b : bool) (n : nat) : nat := if b then S n else n.

Fixpoint need (e : Expr) : nat :=
  let target t := charge (negb (isSuffix t) && (level t <? 13)%nat) in
  match e with
  | ListLit _ es => maxList (map (fun x => S (need x)) es)
  | MapLit _ kvs => maxList (map (fun kv => S (Nat.max (need (fst kv)) (need (snd kv)))) kvs)
  | StructLit _ _ _ _ _ fs => maxList (map (fun f => S (need (snd (fst f)))) fs)
  | CallExpr _ _ args _ _ _ | QualifiedCallExpr _ _ _ args _ _ =>
      maxList (map (fun x => S (need x)) args)
  | LenExpr _ x => S (need x)
  | IndexExpr _ t i => Nat.max (target t (need t)) (charge (level i <? 1)%nat (need i))
  | SliceExpr _ t lo hi =>
      Nat.max (target t (need t))
        (Nat.max (match lo with Some x => charge (level x <? 1)%nat (need x) | None => 0%nat end)
           (match hi with Some x => charge (level x <? 1)%nat (need x) | None => 0%nat end))
  | FieldAccessExpr _ t _ => target t (need t)
  | CallValueExpr _ f args _ =>
      Nat.max (target f (need f)) (maxList (map (fun x => S (need x)) args))
  | RangeExpr _ lo hi =>
      Nat.max (charge (level lo <? 1)%nat (need lo)) (charge (level hi <? 1)%nat (need hi))
  | UnaryExpr _ op x _ => S (charge (level x <? unLevel op)%nat (need x))
  | BinaryExpr _ op l r _ =>
      Nat.max (charge (level l <? binLevel op)%nat (need l))
        (S (chain (binLevel op) l + charge (level r <? S (binLevel op))%nat (need r)))
  | _ => 0%nat
  end.

(** ** Running the parser on known tokens *)

Section Run.
Variables (sd td : Z) (bud : option Z).

Definition st (ts : list Token) (d : Z) : parser := mkParser ts None d sd td bud false.

Lemma pbind_ok {A B} (c : P A) (k : A -> P B) p a p' : c p = POk a p' -> pbind c k p = k a p'.
Proof. unfold pbind. by intros ->. Qed.

Lemma bind_assoc {A B C} (c : P A) (k : A -> P B) (h : B -> P C) p :
  pbind (pbind c k) h p = pbind c (fun a => pbind (k a) h) p.
Proof. unfold pbind. by destruct (c p). Qed.

Lemma peek_ok t ts d : peek (st (t :: ts) d) = POk t (st (t :: ts) d).
Proof. done. Qed.
Lemma peekN1_ok t n ts d : peekN 1 (st (t :: n :: ts) d) = POk n (st (t :: n :: ts) d).
Proof. done. Qed.
Lemma advance_ok t ts d : Type_ t <> TOKEN_EOF -> advance (st (t :: ts) d) = POk t (st ts d).
Proof. intros Ht. cbn. by rewrite bool_decide_false. Qed.
Lemma check_ok ty t ts d :
  check ty (st (t :: ts) d) = POk (bool_decide (Type_ t = ty)) (st (t :: ts) d).
Proof. done. Qed.
Lemma accept_yes ty t ts d :
  Type_ t = ty -> ty <> TOKEN_EOF -> accept ty (st (t :: ts) d) = POk (Some t) (st ts d).
Proof.
  intros Ht He. unfold accept. rewrite (pbind_ok _ _ _ _ _ (check_ok _ _ _ _)).
  rewrite bool_decide_true by done. by erewrite pbind_ok by (apply advance_ok; congruence).
Qed.
Lemma accept_no ty t ts d :
  Type_ t <> ty -> accept ty (st (t :: ts) d) = POk None (st (t :: ts) d).
Proof.
  intros Ht. unfold accept. rewrite (pbind_ok _ _ _ _ _ (check_ok _ _ _ _)).
  by rewrite bool_decide_false.
Qed.
Lemma expect_ok ty ctx t ts d :
  Type_ t = ty -> ty <> TOKEN_EOF -> expect ty ctx (st (t :: ts) d) = POk t (st ts d).
Proof.
  intros Ht He. unfold expect. erewrite pbind_ok by apply peek_ok.
  rewrite bool_decide_true by done. apply advance_ok. congruence.
Qed.
Lemma keyword_ok ty t ts d :
  Type_ t = ty -> ty <> TOKEN_EOF -> keyword ty (st (t :: ts) d) = POk t (st ts d).
Proof. intros Ht He. unfold keyword. by erewrite pbind_ok by (by apply accept_yes). Qed.
Lemma expectFieldName_ok ctx t ts d :
  Type_ t = TOKEN_IDENT -> expectFieldName ctx (st (t :: ts) d) = POk t (st ts d).
Proof.
  intros Ht. unfold expectFieldName, isPostDotName. erewrite pbind_ok by apply peek_ok.
  rewrite bool_decide_true by done. apply advance_ok. congruence.
Qed.
Lemma postDotName_ok ctx t ts d :
  Type_ t = TOKEN_IDENT -> postDotName ctx (st (t :: ts) d) = POk t (st ts d).
Proof.
  intros Ht. unfold postDotName, isPostDotName. erewrite pbind_ok by apply peek_ok.
  rewrite bool_decide_true by done. apply advance_ok. congruence.
Qed.

(** Struct literals are allowed already. *)
Lemma allow_ok {A} (c : P A) ts d a ts' d' :
  c (st ts d) = POk a (st ts' d') -> allowStructLit c (st ts d) = POk a (st ts' d').
Proof.
  intros Hc. unfold allowStructLit. erewrite pbind_ok by done. cbn zeta.
  erewrite pbind_ok by done. by erewrite pbind_ok by exact Hc.
Qed.

Lemma looping_ok {A} (c : nat -> P A) ts d : looping c (st ts d) = c (S (length ts)) (st ts d).
Proof. done. Qed.
End Run.

Ltac by_tok := first [ apply peek_ok | apply peekN1_ok | apply check_ok
  | apply advance_ok; done | apply accept_yes; done | apply accept_no; done
  | apply expect_ok; done | apply keyword_ok; done | apply expectFieldName_ok; done
  | apply postDotName_ok; done ].

(** One bind: a token operation, or a computation given by an equation. *)
Ltac bt := erewrite pbind_ok by by_tok; cbn beta match.
Tactic Notation "bw" uconstr(H) := erewrite pbind_ok by (apply H); cbn beta.

(** ** The ladder by its levels *)

Definition opsAt (l : nat) : TokenType -> option BinaryOp :=
  match l with
  | 1 => orOps
  | 2 => andOps
  | 4 => comparisonOps
  | 5 => bitOrOps
  | 6 => bitXorOps
  | 7 => bitAndOps
  | 8 => shiftOps
  | 9 => addOps
  | 10 => mulOps
  | _ => fun _ => None
  end.

Definition isRung (l : nat) : Prop := l ∈ [1; 2; 4; 5; 6; 7; 8; 9; 10].

Definition ladder `{Limits} (rec : PRec) (l : nat) : P Expr :=
  match l with
  | 0 => parseRange rec
  | 1 => parseOr rec
  | 2 => parseAnd rec
  | 3 => parseNot rec
  | 4 => parseComparison rec
  | 5 => parseBitOr rec
  | 6 => parseBitXor rec
  | 7 => parseBitAnd rec
  | 8 => parseShift rec
  | 9 => parseAdd rec
  | 10 => parseMul rec
  | 11 => parseUnaryMinus rec
  | 12 => parsePrimary rec
  | _ => parsePrimaryAtom rec
  end.

Lemma ladder_rung `{Limits} rec l :
  isRung l -> ladder rec l = rung (opsAt l) (ladder rec (S l)).
Proof. intros Hl. repeat (apply elem_of_cons in Hl as [->|Hl]; [done|]). by apply elem_of_nil in Hl. Qed.

Lemma binLevel_rung op : isRung (binLevel op).
Proof. unfold isRung. destruct op; cbn; set_solver. Qed.

Lemma opsAt_binTok op : opsAt (binLevel op) (binTok op) = Some op.
Proof. by destruct op. Qed.
Lemma tokLevel_binTok op : tokLevel (binTok op) = Some (binLevel op).
Proof. by destruct op. Qed.

(** Only tokens of a level are operators of its rung. *)
Lemma opsAt_level l ty op : opsAt l ty = Some op -> tokLevel ty = Some l.
Proof. do 11 (destruct l as [|l]; [by destruct ty|]). done. Qed.

(** What may follow an expression of a level. *)
Definition stops (l : nat) (rest : list Token) : Prop :=
  match rest with
  | t :: _ => match tokLevel (Type_ t) with Some k => k < l | None => True end
  | [] => False
  end.

Lemma stops_le l l' rest : l <= l' -> stops l rest -> stops l' rest.
Proof. unfold stops. destruct rest as [|t rest]; [done|]. destruct (tokLevel _); lia. Qed.

Lemma stops_ops l t rest : stops l (t :: rest) -> forall l', l <= l' -> opsAt l' (Type_ t) = None.
Proof.
  cbn. intros Hs l' Hl. destruct (opsAt l' (Type_ t)) eqn:E; [|done].
  apply opsAt_level in E. rewrite E in Hs. lia.
Qed.

(** How an expression of a level starts. *)
Definition starts (l : nat) (ts : list Token) : Prop :=
  match ts with
  | t :: _ =>
      (Type_ t ∉ [TOKEN_EOF; TOKEN_RPAREN; TOKEN_RBRACKET; TOKEN_RBRACE; TOKEN_DOTDOT]) /\
      (4 <= l -> Type_ t <> TOKEN_NOT) /\
      (12 <= l -> Type_ t <> TOKEN_MINUS /\ Type_ t <> TOKEN_BIT_NOT)
  | [] => False
  end.

Lemma starts_le l l' ts : l' <= l -> starts l ts -> starts l' ts.
Proof.
  destruct ts as [|t ts]; [done|]. cbn. intros Hl (H1 & H2 & H3). split_and!; [done | |]; intros.
  - apply H2. lia.
  - apply H3. lia.
Qed.

Lemma starts_app l ts rest : starts l ts -> starts l (ts ++ rest).
Proof. by destruct ts. Qed.

Section Round.
Context `{Limits}.
Variables (floatText : float64 -> string) (q : position) (sd td : Z) (bud : option Z).
Abbreviation st := (st sd td bud).
Abbreviation tok := (tokAt q).
Abbreviation body := (body floatText q).
Abbreviation emit := (emit floatText q).
Abbreviation emitTarget := (emitTarget floatText q).
Abbreviation ok := (ok floatText).
Open Scope nat_scope.

(** [n] more levels fit under the limit at depth [d]. *)
Definition fits (d : Z) (n : nat) : Prop := (d + Z.of_nat n <= MaxNestingDepth)%Z.

Lemma fits_le d n n' : n' <= n -> fits d n -> fits d n'.
Proof. unfold fits. lia. Qed.

Definition Parses (l n : nat) (ts : list Token) (e : Expr) : Prop :=
  forall fuel d rest, length ts <= fuel -> fits d n -> stops l rest ->
    ladder (run fuel) l (st (ts ++ rest) d) = POk e (st rest d).

Lemma Parses_le l n n' ts e : n <= n' -> Parses l n ts e -> Parses l n' ts e.
Proof. intros Hn Hp fuel d rest Hf Hd. apply Hp; [done | by eapply fits_le]. Qed.

(** *** Climbing to a looser rung *)

Lemma climb_rung l n ts e : isRung l -> Parses (S l) n ts e -> Parses l n ts e.
Proof.
  intros Hl Hp fuel d rest Hf Hd Hs. rewrite ladder_rung by done. unfold rung.
  erewrite pbind_ok by (apply Hp; [done | done | by eapply stops_le, Hs; lia]).
  erewrite pbind_ok by done. destruct rest as [|t rest]; [done|].
  erewrite pbind_ok.
  2: { rewrite looping_ok. cbn [binLoop]. bt. rewrite (stops_ops _ _ _ Hs) by lia. reflexivity. }
  reflexivity.
Qed.

Lemma climb_range n ts e : Parses 1 n ts e -> Parses 0 n ts e.
Proof.
  intros Hp fuel d rest Hf Hd Hs. cbn [ladder]. unfold parseRange.
  erewrite pbind_ok by (apply Hp; [done | done | by eapply stops_le, Hs; lia]).
  destruct rest as [|t rest]; [done|]. bt. rewrite bool_decide_false; [done|].
  intros E. cbn in Hs. rewrite E in Hs. cbn in Hs. lia.
Qed.

Lemma climb_not n ts e : starts 4 ts -> Parses 4 n ts e -> Parses 3 n ts e.
Proof.
  intros Ht Hp fuel d rest Hf Hd Hs. cbn [ladder]. unfold parseNot.
  erewrite pbind_ok by done. cbn [seed ParserRoundFacts.st].
  destruct ts as [|t ts]; [done|]. destruct Ht as (_ & Hn & _). cbn [app].
  erewrite pbind_ok by (apply accept_no; apply Hn; lia). 
  apply (Hp fuel d rest); [done | done | by eapply stops_le, Hs; lia].
Qed.

Lemma climb_unary n ts e : starts 12 ts -> Parses 12 n ts e -> Parses 11 n ts e.
Proof.
  intros Ht Hp fuel d rest Hf Hd Hs. cbn [ladder]. unfold parseUnaryMinus.
  erewrite pbind_ok by done. cbn [seed ParserRoundFacts.st].
  destruct ts as [|t ts]; [done|]. destruct Ht as (_ & _ & Hn). destruct Hn as [Hm Hb]; [lia|].
  cbn [app]. do 2 (erewrite pbind_ok by (by apply accept_no); cbn beta iota).
  apply (Hp fuel d rest); [done | done | by eapply stops_le, Hs; lia].
Qed.

(** No postfix form follows. *)
Lemma suffix_stop fuel k e t rest d :
  stops 12 (t :: rest) -> 0 < k ->
  suffixLoop (run fuel) k e (st (t :: rest) d) = POk e (st (t :: rest) d).
Proof.
  intros Hs Hk. destruct k as [|k]; [lia|]. cbn [suffixLoop]. bt. cbn in Hs.
  destruct (Type_ t); try done; cbn in Hs; lia.
Qed.

Lemma climb_primary n ts e : Parses 13 n ts e -> Parses 12 n ts e.
Proof.
  intros Hp fuel d rest Hf Hd Hs. cbn [ladder]. unfold parsePrimary.
  erewrite pbind_ok by (apply (Hp fuel d rest); [done | done | by eapply stops_le, Hs; lia]).
  rewrite looping_ok. destruct rest as [|t rest]; [done|]. apply suffix_stop; [done | lia].
Qed.

Lemma climb_one l n ts e : l < 13 -> starts (S l) ts -> Parses (S l) n ts e -> Parses l n ts e.
Proof.
  intros Hl Ht Hp.
  destruct (decide (l ∈ [1; 2; 4; 5; 6; 7; 8; 9; 10])) as [Hr|Hr]; [by apply climb_rung|].
  assert (l = 0 \/ l = 3 \/ l = 11 \/ l = 12) as Hc by (do 13 (destruct l as [|l]; [set_solver|]); lia).
  destruct Hc as [->|[->|[->| ->]]].
  - by apply climb_range.
  - by apply climb_not.
  - by apply climb_unary.
  - by apply climb_primary.
Qed.

Lemma climb l l' n ts e : l' <= l <= 13 -> starts l ts -> Parses l n ts e -> Parses l' n ts e.
Proof.
  intros [Hle Hl]. induction Hle as [|l Hle IH]; [done|]. intros Ht Hp.
  apply IH; [lia | by eapply starts_le, Ht; lia |]. apply climb_one; [lia | done | done].
Qed.

(** *** A nested expression, and parentheses *)

Lemma expr_ok n ts e fuel d rest :
  Parses 0 n ts e -> length ts < fuel -> fits d (S n) -> stops 0 rest ->
  r_expr (run fuel) (st (ts ++ rest) d) = POk e (st rest d).
Proof.
  intros Hp Hf Hd Hs. destruct fuel as [|fuel]; [lia|]. cbn [run r_expr]. unfold parseExpr.
  erewrite pbind_ok by done. cbn [exprDepth ParserRoundFacts.st].
  rewrite (proj2 (Z.leb_gt _ _)) by (unfold fits in Hd; lia).
  erewrite pbind_ok by done. erewrite pbind_ok.
  2: { apply (Hp fuel (d + 1)%Z rest); [lia | unfold fits in *; lia | done]. }
  cbn. unfold pret, setExprDepth, ParserRoundFacts.st. cbn. repeat f_equal. lia.
Qed.

Lemma parens n ts e : Parses 0 n ts e -> Parses 13 (S n) (wrap q true ts) e.
Proof.
  intros Hp fuel d rest Hf Hd Hs. cbn [ladder wrap app length] in *.
  rewrite length_app in Hf. cbn in Hf. unfold parsePrimaryAtom.
  erewrite pbind_ok by done. cbn [seed ParserRoundFacts.st].
  bt. cbn [Type_ tokAt]. bt. rewrite <- app_assoc. cbn [app].
  erewrite pbind_ok. 2: { apply allow_ok. apply (expr_ok n); [done | lia | done | done]. }
  by bt.
Qed.

(** *** Lists of expressions *)

(** An expression whose text is read back where an expression is expected. *)
Definition Item (e : Expr) : Prop := Parses 0 (need e) (body e) e /\ starts 0 (body e).

Lemma commas_length items : Forall (fun ts => ts <> []) items -> length items <= length (commas q items).
Proof.
  induction 1 as [|ts items Hts Hall IH]; [done|]. cbn [commas length].
  assert (0 < length ts) by (destruct ts; [done | cbn; lia]).
  destruct items as [|ts' items]; [cbn; lia|].
  rewrite length_app. cbn [length] in *. lia.
Qed.

Lemma commas_cons ts items :
  items <> [] -> commas q (ts :: items) = ts ++ tok TOKEN_COMMA "," :: commas q items.
Proof. by destruct items. Qed.

Lemma Item_nonempty es : Forall Item es -> Forall (fun ts => ts <> []) (map body es).
Proof. induction 1 as [|e es [_ Hs] _ IH]; constructor; [by intros E; rewrite E in Hs | done]. Qed.

Lemma item_expr e fuel d rest :
  Item e -> length (body e) < fuel -> fits d (S (need e)) -> stops 0 rest ->
  r_expr (run fuel) (st (body e ++ rest) d) = POk e (st rest d).
Proof. intros [Hp _]. by apply expr_ok. Qed.

(** Simplify the bounds of a list of items. *)
Ltac bounds := unfold maxList in *; cbn [foldr map length fst snd] in *; rewrite ?length_app in *; cbn [length] in *;
  unfold fits in *; lia.

Lemma args_ok es : Forall Item es -> es <> [] -> forall fuel k acc d rest,
  length es <= k -> length (commas q (map body es)) < fuel ->
  fits d (maxList (map (fun x => S (need x)) es)) ->
  argsLoop (run fuel) k acc (st (commas q (map body es) ++ tok TOKEN_RPAREN ")" :: rest) d)
  = POk (acc ++ es) (st (tok TOKEN_RPAREN ")" :: rest) d).
Proof.
  induction 1 as [|e es He Hes IH]; [done|]. intros _ fuel k acc d rest Hk Hf Hd.
  destruct k as [|k]; [cbn in Hk; lia|]. cbn [argsLoop map].
  destruct es as [|e' es]; cbn [map commas] in *.
  - erewrite pbind_ok by (apply item_expr; [done | lia | bounds | done]). cbn beta. by bt.
  - rewrite <- app_assoc. cbn [app].
    erewrite pbind_ok by (apply item_expr; [done | bounds | bounds | done]). cbn beta.
    bt. cbn iota. rewrite IH; [by rewrite <- app_assoc | done | bounds | bounds | bounds].
Qed.

Lemma elems_ok es : Forall Item es -> forall fuel k acc d rest,
  length es < k -> length (commas q (map body es)) < fuel ->
  fits d (maxList (map (fun x => S (need x)) es)) ->
  elemsLoop (run fuel) k acc (st (commas q (map body es) ++ tok TOKEN_RBRACKET "]" :: rest) d)
  = POk (acc ++ es) (st (tok TOKEN_RBRACKET "]" :: rest) d).
Proof.
  induction 1 as [|e es He Hes IH]; intros fuel k acc d rest Hk Hf Hd;
    (destruct k as [|k]; [cbn in Hk; lia|]); cbn [elemsLoop map].
  { cbn [commas app]. bt. cbn. by rewrite app_nil_r. }
  assert (forall rest', check TOKEN_RBRACKET (st (body e ++ rest') d) = POk false (st (body e ++ rest') d)) as Hc.
  { intros rest'. destruct He as [_ Hs]. destruct (body e) as [|t ts]; [done|]. cbn [app].
    rewrite check_ok. rewrite bool_decide_false; [done|]. destruct Hs as [Hs _]. set_solver. }
  destruct es as [|e' es]; cbn [map commas] in *.
  - erewrite pbind_ok by apply Hc. cbn beta iota.
    erewrite pbind_ok by (apply item_expr; [done | lia | bounds | done]). cbn beta. by bt.
  - rewrite <- app_assoc. cbn [app]. erewrite pbind_ok by apply Hc. cbn beta iota.
    erewrite pbind_ok by (apply item_expr; [done | bounds | bounds | done]). cbn beta.
    bt. cbn iota. rewrite IH; [by rewrite <- app_assoc | bounds | bounds | bounds].
Qed.

Definition entryToks (kv : Expr * Expr) : list Token :=
  body (fst kv) ++ tok TOKEN_COLON ":" :: body (snd kv).

Lemma entries_ok kvs :
  Forall (fun kv => Item (fst kv) /\ Item (snd kv)) kvs -> forall fuel k acc d rest,
  length kvs < k -> length (commas q (map entryToks kvs)) < fuel ->
  fits d (maxList (map (fun kv => S (Nat.max (need (fst kv)) (need (snd kv)))) kvs)) ->
  entriesLoop (run fuel) k acc (st (commas q (map entryToks kvs) ++ tok TOKEN_RBRACE "}" :: rest) d)
  = POk (acc ++ kvs) (st (tok TOKEN_RBRACE "}" :: rest) d).
Proof.
  induction 1 as [|[x v] kvs [Hx Hv] Hes IH]; intros fuel k acc d rest Hk Hf Hd;
    (destruct k as [|k]; [cbn in Hk; lia|]); cbn [entriesLoop map].
  { cbn [commas app]. bt. cbn. by rewrite app_nil_r. }
  cbn [fst snd] in *.
  assert (forall rest', check TOKEN_RBRACE (st (body x ++ rest') d) = POk false (st (body x ++ rest') d)) as Hc.
  { intros rest'. destruct Hx as [_ Hs]. destruct (body x) as [|t ts]; [done|]. cbn [app].
    rewrite check_ok. rewrite bool_decide_false; [done|]. destruct Hs as [Hs _]. set_solver. }
  destruct kvs as [|kv kvs]; cbn [map commas] in *;
    change (entryToks (x, v)) with (body x ++ tok TOKEN_COLON ":" :: body v) in *;
    rewrite <- !app_assoc; cbn [app]; erewrite pbind_ok by apply Hc; cbn beta iota.
  - erewrite pbind_ok by (apply item_expr; [done | bounds | bounds | done]). cbn beta. bt.
    erewrite pbind_ok by (apply item_expr; [done | bounds | bounds | done]). cbn beta. by bt.
  - erewrite pbind_ok by (apply item_expr; [done | bounds | bounds | done]). cbn beta. bt.
    rewrite <- ?app_assoc; cbn [app].
    erewrite pbind_ok by (apply item_expr; [done | bounds | bounds | done]). cbn beta. bt. cbn iota.
    rewrite IH; [by rewrite <- app_assoc | bounds | bounds | bounds].
Qed.

Definition fieldToks (f : string * Expr * position) : list Token :=
  tokAt (snd f) TOKEN_IDENT (fst (fst f)) :: tok TOKEN_COLON ":" :: body (snd (fst f)).

Lemma tokPos_tok p ty lex : tokPos (tokAt p ty lex) = p.
Proof. by destruct p. Qed.

Lemma fields_head fs :
  fs <> [] -> exists p y ts, commas q (map fieldToks fs) = tokAt p TOKEN_IDENT y :: ts.
Proof. destruct fs as [|[[y e] p] [|f fs]]; [done | cbn; eauto ..]. Qed.

Lemma fields_ok fs : fs <> [] ->
  Forall (fun f => Item (snd (fst f))) fs -> forall fuel k seen acc d rest,
  NoDup (map (fun f => fst (fst f)) fs) ->
  Forall (fun f => ~ (fst (fst f) ∈ seen)) fs ->
  length fs <= k -> length (commas q (map fieldToks fs)) < fuel ->
  fits d (maxList (map (fun f => S (need (snd (fst f)))) fs)) ->
  litFieldsLoop (run fuel) k seen acc (st (commas q (map fieldToks fs) ++ tok TOKEN_RBRACE "}" :: rest) d)
  = POk (acc ++ fs) (st (tok TOKEN_RBRACE "}" :: rest) d).
Proof.
  intros Hne Hall. revert Hne. induction Hall as [|[[x e] p] fs Hx Hes IH]; [done|].
  intros _ fuel k seen acc d rest Hnd Hseen Hk Hf Hd.
  destruct k as [|k]; [cbn in Hk; lia|]. cbn [litFieldsLoop map fst snd] in *.
  apply NoDup_cons in Hnd as [Hx' Hnd]. apply Forall_cons in Hseen as [Hs Hseen]. cbn [fst] in Hs.
  change (fieldToks (x, e, p)) with (tokAt p TOKEN_IDENT x :: tok TOKEN_COLON ":" :: body e) in *.
  destruct (decide (fs = [])) as [->|Hfs].
  - cbn [map commas app] in *. bt. cbn [Lexeme tokAt]. rewrite bool_decide_false by done. bt.
    erewrite pbind_ok by (apply item_expr; [done | bounds | bounds | done]). cbn beta zeta.
    bt. by rewrite tokPos_tok.
  - assert (map fieldToks fs <> []) as Hm by (by destruct fs).
    assert (forall X, check TOKEN_RBRACE (st (commas q (map fieldToks fs) ++ X) d)
                      = POk false (st (commas q (map fieldToks fs) ++ X) d)) as Hc.
    { intros X. destruct (fields_head fs Hfs) as (p' & y & ts & ->). done. }
    rewrite commas_cons in * by done. cbn [app] in *. rewrite <- app_assoc. cbn [app].
    bt. cbn [Lexeme tokAt]. rewrite bool_decide_false by done. bt.
    erewrite pbind_ok by (apply item_expr; [done | bounds | bounds | done]). cbn beta zeta. bt.
    cbn iota. rewrite tokPos_tok.
    erewrite pbind_ok by apply Hc. cbn beta iota. rewrite IH; [by rewrite <- app_assoc | done | done | | bounds | bounds | bounds].
    apply Forall_forall. intros g Hg. rewrite Forall_forall in Hseen.
    intros [E|Hin]%elem_of_cons; [|by apply (Hseen g Hg)]. apply Hx'. rewrite <- E.
    apply list_elem_of_fmap. by exists g.
Qed.

(** *** Texts *)

Lemma level_le e : level e <= 13.
Proof. destruct e; cbn; try lia; first [by case_match; lia | by destruct Op; cbn; lia]. Qed.

Lemma wrap_length b ts : length ts <= length (wrap q b ts).
Proof. destruct b; cbn; [rewrite length_app; lia | lia]. Qed.

Lemma body_ind (Pr : Expr -> Prop) :
  (forall e, (forall x, length (body x) < length (body e) -> Pr x) -> Pr e) -> forall e, Pr e.
Proof. intros Hs. exact (induction_ltof1 _ (fun x => length (body x)) Pr Hs). Qed.

(** A token is in none of a list of types. *)
Ltac notin := repeat (apply not_elem_of_cons; split; [done|]); apply not_elem_of_nil.

Lemma starts_tok l t ts :
  Type_ t ∉ [TOKEN_EOF; TOKEN_RPAREN; TOKEN_RBRACKET; TOKEN_RBRACE; TOKEN_DOTDOT; TOKEN_NOT;
             TOKEN_MINUS; TOKEN_BIT_NOT] -> starts l (t :: ts).
Proof.
  rewrite !not_elem_of_cons. intros (? & ? & ? & ? & ? & ? & ? & ? & _). cbn.
  split_and!; [by notin | done | done].
Qed.

Lemma starts_wrap l e : starts (level e) (body e) -> starts l (emit l e).
Proof.
  intros Hs. unfold ParserRoundFacts.emit. destruct (Nat.ltb_spec (level e) l).
  - apply starts_tok; by notin.
  - by eapply starts_le, Hs.
Qed.

Lemma starts_target e : starts (level e) (body e) -> starts 12 (emitTarget e).
Proof.
  intros Hs. unfold emitTarget. destruct (isSuffix e) eqn:E; cbn [negb andb].
  - assert (level e = 12) as El by (by destruct e). by rewrite El in Hs.
  - apply (starts_le 13); [lia|]. by apply (starts_wrap 13).
Qed.

(** What [ok] says of the parts. *)
Ltac okinv Ho :=
  rewrite ?andb_true_iff, ?bool_decide_eq_true in Ho;
  repeat match goal with E : _ /\ _ |- _ => destruct E end.

(** A part has a shorter text. *)
Ltac short :=
  cbn [ParserRoundFacts.body length]; do 4 (rewrite ?length_app; cbn [length]);
  repeat match goal with
  | |- context [length (wrap q ?b ?ts)] =>
      let n := fresh "n" in
      pose proof (wrap_length b ts); set (n := length (wrap q b ts)) in *; clearbody n
  end; cbn [length]; lia.

Lemma structName_head p ns en name :
  exists x ts, structName q p ns en name = tokAt p TOKEN_IDENT x :: ts.
Proof. unfold structName. repeat case_bool_decide; eauto. Qed.

Lemma body_starts e : ok e = true -> starts (level e) (body e).
Proof.
  induction e as [e IH] using body_ind. intros Ho.
  destruct e; cbn [ParserRoundFacts.ok] in Ho; try done; okinv Ho; cbn [level ParserRoundFacts.body].
  all: try (apply starts_tok; by notin).
  - case_match; [cbn; split_and!; [by notin | done | lia] | apply starts_tok; by notin].
  - destruct Value_; apply starts_tok; by notin.
  - apply starts_app, starts_target, IH; [short | done].
  - apply starts_app, (starts_le 1); [lia|]. apply (starts_wrap 1), IH; [short | done].
  - apply starts_app, starts_target, IH; [short | done].
  - destruct (structName_head p NS Enum Name) as (x & ts & ->). apply starts_tok; by notin.
  - apply starts_app, starts_target, IH; [short | done].
  - apply starts_app, starts_target, IH; [short | done].
  - destruct Op; cbn; (split_and!; [by notin | done || lia | lia]).
  - apply starts_app, starts_wrap, IH; [short | done].
Qed.

(** *** Spines *)

(** The text at any level, from the one at its own. *)
Definition Reads (e : Expr) : Prop := Parses (level e) (need e) (body e) e.

Lemma reads_emit e l :
  ok e = true -> Reads e -> l <= 13 ->
  Parses l (charge (level e <? l) (need e)) (emit l e) e.
Proof.
  intros Ho Hr Hl. pose proof (body_starts e Ho) as Hs. pose proof (level_le e).
  unfold ParserRoundFacts.emit. destruct (Nat.ltb_spec (level e) l) as [Hlt|Hge]; cbn [charge].
  - apply (climb 13); [lia | apply starts_tok; by notin |]. apply parens.
    apply (climb (level e)); [lia | done | done].
  - apply (climb (level e)); [lia | done | done].
Qed.

Lemma reads_item e : ok e = true -> Reads e -> Item e.
Proof.
  intros Ho Hr. pose proof (reads_emit e 0 Ho Hr ltac:(lia)) as Hp.
  split; [|by eapply starts_le, body_starts; [lia|]].
  unfold ParserRoundFacts.emit in Hp. by rewrite (proj2 (Nat.ltb_ge _ _)) in Hp by lia.
Qed.

Lemma deepen_ok ts d : (d < MaxNestingDepth)%Z -> deepenExpr (st ts d) = POk tt (st ts (d + 1)).
Proof.
  intros Hd. unfold deepenExpr. erewrite pbind_ok by done. cbn [exprDepth ParserRoundFacts.st].
  by rewrite (proj2 (Z.leb_gt _ _)) by lia.
Qed.

(** A binary rung reads its left spine into the loop. *)
Definition Spine (l : nat) (e : Expr) : Prop :=
  forall fuel d rest,
    length (emit l e) <= fuel -> fits d (charge (level e <? l) (need e)) -> stops (S l) rest ->
    exists k, length rest < k /\
      ladder (run fuel) l (st (emit l e ++ rest) d) =
      (let* x := binLoop k (opsAt l) (ladder (run fuel) (S l)) e in
       let* _ := pmod (setExprDepth d) in pret x) (st rest (d + Z.of_nat (chain l e))).

Lemma spine_operand l e :
  isRung l -> ok e = true -> Reads e -> level e <> l -> Spine l e.
Proof.
  intros Hl Ho Hr Hne fuel d rest Hf Hd Hs. exists (S (length rest)). split; [lia|].
  assert (S l <= 13) as Hle by (repeat (apply elem_of_cons in Hl as [->|Hl]; [lia|]); by apply elem_of_nil in Hl).
  assert ((level e <? l) = (level e <? S l)) as El.
  { destruct (Nat.ltb_spec (level e) l), (Nat.ltb_spec (level e) (S l)); lia. }
  unfold ParserRoundFacts.emit in *. rewrite El in *.
  assert (chain l e = 0) as ->.
  { destruct e; try done. cbn in *. destruct (Nat.eqb_spec (binLevel Op) l); [lia | done]. }
  rewrite Z.add_0_r, ladder_rung by done. unfold rung.
  erewrite pbind_ok by (by apply reads_emit). cbn beta. by erewrite pbind_ok by done.
Qed.

Lemma spine_binary p op l r :
  p = posFor l -> ok l = true -> ok r = true -> Spine (binLevel op) l -> Reads r ->
  Spine (binLevel op) (BinaryExpr p op l r None).
Proof.
  intros -> Hl Hr Hsp Hrd fuel d rest Hf Hd Hs.
  unfold ParserRoundFacts.emit in *. cbn [level] in *. rewrite Nat.ltb_irrefl in *. cbn [wrap charge] in *.
  cbn [ParserRoundFacts.body need] in *. set (L := binLevel op) in *.
  fold (emit L l) in *. fold (emit (S L) r) in *.
  rewrite length_app in Hf. cbn [length] in Hf.
  destruct (Hsp fuel d (tok (binTok op) (BinaryOp_String op) :: emit (S L) r ++ rest)) as (k & Hk & E).
  { lia. }
  { unfold fits in *. lia. }
  { cbn. rewrite tokLevel_binTok. fold L. lia. }
  rewrite <- app_assoc. cbn [app]. rewrite E. cbn [length] in Hk. rewrite length_app in Hk.
  destruct k as [|k]; [lia|]. exists k. split; [lia|].
  cbn [binLoop chain]. fold L. rewrite Nat.eqb_refl. rewrite bind_assoc. bt.
  cbn [Type_ tokAt]. rewrite (opsAt_binTok op : opsAt L (binTok op) = Some op). set (d' := (d + Z.of_nat (chain L l))%Z).
  rewrite bind_assoc. erewrite pbind_ok by (apply deepen_ok; unfold fits in Hd; lia).
  cbn beta. rewrite bind_assoc.
  erewrite pbind_ok by (apply advance_ok; cbn; by destruct op). cbn beta. rewrite bind_assoc.
  assert (S L <= 13) by (unfold L; destruct op; cbn; lia).
  erewrite pbind_ok by (apply reads_emit; [done | done | done | lia | unfold fits in *; lia | done]).
  cbn beta. do 2 f_equal. lia.
Qed.

Lemma reads_binary p op l r :
  p = posFor l -> ok l = true -> ok r = true -> Spine (binLevel op) l -> Reads r ->
  Reads (BinaryExpr p op l r None).
Proof.
  intros Hp Hl Hr Hsp Hrd fuel d rest Hf Hd Hs.
  destruct (spine_binary p op l r Hp Hl Hr Hsp Hrd fuel d rest) as (k & Hk & E).
  { unfold ParserRoundFacts.emit. cbn [level]. by rewrite Nat.ltb_irrefl. }
  { cbn [level]. by rewrite Nat.ltb_irrefl. }
  { by eapply stops_le, Hs; cbn; lia. }
  unfold ParserRoundFacts.emit in E. cbn [level] in *. rewrite Nat.ltb_irrefl in E. cbn [wrap] in E.
  rewrite E. destruct k as [|k]; [lia|]. destruct rest as [|t rest]; [done|].
  cbn [binLoop]. rewrite bind_assoc. bt. by rewrite (stops_ops _ _ _ Hs) by done.
Qed.

(** The postfix forms are read by the loop of [parsePrimary]. *)
Definition needTarget (e : Expr) : nat := charge (negb (isSuffix e) && (level e <? 13)) (need e).

Definition SufSpine (e : Expr) : Prop :=
  forall fuel d rest,
    length (emitTarget e) <= fuel -> fits d (needTarget e) -> rest <> [] ->
    exists k, length rest < k /\
      parsePrimary (run fuel) (st (emitTarget e ++ rest) d) = suffixLoop (run fuel) k e (st rest d).

Lemma stops_13 rest : rest <> [] -> stops 13 rest.
Proof. destruct rest as [|t rest]; [done|]. intros _. cbn. by destruct (Type_ t); cbn; try lia. Qed.

Lemma sufspine_atom e : ok e = true -> Reads e -> isSuffix e = false -> SufSpine e.
Proof.
  intros Ho Hr Hi fuel d rest Hf Hd Hs. exists (S (length rest)). split; [lia|].
  unfold emitTarget, needTarget in *. rewrite Hi in *. cbn [negb andb] in *.
  unfold parsePrimary. erewrite pbind_ok; [by rewrite looping_ok|].
  apply (reads_emit e 13); [done | done | lia | done | done | by apply stops_13].
Qed.

Lemma reads_suffix e : isSuffix e = true -> SufSpine e -> Reads e.
Proof.
  intros Hi Hs fuel d rest Hf Hd Hst. assert (level e = 12) as El by (by destruct e).
  rewrite El in *. cbn [ladder]. destruct rest as [|t rest]; [done|].
  unfold SufSpine, emitTarget, needTarget in Hs. rewrite Hi in Hs. cbn [negb andb wrap charge] in Hs.
  destruct (Hs fuel d (t :: rest)) as (k & Hk & ->); [done | done | done |].
  apply suffix_stop; [done | lia].
Qed.

(** One more postfix form on a spine. *)
Lemma sufspine_step e t sfx n :
  isSuffix e = true -> body e = emitTarget t ++ sfx -> sfx <> [] ->
  needTarget t <= need e -> n <= need e -> SufSpine t ->
  (forall fuel k d rest, length sfx <= fuel -> fits d n -> rest <> [] ->
     suffixLoop (run fuel) (S k) t (st (sfx ++ rest) d) = suffixLoop (run fuel) k e (st rest d)) ->
  SufSpine e.
Proof.
  intros Hi Eb Hne Hn1 Hn2 Ht Hstep fuel d rest Hf Hd Hr.
  unfold emitTarget, needTarget in Hf, Hd |- *. rewrite Hi in *. cbn [negb andb wrap charge] in *.
  rewrite Eb in *. rewrite length_app in Hf.
  destruct (Ht fuel d (sfx ++ rest)) as (k & Hk & E).
  { lia. }
  { by eapply fits_le, Hd. }
  { by destruct sfx. }
  rewrite length_app in Hk. assert (0 < length sfx) by (destruct sfx; [done | cbn; lia]).
  destruct k as [|k]; [lia|]. exists k. split; [lia|].
  rewrite <- app_assoc, E. apply Hstep; [lia | by eapply fits_le, Hd | done].
Qed.

(** *** Postfix forms *)

Lemma or_ok n ts e fuel d rest :
  Parses 1 n ts e -> length ts < fuel -> fits d n -> stops 1 rest ->
  r_or (run fuel) (st (ts ++ rest) d) = POk e (st rest d).
Proof. intros Hp Hf. destruct fuel as [|fuel]; [lia|]. apply Hp. lia. Qed.

(** The head of an expression's text closes nothing. *)
Lemma starts_cons l ts :
  starts l ts -> exists t ts', ts = t :: ts' /\
    Type_ t <> TOKEN_RPAREN /\ Type_ t <> TOKEN_RBRACKET /\ Type_ t <> TOKEN_RBRACE /\
    Type_ t <> TOKEN_DOTDOT.
Proof.
  destruct ts as [|t ts]; [done|]. intros [Hn _]. rewrite !not_elem_of_cons in Hn.
  exists t, ts. tauto.
Qed.

Lemma index_step p t i fuel k d rest :
  ok i = true -> Reads i -> fits d (charge (level i <? 1) (need i)) ->
  length (tokAt p TOKEN_LBRACKET "[" :: emit 1 i ++ [tok TOKEN_RBRACKET "]"]) <= fuel ->
  suffixLoop (run fuel) (S k) t
    (st ((tokAt p TOKEN_LBRACKET "[" :: emit 1 i ++ [tok TOKEN_RBRACKET "]"]) ++ rest) d)
  = suffixLoop (run fuel) k (IndexExpr p t i) (st rest d).
Proof.
  intros Ho Hr Hd Hf. cbn [length] in Hf. rewrite length_app in Hf. cbn [length] in Hf.
  pose proof (or_ok _ _ _ fuel d (tok TOKEN_RBRACKET "]" :: rest) (reads_emit i 1 Ho Hr ltac:(lia))
                ltac:(lia) Hd I) as Hor.
  destruct (starts_cons 1 (emit 1 i)) as (u & us & E & Hn1 & Hn2 & Hn3 & Hn4).
  { by apply starts_wrap, body_starts. }
  rewrite E in *. cbn [app] in *. rewrite <- app_assoc. cbn [app].
  cbn [suffixLoop]. bt. cbn [Type_ tokAt]. bt. rewrite bool_decide_false by done.
  erewrite pbind_ok; [reflexivity|]. unfold parseBracketSuffix. bt. bt. rewrite tokPos_tok.
  apply allow_ok. bt. rewrite bool_decide_false by done.
  erewrite pbind_ok by (erewrite pbind_ok by exact Hor; reflexivity). cbn beta.
  bt. rewrite bool_decide_false by done. by bt.
Qed.

(** A bound of a slice: an expression or nothing, before the token that ends it. *)
Definition boundToks (o : option Expr) : list Token :=
  match o with Some x => emit 1 x | None => [] end.
Definition boundOk (d : Z) (o : option Expr) : Prop :=
  match o with
  | Some x => ok x = true /\ Reads x /\ fits d (charge (level x <? 1) (need x))
  | None => True
  end.

Lemma bound_ok o stop fuel d t rest :
  boundOk d o -> length (boundToks o) < fuel -> Type_ t = stop ->
  stop = TOKEN_DOTDOT \/ stop = TOKEN_RBRACKET ->
  (let* u := peek in
   if bool_decide (Type_ u = stop) then pret None
   else let* e := r_or (run fuel) in pret (Some e)) (st (boundToks o ++ t :: rest) d)
  = POk o (st (t :: rest) d).
Proof.
  intros Hb Hf Ht Hstop. destruct o as [x|]; cbn [boundToks boundOk app] in *.
  - destruct Hb as (Ho & Hr & Hd).
    assert (stops 1 (t :: rest)) by (cbn; destruct Hstop as [->| ->]; rewrite Ht; cbn; [lia | done]).
    pose proof (or_ok _ _ _ fuel d (t :: rest) (reads_emit x 1 Ho Hr ltac:(lia)) Hf Hd ltac:(done)) as Hor.
    destruct (starts_cons 1 (emit 1 x)) as (u & us & E & Hn1 & Hn2 & Hn3 & Hn4).
    { by apply starts_wrap, body_starts. }
    rewrite E in *. cbn [app] in *. bt.
    rewrite bool_decide_false by (destruct Hstop as [->| ->]; done).
    by erewrite pbind_ok by exact Hor.
  - bt. by rewrite bool_decide_true.
Qed.

Lemma slice_step p t lo hi fuel k d rest :
  boundOk d lo -> boundOk d hi ->
  length (tokAt p TOKEN_LBRACKET "[" :: boundToks lo ++ tok TOKEN_DOTDOT ".." :: boundToks hi ++
          [tok TOKEN_RBRACKET "]"]) <= fuel ->
  suffixLoop (run fuel) (S k) t
    (st ((tokAt p TOKEN_LBRACKET "[" :: boundToks lo ++ tok TOKEN_DOTDOT ".." :: boundToks hi ++
          [tok TOKEN_RBRACKET "]"]) ++ rest) d)
  = suffixLoop (run fuel) k (SliceExpr p t lo hi) (st rest d).
Proof.
  intros Hlo Hhi Hf. cbn [length] in Hf. rewrite !length_app in Hf. cbn [length] in Hf.
  rewrite !length_app in Hf. cbn [length] in Hf.
  cbn [app]. rewrite <- !app_assoc. cbn [app]. rewrite <- app_assoc. cbn [app].
  cbn [suffixLoop]. bt. cbn [Type_ tokAt].
  assert (exists u us, boundToks lo ++ tok TOKEN_DOTDOT ".." :: boundToks hi ++ tok TOKEN_RBRACKET "]" :: rest
                       = u :: us /\ Type_ u <> TOKEN_RBRACKET) as (u & us & E & Hu).
  { destruct lo as [x|]; [|by do 2 eexists]. destruct Hlo as (Ho & _).
    destruct (starts_cons 1 (emit 1 x)) as (u & us & E & Hn).
    { by apply starts_wrap, body_starts. }
    cbn [boundToks]. rewrite E. exists u. eexists. split; [done | tauto]. }
  rewrite E. bt. rewrite bool_decide_false by done. rewrite <- E.
  erewrite pbind_ok; [reflexivity|]. unfold parseBracketSuffix. bt. bt. rewrite tokPos_tok.
  apply allow_ok. rewrite <- bind_assoc.
  erewrite pbind_ok by (apply bound_ok; [done | lia | done | by left]). cbn beta.
  bt. rewrite bool_decide_true by done. bt. rewrite <- bind_assoc.
  erewrite pbind_ok by (apply bound_ok; [done | lia | done | by right]). cbn beta. by bt.
Qed.

Lemma field_step p t f fuel k d rest :
  suffixLoop (run fuel) (S k) t (st ([tokAt p TOKEN_DOT "."; tok TOKEN_IDENT f] ++ rest) d)
  = suffixLoop (run fuel) k (FieldAccessExpr p t f) (st rest d).
Proof.
  cbn [suffixLoop app]. bt. cbn [Type_ tokAt].
  erewrite pbind_ok; [reflexivity|]. unfold parseFieldSuffix. bt. bt. bt. by rewrite tokPos_tok.
Qed.

(** The arguments of a call, brackets included. *)
Lemma parseArgs_ok p close args fuel d rest :
  Forall Item args -> length (commas q (map body args)) < fuel ->
  fits d (maxList (map (fun x => S (need x)) args)) ->
  parseArgs (run fuel) close
    (st (tokAt p TOKEN_LPAREN "(" :: (commas q (map body args) ++ [tok TOKEN_RPAREN ")"]) ++ rest) d)
  = POk args (st rest d).
Proof.
  intros Hi Hf Hd. unfold parseArgs. bt. apply allow_ok. rewrite <- app_assoc. cbn [app].
  destruct args as [|e args].
  { cbn [map commas app]. bt. rewrite bool_decide_true by done. erewrite pbind_ok by done. by bt. }
  assert (exists u us, commas q (map body (e :: args)) = u :: us /\ Type_ u <> TOKEN_RPAREN)
    as (u & us & E & Hu).
  { apply Forall_cons in Hi as [[_ Hs] _]. destruct (starts_cons 0 (body e) Hs) as (u & us & E & Hn).
    cbn [map]. destruct (map body args); cbn [commas]; rewrite E; exists u; eexists; (split; [done | tauto]). }
  pose proof (commas_length _ (Item_nonempty _ Hi)) as Hlen. rewrite length_map in Hlen.
  pose proof (args_ok (e :: args) Hi ltac:(done) fuel
                (S (length (commas q (map body (e :: args)) ++ tok TOKEN_RPAREN ")" :: rest))) [] d rest
                ltac:(rewrite length_app; lia) Hf Hd) as Ha.
  rewrite E in *. cbn [app] in *. bt. rewrite bool_decide_false by done.
  erewrite pbind_ok by (rewrite looping_ok; exact Ha). cbn beta. by bt.
Qed.

Lemma call_step p f args fuel k d rest :
  Forall Item args -> length (commas q (map body args)) < fuel ->
  fits d (maxList (map (fun x => S (need x)) args)) ->
  suffixLoop (run fuel) (S k) f
    (st ((tokAt p TOKEN_LPAREN "(" :: commas q (map body args) ++ [tok TOKEN_RPAREN ")"]) ++ rest) d)
  = suffixLoop (run fuel) k (CallValueExpr p f args []) (st rest d).
Proof.
  intros Hi Hf Hd. cbn [suffixLoop app]. bt. cbn [Type_ tokAt]. rewrite tokPos_tok.
  unfold parseParenArgs. by erewrite pbind_ok by (by apply parseArgs_ok).
Qed.

(** *** Atoms *)

Lemma isBased_FormatInt n : (0 <= n)%Z -> isBased (FormatInt n) = false.
Proof.
  intros Hn. destruct (FormatInt_plain n Hn) as [->|(c & s' & -> & H0 & _)]; [done|].
  unfold isBased, HasPrefix. cbn [String.prefix].
  destruct (Ascii.ascii_dec _ c) as [E|_]; [by rewrite <- E in H0 | done].
Qed.

(** An atom that starts with a token of a given type. *)
Ltac atom := intros fuel d rest Hf Hd Hs; cbn [ladder level ParserRoundFacts.body app] in *;
  unfold parsePrimaryAtom; erewrite pbind_ok by done; cbn [seed ParserRoundFacts.st];
  bt; cbn [Type_ tokAt].

Lemma reads_int p n : (0 <= n <= maxInt64)%Z -> Reads (IntLit p n).
Proof.
  intros Hn. unfold Reads, level. cbn [ParserRoundFacts.body]. rewrite (proj2 (Z.ltb_ge _ _)) by lia.
  atom. bt. cbn [Lexeme tokAt]. rewrite isBased_FormatInt by lia.
  rewrite ParseInt_FormatInt by (unfold maxInt64 in *; lia). by rewrite tokPos_tok.
Qed.

Lemma reads_minInt p : Reads (IntLit p minInt64).
Proof.
  intros fuel d rest Hf Hd Hs. cbn [level ParserRoundFacts.body]. rewrite (proj2 (Z.ltb_lt _ _)) by done.
  cbn [ladder app]. unfold parseUnaryMinus. erewrite pbind_ok by done. cbn [seed ParserRoundFacts.st].
  bt. bt. cbn [Type_ tokAt]. rewrite bool_decide_true by done.
  erewrite (pbind_ok foldMostNegativeInt _ _ (Some (IntLit p minInt64)) (st rest d)); [done|].
  unfold foldMostNegativeInt. bt. cbn [Lexeme tokAt].
  rewrite isBased_FormatInt by (unfold minInt64; lia).
  rewrite ParseUint_FormatInt by (unfold minInt64; lia). rewrite (proj2 (Z.eqb_eq _ _)) by done. bt. by rewrite tokPos_tok.
Qed.

Lemma reads_float p f : ok (FloatLit p f) = true -> Reads (FloatLit p f).
Proof.
  intros Ho. cbn [ParserRoundFacts.ok] in Ho. atom. bt. cbn [Lexeme tokAt].
  destruct (ParseFloat (floatText f)) as [g|]; [|done]. apply bool_decide_eq_true in Ho as ->.
  by rewrite tokPos_tok.
Qed.

Lemma reads_simple e :
  match e with
  | StringLit _ _ | BoolLit _ _ | NullLit _ | VarExpr _ _ (-1) (-1) false => True
  | _ => False
  end -> Reads e.
Proof.
  destruct e; try done.
  - intros _. atom. bt. by rewrite tokPos_tok.
  - intros _. destruct Value_; atom; bt; by rewrite tokPos_tok.
  - intros _. atom. bt. by rewrite tokPos_tok.
  - intros Hp. assert (Depth = (-1)%Z /\ Slot = (-1)%Z /\ Move = false) as (-> & -> & ->).
    { destruct Depth as [| |[]]; try done. destruct Slot as [| |[]]; try done. by destruct Move. }
    atom. bt. by rewrite tokPos_tok.
Qed.

Lemma reads_list p es : Forall Item es -> Reads (ListLit p es).
Proof.
  intros Hi. atom. cbn [need length] in *. rewrite length_app in Hf. cbn [length] in Hf.
  pose proof (commas_length _ (Item_nonempty _ Hi)) as Hlen. rewrite length_map in Hlen.
  unfold parseListLit. bt. rewrite tokPos_tok. apply allow_ok. rewrite <- app_assoc. cbn [app].
  erewrite pbind_ok.
  2: { rewrite looping_ok. apply elems_ok; [done | rewrite length_app; cbn; lia | lia | done]. }
  cbn beta. by bt.
Qed.

Lemma reads_map p kvs :
  Forall (fun kv => Item (fst kv) /\ Item (snd kv)) kvs -> Reads (MapLit p kvs).
Proof.
  intros Hi. atom. cbn [need length] in *. fold entryToks in *.
  change (map (fun kv => body (fst kv) ++ tok TOKEN_COLON ":" :: body (snd kv)) kvs)
    with (map entryToks kvs) in *.
  rewrite length_app in Hf. cbn [length] in Hf.
  assert (Forall (fun ts => ts <> []) (map entryToks kvs)) as Hne.
  { apply Forall_forall. intros ts (kv & -> & _)%list_elem_of_fmap. unfold entryToks. by destruct (body _). }
  pose proof (commas_length _ Hne) as Hlen. rewrite length_map in Hlen.
  unfold parseMapLit. bt. rewrite tokPos_tok. apply allow_ok. rewrite <- app_assoc. cbn [app].
  erewrite pbind_ok.
  2: { rewrite looping_ok. apply entries_ok; [done | rewrite length_app; cbn; lia | lia | done]. }
  cbn beta. by bt.
Qed.

Lemma parseStructLitTail_ok fs fuel d rest :
  Forall (fun f => Item (snd (fst f))) fs -> NoDup (map (fun f => fst (fst f)) fs) ->
  length (commas q (map fieldToks fs)) < fuel ->
  fits d (maxList (map (fun f => S (need (snd (fst f)))) fs)) ->
  parseStructLitTail (run fuel)
    (st (tok TOKEN_LBRACE "{" :: (commas q (map fieldToks fs) ++ [tok TOKEN_RBRACE "}"]) ++ rest) d)
  = POk fs (st rest d).
Proof.
  intros Hi Hnd Hf Hd. unfold parseStructLitTail. bt. apply allow_ok. rewrite <- app_assoc. cbn [app].
  destruct (decide (fs = [])) as [->|Hfs].
  { cbn [map commas app]. bt. rewrite bool_decide_true by done. erewrite pbind_ok by done. by bt. }
  assert (Forall (fun ts => ts <> []) (map fieldToks fs)) as Hne.
  { apply Forall_forall. by intros ts (f & -> & _)%list_elem_of_fmap. }
  pose proof (commas_length _ Hne) as Hlen. rewrite length_map in Hlen.
  pose proof (fields_ok fs Hfs Hi fuel
                (S (length (commas q (map fieldToks fs) ++ tok TOKEN_RBRACE "}" :: rest))) [] [] d rest
                Hnd ltac:(apply Forall_forall; intros; apply not_elem_of_nil)
                ltac:(rewrite length_app; lia) Hf Hd) as Ha.
  destruct (fields_head fs Hfs) as (p' & y & ts & E). rewrite E in *. cbn [app] in *.
  bt. rewrite bool_decide_false by done.
  erewrite pbind_ok by (rewrite looping_ok; exact Ha). cbn beta. by bt.
Qed.

(** What the field loop needs of a literal's fields. *)
Definition Fields (fs : list (string * Expr * position)) : Prop :=
  Forall (fun f => Item (snd (fst f))) fs /\ NoDup (map (fun f => fst (fst f)) fs).

(** Fold the fields of a literal's text. *)
Ltac fields fs := cbn [need length] in *;
  change (map (fun f => tokAt (snd f) TOKEN_IDENT (fst (fst f)) :: tok TOKEN_COLON ":" :: body (snd (fst f))) fs)
    with (map fieldToks fs) in *;
  cbn [app length] in *; rewrite ?length_app in *; cbn [length] in *.

Lemma reads_struct p name fs : Fields fs -> Reads (StructLit p "" "" name false fs).
Proof.
  intros [Hi Hnd]. unfold Reads. cbn [ParserRoundFacts.body]. unfold structName. rewrite bool_decide_true by done.
  atom. fields fs.
  unfold identAtom. bt. bt. rewrite bool_decide_false by done.
  erewrite pbind_ok by done. bt. cbn [noStructLit ParserRoundFacts.st negb].
  rewrite bool_decide_true by done. cbn [andb].
  erewrite pbind_ok by (apply parseStructLitTail_ok; [done | done | lia | done]).
  cbn beta. by rewrite tokPos_tok.
Qed.

Lemma reads_qstruct p ns name fs : ns <> "" -> Fields fs -> Reads (StructLit p ns "" name false fs).
Proof.
  intros Hns [Hi Hnd]. unfold Reads. cbn [ParserRoundFacts.body]. unfold structName.
  rewrite (bool_decide_false (ns = "")), (bool_decide_true ("" = "")) by done.
  atom. fields fs. unfold identAtom. bt. bt. rewrite bool_decide_true by done.
  unfold parseQualifiedTail. bt. bt. cbn zeta. bt. rewrite bool_decide_false by done. cbn [andb].
  bt. rewrite bool_decide_false by done. erewrite pbind_ok by done. bt.
  cbn [noStructLit ParserRoundFacts.st negb]. rewrite bool_decide_true by done. cbn [andb].
  erewrite pbind_ok by (apply parseStructLitTail_ok; [done | done | lia | done]).
  cbn beta. by rewrite tokPos_tok.
Qed.

Lemma reads_variant p ns en name fs :
  ns <> "" -> en <> "" -> isValidConstName ns = false -> isValidConstName en = false -> Fields fs ->
  Reads (StructLit p ns en name false fs).
Proof.
  intros Hns Hen Hc1 Hc2 [Hi Hnd]. unfold Reads. cbn [ParserRoundFacts.body]. unfold structName.
  rewrite !bool_decide_false by done.
  atom. fields fs. unfold identAtom. bt. bt. rewrite bool_decide_true by done.
  unfold parseQualifiedTail. bt. bt. cbn zeta. bt. cbn [Lexeme tokAt].
  rewrite bool_decide_true, Hc1, Hc2 by done. cbn [andb negb]. bt. bt.
  erewrite pbind_ok by done. bt. cbn [noStructLit ParserRoundFacts.st negb].
  rewrite bool_decide_true by done. cbn [andb].
  erewrite pbind_ok by (apply parseStructLitTail_ok; [done | done | lia | done]).
  cbn beta. by rewrite tokPos_tok.
Qed.

(** A name that a postfix form would extend stands alone. *)
Lemma reads_name e :
  level e = 12 ->
  (forall fuel d t rest, ~ (Type_ t ∈ [TOKEN_DOT; TOKEN_LBRACE; TOKEN_LPAREN]) ->
     parsePrimaryAtom (run fuel) (st (body e ++ t :: rest) d) = POk e (st (t :: rest) d)) ->
  Reads e.
Proof.
  intros El Ha fuel d rest Hf Hd Hs. rewrite El in *. cbn [ladder].
  destruct rest as [|t rest]; [done|]. unfold parsePrimary. erewrite pbind_ok.
  - rewrite looping_ok. apply suffix_stop; [done | lia].
  - apply Ha. cbn in Hs. intros Hin. repeat (apply elem_of_cons in Hin as [Hin|Hin];
      [rewrite Hin in Hs; cbn in Hs; lia|]). by apply elem_of_nil in Hin.
Qed.

(** The token after such a name continues nothing. *)
Ltac alone Ht := rewrite bool_decide_false by (intros E; apply Ht; rewrite E; set_solver).
Ltac named Ht := intros fuel d t rest Ht; cbn [ParserRoundFacts.body app];
  try (unfold structName; rewrite !bool_decide_false by done; cbn [app]); unfold parsePrimaryAtom;
  erewrite pbind_ok by done; cbn [seed ParserRoundFacts.st]; bt; cbn [Type_ tokAt]; unfold identAtom;
  bt; bt.

Lemma reads_const p x : Reads (ConstRefExpr p x (-1) (-1)).
Proof.
  apply reads_name; [done|]. named Ht. alone Ht.
  erewrite pbind_ok by done. bt. cbn [noStructLit ParserRoundFacts.st negb]. alone Ht. cbn [andb].
  bt. alone Ht. cbn [negb]. by rewrite tokPos_tok.
Qed.

Lemma reads_qconst p pre x :
  isValidConstName x || negb (isValidConstName pre) = true -> Reads (QualifiedConstRefExpr p pre x).
Proof.
  intros Hc. apply reads_name; [done|]. named Ht. rewrite bool_decide_true by done.
  unfold parseQualifiedTail. bt. bt. cbn zeta. bt. alone Ht. cbn [andb]. bt. alone Ht.
  erewrite pbind_ok by done. bt. cbn [noStructLit ParserRoundFacts.st negb]. alone Ht. cbn [andb].
  cbn [Lexeme tokAt]. rewrite tokPos_tok.
  by destruct (isValidConstName x), (isValidConstName pre).
Qed.

Lemma reads_bareVariant p ns en name :
  ns <> "" -> en <> "" -> isValidConstName ns = false -> isValidConstName en = false ->
  Reads (StructLit p ns en name true []).
Proof.
  intros Hns Hen Hc1 Hc2. apply reads_name; [done|]. named Ht. rewrite bool_decide_true by done.
  unfold parseQualifiedTail. bt. bt. cbn zeta. bt. cbn [Lexeme tokAt].
  rewrite bool_decide_true, Hc1, Hc2 by done. cbn [andb negb]. bt. bt.
  erewrite pbind_ok by done. bt. cbn [noStructLit ParserRoundFacts.st negb]. alone Ht. cbn [andb].
  by rewrite tokPos_tok.
Qed.

Lemma reads_call p f args :
  containsUnderscore f = false -> Forall Item args -> Reads (CallExpr p f args None 0 []).
Proof.
  intros Hu Hi. atom. cbn [need length] in *. rewrite length_app in Hf. cbn [length] in Hf.
  unfold identAtom. bt. bt. rewrite bool_decide_false by done.
  erewrite pbind_ok by done. bt. cbn [noStructLit ParserRoundFacts.st negb].
  rewrite bool_decide_false by done. cbn [andb]. bt. rewrite bool_decide_true by done. cbn [negb].
  unfold parseCallTail. cbn [Lexeme tokAt]. rewrite Hu, andb_false_r.
  unfold parseParenArgs. erewrite pbind_ok by (apply parseArgs_ok; [done | lia | done]).
  cbn beta. by rewrite tokPos_tok.
Qed.

Lemma reads_qcall p pre f args :
  containsUnderscore f = false -> Forall Item args -> Reads (QualifiedCallExpr p pre f args 0 []).
Proof.
  intros Hu Hi. atom. cbn [need length] in *. rewrite length_app in Hf. cbn [length] in Hf.
  unfold identAtom. bt. bt. rewrite bool_decide_true by done.
  unfold parseQualifiedTail. bt. bt. cbn zeta. bt. rewrite bool_decide_false by done. cbn [andb].
  bt. rewrite bool_decide_true by done. unfold noUnderscore. cbn [Lexeme tokAt]. rewrite Hu.
  erewrite pbind_ok by done. erewrite pbind_ok by (apply parseArgs_ok; [done | lia | done]).
  cbn beta. by rewrite tokPos_tok.
Qed.

Lemma reads_len p x : Item x -> Reads (LenExpr p x).
Proof.
  intros Hi. atom. cbn [need length] in *. rewrite length_app in Hf. cbn [length] in Hf.
  bt. bt. rewrite <- app_assoc. cbn [app].
  erewrite pbind_ok by (apply item_expr; [done | lia | done | done]). cbn beta. bt. by rewrite tokPos_tok.
Qed.

(** *** Ranges and prefix operators *)

Lemma reads_range lo hi :
  ok lo = true -> ok hi = true -> Reads lo -> Reads hi -> Reads (RangeExpr (posFor lo) lo hi).
Proof.
  intros Hol Hoh Hl Hh fuel d rest Hf Hd Hs. cbn [ladder level ParserRoundFacts.body need] in *.
  fold (emit 1 lo) in *. fold (emit 1 hi) in *. rewrite length_app in Hf. cbn [length] in Hf.
  rewrite <- app_assoc. cbn [app]. unfold parseRange.
  erewrite pbind_ok by (apply (reads_emit lo 1); [done | done | lia | lia | unfold fits in *; lia | cbn; lia]).
  cbn beta. bt. rewrite bool_decide_true by done. cbn [negb]. bt.
  erewrite pbind_ok
    by (apply (reads_emit hi 1); [done | done | lia | lia | unfold fits in *; lia | by eapply stops_le, Hs; lia]).
  cbn beta. destruct rest as [|t rest]; [done|]. bt. rewrite bool_decide_false.
  - done.
  - intros E. cbn in Hs. rewrite E in Hs. cbn in Hs. lia.
Qed.

(** An operand after one charged level. *)
Lemma deeper_ok (c : P Expr) e ts rest d :
  (d < MaxNestingDepth)%Z -> c (st (ts ++ rest) (d + 1)) = POk e (st rest (d + 1)) ->
  deeperExpr c (st (ts ++ rest) d) = POk e (st rest d).
Proof.
  intros Hd Hc. unfold deeperExpr. erewrite pbind_ok by (by apply deepen_ok).
  erewrite pbind_ok by exact Hc. cbn. unfold pret, setExprDepth, ParserRoundFacts.st. cbn.
  repeat f_equal. lia.
Qed.

(** An integer literal at the start of a text fits in 64 bits: the sign before it is an
    operator. *)
Definition intHead (ts : list Token) : Prop :=
  match ts with
  | t :: _ => Type_ t = TOKEN_INT -> exists n, (0 <= n <= maxInt64)%Z /\ Lexeme t = FormatInt n
  | [] => True
  end.

Lemma intHead_wrap b ts : intHead ts -> intHead (wrap q b ts).
Proof. by destruct b. Qed.
Lemma intHead_app ts rest : ts <> [] -> intHead ts -> intHead (ts ++ rest).
Proof. by destruct ts. Qed.

Lemma body_nonempty e : ok e = true -> body e <> [].
Proof. intros Ho E. pose proof (body_starts e Ho) as Hs. by rewrite E in Hs. Qed.
Lemma wrap_nonempty b ts : ts <> [] -> wrap q b ts <> [].
Proof. by destruct b. Qed.

Lemma body_intHead e : ok e = true -> intHead (body e).
Proof.
  induction e as [e IH] using body_ind. intros Ho.
  assert (forall x b rest, length (body x) < length (body e) -> ok x = true ->
            intHead (wrap q b (body x) ++ rest)) as Hl.
  { intros x b rest Hx Hox. apply intHead_app; [by apply wrap_nonempty, body_nonempty|].
    by apply intHead_wrap, IH. }
  destruct e; cbn [ParserRoundFacts.ok] in Ho; try done; okinv Ho; cbn [ParserRoundFacts.body] in *.
  - case_match; [done|]. intros _. exists Value_. split; [|done].
    match goal with E : (_ <? _)%Z = false |- _ => apply Z.ltb_ge in E end.
    repeat match goal with E : (_ <=? _)%Z = true |- _ => apply Z.leb_le in E end. lia.
  - by destruct Value_.
  - apply Hl; [short | done].
  - apply Hl; [short | done].
  - apply Hl; [short | done].
  - by destruct (structName_head p NS Enum Name) as (x & ts & ->).
  - apply Hl; [short | done].
  - apply Hl; [short | done].
  - by destruct Op.
  - apply Hl; [short | done].
Qed.

Lemma fold_none e l rest d :
  ok e = true ->
  exists t ts, emit l e ++ rest = t :: ts /\
    (if bool_decide (Type_ t = TOKEN_INT) then foldMostNegativeInt else pret None)
      (st (emit l e ++ rest) d) = POk None (st (emit l e ++ rest) d).
Proof.
  intros Ho. pose proof (body_intHead e Ho) as Hi.
  apply (intHead_wrap (level e <? l)) in Hi. fold (emit l e) in Hi.
  assert (emit l e <> []) by (by apply wrap_nonempty, body_nonempty).
  destruct (emit l e) as [|t ts]; [done|]. exists t, (ts ++ rest). split; [done|]. cbn [app].
  case_bool_decide as Ht; [|done]. destruct (Hi Ht) as (n & Hn & E).
  unfold foldMostNegativeInt. bt. rewrite E, isBased_FormatInt by lia.
  rewrite ParseUint_FormatInt by (unfold maxInt64 in *; lia).
  by rewrite (proj2 (Z.eqb_neq _ _)) by (unfold maxInt64 in *; lia).
Qed.

Lemma reads_unary p op x : ok x = true -> Reads x -> Reads (UnaryExpr p op x None).
Proof.
  intros Ho Hr fuel d rest Hf Hd Hs. cbn [level ParserRoundFacts.body need length] in *.
  fold (emit (unLevel op) x) in *. destruct fuel as [|fuel]; [lia|].
  assert (unLevel op <= 13) by (destruct op; cbn; lia).
  assert (d < MaxNestingDepth)%Z by (unfold fits in Hd; lia).
  pose proof (reads_emit x (unLevel op) Ho Hr ltac:(done) fuel (d + 1)%Z rest ltac:(lia)
                ltac:(unfold fits in *; lia) Hs) as Hx.
  destruct op; cbn [unTok unLevel ladder app] in *.
  - unfold parseUnaryMinus at 1. erewrite pbind_ok by done. cbn [seed ParserRoundFacts.st].
    bt. destruct (fold_none x 11 rest d Ho) as (t & ts & E & Hfold).
    erewrite pbind_ok by (rewrite E; apply peek_ok). cbn beta. rewrite <- E.
    erewrite pbind_ok by exact Hfold. cbn beta match. unfold prefixed.
    erewrite pbind_ok by (apply deeper_ok; [done | exact Hx]). by rewrite tokPos_tok.
  - unfold parseNot at 1. erewrite pbind_ok by done. cbn [seed ParserRoundFacts.st].
    bt. unfold prefixed. erewrite pbind_ok by (apply deeper_ok; [done | exact Hx]). by rewrite tokPos_tok.
  - unfold parseUnaryMinus at 1. erewrite pbind_ok by done. cbn [seed ParserRoundFacts.st].
    bt. bt. unfold prefixed.
    erewrite pbind_ok by (apply deeper_ok; [done | exact Hx]). by rewrite tokPos_tok.
Qed.

(** *** Every expression *)

Definition Full (e : Expr) : Prop :=
  Reads e /\ (forall l, isRung l -> Spine l e) /\ SufSpine e.

Definition isBinary (e : Expr) : bool := match e with BinaryExpr _ _ _ _ _ => true | _ => false end.

Lemma level_rung e : isRung (level e) -> isBinary e = true.
Proof.
  unfold isRung. intros Hl.
  destruct e; cbn in *; try done; try (case_match || (destruct Op; cbn in Hl)).
  all: repeat (apply elem_of_cons in Hl as [?|Hl]; [done|]); by apply elem_of_nil in Hl.
Qed.

Lemma full_plain e : ok e = true -> isSuffix e = false -> isBinary e = false -> Reads e -> Full e.
Proof.
  intros Ho Hi Hb Hr. split_and!; [done | | by apply sufspine_atom].
  intros l Hl. apply spine_operand; [done | done | done |]. intros <-.
  apply level_rung in Hl. congruence.
Qed.

Lemma full_suffix e : ok e = true -> isSuffix e = true -> SufSpine e -> Full e.
Proof.
  intros Ho Hi Hs. pose proof (reads_suffix e Hi Hs) as Hr. split_and!; [done | | done].
  intros l Hl. apply spine_operand; [done | done | done |]. intros <-.
  apply level_rung in Hl. by destruct e.
Qed.

Lemma full_binary p op l r :
  p = posFor l -> ok (BinaryExpr p op l r None) = true -> Full l -> Full r -> Full (BinaryExpr p op l r None).
Proof.
  intros Hp Ho (Hl & Hsp & _) (Hr & _). assert (Hob := Ho). cbn [ParserRoundFacts.ok] in Ho. okinv Ho.
  assert (Spine (binLevel op) l) by apply Hsp, binLevel_rung.
  assert (Reads (BinaryExpr p op l r None)) by (by apply reads_binary).
  split_and!; [done | | by apply sufspine_atom].
  intros L HL. destruct (decide (binLevel op = L)) as [<-|Hne]; [by apply spine_binary|].
  by apply spine_operand.
Qed.

Lemma commas_elem ts items : ts ∈ items -> length ts <= length (commas q items).
Proof.
  induction items as [|ts' items IH]; [by intros ?%elem_of_nil|].
  intros [->|Hin]%elem_of_cons; cbn [commas]; (destruct items; [|rewrite length_app; cbn [length]]);
    [lia | lia | by apply elem_of_nil in Hin | apply IH in Hin; lia].
Qed.

Lemma full_items e es :
  (forall x, length (body x) < length (body e) -> ok x = true -> Full x) ->
  forallb ok es = true -> length (commas q (map body es)) < length (body e) -> Forall Item es.
Proof.
  intros IH Ho Hl. apply Forall_forall. intros x Hx.
  assert (ok x = true) by (rewrite forallb_forall in Ho; apply Ho; by apply list_elem_of_In).
  apply reads_item; [done|]. apply IH; [|done].
  pose proof (commas_elem (body x) (map body es)) as Hc. unshelve epose proof (Hc _); [|lia].
  apply list_elem_of_fmap. by exists x.
Qed.

Lemma full_int p n : ok (IntLit p n) = true -> Full (IntLit p n).
Proof.
  intros Ho. apply full_plain; [done | done | done |]. cbn [ParserRoundFacts.ok] in Ho.
  rewrite !andb_true_iff, orb_true_iff, !Z.leb_le, Z.eqb_eq in Ho.
  destruct Ho as [[H1 H2] [H3| ->]]; [apply reads_int; lia | apply reads_minInt].
Qed.

Lemma full_index p t i :
  ok (IndexExpr p t i) = true -> Full t -> Full i -> Full (IndexExpr p t i).
Proof.
  intros Ho (_ & _ & Ht) (Hi & _). apply full_suffix; [done | done |].
  cbn [ParserRoundFacts.ok] in Ho. okinv Ho.
  eapply (sufspine_step _ t _ (charge (level i <? 1) (need i))); [done | reflexivity | done | | | done |].
  - cbn [need]. unfold needTarget. lia.
  - cbn [need]. lia.
  - intros fuel k d rest Hf Hd _. by apply index_step.
Qed.

Lemma full_slice p t lo hi :
  ok (SliceExpr p t lo hi) = true -> Full t ->
  (forall x, lo = Some x -> Full x) -> (forall x, hi = Some x -> Full x) -> Full (SliceExpr p t lo hi).
Proof.
  intros Ho (_ & _ & Ht) Hlo Hhi. apply full_suffix; [done | done |].
  cbn [ParserRoundFacts.ok] in Ho. okinv Ho.
  set (nb := fun o => match o with Some x => charge (level x <? 1) (need x) | None => 0 end).
  assert (forall o d, match o with Some x => ok x | None => true end = true ->
            (forall x, o = Some x -> Full x) -> fits d (nb o) -> boundOk d o) as Hb.
  { intros [x|] d Hox Hx Hd; [|done]. split_and!; [done | by apply Hx | done]. }
  eapply (sufspine_step _ t _ (Nat.max (nb lo) (nb hi))); [done | reflexivity | done | | | done |].
  - cbn [need]. unfold needTarget. lia.
  - cbn [need]. unfold nb. lia.
  - intros fuel k d rest Hf Hd _.
    apply slice_step; [apply Hb; [done | done |] | apply Hb; [done | done |] | done];
      (eapply fits_le, Hd; lia).
Qed.

Lemma full_field p t f : ok (FieldAccessExpr p t f) = true -> Full t -> Full (FieldAccessExpr p t f).
Proof.
  intros Ho (_ & _ & Ht). apply full_suffix; [done | done |].
  eapply (sufspine_step _ t _ 0); [done | reflexivity | done | | | done |].
  - cbn [need]. unfold needTarget. lia.
  - lia.
  - intros. apply field_step.
Qed.

Lemma full_callvalue p f args :
  ok (CallValueExpr p f args []) = true -> Full f -> Forall Item args -> Full (CallValueExpr p f args []).
Proof.
  intros Ho (_ & _ & Ht) Hi. apply full_suffix; [done | done |].
  apply (sufspine_step _ f
           (tokAt p TOKEN_LPAREN "(" :: commas q (map body args) ++ [tok TOKEN_RPAREN ")"])
           (maxList (map (fun x => S (need x)) args)));
    [done | reflexivity | done | | | done |].
  - cbn [need]. unfold needTarget. lia.
  - cbn [need]. lia.
  - intros fuel k d rest Hf Hd _. cbn [length] in Hf. rewrite length_app in Hf. cbn [length] in Hf.
    apply call_step; [done | lia | done].
Qed.

(** A part is shorter, so it is known. *)
Ltac part IH := apply IH; [short | done].

Lemma full_pairs e kvs :
  (forall x, length (body x) < length (body e) -> ok x = true -> Full x) ->
  forallb (fun kv => ok (fst kv) && ok (snd kv)) kvs = true ->
  length (commas q (map entryToks kvs)) < length (body e) ->
  Forall (fun kv => Item (fst kv) /\ Item (snd kv)) kvs.
Proof.
  intros IH Ho Hl. apply Forall_forall. intros [x v] Hx.
  assert (ok x && ok v = true) as [Hox Hov]%andb_true_iff.
  { rewrite forallb_forall in Ho. apply (Ho (x, v)). by apply list_elem_of_In. }
  pose proof (commas_elem (entryToks (x, v)) (map entryToks kvs)) as Hc.
  unshelve epose proof (Hc _) as Hlen; [apply list_elem_of_fmap; by exists (x, v)|].
  unfold entryToks in Hlen at 1. cbn [fst snd] in *. rewrite length_app in Hlen. cbn [length] in Hlen.
  split; (apply reads_item; [done | apply IH; [lia | done]]).
Qed.

Lemma full_fields e fs :
  (forall x, length (body x) < length (body e) -> ok x = true -> Full x) ->
  forallb (fun f => ok (snd (fst f))) fs = true ->
  length (commas q (map fieldToks fs)) < length (body e) ->
  Forall (fun f => Item (snd (fst f))) fs.
Proof.
  intros IH Ho Hl. apply Forall_forall. intros [[n x] p] Hx.
  assert (ok x = true) as Hox.
  { rewrite forallb_forall in Ho. apply (Ho (n, x, p)). by apply list_elem_of_In. }
  pose proof (commas_elem (fieldToks (n, x, p)) (map fieldToks fs)) as Hc.
  unshelve epose proof (Hc _) as Hlen; [apply list_elem_of_fmap; by exists (n, x, p)|].
  cbn [fieldToks length fst snd] in *. apply reads_item; [done | apply IH; [lia | done]].
Qed.

Lemma full_struct p ns en name bare fs :
  (forall x, length (body x) < length (body (StructLit p ns en name bare fs)) -> ok x = true -> Full x) ->
  ok (StructLit p ns en name bare fs) = true -> Full (StructLit p ns en name bare fs).
Proof.
  intros IH Ho. assert (Hoe := Ho). cbn [ParserRoundFacts.ok] in Ho. okinv Ho.
  apply full_plain; [done | done | done |].
  assert (bare = false -> Fields fs) as Hfs.
  { intros ->. split; [|done]. eapply full_fields; [done | done |].
    destruct (structName_head p ns en name) as (x & ts & E).
    cbn [ParserRoundFacts.body]. rewrite E. unfold fieldToks. short. }
  destruct bare; cbn [negb orb] in *.
  - match goal with E : bool_decide _ = true |- _ => apply bool_decide_eq_true in E; apply nil_length_inv in E as -> end.
    unfold okName in *. case_bool_decide; [done|].
    repeat match goal with E : _ && _ = true |- _ => apply andb_true_iff in E as [] end.
    repeat match goal with E : negb _ = true |- _ => apply negb_true_iff in E end.
    apply reads_bareVariant; try done. by eapply bool_decide_eq_false_1.
  - specialize (Hfs eq_refl). unfold okName in *. destruct (decide (ns = "")) as [->|Hns].
    + case_bool_decide as He; [|done]. subst. by apply reads_struct.
    + case_bool_decide as He; [subst; by apply reads_qstruct|].
      repeat match goal with E : _ && _ = true |- _ => apply andb_true_iff in E as [] end.
      repeat match goal with E : negb _ = true |- _ => apply negb_true_iff in E end.
      by apply reads_variant.
Qed.

Lemma full e : ok e = true -> Full e.
Proof.
  induction e as [e IH] using body_ind. intros Ho. assert (Hoe := Ho).
  destruct e; cbn [ParserRoundFacts.ok] in Ho; try done; okinv Ho; subst;
    try (repeat match goal with
         | E : match ?x with _ => _ end = true |- _ => destruct x; try done end; []).
  - by apply full_int.
  - apply full_plain; [done | done | done |]. by apply reads_float.
  - apply full_plain; [done | done | done |]. by apply reads_simple.
  - apply full_plain; [done | done | done |]. by apply reads_simple.
  - apply full_plain; [done | done | done |]. by apply reads_simple.
  - apply full_plain; [done | done | done |]. apply reads_list. eapply full_items; [done | done | short].
  - apply full_plain; [done | done | done |]. apply reads_map. eapply full_pairs; [done | done |].
    unfold entryToks. short.
  - apply full_index; [done | part IH | part IH].
  - apply full_plain; [done | done | done |]. apply reads_range; [done | done | part IH | part IH].
  - apply full_slice; [done | part IH | intros x -> | intros x ->]; part IH.
  - by apply full_struct.
  - apply full_field; [done | part IH].
  - apply full_plain; [done | done | done |].
    match goal with E : negb Move = true |- _ => apply negb_true_iff in E as -> end.
    repeat match goal with E : (_ =? _)%Z = true |- _ => apply Z.eqb_eq in E as -> end.
    by apply reads_simple.
  - apply full_plain; [done | done | done |].
    repeat match goal with E : (_ =? _)%Z = true |- _ => apply Z.eqb_eq in E as -> end.
    by apply reads_const.
  - apply full_plain; [done | done | done |].
    match goal with E : negb _ = true |- _ => apply negb_true_iff in E end.
    apply reads_call; [done|]. eapply full_items; [done | done | short].
  - apply full_callvalue; [done | part IH |]. eapply full_items; [done | done | short].
  - apply full_plain; [done | done | done |]. apply reads_len, reads_item; [done | part IH].
  - apply full_plain; [done | done | done |].
    match goal with E : negb _ = true |- _ => apply negb_true_iff in E end.
    apply reads_qcall; [done|]. eapply full_items; [done | done | short].
  - apply full_plain; [done | done | done |]. by apply reads_qconst.
  - apply full_plain; [done | done | done |]. apply reads_unary; [done | part IH].
  - apply full_binary; [done | done | part IH | part IH].
Qed.
End Round.

(** C35: expressions round-trip.  Write an expression tree as tokens with parentheses only
    where the precedence table asks for them, each node's own token at the node's position
    and every delimiter at [q], and let anything follow that cannot continue an expression:
    [parseExpr] reads exactly those tokens and returns the same tree, positions included,
    with the parser's state as it was.  Covered are all operators, ranges, indexing, slices,
    fields, calls by name, by qualified name and of a value, lists, maps, struct literals
    (bare, qualified, enum variants with or without fields), names, qualified names and
    literals: integers in decimal, floats in any text that [ParseFloat] reads as the value,
    strings, booleans and null.  Not covered are interpolated strings, [spawn], integers in
    another base, keywords used as field or function names, and a prefix that is spelled
    like a constant where the parser reads a field of that constant.  The only bounds are
    the nesting limit, counted as the parser charges it, and the fuel, one per token. *)
Theorem parseExpr_roundtrip `{Limits} (floatText : float64 -> string) (q : position) (e : Expr)
    (rest : list Token) (fuel : nat) (d sd td : Z) (bud : option Z)
    (Hok : ok floatText e = true) (Hrest : stops 0 rest)
    (Hfuel : length (body floatText q e) <= fuel)
    (Hdepth : (d + Z.of_nat (need e) < MaxNestingDepth)%Z) :
  parseExpr (run fuel) (mkParser (body floatText q e ++ rest) None d sd td bud false)
  = POk e (mkParser rest None d sd td bud false).
Proof.
  destruct (full floatText q sd td bud e Hok) as (Hr & _).
  destruct (reads_item floatText q sd td bud e Hok Hr) as [Hp _].
  pose proof (expr_ok sd td bud (need e) (body floatText q e) e (S fuel) d rest Hp ltac:(lia)
                ltac:(unfold fits; lia) Hrest) as Hx.
  cbn [run r_expr] in Hx. exact Hx.
Qed.

(** Positions of a sample text: line 1, the given column. *)
Definition at_ (col : nat) : position := Pos "a.j" 1 (Z.of_nat col).

Definition sampleExpr : Expr :=
  let x c := VarExpr (at_ c) "x" (-1) (-1) false in
  let bin op l r := BinaryExpr (posFor l) op l r None in
  bin OpOr (UnaryExpr (at_ 1) OpNot (bin OpEq (x 2) (IntLit (at_ 3) minInt64)) None)
    (bin OpLt
       (bin OpSub (bin OpSub (IntLit (at_ 4) 7) (bin OpMul (bin OpAdd (x 5) (x 6)) (FloatLit (at_ 7) fzero)))
          (StructLit (at_ 8) "geo" "shape" "circle" true []))
       (UnaryExpr (at_ 9) OpNeg
          (IndexExpr (at_ 10)
             (FieldAccessExpr (at_ 11)
                (StructLit (at_ 12) "geo" "" "grid" false [("w", QualifiedConstRefExpr (at_ 13) "math" "PI", at_ 14)])
                "cells")
             (CallExpr (at_ 15) "at"
                [x 16; RangeExpr (at_ 17) (IntLit (at_ 17) 0) (LenExpr (at_ 18) (ConstRefExpr (at_ 19) "ORIGIN" (-1) (-1)))]
                None 0 []))
          None)).

Lemma parseExpr_roundtrip_witness :
  let text := fun _ : float64 => "0.0" in
  let rest := [tokAt (at_ 0) TOKEN_SEMI ";"; tokAt (at_ 0) TOKEN_EOF ""] in
  @parseExpr limits_tiny (@run limits_tiny 70)
    (mkParser (body text (at_ 0) sampleExpr ++ rest) None 0 0 0 None false)
  = POk sampleExpr (mkParser rest None 0 0 0 None false).
Proof.
  intros text rest.
  apply (@parseExpr_roundtrip limits_tiny text (at_ 0) sampleExpr rest 70 0 0 0 None).
  - vm_compute. reflexivity.
  - exact I.
  - apply Nat.leb_le. vm_compute. reflexivity.
  - vm_compute. reflexivity.
Defined.

(** * Nesting *)

(** [$x[$x[ ... $x ... ]]]. *)
Fixpoint nestedIndex (q : position) (n : nat) : Expr :=
  let x := VarExpr q "x" (-1) (-1) false in
  match n with
  | O => x
  | S n => IndexExpr q x (nestedIndex q n)
  end.

Fixpoint indexDepth (e : Expr) : nat :=
  match e with IndexExpr _ _ i => S (indexDepth i) | _ => 0 end.

(** [[[ ... ]]]: list [k] at position [place k], with [n] more lists inside it. *)
Fixpoint nestedList (place : nat -> position) (k n : nat) : Expr :=
  ListLit (place k) (match n with O => [] | S n => [nestedList place (S k) n] end).

Lemma nestedIndex_level q n : 1 <= level (nestedIndex q n).
Proof. destruct n; cbn; lia. Qed.

Lemma nestedIndex_need q n : need (nestedIndex q n) = 0.
Proof.
  induction n as [|n IH]; [done|]. cbn [nestedIndex need level isSuffix].
  rewrite (proj2 (Nat.ltb_ge _ 1)) by apply nestedIndex_level. cbn. apply IH.
Qed.

Lemma nestedIndex_depth q n : indexDepth (nestedIndex q n) = n.
Proof. induction n; cbn; congruence. Qed.

Lemma nestedList_need place k n : need (nestedList place k n) = n.
Proof.
  revert k. induction n as [|n IH]; intros k; [done|]. cbn [nestedList need map maxList foldr].
  rewrite IH. lia.
Qed.

Section Nested.
Variables (floatText : float64 -> string) (q : position).
Abbreviation body := (body floatText q).

Lemma nestedIndex_ok p n : ok floatText (nestedIndex p n) = true.
Proof. by induction n as [|n IH]; cbn; rewrite ?IH. Qed.

Lemma nestedList_ok place k n : ok floatText (nestedList place k n) = true.
Proof. revert k. induction n as [|n IH]; intros k; [done|]. cbn. by rewrite IH. Qed.

(** Every list starts with its bracket; the text has more tokens than nested lists. *)
Lemma nestedList_body place k n :
  body (nestedList place k n) =
  tokAt (place k) TOKEN_LBRACKET "[" ::
  match n with O => [] | S n => body (nestedList place (S k) n) end ++ [tokAt q TOKEN_RBRACKET "]"].
Proof. by destruct n. Qed.

Lemma nestedList_length place k n : n < length (body (nestedList place k n)).
Proof.
  revert k. induction n as [|n IH]; intros k; rewrite nestedList_body; [cbn; lia|].
  cbn [length]. rewrite length_app. specialize (IH (S k)). cbn [length]. lia.
Qed.
End Nested.

(** ** The error *)

Section Lists.
Context `{Limits}.
Variables (floatText : float64 -> string) (q : position) (sd td : Z) (bud : option Z).
Abbreviation st := (st sd td bud).

Definition nestingErr (p : position) : parseError :=
  EParse (Sprintf "expression nesting exceeds %d levels" [AInt MaxNestingDepth]) p.

Lemma pbind_err {A B} (c : P A) (k : A -> P B) p e : c p = PErr e -> pbind c k p = PErr e.
Proof. unfold pbind. by intros ->. Qed.

Lemma rung_err ops next p e : next p = PErr e -> rung ops next p = PErr e.
Proof. intros Hn. unfold rung. by apply pbind_err. Qed.

(** An error in the first atom is the error of the whole expression. *)
Lemma ladder_err rec p ts d e :
  parsePrimaryAtom rec (st (tokAt p TOKEN_LBRACKET "[" :: ts) d) = PErr e ->
  parseRange rec (st (tokAt p TOKEN_LBRACKET "[" :: ts) d) = PErr e.
Proof.
  intros Ha. unfold parseRange. apply pbind_err. do 2 apply rung_err.
  unfold parseNot. erewrite pbind_ok by done. cbn [seed ParserRoundFacts.st]. bt.
  do 7 apply rung_err. unfold parseUnaryMinus. erewrite pbind_ok by done.
  cbn [seed ParserRoundFacts.st]. bt. bt. by apply pbind_err.
Qed.

Lemma parseExpr_err rec ts d e :
  (d < MaxNestingDepth)%Z -> parseRange rec (st ts (d + 1)) = PErr e ->
  parseExpr rec (st ts d) = PErr e.
Proof.
  intros Hd Hr. unfold parseExpr. erewrite pbind_ok by done. cbn [exprDepth ParserRoundFacts.st].
  rewrite (proj2 (Z.leb_gt _ _)) by lia. erewrite pbind_ok by done. by apply pbind_err.
Qed.

Lemma parseExpr_limit rec t ts d :
  (MaxNestingDepth <= d)%Z -> parseExpr rec (st (t :: ts) d) = PErr (nestingErr (tokPos t)).
Proof.
  intros Hd. unfold parseExpr. erewrite pbind_ok by done. cbn [exprDepth ParserRoundFacts.st].
  rewrite (proj2 (Z.leb_le _ _)) by lia. unfold nestingError. by bt.
Qed.

Lemma listLit_err rec p p' ts d e :
  r_expr rec (st (tokAt p' TOKEN_LBRACKET "[" :: ts) d) = PErr e ->
  parsePrimaryAtom rec (st (tokAt p TOKEN_LBRACKET "[" :: tokAt p' TOKEN_LBRACKET "[" :: ts) d) = PErr e.
Proof.
  intros Hr. unfold parsePrimaryAtom. erewrite pbind_ok by done. cbn [seed ParserRoundFacts.st].
  bt. cbn [Type_ tokAt]. unfold parseListLit. bt. unfold allowStructLit.
  erewrite pbind_ok by done. cbn zeta. erewrite pbind_ok by done. apply pbind_err, pbind_err.
  unfold looping. cbn [elemsLoop].
  change (setNoStructLit false (st (tokAt p' TOKEN_LBRACKET "[" :: ts) d))
    with (st (tokAt p' TOKEN_LBRACKET "[" :: ts) d).
  bt. rewrite bool_decide_false by done. by apply pbind_err.
Qed.

(** The list that does not fit is refused at its bracket. *)
Lemma lists_rejected place n m : forall k ts fuel d,
  m <= n -> n <= fuel -> (d + Z.of_nat m)%Z = MaxNestingDepth ->
  parseExpr (run fuel) (st (body floatText q (nestedList place k n) ++ ts) d)
  = PErr (nestingErr (place (k + m))).
Proof.
  revert m. induction n as [|n IH]; intros [|m] k ts fuel d Hm Hf Hd; try lia.
  1,2: rewrite nestedList_body; cbn [app]; rewrite parseExpr_limit, tokPos_tok, Nat.add_0_r by lia; done.
  rewrite nestedList_body. cbn [app]. apply parseExpr_err; [lia|]. apply ladder_err.
  destruct fuel as [|fuel]; [lia|].
  specialize (IH m (S k) ([tokAt q TOKEN_RBRACKET "]"] ++ ts) fuel (d + 1)%Z ltac:(lia) ltac:(lia) ltac:(lia)).
  rewrite Nat.add_succ_comm in IH. rewrite <- app_assoc.
  rewrite nestedList_body in *. cbn [app] in *. by apply listLit_err.
Qed.
End Lists.


