(* ===== verification/Ops.v ===== *)
(** * The operators (internal/interpreter/interpreter.go)

    The operand-level functions behind [evalBinary] and [evalUnary]: bitwise,
    comparison, arithmetic and prefix operators on two already evaluated values,
    with every error they raise. *)

From Stdlib Require Import SpecFloat.
From S2P Require Import Prelude GoInt Float64 Utf8 Types Value.
Open Scope string_scope.
Open Scope Z_scope.
Open Scope go_scope.

(** ** Errors *)

(** [runtimeError]; [Kind_] is empty where the source leaves it unset. *)
Record runtimeError := mkRuntimeError { rt_Msg : message; rt_pos : position; rt_Kind : string }.

(** What an evaluation can end with instead of a value: a runtime error, a
    thrown value ([ErrorSignal]) or an [exit] request ([ExitSignal]). *)
Inductive evalError :=
  | ERuntime (e : runtimeError)
  | EThrow (v : Value) (p : position)
  | EExit (code : Z).

Abbreviation res := (result evalError).

Definition rtErr {A} (p : position) (fmt : string) (args : list fmtarg) : res A :=
  Err (ERuntime (mkRuntimeError (Sprintf fmt args) p "")).

Definition kindArg (v : Value) : fmtarg := AStr (ValueKind_String (kindOf v)).
Definition opArg (op : BinaryOp) : fmtarg := AStr (BinaryOp_String op).

(** ** Bitwise operators *)

Definition isBitOp (op : BinaryOp) : bool :=
  match op with
  | OpBitOr | OpBitXor | OpBitAnd | OpShl | OpShr => true
  | _ => false
  end.

Definition evalBitOp (op : BinaryOp) (lv rv : Value) (p : position) : res Value :=
  match lv, rv with
  | VInt a, VInt b =>
      match op with
      | OpBitAnd => Ok (IntVal (and64 a b))
      | OpBitOr => Ok (IntVal (or64 a b))
      | OpBitXor => Ok (IntVal (xor64 a b))
      | OpShl =>
          if b <? 0 then rtErr p "shift count must be non-negative, got %d" [AInt b]
          else if 64 <=? b then Ok (IntVal 0)
          else Ok (IntVal (shl64 a b))
      | OpShr =>
          if b <? 0 then rtErr p "shift count must be non-negative, got %d" [AInt b]
          else if 64 <=? b then Ok (IntVal (if a <? 0 then -1 else 0))
          else Ok (IntVal (shr64 a b))
      | _ => rtErr p "unknown bitwise operator %s" [opArg op]
      end
  | _, _ =>
      rtErr p "operator %s requires int operands, got %s and %s"
        [opArg op; kindArg lv; kindArg rv]
  end.

(** ** Comparisons *)

Definition orderResult (op : BinaryOp) (sign : Z) (p : position) : res Value :=
  match op with
  | OpLt => Ok (BoolVal (sign <? 0))
  | OpGt => Ok (BoolVal (0 <? sign))
  | OpLe => Ok (BoolVal (sign <=? 0))
  | OpGe => Ok (BoolVal (0 <=? sign))
  | _ => rtErr p "unknown comparison %s" [opArg op]
  end.

Section WithNative.
Context {NO : NativeObject}.

(** The tail of [evalComparison], past every same-kind and mixed fast path. *)
Definition compareFallback (op : BinaryOp) (lv rv : Value) (p : position) : res Value :=
  if negb (isNumeric lv) || negb (isNumeric rv) then
    rtErr p "operator %s needs two numbers or two strings, got %s and %s"
      [opArg op; kindArg lv; kindArg rv]
  else orderResult op (floatSign (fst (AsFloat lv)) (fst (AsFloat rv))) p.

Definition evalComparison (op : BinaryOp) (lv rv : Value) (p : position) : res Value :=
  match op with
  | OpEq => Ok (BoolVal (Equal lv rv))
  | OpNeq => Ok (BoolVal (negb (Equal lv rv)))
  | _ =>
      match lv, rv with
      | VInt a, VInt b =>
          match op with
          | OpLt => Ok (BoolVal (a <? b))
          | OpGt => Ok (BoolVal (b <? a))
          | OpLe => Ok (BoolVal (a <=? b))
          | OpGe => Ok (BoolVal (b <=? a))
          | _ => compareFallback op lv rv p
          end
      | VFloat a, VFloat b =>
          match op with
          | OpLt => Ok (BoolVal (fltb a b))
          | OpGt => Ok (BoolVal (fltb b a))
          | OpLe => Ok (BoolVal (fleb a b))
          | OpGe => Ok (BoolVal (fleb b a))
          | _ => compareFallback op lv rv p
          end
      | VInt a, VFloat b =>
          if isNaN b then Ok (BoolVal false) else orderResult op (compareIntFloat a b) p
      | VFloat a, VInt b =>
          if isNaN a then Ok (BoolVal false) else orderResult op (- compareIntFloat b a) p
      | VString a _, VString b _ =>
          match op with
          | OpLt => Ok (BoolVal (String.ltb a b))
          | OpGt => Ok (BoolVal (String.ltb b a))
          | OpLe => Ok (BoolVal (String.leb a b))
          | OpGe => Ok (BoolVal (String.leb b a))
          | _ => compareFallback op lv rv p
          end
      | _, _ => compareFallback op lv rv p
      end
  end.

(** ** Arithmetic *)

Definition floatOverflowError {A} (a b : float64) (op : BinaryOp) (p : position) : res A :=
  rtErr p "float overflow: %v %s %v produced a non-finite result" [AFloat a; opArg op; AFloat b].

(** The shared result path of the float section. *)
Definition floatResult (a b r : float64) (op : BinaryOp) (p : position) : res Value :=
  if nonfinite_by_sub r then floatOverflowError a b op p else Ok (FloatVal r).

(** Mixed or float operands. *)
Definition floatArithmetic (op : BinaryOp) (lv rv : Value) (p : position) : res Value :=
  let '(a, aok) := AsFloat lv in
  let '(b, bok) := AsFloat rv in
  if negb aok || negb bok then
    rtErr p "operator %s requires numeric operands, got %s and %s"
      [opArg op; kindArg lv; kindArg rv]
  else
    match op with
    | OpAdd => floatResult a b (fadd a b) op p
    | OpSub => floatResult a b (fsub a b) op p
    | OpMul => floatResult a b (fmul a b) op p
    | OpDiv =>
        if feqb b fzero then rtErr p "division by zero" []
        else floatResult a b (fdiv a b) op p
    | OpFloorDiv =>
        if feqb b fzero then rtErr p "division by zero" []
        else floatResult a b (floorDiv a b) op p
    | OpMod => rtErr p "operator % requires int operands, got float" []
    | _ => rtErr p "unknown binary operator %s" [opArg op]
    end.

(** The int fast path: [None] is the fall-through to the float section. *)
Definition intArithmetic (op : BinaryOp) (a b : Z) (p : position) : option (res Value) :=
  let overflow fmt := rtErr p fmt [AInt a; AInt b] in
  match op with
  | OpAdd =>
      let '(s, ovf) := addOverflow a b in
      Some (if ovf then overflow "integer overflow: %d + %d" else Ok (IntVal s))
  | OpSub =>
      let '(d, ovf) := subOverflow a b in
      Some (if ovf then overflow "integer overflow: %d - %d" else Ok (IntVal d))
  | OpMul =>
      let '(q, ovf) := mulOverflow a b in
      Some (if ovf then overflow "integer overflow: %d * %d" else Ok (IntVal q))
  | OpFloorDiv =>
      Some (if b =? 0 then rtErr p "integer division by zero" []
            else if (a =? minInt64) && (b =? -1) then overflow "integer overflow: %d // %d"
            else Ok (IntVal (flooredDiv a b)))
  | OpMod =>
      Some (if b =? 0 then rtErr p "integer modulo by zero" []
            else Ok (IntVal (flooredMod a b)))
  | _ => None
  end.

Definition evalArithmetic (op : BinaryOp) (lv rv : Value) (p : position) : res Value :=
  match op, lv, rv with
  | OpAdd, VString a _, VString b _ => Ok (StringVal (a +:+ b))
  | _, VInt a, VInt b =>
      match intArithmetic op a b p with
      | Some r => r
      | None => floatArithmetic op lv rv p
      end
  | _, _, _ => floatArithmetic op lv rv p
  end.

(** The dispatch at the end of [evalBinary], on evaluated operands. *)
Definition applyBinary (op : BinaryOp) (lv rv : Value) (p : position) : res Value :=
  if IsComparison op then evalComparison op lv rv p
  else if isBitOp op then evalBitOp op lv rv p
  else evalArithmetic op lv rv p.

(** ** Prefix operators: [evalUnary] on its evaluated operand *)

Definition applyUnary (op : UnaryOp) (v : Value) (p : position) : res Value :=
  match op with
  | OpNeg =>
      match v with
      | VInt n =>
          if n =? minInt64 then rtErr p "integer overflow: -(%d)" [AInt n]
          else Ok (IntVal (neg64 n))
      | VFloat f => Ok (FloatVal (fneg f))
      | _ => rtErr p "unary `-` requires int or float, got %s" [kindArg v]
      end
  | OpNot =>
      match v with
      | VBool b => Ok (BoolVal (negb b))
      | _ => rtErr p "unary `not` requires bool, got %s" [kindArg v]
      end
  | OpBitNot =>
      match v with
      | VInt n => Ok (IntVal (not64 n))
      | _ => rtErr p "unary `~` requires int, got %s" [kindArg v]
      end
  end.

(** [evalLen] on its evaluated operand. *)
Definition applyLen (v : Value) (p : position) : res Value :=
  match v with
  | VString s n => Ok (IntVal (runeLen s n))
  | VList l _ => Ok (IntVal (Z.of_nat (length l)))
  | VMap m _ _ _ => Ok (IntVal (Z.of_nat (length m)))
  | VBytes b => Ok (IntVal (Z.of_nat (length b)))
  | _ => rtErr p "len() expects a string, list, map or bytes, got %s" [kindArg v]
  end.

End WithNative.
