(* ===== verification/OpsFacts.v ===== *)
(** * The operators compute what the language promises

    Integer arithmetic is exact or an error, comparisons order the exact numeric
    values across int and float, shifts are defined for every non-negative count,
    and no operator produces a NaN or an infinity. *)

From Stdlib Require Import SpecFloat.
From S2P Require Import Prelude GoInt Float64 Utf8 Types Value ValueFacts Ops.
Open Scope string_scope.
Open Scope Z_scope.

(** ** Integer arithmetic *)

(** The mathematical result of an integer operator, where there is one. *)
Definition intSpec (op : BinaryOp) (a b : Z) : option Z :=
  match op with
  | OpAdd => Some (a + b)
  | OpSub => Some (a - b)
  | OpMul => Some (a * b)
  | OpFloorDiv => if b =? 0 then None else Some (a / b)
  | OpMod => if b =? 0 then None else Some (a mod b)
  | _ => None
  end.

Definition isIntArith (op : BinaryOp) : bool :=
  match op with OpAdd | OpSub | OpMul | OpFloorDiv | OpMod => true | _ => false end.

(** Some error positioned at [p]. *)
Definition errAt {A} (p : position) (r : res A) : Prop :=
  match r with Err (ERuntime e) => rt_pos e = p | _ => False end.

Lemma mod_range a b : int64_range b -> b <> 0 -> int64_range (a mod b).
Proof.
  unfold int64_range, minInt64, maxInt64. intros.
  destruct (Z.lt_total b 0) as [ | [ | ]]; [ | lia | ].
  - pose proof (Z.mod_neg_bound a b). lia.
  - pose proof (Z.mod_pos_bound a b). lia.
Qed.

Lemma div_range a b :
  int64_range a -> int64_range b -> b <> 0 -> ~ (a = minInt64 /\ b = -1) -> int64_range (a / b).
Proof.
  intros Ha Hb Hb0 Hm. rewrite <- flooredDiv_div by done. unfold flooredDiv.
  split_if; apply wrap64_range.
Qed.

Lemma div_overflow : ~ int64_range (minInt64 / -1).
Proof. vm_compute. intros [? ?]. congruence. Qed.

(** A value or an error, decided by the mathematical result. *)
Lemma intArithmetic_spec op a b p :
  isIntArith op = true -> int64_range a -> int64_range b ->
  exists r, intArithmetic op a b p = Some r /\
  match intSpec op a b with
  | Some z => if int64_rangeb z then r = Ok (IntVal z) else errAt p r
  | None => errAt p r
  end.
Proof.
  intros Hop Ha Hb. destruct op; try done; cbn [intArithmetic intSpec].
  - rewrite addOverflow_checked by done. unfold checked64.
    destruct (int64_rangeb _); by eexists.
  - rewrite subOverflow_checked by done. unfold checked64.
    destruct (int64_rangeb _); by eexists.
  - rewrite mulOverflow_checked by done. unfold checked64.
    destruct (int64_rangeb _); by eexists.
  - eexists. split; [done | ]. destruct (Z.eqb_spec b 0); [done | ].
    destruct ((a =? minInt64) && (b =? -1)) eqn:E.
    + b2p. subst. by rewrite (proj2 (int64_rangeb_false _) div_overflow).
    + assert (~ (a = minInt64 /\ b = -1)) as Hm by (intros [-> ->]; rewrite !Z.eqb_refl in E; discriminate).
      rewrite flooredDiv_div by done.
      by rewrite (proj2 (int64_rangeb_true _) (div_range a b Ha Hb n Hm)).
  - eexists. split; [done | ]. destruct (Z.eqb_spec b 0); [done | ].
    rewrite flooredMod_modulo by done.
    by rewrite (proj2 (int64_rangeb_true _) (mod_range a b Hb n)).
Qed.

Lemma evalArithmetic_int op a b p :
  isIntArith op = true ->
  evalArithmetic op (VInt a) (VInt b) p = default (floatArithmetic op (VInt a) (VInt b) p) (intArithmetic op a b p).
Proof. by destruct op. Qed.

(** ** Exact numeric order *)

(** Numeric values as extended integers in units of 2^-1074. *)
Inductive xnum := NegInf | Fin (z : Z) | PosInf.

Definition numval (v : Value) : option xnum :=
  match v with
  | VInt n => Some (Fin (zval n))
  | VFloat (S754_infinity s) => Some (if s then NegInf else PosInf)
  | VFloat S754_nan => None
  | VFloat f => Some (Fin (fval f))
  | _ => None
  end.

Definition xcompare (a b : xnum) : comparison :=
  match a, b with
  | NegInf, NegInf | PosInf, PosInf => Eq
  | NegInf, _ | _, PosInf => Lt
  | _, NegInf | PosInf, _ => Gt
  | Fin x, Fin y => x ?= y
  end.

(** What a comparison operator asks of an ordering. *)
Definition cmpSpec (op : BinaryOp) (c : comparison) : bool :=
  match op with
  | OpLt => match c with Lt => true | _ => false end
  | OpGt => match c with Gt => true | _ => false end
  | OpLe => match c with Gt => false | _ => true end
  | OpGe => match c with Lt => false | _ => true end
  | OpEq => match c with Eq => true | _ => false end
  | OpNeq => match c with Eq => false | _ => true end
  | _ => false
  end.

Lemma zval_compare a b : (zval a ?= zval b) = (a ?= b).
Proof. unfold zval. symmetry. apply Zmult_compare_compat_r. apply Z.lt_gt, Z.pow_pos_nonneg; lia. Qed.

Lemma SFcompare_xcompare x y nx ny :
  fvalid x = true -> fvalid y = true ->
  numval (VFloat x) = Some nx -> numval (VFloat y) = Some ny ->
  SFcompare x y = Some (xcompare nx ny).
Proof.
  intros Hx Hy Ex Ey. destruct (ffinite x) eqn:Fx, (ffinite y) eqn:Fy.
  - rewrite fcompare_exact by done. destruct x, y; try done; injection Ex as <-; by injection Ey as <-.
  - destruct x as [[] | [] | | [] ? ?], y as [[] | [] | | [] ? ?]; try done; injection Ex as <-; by injection Ey as <-.
  - destruct x as [[] | [] | | [] ? ?], y as [[] | [] | | [] ? ?]; try done; injection Ex as <-; by injection Ey as <-.
  - destruct x as [[] | [] | | [] ? ?], y as [[] | [] | | [] ? ?]; try done; injection Ex as <-; by injection Ey as <-.
Qed.

Lemma exactIntFloat_xcompare n f nf :
  numval (VFloat f) = Some nf -> exactIntFloat n f = xcompare (Fin (zval n)) nf.
Proof. destruct f as [s | [] | | s m e]; intros E; try done; by injection E as <-. Qed.

Lemma numval_not_NaN f nf : fvalid f = true -> numval (VFloat f) = Some nf ->
  IsNaN f = false /\ isNaN f = false.
Proof. intros Hv E. rewrite isNaN_finite by done. by destruct f. Qed.

Lemma xcompare_antisym a b : xcompare b a = CompOpp (xcompare a b).
Proof. destruct a, b; try done. apply Z.compare_antisym. Qed.

Lemma csign_0 c : (csign c =? 0) = match c with Eq => true | _ => false end.
Proof. by destruct c. Qed.

Section Compare.
Context {NO : NativeObject}.

Lemma orderResult_csign op c p :
  IsComparison op = true -> op <> OpEq -> op <> OpNeq ->
  orderResult op (csign c) p = Ok (BoolVal (cmpSpec op c)).
Proof. by destruct op, c. Qed.

Lemma evalComparison_numval op lv rv nl nr p :
  IsComparison op = true -> scalarOK lv -> scalarOK rv ->
  numval lv = Some nl -> numval rv = Some nr ->
  evalComparison op lv rv p = Ok (BoolVal (cmpSpec op (xcompare nl nr))).
Proof.
  intros Hop Hl Hr El Er.
  destruct lv as [ | a | x | | | | | | | | | | | ]; try done;
    destruct rv as [ | b | y | | | | | | | | | | | ]; try done; simpl in Hl, Hr.
  - injection El as <-. injection Er as <-. cbn [xcompare]. rewrite zval_compare.
    unfold evalComparison. rewrite Equal_unfold. cbn [equalBody].
    destruct op; try done; cbn [cmpSpec]; do 2 f_equal; destruct (Z.compare_spec a b); lia.
  - destruct (numval_not_NaN _ _ Hr Er) as [N1 N2]. injection El as <-.
    rewrite <- (exactIntFloat_xcompare _ _ _ Er).
    assert (Equal (VInt a) (VFloat y) = match exactIntFloat a y with Eq => true | _ => false end) as Heq.
    { rewrite Equal_unfold. cbn [equalBody]. by rewrite compareIntFloat_sign, csign_0. }
    unfold evalComparison. rewrite Heq, N2, compareIntFloat_sign by done.
    destruct op; try done; try (by apply orderResult_csign); by destruct (exactIntFloat a y).
  - destruct (numval_not_NaN _ _ Hl El) as [N1 N2]. injection Er as <-.
    rewrite xcompare_antisym, <- (exactIntFloat_xcompare _ _ _ El).
    assert (Equal (VFloat x) (VInt b) = match exactIntFloat b x with Eq => true | _ => false end) as Heq.
    { rewrite Equal_unfold. cbn [equalBody]. by rewrite compareIntFloat_sign, csign_0. }
    assert (- csign (exactIntFloat b x) = csign (CompOpp (exactIntFloat b x))) as Hn by (by destruct (exactIntFloat b x)).
    unfold evalComparison. rewrite Heq, N2, compareIntFloat_sign, Hn by done.
    destruct op; try done; try (by apply orderResult_csign); by destruct (exactIntFloat b x).
  - pose proof (SFcompare_xcompare x y nl nr Hl Hr El Er) as E.
    pose proof (SFcompare_xcompare y x nr nl Hr Hl Er El) as E'. rewrite xcompare_antisym in E'.
    unfold evalComparison. rewrite Equal_unfold. cbn [equalBody].
    unfold feqb, fltb, fleb, SFeqb, SFltb, SFleb. rewrite E, E'.
    destruct op; try done; by destruct (xcompare nl nr).
Qed.

End Compare.

(** ** Shifts and bits *)

Lemma shl64_large a b : 64 <= b -> shl64 a b = 0.
Proof.
  intros. unfold shl64, wrap64. rewrite Z.shiftl_mul_pow2 by lia.
  replace (2 ^ b) with (2 ^ (b - 64) * 2 ^ 64) by (rewrite <- Z.pow_add_r by lia; f_equal; lia).
  rewrite Z.mul_assoc, Z.add_comm, Z.mod_add by lia. done.
Qed.

Lemma shr_large a b : int64_range a -> 64 <= b -> a / 2 ^ b = if a <? 0 then -1 else 0.
Proof.
  unfold int64_range, minInt64, maxInt64. intros Ha Hb.
  assert (2 ^ 64 <= 2 ^ b) by (apply Z.pow_le_mono_r; lia).
  destruct (Z.ltb_spec a 0).
  - symmetry. apply (Z.div_unique_pos _ _ _ (a + 2 ^ b)); lia.
  - apply Z.div_small. lia.
Qed.

(** Bits above 62 of an int64 are copies of its sign. *)
Lemma int64_testbit a n : int64_range a -> 63 <= n -> Z.testbit a n = (a <? 0).
Proof.
  unfold int64_range, minInt64, maxInt64. intros Ha Hn. destruct (Z.ltb_spec a 0) as [H | H].
  - rewrite <- (Z.lnot_involutive a), Z.lnot_spec by lia. apply negb_true_iff.
    rewrite <- (Z.mod_small (Z.lnot a) (2 ^ 63)) by (unfold Z.lnot; lia).
    by apply Z.mod_pow2_bits_high.
  - rewrite <- (Z.mod_small a (2 ^ 63)) by lia. by apply Z.mod_pow2_bits_high.
Qed.

(** An integer whose bits from 63 on are constant is an int64. *)
Lemma testbit_int64 a s : (forall n, 63 <= n -> Z.testbit a n = s) -> int64_range a.
Proof.
  intros H. assert (forall b, (forall n, 63 <= n -> Z.testbit b n = false) -> 0 <= b < 2 ^ 63) as Hpos.
  { intros b Hb. assert (b mod 2 ^ 63 = b) as <-; [ | apply Z.mod_pos_bound; lia].
    apply Z.bits_inj'. intros n Hn. destruct (Z.lt_ge_cases n 63).
    - by rewrite Z.mod_pow2_bits_low by lia.
    - by rewrite Z.mod_pow2_bits_high, Hb by lia. }
  unfold int64_range, minInt64, maxInt64. destruct s.
  - specialize (Hpos (Z.lnot a)). unfold Z.lnot in *.
    destruct Hpos; [ | lia]. intros n Hn. fold (Z.lnot a). rewrite Z.lnot_spec by lia. by rewrite H.
  - specialize (Hpos a H). lia.
Qed.

Lemma bitwise_range (f : Z -> Z -> Z) (g : bool -> bool -> bool) a b :
  (forall n, 0 <= n -> Z.testbit (f a b) n = g (Z.testbit a n) (Z.testbit b n)) ->
  int64_range a -> int64_range b -> int64_range (f a b).
Proof.
  intros H Ha Hb. apply (testbit_int64 _ (g (a <? 0) (b <? 0))). intros n Hn.
  rewrite H by lia. by rewrite !int64_testbit.
Qed.

(** ** No non-finite results *)

Lemma floatResult_finite a b r op p v :
  floatResult a b r op p = Ok v -> v = VFloat r /\ ffinite r = true.
Proof.
  unfold floatResult. rewrite nonfinite_by_sub_spec. destruct (IsInf r || IsNaN r) eqn:E; [done | ].
  intros [= <-]. split; [done | ]. by destruct r.
Qed.

Lemma floatArithmetic_finite op lv rv p v :
  floatArithmetic op lv rv p = Ok v -> exists r, v = VFloat r /\ ffinite r = true.
Proof.
  unfold floatArithmetic. destruct (AsFloat lv) as [a aok], (AsFloat rv) as [b bok].
  destruct (negb aok || negb bok); [done | ].
  destruct op; try done; try (intros H; apply floatResult_finite in H; eauto; fail);
    destruct (feqb b fzero); try done; intros H; apply floatResult_finite in H; eauto.
Qed.

(** ** Theorems *)

Section Theorems.
Context {NO : NativeObject}.

Lemma shr64_div a b : 0 <= b -> shr64 a b = a / 2 ^ b.
Proof. intros. by apply Z.shiftr_div_pow2. Qed.

Lemma shr64_range a b : int64_range a -> 0 <= b -> int64_range (shr64 a b).
Proof.
  intros Ha Hb. apply (testbit_int64 _ (a <? 0)). intros n Hn. unfold shr64.
  rewrite Z.shiftr_spec by lia. apply int64_testbit; [done | lia].
Qed.

Lemma evalBitOp_range op lv rv p v :
  scalarOK lv -> scalarOK rv -> evalBitOp op lv rv p = Ok v -> exists n, v = VInt n /\ int64_range n.
Proof.
  intros Hl Hr. destruct lv as [ | a | | | | | | | | | | | | ]; try done.
  destruct rv as [ | b | | | | | | | | | | | | ]; try done. simpl in Hl, Hr.
  assert (int64_range 0 /\ int64_range (-1)) as [H0 H1] by (by vm_compute).
  destruct op; try done; cbn [evalBitOp].
  - intros [= <-]. eexists. split; [done | ]. by apply (bitwise_range Z.lor orb); [intros; apply Z.lor_spec | ..].
  - intros [= <-]. eexists. split; [done | ]. by apply (bitwise_range Z.lxor xorb); [intros; apply Z.lxor_spec | ..].
  - intros [= <-]. eexists. split; [done | ]. by apply (bitwise_range Z.land andb); [intros; apply Z.land_spec | ..].
  - destruct (b <? 0); [done | ]. destruct (64 <=? b); intros [= <-]; eexists; (split; [done | ]); [done | apply wrap64_range].
  - destruct (Z.ltb_spec b 0); [done | ]. destruct (64 <=? b); intros [= <-]; eexists; (split; [done | ]).
    + by destruct (a <? 0).
    + by apply shr64_range.
Qed.

(** The values the operators may produce: int64 payloads and finite floats. *)
Definition resultOK (v : Value) : Prop :=
  match v with
  | VInt n => int64_range n
  | VFloat f => ffinite f = true
  | _ => True
  end.

Lemma evalComparison_bool op lv rv p v : evalComparison op lv rv p = Ok v -> exists b, v = VBool b.
Proof.
  assert (forall sign, orderResult op sign p = Ok v -> exists b, v = VBool b) as Ho.
  { intros sign. destruct op; try done; intros [= <-]; eexists; done. }
  assert (compareFallback op lv rv p = Ok v -> exists b, v = VBool b) as Hc.
  { unfold compareFallback. destruct (_ || _); [done | apply Ho]. }
  unfold evalComparison. destruct op; try (intros [= <-]; by eexists);
    destruct lv; try exact Hc; destruct rv; try exact Hc; try (intros [= <-]; by eexists);
    (destruct (isNaN _); [intros [= <-]; by eexists | apply Ho]).
Qed.

Lemma evalArithmetic_ok op lv rv p v :
  scalarOK lv -> scalarOK rv -> evalArithmetic op lv rv p = Ok v -> resultOK v.
Proof.
  intros Hl Hr. assert (floatArithmetic op lv rv p = Ok v -> resultOK v) as Hf.
  { intros H. by apply floatArithmetic_finite in H as (r & -> & ?). }
  destruct lv as [ | a | | sa ? | | | | | | | | | | ]; try (by destruct op).
  - destruct rv as [ | b | | | | | | | | | | | | ]; try (by destruct op). simpl in Hl, Hr.
    destruct (isIntArith op) eqn:Eop.
    + destruct (intArithmetic_spec op a b p Eop Hl Hr) as (r & E & Hs).
      rewrite evalArithmetic_int, E by done. simpl. intros ->.
      destruct (intSpec op a b) as [z | ]; [ | done].
      destruct (int64_rangeb z) eqn:Ez; [ | done]. injection Hs as ->. by apply int64_rangeb_true.
    + by destruct op.
  - destruct rv; try (by destruct op). destruct op; try exact Hf. by intros [= <-].
Qed.

(** C9: integer arithmetic is exact or an error.  For int64 operands and each of
    [+ - * // %], the interpreter returns the mathematical result ([//] and [%]
    floored, so (a // b) * b + a % b = a) exactly when that result exists and fits
    in int64, and otherwise raises an error at the operator's position: never a
    wrapped value. *)
Theorem int_arithmetic_exact (op : BinaryOp) (a b : Z) (p : position)
    (Hop : isIntArith op = true) (Ha : int64_range a) (Hb : int64_range b) :
  match intSpec op a b with
  | Some z =>
      if int64_rangeb z then evalArithmetic op (VInt a) (VInt b) p = Ok (IntVal z)
      else errAt p (evalArithmetic op (VInt a) (VInt b) p)
  | None => errAt p (evalArithmetic op (VInt a) (VInt b) p)
  end.
Proof.
  destruct (intArithmetic_spec op a b p Hop Ha Hb) as (r & E & Hs).
  by rewrite evalArithmetic_int, E by done.
Qed.

(** Comparison is exact across int and float.  For any two numbers that are
    not NaN, each of [< > <= >= == !=] answers by comparing the exact values (an
    int is never rounded to float64, infinities are ordered at the ends), so the
    six operators are those of one total order. *)
Theorem comparison_exact (op : BinaryOp) (lv rv : Value) (nl nr : xnum) (p : position)
    (Hop : IsComparison op = true) (Hl : scalarOK lv) (Hr : scalarOK rv)
    (El : numval lv = Some nl) (Er : numval rv = Some nr) :
  evalComparison op lv rv p = Ok (BoolVal (cmpSpec op (xcompare nl nr))).
Proof. by apply evalComparison_numval. Qed.

(** Bitwise operators and shifts.  On int64 operands [&], [|], [^] act bit by
    bit; a shift by any count [b >= 0] is multiplication by 2^b modulo 2^64 or the
    floored division by 2^b, counts of 64 and more included; a negative count is an
    error at the operator. *)
Theorem bit_operators_spec (a b : Z) (p : position) (Ha : int64_range a) (Hb : int64_range b) :
  evalBitOp OpBitAnd (VInt a) (VInt b) p = Ok (VInt (Z.land a b)) /\
  evalBitOp OpBitOr (VInt a) (VInt b) p = Ok (VInt (Z.lor a b)) /\
  evalBitOp OpBitXor (VInt a) (VInt b) p = Ok (VInt (Z.lxor a b)) /\
  (0 <= b -> evalBitOp OpShl (VInt a) (VInt b) p = Ok (VInt (wrap64 (a * 2 ^ b)))) /\
  (0 <= b -> evalBitOp OpShr (VInt a) (VInt b) p = Ok (VInt (a / 2 ^ b))) /\
  (b < 0 -> errAt p (evalBitOp OpShl (VInt a) (VInt b) p) /\
            errAt p (evalBitOp OpShr (VInt a) (VInt b) p)).
Proof.
  do 3 (split; [done | ]). cbn [evalBitOp]. split; [ | split].
  - intros Hb0. destruct (Z.ltb_spec b 0); [lia | ]. rewrite <- Z.shiftl_mul_pow2 by lia.
    destruct (Z.leb_spec 64 b); [by rewrite <- (shl64_large a b) by lia | done].
  - intros Hb0. destruct (Z.ltb_spec b 0); [lia | ].
    destruct (Z.leb_spec 64 b); [by rewrite shr_large | by rewrite shr64_div].
  - intros Hb0. by destruct (Z.ltb_spec b 0); [ | lia].
Qed.

(** No operator lets an undefined number into the program.  From well-formed
    operands every value an arithmetic, bitwise, comparison or prefix operator
    returns is an int64 or a finite float: overflows to infinity and NaN results
    are errors, never values. *)
Theorem operators_closed (op : BinaryOp) (u : UnaryOp) (lv rv v : Value) (p : position)
    (Hl : scalarOK lv) (Hr : scalarOK rv) :
  (applyBinary op lv rv p = Ok v -> resultOK v) /\
  (resultOK lv -> applyUnary u lv p = Ok v -> resultOK v).
Proof.
  split.
  - unfold applyBinary. split_if; [intros H; by apply evalComparison_bool in H as [b ->] | ].
    split_if; [ | by apply evalArithmetic_ok].
    intros H. by apply evalBitOp_range in H as (n & -> & ?).
  - intros Hlv. destruct u; cbn [applyUnary].
    + destruct lv as [ | n | f | | | | | | | | | | | ]; try done.
      * destruct (Z.eqb_spec n minInt64); [done | ]. intros [= <-]. apply wrap64_range.
      * intros [= <-]. by destruct f.
    + destruct lv; try done. by intros [= <-].
    + destruct lv as [ | n | | | | | | | | | | | | ]; try done. intros [= <-]. simpl in *.
      apply (testbit_int64 _ (negb (n <? 0))). intros k Hk. unfold not64.
      rewrite Z.lnot_spec, int64_testbit by (done || lia). done.
Qed.

End Theorems.

Definition p0 : position := Pos "a.j" 1 2.

Lemma int_arithmetic_exact_witness :
  evalArithmetic OpFloorDiv (VInt (-7)) (VInt 2) p0 = Ok (VInt (-4)).
Proof.
  refine (int_arithmetic_exact OpFloorDiv (-7) 2 p0 eq_refl _ _); vm_compute; split; discriminate.
Defined.

Lemma comparison_exact_witness :
  @evalComparison (Build_NativeObject (fun _ _ => true) (fun _ => "")) OpGt
    (VInt 9007199254740993) (VFloat (S754_finite false 4503599627370496 1)) p0 = Ok (VBool true).
Proof.
  rewrite (comparison_exact OpGt (VInt 9007199254740993) (VFloat (S754_finite false 4503599627370496 1))
    (Fin (zval 9007199254740993)) (Fin (fval (S754_finite false 4503599627370496 1))) p0
    eq_refl); [vm_compute; reflexivity | vm_compute; split; discriminate | vm_compute; reflexivity ..].
Defined.

Lemma bit_operators_spec_witness :
  evalBitOp OpShr (VInt (-5)) (VInt 70) p0 = Ok (VInt (-1)).
Proof.
  assert (int64_range (-5)) as Ha by (vm_compute; split; discriminate).
  assert (int64_range 70) as Hb by (vm_compute; split; discriminate).
  destruct (bit_operators_spec (-5) 70 p0 Ha Hb) as (_ & _ & _ & _ & H & _).
  rewrite H by lia. vm_compute. reflexivity.
Defined.

Lemma operators_closed_witness :
  resultOK (VInt 5).
Proof.
  refine (proj1 (@operators_closed (Build_NativeObject (fun _ _ => true) (fun _ => "")) OpAdd OpNeg
    (VInt 2) (VInt 3) (VInt 5) p0 _ _) _); [vm_compute; split; discriminate .. | vm_compute; reflexivity].
Defined.
