(* ===== verification/Fold.v ===== *)
(** * Constant folding (internal/parser/fold.go)

    The parse-time folder applied to a prefix or binary node whose operands are
    literals, possibly through their own folded results. *)

From Stdlib Require Import SpecFloat.
From S2P Require Import Prelude GoInt Float64 Utf8 Types Value Ast.
Open Scope string_scope.
Open Scope Z_scope.

Definition foldMinInt64 : Z := - 2 ^ 63.
Definition maxFoldStringBytes : Z := Z.shiftl 64 10.

(** [foldFloat]: a non-finite result stays unfolded. *)
Definition foldFloat (p : pos) (v : float64) : option Expr :=
  if IsInf v || IsNaN v then None else Some (FloatLit p v).

(** [asLit]: follow [Folded] to a literal. *)
Fixpoint asLit (e : Expr) : option Expr :=
  match e with
  | BinaryExpr _ _ _ _ (Some f) => asLit f
  | BinaryExpr _ _ _ _ None => None
  | UnaryExpr _ _ _ (Some f) => asLit f
  | UnaryExpr _ _ _ None => None
  | IntLit _ _ | FloatLit _ _ | StringLit _ _ | BoolLit _ _ | NullLit _ => Some e
  | _ => None
  end.

Definition litInt (e : Expr) : option Z := match e with IntLit _ v => Some v | _ => None end.
Definition litFloat (e : Expr) : option float64 := match e with FloatLit _ v => Some v | _ => None end.
Definition litString (e : Expr) : option string := match e with StringLit _ v => Some v | _ => None end.
Definition litBool (e : Expr) : option bool := match e with BoolLit _ v => Some v | _ => None end.
Definition litIsNull (e : Expr) : bool := match e with NullLit _ => true | _ => false end.

Definition tryFoldUnary (p : pos) (op : UnaryOp) (operandE : Expr) : option Expr :=
  match asLit operandE with
  | None => None
  | Some operand =>
      match op with
      | OpNeg =>
          match litInt operand with
          | Some v => if v =? foldMinInt64 then None else Some (IntLit p (neg64 v))
          | None =>
              match litFloat operand with
              | Some v => Some (FloatLit p (fneg v))
              | None => None
              end
          end
      | OpNot =>
          match litBool operand with
          | Some v => Some (BoolLit p (negb v))
          | None => None
          end
      | OpBitNot =>
          match litInt operand with
          | Some v => Some (IntLit p (not64 v))
          | None => None
          end
      end
  end.

(** The bool section of [tryFoldBinary]. *)
Definition foldBool (p : pos) (op : BinaryOp) (l r : bool) : option Expr :=
  match op with
  | OpAnd => Some (BoolLit p (l && r))
  | OpOr => Some (BoolLit p (l || r))
  | OpEq => Some (BoolLit p (Bool.eqb l r))
  | OpNeq => Some (BoolLit p (negb (Bool.eqb l r)))
  | _ => None
  end.

(** The string section, past concatenation. *)
Definition foldString (p : pos) (op : BinaryOp) (l r : string) : option Expr :=
  match op with
  | OpEq => Some (BoolLit p (bool_decide (l = r)))
  | OpNeq => Some (BoolLit p (negb (bool_decide (l = r))))
  | OpLt => Some (BoolLit p (String.ltb l r))
  | OpGt => Some (BoolLit p (String.ltb r l))
  | OpLe => Some (BoolLit p (String.leb l r))
  | OpGe => Some (BoolLit p (String.leb r l))
  | _ => None
  end.

(** Exact integer comparisons; the outer [None] is the fall-through. *)
Definition foldIntCompare (p : pos) (op : BinaryOp) (li ri : Z) : option Expr :=
  match op with
  | OpEq => Some (BoolLit p (li =? ri))
  | OpNeq => Some (BoolLit p (negb (li =? ri)))
  | OpLt => Some (BoolLit p (li <? ri))
  | OpGt => Some (BoolLit p (ri <? li))
  | OpLe => Some (BoolLit p (li <=? ri))
  | OpGe => Some (BoolLit p (ri <=? li))
  | _ => None
  end.

Definition foldFloatCompare (p : pos) (op : BinaryOp) (lf rf : float64) : option Expr :=
  match op with
  | OpEq => Some (BoolLit p (feqb lf rf))
  | OpNeq => Some (BoolLit p (negb (feqb lf rf)))
  | OpLt => Some (BoolLit p (fltb lf rf))
  | OpGt => Some (BoolLit p (fltb rf lf))
  | OpLe => Some (BoolLit p (fleb lf rf))
  | OpGe => Some (BoolLit p (fleb rf lf))
  | _ => None
  end.

(** Pure-int arithmetic and bit operators: [None] is the fall-through,
    [Some None] the explicit [return nil]. *)
Definition foldIntArith (p : pos) (op : BinaryOp) (li ri : Z) : option (option Expr) :=
  match op with
  | OpAdd =>
      let s := add64 li ri in
      if ((0 <? li) && (0 <? ri) && (s <? 0)) || ((li <? 0) && (ri <? 0) && (0 <=? s))
      then Some None else Some (Some (IntLit p s))
  | OpSub =>
      let d := sub64 li ri in
      if ((0 <=? li) && (ri <? 0) && (d <? 0)) || ((li <? 0) && (0 <? ri) && (0 <=? d))
      then Some None else Some (Some (IntLit p d))
  | OpMul =>
      if (li =? 0) || (ri =? 0) then Some (Some (IntLit p 0))
      else if ((li =? foldMinInt64) && (ri =? -1)) || ((ri =? foldMinInt64) && (li =? -1))
      then Some None
      else
        let q := mul64 li ri in
        if negb (quot64 q li =? ri) then Some None else Some (Some (IntLit p q))
  | OpFloorDiv =>
      if (ri =? 0) || ((li =? foldMinInt64) && (ri =? -1)) then Some None
      else
        let q := quot64 li ri in
        Some (Some (IntLit p
          (if negb (rem64 li ri =? 0) && negb (Bool.eqb (li <? 0) (ri <? 0))
           then sub64 q 1 else q)))
  | OpMod =>
      if ri =? 0 then Some None
      else
        let r := rem64 li ri in
        Some (Some (IntLit p
          (if negb (r =? 0) && negb (Bool.eqb (r <? 0) (ri <? 0)) then add64 r ri else r)))
  | OpBitAnd => Some (Some (IntLit p (and64 li ri)))
  | OpBitOr => Some (Some (IntLit p (or64 li ri)))
  | OpBitXor => Some (Some (IntLit p (xor64 li ri)))
  | OpShl =>
      if ri <? 0 then Some None
      else if 64 <=? ri then Some (Some (IntLit p 0))
      else Some (Some (IntLit p (shl64 li ri)))
  | OpShr =>
      if ri <? 0 then Some None
      else if 64 <=? ri then Some (Some (IntLit p (if li <? 0 then -1 else 0)))
      else Some (Some (IntLit p (shr64 li ri)))
  | _ => None
  end.

Definition foldFloatArith (p : pos) (op : BinaryOp) (lf rf : float64) : option Expr :=
  match op with
  | OpAdd => foldFloat p (fadd lf rf)
  | OpSub => foldFloat p (fsub lf rf)
  | OpMul => foldFloat p (fmul lf rf)
  | OpDiv => if feqb rf fzero then None else foldFloat p (fdiv lf rf)
  | _ => None
  end.

(** A numeric literal as float, with int promotion. *)
Definition litNum (e : Expr) : option float64 :=
  match litInt e with
  | Some n => Some (float64_of_int64 n)
  | None => litFloat e
  end.

(** The numeric section of [tryFoldBinary]. *)
Definition foldNumeric (p : pos) (op : BinaryOp) (leftLit rightLit : Expr) : option Expr :=
  match litNum leftLit, litNum rightLit with
  | Some lf, Some rf =>
      match litInt leftLit, litInt rightLit with
      | Some li, Some ri =>
          match foldIntCompare p op li ri with
          | Some e => Some e
          | None =>
              match foldIntArith p op li ri with
              | Some r => r
              | None => foldFloatArith p op lf rf
              end
          end
      | None, None =>
          match foldFloatCompare p op lf rf with
          | Some e => Some e
          | None => foldFloatArith p op lf rf
          end
      | _, _ => if IsComparison op then None else foldFloatArith p op lf rf
      end
  | _, _ => None
  end.

(** The null section: [None] falls through to the numeric section, which
    declines null operands. *)
Definition foldNull (p : pos) (op : BinaryOp) : option Expr :=
  match op with
  | OpEq => Some (BoolLit p true)
  | OpNeq => Some (BoolLit p false)
  | _ => None
  end.

Definition tryFoldBinary (p : pos) (op : BinaryOp) (leftE rightE : Expr) : option Expr :=
  match asLit leftE, asLit rightE with
  | Some leftLit, Some rightLit =>
      match litString leftLit, litString rightLit with
      | Some l, Some r =>
          if bool_decide (op = OpAdd) then
            if maxFoldStringBytes <? Z.of_nat (String.length l) + Z.of_nat (String.length r) then None
            else Some (StringLit p (l +:+ r))
          else foldString p op l r
      | _, _ =>
          match litBool leftLit, litBool rightLit with
          | Some l, Some r => foldBool p op l r
          | _, _ =>
              if litIsNull leftLit && litIsNull rightLit then foldNull p op
              else foldNumeric p op leftLit rightLit
          end
      end
  | _, _ => None
  end.

(** The post-step of the resolver on a node: stamp the folded result. *)
Definition foldNode (e : Expr) : Expr :=
  match e with
  | UnaryExpr p op x _ => UnaryExpr p op x (tryFoldUnary p op x)
  | BinaryExpr p op l r _ => BinaryExpr p op l r (tryFoldBinary p op l r)
  | e => e
  end.
