(* ===== verification/FoldFacts.v ===== *)
(** * Folding agrees with the runtime operators

    Whatever the folder stamps on a node is the value the interpreter's operators
    return for the literal operands, at the same position; where an operator
    would raise an error the folder declines. *)

From Stdlib Require Import SpecFloat.
From S2P Require Import Prelude GoInt Float64 Utf8 Types Value ValueFacts Ast Ops OpsFacts Fold.
Open Scope string_scope.
Open Scope Z_scope.

(** The value of a literal expression, as [evalExpr] returns it. *)
Definition litVal (e : Expr) : option Value :=
  match e with
  | IntLit _ n => Some (IntVal n)
  | FloatLit _ f => Some (FloatVal f)
  | StringLit _ s => Some (StringVal s)
  | BoolLit _ b => Some (BoolVal b)
  | NullLit _ => Some Null
  | _ => None
  end.

(** [and] / [or] on two bools. *)
Definition logicalValue (op : BinaryOp) (l r : bool) : bool :=
  match op with OpAnd => l && r | _ => l || r end.

Lemma asLit_litVal e l : asLit e = Some l -> exists v, litVal l = Some v.
Proof.
  revert e l. fix IH 1. intros e l. destruct e; simpl; try discriminate;
    try (intros [= <-]; simpl; eauto); destruct Folded as [f | ]; try discriminate; apply IH.
Qed.

Section Sound.
Context {NO : NativeObject}.

Lemma foldFloat_floatResult p a b r op e :
  foldFloat p r = Some e -> floatResult a b r op p = Ok (FloatVal r) /\ e = FloatLit p r.
Proof.
  unfold foldFloat, floatResult. rewrite nonfinite_by_sub_spec.
  destruct (IsInf r || IsNaN r); [done | ]. by intros [= <-].
Qed.

Lemma tryFoldUnary_lit p op x e :
  tryFoldUnary p op x = Some e ->
  exists l v w, asLit x = Some l /\ litVal l = Some v /\ applyUnary op v p = Ok w /\
    litVal e = Some w /\ posFor e = p.
Proof.
  unfold tryFoldUnary. destruct (asLit x) as [l | ]; [ | done]. intros H. exists l.
  destruct op, l; try discriminate H; cbn in H |- *.
  - destruct (_ =? _) eqn:E; [done | ]. injection H as <-. do 2 eexists. do 2 (split; [done | ]).
    split; [ | by split]. cbn [applyUnary IntVal]. change foldMinInt64 with minInt64 in E. by rewrite E.
  - injection H as <-. by do 2 eexists.
  - injection H as <-. by do 2 eexists.
  - injection H as <-. by do 2 eexists.
Qed.

(** The integer section of the folder against the interpreter's. *)
Lemma foldIntArith_sound p op li ri e :
  foldIntArith p op li ri = Some (Some e) ->
  exists n, e = IntLit p n /\ applyBinary op (VInt li) (VInt ri) p = Ok (IntVal n).
Proof.
  destruct op; try done; cbn [foldIntArith]; unfold applyBinary; cbn [IsComparison isBitOp evalArithmetic evalBitOp intArithmetic].
  - unfold addOverflow. destruct (_ || _); [done | ]. intros [= <-]. eauto.
  - unfold subOverflow. destruct (_ || _); [done | ]. intros [= <-]. eauto.
  - unfold mulOverflow. change foldMinInt64 with minInt64. destruct ((li =? 0) || _); [intros [= <-]; eauto | ].
    destruct (_ || _); [done | ]. destruct (negb _); [done | ]. intros [= <-]. eauto.
  - change foldMinInt64 with minInt64. destruct (ri =? 0); [done | ].
    destruct (_ && (ri =? -1)); [done | ]. intros [= <-]. unfold flooredDiv. eauto.
  - destruct (ri =? 0); [done | ]. intros [= <-]. unfold flooredMod. eauto.
  - intros [= <-]. eauto.
  - intros [= <-]. eauto.
  - intros [= <-]. eauto.
  - destruct (ri <? 0); [done | ]. destruct (64 <=? ri); intros [= <-]; eauto.
  - destruct (ri <? 0); [done | ]. destruct (64 <=? ri); intros [= <-]; eauto.
Qed.

Lemma foldFloatArith_sound p op lv rv lf rf e :
  AsFloat lv = (lf, true) -> AsFloat rv = (rf, true) ->
  foldFloatArith p op lf rf = Some e ->
  exists r, e = FloatLit p r /\ floatArithmetic op lv rv p = Ok (FloatVal r).
Proof.
  intros Hl Hr. unfold floatArithmetic. rewrite Hl, Hr.
  destruct op; try done; cbn [foldFloatArith negb orb].
  1-3: intros H; eapply foldFloat_floatResult in H as [H ->]; eauto.
  destruct (feqb rf fzero); [done | ]. intros H. eapply foldFloat_floatResult in H as [H ->]; eauto.
Qed.

(** A binary node: what a fold of two literals says of the runtime. *)
Definition foldedRuns (p : pos) (op : BinaryOp) (lv rv : Value) (e : Expr) : Prop :=
  exists w, litVal e = Some w /\ posFor e = p /\
  if IsLogical op
  then match lv, rv with VBool l, VBool r => w = BoolVal (logicalValue op l r) | _, _ => False end
  else applyBinary op lv rv p = Ok w.

Lemma foldNumeric_sound p op l r lv rv e :
  litVal l = Some lv -> litVal r = Some rv -> foldNumeric p op l r = Some e ->
  foldedRuns p op lv rv e.
Proof.
  intros Hl Hr. unfold foldNumeric, litNum, foldedRuns.
  destruct l as [pl li | pl lf | | | | | | | | | | | | | | | | | | | | | | ]; try done;
    destruct r as [pr ri | pr rf | | | | | | | | | | | | | | | | | | | | | | ]; try done;
    cbn [litInt litFloat litVal] in *; injection Hl as <-; injection Hr as <-.
  - destruct (foldIntCompare p op li ri) as [e' | ] eqn:Ec.
    { intros [= <-]. destruct op; try done; injection Ec as <-;
        (eexists; split; [done | ]; split; [done | ]); cbn [IsLogical];
        unfold applyBinary, evalComparison; cbn [IsComparison]; rewrite ?Equal_unfold; done. }
    destruct (foldIntArith p op li ri) as [r' | ] eqn:Ea.
    { intros ->. apply foldIntArith_sound in Ea as (n & -> & Ha). exists (IntVal n).
      do 2 (split; [done | ]). destruct op; try done. }
    intros H. destruct op; try done;
      try (exfalso; cbn in Ea; repeat (match type of Ea with context [if ?b then _ else _] => destruct b end); discriminate).
    eapply (foldFloatArith_sound p OpDiv (VInt li) (VInt ri)) in H as (q & -> & Hf); [ | done ..].
    exists (FloatVal q). do 2 (split; [done | ]). exact Hf.
  - destruct (IsComparison op) eqn:Ec; [done | ]. intros H.
    eapply (foldFloatArith_sound p op (VInt li) (VFloat rf)) in H as Hf; [ | done ..].
    destruct Hf as (q & -> & Hf). exists (FloatVal q). do 2 (split; [done | ]). by destruct op.
  - destruct (IsComparison op) eqn:Ec; [done | ]. intros H.
    eapply (foldFloatArith_sound p op (VFloat lf) (VInt ri)) in H as Hf; [ | done ..].
    destruct Hf as (q & -> & Hf). exists (FloatVal q). do 2 (split; [done | ]). by destruct op.
  - destruct (foldFloatCompare p op lf rf) as [e' | ] eqn:Ec.
    { intros [= <-]. destruct op; try done; injection Ec as <-;
        (eexists; split; [done | ]; split; [done | ]); cbn [IsLogical];
        unfold applyBinary, evalComparison; cbn [IsComparison]; rewrite ?Equal_unfold; done. }
    intros H. eapply (foldFloatArith_sound p op (VFloat lf) (VFloat rf)) in H as Hf; [ | done ..].
    destruct Hf as (q & -> & Hf). exists (FloatVal q). do 2 (split; [done | ]). by destruct op.
Qed.

Lemma tryFoldBinary_lit p op x y e :
  tryFoldBinary p op x y = Some e ->
  exists l r lv rv, asLit x = Some l /\ asLit y = Some r /\
    litVal l = Some lv /\ litVal r = Some rv /\ foldedRuns p op lv rv e.
Proof.
  unfold tryFoldBinary. destruct (asLit x) as [l | ] eqn:Ex; [ | done].
  destruct (asLit y) as [r | ] eqn:Ey; [ | done]. intros H.
  destruct (asLit_litVal _ _ Ex) as [lv Hl], (asLit_litVal _ _ Ey) as [rv Hr].
  exists l, r, lv, rv. do 4 (split; [done | ]).
  destruct (litString l) as [ls | ] eqn:El.
  { destruct l; try done. injection El as ->. injection Hl as <-.
    destruct r; try done; cbn in H. injection Hr as <-.
    case_bool_decide as Ho.
    - subst op. destruct (_ <? _); [done | ]. injection H as <-. by eexists.
    - destruct op; try done; injection H as <-; (eexists; split; [done | ]; split; [done | ]);
        cbn [IsLogical]; unfold applyBinary, evalComparison; cbn [IsComparison]; rewrite ?Equal_unfold; done. }
  destruct (litBool l) as [lb | ] eqn:Elb.
  { destruct l; try done. injection Elb as ->. injection Hl as <-.
    destruct r; try done; cbn in H. injection Hr as <-.
    destruct op; try done; injection H as <-; (eexists; split; [done | ]; split; [done | ]);
      cbn [IsLogical]; try done; unfold applyBinary, evalComparison; cbn [IsComparison]; rewrite Equal_unfold; done. }
  destruct (litIsNull l && litIsNull r) eqn:En.
  { b2p. destruct l; try done. destruct r; try done. injection Hl as <-. injection Hr as <-.
    destruct op; try done; injection H as <-; (eexists; split; [done | ]; split; [done | ]);
      unfold applyBinary, evalComparison; cbn [IsLogical IsComparison]; rewrite Equal_unfold; done. }
  apply (foldNumeric_sound p op l r); done.
Qed.

End Sound.

Definition trivialNative : NativeObject := Build_NativeObject (fun _ _ => true) (fun _ => "").

(** ** Theorems *)

Section Theorems.
Context {NO : NativeObject}.

(** C8: constant folding of a binary node is sound.  If the folder stamps a
    literal on [left op right], both operands are literals and the stamped literal
    is the value the interpreter computes for them: the operator's result for a
    non-logical operator, the short-circuit result for [and] / [or]; it carries the
    node's position.  In particular nothing that errors at run time (overflow,
    division by zero, a negative shift, a non-finite float, a type mismatch) is
    ever folded. *)
Theorem fold_binary_sound (p : pos) (op : BinaryOp) (x y e : Expr)
    (H : tryFoldBinary p op x y = Some e) :
  exists l r lv rv w, asLit x = Some l /\ asLit y = Some r /\
    litVal l = Some lv /\ litVal r = Some rv /\ litVal e = Some w /\ posFor e = p /\
    if IsLogical op
    then match lv, rv with
         | VBool a, VBool b => w = BoolVal (logicalValue op a b)
         | _, _ => False
         end
    else applyBinary op lv rv p = Ok w.
Proof.
  destruct (tryFoldBinary_lit p op x y e H) as (l & r & lv & rv & H1 & H2 & H3 & H4 & w & H5).
  by exists l, r, lv, rv, w.
Qed.

(** Constant folding of a prefix node is sound: the stamped literal is the
    operator's run-time result for the literal operand, at the node's position. *)
Theorem fold_unary_sound (p : pos) (op : UnaryOp) (x e : Expr)
    (H : tryFoldUnary p op x = Some e) :
  exists l v w, asLit x = Some l /\ litVal l = Some v /\ applyUnary op v p = Ok w /\
    litVal e = Some w /\ posFor e = p.
Proof. by apply tryFoldUnary_lit. Qed.

End Theorems.

Lemma fold_binary_sound_witness :
  exists w, litVal (IntLit p0 (-4)) = Some w /\
    @applyBinary trivialNative OpFloorDiv (VInt (-7)) (VInt 2) p0 = Ok w.
Proof.
  destruct (@fold_binary_sound trivialNative p0 OpFloorDiv
    (IntLit p0 (-7)) (IntLit p0 2) (IntLit p0 (-4)) eq_refl)
    as (l & r & lv & rv & w & H1 & H2 & H3 & H4 & H5 & _ & H6).
  injection H1 as <-. injection H2 as <-. injection H3 as <-. injection H4 as <-.
  exists w. split; [exact H5 | exact H6].
Defined.

Lemma fold_unary_sound_witness :
  exists w, litVal (IntLit p0 (-1)) = Some w /\ applyUnary OpBitNot (VInt 0) p0 = Ok w.
Proof.
  destruct (fold_unary_sound p0 OpBitNot (IntLit p0 0) (IntLit p0 (-1)) eq_refl)
    as (l & v & w & H1 & H2 & H3 & H4 & _).
  injection H1 as <-. injection H2 as <-. exists w. split; [exact H4 | exact H3].
Defined.
