(* ===== verification/Resolver.v ===== *)
(** * The resolver (internal/parser/resolver.go)

    Scope analysis: every variable and constant reference gets the (depth, slot) address of
    its binding, every block its number of slots, enum matches are checked, and the marks
    for folding, borrowing and moving are set.

    The Go code writes the annotations into the tree; here each function returns the
    annotated node.  The scope stack [r.scopes] is a list with the innermost frame first,
    handed in and, by the functions that define names, handed back; an expression only
    reads it.  [r.methods], [r.structs], [r.enums] and [r.laterConsts] do not change while
    a statement is resolved and are the record [resolver].  The program's list of deferred
    enum matches is written by the monad [W]: the positions of the matches in the order
    they are appended. *)

From S2P Require Import Prelude Types Ast Lexer Parser Fold.
Open Scope string_scope.
Open Scope list_scope.
Open Scope Z_scope.

(** ** Errors and deferred matches *)

Definition W (A : Type) : Type := result parseError (A * list pos).

Definition wret {A} (a : A) : W A := Ok (a, []).
Definition wbind {A B} (c : W A) (k : A -> W B) : W B :=
  match c with
  | Ok (a, l) => match k a with Ok (b, l') => Ok (b, l ++ l') | Err e => Err e end
  | Err e => Err e
  end.
Definition wtell (p : pos) : W unit := Ok (tt, [p]).
Definition werr {A} (p : pos) (fmt : string) (args : list fmtarg) : W A :=
  Err (EParse (Sprintf fmt args) p).

Declare Scope resolve_scope.
Delimit Scope resolve_scope with resolve.
Notation "'let!' x ':=' c 'in' k" := (wbind c (fun x => k))
  (at level 10, x pattern, c at level 200, k at level 200,
   format "'let!'  x  ':='  c  'in' '//' k") : resolve_scope.
Open Scope resolve_scope.

(** A loop over a slice that annotates its elements. *)
Section Loops.
Context {A S : Type}.

Fixpoint wmap (f : A -> W A) (l : list A) : W (list A) :=
  match l with
  | [] => wret []
  | x :: l => let! x := f x in let! l := wmap f l in wret (x :: l)
  end.

Definition wopt (f : A -> W A) (o : option A) : W (option A) :=
  match o with None => wret None | Some x => let! x := f x in wret (Some x) end.

(** The same with a state handed on. *)
Fixpoint wfold (f : S -> A -> W (A * S)) (s : S) (l : list A) : W (list A * S) :=
  match l with
  | [] => wret ([], s)
  | x :: l => let! (x, s) := f s x in let! (l, s) := wfold f s l in wret (x :: l, s)
  end.
End Loops.

(** ** Types *)

Definition namedTypeOf (t : Typ) : option Typ :=
  match t with TypeStruct _ _ _ => Some t | _ => None end.

Definition isLocalNamed (t : option Typ) : bool :=
  match t with
  | Some (TypeStruct ns mp _) => bool_decide (ns = "") && bool_decide (mp = "")
  | _ => false
  end.

Definition deferrableEnumType (t : option Typ) : bool :=
  match t with
  | Some (TypeStruct ns mp _) => negb (bool_decide (ns = "")) || negb (bool_decide (mp = ""))
  | _ => false
  end.

(** [t.StructName] of a named type. *)
Definition structName (t : option Typ) : string :=
  match t with Some (TypeStruct _ _ n) => n | _ => "" end.

(** ** Scopes *)

Record slotInfo := mkSlot {
  si_Slot : nat;
  si_IsConst : bool;
  si_DeclType : option Typ;
  si_Def : pos
}.

(** A binding without a position of its own. *)
Definition noPos : pos := Pos "" 0 0.

Record scopeFrame := mkScope { sf_slots : gmap string slotInfo; sf_count : nat; sf_isRoot : bool }.

Definition newScope : scopeFrame := mkScope ∅ 0 false.
Abbreviation scopes := (list scopeFrame) (only parsing).

Definition bindSlot (f : scopeFrame) (name : string) (info : slotInfo) : scopeFrame :=
  mkScope (<[name := info]> (sf_slots f)) (S (si_Slot info)) (sf_isRoot f).

(** The number of slots of the innermost frame. *)
Definition frameCount (sc : scopes) : nat :=
  match sc with f :: _ => sf_count f | [] => O end.

Record resolver := mkResolver {
  r_methods : gmap string MethodDef;
  r_structs : gmap string StructDef;
  r_enums : gmap string EnumDef;
  r_enumOrder : list EnumDef;
  r_laterConsts : gmap string pos
}.

(** [r.scopes[0]], the globals. *)
Definition inGlobals (sc : scopes) (name : string) : option slotInfo :=
  match last sc with Some g => sf_slots g !! name | None => None end.

(** The walk of [lookupChain] up to and including the innermost root frame. *)
Fixpoint walkChain (sc : scopes) (name : string) : option slotInfo :=
  match sc with
  | [] => None
  | f :: sc =>
      match sf_slots f !! name with
      | Some info => Some info
      | None => if sf_isRoot f then None else walkChain sc name
      end
  end.

Definition lookupChain (sc : scopes) (name : string) : option slotInfo :=
  match walkChain sc name with
  | Some info => Some info
  | None => inGlobals sc name
  end.

Definition existsInChain (sc : scopes) (name : string) : bool :=
  match lookupChain sc name with Some _ => true | None => false end.

Fixpoint lookupFrom (depth : nat) (sc : scopes) (name : string) : option (nat * slotInfo) :=
  match sc with
  | [] => None
  | f :: rest =>
      match sf_slots f !! name with
      | Some info => Some (depth, info)
      | None =>
          if sf_isRoot f && negb (bool_decide (rest = [])) then
            match inGlobals rest name with
            | Some info => Some (S depth, info)
            | None => None
            end
          else lookupFrom (S depth) rest name
      end
  end.

Definition lookup (sc : scopes) (name : string) : option (nat * slotInfo) := lookupFrom 0 sc name.

(** The declared type of a binding in scope. *)
Definition bindingType (sc : scopes) (name : string) : option Typ :=
  match lookup sc name with Some (_, info) => si_DeclType info | None => None end.

Definition define (sc : scopes) (name : string) (isConst : bool) (declType : option Typ) (p : pos)
    : W (nat * scopes) :=
  match lookupChain sc name with
  | Some prev =>
      if negb (bool_decide (pos_file (si_Def prev) = "")) && bool_decide (si_Def prev = p) then
        werr p "name %q is already defined; %s:%d:%d was spliced more than once by `include` (include a shared file from exactly one place, or use `import` for run-once loading)"
          [AStr name; AStr (pos_file p); AInt (pos_line p); AInt (pos_col p)]
      else werr p "name %q is already defined in an enclosing scope" [AStr name]
  | None =>
      match sc with
      | [] => wret (O, [])
      | cur :: rest =>
          let idx := sf_count cur in
          wret (idx, bindSlot cur name (mkSlot idx isConst declType p) :: rest)
      end
  end.

(** ** Enum matches *)

Section Resolver.
Variable r : resolver.

Definition isMethod (name : string) : bool := bool_decide (is_Some (r_methods r !! name)).

Fixpoint findField (fs : list StructFieldDecl) (name : string) : option Typ :=
  match fs with
  | [] => None
  | f :: fs => if bool_decide (field_Name f = name) then namedTypeOf (field_Type f) else findField fs name
  end.

(** The field step of [subjectType]: only a struct of this file has visible fields. *)
Definition fieldType (parent : option Typ) (field : string) : option Typ :=
  if isLocalNamed parent then
    match r_structs r !! structName parent with
    | Some sd => findField (struct_Fields sd) field
    | None => None
    end
  else None.

(** [subjectType], over the way a name finds its declared type. *)
Fixpoint subjectTypeBy (look : string -> option Typ) (e : Expr) : option Typ :=
  match e with
  | VarExpr _ name _ _ _ => look name
  | ConstRefExpr _ name _ _ => look name
  | FieldAccessExpr _ target field => fieldType (subjectTypeBy look target) field
  | _ => None
  end.

Definition subjectType (sc : scopes) : Expr -> option Typ := subjectTypeBy (bindingType sc).

Definition localEnumOf (t : option Typ) : option EnumDef :=
  if isLocalNamed t then r_enums r !! structName t else None.

Definition isConstRef (e : Expr) : bool := match e with ConstRefExpr _ _ _ _ => true | _ => false end.

(** The first enum, in the order Go's map iteration yields, with a variant of that name. *)
Definition enumWithVariant (name : string) : option EnumDef :=
  snd <$> list_find (fun ed => Exists (fun v => variant_Name v = name) (enum_Variants ed)) (r_enumOrder r).

Definition rejectBinderPatternOnUntypedSubject (v : Expr) : W unit :=
  match v with
  | CallExpr p callee [a] _ _ _ =>
      if isConstRef a then
        match enumWithVariant callee with
        | Some ed =>
            werr p "`when %s(...)` destructures enum %s, but this `match` subject is not statically an enum type; assign the subject to a variable first (`def s as %s init ...;` then `match ($s)`)"
              [AStr callee; AStr (enum_Name ed); AStr (enum_Name ed)]
        | None => wret tt
        end
      else wret tt
  | _ => wret tt
  end.

Definition variantShapedArm (e : Expr) : bool :=
  match e with
  | ConstRefExpr _ name _ _ => negb (isValidConstName name)
  | CallExpr _ callee [a] _ _ _ => negb (isValidConstName callee) && isConstRef a
  | _ => false
  end.

Definition arm_Values (a : MatchArm) : list Expr := let '(mkArm _ vs _ _ _ _) := a in vs.
Definition arm_pos (a : MatchArm) : pos := let '(mkArm p _ _ _ _ _) := a in p.
Definition arm_Variant (a : MatchArm) : string := let '(mkArm _ _ _ v _ _) := a in v.
Definition arm_Bind (a : MatchArm) : string := let '(mkArm _ _ _ _ b _) := a in b.

Definition allArmsVariantShaped (arms : list MatchArm) : bool :=
  forallb (fun a => match arm_Values a with [v] => variantShapedArm v | _ => false end) arms.

(** A [when] head as a pattern: the variant and its binder, or [None] when it is not
    pattern-shaped. *)
Definition patternExpr (e : Expr) : W (option (string * string)) :=
  match e with
  | ConstRefExpr _ name _ _ => wret (Some (name, ""))
  | CallExpr p callee args _ _ _ =>
      match args with
      | [] => werr p "payload-less variant pattern is written `when %s`, without `()`" [AStr callee]
      | [ConstRefExpr _ bind _ _] => wret (Some (callee, bind))
      | [a] => werr (posFor a) "a variant pattern binder is a bare name (write `when Circle(c)`, not `$c`)" []
      | _ => werr p "variant pattern `%s(...)` binds exactly one payload name" [AStr callee]
      end
  | _ => wret None
  end.

Fixpoint joinNames (names : list string) : string :=
  match names with
  | [] => ""
  | [n] => n
  | n :: names => n +:+ ", " +:+ joinNames names
  end.

Definition findVariantDef (ed : EnumDef) (name : string) : option EnumVariant :=
  last (filter (fun v => variant_Name v = name) (enum_Variants ed)).

(** The checks of one arm: a variant of the enum, not yet covered, with a payload when it
    has a binder. *)
Definition checkArm (p : pos) (ed : EnumDef) (typeName variant bind : string) (covered : gset string)
    : W (gset string) :=
  match findVariantDef ed variant with
  | None => werr p "%q is not a variant of enum %s" [AStr variant; AStr typeName]
  | Some vdef =>
      if bool_decide (variant ∈ covered) then
        werr p "variant %s is covered more than once in this `match`" [AStr variant]
      else if negb (bool_decide (bind = "")) && bool_decide (variant_Fields vdef = []) then
        werr p "variant %s has no payload to bind (write `when %s`)" [AStr variant; AStr variant]
      else wret ({[variant]} ∪ covered)
  end.

Definition missingVariants (ed : EnumDef) (covered : gset string) : list string :=
  filter (fun n => n ∉ covered) (map variant_Name (enum_Variants ed)).

Definition checkExhaustive (p : pos) (ed : EnumDef) (typeName : string) (covered : gset string) : W unit :=
  match missingVariants ed covered with
  | [] => wret tt
  | missing =>
      werr p "`match` on enum %s is not exhaustive: missing %s (cover every variant or add an `else`)"
        [AStr typeName; AStr (joinNames missing)]
  end.

Fixpoint checkArms (arms : list MatchArm) (ed : EnumDef) (typeName : string) (covered : gset string)
    : W (gset string) :=
  match arms with
  | [] => wret covered
  | mkArm p _ _ variant bind _ :: arms =>
      let! covered := checkArm p ed typeName variant bind covered in
      checkArms arms ed typeName covered
  end.

Definition checkEnumMatchArms (p : pos) (arms : list MatchArm) (els : option Block) (ed : EnumDef)
    (typeName : string) : W unit :=
  let! covered := checkArms arms ed typeName ∅ in
  match els with
  | Some _ => wret tt
  | None => checkExhaustive p ed typeName covered
  end.

(** [tag]: arm heads become patterns.  [false] when a head is not pattern-shaped; the arms
    before it keep their tag. *)
Fixpoint tag (arms : list MatchArm) : W (list MatchArm * bool) :=
  match arms with
  | [] => wret ([], true)
  | mkArm p vs b variant bind slot :: rest =>
      match vs with
      | [v] =>
          let! pat := patternExpr v in
          match pat with
          | None => wret (arms, false)
          | Some (variant, bind) =>
              let! (rest, ok) := tag rest in
              wret (mkArm p vs b variant bind slot :: rest, ok)
          end
      | _ => wret (arms, false)
      end
  end.

(** ** Spawn bodies *)

(** The declared types of the names of a spawn body, innermost block first. *)
Abbreviation typeScopes := (list (gmap string Typ)) (only parsing).

Fixpoint lookupTypes (types : typeScopes) (name : string) : option (option Typ) :=
  match types with
  | [] => None
  | m :: types =>
      match m !! name with Some t => Some (Some t) | None => lookupTypes types name end
  end.

Definition recordType (types : typeScopes) (name : string) (t : Typ) : typeScopes :=
  match namedTypeOf t, types with
  | Some t, m :: types => <[name := t]> m :: types
  | _, _ => types
  end.

Section Spawn.
Variable sc : scopes.

Definition spawnSubject (types : typeScopes) : Expr -> option Typ :=
  subjectTypeBy (fun name =>
    match lookupTypes types name with Some t => t | None => bindingType sc name end).

(** [walkMatch]: the arms and the enum type after it. *)
Definition walkMatch (types : typeScopes) (p : pos) (subject : Expr) (arms : list MatchArm)
    (els : option Block) (et : option Typ) : W (list MatchArm * option Typ) :=
  match arms with
  | [] => wret (arms, et)
  | _ =>
      let t := spawnSubject types subject in
      match localEnumOf t with
      | Some ed =>
          let! (arms, ok) := tag arms in
          if ok then
            let! _ := checkEnumMatchArms p arms els ed (enum_Name ed) in
            wret (arms, et)
          else wret (arms, et)
      | None =>
          if deferrableEnumType t && allArmsVariantShaped arms then
            let! (arms, ok) := tag arms in
            if ok then
              let! _ := wtell p in
              wret (arms, t)
            else wret (arms, et)
          else wret (arms, et)
      end
  end.

(** [walkExpr] and [walkStmts] of [checkSpawnEnums]. *)
Fixpoint walkStmt (types : typeScopes) (s : Stmt) : W (Stmt * typeScopes) :=
  match s with
  | DefineStmt p c x name t init slot bo =>
      let types := recordType types name t in
      let! init := wopt walkExpr init in
      wret (DefineStmt p c x name t init slot bo, types)
  | MatchStmt p subject arms els et =>
      let! (arms', et) := walkMatch types p subject arms els et in
      let! bodies := wmap (walkArm types) arms in
      let! els := wopt (walkBlock types) els in
      wret (MatchStmt p subject (zip_with (fun a b =>
        let '(mkArm p vs _ v bind slot) := a in let '(mkArm _ _ b _ _ _) := b in mkArm p vs b v bind slot)
        arms' bodies) els et, types)
  | IfStmt p c thn elifs els =>
      let! thn := walkBlock types thn in
      let! elifs := wmap (fun '(c, b) => let! b := walkBlock types b in wret (c, b)) elifs in
      let! els := wopt (walkBlock types) els in
      wret (IfStmt p c thn elifs els, types)
  | WhileStmt p c b => let! b := walkBlock types b in wret (WhileStmt p c b, types)
  | RepeatStmt p b c => let! b := walkBlock types b in wret (RepeatStmt p b c, types)
  | ForStmt p init c st b h =>
      let inner := match init with
                   | Some (DefineStmt _ _ _ name t _ _ _) => recordType (∅ :: types) name t
                   | _ => ∅ :: types
                   end in
      let! b := walkBlock inner b in
      wret (ForStmt p init c st b h, types)
  | ForEachStmt p x c b i => let! b := walkBlock types b in wret (ForEachStmt p x c b i, types)
  | TryStmt p b x cb cp i =>
      let! b := walkBlock types b in
      let! cb := walkBlock types cb in
      wret (TryStmt p b x cb cp i, types)
  | ExprStmt p e => let! e := walkExpr e in wret (ExprStmt p e, types)
  | _ => wret (s, types)
  end
with walkBlock (types : typeScopes) (b : Block) : W Block :=
  match b with
  | mkBlock p ss n =>
      let! (ss, _) := wfold walkStmt (∅ :: types) ss in
      wret (mkBlock p ss n)
  end
with walkArm (types : typeScopes) (a : MatchArm) : W MatchArm :=
  match a with
  | mkArm p vs b v bind slot =>
      let! b := walkBlock types b in
      wret (mkArm p vs b v bind slot)
  end
with walkExpr (e : Expr) : W Expr :=
  match e with
  | SpawnExpr p body caps =>
      let! (body, _) := wfold walkStmt [∅] body in
      wret (SpawnExpr p body caps)
  | _ => wret e
  end.

Definition checkSpawnEnums (body : list Stmt) : W (list Stmt) :=
  let! (body, _) := wfold walkStmt [∅] body in wret body.
End Spawn.

(** ** Expressions *)

Section Expr.
Variable sc : scopes.

Definition undefinedVariable {A} (p : pos) (name : string) : W A :=
  werr p "undefined variable %q" [AStr name].

Fixpoint resolveExpr (e : Expr) : W Expr :=
  match e with
  | VarExpr p name _ _ mv =>
      match lookup sc name with
      | None => undefinedVariable p name
      | Some (depth, info) =>
          if si_IsConst info then
            werr p "constant %q is referenced with `$`; drop the sigil (constants are referenced bare)" [AStr name]
          else wret (VarExpr p name (Z.of_nat depth) (Z.of_nat (si_Slot info)) mv)
      end
  | ConstRefExpr p name d s =>
      match lookup sc name with
      | Some (depth, info) => wret (ConstRefExpr p name (Z.of_nat depth) (Z.of_nat (si_Slot info)))
      | None =>
          match r_laterConsts r !! name with
          | Some dp =>
              if isMethod name then wret e
              else
                let where_ := if bool_decide (pos_file dp = pos_file p) then [AStr "line"; AInt (pos_line dp)]
                              else [AStr (pos_file dp); AInt (pos_line dp)] in
                werr p "constant %s is used before its definition on %s; top-level code runs in source order, so move the `def const` above its first use"
                  (AStr name :: where_)
          | None => wret e
          end
      end
  | CallExpr p callee args m mv snap =>
      let m := match r_methods r !! callee with
               | Some d => Some {| ref_Name := method_Name d; ref_ReturnsOwned := method_ReturnsOwned d |}
               | None => m
               end in
      let! args := wmap resolveExpr args in
      wret (CallExpr p callee args m mv snap)
  | CallValueExpr p callee args snap =>
      let! callee := resolveExpr callee in
      let! args := wmap resolveExpr args in
      wret (CallValueExpr p callee args snap)
  | QualifiedCallExpr p prefix callee args mv snap =>
      let! args := wmap resolveExpr args in
      wret (QualifiedCallExpr p prefix callee args mv snap)
  | LenExpr p a => let! a := resolveExpr a in wret (LenExpr p a)
  | SpawnExpr p body caps => let! body := checkSpawnEnums sc body in wret (SpawnExpr p body caps)
  | IndexExpr p t i =>
      let! t := resolveExpr t in
      let! i := resolveExpr i in
      wret (IndexExpr p t i)
  | RangeExpr p lo hi =>
      let! lo := resolveExpr lo in
      let! hi := resolveExpr hi in
      wret (RangeExpr p lo hi)
  | SliceExpr p t lo hi =>
      let! t := resolveExpr t in
      let! lo := wopt resolveExpr lo in
      let! hi := wopt resolveExpr hi in
      wret (SliceExpr p t lo hi)
  | FieldAccessExpr p t f => let! t := resolveExpr t in wret (FieldAccessExpr p t f)
  | ListLit p es => let! es := wmap resolveExpr es in wret (ListLit p es)
  | MapLit p kvs =>
      let! kvs := wmap (fun '(k, v) =>
        let! k := resolveExpr k in let! v := resolveExpr v in wret (k, v)) kvs in
      wret (MapLit p kvs)
  | StructLit p ns en name bare fs =>
      let! fs := wmap (fun '(f, e, fp) => let! e := resolveExpr e in wret (f, e, fp)) fs in
      wret (StructLit p ns en name bare fs)
  | UnaryExpr p op a _ =>
      let! a := resolveExpr a in
      wret (UnaryExpr p op a (tryFoldUnary p op a))
  | BinaryExpr p op a b _ =>
      let! a := resolveExpr a in
      let! b := resolveExpr b in
      wret (BinaryExpr p op a b (tryFoldBinary p op a b))
  | InterpStringExpr p parts =>
      let! parts := wmap (fun '(lit, o) => let! o := wopt resolveExpr o in wret (lit, o)) parts in
      wret (InterpStringExpr p parts)
  | IntLit _ _ | FloatLit _ _ | StringLit _ _ | BoolLit _ _ | NullLit _
  | QualifiedConstRefExpr _ _ _ | PreEval _ _ => wret e
  end.

(** [resolveTarget]: the root of an lvalue may be a constant. *)
Fixpoint resolveTarget (e : Expr) : W Expr :=
  match e with
  | VarExpr p name _ _ mv =>
      match lookup sc name with
      | None => undefinedVariable p name
      | Some (depth, info) => wret (VarExpr p name (Z.of_nat depth) (Z.of_nat (si_Slot info)) mv)
      end
  | IndexExpr p t i =>
      let! t := resolveTarget t in
      let! i := resolveExpr i in
      wret (IndexExpr p t i)
  | FieldAccessExpr p t f => let! t := resolveTarget t in wret (FieldAccessExpr p t f)
  | _ => resolveExpr e
  end.
End Expr.

(** ** Moves *)

Definition freshLiteralRHS (e : Expr) : bool :=
  match e with
  | ListLit _ _ | MapLit _ _ | StructLit _ _ _ _ _ _ | RangeExpr _ _ _ | SliceExpr _ _ _ _ => true
  | _ => false
  end.

(** [firstMoveable] and [moveCandidate], with the mark set: the first reference in a movable
    position, through nested literals; [None] when there is none. *)
Section FirstOf.
Context {A : Type}.

Fixpoint firstOf (f : A -> option A) (l : list A) : option (list A) :=
  match l with
  | [] => None
  | x :: l =>
      match f x with
      | Some x => Some (x :: l)
      | None => match firstOf f l with Some l => Some (x :: l) | None => None end
      end
  end.
End FirstOf.

Fixpoint moveCandidate (name : string) (e : Expr) : option Expr :=
  match e with
  | VarExpr p n d s _ => if bool_decide (n = name) then Some (VarExpr p n d s true) else None
  | ListLit p es =>
      match firstOf (moveCandidate name) es with Some es => Some (ListLit p es) | None => None end
  | MapLit p kvs =>
      match firstOf (fun '(k, v) => match moveCandidate name v with Some v => Some (k, v) | None => None end) kvs with
      | Some kvs => Some (MapLit p kvs)
      | None => None
      end
  | StructLit p ns en sn bare fs =>
      match firstOf (fun '(f, e, fp) =>
              match moveCandidate name e with Some e => Some (f, e, fp) | None => None end) fs with
      | Some fs => Some (StructLit p ns en sn bare fs)
      | None => None
      end
  | _ => None
  end.

Definition firstMoveable (name : string) (e : Expr) : option Expr :=
  match e with
  | ListLit _ _ | MapLit _ _ | StructLit _ _ _ _ _ _ => moveCandidate name e
  | _ => None
  end.

Definition markMoveableAssign (name : string) (value : Expr) : Expr :=
  if freshLiteralRHS value then default value (firstMoveable name value) else value.

(** ** Statements *)

Definition resolveDefine (sc : scopes) (p : pos) (c x : bool) (name : string) (t : Typ)
    (init : option Expr) (bo : bool) : W (Stmt * scopes) :=
  let! init := wopt (resolveExpr sc) init in
  let! (slot, sc) := define sc name c (namedTypeOf t) p in
  wret (DefineStmt p c x name t init (Z.of_nat slot) bo, sc).

Definition resolveAssign (sc : scopes) (p : pos) (name : string) (value : Expr) : W Stmt :=
  let! value := resolveExpr sc value in
  match lookup sc name with
  | None => undefinedVariable p name
  | Some (depth, info) =>
      if si_IsConst info then werr p "cannot assign to constant %q" [AStr name]
      else wret (AssignStmt p name (markMoveableAssign name value) (Z.of_nat depth) (Z.of_nat (si_Slot info)))
  end.

(** A fresh frame for a name the statement itself binds, in slot 0. *)
Definition binderScope (name : string) : scopeFrame :=
  bindSlot newScope name (mkSlot 0 false None noPos).

(** The frame of a pattern arm: the binder, if any, takes a slot. *)
Definition armScope (sc : scopes) (bind : string) (p : pos) : W (Z * scopes) :=
  if bool_decide (bind = "") then wret (-1, newScope :: sc)
  else let! (slot, sc) := define (newScope :: sc) bind false None p in wret (Z.of_nat slot, sc).

Section Arms.
Variable sc : scopes.
(** Resolution of a block in the frames given. *)
Variable resolveIn : scopes -> Block -> W Block.

(** The arms of [resolveEnumMatch]. *)
Fixpoint enumArms (ed : EnumDef) (arms : list MatchArm) (covered : gset string)
    : W (list MatchArm * gset string) :=
  match arms with
  | [] => wret ([], covered)
  | mkArm p vs b _ _ _ :: arms =>
      match vs with
      | [v] =>
          let! pat := patternExpr v in
          match pat with
          | None =>
              werr p "`match` on enum %s expects variant patterns (`when Circle(c)` or `when Empty`)" [AStr (enum_Name ed)]
          | Some (variant, bind) =>
              let! covered := checkArm p ed (enum_Name ed) variant bind covered in
              let! (slot, inner) := armScope sc bind p in
              let! b := resolveIn inner b in
              let! (arms, covered) := enumArms ed arms covered in
              wret (mkArm p vs b variant bind slot :: arms, covered)
          end
      | _ => werr p "a `match` arm on enum %s matches one variant pattern (no comma-separated value list)" [AStr (enum_Name ed)]
      end
  end.

(** The arms of [resolveDeferredEnumMatch]. *)
Fixpoint deferredArms (t : Typ) (arms : list MatchArm) : W (list MatchArm) :=
  match arms with
  | [] => wret []
  | mkArm p vs b _ _ _ :: arms =>
      match vs with
      | [v] =>
          let! pat := patternExpr v in
          match pat with
          | None => werr p "`match` on %s expects variant patterns (`when Circle(c)` or `when Empty`)" [AStr (Type_String t)]
          | Some (variant, bind) =>
              let! (slot, inner) := armScope sc bind p in
              let! b := resolveIn inner b in
              let! arms := deferredArms t arms in
              wret (mkArm p vs b variant bind slot :: arms)
          end
      | _ => werr p "a `match` arm on %s matches one variant pattern (no comma-separated value list)" [AStr (Type_String t)]
      end
  end.

(** The arms of a value match. *)
Fixpoint valueArms (arms : list MatchArm) : W (list MatchArm) :=
  match arms with
  | [] => wret []
  | mkArm p vs b variant bind _ :: arms =>
      let! _ := match vs with [v] => rejectBinderPatternOnUntypedSubject v | _ => wret tt end in
      let! vs := wmap (resolveExpr sc) vs in
      let! b := resolveIn (newScope :: sc) b in
      let! arms := valueArms arms in
      wret (mkArm p vs b variant bind (-1) :: arms)
  end.

Definition resolveMatch (p : pos) (subject : Expr) (arms : list MatchArm) (els : option Block)
    (et : option Typ) : W Stmt :=
  let! subject := resolveExpr sc subject in
  let t := subjectType sc subject in
  match localEnumOf t with
  | Some ed =>
      let! (arms, covered) := enumArms ed arms ∅ in
      match els with
      | Some b => let! b := resolveIn (newScope :: sc) b in wret (MatchStmt p subject arms (Some b) et)
      | None => let! _ := checkExhaustive p ed (enum_Name ed) covered in wret (MatchStmt p subject arms None et)
      end
  | None =>
      match t with
      | Some ty =>
          if deferrableEnumType t && negb (bool_decide (length arms = O)) && allArmsVariantShaped arms then
            let! arms := deferredArms ty arms in
            let! _ := wtell p in
            let! els := wopt (resolveIn (newScope :: sc)) els in
            wret (MatchStmt p subject arms els t)
          else
            let! arms := valueArms arms in
            let! els := wopt (resolveIn (newScope :: sc)) els in
            wret (MatchStmt p subject arms els et)
      | None =>
          let! arms := valueArms arms in
          let! els := wopt (resolveIn (newScope :: sc)) els in
          wret (MatchStmt p subject arms els et)
      end
  end.
End Arms.

(** [resolveIn sc b] walks the statements of a block in the frames [sc], of which the first
    is the block's own, and stamps its number of slots. *)
Fixpoint resolveStmt (sc : scopes) (s : Stmt) : W (Stmt * scopes) :=
  match s with
  | DefineStmt p c x name t init _ bo => resolveDefine sc p c x name t init bo
  | AssignStmt p name value _ _ => let! s := resolveAssign sc p name value in wret (s, sc)
  | IndexAssignStmt p t v =>
      let! t := resolveTarget sc t in
      let! v := resolveExpr sc v in
      wret (IndexAssignStmt p t v, sc)
  | AppendStmt p t v =>
      let! t := resolveTarget sc t in
      let! v := resolveExpr sc v in
      wret (AppendStmt p t v, sc)
  | FieldAssignStmt p t v =>
      let! t := resolveTarget sc t in
      let! v := resolveExpr sc v in
      wret (FieldAssignStmt p t v, sc)
  | IfStmt p c thn elifs els =>
      let! c := resolveExpr sc c in
      let! thn := resolveIn (newScope :: sc) thn in
      let! elifs := wmap (fun '(c, b) =>
        let! c := resolveExpr sc c in
        let! b := resolveIn (newScope :: sc) b in
        wret (c, b)) elifs in
      let! els := wopt (resolveIn (newScope :: sc)) els in
      wret (IfStmt p c thn elifs els, sc)
  | MatchStmt p subject arms els et =>
      let! s := resolveMatch sc resolveIn p subject arms els et in
      wret (s, sc)
  | WhileStmt p c b =>
      let! c := resolveExpr sc c in
      let! b := resolveIn (newScope :: sc) b in
      wret (WhileStmt p c b, sc)
  | ForStmt p init c st b _ =>
      let! (init, inner) := match init with
                            | Some s => let! (s, inner) := resolveStmt (newScope :: sc) s in wret (Some s, inner)
                            | None => wret (None, newScope :: sc)
                            end in
      let! c := wopt (resolveExpr inner) c in
      let! (st, inner) := match st with
                          | Some s => let! (s, inner) := resolveStmt inner s in wret (Some s, inner)
                          | None => wret (None, inner)
                          end in
      let! b := resolveIn (newScope :: inner) b in
      wret (ForStmt p init c st b (frameCount inner), sc)
  | ForEachStmt p name coll b _ =>
      let! coll := resolveExpr sc coll in
      if existsInChain (newScope :: sc) name then
        werr p "for-each iterator %q shadows an enclosing binding" [AStr name]
      else
        let! b := resolveIn (binderScope name :: sc) b in
        wret (ForEachStmt p name coll b 0, sc)
  | RepeatStmt p b c =>
      let! b := resolveIn (newScope :: sc) b in
      let! c := resolveExpr sc c in
      wret (RepeatStmt p b c, sc)
  | ReturnStmt p v => let! v := wopt (resolveExpr sc) v in wret (ReturnStmt p v, sc)
  | ExitStmt p v => let! v := wopt (resolveExpr sc) v in wret (ExitStmt p v, sc)
  | ThrowStmt p v => let! v := resolveExpr sc v in wret (ThrowStmt p v, sc)
  | DeferStmt p c o => let! c := resolveExpr sc c in wret (DeferStmt p c o, sc)
  | TryStmt p b name cb cp _ =>
      let! b := resolveIn (newScope :: sc) b in
      if existsInChain (newScope :: sc) name then
        werr cp "catch binding %q shadows an enclosing binding" [AStr name]
      else
        let! cb := resolveIn (binderScope name :: sc) cb in
        wret (TryStmt p b name cb cp 0, sc)
  | BreakStmt _ | ContinueStmt _ => wret (s, sc)
  | ExprStmt p e => let! e := resolveExpr sc e in wret (ExprStmt p e, sc)
  end
with resolveIn (sc : scopes) (b : Block) : W Block :=
  match b with
  | mkBlock p ss _ =>
      let! (ss, sc) := wfold resolveStmt sc ss in
      wret (mkBlock p ss (frameCount sc))
  end.

Definition resolveBlock (sc : scopes) (b : Block) : W Block := resolveIn (newScope :: sc) b.
End Resolver.
