(* ===== verification/Ownership.v ===== *)
(** * Borrow, move and ownership marks (internal/parser/resolver.go, ownership.go)

    The static analyses that run after a method body is resolved: which parameters and
    locals may be bound without a copy, which methods return values nobody else holds, and
    which call argument may be moved.

    The tree's [CallExpr.Method] is a pointer to the method, through which the Go code reads
    its current [ReturnsOwned]; here the methods with that flag are a set of names ([own]),
    the names of a program's methods being distinct, and [stampBlock] writes the final flags
    into the references. *)

From S2P Require Import Prelude Types Ast Resolver.
Open Scope string_scope.
Open Scope list_scope.

(** ** Writes *)

Definition borrowSafeType (t : Typ) : bool :=
  match t with
  | TypeList (Some (TypeList _)) | TypeList (Some (TypeMap _)) => false
  | TypeList _ => true
  | TypeMap (Some (_, TypeList _)) | TypeMap (Some (_, TypeMap _)) => false
  | TypeMap _ => true
  | TypeStruct _ _ _ | TypeBytes => true
  | _ => false
  end.

Fixpoint lvalueRootName (e : Expr) : string :=
  match e with
  | VarExpr _ name _ _ _ => name
  | IndexExpr _ t _ => lvalueRootName t
  | FieldAccessExpr _ t _ => lvalueRootName t
  | _ => ""
  end.

Record writeScan := mkScan { written : gset string; conservative : bool }.

Definition writeRoot (root : string) (w : writeScan) : writeScan :=
  if bool_decide (root = "") then mkScan (written w) true
  else mkScan ({[root]} ∪ written w) (conservative w).

(** [writeScan.stmt] and [writeScan.stmts]. *)
Fixpoint scanStmt (w : writeScan) (s : Stmt) : writeScan :=
  match s with
  | AssignStmt _ name _ _ _ => mkScan ({[name]} ∪ written w) (conservative w)
  | IndexAssignStmt _ t _ | AppendStmt _ t _ | FieldAssignStmt _ t _ => writeRoot (lvalueRootName t) w
  | IfStmt _ _ thn elifs els =>
      let w := scanBlock w thn in
      let w := foldl (fun w '(_, b) => scanBlock w b) w elifs in
      match els with Some b => scanBlock w b | None => w end
  | MatchStmt _ _ arms els _ =>
      let w := foldl scanArm w arms in
      match els with Some b => scanBlock w b | None => w end
  | WhileStmt _ _ b | ForEachStmt _ _ _ b _ | RepeatStmt _ b _ => scanBlock w b
  | ForStmt _ init _ st b _ =>
      let w := match init with Some s => scanStmt w s | None => w end in
      let w := match st with Some s => scanStmt w s | None => w end in
      scanBlock w b
  | TryStmt _ b _ cb _ _ => scanBlock (scanBlock w b) cb
  | DefineStmt _ _ _ _ _ _ _ _ | ReturnStmt _ _ | ExitStmt _ _ | ThrowStmt _ _ | DeferStmt _ _ _
  | ExprStmt _ _ | BreakStmt _ | ContinueStmt _ => w
  end
with scanBlock (w : writeScan) (b : Block) : writeScan :=
  match b with mkBlock _ ss _ => foldl scanStmt w ss end
with scanArm (w : writeScan) (a : MatchArm) : writeScan :=
  match a with mkArm _ _ b _ _ _ => scanBlock w b end.

(** ** Borrowing *)

Definition markBorrowableParams (params : list Param) (body : Block) : list Param :=
  let w := scanBlock (mkScan ∅ false) body in
  map (fun p => {| param_Name := param_Name p; param_Type := param_Type p; param_pos := param_pos p;
                   param_Borrow := negb (conservative w) && borrowSafeType (param_Type p) &&
                                   negb (bool_decide (param_Name p ∈ written w)) |}) params.

(** [aliasRoots]: the bindings whose backing the value may alias; [None] when unbounded. *)
Fixpoint collectAliasRoots (e : Expr) (roots : gset string) : option (gset string) :=
  match e with
  | IntLit _ _ | FloatLit _ _ | StringLit _ _ | BoolLit _ _ | NullLit _
  | ListLit _ _ | MapLit _ _ | StructLit _ _ _ _ _ _ | RangeExpr _ _ _ | SliceExpr _ _ _ _
  | InterpStringExpr _ _ | PreEval _ _ => Some roots
  | BinaryExpr _ _ _ _ _ | UnaryExpr _ _ _ _ | LenExpr _ _ => Some roots
  | VarExpr _ name _ _ _ | ConstRefExpr _ name _ _ => Some ({[name]} ∪ roots)
  | IndexExpr _ t _ | FieldAccessExpr _ t _ => collectAliasRoots t roots
  | CallExpr _ _ args (Some _) _ _ =>
      foldl (fun acc a => match acc with Some roots => collectAliasRoots a roots | None => None end)
        (Some roots) args
  | _ => None
  end.

Definition aliasRoots (e : Expr) : option (gset string) := collectAliasRoots e ∅.

(** The new mark of [markOneDef]. *)
Definition borrowableDef (w : writeScan) (c : bool) (name : string) (t : Typ) (init : option Expr) : bool :=
  match init with
  | None => false
  | Some e =>
      if c then false
      else if negb (borrowSafeType t) || bool_decide (name ∈ written w) then false
      else
        match aliasRoots e with
        | None => false
        | Some roots => bool_decide (roots ∩ written w = ∅)
        end
  end.

Fixpoint markDef (w : writeScan) (s : Stmt) : Stmt :=
  match s with
  | DefineStmt p c x name t init slot bo =>
      DefineStmt p c x name t init slot (borrowableDef w c name t init || bo)
  | IfStmt p c thn elifs els =>
      IfStmt p c (markDefB w thn) (map (fun '(c, b) => (c, markDefB w b)) elifs)
        (match els with Some b => Some (markDefB w b) | None => None end)
  | MatchStmt p e arms els et =>
      MatchStmt p e (map (markDefA w) arms)
        (match els with Some b => Some (markDefB w b) | None => None end) et
  | WhileStmt p c b => WhileStmt p c (markDefB w b)
  | ForStmt p init c st b h =>
      ForStmt p (match init with Some s => Some (markDef w s) | None => None end) c st (markDefB w b) h
  | ForEachStmt p x c b i => ForEachStmt p x c (markDefB w b) i
  | RepeatStmt p b c => RepeatStmt p (markDefB w b) c
  | TryStmt p b x cb cp i => TryStmt p (markDefB w b) x (markDefB w cb) cp i
  | _ => s
  end
with markDefB (w : writeScan) (b : Block) : Block :=
  match b with mkBlock p ss n => mkBlock p (map (markDef w) ss) n end
with markDefA (w : writeScan) (a : MatchArm) : MatchArm :=
  match a with mkArm p vs b v bind slot => mkArm p vs (markDefB w b) v bind slot end.

Definition markBorrowableDefs (body : Block) : Block :=
  let w := scanBlock (mkScan ∅ false) body in
  if conservative w then body else markDefB w body.

(** ** Ownership *)

(** [walkStmtTree]: the statements in the order they are visited. *)
Fixpoint stmtTree (s : Stmt) : list Stmt :=
  s :: match s with
       | IfStmt _ _ thn elifs els =>
           blockTree thn ++ concat (map (fun '(_, b) => blockTree b) elifs)
             ++ match els with Some b => blockTree b | None => [] end
       | MatchStmt _ _ arms els _ =>
           concat (map armTree arms) ++ match els with Some b => blockTree b | None => [] end
       | WhileStmt _ _ b | ForEachStmt _ _ _ b _ | RepeatStmt _ b _ => blockTree b
       | ForStmt _ init _ st b _ =>
           match init with Some s => stmtTree s | None => [] end
             ++ match st with Some s => stmtTree s | None => [] end ++ blockTree b
       | TryStmt _ b _ cb _ _ => blockTree b ++ blockTree cb
       | _ => []
       end
with blockTree (b : Block) : list Stmt :=
  match b with mkBlock _ ss _ => concat (map stmtTree ss) end
with armTree (a : MatchArm) : list Stmt :=
  match a with mkArm _ _ b _ _ _ => blockTree b end.

Section Owned.
Variable own : gset string.

(** [c.Method != nil && c.Method.ReturnsOwned]. *)
Definition ownedCall (m : option MethodRef) : bool :=
  match m with Some m => bool_decide (ref_Name m ∈ own) | None => false end.

Definition freshOrOwnedInit (e : option Expr) : bool :=
  match e with
  | Some e => freshLiteralRHS e || match e with CallExpr _ _ _ m _ _ => ownedCall m | _ => false end
  | None => false
  end.

(** The names a statement of the tree binds as owned, and those it rules out. *)
Definition ownsNames (s : Stmt) : list string * list string :=
  match s with
  | DefineStmt _ c _ name _ init _ bo =>
      if c || (bo && negb (freshOrOwnedInit init)) then ([], [name]) else ([name], [])
  | ForEachStmt _ name _ _ _ => ([], [name])
  | TryStmt _ _ name _ _ _ => ([], [name])
  | MatchStmt _ _ arms _ _ => ([], filter (fun b => b <> "") (map arm_Bind arms))
  | _ => ([], [])
  end.

Definition ownedLocals (m : MethodDef) : gset string :=
  let tree := map ownsNames (blockTree (method_Body m)) in
  let params b := map param_Name (filter (fun p => param_Borrow p = b) (method_Params m)) in
  list_to_set (params false ++ concat (map fst tree)) ∖ list_to_set (params true ++ concat (map snd tree)).

Definition returnValues (ss : list Stmt) : list (option Expr) :=
  omap (fun s => match s with ReturnStmt _ v => Some v | _ => None end) (concat (map stmtTree ss)).

Fixpoint isOwnedRoot (owned : gset string) (e : Expr) : bool :=
  match e with
  | VarExpr _ name _ _ _ => bool_decide (name ∈ owned)
  | IndexExpr _ t _ | FieldAccessExpr _ t _ => isOwnedRoot owned t
  | _ => false
  end.

Definition ownedExpr (owned : gset string) (e : option Expr) : bool :=
  match e with
  | None => true
  | Some e =>
      match e with
      | IntLit _ _ | FloatLit _ _ | StringLit _ _ | BoolLit _ _ | NullLit _ | InterpStringExpr _ _
      | BinaryExpr _ _ _ _ _ | UnaryExpr _ _ _ _ | LenExpr _ _ => true
      | ListLit _ _ | MapLit _ _ | StructLit _ _ _ _ _ _ | RangeExpr _ _ _ | SliceExpr _ _ _ _ => true
      | VarExpr _ name _ _ _ => bool_decide (name ∈ owned)
      | IndexExpr _ _ _ | FieldAccessExpr _ _ _ => isOwnedRoot owned e
      | CallExpr _ _ _ m _ _ => ownedCall m
      | _ => false
      end
  end.

(** Every [return] of the method yields an owned value. *)
Definition returnsOwned (m : MethodDef) : bool :=
  forallb (ownedExpr (ownedLocals m)) (returnValues (block_Stmts (method_Body m))).
End Owned.

(** One pass of the fixpoint loop over the methods: the flags and whether one was cleared. *)
Fixpoint ownershipPass (ms : list MethodDef) (own : gset string) : gset string * bool :=
  match ms with
  | [] => (own, false)
  | m :: ms =>
      if bool_decide (method_Name m ∈ own) && negb (returnsOwned own m) then
        let '(own, _) := ownershipPass ms (own ∖ {[method_Name m]}) in (own, true)
      else ownershipPass ms own
  end.

Fixpoint ownershipLoop (fuel : nat) (ms : list MethodDef) (own : gset string) : gset string :=
  match fuel with
  | O => own
  | S fuel =>
      let '(own, changed) := ownershipPass ms own in
      if changed then ownershipLoop fuel ms own else own
  end.

(** ** Moved arguments *)

(** [countVarRefs]: [None] for a node the count does not know. *)
Definition addRefs (a b : option nat) : option nat :=
  match a, b with Some a, Some b => Some (a + b)%nat | _, _ => None end.

Fixpoint countVarRefs (name : string) (e : Expr) : option nat :=
  let opt o := match o with Some e => countVarRefs name e | None => Some O end in
  match e with
  | IntLit _ _ | FloatLit _ _ | StringLit _ _ | BoolLit _ _ | NullLit _ | ConstRefExpr _ _ _ _
  | QualifiedConstRefExpr _ _ _ | PreEval _ _ => Some O
  | VarExpr _ n _ _ _ => Some (if bool_decide (n = name) then 1%nat else O)
  | BinaryExpr _ _ a b _ | IndexExpr _ a b | RangeExpr _ a b => addRefs (countVarRefs name a) (countVarRefs name b)
  | UnaryExpr _ _ a _ | LenExpr _ a | FieldAccessExpr _ a _ => countVarRefs name a
  | SliceExpr _ t lo hi => addRefs (countVarRefs name t) (addRefs (opt lo) (opt hi))
  | ListLit _ es => foldr addRefs (Some O) (map (countVarRefs name) es)
  | MapLit _ kvs =>
      foldr addRefs (Some O) (map (fun '(k, v) => addRefs (countVarRefs name k) (countVarRefs name v)) kvs)
  | StructLit _ _ _ _ _ fs => foldr addRefs (Some O) (map (fun '(_, e, _) => countVarRefs name e) fs)
  | InterpStringExpr _ parts => foldr addRefs (Some O) (map (fun '(_, o) => opt o) parts)
  | CallExpr _ _ args _ _ _ | QualifiedCallExpr _ _ _ args _ _ =>
      foldr addRefs (Some O) (map (countVarRefs name) args)
  | CallValueExpr _ f args _ =>
      addRefs (countVarRefs name f) (foldr addRefs (Some O) (map (countVarRefs name) args))
  | SpawnExpr _ _ _ => None
  end.

(** The 1-based position of the first argument [$name]; 0 when there is none. *)
Fixpoint argIndex (name : string) (i : nat) (args : list Expr) : nat :=
  match args with
  | [] => O
  | VarExpr _ n _ _ _ :: args => if bool_decide (n = name) then S i else argIndex name (S i) args
  | _ :: args => argIndex name (S i) args
  end.

Definition moveIndex (owned : gset string) (inTry : bool) (name : string) (value : Expr) (args : list Expr) : nat :=
  if inTry || negb (bool_decide (name ∈ owned)) then O
  else if bool_decide (countVarRefs name value = Some 1%nat) then argIndex name 0 args
  else O.

(** [markMoveAssign]: the right-hand side with its [MoveArg]. *)
Definition markMoveAssign (owned : gset string) (inTry : bool) (name : string) (value : Expr) : Expr :=
  match value with
  | CallExpr p callee args m _ snap =>
      CallExpr p callee args m (moveIndex owned inTry name value args) snap
  | QualifiedCallExpr p prefix callee args _ snap =>
      QualifiedCallExpr p prefix callee args (moveIndex owned inTry name value args) snap
  | _ => value
  end.

Fixpoint markMove (owned : gset string) (inTry : bool) (s : Stmt) : Stmt :=
  match s with
  | AssignStmt p name v d sl => AssignStmt p name (markMoveAssign owned inTry name v) d sl
  | IfStmt p c thn elifs els =>
      IfStmt p c (markMoveB owned inTry thn) (map (fun '(c, b) => (c, markMoveB owned inTry b)) elifs)
        (match els with Some b => Some (markMoveB owned inTry b) | None => None end)
  | MatchStmt p e arms els et =>
      MatchStmt p e (map (markMoveA owned inTry) arms)
        (match els with Some b => Some (markMoveB owned inTry b) | None => None end) et
  | WhileStmt p c b => WhileStmt p c (markMoveB owned inTry b)
  | ForStmt p init c st b h =>
      ForStmt p (match init with Some s => Some (markMove owned inTry s) | None => None end) c
        (match st with Some s => Some (markMove owned inTry s) | None => None end) (markMoveB owned inTry b) h
  | ForEachStmt p x c b i => ForEachStmt p x c (markMoveB owned inTry b) i
  | RepeatStmt p b c => RepeatStmt p (markMoveB owned inTry b) c
  | TryStmt p b x cb cp i => TryStmt p (markMoveB owned true b) x (markMoveB owned inTry cb) cp i
  | _ => s
  end
with markMoveB (owned : gset string) (inTry : bool) (b : Block) : Block :=
  match b with mkBlock p ss n => mkBlock p (map (markMove owned inTry) ss) n end
with markMoveA (owned : gset string) (inTry : bool) (a : MatchArm) : MatchArm :=
  match a with mkArm p vs b v bind slot => mkArm p vs (markMoveB owned inTry b) v bind slot end.

(** ** The flags as seen through the references *)

(** The tree with its method references, [MoveArg] and [Borrow] marks rewritten. *)
Section Remark.
Variables (ref : MethodRef -> MethodRef) (mva : nat -> nat) (bor : bool -> bool).

Fixpoint remarkExpr (e : Expr) : Expr :=
  let opt o := match o with Some e => Some (remarkExpr e) | None => None end in
  match e with
  | CallExpr p callee args m mv snap => CallExpr p callee (map remarkExpr args) (ref <$> m) (mva mv) snap
  | CallValueExpr p f args snap => CallValueExpr p (remarkExpr f) (map remarkExpr args) snap
  | QualifiedCallExpr p prefix callee args mv snap =>
      QualifiedCallExpr p prefix callee (map remarkExpr args) (mva mv) snap
  | LenExpr p a => LenExpr p (remarkExpr a)
  | IndexExpr p a b => IndexExpr p (remarkExpr a) (remarkExpr b)
  | RangeExpr p a b => RangeExpr p (remarkExpr a) (remarkExpr b)
  | SliceExpr p t lo hi => SliceExpr p (remarkExpr t) (opt lo) (opt hi)
  | FieldAccessExpr p t f => FieldAccessExpr p (remarkExpr t) f
  | ListLit p es => ListLit p (map remarkExpr es)
  | MapLit p kvs => MapLit p (map (fun '(k, v) => (remarkExpr k, remarkExpr v)) kvs)
  | StructLit p ns en name bare fs =>
      StructLit p ns en name bare (map (fun '(f, e, fp) => (f, remarkExpr e, fp)) fs)
  | UnaryExpr p op a f => UnaryExpr p op (remarkExpr a) f
  | BinaryExpr p op a b f => BinaryExpr p op (remarkExpr a) (remarkExpr b) f
  | InterpStringExpr p parts => InterpStringExpr p (map (fun '(lit, o) => (lit, opt o)) parts)
  | _ => e
  end.

Fixpoint remarkStmt (s : Stmt) : Stmt :=
  match s with
  | DefineStmt p c x name t init slot bo => DefineStmt p c x name t (remarkExpr <$> init) slot (bor bo)
  | AssignStmt p name v d sl => AssignStmt p name (remarkExpr v) d sl
  | IndexAssignStmt p t v => IndexAssignStmt p (remarkExpr t) (remarkExpr v)
  | AppendStmt p t v => AppendStmt p (remarkExpr t) (remarkExpr v)
  | FieldAssignStmt p t v => FieldAssignStmt p (remarkExpr t) (remarkExpr v)
  | IfStmt p c thn elifs els =>
      IfStmt p (remarkExpr c) (remarkBlock thn) (map (fun '(c, b) => (remarkExpr c, remarkBlock b)) elifs)
        (match els with Some b => Some (remarkBlock b) | None => None end)
  | MatchStmt p e arms els et =>
      MatchStmt p (remarkExpr e) (map remarkArm arms)
        (match els with Some b => Some (remarkBlock b) | None => None end) et
  | WhileStmt p c b => WhileStmt p (remarkExpr c) (remarkBlock b)
  | ForStmt p init c st b h =>
      ForStmt p (match init with Some s => Some (remarkStmt s) | None => None end) (remarkExpr <$> c)
        (match st with Some s => Some (remarkStmt s) | None => None end) (remarkBlock b) h
  | ForEachStmt p x c b i => ForEachStmt p x (remarkExpr c) (remarkBlock b) i
  | ReturnStmt p v => ReturnStmt p (remarkExpr <$> v)
  | RepeatStmt p b c => RepeatStmt p (remarkBlock b) (remarkExpr c)
  | ExitStmt p v => ExitStmt p (remarkExpr <$> v)
  | TryStmt p b x cb cp i => TryStmt p (remarkBlock b) x (remarkBlock cb) cp i
  | ThrowStmt p v => ThrowStmt p (remarkExpr v)
  | DeferStmt p c o => DeferStmt p (remarkExpr c) o
  | ExprStmt p e => ExprStmt p (remarkExpr e)
  | BreakStmt _ | ContinueStmt _ => s
  end
with remarkBlock (b : Block) : Block :=
  match b with mkBlock p ss n => mkBlock p (map remarkStmt ss) n end
with remarkArm (a : MatchArm) : MatchArm :=
  match a with mkArm p vs b v bind slot => mkArm p (map remarkExpr vs) (remarkBlock b) v bind slot end.
End Remark.

Definition stampRef (own : gset string) (m : MethodRef) : MethodRef :=
  {| ref_Name := ref_Name m; ref_ReturnsOwned := bool_decide (ref_Name m ∈ own) |}.

Definition stampStmt (own : gset string) : Stmt -> Stmt := remarkStmt (stampRef own) id id.
Definition stampBlock (own : gset string) : Block -> Block := remarkBlock (stampRef own) id id.

Definition withBody (m : MethodDef) (params : list Param) (body : Block) (owned : bool) : MethodDef :=
  {| method_pos := method_pos m; method_Name := method_Name m; method_Params := params;
     method_Body := body; method_Exported := method_Exported m;
     method_GlobalSafe := method_GlobalSafe m; method_ReentryFree := method_ReentryFree m;
     method_ReturnsOwned := owned |}.

(** The greatest set of methods that return owned values. *)
Definition ownership (ms : list MethodDef) : gset string :=
  ownershipLoop (S (length ms)) ms (list_to_set (map method_Name ms)).

Definition markMethod (own : gset string) (m : MethodDef) : MethodDef :=
  withBody m (method_Params m)
    (stampBlock own (markMoveB (ownedLocals own m) false (method_Body m)))
    (bool_decide (method_Name m ∈ own)).

(** [markOwnership]: the methods, and the top-level statements that refer to them. *)
Definition markOwnership (ms : list MethodDef) (top : list Stmt) : list MethodDef * list Stmt :=
  let own := ownership ms in (map (markMethod own) ms, map (stampStmt own) top).
