(* ===== verification/Resolve.v ===== *)
(** * Resolution of a program (internal/parser/resolver.go)

    [resolveMethod], [resolveProgram] and [Resolve].  The order in which Go's map iteration
    visits the enums, which only the text of one error depends on, is the parameter
    [iterate]. *)

From S2P Require Import Prelude Types Ast Lexer Parser Resolver Ownership.
Open Scope string_scope.
Open Scope list_scope.

(** ** Declarations *)

(** [dupDeclError]. *)
Definition dupDeclError {A} (kind name : string) (first second : pos) : W A :=
  if bool_decide (pos_file first = "") then werr second "%s %q is defined more than once" [AStr kind; AStr name]
  else if bool_decide (first = second) then
    werr second "%s %q is defined more than once; %s:%d:%d was spliced more than once by `include` (include a shared file from exactly one place, or use `import` for run-once loading)"
      [AStr kind; AStr name; AStr (pos_file first); AInt (pos_line first); AInt (pos_col first)]
  else
    werr second "%s %q is defined more than once (first defined at %s:%d:%d)"
      [AStr kind; AStr name; AStr (pos_file first); AInt (pos_line first); AInt (pos_col first)].

(** The hoisting of one kind of declaration into its table. *)
Section Hoist.
Context {D : Type} (kind : string) (nameOf : D -> string) (posOf : D -> pos).
(** A name clash with a table filled before. *)
Variable clash : D -> W unit.

Fixpoint hoist (ds : list D) (tbl : gmap string D) : W (gmap string D) :=
  match ds with
  | [] => wret tbl
  | d :: ds =>
      let! _ := clash d in
      match tbl !! nameOf d with
      | Some prev => dupDeclError kind (nameOf d) (posOf prev) (posOf d)
      | None => hoist ds (<[nameOf d := d]> tbl)
      end
  end.
End Hoist.

Definition hoistMethods (ms : list MethodDef) : W (gmap string MethodDef) :=
  hoist "function" method_Name method_pos (fun _ => wret tt) ms ∅.
Definition hoistStructs (ss : list StructDef) : W (gmap string StructDef) :=
  hoist "struct" struct_Name struct_pos (fun _ => wret tt) ss ∅.
Definition hoistEnums (structs : gmap string StructDef) (es : list EnumDef) : W (gmap string EnumDef) :=
  hoist "enum" enum_Name enum_pos (fun e =>
    match structs !! enum_Name e with
    | Some _ => werr (enum_pos e) "enum %q collides with a struct of the same name" [AStr (enum_Name e)]
    | None => wret tt
    end) es ∅.

(** ** Top-level statements *)

Definition laterConst (s : Stmt) : option (string * pos) :=
  match s with DefineStmt p true _ name _ _ _ _ => Some (name, p) | _ => None end.

Definition laterConsts (ss : list Stmt) : gmap string pos :=
  foldl (fun m s => match laterConst s with Some (n, p) => <[n := p]> m | None => m end) ∅ ss.

Definition withLater (r : resolver) (later : gmap string pos) : resolver :=
  mkResolver (r_methods r) (r_structs r) (r_enums r) (r_enumOrder r) later.

Fixpoint resolveTop (r : resolver) (later : gmap string pos) (sc : scopes) (ss : list Stmt)
    : W (list Stmt * scopes) :=
  match ss with
  | [] => wret ([], sc)
  | s :: ss =>
      let! (s', sc) := resolveStmt (withLater r later) sc s in
      let later := match laterConst s with Some (n, _) => delete n later | None => later end in
      let! (ss, sc) := resolveTop r later sc ss in
      wret (s' :: ss, sc)
  end.

(** ** Methods *)

Fixpoint bindParams (method : string) (i : nat) (ps : list Param) (f : scopeFrame) : W scopeFrame :=
  match ps with
  | [] => wret f
  | p :: ps =>
      match sf_slots f !! param_Name p with
      | Some _ => werr (param_pos p) "parameter %q duplicated in function %q" [AStr (param_Name p); AStr method]
      | None =>
          bindParams method (S i) ps
            (bindSlot f (param_Name p) (mkSlot i false (namedTypeOf (param_Type p)) noPos))
      end
  end.

Definition resolveMethod (r : resolver) (globals : scopeFrame) (m : MethodDef) : W MethodDef :=
  let! callFrame := bindParams (method_Name m) 0 (method_Params m) (mkScope ∅ 0 true) in
  let! body := resolveBlock r [callFrame; globals] (method_Body m) in
  wret (withBody m (markBorrowableParams (method_Params m) body) (markBorrowableDefs body)
          (method_ReturnsOwned m)).

(** A method may not share its name with a global. *)
Fixpoint checkMethodNames (globals : scopeFrame) (ms : list MethodDef) : W unit :=
  match ms with
  | [] => wret tt
  | m :: ms =>
      match sf_slots globals !! method_Name m with
      | Some _ =>
          werr (method_pos m) "function %q shares its name with a top-level variable or constant" [AStr (method_Name m)]
      | None => checkMethodNames globals ms
      end
  end.

(** ** Programs *)

Section Program.
Variable iterate : gmap string EnumDef -> list EnumDef.

Definition resolveProgram (p : Program) : W Program :=
  let! methods := hoistMethods (prog_Methods p) in
  let! structs := hoistStructs (prog_Structs p) in
  let! enums := hoistEnums structs (prog_Enums p) in
  let r := mkResolver methods structs enums (iterate enums) ∅ in
  let! (top, sc) := resolveTop r (laterConsts (prog_TopLevel p)) [mkScope ∅ 0 true] (prog_TopLevel p) in
  let globals := default newScope (last sc) in
  let! _ := checkMethodNames globals (prog_Methods p) in
  let! ms := wmap (resolveMethod r globals) (prog_Methods p) in
  let '(ms, top) := markOwnership ms top in
  wret {| prog_pos := prog_pos p; prog_Imports := prog_Imports p;
          prog_ModuleImports := prog_ModuleImports p; prog_Methods := ms;
          prog_Structs := prog_Structs p; prog_Enums := prog_Enums p; prog_TopLevel := top;
          prog_NumGlobals := frameCount sc |}.

(** The resolved program and the matches left for validation after the modules are loaded. *)
Definition Resolve (p : Program) : result parseError (Program * list pos) := resolveProgram p.
End Program.
