(* ===== verification/Scoping.v ===== *)
(** * Static scoping

    What it means for an annotated tree to be addressed correctly, without reference to how
    the resolver works.  A scope chain is a list of frames, innermost first; a frame lists
    its names in slot order, each with its constness.  [exprOK], [stmtOK] and [blockOK] say
    that every reference of a tree carries the (depth, slot) address of its name in the chain
    it will run in, found by name from the innermost frame outwards, that a new name is not
    bound anywhere in its chain, and that every block knows its number of slots. *)

From S2P Require Import Prelude Types Ast Lexer Parser Fold Resolver.
Open Scope string_scope.
Open Scope list_scope.
Open Scope Z_scope.

Abbreviation chain := (list (list (string * bool))) (only parsing).

(** The first slot of a frame that has the name, and its constness. *)
Fixpoint scanNames (i : nat) (f : list (string * bool)) (x : string) : option (nat * bool) :=
  match f with
  | [] => None
  | (y, c) :: f => if bool_decide (y = x) then Some (i, c) else scanNames (S i) f x
  end.

(** Look-up by name, innermost frame first: the (depth, slot) address and the constness. *)
Fixpoint whereFrom (d : nat) (G : chain) (x : string) : option (Z * Z * bool) :=
  match G with
  | [] => None
  | f :: G =>
      match scanNames 0 f x with
      | Some (i, c) => Some (Z.of_nat d, Z.of_nat i, c)
      | None => whereFrom (S d) G x
      end
  end.

Definition whereIs (G : chain) (x : string) : option (Z * Z * bool) := whereFrom 0 G x.

Abbreviation unbound G x := (whereIs G x = None) (only parsing).

(** Names added to the innermost frame. *)
Definition extend (G : chain) (xs : list (string * bool)) : chain :=
  match G with f :: G => (f ++ xs) :: G | [] => [] end.

Definition frameSize (G : chain) : nat := length (default [] (head G)).

Definition binds (s : Stmt) : list (string * bool) :=
  match s with DefineStmt _ c _ x _ _ _ _ => [(x, c)] | _ => [] end.

Section All.
Context {A : Type}.
Fixpoint All (P : A -> Prop) (l : list A) : Prop :=
  match l with [] => True | x :: l => P x /\ All P l end.
End All.

Lemma All_Forall {A} (P : A -> Prop) l : All P l <-> Forall P l.
Proof. induction l; cbn; rewrite ?Forall_cons, ?Forall_nil; tauto. Qed.

(** References of an expression; a spawn body is looked up by name when it runs. *)
Fixpoint exprOK (G : chain) (e : Expr) : Prop :=
  match e with
  | VarExpr _ x d s _ => whereIs G x = Some (d, s, false)
  | ConstRefExpr _ x d s => match whereIs G x with Some (d', s', _) => d = d' /\ s = s' | None => True end
  | InterpStringExpr _ parts => All (fun '(_, o) => match o with Some e => exprOK G e | None => True end) parts
  | ListLit _ es => All (exprOK G) es
  | MapLit _ kvs => All (fun '(k, v) => exprOK G k /\ exprOK G v) kvs
  | IndexExpr _ a b | RangeExpr _ a b => exprOK G a /\ exprOK G b
  | SliceExpr _ t lo hi =>
      exprOK G t /\ match lo with Some e => exprOK G e | None => True end /\
      match hi with Some e => exprOK G e | None => True end
  | StructLit _ _ _ _ _ fs => All (fun '(_, e, _) => exprOK G e) fs
  | FieldAccessExpr _ t _ => exprOK G t
  | CallExpr _ _ args _ _ _ | QualifiedCallExpr _ _ _ args _ _ => All (exprOK G) args
  | CallValueExpr _ f args _ => exprOK G f /\ All (exprOK G) args
  | LenExpr _ a => exprOK G a
  | UnaryExpr p op a f => exprOK G a /\ f = tryFoldUnary p op a
  | BinaryExpr p op a b f => exprOK G a /\ exprOK G b /\ f = tryFoldBinary p op a b
  | SpawnExpr _ _ _ | IntLit _ _ | FloatLit _ _ | StringLit _ _ | BoolLit _ _ | NullLit _
  | QualifiedConstRefExpr _ _ _ | PreEval _ _ => True
  end.

(** An lvalue: its root may be a constant, which is refused when it runs. *)
Fixpoint targetOK (G : chain) (e : Expr) : Prop :=
  match e with
  | VarExpr _ x d s _ => exists c, whereIs G x = Some (d, s, c)
  | IndexExpr _ t i => targetOK G t /\ exprOK G i
  | FieldAccessExpr _ t _ => targetOK G t
  | _ => exprOK G e
  end.

(** A pattern head: variant and binder. *)
Definition patternHead (vs : list Expr) : option (string * string) :=
  match vs with
  | [ConstRefExpr _ v _ _] => Some (v, "")
  | [CallExpr _ v [ConstRefExpr _ b _ _] _ _ _] => Some (v, b)
  | _ => None
  end.

Fixpoint stmtOK (G : chain) (s : Stmt) : Prop :=
  match s with
  | DefineStmt _ _ _ x _ init slot _ =>
      onOpt (exprOK G) init /\ unbound G x /\ slot = Z.of_nat (frameSize G)
  | AssignStmt _ x v d sl => exprOK G v /\ whereIs G x = Some (d, sl, false)
  | IndexAssignStmt _ t v | AppendStmt _ t v | FieldAssignStmt _ t v => targetOK G t /\ exprOK G v
  | IfStmt _ c b elifs els =>
      exprOK G c /\ blockOK ([] :: G) b /\ All (fun '(c, b) => exprOK G c /\ blockOK ([] :: G) b) elifs /\
      match els with Some b => blockOK ([] :: G) b | None => True end
  | MatchStmt _ e arms els _ =>
      exprOK G e /\ All (armOK G) arms /\ match els with Some b => blockOK ([] :: G) b | None => True end
  | WhileStmt _ c b => exprOK G c /\ blockOK ([] :: G) b
  | ForStmt _ init c st b h =>
      let G1 := [] :: G in
      match init with Some s => stmtOK G1 s | None => True end /\
      let G2 := extend G1 (match init with Some s => binds s | None => [] end) in
      onOpt (exprOK G2) c /\
      match st with Some s => stmtOK G2 s | None => True end /\
      let G3 := extend G2 (match st with Some s => binds s | None => [] end) in
      blockOK ([] :: G3) b /\ h = frameSize G3
  | ForEachStmt _ x c b i => exprOK G c /\ unbound G x /\ i = 0 /\ blockOK ([(x, false)] :: G) b
  | ReturnStmt _ o | ExitStmt _ o => onOpt (exprOK G) o
  | BreakStmt _ | ContinueStmt _ => True
  | RepeatStmt _ b c => blockOK ([] :: G) b /\ exprOK G c
  | TryStmt _ b x cb _ i =>
      blockOK ([] :: G) b /\ unbound G x /\ i = 0 /\ blockOK ([(x, false)] :: G) cb
  | ThrowStmt _ e | DeferStmt _ e _ | ExprStmt _ e => exprOK G e
  end
with blockOK (G : chain) (b : Block) : Prop :=
  match b with
  | mkBlock _ ss n =>
      (fix seqOK (G : chain) (ss : list Stmt) : Prop :=
         match ss with
         | [] => n = frameSize G
         | s :: ss => stmtOK G s /\ seqOK (extend G (binds s)) ss
         end) G ss
  end
with armOK (G : chain) (a : MatchArm) : Prop :=
  match a with
  | mkArm _ vs b variant bind slot =>
      (patternHead vs = Some (variant, bind) /\ bind <> "" /\ unbound G bind /\ slot = 0 /\
       blockOK ([(bind, false)] :: G) b) \/
      (((patternHead vs = Some (variant, "") /\ bind = "") \/ All (exprOK G) vs) /\ slot = -1 /\
       blockOK ([] :: G) b)
  end.

(** A statement list, and the chain after it. *)
Fixpoint seqOK (G : chain) (ss : list Stmt) : Prop :=
  match ss with
  | [] => True
  | s :: ss => stmtOK G s /\ seqOK (extend G (binds s)) ss
  end.

Definition after (G : chain) (ss : list Stmt) : chain := extend G (concat (map binds ss)).

(** A method body runs above its parameters and the globals. *)
Definition methodOK (globals : list (string * bool)) (m : MethodDef) : Prop :=
  let params := map (fun p => (param_Name p, false)) (method_Params m) in
  NoDup (map param_Name (method_Params m)) /\ (method_Name m ∉ map fst globals) /\
  blockOK [[]; params; globals] (method_Body m).

Definition programOK (p : Program) : Prop :=
  let globals := concat (map binds (prog_TopLevel p)) in
  seqOK [[]] (prog_TopLevel p) /\ prog_NumGlobals p = length globals /\
  NoDup (map fst globals) /\ NoDup (map method_Name (prog_Methods p)) /\
  Forall (methodOK globals) (prog_Methods p).
