(* ===== verification/ResolverFacts.v ===== *)
(** * The resolver is correct

    A program that the resolver accepts is addressed correctly ([Scoping.programOK]).  The
    resolver's scope stack is related to a chain of names frame by frame ([frameRel]); a
    look-up in the one is a look-up in the other, a definition extends both, and induction
    over the tree does the rest. *)

From S2P Require Import Prelude Types Ast Lexer Parser Fold Resolver Ownership Resolve.
From S2P Require Import Scoping.
Open Scope string_scope.
Open Scope list_scope.
Open Scope Z_scope.

(** ** The monad *)

Lemma wbind_inv {A B} (c : W A) (k : A -> W B) b l :
  wbind c k = Ok (b, l) -> exists a l1 l2, c = Ok (a, l1) /\ k a = Ok (b, l2) /\ l = l1 ++ l2.
Proof.
  unfold wbind. destruct c as [[a l1]|]; [|done]. destruct (k a) as [[b' l2]|] eqn:E; [|done].
  intros [= <- <-]. by exists a, l1, l2.
Qed.

(** Takes a successful computation apart, step by step. *)
Ltac winv H :=
  repeat match type of H with
  | wbind _ _ = Ok _ =>
      let a := fresh "a" in let l1 := fresh "l" in let l2 := fresh "l" in
      let E := fresh "E" in let K := fresh "K" in
      apply wbind_inv in H as (a & l1 & l2 & E & K & ->); rename K into H;
      try match type of a with (_ * _)%type => destruct a as [? ?] end
  end; try first [injection H as <- <- <- | injection H as <- <-].

Lemma wmap_inv {A} (f : A -> W A) l l' w :
  wmap f l = Ok (l', w) -> Forall2 (fun x x' => exists u, f x = Ok (x', u)) l l'.
Proof.
  revert l' w. induction l as [|x l IH]; intros l' w H; cbn in H.
  - injection H as <- _. constructor.
  - winv H. constructor; [by eexists | by eapply IH].
Qed.

Lemma wopt_inv {A} (f : A -> W A) o o' w :
  wopt f o = Ok (o', w) ->
  match o, o' with
  | Some x, Some x' => exists u, f x = Ok (x', u)
  | None, None => True
  | _, _ => False
  end.
Proof. destruct o as [x|]; cbn; intros H; winv H; [by eexists | done]. Qed.

(** ** Scope stacks and chains of names *)

Definition place (i : slotInfo) : nat * bool := (si_Slot i, si_IsConst i).

Definition frameRel (f : scopeFrame) (names : list (string * bool)) : Prop :=
  sf_count f = length names /\ forall x, scanNames 0 names x = place <$> sf_slots f !! x.

(** Blocks above the globals, or above a method's parameters and the globals. *)
Fixpoint rooted (sc : scopes) : Prop :=
  match sc with
  | [] => False
  | f :: rest =>
      if sf_isRoot f then rest = [] \/ exists g, rest = [g] /\ sf_isRoot g = true else rooted rest
  end.

Definition scopesRel (sc : scopes) (G : chain) : Prop := Forall2 frameRel sc G /\ rooted sc.

Lemma scanNames_app i l y c x :
  scanNames i (l ++ [(y, c)]) x =
  match scanNames i l x with
  | Some r => Some r
  | None => if bool_decide (y = x) then Some ((i + length l)%nat, c) else None
  end.
Proof.
  revert i. induction l as [|[z d] l IH]; intros i; cbn.
  - by rewrite Nat.add_0_r.
  - rewrite IH. destruct (bool_decide (z = x)); [done|]. by rewrite Nat.add_succ_r.
Qed.

Lemma frameRel_bind f names x info :
  frameRel f names -> sf_slots f !! x = None -> si_Slot info = length names ->
  frameRel (bindSlot f x info) (names ++ [(x, si_IsConst info)]).
Proof.
  intros [Hc Hs] Hx Hi. split; [rewrite length_app; cbn; lia|]. intros y. cbn.
  rewrite scanNames_app, Hs. destruct (decide (x = y)) as [<-|Hne].
  - rewrite Hx, lookup_insert_eq, bool_decide_true by done. cbn. unfold place. by rewrite Hi.
  - rewrite lookup_insert_ne by done. rewrite bool_decide_false by done. by destruct (sf_slots f !! y).
Qed.

Lemma frameRel_new b : frameRel (mkScope ∅ 0 b) [].
Proof. split; [done|]. intros x. cbn. by rewrite lookup_empty. Qed.

Definition address (p : nat * slotInfo) : Z * Z * bool :=
  (Z.of_nat (fst p), Z.of_nat (si_Slot (snd p)), si_IsConst (snd p)).

Lemma lookupFrom_where d sc G x :
  scopesRel sc G -> whereFrom d G x = address <$> lookupFrom d sc x.
Proof.
  intros [Hf Hr]. revert d Hr. induction Hf as [|f names sc G [Hc Hs] Hf IH]; intros d Hr; [done|].
  cbn. rewrite Hs. destruct (sf_slots f !! x) as [info|] eqn:Ex; [done|]. cbn in Hr |- *.
  destruct (sf_isRoot f); [|by apply IH]. destruct Hr as [->|(g & -> & Hg)].
  - by inversion Hf.
  - inversion Hf as [|? names' ? ? [_ Hs'] Hf']; subst. inversion Hf'; subst. cbn.
    rewrite Hs'. unfold inGlobals. cbn. by destruct (sf_slots g !! x).
Qed.

Lemma lookup_where sc G x : scopesRel sc G -> whereIs G x = address <$> lookup sc x.
Proof. apply lookupFrom_where. Qed.

Lemma walkChain_lookup d sc x :
  rooted sc ->
  match walkChain sc x with Some info => Some info | None => inGlobals sc x end = snd <$> lookupFrom d sc x.
Proof.
  revert d. induction sc as [|f sc IH]; intros d Hr; [done|]. cbn in Hr |- *.
  destruct (sf_slots f !! x) as [info|] eqn:Ex; [done|].
  destruct (sf_isRoot f).
  - destruct Hr as [->|(g & -> & Hg)]; unfold inGlobals; cbn; [by rewrite Ex|].
    by destruct (sf_slots g !! x).
  - cbn. rewrite <- (IH (S d) Hr). destruct sc as [|f' sc]; [done|]. done.
Qed.

Lemma lookupChain_lookup sc x : rooted sc -> lookupChain sc x = snd <$> lookup sc x.
Proof. apply walkChain_lookup. Qed.

Lemma lookupChain_none sc G x : scopesRel sc G -> lookupChain sc x = None -> unbound G x.
Proof.
  intros Hr Hl. rewrite (lookup_where _ _ _ Hr). rewrite lookupChain_lookup in Hl by apply Hr.
  by destruct (lookup sc x).
Qed.

Lemma existsInChain_false sc G x : scopesRel sc G -> existsInChain sc x = false -> unbound G x.
Proof. intros Hr He. eapply lookupChain_none; [done|]. unfold existsInChain in He. by destruct (lookupChain sc x). Qed.

Lemma scopesRel_push sc G : scopesRel sc G -> scopesRel (newScope :: sc) ([] :: G).
Proof. intros [Hf Hr]. split; [constructor; [apply frameRel_new | done] | done]. Qed.

Lemma whereIs_push G x : unbound ([] :: G) x <-> unbound G x.
Proof.
  unfold whereIs. cbn. generalize 0%nat 1%nat. revert x. induction G as [|f G IH]; intros x d d'; [done|].
  cbn. destruct (scanNames 0 f x) as [[]|]; [done|]. apply IH.
Qed.

Lemma scopesRel_binder sc G x :
  scopesRel sc G -> scopesRel (binderScope x :: sc) ([(x, false)] :: G).
Proof.
  intros [Hf Hr]. split; [|done]. constructor; [|done].
  by apply (frameRel_bind newScope [] x (mkSlot 0 false None noPos)); [apply frameRel_new | |].
Qed.

Lemma frameCount_size sc G : scopesRel sc G -> frameCount sc = frameSize G.
Proof. intros [Hf _]. by inversion Hf as [|? ? ? ? [Hc _]]. Qed.

Lemma extend_nil G : extend G [] = G.
Proof. destruct G; cbn; [done|]. by rewrite app_nil_r. Qed.

Lemma extend_app G xs ys : extend (extend G xs) ys = extend G (xs ++ ys).
Proof. destruct G; cbn; [done|]. by rewrite app_assoc. Qed.

(** A definition takes the next slot of the innermost frame. *)
Lemma define_rel sc G x c t p slot sc' l :
  scopesRel sc G -> define sc x c t p = Ok (slot, sc', l) ->
  unbound G x /\ slot = frameSize G /\ scopesRel sc' (extend G [(x, c)]).
Proof.
  intros Hrel H. unfold define in H. destruct (lookupChain sc x) as [prev|] eqn:El; [by case_match|].
  pose proof (lookupChain_none _ _ _ Hrel El) as Hw. destruct Hrel as [Hf Hr].
  destruct Hf as [|f names rest G [Hc Hs] Hf]; [done|]. injection H as <- <- <-.
  split; [done|]. split; [done|]. split; [|done]. constructor; [|done].
  apply (frameRel_bind f names x (mkSlot (sf_count f) c t p)); [done | | done].
  unfold whereIs in Hw. cbn in Hw. rewrite Hs in Hw. by destruct (sf_slots f !! x).
Qed.

(** ** Expressions *)

Lemma All_map2 {A} (f : A -> W A) (P Q : A -> Prop) l l' w :
  wmap f l = Ok (l', w) -> Forall P l -> (forall x x' u, P x -> f x = Ok (x', u) -> Q x') -> All Q l'.
Proof.
  intros H HP Hf. apply wmap_inv in H. apply All_Forall. revert HP.
  induction H as [|x x' l l' [u Hx] _ IH]; intros HP; [constructor|].
  apply Forall_cons in HP as [Hp HP]. constructor; [by eapply Hf | by apply IH].
Qed.

Section Expressions.
Context (r : resolver) (sc : scopes) (G : chain).
Hypothesis Hrel : scopesRel sc G.

Lemma lookup_Some x d info :
  lookup sc x = Some (d, info) -> whereIs G x = Some (Z.of_nat d, Z.of_nat (si_Slot info), si_IsConst info).
Proof using Hrel. intros H. by rewrite (lookup_where _ _ _ Hrel), H. Qed.

Lemma wopt_ok o o' w :
  wopt (resolveExpr r sc) o = Ok (o', w) ->
  onOpt (fun e => forall e' l, resolveExpr r sc e = Ok (e', l) -> exprOK G e') o ->
  match o' with Some e => exprOK G e | None => True end.
Proof.
  intros H IH. apply wopt_inv in H. destruct o, o'; try done. destruct H as [u H]. by eapply IH.
Qed.

Lemma resolveExpr_ok : forall e e' l, resolveExpr r sc e = Ok (e', l) -> exprOK G e'.
Proof using Hrel.
  expr_induct.
  - intros [] Hleaf e' l H; try done; cbn in H; try (injection H as <- _; done).
    + destruct (lookup sc Name) as [[d info]|] eqn:El; [|done]. apply lookup_Some in El.
      destruct (si_IsConst info); [done|]. by injection H as <- _.
    + destruct (lookup sc Name) as [[d info]|] eqn:El.
      * apply lookup_Some in El. injection H as <- _. cbn. by rewrite El.
      * pose proof (lookup_where _ _ Name Hrel) as Hw. rewrite El in Hw. cbn in Hw.
        assert (e' = ConstRefExpr p Name Depth Slot) as ->; [|cbn; by rewrite Hw].
        destruct (r_laterConsts r !! Name); [|by injection H as <- _].
        destruct (isMethod r Name); [by injection H as <- _ | done].
  - intros p parts IH e' l H. cbn in H. winv H. cbn. eapply All_map2; [done | done|].
    intros [lit o] [lit' o'] u Ho Hr. cbn in Ho. winv Hr. by eapply wopt_ok.
  - intros p es IH e' l H. cbn in H. winv H. cbn. eapply All_map2; [done | done|]. intros x x' u Hx. apply Hx.
  - intros p kvs IH e' l H. cbn in H. winv H. cbn. eapply All_map2; [done | done|].
    intros [k v] [k' v'] u [Hk Hv] Hr. cbn in Hk, Hv. winv Hr. split; [by eapply Hk | by eapply Hv].
  - intros p a b IHa IHb e' l H. cbn in H. winv H. split; [by eapply IHa | by eapply IHb].
  - intros p a b IHa IHb e' l H. cbn in H. winv H. split; [by eapply IHa | by eapply IHb].
  - intros p t lo hi IHt IHlo IHhi e' l H. cbn in H. winv H. split_and!; [by eapply IHt | by eapply wopt_ok | by eapply wopt_ok].
  - intros p ns en nm ba fs IH e' l H. cbn in H. winv H. cbn. eapply All_map2; [done | done|].
    intros [[f e] fp] [[f' e''] fp'] u He Hr. cbn in He. winv Hr. by eapply He.
  - intros p t f IH e' l H. cbn in H. winv H. cbn. by eapply IH.
  - intros p c args m mv sn IH e' l H. cbn in H. winv H. cbn. eapply All_map2; [done | done|]. intros x x' u Hx. apply Hx.
  - intros p f args sn IHf IH e' l H. cbn in H. winv H. split; [by eapply IHf|].
    eapply All_map2; [done | done|]. intros x x' u Hx. apply Hx.
  - intros p a IH e' l H. cbn in H. winv H. cbn. by eapply IH.
  - intros p body caps _ e' l H. cbn in H. winv H. done.
  - intros p pr c args mv sn IH e' l H. cbn in H. winv H. cbn. eapply All_map2; [done | done|]. intros x x' u Hx. apply Hx.
  - intros p op a f IH e' l H. cbn in H. winv H. split; [by eapply IH | done].
  - intros p op a b f IHa IHb e' l H. cbn in H. winv H. split_and!; [by eapply IHa | by eapply IHb | done].
Qed.

Lemma resolveTarget_ok : forall e e' l, resolveTarget r sc e = Ok (e', l) -> targetOK G e'.
Proof using Hrel.
  assert (forall e, exprOK G e -> targetOK G e) as Hexpr.
  { expr_induct; cbn; try tauto. intros []; cbn; try done; try tauto. by eexists. }
  intros e.
  assert (forall e e' l, resolveExpr r sc e = Ok (e', l) -> targetOK G e') as Hr
    by (intros e0 e' l H; exact (Hexpr e' (resolveExpr_ok e0 e' l H))).
  revert e. expr_induct; try (intros; match goal with H : _ = Ok _ |- _ => exact (Hr _ _ _ H) end).
  - intros [] Hleaf e' l H; try done; try exact (Hr _ _ _ H). cbn in H.
    destruct (lookup sc Name) as [[d info]|] eqn:El; [|done]. apply lookup_Some in El.
    injection H as <- _. by eexists.
  - intros p a b IHa IHb e' l H. cbn in H. winv H. split; [by eapply IHa | by eapply resolveExpr_ok].
  - intros p t f IH e' l H. cbn in H. winv H. cbn. by eapply IH.
Qed.
End Expressions.

(** ** Moves *)

Lemma firstOf_All {A} (f : A -> option A) (P : A -> Prop) l l' :
  firstOf f l = Some l' -> Forall (fun x => P x -> forall x', f x = Some x' -> P x') l -> All P l -> All P l'.
Proof.
  revert l'. induction l as [|x l IH]; intros l' H Hf Hp; [done|]. cbn in H, Hp.
  apply Forall_cons in Hf as [Hx Hf]. destruct Hp as [Hpx Hp].
  destruct (f x) as [x'|] eqn:E; [injection H as <-; split; [by apply Hx | done]|].
  destruct (firstOf f l) as [l1|]; [|done]. injection H as <-. split; [done | by apply IH].
Qed.

Lemma moveCandidate_ok G name :
  forall e, exprOK G e -> forall e', moveCandidate name e = Some e' -> exprOK G e'.
Proof.
  expr_induct; try (intros; discriminate).
  - intros [] Hleaf Hok e' H; try done. cbn in H. case_bool_decide; [|done]. by injection H as <-.
  - intros p es IH Hok e' H. cbn in H. destruct (firstOf _ es) as [l|] eqn:E; [|done]. injection H as <-.
    by eapply firstOf_All.
  - intros p kvs IH Hok e' H. cbn in H. destruct (firstOf _ kvs) as [l|] eqn:E; [|done]. injection H as <-.
    eapply firstOf_All; [done | | done]. eapply Forall_impl; [done|]. intros [k v] [_ Hv] [Hk Hv'] [k' v'] Hm.
    destruct (moveCandidate name v) eqn:Em; [|done]. injection Hm as <- <-. split; [done | by apply Hv].
  - intros p ns en nm ba fs IH Hok e' H. cbn in H. destruct (firstOf _ fs) as [l|] eqn:E; [|done].
    injection H as <-. eapply firstOf_All; [done | | done]. eapply Forall_impl; [done|].
    intros [[f e] fp] He Hok' [[f' e'] fp'] Hm. cbn in He. destruct (moveCandidate name e) eqn:Em; [|done].
    injection Hm as <- <- <-. by apply He.
Qed.

Lemma markMoveable_ok G name e : exprOK G e -> exprOK G (markMoveableAssign name e).
Proof.
  intros Hok. unfold markMoveableAssign, firstMoveable. destruct (freshLiteralRHS e); [|done].
  destruct e; try done; (destruct (moveCandidate name _) as [e'|] eqn:E; cbn [default from_option id]; [|done]);
    by eapply moveCandidate_ok.
Qed.

(** ** Statements *)

(** The sequence inside [blockOK]. *)
Lemma blockOK_seq G p ss n : blockOK G (mkBlock p ss n) <-> seqOK G ss /\ n = frameSize (after G ss).
Proof.
  unfold after. cbn. revert G. induction ss as [|s ss IH]; intros G; cbn.
  - rewrite extend_nil. tauto.
  - rewrite IH, extend_app. tauto.
Qed.

Section Statements.
Variable r : resolver.

Definition stmtGoal (s : Stmt) : Prop :=
  forall sc G s' sc' l, scopesRel sc G -> resolveStmt r sc s = Ok (s', sc', l) ->
  stmtOK G s' /\ binds s' = binds s /\ scopesRel sc' (extend G (binds s')).

Definition blockGoal (b : Block) : Prop :=
  forall sc G b' l, scopesRel sc G -> resolveIn r sc b = Ok (b', l) -> blockOK G b'.

Definition armGoal (a : MatchArm) : Prop := let '(mkArm _ _ b _ _ _) := a in blockGoal b.

Lemma seq_ok ss :
  Forall stmtGoal ss -> forall sc G ss' sc' l, scopesRel sc G ->
  wfold (resolveStmt r) sc ss = Ok (ss', sc', l) -> seqOK G ss' /\ scopesRel sc' (after G ss').
Proof.
  unfold after. induction 1 as [|s ss Hs _ IH]; intros sc G ss' sc' l Hrel H; cbn in H.
  - injection H as <- <- _. cbn. by rewrite extend_nil.
  - winv H. destruct (Hs _ _ _ _ _ Hrel E) as (Hok & _ & Hrel1).
    destruct (IH _ _ _ _ _ Hrel1 E0) as [Hok2 Hrel2]. cbn. by rewrite <- extend_app.
Qed.

Lemma block_ok p ss n : Forall stmtGoal ss -> blockGoal (mkBlock p ss n).
Proof.
  intros IH sc G b' l Hrel H. cbn in H. winv H. destruct (seq_ok _ IH _ _ _ _ _ Hrel E) as [Hok Hrel'].
  apply blockOK_seq. split; [done | by apply frameCount_size].
Qed.

Lemma patternExpr_head v variant bind l :
  patternExpr v = Ok (Some (variant, bind), l) -> patternHead [v] = Some (variant, bind).
Proof.
  destruct v; cbn; try done; [by intros [= <- <- _]|]. destruct Args as [|[] []]; try done.
  by intros [= <- <- _].
Qed.

Lemma pattern_ok sc G p v b variant bind slot inner b' l1 l2 l3 :
  scopesRel sc G -> blockGoal b -> patternExpr v = Ok (Some (variant, bind), l1) ->
  armScope sc bind p = Ok (slot, inner, l2) -> resolveIn r inner b = Ok (b', l3) ->
  armOK G (mkArm p [v] b' variant bind slot).
Proof.
  intros Hrel Hb Hp Ha Hr. apply patternExpr_head in Hp. unfold armScope in Ha. cbn [armOK].
  pose proof (scopesRel_push _ _ Hrel) as Hpush. case_bool_decide as Ebind.
  - injection Ha as <- <- _. right. subst bind. split_and!; [by left | done | by eapply Hb].
  - winv Ha. destruct (define_rel _ _ _ _ _ _ _ _ _ Hpush E) as (Hun & -> & Hrel').
    apply (proj1 (whereIs_push _ _)) in Hun. left. split_and!; [done | done | done | done | by eapply Hb].
Qed.

Section MatchArms.
Context (sc : scopes) (G : chain).
Hypothesis Hrel : scopesRel sc G.

Lemma enumArms_ok ed arms arms' covered covered' l :
  Forall armGoal arms ->
  enumArms sc (resolveIn r) ed arms covered = Ok (arms', covered', l) -> All (armOK G) arms'.
Proof using Hrel.
  intros Harms. revert arms' covered l. induction Harms as [|[p vs b v bi sl] arms Ha _ IH]; intros arms' covered l H; cbn in H.
  - by injection H as <- _ _.
  - destruct vs as [|v0 [|]]; try done. winv H. destruct a as [[variant bind]|]; [|done]. winv H.
    cbn. split; [by eapply pattern_ok | by eapply IH].
Qed.

Lemma deferredArms_ok t arms arms' l :
  Forall armGoal arms ->
  deferredArms sc (resolveIn r) t arms = Ok (arms', l) -> All (armOK G) arms'.
Proof using Hrel.
  intros Harms. revert arms' l. induction Harms as [|[p vs b v bi sl] arms Ha _ IH]; intros arms' l H; cbn in H.
  - by injection H as <- _.
  - destruct vs as [|v0 [|]]; try done. winv H. destruct a as [[variant bind]|]; [|done]. winv H.
    cbn. split; [by eapply pattern_ok | by eapply IH].
Qed.

Lemma valueArms_ok arms arms' l :
  Forall armGoal arms -> valueArms r sc (resolveIn r) arms = Ok (arms', l) -> All (armOK G) arms'.
Proof using Hrel.
  intros Harms. revert arms' l. induction Harms as [|[p vs b v bi sl] arms Ha _ IH]; intros arms' l H; cbn in H.
  - by injection H as <- _.
  - winv H. cbn. split; [|by eapply IH]. right. split_and!; [|done|].
    + right. eapply (All_map2 _ (fun _ => True)); [done | by apply Forall_true |]. intros x x' u _ Hx. by eapply resolveExpr_ok.
    + eapply Ha; [by apply scopesRel_push | done].
Qed.
End MatchArms.

Lemma match_ok p e arms els et : Forall armGoal arms -> onOpt blockGoal els -> stmtGoal (MatchStmt p e arms els et).
Proof.
  intros Harms Hels sc G s' sc' l Hrel H. cbn [resolveStmt] in H. apply wbind_inv in H as (s1 & l1 & l2 & H & H1 & ->).
  injection H1 as <- <- _. unfold resolveMatch in H. winv H. cbn zeta in H.
  pose proof (resolveExpr_ok _ _ _ Hrel _ _ _ E) as He.
  assert (forall o o' l, wopt (resolveIn r (newScope :: sc)) o = Ok (o', l) -> onOpt blockGoal o ->
            match o' with Some b => blockOK ([] :: G) b | None => True end) as Hopt.
  { intros o o' u Ho Hb. apply wopt_inv in Ho. destruct o, o'; try done. destruct Ho as [u' Ho].
    eapply Hb; [by apply scopesRel_push | done]. }
  assert (forall arms' els' et', All (armOK G) arms' ->
    match els' with Some b => blockOK ([] :: G) b | None => True end ->
    stmtOK G (MatchStmt p a arms' els' et') /\ [] = binds (MatchStmt p e arms els et) /\
    scopesRel sc (extend G (binds (MatchStmt p a arms' els' et')))) as Hgoal.
  { intros arms' els' et' Ha Hb. split; [done|]. split; [done|]. cbn. by rewrite extend_nil. }
  destruct (localEnumOf r _) as [ed|].
  - winv H. pose proof (enumArms_ok _ _ Hrel _ _ _ _ _ _ Harms E0). destruct els as [b|]; winv H; apply Hgoal; try done.
    eapply Hels; [by apply scopesRel_push | done].
  - destruct (subjectType _ _ _) as [ty|]; [case_match|]; winv H; apply Hgoal; try (by eapply Hopt);
      [by eapply deferredArms_ok | by eapply valueArms_ok | by eapply valueArms_ok].
Qed.

(** A statement that binds nothing in its own frame. *)
Lemma stmt_keeps sc G (s s' : Stmt) :
  scopesRel sc G -> binds s = [] -> binds s' = [] -> stmtOK G s' ->
  stmtOK G s' /\ binds s' = binds s /\ scopesRel sc (extend G (binds s')).
Proof. intros Hrel Hs Hs' Hok. rewrite Hs, Hs'. split_and!; [done | done|]. by rewrite extend_nil. Qed.

Lemma opt_ok sc G o o' l :
  scopesRel sc G -> wopt (resolveExpr r sc) o = Ok (o', l) -> onOpt (exprOK G) o'.
Proof.
  intros Hrel H. apply wopt_inv in H. destruct o, o'; try done. destruct H as [u H]. by eapply resolveExpr_ok.
Qed.

Lemma define_ok p c x n t o sl bo : stmtGoal (DefineStmt p c x n t o sl bo).
Proof.
  intros sc G s' sc' l Hrel H. cbn in H. unfold resolveDefine in H. winv H.
  destruct (define_rel _ _ _ _ _ _ _ _ _ Hrel E0) as (Hun & -> & Hrel').
  split; [|done]. split_and!; [by eapply opt_ok | done | done].
Qed.

Lemma assign_ok p n v d sl : stmtGoal (AssignStmt p n v d sl).
Proof.
  intros sc G s' sc' l Hrel H. cbn in H. unfold resolveAssign in H. winv H. winv E.
  destruct (lookup sc n) as [[d' info]|] eqn:El; [|done]. destruct (si_IsConst info) eqn:Ec; [done|].
  injection E as <- _. apply (lookup_Some _ _ Hrel) in El. rewrite Ec in El.
  apply stmt_keeps; [done | done | done|]. split; [|done]. by eapply markMoveable_ok, resolveExpr_ok.
Qed.

Lemma if_ok p c b elifs els :
  blockGoal b -> Forall (fun x => True /\ blockGoal (snd x)) elifs -> onOpt blockGoal els ->
  stmtGoal (IfStmt p c b elifs els).
Proof.
  intros Hb Hel Hels sc G s' sc' l Hrel H. cbn in H. winv H. apply stmt_keeps; [done | done | done|].
  pose proof (scopesRel_push _ _ Hrel) as Hpush.
  split_and!; [by eapply resolveExpr_ok | by eapply Hb | |].
  - eapply All_map2; [done | done|]. intros [c1 b1] [c2 b2] u [_ Hb1] Hr. cbn in Hb1. winv Hr.
    split; [by eapply resolveExpr_ok | by eapply Hb1].
  - apply wopt_inv in E2. destruct els; (destruct a2; try done). destruct E2 as [u E2]. by eapply Hels.
Qed.

Lemma for_ok p i c st b h : onOpt stmtGoal i -> onOpt stmtGoal st -> blockGoal b -> stmtGoal (ForStmt p i c st b h).
Proof.
  intros Hi Hst Hb sc G s' sc' l Hrel H. cbn in H. winv H. apply stmt_keeps; [done | done | done|].
  pose proof (scopesRel_push _ _ Hrel) as Hpush. cbn [stmtOK]. cbn zeta.
  assert (forall sc1 G1 o o' sc2 l, scopesRel sc1 G1 -> onOpt stmtGoal o ->
    match o with Some s => let! (s, inner) := resolveStmt r sc1 s in wret (Some s, inner) | None => wret (None, sc1) end
      = Ok (o', sc2, l) ->
    match o' with Some s => stmtOK G1 s | None => True end /\
    scopesRel sc2 (extend G1 (match o' with Some s => binds s | None => [] end))) as Hopt.
  { intros sc1 G1 q q' sc2 u Hr1 Ho He. destruct q as [s1|]; winv He.
    - destruct (Ho _ _ _ _ _ Hr1 E3) as (? & _ & ?). done.
    - split; [done|]. by rewrite extend_nil. }
  destruct (Hopt _ _ _ _ _ _ Hpush Hi E) as [Hok1 Hrel1].
  destruct (Hopt _ _ _ _ _ _ Hrel1 Hst E1) as [Hok2 Hrel2].
  split_and!; [done | by eapply opt_ok | done | | by apply frameCount_size].
  eapply Hb; [by apply scopesRel_push | done].
Qed.

Lemma foreach_ok p x c b i : blockGoal b -> stmtGoal (ForEachStmt p x c b i).
Proof.
  intros Hb sc G s' sc' l Hrel H. cbn [resolveStmt] in H. winv H. case_match eqn:Ex; [done|]. winv H.
  apply (existsInChain_false _ ([] :: G)) in Ex; [|by apply scopesRel_push].
  apply (proj1 (whereIs_push _ _)) in Ex. apply stmt_keeps; [done | done | done|].
  split_and!; [by eapply resolveExpr_ok | done | done | eapply Hb; [by apply scopesRel_binder | done]].
Qed.

Lemma try_ok p b x cb cp i : blockGoal b -> blockGoal cb -> stmtGoal (TryStmt p b x cb cp i).
Proof.
  intros Hb Hcb sc G s' sc' l Hrel H. cbn [resolveStmt] in H. winv H. case_match eqn:Ex; [done|]. winv H.
  pose proof (scopesRel_push _ _ Hrel) as Hpush. apply (existsInChain_false _ ([] :: G)) in Ex; [|done].
  apply (proj1 (whereIs_push _ _)) in Ex. apply stmt_keeps; [done | done | done|].
  split_and!; [by eapply Hb | done | done | eapply Hcb; [by apply scopesRel_binder | done]].
Qed.

Lemma stmts_ok : (forall s, stmtGoal s) /\ (forall b, blockGoal b).
Proof.
  destruct (ast_induction (fun _ => True) stmtGoal blockGoal armGoal) as (_ & ? & ? & _); [..|done]; try done.
  - intros. apply define_ok.
  - intros. apply assign_ok.
  - intros p t v _ _ sc G s' sc' l Hrel H. cbn in H. winv H. apply stmt_keeps; [done | done | done|].
    split; [by eapply resolveTarget_ok | by eapply resolveExpr_ok].
  - intros p t v _ _ sc G s' sc' l Hrel H. cbn in H. winv H. apply stmt_keeps; [done | done | done|].
    split; [by eapply resolveTarget_ok | by eapply resolveExpr_ok].
  - intros p t v _ _ sc G s' sc' l Hrel H. cbn in H. winv H. apply stmt_keeps; [done | done | done|].
    split; [by eapply resolveTarget_ok | by eapply resolveExpr_ok].
  - intros. by apply if_ok.
  - intros. by apply match_ok.
  - intros p c b _ Hb sc G s' sc' l Hrel H. cbn in H. winv H. apply stmt_keeps; [done | done | done|].
    split; [by eapply resolveExpr_ok | eapply Hb; [by apply scopesRel_push | done]].
  - intros. by apply for_ok.
  - intros. by apply foreach_ok.
  - intros p o _ sc G s' sc' l Hrel H. cbn in H. winv H. apply stmt_keeps; [done | done | done | by eapply opt_ok].
  - intros p sc G s' sc' l Hrel H. cbn in H. winv H. by apply stmt_keeps.
  - intros p sc G s' sc' l Hrel H. cbn in H. winv H. by apply stmt_keeps.
  - intros p b c Hb _ sc G s' sc' l Hrel H. cbn in H. winv H. apply stmt_keeps; [done | done | done|].
    split; [eapply Hb; [by apply scopesRel_push | done] | by eapply resolveExpr_ok].
  - intros p o _ sc G s' sc' l Hrel H. cbn in H. winv H. apply stmt_keeps; [done | done | done | by eapply opt_ok].
  - intros. by apply try_ok.
  - intros p e _ sc G s' sc' l Hrel H. cbn in H. winv H. apply stmt_keeps; [done | done | done | by eapply resolveExpr_ok].
  - intros p e o _ sc G s' sc' l Hrel H. cbn in H. winv H. apply stmt_keeps; [done | done | done | by eapply resolveExpr_ok].
  - intros p e _ sc G s' sc' l Hrel H. cbn in H. winv H. apply stmt_keeps; [done | done | done | by eapply resolveExpr_ok].
  - intros. by apply block_ok.
Qed.
End Statements.
