(* ===== verification/MarkFacts.v ===== *)
(** * Marks do not move addresses

    The borrow, move and ownership marks are annotations beside the addresses: a tree and
    its [core], the tree with these marks reset, are addressed alike, and every marking pass
    keeps the core.  The ownership flags are the greatest consistent ones. *)

From S2P Require Import Prelude Lexer Types Ast Parser Fold Resolver Ownership Scoping.
Open Scope list_scope.

Lemma map_pointwise {A B} (f g : A -> B) l : Forall (fun x => f x = g x) l -> map f l = map g l.
Proof. induction 1; cbn; congruence. Qed.

(** Closes the equations left by an induction over the tree: parts by the induction
    hypotheses, expressions by [H], lists pointwise. *)
Ltac by_hyp := match goal with H : _ |- _ => solve [apply H] end.

Ltac tree_close H :=
  try first
    [ done | by_hyp | apply H | congruence
    | f_equal; first [by_hyp | apply H]
    | apply map_pointwise;
      first [ assumption
            | apply Forall_true; intros; apply H
            | eapply Forall_impl; [eassumption|]; intros [? ?] [? ?]; simpl; f_equal; first [by_hyp | apply H]
            | eapply Forall_impl; [eassumption|]; intros ? Hx; apply Hx ] ].

Definition plainRef (m : MethodRef) : MethodRef := {| ref_Name := ref_Name m; ref_ReturnsOwned := false |}.

Definition coreE : Expr -> Expr := remarkExpr plainRef (fun _ => O).
Definition coreS : Stmt -> Stmt := remarkStmt plainRef (fun _ => O) (fun _ => false).
Definition coreB : Block -> Block := remarkBlock plainRef (fun _ => O) (fun _ => false).
Definition coreA : MatchArm -> MatchArm := remarkArm plainRef (fun _ => O) (fun _ => false).

Section Remark.
Variables (ref : MethodRef -> MethodRef) (mva : nat -> nat) (bor : bool -> bool).
Hypothesis Href : forall m, plainRef (ref m) = plainRef m.

Lemma core_remarkE : forall e, coreE (remarkExpr ref mva e) = coreE e.
Proof using Href.
  expr_induct; unfold coreE; intros.
  - by destruct e.
  - cbn. f_equal. rewrite map_map. apply map_pointwise. eapply Forall_impl; [done|]. intros [s [e|]] He; cbn in *; [by rewrite He | done].
  - cbn. f_equal. rewrite map_map. by apply map_pointwise.
  - cbn. f_equal. rewrite map_map. apply map_pointwise. eapply Forall_impl; [done|]. intros [k v] [Hk Hv]. cbn in *. by rewrite Hk, Hv.
  - cbn. congruence.
  - cbn. congruence.
  - cbn. f_equal; [done | |]; [destruct lo | destruct hi]; cbn in *; congruence.
  - cbn. f_equal. rewrite map_map. apply map_pointwise. eapply Forall_impl; [done|]. intros [[f e] fp] He. cbn in *. by rewrite He.
  - cbn. congruence.
  - cbn. f_equal; [rewrite map_map; by apply map_pointwise|]. destruct m; cbn; [by rewrite Href | done].
  - cbn. f_equal; [done|]. rewrite map_map. by apply map_pointwise.
  - cbn. congruence.
  - done.
  - cbn. f_equal. rewrite map_map. by apply map_pointwise.
  - cbn. congruence.
  - cbn. congruence.
Qed.

Lemma core_remark :
  (forall s, coreS (remarkStmt ref mva bor s) = coreS s) /\
  (forall b, coreB (remarkBlock ref mva bor b) = coreB b).
Proof using Href.
  destruct (ast_induction (fun _ => True) (fun s => coreS (remarkStmt ref mva bor s) = coreS s)
    (fun b => coreB (remarkBlock ref mva bor b) = coreB b) (fun a => coreA (remarkArm ref mva bor a) = coreA a))
    as (_ & ? & ? & _); [..|done]; try done; unfold coreS, coreB, coreA; intros; cbn [remarkStmt remarkBlock remarkArm].
  all: repeat match goal with
       | o : option Expr |- _ => destruct o; cbn [fmap option_fmap option_map]
       | o : option Stmt |- _ => destruct o
       | o : option Block |- _ => destruct o
       end; unfold onOpt in *.
  all: rewrite ?map_map; f_equal; tree_close core_remarkE.
Qed.
End Remark.

(** ** The marking passes keep the core *)

Lemma core_moveAssign owned inTry name v : coreE (markMoveAssign owned inTry name v) = coreE v.
Proof. by destruct v. Qed.

Lemma core_markMove owned :
  (forall s inTry, coreS (markMove owned inTry s) = coreS s) /\
  (forall b inTry, coreB (markMoveB owned inTry b) = coreB b).
Proof.
  destruct (ast_induction (fun _ => True) (fun s => forall inTry, coreS (markMove owned inTry s) = coreS s)
    (fun b => forall inTry, coreB (markMoveB owned inTry b) = coreB b)
    (fun a => forall inTry, coreA (markMoveA owned inTry a) = coreA a))
    as (_ & ? & ? & _); [..|done]; try done; unfold coreS, coreB, coreA; intros; cbn [markMove markMoveB markMoveA remarkStmt remarkBlock remarkArm].
  all: repeat match goal with
       | o : option Stmt |- _ => destruct o
       | o : option Block |- _ => destruct o
       end; unfold onOpt in *.
  all: rewrite ?map_map; f_equal; tree_close core_moveAssign.
Qed.

Lemma core_markDef w :
  (forall s, coreS (markDef w s) = coreS s) /\ (forall b, coreB (markDefB w b) = coreB b).
Proof.
  destruct (ast_induction (fun _ => True) (fun s => coreS (markDef w s) = coreS s)
    (fun b => coreB (markDefB w b) = coreB b) (fun a => coreA (markDefA w a) = coreA a))
    as (_ & ? & ? & _); [..|done]; try done; unfold coreS, coreB, coreA; intros; cbn [markDef markDefB markDefA remarkStmt remarkBlock remarkArm].
  all: repeat match goal with
       | o : option Stmt |- _ => destruct o
       | o : option Block |- _ => destruct o
       end; unfold onOpt in *.
  all: rewrite ?map_map; f_equal; tree_close (@eq_refl Expr).
Qed.

Lemma core_stamp own b : coreB (stampBlock own b) = coreB b.
Proof. by apply core_remark. Qed.

Lemma core_stampS own s : coreS (stampStmt own s) = coreS s.
Proof. by apply core_remark. Qed.

(** ** The core decides the addresses *)

Section Address.
Variables (ref : MethodRef -> MethodRef) (mva : nat -> nat) (bor : bool -> bool).

Lemma asLit_remark e : asLit (remarkExpr ref mva e) = asLit e.
Proof. by destruct e. Qed.

Lemma tryFoldUnary_remark p op a : tryFoldUnary p op (remarkExpr ref mva a) = tryFoldUnary p op a.
Proof. unfold tryFoldUnary. by rewrite asLit_remark. Qed.

Lemma tryFoldBinary_remark p op a b :
  tryFoldBinary p op (remarkExpr ref mva a) (remarkExpr ref mva b) = tryFoldBinary p op a b.
Proof. unfold tryFoldBinary. by rewrite !asLit_remark. Qed.

Lemma All_map {A B} (f : A -> B) (P : B -> Prop) (Q : A -> Prop) l :
  Forall (fun x => P (f x) <-> Q x) l -> All P (map f l) <-> All Q l.
Proof. induction 1 as [|x l Hx _ IH]; cbn; [done|]. by rewrite Hx, IH. Qed.

Lemma exprOK_remark G : forall e, exprOK G (remarkExpr ref mva e) <-> exprOK G e.
Proof.
  expr_induct; intros.
  - by destruct e.
  - cbn. apply All_map. eapply Forall_impl; [done|]. by intros [s [e|]] He.
  - cbn. by apply All_map.
  - cbn. apply All_map. eapply Forall_impl; [done|]. intros [k v] [Hk Hv]. cbn in *. by rewrite Hk, Hv.
  - cbn. tauto.
  - cbn. tauto.
  - cbn. destruct lo, hi; cbn in *; tauto.
  - cbn. apply All_map. eapply Forall_impl; [done|]. by intros [[f e] fp] He.
  - done.
  - cbn. by apply All_map.
  - cbn. rewrite (All_map _ _ (exprOK G)) by done. tauto.
  - done.
  - done.
  - cbn. by apply All_map.
  - cbn. rewrite tryFoldUnary_remark. tauto.
  - cbn. rewrite tryFoldBinary_remark. tauto.
Qed.

Lemma targetOK_remark G : forall e, targetOK G (remarkExpr ref mva e) <-> targetOK G e.
Proof.
  expr_induct; intros; 
    try match goal with |- targetOK G (remarkExpr _ _ ?e) <-> _ => exact (exprOK_remark G e) end.
  - by destruct e.
  - cbn. rewrite exprOK_remark. tauto.
  - done.
Qed.

Lemma patternHead_remark vs : patternHead (map (remarkExpr ref mva) vs) = patternHead vs.
Proof. destruct vs as [|[] []]; try done; by destruct Args as [|[] []]. Qed.

Lemma binds_remark s : binds (remarkStmt ref mva bor s) = binds s.
Proof. by destruct s. Qed.

Lemma onOpt_remark G o : onOpt (exprOK G) (remarkExpr ref mva <$> o) <-> onOpt (exprOK G) o.
Proof. destruct o; [apply exprOK_remark | done]. Qed.

Lemma seq_remark ss n :
  Forall (fun s => forall G, stmtOK G (remarkStmt ref mva bor s) <-> stmtOK G s) ss ->
  forall p G, blockOK G (mkBlock p (map (remarkStmt ref mva bor) ss) n) <-> blockOK G (mkBlock p ss n).
Proof.
  intros Hs p. cbn. induction Hs as [|s ss Hs _ IH]; intros G; cbn; [done|]. by rewrite Hs, binds_remark, IH.
Qed.

Lemma armOK_remark p vs b v bi sl :
  (forall G, blockOK G (remarkBlock ref mva bor b) <-> blockOK G b) ->
  forall G, armOK G (remarkArm ref mva bor (mkArm p vs b v bi sl)) <-> armOK G (mkArm p vs b v bi sl).
Proof.
  intros Hb G. cbn [remarkArm]. change (armOK G (mkArm p ?x ?y v bi sl)) with (armOK G (mkArm p x y v bi sl)).
  cbn [armOK]. rewrite patternHead_remark.
  rewrite (All_map _ _ (exprOK G)) by (apply Forall_true; intros; apply exprOK_remark).
  by rewrite !Hb.
Qed.

Lemma addresses_remark :
  (forall s G, stmtOK G (remarkStmt ref mva bor s) <-> stmtOK G s) /\
  (forall b G, blockOK G (remarkBlock ref mva bor b) <-> blockOK G b).
Proof.
  destruct (ast_induction (fun _ => True) (fun s => forall G, stmtOK G (remarkStmt ref mva bor s) <-> stmtOK G s)
    (fun b => forall G, blockOK G (remarkBlock ref mva bor b) <-> blockOK G b)
    (fun a => forall G, armOK G (remarkArm ref mva bor a) <-> armOK G a))
    as (_ & ? & ? & _); [..|done]; try done; intros.
  all: try (simpl; rewrite ?onOpt_remark, ?exprOK_remark, ?targetOK_remark; done).
  all: try (simpl; rewrite ?exprOK_remark;
    repeat match goal with H : forall G, blockOK G _ <-> _ |- _ => rewrite !H; clear H end; done).
  - simpl. rewrite exprOK_remark, H0, (All_map _ _ (fun '(c, b) => exprOK G c /\ blockOK ([] :: G) b)).
    + destruct els; cbn in H2; [by rewrite H2 | done].
    + eapply Forall_impl; [done|]. intros [c' b'] [_ Hb]. cbn in Hb. by rewrite exprOK_remark, Hb.
  - simpl. rewrite exprOK_remark, (All_map _ _ (armOK G)).
    + destruct els; cbn in H1; [by rewrite H1 | done].
    + eapply Forall_impl; [done|]. intros a Ha. apply Ha.
  - simpl. destruct i as [s1|], st as [s2|]; cbn in H, H1; rewrite ?onOpt_remark, ?binds_remark, ?H, ?H1, ?H2; done.
  - by apply seq_remark.
  - by apply armOK_remark.
Qed.
End Address.

Lemma core_blockOK G b b' : coreB b = coreB b' -> blockOK G b -> blockOK G b'.
Proof.
  intros Hc Hb. apply (proj2 (addresses_remark plainRef (fun _ => O) (fun _ => false))).
  change (blockOK G (coreB b')). rewrite <- Hc.
  by apply (proj2 (addresses_remark plainRef (fun _ => O) (fun _ => false))).
Qed.

Lemma stampStmt_OK own s G : stmtOK G (stampStmt own s) <-> stmtOK G s.
Proof. apply addresses_remark. Qed.

Lemma stamp_seqOK own ss : forall G, seqOK G ss -> seqOK G (map (stampStmt own) ss).
Proof.
  induction ss as [|s ss IH]; intros G H; [done|]. destruct H as [Hs Hss]. cbn.
  split; [by apply stampStmt_OK|]. unfold stampStmt. rewrite binds_remark. by apply IH.
Qed.

Lemma stamp_binds own ss : map binds (map (stampStmt own) ss) = map binds ss.
Proof. rewrite map_map. apply map_ext. intros s. apply binds_remark. Qed.

(** * Ownership *)

Section Mono.
Context (own own' : gset string).
Hypothesis Hsub : own ⊆ own'.

Lemma ownedCall_mono m : ownedCall own m = true -> ownedCall own' m = true.
Proof using Hsub. destruct m as [m|]; [|done]. cbn. rewrite !bool_decide_eq_true. set_solver. Qed.

Lemma freshOrOwnedInit_mono o : freshOrOwnedInit own o = true -> freshOrOwnedInit own' o = true.
Proof using Hsub.
  destruct o as [e|]; [|done]. cbn. rewrite !orb_true_iff. intros [?|H]; [by left | right].
  destruct e; try done. by apply ownedCall_mono.
Qed.

(** A statement keeps what it binds as owned and rules out no more. *)
Lemma ownsNames_mono s :
  fst (ownsNames own s) ⊆ fst (ownsNames own' s) /\ snd (ownsNames own' s) ⊆ snd (ownsNames own s).
Proof using Hsub.
  destruct s; cbn; try done. destruct (IsConst) eqn:Ec; [done|]. cbn. destruct Borrow; [|done]. cbn.
  destruct (freshOrOwnedInit own InitExpr) eqn:E; cbn.
  - by rewrite (freshOrOwnedInit_mono _ E).
  - destruct (freshOrOwnedInit own' InitExpr); cbn; set_solver.
Qed.

Lemma names_mono ss :
  concat (map fst (map (ownsNames own) ss)) ⊆ concat (map fst (map (ownsNames own') ss)) /\
  concat (map snd (map (ownsNames own') ss)) ⊆ concat (map snd (map (ownsNames own) ss)).
Proof using Hsub.
  induction ss as [|s ss [I1 I2]]; cbn; [done|]. destruct (ownsNames_mono s) as [O1 O2].
  split; intros x; rewrite !elem_of_app; (intros [?|?]; [left | right]); auto.
Qed.

Lemma ownedLocals_mono m : ownedLocals own m ⊆ ownedLocals own' m.
Proof using Hsub.
  destruct (names_mono (blockTree (method_Body m))) as [O1 O2]. unfold ownedLocals. intros x.
  rewrite !elem_of_difference, !elem_of_list_to_set, !elem_of_app. intros [[Hx|Hx] Hn]; (split; [auto|]);
    (intros [?|?]; apply Hn; auto).
Qed.

Lemma isOwnedRoot_mono (a b : gset string) : a ⊆ b -> forall e, isOwnedRoot a e = true -> isOwnedRoot b e = true.
Proof.
  intros Hab. expr_induct; try (intros; done).
  - intros []; try done. cbn. rewrite !bool_decide_eq_true. set_solver.
  - intros p x y IH _. exact IH.
  - intros p x f IH. exact IH.
Qed.

Lemma returnsOwned_mono m : returnsOwned own m = true -> returnsOwned own' m = true.
Proof using Hsub.
  unfold returnsOwned. rewrite !forallb_forall. intros H o Ho. specialize (H o Ho).
  pose proof (ownedLocals_mono m) as Hl. destruct o as [e|]; [|done].
  pose proof (isOwnedRoot_mono _ _ Hl e) as Hroot.
  destruct e; try done; try exact (Hroot H). by apply ownedCall_mono.
Qed.
End Mono.

(** ** The passes *)

(** A consistent set: its methods return owned values if its methods do. *)
Definition consistent (ms : list MethodDef) (S : gset string) : Prop :=
  Forall (fun m => method_Name m ∈ S -> returnsOwned S m = true) ms.

Lemma pass_spec ms : forall own own' changed, ownershipPass ms own = (own', changed) ->
  own' ⊆ own /\
  (forall S, consistent ms S -> S ⊆ own -> S ⊆ own') /\
  (if changed then (size own' < size own)%nat else own' = own /\ consistent ms own).
Proof.
  induction ms as [|m ms IH]; intros own own' changed H; cbn in H.
  - injection H as <- <-. split_and!; [done | done | done | constructor].
  - destruct (bool_decide (method_Name m ∈ own) && negb (returnsOwned own m)) eqn:E.
    + destruct (ownershipPass ms _) as [o c] eqn:Ep. injection H as <- <-.
      apply andb_true_iff in E as [Hin Hr]. apply bool_decide_eq_true in Hin. apply negb_true_iff in Hr.
      destruct (IH _ _ _ Ep) as (Hsub & Hmax & Hc). split_and!; [clear -Hsub; set_solver | |].
      * intros S HS Hown. apply Forall_cons in HS as [Hm HS]. apply Hmax; [done|].
        assert (method_Name m ∉ S) as Hnot; [|clear -Hnot Hown; set_solver]. intros HmS. specialize (Hm HmS).
        apply (returnsOwned_mono _ _ Hown) in Hm. congruence.
      * eapply Nat.le_lt_trans; [by apply subseteq_size|]. apply subset_size. clear -Hin. set_solver.
    + destruct (IH _ _ _ H) as (Hsub & Hmax & Hc). split_and!; [done | |].
      * intros S HS. apply Forall_cons in HS as [_ HS]. by apply Hmax.
      * destruct changed; [done|]. destruct Hc as [-> Hc]. split; [done|]. constructor; [|done].
        intros Hin. rewrite bool_decide_true in E by done. cbn in E. by apply negb_false_iff in E.
Qed.

Lemma loop_spec ms fuel : forall own, (size own < fuel)%nat ->
  let S := ownershipLoop fuel ms own in
  S ⊆ own /\ consistent ms S /\ forall T, consistent ms T -> T ⊆ own -> T ⊆ S.
Proof.
  induction fuel as [|fuel IH]; intros own Hf; [lia|]. cbn.
  destruct (ownershipPass ms own) as [own' changed] eqn:E. destruct (pass_spec _ _ _ _ E) as (Hsub & Hmax & Hc).
  destruct changed.
  - destruct (IH own') as (H1 & H2 & H3); [lia|]. split_and!; [by etransitivity | done|].
    intros T HT Hown. apply H3; [done | by apply Hmax].
  - destruct Hc as [-> Hc]. done.
Qed.

Lemma names_size (ms : list MethodDef) : (size (list_to_set (map method_Name ms) : gset string) <= length ms)%nat.
Proof.
  induction ms as [|m ms IH]; cbn [map list_to_set length]; [by rewrite size_empty|].
  rewrite size_union_alt, size_singleton. etransitivity; [|by apply le_n_S, IH]. cbn.
  apply le_n_S, subseteq_size. clear IH. set_solver.
Qed.

(** C40: the ownership flags are the greatest consistent ones.  The loop of [markOwnership]
    ends within one pass more than there are methods, and the methods it leaves marked
    [ReturnsOwned] return owned values whenever the methods marked do; every other set of
    methods with that property is contained in it, so no copy elision the analysis could
    justify is lost to the order in which flags are cleared. *)
Theorem ownership_greatest ms :
  (forall fuel, (length ms < fuel)%nat ->
     ownershipLoop fuel ms (list_to_set (map method_Name ms)) = ownership ms) /\
  consistent ms (ownership ms) /\
  (forall S, consistent ms S -> S ⊆ list_to_set (map method_Name ms) -> S ⊆ ownership ms).
Proof.
  pose proof (names_size ms) as Hsize.
  destruct (loop_spec ms (S (length ms)) (list_to_set (map method_Name ms))) as (H1 & H2 & H3); [lia|].
  split_and!; [|done|done]. intros fuel Hf.
  destruct (loop_spec ms fuel (list_to_set (map method_Name ms))) as (G1 & G2 & G3); [lia|].
  apply set_eq. intros x. split; [by apply H3 | by apply G3].
Qed.
