(* ===== verification/ResolveFacts.v ===== *)
(** * Resolved programs

    From the correctness of the resolver on statements and the neutrality of the marks: an
    accepted program is addressed correctly as a whole.  [eraseExpr], [eraseStmt] and [eraseProgram]
    reset everything later passes write into a tree: addresses, slot counts, folded results,
    method references, marks and match tags; the resolver changes nothing else. *)

From S2P Require Import Prelude Limits Lexer Types Ast Parser ParserStmt Fold Resolver Ownership.
From S2P Require Import Resolve Scoping ResolverFacts MarkFacts.
Open Scope string_scope.
Open Scope list_scope.
Open Scope Z_scope.

(** ** Annotations *)

Fixpoint eraseExpr (e : Expr) : Expr :=
  let opt o := match o with Some e => Some (eraseExpr e) | None => None end in
  match e with
  | VarExpr p x _ _ _ => VarExpr p x (-1) (-1) false
  | ConstRefExpr p x _ _ => ConstRefExpr p x (-1) (-1)
  | CallExpr p c args _ _ snap => CallExpr p c (map eraseExpr args) None 0 snap
  | CallValueExpr p f args snap => CallValueExpr p (eraseExpr f) (map eraseExpr args) snap
  | QualifiedCallExpr p pr c args _ snap => QualifiedCallExpr p pr c (map eraseExpr args) 0 snap
  | LenExpr p a => LenExpr p (eraseExpr a)
  | SpawnExpr p body caps => SpawnExpr p (map eraseStmt body) caps
  | IndexExpr p a b => IndexExpr p (eraseExpr a) (eraseExpr b)
  | RangeExpr p a b => RangeExpr p (eraseExpr a) (eraseExpr b)
  | SliceExpr p t lo hi => SliceExpr p (eraseExpr t) (opt lo) (opt hi)
  | FieldAccessExpr p t f => FieldAccessExpr p (eraseExpr t) f
  | ListLit p es => ListLit p (map eraseExpr es)
  | MapLit p kvs => MapLit p (map (fun '(k, v) => (eraseExpr k, eraseExpr v)) kvs)
  | StructLit p ns en nm ba fs => StructLit p ns en nm ba (map (fun '(f, e, fp) => (f, eraseExpr e, fp)) fs)
  | UnaryExpr p op a _ => UnaryExpr p op (eraseExpr a) None
  | BinaryExpr p op a b _ => BinaryExpr p op (eraseExpr a) (eraseExpr b) None
  | InterpStringExpr p parts => InterpStringExpr p (map (fun '(lit, o) => (lit, opt o)) parts)
  | IntLit _ _ | FloatLit _ _ | StringLit _ _ | BoolLit _ _ | NullLit _
  | QualifiedConstRefExpr _ _ _ | PreEval _ _ => e
  end
with eraseStmt (s : Stmt) : Stmt :=
  match s with
  | DefineStmt p c x name t init _ _ =>
      DefineStmt p c x name t (match init with Some e => Some (eraseExpr e) | None => None end) (-1) false
  | AssignStmt p name v _ _ => AssignStmt p name (eraseExpr v) (-1) (-1)
  | IndexAssignStmt p t v => IndexAssignStmt p (eraseExpr t) (eraseExpr v)
  | AppendStmt p t v => AppendStmt p (eraseExpr t) (eraseExpr v)
  | FieldAssignStmt p t v => FieldAssignStmt p (eraseExpr t) (eraseExpr v)
  | IfStmt p c thn elifs els =>
      IfStmt p (eraseExpr c) (eraseBlock thn) (map (fun '(c, b) => (eraseExpr c, eraseBlock b)) elifs)
        (match els with Some b => Some (eraseBlock b) | None => None end)
  | MatchStmt p e arms els _ =>
      MatchStmt p (eraseExpr e) (map eraseArm arms)
        (match els with Some b => Some (eraseBlock b) | None => None end) None
  | WhileStmt p c b => WhileStmt p (eraseExpr c) (eraseBlock b)
  | ForStmt p init c st b _ =>
      ForStmt p (match init with Some s => Some (eraseStmt s) | None => None end)
        (match c with Some e => Some (eraseExpr e) | None => None end)
        (match st with Some s => Some (eraseStmt s) | None => None end) (eraseBlock b) 0
  | ForEachStmt p x c b _ => ForEachStmt p x (eraseExpr c) (eraseBlock b) (-1)
  | ReturnStmt p v => ReturnStmt p (match v with Some e => Some (eraseExpr e) | None => None end)
  | RepeatStmt p b c => RepeatStmt p (eraseBlock b) (eraseExpr c)
  | ExitStmt p v => ExitStmt p (match v with Some e => Some (eraseExpr e) | None => None end)
  | TryStmt p b x cb cp _ => TryStmt p (eraseBlock b) x (eraseBlock cb) cp (-1)
  | ThrowStmt p v => ThrowStmt p (eraseExpr v)
  | DeferStmt p c o => DeferStmt p (eraseExpr c) o
  | ExprStmt p e => ExprStmt p (eraseExpr e)
  | BreakStmt _ | ContinueStmt _ => s
  end
with eraseBlock (b : Block) : Block :=
  match b with mkBlock p ss _ => mkBlock p (map eraseStmt ss) 0 end
with eraseArm (a : MatchArm) : MatchArm :=
  match a with mkArm p vs b _ _ _ => mkArm p (map eraseExpr vs) (eraseBlock b) "" "" (-1) end.

Definition eraseParam (p : Param) : Param :=
  {| param_Name := param_Name p; param_Type := param_Type p; param_pos := param_pos p; param_Borrow := false |}.

Definition eraseMethod (m : MethodDef) : MethodDef :=
  withBody m (map eraseParam (method_Params m)) (eraseBlock (method_Body m)) false.

Definition eraseProgram (p : Program) : Program :=
  Build_Program (prog_pos p) (prog_Imports p) (prog_ModuleImports p) (map eraseMethod (prog_Methods p))
    (prog_Structs p) (prog_Enums p) (map eraseStmt (prog_TopLevel p)) 0.

(** ** Loops *)

Lemma wmap_erase {A B} (f : A -> W A) (P : A -> Prop) (g : A -> B) l l' w :
  wmap f l = Ok (l', w) -> Forall P l -> (forall x x' u, P x -> f x = Ok (x', u) -> g x' = g x) ->
  map g l' = map g l.
Proof.
  intros H HP Hf. apply wmap_inv in H. revert HP. induction H as [|x x' l l' [u Hx] _ IH]; intros HP; [done|].
  apply Forall_cons in HP as [Hp HP]. cbn. f_equal; [by eapply Hf | by apply IH].
Qed.

Lemma wopt_erase {A B} (f : A -> W A) (P : A -> Prop) (g : A -> B) o o' w :
  wopt f o = Ok (o', w) -> onOpt P o -> (forall x x' u, P x -> f x = Ok (x', u) -> g x' = g x) ->
  match o' with Some x => Some (g x) | None => None end = match o with Some x => Some (g x) | None => None end.
Proof.
  intros H HP Hf. apply wopt_inv in H. destruct o, o'; try done. destruct H as [u H]. f_equal. by eapply Hf.
Qed.

Lemma wfold_erase {A B S} (f : S -> A -> W (A * S)) (P : A -> Prop) (g : A -> B) l : forall s l' s' w,
  wfold f s l = Ok (l', s', w) -> Forall P l -> (forall s x x' s' u, P x -> f s x = Ok (x', s', u) -> g x' = g x) ->
  map g l' = map g l.
Proof.
  induction l as [|x l IH]; intros s l' s' w H HP Hf; cbn in H; [by injection H as <- _ _|].
  apply Forall_cons in HP as [Hp HP]. winv H. cbn. f_equal; [by eapply Hf | by eapply IH].
Qed.

(** ** Spawn bodies *)

Section Spawn.
Context (r : resolver) (sc : scopes).

Lemma tag_erase arms : forall arms' ok l, tag arms = Ok (arms', ok, l) -> map eraseArm arms' = map eraseArm arms.
Proof.
  induction arms as [|[p vs b v bi sl] arms IH]; intros arms' ok l H; cbn [tag] in H; [by injection H as <- _ _|].
  destruct vs as [|v0 [|]]; try (by injection H as <- _ _). winv H. destruct a as [[variant bind]|];
    [|by injection H as <- _ _]. winv H. simpl. f_equal. by eapply IH.
Qed.

Lemma walkMatch_erase types p e arms els et arms' et' l :
  walkMatch r sc types p e arms els et = Ok (arms', et', l) -> map eraseArm arms' = map eraseArm arms.
Proof.
  unfold walkMatch. destruct arms as [|a0 arms0]; [by intros [= <- _ _]|]. cbn zeta.
  destruct (localEnumOf r _) as [ed|]; [|destruct (_ && _); [|by intros [= <- _ _]]]; intros H;
    apply wbind_inv in H as ([arms1 ok] & ? & ? & Ht & H & ->); apply tag_erase in Ht; rewrite <- Ht;
    destruct ok; winv H; done.
Qed.

(** An arm with the tag of one tree and the body of another. *)
Lemma retag_erase arms' bodies arms :
  map eraseArm arms' = map eraseArm arms -> map eraseArm bodies = map eraseArm arms ->
  map eraseArm (zip_with (fun a b => let '(mkArm p vs _ v bind slot) := a in
    let '(mkArm _ _ b _ _ _) := b in mkArm p vs b v bind slot) arms' bodies) = map eraseArm arms.
Proof.
  revert bodies arms. induction arms' as [|[p vs b v bi sl] arms' IH]; intros [|[p1 vs1 b1 v1 bi1 sl1] bodies] [|[p2 vs2 b2 v2 bi2 sl2] arms]; simpl; try done.
  intros [= -> Hvs Hb Ht] [= -> Hvs1 Hb1 Ht1]. f_equal; [congruence | by apply IH].
Qed.

Lemma walk_erase :
  (forall e e' l, walkExpr r sc e = Ok (e', l) -> eraseExpr e' = eraseExpr e) /\
  (forall s types s' types' l, walkStmt r sc types s = Ok (s', types', l) -> eraseStmt s' = eraseStmt s).
Proof.
  destruct (ast_induction (fun e => forall e' l, walkExpr r sc e = Ok (e', l) -> eraseExpr e' = eraseExpr e)
    (fun s => forall types s' types' l, walkStmt r sc types s = Ok (s', types', l) -> eraseStmt s' = eraseStmt s)
    (fun b => forall types b' l, walkBlock r sc types b = Ok (b', l) -> eraseBlock b' = eraseBlock b)
    (fun a => forall types a' l, walkArm r sc types a = Ok (a', l) -> eraseArm a' = eraseArm a))
    as (? & ? & _ & _); [..|done].
  all: try (intros; match goal with H : _ = Ok _ |- _ => simpl in H; winv H end; done).
  - intros [] Hleaf e' l H; try done; simpl in H; winv H; done.
  - intros p body caps IH e' l H. simpl in H. winv H. simpl. f_equal.
    eapply wfold_erase; [done | done|]. intros types x x' types' u Hx. apply Hx.
  - intros p c x n t o sl bo IH types s' types' l H. simpl in H. winv H. simpl. f_equal.
    eapply wopt_erase; [done | done|]. intros x0 x' u Hx. apply Hx.
  - intros p c b elifs els _ IHb IHel IHels types s' types' l H. simpl in H. winv H. simpl. f_equal.
    + by eapply IHb.
    + eapply wmap_erase; [done | done|]. intros [c1 b1] [c2 b2] u [_ Hb] Hr. simpl in Hb. winv Hr. simpl. f_equal. by eapply Hb.
    + eapply wopt_erase; [done | done|]. intros x0 x' u Hx. apply Hx.
  - intros p e arms els et _ IHa IHels types s' types' l H. simpl in H. winv H. simpl. f_equal.
    + apply retag_erase; [by eapply walkMatch_erase|]. eapply wmap_erase; [done | done|]. intros x0 x' u Hx. apply Hx.
    + eapply wopt_erase; [done | done|]. intros x0 x' u Hx. apply Hx.
  - intros p c b _ IHb types s' types' l H. simpl in H. winv H. simpl. f_equal. by eapply IHb.
  - intros p i c st b h _ _ _ IHb types s' types' l H. simpl in H. winv H. simpl. f_equal. by eapply IHb.
  - intros p x c b i _ IHb types s' types' l H. simpl in H. winv H. simpl. f_equal. by eapply IHb.
  - intros p b c IHb _ types s' types' l H. simpl in H. winv H. simpl. f_equal. by eapply IHb.
  - intros p b x cb cp i IHb IHc types s' types' l H. simpl in H. winv H. simpl. f_equal; [by eapply IHb | by eapply IHc].
  - intros p e IHe types s' types' l H. simpl in H. winv H. simpl. f_equal. by eapply IHe.
  - intros p ss n IH types b' l H. simpl in H. winv H. simpl. f_equal.
    eapply wfold_erase; [done | done|]. intros types0 x x' types' u Hx. apply Hx.
  - intros p vs b v bi sl _ IHb types a' l H. simpl in H. winv H. simpl. f_equal. by eapply IHb.
Qed.

Lemma checkSpawn_erase body body' l :
  checkSpawnEnums r sc body = Ok (body', l) -> map eraseStmt body' = map eraseStmt body.
Proof.
  intros H. unfold checkSpawnEnums in H. winv H. eapply (wfold_erase _ (fun _ => True)); [done | by apply Forall_true|].
  intros types x x' types' u _. apply walk_erase.
Qed.
End Spawn.

(** ** Expressions *)

Section Expressions.
Context (r : resolver) (sc : scopes).

Lemma resolveExpr_erase : forall e e' l, resolveExpr r sc e = Ok (e', l) -> eraseExpr e' = eraseExpr e.
Proof.
  expr_induct.
  - intros [] Hleaf e' l H; try done; cbn in H; try (injection H as <- _; done).
    + destruct (lookup sc Name) as [[d info]|]; [|done]. destruct (si_IsConst info); [done|]. by injection H as <- _.
    + destruct (lookup sc Name) as [[d info]|]; [by injection H as <- _|].
      destruct (r_laterConsts r !! Name); [|by injection H as <- _].
      destruct (isMethod r Name); [by injection H as <- _ | done].
  - intros p parts IH e' l H. simpl in H. winv H. simpl. f_equal. eapply wmap_erase; [done | done|].
    intros [lit o] [lit' o'] u Ho Hr. simpl in Ho. winv Hr. f_equal. eapply wopt_erase; [done | done|].
    intros x x' u' Hx. apply Hx.
  - intros p es IH e' l H. simpl in H. winv H. simpl. f_equal. eapply wmap_erase; [done | done|]. intros x x' u Hx. apply Hx.
  - intros p kvs IH e' l H. simpl in H. winv H. simpl. f_equal. eapply wmap_erase; [done | done|].
    intros [k v] [k' v'] u [Hk Hv] Hr. simpl in Hk, Hv. winv Hr. f_equal; [by eapply Hk | by eapply Hv].
  - intros p a b IHa IHb e' l H. simpl in H. winv H. simpl. f_equal; [by eapply IHa | by eapply IHb].
  - intros p a b IHa IHb e' l H. simpl in H. winv H. simpl. f_equal; [by eapply IHa | by eapply IHb].
  - intros p t lo hi IHt IHlo IHhi e' l H. simpl in H. winv H. simpl. f_equal; [by eapply IHt | |];
      (eapply wopt_erase; [done | done|]; intros x x' u Hx; apply Hx).
  - intros p ns en nm ba fs IH e' l H. simpl in H. winv H. simpl. f_equal. eapply wmap_erase; [done | done|].
    intros [[f e] fp] [[f' e''] fp'] u He Hr. simpl in He. winv Hr. do 2 f_equal. by eapply He.
  - intros p t f IH e' l H. simpl in H. winv H. simpl. f_equal. by eapply IH.
  - intros p c args m mv sn IH e' l H. simpl in H. winv H. simpl. f_equal. eapply wmap_erase; [done | done|]. intros x x' u Hx. apply Hx.
  - intros p f args sn IHf IH e' l H. simpl in H. winv H. simpl. f_equal; [by eapply IHf|].
    eapply wmap_erase; [done | done|]. intros x x' u Hx. apply Hx.
  - intros p a IH e' l H. simpl in H. winv H. simpl. f_equal. by eapply IH.
  - intros p body caps _ e' l H. simpl in H. winv H. simpl. f_equal. by eapply checkSpawn_erase.
  - intros p pr c args mv sn IH e' l H. simpl in H. winv H. simpl. f_equal. eapply wmap_erase; [done | done|]. intros x x' u Hx. apply Hx.
  - intros p op a f IH e' l H. simpl in H. winv H. simpl. f_equal. by eapply IH.
  - intros p op a b f IHa IHb e' l H. simpl in H. winv H. simpl. f_equal; [by eapply IHa | by eapply IHb].
Qed.

Lemma resolveTarget_erase : forall e e' l, resolveTarget r sc e = Ok (e', l) -> eraseExpr e' = eraseExpr e.
Proof.
  expr_induct; try (intros; match goal with H : resolveTarget _ _ ?e = Ok _ |- _ => exact (resolveExpr_erase e _ _ H) end).
  - intros [] Hleaf e' l H; try done; try exact (resolveExpr_erase _ _ _ H). cbn in H.
    destruct (lookup sc Name) as [[d info]|]; [|done]. by injection H as <- _.
  - intros p a b IHa IHb e' l H. simpl in H. winv H. simpl. f_equal; [by eapply IHa | by eapply resolveExpr_erase].
  - intros p t f IH e' l H. simpl in H. winv H. simpl. f_equal. by eapply IH.
Qed.

Lemma firstOf_erase {A B} (f : A -> option A) (g : A -> B) l l' :
  firstOf f l = Some l' -> Forall (fun x => forall x', f x = Some x' -> g x' = g x) l -> map g l' = map g l.
Proof.
  revert l'. induction l as [|x l IH]; intros l' H Hf; [done|]. cbn in H. apply Forall_cons in Hf as [Hx Hf].
  destruct (f x) as [x'|] eqn:E; [injection H as <-; cbn; f_equal; by apply Hx|].
  destruct (firstOf f l) as [l1|]; [|done]. injection H as <-. cbn. f_equal. by apply IH.
Qed.

Lemma moveCandidate_erase name : forall e e', moveCandidate name e = Some e' -> eraseExpr e' = eraseExpr e.
Proof.
  expr_induct; try (intros; discriminate).
  - intros [] Hleaf e' H; try done. cbn in H. case_bool_decide; [|done]. by injection H as <-.
  - intros p es IH e' H. cbn in H. destruct (firstOf _ es) as [l|] eqn:E; [|done]. injection H as <-.
    simpl. f_equal. by eapply firstOf_erase.
  - intros p kvs IH e' H. cbn in H. destruct (firstOf _ kvs) as [l|] eqn:E; [|done]. injection H as <-.
    simpl. f_equal. eapply firstOf_erase; [done|]. eapply Forall_impl; [done|]. intros [k v] [_ Hv] [k' v'] Hm.
    destruct (moveCandidate name v) eqn:Em; [|done]. injection Hm as <- <-. f_equal. by apply Hv.
  - intros p ns en nm ba fs IH e' H. cbn in H. destruct (firstOf _ fs) as [l|] eqn:E; [|done].
    injection H as <-. simpl. f_equal. eapply firstOf_erase; [done|]. eapply Forall_impl; [done|].
    intros [[f e] fp] He [[f' e'] fp'] Hm. cbn in He. destruct (moveCandidate name e) eqn:Em; [|done].
    injection Hm as <- <- <-. do 2 f_equal. by apply He.
Qed.

Lemma markMoveable_erase name e : eraseExpr (markMoveableAssign name e) = eraseExpr e.
Proof.
  unfold markMoveableAssign, firstMoveable. destruct (freshLiteralRHS e); [|done].
  destruct e; try done; (destruct (moveCandidate name _) as [e'|] eqn:E; cbn [default from_option id]; [|done]);
    by eapply moveCandidate_erase.
Qed.
End Expressions.

(** ** Statements *)

Section Statements.
Variable r : resolver.

Definition eraseKept (b : Block) : Prop :=
  forall sc b' l, resolveIn r sc b = Ok (b', l) -> eraseBlock b' = eraseBlock b.

Definition armKept (a : MatchArm) : Prop := let '(mkArm _ _ b _ _ _) := a in eraseKept b.

Lemma optExpr_erase sc o o' l :
  wopt (resolveExpr r sc) o = Ok (o', l) ->
  match o' with Some e => Some (eraseExpr e) | None => None end =
  match o with Some e => Some (eraseExpr e) | None => None end.
Proof.
  intros H. eapply (wopt_erase _ (fun _ => True)); [done | by destruct o|]. intros x x' u _. apply resolveExpr_erase.
Qed.

Lemma optBlock_erase sc o o' l :
  wopt (resolveIn r sc) o = Ok (o', l) -> onOpt eraseKept o ->
  match o' with Some b => Some (eraseBlock b) | None => None end =
  match o with Some b => Some (eraseBlock b) | None => None end.
Proof. intros H Ho. eapply wopt_erase; [done | done|]. intros x x' u Hx. apply Hx. Qed.

Lemma enumArms_erase sc ed arms : forall arms' covered covered' l,
  Forall armKept arms -> enumArms sc (resolveIn r) ed arms covered = Ok (arms', covered', l) ->
  map eraseArm arms' = map eraseArm arms.
Proof.
  induction arms as [|[p vs b v bi sl] arms IH]; intros arms' covered covered' l Ha H; cbn in H; [by injection H as <- _ _|].
  apply Forall_cons in Ha as [Hb Ha]. destruct vs as [|v0 [|]]; try done. winv H.
  destruct a as [[variant bind]|]; [|done]. winv H. simpl. f_equal; [f_equal; by eapply Hb | by eapply IH].
Qed.

Lemma deferredArms_erase sc t arms : forall arms' l,
  Forall armKept arms -> deferredArms sc (resolveIn r) t arms = Ok (arms', l) -> map eraseArm arms' = map eraseArm arms.
Proof.
  induction arms as [|[p vs b v bi sl] arms IH]; intros arms' l Ha H; cbn in H; [by injection H as <- _|].
  apply Forall_cons in Ha as [Hb Ha]. destruct vs as [|v0 [|]]; try done. winv H.
  destruct a as [[variant bind]|]; [|done]. winv H. simpl. f_equal; [f_equal; by eapply Hb | by eapply IH].
Qed.

Lemma valueArms_erase sc arms : forall arms' l,
  Forall armKept arms -> valueArms r sc (resolveIn r) arms = Ok (arms', l) -> map eraseArm arms' = map eraseArm arms.
Proof.
  induction arms as [|[p vs b v bi sl] arms IH]; intros arms' l Ha H; cbn in H; [by injection H as <- _|].
  apply Forall_cons in Ha as [Hb Ha]. winv H. simpl. f_equal; [|by eapply IH]. f_equal; [|by eapply Hb].
  eapply (wmap_erase _ (fun _ => True)); [done | by apply Forall_true|]. intros x x' u _. apply resolveExpr_erase.
Qed.

Lemma resolveMatch_erase sc p e arms els et s' l :
  Forall armKept arms -> onOpt eraseKept els ->
  resolveMatch r sc (resolveIn r) p e arms els et = Ok (s', l) -> eraseStmt s' = eraseStmt (MatchStmt p e arms els et).
Proof.
  intros Ha Hels H. unfold resolveMatch in H. winv H. cbn zeta in H. apply resolveExpr_erase in E.
  destruct (localEnumOf r _) as [ed|].
  - winv H. apply enumArms_erase in E0; [|done]. destruct els as [b|]; winv H; simpl; f_equal; try done.
    f_equal. by eapply Hels.
  - destruct (subjectType _ _ _) as [ty|]; [destruct (_ && _)|]; winv H; simpl;
      (f_equal; [done | | by eapply optBlock_erase]);
      [by eapply deferredArms_erase | by eapply valueArms_erase | by eapply valueArms_erase].
Qed.

Lemma stmts_erase :
  (forall s sc s' sc' l, resolveStmt r sc s = Ok (s', sc', l) -> eraseStmt s' = eraseStmt s) /\
  (forall b, eraseKept b).
Proof.
  destruct (ast_induction (fun _ => True)
    (fun s => forall sc s' sc' l, resolveStmt r sc s = Ok (s', sc', l) -> eraseStmt s' = eraseStmt s)
    eraseKept armKept) as (_ & ? & ? & _); [..|done]; try done.
  - intros p c x n t o sl bo _ sc s' sc' l H. simpl in H. unfold resolveDefine in H. winv H. simpl. f_equal.
    by eapply optExpr_erase.
  - intros p n v d sl _ sc s' sc' l H. simpl in H. unfold resolveAssign in H. winv H. winv E.
    destruct (lookup sc n) as [[? info]|]; [|done]. destruct (si_IsConst info); [done|]. injection E as <- _.
    simpl. f_equal. rewrite markMoveable_erase. by eapply resolveExpr_erase.
  - intros p t v _ _ sc s' sc' l H. simpl in H. winv H. simpl. f_equal; [by eapply resolveTarget_erase | by eapply resolveExpr_erase].
  - intros p t v _ _ sc s' sc' l H. simpl in H. winv H. simpl. f_equal; [by eapply resolveTarget_erase | by eapply resolveExpr_erase].
  - intros p t v _ _ sc s' sc' l H. simpl in H. winv H. simpl. f_equal; [by eapply resolveTarget_erase | by eapply resolveExpr_erase].
  - intros p c b elifs els _ IHb IHel IHels sc s' sc' l H. simpl in H. winv H. simpl.
    f_equal; [by eapply resolveExpr_erase | by eapply IHb | | by eapply optBlock_erase].
    eapply wmap_erase; [done | done|]. intros [c1 b1] [c2 b2] u [_ Hb] Hr. simpl in Hb. winv Hr. simpl.
    f_equal; [by eapply resolveExpr_erase | by eapply Hb].
  - intros p e arms els et _ IHa IHels sc s' sc' l H. simpl in H. apply wbind_inv in H as (s1 & l1 & l2 & H & H1 & ->).
    injection H1 as <- _ _. by eapply resolveMatch_erase.
  - intros p c b _ IHb sc s' sc' l H. simpl in H. winv H. simpl. f_equal; [by eapply resolveExpr_erase | by eapply IHb].
  - intros p i c st b h IHi _ IHst IHb sc s' sc' l H. simpl in H. winv H. simpl.
    f_equal; [| by eapply optExpr_erase | | by eapply IHb].
    + destruct i as [s1|]; winv E; [|done]. f_equal. by eapply IHi.
    + destruct st as [s1|]; winv E1; [|done]. f_equal. by eapply IHst.
  - intros p x c b i _ IHb sc s' sc' l H. simpl in H. winv H. destruct (existsInChain _ _); [done|]. winv H. simpl.
    f_equal; [by eapply resolveExpr_erase | by eapply IHb].
  - intros p o _ sc s' sc' l H. simpl in H. winv H. simpl. f_equal. by eapply optExpr_erase.
  - intros p sc s' sc' l H. simpl in H. by winv H.
  - intros p sc s' sc' l H. simpl in H. by winv H.
  - intros p b c IHb _ sc s' sc' l H. simpl in H. winv H. simpl. f_equal; [by eapply IHb | by eapply resolveExpr_erase].
  - intros p o _ sc s' sc' l H. simpl in H. winv H. simpl. f_equal. by eapply optExpr_erase.
  - intros p b x cb cp i IHb IHcb sc s' sc' l H. simpl in H. winv H. destruct (existsInChain _ _); [done|]. winv H.
    simpl. f_equal; [by eapply IHb | by eapply IHcb].
  - intros p e _ sc s' sc' l H. simpl in H. winv H. simpl. f_equal. by eapply resolveExpr_erase.
  - intros p e o _ sc s' sc' l H. simpl in H. winv H. simpl. f_equal. by eapply resolveExpr_erase.
  - intros p e _ sc s' sc' l H. simpl in H. winv H. simpl. f_equal. by eapply resolveExpr_erase.
  - intros p ss n IH sc b' l H. simpl in H. winv H. simpl. f_equal. eapply wfold_erase; [done | done|].
    intros s0 x x' s' u Hx. apply Hx.
Qed.
End Statements.

(** ** Marks *)

Section Remark.
Variables (ref : MethodRef -> MethodRef) (mva : nat -> nat) (bor : bool -> bool).

Lemma remarkExpr_erase : forall e, eraseExpr (remarkExpr ref mva e) = eraseExpr e.
Proof.
  expr_induct; intros.
  - by destruct e.
  - simpl. f_equal. rewrite map_map. apply map_pointwise. eapply Forall_impl; [done|]. intros [s [e|]] He; simpl in *; [by rewrite He | done].
  - simpl. f_equal. rewrite map_map. by apply map_pointwise.
  - simpl. f_equal. rewrite map_map. apply map_pointwise. eapply Forall_impl; [done|]. intros [k v] [Hk Hv]. simpl in *. by rewrite Hk, Hv.
  - simpl. congruence.
  - simpl. congruence.
  - simpl. f_equal; [done | |]; [destruct lo | destruct hi]; simpl in *; congruence.
  - simpl. f_equal. rewrite map_map. apply map_pointwise. eapply Forall_impl; [done|]. intros [[f e] fp] He. simpl in *. by rewrite He.
  - simpl. congruence.
  - simpl. f_equal. rewrite map_map. by apply map_pointwise.
  - simpl. f_equal; [done|]. rewrite map_map. by apply map_pointwise.
  - simpl. congruence.
  - done.
  - simpl. f_equal. rewrite map_map. by apply map_pointwise.
  - simpl. congruence.
  - simpl. congruence.
Qed.

Lemma remark_erase :
  (forall s, eraseStmt (remarkStmt ref mva bor s) = eraseStmt s) /\
  (forall b, eraseBlock (remarkBlock ref mva bor b) = eraseBlock b).
Proof.
  destruct (ast_induction (fun _ => True) (fun s => eraseStmt (remarkStmt ref mva bor s) = eraseStmt s)
    (fun b => eraseBlock (remarkBlock ref mva bor b) = eraseBlock b)
    (fun a => eraseArm (remarkArm ref mva bor a) = eraseArm a))
    as (_ & ? & ? & _); [..|done]; try done; intros; simpl.
  all: repeat match goal with
       | o : option Expr |- _ => destruct o; simpl
       | o : option Stmt |- _ => destruct o; simpl
       | o : option Block |- _ => destruct o; simpl
       end; unfold onOpt in *.
  all: rewrite ?map_map; f_equal; tree_close remarkExpr_erase.
Qed.
End Remark.

Lemma core_erase b b' : coreB b = coreB b' -> eraseBlock b = eraseBlock b'.
Proof.
  intros Hc. pose proof (proj2 (remark_erase plainRef (fun _ => O) (fun _ => false))) as H.
  transitivity (eraseBlock (coreB b)); [symmetry; apply H|]. rewrite Hc. apply H.
Qed.

(** ** Programs *)

Lemma resolveTop_erase r ss : forall later sc ss' sc' l,
  resolveTop r later sc ss = Ok (ss', sc', l) -> map eraseStmt ss' = map eraseStmt ss.
Proof.
  induction ss as [|s ss IH]; intros later sc ss' sc' l H; cbn in H; winv H; [done|].
  cbn. f_equal; [by eapply stmts_erase | by eapply IH].
Qed.

Lemma resolveMethod_erase r globals own m m' l :
  resolveMethod r globals m = Ok (m', l) -> eraseMethod (markMethod own m') = eraseMethod m.
Proof.
  intros H. unfold resolveMethod in H. winv H. unfold eraseMethod, markMethod, withBody. cbn. f_equal.
  - unfold markBorrowableParams. rewrite map_map. by apply map_ext.
  - rewrite (core_erase _ a0); [by eapply stmts_erase|].
    rewrite core_stamp, (proj2 (core_markMove _)). unfold markBorrowableDefs. case_match; [done | apply core_markDef].
Qed.

Lemma Resolve_erase iterate p p' pending : Resolve iterate p = Ok (p', pending) -> eraseProgram p' = eraseProgram p.
Proof.
  unfold Resolve, resolveProgram. intros H. winv H. unfold eraseProgram.
  cbn [prog_pos prog_Imports prog_ModuleImports prog_Methods prog_Structs prog_Enums prog_TopLevel]. f_equal.
  - apply wmap_inv in E4. generalize (ownership a3). intros own. clear -E4.
    induction E4 as [|m m' ms ms' [u Hm] _ IH]; [done|]. cbn [map]. f_equal; [by eapply resolveMethod_erase | done].
  - rewrite map_map. rewrite <- (resolveTop_erase _ _ _ _ _ _ _ E2). apply map_ext. intros s. apply remark_erase.
Qed.

Open Scope string_scope.
Open Scope list_scope.

(** ** Declarations *)

Lemma hoist_nodup {D} kind (nameOf : D -> string) posOf clash ds : forall tbl tbl' l,
  hoist kind nameOf posOf clash ds tbl = Ok (tbl', l) ->
  NoDup (map nameOf ds) /\ Forall (fun d => tbl !! nameOf d = None) ds.
Proof.
  induction ds as [|d ds IH]; intros tbl tbl' l H; cbn in H.
  - split; constructor.
  - winv H. destruct (tbl !! nameOf d) as [prev|] eqn:E1.
    { unfold dupDeclError in H. by repeat case_match. }
    destruct (IH _ _ _ H) as [Hn Hf]. cbn. split.
    + constructor; [|done]. intros Hin. apply list_elem_of_fmap in Hin as (d' & Hd & Hin).
      rewrite Forall_forall in Hf. specialize (Hf d' Hin). rewrite <- Hd, lookup_insert_eq in Hf. done.
    + constructor; [done|]. eapply Forall_impl; [exact Hf|]. intros d' Hd'.
      by apply lookup_insert_None in Hd' as [? _].
Qed.

Lemma scanNames_none i f x : scanNames i f x = None <-> x ∉ map fst f.
Proof.
  revert i. induction f as [|[y c] f IH]; intros i; cbn; [split; [|done]; intros _ H; by apply elem_of_nil in H|].
  case_bool_decide as Hx; [split; [done|]; intros []; apply elem_of_cons; by left|].
  rewrite IH, elem_of_cons. cbn. split; [intros Hf [?|?]; [congruence | done] | tauto].
Qed.

(** ** Globals *)

Lemma resolveTop_ok r ss : forall later sc G ss' sc' l,
  scopesRel sc G -> resolveTop r later sc ss = Ok (ss', sc', l) ->
  seqOK G ss' /\ scopesRel sc' (after G ss').
Proof.
  unfold after. induction ss as [|s ss IH]; intros later sc G ss' sc' l Hrel H; cbn in H.
  - winv H. cbn. by rewrite extend_nil.
  - winv H. destruct (proj1 (stmts_ok _) _ _ _ _ _ _ Hrel E) as (Hok & _ & Hrel1).
    destruct (IH _ _ _ _ _ _ Hrel1 E0) as [Hok2 Hrel2]. cbn. by rewrite <- extend_app.
Qed.

Lemma seqOK_nodup ss : forall f,
  NoDup (map fst f) -> seqOK [f] ss -> NoDup (map fst (f ++ concat (map binds ss))).
Proof.
  induction ss as [|s ss IH]; intros f Hf Hs; cbn in *; [by rewrite app_nil_r|].
  destruct Hs as [Hok Hs]. rewrite app_assoc. apply IH; [|done].
  destruct s; cbn in *; rewrite ?app_nil_r; try done. destruct Hok as (_ & Hun & _).
  rewrite map_app. apply NoDup_app. split; [done|]. split; [|apply NoDup_singleton].
  intros x Hx Hin. apply list_elem_of_singleton in Hin. cbn in Hin. subst x.
  unfold whereIs in Hun. cbn in Hun. destruct (scanNames 0 f VarName) as [[]|] eqn:E; [done|].
  by apply scanNames_none in E.
Qed.

Lemma checkMethodNames_ok globals names ms l :
  frameRel globals names -> checkMethodNames globals ms = Ok (tt, l) ->
  Forall (fun m => method_Name m ∉ map fst names) ms.
Proof.
  intros [_ Hs]. revert l. induction ms as [|m ms IH]; intros l H; cbn in H; [constructor|].
  destruct (sf_slots globals !! method_Name m) eqn:E; [done|]. constructor; [|by eapply IH].
  apply (scanNames_none 0). by rewrite Hs, E.
Qed.

(** ** Methods *)

Lemma bindParams_ok name ps : forall i f names f' l,
  frameRel f names -> i = length names -> NoDup (map fst names) ->
  bindParams name i ps f = Ok (f', l) ->
  frameRel f' (names ++ map (fun p => (param_Name p, false)) ps) /\
  NoDup (map fst names ++ map param_Name ps) /\ sf_isRoot f' = sf_isRoot f.
Proof.
  induction ps as [|p ps IH]; intros i f names f' l Hf Hi Hn H; cbn in H.
  - winv H. cbn. by rewrite !app_nil_r.
  - destruct (sf_slots f !! param_Name p) eqn:E; [done|].
    set (info := mkSlot i false (namedTypeOf (param_Type p)) noPos) in H.
    assert (param_Name p ∉ map fst names) as Hnew.
    { apply (scanNames_none 0). destruct Hf as [_ Hs]. by rewrite Hs, E. }
    assert (S i = length (names ++ [(param_Name p, false)])) as Hi' by (rewrite length_app; cbn; lia).
    assert (NoDup (map fst (names ++ [(param_Name p, false)]))) as Hnd.
    { rewrite map_app. apply NoDup_app. split; [done|]. split; [|apply NoDup_singleton].
      intros x Hx Hin. apply list_elem_of_singleton in Hin. cbn in Hin. by subst x. }
    destruct (IH _ _ _ _ _ (frameRel_bind f names _ info Hf E Hi) Hi' Hnd H) as (Hf' & Hn' & Hr').
    rewrite <- app_assoc in Hf'. rewrite map_app, <- app_assoc in Hn'. done.
Qed.

Lemma markParams_names ps b : map param_Name (markBorrowableParams ps b) = map param_Name ps.
Proof. unfold markBorrowableParams. rewrite map_map. by apply map_ext. Qed.

Lemma resolveMethod_ok r globals names m m' l :
  frameRel globals names -> sf_isRoot globals = true -> method_Name m ∉ map fst names ->
  resolveMethod r globals m = Ok (m', l) -> methodOK names m' /\ method_Name m' = method_Name m.
Proof.
  intros Hg Hroot Hname H. unfold resolveMethod in H. winv H.
  destruct (bindParams_ok _ _ _ _ [] _ _ (frameRel_new true) eq_refl (NoDup_nil_2) E) as (Hf & Hn & Hr).
  unfold methodOK. cbn. rewrite markParams_names. split; [|done].
  split_and!; [done | done|].
  replace (map (fun p => (param_Name p, false)) (markBorrowableParams (method_Params m) a0))
    with (map (fun p => (param_Name p, false)) (method_Params m))
    by (unfold markBorrowableParams; rewrite map_map; by apply map_ext).
  assert (blockOK [[]; map (fun p => (param_Name p, false)) (method_Params m); names] a0) as Hok.
  { eapply (proj2 (stmts_ok r)); [|exact E0]. split.
    - apply List.Forall2_cons; [apply frameRel_new|]. apply List.Forall2_cons; [exact Hf|].
      apply List.Forall2_cons; [exact Hg | constructor].
    - cbn. rewrite Hr. right. eauto. }
  eapply core_blockOK; [|exact Hok]. unfold markBorrowableDefs. case_match; [done|].
  symmetry. apply core_markDef.
Qed.

Lemma markMethod_ok names own m : methodOK names m -> methodOK names (markMethod own m).
Proof.
  intros (Hn & Hm & Hb). split_and!; [done | done|]. eapply core_blockOK; [|exact Hb].
  cbn. rewrite core_stamp. symmetry. apply core_markMove.
Qed.

(** ** Programs *)

Lemma Forall_wmap {A} (f : A -> W A) (P : A -> Prop) (Q : A -> A -> Prop) l l' w :
  wmap f l = Ok (l', w) -> Forall P l -> (forall x x' u, P x -> f x = Ok (x', u) -> Q x x') -> Forall2 Q l l'.
Proof.
  intros H HP Hf. apply wmap_inv in H. revert HP. induction H as [|x x' l l' [u Hx] _ IH]; intros HP; [constructor|].
  apply Forall_cons in HP as [Hp HP]. constructor; [by eapply Hf | by apply IH].
Qed.


Definition sampleText : string :=
  "def const K as int init 1 + 2; def xs as list of int init [];
   def enum Shape { Dot, Disc { r as int } };
   func area(s as Shape, acc as list of int) {
     for (def i as int init 0; $i < K; $i = $i + 1) { def j as int init $i; $acc[] = $j * $i; }
     match ($s) { when Dot { return $acc; } when Disc(d) { $acc[] = $d.r; } }
     return $acc;
   }
   for (def e in $xs) { try { def k as int init $e; } catch (err) { throw $err; } }
   $xs = area(Shape.Dot, $xs);".

Definition sample : Program :=
  match @Parse limits_std 200 sampleText with
  | POk p _ => p
  | _ => Build_Program noPos [] [] [] [] [] [] 0
  end.

Definition enumsInOrder (m : gmap string EnumDef) : list EnumDef := map snd (map_to_list m).

