(* ===== verification/Environment.v ===== *)
(** * Scopes (internal/interpreter/environment.go)

    A frame has slot-indexed bindings in a pooled backing array ([backing], of
    which the first [nslots] are live, as in a Go slice) and a name map for the
    unresolved paths.  An environment is the chain of frames from the current one
    outwards: [parent] pointers become the tail of the list.  The call-depth and
    copied-bytes counters shared down a chain are kept beside it ([CallChain]). *)

From S2P Require Import Prelude GoInt Float64 Utf8 Types Value Ast.
Open Scope string_scope.
Open Scope Z_scope.
Open Scope go_scope.

(** ** Data *)

Record Binding := mkBinding {
  b_Value : Value;
  b_DeclType : Typ;
  b_IsConst : bool;
  b_Slot : Z;
  b_Name : string
}.

(** [Binding{}]. *)
Definition zeroBinding : Binding := mkBinding VNull TypeInvalid false 0 "".

(** [deferredCall]: the call with its arguments already evaluated. *)
Record deferredCall := { dc_Call : Expr; dc_OnError : bool }.

Record Frame := mkFrame {
  backing : list Binding;
  nslots : nat;
  vars : gmap string Binding;
  deferred : list deferredCall;
  frameBytes : Z;
  borrowDefs : bool
}.

Abbreviation Environment := (list Frame).

(** Counters of one call chain. *)
Record CallChain := mkChain { depthN : Z; chainBytes : Z }.

(** [e.slots]: the live part of the backing array. *)
Definition slots (f : Frame) : list Binding := take (nslots f) (backing f).

Definition setSlot (f : Frame) (i : nat) (b : Binding) : Frame :=
  mkFrame (<[i := b]> (backing f)) (nslots f) (vars f) (deferred f) (frameBytes f) (borrowDefs f).

Definition setVar (f : Frame) (name : string) (b : Binding) : Frame :=
  mkFrame (backing f) (nslots f) (<[name := b]> (vars f)) (deferred f) (frameBytes f)
    (borrowDefs f).

(** ** The frame pool *)

(** A pooled environment object: only its backing array survives a release. *)
Definition newPooled : Frame := mkFrame [] 0 ∅ [] 0 false.

(** [borrowBlockEnv] on the object the pool handed out. *)
Definition borrowBlockEnv (e : Frame) (parent : Environment) (numSlots : nat) : Frame :=
  let borrow := match parent with p :: _ => borrowDefs p | [] => false end in
  if (0 <? numSlots)%nat then
    if (numSlots <=? length (backing e))%nat
    then mkFrame (backing e) numSlots (vars e) (deferred e) (frameBytes e) borrow
    else mkFrame (replicate numSlots zeroBinding) numSlots (vars e) (deferred e)
           (frameBytes e) borrow
  else mkFrame (backing e) 0 (vars e) (deferred e) (frameBytes e) borrow.

(** [releaseBlockEnv]: the object put back, and the chain counter. *)
Definition releaseBlockEnv (e : Frame) (c : CallChain) : Frame * CallChain :=
  (mkFrame (replicate (length (slots e)) zeroBinding ++ drop (nslots e) (backing e)) 0
     ∅ [] 0 false,
   mkChain (depthN c) (if frameBytes e =? 0 then chainBytes c else chainBytes c - frameBytes e)).

(** The frame half of [accountCopy]: [n] bytes charged to the frame. *)
Definition chargeFrame (f : Frame) (n : Z) : Frame :=
  mkFrame (backing f) (nslots f) (vars f) (deferred f) (frameBytes f + n) (borrowDefs f).

Definition NewEnvironmentSized (parent : Environment) (numSlots : nat) : Frame :=
  mkFrame (replicate numSlots zeroBinding) numSlots ∅ [] 0
    (match parent with p :: _ => borrowDefs p | [] => false end).

Definition NewEnvironment (parent : Environment) : Frame := NewEnvironmentSized parent 0.

(** ** Lookup *)

(** The scan of [lookupLocal] over the slots. *)
Fixpoint slotScan (i : nat) (bs : list Binding) (name : string) : option (Binding * nat) :=
  match bs with
  | [] => None
  | b :: bs => if bool_decide (b_Name b = name) then Some (b, i) else slotScan (S i) bs name
  end.

(** [lookupLocal]: the binding and its slot ([None] for a name-map binding). *)
Definition lookupLocal (f : Frame) (name : string) : option (Binding * option nat) :=
  match slotScan 0 (slots f) name with
  | Some (b, i) => Some (b, Some i)
  | None =>
      match vars f !! name with
      | Some b => Some (b, None)
      | None => None
      end
  end.

Fixpoint existsInChain (env : Environment) (name : string) : bool :=
  match env with
  | [] => false
  | f :: env => match lookupLocal f name with Some _ => true | None => existsInChain env name end
  end.

Fixpoint GetBinding (env : Environment) (name : string) : result message Binding :=
  match env with
  | [] => Err (Sprintf "undefined %q" [AStr name])
  | f :: env =>
      match lookupLocal f name with
      | Some (b, _) => Ok b
      | None => GetBinding env name
      end
  end.

Fixpoint Get (env : Environment) (name : string) : result message Value :=
  match env with
  | [] => Err (Sprintf "undefined variable %q" [AStr name])
  | f :: env =>
      match lookupLocal f name with
      | Some (b, _) => Ok (b_Value b)
      | None => Get env name
      end
  end.

(** The walk of [depth] parent pointers: [None] when the chain is too short. *)
Definition frameAt (env : Environment) (depth : Z) : option Frame := env !! Z.to_nat depth.

(** A slot inside the live range. *)
Definition inSlots (f : Frame) (slot : Z) : bool :=
  (0 <=? slot) && (slot <? Z.of_nat (length (slots f))).

Definition GetBindingAt (env : Environment) (depth slot : Z) (name : string)
    : result message Binding :=
  match frameAt env depth with
  | None => Err (Sprintf "undefined %q" [AStr name])
  | Some cur =>
      if inSlots cur slot then Ok (default zeroBinding (slots cur !! Z.to_nat slot))
      else
        match vars cur !! name with
        | Some b => Ok b
        | None => Err (Sprintf "undefined %q" [AStr name])
        end
  end.

Definition GetAt (env : Environment) (depth slot : Z) (name : string) : result message Value :=
  match frameAt env depth with
  | None => Err (Sprintf "undefined variable %q" [AStr name])
  | Some cur =>
      if inSlots cur slot then Ok (b_Value (default zeroBinding (slots cur !! Z.to_nat slot)))
      else
        match vars cur !! name with
        | Some b => Ok (b_Value b)
        | None => Err (Sprintf "undefined variable %q" [AStr name])
        end
  end.

Definition getBindingRoot (env : Environment) (name : string) (depth slot : Z)
    : result message Binding :=
  if 0 <=? slot then GetBindingAt env depth slot name else GetBinding env name.

(** ** Definition *)

Definition alreadyDefined (name : string) : message :=
  Sprintf "name %q is already defined in an enclosing scope" [AStr name].

(** Growth of the slot slice: a fresh backing of [slot + 1] cells. *)
Definition growSlots (f : Frame) (slot : nat) : Frame :=
  if (slot <? length (slots f))%nat then f
  else mkFrame (slots f ++ replicate (S slot - length (slots f)) zeroBinding) (S slot) (vars f)
         (deferred f) (frameBytes f) (borrowDefs f).

Definition DefineAt (env : Environment) (slot : Z) (name : string) (val : Value)
    (declType : Typ) (isConst : bool) : result message Environment :=
  let b := mkBinding val declType isConst slot name in
  match env with
  | [] => Ok []
  | f :: rest =>
      if slot <? 0 then
        if existsInChain env name then Err (alreadyDefined name)
        else Ok (setVar f name b :: rest)
      else
        let s := Z.to_nat slot in
        Ok (setSlot (growSlots f s) s b :: rest)
  end.

Definition Define (env : Environment) (name : string) (val : Value)
    (declType : Typ) (isConst : bool) : result message Environment :=
  match env with
  | [] => Ok []
  | f :: rest =>
      if existsInChain env name then Err (alreadyDefined name)
      else Ok (setVar f name (mkBinding val declType isConst (-1) "") :: rest)
  end.

(** ** Assignment *)

Section Assign.
Variable h : Handles.

Definition withValue (b : Binding) (v : Value) : Binding :=
  mkBinding v (b_DeclType b) (b_IsConst b) (b_Slot b) (b_Name b).

(** The const and type checks shared by [Assign] and [AssignAt]. *)
Definition checkAssign (b : Binding) (name : string) (val : Value) : result message Binding :=
  if b_IsConst b then Err (Sprintf "cannot assign to constant %q" [AStr name])
  else if negb (MatchesDeclared h val (b_DeclType b)) then
    Err (Sprintf "cannot assign %s to %s variable %q"
      [AStr (ValueKind_String (kindOf val)); AStr (Type_String (b_DeclType b)); AStr name])
  else Ok (withValue b val).

Fixpoint Assign (env : Environment) (name : string) (val : Value) : result message Environment :=
  match env with
  | [] => Err (Sprintf "undefined variable %q" [AStr name])
  | f :: rest =>
      match lookupLocal f name with
      | Some (b, si) =>
          let? b' := checkAssign b name val in
          Ok ((match si with Some i => setSlot f i b' | None => setVar f name b' end) :: rest)
      | None =>
          let? rest' := Assign rest name val in
          Ok (f :: rest')
      end
  end.

Definition AssignAt (env : Environment) (depth slot : Z) (name : string) (val : Value)
    : result message Environment :=
  match frameAt env depth with
  | None => Err (Sprintf "undefined variable %q" [AStr name])
  | Some cur =>
      if inSlots cur slot then
        let b := default zeroBinding (slots cur !! Z.to_nat slot) in
        let? b' := checkAssign b name val in
        Ok (<[Z.to_nat depth := setSlot cur (Z.to_nat slot) b']> env)
      else Assign env name val
  end.

Definition assignRoot (env : Environment) (name : string) (depth slot : Z) (val : Value)
    : result message Environment :=
  if 0 <=? slot then AssignAt env depth slot name val else Assign env name val.
End Assign.

(** ** Spawn snapshots *)

(** A detached, name-based copy of a binding. *)
Definition detach (name : string) (b : Binding) : Binding :=
  mkBinding (Copy (b_Value b)) (b_DeclType b) (b_IsConst b) (-1) name.

Definition wanted (want : option (gset string)) (name : string) : bool :=
  match want with Some w => bool_decide (name ∈ w) | None => true end.

Fixpoint copySlots (bs : list Binding) (dst : gmap string Binding) (want : option (gset string))
    : gmap string Binding :=
  match bs with
  | [] => dst
  | b :: bs =>
      let dst :=
        if bool_decide (b_Name b = "") then dst
        else if negb (wanted want (b_Name b)) then dst
        else
          match dst !! b_Name b with
          | Some _ => dst
          | None => <[b_Name b := detach (b_Name b) b]> dst
          end in
      copySlots bs dst want
  end.

(** [copyBindingsFilteredInto]; [want = None] is Go's nil. *)
Definition copyBindingsFilteredInto (f : Frame) (dst : gmap string Binding)
    (want : option (gset string)) : gmap string Binding :=
  let dst := copySlots (slots f) dst want in
  dst ∪ map_imap (fun name b => if wanted want name then Some (detach name b) else None) (vars f).

Definition copyBindingsInto (f : Frame) (dst : gmap string Binding) : gmap string Binding :=
  copyBindingsFilteredInto f dst None.

(** [effectiveGlobal]: the outermost frame of the chain. *)
Definition effectiveGlobal (env : Environment) : option Frame := last env.

(** The frames of a chain below its root. *)
Definition localFrames (env : Environment) : list Frame := take (length env - 1) env.

Definition emptyNamed (m : gmap string Binding) : Frame := mkFrame [] 0 m [] 0 false.

(** [snapshotForSpawn]: the detached two-frame environment of a spawn body. *)
Definition snapshotForSpawn (env : Environment) (caps : option SpawnCaptures) : Environment :=
  let want : option (gset string) :=
    match caps with
    | Some c => if AllGlobals c then None else Some (list_to_set (Globals c))
    | None => None
    end in
  let globals :=
    match effectiveGlobal env with
    | Some root => copyBindingsFilteredInto root ∅ want
    | None => ∅
    end in
  let locals := fold_left (fun dst f => copyBindingsInto f dst) (localFrames env) ∅ in
  [emptyNamed locals; emptyNamed globals].
