(* ===== verification/EnvFacts.v ===== *)
(** * Properties of scopes

    Reads see the last write; constants never change and typed bindings never
    hold a value of another type; the resolver's (depth, slot) addressing agrees
    with name lookup; a spawn snapshot holds deep copies of exactly the visible
    bindings; and the frame pool never leaks a binding from one use to the next,
    with the recursion-memory counter balanced. *)

From S2P Require Import Prelude GoInt Float64 Utf8 Types Value Ast Environment.
Open Scope string_scope.
Open Scope list_scope.
Open Scope Z_scope.
Open Scope go_scope.

(** ** Frames *)

(** The backing array past the live slots is zeroed. *)
Definition frameOK (f : Frame) : Prop :=
  (nslots f <= length (backing f))%nat /\ Forall (eq zeroBinding) (drop (nslots f) (backing f)).

Lemma slots_length f : frameOK f -> length (slots f) = nslots f.
Proof. intros [H _]. unfold slots. rewrite length_take. lia. Qed.

Lemma slots_setSlot f i b : (i < nslots f)%nat -> slots (setSlot f i b) = <[i := b]> (slots f).
Proof. intros. unfold slots. simpl. by rewrite take_insert_lt. Qed.

Lemma setSlot_OK f i b : frameOK f -> (i < nslots f)%nat -> frameOK (setSlot f i b).
Proof.
  intros [Hl Hz] Hi. split; simpl; [by rewrite length_insert | ].
  by rewrite drop_insert_lt by lia.
Qed.

Lemma growSlots_OK f s : frameOK f -> frameOK (growSlots f s) /\ (s < nslots (growSlots f s))%nat.
Proof.
  intros Hf. unfold growSlots. rewrite (slots_length f Hf).
  destruct (Nat.ltb_spec s (nslots f)); [done | ]. simpl. split; [ | lia]. split; simpl.
  - rewrite length_app, length_replicate, (slots_length f Hf). lia.
  - rewrite drop_ge; [constructor | ]. rewrite length_app, length_replicate, (slots_length f Hf). lia.
Qed.

Lemma setVar_OK f n b : frameOK f -> frameOK (setVar f n b).
Proof. done. Qed.

Lemma growSlots_lookup f s i b :
  frameOK f -> slots f !! i = Some b -> slots (growSlots f s) !! i = Some b.
Proof.
  intros Hf Hi. unfold growSlots. split_if; [done | ]. unfold slots at 1. simpl.
  apply lookup_lt_Some in Hi as Hlt. rewrite take_ge.
  - by rewrite lookup_app_l.
  - rewrite length_app, length_replicate. apply Nat.ltb_ge in Heqb0. lia.
Qed.

(** ** The frame pool *)

(** What a borrowed frame must look like. *)
Definition clean (f : Frame) (n : nat) : Prop :=
  slots f = replicate n zeroBinding /\ vars f = ∅ /\ deferred f = [] /\ frameBytes f = 0.

(** An object in the pool. *)
Definition pooledOK (e : Frame) : Prop :=
  frameOK e /\ nslots e = 0%nat /\ vars e = ∅ /\ deferred e = [] /\ frameBytes e = 0.

Lemma newPooled_OK : pooledOK newPooled.
Proof. by repeat split; try constructor. Qed.

Lemma Forall_zero_replicate (l : list Binding) :
  Forall (eq zeroBinding) l -> l = replicate (length l) zeroBinding.
Proof. induction 1 as [ | b l <- _ IH]; simpl; [done | ]. by rewrite <- IH. Qed.

Lemma borrow_clean e parent n : pooledOK e -> clean (borrowBlockEnv e parent n) n.
Proof.
  intros ([Hl Hz] & Hn & Hv & Hd & Hb). rewrite Hn, drop_0 in Hz.
  unfold borrowBlockEnv. destruct (Nat.ltb_spec 0 n).
  - destruct (Nat.leb_spec n (length (backing e))).
    + repeat split; try done. unfold slots. simpl.
      rewrite (Forall_zero_replicate _ Hz), take_replicate. f_equal. lia.
    + repeat split; try done. unfold slots. simpl. rewrite take_ge; [done | ].
      rewrite length_replicate. lia.
  - repeat split; try done. replace n with 0%nat by lia. done.
Qed.

Lemma borrow_OK e parent n : pooledOK e -> frameOK (borrowBlockEnv e parent n).
Proof.
  intros ([Hl Hz] & Hn & _). rewrite Hn, drop_0 in Hz. unfold borrowBlockEnv, frameOK.
  destruct (Nat.ltb_spec 0 n); [destruct (Nat.leb_spec n (length (backing e))) | ]; simpl.
  - split; [done | ]. by apply Forall_drop.
  - rewrite length_replicate. split; [done | ]. by rewrite drop_ge; [constructor | rewrite length_replicate].
  - rewrite drop_0. split; [lia | done].
Qed.

Lemma release_OK f c : frameOK f -> pooledOK (fst (releaseBlockEnv f c)).
Proof.
  intros [Hl Hz]. unfold releaseBlockEnv, pooledOK, frameOK. simpl. rewrite drop_0.
  repeat split; try done; [lia | ]. apply Forall_app. split; [ | done].
  apply Forall_replicate. done.
Qed.

(** What running code does to a live frame. *)
Inductive frameUpd : Frame -> Frame -> Prop :=
  | upd_slot f i b : (i < nslots f)%nat -> frameUpd f (setSlot f i b)
  | upd_grow f s : frameUpd f (growSlots f s)
  | upd_var f n b : frameUpd f (setVar f n b)
  | upd_defer f d :
      frameUpd f (mkFrame (backing f) (nslots f) (vars f) d (frameBytes f) (borrowDefs f)).

Lemma frameUpd_OK f f' : frameUpd f f' -> frameOK f -> frameOK f' /\ frameBytes f' = frameBytes f.
Proof.
  intros [g i b Hi | g s | g n b | g d] Hf; try done.
  - split; [by apply setSlot_OK | done].
  - split; [by apply growSlots_OK | ]. unfold growSlots. by split_if.
Qed.

(** The pool, the live frames of one call chain, and its counters. *)
Record PoolState := mkPool { pool : list Frame; live : list Frame; chain : CallChain }.

Inductive poolStep : PoolState -> PoolState -> Prop :=
  | step_borrow_pooled e p1 p2 l c parent n :
      poolStep (mkPool (p1 ++ e :: p2) l c)
               (mkPool (p1 ++ p2) (borrowBlockEnv e parent n :: l) c)
  | step_borrow_new p l c parent n :
      poolStep (mkPool p l c) (mkPool p (borrowBlockEnv newPooled parent n :: l) c)
  | step_update p l1 f f' l2 c :
      frameUpd f f' -> poolStep (mkPool p (l1 ++ f :: l2) c) (mkPool p (l1 ++ f' :: l2) c)
  | step_charge p l1 f l2 c n :
      poolStep (mkPool p (l1 ++ f :: l2) c)
               (mkPool p (l1 ++ chargeFrame f n :: l2)
                  (mkChain (depthN c) (chainBytes c + n)))
  | step_release p f l c :
      poolStep (mkPool p (f :: l) c)
               (let '(e, c') := releaseBlockEnv f c in mkPool (e :: p) l c').

Definition sumBytes (l : list Frame) : Z := foldr (fun f n => frameBytes f + n) 0 l.

Definition poolInv (s : PoolState) : Prop :=
  Forall pooledOK (pool s) /\ Forall frameOK (live s) /\ chainBytes (chain s) = sumBytes (live s).

Lemma sumBytes_app a b : sumBytes (a ++ b) = sumBytes a + sumBytes b.
Proof. unfold sumBytes. induction a as [ | f a IH]; simpl; lia. Qed.

Lemma sumBytes_cons f l : sumBytes (f :: l) = frameBytes f + sumBytes l.
Proof. done. Qed.

#[local] Arguments sumBytes : simpl never.

Lemma borrow_frameBytes e parent n : frameBytes (borrowBlockEnv e parent n) = frameBytes e.
Proof. unfold borrowBlockEnv. by repeat split_if. Qed.

Lemma poolStep_inv s s' : poolStep s s' -> poolInv s -> poolInv s'.
Proof.
  intros [e p1 p2 l c parent n | p l c parent n | p l1 f f' l2 c Hu | p l1 f l2 c n | p f l c]
    (Hp & Hl & Hc); simpl in *.
  - apply Forall_app in Hp as [Hp1 Hp2]. apply Forall_cons in Hp2 as [He Hp2].
    split; [by apply Forall_app | ]. split; [constructor; [by apply borrow_OK | done] | ].
    simpl. rewrite sumBytes_cons, borrow_frameBytes, Hc. destruct He as (_ & _ & _ & _ & ->). lia.
  - split; [done | ]. split; [constructor; [apply borrow_OK, newPooled_OK | done] | ].
    simpl. rewrite sumBytes_cons, borrow_frameBytes. simpl. lia.
  - apply Forall_app in Hl as [Hl1 Hl2]. apply Forall_cons in Hl2 as [Hf Hl2].
    destruct (frameUpd_OK f f' Hu Hf) as [Hf' Eb].
    split; [done | ]. split; [by apply Forall_app; split; [ | constructor] | ].
    simpl. rewrite sumBytes_app, sumBytes_cons in *. by rewrite Eb.
  - apply Forall_app in Hl as [Hl1 Hl2]. apply Forall_cons in Hl2 as [Hf Hl2].
    split; [done | ]. split; [by apply Forall_app; split; [ | constructor] | ].
    simpl. rewrite sumBytes_app, sumBytes_cons in *. simpl. lia.
  - apply Forall_cons in Hl as [Hf Hl]. split; [by constructor; [apply (release_OK f c) | ] | ].
    split; [done | ]. simpl. rewrite sumBytes_cons in Hc.
    destruct (Z.eqb_spec (frameBytes f) 0); lia.
Qed.

(** Reachable from an empty pool with no live frame. *)
Inductive poolReach : PoolState -> Prop :=
  | reach_init : poolReach (mkPool [] [] (mkChain 0 0))
  | reach_step s s' : poolReach s -> poolStep s s' -> poolReach s'.

Lemma poolReach_inv s : poolReach s -> poolInv s.
Proof.
  induction 1 as [ | s s' _ IH Hs]; [by repeat split; try constructor | by eapply poolStep_inv].
Qed.

(** ** Assignment writes one binding *)

(** Where a binding lives: a slot or a name of the [i]-th frame outwards. *)
Inductive cell := Slot (i : nat) (s : nat) | Name (i : nat) (n : string).

#[export] Instance cell_eq_dec : EqDecision cell.
Proof. solve_decision. Defined.

Definition bindingAt (env : Environment) (c : cell) : option Binding :=
  match c with
  | Slot i s => f ← env !! i; slots f !! s
  | Name i n => f ← env !! i; vars f !! n
  end.

Definition shiftCell (c : cell) : cell :=
  match c with Slot i s => Slot (S i) s | Name i n => Name (S i) n end.

Definition envOK (env : Environment) : Prop := Forall frameOK env.

Lemma slotScan_spec k bs name b i :
  slotScan k bs name = Some (b, i) ->
  (k <= i)%nat /\ bs !! (i - k)%nat = Some b /\ b_Name b = name /\
  forall j b', (j < i - k)%nat -> bs !! j = Some b' -> b_Name b' <> name.
Proof.
  revert k. induction bs as [ | c bs IH]; intros k; simpl; [done | ].
  case_bool_decide as Hc.
  - intros [= <- <-]. rewrite Nat.sub_diag. repeat split; try done; lia.
  - intros H. apply IH in H as (Hle & Hl & Hn & Hj). split; [lia | ].
    replace (i - k)%nat with (S (i - S k)) by lia. repeat split; try done.
    intros [ | j] b' Hlt Hb'; [by injection Hb' as <- | ]. apply (Hj j); [lia | done].
Qed.

Lemma slotScan_None k bs name :
  slotScan k bs name = None <-> Forall (fun b => b_Name b <> name) bs.
Proof.
  revert k. induction bs as [ | c bs IH]; intros k; simpl; [by split | ].
  case_bool_decide as Hc.
  - split; [done | ]. intros H. by apply Forall_cons in H as [? _].
  - rewrite IH, Forall_cons. tauto.
Qed.

Definition localCell (name : string) (si : option nat) : cell :=
  match si with Some s => Slot 0 s | None => Name 0 name end.

Lemma lookupLocal_cell f env name b si :
  lookupLocal f name = Some (b, si) -> bindingAt (f :: env) (localCell name si) = Some b.
Proof.
  unfold lookupLocal. destruct (slotScan 0 (slots f) name) as [[b' i] | ] eqn:E.
  - intros [= -> <-]. apply slotScan_spec in E as (_ & E & _). by rewrite Nat.sub_0_r in E.
  - destruct (vars f !! name) eqn:Ev; [ | done]. by intros [= -> <-].
Qed.

Lemma slots_lt f s b : frameOK f -> slots f !! s = Some b -> (s < nslots f)%nat.
Proof. intros Hf H. apply lookup_lt_Some in H. by rewrite slots_length in H. Qed.

(** Writing a cell of the first frame. *)
Definition writeLocal (f : Frame) (name : string) (si : option nat) (b : Binding) : Frame :=
  match si with Some i => setSlot f i b | None => setVar f name b end.

Lemma writeLocal_spec f env name si b b' :
  frameOK f -> bindingAt (f :: env) (localCell name si) = Some b ->
  frameOK (writeLocal f name si b') /\
  forall c, bindingAt (writeLocal f name si b' :: env) c =
    if decide (c = localCell name si) then Some b' else bindingAt (f :: env) c.
Proof.
  intros Hf Hb. destruct si as [s | ]; simpl in Hb.
  - pose proof (slots_lt _ _ _ Hf Hb) as Hs. split; [by apply setSlot_OK | ].
    intros c. destruct (decide (c = localCell name (Some s))) as [-> | Hne]; simpl in *.
    + rewrite slots_setSlot by done. apply list_lookup_insert_eq. by apply lookup_lt_Some in Hb.
    + destruct c as [[ | i] s' | [ | i] n]; try done. simpl. rewrite slots_setSlot by done.
      apply list_lookup_insert_ne. congruence.
  - split; [done | ]. intros c.
    destruct (decide (c = localCell name None)) as [-> | Hne]; simpl in *.
    + apply lookup_insert_eq.
    + destruct c as [[ | i] s' | [ | i] n]; try done. simpl. apply lookup_insert_ne. congruence.
Qed.

Section Assignment.
Variable h : Handles.

(** The effect of a successful assignment on the whole chain. *)
Definition assigns (env env' : Environment) (c : cell) (b : Binding) (val : Value) : Prop :=
  bindingAt env c = Some b /\ b_IsConst b = false /\
  MatchesDeclared h val (b_DeclType b) = true /\
  (forall c', bindingAt env' c' = if decide (c' = c) then Some (withValue b val) else bindingAt env c') /\
  envOK env' /\ length env' = length env.

Lemma checkAssign_Ok b name val b' :
  checkAssign h b name val = Ok b' ->
  b_IsConst b = false /\ MatchesDeclared h val (b_DeclType b) = true /\ b' = withValue b val.
Proof.
  unfold checkAssign. destruct (b_IsConst b); [done | ].
  destruct (MatchesDeclared _ _ _); simpl; [ | done]. by intros [= <-].
Qed.

Lemma bindingAt_cons f env c : bindingAt (f :: env) (shiftCell c) = bindingAt env c.
Proof. by destruct c. Qed.

Lemma cell_cases (c : cell) : (exists c0, c = shiftCell c0) \/ (exists s, c = Slot 0 s) \/ exists n, c = Name 0 n.
Proof.
  destruct c as [[ | i] s | [ | i] n]; [right; left; eauto | left; by exists (Slot i s) | right; right; eauto | left; by exists (Name i n)].
Qed.

Lemma shiftCell_inj c c' : shiftCell c = shiftCell c' -> c = c'.
Proof. destruct c, c'; simpl; congruence. Qed.

Lemma assigns_cons f env env' c b val :
  frameOK f -> assigns env env' c b val -> assigns (f :: env) (f :: env') (shiftCell c) b val.
Proof.
  intros Hf (H1 & H2 & H3 & H4 & H5 & H6). unfold assigns. rewrite bindingAt_cons.
  do 3 (split; [done | ]). split; [ | split; [by constructor | simpl; lia]].
  intros c'. destruct (cell_cases c') as [[c0 ->] | [[s ->] | [n ->]]].
  - rewrite !bindingAt_cons, H4. destruct (decide (c0 = c)) as [-> | Hne].
    + by rewrite decide_True.
    + rewrite decide_False; [done | ]. by intros E%shiftCell_inj.
  - rewrite decide_False by (destruct c; simpl; congruence). done.
  - rewrite decide_False by (destruct c; simpl; congruence). done.
Qed.

Lemma Assign_spec env name val env' :
  envOK env -> Assign h env name val = Ok env' -> exists c b, assigns env env' c b val.
Proof.
  revert env'. induction env as [ | f env IH]; intros env' Hok; simpl; [done | ].
  apply Forall_cons in Hok as [Hf Hok].
  destruct (lookupLocal f name) as [[b si] | ] eqn:El; intros H; apply rbind_Ok_inv in H as (r & H & [= <-]).
  - apply checkAssign_Ok in H as (Hc & Hm & ->).
    pose proof (lookupLocal_cell f env name b si El) as Hb.
    destruct (writeLocal_spec f env name si b (withValue b val) Hf Hb) as [Hok' Hw].
    exists (localCell name si), b. do 3 (split; [done | ]).
    split; [exact Hw | ]. split; [by constructor | done].
  - destruct (IH r Hok H) as (c & b & Ha). exists (shiftCell c), b. by apply assigns_cons.
Qed.

Lemma AssignAt_spec env depth slot name val env' :
  envOK env -> AssignAt h env depth slot name val = Ok env' ->
  exists c b, assigns env env' c b val.
Proof.
  intros Hok. unfold AssignAt, frameAt. destruct (env !! Z.to_nat depth) as [cur | ] eqn:Ec; [ | done].
  destruct (inSlots cur slot) eqn:Ei; [ | by apply Assign_spec].
  intros H. apply rbind_Ok_inv in H as (b' & H & [= <-]).
  unfold inSlots in Ei. b2p. destruct (slots cur !! Z.to_nat slot) as [b | ] eqn:Eb.
  2: { apply lookup_ge_None in Eb. lia. }
  simpl in H. apply checkAssign_Ok in H as (Hc & Hm & ->).
  pose proof (Forall_lookup_1 _ _ _ _ Hok Ec) as Hf. simpl in Hf.
  pose proof (slots_lt _ _ _ Hf Eb) as Hs. pose proof (lookup_lt_Some _ _ _ Ec) as Hd.
  exists (Slot (Z.to_nat depth) (Z.to_nat slot)), b.
  split; [by simpl; rewrite Ec | ]. do 2 (split; [done | ]). split; [ | split].
  - intros c. destruct (decide (c = Slot (Z.to_nat depth) (Z.to_nat slot))) as [-> | Hne]; simpl.
    { rewrite list_lookup_insert_eq by done. simpl. rewrite slots_setSlot by done.
      apply list_lookup_insert_eq. by apply lookup_lt_Some in Eb. }
    destruct c as [i s | i n]; simpl; destruct (decide (i = Z.to_nat depth)) as [-> | Hi];
      try (by rewrite list_lookup_insert_ne by done);
      rewrite list_lookup_insert_eq, Ec by done; simpl; [ | done].
    rewrite slots_setSlot by done. apply list_lookup_insert_ne. congruence.
  - apply Forall_insert; [done | ]. by apply setSlot_OK.
  - by rewrite length_insert.
Qed.

End Assignment.

(** ** Reading back *)

Lemma slotScan_insert k bs name b i b' :
  slotScan k bs name = Some (b, i) -> b_Name b' = name ->
  slotScan k (<[(i - k)%nat := b']> bs) name = Some (b', i).
Proof.
  revert k. induction bs as [ | c bs IH]; intros k; simpl; [done | ].
  case_bool_decide as Hc.
  - intros [= <- <-] Hn. rewrite Nat.sub_diag. simpl. by rewrite bool_decide_true.
  - intros H Hn. apply slotScan_spec in H as Hs. destruct Hs as (Hle & _).
    replace (i - k)%nat with (S (i - S k)) by lia. simpl. rewrite bool_decide_false by done. by apply IH.
Qed.

Lemma lookupLocal_write f name b si val :
  frameOK f -> lookupLocal f name = Some (b, si) ->
  lookupLocal (writeLocal f name si (withValue b val)) name = Some (withValue b val, si).
Proof.
  intros Hf. unfold lookupLocal. destruct (slotScan 0 (slots f) name) as [[b0 i] | ] eqn:E.
  - intros [= -> <-]. apply slotScan_spec in E as Hs. destruct Hs as (_ & Hi & Hn & _).
    rewrite Nat.sub_0_r in Hi. pose proof (slots_lt _ _ _ Hf Hi) as Hlt. simpl.
    rewrite slots_setSlot by done.
    pose proof (slotScan_insert 0 _ _ _ _ (withValue b val) E Hn) as Hins. rewrite Nat.sub_0_r in Hins.
    by rewrite Hins.
  - destruct (vars f !! name) eqn:Ev; [ | done]. intros [= -> <-]. simpl.
    unfold slots at 1. simpl. fold (slots f). by rewrite E, lookup_insert_eq.
Qed.

Lemma Assign_GetBinding h env name val env' :
  envOK env -> Assign h env name val = Ok env' ->
  exists b, GetBinding env name = Ok b /\ GetBinding env' name = Ok (withValue b val).
Proof.
  revert env'. induction env as [ | f env IH]; intros env' Hok; simpl; [done | ].
  apply Forall_cons in Hok as [Hf Hok].
  destruct (lookupLocal f name) as [[b si] | ] eqn:El; intros H; apply rbind_Ok_inv in H as (r & H & [= <-]).
  - apply checkAssign_Ok in H as (Hc & Hm & ->). exists b. split; [done | ].
    pose proof (lookupLocal_write f name b si val Hf El) as Hw. unfold writeLocal in Hw.
    cbn [GetBinding]. by rewrite Hw.
  - cbn [GetBinding]. rewrite El. by apply IH.
Qed.

(** ** Names *)

(** The name a cell is found under. *)
Definition named (env : Environment) (c : cell) (name : string) : Prop :=
  exists b, bindingAt env c = Some b /\
  match c with Slot _ _ => b_Name b = name | Name _ n => n = name end.

(** No two bindings of the chain share a name. *)
Definition noShadow (env : Environment) : Prop :=
  forall c c' name, name <> "" -> named env c name -> named env c' name -> c = c'.

Lemma lookupLocal_None f env name :
  lookupLocal f name = None -> forall c, named (f :: env) c name -> exists c0, c = shiftCell c0 /\ named env c0 name.
Proof.
  unfold lookupLocal. destruct (slotScan 0 (slots f) name) as [[] | ] eqn:E; [done | ].
  destruct (vars f !! name) eqn:Ev; [done | ]. intros _ c (b & Hb & Hn).
  destruct (cell_cases c) as [[c0 ->] | [[s ->] | [n ->]]].
  - exists c0. split; [done | ]. exists b. rewrite bindingAt_cons in Hb. by destruct c0.
  - apply slotScan_None in E. simpl in Hb. by destruct (Forall_lookup_1 _ _ _ _ E Hb).
  - simpl in Hb, Hn. subst. congruence.
Qed.

Lemma lookupLocal_named f env name b si :
  lookupLocal f name = Some (b, si) -> named (f :: env) (localCell name si) name.
Proof.
  intros H. exists b. split; [by apply lookupLocal_cell | ]. revert H. unfold lookupLocal.
  destruct (slotScan 0 (slots f) name) as [[b0 i] | ] eqn:E.
  - intros [= -> <-]. by apply slotScan_spec in E as (_ & _ & ? & _).
  - destruct (vars f !! name); [ | done]. by intros [= -> <-].
Qed.

Lemma named_shift f env c name : named env c name -> named (f :: env) (shiftCell c) name.
Proof. intros (b & Hb & Hn). exists b. rewrite bindingAt_cons. by destruct c. Qed.

Lemma GetBinding_named env name b :
  GetBinding env name = Ok b -> exists c, named env c name /\ bindingAt env c = Some b.
Proof.
  induction env as [ | f env IH]; simpl; [done | ].
  destruct (lookupLocal f name) as [[b0 si] | ] eqn:El.
  - intros [= ->]. exists (localCell name si).
    split; [by eapply lookupLocal_named | by apply lookupLocal_cell].
  - intros H. destruct (IH H) as (c & Hn & Hb). exists (shiftCell c).
    split; [by apply named_shift | by rewrite bindingAt_cons].
Qed.

Lemma named_GetBinding env c name : named env c name -> exists b, GetBinding env name = Ok b.
Proof.
  revert c. induction env as [ | f env IH]; intros c Hn.
  - destruct Hn as (b & Hb & _). by destruct c.
  - simpl. destruct (lookupLocal f name) as [[b0 si] | ] eqn:El; [by eexists | ].
    destruct (lookupLocal_None f env name El c Hn) as (c0 & _ & Hn0). by eapply IH.
Qed.

Lemma existsInChain_spec env name : existsInChain env name = false <-> forall c, ~ named env c name.
Proof.
  assert (existsInChain env name = match GetBinding env name with Ok _ => true | Err _ => false end) as ->.
  { induction env as [ | f env IH]; simpl; [done | ]. by destruct (lookupLocal f name) as [[] | ]. }
  destruct (GetBinding env name) eqn:E; split; try done.
  - intros H. apply GetBinding_named in E as (c & Hn & _). by destruct (H c).
  - intros _ c Hn. apply named_GetBinding in Hn as [b Hb]. congruence.
Qed.

Lemma Get_GetBinding env name :
  Get env name = match GetBinding env name with
                 | Ok b => Ok (b_Value b)
                 | Err _ => Err (Sprintf "undefined variable %q" [AStr name])
                 end.
Proof. induction env as [ | f env IH]; simpl; [done | ]. by destruct (lookupLocal f name) as [[] | ]. Qed.

Lemma named_setVar f env name b c n :
  named (setVar f name b :: env) c n ->
  named (f :: env) c n \/ (c = Name 0 name /\ n = name).
Proof.
  intros (b' & Hb & Hn). destruct (decide (c = Name 0 name)) as [-> | Hne].
  - right. by split.
  - left. exists b'. split; [ | done]. destruct c as [[ | i] s | [ | i] m]; try done.
    simpl in *. rewrite lookup_insert_ne in Hb by congruence. done.
Qed.

(** Adding a fresh name keeps names unique. *)
Lemma noShadow_setVar f env name b :
  noShadow (f :: env) -> existsInChain (f :: env) name = false -> noShadow (setVar f name b :: env).
Proof.
  intros Hs Hex c c' n Hne Hc Hc'. rewrite existsInChain_spec in Hex.
  apply named_setVar in Hc as [Hc | [-> ->]]; apply named_setVar in Hc' as [Hc' | [-> Hn]].
  - by apply (Hs c c' n).
  - subst. by destruct (Hex c).
  - by destruct (Hex c').
  - done.
Qed.

(** ** Spawn snapshots *)

Section Snapshot.

Lemma copySlots_lookup bs dst want name :
  name <> "" ->
  copySlots bs dst want !! name =
  match dst !! name with
  | Some b => Some b
  | None =>
      if wanted want name then
        match slotScan 0 bs name with Some (b, _) => Some (detach name b) | None => None end
      else None
  end.
Proof.
  intros Hne. generalize 0%nat. revert dst. induction bs as [ | b bs IH]; intros dst k; simpl.
  { destruct (dst !! name); [done | ]. by destruct (wanted want name). }
  rewrite (IH _ (S k)). case_bool_decide as He; simpl.
  { rewrite (bool_decide_false (b_Name b = name)) by congruence. done. }
  case_bool_decide as Hn.
  - subst name. destruct (wanted want (b_Name b)) eqn:Ew; simpl; [ | by destruct (dst !! b_Name b)].
    destruct (dst !! b_Name b) as [b0 | ] eqn:Ed; [by rewrite Ed | ]. by rewrite lookup_insert_eq.
  - assert ((if negb (wanted want (b_Name b)) then dst
             else match dst !! b_Name b with Some _ => dst | None => <[b_Name b := detach (b_Name b) b]> dst end)
            !! name = dst !! name) as ->; [ | done].
    destruct (negb _); [done | ]. destruct (dst !! b_Name b); [done | ]. by apply lookup_insert_ne.
Qed.

Lemma copyBindings_lookup f dst want name :
  name <> "" ->
  copyBindingsFilteredInto f dst want !! name =
  match dst !! name with
  | Some b => Some b
  | None =>
      if wanted want name then
        match lookupLocal f name with Some (b, _) => Some (detach name b) | None => None end
      else None
  end.
Proof.
  intros Hne. unfold copyBindingsFilteredInto, lookupLocal.
  rewrite lookup_union, copySlots_lookup by done. rewrite map_lookup_imap.
  destruct (dst !! name) as [b | ].
  { by destruct (vars f !! name); simpl; [destruct (wanted want name) | ]. }
  destruct (wanted want name) eqn:Ew; destruct (slotScan 0 (slots f) name) as [[b i] | ];
    destruct (vars f !! name); simpl; by rewrite ?Ew.
Qed.

Lemma fold_copy_lookup fs dst name :
  name <> "" ->
  fold_left (fun dst f => copyBindingsInto f dst) fs dst !! name =
  match dst !! name with
  | Some b => Some b
  | None => match GetBinding fs name with Ok b => Some (detach name b) | Err _ => None end
  end.
Proof.
  intros Hne. revert dst. induction fs as [ | f fs IH]; intros dst; simpl.
  { by destruct (dst !! name). }
  rewrite IH. unfold copyBindingsInto. rewrite copyBindings_lookup by done. cbn [wanted].
  destruct (dst !! name); [done | ]. by destruct (lookupLocal f name) as [[] | ].
Qed.

Lemma GetBinding_app a b name :
  GetBinding (a ++ b) name = match GetBinding a name with Ok r => Ok r | Err _ => GetBinding b name end.
Proof. induction a as [ | f a IH]; simpl; [done | ]. by destruct (lookupLocal f name) as [[] | ]. Qed.

Lemma emptyNamed_lookup m name :
  lookupLocal (emptyNamed m) name = match m !! name with Some b => Some (b, None) | None => None end.
Proof. done. Qed.

Lemma chain_split (env : Environment) root :
  last env = Some root -> env = localFrames env ++ [root].
Proof.
  intros H. apply last_Some in H as [l ->]. unfold localFrames.
  rewrite length_app. simpl. replace (length l + 1 - 1)%nat with (length l) by lia.
  by rewrite take_app_length.
Qed.

Lemma snapshot_GetBinding env root caps name :
  name <> "" -> last env = Some root ->
  (forall c, caps = Some c -> AllGlobals c = false -> name ∉ Globals c ->
     existsInChain [root] name = false) ->
  GetBinding (snapshotForSpawn env caps) name =
  match GetBinding env name with
  | Ok b => Ok (detach name b)
  | Err e => Err e
  end.
Proof.
  intros Hne Hl Hcaps. unfold snapshotForSpawn, effectiveGlobal. rewrite Hl.
  set (want := match caps with Some c => _ | None => None end).
  rewrite (chain_split env root Hl) at 2. rewrite GetBinding_app. cbn [GetBinding].
  rewrite !emptyNamed_lookup, fold_copy_lookup by done. rewrite lookup_empty.
  destruct (GetBinding (localFrames env) name) as [b | e]; [done | ].
  rewrite copyBindings_lookup, lookup_empty by done.
  destruct (wanted want name) eqn:Ew; [by destruct (lookupLocal root name) as [[] | ] | ].
  assert (existsInChain [root] name = false) as Hex.
  { subst want. destruct caps as [c | ]; [ | done]. destruct (AllGlobals c) eqn:Ea; [done | ].
    simpl in Ew. apply bool_decide_eq_false in Ew. apply (Hcaps c); [done | done | ].
    intros Hin. apply Ew. by apply elem_of_list_to_set. }
  simpl in Hex. by destruct (lookupLocal root name) as [[] | ].
Qed.

End Snapshot.

(** ** Theorems *)

(** C11: the frame pool does not leak.  In every state reachable by borrowing,
    using, charging and releasing frames in any order, a frame the pool hands out
    has exactly the requested number of zero bindings, no named binding, no
    deferred call and no charged bytes, and the chain's copied-bytes counter equals
    the sum charged to the live frames. *)
Theorem pool_frames_clean (s : PoolState) (e : Frame) (parent : Environment) (n : nat)
    (Hr : poolReach s) (He : e ∈ pool s \/ e = newPooled) :
  clean (borrowBlockEnv e parent n) n /\ chainBytes (chain s) = sumBytes (live s).
Proof.
  destruct (poolReach_inv s Hr) as (Hp & _ & Hc). split; [ | done]. apply borrow_clean.
  destruct He as [He | ->]; [ | apply newPooled_OK]. by rewrite Forall_forall in Hp; auto.
Qed.

(** An assignment changes one binding, and only if it may.  When
    [assignRoot] (by slot or by name) succeeds, exactly one binding of the chain
    holds the new value, that binding is not a constant and its declared type
    matches the value; every other binding, in particular every constant, is
    unchanged. *)
Theorem assign_one_binding (h : Handles) (env env' : Environment) (name : string)
    (depth slot : Z) (val : Value) (Hok : envOK env)
    (H : assignRoot h env name depth slot val = Ok env') :
  exists c b,
    bindingAt env c = Some b /\ b_IsConst b = false /\
    MatchesDeclared h val (b_DeclType b) = true /\
    bindingAt env' c = Some (withValue b val) /\
    forall c', c' <> c -> bindingAt env' c' = bindingAt env c'.
Proof.
  assert (exists c b, assigns h env env' c b val) as (c & b & H1 & H2 & H3 & H4 & _).
  { unfold assignRoot in H. split_if_in H; [by eapply AssignAt_spec | by eapply Assign_spec]. }
  exists c, b. do 3 (split; [done | ]). split; [by rewrite H4, decide_True | ].
  intros c' Hne. by rewrite H4, decide_False.
Qed.

(** A read sees the last write.  After a successful assignment through a
    resolved slot or by name, the binding read back through the same address is
    the old one with the new value. *)
Theorem read_after_assign (h : Handles) (env env' : Environment) (name : string)
    (depth slot : Z) (val : Value) (Hok : envOK env)
    (Hslot : slot < 0 \/ exists cur, frameAt env depth = Some cur /\ inSlots cur slot = true)
    (H : assignRoot h env name depth slot val = Ok env') :
  exists b, getBindingRoot env name depth slot = Ok b /\
            getBindingRoot env' name depth slot = Ok (withValue b val).
Proof.
  unfold assignRoot, getBindingRoot in *. destruct Hslot as [Hneg | (cur & Hc & Hi)].
  - destruct (Z.leb_spec 0 slot); [lia | ]. by apply (Assign_GetBinding h).
  - assert (0 <= slot) as Hpos by (unfold inSlots in Hi; b2p; lia).
    destruct (Z.leb_spec 0 slot); [ | lia]. unfold AssignAt in H. rewrite Hc, Hi in H.
    apply rbind_Ok_inv in H as (b' & H & [= <-]). apply checkAssign_Ok in H as (_ & _ & ->).
    unfold GetBindingAt. rewrite Hc, Hi. eexists. split; [done | ].
    unfold frameAt in *. pose proof (lookup_lt_Some _ _ _ Hc) as Hd.
    rewrite list_lookup_insert_eq by done. set (b := default _ _).
    pose proof (Forall_lookup_1 _ _ _ _ Hok Hc) as Hf. simpl in Hf.
    unfold inSlots in Hi |- *. b2p.
    assert (Z.to_nat slot < nslots cur)%nat as Hlt by (rewrite <- (slots_length cur Hf); lia).
    rewrite slots_setSlot, length_insert by done.
    replace ((0 <=? slot) && (slot <? Z.of_nat (length (slots cur)))) with true by (symmetry; zbool).
    by rewrite list_lookup_insert_eq by (rewrite slots_length by done; lia).
Qed.

(** The resolver's addresses agree with names.  In a chain without
    shadowing (which [Define] preserves), reading the binding called [name] through
    its (depth, slot) address and looking it up by name give the same value. *)
Theorem slot_read_is_name_read (env : Environment) (depth slot : Z) (name : string) (b : Binding)
    (Hs : noShadow env) (Hne : name <> "") (Hd : 0 <= depth) (Hsl : 0 <= slot)
    (Hb : bindingAt env (Slot (Z.to_nat depth) (Z.to_nat slot)) = Some b)
    (Hname : b_Name b = name) :
  GetAt env depth slot name = Get env name /\ Get env name = Ok (b_Value b).
Proof.
  assert (named env (Slot (Z.to_nat depth) (Z.to_nat slot)) name) as Hn by (by exists b).
  destruct (named_GetBinding _ _ _ Hn) as [b' Hg].
  apply GetBinding_named in Hg as Hg'. destruct Hg' as (c & Hc & Hcb).
  pose proof (Hs _ _ name Hne Hc Hn) as ->. rewrite Hb in Hcb. injection Hcb as <-.
  rewrite Get_GetBinding, Hg. split; [ | done].
  unfold GetAt, frameAt. simpl in Hb. destruct (env !! Z.to_nat depth) as [cur | ]; [ | done].
  simpl in Hb. pose proof (lookup_lt_Some _ _ _ Hb) as Hlt.
  assert (inSlots cur slot = true) as -> by (unfold inSlots; zbool).
  by rewrite Hb.
Qed.

(** [Define] introduces the name, nothing else, and keeps names unique; a
    name already visible anywhere in the chain is refused and nothing changes. *)
Theorem define_fresh_name (f : Frame) (env : Environment) (name : string) (v : Value) (t : Typ)
    (isConst : bool) (Hs : noShadow (f :: env)) :
  match Define (f :: env) name v t isConst with
  | Ok env' =>
      (forall c, ~ named (f :: env) c name) /\ noShadow env' /\ Get env' name = Ok v /\
      forall c, c <> Name 0 name -> bindingAt env' c = bindingAt (f :: env) c
  | Err _ => exists c, named (f :: env) c name
  end.
Proof.
  cbn [Define]. destruct (existsInChain (f :: env) name) eqn:Ex.
  - destruct (GetBinding (f :: env) name) as [b | e] eqn:Eg.
    + apply GetBinding_named in Eg as (c & Hc & _). by exists c.
    + exfalso. rewrite <- not_false_iff_true in Ex. apply Ex. apply existsInChain_spec.
      intros c Hn. apply named_GetBinding in Hn as [b Hb]. congruence.
  - split; [by apply existsInChain_spec | ]. split; [by apply noShadow_setVar | ]. split.
    + simpl in Ex |- *. unfold lookupLocal in *. unfold slots at 1. simpl. fold (slots f).
      destruct (slotScan 0 (slots f) name) as [[] | ]; [done | ]. by rewrite lookup_insert_eq.
    + intros [[ | i] s | [ | i] n] Hne; try done. simpl. apply lookup_insert_ne. congruence.
Qed.

(** A spawn snapshot is a detached copy of what the body can see.  For every
    name the capture analysis did not drop, looking it up in the snapshot finds
    the caller's innermost binding of that name, deep-copied, with its type and
    constness; a name unbound in the caller is unbound in the snapshot. *)
Theorem snapshot_copies_visible (env : Environment) (root : Frame) (caps : option SpawnCaptures)
    (name : string) (Hne : name <> "") (Hl : last env = Some root)
    (Hcaps : forall c, caps = Some c -> AllGlobals c = false -> name ∉ Globals c ->
       existsInChain [root] name = false) :
  GetBinding (snapshotForSpawn env caps) name =
  match GetBinding env name with
  | Ok b => Ok (mkBinding (DeepCopy (b_Value b)) (b_DeclType b) (b_IsConst b) (-1) name)
  | Err e => Err e
  end.
Proof. by apply snapshot_GetBinding with (root := root). Qed.

(** ** A concrete chain *)

Definition noHandles : Handles := {| taskStates := ∅; chanStates := ∅ |}.

Definition demoFrame : Frame :=
  mkFrame [mkBinding (VInt 1) TypeInt false 0 "x"; mkBinding (VInt 2) TypeInt true 1 "k"; zeroBinding]
    2 ∅ [] 0 false.

Definition demoRoot : Frame :=
  mkFrame [mkBinding (VBool true) TypeBool false 0 "g"] 1 ∅ [] 0 false.

Definition demoEnv : Environment := [demoFrame; demoRoot].

Lemma demoEnv_ok : envOK demoEnv.
Proof. repeat constructor; simpl; lia. Defined.

Lemma demoEnv_noShadow : noShadow demoEnv.
Proof.
  assert (forall c n, named demoEnv c n -> n <> "" ->
    (c = Slot 0 0 /\ n = "x") \/ (c = Slot 0 1 /\ n = "k") \/ (c = Slot 1 0 /\ n = "g")) as H.
  { intros c n (b & Hb & Hn) Hne.
    destruct c as [[ | [ | i]] s | [ | [ | i]] m]; try done;
      destruct s as [ | [ | s]]; try done; injection Hb as <-; subst; tauto. }
  intros c c' n Hne Hc Hc'. apply H in Hc, Hc'; [ | done ..].
  destruct Hc as [[-> ->] | [[-> ->] | [-> ->]]], Hc' as [[-> ?] | [[-> ?] | [-> ?]]]; done.
Qed.

Lemma pool_frames_clean_witness :
  exists e s, e ∈ pool s /\ clean (borrowBlockEnv e [] 1) 1.
Proof.
  set (s0 := mkPool [] [] (mkChain 0 0)).
  set (s1 := mkPool [] [borrowBlockEnv newPooled [] 2] (mkChain 0 0)).
  assert (poolReach s1) as H1 by (eapply reach_step; [exact reach_init | apply step_borrow_new]).
  assert (poolReach (mkPool [] [setSlot (borrowBlockEnv newPooled [] 2) 0 (mkBinding (VInt 5) TypeInt true 0 "secret")] (mkChain 0 0))) as H2.
  { eapply reach_step; [exact H1 | ]. apply (step_update [] [] _ _ []). apply upd_slot. simpl. lia. }
  pose proof (reach_step _ _ H2 (step_release _ _ _ _)) as H3. simpl in H3.
  match type of H3 with poolReach ?s =>
    match s with mkPool (?e :: _) _ _ => exists e, s end end.
  split; [left | refine (proj1 (pool_frames_clean _ _ [] 1 H3 _)); left; left].
Defined.

Lemma assign_one_binding_witness :
  exists env', assignRoot noHandles demoEnv "x" 0 0 (VInt 9) = Ok env' /\
    exists c, bindingAt env' c = Some (mkBinding (VInt 9) TypeInt false 0 "x").
Proof.
  eexists. split; [reflexivity | ].
  destruct (assign_one_binding noHandles demoEnv _ "x" 0 0 (VInt 9) demoEnv_ok eq_refl)
    as (c & b & Hb & _ & _ & Hb' & _).
  exists (Slot 0 0). reflexivity.
Defined.

Lemma read_after_assign_witness :
  exists env', assignRoot noHandles demoEnv "g" (-1) (-1) (VBool false) = Ok env' /\
    exists b, getBindingRoot env' "g" (-1) (-1) = Ok (withValue b (VBool false)).
Proof.
  eexists. split; [reflexivity | ].
  destruct (read_after_assign noHandles demoEnv _ "g" (-1) (-1) (VBool false) demoEnv_ok
    (or_introl eq_refl) eq_refl) as (b & _ & H). exists b. exact H.
Defined.

Lemma slot_read_is_name_read_witness :
  GetAt demoEnv 1 0 "g" = Get demoEnv "g".
Proof.
  refine (proj1 (slot_read_is_name_read demoEnv 1 0 "g" (mkBinding (VBool true) TypeBool false 0 "g")
    demoEnv_noShadow _ _ _ eq_refl eq_refl)); [discriminate | lia | lia].
Defined.

Lemma define_fresh_name_witness :
  exists env', Define demoEnv "y" VNull TypeNull true = Ok env' /\ noShadow env'.
Proof.
  eexists. split; [reflexivity | ].
  exact (proj1 (proj2 (define_fresh_name demoFrame [demoRoot] "y" VNull TypeNull true demoEnv_noShadow))).
Defined.

Lemma snapshot_copies_visible_witness :
  GetBinding (snapshotForSpawn demoEnv (Some {| AllGlobals := false; Globals := ["g"] |})) "g" =
  Ok (mkBinding (VBool true) TypeBool false (-1) "g").
Proof.
  rewrite (snapshot_copies_visible demoEnv demoRoot (Some {| AllGlobals := false; Globals := ["g"] |}) "g").
  - reflexivity.
  - discriminate.
  - reflexivity.
  - intros c [= <-] _ H. destruct H. by left.
Defined.
