(* ===== verification/IntFast.v ===== *)
(** * The integer fast path (internal/interpreter/intfast.go)

    Side-effect-free evaluation of int operands and bool conditions straight from
    literals and slots.  [None] is the Go result [ok = false]: the caller then runs
    the general path. *)

From S2P Require Import Prelude GoInt Float64 Utf8 Types Value Ast Environment.
Open Scope Z_scope.

(** [slotBinding]: the binding in a resolved slot. *)
Definition slotBinding (env : Environment) (depth slot : Z) : option Binding :=
  match frameAt env depth with
  | None => None
  | Some cur => if inSlots cur slot then slots cur !! Z.to_nat slot else None
  end.

(** [varValue] of a variable reference with the given address. *)
Definition varValue (env : Environment) (depth slot : Z) : option Value :=
  if slot <? 0 then None
  else
    match slotBinding env depth slot with
    | Some b => Some (b_Value b)
    | None => None
    end.

Definition intArith (op : BinaryOp) (a b : Z) : option Z :=
  match op with
  | OpAdd => let '(s, ovf) := addOverflow a b in if ovf then None else Some s
  | OpSub => let '(d, ovf) := subOverflow a b in if ovf then None else Some d
  | OpMul => let '(p, ovf) := mulOverflow a b in if ovf then None else Some p
  | OpFloorDiv =>
      if (b =? 0) || ((a =? minInt64) && (b =? -1)) then None else Some (flooredDiv a b)
  | OpMod => if b =? 0 then None else Some (flooredMod a b)
  | _ => None
  end.

Definition intCompare (op : BinaryOp) (a b : Z) : option bool :=
  match op with
  | OpLt => Some (a <? b)
  | OpGt => Some (b <? a)
  | OpLe => Some (a <=? b)
  | OpGe => Some (b <=? a)
  | OpEq => Some (a =? b)
  | OpNeq => Some (negb (a =? b))
  | _ => None
  end.

(** Reading an element of a bytes or list value as an int. *)
Definition intElement (parent : Value) (idx : Z) : option Z :=
  if idx <? 0 then None
  else
    match parent with
    | VBytes bs => if idx <? Z.of_nat (length bs) then bs !! Z.to_nat idx else None
    | VList l _ =>
        if idx <? Z.of_nat (length l) then
          match l !! Z.to_nat idx with Some (VInt n) => Some n | _ => None end
        else None
    | _ => None
    end.

Section Fast.
Variable env : Environment.

Fixpoint intOperand (e : Expr) : option Z :=
  match e with
  | IntLit _ n => Some n
  | VarExpr _ _ depth slot _ =>
      match varValue env depth slot with Some (VInt n) => Some n | _ => None end
  | IndexExpr _ (VarExpr _ _ depth slot _) index =>
      match varValue env depth slot with
      | None => None
      | Some parent =>
          match intOperand index with
          | Some idx => intElement parent idx
          | None => None
          end
      end
  | BinaryExpr _ _ _ _ (Some folded) => intOperand folded
  | BinaryExpr _ op l r None =>
      match op with
      | OpAdd | OpSub | OpMul | OpFloorDiv | OpMod =>
          match intOperand l with
          | None => None
          | Some a =>
              match intOperand r with
              | None => None
              | Some b => intArith op a b
              end
          end
      | _ => None
      end
  | _ => None
  end.

Fixpoint fastCondition (e : Expr) : option bool :=
  match e with
  | BoolLit _ b => Some b
  | VarExpr _ _ depth slot _ =>
      match varValue env depth slot with Some (VBool b) => Some b | _ => None end
  | UnaryExpr _ _ _ (Some folded) => fastCondition folded
  | UnaryExpr _ OpNot operand None =>
      match fastCondition operand with Some r => Some (negb r) | None => None end
  | BinaryExpr _ _ _ _ (Some folded) => fastCondition folded
  | BinaryExpr _ op l r None =>
      match op with
      | OpAnd | OpOr =>
          match fastCondition l with
          | None => None
          | Some lb =>
              if Bool.eqb lb (bool_decide (op = OpOr)) then Some lb else fastCondition r
          end
      | OpLt | OpGt | OpLe | OpGe | OpEq | OpNeq =>
          match intOperand l with
          | None => None
          | Some a =>
              match intOperand r with
              | None => None
              | Some b => intCompare op a b
              end
          end
      | _ => None
      end
  | _ => None
  end.
End Fast.

(** [fastAssign]: the updated chain, or [None] when nothing was written. *)
Definition fastAssign (env : Environment) (value : Expr) (depth slot : Z) : option Environment :=
  if slot <? 0 then None
  else
    match frameAt env depth, slotBinding env depth slot with
    | Some cur, Some b =>
        if b_IsConst b then None
        else
          let write v :=
            Some (<[Z.to_nat depth :=
                    setSlot cur (Z.to_nat slot)
                      (mkBinding v (b_DeclType b) (b_IsConst b) (b_Slot b) (b_Name b))]> env) in
          match b_DeclType b, b_Value b with
          | TypeInt, VInt _ =>
              match intOperand env value with Some n => write (VInt n) | None => None end
          | TypeBool, VBool _ =>
              match fastCondition env value with Some r => write (VBool r) | None => None end
          | _, _ => None
          end
    | _, _ => None
    end.
