(* ===== verification/Display.v ===== *)
(** * Display form of values (internal/interpreter/value.go)

    [display] and its entry points.  The text of a float and of a quoted string are
    those of Go's strconv, the rendering of a deferred message that of fmt, and a
    library may register a displayer for its opaque objects: these are the operations
    of the interface [GoText], over which the interpreter is stated. *)

From Stdlib Require Import Ascii.
From S2P Require Import Prelude GoInt Float64 Utf8 Types Value.
Open Scope string_scope.
Open Scope list_scope.
Open Scope Z_scope.

Class GoText := {
  (** strconv.FormatFloat(f, 'g', -1, 64), strconv.Quote(s). *)
  FormatFloat : float64 -> string;
  Quote : string -> string;
  (** fmt.Sprintf of a deferred message. *)
  render : message -> string;
  (** The displayer registered for an opaque library type. *)
  objectDisplayer : string -> string -> option (Value -> string)
}.

(** The internal namespace tag of a match-bound variant payload. *)
Definition matchPayloadNS : string := String (Ascii.ascii_of_nat 0) "payload".

Section Display.
Context `{NativeObject, GoText}.
Variable h : Handles.

Fixpoint ContainsAny (s : string) (chars : list Ascii.ascii) : bool :=
  match s with
  | EmptyString => false
  | String c s => bool_decide (c ∈ chars) || ContainsAny s chars
  end.

Definition DisplayFloat (f : float64) : string :=
  let s := FormatFloat f in
  if bool_decide (s = "+Inf") || bool_decide (s = "-Inf") || bool_decide (s = "NaN") then s
  else if ContainsAny s ["."; "e"; "E"]%char then s
  else s +:+ ".0".

(** Join rendered children with a separator. *)
Fixpoint sepBy (sep : string) (l : list string) : string :=
  match l with
  | [] => ""
  | [x] => x
  | x :: l => x +:+ sep +:+ sepBy sep l
  end.

Definition hexByte (b : Z) : string :=
  String (hexDigit (Z.shiftr b 4)) (String (hexDigit (Z.land b 15)) EmptyString).

Fixpoint display (v : Value) (quoted : bool) : string :=
  let fields := fun fs =>
    "{" +:+ sepBy ", " (map (fun '(f, x) => f +:+ ": " +:+ display x true) fs) +:+ "}" in
  match v with
  | VNull => "null"
  | VInt n => FormatInt n
  | VFloat f => DisplayFloat f
  | VString s _ => if quoted then Quote s else s
  | VBool b => if b then "true" else "false"
  | VList l _ => "[" +:+ sepBy ", " (map (fun x => display x true) l) +:+ "]"
  | VMap m _ _ _ =>
      "{" +:+ sepBy ", " (map (fun '(k, x) => display k true +:+ ": " +:+ display x true) m)
          +:+ "}"
  | VBytes bs => "bytes[" +:+ sepBy " " (map hexByte bs) +:+ "]"
  | VStruct ns _ name fs =>
      (if bool_decide (ns <> "") && bool_decide (ns <> matchPayloadNS) then ns +:+ "." else "")
        +:+ name +:+ fields fs
  | VEnum ns _ name variant fs =>
      (if bool_decide (ns <> "") then ns +:+ "." else "") +:+ name +:+ "." +:+ variant +:+
      (match fs with [] => "" | _ => fields fs end)
  | VTask t =>
      match t with
      | None => "task<?>"
      | Some p =>
          match taskStates h !! p with
          | Some i =>
              if negb (task_done i) then "task<pending>"
              else if task_err i then "task<error>" else "task<done>"
          | None => "task<pending>"
          end
      end
  | VObject ns name obj =>
      match obj with
      | Some (addr, None) => DisplayNative addr
      | _ =>
          match objectDisplayer ns name with
          | Some d => d (match obj with Some (_, Some inner) => inner | _ => VNull end)
          | None => "<" +:+ ns +:+ "." +:+ name +:+ ">"
          end
      end
  | VFunc fn _ =>
      match fn with
      | None => "<func null>"
      | Some (_, name) => "<func " +:+ name +:+ ">"
      end
  | VChannel c =>
      match c with
      | None => "channel<?>"
      | Some p =>
          match chanStates h !! p with
          | Some i => if chan_closed i then "channel<closed>" else "channel<open>"
          | None => "channel<open>"
          end
      end
  end.

Definition Display (v : Value) : string := display v false.
Definition displayElement (v : Value) : string := display v true.

End Display.
