(* ===== verification/Defs.v ===== *)
(** * Named types and module identities (internal/interpreter/module.go, interpreter.go)

    The tables of declared structs and enums, the loaded modules an interpreter
    reaches through its aliases (one entry per alias; two aliases of one module carry the
    same path and tables, so which of them a lookup by path finds does not matter), and the retagging of module-own types: inside its
    module a struct or enum has the bare identity [("", "")], importers see
    [(stem, canonical path)].  [retagStructs] converts values (and the declared
    types recorded on them) between the two, with a precheck that skips values that
    need no change. *)

From S2P Require Import Prelude Types Value Ast.
Open Scope string_scope.
Open Scope list_scope.

(** A [loadedModule], with the tables of its own interpreter (of its methods, the names). *)
Record loadedModule := mkModule {
  mod_path : string;
  mod_ns : string;
  mod_structs : gmap string StructDef;
  mod_enums : gmap string EnumDef;
  mod_methods : gset string;
  mod_exports : gset string;
  mod_bundled : bool
}.

(** The interpreter's own tables: structs and enums it declares, library structs by
    (namespace, name), and the modules bound to its aliases. *)
Record Tables := mkTables {
  structs : gmap string StructDef;
  enums : gmap string EnumDef;
  NSStructs : gmap (string * string) StructDef;
  moduleAliases : gmap string loadedModule
}.

Definition canonicalErrorStructName : string := "Error".

Definition isOwnStruct (m : loadedModule) (name : string) : bool :=
  if bool_decide (name = canonicalErrorStructName) then false
  else bool_decide (is_Some (mod_structs m !! name)) || bool_decide (is_Some (mod_enums m !! name)).

Definition isOwnStructName (i : Tables) (name : string) : bool :=
  if bool_decide (name = canonicalErrorStructName) then false
  else bool_decide (is_Some (structs i !! name)) || bool_decide (is_Some (enums i !! name)).

Definition moduleByPath (i : Tables) (path : string) : option loadedModule :=
  if bool_decide (path = "") then None
  else snd <$> head (filter (fun p => mod_path (snd p) = path) (map_to_list (moduleAliases i))).

(** The scan of [moduleByNS]: a second module of the same stem makes it ambiguous. *)
Fixpoint byNSLoop (ms : list (string * loadedModule)) (ns : string) (found : option loadedModule)
    : option loadedModule :=
  match ms with
  | [] => found
  | (_, m) :: ms =>
      if bool_decide (mod_ns m = ns) then
        match found with
        | Some f => if bool_decide (mod_path f <> mod_path m) then None else byNSLoop ms ns (Some m)
        | None => byNSLoop ms ns (Some m)
        end
      else byNSLoop ms ns found
  end.

Definition moduleByNS (i : Tables) (ns : string) : option loadedModule :=
  if bool_decide (ns = "") then None else byNSLoop (map_to_list (moduleAliases i)) ns None.

Definition lookupStructDef (i : Tables) (ns name modPath : string) : option StructDef :=
  if bool_decide (modPath <> "") then
    m ← moduleByPath i modPath; mod_structs m !! name
  else if bool_decide (ns <> "") then
    match NSStructs i !! (ns, name) with
    | Some d => Some d
    | None => m ← moduleByNS i ns; mod_structs m !! name
    end
  else structs i !! name.

(** ** Retagging *)

Section Retag.
Variables fromNS toNS fromMod toMod : string.
Variable isOwn : string -> bool.

Definition isFrom (ns mp name : string) : bool :=
  bool_decide (ns = fromNS) && bool_decide (mp = fromMod) && isOwn name.

Definition primitiveType (t : option Typ) : bool :=
  match t with
  | Some (TypeInt | TypeFloat | TypeString | TypeBool | TypeBytes | TypeNull) => true
  | _ => false
  end.

Fixpoint typeNeeds (t : Typ) : bool :=
  match t with
  | TypeStruct ns mp name => isFrom ns mp name
  | TypeList e | TypeTask e | TypeChannel e =>
      match e with None => false | Some e => typeNeeds e end
  | TypeMap kv => match kv with None => false | Some (k, v) => typeNeeds k || typeNeeds v end
  | _ => false
  end.

Definition typeNeedsRetag (t : option Typ) : bool :=
  match t with None => false | Some t => typeNeeds t end.

Fixpoint retagTyp (t : Typ) : Typ :=
  match t with
  | TypeStruct ns mp name =>
      if isFrom ns mp name then TypeStruct toNS toMod name else TypeStruct ns mp name
  | TypeList e => TypeList (option_map retagTyp e)
  | TypeTask e => TypeTask (option_map retagTyp e)
  | TypeChannel e => TypeChannel (option_map retagTyp e)
  | TypeMap (Some (k, v)) => TypeMap (Some (retagTyp k, retagTyp v))
  | t => t
  end.

Definition retagType (t : option Typ) : option Typ := option_map retagTyp t.

Fixpoint subtreeNeedsRetag (v : Value) : bool :=
  match v with
  | VStruct ns mp name fs | VEnum ns mp name _ fs =>
      isFrom ns mp name || existsb (fun '(_, x) => subtreeNeedsRetag x) fs
  | VList l et =>
      if typeNeedsRetag et then true
      else if primitiveType et then false
      else existsb subtreeNeedsRetag l
  | VMap m kt vt _ =>
      if typeNeedsRetag kt || typeNeedsRetag vt then true
      else if primitiveType kt && primitiveType vt then false
      else existsb (fun '(k, x) => subtreeNeedsRetag k || subtreeNeedsRetag x) m
  | _ => false
  end.

Fixpoint retagStructs (v : Value) : Value :=
  if negb (subtreeNeedsRetag v) then v
  else
    match v with
    | VStruct ns mp name fs =>
        let fs := map (fun '(f, x) => (f, retagStructs x)) fs in
        if isFrom ns mp name then VStruct toNS toMod name fs else VStruct ns mp name fs
    | VEnum ns mp name va fs =>
        let fs := map (fun '(f, x) => (f, retagStructs x)) fs in
        if isFrom ns mp name then VEnum toNS toMod name va fs else VEnum ns mp name va fs
    | VList l et => VList (map retagStructs l) (retagType et)
    | VMap m kt vt idx =>
        VMap (map (fun '(k, x) => (retagStructs k, retagStructs x)) m)
             (retagType kt) (retagType vt) idx
    | v => v
    end.

End Retag.

(** [findImpostorStruct]: the first bare struct or enum in an argument whose name is
    one of the module's own. *)
Section Impostor.
Variable m : loadedModule.

Fixpoint findImpostorStruct (v : Value) : option Value :=
  let first := fix go (l : list Value) : option Value :=
    match l with
    | [] => None
    | x :: l => match findImpostorStruct x with Some imp => Some imp | None => go l end
    end in
  match v with
  | VStruct ns mp name fs | VEnum ns mp name _ fs =>
      if isOwnStruct m name && bool_decide (ns = "") && bool_decide (mp = "") then Some v
      else
        (fix go (l : list (string * Value)) : option Value :=
           match l with
           | [] => None
           | (_, x) :: l => match findImpostorStruct x with Some imp => Some imp | None => go l end
           end) fs
  | VList l et => if primitiveType et then None else first l
  | VMap en kt vt _ =>
      if primitiveType kt && primitiveType vt then None
      else
        (fix go (l : list (Value * Value)) : option Value :=
           match l with
           | [] => None
           | (k, x) :: l =>
               match findImpostorStruct k with
               | Some imp => Some imp
               | None => match findImpostorStruct x with Some imp => Some imp | None => go l end
               end
           end) en
  | _ => None
  end.
End Impostor.
