(* ===== verification/Store.v ===== *)
(** * Reading and writing inside values (internal/interpreter/interpreter.go)

    Declared-type stamping, element reads, slices and ranges, and the writes through
    an lvalue chain.  A Go [*Value] that points into a structure is a [place]: the
    value currently there and the update of the enclosing root when another value is
    stored.  Errors leave the root unchanged: every check precedes the one store. *)

From S2P Require Import Prelude GoInt Float64 Utf8 Limits Types Value Ast Ops Display Defs.
Open Scope string_scope.
Open Scope list_scope.
Open Scope Z_scope.

(** ** Declared types *)

(** The part of [stampDeclaredType] that rewrites the value itself. *)
Fixpoint stampValue (v : Value) (declType : Typ) {struct declType} : Value :=
  match declType with
  | TypeList e =>
      match v with
      | VList l _ =>
          VList (match e with
                 | Some ((TypeList _ | TypeMap _) as et) => map (fun x => stampValue x et) l
                 | _ => l
                 end) e
      | _ => v
      end
  | TypeMap kv =>
      match v with
      | VMap m _ _ idx =>
          VMap (match kv with
                | Some (_, (TypeList _ | TypeMap _) as vt) =>
                    map (fun '(k, x) => (k, stampValue x vt)) m
                | _ => m
                end) (option_map fst kv) (option_map snd kv) idx
      | _ => v
      end
  | _ => v
  end.

(** The part that records the element type on a task's or channel's shared state,
    once: a compare-and-swap from nil. *)
Definition stampHandles (h : Handles) (v : Value) (declType : Typ) : Handles :=
  match declType, v with
  | TypeTask (Some et), VTask (Some p) =>
      {| taskStates :=
           alter (fun i => {| task_done := task_done i; task_err := task_err i;
                              task_ElemTyp := match task_ElemTyp i with
                                              | None => Some et | some => some end |})
                 p (taskStates h);
         chanStates := chanStates h |}
  | TypeChannel (Some et), VChannel (Some p) =>
      {| taskStates := taskStates h;
         chanStates :=
           alter (fun i => {| chan_closed := chan_closed i;
                              chan_ElemTyp := match chan_ElemTyp i with
                                              | None => Some et | some => some end |})
                 p (chanStates h) |}
  | _, _ => h
  end.

Definition stampDeclaredType (h : Handles) (v : Value) (declType : Typ) : Value * Handles :=
  (stampValue v declType, stampHandles h v declType).

Definition bindParamValue (h : Handles) (v : Value) (declType : Typ) : Value * Handles :=
  match v with
  | VInt _ | VFloat _ | VBool _ | VNull | VString _ _ | VFunc _ _ => (v, h)
  | _ => stampDeclaredType h (Copy v) declType
  end.

Definition typArg (t : Typ) : fmtarg := AStr (Type_String t).
Definition lenArg {A} (l : list A) : fmtarg := AInt (Z.of_nat (length l)).

(** An index within a collection of the given length. *)
Definition inBounds (n : Z) (len : nat) : bool := negb ((n <? 0) || (Z.of_nat len <=? n)).

(** ** Element access *)

(** A pointer into a structure. *)
Definition place : Type := Value * (Value -> Value).

Section WithText.
Context `{NativeObject, GoText}.
Variable h : Handles.

(** [&parent.Map[pos].Value]. *)
Definition mapPlace (m : list (Value * Value)) (kt vt : option Typ)
    (idx : option (gmap string nat)) (pos : nat) : option place :=
  match m !! pos with
  | Some (_, x) => Some (x, fun v => VMap (setEntry m pos v) kt vt idx)
  | None => None
  end.

Definition indexInto (parent idx : Value) (p : position) : res place :=
  match parent with
  | VList l et =>
      match idx with
      | VInt n =>
          match (if inBounds n (length l) then l !! Z.to_nat n else None) with
          | Some x => Ok (x, fun v => VList (<[Z.to_nat n := v]> l) et)
          | None => rtErr p "list index %d out of bounds (len %d)" [AInt n; lenArg l]
          end
      | _ => rtErr p "list index must be int, got %s" [kindArg idx]
      end
  | VMap m kt vt mi =>
      let pos :=
        match mapKeyEncode idx, mi with
        | Some enc, Some mapIdx => if mapIndexUsable m mi then mapIdx !! enc else scanKey 0 m idx
        | _, _ => scanKey 0 m idx
        end in
      match pos ← pos; mapPlace m kt vt mi pos with
      | Some pl => Ok pl
      | None => rtErr p "map has no entry for key %s" [AStr (Display h idx)]
      end
  | _ => rtErr p "cannot index into %s" [kindArg parent]
  end.

Definition readByteAt (Bytes : list Z) (idx : Value) (p : position) : res Value :=
  match idx with
  | VInt n =>
      match (if inBounds n (length Bytes) then Bytes !! Z.to_nat n else None) with
      | Some b => Ok (IntVal b)
      | None => rtErr p "bytes index %d out of bounds (len %d)" [AInt n; lenArg Bytes]
      end
  | _ => rtErr p "bytes index must be int, got %s" [kindArg idx]
  end.

(** [evalIndex] once the target and the index are evaluated. *)
Definition applyIndex (parent idx : Value) (p : position) : res Value :=
  match parent with
  | VObject ns name _ =>
      rtErr p "a %s.%s is opaque - cannot index with `[ ]`; use %s.get with a JSON pointer"
        [AStr ns; AStr name; AStr ns]
  | VBytes bs => readByteAt bs idx p
  | _ => (let? pl := indexInto parent idx p in Ok (fst pl))%go
  end.

(** ** Writes *)

(** The copy of a value to be stored in a slot of declared type [t], if any. *)
Definition storedCopy (newVal : Value) (t : option Typ) : Value * Handles :=
  match t with
  | Some t => stampDeclaredType h (Copy newVal) t
  | None => (Copy newVal, h)
  end.

Definition mismatch (newVal : Value) (t : option Typ) : bool :=
  match t with Some t => negb (MatchesDeclared h newVal t) | None => false end.

Definition tArg (t : option Typ) : fmtarg := typArg (default TypeInvalid t).

(** The linear-scan fallback of [writeIndexedSlot]. *)
Definition writeScan (m : list (Value * Value)) (kt vt : option Typ)
    (mi : option (gmap string nat)) (idx stored : Value) : Value :=
  match scanKey 0 m idx with
  | Some k => VMap (setEntry m k stored) kt vt mi
  | None => VMap (m ++ [(Copy idx, stored)]) kt vt None
  end.

Definition writeMap (m : list (Value * Value)) (kt vt : option Typ)
    (mi : option (gmap string nat)) (idx stored : Value) : Value :=
  match mapKeyEncode idx with
  | Some enc =>
      let mi := if mapIndexUsable m mi then mi else buildIndex m in
      match mi with
      | Some mapIdx =>
          if mapIndexUsable m mi then
            match mapIdx !! enc with
            | Some pos => VMap (setEntry m pos stored) kt vt mi
            | None =>
                VMap (m ++ [(Copy idx, stored)]) kt vt (Some (<[enc := length m]> mapIdx))
            end
          else writeScan m kt vt mi idx stored
      | None => writeScan m kt vt mi idx stored
      end
  | None => writeScan m kt vt mi idx stored
  end.

Definition byteValue (newVal : Value) (p : position) : res Z :=
  match newVal with
  | VInt b =>
      if (b <? 0) || (255 <? b)
      then rtErr p "bytes element value %d out of range [0, 255]" [AInt b]
      else Ok b
  | _ => rtErr p "bytes element must be int in [0, 255], got %s" [kindArg newVal]
  end.

Definition writeIndexedSlot (parent idx newVal : Value) (p : position) : res (Value * Handles) :=
  match parent with
  | VList l et =>
      match idx with
      | VInt n =>
          if inBounds n (length l) then
            if mismatch newVal et
            then rtErr p "cannot assign %s to list element of declared type %s"
                   [kindArg newVal; tArg et]
            else
              let '(stored, h') := storedCopy newVal et in
              Ok (VList (<[Z.to_nat n := stored]> l) et, h')
          else rtErr p "list index %d out of bounds (len %d)" [AInt n; lenArg l]
      | _ => rtErr p "list index must be int, got %s" [kindArg idx]
      end
  | VMap m kt vt mi =>
      if mismatch idx kt
      then rtErr p "map key must be %s, got %s" [tArg kt; kindArg idx]
      else if mismatch newVal vt
      then rtErr p "cannot assign %s to map value of declared type %s" [kindArg newVal; tArg vt]
      else
        let '(stored, h') := storedCopy newVal vt in
        Ok (writeMap m kt vt mi idx stored, h')
  | VBytes bs =>
      match idx with
      | VInt n =>
          if inBounds n (length bs) then
            (let? b := byteValue newVal p in
             Ok (VBytes (<[Z.to_nat n := b]> bs), h))%go
          else rtErr p "bytes index %d out of bounds (len %d)" [AInt n; lenArg bs]
      | _ => rtErr p "bytes index must be int, got %s" [kindArg idx]
      end
  | _ => rtErr p "cannot index-assign into %s" [kindArg parent]
  end.

Definition appendInto (container newVal : Value) (p : position) : res (Value * Handles) :=
  match container with
  | VBytes bs => (let? b := byteValue newVal p in Ok (VBytes (bs ++ [b]), h))%go
  | VList l et =>
      if mismatch newVal et
      then rtErr p "cannot append %s to list of declared element type %s"
             [kindArg newVal; tArg et]
      else
        let '(stored, h') := storedCopy newVal et in
        Ok (VList (l ++ [stored]) et, h')
  | _ => rtErr p "append `[] = ...` requires a list or bytes, got %s" [kindArg container]
  end.

(** ** Lvalue chains *)

(** [lvalueStep]: an evaluated index or a field name, with its position. *)
Inductive lvalueStep :=
  | StepIndex (index : Value) (p : position)
  | StepField (field : string) (p : position).

(** The first field of that name. *)
Fixpoint findField (fs : list (string * Value)) (name : string) (k : nat) : option (nat * Value) :=
  match fs with
  | [] => None
  | (f, x) :: fs => if bool_decide (f = name) then Some (k, x) else findField fs name (S k)
  end.

Definition setField (fs : list (string * Value)) (k : nat) (v : Value) : list (string * Value) :=
  alter (fun '(f, _) => (f, v)) k fs.

Definition lvalueStepInto (parent : Value) (step : lvalueStep) : res place :=
  match step with
  | StepField field p =>
      match parent with
      | VStruct ns mp name fs =>
          match findField fs field 0 with
          | Some (k, x) => Ok (x, fun v => VStruct ns mp name (setField fs k v))
          | None => rtErr p "struct %q has no field %q" [AStr name; AStr field]
          end
      | _ => rtErr p "field access `.%s` requires a struct, got %s" [AStr field; kindArg parent]
      end
  | StepIndex idx p => indexInto parent idx p
  end.

Variable tabs : Tables.

(** The declared type of a field as the holder of the struct sees it. *)
Definition fieldDeclType (ns mp : string) (t : Typ) : Typ :=
  if bool_decide (ns <> "") && bool_decide (mp <> "") then
    match moduleByPath tabs mp with
    | Some m => retagTyp "" ns "" mp (isOwnStruct m) t
    | None => t
    end
  else t.

Definition findDecl (def : StructDef) (field : string) : option Typ :=
  field_Type <$> head (filter (fun d => field_Name d = field) (struct_Fields def)).

Definition lvalueWriteLeaf (parent : Value) (step : lvalueStep) (newVal : Value)
    : res (Value * Handles) :=
  match step with
  | StepField field p =>
      match parent with
      | VStruct ns mp name fs =>
          match lookupStructDef tabs ns name mp with
          | None => rtErr p "internal: struct %q definition missing at assignment" [AStr name]
          | Some def =>
              match findDecl def field with
              | None => rtErr p "struct %q has no field %q" [AStr name; AStr field]
              | Some t =>
                  let declType := fieldDeclType ns mp t in
                  if negb (MatchesDeclared h newVal declType)
                  then rtErr p "field %q of struct %q expects %s, got %s"
                         [AStr field; AStr name; typArg declType; AStr (valueTypeLabel newVal)]
                  else
                    let '(stored, h') := stampDeclaredType h (Copy newVal) declType in
                    match findField fs field 0 with
                    | Some (k, _) => Ok (VStruct ns mp name (setField fs k stored), h')
                    | None => Ok (VStruct ns mp name (fs ++ [(field, stored)]), h')
                    end
              end
          end
      | _ => rtErr p "field access `.%s` requires a struct, got %s" [AStr field; kindArg parent]
      end
  | StepIndex idx p => writeIndexedSlot parent idx newVal p
  end.

(** [applyLvalueWrite]: descend, write at the leaf, and rebuild the path. *)
Fixpoint applyLvalueWrite (root : Value) (steps : list lvalueStep) (newVal : Value)
    (st : position) : res (Value * Handles) :=
  match steps with
  | [] => rtErr st "internal: lvalue write with no steps" []
  | [leaf] => lvalueWriteLeaf root leaf newVal
  | step :: steps =>
      (let? pl := lvalueStepInto root step in
       let? r := applyLvalueWrite (fst pl) steps newVal st in
       Ok (snd pl (fst r), snd r))%go
  end.

(** ** Ranges and slices, on evaluated bounds *)

Definition checkRange (lv hv : Value) (p : position) : res (Z * Z) :=
  match lv, hv with
  | VInt lo, VInt hi =>
      if hi <? lo
      then rtErr p "range lower bound %d exceeds upper bound %d" [AInt lo; AInt hi]
      else Ok (lo, hi)
  | _, _ => rtErr p "range bounds must be int, got %s..%s" [kindArg lv; kindArg hv]
  end.

(** The loop [for n := lo; n < hi; n++]: [count] iterations, on int64. *)
Fixpoint rangeLoop (count : nat) (n hi : Z) : list Value :=
  match count with
  | O => []
  | S count => if n <? hi then IntVal n :: rangeLoop count (add64 n 1) hi else []
  end.

Definition materialiseRange `{Limits} (lo hi : Z) (p : position) : res Value :=
  let count := sub64 hi lo in
  if (count <? 0) || (MaxRangeElements <? count)
  then rtErr p "range too large to materialise into a list (%s exceeds the limit of %d); iterate lazily with `for (def i in lo..hi)` instead"
         [if 0 <=? count then AInt count else AStr "the range"; AInt MaxRangeElements]
  else Ok (ListVal TypeInt (rangeLoop (Z.to_nat count) lo hi)).

Definition sliceBound (which : string) (v : option Value) (dflt : Z) (p : position) : res Z :=
  match v with
  | None => Ok dflt
  | Some (VInt n) => Ok n
  | Some v => rtErr p which [kindArg v]
  end.

Definition checkSlice (lo hi : Z) (n : nat) (p : position) : res (nat * nat) :=
  if (lo <? 0) || (Z.of_nat n <? hi) || (hi <? lo)
  then rtErr p "slice range [%d, %d) out of bounds for length %d"
         [AInt lo; AInt hi; AInt (Z.of_nat n)]
  else Ok (Z.to_nat lo, Z.to_nat hi).

(** The decoding loop of a non-ASCII slice: the string after [n] runes. *)
Fixpoint skipRunes (n : nat) (s : string) : string :=
  match n with
  | O => s
  | S n => skipRunes n (sdrop (snd (decodeRune s)) s)
  end.

Definition sliceString (s : string) (n lo hi : nat) : string :=
  if bool_decide (String.length s = n) then String.substring lo (hi - lo) s
  else
    let rest := skipRunes lo s in
    String.substring 0 (String.length rest - String.length (skipRunes (hi - lo) rest)) rest.

Definition collLength (coll : Value) (p : position) : res nat :=
  match coll with
  | VList l _ => Ok (length l)
  | VBytes bs => Ok (length bs)
  | VString s k => Ok (Z.to_nat (runeLen s k))
  | _ => rtErr p "cannot slice a %s; `[a..b]` works on a list, bytes, or string" [kindArg coll]
  end.

Definition applySlice (coll : Value) (lo hi : nat) : Value :=
  match coll with
  | VList l et => VList (map Copy (take (hi - lo) (drop lo l))) et
  | VBytes bs => BytesVal (take (hi - lo) (drop lo bs))
  | VString s k => StringVal (sliceString s (Z.to_nat (runeLen s k)) lo hi)
  | v => v
  end.

End WithText.
