(* ===== verification/StoreFacts.v ===== *)
(** * Typed containers stay typed

    A list, map or struct field with a declared type only ever holds values of that
    type.  [conforms v t] is deep conformance of a value to a declared type;
    [honest v] says that every type recorded anywhere inside [v] is kept, and that
    every struct inside [v] has fields conforming to its definition.  Stamping
    establishes conformance, every write through an lvalue chain preserves it. *)


From S2P Require Import Prelude GoInt Float64 Utf8 Limits Types Value ValueFacts MapFacts.
From S2P Require Import Ast Ops OpsFacts Display Defs Store.
From Stdlib Require Import Ascii.
Open Scope string_scope.
Open Scope list_scope.
Open Scope Z_scope.

Lemma foldr_and_Forall {A} (P : A -> Prop) (l : list A) :
  foldr (fun x Q => P x /\ Q) True l <-> Forall P l.
Proof.
  induction l as [ | x l IH]; simpl; [by split | ]. rewrite IH, Forall_cons. done.
Qed.

Lemma forallb_Forall_true {A} (f : A -> bool) l : forallb f l = true <-> Forall (fun x => f x = true) l.
Proof. rewrite forallb_forall, Forall_forall. setoid_rewrite list_elem_of_In. done. Qed.

Definition isContainer (t : Typ) : bool :=
  match t with TypeList _ | TypeMap _ => true | _ => false end.

(** The outermost constructor of a value fits the type. *)
Definition kindMatches (v : Value) (t : Typ) : bool :=
  match t, v with
  | TypeInt, VInt _ | TypeFloat, VFloat _ | TypeString, VString _ _ | TypeBool, VBool _
  | TypeNull, VNull | TypeBytes, VBytes _ | TypeFunc, VFunc _ _
  | TypeList _, VList _ _ | TypeMap _, VMap _ _ _ _
  | TypeTask _, VTask _ | TypeChannel _, VChannel _ => true
  | TypeStruct ns mp n, (VStruct ns' mp' n' _ | VEnum ns' mp' n' _ _) =>
      bool_decide (n' = n) && bool_decide (ns' = ns) && bool_decide (mp' = mp)
  | TypeStruct ns mp n, VObject ns' n' _ =>
      bool_decide (n' = n) && bool_decide (ns' = ns) && bool_decide ("" = mp)
  | _, _ => false
  end.

(** Deep conformance.  The element type of a task or channel lives on the shared
    handle, outside the value. *)
Fixpoint conforms (v : Value) (t : Typ) : Prop :=
  match t with
  | TypeList e =>
      match v with
      | VList l et =>
          et = e /\ match e with Some e => Forall (fun x => conforms x e) l | None => True end
      | _ => False
      end
  | TypeMap kv =>
      match v with
      | VMap m kt vt _ =>
          kt = option_map fst kv /\ vt = option_map snd kv /\
          match kv with
          | Some (k, x) => Forall (fun e => kindMatches (fst e) k = true /\ conforms (snd e) x) m
          | None => True
          end
      | _ => False
      end
  | t => kindMatches v t = true
  end.

Section Typing.
Context `{NativeObject, GoText}.
Variable tabs : Tables.

Definition fieldsTyped (ns mp name : string) (fs : list (string * Value)) : Prop :=
  forall def f t k x, lookupStructDef tabs ns name mp = Some def -> findDecl def f = Some t ->
    findField fs f 0 = Some (k, x) -> conforms x (fieldDeclType tabs ns mp t).

Fixpoint honest (v : Value) : Prop :=
  match v with
  | VList l et =>
      (forall e, et = Some e -> Forall (fun x => conforms x e) l) /\
      foldr (fun x Q => honest x /\ Q) True l
  | VMap m kt vt _ =>
      (forall k, kt = Some k -> Forall (fun e => kindMatches (fst e) k = true) m) /\
      (forall x, vt = Some x -> Forall (fun e => conforms (snd e) x) m) /\
      foldr (fun e Q => (honest (fst e) /\ honest (snd e)) /\ Q) True m
  | VStruct ns mp name fs =>
      fieldsTyped ns mp name fs /\ foldr (fun e Q => honest (snd e) /\ Q) True fs
  | VEnum _ _ _ _ fs => foldr (fun e Q => honest (snd e) /\ Q) True fs
  | _ => True
  end.

(** ** Conformance and the run-time check *)

Lemma MatchesDeclared_kind h v t : MatchesDeclared h v t = true -> kindMatches v t = true.
Proof. by destruct t, v. Qed.

Lemma conforms_kind v t : conforms v t -> kindMatches v t = true.
Proof. by destruct t, v. Qed.

Lemma conforms_scalar v t : isContainer t = false -> conforms v t <-> kindMatches v t = true.
Proof. by destruct t. Qed.

Lemma Type_Equal_refl t : Type_Equal t t = true.
Proof. by apply Type_Equal_spec. Qed.

(** A recorded container type is all the run-time check looks at. *)
Lemma conforms_matches h v t :
  isContainer t = true -> conforms v t -> MatchesDeclared h v t = true.
Proof.
  intros Ht Hc. destruct t as [ | | | | | | | e | kv | | | | ]; try done; destruct v; try done.
  - destruct Hc as [-> _]. simpl. destruct e; [apply Type_Equal_refl | ].
    by apply forallb_Forall_true, Forall_true.
  - destruct Hc as (-> & -> & _). destruct kv as [[k x] | ]; simpl.
    + by rewrite !Type_Equal_refl.
    + apply forallb_Forall_true, Forall_true. by intros [? ?].
Qed.

Lemma honest_list l et :
  honest (VList l et) <->
  (forall e, et = Some e -> Forall (fun x => conforms x e) l) /\ Forall honest l.
Proof. simpl. by rewrite foldr_and_Forall. Qed.

Lemma honest_map m kt vt idx :
  honest (VMap m kt vt idx) <->
  (forall k, kt = Some k -> Forall (fun e => kindMatches (fst e) k = true) m) /\
  (forall x, vt = Some x -> Forall (fun e => conforms (snd e) x) m) /\
  Forall (fun e => honest (fst e) /\ honest (snd e)) m.
Proof. simpl. by rewrite foldr_and_Forall. Qed.

Lemma honest_struct ns mp name fs :
  honest (VStruct ns mp name fs) <->
  fieldsTyped ns mp name fs /\ Forall (fun e => honest (snd e)) fs.
Proof. simpl. by rewrite foldr_and_Forall. Qed.

Lemma honest_enum ns mp name va fs :
  honest (VEnum ns mp name va fs) <-> Forall (fun e => honest (snd e)) fs.
Proof. simpl. by rewrite foldr_and_Forall. Qed.

#[local] Arguments honest : simpl never.

(** ** Stamping *)

Lemma stamp_scalar v t : isContainer t = false -> stampValue v t = v.
Proof. by destruct t. Qed.

(** The elements of a list that passed the check against element type [e]. *)
Lemma list_elements_match h l et e :
  honest (VList l et) -> MatchesDeclared h (VList l et) (TypeList (Some e)) = true ->
  Forall (fun x => honest x /\ (MatchesDeclared h x e = true \/ conforms x e)) l.
Proof.
  intros [Hc Hh]%honest_list Hm. apply Forall_and; split; [exact Hh | ].
  destruct et as [et | ]; simpl in Hm.
  - apply Type_Equal_spec in Hm as <-. eapply Forall_impl; [by apply Hc | auto].
  - apply forallb_Forall_true in Hm. eapply Forall_impl; [exact Hm | auto].
Qed.

Lemma map_values_match h m kt vt idx k x :
  honest (VMap m kt vt idx) -> MatchesDeclared h (VMap m kt vt idx) (TypeMap (Some (k, x))) = true ->
  Forall (fun e => (honest (fst e) /\ honest (snd e)) /\ kindMatches (fst e) k = true /\
                   (MatchesDeclared h (snd e) x = true \/ conforms (snd e) x)) m.
Proof.
  intros (Hk & Hx & Hh)%honest_map Hm. apply Forall_and; split; [exact Hh | ].
  assert (forallb (fun '(ek, ex) => MatchesDeclared h ek k && MatchesDeclared h ex x) m = true ->
    Forall (fun e => kindMatches (fst e) k = true /\
                   (MatchesDeclared h (snd e) x = true \/ conforms (snd e) x)) m) as Hgen.
  { intros Hf%forallb_Forall_true. eapply Forall_impl; [exact Hf | ]. intros [a b] [Ha Hb]%andb_true_iff.
    split; [by eapply MatchesDeclared_kind | by left]. }
  destruct kt as [kt | ], vt as [vt | ]; simpl in Hm; try by apply Hgen.
  apply andb_true_iff in Hm as [<-%Type_Equal_spec <-%Type_Equal_spec].
  apply Forall_and; split; [by apply Hk | ]. eapply Forall_impl; [by apply Hx | auto].
Qed.

Definition stampOK (t : Typ) : Prop := forall h v,
  honest v -> MatchesDeclared h v t = true -> conforms (stampValue v t) t /\ honest (stampValue v t).

(** What stamping does to one element. *)
Lemma stamp_element h e x :
  stampOK e -> honest x -> MatchesDeclared h x e = true \/ conforms x e ->
  conforms (if isContainer e then stampValue x e else x) e /\
  honest (if isContainer e then stampValue x e else x).
Proof.
  intros IH Hh Hm. destruct (isContainer e) eqn:He.
  - apply (IH h); [done | ]. destruct Hm as [ | Hc]; [done | by apply conforms_matches].
  - split; [ | done]. apply conforms_scalar; [done | ].
    destruct Hm; [by eapply MatchesDeclared_kind | by apply conforms_kind].
Qed.

Lemma stamp_list l et e :
  stampValue (VList l et) (TypeList (Some e)) =
  VList (map (fun x => if isContainer e then stampValue x e else x) l) (Some e).
Proof. simpl. f_equal. by destruct e; rewrite ?map_id. Qed.

Lemma stamp_map m kt vt idx k x :
  stampValue (VMap m kt vt idx) (TypeMap (Some (k, x))) =
  VMap (map (fun e => (fst e, if isContainer x then stampValue (snd e) x else snd e)) m)
       (Some k) (Some x) idx.
Proof.
  simpl. f_equal.
  destruct x; simpl; try (symmetry; rewrite <- (map_id m) at 2; apply map_ext; by intros []);
    apply map_ext; by intros [].
Qed.

Lemma stamp_conforms t : stampOK t.
Proof.
  induction t using Typ_deep_ind; intros h v Hh Hm;
    try (split; [by eapply MatchesDeclared_kind | done]).
  - destruct v as [ | | | | | | l et | | | | | | | ]; try done. destruct e as [e | ].
    + apply list_elements_match in Hm; [ | done]. rewrite stamp_list.
      assert (Forall (fun x => conforms x e /\ honest x)
        (map (fun x => if isContainer e then stampValue x e else x) l)) as HF.
      { apply Forall_map. eapply Forall_impl; [exact Hm | ]. intros x [Hx Hc]. eapply stamp_element; eauto. }
      apply Forall_and in HF as [HC HH]. split; [done | ]. apply honest_list.
      split; [by intros ? [= <-] | done].
    + simpl. split; [done | ]. apply honest_list. apply honest_list in Hh as [_ Hh]. done.
  - destruct v as [ | | | | | | | m kt vt idx | | | | | | ]; try done. destruct e as [[k x] | ].
    + apply map_values_match in Hm; [ | done]. rewrite stamp_map.
      assert (Forall (fun e => (honest (fst e) /\ honest (snd e)) /\
                               (kindMatches (fst e) k = true /\ conforms (snd e) x))
        (map (fun e => (fst e, if isContainer x then stampValue (snd e) x else snd e)) m)) as HF.
      { apply Forall_map. eapply Forall_impl; [exact Hm | ]. intros [a b] ([Ha Hb] & Hk & Hc).
        simpl. destruct (stamp_element h x b) as [? ?]; [by eapply H1 | | | ]; done. }
      apply Forall_and in HF as [HH HC]. split; [done | ]. apply honest_map.
      split; [ | split; [ | done]].
      * intros ? [= <-]. eapply Forall_impl; [exact HC | by intros ? []].
      * intros ? [= <-]. eapply Forall_impl; [exact HC | by intros ? []].
    + simpl. split; [done | ]. apply honest_map. apply honest_map in Hh as (_ & _ & Hh). done.
Qed.

(** ** Copying *)

Lemma kindMatches_DeepCopy v t : kindMatches (DeepCopy v) t = kindMatches v t.
Proof. by destruct t, v. Qed.

Lemma conforms_DeepCopy v t : conforms v t -> conforms (DeepCopy v) t.
Proof.
  revert v. induction t using Typ_deep_ind; intros v Hc;
    try (apply conforms_kind in Hc; unfold conforms; by rewrite kindMatches_DeepCopy).
  - destruct v; try done. destruct Hc as [-> Hc]. split; [done | ]. destruct e as [e | ]; [ | done].
    apply Forall_map. eapply Forall_impl; [exact Hc | auto].
  - destruct v; try done. destruct Hc as (-> & -> & Hc). split; [done | split; [done | ]].
    destruct e as [[k x] | ]; [ | done]. apply Forall_map. eapply Forall_impl; [exact Hc | ].
    intros [a b] [Ha Hb]. simpl in *. rewrite kindMatches_DeepCopy. split; [done | ].
    by eapply H1.
Qed.

Lemma findField_map (g : Value -> Value) fs f k :
  findField (map (fun '(f, x) => (f, g x)) fs) f k =
  (fun '(i, x) => (i, g x)) <$> findField fs f k.
Proof.
  revert k. induction fs as [ | [f' x] fs IH]; intros k; simpl; [done | ]. by case_bool_decide.
Qed.

Lemma honest_DeepCopy v : honest v -> honest (DeepCopy v).
Proof.
  induction v as [v Hv | l et IH | m kt vt idx IH | ns mp n fs IH | ns mp n va fs IH | ns n p x IH]
    using Value_deep_ind; intros Hh.
  - by destruct v.
  - apply honest_list in Hh as [Hc Hh]. apply honest_list. split.
    + intros e He. apply Forall_map. eapply Forall_impl; [by apply Hc | ]. intros. by apply conforms_DeepCopy.
    + apply Forall_map. eapply Forall_impl; [exact (proj2 (Forall_and _ _) (conj IH Hh)) | ]. by intros x [? ?]; auto.
  - apply honest_map in Hh as (Hk & Hx & Hh). apply honest_map. split; [ | split].
    + intros k' Hk'. apply Forall_map. eapply Forall_impl; [by apply Hk | ].
      intros [a b] Ha. simpl in *. by rewrite kindMatches_DeepCopy.
    + intros x' Hx'. apply Forall_map. eapply Forall_impl; [by apply Hx | ].
      intros [a b] Ha. by apply conforms_DeepCopy.
    + apply Forall_map. eapply Forall_impl; [exact (proj2 (Forall_and _ _) (conj IH Hh)) | ].
      intros [a b] [[? ?] [? ?]]; simpl in *; auto.
  - apply honest_struct in Hh as [Hc Hh]. apply honest_struct. split.
    + intros def f t k x Hdef Ht Hf. rewrite findField_map in Hf.
      destruct (findField fs f 0) as [[j y] | ] eqn:E; [ | done]. simplify_eq/=.
      apply conforms_DeepCopy. by eapply Hc.
    + apply Forall_map. eapply Forall_impl; [exact (proj2 (Forall_and _ _) (conj IH Hh)) | ].
      intros [a b] [? ?]; simpl in *; auto.
  - apply honest_enum in Hh. apply honest_enum. apply Forall_map.
    eapply Forall_impl; [exact (proj2 (Forall_and _ _) (conj IH Hh)) | ]. intros [a b] [? ?]; simpl in *; auto.
  - done.
Qed.

(** The copy stored by a checked write. *)
Lemma storedCopy_honest h v t v' h' :
  honest v -> mismatch h v t = false -> storedCopy h v t = (v', h') ->
  honest v' /\ forall e, t = Some e -> conforms v' e.
Proof.
  intros Hh Hm Hs. apply honest_DeepCopy in Hh. destruct t as [t | ]; simplify_eq/=;
    [ | by split; [ | discriminate]].
  apply negb_false_iff in Hm. rewrite <- MatchesDeclared_DeepCopy in Hm. destruct (stamp_conforms t h _ Hh Hm) as [Hc Hh'].
  injection Hs as <- <-. split; [exact Hh' | ]. intros e [= <-]. exact Hc.
Qed.

(** ** One write *)

(** What every write keeps: recorded types stay true, and the written value still
    conforms to whatever type its holder declared. *)
Definition keeps (v v' : Value) : Prop := honest v' /\ forall t, conforms v t -> conforms v' t.

Lemma Forall_setEntry (P : Value * Value -> Prop) m pos v :
  Forall P m -> (forall k x, P (k, x) -> P (k, v)) -> Forall P (setEntry m pos v).
Proof.
  intros HF HP. apply Forall_alter; [done | ]. intros [k x] _ Hx. simpl. by eapply HP.
Qed.

(** A list whose elements are replaced or extended by a checked value. *)
Lemma keeps_list l l' et v :
  honest (VList l et) -> honest v -> (forall e, et = Some e -> conforms v e) ->
  (forall P : Value -> Prop, Forall P l -> P v -> Forall P l') ->
  keeps (VList l et) (VList l' et).
Proof.
  intros [Hc Hh]%honest_list Hv Hve HF. split.
  - apply honest_list. split; [ | by apply HF]. intros e He. apply HF; auto.
  - intros t Ht. destruct t as [ | | | | | | | e | | | | | ]; try done. destruct Ht as [-> Ht].
    split; [done | ]. destruct e as [e | ]; [ | done]. apply HF; auto.
Qed.

Lemma keeps_map m m' kt vt idx idx' key v :
  honest (VMap m kt vt idx) -> honest v -> honest key ->
  (forall k, kt = Some k -> kindMatches key k = true) ->
  (forall x, vt = Some x -> conforms v x) ->
  (forall P : Value * Value -> Prop, Forall P m -> (forall k x, P (k, x) -> P (k, v)) ->
     P (key, v) -> Forall P m') ->
  keeps (VMap m kt vt idx) (VMap m' kt vt idx').
Proof.
  intros (Hk & Hx & Hh)%honest_map Hv Hkey Hkk Hvv HF. split.
  - apply honest_map. split; [ | split].
    + intros k Ek. apply HF; [by apply Hk | done | by apply Hkk].
    + intros x Ex. apply HF; [by apply Hx | by intros; apply Hvv | by apply Hvv].
    + apply HF; [done | | done]. intros k x [? _]. done.
  - intros t Ht. destruct t as [ | | | | | | | | kv | | | | ]; try done. destruct Ht as (-> & -> & Ht).
    split; [done | split; [done | ]]. destruct kv as [[k x] | ]; [ | done]. simpl in *.
    apply HF; [done | intros ? ? [? _] | ]; simpl; auto.
Qed.

Lemma keeps_mapPlace m kt vt idx pos pl v :
  honest (VMap m kt vt idx) -> mapPlace m kt vt idx pos = Some pl ->
  honest (fst pl) /\ (keeps (fst pl) v -> keeps (VMap m kt vt idx) (snd pl v)).
Proof.
  unfold mapPlace. intros Hh Hp. destruct (m !! pos) as [[k x] | ] eqn:E; simplify_eq/=.
  pose proof Hh as (Hk & Hx & Hall)%honest_map.
  assert (honest k /\ honest x) as [Hhk Hhx] by by eapply (Forall_lookup_1 _ _ _ _ Hall E).
  split; [done | ]. intros [Hv Hc]. split.
  - apply honest_map. split; [ | split].
    + intros k' Ek. apply Forall_setEntry; [by apply Hk | done].
    + intros x' Ex. specialize (Hx _ Ex). apply Forall_alter; [done | ].
      intros e Ee _. simplify_eq/=. apply Hc. by apply (Forall_lookup_1 _ _ _ _ Hx E).
    + apply Forall_alter; [done | ]. intros e Ee _. by simplify_eq/=.
  - intros t Ht. destruct t as [ | | | | | | | | kv | | | | ]; try done. destruct Ht as (-> & -> & Ht).
    split; [done | split; [done | ]]. destruct kv as [[k' x'] | ]; [ | done].
    apply Forall_alter; [done | ]. intros e Ee [? ?]. simplify_eq/=. auto.
Qed.

Lemma writeMap_Upsert m kt vt mi idx stored :
  writeMap m kt vt mi idx stored = UpsertKey (VMap m kt vt mi) (Copy idx) stored.
Proof.
  assert (mapKeyEncode (Copy idx) = mapKeyEncode idx) as E by by destruct idx.
  assert (forall j, scanKey j m (Copy idx) = scanKey j m idx) as Es.
  { induction m as [ | [k x] m IH]; intros j; simpl; [done | ]. rewrite IH.
    unfold Copy. by rewrite Equal_DeepCopy_r. }
  unfold writeMap, UpsertKey, writeScan, upsertScan. rewrite E, !Es. done.
Qed.

(** [UpsertKey] replaces one value or appends one entry. *)
Lemma Forall_Upsert m kt vt mi key v :
  exists m' mi', UpsertKey (VMap m kt vt mi) key v = VMap m' kt vt mi' /\
    forall P : Value * Value -> Prop, Forall P m -> (forall k x, P (k, x) -> P (k, v)) ->
      P (key, v) -> Forall P m'.
Proof.
  assert (forall pos, forall P : Value * Value -> Prop, Forall P m ->
    (forall k x, P (k, x) -> P (k, v)) -> P (key, v) -> Forall P (setEntry m pos v)) as Hset.
  { intros. by apply Forall_setEntry. }
  assert (forall P : Value * Value -> Prop, Forall P m ->
    (forall k x, P (k, x) -> P (k, v)) -> P (key, v) -> Forall P (m ++ [(key, v)])) as Happ.
  { intros. apply Forall_app. split; [done | by constructor]. }
  assert (forall mi, exists m' mi', upsertScan m kt vt mi key v = VMap m' kt vt mi' /\
    forall P : Value * Value -> Prop, Forall P m -> (forall k x, P (k, x) -> P (k, v)) ->
      P (key, v) -> Forall P m') as Hscan.
  { intros mi0. unfold upsertScan. destruct (scanKey 0 m key); eexists _, _; split; eauto. }
  cbn [UpsertKey]. destruct (mapKeyEncode key) as [enc | ]; [ | by apply Hscan].
  destruct (if mapIndexUsable m mi then mi else buildIndex m) as [idx | ]; [ | by apply Hscan].
  split_if; [ | by apply Hscan]. destruct (idx !! enc); eexists _, _; split; eauto.
Qed.

Lemma writeIndexedSlot_keeps h parent idx newVal p v' h' :
  honest parent -> honest idx -> honest newVal ->
  writeIndexedSlot h parent idx newVal p = Ok (v', h') -> keeps parent v'.
Proof.
  intros Hp Hi Hn Hw. destruct parent; try done; simpl in Hw.
  - destruct idx; try done. split_if_in Hw; [ | done].
    destruct (rbind_Ok_inv _ _ _ Hw) as (b & _ & [= <- _]). split; [done | ]. by intros [].
  - destruct idx; try done. split_if_in Hw; [ | done]. split_if_in Hw; [done | ].
    destruct (storedCopy h newVal ElemTyp) as [stored h''] eqn:Es. simplify_eq.
    destruct (storedCopy_honest _ _ _ _ _ Hn Heqb0 Es) as [Hs Hc].
    apply keeps_list with stored; [done | done | done | ]. intros P HP Hst. by apply Forall_insert.
  - split_if_in Hw; [done | ]. split_if_in Hw; [done | ].
    destruct (storedCopy h newVal ValTyp) as [stored h''] eqn:Es. simplify_eq.
    destruct (storedCopy_honest _ _ _ _ _ Hn Heqb0 Es) as [Hs Hc]. rewrite writeMap_Upsert.
    destruct (Forall_Upsert Map_ KeyTyp ValTyp mapIdx (Copy idx) stored) as (m' & mi' & -> & HF).
    apply (keeps_map _ _ _ _ _ _ (Copy idx) stored);
      [done | exact Hs | by apply honest_DeepCopy | | done | exact HF].
    intros k ->. simpl in Heqb. apply negb_false_iff in Heqb.
    unfold Copy. rewrite kindMatches_DeepCopy. by eapply MatchesDeclared_kind.
Qed.

Lemma appendInto_keeps h container newVal p v' h' :
  honest container -> honest newVal ->
  appendInto h container newVal p = Ok (v', h') -> keeps container v'.
Proof.
  intros Hp Hn Hw. destruct container; try done; simpl in Hw.
  - destruct (rbind_Ok_inv _ _ _ Hw) as (b & _ & [= <- _]). split; [done | ]. by intros [].
  - split_if_in Hw; [done | ].
    destruct (storedCopy h newVal ElemTyp) as [stored h''] eqn:Es. simplify_eq.
    destruct (storedCopy_honest _ _ _ _ _ Hn Heqb Es) as [Hs Hc].
    apply keeps_list with stored; [done | done | done | ]. intros P HP Hst.
    apply Forall_app. split; [done | by constructor].
Qed.

(** ** Struct fields *)

Lemma findField_lookup fs f k i x :
  findField fs f k = Some (i, x) ->
  (k <= i)%nat /\ fs !! (i - k)%nat = Some (f, x).
Proof.
  revert k. induction fs as [ | [f' y] fs IH]; intros k; simpl; [done | ].
  case_bool_decide as E.
  - intros [= <- <-]. subst f'. split; [lia | ]. by rewrite Nat.sub_diag.
  - intros [? ?]%IH. split; [lia | ]. by replace (i - k)%nat with (S (i - S k)) by lia.
Qed.

(** Reading a field after storing at the position [findField] found. *)
Lemma findField_setField fs f k i x v g :
  findField fs f k = Some (i, x) ->
  findField (setField fs (i - k) v) g k =
  if bool_decide (g = f) then Some (i, v) else findField fs g k.
Proof.
  revert k. induction fs as [ | [f' y] fs IH]; intros k; cbn [findField]; [done | ].
  destruct (decide (f' = f)) as [-> | Hne].
  - rewrite bool_decide_eq_true_2 by done. intros [= <- <-]. rewrite Nat.sub_diag. simpl.
    repeat case_bool_decide; congruence.
  - rewrite (bool_decide_eq_false_2 (f' = f)) by done. intros Hf. pose proof (findField_lookup _ _ _ _ _ Hf) as [? _].
    replace (i - k)%nat with (S (i - S k)) by lia.
    specialize (IH _ Hf). revert IH. simpl. repeat case_bool_decide; congruence.
Qed.

Lemma findField_snoc fs f v g k :
  findField fs f k = None ->
  findField (fs ++ [(f, v)]) g k =
  if bool_decide (g = f) then Some ((k + length fs)%nat, v) else findField fs g k.
Proof.
  revert k. induction fs as [ | [f' y] fs IH]; intros k; simpl.
  - intros _. rewrite Nat.add_0_r. repeat case_bool_decide; congruence.
  - destruct (decide (f' = f)) as [-> | Hne]; [by rewrite bool_decide_eq_true_2 | ].
    rewrite (bool_decide_eq_false_2 (f' = f)) by done. intros Hn. specialize (IH _ Hn).
    replace (k + S (length fs))%nat with (S k + length fs)%nat by lia.
    revert IH. repeat case_bool_decide; congruence.
Qed.

(** Replacing one field's value by one of the declared type. *)
Lemma keeps_struct ns mp name fs fs' f v :
  honest (VStruct ns mp name fs) -> honest v ->
  (forall def t, lookupStructDef tabs ns name mp = Some def -> findDecl def f = Some t ->
     conforms v (fieldDeclType tabs ns mp t)) ->
  (forall g k x, findField fs' g 0 = Some (k, x) -> g = f /\ x = v \/ findField fs g 0 = Some (k, x)) ->
  Forall (fun e => honest (snd e)) fs' ->
  keeps (VStruct ns mp name fs) (VStruct ns mp name fs').
Proof.
  intros [Ht Hh]%honest_struct Hv Hc Hf HF. split; [ | by intros []].
  apply honest_struct. split; [ | done]. intros def g t k x Hd Hg Hx.
  destruct (Hf _ _ _ Hx) as [[-> ->] | Hx']; [by eapply Hc | by eapply Ht].
Qed.

(** ** Lvalue chains *)

Lemma place_keeps h parent step pl v :
  honest parent -> lvalueStepInto h parent step = Ok pl ->
  honest (fst pl) /\ (keeps (fst pl) v -> keeps parent (snd pl v)).
Proof.
  intros Hp Hs. destruct step as [idx p | f p]; simpl in Hs.
  - destruct parent; try done.
    + destruct idx; try done. simpl in Hs.
      destruct (if inBounds n (length List_) then List_ !! Z.to_nat n else None) as [x | ] eqn:E;
        [ | done]. split_if_in E; [ | done]. simplify_eq. simpl.
      pose proof Hp as [Hc Hh]%honest_list. split; [by eapply Forall_lookup_1 | ].
      intros [Hv Hvc]. split.
      * apply honest_list. split; [ | by apply Forall_insert]. intros e He.
        apply Forall_insert; [by apply Hc | ]. apply Hvc. specialize (Hc _ He). by eapply Forall_lookup_1 in Hc.
      * intros t Ht. destruct t; try done. destruct Ht as [-> Ht]. split; [done | ].
        destruct Element as [e | ]; [ | done]. apply Forall_insert; [done | ]. apply Hvc.
        by eapply Forall_lookup_1 in Ht.
    + unfold indexInto in Hs.
      match type of Hs with context [match ?o with Some pl => Ok pl | None => _ end] =>
        destruct o as [pl' | ] eqn:E; [ | done] end.
      injection Hs as <-. apply bind_Some in E as (pos & _ & E). by eapply keeps_mapPlace.
  - destruct parent; try done. destruct (findField Fields f 0) as [[k x] | ] eqn:E; [ | done].
    simplify_eq/=. pose proof Hp as [Ht Hh]%honest_struct.
    pose proof (findField_lookup _ _ _ _ _ E) as [_ El]. rewrite Nat.sub_0_r in El.
    assert (honest x) as Hx by apply (Forall_lookup_1 _ _ _ _ Hh El). split; [done | ].
    intros [Hv Hvc]. apply keeps_struct with f v; [done | done | | | ].
    + intros def t Hd Hf. apply Hvc. by eapply Ht.
    + intros g j y Hg. pose proof (findField_setField _ _ _ _ _ v g E) as Eg.
      rewrite Nat.sub_0_r in Eg. rewrite Eg in Hg. case_bool_decide; simplify_eq; auto.
    + apply Forall_alter; [done | ]. intros [? ?] ? ?. done.
Qed.

Definition stepHonest (s : lvalueStep) : Prop :=
  match s with StepIndex idx _ => honest idx | StepField _ _ => True end.

Lemma leaf_keeps h parent step newVal v' h' :
  honest parent -> stepHonest step -> honest newVal ->
  lvalueWriteLeaf h tabs parent step newVal = Ok (v', h') -> keeps parent v'.
Proof.
  intros Hp Hs Hn Hw. destruct step as [idx p | f p]; cbn in Hw;
    [by eapply (writeIndexedSlot_keeps h parent idx newVal) | ].
  destruct parent; try done.
  destruct (lookupStructDef tabs StructNS StructName ModPath) as [def | ] eqn:Ed; [ | done].
  destruct (findDecl def f) as [t | ] eqn:Ef; [ | done]. split_if_in Hw; [done | ].
  destruct (storedCopy_honest h newVal (Some (fieldDeclType tabs StructNS ModPath t)) _ _ Hn Heqb eq_refl)
    as [Hst Hc].
  assert (forall def' t', lookupStructDef tabs StructNS StructName ModPath = Some def' ->
    findDecl def' f = Some t' ->
    conforms (stampValue (Copy newVal) (fieldDeclType tabs StructNS ModPath t))
      (fieldDeclType tabs StructNS ModPath t')) as Hty.
  { intros def' t' Hd' Ht'. apply Hc. congruence. }
  pose proof Hp as [_ Hh]%honest_struct.
  destruct (findField Fields f 0) as [[k x] | ] eqn:E; injection Hw as <- <-.
  - eapply keeps_struct; [done | exact Hst | exact Hty | | ].
    + intros g j y Hg. pose proof (findField_setField _ _ _ _ _ (stampValue (Copy newVal)
        (fieldDeclType tabs StructNS ModPath t)) g E) as Eg.
      rewrite Nat.sub_0_r in Eg. rewrite Eg in Hg. case_bool_decide; simplify_eq; auto.
    + apply Forall_alter; [done | ]. intros [? ?] ? ?. done.
  - eapply keeps_struct; [done | exact Hst | exact Hty | | ].
    + intros g j y Hg. rewrite findField_snoc in Hg by done. case_bool_decide; simplify_eq; auto.
    + apply Forall_app. split; [done | by constructor].
Qed.

Lemma write_keeps h root steps newVal st v' h' :
  honest root -> Forall stepHonest steps -> honest newVal ->
  applyLvalueWrite h tabs root steps newVal st = Ok (v', h') -> keeps root v'.
Proof.
  intros Hr Hs Hn. revert root Hr v' h'. induction Hs as [ | s steps Hs1 _ IH]; intros root Hr v' h' Hw;
    [done | ]. destruct steps as [ | s2 steps]; [exact (leaf_keeps _ _ _ _ _ _ Hr Hs1 Hn Hw) | ].
  change (applyLvalueWrite h tabs root (s :: s2 :: steps) newVal st) with
    (rbind (lvalueStepInto h root s) (fun pl =>
      rbind (applyLvalueWrite h tabs (fst pl) (s2 :: steps) newVal st) (fun r =>
        Ok (snd pl (fst r), snd r)))) in Hw.
  apply rbind_Ok_inv in Hw as (pl & Hpl & Hw). apply rbind_Ok_inv in Hw as ([r hr] & Hw & [= <- <-]).
  destruct (place_keeps _ _ _ _ r Hr Hpl) as [Hx Hk]. apply Hk. by eapply IH.
Qed.

(** ** Stamping does not change what a value equals *)

Lemma skeleton_stamp v t : skeleton (stampValue v t) = skeleton v.
Proof.
  revert v. induction t using Typ_deep_ind; intros v; try done; destruct v; try done.
  - destruct e as [e | ]; [ | done]. rewrite stamp_list. unfold skeleton in *. cbn. f_equal.
    rewrite map_map. apply map_ext. intros x. by destruct (isContainer e); rewrite ?H1.
  - destruct e as [[k x] | ]; [ | done]. rewrite stamp_map. unfold skeleton in *. cbn. f_equal.
    rewrite map_map. apply map_ext. intros [a b]. simpl. f_equal.
    destruct (isContainer x); [ | done]. by apply (H1 k x).
Qed.

Lemma Equal_skeleton v v' o : skeleton v = skeleton v' -> Equal v o = Equal v' o.
Proof.
  intros E. rewrite (Equal_erase (fun _ => None) v), (Equal_erase (fun _ => None) v').
  unfold skeleton in E. by rewrite E.
Qed.

Lemma storedCopy_Equal h v t v' h' o : storedCopy h v t = (v', h') -> Equal v' o = Equal v o.
Proof.
  intros Hs. apply Equal_skeleton. unfold storedCopy in Hs.
  destruct t as [t | ]; injection Hs as <- _; rewrite ?skeleton_stamp; apply erase_DeepCopy.
Qed.

(** ** Reading back a write *)

(** Two indexes that address the same element of [parent]. *)
Definition sameSlot (parent idx idx' : Value) : bool :=
  match parent with
  | VMap _ _ _ _ => Equal idx idx'
  | _ => match idx, idx' with VInt n, VInt n' => n =? n' | _, _ => false end
  end.

(** A map's index invariant holds and the key is hashable; nothing for a list. *)
Definition readOK (parent idx : Value) : Prop :=
  match parent with
  | VMap _ _ _ _ => mapOK parent /\ scalarOK idx /\ is_Some (mapKeyEncode idx)
  | _ => True
  end.

Lemma applyIndex_map h m kt vt mi idx p :
  applyIndex h (VMap m kt vt mi) idx p =
  match mapGet (VMap m kt vt mi) idx with
  | Some x => Ok x
  | None => rtErr p "map has no entry for key %s" [AStr (Display h idx)]
  end.
Proof.
  unfold applyIndex, indexInto, mapGet, LookupKey, mapPlace. cbn [entriesOf].
  match goal with |- context [mbind _ ?o] => destruct o as [pos | ] end; [ | done]. simpl.
  by destruct (m !! pos) as [[k x] | ].
Qed.

Lemma mapOK_Copy_key idx : scalarOK idx -> is_Some (mapKeyEncode idx) ->
  scalarOK (Copy idx) /\ is_Some (mapKeyEncode (Copy idx)) /\ forall o, Equal (Copy idx) o = Equal idx o.
Proof. destruct idx; try done; by intros ? [? ?]. Qed.

Lemma inBounds_lookup {A} (l : list A) n : inBounds n (length l) = true -> is_Some (l !! Z.to_nat n).
Proof. unfold inBounds. intros Hb. b2p. apply lookup_lt_is_Some_2. lia. Qed.

(** The list and bytes case of reading back: one position changes. *)
Lemma insert_lookup_bounds {A} (l : list A) n n' (x : A) :
  inBounds n (length l) = true ->
  (if inBounds n' (length (<[Z.to_nat n := x]> l)) then <[Z.to_nat n := x]> l !! Z.to_nat n' else None) =
  if n =? n' then Some x else if inBounds n' (length l) then l !! Z.to_nat n' else None.
Proof.
  intros Hb. rewrite length_insert. unfold inBounds in *. b2p. destruct (Z.eqb_spec n n') as [<- | Hne].
  - rewrite (proj2 (Z.ltb_ge _ _)), (proj2 (Z.leb_gt _ _)) by lia. simpl.
    apply list_lookup_insert_eq. lia.
  - destruct (Z.ltb_spec n' 0); [done | ]. destruct (Z.leb_spec (Z.of_nat (length l)) n'); [done | ].
    simpl. apply list_lookup_insert_ne. lia.
Qed.

Lemma matches_stampHandles h v t :
  isContainer t = false -> MatchesDeclared h v t = true ->
  MatchesDeclared (stampHandles h v t) v t = true.
Proof.
  intros Ht Hm. destruct t as [ | | | | | | | | | | [e | ] | | [e | ]]; try done; destruct v; try done;
    simpl in *.
  - destruct Task as [q | ]; [ | done]. simpl in *. rewrite lookup_alter_eq.
    destruct (taskStates h !! q) as [i | ]; [ | done]. simpl in *.
    destruct (task_ElemTyp i); [done | apply Type_Equal_refl].
  - destruct Chan as [q | ]; [ | done]. simpl in *. rewrite lookup_alter_eq.
    destruct (chanStates h !! q) as [i | ]; [ | done]. simpl in *.
    destruct (chan_ElemTyp i); [done | apply Type_Equal_refl].
Qed.

Lemma stampDeclaredType_typed h v t v' h' :
  honest v -> MatchesDeclared h v t = true -> stampDeclaredType h (Copy v) t = (v', h') ->
  conforms v' t /\ honest v' /\ MatchesDeclared h' v' t = true /\ forall o, Equal v' o = Equal v o.
Proof.
  intros Hh Hm Hs. pose proof (honest_DeepCopy _ Hh) as HhC.
  assert (MatchesDeclared h (DeepCopy v) t = true) as HmC.
  { by rewrite MatchesDeclared_DeepCopy. }
  destruct (stamp_conforms t h _ HhC HmC) as [Hc Hh'].
  pose proof (fun o => storedCopy_Equal h v (Some t) v' h' o Hs) as He.
  injection Hs as <- <-. split; [exact Hc | ]. split; [exact Hh' | ]. split; [ | exact He].
  destruct (isContainer t) eqn:Ht; [by apply conforms_matches | ].
  rewrite stamp_scalar by done. by apply matches_stampHandles.
Qed.

(** ** Theorems *)

(** C12: binding a value to a declared type establishes the type.  When a value
    whose recorded types are true passes the declared-type check, the value bound to
    the parameter conforms to the type at every nesting level (each nested container
    carries its own element type), passes the same check under the updated task and
    channel states, and equals the argument. *)
Theorem bind_establishes_type (h : Handles) (v : Value) (t : Typ)
    (Hh : honest v) (Hm : MatchesDeclared h v t = true) :
  conforms (fst (bindParamValue h v t)) t /\
  honest (fst (bindParamValue h v t)) /\
  MatchesDeclared (snd (bindParamValue h v t)) (fst (bindParamValue h v t)) t = true /\
  forall o, Equal (fst (bindParamValue h v t)) o = Equal v o.
Proof.
  destruct v; try (split; [by destruct t | by split]);
    eapply stampDeclaredType_typed; done.
Qed.

(** C5: every write keeps the declared types.  Through any chain of index and field
    steps, and by append, a write that succeeds leaves every recorded element, key,
    value and struct-field type true, at every nesting level, and the whole value
    still conforms to any type it conformed to before: in particular the type its
    variable was declared with. *)
Theorem writes_keep_declared_types (h h' : Handles) (root newVal v' : Value)
    (steps : list lvalueStep) (st : position)
    (Hr : honest root) (Hs : Forall stepHonest steps) (Hn : honest newVal)
    (Hw : applyLvalueWrite h tabs root steps newVal st = Ok (v', h') \/
          appendInto h root newVal st = Ok (v', h')) :
  honest v' /\ forall t, conforms root t -> conforms v' t.
Proof.
  destruct Hw as [Hw | Hw]; [by eapply write_keeps | by eapply appendInto_keeps].
Qed.

(** An element write is read back, and touches nothing else.  After
    [parent[idx] = newVal] succeeds, reading an index that addresses the same element
    (the same list or byte position, a key comparing equal in a map) yields a value
    equal to the one written, and reading any other index, in range or not, gives
    exactly what it gave before. *)
Theorem index_write_read (h h' h2 : Handles) (parent idx idx' newVal parent' : Value)
    (p q : position)
    (Hi : readOK parent idx) (Hi' : readOK parent idx')
    (Hw : writeIndexedSlot h parent idx newVal p = Ok (parent', h')) :
  exists stored, (forall o, Equal stored o = Equal newVal o) /\
    applyIndex h2 parent' idx' q =
    if sameSlot parent idx idx' then Ok stored else applyIndex h2 parent idx' q.
Proof.
  destruct parent; try done; simpl in Hw.
  - destruct idx; try done. split_if_in Hw; [ | done].
    apply rbind_Ok_inv in Hw as (b & Hb & [= <- <-]). exists (VInt b). split.
    { destruct newVal; try done. simpl in Hb. split_if_in Hb; by simplify_eq. }
    destruct idx'; try done. cbn [applyIndex readByteAt sameSlot].
    rewrite insert_lookup_bounds by done. unfold lenArg. rewrite length_insert. by split_if.
  - destruct idx; try done. split_if_in Hw; [ | done]. split_if_in Hw; [done | ].
    destruct (storedCopy h newVal ElemTyp) as [stored h''] eqn:Es. simplify_eq. exists stored.
    split; [intros; by eapply storedCopy_Equal | ].
    destruct idx'; try done. cbn [applyIndex indexInto sameSlot].
    rewrite insert_lookup_bounds by done. unfold lenArg. rewrite length_insert. split_if; [done | ].
    by destruct (if inBounds n0 _ then _ else _).
  - split_if_in Hw; [done | ]. split_if_in Hw; [done | ].
    destruct (storedCopy h newVal ValTyp) as [stored h''] eqn:Es. simplify_eq. exists stored.
    split; [intros; by eapply storedCopy_Equal | ].
    destruct Hi as (Hok & Hsi & Hhi), Hi' as (_ & Hsi' & Hhi').
    destruct (mapOK_Copy_key idx Hsi Hhi) as (Hsc & Hhc & Heq).
    rewrite writeMap_Upsert.
    pose proof (mapGet_Upsert Map_ KeyTyp ValTyp mapIdx (Copy idx) idx' stored Hok Hsc Hsi' Hhc Hhi') as E.
    destruct (Forall_Upsert Map_ KeyTyp ValTyp mapIdx (Copy idx) stored) as (m' & mi' & Eu & _).
    rewrite Eu in *. rewrite !applyIndex_map, E, Heq. cbn [sameSlot]. by split_if.
Qed.

End Typing.

(** ** A concrete instance *)

Definition plainText : GoText :=
  {| FormatFloat := fun _ => "?"; Quote := fun s => s; render := msg_format;
     objectDisplayer := fun _ _ => None |}.

Definition noHandles : Handles := {| taskStates := ∅; chanStates := ∅ |}.

Definition p0 : position := Pos "a.j" 1 2.

Definition boxDef : StructDef :=
  {| struct_pos := p0; struct_Name := "Box"; struct_Exported := false;
     struct_Fields := [{| field_Name := "rows"; field_Type := TypeList (Some (TypeList (Some TypeInt)));
                          field_pos := p0 |}] |}.

Definition demoTables : Tables := mkTables {["Box" := boxDef]} ∅ ∅ ∅.

Definition demoRows : Value := VList [VList [VInt 1] (Some TypeInt)] (Some (TypeList (Some TypeInt))).
Definition demoBox : Value := VStruct "" "" "Box" [("rows", demoRows)].

Lemma demoBox_honest : honest demoTables demoBox.
Proof.
  split; [ | split; [ | done]].
  - intros def f t k x Hd Hf Hx. vm_compute in Hd. injection Hd as <-. simpl in Hx.
    case_bool_decide as E; [ | done]. rewrite <- E in Hf. vm_compute in Hf.
    injection Hf as <-. injection Hx as _ <-. repeat (split || constructor).
  - split; [intros e [= <-]; repeat (split || constructor) | ].
    repeat split; try done. intros e [= <-]. by repeat constructor.
Qed.

Lemma bind_establishes_type_witness :
  conforms (fst (bindParamValue noHandles (VList [VList [VInt 1] None] None)
                   (TypeList (Some (TypeList (Some TypeInt))))))
           (TypeList (Some (TypeList (Some TypeInt)))).
Proof.
  refine (proj1 (@bind_establishes_type identityNative demoTables noHandles
    (VList [VList [VInt 1] None] None) (TypeList (Some (TypeList (Some TypeInt)))) _ eq_refl)).
  repeat split; discriminate.
Defined.

Lemma writes_keep_declared_types_witness :
  match @applyLvalueWrite identityNative plainText noHandles demoTables demoBox
          [StepField "rows" p0; StepIndex (VInt 0) p0] (VList [VInt 7] None) p0 with
  | Ok (v', _) => honest demoTables v'
  | Err _ => False
  end.
Proof.
  destruct (@applyLvalueWrite identityNative plainText noHandles demoTables demoBox
          [StepField "rows" p0; StepIndex (VInt 0) p0] (VList [VInt 7] None) p0)
    as [[v' h'] | e] eqn:E.
  - refine (proj1 (@writes_keep_declared_types identityNative plainText demoTables noHandles h'
      demoBox (VList [VInt 7] None) v' [StepField "rows" p0; StepIndex (VInt 0) p0] p0
      demoBox_honest _ _ (or_introl E))).
    + repeat constructor.
    + repeat split; discriminate.
  - vm_compute in E. discriminate.
Defined.

Lemma index_write_read_witness :
  exists stored, (forall o, @Equal identityNative stored o = @Equal identityNative (VInt 9) o) /\
    @applyIndex identityNative plainText noHandles (VList [VInt 1; VInt 9] (Some TypeInt)) (VInt 1) p0
    = Ok stored.
Proof.
  exact (@index_write_read identityNative plainText noHandles noHandles noHandles
    (VList [VInt 1; VInt 2] (Some TypeInt)) (VInt 1) (VInt 1) (VInt 9)
    (VList [VInt 1; VInt 9] (Some TypeInt)) p0 p0 I I eq_refl).
Defined.

(** * Slices and ranges *)

(** ** Decoding, one rune at a time *)

Definition width (s : string) : nat := snd (decodeRune s).

Ltac decode_cases :=
  repeat match goal with
  | |- context [if ?b then _ else _] => destruct b
  | |- context [match ?s with EmptyString => _ | String _ _ => _ end] => is_var s; destruct s
  end.

Lemma width_bounds c s : (1 <= width (String c s) <= String.length (String c s))%nat.
Proof. unfold width, decodeRune. decode_cases; simpl; lia. Qed.

Lemma runes_fuel_enough f f' s :
  (String.length s <= f)%nat -> (String.length s <= f')%nat -> runes_fuel f s = runes_fuel f' s.
Proof.
  revert f' s. induction f as [ | f IH]; intros [ | f'] [ | c s] H H'; simpl in H, H'; try done; try lia.
  cbn [runes_fuel]. pose proof (width_bounds c s) as Hw. unfold width in Hw.
  destruct (decodeRune (String c s)) as [r w]. f_equal. simpl in Hw.
  apply IH; rewrite sdrop_length; simpl; lia.
Qed.

Lemma runes_cons c s :
  runes_of_string (String c s) =
  fst (decodeRune (String c s)) :: runes_of_string (sdrop (width (String c s)) (String c s)).
Proof.
  unfold runes_of_string, width. cbn [String.length runes_fuel].
  pose proof (width_bounds c s) as Hw. unfold width in Hw.
  destruct (decodeRune (String c s)) as [r w]. simpl in Hw |- *. f_equal.
  apply runes_fuel_enough; rewrite sdrop_length; simpl; lia.
Qed.

(** A prefix that contains the first rune decodes it the same way. *)
Lemma decodeRune_prefix n s :
  (width s <= n)%nat -> (n <= String.length s)%nat ->
  decodeRune (String.substring 0 n s) = decodeRune s.
Proof.
  unfold width. destruct s as [ | c0 s]; intros H Hl; [by destruct n | ].
  destruct n as [ | n].
  { pose proof (width_bounds c0 s) as Hw. unfold width in Hw. lia. }
  revert H Hl. unfold decodeRune. simpl.
  destruct (byte_of c0 <? 128); [done | ]. destruct (in_range 194 223 _); [ | destruct (in_range 224 239 _);
    [ | destruct (in_range 240 244 _); [ | done]]].
  - destruct s as [ | c1 s], n as [ | n]; simpl; try done; try lia. split_if; simpl; [lia | done].
  - destruct s as [ | c1 [ | c2 s]], n as [ | [ | n]]; simpl; try done; split_if; simpl; lia || done.
  - destruct s as [ | c1 [ | c2 [ | c3 s]]], n as [ | [ | [ | n]]]; simpl; try done;
      split_if; simpl; lia || done.
Qed.

(** ** Byte offsets of runes *)

Lemma sdrop_add a b s : sdrop b (sdrop a s) = sdrop (a + b) s.
Proof.
  revert s. induction a as [ | a IH]; intros s; [done | ]. destruct s; simpl; [by destruct b | done].
Qed.

Lemma substring_sdrop a m s : String.substring a m s = String.substring 0 m (sdrop a s).
Proof.
  revert s. induction a as [ | a IH]; intros [ | c s]; simpl; try done. by destruct m.
Qed.

Lemma sdrop_substring a m s :
  sdrop a (String.substring 0 (a + m) s) = String.substring 0 m (sdrop a s).
Proof.
  revert s. induction a as [ | a IH]; intros s; [done | ]. destruct s; simpl; [by destruct m | done].
Qed.

Lemma skipRunes_runes n s : runes_of_string (skipRunes n s) = drop n (runes_of_string s).
Proof.
  revert s. induction n as [ | n IH]; intros s; simpl; [done | ]. rewrite IH.
  destruct s as [ | c s]; [by destruct n | ]. by rewrite (runes_cons c s).
Qed.

(** Number of bytes of the first [n] runes. *)
Definition runeOffset (n : nat) (s : string) : nat :=
  (String.length s - String.length (skipRunes n s))%nat.

Lemma skipRunes_length n s : (String.length (skipRunes n s) <= String.length s)%nat.
Proof.
  revert s. induction n as [ | n IH]; intros s; simpl; [done | ].
  etransitivity; [apply IH | ]. rewrite sdrop_length. lia.
Qed.

Lemma runeOffset_S n c s :
  runeOffset (S n) (String c s) =
  (width (String c s) + runeOffset n (sdrop (width (String c s)) (String c s)))%nat.
Proof.
  unfold runeOffset. cbn [skipRunes]. fold (width (String c s)).
  pose proof (width_bounds c s). pose proof (skipRunes_length n (sdrop (width (String c s)) (String c s))).
  rewrite sdrop_length in *. lia.
Qed.

Lemma runes_prefix n s :
  runes_of_string (String.substring 0 (runeOffset n s) s) = take n (runes_of_string s).
Proof.
  revert s. induction n as [ | n IH]; intros s.
  { unfold runeOffset. simpl. rewrite Nat.sub_diag. by destruct s. }
  destruct s as [ | c s]; [done | ]. rewrite runeOffset_S, (runes_cons c s). cbn [take].
  remember (String c s) as t eqn:Et. pose proof (width_bounds c s) as Hw. rewrite <- Et in Hw.
  pose proof (decodeRune_prefix (width t + runeOffset n (sdrop (width t) t)) t) as Hd.
  assert (exists c' s', String.substring 0 (width t + runeOffset n (sdrop (width t) t)) t = String c' s')
    as (c' & s' & Es).
  { subst t. destruct (width (String c s)); [lia | ]. simpl. eauto. }
  assert (runeOffset n (sdrop (width t) t) <= String.length t - width t)%nat as Hle.
  { unfold runeOffset. rewrite sdrop_length. lia. }
  specialize (Hd ltac:(lia) ltac:(lia)). rewrite Es in Hd |- *. rewrite runes_cons.
  assert (width (String c' s') = width t) as -> by (unfold width; by rewrite Hd).
  rewrite Hd. f_equal. rewrite <- Es, sdrop_substring. apply IH.
Qed.

(** When there are as many runes as bytes, every rune is one byte wide. *)
Lemma ascii_skip n s :
  String.length s = RuneCountInString s -> skipRunes n s = sdrop n s.
Proof.
  assert (forall s, (RuneCountInString s <= String.length s)%nat) as Hle.
  { intros t. remember (String.length t) as k eqn:Ek. assert (String.length t <= k)%nat as H by lia.
    clear Ek. revert t H. unfold RuneCountInString.
    induction k as [ | k IH]; intros [ | c t] H; simpl in H; [simpl; lia | lia | simpl; lia | ].
    rewrite runes_cons. cbn [length]. pose proof (width_bounds c t) as Hw.
    specialize (IH (sdrop (width (String c t)) (String c t))). rewrite sdrop_length in IH.
    simpl in Hw, IH. specialize (IH ltac:(lia)). lia. }
  revert s. induction n as [ | n IH]; intros s H; [done | ]. destruct s as [ | c s].
  { simpl. rewrite IH by done. by destruct n. }
  cbn [skipRunes]. fold (width (String c s)). unfold RuneCountInString in H. rewrite runes_cons in H.
  pose proof (width_bounds c s) as Hw. cbn [length String.length] in H, Hw.
  pose proof (Hle (sdrop (width (String c s)) (String c s))) as Hl. unfold RuneCountInString in Hl.
  rewrite sdrop_length in Hl. cbn [String.length] in Hl.
  assert (width (String c s) = 1%nat) as E by lia. rewrite E in *. simpl in *. apply IH.
  unfold RuneCountInString. lia.
Qed.

Lemma sliceString_general s lo hi :
  sliceString s (RuneCountInString s) lo hi =
  String.substring 0 (runeOffset (hi - lo) (skipRunes lo s)) (skipRunes lo s) \/
  (length (runes_of_string s) < hi)%nat \/ (hi < lo)%nat.
Proof.
  unfold sliceString. case_bool_decide as E; [ | by left].
  destruct (decide (length (runes_of_string s) < hi)%nat) as [ | Hhi]; [auto | ].
  destruct (decide (hi < lo)%nat) as [ | Hlo]; [auto | ]. left.
  pose proof E as E'. unfold RuneCountInString in E'.
  rewrite substring_sdrop, <- ascii_skip by done. f_equal. unfold runeOffset.
  assert (forall a b t, skipRunes b (skipRunes a t) = skipRunes (a + b) t) as Hadd.
  { induction a as [ | a IH]; intros b t; [done | ]. simpl. apply IH. }
  rewrite Hadd, !ascii_skip, !sdrop_length by done. lia.
Qed.

(** ** Theorems *)

(** A string slice is a slice of its runes.  For any byte string, valid UTF-8 or
    not, and bounds within its rune count, the runes of [s[lo..hi]] are exactly the
    runes of [s] from [lo] up to [hi]: the byte-offset shortcut for single-byte
    strings and the decoding loop agree with the rune-indexed definition. *)
Theorem string_slice_runes (s : string) (lo hi : nat)
    (Hlo : (lo <= hi)%nat) (Hhi : (hi <= RuneCountInString s)%nat) :
  runes_of_string (sliceString s (RuneCountInString s) lo hi) =
  take (hi - lo) (drop lo (runes_of_string s)).
Proof.
  destruct (sliceString_general s lo hi) as [-> | [H | H]];
    [ | unfold RuneCountInString in Hhi; lia | lia].
  by rewrite runes_prefix, skipRunes_runes.
Qed.

Lemma rangeLoop_seqZ count lo hi :
  int64_range lo -> int64_range hi -> Z.of_nat count = hi - lo ->
  rangeLoop count lo hi = map VInt (seqZ lo (hi - lo)).
Proof.
  intros Hlo Hhi. revert lo Hlo. induction count as [ | count IH]; intros lo Hlo Hc; simpl.
  - by replace (hi - lo) with 0 by lia.
  - destruct (Z.ltb_spec lo hi); [ | lia]. unfold int64_range in *.
    unfold add64. rewrite wrap64_id by (unfold int64_range; lia).
    rewrite IH by (unfold int64_range; lia). rewrite (seqZ_cons lo (hi - lo)) by lia.
    simpl. f_equal. f_equal. f_equal; lia.
Qed.

(** A materialised range is the ints from [lo] up to, not including, [hi], in
    order, whenever their number is within the limit; otherwise, also when the int64
    difference of the bounds overflows, it is an error at the range. *)
Theorem range_materialised `{Limits} (lo hi : Z) (p : position)
    (Hlo : int64_range lo) (Hhi : int64_range hi) (Hle : lo <= hi) :
  if hi - lo <=? MaxRangeElements
  then materialiseRange lo hi p = Ok (VList (map VInt (seqZ lo (hi - lo))) (Some TypeInt))
  else errAt p (materialiseRange lo hi p).
Proof.
  unfold materialiseRange, sub64. pose proof MaxRangeElements_bound as Hb.
  unfold int64_range, minInt64, maxInt64 in *.
  destruct (Z.leb_spec (hi - lo) MaxRangeElements) as [Hm | Hm].
  - rewrite wrap64_id by (unfold int64_range, minInt64, maxInt64; lia).
    destruct (Z.ltb_spec (hi - lo) 0); [lia | ].
    destruct (Z.ltb_spec MaxRangeElements (hi - lo)); [lia | ]. simpl. unfold ListVal.
    rewrite rangeLoop_seqZ by (unfold int64_range, minInt64, maxInt64; lia). done.
  - assert ((wrap64 (hi - lo) <? 0) || (MaxRangeElements <? wrap64 (hi - lo)) = true) as ->.
    { unfold wrap64. destruct (Z.ltb_spec (hi - lo) (2 ^ 63)).
      - rewrite Z.mod_small by lia. apply orb_true_iff. right. apply Z.ltb_lt. lia.
      - replace (hi - lo + 2 ^ 63) with (hi - lo - 2 ^ 63 + 1 * 2 ^ 64) by lia.
        rewrite Z.mod_add, Z.mod_small by lia. apply orb_true_iff. left. apply Z.ltb_lt. lia. }
    done.
Qed.

Lemma string_slice_runes_witness :
  runes_of_string (sliceString (string_of_runes [104; 233; 108; 8364]) 4 1 4) = [233; 108; 8364].
Proof.
  exact (string_slice_runes (string_of_runes [104; 233; 108; 8364]) 1 4 ltac:(lia)
    ltac:(apply (bool_decide_unpack _); vm_compute; exact I)).
Defined.

Lemma range_materialised_witness :
  @materialiseRange limits_std 2 5 (Pos "a.j" 1 1) = Ok (VList [VInt 2; VInt 3; VInt 4] (Some TypeInt)).
Proof.
  refine (@range_materialised limits_std 2 5 (Pos "a.j" 1 1) _ _ _).
  - vm_compute. split; discriminate.
  - vm_compute. split; discriminate.
  - lia.
Defined.
