(* ===== verification/RetagFacts.v ===== *)
(** * Module identities across the boundary

    [retagStructs] with its precheck against the plain recursive walk, and the round
    trip of a value into an importer and back. *)

From S2P Require Import Prelude GoInt Float64 Utf8 Types Value ValueFacts Ast Ops Display Defs.
From S2P Require Import Store StoreFacts.
Open Scope string_scope.
Open Scope list_scope.

(** What the precheck relies on: a container recorded with a primitive element type
    holds values of that kind. *)
Fixpoint primHonest (v : Value) : Prop :=
  match v with
  | VList l et =>
      (forall t, et = Some t -> primitiveType et = true -> Forall (fun x => kindMatches x t = true) l) /\
      foldr (fun x Q => primHonest x /\ Q) True l
  | VMap m kt vt _ =>
      (forall t, kt = Some t -> primitiveType kt = true ->
         Forall (fun e => kindMatches (fst e) t = true) m) /\
      (forall t, vt = Some t -> primitiveType vt = true ->
         Forall (fun e => kindMatches (snd e) t = true) m) /\
      foldr (fun e Q => (primHonest (fst e) /\ primHonest (snd e)) /\ Q) True m
  | VStruct _ _ _ fs | VEnum _ _ _ _ fs => foldr (fun e Q => primHonest (snd e) /\ Q) True fs
  | _ => True
  end.

Lemma primHonest_list l et :
  primHonest (VList l et) <->
  (forall t, et = Some t -> primitiveType et = true -> Forall (fun x => kindMatches x t = true) l) /\
  Forall primHonest l.
Proof. simpl. by rewrite foldr_and_Forall. Qed.

Lemma primHonest_map m kt vt idx :
  primHonest (VMap m kt vt idx) <->
  (forall t, kt = Some t -> primitiveType kt = true -> Forall (fun e => kindMatches (fst e) t = true) m) /\
  (forall t, vt = Some t -> primitiveType vt = true -> Forall (fun e => kindMatches (snd e) t = true) m) /\
  Forall (fun e => primHonest (fst e) /\ primHonest (snd e)) m.
Proof. simpl. by rewrite foldr_and_Forall. Qed.

Lemma primHonest_struct ns mp n fs :
  primHonest (VStruct ns mp n fs) <-> Forall (fun e => primHonest (snd e)) fs.
Proof. simpl. by rewrite foldr_and_Forall. Qed.

Lemma primHonest_enum ns mp n va fs :
  primHonest (VEnum ns mp n va fs) <-> Forall (fun e => primHonest (snd e)) fs.
Proof. simpl. by rewrite foldr_and_Forall. Qed.

#[local] Arguments honest : simpl never.
#[local] Arguments primHonest : simpl never.

(** True recorded types give the precheck what it needs. *)
Lemma honest_prim tabs v : honest tabs v -> primHonest v.
Proof.
  induction v as [v Hv | l et IH | m kt vt idx IH | ns mp n fs IH | ns mp n va fs IH | ns n p x IH]
    using Value_deep_ind; intros Hh; [by destruct v | | | | | done].
  - apply honest_list in Hh as [Hc Hh]. apply primHonest_list. split.
    + intros t Ht _. eapply Forall_impl; [by apply Hc | ]. intros x. apply conforms_kind.
    + rewrite Forall_forall in *. auto.
  - apply honest_map in Hh as (Hk & Hx & Hh). apply primHonest_map. split; [ | split].
    + intros t Ht _. by apply Hk.
    + intros t Ht _. eapply Forall_impl; [by apply Hx | ]. intros x. apply conforms_kind.
    + rewrite Forall_forall in *. intros [a b] Hin. destruct (IH _ Hin), (Hh _ Hin). auto.
  - apply honest_struct in Hh as [_ Hh]. apply primHonest_struct. rewrite Forall_forall in *. auto.
  - apply honest_enum in Hh. apply primHonest_enum. rewrite Forall_forall in *. auto.
Qed.

Section Walk.
Variables fromNS toNS fromMod toMod : string.
Variable isOwn : string -> bool.

Abbreviation isFrom := (isFrom fromNS fromMod isOwn).
Abbreviation retagTyp := (retagTyp fromNS toNS fromMod toMod isOwn).
Abbreviation retagType := (retagType fromNS toNS fromMod toMod isOwn).

(** The walk without the precheck: every own identity in the value and in the types
    recorded on it is rewritten. *)
Fixpoint retagAll (v : Value) : Value :=
  match v with
  | VStruct ns mp name fs =>
      let fs := map (fun '(f, x) => (f, retagAll x)) fs in
      if isFrom ns mp name then VStruct toNS toMod name fs else VStruct ns mp name fs
  | VEnum ns mp name va fs =>
      let fs := map (fun '(f, x) => (f, retagAll x)) fs in
      if isFrom ns mp name then VEnum toNS toMod name va fs else VEnum ns mp name va fs
  | VList l et => VList (map retagAll l) (retagType et)
  | VMap m kt vt idx =>
      VMap (map (fun '(k, x) => (retagAll k, retagAll x)) m) (retagType kt) (retagType vt) idx
  | v => v
  end.

Lemma typeNeeds_false t : typeNeeds fromNS fromMod isOwn t = false -> retagTyp t = t.
Proof.
  induction t using Typ_deep_ind; simpl; intros Hn; try done.
  - destruct e as [t | ]; [ | done]. simpl. by rewrite (H t eq_refl).
  - destruct e as [[k v] | ]; [ | done]. apply orb_false_iff in Hn as [Hk Hv].
    destruct (H k v eq_refl) as [IHk IHv]. by rewrite IHk, IHv.
  - by rewrite Hn.
  - destruct e as [t | ]; [ | done]. simpl. by rewrite (H t eq_refl).
  - destruct e as [t | ]; [ | done]. simpl. by rewrite (H t eq_refl).
Qed.

Lemma typeNeedsRetag_false t : typeNeedsRetag fromNS fromMod isOwn t = false -> retagType t = t.
Proof. destruct t; [ | done]. simpl. intros. unfold Defs.retagType. simpl. by rewrite typeNeeds_false. Qed.

(** A value of a primitive type has nothing to rewrite. *)
Lemma primitive_retag v t : primitiveType (Some t) = true -> kindMatches v t = true -> retagAll v = v.
Proof. by destruct t, v. Qed.

Lemma map_id_Forall {A} (f : A -> A) l : Forall (fun x => f x = x) l -> map f l = l.
Proof. induction 1; simpl; congruence. Qed.

Lemma existsb_false_Forall {A} (f : A -> bool) l :
  existsb f l = false -> Forall (fun x => f x = false) l.
Proof. induction l; simpl; [constructor | intros [? ?]%orb_false_iff]; auto. Qed.

(** The precheck is complete: what it lets through unchanged needs no change. *)
Lemma subtree_false v :
  primHonest v -> subtreeNeedsRetag fromNS fromMod isOwn v = false -> retagAll v = v.
Proof.
  induction v as [v Hv | l et IH | m kt vt idx IH | ns mp n fs IH | ns mp n va fs IH | ns n p x IH]
    using Value_deep_ind; intros Hh Hn; [by destruct v | | | | | done].
  - apply primHonest_list in Hh as [Hc Hh]. simpl in *. split_if_in Hn; [done | ].
    f_equal; [ | by apply typeNeedsRetag_false]. apply map_id_Forall. split_if_in Hn.
    + destruct et as [t | ]; [ | done]. eapply Forall_impl; [by apply Hc | ].
      intros x Hx. by eapply primitive_retag.
    + apply existsb_false_Forall in Hn. rewrite Forall_forall in *. auto.
  - apply primHonest_map in Hh as (Hk & Hx & Hh). simpl in *. split_if_in Hn; [done | ].
    apply orb_false_iff in Heqb as [E1 E2]. f_equal; [ | by apply typeNeedsRetag_false | by apply typeNeedsRetag_false].
    apply map_id_Forall. split_if_in Hn.
    + apply andb_true_iff in Heqb as [P1 P2]. destruct kt as [k | ], vt as [t | ]; try done.
      specialize (Hk _ eq_refl P1). specialize (Hx _ eq_refl P2). rewrite Forall_forall in *.
      intros [a b] Hin. f_equal; [eapply primitive_retag; [exact P1 | by apply (Hk _ Hin)] | ].
      eapply primitive_retag; [exact P2 | by apply (Hx _ Hin)].
    + apply existsb_false_Forall in Hn. rewrite Forall_forall in *. intros [a b] Hin.
      specialize (Hn _ Hin). simpl in Hn. apply orb_false_iff in Hn as [? ?].
      destruct (IH _ Hin), (Hh _ Hin). simpl in *. f_equal; auto.
  - apply primHonest_struct in Hh. simpl in *. apply orb_false_iff in Hn as [-> Hn].
    f_equal. apply map_id_Forall. apply existsb_false_Forall in Hn. rewrite Forall_forall in *.
    intros [f x] Hin. f_equal. apply (IH _ Hin); [by apply (Hh _ Hin) | by apply (Hn _ Hin)].
  - apply primHonest_enum in Hh. simpl in *. apply orb_false_iff in Hn as [-> Hn].
    f_equal. apply map_id_Forall. apply existsb_false_Forall in Hn. rewrite Forall_forall in *.
    intros [f x] Hin. f_equal. apply (IH _ Hin); [by apply (Hh _ Hin) | by apply (Hn _ Hin)].
Qed.

Lemma map_ext_Forall2 {A B} (f g : A -> B) l : Forall (fun x => f x = g x) l -> map f l = map g l.
Proof. induction 1; simpl; congruence. Qed.

Lemma retagStructs_all v :
  primHonest v -> retagStructs fromNS toNS fromMod toMod isOwn v = retagAll v.
Proof.
  induction v as [v Hv | l et IH | m kt vt idx IH | ns mp n fs IH | ns mp n va fs IH | ns n p x IH]
    using Value_deep_ind; intros Hh; [by destruct v | | | | | done].
  all: cbn [retagStructs]; match goal with |- context [negb (?b)] => destruct b eqn:En end; cbn [negb];
    [cbn [retagAll] | symmetry; by apply subtree_false].
  - apply primHonest_list in Hh as [_ Hh]. f_equal. apply map_ext_Forall2. rewrite Forall_forall in *. auto.
  - apply primHonest_map in Hh as (_ & _ & Hh). f_equal. apply map_ext_Forall2. rewrite Forall_forall in *.
    intros [a b] Hin. destruct (IH _ Hin), (Hh _ Hin). simpl in *. f_equal; auto.
  - apply primHonest_struct in Hh.
    rewrite (map_ext_Forall2 _ (fun '(f, x) => (f, retagAll x)) fs); [done | ].
    rewrite Forall_forall in *. intros [f x] Hin. f_equal. apply (IH _ Hin), (Hh _ Hin).
  - apply primHonest_enum in Hh.
    rewrite (map_ext_Forall2 _ (fun '(f, x) => (f, retagAll x)) fs); [done | ].
    rewrite Forall_forall in *. intros [f x] Hin. f_equal. apply (IH _ Hin), (Hh _ Hin).
Qed.

(** The walk keeps what the precheck relies on. *)
Lemma retagType_primitive et t :
  retagType et = Some t -> primitiveType (retagType et) = true -> et = Some t /\ primitiveType et = true.
Proof.
  destruct et as [u | ]; [ | done]. unfold Defs.retagType. simpl.
  destruct u as [ | | | | | | | | [[k x] | ] | ns mp n | | | ]; simpl; try done; try (intros [= <-]; done).
  destruct (Defs.isFrom _ _ _ _ _ _); intros [= <-]; done.
Qed.

Lemma kind_primitive_retag (t : Typ) x :
  primitiveType (Some t) = true -> kindMatches x t = true -> kindMatches (retagAll x) t = true.
Proof. by destruct t, x. Qed.

Lemma retagAll_prim v : primHonest v -> primHonest (retagAll v).
Proof.
  induction v as [v Hv | l et IH | m kt vt idx IH | ns mp n fs IH | ns mp n va fs IH | ns n p x IH]
    using Value_deep_ind; intros Hh; [by destruct v | | | | | done]; cbn [retagAll].
  - apply primHonest_list in Hh as [Hc Hh]. apply primHonest_list. split.
    + intros t Ht Hp. destruct (retagType_primitive _ _ Ht Hp) as [-> Hp']. apply Forall_map.
      eapply Forall_impl; [exact (Hc _ eq_refl Hp') | ]. intros x Hx. exact (kind_primitive_retag _ _ Hp' Hx).
    + apply Forall_map. rewrite Forall_forall in *. auto.
  - apply primHonest_map in Hh as (Hk & Hx & Hh). apply primHonest_map. split; [ | split].
    + intros t Ht Hp. destruct (retagType_primitive _ _ Ht Hp) as [-> Hp']. apply Forall_map.
      eapply Forall_impl; [exact (Hk _ eq_refl Hp') | ]. intros [a b] Hab. exact (kind_primitive_retag _ _ Hp' Hab).
    + intros t Ht Hp. destruct (retagType_primitive _ _ Ht Hp) as [-> Hp']. apply Forall_map.
      eapply Forall_impl; [exact (Hx _ eq_refl Hp') | ]. intros [a b] Hab. exact (kind_primitive_retag _ _ Hp' Hab).
    + apply Forall_map. rewrite Forall_forall in *. intros [a b] Hin. destruct (IH _ Hin), (Hh _ Hin). auto.
  - apply primHonest_struct in Hh.
    assert (Forall (fun e => primHonest (snd e)) (map (fun '(f, x) => (f, retagAll x)) fs)) as HF.
    { apply Forall_map. rewrite Forall_forall in *. intros [f x] Hin. by apply (IH _ Hin), (Hh _ Hin). }
    split_if; by apply primHonest_struct.
  - apply primHonest_enum in Hh.
    assert (Forall (fun e => primHonest (snd e)) (map (fun '(f, x) => (f, retagAll x)) fs)) as HF.
    { apply Forall_map. rewrite Forall_forall in *. intros [f x] Hin. by apply (IH _ Hin), (Hh _ Hin). }
    split_if; by apply primHonest_enum.
Qed.

End Walk.

(** ** There and back *)

Section RoundTrip.
Variables ns0 ns1 mp0 mp1 : string.
Variable isOwn : string -> bool.

Abbreviation there := (retagAll ns0 ns1 mp0 mp1 isOwn).
Abbreviation back := (retagAll ns1 ns0 mp1 mp0 isOwn).

(** No value or recorded type inside [v] already carries the identity [(ns1, mp1)]
    under an own name. *)
Fixpoint absent (v : Value) : Prop :=
  match v with
  | VStruct ns mp n fs | VEnum ns mp n _ fs =>
      isFrom ns1 mp1 isOwn ns mp n = false /\ foldr (fun e Q => absent (snd e) /\ Q) True fs
  | VList l et => typeNeedsRetag ns1 mp1 isOwn et = false /\ foldr (fun x Q => absent x /\ Q) True l
  | VMap m kt vt _ =>
      typeNeedsRetag ns1 mp1 isOwn kt = false /\ typeNeedsRetag ns1 mp1 isOwn vt = false /\
      foldr (fun e Q => (absent (fst e) /\ absent (snd e)) /\ Q) True m
  | _ => True
  end.

(** One identity: rewritten and rewritten back. *)
Lemma isFrom_there ns mp n :
  isFrom ns0 mp0 isOwn ns mp n = true -> ns = ns0 /\ mp = mp0 /\ isFrom ns1 mp1 isOwn ns1 mp1 n = true.
Proof.
  unfold isFrom. intros [[E1 E2]%andb_true_iff E3]%andb_true_iff.
  apply bool_decide_eq_true in E1, E2. split; [done | split; [done | ]].
  by rewrite !bool_decide_eq_true_2, E3.
Qed.

Lemma retagTyp_back t :
  typeNeeds ns1 mp1 isOwn t = false ->
  retagTyp ns1 ns0 mp1 mp0 isOwn (retagTyp ns0 ns1 mp0 mp1 isOwn t) = t.
Proof.
  induction t using Typ_deep_ind; simpl; intros Hn; try done.
  - destruct e as [t | ]; [ | done]. simpl. by rewrite (H t eq_refl).
  - destruct e as [[k v] | ]; [ | done]. apply orb_false_iff in Hn as [Hk Hv].
    destruct (H k v eq_refl) as [IHk IHv]. simpl. by rewrite IHk, IHv.
  - destruct (isFrom ns0 mp0 isOwn a b c) eqn:E; simpl; [ | by rewrite Hn].
    apply isFrom_there in E as (-> & -> & ->). done.
  - destruct e as [t | ]; [ | done]. simpl. by rewrite (H t eq_refl).
  - destruct e as [t | ]; [ | done]. simpl. by rewrite (H t eq_refl).
Qed.

Lemma retagType_back t :
  typeNeedsRetag ns1 mp1 isOwn t = false ->
  retagType ns1 ns0 mp1 mp0 isOwn (retagType ns0 ns1 mp0 mp1 isOwn t) = t.
Proof. destruct t; [ | done]. unfold retagType. simpl. intros. by rewrite retagTyp_back. Qed.

Lemma back_there v : absent v -> back (there v) = v.
Proof.
  induction v as [v Hv | l et IH | m kt vt idx IH | ns mp n fs IH | ns mp n va fs IH | ns n p x IH]
    using Value_deep_ind; intros Ha; [by destruct v | | | | | done]; cbn [retagAll].
  - destruct Ha as [Ht Ha%foldr_and_Forall]. rewrite retagType_back by done. f_equal.
    rewrite map_map. apply map_id_Forall. rewrite Forall_forall in *. auto.
  - destruct Ha as (Hk & Ht & Ha). rewrite !retagType_back by done. f_equal.
    apply (foldr_and_Forall (fun e => absent (fst e) /\ absent (snd e))) in Ha.
    rewrite map_map. apply map_id_Forall. rewrite Forall_forall in *. intros [a b] Hin.
    destruct (IH _ Hin), (Ha _ Hin). simpl in *. f_equal; auto.
  - destruct Ha as [Hn Ha]. apply (foldr_and_Forall (fun e => absent (snd e))) in Ha.
    assert (map (fun '(f, x) => (f, back x)) (map (fun '(f, x) => (f, there x)) fs) = fs) as E.
    { rewrite map_map. apply map_id_Forall. rewrite Forall_forall in *. intros [f x] Hin.
      f_equal. by apply (IH _ Hin), (Ha _ Hin). }
    destruct (isFrom ns0 mp0 isOwn ns mp n) eqn:Ef; cbn [retagAll]; rewrite E; [ | by rewrite Hn].
    apply isFrom_there in Ef as (-> & -> & ->). done.
  - destruct Ha as [Hn Ha]. apply (foldr_and_Forall (fun e => absent (snd e))) in Ha.
    assert (map (fun '(f, x) => (f, back x)) (map (fun '(f, x) => (f, there x)) fs) = fs) as E.
    { rewrite map_map. apply map_id_Forall. rewrite Forall_forall in *. intros [f x] Hin.
      f_equal. by apply (IH _ Hin), (Ha _ Hin). }
    destruct (isFrom ns0 mp0 isOwn ns mp n) eqn:Ef; cbn [retagAll]; rewrite E; [ | by rewrite Hn].
    apply isFrom_there in Ef as (-> & -> & ->). done.
Qed.

End RoundTrip.

(** ** Theorems *)

(** The boundary precheck is sound.  On a value whose recorded types are true,
    the copy-on-write retagging (which skips a subtree its precheck clears, and does
    not look inside a list or map recorded with primitive element types) produces
    exactly what the unconditional walk over the whole value produces. *)
Theorem retag_precheck_sound (tabs : Tables) (fromNS toNS fromMod toMod : string)
    (isOwn : string -> bool) (v : Value) (Hh : honest tabs v) :
  retagStructs fromNS toNS fromMod toMod isOwn v = retagAll fromNS toNS fromMod toMod isOwn v.
Proof. by eapply retagStructs_all, honest_prim. Qed.

(** Crossing a module boundary and coming back is the identity.  A value handed
    from its module to an importer and returned unchanged regains its internal
    identity everywhere, in nested values and in recorded types, provided it did not
    already contain an own type under the importer-side identity. *)
Theorem retag_roundtrip (tabs : Tables) (m : loadedModule) (v : Value)
    (Hh : honest tabs v) (Ha : absent (mod_ns m) (mod_path m) (isOwnStruct m) v) :
  retagStructs (mod_ns m) "" (mod_path m) "" (isOwnStruct m)
    (retagStructs "" (mod_ns m) "" (mod_path m) (isOwnStruct m) v) = v.
Proof.
  apply honest_prim in Hh. rewrite (retagStructs_all "" _ "") by done.
  rewrite retagStructs_all by by apply retagAll_prim. by apply back_there.
Qed.

Definition demoModule : loadedModule :=
  mkModule "/lib/geo.j" "geo" {["Box" := boxDef]} ∅ ∅ {["Box"]} false.

(** The impersonation check looks at values, not at recorded types.  A consumer
    that declares its own [Box] can pass an empty [list of Box] to a module with an own
    [Box]: no impostor is found, and the returned list is recorded as a list of the
    module's type, no longer the type the consumer declared. *)
Theorem empty_list_changes_identity (h : Handles) :
  let v := VList [] (Some (TypeStruct "" "" "Box")) in
  findImpostorStruct demoModule v = None /\
  MatchesDeclared h v (TypeList (Some (TypeStruct "" "" "Box"))) = true /\
  retagStructs "geo" "" "/lib/geo.j" "" (isOwnStruct demoModule) v = v /\
  retagStructs "" "geo" "" "/lib/geo.j" (isOwnStruct demoModule) v =
    VList [] (Some (TypeStruct "geo" "/lib/geo.j" "Box")) /\
  MatchesDeclared h (VList [] (Some (TypeStruct "geo" "/lib/geo.j" "Box")))
    (TypeList (Some (TypeStruct "" "" "Box"))) = false.
Proof. vm_compute. auto 6. Qed.

Definition demoPair : Value := VList [VStruct "" "" "Box" []; VInt 3] None.

Lemma demoPair_honest : honest demoTables demoPair.
Proof. split; [discriminate | ]. split; [ | done]. split; [ | done]. by intros def f t k x _ _. Qed.

Lemma retag_precheck_sound_witness :
  retagStructs "" "geo" "" "/lib/geo.j" (isOwnStruct demoModule) demoPair =
  VList [VStruct "geo" "/lib/geo.j" "Box" []; VInt 3] None.
Proof.
  rewrite (retag_precheck_sound demoTables "" "geo" "" "/lib/geo.j" (isOwnStruct demoModule)
    demoPair demoPair_honest). vm_compute. reflexivity.
Defined.

Lemma retag_roundtrip_witness :
  retagStructs "geo" "" "/lib/geo.j" "" (isOwnStruct demoModule)
    (retagStructs "" "geo" "" "/lib/geo.j" (isOwnStruct demoModule) demoPair) = demoPair.
Proof.
  refine (retag_roundtrip demoTables demoModule demoPair demoPair_honest _).
  vm_compute. repeat split.
Defined.
