(* ===== verification/Interp.v ===== *)
(** * The interpreter's state, errors and host interface

    The state threaded through evaluation, the evaluation monad, the static tables of
    one interpreter, and the interface to what lies outside the evaluator: library
    builtins, module dispatch, task creation, the zero values of named types.  A
    computation ends with a value, with an error (a Go [error]; the state reached is
    kept, as deferred calls and catch blocks run on it), or runs out of fuel. *)

From S2P Require Import Prelude GoInt Float64 Utf8 Limits Types Value Ast Ops Display Defs.
From S2P Require Import Store Environment.
Open Scope string_scope.
Open Scope list_scope.
Open Scope Z_scope.

(** [w_env]: the frames visible from the current block, innermost first; its last
    frame is the effective global.  [w_ext]: the state behind the host interface. *)
Record World (X : Type) := mkWorld {
  w_env : Environment;
  w_chain : CallChain;
  w_handles : Handles;
  w_ext : X
}.
Arguments mkWorld {X}. Arguments w_env {X}. Arguments w_chain {X}.
Arguments w_handles {X}. Arguments w_ext {X}.

Inductive outcome (X A : Type) :=
  | Done (a : A) (w : World X)
  | Raise (e : evalError) (w : World X)
  | NoFuel.
Arguments Done {X A}. Arguments Raise {X A}. Arguments NoFuel {X A}.

Section Monad.
Context {X : Type}.

Definition M (A : Type) : Type := World X -> outcome X A.

Definition ret {A} (a : A) : M A := fun w => Done a w.
Definition raise {A} (e : evalError) : M A := fun w => Raise e w.
Definition bind {A B} (c : M A) (k : A -> M B) : M B :=
  fun w => match c w with Done a w => k a w | Raise e w => Raise e w | NoFuel => NoFuel end.

(** Both endings of a computation, as Go's pair of result and error. *)
Definition attempt {A} (c : M A) : M (result evalError A) :=
  fun w => match c w with Done a w => Done (Ok a) w | Raise e w => Done (Err e) w | NoFuel => NoFuel end.

Definition lift {A} (r : res A) : M A :=
  match r with Ok a => ret a | Err e => raise e end.

Definition get : M (World X) := fun w => Done w w.
Definition modify (f : World X -> World X) : M unit := fun w => Done tt (f w).

Definition rt {A} (p : position) (fmt : string) (args : list fmtarg) : M A := lift (rtErr p fmt args).

(** An [error] of the environment, positioned at [p]. *)
Definition liftMsg {A} (r : result message A) (p : position) : M A :=
  match r with
  | Ok a => ret a
  | Err m => raise (ERuntime (mkRuntimeError m p ""))
  end.

Definition setEnv (env : Environment) : M unit :=
  modify (fun w => mkWorld env (w_chain w) (w_handles w) (w_ext w)).
Definition setHandles (h : Handles) : M unit :=
  modify (fun w => mkWorld (w_env w) (w_chain w) h (w_ext w)).

(** [env.depth.n++; ...; env.depth.n--] around a computation. *)
Definition deeper (d : Z) (w : World X) : World X :=
  mkWorld (w_env w) (mkChain (depthN (w_chain w) + d) (chainBytes (w_chain w)))
    (w_handles w) (w_ext w).

Definition nested {A} (c : M A) : M A :=
  fun w =>
    match c (deeper 1 w) with
    | Done a w => Done a (deeper (-1) w)
    | Raise e w => Raise e (deeper (-1) w)
    | NoFuel => NoFuel
    end.

(** Return a frame to the pool: only the chain's byte counter remains visible. *)
Definition release (f : Frame) : M unit :=
  modify (fun w => mkWorld (w_env w) (snd (releaseBlockEnv f (w_chain w))) (w_handles w) (w_ext w)).

Definition push (f : Frame) : M unit :=
  modify (fun w => mkWorld (f :: w_env w) (w_chain w) (w_handles w) (w_ext w)).

(** Leave the innermost frame and release it. *)
Definition popRelease : M unit :=
  fun w =>
    match w_env w with
    | f :: rest =>
        Done tt (mkWorld rest (snd (releaseBlockEnv f (w_chain w))) (w_handles w) (w_ext w))
    | [] => Done tt w
    end.

End Monad.
Arguments M : clear implicits.

Declare Scope eval_scope.
Delimit Scope eval_scope with eval.
Notation "'do' x '<-' c ';' k" := (bind c (fun x => k))
  (at level 100, x pattern, c at level 99, k at level 200, format "'do'  x  '<-'  c ';' '//' k") : eval_scope.
Notation "c ';;' k" := (bind c (fun _ => k))
  (at level 100, k at level 200, format "c ';;' '//' k") : eval_scope.

(** ** Static tables *)

(** What one interpreter knows before it runs: hoisted methods, imported libraries,
    name resolution, the copy-elision context. *)
Record Interpreter := mkInterp {
  i_self : nat;
  i_tables : Tables;
  i_methods : gmap string MethodDef;
  i_methodAddr : string -> nat;
  i_builtins : gmap string string;
  i_libConstants : gmap string (string * Value);
  i_imported : gset string;
  i_nsPrefixes : gmap string string;
  i_nsAliasedAway : gmap string string;
  i_knownNamespaces : gset string;
  i_nsBuiltins : gset (string * string);
  i_entryGlobalsImmutable : bool;
  i_cellBytes : Z
}.

(** ** The host interface *)

Record Host (X : Type) := mkHost {
  (** A global builtin, a namespaced builtin (canonical namespace), a module method (with
      1 + the index of the argument the caller hands over by move, or 0). *)
  h_builtin : string -> list Value -> position -> M X Value;
  h_nsBuiltin : string -> string -> list Value -> position -> M X Value;
  h_module : string -> string -> list Value -> nat -> position -> M X Value;
  (** A func value defined by another interpreter. *)
  h_foreign : nat -> nat * string -> list Value -> position -> M X Value;
  (** Start a task on a detached snapshot. *)
  h_spawn : list Stmt -> Environment -> M X Value;
  (** A constant of a library namespace or a module: stamped on the reference before the
      program runs, or looked up. *)
  h_stampedConst : string -> string -> option Value;
  h_const : string -> string -> position -> M X Value;
  (** The zero value of a struct, enum or opaque type. *)
  h_zero : Typ -> position -> M X Value;
  (** The zero value of one field of a library or bundled-module struct. *)
  h_zeroField : string -> string -> string -> StructFieldDecl -> position -> M X Value;
  (** A spawned task may re-enter the host; this chain's task was cancelled. *)
  h_spawnReentry : X -> bool;
  h_cancelled : X -> bool
}.
Arguments h_builtin {X}. Arguments h_nsBuiltin {X}. Arguments h_module {X}. Arguments h_foreign {X}.
Arguments h_spawn {X}. Arguments h_stampedConst {X}. Arguments h_const {X}. Arguments h_zero {X}. Arguments h_zeroField {X}.
Arguments h_spawnReentry {X}. Arguments h_cancelled {X}.

(** [resolveNamespacePrefix]. *)
Definition resolveNamespacePrefix (i : Interpreter) (prefix : string) : result message string :=
  match i_nsPrefixes i !! prefix with
  | Some ns => Ok ns
  | None =>
      match i_nsAliasedAway i !! prefix with
      | Some alias => Err (Sprintf "namespace %q is aliased; did you mean `%s`?" [AStr prefix; AStr alias])
      | None =>
          if bool_decide (prefix ∈ i_knownNamespaces i)
          then Err (Sprintf "namespace %q requires `use %s;`" [AStr prefix; AStr prefix])
          else
            match moduleAliases (i_tables i) !! prefix with
            | Some _ =>
                Err (Sprintf "module %q struct types are not available yet; call a `%s.` function that returns the value"
                       [AStr prefix; AStr prefix])
            | None => Err (Sprintf "unknown namespace %q" [AStr prefix])
            end
      end
  end.

Definition isNamespaceOrAlias (i : Interpreter) (prefix : string) : bool :=
  bool_decide (is_Some (moduleAliases (i_tables i) !! prefix)) ||
  bool_decide (is_Some (i_nsPrefixes i !! prefix)).

Definition lookupEnumDef (i : Tables) (ns name modPath : string) : option EnumDef :=
  if bool_decide (modPath <> "") then
    m ← moduleByPath i modPath; mod_enums m !! name
  else if bool_decide (ns <> "") then
    m ← moduleByNS i ns; mod_enums m !! name
  else enums i !! name.

(** [builtinError]: position an error a builtin returned. *)
Definition builtinError (e : evalError) (p : position) : evalError :=
  match e with
  | ERuntime r =>
      let q := rt_pos r in
      let f := if bool_decide (pos_file q = "") then pos_file p else pos_file q in
      ERuntime (mkRuntimeError (rt_Msg r)
        (if pos_line q =? 0 then Pos f (pos_line p) (pos_col p) else Pos f (pos_line q) (pos_col q))
        (rt_Kind r))
  | e => e
  end.
