(* ===== verification/Eval.v ===== *)
(** * The tree-walking evaluator (internal/interpreter/interpreter.go)

    One definition per [eval...] / [exec...] function, composed as in the source, with
    the recursive calls taken from a record [Rec]; [run n] ties the knot with [n] levels
    of fuel.  The three entry points of [Rec] are [evalExpr], [execStmts] and one more
    iteration of a loop.  [fast] selects whether the integer fast path of intfast.go is
    used; the interpreter is [fast = true]. *)

From S2P Require Import Prelude GoInt Float64 Utf8 Limits Types Value Ast Ops Display Defs.
From S2P Require Import Store Environment IntFast Interp.
Open Scope string_scope.
Open Scope list_scope.
Open Scope Z_scope.
Open Scope eval_scope.

(** [blockResult]: how a statement list ended. *)
Inductive flow :=
  | FNone
  | FReturn (v : Value)
  | FBreak (p : position)
  | FContinue (p : position).

Definition flowsOut (r : flow) : bool := match r with FNone => false | _ => true end.

(** A loop between two iterations. *)
Inductive Loop :=
  | LWhile (p : position) (cond : Expr) (body : Block)
  | LFor (p : position) (cond : option Expr) (step : option Stmt) (body : Block)
  | LRepeat (p : position) (body : Block) (cond : Expr)
  | LRange (p : position) (var : string) (body : Block) (slot n hi : Z).

Record Rec (X : Type) := mkRec {
  r_eval : Expr -> M X Value;
  r_stmts : list Stmt -> M X flow;
  r_loop : Loop -> M X flow
}.
Arguments mkRec {X}. Arguments r_eval {X}. Arguments r_stmts {X}. Arguments r_loop {X}.

(** [unhandledLoopFlowError]. *)
Definition unhandledLoopFlowError (kw : string) (p : position) : evalError :=
  ERuntime (mkRuntimeError (Sprintf "`%s` is only valid inside a loop" [AStr kw]) p "").

(** ** Errors as values *)

Section Errors.
Context `{GoText}.

(** [NewErrorValue]. *)
Definition NewErrorValue (kind message : string) (p : position) : Value :=
  StructVal canonicalErrorStructName
    [("kind", StringVal kind); ("message", StringVal message); ("file", StringVal (pos_file p));
     ("line", IntVal (pos_line p)); ("col", IntVal (pos_col p))].

Definition runtimeErrorToValue (e : runtimeError) : Value :=
  NewErrorValue (if bool_decide (rt_Kind e = "") then "runtime" else rt_Kind e)
    (render (rt_Msg e)) (rt_pos e).

End Errors.

Definition strOf (v : Value) : string := match v with VString s _ => s | _ => "" end.
Definition intOf (v : Value) : Z := match v with VInt n => n | _ => 0 end.

(** The last field of that name: the loop of [stampThrowSite] keeps overwriting. *)
Fixpoint lastField (fs : list (string * Value)) (name : string) (k : nat) (found : option nat)
    : option nat :=
  match fs with
  | [] => found
  | (f, _) :: fs => lastField fs name (S k) (if bool_decide (f = name) then Some k else found)
  end.

Definition fieldAt (fs : list (string * Value)) (k : nat) : Value :=
  match fs !! k with Some (_, v) => v | None => VNull end.

Definition stampThrowSite (v : Value) (p : position) : Value :=
  match v with
  | VStruct "" mp name fs =>
      if bool_decide (name = canonicalErrorStructName) then
        match lastField fs "file" 0 None, lastField fs "line" 0 None, lastField fs "col" 0 None with
        | Some fi, Some li, Some ci =>
            if bool_decide (strOf (fieldAt fs fi) = "") && (intOf (fieldAt fs li) =? 0) &&
               (intOf (fieldAt fs ci) =? 0)
            then
              VStruct "" mp name
                (setField (setField (setField fs fi (StringVal (pos_file p)))
                             li (IntVal (pos_line p))) ci (IntVal (pos_col p)))
            else v
        | _, _, _ => v
        end
      else v
  | _ => v
  end.

(** ** Copy elision *)

Definition rhsFreshLiteral (e : Expr) : bool :=
  match e with
  | ListLit _ _ | MapLit _ _ | StructLit _ _ _ _ _ _ | RangeExpr _ _ _ | SliceExpr _ _ _ _ => true
  | _ => false
  end.

Definition literalElementValue (src : Expr) (v : Value) : Value :=
  match src with
  | ListLit _ _ | MapLit _ _ | StructLit _ _ _ _ _ _ | RangeExpr _ _ _ | SliceExpr _ _ _ _ => v
  | VarExpr _ _ _ _ true => v
  | _ => Copy v
  end.

Definition snapArg (v : Value) (snap : list bool) (idx : nat) : Value :=
  match snap !! idx with Some true => Copy v | _ => v end.

(** ** Lvalues *)

Fixpoint lvalueRootVar (e : Expr) : option (string * Z * Z) :=
  match e with
  | VarExpr _ name depth slot _ => Some (name, depth, slot)
  | IndexExpr _ t _ => lvalueRootVar t
  | FieldAccessExpr _ t _ => lvalueRootVar t
  | _ => None
  end.

Definition deferCallArgs (call : Expr) : list Expr :=
  match call with
  | CallExpr _ _ args _ _ _ => args
  | QualifiedCallExpr _ _ _ args _ _ => args
  | _ => []
  end.

(** The call with its arguments replaced by their values. *)
Definition withArgs (call : Expr) (args : list Value) : Expr :=
  let lits := map (PreEval (posFor call)) args in
  match call with
  | CallExpr p callee _ m mv snap => CallExpr p callee lits m mv snap
  | QualifiedCallExpr p pre callee _ mv snap => QualifiedCallExpr p pre callee lits mv snap
  | e => e
  end.

(** [errdeferFires]. *)
Definition errdeferFires {A} (r : result evalError A) : bool :=
  match r with
  | Ok _ => false
  | Err (EExit _) => false
  | Err _ => true
  end.

Section Eval.
Context `{NativeObject, GoText, Limits}.
Context {X : Type}.
Variable host : Host X.
Variable i : Interpreter.
Variable fast : bool.
Variable rec : Rec X.

Abbreviation evalExpr := (r_eval rec).
Abbreviation execStmts := (r_stmts rec).
Abbreviation M := (M X).

Definition ownedCallResult (e : Expr) : bool :=
  match e with
  | CallExpr _ _ _ (Some m) _ _ => ref_ReturnsOwned m
  | _ => false
  end.

Definition methodBorrowCtx (m : MethodDef) (x : X) : bool :=
  i_entryGlobalsImmutable i || (method_GlobalSafe m && negb (h_spawnReentry host x)).

Fixpoint mapM {A B} (f : nat -> A -> M B) (k : nat) (l : list A) : M (list B) :=
  match l with
  | [] => ret []
  | x :: l => do y <- f k x; do ys <- mapM f (S k) l; ret (y :: ys)
  end.

(** [stampDeclaredType] / [bindParamValue] on the current handle states. *)
Definition stampM (v : Value) (t : Typ) : M Value :=
  do w <- get;
  let '(v', h') := stampDeclaredType (w_handles w) v t in
  setHandles h';; ret v'.

Definition bindParamM (v : Value) (t : Typ) : M Value :=
  do w <- get;
  let '(v', h') := bindParamValue (w_handles w) v t in
  setHandles h';; ret v'.

Definition matchesM (v : Value) (t : Typ) : M bool :=
  do w <- get; ret (MatchesDeclared (w_handles w) v t).

(** [accountCopy] on the current frame. *)
Definition accountCopy (v : Value) : M unit :=
  modify (fun w =>
    let n := shallowValueBytes (i_cellBytes i) v in
    match w_env w with
    | f :: rest =>
        mkWorld (chargeFrame f n :: rest)
          (mkChain (depthN (w_chain w)) (chainBytes (w_chain w) + n)) (w_handles w) (w_ext w)
    | [] => w
    end).

Definition loopCheckpoint (p : position) : M unit :=
  do w <- get;
  if h_cancelled host (w_ext w) then rt p "task cancelled" [] else ret tt.

(** Run with a fresh innermost frame; leave and release it whatever happens. *)
Definition withFrame {A} (numSlots : nat) (c : M A) : M A :=
  do w <- get;
  push (borrowBlockEnv newPooled (w_env w) numSlots);;
  do r <- attempt c;
  popRelease;;
  lift r.

(** ** Deferred calls *)

Definition invokeDeferred (dc : deferredCall) : M unit :=
  match dc_Call dc with
  | CallExpr _ _ _ _ _ _ | QualifiedCallExpr _ _ _ _ _ _ => evalExpr (dc_Call dc);; ret tt
  | _ => ret tt
  end.

(** The loop of [runDeferredCalls] over the calls, last registered first. *)
Fixpoint deferLoop (d : list deferredCall) (failed : bool) (derr : option evalError)
    : M (option evalError) :=
  match d with
  | [] => ret derr
  | dc :: d =>
      if dc_OnError dc && negb failed then deferLoop d failed derr
      else
        do r <- attempt (invokeDeferred dc);
        match r with
        | Ok _ => deferLoop d failed derr
        | Err e => deferLoop d true (Some e)
        end
  end.

Definition setDeferred (d : list deferredCall) : M unit :=
  modify (fun w =>
    match w_env w with
    | f :: rest =>
        mkWorld (mkFrame (backing f) (nslots f) (vars f) d (frameBytes f) (borrowDefs f) :: rest)
          (w_chain w) (w_handles w) (w_ext w)
    | [] => w
    end).

Definition headDeferred (w : World X) : list deferredCall :=
  match w_env w with f :: _ => deferred f | [] => [] end.

Definition runDeferredCalls (failed : bool) : M (option evalError) :=
  do w <- get;
  setDeferred [];;
  deferLoop (rev (headDeferred w)) failed None.

Definition finishFrame {A} (r : result evalError A) : M A :=
  do w <- get;
  match headDeferred w with
  | [] => lift r
  | _ =>
      do derr <- runDeferredCalls (errdeferFires r);
      match derr with
      | None => lift r
      | Some e => match r with Err (EExit c) => raise (EExit c) | _ => raise e end
      end
  end.

(** A statement list in the current frame, then the frame's deferred calls. *)
Definition finishing {A} (c : M A) : M A :=
  do r <- attempt c; finishFrame r.

Definition execBlock (b : Block) : M flow :=
  withFrame (block_NumSlots b) (nested (finishing (execStmts (block_Stmts b)))).

(** Define a variable in the current frame, by slot. *)
Definition defineAt (slot : Z) (name : string) (v : Value) (t : Typ) (isConst : bool)
    (p : position) : M unit :=
  do w <- get;
  do env <- liftMsg (DefineAt (w_env w) slot name v t isConst) p;
  setEnv env.

Definition define (name : string) (v : Value) (t : Typ) (isConst : bool) (p : position) : M unit :=
  do w <- get;
  do env <- liftMsg (Define (w_env w) name v t isConst) p;
  setEnv env.

(** A block run in a frame of its own that first binds one variable. *)
Definition boundBlock (b : Block) (slot : Z) (name : string) (v : Value) (t : Typ)
    (isConst : bool) (p : position) : M flow :=
  withFrame (block_NumSlots b)
    (defineAt slot name v t isConst p;; finishing (execStmts (block_Stmts b))).

(** ** Expressions *)

(** [if r, ok := ...; ok { return r }] in front of the general path. *)
Definition quick {A} (q : Environment -> option A) (general : M A) : M A :=
  fun w => match (if fast then q (w_env w) else None) with Some a => Done a w | None => general w end.

Definition evalBool (e : Expr) (ctx : string) : M bool :=
  quick (fun env => fastCondition env e)
    (do v <- evalExpr e;
     match v with
     | VBool b => ret b
     | _ => rt (posFor e) "%s must be bool, got %s" [AStr ctx; kindArg v]
     end).

Definition evalVar (p : position) (name : string) (depth slot : Z) : M Value :=
  do w <- get;
  liftMsg (if 0 <=? slot then GetAt (w_env w) depth slot name else Get (w_env w) name) p.

Definition evalConstRef (p : position) (name : string) (depth slot : Z) : M Value :=
  do w <- get;
  match (if 0 <=? slot then GetBindingAt (w_env w) depth slot name else GetBinding (w_env w) name) with
  | Ok b =>
      if bool_decide (b_Name b = "") && (0 <=? slot) then
        rt p "constant %s is read before its definition has run; top-level constants are defined in source order, so define it above the code that first reaches this read"
          [AStr name]
      else if negb (b_IsConst b) then
        rt p "%q is a variable; use `$%s` to reference it" [AStr name; AStr name]
      else ret (b_Value b)
  | Err _ =>
      match i_libConstants i !! name with
      | Some (lib, v) =>
          if bool_decide (lib ∈ i_imported i) then ret v
          else rt p "`%s` requires `use %s;`" [AStr name; AStr lib]
      | None =>
          match i_methods i !! name with
          | Some m => ret (VFunc (Some (i_methodAddr i name, method_Name m)) (Some (i_self i)))
          | None => rt p "undefined name %q" [AStr name]
          end
      end
  end.

(** [evalInterpString]: the parts in order, joined. *)
Fixpoint interpParts (parts : list (string * option Expr)) (acc : string) : M string :=
  match parts with
  | [] => ret acc
  | (lit, None) :: parts => interpParts parts (acc +:+ lit)
  | (_, Some e) :: parts =>
      do v <- evalExpr e;
      do w <- get;
      interpParts parts (acc +:+ Display (w_handles w) v)
  end.

Definition evalListLit (elements : list Expr) : M Value :=
  do vs <- mapM (fun _ e => do v <- evalExpr e; ret (literalElementValue e v)) 0 elements;
  ret (VList vs None).

(** The loop of [evalMapLit]. *)
Fixpoint mapLitLoop (kvs : list (Expr * Expr)) (seen : gset string) (nonHashable : list Value)
    (out : list (Value * Value)) : M (list (Value * Value)) :=
  match kvs with
  | [] => ret out
  | (ke, ve) :: kvs =>
      do key <- evalExpr ke;
      do w <- get;
      let dup := match mapKeyEncode key with
                 | Some enc => bool_decide (enc ∈ seen)
                 | None => existsb (fun prev => Equal prev key) nonHashable
                 end in
      if dup then rt (posFor ke) "duplicate key %s in map literal" [AStr (Display (w_handles w) key)]
      else
        let seen := match mapKeyEncode key with Some enc => {[enc]} ∪ seen | None => seen end in
        let nonHashable :=
          match mapKeyEncode key with Some _ => nonHashable | None => nonHashable ++ [key] end in
        do v <- evalExpr ve;
        mapLitLoop kvs seen nonHashable (out ++ [(Copy key, literalElementValue ve v)])
  end.

Definition evalMapLit (kvs : list (Expr * Expr)) : M Value :=
  do out <- mapLitLoop kvs ∅ [] [];
  ret (buildMapIndex (VMap out None None None)).

Definition evalLogical (op : BinaryOp) (left right : Expr) : M Value :=
  do lv <- quick (fun env => option_map BoolVal (fastCondition env left)) (nested (evalExpr left));
  match lv with
  | VBool lb =>
      if bool_decide (op = OpAnd) && negb lb then ret (BoolVal false)
      else if bool_decide (op = OpOr) && lb then ret (BoolVal true)
      else
        quick (fun env => option_map BoolVal (fastCondition env right))
          (do rv <- nested (evalExpr right);
           match rv with
           | VBool rb => ret (BoolVal rb)
           | _ => rt (posFor right) "right operand of `%s` must be bool, got %s" [opArg op; kindArg rv]
           end)
  | _ => rt (posFor left) "left operand of `%s` must be bool, got %s" [opArg op; kindArg lv]
  end.

Definition evalBinary (p : position) (op : BinaryOp) (left right : Expr) (folded : option Expr)
    : M Value :=
  match folded with
  | Some f => evalExpr f
  | None =>
      let e := BinaryExpr p op left right None in
      quick
        (fun env =>
           if IsLogical op || IsComparison op then option_map BoolVal (fastCondition env e)
           else option_map IntVal (intOperand env e))
        (if IsLogical op then evalLogical op left right
         else
           do lv <- nested (evalExpr left);
           do rv <- nested (evalExpr right);
           lift (applyBinary op lv rv p))
  end.

Definition evalUnary (p : position) (op : UnaryOp) (operand : Expr) (folded : option Expr)
    : M Value :=
  match folded with
  | Some f => evalExpr f
  | None => do v <- nested (evalExpr operand); lift (applyUnary op v p)
  end.

Definition evalLen (p : position) (operand : Expr) : M Value :=
  do v <- evalExpr operand; lift (applyLen v p).

Definition evalIndex (p : position) (target index : Expr) : M Value :=
  do parent <- evalExpr target;
  do idx <- evalExpr index;
  do w <- get;
  lift (applyIndex (w_handles w) parent idx p).

Definition rangeBounds (lo hi : Expr) (p : position) : M (Z * Z) :=
  do lv <- evalExpr lo;
  do hv <- evalExpr hi;
  lift (checkRange lv hv p).

Definition evalRange (p : position) (lo hi : Expr) : M Value :=
  do b <- rangeBounds lo hi p;
  lift (materialiseRange (fst b) (snd b) p).

Definition optEval (e : option Expr) : M (option Value) :=
  match e with None => ret None | Some e => do v <- evalExpr e; ret (Some v) end.

Definition evalSlice (p : position) (target : Expr) (lo hi : option Expr) : M Value :=
  do coll <- evalExpr target;
  do n <- lift (collLength coll p);
  do lv <- optEval lo;
  do l <- lift (sliceBound "slice lower bound must be int, got %s" lv 0 p);
  do hv <- optEval hi;
  do hb <- lift (sliceBound "slice upper bound must be int, got %s" hv (Z.of_nat n) p);
  do b <- lift (checkSlice l hb n p);
  ret (applySlice coll (fst b) (snd b)).

Definition findVariant (def : EnumDef) (name : string) : option EnumVariant :=
  head (filter (fun v => variant_Name v = name) (enum_Variants def)).

Definition evalFieldAccess (p : position) (target : Expr) (field : string) : M Value :=
  let general :=
    do parent <- evalExpr target;
    match parent with
    | VObject ns name _ =>
        rt p "`.%s`: a %s.%s is opaque - use the %s.* accessors (e.g. %s.get) to reach inside"
          [AStr field; AStr ns; AStr name; AStr ns; AStr ns]
    | VStruct _ _ name fs =>
        match findField fs field 0 with
        | Some (_, v) => ret v
        | None => rt p "struct %q has no field %q" [AStr name; AStr field]
        end
    | _ => rt p "field access `.%s` requires a struct, got %s" [AStr field; kindArg parent]
    end in
  match target with
  | ConstRefExpr _ name _ _ =>
      do w <- get;
      match GetBinding (w_env w) name, enums (i_tables i) !! name with
      | Err _, Some ed =>
          match findVariant ed field with
          | None => rt p "enum %s has no variant %q" [AStr (enum_Name ed); AStr field]
          | Some v =>
              match variant_Fields v with
              | [] => ret (EnumVal "" "" (enum_Name ed) field [])
              | _ => rt p "variant %s.%s carries a payload; construct it as %s.%s{ ... }"
                       [AStr (enum_Name ed); AStr field; AStr (enum_Name ed); AStr field]
              end
          end
      | _, _ => general
      end
  | _ => general
  end.

(** ** Struct and enum literals *)

Abbreviation LitField := (string * Expr * position)%type.

Definition litName (f : LitField) : string := fst (fst f).

(** [provided[name]]: a later field of the same name replaces an earlier one. *)
Definition provided (fs : list LitField) (name : string) : option LitField :=
  last (filter (fun f => litName f = name) fs).

(** The first literal field the definition does not declare. *)
Definition undeclared (fs : list LitField) (decls : list StructFieldDecl) : option LitField :=
  head (filter (fun f => litName f ∉ map field_Name decls) fs).

(** The definition a struct literal names: (definition, namespace, module path,
    bundled, field-type retagging). *)
Definition resolveStruct (p : position) (ns name : string)
    : res (StructDef * string * string * bool * (Typ -> Typ)) :=
  match moduleAliases (i_tables i) !! ns with
  | Some m =>
      match mod_structs m !! name with
      | None => rtErr p "module %q has no struct %q" [AStr ns; AStr name]
      | Some d =>
          if bool_decide (name ∈ mod_exports m)
          then Ok (d, mod_ns m, mod_path m, mod_bundled m,
                   retagTyp "" (mod_ns m) "" (mod_path m) (isOwnStruct m))
          else rtErr p "%s.%s: struct %q is not exported from module %q"
                 [AStr ns; AStr name; AStr name; AStr ns]
      end
  | None =>
      if bool_decide (ns <> "") then
        match resolveNamespacePrefix i ns with
        | Err m => Err (ERuntime (mkRuntimeError m p ""))
        | Ok canonical =>
            match NSStructs (i_tables i) !! (canonical, name) with
            | None => rtErr p "unknown struct %s.%s" [AStr ns; AStr name]
            | Some d => Ok (d, canonical, "", false, fun t => t)
            end
        end
      else
        match structs (i_tables i) !! name with
        | None => rtErr p "unknown struct %q" [AStr name]
        | Some d => Ok (d, "", "", false, fun t => t)
        end
  end.

Definition errorLocationZero (ns name field : string) : option Value :=
  if bool_decide (ns <> "") || bool_decide (name <> canonicalErrorStructName) then None
  else if bool_decide (field = "file") then Some (StringVal "")
  else if bool_decide (field = "line") || bool_decide (field = "col") then Some (IntVal 0)
  else None.

(** A provided field: evaluate, check against the declared type, store. *)
Definition litField (decl : StructFieldDecl) (lit : LitField) (t : Typ)
    (fmt : string) (args : list fmtarg) : M (string * Value) :=
  do v <- evalExpr (snd (fst lit));
  do ok <- matchesM v t;
  if negb ok then rt (snd lit) fmt (args ++ [typArg t; AStr (valueTypeLabel v)])
  else
    do v' <- stampM (literalElementValue (snd (fst lit)) v) t;
    ret (field_Name decl, v').

(** One declared field: the value given, or the one the evaluator fills in. *)
Definition evalStructField (p : position) (ns name : string) (fs : list LitField)
    (rns rmp : string) (bundled : bool) (retag : Typ -> Typ) (decl : StructFieldDecl)
    : M (string * Value) :=
  match provided fs (field_Name decl) with
  | Some lit =>
      litField decl lit (retag (field_Type decl)) "field %q of struct %q expects %s, got %s"
        [AStr (field_Name decl); AStr name]
  | None =>
      match errorLocationZero ns name (field_Name decl) with
      | Some z => ret (field_Name decl, z)
      | None =>
          if bool_decide (rns <> "") && bool_decide (rmp = "") || bundled then
            do z <- h_zeroField host rns name rmp decl p; ret (field_Name decl, z)
          else rt p "missing field %q in struct %q literal" [AStr (field_Name decl); AStr name]
      end
  end.

Definition evalStructFields (p : position) (ns name : string) (fs : list LitField)
    (decls : list StructFieldDecl) (rns rmp : string) (bundled : bool) (retag : Typ -> Typ)
    : M (list (string * Value)) :=
  mapM (fun _ => evalStructField p ns name fs rns rmp bundled retag) 0 decls.

(** The definition an enum literal names. *)
Definition resolveEnum (p : position) (ns enum variant : string)
    : res (EnumDef * string * string * (Typ -> Typ)) :=
  if bool_decide (enum <> "") then
    match moduleAliases (i_tables i) !! ns with
    | None => rtErr p "unknown module alias %q in enum construction %s.%s.%s"
                [AStr ns; AStr ns; AStr enum; AStr variant]
    | Some m =>
        match mod_enums m !! enum with
        | None => rtErr p "module %q has no enum %q" [AStr ns; AStr enum]
        | Some d =>
            if bool_decide (enum ∈ mod_exports m)
            then Ok (d, mod_ns m, mod_path m, retagTyp "" (mod_ns m) "" (mod_path m) (isOwnStruct m))
            else rtErr p "%s.%s: enum %q is not exported from module %q"
                   [AStr ns; AStr enum; AStr enum; AStr ns]
        end
    end
  else
    match enums (i_tables i) !! ns with
    | Some d => Ok (d, "", "", fun t => t)
    | None => rtErr p "unknown enum %q" [AStr ns]
    end.

(** The payload of a variant, in the order of its declaration. *)
Definition evalEnumField (p : position) (enumName name : string) (fs : list LitField)
    (retag : Typ -> Typ) (decl : StructFieldDecl) : M (string * Value) :=
  match provided fs (field_Name decl) with
  | None => rt p "missing field %q in variant %s.%s literal"
              [AStr (field_Name decl); AStr enumName; AStr name]
  | Some lit =>
      litField decl lit (retag (field_Type decl))
        "field %q of variant %s.%s expects %s, got %s"
        [AStr (field_Name decl); AStr enumName; AStr name]
  end.

Definition evalEnumFields (p : position) (enumName name : string) (fs : list LitField)
    (retag : Typ -> Typ) (decls : list StructFieldDecl) : M (list (string * Value)) :=
  mapM (fun _ => evalEnumField p enumName name fs retag) 0 decls.

Definition evalEnumLit (p : position) (ns enum name : string) (bare : bool) (fs : list LitField)
    : M Value :=
  do r <- lift (resolveEnum p ns enum name);
  let '(def, rns, rmp, retag) := r in
  match findVariant def name with
  | None => rt p "enum %s has no variant %q" [AStr (enum_Name def); AStr name]
  | Some vdef =>
      match bare, variant_Fields vdef with
      | true, [] => ret (EnumVal rns rmp (enum_Name def) name [])
      | true, _ => rt p "variant %s.%s carries a payload; construct it as %s.%s{ ... }"
                     [AStr (enum_Name def); AStr name; AStr (enum_Name def); AStr name]
      | false, [] => rt p "variant %s.%s has no payload; write it as %s.%s, without braces"
                       [AStr (enum_Name def); AStr name; AStr (enum_Name def); AStr name]
      | false, decls =>
          match undeclared fs decls with
          | Some f => rt (snd f) "unknown field %q in variant %s.%s"
                        [AStr (litName f); AStr (enum_Name def); AStr name]
          | None =>
              do out <- evalEnumFields p (enum_Name def) name fs retag decls;
              ret (EnumVal rns rmp (enum_Name def) name out)
          end
      end
  end.

Definition evalStructLit (p : position) (ns enum name : string) (bare : bool)
    (fs : list LitField) : M Value :=
  if bool_decide (enum <> "") ||
     (bool_decide (ns <> "") && bool_decide (is_Some (enums (i_tables i) !! ns)) &&
      negb (isNamespaceOrAlias i ns))
  then evalEnumLit p ns enum name bare fs
  else
    do r <- lift (resolveStruct p ns name);
    let '(d, rns, rmp, bundled, retag) := r in
    match undeclared fs (struct_Fields d) with
    | Some f => rt (snd f) "unknown field %q in struct %q" [AStr (litName f); AStr name]
    | None =>
        do out <- evalStructFields p ns name fs (struct_Fields d) rns rmp bundled retag;
        ret (VStruct rns rmp name out)
    end.

(** ** Calls *)

(** Binding of one parameter: the frame with the argument bound, its bytes charged. *)
Definition bindParam (cf : Frame) (idx : nat) (prm : Param) (v : Value) (move argBorrow : bool)
    : M Frame :=
  let borrowed := param_Borrow prm && argBorrow in
  do bound <- (if move || borrowed then stampM v (param_Type prm) else bindParamM v (param_Type prm));
  let n := if move || borrowed then 0 else shallowValueBytes (i_cellBytes i) bound in
  modify (fun w => mkWorld (w_env w) (mkChain (depthN (w_chain w)) (chainBytes (w_chain w) + n))
                     (w_handles w) (w_ext w));;
  ret (let cf := growSlots (chargeFrame cf n) idx in
       setSlot cf idx (mkBinding bound (param_Type prm) false (Z.of_nat idx) (param_Name prm))).

Fixpoint bindParams (cf : Frame) (idx : nat) (prms : list Param) (args : list Expr)
    (callee : string) (moveArg : nat) (argSnap : list bool) (borrowCtx : bool) : M Frame :=
  match prms, args with
  | prm :: prms, a :: args =>
      do r <- attempt (evalExpr a);
      match r with
      | Err e => release cf;; raise e
      | Ok v =>
          do ok <- matchesM v (param_Type prm);
          if negb ok then
            release cf;;
            rt (posFor a) "argument %d to %q must be %s, got %s"
              [AInt (Z.of_nat (S idx)); AStr callee; typArg (param_Type prm); kindArg v]
          else
            let argBorrow := borrowCtx && match argSnap !! idx with Some true => false | _ => true end in
            do cf <- bindParam cf idx prm v (bool_decide (moveArg = S idx)) argBorrow;
            bindParams cf (S idx) prms args callee moveArg argSnap borrowCtx
      end
  | _, _ => ret cf
  end.

(** Run a body on the callee's chain [cf; global]; the caller's frames come back with
    the global as the body left it, and the call frame is released. *)
Definition enterCall {A} (cf : Frame) (c : M A) : M A :=
  do w <- get;
  setEnv (cf :: match effectiveGlobal (w_env w) with Some g => [g] | None => [] end);;
  do r <- attempt c;
  popRelease;;
  do w' <- get;
  setEnv (localFrames (w_env w) ++ w_env w');;
  lift r.

Definition limitError (fmt : string) (args : list fmtarg) (p : position) : evalError :=
  ERuntime (mkRuntimeError (Sprintf fmt args) p "limit").

(** A call whose arguments are bound in [cf]: the depth and memory limits, the body, its result. *)
Definition runFrame (cf : Frame) (body : Block) (p : position) : M Value :=
  do w <- get;
  if MaxCallDepth <? depthN (w_chain w) + 1 then
    release cf;;
    raise (limitError "call stack too deep: exceeded the depth limit of %d nested calls, blocks, and expressions (possible infinite recursion)"
             [AInt MaxCallDepth] p)
  else if MaxCopyChainBytes <? chainBytes (w_chain w) then
    release cf;;
    raise (limitError "recursion used too much memory: live value copies exceeded the %d-byte limit (a large value copied on each of many recursive frames; pass it as a read-only parameter, or index it in place, to avoid the per-frame copy)"
             [AInt MaxCopyChainBytes] p)
  else
    do r <- enterCall cf (nested (execBlock body));
    match r with
    | FBreak q => raise (unhandledLoopFlowError "break" q)
    | FContinue q => raise (unhandledLoopFlowError "continue" q)
    | FReturn v => ret v
    | FNone => ret VNull
    end.

(** [evalCall] on a user method, [callUserMethod]. *)
Definition callUserMethod (m : MethodDef) (args : list Expr) (argSnap : list bool) (moveArg : nat)
    (callee : string) (p : position) : M Value :=
  if negb (bool_decide (length args = length (method_Params m))) then
    rt p "function %q takes %d argument(s), got %d"
      [AStr callee; AInt (Z.of_nat (length (method_Params m))); AInt (Z.of_nat (length args))]
  else
    do w <- get;
    let borrowCtx := methodBorrowCtx m (w_ext w) in
    let cf := borrowBlockEnv newPooled
                (match effectiveGlobal (w_env w) with Some g => [g] | None => [] end)
                (length (method_Params m)) in
    let cf := mkFrame (backing cf) (nslots cf) (vars cf) (deferred cf) (frameBytes cf) borrowCtx in
    do cf <- bindParams cf 0 (method_Params m) args callee moveArg argSnap borrowCtx;
    runFrame cf (method_Body m) p.

(** A host call whose errors are positioned at the call. *)
Definition hostCall (c : M Value) (p : position) : M Value :=
  do r <- attempt c;
  match r with Ok v => ret v | Err e => raise (builtinError e p) end.

Definition evalCall (p : position) (callee : string) (args : list Expr) (m : option MethodRef)
    (moveArg : nat) (argSnap : list bool) : M Value :=
  match i_methods i !! match m with Some r => ref_Name r | None => callee end with
  | Some md => callUserMethod md args argSnap moveArg callee p
  | None =>
      match i_builtins i !! callee with
      | Some lib =>
          if bool_decide (lib ∈ i_imported i) then
            do vs <- mapM (fun _ a => evalExpr a) 0 args;
            hostCall (h_builtin host callee vs p) p
          else rt p "`%s` requires `use %s;`" [AStr callee; AStr lib]
      | None => rt p "unknown function %q" [AStr callee]
      end
  end.

Definition evalCallValue (p : position) (callee : Expr) (args : list Expr) (argSnap : list bool)
    : M Value :=
  do fv <- evalExpr callee;
  match fv with
  | VFunc None _ => rt p "call of an uninitialized `func` value (it was never assigned a function)" []
  | VFunc (Some fn) home =>
      let foreign home :=
        do vs <- mapM (fun k a => do v <- evalExpr a; ret (snapArg v argSnap k)) 0 args;
        h_foreign host home fn vs p in
      match home with
      | Some hm =>
          if bool_decide (hm = i_self i) then
            match i_methods i !! snd fn with
            | Some m => callUserMethod m args argSnap 0 (method_Name m) p
            | None => foreign hm
            end
          else foreign hm
      | None =>
          match i_methods i !! snd fn with
          | Some m => callUserMethod m args argSnap 0 (method_Name m) p
          | None => foreign (i_self i)
          end
      end
  | _ => rt p "cannot call a %s value; only a `func` value is callable" [kindArg fv]
  end.

Definition impostorLabel (imp : Value) : string * string :=
  match imp with
  | VEnum _ _ name _ _ => ("enum", name)
  | VStruct _ _ name _ => ("struct", name)
  | _ => ("struct", "")
  end.

Definition evalQualifiedCall (p : position) (prefix callee : string) (args : list Expr)
    (moveArg : nat) (argSnap : list bool) : M Value :=
  match moduleAliases (i_tables i) !! prefix with
  | Some m =>
      if negb (bool_decide (callee ∈ mod_methods m)) then
        rt p "module %q has no function %q" [AStr prefix; AStr callee]
      else if negb (bool_decide (callee ∈ mod_exports m)) then
        rt p "%s.%s: %q is not exported from module %q" [AStr prefix; AStr callee; AStr callee; AStr prefix]
      else
        do vs <- mapM (fun k a =>
          do v <- evalExpr a;
          match findImpostorStruct m v with
          | Some imp =>
              let '(what, name) := impostorLabel imp in
              rt p "argument %d to %s.%s: %s %q is not %s.%s (a consumer-defined %s cannot impersonate a module %s)"
                [AInt (Z.of_nat (S k)); AStr (mod_ns m); AStr callee; AStr what; AStr name;
                 AStr (mod_ns m); AStr name; AStr what; AStr what]
          | None =>
              ret (retagStructs (mod_ns m) "" (mod_path m) "" (isOwnStruct m) (snapArg v argSnap k))
          end) 0 args;
        do v <- h_module host prefix callee vs moveArg p;
        ret (retagStructs "" (mod_ns m) "" (mod_path m) (isOwnStruct m) v)
  | None =>
      match resolveNamespacePrefix i prefix with
      | Err m => raise (ERuntime (mkRuntimeError m p ""))
      | Ok ns =>
          if bool_decide ((ns, callee) ∈ i_nsBuiltins i) then
            do vs <- mapM (fun k a => do v <- evalExpr a; ret (snapArg v argSnap k)) 0 args;
            hostCall (h_nsBuiltin host ns callee vs p) p
          else rt p "unknown function %q in namespace %q" [AStr callee; AStr ns]
      end
  end.

(** [prefix.NAME]: the stamped constant; a variant of a local enum (its name may be
    constant-shaped); a constant of a module or a library namespace. *)
Definition evalQualifiedConst (p : position) (prefix name : string) : M Value :=
  match h_stampedConst host prefix name with
  | Some v => ret v
  | None =>
      match enums (i_tables i) !! prefix with
      | Some ed =>
          match findVariant ed name with
          | Some v =>
              match variant_Fields v with
              | [] => ret (EnumVal "" "" (enum_Name ed) name [])
              | _ => rt p "variant %s.%s carries a payload; construct it as %s.%s{ ... }"
                       [AStr (enum_Name ed); AStr name; AStr (enum_Name ed); AStr name]
              end
          | None => rt p "enum %s has no variant %q" [AStr (enum_Name ed); AStr name]
          end
      | None => h_const host prefix name p
      end
  end.

(** [evalSpawn]: the body runs elsewhere, on a detached snapshot. *)
Definition evalSpawn (body : list Stmt) (caps : option SpawnCaptures) : M Value :=
  do w <- get;
  h_spawn host body (snapshotForSpawn (w_env w) caps).

(** [evalExpr]: one case per node. *)
Definition evalExprStep (e : Expr) : M Value :=
  match e with
  | PreEval _ v => ret v
  | IntLit _ n => ret (IntVal n)
  | FloatLit _ f => ret (FloatVal f)
  | StringLit _ s => ret (StringVal s)
  | InterpStringExpr _ parts => do s <- interpParts parts ""; ret (StringVal s)
  | BoolLit _ b => ret (BoolVal b)
  | NullLit _ => ret VNull
  | VarExpr p name depth slot _ => evalVar p name depth slot
  | ConstRefExpr p name depth slot => evalConstRef p name depth slot
  | BinaryExpr p op l r folded => evalBinary p op l r folded
  | UnaryExpr p op o folded => evalUnary p op o folded
  | CallExpr p callee args m mv snap => evalCall p callee args m mv snap
  | CallValueExpr p callee args snap => evalCallValue p callee args snap
  | LenExpr p o => evalLen p o
  | SpawnExpr _ body caps => evalSpawn body caps
  | QualifiedCallExpr p prefix callee args mv snap => evalQualifiedCall p prefix callee args mv snap
  | QualifiedConstRefExpr p prefix name => evalQualifiedConst p prefix name
  | ListLit _ es => evalListLit es
  | MapLit _ kvs => evalMapLit kvs
  | IndexExpr p t idx => evalIndex p t idx
  | RangeExpr p lo hi => evalRange p lo hi
  | SliceExpr p t lo hi => evalSlice p t lo hi
  | StructLit p ns enum name bare fs => evalStructLit p ns enum name bare fs
  | FieldAccessExpr p t f => evalFieldAccess p t f
  end.

(** ** Statements *)

Definition execDefine (p : position) (isConst : bool) (name : string) (t : Typ)
    (init : option Expr) (slot : Z) (borrow : bool) : M unit :=
  do val <-
    match init with
    | Some e =>
        do v <- evalExpr e;
        do ok <- matchesM v t;
        if negb ok then
          rt p "cannot initialize %s %s %q with value of type %s"
            [typArg t; AStr (if isConst then "constant" else "variable"); AStr name; kindArg v]
        else if rhsFreshLiteral e || ownedCallResult e then
          do v' <- stampM v t; accountCopy v';; ret v'
        else
          do w <- get;
          if borrow && match w_env w with f :: _ => borrowDefs f | [] => false end then stampM v t
          else do v' <- stampM (Copy v) t; accountCopy v';; ret v'
    | None =>
        if isConst then rt p "internal: constant without init reached interpreter" []
        else
          match t with
          | TypeStruct _ _ _ => h_zero host t p
          | _ => stampM (ZeroFor t) t
          end
    end;
  if 0 <=? slot then defineAt slot name val t isConst p else define name val t isConst p.

(** The assigned copy of a right-hand side for a variable of type [t]. *)
Definition execAssign (p : position) (name : string) (value : Expr) (depth slot : Z) : M unit :=
  do w <- get;
  match (if fast then fastAssign (w_env w) value depth slot else None) with
  | Some env => setEnv env
  | None =>
      do val <- evalExpr value;
      do w <- get;
      do b <- liftMsg (if 0 <=? slot then GetBindingAt (w_env w) depth slot name
                       else GetBinding (w_env w) name) p;
      do ok <- matchesM val (b_DeclType b);
      if negb ok then
        rt p "cannot assign %s to %s variable %q" [kindArg val; typArg (b_DeclType b); AStr name]
      else
        do val <- stampM (if rhsFreshLiteral value || ownedCallResult value then val else Copy val)
                    (b_DeclType b);
        do w <- get;
        do env <- liftMsg (if 0 <=? slot then AssignAt (w_handles w) (w_env w) depth slot name val
                           else Assign (w_handles w) (w_env w) name val) p;
        setEnv env
  end.

(** [collectLvalueSteps]: indexes are evaluated from the leaf inwards, the steps
    returned root first. *)
Fixpoint collectLvalueSteps (e : Expr) (st : position) (acc : list lvalueStep)
    : M (list lvalueStep) :=
  match e with
  | FieldAccessExpr p t f => collectLvalueSteps t st (StepField f p :: acc)
  | IndexExpr p t idx =>
      do v <- evalExpr idx;
      collectLvalueSteps t st (StepIndex v p :: acc)
  | VarExpr _ _ _ _ _ => ret acc
  | _ => rt st "internal: unexpected lvalue node" []
  end.

Definition rootBinding (root : string * Z * Z) (p : position) : M Binding :=
  do w <- get;
  let '(name, depth, slot) := root in
  match getBindingRoot (w_env w) name depth slot with
  | Ok b => ret b
  | Err _ => rt p "undefined variable %q" [AStr name]
  end.

Definition storeRoot (root : string * Z * Z) (v : Value) (p : position) : M unit :=
  do w <- get;
  let '(name, depth, slot) := root in
  do env <- liftMsg (assignRoot (w_handles w) (w_env w) name depth slot v) p;
  setEnv env.

Definition mutableRoot (target : Expr) (what : string) (p : position)
    : M (string * Z * Z * Binding) :=
  match lvalueRootVar target with
  | None => rt p what []
  | Some root =>
      do b <- rootBinding root p;
      if b_IsConst b
      then rt p "cannot mutate contents of constant %q (const is deep)" [AStr (fst (fst root))]
      else ret (root, b)
  end.

(** [execIndexAssign] and [execFieldAssign]. *)
Definition execPathAssign (what : string) (p : position) (target value : Expr) : M unit :=
  do rb <- mutableRoot target what p;
  do newVal <- evalExpr value;
  do steps <- collectLvalueSteps target p [];
  do b <- rootBinding (fst rb) p;
  do w <- get;
  do r <- lift (applyLvalueWrite (w_handles w) (i_tables i) (b_Value b) steps newVal p);
  setHandles (snd r);;
  storeRoot (fst rb) (fst r) p.

(** The container at the end of a path, with [f] applied to it. *)
Fixpoint updatePath (h : Handles) (root : Value) (steps : list lvalueStep)
    (f : Value -> res (Value * Handles)) : res (Value * Handles) :=
  match steps with
  | [] => f root
  | step :: steps =>
      (let? pl := lvalueStepInto h root step in
       let? r := updatePath h (fst pl) steps f in
       Ok (snd pl (fst r), snd r))%go
  end.

Definition execAppend (p : position) (target value : Expr) : M unit :=
  do rb <- mutableRoot target "internal: append target has no root variable" p;
  let bare := match target with VarExpr _ _ _ _ _ => true | _ => false end in
  let appendable := match b_Value (snd rb) with VList _ _ | VBytes _ => true | _ => false end in
  if bare && negb appendable then
    rt p "`$%s[] = ...` requires a list or bytes, got %s"
      [AStr (fst (fst (fst rb))); kindArg (b_Value (snd rb))]
  else
    do newVal <- evalExpr value;
    do steps <- (if bare then ret [] else collectLvalueSteps target p []);
    do b <- rootBinding (fst rb) p;
    do w <- get;
    do r <- lift (updatePath (w_handles w) (b_Value b) steps
                    (fun c => appendInto (w_handles w) c newVal p));
    setHandles (snd r);;
    storeRoot (fst rb) (fst r) p.

Fixpoint elseIfs (arms : list (Expr * Block)) (els : option Block) : M flow :=
  match arms with
  | [] => match els with Some b => execBlock b | None => ret FNone end
  | (c, b) :: arms =>
      do ok <- evalBool c "`elseif` condition";
      if ok then execBlock b else elseIfs arms els
  end.

Definition execIf (cond : Expr) (thn : Block) (arms : list (Expr * Block)) (els : option Block)
    : M flow :=
  do c <- evalBool cond "`if` condition";
  if c then execBlock thn else elseIfs arms els.

(** What a loop does after one run of its body. *)
Definition afterBody (r : flow) (next : M flow) : M flow :=
  match r with
  | FReturn v => ret (FReturn v)
  | FBreak _ => ret FNone
  | _ => next
  end.

(** One iteration of a loop, then the rest of it. *)
Definition loopStep (l : Loop) : M flow :=
  match l with
  | LWhile p cond body =>
      loopCheckpoint p;;
      do c <- evalBool cond "`while` condition";
      if negb c then ret FNone
      else do r <- execBlock body; afterBody r (r_loop rec l)
  | LFor p cond step body =>
      loopCheckpoint p;;
      do c <- match cond with Some c => evalBool c "`for` condition" | None => ret true end;
      if negb c then ret FNone
      else
        do r <- execBlock body;
        afterBody r
          (match step with Some s => execStmts [s];; r_loop rec l | None => r_loop rec l end)
  | LRepeat p body cond =>
      loopCheckpoint p;;
      do r <- execBlock body;
      afterBody r
        (do done <- evalBool cond "`repeat ... until` condition";
         if done then ret FNone else r_loop rec l)
  | LRange p var body slot n hi =>
      if negb (n <? hi) then ret FNone
      else
        loopCheckpoint p;;
        do r <- boundBlock body slot var (IntVal n) TypeInt false p;
        afterBody r (r_loop rec (LRange p var body slot (add64 n 1) hi))
  end.

Fixpoint eachLoop (p : position) (var : string) (body : Block) (slot : Z) (t : Typ)
    (items : list Value) : M flow :=
  match items with
  | [] => ret FNone
  | x :: items =>
      loopCheckpoint p;;
      do r <- boundBlock body slot var x t false p;
      afterBody r (eachLoop p var body slot t items)
  end.

Definition execForEach (p : position) (var : string) (coll : Expr) (body : Block) (slot : Z)
    : M flow :=
  match coll with
  | RangeExpr q lo hi =>
      do b <- rangeBounds lo hi q;
      r_loop rec (LRange p var body slot (fst b) (snd b))
  | _ =>
      do c <- evalExpr coll;
      match c, Copy c with
      | VList _ et, VList snap _ => eachLoop p var body slot (default TypeInvalid et) snap
      | VMap _ kt _ _, VMap snap _ _ _ =>
          eachLoop p var body slot (default TypeInvalid kt) (map fst snap)
      | _, _ => rt p "for-each requires a list or map, got %s" [kindArg c]
      end
  end.

Definition execFor (p : position) (init : option Stmt) (cond : option Expr) (step : option Stmt)
    (body : Block) (headerSlots : nat) : M flow :=
  withFrame headerSlots
    (match init with Some s => execStmts [s];; ret tt | None => ret tt end;;
     r_loop rec (LFor p cond step body)).

(** ** match *)

Definition enumArmPattern (e : Expr) (subject : Value) : option (string * string) :=
  let found name bind :=
    match subject with
    | VEnum ns mp en _ _ =>
        match lookupEnumDef (i_tables i) ns en mp with
        | Some def => if bool_decide (is_Some (findVariant def name)) then Some (name, bind) else None
        | None => None
        end
    | _ => None
    end in
  match e with
  | ConstRefExpr _ name _ _ => found name ""
  | CallExpr _ callee [ConstRefExpr _ a _ _] _ _ _ => found callee a
  | _ => None
  end.

Definition runPatternArm (p : position) (body : Block) (bind : string) (slot : Z) (subject : Value)
    : M flow :=
  if bool_decide (bind = "") then execBlock body
  else
    let payload :=
      match subject with
      | VEnum _ _ _ variant fs =>
          VStruct matchPayloadNS "" variant (map (fun '(f, x) => (f, Copy x)) fs)
      | v => v
      end in
    withFrame (block_NumSlots body)
      ((if 0 <=? slot then defineAt slot bind payload TypeInvalid true p
        else define bind payload TypeInvalid true p);;
       finishing (execStmts (block_Stmts body))).

(** A plain arm: the first value equal to the subject selects it. *)
Fixpoint armValues (vs : list Expr) (subject : Value) : M bool :=
  match vs with
  | [] => ret false
  | e :: vs =>
      do v <- evalExpr e;
      if Equal subject v then ret true else armValues vs subject
  end.

Fixpoint matchArms (arms : list MatchArm) (subject : Value) (els : option Block) : M flow :=
  match arms with
  | [] => match els with Some b => execBlock b | None => ret FNone end
  | mkArm p vs body variant bind slot :: arms =>
      let sv := match subject with VEnum _ _ _ v _ => Some v | _ => None end in
      if bool_decide (variant <> "") then
        if bool_decide (sv = Some variant) then runPatternArm p body bind slot subject
        else matchArms arms subject els
      else
        let pattern :=
          match sv, vs with
          | Some _, [e] => enumArmPattern e subject
          | _, _ => None
          end in
        match pattern with
        | Some (name, b) =>
            if bool_decide (sv = Some name) then runPatternArm p body b slot subject
            else matchArms arms subject els
        | None =>
            do hit <- armValues vs subject;
            if hit then execBlock body else matchArms arms subject els
        end
  end.

Definition execMatch (subject : Expr) (arms : list MatchArm) (els : option Block) : M flow :=
  do v <- evalExpr subject; matchArms arms v els.

(** ** Errors and exits *)

Definition execExit (code : option Expr) : M flow :=
  match code with
  | None => raise (EExit 0)
  | Some e =>
      do v <- evalExpr e;
      match v with
      | VInt n => raise (EExit n)
      | _ => rt (posFor e) "`exit` argument must be int, got %s" [kindArg v]
      end
  end.

Definition execThrow (p : position) (e : Expr) : M flow :=
  do v <- evalExpr e;
  raise (EThrow (stampThrowSite (Copy v) p) p).

Definition execDefer (call : Expr) (onError : bool) : M unit :=
  do args <- mapM (fun _ a => do v <- evalExpr a; ret (Copy v)) 0 (deferCallArgs call);
  do w <- get;
  setDeferred (headDeferred w ++ [{| dc_Call := withArgs call args; dc_OnError := onError |}]).

(** The value a catch clause binds. *)
Definition caughtValue (e : evalError) : option Value :=
  match e with
  | EThrow v _ => Some v
  | ERuntime r => Some (runtimeErrorToValue r)
  | EExit _ => None
  end.

Definition catchType (caught : Value) : Typ :=
  match caught with
  | VStruct _ _ name _ =>
      if bool_decide (name = canonicalErrorStructName)
      then TypeStruct "" "" canonicalErrorStructName else TypeInvalid
  | _ => TypeInvalid
  end.

Definition execTry (body : Block) (catchName : string) (catchBody : Block) (catchPos : position)
    (catchSlot : Z) : M flow :=
  do r <- attempt (withFrame (block_NumSlots body) (finishing (execStmts (block_Stmts body))));
  match r with
  | Ok f => ret f
  | Err e =>
      match caughtValue e with
      | None => raise e
      | Some caught =>
          boundBlock catchBody catchSlot catchName (Copy caught) (catchType caught) false catchPos
      end
  end.

(** [execStmtRaw]: one case per node. *)
Definition execStmt (s : Stmt) : M flow :=
  let unit_ (c : M unit) : M flow := c;; ret FNone in
  match s with
  | DefineStmt p isConst _ name t init slot borrow =>
      unit_ (execDefine p isConst name t init slot borrow)
  | AssignStmt p name v depth slot => unit_ (execAssign p name v depth slot)
  | IndexAssignStmt p t v =>
      unit_ (execPathAssign "internal: index-assign target has no root variable" p t v)
  | FieldAssignStmt p t v =>
      unit_ (execPathAssign "internal: field-assign target has no root variable" p t v)
  | AppendStmt p t v => unit_ (execAppend p t v)
  | IfStmt _ c thn arms els => execIf c thn arms els
  | MatchStmt _ subject arms els _ => execMatch subject arms els
  | WhileStmt p c b => r_loop rec (LWhile p c b)
  | ForStmt p init c step b slots => execFor p init c step b slots
  | ForEachStmt p var coll b slot => execForEach p var coll b slot
  | RepeatStmt p b c => r_loop rec (LRepeat p b c)
  | ReturnStmt _ None => ret (FReturn VNull)
  | ReturnStmt _ (Some e) => do v <- evalExpr e; ret (FReturn v)
  | BreakStmt p => ret (FBreak p)
  | ContinueStmt p => ret (FContinue p)
  | ExitStmt _ code => execExit code
  | TryStmt _ b n cb cp cs => execTry b n cb cp cs
  | ThrowStmt p e => execThrow p e
  | DeferStmt _ call onError => unit_ (execDefer call onError)
  | ExprStmt _ e => unit_ (evalExpr e;; ret tt)
  end.

(** [execStmts]. *)
Fixpoint stmtsStep (ss : list Stmt) : M flow :=
  match ss with
  | [] => ret FNone
  | s :: ss =>
      do r <- execStmt s;
      if flowsOut r then ret r else stmtsStep ss
  end.

Definition step : Rec X := mkRec evalExprStep stmtsStep loopStep.

End Eval.

(** The evaluator with [n] levels of recursion. *)
Definition stuck {X} : Rec X := mkRec (fun _ _ => NoFuel) (fun _ _ => NoFuel) (fun _ _ => NoFuel).

Fixpoint run `{NativeObject, GoText, Limits} {X} (host : Host X) (i : Interpreter) (fast : bool)
    (n : nat) : Rec X :=
  match n with
  | O => stuck
  | S n => step host i fast (run host i fast n)
  end.
