(* ===== verification/FastFacts.v ===== *)
(** * The integer fast path and the fuel are unobservable

    Whatever the fast path of intfast.go answers is what the general path computes, with
    the same state; and an evaluation that ends, ends the same way with any larger amount
    of fuel, with the fast path or without it. *)

From S2P Require Import Prelude GoInt Float64 Utf8 Limits Types Value ValueFacts Ast Ops.
From S2P Require Import Display Defs Store Environment EnvFacts IntFast Interp Eval MapFacts.
From S2P Require Import StoreFacts.
Open Scope string_scope.
Open Scope list_scope.
Open Scope Z_scope.

Section Fast.
Context `{NativeObject, GoText, Limits}.
Context {X : Type}.
Variable host : Host X.
Variable i : Interpreter.

Abbreviation run := (run host i).

(** ** What a fast operand denotes *)

Lemma deeper_back (w : World X) : deeper (-1) (deeper 1 w) = w.
Proof.
  destruct w as [env [d b] h x]. unfold deeper. simpl. by replace (d + 1 + -1) with d by lia.
Qed.

Lemma nested_done {A} (c : M X A) w a : c (deeper 1 w) = Done a (deeper 1 w) -> nested c w = Done a w.
Proof. unfold nested. intros ->. by rewrite deeper_back. Qed.

Lemma nested_nofuel {A} (c : M X A) w : c (deeper 1 w) = NoFuel -> nested c w = NoFuel.
Proof. unfold nested. by intros ->. Qed.

Lemma bind_get {A} (k : World X -> M X A) w : bind get k w = k w w.
Proof. done. Qed.

Lemma bind_done {A B} (c : M X A) (k : A -> M X B) w a w' :
  c w = Done a w' -> bind c k w = k a w'.
Proof. unfold bind. by intros ->. Qed.

Lemma bind_nofuel {A B} (c : M X A) (k : A -> M X B) w : c w = NoFuel -> bind c k w = NoFuel.
Proof. unfold bind. by intros ->. Qed.

(** An evaluation of height at most [k] that is pure: it gives [v] without touching
    the state, or lacks fuel. *)
Definition settles (f : bool) (k : nat) (e : Expr) (v : Value) (w : World X) : Prop :=
  forall n, r_eval (run f n) e w = Done v w \/ r_eval (run f n) e w = NoFuel /\ (n <= k)%nat.

Fixpoint height (e : Expr) : nat :=
  match e with
  | IndexExpr _ t x => S (Nat.max (height t) (height x))
  | BinaryExpr _ _ _ _ (Some f) => S (height f)
  | BinaryExpr _ _ l r None => S (Nat.max (height l) (height r))
  | UnaryExpr _ _ _ (Some f) => S (height f)
  | UnaryExpr _ _ o None => S (height o)
  | _ => O
  end.

Lemma settles_ge f k k' e v w : settles f k e v w -> (k <= k')%nat -> settles f k' e v w.
Proof. intros Hs Hk n. destruct (Hs n) as [ | [? ?]]; [by left | right]. split; [done | lia]. Qed.

(** Settling of a node from its one-step unfolding. *)
Lemma settles_step f k e v w :
  (forall n, r_eval (step host i f (run f n)) e w = Done v w \/
             r_eval (step host i f (run f n)) e w = NoFuel /\ (S n <= k)%nat) ->
  settles f k e v w.
Proof.
  intros Hs [ | n]; [ | apply Hs]. right. split; [done | ]. lia.
Qed.

Lemma settles_nested f k e v w n :
  settles f k e v (deeper 1 w) ->
  nested (r_eval (run f n) e) w = Done v w \/ nested (r_eval (run f n) e) w = NoFuel /\ (n <= k)%nat.
Proof.
  intros Hs. destruct (Hs n) as [E | [E ?]]; [left; by apply nested_done | right].
  split; [by apply nested_nofuel | done].
Qed.

Lemma varValue_GetAt env depth slot name v :
  varValue env depth slot = Some v -> 0 <= slot /\ GetAt env depth slot name = Ok v.
Proof.
  unfold varValue, slotBinding, GetAt. destruct (Z.ltb_spec slot 0); [done | ]. intros Hv.
  split; [lia | ]. destruct (frameAt env depth) as [cur | ]; [ | done].
  destruct (inSlots cur slot); [ | done].
  destruct (slots cur !! Z.to_nat slot); by simplify_eq/=.
Qed.

Lemma settles_var f p name depth slot mv v (w : World X) :
  varValue (w_env w) depth slot = Some v -> settles f 0 (VarExpr p name depth slot mv) v w.
Proof.
  intros Hv. apply (varValue_GetAt _ _ _ name) in Hv as [Hs Hg]. intros [ | n]; [by right | left].
  simpl. unfold evalVar, bind, get. destruct (Z.leb_spec 0 slot); [ | lia]. by rewrite Hg.
Qed.

Lemma intElement_applyIndex (h : Handles) parent idx p n :
  intElement parent idx = Some n -> applyIndex h parent (VInt idx) p = Ok (VInt n).
Proof.
  unfold intElement, applyIndex, indexInto, readByteAt, inBounds. destruct (idx <? 0) eqn:Ei; [done | ].
  destruct parent; try done; simpl;
    match goal with |- context [idx <? Z.of_nat ?l] => destruct (Z.ltb_spec idx (Z.of_nat l)) end;
    try done; rewrite (proj2 (Z.leb_gt _ _)) by lia; simpl.
  - by intros ->.
  - destruct (List_ !! Z.to_nat idx) as [[ ] | ]; try done. by intros [= ->].
Qed.

Lemma intArith_applyBinary op a b p z :
  intArith op a b = Some z -> applyBinary op (VInt a) (VInt b) p = Ok (VInt z).
Proof.
  destruct op; simpl; try done; cbn;
    repeat match goal with |- context [let '(_, _) := ?x in _] => destruct x as [? []] end;
    try done; try (by intros [= ->]).
  - destruct (b =? 0) eqn:E; [done | ]. simpl. destruct (_ && _); [done | ]. by intros [= <-].
  - destruct (b =? 0); [done | ]. by intros [= <-].
Qed.

Lemma intCompare_applyBinary op a b p r :
  intCompare op a b = Some r -> applyBinary op (VInt a) (VInt b) p = Ok (VBool r).
Proof.
  destruct op; try done; intros [= <-]; try done;
    cbn [applyBinary IsComparison evalComparison]; by rewrite Equal_unfold.
Qed.

(** The general path of a binary node whose operands settle. *)
Lemma settles_binary f k p op l r lv rv v (w : World X) :
  IsLogical op = false ->
  (f = true ->
     (if IsComparison op then option_map BoolVal (fastCondition (w_env w) (BinaryExpr p op l r None))
      else option_map IntVal (intOperand (w_env w) (BinaryExpr p op l r None))) = Some v) ->
  (forall w', w_env w' = w_env w -> settles f k l lv w') ->
  (forall w', w_env w' = w_env w -> settles f k r rv w') ->
  applyBinary op lv rv p = Ok v ->
  settles f (S k) (BinaryExpr p op l r None) v w.
Proof.
  intros Hl Hq Hsl Hsr Ha. apply settles_step. intros n. cbn [r_eval step evalExprStep evalBinary].
  unfold quick. rewrite Hl. cbn [orb].
  destruct f; [rewrite (Hq eq_refl); by left | ].
  destruct (settles_nested false k l lv w n (Hsl (deeper 1 w) eq_refl)) as [E1 | [E1 ?]];
    [ | rewrite !(bind_nofuel _ _ _ E1); right; split; [done | lia]].
  rewrite !(bind_done _ _ _ _ _ E1).
  destruct (settles_nested false k r rv w n (Hsr (deeper 1 w) eq_refl)) as [E2 | [E2 ?]];
    [ | rewrite !(bind_nofuel _ _ _ E2); right; split; [done | lia]].
  rewrite !(bind_done _ _ _ _ _ E2), Ha. by left.
Qed.

Lemma intOperand_settles f : forall (e : Expr) (w : World X) z,
  intOperand (w_env w) e = Some z -> settles f (height e) e (VInt z) w.
Proof.
  fix IH 1. intros e w z Hz. destruct e; try done.
  - injection Hz as ->. intros [ | n]; [by right | by left].
  - destruct e1; try done. simpl in Hz.
    destruct (varValue (w_env w) Depth Slot) as [parent | ] eqn:Ev; [ | done].
    destruct (intOperand (w_env w) e2) as [idx | ] eqn:Ei; [ | done].
    pose proof (settles_var f p0 Name Depth Slot Move parent w Ev) as Hv.
    pose proof (IH e2 w idx Ei) as Hi.
    apply settles_step. intros n. cbn [r_eval step evalExprStep]. unfold evalIndex.
    destruct (Hv n) as [E1 | [E1 ?]]; [ | rewrite !(bind_nofuel _ _ _ E1); right; split; [done | simpl; lia]].
    rewrite !(bind_done _ _ _ _ _ E1).
    destruct (Hi n) as [E2 | [E2 ?]]; [ | rewrite !(bind_nofuel _ _ _ E2); right; split; [done | simpl; lia]].
    rewrite !(bind_done _ _ _ _ _ E2), !bind_get. left. by rewrite (intElement_applyIndex _ _ _ _ _ Hz).
  - simpl in Hz. destruct (varValue (w_env w) Depth Slot) as [[ ] | ] eqn:Ev; try done.
    injection Hz as ->. by apply settles_var.
  - destruct Folded as [fe | ].
    + pose proof (IH fe w z Hz) as Hf. apply settles_step. intros n.
      cbn [r_eval step evalExprStep evalBinary]. destruct (Hf n) as [E | [E ?]]; rewrite E; [by left | right].
      split; [done | simpl; lia].
    + pose proof Hz as Hz0. simpl in Hz.
      assert (exists a b, intOperand (w_env w) e1 = Some a /\ intOperand (w_env w) e2 = Some b /\
        intArith Op a b = Some z /\ IsLogical Op = false /\ IsComparison Op = false) as (a & b & Ha & Hb & Hop & Hl & Hc).
      { destruct Op; try done; destruct (intOperand (w_env w) e1) as [a | ]; try done;
          destruct (intOperand (w_env w) e2) as [b | ]; try done; by exists a, b. }
      cbn [height]. apply (settles_binary f _ _ _ _ _ (VInt a) (VInt b)); [done | | | | by apply intArith_applyBinary].
      * intros _. rewrite Hc, Hz0. done.
      * intros w' Hw'. apply settles_ge with (height e1); [ | lia]. apply IH. by rewrite Hw'.
      * intros w' Hw'. apply settles_ge with (height e2); [ | lia]. apply IH. by rewrite Hw'.
Qed.

(** Short-circuit evaluation of a logical node whose needed operands settle. *)
Lemma settles_logical f k p op l r (lb rb : bool) (w : World X) :
  IsLogical op = true ->
  (f = true -> fastCondition (w_env w) (BinaryExpr p op l r None) =
               Some (if Bool.eqb lb (bool_decide (op = OpOr)) then lb else rb)) ->
  (forall w', w_env w' = w_env w -> settles f k l (VBool lb) w') ->
  (Bool.eqb lb (bool_decide (op = OpOr)) = false ->
     forall w', w_env w' = w_env w -> settles f k r (VBool rb) w') ->
  settles f (S k) (BinaryExpr p op l r None)
    (VBool (if Bool.eqb lb (bool_decide (op = OpOr)) then lb else rb)) w.
Proof.
  intros Hl Hq Hsl Hsr. apply settles_step. intros n. cbn [r_eval step evalExprStep evalBinary].
  unfold quick. rewrite Hl. cbn [orb].
  destruct f; [rewrite (Hq eq_refl); by left | ].
  unfold evalLogical, quick.
  destruct (settles_nested false k l (VBool lb) w n (Hsl (deeper 1 w) eq_refl)) as [E1 | [E1 ?]];
    [ | rewrite !(bind_nofuel _ _ _ E1); right; split; [done | lia]].
  rewrite !(bind_done _ _ _ _ _ E1).
  destruct (Bool.eqb lb (bool_decide (op = OpOr))) eqn:Es.
  { left. destruct op; try done; destruct lb; done. }
  assert (bool_decide (op = OpAnd) && negb lb = false /\ bool_decide (op = OpOr) && lb = false) as [-> ->].
  { destruct op; try done; destruct lb; done. }
  destruct (settles_nested false k r (VBool rb) w n (Hsr eq_refl (deeper 1 w) eq_refl)) as [E2 | [E2 ?]];
    [ | rewrite !(bind_nofuel _ _ _ E2); right; split; [done | lia]].
  rewrite !(bind_done _ _ _ _ _ E2). by left.
Qed.

Lemma fastCondition_settles f : forall (e : Expr) (w : World X) b,
  fastCondition (w_env w) e = Some b -> settles f (height e) e (VBool b) w.
Proof.
  fix IH 1. intros e w b Hb. destruct e; try done.
  - injection Hb as ->. intros [ | n]; [by right | by left].
  - simpl in Hb. destruct (varValue (w_env w) Depth Slot) as [[ ] | ] eqn:Ev; try done.
    injection Hb as ->. by apply settles_var.
  - destruct Folded as [fe | ].
    + pose proof (IH fe w b) as Hf. apply settles_step. intros n.
      cbn [r_eval step evalExprStep evalUnary].
      destruct (Hf ltac:(by destruct Op) n) as [E | [E ?]]; rewrite E; [by left | right].
      split; [done | simpl; lia].
    + destruct Op; try done. simpl in Hb.
      destruct (fastCondition (w_env w) e) as [r | ] eqn:Er; [ | done]. injection Hb as <-.
      apply settles_step. intros n. cbn [r_eval step evalExprStep evalUnary].
      destruct (settles_nested f (height e) e (VBool r) w n) as [E | [E ?]]; [by apply IH | | ].
      * rewrite !(bind_done _ _ _ _ _ E). by left.
      * rewrite !(bind_nofuel _ _ _ E). right. split; [done | simpl; lia].
  - destruct Folded as [fe | ].
    + pose proof (IH fe w b Hb) as Hf. apply settles_step. intros n.
      cbn [r_eval step evalExprStep evalBinary]. destruct (Hf n) as [E | [E ?]]; rewrite E; [by left | right].
      split; [done | simpl; lia].
    + pose proof Hb as Hb0. simpl in Hb. cbn [height].
      destruct (IsLogical Op) eqn:Hl.
      * assert (exists lb, fastCondition (w_env w) e1 = Some lb /\
          (if Bool.eqb lb (bool_decide (Op = OpOr)) then Some lb else fastCondition (w_env w) e2) = Some b)
          as (lb & El & Er).
        { destruct Op; try done; destruct (fastCondition (w_env w) e1) as [lb | ]; try done; by exists lb. }
        assert (b = if Bool.eqb lb (bool_decide (Op = OpOr)) then lb else b) as Eb
          by (destruct (Bool.eqb _ _); congruence).
        rewrite Eb. apply settles_logical; [done | by rewrite <- Eb | | ].
        -- intros w' Hw'. apply settles_ge with (height e1); [ | lia]. apply IH. by rewrite Hw'.
        -- intros Es w' Hw'. rewrite Es in Er. apply settles_ge with (height e2); [ | lia].
           apply IH. by rewrite Hw'.
      * assert (exists x y, intOperand (w_env w) e1 = Some x /\ intOperand (w_env w) e2 = Some y /\
          intCompare Op x y = Some b /\ IsComparison Op = true) as (x & y & Hx & Hy & Hop & Hc).
        { destruct Op; try done; destruct (intOperand (w_env w) e1) as [x | ]; try done;
            destruct (intOperand (w_env w) e2) as [y | ]; try done; by exists x, y. }
        apply (settles_binary f _ _ _ _ _ (VInt x) (VInt y)); [done | | | | by apply intCompare_applyBinary].
        -- intros _. rewrite Hc, Hb0. done.
        -- intros w' Hw'. apply settles_ge with (height e1); [ | lia]. apply intOperand_settles. by rewrite Hw'.
        -- intros w' Hw'. apply settles_ge with (height e2); [ | lia]. apply intOperand_settles. by rewrite Hw'.
Qed.

(** ** The fast assignment *)

Lemma world_eta (w : World X) : mkWorld (w_env w) (w_chain w) (w_handles w) (w_ext w) = w.
Proof. by destruct w. Qed.

(** What [fastAssign] writes is what the checked assignment of the operand's value
    writes. *)
Lemma fastAssign_inv (h : Handles) env value depth slot name env' :
  fastAssign env value depth slot = Some env' ->
  0 <= slot /\ exists b v, GetBindingAt env depth slot name = Ok b /\
    (intOperand env value = Some (intOf v) /\ v = VInt (intOf v) /\ b_DeclType b = TypeInt \/
     exists r, fastCondition env value = Some r /\ v = VBool r /\ b_DeclType b = TypeBool) /\
    AssignAt h env depth slot name v = Ok env'.
Proof.
  unfold fastAssign, GetBindingAt, AssignAt, slotBinding. destruct (Z.ltb_spec slot 0); [done | ].
  destruct (frameAt env depth) as [cur | ]; [ | done]. destruct (inSlots cur slot); [ | done].
  destruct (slots cur !! Z.to_nat slot) as [b | ]; [ | done]. simpl. intros Hf. split; [lia | ].
  destruct (b_IsConst b) eqn:Ec; [done | ]. exists b.
  unfold checkAssign. rewrite Ec. destruct (b_DeclType b) eqn:Et; try done; destruct (b_Value b); try done.
  - destruct (intOperand env value) as [z | ]; [ | done]. exists (VInt z). split; [done | ].
    split; [by left | ]. injection Hf as <-. unfold withValue. rewrite Et, Ec. done.
  - destruct (fastCondition env value) as [r | ]; [ | done]. exists (VBool r). split; [done | ].
    split; [right; by exists r | ]. injection Hf as <-. unfold withValue. rewrite Et, Ec. done.
Qed.

(** ** Agreement with enough fuel *)

(** [c] lacks fuel, or from some fuel on the family [d] ends exactly as [c] does. *)
Definition lim {A} (c : M X A) (d : nat -> M X A) : Prop :=
  forall w, c w = NoFuel \/ exists N, forall m, (N <= m)%nat -> d m w = c w.

Lemma lim_const {A} (c : M X A) : lim c (fun _ => c).
Proof. intros w. right. by exists 0%nat. Qed.

Lemma lim_bind {A B} (c : M X A) d (k : A -> M X B) l :
  lim c d -> (forall a, lim (k a) (fun m => l m a)) -> lim (bind c k) (fun m => bind (d m) (l m)).
Proof.
  intros Hc Hk w. destruct (Hc w) as [E | [N HN]]; [left; by apply bind_nofuel | ].
  unfold bind. destruct (c w) as [a w' | e w' | ]; [ | right; exists N; intros m Hm; by rewrite HN | by left].
  destruct (Hk a w') as [E | [N' HN']]; [by left | right]. exists (Nat.max N N'). intros m Hm.
  rewrite HN by lia. apply HN'. lia.
Qed.

Lemma lim_attempt {A} (c : M X A) d : lim c d -> lim (attempt c) (fun m => attempt (d m)).
Proof.
  intros Hc w. unfold attempt. destruct (Hc w) as [E | [N HN]]; [left; by rewrite E | right].
  exists N. intros m Hm. by rewrite HN.
Qed.

Lemma lim_nested {A} (c : M X A) d : lim c d -> lim (nested c) (fun m => nested (d m)).
Proof.
  intros Hc w. unfold nested. destruct (Hc (deeper 1 w)) as [E | [N HN]]; [left; by rewrite E | right].
  exists N. intros m Hm. by rewrite HN.
Qed.

Lemma lim_mapM {A B} (f : nat -> A -> M X B) g k l :
  (forall k x, lim (f k x) (fun m => g m k x)) -> lim (mapM f k l) (fun m => mapM (g m) k l).
Proof.
  intros Hf. revert k. induction l as [ | x l IH]; intros k; simpl; [apply lim_const | ].
  apply lim_bind; [apply Hf | ]. intros y. apply lim_bind; [apply IH | ]. intros ys. apply lim_const.
Qed.

Lemma lim_shift {A} (c : M X A) d : lim c (fun m => d (S m)) -> lim c d.
Proof.
  intros Hc w. destruct (Hc w) as [ | [N HN]]; [by left | right]. exists (S N). intros [ | m] Hm; [lia | ].
  apply HN. lia.
Qed.

Section Step.
Variables f1 f2 : bool.
Variable r : Rec X.
Variable s : nat -> Rec X.
Hypothesis Heval : forall e, lim (r_eval r e) (fun m => r_eval (s m) e).
Hypothesis Hstmts : forall ss, lim (r_stmts r ss) (fun m => r_stmts (s m) ss).
Hypothesis Hloop : forall l, lim (r_loop r l) (fun m => r_loop (s m) l).

(** Both sides agree on pure expressions. *)
Definition agrees (e : Expr) (v : Value) (w : World X) : Prop :=
  (r_eval r e w = Done v w \/ r_eval r e w = NoFuel) /\
  exists N, forall m, (N <= m)%nat -> r_eval (s m) e w = Done v w.
Hypothesis Hint : forall e w z, intOperand (w_env w) e = Some z -> agrees e (VInt z) w.
Hypothesis Hcond : forall e w b, fastCondition (w_env w) e = Some b -> agrees e (VBool b) w.
Hypothesis Hbinary : forall p op a b w v,
  (if IsLogical op || IsComparison op
   then option_map BoolVal (fastCondition (w_env w) (BinaryExpr p op a b None))
   else option_map IntVal (intOperand (w_env w) (BinaryExpr p op a b None))) = Some v ->
  (f1 = false -> evalBinary f1 r p op a b None w = Done v w \/
                 evalBinary f1 r p op a b None w = NoFuel) /\
  (f2 = false -> exists N, forall m, (N <= m)%nat -> evalBinary f2 (s m) p op a b None w = Done v w).

Ltac lim1 :=
  match goal with
  | |- lim ?c (fun _ => ?c) => apply lim_const
  | |- lim (bind _ _) _ => apply lim_bind; [ | intros]
  | |- lim (attempt _) _ => apply lim_attempt
  | |- lim (nested _) _ => apply lim_nested
  | |- lim (r_eval _ _) _ => apply Heval
  | |- lim (r_stmts _ _) _ => apply Hstmts
  | |- lim (r_loop _ _) _ => apply Hloop
  | |- lim (mapM _ _ _) _ => apply lim_mapM; intros
  | |- lim (match ?x with _ => _ end) _ => destruct x
  | |- lim _ _ => solve [eauto with lim]
  end.
Ltac lims := repeat (cbn beta; lim1).

Lemma lim_quick {A} (q : Environment -> option A) (c : M X A) d :
  (forall w a, q (w_env w) = Some a ->
     (f1 = false -> c w = Done a w \/ c w = NoFuel) /\
     (f2 = false -> exists N, forall m, (N <= m)%nat -> d m w = Done a w)) ->
  lim c d -> lim (quick f1 q c) (fun m => quick f2 q (d m)).
Proof.
  intros Hq Hc w. unfold quick. destruct (q (w_env w)) as [a | ] eqn:E.
  - destruct (Hq w a E) as [Hc' Hd'].
    assert (exists N, forall m, (N <= m)%nat -> (match (if f2 then Some a else None) with
      | Some a => Done a w | None => d m w end) = Done a w) as [N Hd].
    { destruct f2; [by exists 0%nat | by apply Hd']. }
    destruct f1; [right; exists N; intros; by apply Hd | ].
    destruct (Hc' eq_refl) as [-> | ->]; [right; exists N; intros; by apply Hd | by left].
  - replace (if f1 then @None A else None) with (@None A) by by destruct f1.
    replace (if f2 then @None A else None) with (@None A) by by destruct f2. apply Hc.
Qed.

Create HintDb lim discriminated.

(** A quick answer against a general path that only post-processes it. *)
Lemma agrees_bind {A} e v (w : World X) (k : Value -> M X A) a :
  agrees e v w -> (forall w', k v w' = Done a w') ->
  (bind (r_eval r e) k w = Done a w \/ bind (r_eval r e) k w = NoFuel) /\
  exists N, forall m, (N <= m)%nat -> bind (r_eval (s m) e) k w = Done a w.
Proof.
  intros [Hr [N HN]] Hk. split.
  - destruct Hr as [E | E]; [left; by rewrite (bind_done _ _ _ _ _ E) | right; by apply bind_nofuel].
  - exists N. intros m Hm. by rewrite (bind_done _ _ _ _ _ (HN m Hm)).
Qed.

Lemma agrees_nested {A} e v (w : World X) (k : Value -> M X A) a :
  agrees e v (deeper 1 w) -> (forall w', k v w' = Done a w') ->
  (bind (nested (r_eval r e)) k w = Done a w \/ bind (nested (r_eval r e)) k w = NoFuel) /\
  exists N, forall m, (N <= m)%nat -> bind (nested (r_eval (s m) e)) k w = Done a w.
Proof.
  intros [Hr [N HN]] Hk. split.
  - destruct Hr as [E | E].
    + left. rewrite (bind_done _ _ w v w); [apply Hk | by apply nested_done].
    + right. apply bind_nofuel. by apply nested_nofuel.
  - exists N. intros m Hm. rewrite (bind_done _ _ w v w); [apply Hk | by apply nested_done, HN].
Qed.

Lemma bind_ret {A} (c : M X A) w : bind c ret w = c w.
Proof. unfold bind, ret. by destruct (c w). Qed.

Lemma lim_evalBool e ctx : lim (evalBool f1 r e ctx) (fun m => evalBool f2 (s m) e ctx).
Proof.
  unfold evalBool. apply lim_quick.
  - intros w b Hb. destruct (agrees_bind e (VBool b) w (fun v => match v with VBool b => ret b
      | _ => rt (posFor e) "%s must be bool, got %s" [AStr ctx; kindArg v] end) b); auto.
  - lims.
Qed.
#[local] Hint Resolve lim_evalBool : lim.

Lemma lim_evalLogical op a b :
  lim (evalLogical f1 r op a b) (fun m => evalLogical f2 (s m) op a b).
Proof.
  unfold evalLogical. apply lim_bind.
  - apply lim_quick; [ | lims]. intros w v Hv. destruct (fastCondition (w_env w) a) as [x | ] eqn:E; [ | done].
    injection Hv as <-. destruct (agrees_nested a (VBool x) w ret (VBool x)) as [Hr [N HN]];
      [by apply Hcond | done | ]. rewrite !bind_ret in Hr. split; [done | ]. intros _.
    exists N. intros m Hm. rewrite <- (bind_ret (nested _)). by apply HN.
  - intros lv. destruct lv; try lims. apply lim_quick; [ | lims].
    intros w v Hv. destruct (fastCondition (w_env w) b) as [x | ] eqn:E; [ | done].
    injection Hv as <-. destruct (agrees_nested b (VBool x) w (fun rv => match rv with
      | VBool rb => ret (BoolVal rb)
      | _ => rt (posFor b) "right operand of `%s` must be bool, got %s" [opArg op; kindArg rv] end)
      (VBool x)); [by apply Hcond | done | ]. auto.
Qed.
#[local] Hint Resolve lim_evalLogical : lim.

Lemma lim_evalBinary p op a b fo :
  lim (evalBinary f1 r p op a b fo) (fun m => evalBinary f2 (s m) p op a b fo).
Proof.
  destruct fo as [fe | ]; [apply Heval | ]. cbn [evalBinary]. apply lim_quick; [ | lims].
  intros w v Hv. destruct (Hbinary _ _ _ _ _ _ Hv) as [Hr Hs]. split.
  - intros E. specialize (Hr E). revert Hr. unfold evalBinary, quick. by rewrite E.
  - intros E. destruct (Hs E) as [N HN]. exists N. intros m Hm. specialize (HN m Hm). revert HN.
    unfold evalBinary, quick. by rewrite E.
Qed.
#[local] Hint Resolve lim_evalBinary : lim.

(** ** Congruence of the other forms *)

Lemma lim_withFrame {A} k (c : M X A) d : lim c d -> lim (withFrame k c) (fun m => withFrame k (d m)).
Proof. intros Hc. unfold withFrame. lims. Qed.

Lemma lim_invokeDeferred dc : lim (invokeDeferred r dc) (fun m => invokeDeferred (s m) dc).
Proof. unfold invokeDeferred. lims. Qed.
#[local] Hint Resolve lim_invokeDeferred : lim.

Lemma lim_deferLoop d failed derr :
  lim (deferLoop r d failed derr) (fun m => deferLoop (s m) d failed derr).
Proof. revert failed derr. induction d; intros; simpl; lims. Qed.
#[local] Hint Resolve lim_deferLoop : lim.

Lemma lim_finishing {A} (c : M X A) d :
  lim c d -> lim (finishing r c) (fun m => finishing (s m) (d m)).
Proof. intros Hc. unfold finishing, finishFrame, runDeferredCalls. lims. Qed.

Ltac lim2 :=
  match goal with
  | |- lim (withFrame _ _) _ => apply lim_withFrame
  | |- lim (finishing _ _) _ => apply lim_finishing
  | _ => lim1
  end.
Ltac limsx := repeat (cbn beta; lim2).

Lemma lim_execBlock b : lim (execBlock r b) (fun m => execBlock (s m) b).
Proof. unfold execBlock. limsx. Qed.
#[local] Hint Resolve lim_execBlock : lim.

Lemma lim_boundBlock b slot name v t c p :
  lim (boundBlock r b slot name v t c p) (fun m => boundBlock (s m) b slot name v t c p).
Proof. unfold boundBlock. limsx. Qed.
#[local] Hint Resolve lim_boundBlock : lim.

Lemma lim_interpParts parts acc : lim (interpParts r parts acc) (fun m => interpParts (s m) parts acc).
Proof. revert acc. induction parts as [ | [lit [e | ]] parts IH]; intros; simpl; lims. Qed.
#[local] Hint Resolve lim_interpParts : lim.

Lemma lim_mapLitLoop kvs seen nh out :
  lim (mapLitLoop r kvs seen nh out) (fun m => mapLitLoop (s m) kvs seen nh out).
Proof.
  revert seen nh out. induction kvs as [ | [ke ve] kvs IH]; intros; cbn [mapLitLoop]; lims.
Qed.
#[local] Hint Resolve lim_mapLitLoop : lim.

Lemma lim_bindParams cf k prms args callee mv snap bc :
  lim (bindParams i r cf k prms args callee mv snap bc)
      (fun m => bindParams i (s m) cf k prms args callee mv snap bc).
Proof.
  revert cf k args. induction prms as [ | prm prms IH]; intros cf k args; simpl; [lims | ].
  destruct args; lims.
Qed.
#[local] Hint Resolve lim_bindParams : lim.

Lemma lim_enterCall {A} cf (c : M X A) d : lim c d -> lim (enterCall cf c) (fun m => enterCall cf (d m)).
Proof. intros Hc. unfold enterCall. lims. Qed.

Lemma lim_callUserMethod md args snap mv callee p :
  lim (callUserMethod host i r md args snap mv callee p)
      (fun m => callUserMethod host i (s m) md args snap mv callee p).
Proof. unfold callUserMethod, runFrame. lims. apply lim_enterCall. lims. Qed.
#[local] Hint Resolve lim_callUserMethod : lim.

Lemma lim_litField decl lit t fmt args :
  lim (litField r decl lit t fmt args) (fun m => litField (s m) decl lit t fmt args).
Proof. unfold litField. lims. Qed.
#[local] Hint Resolve lim_litField : lim.

Lemma lim_evalStructLit p ns enum name bare fs :
  lim (evalStructLit host i r p ns enum name bare fs)
      (fun m => evalStructLit host i (s m) p ns enum name bare fs).
Proof. unfold evalStructLit, evalEnumLit, evalEnumFields, evalEnumField, evalStructFields, evalStructField. lims. Qed.
#[local] Hint Resolve lim_evalStructLit : lim.

Lemma lim_evalExprStep e : lim (evalExprStep host i f1 r e) (fun m => evalExprStep host i f2 (s m) e).
Proof.
  destruct e; cbn [evalExprStep];
    unfold evalListLit, evalMapLit, evalIndex, evalRange, rangeBounds, evalSlice, optEval,
      evalFieldAccess, evalUnary, evalLen, evalCall, evalCallValue, evalQualifiedCall, evalQualifiedConst, hostCall; lims.
Qed.

(** ** Statements *)

(** The checked assignment of the general path, on a value that settles. *)
Lemma assign_general (rr : Rec X) value v depth slot name env' p b (w : World X) :
  r_eval rr value w = Done v w -> 0 <= slot ->
  GetBindingAt (w_env w) depth slot name = Ok b ->
  (exists z, v = VInt z /\ b_DeclType b = TypeInt) \/ (exists z, v = VBool z /\ b_DeclType b = TypeBool) ->
  AssignAt (w_handles w) (w_env w) depth slot name v = Ok env' ->
  execAssign false rr p name value depth slot w =
  Done tt (mkWorld env' (w_chain w) (w_handles w) (w_ext w)).
Proof.
  intros Hv Hs Hb Ht Ha. unfold execAssign. rewrite bind_get. cbn [negb].
  rewrite (bind_done _ _ _ _ _ Hv), bind_get. destruct (Z.leb_spec 0 slot); [ | lia].
  rewrite Hb. unfold liftMsg at 1. rewrite (bind_done _ _ w b w) by done.
  destruct Ht as [(z & -> & Et) | (z & -> & Et)];
    unfold matchesM, stampM; rewrite Et; destruct w as [env ch h x]; cbn in *;
    destruct (rhsFreshLiteral value || ownedCallResult value); cbn in *; by rewrite Ha.
Qed.

Lemma lim_execAssign p name value depth slot :
  lim (execAssign f1 r p name value depth slot) (fun m => execAssign f2 (s m) p name value depth slot).
Proof.
  intros w. destruct (fastAssign (w_env w) value depth slot) as [env' | ] eqn:Ef.
  - destruct (fastAssign_inv (w_handles w) _ _ _ _ name _ Ef) as (Hs & b & v & Hb & Hv & Ha).
    assert (agrees value v w) as [Hr [N HN]].
    { destruct Hv as [(Ei & -> & _) | (x & Ec & -> & _)]; auto. }
    assert ((exists z, v = VInt z /\ b_DeclType b = TypeInt) \/
            (exists z, v = VBool z /\ b_DeclType b = TypeBool)) as Ht.
    { destruct Hv as [(_ & -> & Et) | (x & _ & -> & Et)]; [left | right]; eauto. }
    assert (forall rr f, r_eval rr value w = Done v w -> execAssign f rr p name value depth slot w =
      Done tt (mkWorld env' (w_chain w) (w_handles w) (w_ext w))) as Hgen.
    { intros rr [ ] Hrr; [unfold execAssign; rewrite bind_get, Ef; done | ].
      by eapply assign_general. }
    destruct Hr as [E | E].
    + right. exists N. intros m Hm. rewrite !Hgen; auto.
    + destruct f1.
      * right. exists N. intros m Hm. rewrite (Hgen (s m)) by auto.
        unfold execAssign. by rewrite bind_get, Ef.
      * left. unfold execAssign. rewrite bind_get. by apply bind_nofuel.
  - assert (forall f rr, execAssign f rr p name value depth slot w = execAssign false rr p name value depth slot w)
      as Eq by (intros [ ] rr; [unfold execAssign; rewrite !bind_get, Ef | ]; done).
    rewrite Eq. setoid_rewrite Eq.
    revert w Ef Eq. enough (lim (execAssign false r p name value depth slot)
      (fun m => execAssign false (s m) p name value depth slot)) as HL by (intros; apply HL).
    unfold execAssign. lims.
Qed.
#[local] Hint Resolve lim_execAssign : lim.

Lemma lim_collect e st acc :
  lim (collectLvalueSteps r e st acc) (fun m => collectLvalueSteps (s m) e st acc).
Proof.
  revert e acc. fix IH 1. intros e acc. destruct e; cbn [collectLvalueSteps]; try apply lim_const.
  - apply lim_bind; [apply Heval | intros; apply IH].
  - apply IH.
Qed.
#[local] Hint Resolve lim_collect : lim.

Lemma lim_elseIfs arms els : lim (elseIfs f1 r arms els) (fun m => elseIfs f2 (s m) arms els).
Proof. induction arms as [ | [c b] arms IH]; simpl; lims. Qed.
#[local] Hint Resolve lim_elseIfs : lim.

Lemma lim_afterBody fl (c : M X flow) d : lim c d -> lim (afterBody fl c) (fun m => afterBody fl (d m)).
Proof. intros Hc. unfold afterBody. lims. Qed.

Lemma lim_eachLoop p var body slot t items :
  lim (eachLoop host r p var body slot t items) (fun m => eachLoop host (s m) p var body slot t items).
Proof. induction items; simpl; lims. apply lim_afterBody. done. Qed.
#[local] Hint Resolve lim_eachLoop : lim.

Lemma lim_armValues vs subject : lim (armValues r vs subject) (fun m => armValues (s m) vs subject).
Proof. induction vs; simpl; lims. Qed.
#[local] Hint Resolve lim_armValues : lim.

Lemma lim_matchArms arms subject els :
  lim (matchArms i r arms subject els) (fun m => matchArms i (s m) arms subject els).
Proof.
  induction arms as [ | [p vs body variant bind slot] arms IH]; cbn [matchArms]; unfold runPatternArm; limsx.
Qed.
#[local] Hint Resolve lim_matchArms : lim.

Lemma lim_loopStep l : lim (loopStep host f1 r l) (fun m => loopStep host f2 (s m) l).
Proof. destruct l; cbn [loopStep]; limsx; apply lim_afterBody; lims. Qed.

Lemma lim_execStmt st : lim (execStmt host i f1 r st) (fun m => execStmt host i f2 (s m) st).
Proof.
  destruct st; cbn [execStmt];
    unfold execDefine, execPathAssign, execAppend, mutableRoot, rootBinding, execIf, execMatch,
      execFor, execForEach, rangeBounds, execExit, execThrow, execDefer, execTry; limsx.
Qed.
#[local] Hint Resolve lim_execStmt : lim.

Lemma lim_stmtsStep ss : lim (stmtsStep host i f1 r ss) (fun m => stmtsStep host i f2 (s m) ss).
Proof. induction ss; cbn [stmtsStep]; lims. Qed.

End Step.

(** ** Tying the knot *)

Lemma settles_agrees f1 f2 n e v w :
  (forall f, settles f (height e) e v w) -> agrees (run f1 n) (run f2) e v w.
Proof.
  intros Hs. split; [destruct (Hs f1 n) as [ | [? _]]; auto | ].
  exists (S (height e)). intros m Hm. destruct (Hs f2 m) as [ | [_ ?]]; [done | lia].
Qed.

Definition limRec (r : Rec X) (s : nat -> Rec X) : Prop :=
  (forall e, lim (r_eval r e) (fun m => r_eval (s m) e)) /\
  (forall ss, lim (r_stmts r ss) (fun m => r_stmts (s m) ss)) /\
  (forall l, lim (r_loop r l) (fun m => r_loop (s m) l)).

Lemma lim_run f1 f2 n : limRec (run f1 n) (run f2).
Proof.
  induction n as [ | n (IHe & IHs & IHl)]; [split; [ | split]; intros ? w; by left | ].
  assert (forall e w z, intOperand (w_env w) e = Some z -> agrees (run f1 n) (run f2) e (VInt z) w) as Hint.
  { intros. apply settles_agrees. intros. by apply intOperand_settles. }
  assert (forall e w b, fastCondition (w_env w) e = Some b -> agrees (run f1 n) (run f2) e (VBool b) w) as Hcond.
  { intros. apply settles_agrees. intros. by apply fastCondition_settles. }
  assert (forall p op a b w v,
    (if IsLogical op || IsComparison op
     then option_map BoolVal (fastCondition (w_env w) (BinaryExpr p op a b None))
     else option_map IntVal (intOperand (w_env w) (BinaryExpr p op a b None))) = Some v ->
    (f1 = false -> evalBinary f1 (run f1 n) p op a b None w = Done v w \/
                   evalBinary f1 (run f1 n) p op a b None w = NoFuel) /\
    (f2 = false -> exists N, forall m, (N <= m)%nat ->
                   evalBinary f2 (run f2 m) p op a b None w = Done v w)) as Hbin.
  { intros p op a b w v Hv.
    assert (forall f, settles f (height (BinaryExpr p op a b None)) (BinaryExpr p op a b None) v w) as Hs.
    { intros f. destruct (IsLogical op || IsComparison op);
        [destruct (fastCondition _ _) eqn:E | destruct (intOperand _ _) eqn:E]; try done;
        injection Hv as <-; [by apply fastCondition_settles | by apply intOperand_settles]. }
    split; intros _.
    - destruct (Hs f1 (S n)) as [E | [E _]]; [by left | by right].
    - exists (height (BinaryExpr p op a b None)). intros m Hm.
      destruct (Hs f2 (S m)) as [E | [_ ?]]; [done | lia]. }
  split; [ | split]; intros ?; apply lim_shift.
  - by apply lim_evalExprStep.
  - by apply lim_stmtsStep.
  - by apply lim_loopStep.
Qed.

(** C1: neither the integer fast path nor the amount of fuel is observable.  If the
    evaluation of an expression or of a statement list ends, with a value, a control-flow
    result or an error, with some fuel, then with any sufficiently larger fuel, and with
    the fast path switched on or off, it ends with the same result and the same final
    state: same variables, counters, task states and host state. *)
Theorem fast_path_unobservable (f1 f2 : bool) (n : nat) (e : Expr) (ss : list Stmt) (w : World X) :
  (r_eval (run f1 n) e w <> NoFuel -> exists N, forall m, (N <= m)%nat ->
     r_eval (run f2 m) e w = r_eval (run f1 n) e w) /\
  (r_stmts (run f1 n) ss w <> NoFuel -> exists N, forall m, (N <= m)%nat ->
     r_stmts (run f2 m) ss w = r_stmts (run f1 n) ss w).
Proof.
  destruct (lim_run f1 f2 n) as (He & Hs & _). split; intros Hn.
  - by destruct (He e w) as [ | HN].
  - by destruct (Hs ss w) as [ | HN].
Qed.
End Fast.

(** ** A concrete host *)

(** A host without libraries: every request is an error. *)
Definition bareHost : Host unit :=
  let none {A} : M unit A := raise (EExit 1) in
  {| h_builtin := fun _ _ _ => none; h_nsBuiltin := fun _ _ _ _ => none; h_module := fun _ _ _ _ _ => none;
     h_foreign := fun _ _ _ _ => none; h_spawn := fun _ _ => none; h_stampedConst := fun _ _ => None; h_const := fun _ _ _ => none;
     h_zero := fun _ _ => none; h_zeroField := fun _ _ _ _ _ => none;
     h_spawnReentry := fun _ => false; h_cancelled := fun _ => false |}.

Definition bareInterp (ms : gmap string MethodDef) : Interpreter :=
  mkInterp 0 (mkTables ∅ ∅ ∅ ∅) ms (fun _ => 0%nat) ∅ ∅ ∅ ∅ ∅ ∅ ∅ false 64.

Definition bareWorld (n : nat) : World unit :=
  mkWorld [NewEnvironmentSized [] n] (mkChain 0 0) {| taskStates := ∅; chanStates := ∅ |} tt.

(** [fib], in resolved form: the parameter is slot 0 of the call frame, one level out of
    the body and two levels out of the [if] block. *)
Definition fibMethod : MethodDef :=
  let n depth := VarExpr p0 "n" depth 0 false in
  let op o a b := BinaryExpr p0 o a b None in
  let self k := CallExpr p0 "fib" [op OpSub (n 1) (IntLit p0 k)] None 0 [] in
  {| method_pos := p0; method_Name := "fib";
     method_Params := [{| param_Name := "n"; param_Type := TypeInt; param_pos := p0; param_Borrow := false |}];
     method_Body :=
       mkBlock p0
         [IfStmt p0 (op OpLt (n 1) (IntLit p0 2)) (mkBlock p0 [ReturnStmt p0 (Some (n 2))] 0) [] None;
          ReturnStmt p0 (Some (op OpAdd (self 1) (self 2)))] 0;
     method_Exported := false; method_GlobalSafe := false; method_ReentryFree := false;
     method_ReturnsOwned := false |}.

Definition fibCall (k : Z) : list Stmt :=
  [ReturnStmt p0 (Some (CallExpr p0 "fib" [IntLit p0 k] None 0 []))].

Definition fibRun (fast : bool) (n : nat) : Rec unit :=
  @Eval.run identityNative plainText limits_std unit bareHost (bareInterp {["fib" := fibMethod]}) fast n.

Example fib_ten : r_stmts (fibRun true 60) (fibCall 10) (bareWorld 0) = Done (FReturn (VInt 55)) (bareWorld 0).
Proof. vm_compute. reflexivity. Qed.

Lemma fast_path_unobservable_witness :
  exists N, forall m, (N <= m)%nat ->
    r_stmts (fibRun false m) (fibCall 10) (bareWorld 0) = Done (FReturn (VInt 55)) (bareWorld 0).
Proof.
  destruct (@fast_path_unobservable identityNative plainText limits_std unit bareHost
    (bareInterp {["fib" := fibMethod]}) true false 60 (NullLit p0) (fibCall 10) (bareWorld 0)) as [_ Hs].
  destruct Hs as [N HN]; [by vm_compute | ].
  exists N. intros m Hm. unfold fibRun. rewrite (HN m Hm). vm_compute. reflexivity.
Defined.
