(* ===== verification/Load.v ===== *)
(** * Named types at load (internal/interpreter/interpreter.go, module.go)

    What [Run] does with the structs and enums of a program before its body runs: they are
    hoisted into the tables, structs and enums without a finite zero value are rejected, the
    declared types are resolved to the identity of their module; the checks on a module's
    top level and exports; and the zero values that a definition without an initialiser
    gets.  A map iterated in sorted order is visited in the order of [sortedKeys]. *)

From Stdlib Require Import Ascii.
From S2P Require Import Prelude GoInt GoSort Types Value Ast Ops Display Defs Store Interp.
Open Scope string_scope.
Open Scope list_scope.
Open Scope Z_scope.
Open Scope go_scope.

(** ** Libraries ([processImports]) *)

(** What the installed libraries registered. *)
Record Registry := mkRegistry {
  knownLibs : gset string;
  libsWithGlobals : gset string;
  globalFnsByLib : gmap string (gset string);
  globalConstsByLib : gmap string (gmap string Value)
}.

Definition globalFns (r : Registry) (lib : string) : gset string := default ∅ (globalFnsByLib r !! lib).
Definition globalConsts (r : Registry) (lib : string) : gmap string Value := default ∅ (globalConstsByLib r !! lib).

(** [sort.Strings] of the keys of a map. *)
Definition stringLess (a b : string) : bool := match String.compare a b with Lt => true | _ => false end.
Definition sortedKeys {A} (m : gmap string A) : list string := sliceStable stringLess (map fst (map_to_list m)).

Definition availableLibsString (r : Registry) : string :=
  match elements (knownLibs r) with
  | [] => "(none)"
  | names => String.concat ", " (sliceStable stringLess names)
  end.

(** The collision found depends on the order of Go's maps; here the first in the order of the
    finite maps. *)
Definition findGlobalCollision (r : Registry) (i : Interpreter) (lib : string) : option (string * string) :=
  let owner name := list_find (fun other => other <> lib /\ (is_Some (globalConsts r other !! name) \/ name ∈ globalFns r other)) (elements (i_imported i)) in
  head (omap (fun name => match owner name with Some (_, other) => Some (other, name) | None => None end)
    (map fst (map_to_list (globalConsts r lib)) ++ elements (globalFns r lib))).

(** An activated library: its globals enter the resolution maps. *)
Definition activate (r : Registry) (i : Interpreter) (lib : string) : Interpreter :=
  mkInterp (i_self i) (i_tables i) (i_methods i) (i_methodAddr i)
    (set_to_map (fun name => (name, lib)) (globalFns r lib) ∪ i_builtins i)
    (((fun v => (lib, v)) <$> globalConsts r lib) ∪ i_libConstants i)
    ({[lib]} ∪ i_imported i) (i_nsPrefixes i) (i_nsAliasedAway i) (i_knownNamespaces i) (i_nsBuiltins i) (i_entryGlobalsImmutable i) (i_cellBytes i).

Definition setPrefixes (i : Interpreter) (prefixes aliased : gmap string string) : Interpreter :=
  mkInterp (i_self i) (i_tables i) (i_methods i) (i_methodAddr i) (i_builtins i) (i_libConstants i) (i_imported i)
    prefixes aliased (i_knownNamespaces i) (i_nsBuiltins i) (i_entryGlobalsImmutable i) (i_cellBytes i).

(** The namespace of an activated library. *)
Definition prefixOf (imp : ImportStmt) : string := if bool_decide (import_AsName imp = "") then import_Name imp else import_AsName imp.

Definition bindNamespace (i : Interpreter) (imp : ImportStmt) : Interpreter * option evalError :=
  if bool_decide (import_Name imp ∉ i_knownNamespaces i) then (i, None)
  else
    let prefix := prefixOf imp in
    let aliased := if bool_decide (import_AsName imp = "") then i_nsAliasedAway i
                   else <[import_Name imp := import_AsName imp]> (i_nsAliasedAway i) in
    let i := setPrefixes i (i_nsPrefixes i) aliased in
    let bound := (setPrefixes i (<[prefix := import_Name imp]> (i_nsPrefixes i)) aliased, None) in
    match i_nsPrefixes i !! prefix with
    | Some existing =>
        if bool_decide (existing <> import_Name imp) then
          (i, Some (ERuntime (mkRuntimeError (Sprintf "namespace prefix %q is already bound to library %q" [AStr prefix; AStr existing]) (import_pos imp) "")))
        else bound
    | None => bound
    end.

(** The two rules on libraries that publish globals. *)
Definition globalsError (r : Registry) (i : Interpreter) (imp : ImportStmt) : option evalError :=
  if bool_decide (import_Name imp ∉ libsWithGlobals r) then None
  else if bool_decide (import_AsName imp <> "") && bool_decide (import_Name imp ∉ i_knownNamespaces i) then
    Some (ERuntime (mkRuntimeError (Sprintf "library %q has no namespaced names; `as %s` aliasing is meaningless here"
      [AStr (import_Name imp); AStr (import_AsName imp)]) (import_pos imp) ""))
  else
    match findGlobalCollision r i (import_Name imp) with
    | Some (other, name) =>
        Some (ERuntime (mkRuntimeError (Sprintf "library %q collides with already-active library %q on global %q (only one library may publish a given global name)"
          [AStr (import_Name imp); AStr other; AStr name]) (import_pos imp) ""))
    | None => None
    end.

(** The interpreter afterwards, and the error: what was bound before the error stays. *)
Fixpoint importLoop (r : Registry) (repl : bool) (already seen : gset string) (i : Interpreter) (imps : list ImportStmt)
    : Interpreter * option evalError :=
  match imps with
  | [] => (i, None)
  | imp :: imps =>
      let name := import_Name imp in
      if bool_decide (name ∉ knownLibs r) then
        (i, Some (ERuntime (mkRuntimeError (Sprintf "unknown library %q (available: %s)" [AStr name; AStr (availableLibsString r)]) (import_pos imp) "")))
      else if bool_decide (name ∈ libsWithGlobals r) && (bool_decide (name ∈ seen) || (bool_decide (name ∈ already) && negb repl)) then
        (i, Some (ERuntime (mkRuntimeError (Sprintf "library %q already in scope (it exposes global names; only one `use %s [as ALIAS];` is allowed)"
          [AStr name; AStr name]) (import_pos imp) "")))
      else
        let seen := {[name]} ∪ seen in
        if repl && bool_decide (name ∈ already) then importLoop r repl already seen i imps
        else
          match globalsError r i imp with
          | Some e => (i, Some e)
          | None =>
              match bindNamespace (activate r i name) imp with
              | (i, Some e) => (i, Some e)
              | (i, None) => importLoop r repl already seen i imps
              end
          end
  end.

Definition processImports (r : Registry) (repl : bool) (i : Interpreter) (prog : Program) : Interpreter * option evalError :=
  importLoop r repl (i_imported i) ∅ i (prog_Imports prog).

(** ** Methods *)

Definition checkMethodNoShadow (i : Interpreter) (m : MethodDef) : option evalError :=
  let prefix :=
    match i_nsPrefixes i !! method_Name m with
    | Some _ => Some (ERuntime (mkRuntimeError (Sprintf "function %q shadows imported namespace %q" [AStr (method_Name m); AStr (method_Name m)]) (method_pos m) ""))
    | None => None
    end in
  match i_builtins i !! method_Name m with
  | Some lib =>
      if bool_decide (lib ∈ i_imported i) then
        Some (ERuntime (mkRuntimeError (Sprintf "function %q shadows a builtin from `%s`; rename it or remove `use %s;`"
          [AStr (method_Name m); AStr lib; AStr lib]) (method_pos m) ""))
      else prefix
  | None => prefix
  end.

Definition setMethods (i : Interpreter) (ms : gmap string MethodDef) : Interpreter :=
  mkInterp (i_self i) (i_tables i) ms (i_methodAddr i) (i_builtins i) (i_libConstants i) (i_imported i) (i_nsPrefixes i) (i_nsAliasedAway i)
    (i_knownNamespaces i) (i_nsBuiltins i) (i_entryGlobalsImmutable i) (i_cellBytes i).

Fixpoint hoistMethods (i : Interpreter) (ms : list MethodDef) : res Interpreter :=
  match ms with
  | [] => Ok i
  | m :: ms =>
      match i_methods i !! method_Name m with
      | Some _ => rtErr (method_pos m) "function %q is defined more than once" [AStr (method_Name m)]
      | None =>
          match checkMethodNoShadow i m with
          | Some e => Err e
          | None => hoistMethods (setMethods i (<[method_Name m := m]> (i_methods i))) ms
          end
      end
  end.

(** ** Hoisting ([Run]) *)

Definition PrimitiveField (name : string) (t : Typ) : StructFieldDecl := Build_StructFieldDecl name t (Pos "" 0 0).

Definition canonicalErrorStructDef : StructDef :=
  Build_StructDef (Pos "" 0 0) canonicalErrorStructName
    [PrimitiveField "kind" TypeString; PrimitiveField "message" TypeString; PrimitiveField "file" TypeString;
     PrimitiveField "line" TypeInt; PrimitiveField "col" TypeInt] false.

Definition setStructs (i : Tables) (s : gmap string StructDef) : Tables := mkTables s (enums i) (NSStructs i) (moduleAliases i).
Definition setEnums (i : Tables) (e : gmap string EnumDef) : Tables := mkTables (structs i) e (NSStructs i) (moduleAliases i).

Definition hoistError (i : Tables) : Tables :=
  match structs i !! canonicalErrorStructName with
  | Some _ => i
  | None => setStructs i (<[canonicalErrorStructName := canonicalErrorStructDef]> (structs i))
  end.

Fixpoint hoistStructs (i : Tables) (ss : list StructDef) : res Tables :=
  match ss with
  | [] => Ok i
  | s :: ss =>
      match structs i !! struct_Name s with
      | Some _ => rtErr (struct_pos s) "struct %q is defined more than once" [AStr (struct_Name s)]
      | None => hoistStructs (setStructs i (<[struct_Name s := s]> (structs i))) ss
      end
  end.

Fixpoint hoistEnums (i : Tables) (es : list EnumDef) : res Tables :=
  match es with
  | [] => Ok i
  | e :: es =>
      match structs i !! enum_Name e, enums i !! enum_Name e with
      | Some _, _ => rtErr (enum_pos e) "enum %q collides with a struct of the same name" [AStr (enum_Name e)]
      | None, Some _ => rtErr (enum_pos e) "enum %q is defined more than once" [AStr (enum_Name e)]
      | None, None => hoistEnums (setEnums i (<[enum_Name e := e]> (enums i))) es
      end
  end.

(** ** Depth-first search

    The coloured walk the two cycle checks share.  An edge carries the field it comes from.
    [None] marks fuel that ran out. *)

Inductive Color := Gray | Black.

Section Visit.
Context {N F E : Type} `{Countable N}.
Variable edges : N -> list (F * N).
Variable cycle : N -> F -> N -> E.

(** The loop over the fields of [n]; a node without a colour is white. *)
Fixpoint visitDeps (visit : gmap N Color -> N -> option (result E (gmap N Color))) (n : N) (es : list (F * N))
    (color : gmap N Color) : option (result E (gmap N Color)) :=
  match es with
  | [] => Some (Ok color)
  | (f, d) :: es =>
      match color !! d with
      | Some Gray => Some (Err (cycle n f d))
      | Some Black => visitDeps visit n es color
      | None =>
          match visit color d with
          | Some (Ok color) => visitDeps visit n es color
          | r => r
          end
      end
  end.

Fixpoint visit (fuel : nat) (color : gmap N Color) (n : N) : option (result E (gmap N Color)) :=
  match fuel with
  | O => None
  | S fuel =>
      match visitDeps (visit fuel) n (edges n) (<[n := Gray]> color) with
      | Some (Ok color) => Some (Ok (<[n := Black]> color))
      | r => r
      end
  end.

(** The loop over the roots. *)
Fixpoint visitAll (fuel : nat) (roots : list N) (color : gmap N Color) : option (result E (gmap N Color)) :=
  match roots with
  | [] => Some (Ok color)
  | n :: roots =>
      match color !! n with
      | Some _ => visitAll fuel roots color
      | None =>
          match visit fuel color n with
          | Some (Ok color) => visitAll fuel roots color
          | r => r
          end
      end
  end.
End Visit.

(** ** Structs and enums without a finite zero value *)

(** The name of a type declared in the same interpreter. *)
Definition localName (t : Typ) : option string :=
  match t with
  | TypeStruct ns mp name => if bool_decide (ns = "") && bool_decide (mp = "") then Some name else None
  | _ => None
  end.

(** The by-value edges of a struct: fields of another local struct. *)
Definition structEdges (i : Tables) (name : string) : list (StructFieldDecl * string) :=
  match structs i !! name with
  | None => []
  | Some def =>
      omap (fun f =>
        match localName (field_Type f) with
        | Some n => if bool_decide (is_Some (structs i !! n)) then Some (f, n) else None
        | None => None
        end) (struct_Fields def)
  end.

Definition structCycle (name : string) (f : StructFieldDecl) (t : string) : evalError :=
  ERuntime (mkRuntimeError
    (Sprintf "struct %q cannot contain itself by value (field %q is %q); a by-value struct cycle has no finite zero value - use `list of %s` (or a `map`) for recursive data"
       [AStr name; AStr (field_Name f); AStr t; AStr t]) (field_pos f) "").

Definition checkStructCycles (i : Tables) : option (res (gmap string Color)) :=
  visitAll (structEdges i) structCycle (S (size (structs i))) (sortedKeys (structs i)) ∅.

(** A local type, by its kind and name (the key ["E:" + name] or ["S:" + name]). *)
Definition Key : Type := bool * string.
Definition keyE (name : string) : Key := (true, name).
Definition keyS (name : string) : Key := (false, name).

Definition localNamedDep (i : Tables) (t : Typ) : option Key :=
  match localName t with
  | None => None
  | Some n =>
      if bool_decide (is_Some (enums i !! n)) then Some (keyE n)
      else if bool_decide (is_Some (structs i !! n)) then Some (keyS n) else None
  end.

(** The fields a zero value needs: those of the first variant, or of the struct. *)
Definition zeroFields (i : Tables) (k : Key) : list StructFieldDecl :=
  if fst k then
    match enums i !! snd k with
    | Some ed => match enum_Variants ed with v0 :: _ => variant_Fields v0 | [] => [] end
    | None => []
    end
  else match structs i !! snd k with Some sd => struct_Fields sd | None => [] end.

Definition zeroEdges (i : Tables) (k : Key) : list (unit * Key) :=
  omap (fun f => match localNamedDep i (field_Type f) with Some d => Some (tt, d) | None => None end) (zeroFields i k).

Definition enumCycle (i : Tables) (rootEnum : string) (_ : Key) (_ : unit) (_ : Key) : evalError :=
  ERuntime (mkRuntimeError
    (Sprintf "enum %q has no finite zero value: its first variant recurses into itself by value; put a payload-less (or non-recursive) variant first, or recurse through a `list` / `map` field"
       [AStr rootEnum])
    (match enums i !! rootEnum with Some ed => enum_pos ed | None => Pos "" 0 0 end) "").

(** The switch on the colour at the entry of the inner [visit] is made by its caller. *)
Fixpoint checkEnums (i : Tables) (names : list string) (color : gmap Key Color) : option (res (gmap Key Color)) :=
  match names with
  | [] => Some (Ok color)
  | n :: names =>
      match color !! keyE n with
      | Some _ => checkEnums i names color
      | None =>
          match visit (zeroEdges i) (enumCycle i n) (S (size (structs i) + size (enums i))) color (keyE n) with
          | Some (Ok color) => checkEnums i names color
          | r => r
          end
      end
  end.

Definition checkEnumZeroCycles (i : Tables) : option (res (gmap Key Color)) := checkEnums i (sortedKeys (enums i)) ∅.

(** The types of a program: hoisting and both checks. *)
Definition hoistTypes (i : Tables) (prog : Program) : option (res Tables) :=
  match (let? i := hoistStructs (hoistError i) (prog_Structs prog) in hoistEnums i (prog_Enums prog)) with
  | Err e => Some (Err e)
  | Ok i =>
      match checkStructCycles i with
      | Some (Ok _) =>
          match checkEnumZeroCycles i with
          | Some (Ok _) => Some (Ok i)
          | Some (Err e) => Some (Err e)
          | None => None
          end
      | Some (Err e) => Some (Err e)
      | None => None
      end
  end.

Definition setTables (i : Interpreter) (t : Tables) : Interpreter :=
  mkInterp (i_self i) t (i_methods i) (i_methodAddr i) (i_builtins i) (i_libConstants i) (i_imported i) (i_nsPrefixes i) (i_nsAliasedAway i)
    (i_knownNamespaces i) (i_nsBuiltins i) (i_entryGlobalsImmutable i) (i_cellBytes i).

(** [Run] on a resolved program up to its module imports. *)
Definition runToImports (r : Registry) (i : Interpreter) (prog : Program) : option (res Interpreter) :=
  match processImports r false i prog with
  | (_, Some e) => Some (Err e)
  | (i, None) =>
      match hoistTypes (i_tables i) prog with
      | Some (Ok t) => Some (hoistMethods (setTables i t) (prog_Methods prog))
      | Some (Err e) => Some (Err e)
      | None => None
      end
  end.

(** ** Declared types *)

(** [stampModuleStructType]: the type afterwards, and the error. *)
Definition stampModuleStructType (t : Typ) (ns name : string) (m : loadedModule) (p : position) : Typ * option evalError :=
  if negb (isOwnStruct m name) then (t, Some (ERuntime (mkRuntimeError (Sprintf "module %q has no struct %q" [AStr ns; AStr name]) p "")))
  else if bool_decide (name ∉ mod_exports m) then
    (t, Some (ERuntime (mkRuntimeError
       (Sprintf "%s.%s: struct %q is not exported from module %q" [AStr ns; AStr name; AStr name; AStr ns]) p "")))
  else (TypeStruct (mod_ns m) (mod_path m) name, None).

(** The module a declared type is looked up in: by alias, or by the stem of a module that owns
    the name. *)
Definition declModule (i : Tables) (ns name : string) : option loadedModule :=
  match moduleAliases i !! ns with
  | Some m => Some m
  | None => m ← moduleByNS i ns; if isOwnStruct m name then Some m else None
  end.

(** The rewritten type and the error; what was stamped before the error stays. *)
Fixpoint resolveDeclaredStructNS (i : Interpreter) (p : position) (t : Typ) : Typ * option evalError :=
  match t with
  | TypeStruct ns mp name =>
      let fail fmt args := (t, Some (ERuntime (mkRuntimeError (Sprintf fmt args) p ""))) in
      match declModule (i_tables i) ns name with
      | Some m => stampModuleStructType t ns name m p
      | None =>
          if bool_decide (ns <> "") then
            match resolveNamespacePrefix i ns with
            | Err msg => (t, Some (ERuntime (mkRuntimeError msg p "")))
            | Ok canonical =>
                match NSStructs (i_tables i) !! (canonical, name) with
                | None => fail "unknown struct type %s.%s" [AStr ns; AStr name]
                | Some _ => (TypeStruct canonical mp name, None)
                end
            end
          else if bool_decide (structs (i_tables i) !! name = None) && bool_decide (enums (i_tables i) !! name = None)
               then fail "unknown struct type %q" [AStr name]
               else (t, None)
      end
  | TypeList (Some e) => let r := resolveDeclaredStructNS i p e in (TypeList (Some (fst r)), snd r)
  | TypeTask (Some e) => let r := resolveDeclaredStructNS i p e in (TypeTask (Some (fst r)), snd r)
  | TypeChannel (Some e) => let r := resolveDeclaredStructNS i p e in (TypeChannel (Some (fst r)), snd r)
  | TypeMap (Some (k, v)) =>
      let rk := resolveDeclaredStructNS i p k in
      match snd rk with
      | Some e => (TypeMap (Some (fst rk, v)), Some e)
      | None => let rv := resolveDeclaredStructNS i p v in (TypeMap (Some (fst rk, fst rv)), snd rv)
      end
  | t => (t, None)
  end.

(** The fields of the structs and enums, stamped at load; errors are left to the field checks. *)
Definition stampField (i : Interpreter) (p : position) (f : StructFieldDecl) : StructFieldDecl :=
  Build_StructFieldDecl (field_Name f) (fst (resolveDeclaredStructNS i p (field_Type f))) (field_pos f).
Definition stampStruct (i : Interpreter) (s : StructDef) : StructDef :=
  Build_StructDef (struct_pos s) (struct_Name s) (map (stampField i (struct_pos s)) (struct_Fields s)) (struct_Exported s).
Definition stampVariant (i : Interpreter) (p : position) (v : EnumVariant) : EnumVariant :=
  Build_EnumVariant (variant_Name v) (map (stampField i p) (variant_Fields v)) (variant_pos v).
Definition stampEnum (i : Interpreter) (e : EnumDef) : EnumDef :=
  Build_EnumDef (enum_pos e) (enum_Name e) (map (stampVariant i (enum_pos e)) (enum_Variants e)) (enum_Exported e).
Definition stampMethod (i : Interpreter) (m : MethodDef) : list Param :=
  map (fun q => Build_Param (param_Name q) (fst (resolveDeclaredStructNS i (method_pos m) (param_Type q))) (param_pos q) (param_Borrow q))
    (method_Params m).

(** ** Zero values *)

Section Zero.
(** The interpreter a module runs in, by its path; the opaque types and their zeros. *)
Variable interpOf : string -> Interpreter.
Variable isObjectType : string -> string -> bool.
Variable zeroObject : string -> string -> Value.
Variable p : position.

Abbreviation zres A := (option (res A)) (only parsing).
Abbreviation zrec := (Interpreter -> bool -> string -> string -> string -> zres Value) (only parsing).

Definition isEnumType (i : Interpreter) (ns name modPath : string) : bool :=
  bool_decide (is_Some (lookupEnumDef (i_tables i) ns name modPath)).

(** [zeroPayload], with the zero of a named type [rec] (the flag says enum). *)
Fixpoint zeroPayload (rec : zrec) (i : Interpreter) (fs : list StructFieldDecl) : zres (list (string * Value)) :=
  match fs with
  | [] => Some (Ok [])
  | f :: fs =>
      let fv :=
        match field_Type f with
        | TypeStruct ns mp name =>
            if isEnumType i ns name mp then rec i true ns name mp
            else
              let subNS := if bool_decide (ns <> "")
                           then match resolveNamespacePrefix i ns with Ok c => c | Err _ => ns end else ns in
              rec i false subNS name mp
        | t => Some (Ok (stampValue (ZeroFor t) t))
        end in
      match fv with
      | Some (Ok v) =>
          match zeroPayload rec i fs with
          | Some (Ok vs) => Some (Ok ((field_Name f, v) :: vs))
          | r => r
          end
      | Some (Err e) => Some (Err e)
      | None => None
      end
  end.

Definition zmap {A B} (f : A -> B) (r : zres A) : zres B :=
  match r with Some (Ok a) => Some (Ok (f a)) | Some (Err e) => Some (Err e) | None => None end.

(** [retagStructs(v, "", mod.ns, "", mod.path, mod.isOwnStruct)]. *)
Definition toImporter (m : loadedModule) : Value -> Value := retagStructs "" (mod_ns m) "" (mod_path m) (isOwnStruct m).

(** [moduleByPath], or [moduleByNS]. *)
Definition moduleOf (i : Interpreter) (ns modPath : string) : option loadedModule :=
  match moduleByPath (i_tables i) modPath with Some m => Some m | None => moduleByNS (i_tables i) ns end.

Definition zeroStructFor (rec : zrec) (i : Interpreter) (ns name modPath : string) : zres Value :=
  let plain :=
    match lookupStructDef (i_tables i) ns name modPath with
    | None =>
        if bool_decide (ns <> "") then Some (rtErr p "unknown struct %s.%s" [AStr ns; AStr name])
        else Some (rtErr p "unknown struct %q" [AStr name])
    | Some def =>
        zmap (fun fields => if bool_decide (ns <> "") then NamespacedStructVal ns name fields else StructVal name fields)
          (zeroPayload rec i (struct_Fields def))
    end in
  if bool_decide (ns <> "") && isObjectType ns name then Some (Ok (zeroObject ns name))
  else if bool_decide (ns <> "") && bool_decide (NSStructs (i_tables i) !! (ns, name) = None) then
    match moduleOf i ns modPath with
    | Some m => if isOwnStruct m name then zmap (toImporter m) (rec (interpOf (mod_path m)) false "" name "") else plain
    | None => plain
    end
  else plain.

Definition zeroEnumFor (rec : zrec) (i : Interpreter) (ns name modPath : string) : zres Value :=
  let plain :=
    match lookupEnumDef (i_tables i) ns name modPath with
    | None =>
        if bool_decide (ns <> "") then Some (rtErr p "unknown enum %s.%s" [AStr ns; AStr name])
        else Some (rtErr p "unknown enum %q" [AStr name])
    | Some def =>
        match enum_Variants def with
        | v0 :: _ => zmap (EnumVal ns modPath name (variant_Name v0)) (zeroPayload rec i (variant_Fields v0))
        | [] => Some (rtErr p "unknown enum %q" [AStr name])
        end
    end in
  if bool_decide (ns <> "") || bool_decide (modPath <> "") then
    match moduleOf i ns modPath with
    | Some m =>
        if bool_decide (is_Some (enums (i_tables (interpOf (mod_path m))) !! name))
        then zmap (toImporter m) (rec (interpOf (mod_path m)) true "" name "") else plain
    | None => plain
    end
  else plain.

(** The two functions call each other through the payloads. *)
Fixpoint zeroFor (fuel : nat) (i : Interpreter) (isEnum : bool) (ns name modPath : string) : zres Value :=
  match fuel with
  | O => None
  | S fuel => if isEnum then zeroEnumFor (zeroFor fuel) i ns name modPath else zeroStructFor (zeroFor fuel) i ns name modPath
  end.
End Zero.
