(* ===== verification/Dispatch.v ===== *)
(** * Calls into an interpreter from outside (interpreter.go, module.go)

    A program is several interpreters: the entry program and one per module, each with its
    own methods and global frame, sharing one call chain.  A module call, a [func] value
    of another interpreter and a library builtin that calls back ([BuiltinCtx.Invoke],
    [BuiltinCtx.CallByName], [CallHostWithDepth]) all enter through
    [callMethodWithDepthRoot].  A builtin is a [script]: it computes on the library's own state
    and the task and channel states, calls back, and ends with a value or an error; it has no
    other way to the frames, as [BuiltinCtx] keeps them unexported.  [hostOf] is the host that
    these operations make, and [sysRun] the evaluator of every interpreter on top of it.

    The locks around a dispatch into the entry program and the goroutine of a spawn are left
    out: the model is one call chain. *)

From S2P Require Import Prelude GoInt Float64 Utf8 Limits Types Value Ast Ops Display Defs.
From S2P Require Import Store Environment IntFast Interp Eval Load.
Open Scope string_scope.
Open Scope list_scope.
Open Scope Z_scope.
Open Scope eval_scope.

(** ** Library builtins *)

(** [S_invoke], [S_callByName], [S_callHost]: a call back, and how the builtin goes on with its
    result or error. *)
Inductive script (Y : Type) :=
  | S_end (r : res Value)
  | S_read (k : Y -> Handles -> script Y)
  | S_write (y : Y) (h : Handles) (k : script Y)
  | S_invoke (fn : Value) (args : list Value) (k : res Value -> script Y)
  | S_callByName (name : string) (args : list Value) (k : res Value -> script Y)
  | S_callHost (name : string) (args : list Value) (k : res Value -> script Y).
Arguments S_end {Y}. Arguments S_read {Y}. Arguments S_write {Y}. Arguments S_invoke {Y}.
Arguments S_callByName {Y}. Arguments S_callHost {Y}.

(** What the libraries of a program provide, on their state [Y]. *)
Record Libraries (Y : Type) := mkLibraries {
  lib_builtin : string -> list Value -> position -> script Y;
  lib_nsBuiltin : string -> string -> list Value -> position -> script Y;
  (** The task of a spawn body and the new states; the body runs on another goroutine. *)
  lib_spawn : list Stmt -> Environment -> Y -> Handles -> Value * Y * Handles;
  lib_isObjectType : string -> string -> bool;
  lib_zeroObject : string -> string -> Value;
  lib_spawnReentry : Y -> bool;
  lib_cancelled : Y -> bool
}.
Arguments lib_builtin {Y}. Arguments lib_nsBuiltin {Y}. Arguments lib_spawn {Y}. Arguments lib_isObjectType {Y}.
Arguments lib_zeroObject {Y}. Arguments lib_spawnReentry {Y}. Arguments lib_cancelled {Y}.

(** The interpreters of a program, by number: their tables, the stem and the path of their
    module (empty for the entry program), the number of a module's interpreter, the entry
    program's, the constants of the library namespaces and those stamped on references. *)
Record System := mkSystem {
  sys_interp : nat -> Interpreter;
  sys_ns : nat -> string;
  sys_path : nat -> string;
  sys_byPath : string -> nat;
  sys_entry : nat;
  sys_NSConstants : gmap (string * string) Value;
  sys_stamped : nat -> string -> string -> option Value
}.

(** The global frames of the interpreters that are not running, whether the running chain's
    outermost frame is a spawn's snapshot and not its interpreter's global, and the state of
    the libraries. *)
Record Ext (Y : Type) := mkExt {
  x_globals : gmap nat Frame;
  x_detached : bool;
  x_lib : Y
}.
Arguments mkExt {Y}. Arguments x_globals {Y}. Arguments x_detached {Y}. Arguments x_lib {Y}.

Section Dispatch.
Context `{NativeObject, GoText, Limits}.
Context {Y : Type}.
Abbreviation X := (Ext Y).
Variable sys : System.
Variable libs : Libraries Y.

(** ** One call *)

Section Call.
Variable host : Host X.
Variable i : Interpreter.
Variable rec : Rec X.

(** The parameters of a call with values. *)
Fixpoint bindValues (cf : Frame) (idx : nat) (prms : list Param) (args : list Value) (callee : string)
    (moveArg : nat) (borrowCtx : bool) : M X Frame :=
  match prms, args with
  | prm :: prms, v :: args =>
      do ok <- matchesM v (param_Type prm);
      if negb ok then
        release cf;;
        rt (param_pos prm) "argument %d to %q must be %s, got %s"
          [AInt (Z.of_nat (S idx)); AStr callee; typArg (param_Type prm); kindArg v]
      else
        do cf <- bindParam i cf idx prm v (bool_decide (moveArg = S idx)) borrowCtx;
        bindValues cf (S idx) prms args callee moveArg borrowCtx
  | _, _ => ret cf
  end.

(** The global frame is the outermost one of the state. *)
Definition callMethodWithDepthRoot (m : MethodDef) (moveArg : nat) (args : list Value) : M X Value :=
  if negb (bool_decide (length args = length (method_Params m))) then
    rt (method_pos m) "function %q takes %d parameter(s), got %d"
      [AStr (method_Name m); AInt (Z.of_nat (length (method_Params m))); AInt (Z.of_nat (length args))]
  else
    do w <- get;
    let borrowCtx := methodBorrowCtx host i m (w_ext w) in
    let cf := borrowBlockEnv newPooled
                (match effectiveGlobal (w_env w) with Some g => [g] | None => [] end)
                (length (method_Params m)) in
    let cf := mkFrame (backing cf) (nslots cf) (vars cf) (deferred cf) (frameBytes cf) borrowCtx in
    do cf <- bindValues cf 0 (method_Params m) args (method_Name m) moveArg borrowCtx;
    runFrame rec cf (method_Body m) (Pos "" 0 0).
End Call.

(** ** Between interpreters *)

(** The global frames with the running one among them. *)
Definition parked (self : nat) (w : World X) : gmap nat Frame :=
  match effectiveGlobal (w_env w) with
  | Some g => if x_detached (w_ext w) then x_globals (w_ext w) else <[self := g]> (x_globals (w_ext w))
  | None => x_globals (w_ext w)
  end.

(** Run [c] on the global frame of the interpreter [home], on the same call chain; come back
    to the frames of [self], its global as the calls left it. *)
Definition crossTo {A} (self home : nat) (c : M X A) : M X A :=
  do w <- get;
  let g := parked self w in
  modify (fun w => mkWorld [default (NewEnvironment []) (g !! home)] (w_chain w) (w_handles w)
                     (mkExt g false (x_lib (w_ext w))));;
  do r <- attempt c;
  modify (fun w' =>
    let g' := match effectiveGlobal (w_env w') with
              | Some f => <[home := f]> (x_globals (w_ext w'))
              | None => x_globals (w_ext w')
              end in
    mkWorld
      (match effectiveGlobal (w_env w) with
       | Some f => if x_detached (w_ext w) then w_env w else localFrames (w_env w) ++ [default f (g' !! self)]
       | None => w_env w
       end)
      (w_chain w') (w_handles w') (mkExt g' (x_detached (w_ext w)) (x_lib (w_ext w'))));;
  lift r.

Definition isOwnStructName (j : nat) (name : string) : bool :=
  let t := i_tables (sys_interp sys j) in
  negb (bool_decide (name = canonicalErrorStructName)) &&
  (bool_decide (is_Some (structs t !! name)) || bool_decide (is_Some (enums t !! name))).

(** [crossRetag]: the types of the interpreter a value enters become bare, those of the one it
    leaves take its identity. *)
Definition crossRetag (v : Value) (from to : nat) : Value :=
  let v := retagStructs (sys_ns sys to) "" (sys_path sys to) "" (isOwnStructName to) v in
  retagStructs "" (sys_ns sys from) "" (sys_path sys from) (isOwnStructName from) v.

Section Host.
Variable fuel : nat.
Variable recs : nat -> Rec X.
Variable self : nat.

Abbreviation self_i := (sys_interp sys self).

(** The flags of the host that a call reads: spawned tasks that may re-enter the entry program, cancellation. *)
Definition flagsHost : Host X :=
  let none {A} : M X A := raise (EExit 1) in
  {| h_builtin := fun _ _ _ => none; h_nsBuiltin := fun _ _ _ _ => none; h_module := fun _ _ _ _ _ => none;
     h_foreign := fun _ _ _ _ => none; h_spawn := fun _ _ => none; h_stampedConst := fun _ _ => None;
     h_const := fun _ _ _ => none; h_zero := fun _ _ => none; h_zeroField := fun _ _ _ _ _ => none;
     h_spawnReentry := fun x => lib_spawnReentry libs (x_lib x);
     h_cancelled := fun x => x_detached x && lib_cancelled libs (x_lib x) |}.

(** [callMethodWithDepthRoot] of the interpreter [j] on the global frame of the state. *)
Definition callIn (j : nat) (m : MethodDef) (moveArg : nat) (args : list Value) : M X Value :=
  callMethodWithDepthRoot flagsHost (sys_interp sys j) (recs j) m moveArg args.

(** An [error] without a position. *)
Definition plain {A} (fmt : string) (args : list fmtarg) : M X A := rt (Pos "" 0 0) fmt args.

(** [BuiltinCtx.Invoke]: the method runs in the calling interpreter, on its frames. *)
Definition Invoke (fn : Value) (args : list Value) : M X Value :=
  match fn with
  | VFunc None _ => plain "call of an uninitialized `func` value" []
  | VFunc (Some (_, name)) home =>
      match i_methods (sys_interp sys (default self home)) !! name with
      | Some m => callIn self m 0 args
      | None => plain "call of an uninitialized `func` value" []
      end
  | _ => plain "expected a `func` value, got %s" [kindArg fn]
  end.

(** [BuiltinCtx.CallByName]: on the frames of the caller. *)
Definition CallByName (name : string) (args : list Value) : M X Value :=
  match i_methods self_i !! name with
  | Some m => callIn self m 0 args
  | None => plain "function %q is not defined" [AStr name]
  end.

(** [CallByNameWithDepth]: on the interpreter's own global frame. *)
Definition CallByNameWithDepth (j : nat) (name : string) (args : list Value) : M X Value :=
  match i_methods (sys_interp sys j) !! name with
  | Some m => crossTo self j (callIn j m 0 args)
  | None => plain "function %q is not defined" [AStr name]
  end.

Definition CallHostWithDepth (name : string) (args : list Value) : M X Value :=
  let entry := sys_entry sys in
  if bool_decide (entry = self) then CallByNameWithDepth self name args
  else
    do v <- CallByNameWithDepth entry name
              (map (retagStructs "" (sys_ns sys self) "" (sys_path sys self) (isOwnStructName self)) args);
    ret (retagStructs (sys_ns sys self) "" (sys_path sys self) "" (isOwnStructName self) v).

(** A builtin at work. *)
Fixpoint runScript (s : script Y) : M X Value :=
  match s with
  | S_end r => lift r
  | S_read k => do w <- get; runScript (k (x_lib (w_ext w)) (w_handles w))
  | S_write y h k =>
      modify (fun w => mkWorld (w_env w) (w_chain w) h (mkExt (x_globals (w_ext w)) (x_detached (w_ext w)) y));;
      runScript k
  | S_invoke fn args k => do r <- attempt (Invoke fn args); runScript (k r)
  | S_callByName name args k => do r <- attempt (CallByName name args); runScript (k r)
  | S_callHost name args k => do r <- attempt (CallHostWithDepth name args); runScript (k r)
  end.

(** The dispatch of [dispatchModuleMethod] into the module's interpreter; the retagging of arguments and result is
    [evalQualifiedCall]'s. *)
Definition callModule (prefix callee : string) (args : list Value) (moveArg : nat) (p : position) : M X Value :=
  match moduleAliases (i_tables self_i) !! prefix with
  | None => rt p "unknown namespace %q" [AStr prefix]
  | Some m =>
      let j := sys_byPath sys (mod_path m) in
      match i_methods (sys_interp sys j) !! callee with
      | Some md => crossTo self j (callIn j md moveArg args)
      | None => rt p "module %q has no function %q" [AStr prefix; AStr callee]
      end
  end.

(** [evalCallValue] on a [func] value of another interpreter. *)
Definition callForeign (home : nat) (fn : nat * string) (args : list Value) (p : position) : M X Value :=
  match i_methods (sys_interp sys home) !! snd fn with
  | Some m =>
      do v <- crossTo self home (callIn home m 0 (map (fun v => crossRetag v self home) args));
      ret (crossRetag v home self)
  | None => rt p "call of an uninitialized `func` value (it was never assigned a function)" []
  end.

(** [moduleConst]. *)
Definition moduleConst (m : loadedModule) (prefix name : string) (p : position) : M X Value :=
  do w <- get;
  match GetBinding [default (NewEnvironment []) (parked self w !! sys_byPath sys (mod_path m))] name with
  | Ok b =>
      if negb (b_IsConst b) then rt p "module %q has no constant %q" [AStr prefix; AStr name]
      else if negb (bool_decide (name ∈ mod_exports m)) then
        rt p "%s.%s: %q is not exported from module %q" [AStr prefix; AStr name; AStr name; AStr prefix]
      else ret (retagStructs "" (mod_ns m) "" (mod_path m) (isOwnStruct m) (b_Value b))
  | Err _ => rt p "module %q has no constant %q" [AStr prefix; AStr name]
  end.

(** [evalQualifiedConst] after the stamped constants and the local enums. *)
Definition qualifiedConst (prefix name : string) (p : position) : M X Value :=
  match moduleAliases (i_tables self_i) !! prefix with
  | Some m => moduleConst m prefix name p
  | None =>
      match resolveNamespacePrefix self_i prefix with
      | Err m => raise (ERuntime (mkRuntimeError m p ""))
      | Ok ns =>
          match sys_NSConstants sys !! (ns, name) with
          | Some v => ret v
          | None =>
              if bool_decide ((ns, name) ∈ i_nsBuiltins self_i) then
                rt p "%s.%s is a function; call it as %s.%s(...)" [AStr prefix; AStr name; AStr prefix; AStr name]
              else rt p "unknown constant %q in namespace %q" [AStr name; AStr ns]
          end
      end
  end.

(** ** Zero values *)

Definition zeroOf (p : position) (isEnum : bool) (ns name modPath : string) : option (res Value) :=
  zeroFor (fun path => sys_interp sys (sys_byPath sys path)) (lib_isObjectType libs) (lib_zeroObject libs) p
    fuel self_i isEnum ns name modPath.

Definition liftZero {A} (r : option (res A)) : M X A :=
  match r with Some r => lift r | None => fun _ => NoFuel end.

(** [execDefine] without an initialiser. *)
Definition defineZero (t : Typ) (p : position) : M X Value :=
  match t with
  | TypeStruct ns mp name =>
      if isEnumType self_i ns name mp then liftZero (zeroOf p true ns name mp)
      else if lib_isObjectType libs ns name then ret (lib_zeroObject libs ns name)
      else liftZero (zeroOf p false ns name mp)
  | _ => ret VNull
  end.

(** A field left out of a literal of a library's struct, or of one of a bundled module. *)
Definition literalZero (ns name modPath : string) (decl : StructFieldDecl) (p : position) : M X Value :=
  if bool_decide (ns <> "") && bool_decide (modPath = "") then
    do fs <- liftZero (zeroPayload (fun _ => zeroOf p) self_i [decl]);
    ret (match fs with (_, v) :: _ => v | [] => VNull end)
  else
    do z <- liftZero (zeroOf p false ns name modPath);
    ret (match z with
         | VStruct _ _ _ fs => match findField fs (field_Name decl) 0 with Some (_, v) => v | None => VNull end
         | _ => VNull
         end).

(** ** The host of an interpreter *)

Definition hostOf : Host X :=
  {| h_builtin := fun name args p => runScript (lib_builtin libs name args p);
     h_nsBuiltin := fun ns name args p => runScript (lib_nsBuiltin libs ns name args p);
     h_module := callModule;
     h_foreign := callForeign;
     h_spawn := fun body env => fun w =>
       let '(v, y, h) := lib_spawn libs body env (x_lib (w_ext w)) (w_handles w) in
       Done v (mkWorld (w_env w) (w_chain w) h (mkExt (x_globals (w_ext w)) (x_detached (w_ext w)) y));
     h_stampedConst := sys_stamped sys self;
     h_const := qualifiedConst;
     h_zero := defineZero;
     h_zeroField := literalZero;
     h_spawnReentry := h_spawnReentry flagsHost;
     h_cancelled := h_cancelled flagsHost |}.
End Host.

(** ** The evaluators *)

(** The evaluator of the interpreter [j], with [n] levels of fuel. *)
Fixpoint sysRun (fast : bool) (n : nat) (j : nat) : Rec X :=
  match n with
  | O => stuck
  | S n => step (hostOf n (sysRun fast n) j) (sys_interp sys j) fast (sysRun fast n j)
  end.
End Dispatch.
