(* ===== verification/BalanceFacts.v ===== *)
(** * Evaluation is balanced and respects declarations

    Whatever a program does, and however it ends (normally, by a [throw], a runtime
    error or [exit]), evaluation gives back what it took: the nesting counter, the chain
    of frames and the bytes charged for copies.  Frames other than the current one keep
    their declarations, pending deferred calls and constants.  [exit] cannot be stopped. *)

From S2P Require Import Prelude GoInt Float64 Utf8 Limits Types Value ValueFacts MapFacts Ast Ops.
From S2P Require Import Environment EnvFacts IntFast Display Defs Store StoreFacts Interp Eval.
From S2P Require Import FastFacts Load Dispatch.
Open Scope string_scope.
Open Scope list_scope.
Open Scope Z_scope.

(** ** Frames *)

(** The same variable: only the value of a non-constant may differ. *)
Definition sameDecl (b b' : Binding) : Prop :=
  b' = withValue b (b_Value b') /\ (b_IsConst b = true -> b' = b).

Record kept (f f' : Frame) : Prop := {
  kept_slots : Forall2 sameDecl (slots f) (slots f');
  kept_vars : forall n, option_Forall2 sameDecl (vars f !! n) (vars f' !! n);
  kept_deferred : deferred f' = deferred f;
  kept_bytes : frameBytes f' = frameBytes f;
  kept_borrow : borrowDefs f' = borrowDefs f
}.

#[export] Instance sameDecl_preorder : PreOrder sameDecl.
Proof.
  split; [intros b; split; [by destruct b | done] | ].
  intros a b c [E1 C1] [E2 C2]. split.
  - rewrite E2, E1. done.
  - intros Ha. rewrite (C1 Ha) in *. by apply C2.
Qed.

#[export] Instance kept_preorder : PreOrder kept.
Proof.
  split; [intros f; split; try done; intros n; by destruct (vars f !! n); constructor | ].
  intros f g k [S1 V1 D1 B1 R1] [S2 V2 D2 B2 R2]. split; try congruence; [by etransitivity | ].
  intros n. specialize (V1 n). specialize (V2 n). inversion V1 as [? ? E Ex Ey | Ex Ey];
    rewrite <- Ey in V2; inversion V2; constructor. by etransitivity.
Qed.

Lemma kept_setSlot f s b b' :
  slots f !! s = Some b -> sameDecl b b' -> kept f (setSlot f s b').
Proof.
  intros Hb Hs. split; try done.
  assert (s < nslots f)%nat as Hn.
  { apply lookup_lt_Some in Hb. unfold slots in Hb. rewrite length_take in Hb. lia. }
  rewrite slots_setSlot by done. apply Forall2_same_length_lookup. rewrite length_insert. split; [done | ].
  intros j x y Hx Hy. destruct (decide (j = s)) as [-> | Hj].
  - rewrite list_lookup_insert_eq in Hy by (by apply lookup_lt_Some in Hb). by simplify_eq.
  - rewrite list_lookup_insert_ne in Hy by done. simplify_eq. reflexivity.
Qed.

Lemma kept_setVar f name b b' :
  vars f !! name = Some b -> sameDecl b b' -> kept f (setVar f name b').
Proof.
  intros Hb Hs. split; try done. intros n. simpl. destruct (decide (n = name)) as [-> | Hn].
  - rewrite Hb, lookup_insert_eq. by constructor.
  - rewrite lookup_insert_ne by done. destruct (vars f !! n); by constructor.
Qed.

Lemma sumBytes_kept env env' : Forall2 kept env env' -> sumBytes env' = sumBytes env.
Proof.
  induction 1 as [ | f f' env env' Hf _ IH]; [done | ]. rewrite !sumBytes_cons, IH. by destruct Hf as [_ _ _ -> _].
Qed.

Lemma sameDecl_checkAssign h b name v b' : checkAssign h b name v = Ok b' -> sameDecl b b'.
Proof.
  unfold checkAssign. destruct (b_IsConst b) eqn:E; [done | ]. destruct (negb _); [done | ].
  intros [= <-]. split; [done | ]. by rewrite E.
Qed.

Lemma kept_refl_all env : Forall2 kept env env.
Proof. by apply Forall_Forall2_diag, Forall_forall. Qed.

Lemma Assign_kept h env name v env' : Assign h env name v = Ok env' -> Forall2 kept env env'.
Proof.
  revert env'. induction env as [ | f env IH]; intros env'; [done | ]. simpl.
  destruct (lookupLocal f name) as [[b si] | ] eqn:El.
  - destruct (checkAssign h b name v) as [b' | ] eqn:Ec; [ | done]. intros [= <-].
    apply sameDecl_checkAssign in Ec. constructor; [ | apply kept_refl_all].
    unfold lookupLocal in El. destruct (slotScan 0 (slots f) name) as [[b0 s] | ] eqn:Es.
    + injection El as <- <-. apply slotScan_spec in Es. apply (kept_setSlot _ _ b0); [ | done].
      destruct Es as (? & ? & ?). by replace s with (s - 0)%nat by lia.
    + destruct (vars f !! name) eqn:Ev; [ | done]. injection El as <- <-. by apply (kept_setVar _ _ _ _ Ev).
  - destruct (Assign h env name v) as [rest | ] eqn:Ea; [ | done]. intros [= <-].
    constructor; [reflexivity | by apply IH].
Qed.

Lemma setFrame_kept (env : Environment) k f f' :
  env !! k = Some f -> kept f f' -> Forall2 kept env (<[k := f']> env).
Proof.
  intros Hf Hk. apply Forall2_same_length_lookup. rewrite length_insert. split; [done | ].
  intros j x y Hx Hy. destruct (decide (j = k)) as [-> | Hj].
  - rewrite list_lookup_insert_eq in Hy by (by apply lookup_lt_Some in Hf). by simplify_eq.
  - rewrite list_lookup_insert_ne in Hy by done. simplify_eq. reflexivity.
Qed.

Lemma AssignAt_kept h env depth slot name v env' :
  AssignAt h env depth slot name v = Ok env' -> Forall2 kept env env'.
Proof.
  unfold AssignAt. destruct (frameAt env depth) as [cur | ] eqn:Ef; [ | done].
  destruct (inSlots cur slot) eqn:Ei; [ | apply Assign_kept].
  destruct (checkAssign _ _ _ _) as [b' | ] eqn:Ec; [ | done]. intros [= <-].
  apply setFrame_kept with cur; [done | ].
  assert (exists b, slots cur !! Z.to_nat slot = Some b) as [b Hb].
  { apply lookup_lt_is_Some. unfold inSlots in Ei. lia. }
  rewrite Hb in Ec. apply (kept_setSlot _ _ b); [done | ]. by apply sameDecl_checkAssign in Ec.
Qed.

(** ** States *)

(** What may happen to the state behind the host interface. *)
Class ExtRel (X : Type) := {
  extR : X -> X -> Prop;
  extR_preorder :: PreOrder extR
}.

Section Balance.
Context {X : Type} `{!ExtRel X}.

(** [n] bytes are charged; nothing else of the counters and declarations changes. *)
Definition charged (n : Z) (w w' : World X) : Prop :=
  depthN (w_chain w') = depthN (w_chain w) /\
  chainBytes (w_chain w') = chainBytes (w_chain w) + n /\
  Forall2 kept (w_env w) (w_env w') /\ extR (w_ext w) (w_ext w').

(** What an expression may do to the state. *)
Definition balanced : World X -> World X -> Prop := charged 0.

(** What statements may do: the current frame may also gain variables, deferred calls and
    charged bytes; the bytes of the chain follow the frames'. *)
Definition balancedTail (w w' : World X) : Prop :=
  depthN (w_chain w') = depthN (w_chain w) /\
  chainBytes (w_chain w') - sumBytes (w_env w') = chainBytes (w_chain w) - sumBytes (w_env w) /\
  length (w_env w') = length (w_env w) /\
  Forall2 kept (tail (w_env w)) (tail (w_env w')) /\ extR (w_ext w) (w_ext w').

Lemma charged_trans n m w1 w2 w3 : charged n w1 w2 -> charged m w2 w3 -> charged (n + m) w1 w3.
Proof.
  intros (D1 & C1 & E1 & X1) (D2 & C2 & E2 & X2). split; [congruence | ]. split; [lia | ]. split; by etransitivity.
Qed.

#[export] Instance balanced_preorder : PreOrder balanced.
Proof.
  split; [intros w; split; [done | ]; split; [lia | ]; split; [apply kept_refl_all | reflexivity] | ].
  intros ??? H1 H2. exact (charged_trans 0 0 _ _ _ H1 H2).
Qed.

#[export] Instance balancedTail_preorder : PreOrder balancedTail.
Proof.
  split; [intros w; split_and!; try done; apply kept_refl_all | ].
  intros a b c (D1 & C1 & L1 & E1 & X1) (D2 & C2 & L2 & E2 & X2). do 2 (split; [congruence | ]).
  split; [congruence | ]. split; by etransitivity.
Qed.

Lemma balanced_tail w w' : balanced w w' -> balancedTail w w'.
Proof.
  intros (D & C & E & Hx). split; [done | ]. split; [rewrite (sumBytes_kept _ _ E); lia | ].
  split; [by apply Forall2_length in E | ]. split; [by inversion E | done].
Qed.

(** ** Computations *)

(** However [c] ends, the final state is related to the initial one. *)
Definition pres (R : World X -> World X -> Prop) {A} (c : M X A) : Prop :=
  forall w, match c w with Done _ w' | Raise _ w' => R w w' | NoFuel => True end.

Section Generic.
Variable R : World X -> World X -> Prop.
Context `{!PreOrder R}.

Lemma pres_ret {A} (a : A) : pres R (ret a).
Proof. intros w. simpl. reflexivity. Qed.

Lemma pres_raise {A} e : pres R (@raise X A e).
Proof. intros w. simpl. reflexivity. Qed.

Lemma pres_lift {A} (r : res A) : pres R (lift r).
Proof. destruct r; [apply pres_ret | apply pres_raise]. Qed.

Lemma pres_liftMsg {A} (r : result message A) p : pres R (liftMsg r p).
Proof. destruct r; [apply pres_ret | apply pres_raise]. Qed.

Lemma pres_get : pres R get.
Proof. intros w. simpl. reflexivity. Qed.

Lemma pres_bind {A B} (c : M X A) (k : A -> M X B) :
  pres R c -> (forall a, pres R (k a)) -> pres R (bind c k).
Proof.
  intros Hc Hk w. unfold bind. specialize (Hc w). destruct (c w) as [a w1 | e w1 | ]; [ | done | done].
  specialize (Hk a w1). destruct (k a w1); [ | | done]; by etransitivity.
Qed.

Lemma pres_attempt {A} (c : M X A) : pres R c -> pres R (attempt c).
Proof. intros Hc w. unfold attempt. specialize (Hc w). by destruct (c w). Qed.

Lemma pres_mapM {A B} (f : nat -> A -> M X B) k l : (forall k x, pres R (f k x)) -> pres R (mapM f k l).
Proof.
  intros Hf. revert k. induction l as [ | x l IH]; intros k; simpl; [apply pres_ret | ].
  apply pres_bind; [apply Hf | ]. intros y. apply pres_bind; [apply IH | ]. intros. apply pres_ret.
Qed.

Lemma pres_quick {A} fast (q : Environment -> option A) c : pres R c -> pres R (quick fast q c).
Proof. intros Hc w. unfold quick. destruct (if fast then _ else _); [simpl; reflexivity | apply Hc]. Qed.

(** A new environment computed from the current state. *)
Lemma pres_newEnv (r : World X -> result message Environment) p :
  (forall w env, r w = Ok env -> R w (mkWorld env (w_chain w) (w_handles w) (w_ext w))) ->
  pres R (bind get (fun w => bind (liftMsg (r w) p) setEnv)).
Proof.
  intros Hf w. unfold bind, get. destruct (r w) as [a | e] eqn:E; simpl; [by apply Hf | reflexivity].
Qed.

Lemma pres_modify f : (forall w, R w (f w)) -> pres R (modify f).
Proof. intros Hf w. apply Hf. Qed.

End Generic.

Lemma pres_weaken {A} (c : M X A) : pres balanced c -> pres balancedTail c.
Proof. intros Hc w. specialize (Hc w). destruct (c w); [ | | done]; by apply balanced_tail. Qed.

Lemma pres_nested {A} (c : M X A) R :
  (forall w w', R (deeper 1 w) w' -> R w (deeper (-1) w')) -> pres R c -> pres R (nested c).
Proof.
  intros HR Hc w. unfold nested. specialize (Hc (deeper 1 w)). destruct (c (deeper 1 w)); [ | | done]; by apply HR.
Qed.

Lemma nested_balanced w w' : balanced (deeper 1 w) w' -> balanced w (deeper (-1) w').
Proof. intros (D & C & E). split; [simpl in *; lia | done]. Qed.

Lemma nested_balancedTail w w' : balancedTail (deeper 1 w) w' -> balancedTail w (deeper (-1) w').
Proof. intros (D & C & E). split; [simpl in *; lia | done]. Qed.

Lemma setEnv_balanced w env : Forall2 kept (w_env w) env ->
  balanced w (mkWorld env (w_chain w) (w_handles w) (w_ext w)).
Proof. intros E. split; [done | ]. split; [simpl; lia | ]. split; [done | reflexivity]. Qed.

Lemma pres_setHandles h : pres balanced (@setHandles X h).
Proof. intros w. simpl. split; [done | ]. split; [simpl; lia | ]. split; [apply kept_refl_all | reflexivity]. Qed.

Lemma releaseBytes f c : chainBytes (snd (releaseBlockEnv f c)) = chainBytes c - frameBytes f.
Proof. simpl. destruct (Z.eqb_spec (frameBytes f) 0); lia. Qed.

(** A new frame takes the changes of the statements it runs with it. *)
Lemma pres_withFrame {A} k (c : M X A) : pres balancedTail c -> pres balanced (withFrame k c).
Proof.
  intros Hc w. unfold withFrame. rewrite bind_get. unfold bind at 1, push, modify.
  set (f0 := borrowBlockEnv _ _ _).
  assert (frameBytes f0 = 0) as H0 by apply borrow_frameBytes. clearbody f0.
  set (w1 := mkWorld (f0 :: w_env w) (w_chain w) (w_handles w) (w_ext w)).
  assert (forall w2, balancedTail w1 w2 -> match popRelease w2 with Done _ w3 => balanced w w3 | _ => False end) as Hpop.
  { intros [[ | f env] [d b] h x] (D & C & L & E & Hx); [done | ]. unfold popRelease. cbn [w_env]. split; [done | ].
    cbn [w_chain w_env w_ext w1 tail] in *. rewrite releaseBytes, !sumBytes_cons in *. split; [ | done].
    cbn [chainBytes] in *. rewrite (sumBytes_kept _ _ E) in C. lia. }
  specialize (Hc w1). unfold bind, attempt. destruct (c w1) as [a w2 | e w2 | ]; [ | | done];
    specialize (Hpop w2 Hc); destruct (popRelease w2); try done.
Qed.

(** ** The host *)

(** What evaluation relies on: requests to the host, which may call back into the
    program, leave the counters and the declarations of the caller as expressions do. *)
Record HostKeeps (host : Host X) : Prop := {
  hk_builtin : forall n vs p, pres balanced (h_builtin host n vs p);
  hk_nsBuiltin : forall ns n vs p, pres balanced (h_nsBuiltin host ns n vs p);
  hk_module : forall ns n vs mv p, pres balanced (h_module host ns n vs mv p);
  hk_foreign : forall i m vs p, pres balanced (h_foreign host i m vs p);
  hk_spawn : forall ss env, pres balanced (h_spawn host ss env);
  hk_const : forall ns n p, pres balanced (h_const host ns n p);
  hk_zero : forall t p, pres balanced (h_zero host t p);
  hk_zeroField : forall a b c d p, pres balanced (h_zeroField host a b c d p)
}.
End Balance.

Create HintDb pres discriminated.
#[local] Hint Resolve pres_ret pres_raise pres_lift pres_liftMsg pres_get pres_setHandles : pres.
#[local] Hint Resolve balanced_preorder balancedTail_preorder : pres.

Section Step.
Context `{NativeObject, GoText, Limits}.
Context {X : Type} `{!ExtRel X}.
Variable host : Host X.
Variable i : Interpreter.
Variable fast : bool.
Variable r : Rec X.
Hypothesis Hhost : HostKeeps host.
Hypothesis Heval : forall e, pres balanced (r_eval r e).
Hypothesis Hstmts : forall ss, pres balancedTail (r_stmts r ss).
Hypothesis Hloop : forall l, pres balancedTail (r_loop r l).

Ltac pres1 :=
  match goal with
  | |- pres _ (bind _ _) => apply pres_bind; [typeclasses eauto | | intros]
  | |- pres _ (attempt _) => apply pres_attempt
  | |- pres balanced (nested _) => apply (pres_nested _ _ nested_balanced)
  | |- pres balancedTail (nested _) => apply (pres_nested _ _ nested_balancedTail)
  | |- pres _ (quick _ _ _) => apply pres_quick; [typeclasses eauto | ]
  | |- pres balanced (withFrame _ _) => apply pres_withFrame
  | |- pres _ (mapM _ _ _) => apply pres_mapM; [typeclasses eauto | intros]
  | |- pres balanced (r_eval _ _) => apply Heval
  | |- pres balancedTail (r_stmts _ _) => apply Hstmts
  | |- pres balancedTail (r_loop _ _) => apply Hloop
  | |- pres _ (rt _ _ _) => apply pres_lift; typeclasses eauto
  | |- pres _ (match ?x with _ => _ end) => destruct x
  | |- pres _ _ => solve [eauto with pres]
  | |- pres balancedTail _ => solve [apply pres_weaken; eauto with pres]
  | |- pres balancedTail (r_eval _ _) => apply pres_weaken
  | |- pres balancedTail (withFrame _ _) => apply pres_weaken
  end.
Ltac press := repeat (cbn beta; pres1).

#[local] Hint Resolve Heval Hstmts Hloop : pres.
#[local] Hint Resolve hk_builtin hk_nsBuiltin hk_module hk_foreign hk_spawn hk_const hk_zero hk_zeroField : pres.

Lemma pres_stampM v t : pres balanced (stampM (X := X) v t).
Proof. unfold stampM. press. Qed.
Lemma pres_bindParamM v t : pres balanced (bindParamM (X := X) v t).
Proof. unfold bindParamM. press. Qed.
Lemma pres_matchesM v t : pres balanced (matchesM (X := X) v t).
Proof. unfold matchesM. press. Qed.
Lemma pres_loopCheckpoint p : pres balanced (loopCheckpoint host p).
Proof. unfold loopCheckpoint. press. Qed.
#[local] Hint Resolve pres_stampM pres_bindParamM pres_matchesM pres_loopCheckpoint : pres.

(** *** Updates of the current frame *)

Lemma tail_update (w : World X) f f' rest n :
  w_env w = f :: rest -> frameBytes f' = frameBytes f + n ->
  balancedTail w (mkWorld (f' :: rest) (mkChain (depthN (w_chain w)) (chainBytes (w_chain w) + n))
                    (w_handles w) (w_ext w)).
Proof.
  intros E Hb. split; [done | ]. cbn [w_env w_chain w_ext chainBytes]. rewrite E, !sumBytes_cons, Hb.
  split; [lia | ]. split; [done | ]. split; [apply kept_refl_all | reflexivity].
Qed.

Lemma tail_update0 (w : World X) f f' rest :
  w_env w = f :: rest -> frameBytes f' = frameBytes f ->
  balancedTail w (mkWorld (f' :: rest) (w_chain w) (w_handles w) (w_ext w)).
Proof.
  intros E Hb. split; [done | ]. cbn [w_env w_chain w_ext]. rewrite E, !sumBytes_cons, Hb.
  split; [done | ]. split; [done | ]. split; [apply kept_refl_all | reflexivity].
Qed.

Lemma pres_accountCopy v : pres balancedTail (accountCopy (X := X) i v).
Proof.
  apply pres_modify. intros w. destruct (w_env w) as [ | f rest] eqn:E; [reflexivity | ].
  by apply (tail_update w f).
Qed.

Lemma pres_setDeferred d : pres balancedTail (setDeferred (X := X) d).
Proof.
  apply pres_modify. intros w. destruct (w_env w) as [ | f rest] eqn:E; [reflexivity | ].
  by apply (tail_update0 w f).
Qed.

Lemma growSlots_bytes f s : frameBytes (growSlots f s) = frameBytes f.
Proof. unfold growSlots. by destruct (_ <? _)%nat. Qed.

Lemma pres_defineAt slot name v t c p : pres balancedTail (defineAt (X := X) slot name v t c p).
Proof.
  apply pres_newEnv; [typeclasses eauto | ]. intros w env. unfold DefineAt.
  destruct (w_env w) as [ | f rest] eqn:E; [intros [= <-] | ].
  { by destruct w as [? ? ? ?]; simpl in *; subst. }
  destruct (slot <? 0); [destruct (existsInChain _ _); [done | ] | ]; intros [= <-];
    apply (tail_update0 w f); try done. apply growSlots_bytes.
Qed.

Lemma pres_define name v t c p : pres balancedTail (define (X := X) name v t c p).
Proof.
  apply pres_newEnv; [typeclasses eauto | ]. intros w env. unfold Define.
  destruct (w_env w) as [ | f rest] eqn:E; [intros [= <-] | ].
  { by destruct w as [? ? ? ?]; simpl in *; subst. }
  destruct (existsInChain _ _); [done | ]; intros [= <-]. by apply (tail_update0 w f).
Qed.
#[local] Hint Resolve pres_accountCopy pres_setDeferred pres_defineAt pres_define : pres.

(** *** Deferred calls and blocks *)

Lemma pres_deferLoop d failed derr : pres balanced (deferLoop r d failed derr).
Proof. revert failed derr. induction d; intros; simpl; unfold invokeDeferred; press. Qed.
#[local] Hint Resolve pres_deferLoop : pres.

Lemma pres_finishing {A} (c : M X A) : pres balancedTail c -> pres balancedTail (finishing r c).
Proof. intros Hc. unfold finishing, finishFrame, runDeferredCalls. press. Qed.
#[local] Hint Resolve pres_finishing : pres.

Lemma pres_execBlock b : pres balanced (execBlock r b).
Proof. unfold execBlock. press. Qed.

Lemma pres_boundBlock b slot name v t c p : pres balanced (boundBlock r b slot name v t c p).
Proof. unfold boundBlock. press. Qed.
#[local] Hint Resolve pres_execBlock pres_boundBlock : pres.

(** *** Expressions *)

Lemma pres_interpParts parts acc : pres balanced (interpParts r parts acc).
Proof. revert acc. induction parts as [ | [lit [e | ]] parts IH]; intros; simpl; press. Qed.

Lemma pres_mapLitLoop kvs seen nh out : pres balanced (mapLitLoop r kvs seen nh out).
Proof. revert seen nh out. induction kvs as [ | [ke ve] kvs IH]; intros; cbn [mapLitLoop]; press. Qed.

Lemma pres_litField d l t fmt args : pres balanced (litField r d l t fmt args).
Proof. unfold litField. press. Qed.
#[local] Hint Resolve pres_interpParts pres_mapLitLoop pres_litField : pres.

Lemma pres_evalEnumLit p ns en name bare fs : pres balanced (evalEnumLit i r p ns en name bare fs).
Proof. unfold evalEnumLit, evalEnumFields, evalEnumField. press. Qed.
#[local] Hint Resolve pres_evalEnumLit : pres.

Lemma pres_evalStructLit p ns en name bare fs : pres balanced (evalStructLit host i r p ns en name bare fs).
Proof. unfold evalStructLit, evalStructFields, evalStructField. press. Qed.
#[local] Hint Resolve pres_evalStructLit : pres.

(** *** Calls *)

Lemma balanced_charged n (w1 w2 w3 : World X) : balanced w1 w2 -> charged n w2 w3 -> charged n w1 w3.
Proof. exact (charged_trans 0 n w1 w2 w3). Qed.

Lemma charged_charge n (w : World X) :
  charged n w (mkWorld (w_env w) (mkChain (depthN (w_chain w)) (chainBytes (w_chain w) + n)) (w_handles w) (w_ext w)).
Proof. split; [done | ]. split; [done | ]. split; [apply kept_refl_all | reflexivity]. Qed.

Lemma charged_release f (w : World X) :
  charged (- frameBytes f) w (mkWorld (w_env w) (snd (releaseBlockEnv f (w_chain w))) (w_handles w) (w_ext w)).
Proof. split; [done | ]. cbn [w_chain w_env w_ext]. rewrite releaseBytes. split; [lia | ]. split; [apply kept_refl_all | reflexivity]. Qed.

(** Argument binding: the bytes charged are the frame's; an error gives them back. *)
Definition bindPost (cf : Frame) (w : World X) (o : outcome X Frame) : Prop :=
  match o with
  | Done cf' w' => charged (frameBytes cf' - frameBytes cf) w w'
  | Raise _ w' => charged (- frameBytes cf) w w'
  | NoFuel => True
  end.

Lemma bindPost_trans cf cf1 w w1 o :
  charged (frameBytes cf1 - frameBytes cf) w w1 -> bindPost cf1 w1 o -> bindPost cf w o.
Proof.
  intros Hc. destruct o as [cf2 w2 | e w2 | ]; simpl; [ | | done]; intros Ho;
    pose proof (charged_trans _ _ _ _ _ Hc Ho) as Ht; revert Ht; unfold charged; intros (? & ? & ? & ?); split_and!; try done; lia.
Qed.

Lemma bindParam_post cf idx prm v move borrow (w : World X) :
  match bindParam i cf idx prm v move borrow w with
  | Done cf' w' => charged (frameBytes cf' - frameBytes cf) w w'
  | Raise _ _ => False
  | NoFuel => True
  end.
Proof.
  unfold bindParam.
  set (c := if move || _ then stampM v _ else bindParamM v _).
  assert (pres balanced c) as Hc by (unfold c; press).
  assert (forall e w', c w <> Raise e w') as Hn.
  { intros e w'. unfold c, stampM, bindParamM, bind, get.
    destruct (move || _); [destruct (stampDeclaredType _ _ _) | destruct (bindParamValue _ _ _)]; done. }
  unfold bind. specialize (Hc w). destruct (c w) as [b w1 | e w1 | ]; [ | by destruct (Hn e w1) | done].
  unfold modify, ret. set (n := if move || _ then 0 else _). apply (balanced_charged _ _ _ _ Hc).
  cbn [setSlot frameBytes]. rewrite growSlots_bytes. cbn [chargeFrame frameBytes].
  replace (frameBytes cf + n - frameBytes cf) with n by lia. apply charged_charge.
Qed.

Lemma bind_matchesM {A} v t (k : bool -> M X A) w :
  bind (matchesM v t) k w = k (MatchesDeclared (w_handles w) v t) w.
Proof. done. Qed.

Lemma bindParams_post prms cf idx args callee mv snap ctx w :
  bindPost cf w (bindParams i r cf idx prms args callee mv snap ctx w).
Proof.
  revert cf idx args w. induction prms as [ | prm prms IH]; intros cf idx args w.
  { simpl. rewrite Z.sub_diag. change (balanced w w). reflexivity. }
  destruct args as [ | a args]; [simpl; rewrite Z.sub_diag; change (balanced w w); reflexivity | ].
  cbn [bindParams]. unfold bind at 1, attempt. pose proof (Heval a w) as Ha.
  destruct (r_eval r a w) as [v w1 | e w1 | ]; [ | | done].
  - rewrite bind_matchesM. destruct (negb _); [apply (balanced_charged _ _ _ _ Ha), charged_release | ].
    apply (bindPost_trans cf cf w w1); [by rewrite Z.sub_diag | ]. unfold bind.
    match goal with |- context [bindParam i cf idx prm v ?m ?b w1] =>
      pose proof (bindParam_post cf idx prm v m b w1) as Hb; destruct (bindParam i cf idx prm v m b w1) as [cf1 w2 | | ] end;
      [ | done | done].
    exact (bindPost_trans _ _ _ _ _ Hb (IH _ _ _ _)).
  - apply (balanced_charged _ _ _ _ Ha), charged_release.
Qed.

(** A call takes the charges of its frame back when it ends. *)
Lemma enterCall_post {A} cf (c : M X A) w :
  pres balancedTail c ->
  match enterCall cf c w with
  | Done _ w' | Raise _ w' => charged (- frameBytes cf) w w'
  | NoFuel => True
  end.
Proof.
  intros Hc. unfold enterCall. rewrite bind_get. unfold bind, setEnv, modify, attempt.
  set (g := match effectiveGlobal (w_env w) with Some g => [g] | None => [] end).
  set (w1 := mkWorld (cf :: g) (w_chain w) (w_handles w) (w_ext w)).
  assert (forall w2, balancedTail w1 w2 -> match popRelease w2 with
    | Done _ w3 => charged (- frameBytes cf) w
        (mkWorld (localFrames (w_env w) ++ w_env w3) (w_chain w3) (w_handles w3) (w_ext w3))
    | _ => False end) as Hpop.
  { intros [[ | f env] [d b] h x] (D & C & L & E & Hx); [done | ]. unfold popRelease. cbn [w_env]. split; [done | ].
    cbn [w_chain w_env w_ext w1 tail] in *. rewrite releaseBytes, !sumBytes_cons in *. cbn [chainBytes] in *.
    rewrite (sumBytes_kept _ _ E) in C. split; [lia | ]. split; [ | done].
    assert (w_env w = localFrames (w_env w) ++ g) as Hw.
    { unfold g, effectiveGlobal, localFrames. destruct (w_env w) as [ | f1 env1] using rev_ind; [done | ].
      rewrite last_snoc, length_app, Nat.add_sub, take_app_length. done. }
    rewrite Hw at 1. apply Forall2_app; [apply kept_refl_all | done]. }
  specialize (Hc w1). destruct (c w1) as [a w2 | e w2 | ]; [ | | done];
    specialize (Hpop w2 Hc); destruct (popRelease w2); try done.
Qed.

(** What a call does after its arguments are bound. *)
Lemma runFrame_post cf body p w :
  match runFrame r cf body p w with
  | Done _ w' | Raise _ w' => charged (- frameBytes cf) w w'
  | NoFuel => True
  end.
Proof.
  unfold runFrame. rewrite bind_get. destruct (_ <? _); [apply charged_release | ].
  destruct (_ <? _); [apply charged_release | ].
  pose proof (enterCall_post cf (nested (execBlock r body)) w ltac:(press)) as Hc.
  unfold bind. destruct (enterCall _ _ _) as [fl w2 | e w2 | ]; [ | done | done]. by destruct fl.
Qed.

(** A call gives back what the binding of its arguments took. *)
Lemma bind_runFrame (c : M X Frame) cf body p w :
  frameBytes cf = 0 -> bindPost cf w (c w) ->
  match bind c (fun cf => runFrame r cf body p) w with
  | Done _ w' | Raise _ w' => balanced w w'
  | NoFuel => True
  end.
Proof.
  intros Hz Hb. unfold bind. destruct (c w) as [cf1 w1 | e1 w1 | ]; [ | | done].
  - pose proof (runFrame_post cf1 body p w1) as Hr.
    assert (forall w2, charged (- frameBytes cf1) w1 w2 -> balanced w w2) as Hend.
    { intros w2 Hw2. pose proof (charged_trans _ _ _ _ _ Hb Hw2) as Ht. rewrite Hz in Ht.
      by replace (frameBytes cf1 - 0 + - frameBytes cf1) with 0 in Ht by lia. }
    destruct (runFrame r cf1 body p w1); [by apply Hend | by apply Hend | done].
  - simpl in Hb. by rewrite Hz in Hb.
Qed.

Lemma pres_callUserMethod m args snap mv callee p :
  pres balanced (callUserMethod host i r m args snap mv callee p).
Proof.
  unfold callUserMethod. destruct (negb _); [press | ]. intros w. rewrite bind_get.
  set (cf := mkFrame _ _ _ _ _ _).
  apply (bind_runFrame _ cf); [apply borrow_frameBytes | apply bindParams_post].
Qed.
#[local] Hint Resolve pres_callUserMethod : pres.

Lemma pres_evalExprStep e : pres balanced (evalExprStep host i fast r e).
Proof.
  destruct e; cbn [evalExprStep];
    unfold evalVar, evalConstRef, evalBinary, evalLogical, evalUnary, evalCall, evalCallValue, evalLen,
      evalSpawn, evalQualifiedCall, evalQualifiedConst, hostCall, evalListLit, evalMapLit, evalIndex, evalRange, rangeBounds,
      evalSlice, optEval, evalFieldAccess; press.
Qed.

(** *** Statements *)

Lemma pres_evalBool e ctx : pres balanced (evalBool fast r e ctx).
Proof. unfold evalBool. press. Qed.
#[local] Hint Resolve pres_evalBool : pres.

Lemma pres_assignRoot name depth slot v p :
  pres (X := X) balanced (bind get (fun w => bind (liftMsg (assignRoot (w_handles w) (w_env w) name depth slot v) p) setEnv)).
Proof.
  apply pres_newEnv; [typeclasses eauto | ]. intros w env Ha. apply setEnv_balanced. unfold assignRoot in Ha.
  destruct (0 <=? slot); [by apply AssignAt_kept in Ha | by apply Assign_kept in Ha].
Qed.

Lemma pres_storeRoot root v p : pres balanced (storeRoot (X := X) root v p).
Proof. destruct root as [[name depth] slot]. apply pres_assignRoot. Qed.

Lemma pres_collect e p acc : pres balanced (collectLvalueSteps r e p acc).
Proof.
  revert e acc. fix IH 1. intros e acc. destruct e; cbn [collectLvalueSteps]; try (apply pres_lift; typeclasses eauto).
  - apply pres_bind; [typeclasses eauto | apply Heval | intros; apply IH].
  - apply IH.
  - press.
Qed.
#[local] Hint Resolve pres_storeRoot pres_collect : pres.

Lemma pres_mutableRoot t what p : pres balanced (mutableRoot (X := X) t what p).
Proof. unfold mutableRoot, rootBinding. press. Qed.
#[local] Hint Resolve pres_mutableRoot : pres.

Lemma pres_execAssign p name v depth slot : pres balanced (execAssign fast r p name v depth slot).
Proof.
  intros w. unfold execAssign. rewrite bind_get.
  destruct (if fast then _ else _) as [env | ] eqn:E.
  - destruct fast; [ | done]. apply (fastAssign_inv (w_handles w) _ _ _ _ name) in E as (_ & b & x & _ & _ & Ha).
    apply setEnv_balanced. by apply AssignAt_kept in Ha.
  - revert w E. intros w _. revert w.
    match goal with |- forall w, match ?c w with _ => _ end => change (pres balanced c) end.
    repeat (cbn beta; first [apply pres_assignRoot | pres1]).
Qed.
#[local] Hint Resolve pres_execAssign : pres.

Lemma pres_elseIfs arms els : pres balanced (elseIfs fast r arms els).
Proof. induction arms as [ | [c b] arms IH]; simpl; press. Qed.

Lemma pres_afterBody fl (c : M X flow) : pres balancedTail c -> pres balancedTail (afterBody fl c).
Proof. intros Hc. unfold afterBody. press. Qed.
#[local] Hint Resolve pres_elseIfs pres_afterBody : pres.

Lemma pres_eachLoop p var body slot t items : pres balancedTail (eachLoop host r p var body slot t items).
Proof. induction items; simpl; press. Qed.

Lemma pres_armValues vs subject : pres balanced (armValues r vs subject).
Proof. induction vs; simpl; press. Qed.
#[local] Hint Resolve pres_eachLoop pres_armValues : pres.

Lemma pres_matchArms arms subject els : pres balanced (matchArms i r arms subject els).
Proof.
  induction arms as [ | [p vs body variant bind slot] arms IH]; cbn [matchArms]; unfold runPatternArm; press.
Qed.
#[local] Hint Resolve pres_matchArms : pres.

Lemma pres_loopStep l : pres balancedTail (loopStep host fast r l).
Proof. destruct l; cbn [loopStep]; press; apply pres_afterBody; press. Qed.

Lemma pres_execStmt st : pres balancedTail (execStmt host i fast r st).
Proof.
  destruct st; cbn [execStmt];
    unfold execDefine, execPathAssign, execAppend, rootBinding, execIf, execMatch,
      execFor, execForEach, rangeBounds, execExit, execThrow, execDefer, execTry; press.
Qed.
#[local] Hint Resolve pres_execStmt : pres.

Lemma pres_stmtsStep ss : pres balancedTail (stmtsStep host i fast r ss).
Proof. induction ss; cbn [stmtsStep]; press. Qed.
End Step.

(** ** The host of a program *)

Section System.
Context `{NativeObject, GoText, Limits}.
Context {Y : Type}.
Variable sys : System.
Variable libs : Libraries Y.

(** The global frames of the other interpreters keep their declarations and constants, and so does the
    interpreter's own where the running chain has a snapshot of it. *)
Definition globalsKept (self : nat) (x x' : Ext Y) : Prop :=
  x_detached x' = x_detached x /\
  forall j f, (j = self -> x_detached x = true) -> x_globals x !! j = Some f ->
    exists f', x_globals x' !! j = Some f' /\ kept f f'.

#[local] Instance globalsKept_preorder self : PreOrder (globalsKept self).
Proof.
  split; [intros x; split; [done | ]; intros j f _ Hf; by exists f | ].
  intros x y z [D1 G1] [D2 G2]. split; [congruence | ]. intros j f Hj Hf.
  destruct (G1 j f Hj Hf) as (f1 & Hf1 & K1). destruct (G2 j f1 ltac:(intros; rewrite D1; auto) Hf1) as (f2 & Hf2 & K2).
  exists f2. split; [done | by etransitivity].
Qed.

Definition sysExt (self : nat) : ExtRel (Ext Y) := {| extR := globalsKept self |}.

Abbreviation balancedIn self := (@balanced (Ext Y) (sysExt self)).
Abbreviation balancedTailIn self := (@balancedTail (Ext Y) (sysExt self)).

(** *** Calls with values *)

Lemma bindValues_post self i prms cf idx args callee mv ctx (w : World (Ext Y)) :
  @bindPost _ (sysExt self) cf w (bindValues i cf idx prms args callee mv ctx w).
Proof.
  revert cf idx args w. induction prms as [ | prm prms IH]; intros cf idx args w.
  { simpl. rewrite Z.sub_diag. change (balancedIn self w w). reflexivity. }
  destruct args as [ | v args]; [simpl; rewrite Z.sub_diag; change (balancedIn self w w); reflexivity | ].
  cbn [bindValues]. rewrite bind_matchesM. destruct (negb _); [apply charged_release | ]. unfold bind.
  match goal with |- context [bindParam i cf idx prm v ?m ?b w] =>
    pose proof (@bindParam_post _ (sysExt self) i cf idx prm v m b w) as Hb;
    destruct (bindParam i cf idx prm v m b w) as [cf1 w2 | | ] end; [ | done | done].
  exact (bindPost_trans _ _ _ _ _ Hb (IH _ _ _ _)).
Qed.

(** The evaluator of an interpreter keeps the balance. *)
Definition recKeeps (self : nat) (r : Rec (Ext Y)) : Prop :=
  (forall e, pres (balancedIn self) (r_eval r e)) /\
  (forall ss, pres (balancedTailIn self) (r_stmts r ss)) /\
  (forall l, pres (balancedTailIn self) (r_loop r l)).

Lemma balancedIn_preorder self : PreOrder (balancedIn self).
Proof. apply balanced_preorder. Qed.
#[local] Hint Resolve balancedIn_preorder : pres.

Lemma pres_callMethod self host i (r : Rec (Ext Y)) m mv args :
  recKeeps self r -> pres (balancedIn self) (callMethodWithDepthRoot host i r m mv args).
Proof.
  intros (He & Hs & _). unfold callMethodWithDepthRoot.
  destruct (negb _); [apply pres_lift, balancedIn_preorder | ]. intros w. rewrite bind_get.
  set (cf := mkFrame _ _ _ _ _ _).
  apply (@bind_runFrame _ _ (sysExt self) r He Hs _ cf); [apply borrow_frameBytes | apply bindValues_post].
Qed.

(** *** Between interpreters *)

Lemma env_split (env : Environment) f : effectiveGlobal env = Some f -> env = localFrames env ++ [f].
Proof.
  unfold effectiveGlobal, localFrames. destruct env as [ | g env] using rev_ind; [done | ].
  rewrite last_snoc, length_app, Nat.add_sub, take_app_length. by intros [= ->].
Qed.

(** A call on the global frame of [home] keeps the frames of [self] and every other global. *)
Lemma pres_crossTo {A} self home (c : M (Ext Y) A) :
  pres (balancedIn home) c -> pres (balancedIn self) (crossTo self home c).
Proof.
  intros Hc w. unfold crossTo. rewrite bind_get. unfold bind, modify, attempt.
  set (g := parked self w). set (f0 := default (NewEnvironment []) (g !! home)).
  set (w1 := mkWorld [f0] (w_chain w) (w_handles w) (mkExt g false (x_lib (w_ext w)))).
  specialize (Hc w1).
  assert (forall w2, balancedIn home w1 w2 -> exists f2, w_env w2 = [f2] /\ kept f0 f2 /\
    forall j f, g !! j = Some f -> exists f', <[home := f2]> (x_globals (w_ext w2)) !! j = Some f' /\ kept f f') as Hback.
  { intros w2 (D & C & E & Hx & HG). cbn [w_env w1] in E. apply Forall2_cons_inv_l in E as (f2 & l & Hk & Hl & ->).
    apply Forall2_nil_inv_l in Hl as ->. exists f2. split; [done | ]. split; [done | ]. intros j f Hj.
    destruct (decide (j = home)) as [-> | Hne].
    - exists f2. rewrite lookup_insert_eq. split; [done | ]. unfold f0 in Hk. by rewrite Hj in Hk.
    - rewrite lookup_insert_ne by done. apply (HG j f); [by intros ? | done]. }
  assert (forall w2, balancedIn home w1 w2 -> balancedIn self w
    (mkWorld
      (match effectiveGlobal (w_env w) with
       | Some f => if x_detached (w_ext w) then w_env w else localFrames (w_env w) ++
           [default f (match effectiveGlobal (w_env w2) with
                       | Some f => <[home := f]> (x_globals (w_ext w2))
                       | None => x_globals (w_ext w2) end !! self)]
       | None => w_env w
       end)
      (w_chain w2) (w_handles w2)
      (mkExt (match effectiveGlobal (w_env w2) with
              | Some f => <[home := f]> (x_globals (w_ext w2))
              | None => x_globals (w_ext w2) end) (x_detached (w_ext w)) (x_lib (w_ext w2))))) as Hend.
  { intros w2 H2. destruct (Hback w2 H2) as (f2 & -> & Hk & HG). destruct H2 as (D & C & _).
    cbn [effectiveGlobal last w_env]. split; [done | ]. split; [done | ]. cbn [w_env w_ext]. split.
    - destruct (effectiveGlobal (w_env w)) as [f | ] eqn:Eg; [ | apply kept_refl_all].
      destruct (x_detached (w_ext w)) eqn:Ed; [apply kept_refl_all | ].
      rewrite (env_split _ _ Eg) at 1. apply Forall2_app; [apply kept_refl_all | ]. constructor; [ | constructor].
      destruct (HG self f) as (f' & -> & Hf'); [unfold g, parked; by rewrite Eg, Ed, lookup_insert_eq | done].
    - split; [done | ]. cbn [x_globals]. intros j f Hj Hf. apply HG. unfold g, parked.
      destruct (effectiveGlobal (w_env w)); [ | done]. destruct (x_detached (w_ext w)); [done | ].
      rewrite lookup_insert_ne; [done | ]. intros <-. by specialize (Hj eq_refl). }
  destruct (c w1) as [a w2 | e w2 | ]; cbn [lift ret raise]; [by apply Hend | by apply Hend | done].
Qed.

(** *** Requests *)

Section Requests.
Variable fuel : nat.
Variable recs : nat -> Rec (Ext Y).
Variable self : nat.
Hypothesis Hrecs : forall j, recKeeps j (recs j).

Ltac req1 :=
  match goal with
  | |- pres _ (bind _ _) => apply pres_bind; [apply balancedIn_preorder | | intros]
  | |- pres _ (attempt _) => apply pres_attempt
  | |- pres _ (crossTo _ _ _) => apply pres_crossTo
  | |- pres _ (callIn _ _ _ _ _ _ _) => apply pres_callMethod, Hrecs
  | |- pres _ (lift _) => apply pres_lift, balancedIn_preorder
  | |- pres _ (rt _ _ _) => apply pres_lift, balancedIn_preorder
  | |- pres _ (plain _ _) => apply pres_lift, balancedIn_preorder
  | |- pres _ (raise _) => apply pres_raise, balancedIn_preorder
  | |- pres _ (ret _) => apply pres_ret, balancedIn_preorder
  | |- pres _ get => apply pres_get, balancedIn_preorder
  | |- pres _ (liftZero _) => unfold liftZero
  | |- pres _ (fun _ => NoFuel) => by intros ?
  | |- pres _ (match ?x with _ => _ end) => destruct x
  end.
Ltac req := repeat (cbn beta; req1).

Lemma pres_Invoke fn args : pres (balancedIn self) (Invoke sys libs recs self fn args).
Proof. unfold Invoke. req. Qed.

Lemma pres_CallByName name args : pres (balancedIn self) (CallByName sys libs recs self name args).
Proof. unfold CallByName. req. Qed.

Lemma pres_CallByNameWithDepth j name args : pres (balancedIn self) (CallByNameWithDepth sys libs recs self j name args).
Proof. unfold CallByNameWithDepth. req. Qed.

Lemma pres_CallHost name args : pres (balancedIn self) (CallHostWithDepth sys libs recs self name args).
Proof. unfold CallHostWithDepth. req; apply pres_CallByNameWithDepth. Qed.

Lemma ext_balanced (w : World (Ext Y)) h y :
  balancedIn self w (mkWorld (w_env w) (w_chain w) h (mkExt (x_globals (w_ext w)) (x_detached (w_ext w)) y)).
Proof.
  split; [done | ]. split; [simpl; lia | ]. split; [apply kept_refl_all | ]. split; [done | ]. intros j f _ Hf. by exists f.
Qed.

Lemma pres_runScript sc : pres (balancedIn self) (runScript sys libs recs self sc).
Proof.
  induction sc as [r | k IH | y h k IH | fn args k IH | name args k IH | name args k IH]; cbn [runScript]; req.
  - apply IH.
  - apply pres_modify. intros w. apply ext_balanced.
  - apply IH.
  - apply pres_Invoke.
  - apply IH.
  - apply pres_CallByName.
  - apply IH.
  - apply pres_CallHost.
  - apply IH.
Qed.

Lemma hostOf_keeps : @HostKeeps _ (sysExt self) (hostOf sys libs fuel recs self).
Proof.
  split; cbn [hostOf h_builtin h_nsBuiltin h_module h_foreign h_spawn h_const h_zero h_zeroField]; intros.
  - apply pres_runScript.
  - apply pres_runScript.
  - unfold callModule. req.
  - unfold callForeign. req.
  - intros w. destruct (lib_spawn _ _ _ _ _) as [[v y] h]. apply ext_balanced.
  - unfold qualifiedConst, moduleConst. req.
  - unfold defineZero. req.
  - unfold literalZero. req.
Qed.
End Requests.

(** Every interpreter of the program, by induction on the fuel. *)
Lemma pres_sysRun fast n : forall self, recKeeps self (sysRun sys libs fast n self).
Proof.
  induction n as [ | n IH]; intros self; [split_and!; intros ? w; done | ].
  pose proof (IH self) as (He & Hs & Hl). pose proof (hostOf_keeps n _ self IH) as Hh. cbn [sysRun step].
  split_and!; intros ?.
  - by apply (pres_evalExprStep (ExtRel0 := sysExt self)).
  - by apply (pres_stmtsStep (ExtRel0 := sysExt self)).
  - by apply (pres_loopStep (ExtRel0 := sysExt self)).
Qed.

(** The state in which a computation ended. *)
Definition endsIn {X A} (o : outcome X A) (w' : World X) : Prop :=
  match o with Done _ w | Raise _ w => w = w' | NoFuel => False end.

Lemma pres_endsIn {A} (R : World (Ext Y) -> World (Ext Y) -> Prop) (c : M (Ext Y) A) w w' :
  pres R c -> endsIn (c w) w' -> R w w'.
Proof. intros Hc Hw. specialize (Hc w). destruct (c w); simpl in Hw; subst; done. Qed.

(** C3: evaluation gives back what it took.  In a program of any number of interpreters (entry
    program and modules) and with any libraries, whose builtins may call back into any of them
    but reach frames in no other way ([script]): whether it ends with a result or an error,
    an expression leaves the nesting counter and the bytes charged to the call chain as
    they were, and every frame with its variables, their declared types, its pending
    deferred calls and its charges, the global frames of the other interpreters included; statements do the same for all frames but the current
    one, and the bytes charged to the chain change by what the current frame was charged. *)
Theorem evaluation_balanced (fast : bool) (n self : nat) (e : Expr) (ss : list Stmt) (w w' : World (Ext Y)) :
  (endsIn (r_eval (sysRun sys libs fast n self) e w) w' ->
     w_chain w' = w_chain w /\ Forall2 kept (w_env w) (w_env w') /\ globalsKept self (w_ext w) (w_ext w')) /\
  (endsIn (r_stmts (sysRun sys libs fast n self) ss w) w' ->
     depthN (w_chain w') = depthN (w_chain w) /\
     length (w_env w') = length (w_env w) /\ Forall2 kept (tail (w_env w)) (tail (w_env w')) /\
     chainBytes (w_chain w') - sumBytes (w_env w') = chainBytes (w_chain w) - sumBytes (w_env w) /\
     globalsKept self (w_ext w) (w_ext w')).
Proof.
  destruct (pres_sysRun fast n self) as (He & Hs & _). split; intros Hw.
  - destruct (pres_endsIn _ _ _ _ (He e) Hw) as (D & C & E & Hx). split; [ | done].
    destruct (w_chain w), (w_chain w'). simpl in *. f_equal; lia.
  - by destruct (pres_endsIn _ _ _ _ (Hs ss) Hw) as (D & C & L & E & Hx).
Qed.

Lemma kept_constant env env' c b :
  Forall2 kept env env' -> bindingAt env c = Some b -> b_IsConst b = true -> bindingAt env' c = Some b.
Proof.
  intros He Hb Hc. destruct c as [k s | k name]; simpl in *;
    destruct (env !! k) as [f | ] eqn:Ef; try done; simpl in Hb;
    destruct (Forall2_lookup_l _ _ _ _ _ He Ef) as (f' & -> & Hk); simpl.
  - destruct (Forall2_lookup_l _ _ _ _ _ (kept_slots _ _ Hk) Hb) as (b' & -> & _ & E). by rewrite E.
  - pose proof (kept_vars _ _ Hk name) as Hv. rewrite Hb in Hv. inversion Hv as [x y [_ E] Ex Ey | ].
    by rewrite E.
Qed.

Lemma bindingAt_tail env c : bindingAt (tail env) c = bindingAt env (shiftCell c).
Proof. destruct env as [ | f env], c; simpl; rewrite ?lookup_nil; done. Qed.

(** The constants of the other interpreters. *)
Lemma global_constant self (x x' : Ext Y) j f c b :
  globalsKept self x x' -> j <> self -> x_globals x !! j = Some f -> bindingAt [f] c = Some b -> b_IsConst b = true ->
  exists f', x_globals x' !! j = Some f' /\ bindingAt [f'] c = Some b.
Proof.
  intros [_ HG] Hj Hf Hb Hc. destruct (HG j f ltac:(done) Hf) as (f' & Hf' & Hk). exists f'. split; [done | ].
  apply (kept_constant [f]); [ | done | done]. by constructor.
Qed.

End System.

(** ** Witnesses *)

(** A program that imports the module [m].  The module's [run] calls the entry program back by name through
    a builtin; the method called reads a constant and throws. *)
Definition limitConst : Binding := mkBinding (VInt 7) TypeInt true 0 "LIMIT".
Definition nameConst : Binding := mkBinding (VString "m" 1) TypeString true 0 "NAME".

Definition methodOf (name : string) (body : list Stmt) (slots : nat) : MethodDef :=
  {| method_pos := p0; method_Name := name; method_Params := []; method_Body := mkBlock p0 body slots;
     method_Exported := true; method_GlobalSafe := false; method_ReentryFree := false; method_ReturnsOwned := false |}.

Definition throwing : MethodDef :=
  methodOf "fail"
    [DefineStmt p0 false false "x" (TypeList (Some TypeInt)) (Some (ListLit p0 [ConstRefExpr p0 "LIMIT" 2 0])) 0 false;
     ThrowStmt p0 (VarExpr p0 "x" 0 0 false)] 1.

Definition callingBack : MethodDef := methodOf "run" [ExprStmt p0 (QualifiedCallExpr p0 "meta" "callMain" [] 0 [])] 0.

Definition demoModule : loadedModule := mkModule "/m.j" "m" ∅ ∅ {["run"]} {["run"]} false.

Definition demoInterp (j : nat) : Interpreter :=
  match j with
  | O => mkInterp 0 (mkTables ∅ ∅ ∅ {["m" := demoModule]}) {["fail" := throwing]} (fun _ => 0%nat) ∅ ∅ ∅ ∅ ∅ ∅ ∅ false 64
  | _ => mkInterp 1 (mkTables ∅ ∅ ∅ ∅) {["run" := callingBack]} (fun _ => 0%nat) ∅ ∅ ∅ {["meta" := "meta"]} ∅ {["meta"]}
           {[("meta", "callMain")]} false 64
  end.

Definition demoSystem : System :=
  mkSystem demoInterp (fun j => match j with O => "" | _ => "m" end) (fun j => match j with O => "" | _ => "/m.j" end)
    (fun _ => 1%nat) 0 ∅ (fun _ _ _ => None).

Definition demoLibraries : Libraries unit :=
  mkLibraries unit (fun _ _ _ => S_end (Ok VNull)) (fun _ _ _ _ => S_callHost "fail" [] S_end)
    (fun _ _ y h => (VNull, y, h)) (fun _ _ => false) (fun _ _ => VNull) (fun _ => false) (fun _ => false).

Definition globalOf (b : Binding) : Frame := setSlot (NewEnvironmentSized [] 1) 0 b.

Definition demoWorld : World (Ext unit) :=
  mkWorld [globalOf limitConst] (mkChain 0 0) {| taskStates := ∅; chanStates := ∅ |}
    (mkExt {[1%nat := globalOf nameConst]} false tt).

Definition demoRun : Rec (Ext unit) := @sysRun identityNative plainText limits_std unit demoSystem demoLibraries true 30 0.

Definition demoCall : Expr := QualifiedCallExpr p0 "m" "run" [] 0 [].

(** The state in which the call ends: the throw of the entry program's method, through the module. *)
Definition demoEnd : World (Ext unit) :=
  mkWorld [globalOf limitConst] (mkChain 0 0) {| taskStates := ∅; chanStates := ∅ |}
    (mkExt {[0%nat := globalOf limitConst; 1%nat := globalOf nameConst]} false tt).

Example demo_throws : r_eval demoRun demoCall demoWorld = Raise (EThrow (VList [VInt 7] (Some TypeInt)) p0) demoEnd.
Proof. vm_compute. reflexivity. Qed.

Lemma evaluation_balanced_witness :
  w_chain demoEnd = mkChain 0 0 /\ Forall2 kept (w_env demoWorld) (w_env demoEnd) /\
  globalsKept 0 (w_ext demoWorld) (w_ext demoEnd).
Proof.
  apply (proj1 (@evaluation_balanced identityNative plainText limits_std unit demoSystem demoLibraries true 30 0 demoCall []
    demoWorld demoEnd)). vm_compute. reflexivity.
Defined.


(** A [func] value of a module, called through the value and through a builtin.  The value's method
    returns the module's constant [NAME]; a call of the value runs it in the module, as
    [evalCallValue] promises, while [Invoke] runs it on the caller's frames, where the constant's address holds
    the caller's [LIMIT]. *)
Definition naming : MethodDef := methodOf "name" [ReturnStmt p0 (Some (ConstRefExpr p0 "NAME" 2 0))] 0.

Definition namingSystem : System :=
  mkSystem (fun j => match j with O => demoInterp 0 | _ => bareInterp {["name" := naming]} end)
    (sys_ns demoSystem) (sys_path demoSystem) (fun _ => 1%nat) 0 ∅ (fun _ _ _ => None).

Definition namingFn : Value := VFunc (Some (0%nat, "name")) (Some 1%nat).

#[local] Existing Instance identityNative.
#[local] Existing Instance plainText.
#[local] Existing Instance limits_std.

Example invoke_ignores_home :
  let rec := sysRun namingSystem demoLibraries true 30 in
  (exists w, r_eval (rec 0%nat) (CallValueExpr p0 (PreEval p0 namingFn) [] []) demoWorld = Done (VString "m" 1) w) /\
  (exists w, Invoke namingSystem demoLibraries rec 0 namingFn [] demoWorld = Done (VInt 7) w).
Proof. split; eexists; vm_compute; reflexivity. Qed.

(** * Exit *)

Section Flow.
Context `{NativeObject, GoText, Limits}.
Context {X : Type}.
Variable host : Host X.
Variable i : Interpreter.
Variable fast : bool.
Variable rec : Rec X.

(** The state in which the statements of a new block start, and the one it leaves behind. *)
Definition entered (w : World X) (numSlots : nat) : World X :=
  mkWorld (borrowBlockEnv newPooled (w_env w) numSlots :: w_env w) (w_chain w) (w_handles w) (w_ext w).

Definition leave (w : World X) : World X :=
  match w_env w with
  | f :: rest => mkWorld rest (snd (releaseBlockEnv f (w_chain w))) (w_handles w) (w_ext w)
  | [] => w
  end.

(** The current frame without its pending calls. *)
Definition undeferred (w : World X) : World X :=
  match w_env w with
  | f :: rest =>
      mkWorld (mkFrame (backing f) (nslots f) (vars f) [] (frameBytes f) (borrowDefs f) :: rest) (w_chain w) (w_handles w) (w_ext w)
  | [] => w
  end.

(** The deferred calls [d] run one after the other, from one state to another; a failing one
    lets those of an [errdefer] that follow run too, which are skipped otherwise. *)
Inductive deferredRan : bool -> list deferredCall -> World X -> World X -> Prop :=
  | ran_none failed w : deferredRan failed [] w w
  | ran_skipped dc d w w' : dc_OnError dc = true -> deferredRan false d w w' -> deferredRan false (dc :: d) w w'
  | ran_ended failed dc d w w1 w' :
      (dc_OnError dc = true -> failed = true) -> invokeDeferred rec dc w = Done tt w1 ->
      deferredRan failed d w1 w' -> deferredRan failed (dc :: d) w w'
  | ran_failed failed dc d w w1 w' e :
      (dc_OnError dc = true -> failed = true) -> invokeDeferred rec dc w = Raise e w1 ->
      deferredRan true d w1 w' -> deferredRan failed (dc :: d) w w'.

(** One of the calls [d] does not end within the fuel. *)
Definition deferredStuck (d : list deferredCall) : Prop := exists dc w, dc ∈ d /\ invokeDeferred rec dc w = NoFuel.

Lemma deferLoop_runs d : forall failed derr w,
  match deferLoop rec d failed derr w with
  | Done _ w' => deferredRan failed d w w'
  | Raise _ _ => False
  | NoFuel => deferredStuck d
  end.
Proof.
  assert (Hstuck : forall dc d, deferredStuck d -> deferredStuck (dc :: d)).
  { intros dc d' (dc' & w & Hin & E). exists dc', w. split; [by right | done]. }
  induction d as [ | dc d IH]; intros failed derr w; [constructor | ]. cbn [deferLoop].
  destruct (dc_OnError dc && negb failed) eqn:Es.
  - apply andb_true_iff in Es as [Ho Hf%negb_true_iff]. subst. specialize (IH false derr w).
    destruct (deferLoop rec d false derr w); [by apply ran_skipped | done | by apply Hstuck].
  - assert (Ho : dc_OnError dc = true -> failed = true) by (intros Ho; rewrite Ho in Es; by destruct failed).
    unfold bind, attempt. destruct (invokeDeferred rec dc w) as [[] w1 | e w1 | ] eqn:E.
    + specialize (IH failed derr w1). destruct (deferLoop rec d failed derr w1); [by eapply ran_ended | done | by apply Hstuck].
    + specialize (IH true (Some e) w1). destruct (deferLoop rec d true (Some e) w1); [by eapply ran_failed | done | by apply Hstuck].
    + exists dc, w. split; [by left | done].
Qed.

(** The computation runs the calls that were pending in [w1], last registered first, and ends with [exit k]; or one
    of them does not end. *)
Definition exitsFrom (k : Z) (w1 : World X) (after : World X -> World X) {A} (o : outcome X A) : Prop :=
  (exists w2, deferredRan false (rev (headDeferred w1)) (undeferred w1) w2 /\ o = Raise (EExit k) (after w2)) \/
  (o = NoFuel /\ deferredStuck (rev (headDeferred w1))).

(** An exit of a frame's statements outlives the frame's deferred calls. *)
Lemma finishing_exits {A} (c : M X A) k w w1 :
  c w = Raise (EExit k) w1 -> exitsFrom k w1 (fun w2 => w2) (finishing rec c w).
Proof.
  intros Hc. unfold finishing, bind at 1, attempt. rewrite Hc. unfold finishFrame. rewrite bind_get.
  destruct (headDeferred w1) as [ | dc ds] eqn:Ed.
  - left. exists (undeferred w1). rewrite Ed. split; [constructor | ]. simpl. f_equal.
    unfold headDeferred, undeferred in *. destruct w1 as [[ | f env] ch h x]; [done | ]. simpl in *. by destruct f; simpl in *; subst.
  - assert (Hr : runDeferredCalls rec (errdeferFires (A := A) (Err (EExit k))) w1 =
                 deferLoop rec (rev (headDeferred w1)) false None (undeferred w1)).
    { unfold runDeferredCalls, bind, get, setDeferred, modify, undeferred. by destruct (w_env w1). }
    unfold bind. rewrite Hr. unfold exitsFrom.
    pose proof (deferLoop_runs (rev (headDeferred w1)) false None (undeferred w1)) as Hd.
    destruct (deferLoop rec _ false None (undeferred w1)) as [derr w2 | | ]; [ | done | by right].
    left. exists w2. split; [done | ]. by destruct derr.
Qed.

Lemma withFrame_exits {A} (c : M X A) n k w w1 after :
  exitsFrom k w1 after (c (entered w n)) -> exitsFrom k w1 (fun w2 => leave (after w2)) (withFrame n c w).
Proof.
  intros [(w2 & Hd & Hc) | [Hc Hd]]; unfold withFrame; rewrite bind_get; unfold bind, push, modify, attempt;
    fold (entered w n); rewrite Hc; [left | by right].
  exists w2. split; [done | ]. unfold popRelease, leave. by destruct (w_env (after w2)).
Qed.

(** C32: [exit] cannot be stopped.  When the statements of a block or of a [try] body end
    with [exit k], the calls the block has deferred run, last registered first and each from the state the one
    before it left (the [errdefer] ones only after another has failed), and then the construct
    ends with [exit k], in the state they left: neither their results nor their errors, nor the [catch] clause, replace it.
    Only when one of these calls does not end within the fuel does the construct not end either. *)
Theorem exit_is_final (b : Block) (catchName : string) (catchBody : Block) (catchPos : position)
    (catchSlot k : Z) (w w1 w2 : World X) :
  r_stmts rec (block_Stmts b) (entered w (block_NumSlots b)) = Raise (EExit k) w1 ->
  r_stmts rec (block_Stmts b) (deeper 1 (entered w (block_NumSlots b))) = Raise (EExit k) w2 ->
  exitsFrom k w1 leave (execTry rec b catchName catchBody catchPos catchSlot w) /\
  exitsFrom k w2 (fun w' => leave (deeper (-1) w')) (execBlock rec b w).
Proof.
  intros H1' H2'. split.
  - unfold execTry, bind at 1, attempt.
    pose proof (withFrame_exits (finishing rec (r_stmts rec (block_Stmts b))) _ k w w1 _ (finishing_exits _ _ _ _ H1')) as He.
    destruct He as [(w' & Hd & ->) | [-> Hd]]; [left; by exists w' | by right].
  - apply (withFrame_exits _ _ k w w2 (deeper (-1))). unfold nested.
    destruct (finishing_exits _ _ _ _ H2') as [(w' & Hd & ->) | [-> Hd]]; [left; by exists w' | by right].
Qed.
End Flow.

(** A [try] body that defers a failing call and exits. *)
Definition exitBlock : Block :=
  mkBlock p0 [DeferStmt p0 (CallExpr p0 "nothing" [] None 0 []) false; ExitStmt p0 (Some (IntLit p0 3))] 0.

Definition exitRec : Rec unit :=
  @run identityNative plainText limits_std unit bareHost (bareInterp ∅) true 10.

(** The states in which the statements of [exitBlock] end. *)
Definition stmtsEnd (w : World unit) : World unit :=
  match r_stmts exitRec (block_Stmts exitBlock) w with Raise _ w' | Done _ w' => w' | NoFuel => w end.

Lemma exit_is_final_witness :
  exitsFrom exitRec 3 (stmtsEnd (entered (bareWorld 1) 0)) leave
    (execTry exitRec exitBlock "e" (mkBlock p0 [] 1) p0 0 (bareWorld 1)) /\
  exitsFrom exitRec 3 (stmtsEnd (deeper 1 (entered (bareWorld 1) 0))) (fun w' => leave (deeper (-1) w'))
    (execBlock exitRec exitBlock (bareWorld 1)).
Proof.
  apply (exit_is_final exitRec exitBlock); vm_compute; reflexivity.
Defined.

(** One call is pending there. *)
Example exit_pending : length (headDeferred (stmtsEnd (entered (bareWorld 1) 0))) = 1%nat.
Proof. vm_compute. reflexivity. Qed.

Example exit_through_try :
  match execTry exitRec exitBlock "e" (mkBlock p0 [] 1) p0 0 (bareWorld 1) with
  | Raise e w => e = EExit 3 /\ w = bareWorld 1
  | _ => False
  end.
Proof. vm_compute. auto. Qed.
