(* ===== verification/TermFacts.v ===== *)
(** * Evaluation ends

    Only [while], [for] and [repeat] can keep a program running: without them every
    evaluation ends, because the call-depth budget bounds recursion, a frame runs each of
    its deferred calls once, and for-each loops walk a snapshot.  [ends D d] says that the
    family [d], indexed by fuel, settles on an ending from every state at nesting depth
    [D]; it is closed under the constructs of the evaluator, and an induction on the depth
    left and the size of the program gives it for the evaluator itself. *)

From S2P Require Import Prelude GoInt Float64 Utf8 Limits Types Value ValueFacts Ast Ops.
From S2P Require Import Display Defs Store Environment EnvFacts IntFast Interp Eval MapFacts.
From S2P Require Import StoreFacts FastFacts BalanceFacts.
Open Scope string_scope.
Open Scope list_scope.
Open Scope Z_scope.

(** ** Syntax *)

Definition optSize {A} (size : A -> nat) (o : option A) : nat :=
  match o with Some a => size a | None => O end.

(** Evaluated subexpressions of an expression; the body of a [spawn] is not evaluated. *)
Fixpoint esize (e : Expr) : nat :=
  S (match e with
     | InterpStringExpr _ parts =>
         list_sum (map (fun '(_, o) => match o with Some e => esize e | None => O end) parts)
     | ListLit _ es => list_sum (map esize es)
     | MapLit _ kvs => list_sum (map (fun '(k, v) => esize k + esize v)%nat kvs)
     | IndexExpr _ a b | RangeExpr _ a b => esize a + esize b
     | SliceExpr _ t lo hi =>
         esize t + match lo with Some e => esize e | None => O end
                 + match hi with Some e => esize e | None => O end
     | StructLit _ _ _ _ _ fs => list_sum (map (fun '(_, e, _) => esize e) fs)
     | FieldAccessExpr _ t _ | LenExpr _ t => esize t
     | CallExpr _ _ args _ _ _ | QualifiedCallExpr _ _ _ args _ _ => list_sum (map esize args)
     | CallValueExpr _ f args _ => esize f + list_sum (map esize args)
     | UnaryExpr _ _ a f => esize a + match f with Some e => esize e | None => O end
     | BinaryExpr _ _ a b f => esize a + esize b + match f with Some e => esize e | None => O end
     | _ => O
     end)%nat.

Fixpoint ssize (s : Stmt) : nat :=
  S (match s with
     | DefineStmt _ _ _ _ _ o _ _ | ReturnStmt _ o | ExitStmt _ o => optSize esize o
     | AssignStmt _ _ e _ _ | ThrowStmt _ e | DeferStmt _ e _ | ExprStmt _ e => esize e
     | IndexAssignStmt _ t e | AppendStmt _ t e | FieldAssignStmt _ t e => esize t + esize e
     | IfStmt _ c b arms els =>
         esize c + bsize b + list_sum (map (fun '(c, b) => esize c + bsize b)%nat arms)
           + match els with Some b => bsize b | None => O end
     | MatchStmt _ e arms els _ =>
         esize e + list_sum (map asize arms) + match els with Some b => bsize b | None => O end
     | WhileStmt _ c b | RepeatStmt _ b c => esize c + bsize b
     | ForStmt _ i c st b _ =>
         match i with Some s => ssize s | None => O end + optSize esize c
           + match st with Some s => ssize s | None => O end + bsize b
     | ForEachStmt _ _ e b _ => esize e + bsize b
     | TryStmt _ b _ cb _ _ => bsize b + bsize cb
     | _ => O
     end)%nat
with bsize (b : Block) : nat :=
  match b with mkBlock _ ss _ => S (list_sum (map ssize ss)) end
with asize (a : MatchArm) : nat :=
  match a with mkArm _ vs b _ _ _ => S (list_sum (map esize vs) + bsize b) end.

Definition sssize (ss : list Stmt) : nat := list_sum (map ssize ss).

(** No [while], [for] or [repeat]; a for-each over a range has a literal upper bound. *)
Fixpoint loopFree (s : Stmt) : bool :=
  match s with
  | WhileStmt _ _ _ | RepeatStmt _ _ _ | ForStmt _ _ _ _ _ _ => false
  | IfStmt _ _ b arms els =>
      loopFreeB b && forallb (fun '(_, b) => loopFreeB b) arms &&
      match els with Some b => loopFreeB b | None => true end
  | MatchStmt _ _ arms els _ =>
      forallb loopFreeA arms && match els with Some b => loopFreeB b | None => true end
  | ForEachStmt _ _ coll b _ =>
      match coll with
      | RangeExpr _ _ (IntLit _ z) => z <=? maxInt64
      | RangeExpr _ _ _ => false
      | _ => true
      end && loopFreeB b
  | TryStmt _ b _ cb _ _ => loopFreeB b && loopFreeB cb
  | _ => true
  end
with loopFreeB (b : Block) : bool :=
  match b with mkBlock _ ss _ => forallb loopFree ss end
with loopFreeA (a : MatchArm) : bool :=
  match a with mkArm _ _ b _ _ _ => loopFreeB b end.

Lemma list_sum_elem {A} (f : A -> nat) l x : x ∈ l -> (f x <= list_sum (map f l))%nat.
Proof. induction 1; simpl; lia. Qed.

(** ** Settling *)

(** A deferred call has its arguments evaluated. *)
Definition readyCall (e : Expr) : Prop :=
  Forall (fun a => exists p v, a = PreEval p v) (deferCallArgs e).

Section Ends.
Context {X : Type}.

Definition calm (env : Environment) : Prop :=
  Forall (fun f => Forall (fun dc => readyCall (dc_Call dc)) (deferred f)) env.

(** A state at nesting depth [D]. *)
Definition atDepth (D : Z) (w : World X) : Prop := depthN (w_chain w) = D /\ calm (w_env w).

Definition settled {A} (D : Z) (Q : A -> Prop) (o : outcome X A) : Prop :=
  match o with
  | Done a w => atDepth D w /\ Q a
  | Raise _ w => atDepth D w
  | NoFuel => False
  end.

Definition endsQ {A} (D : Z) (Q : A -> Prop) (d : nat -> M X A) : Prop :=
  forall w, atDepth D w -> exists N o, (forall m, (N <= m)%nat -> d m w = o) /\ settled D Q o.

Definition ends {A} (D : Z) (d : nat -> M X A) : Prop := endsQ D (fun _ => True) d.

(** A computation that needs no fuel. *)
Lemma ends_const {A} D (Q : A -> Prop) (c : M X A) :
  (forall w, atDepth D w -> settled D Q (c w)) -> endsQ D Q (fun _ => c).
Proof. intros Hc w Hw. exists 0%nat, (c w). by split; [ | apply Hc]. Qed.

Lemma ends_ret {A} D (a : A) : ends D (fun _ => ret a).
Proof. by apply ends_const. Qed.

Lemma ends_raise {A} D e : ends D (fun _ => @raise X A e).
Proof. by apply ends_const. Qed.

Lemma ends_lift {A} D (r : res A) : ends D (fun _ => lift r).
Proof. destruct r; [apply ends_ret | apply ends_raise]. Qed.

Lemma ends_liftMsg {A} D (r : result message A) p : ends D (fun _ => liftMsg r p).
Proof. destruct r; [apply ends_ret | apply ends_raise]. Qed.

Lemma ends_bindQ {A B} D Q R (d : nat -> M X A) (k : nat -> A -> M X B) :
  endsQ D Q d -> (forall a, Q a -> endsQ D R (fun m => k m a)) -> endsQ D R (fun m => bind (d m) (k m)).
Proof.
  intros Hd Hk w Hw. destruct (Hd w Hw) as (N & o & HN & Ho). destruct o as [a w1 | e w1 | ]; [ | | done].
  - destruct Ho as [H1 Ha]. destruct (Hk a Ha w1 H1) as (N' & o' & HN' & Ho').
    exists (Nat.max N N'), o'. split; [ | done]. intros m Hm. unfold bind. rewrite HN by lia. apply HN'. lia.
  - exists N, (Raise e w1). split; [ | done]. intros m Hm. unfold bind. by rewrite HN.
Qed.

Lemma ends_bind {A B} D (d : nat -> M X A) (k : nat -> A -> M X B) :
  ends D d -> (forall a, ends D (fun m => k m a)) -> ends D (fun m => bind (d m) (k m)).
Proof. intros Hd Hk. apply (ends_bindQ D (fun _ => True)); [done | ]. intros a _. apply Hk. Qed.

Lemma ends_get {A} D (k : nat -> World X -> M X A) :
  (forall w, atDepth D w -> ends D (fun m => k m w)) -> ends D (fun m => bind get (k m)).
Proof. intros Hk w Hw. apply (Hk w Hw w Hw). Qed.

Lemma ends_attempt {A} D (d : nat -> M X A) : ends D d -> ends D (fun m => attempt (d m)).
Proof.
  intros Hd w Hw. destruct (Hd w Hw) as (N & o & HN & Ho).
  exists N, (match o with Done a w => Done (Ok a) w | Raise e w => Done (Err e) w | NoFuel => NoFuel end).
  split; [intros m Hm; unfold attempt; by rewrite HN | ]. by destruct o; [ | split | ].
Qed.

Lemma ends_nested {A} D (d : nat -> M X A) : ends (D + 1) d -> ends D (fun m => nested (d m)).
Proof.
  intros Hd w [Hw Hc].
  destruct (Hd (deeper 1 w)) as (N & o & HN & Ho); [split; [simpl; lia | done] | ].
  exists N, (match o with Done a w => Done a (deeper (-1) w) | Raise e w => Raise e (deeper (-1) w) | NoFuel => NoFuel end).
  split; [intros m Hm; unfold nested; by rewrite HN | ].
  destruct o as [a w1 | e w1 | ]; [destruct Ho as [[H1 H2] _] | destruct Ho as [H1 H2] | done];
    (split; [ | done]) || idtac; try split; simpl in *; try done; lia.
Qed.

Lemma ends_mapM {A B} D (f : nat -> nat -> A -> M X B) k l :
  (forall k x, x ∈ l -> ends D (fun m => f m k x)) -> ends D (fun m => mapM (f m) k l).
Proof.
  revert k. induction l as [ | x l IH]; intros k Hf; simpl; [apply ends_ret | ].
  apply ends_bind; [apply Hf; left | ]. intros y.
  apply ends_bind; [apply IH; intros; apply Hf; by right | ]. intros ys. apply ends_ret.
Qed.

Lemma ends_quick {A} D fast (q : Environment -> option A) (d : nat -> M X A) :
  ends D d -> ends D (fun m => quick fast q (d m)).
Proof.
  intros Hd w Hw. unfold quick. destruct (if fast then _ else _) as [a | ]; [ | by apply Hd].
  exists 0%nat, (Done a w). by split.
Qed.

Lemma ends_shift {A} D (Q : A -> Prop) (d : nat -> M X A) : endsQ D Q (fun m => d (S m)) -> endsQ D Q d.
Proof.
  intros Hd w Hw. destruct (Hd w Hw) as (N & o & HN & Ho). exists (S N), o. split; [ | done].
  intros [ | m] Hm; [lia | ]. apply HN. lia.
Qed.

(** A new environment computed from the current state. *)
Lemma ends_newEnv D (r : World X -> result message Environment) p :
  (forall w env, atDepth D w -> r w = Ok env -> calm env) ->
  ends D (fun _ => bind get (fun w => bind (liftMsg (r w) p) setEnv)).
Proof.
  intros Hr. apply ends_const. intros w [Hd Hc]. unfold bind, get.
  destruct (r w) as [env | m] eqn:E; simpl; [ | done]. split; [ | done]. split; [done | ].
  by apply (Hr w env).
Qed.

Lemma ends_modify D f : (forall w, atDepth D w -> atDepth D (f w)) -> ends D (fun _ => @modify X f).
Proof. intros Hf. apply ends_const. intros w Hw. split; [by apply Hf | done]. Qed.

Lemma popRelease_at D (w : World X) : atDepth D w -> exists w', popRelease w = Done tt w' /\ atDepth D w'.
Proof.
  intros [Hd Hc]. unfold popRelease. destruct (w_env w) as [ | f env] eqn:E; eexists; (split; [done | ]).
  - split; [done | by rewrite E].
  - split; [done | ]. by inversion Hc.
Qed.

Lemma ends_withFrame {A} D k (d : nat -> M X A) : ends D d -> ends D (fun m => withFrame k (d m)).
Proof.
  intros Hd. unfold withFrame. apply ends_get. intros w0 [_ Hc]. apply ends_bind.
  { apply ends_modify. intros w [H1 H2]. split; [done | ]. constructor; [ | done].
    unfold borrowBlockEnv. destruct (0 <? k)%nat; [destruct (_ <=? _)%nat | ]; constructor. }
  intros []. apply ends_bind; [by apply ends_attempt | ]. intros r. apply ends_bind; [ | intros; apply ends_lift].
  apply ends_const. intros w Hw. destruct (popRelease_at D w Hw) as (w' & -> & ?). done.
Qed.
End Ends.

(** ** The host ends *)

(** Requests to the host end, at the depth they were made. *)
Definition hostEnds {X A} (c : M X A) : Prop :=
  forall D w, atDepth D w -> settled D (fun _ => True) (c w).

Record HostEnds {X} (host : Host X) : Prop := {
  he_builtin : forall n vs p, hostEnds (h_builtin host n vs p);
  he_nsBuiltin : forall ns n vs p, hostEnds (h_nsBuiltin host ns n vs p);
  he_module : forall ns n vs mv p, hostEnds (h_module host ns n vs mv p);
  he_foreign : forall i m vs p, hostEnds (h_foreign host i m vs p);
  he_spawn : forall ss env, hostEnds (h_spawn host ss env);
  he_const : forall ns n p, hostEnds (h_const host ns n p);
  he_zero : forall t p, hostEnds (h_zero host t p);
  he_zeroField : forall a b c d p, hostEnds (h_zeroField host a b c d p)
}.

Lemma ends_host {X A} D (c : M X A) : hostEnds c -> ends D (fun _ => c).
Proof. intros Hc. apply ends_const. intros w. apply Hc. Qed.

Lemma calm_kept env env' : Forall2 kept env env' -> calm env -> calm env'.
Proof.
  intros Hk Hc. induction Hk as [ | f f' env env' Hf _ IH]; [done | ]. inversion Hc; subst.
  constructor; [by rewrite (kept_deferred _ _ Hf) | by apply IH].
Qed.

Lemma growSlots_deferred f s : deferred (growSlots f s) = deferred f.
Proof. unfold growSlots. by destruct (_ <? _)%nat. Qed.

Create HintDb ends discriminated.
#[local] Hint Resolve ends_ret ends_raise ends_lift ends_liftMsg ends_host : ends.
#[local] Hint Resolve he_builtin he_nsBuiltin he_module he_foreign he_spawn he_const he_zero he_zeroField : ends.

Ltac ends1 :=
  match goal with
  | |- ends _ (fun _ => ret _) => apply ends_ret
  | |- ends _ (fun _ => raise _) => apply ends_raise
  | |- ends _ (fun _ => rt _ _ _) => apply ends_lift
  | |- ends _ (fun m => bind get _) => apply ends_get; intros
  | |- ends _ (fun m => bind _ _) => apply ends_bind; [ | intros]
  | |- ends _ (fun m => attempt _) => apply ends_attempt
  | |- ends _ (fun m => nested _) => apply ends_nested
  | |- ends _ (fun m => quick _ _ _) => apply ends_quick
  | |- ends _ (fun m => withFrame _ _) => apply ends_withFrame
  | |- ends _ (fun m => mapM _ _ _) => apply ends_mapM; intros
  | |- ends _ (fun m => match ?x with _ => _ end) => destruct x eqn:?
  | |- ends _ _ => solve [eauto with ends]
  end.
Ltac endss := repeat (cbn beta; ends1).

Section Construct.
Context `{NativeObject, GoText, Limits}.
Context {X : Type}.
Variable host : Host X.
Variable i : Interpreter.
Variable fast : bool.
Hypothesis Hhost : HostEnds host.
#[local] Hint Resolve Hhost : ends.

Abbreviation s := (run host i fast).
Abbreviation evalEnds D e := (ends D (fun m => r_eval (s m) e)).
Abbreviation stmtsEnd D ss := (ends D (fun m => r_stmts (s m) ss)).

Lemma ends_setHandles D h : ends D (fun _ => @setHandles X h).
Proof. apply ends_modify. intros w [H1' H2']. done. Qed.
#[local] Hint Resolve ends_setHandles : ends.

Lemma ends_stampM D v t : ends (X := X) D (fun _ => stampM v t).
Proof. unfold stampM. endss. Qed.
Lemma ends_bindParamM D v t : ends (X := X) D (fun _ => bindParamM v t).
Proof. unfold bindParamM. endss. Qed.
Lemma ends_matchesM D v t : ends (X := X) D (fun _ => matchesM v t).
Proof. unfold matchesM. endss. Qed.
Lemma ends_loopCheckpoint D p : ends D (fun _ => loopCheckpoint host p).
Proof. unfold loopCheckpoint. endss. Qed.
#[local] Hint Resolve ends_stampM ends_bindParamM ends_matchesM ends_loopCheckpoint : ends.

(** *** The current frame *)

Lemma calm_head (f f' : Frame) env : deferred f' = deferred f -> calm (f :: env) -> calm (f' :: env).
Proof. intros E Hc. inversion Hc; subst. constructor; [by rewrite E | done]. Qed.

Lemma ends_accountCopy D v : ends (X := X) D (fun _ => accountCopy i v).
Proof.
  apply ends_modify. intros w [Hd Hc]. destruct (w_env w) as [ | f rest] eqn:E; [split; [done | unfold calm in *; by rewrite ?E in *] | ].
  split; [done | ]. by apply (calm_head f).
Qed.

Lemma ends_setDeferred D d :
  Forall (fun dc => readyCall (dc_Call dc)) d -> ends (X := X) D (fun _ => setDeferred d).
Proof.
  intros Hr. apply ends_modify. intros w [Hd Hc].
  destruct (w_env w) as [ | f rest] eqn:E; [split; [done | unfold calm in *; by rewrite ?E in *] | ].
  split; [done | ]. inversion Hc; subst. by constructor.
Qed.

Lemma ends_defineAt D slot name v t c p : ends (X := X) D (fun _ => defineAt slot name v t c p).
Proof.
  apply ends_newEnv. intros w env [Hd Hc]. unfold DefineAt. destruct (w_env w) as [ | f rest]; [by intros [= <-] | ].
  destruct (slot <? 0); [destruct (existsInChain _ _); [done | ] | ]; intros [= <-]; apply (calm_head f); try done.
  apply growSlots_deferred.
Qed.

Lemma ends_define D name v t c p : ends (X := X) D (fun _ => define name v t c p).
Proof.
  apply ends_newEnv. intros w env [Hd Hc]. unfold Define. destruct (w_env w) as [ | f rest]; [by intros [= <-] | ].
  destruct (existsInChain _ _); [done | ]. intros [= <-]. by apply (calm_head f).
Qed.
#[local] Hint Resolve ends_accountCopy ends_defineAt ends_define : ends.

Lemma headDeferred_ready D (w : World X) :
  atDepth D w -> Forall (fun dc => readyCall (dc_Call dc)) (headDeferred w).
Proof. intros [_ Hc]. unfold headDeferred. destruct (w_env w); [constructor | by inversion Hc]. Qed.

(** *** Calls *)

Lemma ends_release D f : ends (X := X) D (fun _ => release f).
Proof. apply ends_modify. intros w [Hd Hc]. done. Qed.
#[local] Hint Resolve ends_release : ends.

Lemma ends_bindParam D cf idx prm v move borrow :
  endsQ (X := X) D (fun cf' => deferred cf' = deferred cf) (fun _ => bindParam i cf idx prm v move borrow).
Proof.
  unfold bindParam. apply (ends_bindQ D (fun _ => True)); [destruct (move || _); [apply ends_stampM | apply ends_bindParamM] | ]. intros b _.
  apply (ends_bindQ D (fun _ => True)); [by apply ends_modify | ]. intros [] _. apply ends_const.
  intros w Hw. split; [done | ]. simpl. by rewrite growSlots_deferred.
Qed.

Lemma ends_bindParams D prms cf idx args callee mv snap ctx :
  (forall a, a ∈ args -> evalEnds D a) ->
  endsQ D (fun cf' => deferred cf' = deferred cf)
    (fun m => bindParams i (s m) cf idx prms args callee mv snap ctx).
Proof.
  revert cf idx args. induction prms as [ | prm prms IH]; intros cf idx args Ha; [by apply (ends_const D _ (ret cf)) | ].
  destruct args as [ | a args]; [by apply (ends_const D _ (ret cf)) | ]. cbn [bindParams].
  assert (forall e, endsQ (X := X) D (fun cf' => deferred cf' = deferred cf) (fun _ => bind (release cf) (fun _ => raise e))) as Hrel.
  { intros e. apply (ends_bindQ D (fun _ => True)); [apply ends_release | ]. intros [] _. by apply ends_const. }
  apply (ends_bindQ D (fun _ => True)); [apply ends_attempt, Ha; left | ].
  intros [v | e] _; [ | apply Hrel].
  apply (ends_bindQ D (fun _ => True)); [apply ends_matchesM | ]. intros ok _.
  destruct (negb ok); [apply Hrel | ].
  apply (ends_bindQ D (fun cf' => deferred cf' = deferred cf)); [apply ends_bindParam | ].
  intros cf1 <-. apply IH. intros x Hx. apply Ha. by right.
Qed.

Lemma ends_enterCall {A} D cf (d : nat -> M X A) :
  deferred cf = [] -> ends D d -> ends D (fun m => enterCall cf (d m)).
Proof.
  intros Hcf Hd. unfold enterCall. apply ends_get. intros w0 [_ Hc0].
  assert (calm (localFrames (w_env w0)) /\
          calm (match effectiveGlobal (w_env w0) with Some g => [g] | None => [] end)) as [Hl Hg].
  { unfold calm in *. split; [by apply Forall_take | ]. unfold effectiveGlobal.
    destruct (last (w_env w0)) as [g | ] eqn:E; [ | constructor].
    apply last_Some_elem_of in E. rewrite Forall_forall in Hc0. constructor; [by apply Hc0 | constructor]. }
  apply ends_bind.
  { apply ends_modify. intros w [Hw _]. split; [done | ]. constructor; [by rewrite Hcf | done]. }
  intros []. apply ends_bind; [by apply ends_attempt | ]. intros r. apply ends_bind.
  { apply ends_const. intros w Hw. destruct (popRelease_at D w Hw) as (w' & -> & ?). done. }
  intros []. apply ends_get. intros w1 [_ Hc1]. apply ends_bind; [ | intros; apply ends_lift].
  apply ends_modify. intros w [Hw _]. split; [done | ]. by apply Forall_app.
Qed.

Section Depth.
Variable D0 : Z.
(** Method bodies end at greater depths, as long as the budget allows. *)
Hypothesis Hbody : forall D name md, D0 <= D < MaxCallDepth -> i_methods i !! name = Some md ->
  ends (D + 1) (fun m => execBlock (s m) (method_Body md)).

Lemma ends_callUserMethod D name md args snap mv callee p :
  D0 <= D -> i_methods i !! name = Some md -> (forall a, a ∈ args -> evalEnds D a) ->
  ends D (fun m => callUserMethod host i (s m) md args snap mv callee p).
Proof.
  intros HD Hmd Ha. unfold callUserMethod, runFrame. destruct (negb _); [endss | ]. apply ends_get. intros w0 _.
  set (cf := mkFrame _ _ _ _ _ _).
  assert (deferred cf = []) as Hcf.
  { unfold cf, borrowBlockEnv. destruct (0 <? _)%nat; [destruct (_ <=? _)%nat | ]; done. }
  clearbody cf.
  apply (ends_bindQ D (fun cf' => deferred cf' = deferred cf)); [by apply ends_bindParams | ].
  intros cf1 Hcf1. rewrite Hcf in Hcf1. apply ends_get. intros w1 [Hw1 _]. rewrite Hw1.
  destruct (Z.ltb_spec MaxCallDepth (D + 1)); [endss | ]. destruct (_ <? _); [endss | ].
  apply ends_bind; [ | intros [ ]; endss].
  apply ends_enterCall; [done | ]. apply ends_nested. apply (Hbody D name); [lia | done].
Qed.

Lemma ends_hostCall D (c : M X Value) p : hostEnds c -> ends D (fun _ => hostCall c p).
Proof. intros Hc. unfold hostCall. endss. Qed.
#[local] Hint Resolve ends_hostCall : ends.

Lemma ends_evalCall D p callee args m mv snap :
  D0 <= D -> (forall a, a ∈ args -> evalEnds D a) ->
  ends D (fun k => evalCall host i (s k) p callee args m mv snap).
Proof.
  intros HD Ha. unfold evalCall. destruct (i_methods i !! _) as [md | ] eqn:E; [by eapply ends_callUserMethod | ].
  endss.
Qed.

Lemma ends_evalQualifiedCall D p prefix callee args mv snap :
  (forall a, a ∈ args -> evalEnds D a) ->
  ends D (fun k => evalQualifiedCall host i (s k) p prefix callee args mv snap).
Proof. intros Ha. unfold evalQualifiedCall. endss. Qed.

Lemma ends_preEval D p v : evalEnds D (PreEval p v).
Proof. apply ends_shift. apply ends_ret. Qed.

Lemma ends_ready D e : D0 <= D -> readyCall e -> ends D (fun m => invokeDeferred (s m) {| dc_Call := e; dc_OnError := false |}).
Proof.
  intros HD Hr. unfold invokeDeferred. cbn [dc_Call].
  assert (forall a, a ∈ deferCallArgs e -> evalEnds D a) as Ha.
  { intros a Hin. unfold readyCall in Hr. rewrite Forall_forall in Hr. destruct (Hr a Hin) as (q & v & ->). apply ends_preEval. }
  destruct e; try apply ends_ret; (apply ends_bind; [ | intros; apply ends_ret]); apply ends_shift.
  - by apply ends_evalCall.
  - by apply ends_evalQualifiedCall.
Qed.

(** *** Deferred calls and blocks *)

Lemma ends_deferLoop D d failed derr :
  D0 <= D -> Forall (fun dc => readyCall (dc_Call dc)) d -> ends D (fun m => deferLoop (s m) d failed derr).
Proof.
  intros HD Hd. revert failed derr. induction Hd as [ | dc d Hr _ IH]; intros; simpl; [endss | ].
  destruct (_ && _); [apply IH | ]. apply ends_bind; [ | intros [ ]; apply IH].
  apply ends_attempt. exact (ends_ready D (dc_Call dc) HD Hr).
Qed.

Lemma ends_finishing {A} D (d : nat -> M X A) : D0 <= D -> ends D d -> ends D (fun m => finishing (s m) (d m)).
Proof.
  intros HD Hd. unfold finishing. apply ends_bind; [by apply ends_attempt | ]. intros r. unfold finishFrame.
  apply ends_get. intros w Hw. destruct (headDeferred w) as [ | dc ds]; [apply ends_lift | ].
  apply ends_bind; [ | intros; endss]. unfold runDeferredCalls. apply ends_get. intros w1 Hw1.
  apply ends_bind; [apply ends_setDeferred; constructor | ]. intros []. apply ends_deferLoop; [done | ].
  apply Forall_rev. by apply (headDeferred_ready D).
Qed.

Lemma ends_execBlock D b : D0 <= D -> stmtsEnd (D + 1) (block_Stmts b) -> ends D (fun m => execBlock (s m) b).
Proof.
  intros HD Hs. unfold execBlock. apply ends_withFrame, ends_nested, ends_finishing; [lia | done].
Qed.

Lemma ends_boundBlock D b slot name v t c p :
  D0 <= D -> stmtsEnd D (block_Stmts b) -> ends D (fun m => boundBlock (s m) b slot name v t c p).
Proof.
  intros HD Hs. unfold boundBlock. apply ends_withFrame. apply ends_bind; [apply ends_defineAt | ].
  intros []. by apply ends_finishing.
Qed.

(** *** Expressions *)

Lemma ends_interpParts D parts acc :
  (forall l e, (l, Some e) ∈ parts -> evalEnds D e) -> ends D (fun m => interpParts (s m) parts acc).
Proof.
  revert acc. induction parts as [ | [l [e | ]] parts IH]; intros acc Hp; cbn [interpParts]; [endss | | ].
  - apply ends_bind; [apply (Hp l); left | ]. intros v. apply ends_get. intros w _. apply IH.
    intros l' e' Hin. apply (Hp l'). by right.
  - apply IH. intros l' e' Hin. apply (Hp l'). by right.
Qed.

Lemma ends_mapLitLoop D kvs seen nh out :
  (forall k v, (k, v) ∈ kvs -> evalEnds D k /\ evalEnds D v) -> ends D (fun m => mapLitLoop (s m) kvs seen nh out).
Proof.
  revert seen nh out. induction kvs as [ | [ke ve] kvs IH]; intros seen nh out Hp; cbn [mapLitLoop]; [endss | ].
  destruct (Hp ke ve) as [Hk Hv]; [left | ].
  apply ends_bind; [done | ]. intros key. apply ends_get. intros w _.
  match goal with |- ends _ (fun m => if ?b then _ else _) => destruct b end; [endss | ].
  apply ends_bind; [done | ]. intros v. apply IH. intros. apply Hp. by right.
Qed.

Lemma provided_elem fs name lit : provided fs name = Some lit -> lit ∈ fs.
Proof. unfold provided. intros E%last_Some_elem_of. by apply list_elem_of_filter in E as [_ ?]. Qed.

Lemma ends_litField D d lit t fmt args :
  evalEnds D (snd (fst lit)) -> ends D (fun m => litField (s m) d lit t fmt args).
Proof. intros He. unfold litField. endss. Qed.

Abbreviation fieldsEnd D fs := (forall lit, lit ∈ fs -> evalEnds D (snd (fst lit))).

Lemma ends_evalEnumLit D p ns en name bare fs :
  fieldsEnd D fs -> ends D (fun m => evalEnumLit i (s m) p ns en name bare fs).
Proof.
  intros Hf. unfold evalEnumLit, evalEnumFields, evalEnumField. endss; apply ends_litField, Hf; by eapply provided_elem.
Qed.

Lemma ends_evalStructLit D p ns en name bare fs :
  fieldsEnd D fs -> ends D (fun m => evalStructLit host i (s m) p ns en name bare fs).
Proof.
  intros Hf. unfold evalStructLit, evalStructFields, evalStructField. destruct (_ || _); [by apply ends_evalEnumLit | ].
  endss; apply ends_litField, Hf; by eapply provided_elem.
Qed.

(** *** Statements *)

Lemma ends_evalBool D e ctx : evalEnds D e -> ends D (fun m => evalBool fast (s m) e ctx).
Proof. intros He. unfold evalBool. endss. Qed.

Lemma ends_assignRoot D name depth slot v p :
  ends (X := X) D (fun _ => bind get (fun w =>
    bind (liftMsg (assignRoot (w_handles w) (w_env w) name depth slot v) p) setEnv)).
Proof.
  apply ends_newEnv. intros w env [_ Hc] Ha. unfold assignRoot in Ha. apply (calm_kept (w_env w)); [ | done].
  destruct (0 <=? slot); [by apply AssignAt_kept in Ha | by apply Assign_kept in Ha].
Qed.

Lemma ends_storeRoot D root v p : ends (X := X) D (fun _ => storeRoot root v p).
Proof. destruct root as [[name depth] slot]. apply ends_assignRoot. Qed.

Lemma ends_mutableRoot D t what p : ends (X := X) D (fun _ => mutableRoot t what p).
Proof. unfold mutableRoot, rootBinding. endss. Qed.
#[local] Hint Resolve ends_evalBool ends_storeRoot ends_mutableRoot : ends.

Lemma ends_execAssign D p name v depth slot :
  evalEnds D v -> ends D (fun m => execAssign fast (s m) p name v depth slot).
Proof.
  intros Hv. unfold execAssign. apply ends_get. intros w [_ Hc].
  destruct (if fast then _ else _) as [env | ] eqn:E.
  - destruct fast; [ | done]. apply (fastAssign_inv (w_handles w) _ _ _ _ name) in E as (_ & b & x & _ & _ & Ha).
    apply AssignAt_kept in Ha. apply ends_modify. intros w' [Hd _]. split; [done | by apply (calm_kept (w_env w))].
  - repeat (cbn beta; first [apply ends_assignRoot | ends1]).
Qed.

Lemma ends_elseIfs D arms els :
  (forall c b, (c, b) ∈ arms -> evalEnds D c /\ ends D (fun m => execBlock (s m) b)) ->
  (forall b, els = Some b -> ends D (fun m => execBlock (s m) b)) ->
  ends D (fun m => elseIfs fast (s m) arms els).
Proof.
  intros Ha He. induction arms as [ | [c b] arms IH]; simpl; [destruct els; [by apply He | apply ends_ret] | ].
  destruct (Ha c b) as [Hc Hb]; [left | ]. apply ends_bind; [by apply ends_evalBool | ]. intros [ ]; [done | ].
  apply IH. intros. apply Ha. by right.
Qed.

Lemma ends_afterBody D fl (d : nat -> M X flow) : ends D d -> ends D (fun m => afterBody fl (d m)).
Proof. intros Hd. unfold afterBody. endss. Qed.

Lemma ends_eachLoop D p var body slot t items :
  D0 <= D -> stmtsEnd D (block_Stmts body) -> ends D (fun m => eachLoop host (s m) p var body slot t items).
Proof.
  intros HD Hb. induction items; simpl; [endss | ]. apply ends_bind; [endss | ]. intros [].
  apply ends_bind; [by apply ends_boundBlock | ]. intros fl. by apply ends_afterBody.
Qed.

(** A range whose upper bound is an int64: the loop variable reaches it. *)
Lemma ends_rangeLoop D p var body slot lo hi :
  D0 <= D -> stmtsEnd D (block_Stmts body) -> hi <= maxInt64 ->
  ends D (fun m => r_loop (s m) (LRange p var body slot lo hi)).
Proof.
  intros HD Hb Hhi.
  assert (forall lo, (lo < hi -> ends D (fun m => r_loop (s m) (LRange p var body slot (add64 lo 1) hi))) ->
    ends D (fun m => r_loop (s m) (LRange p var body slot lo hi))) as Hstep.
  { intros l Hl. apply ends_shift. change (ends D (fun m => loopStep host fast (s m) (LRange p var body slot l hi))).
    cbn [loopStep]. destruct (Z.ltb_spec l hi); cbn [negb]; [ | apply ends_ret].
    apply ends_bind; [endss | ]. intros []. apply ends_bind; [by apply ends_boundBlock | ].
    intros fl. apply ends_afterBody. by apply Hl. }
  assert (forall k lo, minInt64 <= lo -> (Z.to_nat (hi - lo) <= k)%nat ->
    ends D (fun m => r_loop (s m) (LRange p var body slot lo hi))) as Hrange.
  { induction k as [ | k IH]; intros l Hmin Hk; apply Hstep; intros Hlt; [lia | ].
    unfold add64. rewrite wrap64_id; [ | unfold int64_range; lia]. apply IH; lia. }
  apply Hstep. intros _. apply (Hrange (Z.to_nat (hi - add64 lo 1))); [ | done]. apply wrap64_range.
Qed.

Lemma ends_armValues D vs subject :
  (forall e, e ∈ vs -> evalEnds D e) -> ends D (fun m => armValues (s m) vs subject).
Proof.
  intros Hv. induction vs as [ | e vs IH]; simpl; [endss | ]. apply ends_bind; [apply Hv; left | ]. intros v.
  destruct (Equal _ _); [endss | ]. apply IH. intros. apply Hv. by right.
Qed.

Lemma ends_runPatternArm D p body bind slot subject :
  D0 <= D -> ends D (fun m => execBlock (s m) body) -> stmtsEnd D (block_Stmts body) ->
  ends D (fun m => runPatternArm (s m) p body bind slot subject).
Proof.
  intros HD Hb Hs. unfold runPatternArm. destruct (bool_decide _); [done | ]. apply ends_withFrame.
  apply ends_bind; [endss | ]. intros []. by apply ends_finishing.
Qed.

Lemma ends_matchArms D arms subject els :
  D0 <= D ->
  (forall p vs b v bd sl, mkArm p vs b v bd sl ∈ arms ->
     (forall e, e ∈ vs -> evalEnds D e) /\ ends D (fun m => execBlock (s m) b) /\ stmtsEnd D (block_Stmts b)) ->
  (forall b, els = Some b -> ends D (fun m => execBlock (s m) b)) ->
  ends D (fun m => matchArms i (s m) arms subject els).
Proof.
  intros HD Ha He. induction arms as [ | [p vs b v bd sl] arms IH]; cbn [matchArms];
    [destruct els; [by apply He | apply ends_ret] | ].
  destruct (Ha p vs b v bd sl) as (Hv & Hb & Hs); [left | ].
  assert (ends D (fun m => matchArms i (s m) arms subject els)) as Hrest by (apply IH; intros; apply (Ha p0 _ _ v0 bd0 sl0); by right).
  repeat match goal with |- ends _ (fun m => match ?x with _ => _ end) => destruct x end;
    try done; try (by apply ends_runPatternArm).
  all: apply ends_bind; [by apply ends_armValues | ]; intros [ ]; done.
Qed.

Section Size.
Variable n : nat.
Hypothesis IHe : forall D e, D0 <= D -> (esize e < n)%nat -> evalEnds D e.
Hypothesis IHs : forall D ss, D0 <= D -> (sssize ss < n)%nat -> forallb loopFree ss = true -> stmtsEnd D ss.

Ltac elems :=
  repeat match goal with
  | Hin : ?x ∈ ?l |- _ =>
      lazymatch goal with
      | _ : context [list_sum (map ?f l)] |- _ => pose proof (list_sum_elem f _ _ Hin)
      end; clear Hin
  end.
Ltac sub := apply IHe; [lia | elems; simpl in *; lia].

Lemma ends_evalExprStep D e :
  D0 <= D -> (esize e <= n)%nat -> ends D (fun m => evalExprStep host i fast (s m) e).
Proof.
  intros HD Hn. destruct e; cbn [evalExprStep]; cbn [esize] in Hn;
    unfold evalVar, evalConstRef, evalUnary, evalBinary, evalLogical, evalCallValue, evalLen,
      evalSpawn, evalQualifiedConst, evalListLit, evalMapLit, evalIndex, evalRange, rangeBounds, evalSlice, optEval, evalFieldAccess.
  all: try (solve [endss; sub]).
  all: try (solve [endss]).
  - apply ends_bind; [ | intros; endss]. apply ends_interpParts. intros l e Hin. sub.
  - apply ends_bind; [ | intros; endss]. apply ends_mapLitLoop. intros k v Hin. split; sub.
  - apply ends_evalStructLit. intros [[f e] q] Hin. sub.
  - apply ends_evalCall; [done | ]. intros a Hin. sub.
  - assert (forall a, a ∈ Args -> evalEnds D a) as Ha by (intros a Hin; sub).
    apply ends_bind; [sub | ]. intros fv.
    endss; first [by apply Ha | eapply ends_callUserMethod; eauto].
  - apply ends_evalQualifiedCall. intros a Hin. sub.
Qed.

Lemma ends_stmtsIn D b : D0 <= D -> (bsize b <= n)%nat -> loopFreeB b = true -> stmtsEnd D (block_Stmts b).
Proof. destruct b. intros HD Hn Hl. apply IHs; [done | | done]. simpl in *. unfold sssize. lia. Qed.

Lemma ends_block D b : D0 <= D -> (bsize b <= n)%nat -> loopFreeB b = true -> ends D (fun m => execBlock (s m) b).
Proof. intros HD Hn Hl. apply ends_execBlock; [done | ]. apply ends_stmtsIn; [lia | done | done]. Qed.

Lemma ends_collect D e p acc :
  D0 <= D -> (esize e < n)%nat -> ends D (fun m => collectLvalueSteps (s m) e p acc).
Proof.
  intros HD. revert e acc. fix IH 1. intros e acc Hn. destruct e; cbn [collectLvalueSteps]; try (apply ends_lift).
  - apply ends_bind; [sub | ]. intros v. apply IH. simpl in Hn. lia.
  - apply IH. simpl in Hn. lia.
  - apply ends_ret.
Qed.

Lemma ends_execDefer D call onError :
  D0 <= D -> (esize call < n)%nat -> ends D (fun m => execDefer (s m) call onError).
Proof.
  intros HD Hn. unfold execDefer. apply ends_bind.
  { apply ends_mapM. intros k a Hin. apply ends_bind; [ | intros; endss].
    apply IHe; [done | ]. destruct call; simpl in *; try (by apply elem_of_nil in Hin);
      pose proof (list_sum_elem esize _ _ Hin); lia. }
  intros vs. apply ends_get. intros w Hw. apply ends_setDeferred. apply Forall_app.
  split; [by apply (headDeferred_ready D) | ]. constructor; [ | done]. unfold readyCall. cbn [dc_Call].
  assert (Forall (fun a => exists p v, a = PreEval p v) (map (PreEval (posFor call)) vs)) as Hm
    by (apply Forall_map, Forall_forall; eauto).
  destruct call; simpl; try done.
Qed.

Lemma ends_execForEach D p var coll b slot :
  D0 <= D -> (esize coll < n)%nat -> (bsize b <= n)%nat ->
  loopFree (ForEachStmt p var coll b slot) = true ->
  ends D (fun m => execForEach host (s m) p var coll b slot).
Proof.
  intros HD Hc Hb Hl. apply andb_prop in Hl as [Hr Hl]. unfold execForEach.
  assert (stmtsEnd D (block_Stmts b)) as Hs by by apply ends_stmtsIn.
  assert (forall c, ends D (fun m => match c, Copy c with
      | VList _ et, VList snap _ => eachLoop host (s m) p var b slot (default TypeInvalid et) snap
      | VMap _ kt _ _, VMap snap _ _ _ => eachLoop host (s m) p var b slot (default TypeInvalid kt) (map fst snap)
      | _, _ => rt p "for-each requires a list or map, got %s" [kindArg c]
      end)) as Heach.
  { intros c. destruct c; try apply ends_lift; destruct (Copy _); try apply ends_lift; by apply ends_eachLoop. }
  destruct coll; try (apply ends_bind; [by apply IHe | apply Heach]).
  destruct coll2; try done. unfold rangeBounds.
  apply (ends_bindQ D (fun lh => snd lh <= maxInt64)); [ | intros [l h] Hh; by apply ends_rangeLoop].
  apply (ends_bindQ D (fun _ => True)); [sub | ]. intros lv _.
  apply (ends_bindQ D (fun v => v = VInt Value_)); [apply ends_shift; by apply (ends_const D _ (ret (VInt Value_))) | ].
  intros hv ->. apply ends_const. intros w Hw. unfold checkRange.
  destruct lv; try done. destruct (_ <? _); [done | ]. split; [done | ]. simpl. lia.
Qed.

Lemma ends_execStmt D st :
  D0 <= D -> (ssize st <= n)%nat -> loopFree st = true -> ends D (fun m => execStmt host i fast (s m) st).
Proof.
  intros HD Hn Hl. destruct st; cbn [execStmt]; cbn [ssize] in Hn; try done.
  - destruct InitExpr; simpl in Hn; unfold execDefine; endss; sub.
  - apply ends_bind; [ | intros; endss]. apply ends_execAssign. sub.
  - unfold execPathAssign, rootBinding. endss; first [sub | apply ends_collect; [done | lia]].
  - unfold execAppend, rootBinding. endss; first [sub | apply ends_collect; [done | lia]].
  - unfold execPathAssign, rootBinding. endss; first [sub | apply ends_collect; [done | lia]].
  - cbn [loopFree] in Hl. apply andb_prop in Hl as [Hl Hels]. apply andb_prop in Hl as [Hb Harms].
    unfold execIf. apply ends_bind; [apply ends_evalBool; sub | ]. intros [ ]; [apply ends_block; [done | lia | done] | ].
    rewrite forallb_forall in Harms. apply ends_elseIfs.
    + intros c b Hin. pose proof (list_sum_elem (fun '(c, b) => (esize c + bsize b)%nat) _ _ Hin) as Hs. simpl in Hs.
      split; [apply IHe; lia | ]. apply ends_block; [done | lia | ]. apply (Harms (c, b)). by apply list_elem_of_In.
    + intros b ->. apply ends_block; [done | lia | done].
  - cbn [loopFree] in Hl. apply andb_prop in Hl as [Harms Hels]. rewrite forallb_forall in Harms.
    unfold execMatch. apply ends_bind; [sub | ]. intros v. apply ends_matchArms; [done | | ].
    + intros q vs b vr bd sl Hin. pose proof (list_sum_elem asize _ _ Hin) as Hs. simpl in Hs.
      apply list_elem_of_In in Hin. apply Harms in Hin. cbn [loopFreeA] in Hin.
      split; [intros e He; pose proof (list_sum_elem esize _ _ He); apply IHe; lia | ].
      split; [apply ends_block | apply ends_stmtsIn]; try done; lia.
    + intros b ->. apply ends_block; [done | lia | done].
  - apply ends_execForEach; [done | lia | lia | done].
  - destruct Value_; simpl in Hn; endss; sub.
  - endss.
  - endss.
  - unfold execExit. destruct Code; simpl in Hn; endss; sub.
  - cbn [loopFree] in Hl. apply andb_prop in Hl as [Hb Hcb]. unfold execTry. apply ends_bind.
    + apply ends_attempt, ends_withFrame, ends_finishing; [done | ]. apply ends_stmtsIn; [done | lia | done].
    + intros [f | e]; [endss | ]. destruct (caughtValue e); [ | endss].
      apply ends_boundBlock; [done | ]. apply ends_stmtsIn; [done | lia | done].
  - unfold execThrow. endss; sub.
  - apply ends_bind; [ | intros; endss]. by apply ends_execDefer.
  - endss; sub.
Qed.

Lemma ends_stmtsStep D ss :
  D0 <= D -> (sssize ss <= n)%nat -> forallb loopFree ss = true ->
  ends D (fun m => stmtsStep host i fast (s m) ss).
Proof.
  intros HD. unfold sssize. induction ss as [ | st ss IH]; simpl; intros Hn Hl; [endss | ].
  apply andb_prop in Hl as [H1' H2']. apply ends_bind; [apply ends_execStmt; [done | lia | done] | ].
  intros fl. destruct (flowsOut fl); [endss | ]. apply IH; [lia | done].
Qed.
End Size.

(** Expressions and loop-free statements end at depth [D0] and below. *)
Lemma ends_all n :
  (forall D e, D0 <= D -> (esize e <= n)%nat -> evalEnds D e) /\
  (forall D ss, D0 <= D -> (sssize ss <= n)%nat -> forallb loopFree ss = true -> stmtsEnd D ss).
Proof.
  induction n as [n IH] using lt_wf_ind. 
  assert (forall D e, D0 <= D -> (esize e < n)%nat -> evalEnds D e) as IHe.
  { intros D e HD Hn. by apply (proj1 (IH (esize e) Hn)). }
  assert (forall D ss, D0 <= D -> (sssize ss < n)%nat -> forallb loopFree ss = true -> stmtsEnd D ss) as IHs.
  { intros D ss HD Hn Hl. by apply (proj2 (IH (sssize ss) Hn)). }
  split; intros D x HD Hn; [ | intros Hl]; apply ends_shift; [by apply ends_evalExprStep with n | by apply ends_stmtsStep with n].
Qed.
End Depth.

Hypothesis Hmethods : forall name md, i_methods i !! name = Some md -> loopFreeB (method_Body md) = true.

(** Method bodies end, by induction on the calls the budget still allows. *)
Lemma ends_body k D name md :
  MaxCallDepth - D <= Z.of_nat k -> D < MaxCallDepth -> i_methods i !! name = Some md ->
  ends (D + 1) (fun m => execBlock (s m) (method_Body md)).
Proof.
  revert D name md. induction k as [ | k IH]; intros D name md Hk HD Hmd; [lia | ].
  assert (forall D' name md, D + 1 <= D' < MaxCallDepth -> i_methods i !! name = Some md ->
    ends (D' + 1) (fun m => execBlock (s m) (method_Body md))) as Hbody.
  { intros D' name' md' HD' Hmd'. apply (IH D' name'); [lia | lia | done]. }
  apply (ends_execBlock (D + 1)); [done | lia | ].
  apply (proj2 (ends_all (D + 1) Hbody (sssize (block_Stmts (method_Body md))))); [lia | done | ].
  apply Hmethods in Hmd. by destruct (method_Body md).
Qed.

Lemma ends_run D :
  (forall e, evalEnds D e) /\ (forall ss, forallb loopFree ss = true -> stmtsEnd D ss).
Proof.
  assert (forall D' name md, D <= D' < MaxCallDepth -> i_methods i !! name = Some md ->
    ends (D' + 1) (fun m => execBlock (s m) (method_Body md))) as Hbody.
  { intros D' name md HD' Hmd. apply (ends_body (Z.to_nat (MaxCallDepth - D')) D' name); [lia | lia | done]. }
  split; [intros e | intros ss Hl].
  - by apply (proj1 (ends_all D Hbody (esize e))).
  - by apply (proj2 (ends_all D Hbody (sssize ss))).
Qed.

(** C2: without [while], [for] and [repeat], every evaluation ends.  If no method body
    contains one of these loops, then for every expression, and every statement list
    without them, some amount of fuel, and every larger one, gives a value, a control-flow
    result or an error: recursion of any shape runs into the call-depth budget, deferred
    calls run once each, for-each loops walk a snapshot or a range with a literal bound.
    The host's own requests are assumed to end, and the deferred calls of the frames at
    the start to have their arguments evaluated. *)
Theorem loop_free_evaluation_ends (e : Expr) (ss : list Stmt) (w : World X) :
  calm (w_env w) -> forallb loopFree ss = true ->
  exists N, forall m, (N <= m)%nat -> r_eval (run host i fast m) e w <> NoFuel /\
                                      r_stmts (run host i fast m) ss w <> NoFuel.
Proof.
  intros Hc Hl. destruct (ends_run (depthN (w_chain w))) as [He Hs].
  destruct (He e w) as (N1 & o1 & H1' & Ho1); [done | ].
  destruct (Hs ss Hl w) as (N2 & o2 & H2' & Ho2); [done | ].
  exists (Nat.max N1 N2). intros m Hm. rewrite H1', H2' by lia. split; by intros ->.
Qed.
End Construct.

(** ** A runaway recursion *)

Lemma bareHost_ends : HostEnds bareHost.
Proof. split; intros; intros D w Hw; done. Qed.

Definition runaway : MethodDef :=
  {| method_pos := p0; method_Name := "loop"; method_Params := [];
     method_Body := mkBlock p0 [DeferStmt p0 (CallExpr p0 "loop" [] None 0 []) true;
                                ReturnStmt p0 (Some (CallExpr p0 "loop" [] None 0 []))] 0;
     method_Exported := false; method_GlobalSafe := false; method_ReentryFree := false;
     method_ReturnsOwned := false |}.

(** A method that calls itself, and once more when that fails: it makes exponentially
    many calls in the depth budget, and ends. *)
Lemma loop_free_evaluation_ends_witness :
  exists N, forall m, (N <= m)%nat ->
    r_eval (@run identityNative plainText limits_tiny unit bareHost (bareInterp {["loop" := runaway]}) true m)
      (CallExpr p0 "loop" [] None 0 []) (bareWorld 0) <> NoFuel.
Proof.
  destruct (@loop_free_evaluation_ends identityNative plainText limits_tiny unit bareHost
    (bareInterp {["loop" := runaway]}) true bareHost_ends) with
    (e := CallExpr p0 "loop" [] None 0 []) (ss := @nil Stmt) (w := bareWorld 0) as [N HN].
  - intros name md Hmd. cbn [i_methods bareInterp] in Hmd. apply lookup_singleton_Some in Hmd as [_ <-]. reflexivity.
  - repeat constructor.
  - reflexivity.
  - exists N. intros m Hm. apply (HN m Hm).
Defined.
