(* ===== verification/LoadFacts.v ===== *)
(** * Zero values exist

    The depth-first search orders the nodes it accepts and rejects only real cycles; with it, a
    program whose types pass both checks has a zero value (or a positioned error) for every type,
    and a rejected one has a type without. *)

From Stdlib Require Import Relations Sorted Permutation Ascii.
From S2P Require Import Prelude GoInt GoSort Types Value Ast Ops Display Defs Store Interp Load.
Open Scope string_scope.
Open Scope list_scope.
Open Scope Z_scope.
Open Scope go_scope.

(** ** Depth-first search *)

Section Search.
Context {N F E : Type} `{Countable N}.
Variable edges : N -> list (F * N).
Variable cycle : N -> F -> N -> E.

Definition deps (n : N) : list N := map snd (edges n).
Definition edge (a b : N) : Prop := b ∈ deps a.

(** A list in which every node comes before the nodes it needs. *)
Fixpoint topo (l : list N) : Prop :=
  match l with [] => True | n :: l => (forall d, d ∈ deps n -> d ∈ l) /\ topo l end.

(** The stack of gray nodes: each is a dependency of the next. *)
Fixpoint stack (s : list N) : Prop :=
  match s with
  | n :: ((m :: _) as s') => edge m n /\ stack s'
  | _ => True
  end.

(** Gray are the nodes of the stack, black those of the order. *)
Definition painted (s l : list N) (color : gmap N Color) : Prop :=
  NoDup s /\ stack s /\ topo l /\ forall n, (color !! n = Some Gray <-> n ∈ s) /\ (color !! n = Some Black <-> n ∈ l).

(** A node on a cycle. *)
Definition cyclic : Prop := exists n, clos_trans N edge n n.

Lemma stack_reach s n d : stack (n :: s) -> d ∈ n :: s -> d = n \/ clos_trans N edge d n.
Proof.
  revert n. induction s as [ | m s IH]; intros n Hs Hd.
  - apply list_elem_of_singleton in Hd. by left.
  - destruct Hs as [He Hs]. apply elem_of_cons in Hd as [-> | Hd]; [by left | right].
    destruct (IH m Hs Hd) as [-> | Hr]; [by apply t_step | eapply t_trans; [exact Hr | by apply t_step]].
Qed.

Lemma painted_gray n s l color : painted s l color -> color !! n = None -> stack (n :: s) -> painted (n :: s) l (<[n := Gray]> color).
Proof.
  intros (Hnd & _ & Ht & Hc) Hn Hs. split_and!; [constructor; [ | done] | done | done | ].
  - intros Hin. apply Hc in Hin. congruence.
  - intros m. destruct (decide (n = m)) as [<- | Hne].
    + rewrite lookup_insert_eq. split; split; try done.
      * intros _. by left.
      * intros Hl. apply Hc in Hl. congruence.
    + rewrite lookup_insert_ne by done. rewrite elem_of_cons. destruct (Hc m) as [-> ->]. split; [ | done]. intuition congruence.
Qed.

Lemma painted_black n s l color : painted (n :: s) l color -> (forall d, d ∈ deps n -> d ∈ l) -> painted s (n :: l) (<[n := Black]> color).
Proof.
  intros (Hnd & Hs & Ht & Hc) Hd. inv Hnd. split_and!; [done | by destruct s as [ | ? ?]; [ | destruct Hs] | done | ].
  intros m. destruct (decide (n = m)) as [<- | Hne].
  - rewrite lookup_insert_eq. split; split; try done. intros _. by left.
  - rewrite lookup_insert_ne by done. rewrite elem_of_cons. destruct (Hc m) as [-> ->]. rewrite elem_of_cons. intuition congruence.
Qed.

Lemma painted_empty : painted [] [] ∅.
Proof. split_and!; [constructor | done | done | ]. intros n. rewrite lookup_empty, elem_of_nil. done. Qed.
(** The nodes a search can reach. *)
Variable nodes : gset N.
Hypothesis closed : forall n d, n ∈ nodes -> d ∈ deps n -> d ∈ nodes.

(** What a call leaves behind. *)
Definition visited (s l : list N) (goal : list N) (r : result E (gmap N Color)) : Prop :=
  match r with
  | Ok color => exists l', l ⊆ l' /\ goal ⊆ l' /\ painted s l' color
  | Err e => cyclic /\ exists n f d, e = cycle n f d /\ (f, d) ∈ edges n
  end.

Lemma visitDeps_spec (rec : gmap N Color -> N -> option (result E (gmap N Color))) n s :
  n ∈ nodes ->
  (forall color d l, d ∈ deps n -> painted (n :: s) l color -> color !! d = None ->
    exists r, rec color d = Some r /\ visited (n :: s) l [d] r) ->
  forall es, es ⊆ edges n -> forall color l, painted (n :: s) l color ->
  exists r, visitDeps cycle rec n es color = Some r /\ visited (n :: s) l (map snd es) r.
Proof.
  intros Hn Hrec. induction es as [ | [f d] es IH]; intros Hsub color l Hp; cbn [visitDeps map].
  { eexists. split; [done | ]. exists l. split_and!; try done. set_solver. }
  assert (Hfd : (f, d) ∈ edges n) by set_solver. assert (Hd : d ∈ deps n) by (unfold deps; apply list_elem_of_fmap; by exists (f, d)).
  assert (Hes : es ⊆ edges n) by set_solver.
  destruct (color !! d) as [[ | ] | ] eqn:Ec.
  - eexists. split; [done | ]. split; [ | by exists n, f, d]. destruct Hp as (_ & Hs & _ & Hc). apply Hc in Ec.
    destruct (stack_reach s n d Hs Ec) as [-> | Hr]; [exists n; by apply t_step | ]. exists n. eapply t_trans; [by apply t_step | exact Hr].
  - destruct (IH Hes color l Hp) as (r & -> & Hv). exists r. split; [done | ]. destruct r; [ | done].
    destruct Hv as (l' & H1 & H2 & H3). exists l'. split_and!; [done | | done]. cbn [snd]. apply Hp in Ec. set_solver.
  - destruct (Hrec color d l Hd Hp Ec) as (r & -> & Hv). destruct r as [color1 | e]; [ | by eexists].
    destruct Hv as (l1 & H1 & H2 & H3). destruct (IH Hes color1 l1 H3) as (r & -> & Hv). exists r. split; [done | ]. destruct r; [ | done].
    destruct Hv as (l2 & H4 & H5 & H6). exists l2. split_and!; [set_solver | cbn [snd]; set_solver | done].
Qed.

Lemma visit_spec fuel : forall n s l color,
  n ∈ nodes -> (forall m, m ∈ s -> m ∈ nodes) -> painted s l color -> color !! n = None -> stack (n :: s) ->
  (size nodes < fuel + length s)%nat ->
  exists r, visit edges cycle fuel color n = Some r /\ visited s l [n] r.
Proof.
  induction fuel as [ | fuel IH]; intros n s l color Hn Hs Hp Hc Hst Hf.
  { exfalso. destruct Hp as (Hnd & _). assert (length s <= size nodes)%nat; [ | lia].
    rewrite <- (size_list_to_set (C := gset N) s Hnd). apply subseteq_size. intros m Hm. apply Hs. by apply elem_of_list_to_set in Hm. }
  cbn [visit]. pose proof (painted_gray n s l color Hp Hc Hst) as Hp1.
  destruct (visitDeps_spec (visit edges cycle fuel) n s Hn) with (es := edges n) (color := <[n := Gray]> color) (l := l) as (r & -> & Hv).
  - intros color1 d l1 Hd Hp2 Hc2. apply IH; [by eapply closed | | done | done | done | simpl; lia].
    intros m Hm. apply elem_of_cons in Hm as [-> | Hm]; [done | by apply Hs].
  - done.
  - done.
  - destruct r as [color1 | e]; [ | by eexists]. destruct Hv as (l1 & H1 & H2 & H3). eexists. split; [done | ].
    exists (n :: l1). split_and!; [set_solver | set_solver | ]. apply painted_black; [done | ]. intros d Hd. by apply H2.
Qed.

Lemma visitAll_spec fuel roots : (size nodes < fuel)%nat -> (forall n, n ∈ roots -> n ∈ nodes) -> forall l color, painted [] l color ->
  exists r, visitAll edges cycle fuel roots color = Some r /\ visited [] l roots r.
Proof.
  intros Hf. induction roots as [ | n roots IH]; intros Hr l color Hp; cbn [visitAll].
  { eexists. split; [done | ]. exists l. split_and!; try done. set_solver. }
  assert (Hn : n ∈ nodes) by (apply Hr; by left). assert (Hr' : forall m, m ∈ roots -> m ∈ nodes) by (intros; apply Hr; by right).
  destruct (color !! n) as [c | ] eqn:Ec.
  - destruct (IH Hr' l color Hp) as (r & -> & Hv). exists r. split; [done | ]. destruct r; [ | done].
    destruct Hv as (l' & H1 & H2 & H3). exists l'. split_and!; [done | | done]. destruct Hp as (_ & _ & _ & Hc).
    destruct c; [apply Hc in Ec; by apply not_elem_of_nil in Ec | ]. apply Hc in Ec. set_solver.
  - destruct (visit_spec fuel n [] l color) as (r & -> & Hv); try done; [set_solver | simpl; lia | ].
    destruct r as [color1 | e]; [ | by eexists]. destruct Hv as (l1 & H1 & H2 & H3).
    destruct (IH Hr' l1 color1 H3) as (r & -> & Hv). exists r. split; [done | ]. destruct r; [ | done].
    destruct Hv as (l2 & H4 & H5 & H6). exists l2. split_and!; [set_solver | set_solver | done].
Qed.

End Search.

(** ** The two checks *)

Lemma elem_of_sortedKeys {A} (m : gmap string A) k : k ∈ sortedKeys m <-> is_Some (m !! k).
Proof.
  unfold sortedKeys. rewrite sliceStable_perm. rewrite list_elem_of_fmap. split.
  - intros ([k' x] & -> & Hx). apply elem_of_map_to_list in Hx. eauto.
  - intros [x Hx]. exists (k, x). split; [done | ]. by apply elem_of_map_to_list.
Qed.

Lemma structEdges_spec i name f n : (f, n) ∈ structEdges i name <->
  exists d, structs i !! name = Some d /\ f ∈ struct_Fields d /\ localName (field_Type f) = Some n /\ is_Some (structs i !! n).
Proof.
  unfold structEdges. destruct (structs i !! name) as [d | ]; [ | split; [set_solver | by intros (? & ? & _)]].
  rewrite list_elem_of_omap. split.
  - intros (f' & Hf & E). destruct (localName (field_Type f')) as [n' | ] eqn:El; [ | done]. case_bool_decide; [ | done].
    injection E as -> ->. eauto 10.
  - intros (d' & [= <-] & Hf & El & Hn). exists f. split; [done | ]. rewrite El. by rewrite bool_decide_true.
Qed.

Lemma checkStructCycles_spec i : exists r, checkStructCycles i = Some r /\
  match r with
  | Ok _ => exists l, topo (structEdges i) l /\ forall n, is_Some (structs i !! n) -> n ∈ l
  | Err e => cyclic (structEdges i) /\ exists n f d, e = structCycle n f d /\ (f, d) ∈ structEdges i n
  end.
Proof.
  unfold checkStructCycles.
  destruct (visitAll_spec (structEdges i) structCycle (dom (structs i))) with (fuel := S (size (structs i))) (roots := sortedKeys (structs i))
    (l := @nil string) (color := (∅ : gmap string Color)) as (r & E & Hv).
  - intros n d _ Hd. unfold deps in Hd. apply list_elem_of_fmap in Hd as ([f d'] & -> & Hd). apply structEdges_spec in Hd as (? & _ & _ & _ & ?).
    by apply elem_of_dom.
  - rewrite size_dom. lia.
  - intros n Hn%elem_of_sortedKeys. by apply elem_of_dom.
  - apply painted_empty.
  - exists r. split; [done | ]. destruct r; [ | done]. destruct Hv as (l & _ & Hr & _ & _ & Ht & _). exists l. split; [done | ].
    intros n Hn. by apply Hr, elem_of_sortedKeys.
Qed.

(** The keys of the local types. *)
Definition keys (i : Tables) : list Key := map keyE (map fst (map_to_list (enums i))) ++ map keyS (map fst (map_to_list (structs i))).

Lemma elem_of_keys i (k : Key) : k ∈ keys i <-> if fst k then is_Some (enums i !! snd k) else is_Some (structs i !! snd k).
Proof.
  assert (Hm : forall {A} (m : gmap string A) n, n ∈ map fst (map_to_list m) <-> is_Some (m !! n)).
  { intros A m n. rewrite list_elem_of_fmap. split.
    - intros ([n' x] & -> & Hx). apply elem_of_map_to_list in Hx. eauto.
    - intros [x Hx]. exists (n, x). split; [done | ]. by apply elem_of_map_to_list. }
  destruct k as [b n]. unfold keys. rewrite elem_of_app, !list_elem_of_fmap. unfold keyE, keyS. cbn [fst snd]. split.
  - intros [(n' & [= -> ->] & H) | (n' & [= -> ->] & H)]; by apply Hm.
  - intros H. destruct b; [left | right]; exists n; (split; [done | ]); by apply Hm.
Qed.

Lemma NoDup_keys i : NoDup (keys i).
Proof.
  unfold keys. apply NoDup_app. split_and!.
  - apply NoDup_fmap_2; [intros ? ? [= ->]; done | apply NoDup_fst_map_to_list].
  - intros k Hk1 Hk2. apply list_elem_of_fmap in Hk1 as (? & -> & _). apply list_elem_of_fmap in Hk2 as (? & [=] & _).
  - apply NoDup_fmap_2; [intros ? ? [= ->]; done | apply NoDup_fst_map_to_list].
Qed.

Lemma size_keys i : size (list_to_set (keys i) : gset Key) = (size (structs i) + size (enums i))%nat.
Proof.
  rewrite size_list_to_set by apply NoDup_keys. unfold keys. rewrite length_app, !length_map, !length_map_to_list. lia.
Qed.

Lemma zeroEdges_spec i k d : (tt, d) ∈ zeroEdges i k <-> exists f, f ∈ zeroFields i k /\ localNamedDep i (field_Type f) = Some d.
Proof.
  unfold zeroEdges. rewrite list_elem_of_omap. split.
  - intros (f & Hf & E). destruct (localNamedDep i (field_Type f)) as [d' | ] eqn:El; [ | done]. injection E as ->. eauto.
  - intros (f & Hf & El). exists f. by rewrite El.
Qed.

Lemma localNamedDep_keys i t d : localNamedDep i t = Some d -> d ∈ keys i.
Proof.
  unfold localNamedDep. destruct (localName t); [ | done]. case_bool_decide; [intros [= <-]; by apply elem_of_keys | ].
  case_bool_decide; [intros [= <-]; by apply elem_of_keys | done].
Qed.

Lemma zeroEdges_closed i (n d : Key) : n ∈ (list_to_set (keys i) : gset Key) -> d ∈ deps (zeroEdges i) n -> d ∈ (list_to_set (keys i) : gset Key).
Proof.
  intros _ Hd. unfold deps in Hd. apply list_elem_of_fmap in Hd as ([[] d'] & -> & Hd). apply zeroEdges_spec in Hd as (f & _ & Hd).
  apply localNamedDep_keys in Hd. by apply elem_of_list_to_set.
Qed.

Lemma checkEnums_spec i names : (forall n, n ∈ names -> is_Some (enums i !! n)) -> forall l color, painted (zeroEdges i) [] l color ->
  exists r, checkEnums i names color = Some r /\
  match r with
  | Ok color' => exists l', l ⊆ l' /\ (forall n, n ∈ names -> keyE n ∈ l') /\ painted (zeroEdges i) [] l' color'
  | Err _ => cyclic (zeroEdges i)
  end.
Proof.
  induction names as [ | n names IH]; intros Hn l color Hp; cbn [checkEnums].
  { eexists. split; [done | ]. exists l. split_and!; try done. set_solver. }
  assert (Hn' : forall m, m ∈ names -> is_Some (enums i !! m)) by (intros; apply Hn; by right).
  destruct (color !! keyE n) as [c | ] eqn:Ec.
  - destruct (IH Hn' l color Hp) as (r & -> & Hv). exists r. split; [done | ]. destruct r; [ | done].
    destruct Hv as (l' & H1 & H2 & H3). exists l'. split_and!; [done | | done]. destruct Hp as (_ & _ & _ & Hc).
    assert (keyE n ∈ l) by (destruct c; apply Hc in Ec; [by apply not_elem_of_nil in Ec | done]).
    intros m Hm. apply elem_of_cons in Hm as [-> | Hm]; [by apply H1 | by apply H2].
  - destruct (visit_spec (zeroEdges i) (enumCycle i n) (list_to_set (keys i)) (zeroEdges_closed i)) with (fuel := S (size (structs i) + size (enums i)))
      (n := keyE n) (s := @nil Key) (l := l) (color := color) as (r & -> & Hv); try done.
    + apply elem_of_list_to_set, elem_of_keys. apply Hn. by left.
    + set_solver.
    + rewrite size_keys. simpl. lia.
    + destruct r as [color1 | e]; [ | eexists; split; [done | apply Hv]]. destruct Hv as (l1 & H1 & H2 & H3).
      destruct (IH Hn' l1 color1 H3) as (r & -> & Hv). exists r. split; [done | ]. destruct r; [ | done].
      destruct Hv as (l2 & H4 & H5 & H6). exists l2. split_and!; [set_solver | | done].
      intros m Hm. apply elem_of_cons in Hm as [-> | Hm]; [apply H4, H2; by left | by apply H5].
Qed.

Lemma checkEnumZeroCycles_spec i : exists r, checkEnumZeroCycles i = Some r /\
  match r with
  | Ok _ => exists l, topo (zeroEdges i) l /\ forall n, is_Some (enums i !! n) -> keyE n ∈ l
  | Err _ => cyclic (zeroEdges i)
  end.
Proof.
  unfold checkEnumZeroCycles. destruct (checkEnums_spec i (sortedKeys (enums i))) with (l := @nil Key) (color := (∅ : gmap Key Color)) as (r & -> & Hv).
  - intros n Hn. by apply elem_of_sortedKeys.
  - apply painted_empty.
  - exists r. split; [done | ]. destruct r; [ | done]. destruct Hv as (l & _ & Hr & _ & _ & Ht & _). exists l. split; [done | ].
    intros n Hn. by apply Hr, elem_of_sortedKeys.
Qed.

(** ** Zero values *)

Section ZeroFacts.
Variable interpOf : string -> Interpreter.
Variable isObjectType : string -> string -> bool.
Variable zeroObject : string -> string -> Value.
Variable p : position.

Abbreviation zero := (zeroFor interpOf isObjectType zeroObject p).

(** The namespace [zeroPayload] looks a struct up under. *)
Definition fieldNS (i : Interpreter) (ns : string) : string :=
  if bool_decide (ns <> "") then match resolveNamespacePrefix i ns with Ok c => c | Err _ => ns end else ns.

(** The zero value of one field. *)
Definition zeroField (rec : Interpreter -> bool -> string -> string -> string -> option (res Value)) (i : Interpreter) (t : Typ)
    : option (res Value) :=
  match t with
  | TypeStruct ns mp name => if isEnumType i ns name mp then rec i true ns name mp else rec i false (fieldNS i ns) name mp
  | t => Some (Ok (stampValue (ZeroFor t) t))
  end.

Lemma zeroPayload_cons rec i f fs : zeroPayload rec i (f :: fs) =
  match zeroField rec i (field_Type f) with
  | Some (Ok v) => match zeroPayload rec i fs with Some (Ok vs) => Some (Ok ((field_Name f, v) :: vs)) | r => r end
  | Some (Err e) => Some (Err e)
  | None => None
  end.
Proof. cbn [zeroPayload]. unfold zeroField, fieldNS. by destruct (field_Type f). Qed.

(** *** More fuel *)

Definition below (f g : Interpreter -> bool -> string -> string -> string -> option (res Value)) : Prop :=
  forall i e ns name mp r, f i e ns name mp = Some r -> g i e ns name mp = Some r.

Lemma zeroField_below f g i t r : below f g -> zeroField f i t = Some r -> zeroField g i t = Some r.
Proof. intros Hfg. destruct t; try done. cbn. destruct (isEnumType _ _ _ _); apply Hfg. Qed.

Lemma payload_below f g i fs r : below f g -> zeroPayload f i fs = Some r -> zeroPayload g i fs = Some r.
Proof.
  intros Hfg. revert r. induction fs as [ | fd fs IH]; intros r; [done | ]. rewrite !zeroPayload_cons.
  destruct (zeroField f i (field_Type fd)) as [r' | ] eqn:E; [ | done]. rewrite (zeroField_below _ _ _ _ _ Hfg E).
  destruct r'; [ | done]. destruct (zeroPayload f i fs) as [r' | ]; [ | done]. by rewrite (IH r' eq_refl).
Qed.

Lemma zmap_some {A B} (f : A -> B) (x y : option (res A)) r : (forall r', x = Some r' -> y = Some r') -> zmap f x = Some r -> zmap f y = Some r.
Proof. destruct x as [r' | ]; [ | done]. intros H. by rewrite (H r' eq_refl). Qed.

Lemma zero_step n : below (zero n) (zero (S n)).
Proof.
  induction n as [ | n IH]; intros i e ns name mp r; [done | ].
  change (zero (S n) i e ns name mp) with (if e then zeroEnumFor interpOf p (zero n) i ns name mp
    else zeroStructFor interpOf isObjectType zeroObject p (zero n) i ns name mp).
  change (zero (S (S n)) i e ns name mp) with (if e then zeroEnumFor interpOf p (zero (S n)) i ns name mp
    else zeroStructFor interpOf isObjectType zeroObject p (zero (S n)) i ns name mp).
  destruct e; unfold zeroEnumFor, zeroStructFor;
    repeat match goal with
    | |- (if ?b then _ else _) = _ -> _ => destruct b
    | |- (match ?x with Some _ => _ | None => _ end) = _ -> _ => destruct x eqn:?
    | |- (match ?x with [] => _ | _ :: _ => _ end) = _ -> _ => destruct x
    end; try done; apply zmap_some; intros r'; first [apply IH | by apply payload_below].
Qed.

Lemma zero_mono n m : (n <= m)%nat -> below (zero n) (zero m).
Proof. induction 1; [by intros ? | ]. intros ? ? ? ? ? ? Hz. apply zero_step. by apply IHle. Qed.

(** *** Every type has a result

    [K] stands for what makes the result a value and not an error. *)
Variable K : Prop.

Definition good {A} (x : nat -> option (res A)) : Prop := exists n r, x n = Some r /\ (K -> exists v, r = Ok v).
Definition ends (i : Interpreter) (e : bool) (ns name mp : string) : Prop := good (fun n => zero n i e ns name mp).
Definition fieldEnds (i : Interpreter) (t : Typ) : Prop := good (fun n => zeroField (zero n) i t).
Definition payloadEnds (i : Interpreter) (fs : list StructFieldDecl) : Prop := good (fun n => zeroPayload (zero n) i fs).

Lemma payload_ends i fs : Forall (fun f => fieldEnds i (field_Type f)) fs -> payloadEnds i fs.
Proof.
  induction 1 as [ | f fs (n & r & Ef & Hr) Hfs (m & r' & E & Hr')]; [by exists 0%nat, (Ok []); eauto | ].
  exists (n + m)%nat. rewrite zeroPayload_cons.
  rewrite (zeroField_below (zero n) (zero (n + m)) i _ r); [ | apply zero_mono; lia | done].
  rewrite (payload_below (zero m) (zero (n + m)) i _ r'); [ | apply zero_mono; lia | done].
  destruct r as [v | e].
  - destruct r' as [vs | e]; eexists; (split; [done | ]); [eauto | intros HK; by destruct (Hr' HK)].
  - eexists. split; [done | ]. intros HK. by destruct (Hr HK).
Qed.

Lemma good_map {A B} (f : A -> B) x y : good x -> (forall n r, x n = Some r -> exists m, y m = zmap f (x n)) -> good y.
Proof.
  intros (n & r & E & Hr) Hy. destruct (Hy n r E) as [m Em]. rewrite E in Em. exists m. rewrite Em.
  destruct r as [v | e]; eexists; (split; [done | ]); [eauto | intros HK; by destruct (Hr HK)].
Qed.

(** Types without a field of a named type. *)
Definition flat (fs : list StructFieldDecl) : Prop :=
  Forall (fun f => match field_Type f with TypeStruct _ _ _ => False | _ => True end) fs.

Lemma flat_payload i fs : flat fs -> payloadEnds i fs.
Proof.
  intros Hf. apply payload_ends. eapply Forall_impl; [exact Hf | ]. intros f Ht. cbn in Ht.
  destruct (field_Type f); try done; exists 0%nat; eexists; (split; [reflexivity | eauto]).
Qed.

(** *** Programs at load *)

(** A field's type names an enum, an opaque type or a struct. *)
Definition known (i : Interpreter) (t : Typ) : Prop :=
  match t with
  | TypeStruct ns mp name =>
      isEnumType i ns name mp = true \/ (fieldNS i ns <> "" /\ isObjectType (fieldNS i ns) name = true) \/
      is_Some (lookupStructDef (i_tables i) (fieldNS i ns) name mp)
  | _ => True
  end.

(** A type as the parser builds it carries no module path. *)
Definition unstamped (t : Typ) : Prop := match t with TypeStruct _ mp _ => mp = "" | _ => True end.

(** The interpreters of a program after load.  [raw i] are the tables of [i] before its field
    types are stamped, on which the checks run.  The modules of an interpreter are loaded
    before it, library structs and the error struct have plain fields, and no module owns a
    type under the stem and the name of a library type (see [stem_collision_recurses]). *)
Record loaded (ok : Interpreter -> Prop) (raw : Interpreter -> Tables) (rank : Interpreter -> nat) : Prop := {
  l_module : forall i a m, ok i -> moduleAliases (i_tables i) !! a = Some m ->
    let j := interpOf (mod_path m) in
    ok j /\ (rank j < rank i)%nat /\ mod_structs m = structs (i_tables j) /\ mod_enums m = enums (i_tables j) /\
    mod_ns m <> "" /\ mod_path m <> "";
  l_alias : forall i, ok i -> moduleAliases (i_tables i) !! "" = None;
  l_structs : forall i, ok i -> structs (i_tables i) = stampStruct i <$> structs (raw i);
  l_enums : forall i, ok i -> enums (i_tables i) = stampEnum i <$> enums (raw i);
  l_source : forall i k f, ok i -> f ∈ zeroFields (raw i) k -> unstamped (field_Type f);
  l_checks : forall i, ok i -> (exists c, checkStructCycles (raw i) = Some (Ok c)) /\ (exists c, checkEnumZeroCycles (raw i) = Some (Ok c));
  l_error : forall i d, ok i -> structs (i_tables i) !! canonicalErrorStructName = Some d -> flat (struct_Fields d);
  l_library : forall i k d, ok i -> NSStructs (i_tables i) !! k = Some d -> flat (struct_Fields d);
  l_prefix : forall i a ns, ok i -> i_nsPrefixes i !! a = Some ns -> ns <> "";
  l_variant : forall i n d, ok i -> enums (i_tables i) !! n = Some d -> enum_Variants d <> [];
  l_collision : forall i a m name, ok i -> moduleAliases (i_tables i) !! a = Some m -> isOwnStruct m name = true ->
    NSStructs (i_tables i) !! (fieldNS i (mod_ns m), name) = None
}.

(** Every field's type resolves, and no library's name is the prefix of another. *)
Record resolves (ok : Interpreter -> Prop) (raw : Interpreter -> Tables) : Prop := {
  r_fields : forall i k f q, ok i -> f ∈ zeroFields (raw i) k -> snd (resolveDeclaredStructNS i q (field_Type f)) = None;
  r_prefix : forall i a ns, ok i -> i_nsPrefixes i !! a = Some ns -> i_nsPrefixes i !! ns = None \/ i_nsPrefixes i !! ns = Some ns
}.

Lemma byNSLoop_in ms ns found m : byNSLoop ms ns found = Some m -> found = Some m \/ exists a, (a, m) ∈ ms.
Proof.
  revert found. induction ms as [ | [a x] ms IH]; intros found; cbn [byNSLoop]; [by left | ].
  assert (Hx : byNSLoop ms ns (Some x) = Some m -> found = Some m \/ exists a0, (a0, m) ∈ (a, x) :: ms).
  { intros H. right. destruct (IH _ H) as [[= ->] | [b Hb]]; [exists a; by left | exists b; by right]. }
  case_bool_decide; [destruct found; [case_bool_decide; [done | exact Hx] | exact Hx] | ].
  intros Hr. destruct (IH _ Hr) as [-> | [b Hb]]; [by left | right; exists b; by right].
Qed.

Lemma moduleOf_alias i ns mp m : moduleOf i ns mp = Some m -> exists a, moduleAliases (i_tables i) !! a = Some m.
Proof.
  unfold moduleOf. destruct (moduleByPath _ mp) as [m' | ] eqn:E.
  - intros [= <-]. unfold moduleByPath in E. case_bool_decide; [done | ].
    destruct (filter _ _) as [ | [a x] l] eqn:Ef; [done | ]. injection E as <-. exists a. apply elem_of_map_to_list.
    assert (Hin : (a, x) ∈ filter (fun q => mod_path (snd q) = mp) (map_to_list (moduleAliases (i_tables i)))) by (rewrite Ef; by left).
    by apply list_elem_of_filter in Hin as [_ Hin].
  - unfold moduleByNS. case_bool_decide; [done | ]. intros H1. destruct (byNSLoop_in _ _ _ _ H1) as [ | [a Ha]]; [done | ].
    exists a. by apply elem_of_map_to_list.
Qed.

Lemma moduleByPath_found i a m : moduleAliases (i_tables i) !! a = Some m -> mod_path m <> "" ->
  exists m' b, moduleByPath (i_tables i) (mod_path m) = Some m' /\ moduleAliases (i_tables i) !! b = Some m' /\ mod_path m' = mod_path m.
Proof.
  intros Ha Hp. unfold moduleByPath. rewrite bool_decide_false by done.
  assert (Hin : (a, m) ∈ filter (fun q => mod_path (snd q) = mod_path m) (map_to_list (moduleAliases (i_tables i))))
    by (apply list_elem_of_filter; split; [done | by apply elem_of_map_to_list]).
  destruct (filter _ _) as [ | [b m'] l] eqn:Ef; [by apply elem_of_nil in Hin | ]. exists m', b. split; [done | ].
  assert (Hb : (b, m') ∈ filter (fun q => mod_path (snd q) = mod_path m) (map_to_list (moduleAliases (i_tables i)))) by (rewrite Ef; by left).
  apply list_elem_of_filter in Hb as [Hpath Hb]. split; [by apply elem_of_map_to_list | done].
Qed.

Lemma isEnumType_local i n : isEnumType i "" n "" = bool_decide (is_Some (enums (i_tables i) !! n)).
Proof. done. Qed.

Section Loaded.
Variable ok : Interpreter -> Prop.
Variable raw : Interpreter -> Tables.
Variable rank : Interpreter -> nat.
Hypothesis Hl : loaded ok raw rank.
Hypothesis Hres : K -> resolves ok raw.

(** The types an interpreter declares itself. *)
Definition localEnds (i : Interpreter) (k : Key) : Prop := ends i (fst k) "" (snd k) "".
Definition declared (i : Interpreter) (k : Key) : Prop :=
  if fst k then is_Some (enums (i_tables i) !! snd k) else is_Some (structs (i_tables i) !! snd k).

Lemma fieldNS_empty i ns : ok i -> fieldNS i ns = "" <-> ns = "".
Proof.
  intros Hi. unfold fieldNS. case_bool_decide as H; [ | tauto]. unfold resolveNamespacePrefix.
  destruct (i_nsPrefixes i !! ns) eqn:E; [pose proof (l_prefix _ _ _ Hl i ns s Hi E); tauto | ].
  repeat case_match; try tauto; simplify_eq; tauto.
Qed.

Lemma local_of_fields i k : declared i k -> (fst k = true -> ok i) ->
  payloadEnds i (zeroFields (i_tables i) k) -> localEnds i k.
Proof.
  intros Hd Hi Hp. unfold localEnds, ends. unfold declared, zeroFields in *. destruct k as [[ | ] name]; cbn [fst snd] in *; destruct Hd as [d Hd].
  - rewrite Hd in Hp. pose proof (l_variant _ _ _ Hl i name d (Hi eq_refl) Hd) as Hv.
    destruct (enum_Variants d) as [ | v0 vs] eqn:Ev; [done | ].
    eapply good_map with (f := EnumVal "" "" name (variant_Name v0)); [exact Hp | ]. intros n r E. exists (S n).
    cbn [zeroFor]. unfold zeroEnumFor, lookupEnumDef. rewrite !bool_decide_false by tauto. cbn [orb]. by rewrite Hd, Ev.
  - rewrite Hd in Hp.
    eapply good_map with (f := StructVal name); [exact Hp | ]. intros n r E. exists (S n).
    cbn [zeroFor]. unfold zeroStructFor, lookupStructDef. rewrite !bool_decide_false by tauto. cbn [andb]. by rewrite Hd.
Qed.

Lemma good_err {A} (x : nat -> option (res A)) n e : x n = Some (Err e) -> (K -> False) -> good x.
Proof. intros E HK. exists n. eexists. split; [exact E | ]. intros Hk. destruct (HK Hk). Qed.

(** *** A type of a loaded module *)

Definition localsEnd (i : Interpreter) : Prop := forall k, declared i k -> localEnds i k.

Lemma foreign_enum i ns name mp : ok i -> (forall a m, moduleAliases (i_tables i) !! a = Some m -> localsEnd (interpOf (mod_path m))) ->
  ns <> "" \/ mp <> "" -> isEnumType i ns name mp = true -> ends i true ns name mp.
Proof.
  intros Hi IH Hne He. apply bool_decide_eq_true in He. unfold lookupEnumDef in He.
  assert (Hm : exists m, moduleOf i ns mp = Some m /\ is_Some (mod_enums m !! name)).
  { unfold moduleOf. case_bool_decide as Hmp.
    - destruct (moduleByPath (i_tables i) mp) as [m | ] eqn:E; [ | by destruct He]. by exists m.
    - subst mp. cbn. rewrite bool_decide_true in He by naive_solver.
      destruct (moduleByNS (i_tables i) ns) as [m | ] eqn:E; [ | by destruct He]. by exists m. }
  destruct Hm as (m & Hm & Hn). destruct (moduleOf_alias i ns mp m Hm) as [a Ha].
  destruct (l_module _ _ _ Hl i a m Hi Ha) as (Hj & _ & _ & Hen & _). rewrite Hen in Hn.
  apply (good_map (toImporter m) _ _ (IH a m Ha (keyE name) Hn)). intros n r _. exists (S n).
  cbn [zeroFor]. unfold zeroEnumFor. rewrite Hm. rewrite (bool_decide_true (is_Some _)) by done.
  destruct Hne as [Hne | Hne]; rewrite (bool_decide_true _ Hne), ?orb_true_r; done.
Qed.

Lemma lookup_moduleOf i ns name mp : ns <> "" -> NSStructs (i_tables i) !! (ns, name) = None ->
  match moduleOf i ns mp with
  | Some m => lookupStructDef (i_tables i) ns name mp = None \/ lookupStructDef (i_tables i) ns name mp = mod_structs m !! name
  | None => lookupStructDef (i_tables i) ns name mp = None
  end.
Proof.
  intros Hns El. unfold moduleOf, lookupStructDef. rewrite El, (bool_decide_true (ns <> "")) by done.
  destruct (moduleByPath (i_tables i) mp) as [m | ] eqn:Ep.
  - rewrite bool_decide_true; [by right | ]. by intros ->.
  - case_bool_decide; [by destruct (moduleByNS (i_tables i) ns); [left | ] | ].
    destruct (moduleByNS (i_tables i) ns) as [m | ]; [by right | done].
Qed.

Lemma foreign_struct i ns name mp : ok i -> (forall a m, moduleAliases (i_tables i) !! a = Some m -> localsEnd (interpOf (mod_path m))) ->
  ns <> "" -> (mp <> "" -> NSStructs (i_tables i) !! (ns, name) = None) ->
  (K -> isObjectType ns name = true \/ is_Some (lookupStructDef (i_tables i) ns name mp)) -> ends i false ns name mp.
Proof.
  intros Hi IH Hns Hst Hk. unfold ends.
  destruct (isObjectType ns name) eqn:Eo.
  { exists 1%nat. eexists. split; [ | eauto]. cbn [zeroFor]. unfold zeroStructFor. by rewrite bool_decide_true, Eo by done. }
  assert (HK : lookupStructDef (i_tables i) ns name mp = None -> K -> False).
  { intros E Hkk. destruct (Hk Hkk) as [ | Hs]; [done | ]. rewrite E in Hs. by destruct Hs. }
  (* the definition is read in the importer: it has plain fields *)
  assert (Hplain : forall d, lookupStructDef (i_tables i) ns name mp = Some d -> flat (struct_Fields d) ->
    (NSStructs (i_tables i) !! (ns, name) = None -> forall m, moduleOf i ns mp = Some m -> isOwnStruct m name = false) ->
    good (fun n => zero n i false ns name mp)).
  { intros d Hd Hf Hown. apply (good_map (NamespacedStructVal ns name) _ _ (flat_payload i _ Hf)). intros n r _. exists (S n).
    cbn [zeroFor]. unfold zeroStructFor. rewrite !(bool_decide_true (ns <> "")) by done. rewrite Eo, Hd. cbn [andb].
    case_bool_decide; [ | done]. destruct (moduleOf i ns mp) as [m | ] eqn:Em; [ | done]. by rewrite (Hown ltac:(done) m eq_refl). }
  destruct (NSStructs (i_tables i) !! (ns, name)) as [d | ] eqn:El.
  { apply (Hplain d); [ | by eapply (l_library _ _ _ Hl) | done]. assert (mp = "") as -> by (destruct (decide (mp = "")); [done | by apply Hst in n]).
    unfold lookupStructDef. rewrite bool_decide_false by tauto. rewrite bool_decide_true by done. by rewrite El. }
  pose proof (lookup_moduleOf i ns name mp Hns El) as Hlk.
  destruct (moduleOf i ns mp) as [m | ] eqn:Em.
  - destruct (moduleOf_alias i ns mp m Em) as [a Ha]. destruct (l_module _ _ _ Hl i a m Hi Ha) as (Hj & _ & Hsj & _ & _).
    destruct (isOwnStruct m name) eqn:Eown.
    + assert (Hstep : forall n, zero (S n) i false ns name mp = zmap (toImporter m) (zero n (interpOf (mod_path m)) false "" name "")).
      { intros n. cbn [zeroFor]. unfold zeroStructFor at 1. rewrite !(bool_decide_true (ns <> "")) by done. rewrite Eo. cbn [andb].
        rewrite bool_decide_true by done. by rewrite Em, Eown. }
      destruct (structs (i_tables (interpOf (mod_path m))) !! name) as [d | ] eqn:Ed.
      * apply (good_map (toImporter m) _ _ (IH a m Ha (keyS name) (mk_is_Some _ _ Ed))). intros n r _. exists (S n). apply Hstep.
      * eapply (good_err _ 2%nat); [rewrite Hstep; cbn [zeroFor]; unfold zeroStructFor, lookupStructDef | ].
        { rewrite !bool_decide_false by tauto. cbn [andb]. rewrite Ed. reflexivity. }
        apply HK. destruct Hlk as [ | ->]; [done | by rewrite Hsj].
    + destruct (lookupStructDef (i_tables i) ns name mp) as [d | ] eqn:Ed.
      * apply (Hplain d); [done | | intros _ m' [= <-]; exact Eown]. destruct Hlk as [ | Hd]; [done | ].
        rewrite Hsj in Hd. unfold isOwnStruct in Eown. case_bool_decide as Hen.
        -- subst name. by eapply (l_error _ _ _ Hl).
        -- rewrite Hsj in Eown. rewrite bool_decide_true in Eown; [done | by rewrite <- Hd].
      * eapply (good_err _ 1%nat); [ | by apply HK]. cbn [zeroFor]. unfold zeroStructFor. rewrite !(bool_decide_true (ns <> "")) by done.
        rewrite Eo, Ed, Em, Eown. cbn [andb]. rewrite bool_decide_true by done. reflexivity.
  - eapply (good_err _ 1%nat); [ | by apply HK]. cbn [zeroFor]. unfold zeroStructFor. rewrite !(bool_decide_true (ns <> "")) by done.
    rewrite Eo, Hlk, Em. cbn [andb]. rewrite bool_decide_true by done. reflexivity.
Qed.

(** *** Stamped types *)

Lemma declModule_alias i ns name m : declModule (i_tables i) ns name = Some m -> exists a, moduleAliases (i_tables i) !! a = Some m.
Proof.
  unfold declModule. destruct (moduleAliases _ !! ns) as [x | ] eqn:E; [intros [= <-]; by exists ns | ].
  destruct (moduleByNS (i_tables i) ns) as [x | ] eqn:En; [ | done]. cbn. destruct (isOwnStruct x name); [ | done]. intros [= <-].
  apply (moduleOf_alias i ns ""). unfold moduleOf. by cbn.
Qed.

(** What the resolution of a named type gives: the stamp of a module, the library's own name, or
    the type as it was. *)
Lemma resolve_struct i q ns name : ok i -> exists t e, resolveDeclaredStructNS i q (TypeStruct ns "" name) = (t, e) /\
  ((exists a m, moduleAliases (i_tables i) !! a = Some m /\ isOwnStruct m name = true /\ ns <> "" /\ t = TypeStruct (mod_ns m) (mod_path m) name) \/
   (exists c d, ns <> "" /\ resolveNamespacePrefix i ns = Ok c /\ NSStructs (i_tables i) !! (c, name) = Some d /\ t = TypeStruct c "" name) \/
   (t = TypeStruct ns "" name /\ (e = None -> ns = "" /\ (is_Some (structs (i_tables i) !! name) \/ is_Some (enums (i_tables i) !! name))))).
Proof.
  intros Hi. cbn [resolveDeclaredStructNS]. destruct (declModule (i_tables i) ns name) as [m | ] eqn:Em.
  - unfold stampModuleStructType. destruct (isOwnStruct m name) eqn:Eo; cbn [negb]; [ | by do 2 eexists; split; [done | right; right; split]].
    case_bool_decide; [by do 2 eexists; split; [done | right; right; split] | ]. do 2 eexists. split; [done | left].
    destruct (declModule_alias i ns name m Em) as [a Ha]. exists a, m. split_and!; try done. intros ->.
    unfold declModule in Em. rewrite (l_alias _ _ _ Hl i Hi) in Em. done.
  - case_bool_decide as Hns.
    + destruct (resolveNamespacePrefix i ns) as [c | msg] eqn:Er; [ | by do 2 eexists; split; [done | right; right; split]].
      destruct (NSStructs (i_tables i) !! (c, name)) as [d | ] eqn:En; [ | by do 2 eexists; split; [done | right; right; split]].
      do 2 eexists. split; [done | right; left]. eauto 10.
    + subst ns. do 2 eexists. split; [apply surjective_pairing | right; right]. repeat case_bool_decide; cbn [andb fst snd]; try (by split); split; try done; intros _; (split; [done | ]).
      * right. by apply not_eq_None_Some.
      * left. by apply not_eq_None_Some.
      * left. by apply not_eq_None_Some.
Qed.

Lemma zeroFields_stamped i k f : ok i -> f ∈ zeroFields (i_tables i) k -> exists g q, g ∈ zeroFields (raw i) k /\ f = stampField i q g.
Proof.
  intros Hi. unfold zeroFields. rewrite (l_structs _ _ _ Hl i Hi), (l_enums _ _ _ Hl i Hi), !lookup_fmap. destruct k as [[ | ] name]; cbn [fst snd].
  - destruct (enums (raw i) !! name) as [d | ]; cbn; [ | by intros []%elem_of_nil]. destruct (enum_Variants d) as [ | v vs]; cbn; [by intros []%elem_of_nil | ].
    intros (g & -> & Hg)%list_elem_of_fmap. eauto.
  - destruct (structs (raw i) !! name) as [d | ]; cbn; [ | by intros []%elem_of_nil]. intros (g & -> & Hg)%list_elem_of_fmap. eauto.
Qed.

Lemma resolve_kind i q t ns mp name : fst (resolveDeclaredStructNS i q t) = TypeStruct ns mp name -> exists ns0 mp0 name0, t = TypeStruct ns0 mp0 name0.
Proof.
  destruct t as [ | | | | | | | [o | ] | [[k v] | ] | ns0 mp0 name0 | [o | ] | | [o | ]]; try done; [ | by eauto].
  cbn. by destruct (snd (resolveDeclaredStructNS i q k)).
Qed.

(** The cases of a stamped field of a named type. *)
Lemma field_struct i k f ns mp name : ok i -> f ∈ zeroFields (i_tables i) k -> field_Type f = TypeStruct ns mp name ->
  (exists a m, moduleAliases (i_tables i) !! a = Some m /\ isOwnStruct m name = true /\ ns = mod_ns m /\ mp = mod_path m) \/
  (mp = "" /\ (K -> ns = "" /\ (is_Some (structs (i_tables i) !! name) \/ is_Some (enums (i_tables i) !! name)) \/
    ns <> "" /\ fieldNS i ns = ns /\ is_Some (NSStructs (i_tables i) !! (ns, name)))).
Proof.
  intros Hi Hf Et. destruct (zeroFields_stamped i k f Hi Hf) as (g & q & Hg & ->). cbn [stampField field_Type] in Et.
  pose proof (l_source _ _ _ Hl i k g Hi Hg) as Hu. assert (Hn : K -> snd (resolveDeclaredStructNS i q (field_Type g)) = None)
    by (intros HK; by eapply (r_fields _ _ (Hres HK))).
  destruct (resolve_kind i q _ ns mp name Et) as (ns0 & mp0 & name0 & E0). rewrite E0 in *. cbn in Hu. subst mp0.
  destruct (resolve_struct i q ns0 name0 Hi) as (t & e & Er & Hc). rewrite Er in *. cbn [fst snd] in *. subst t.
  destruct Hc as [(a & m & Ha & Ho & Hne & [= -> -> ->]) | [(c & d & Hne & Hp & Hd & [= -> -> ->]) | ([= -> -> ->] & He)]].
  - left. eauto 10.
  - right. split; [done | ]. intros HK. right.
    assert (Hc : c <> "") by (unfold resolveNamespacePrefix in Hp; destruct (i_nsPrefixes i !! ns0) eqn:E; [ | by repeat case_match];
      injection Hp as ->; by eapply (l_prefix _ _ _ Hl)).
    split; [done | ]. split; [ | by eexists]. unfold fieldNS. rewrite bool_decide_true by done. unfold resolveNamespacePrefix in *.
    destruct (i_nsPrefixes i !! ns0) eqn:E; [ | by repeat case_match]. injection Hp as ->.
    destruct (r_prefix _ _ (Hres HK) i ns0 c Hi E) as [-> | ->]; [by repeat case_match | done].
  - right. split; [done | ]. intros HK. left. apply He. by apply Hn.
Qed.

Lemma field_known i k f : ok i -> f ∈ zeroFields (i_tables i) k -> K -> known i (field_Type f).
Proof.
  intros Hi Hf HK. destruct (field_Type f) as [ | | | | | | | | | ns mp name | | | ] eqn:Et; try done.
  destruct (field_struct i k f ns mp name Hi Hf Et) as [(a & m & Ha & Ho & -> & ->) | [-> Hc]].
  - destruct (l_module _ _ _ Hl i a m Hi Ha) as (_ & _ & Hs & He & _ & Hp).
    assert (Hby : exists m', moduleByPath (i_tables i) (mod_path m) = Some m' /\ mod_structs m' = mod_structs m /\ mod_enums m' = mod_enums m).
    { destruct (moduleByPath_found i a m Ha Hp) as (m' & b & E & Hb & Hpath). exists m'. split; [done | ].
      destruct (l_module _ _ _ Hl i b m' Hi Hb) as (_ & _ & Hs' & He' & _). rewrite Hpath in *. by rewrite Hs, He, Hs', He'. }
    destruct Hby as (m' & E & Es & Ee). unfold isOwnStruct in Ho. case_bool_decide; [done | ]. apply orb_true_iff in Ho as [Ho | Ho].
    + right. right. unfold lookupStructDef. rewrite bool_decide_true by done. rewrite E. cbn. rewrite Es. by apply bool_decide_eq_true in Ho.
    + left. unfold isEnumType, lookupEnumDef. rewrite (bool_decide_true (mod_path m <> "")) by done. rewrite E. cbn. by rewrite Ee.
  - destruct (Hc HK) as [(-> & [Hs | He]) | (Hns & Hfn & Hs)].
    + right. right. exact Hs.
    + left. rewrite isEnumType_local. by apply bool_decide_eq_true.
    + right. right. rewrite Hfn. unfold lookupStructDef. rewrite bool_decide_false by tauto. rewrite bool_decide_true by done.
      destruct Hs as [d Hs]. rewrite Hs. by eexists.
Qed.

(** *** The types of an interpreter *)

Lemma localName_spec t n : localName t = Some n -> t = TypeStruct "" "" n.
Proof. destruct t as [ | | | | | | | | | ns mp m | | | ]; try done. cbn. repeat case_bool_decide; try done. intros [= ->]. by subst. Qed.

Lemma localNamedDep_local i n : localNamedDep i (TypeStruct "" "" n) =
  if bool_decide (is_Some (enums i !! n)) then Some (keyE n) else if bool_decide (is_Some (structs i !! n)) then Some (keyS n) else None.
Proof. done. Qed.

Lemma field_ends i k f : ok i -> (forall a m, moduleAliases (i_tables i) !! a = Some m -> localsEnd (interpOf (mod_path m))) ->
  f ∈ zeroFields (i_tables i) k -> (forall d, localNamedDep (i_tables i) (field_Type f) = Some d -> localEnds i d) ->
  fieldEnds i (field_Type f).
Proof.
  intros Hi IH Hf Hloc. assert (Hk : K -> known i (field_Type f)) by (by apply (field_known i k)).
  assert (Hs : forall ns mp name, field_Type f = TypeStruct ns mp name -> mp <> "" -> ns <> "" /\ NSStructs (i_tables i) !! (fieldNS i ns, name) = None)
    by (intros ns mp name Et Hmp; destruct (field_struct i k f ns mp name Hi Hf Et) as [(a & m & Ha & Ho & -> & _) | [-> _]]; [ | done];
        split; [apply (l_module _ _ _ Hl i a m Hi Ha) | by eapply (l_collision _ _ _ Hl)]).
  destruct (field_Type f) as [ | | | | | | | | | ns mp name | | | ] eqn:Et; try (exists 0%nat; eexists; split; [reflexivity | by eauto]).
  unfold fieldEnds, zeroField. destruct (isEnumType i ns name mp) eqn:Ee.
  - destruct (decide (ns = "" /\ mp = "")) as [[-> ->] | Hne]; [ | by apply foreign_enum; [ | | destruct (decide (ns = "")); tauto | ]].
    apply (Hloc (keyE name)). rewrite isEnumType_local in Ee. by rewrite localNamedDep_local, Ee.
  - destruct (decide (ns = "")) as [-> | Hns].
    + destruct (decide (mp = "")) as [-> | Hmp]; [ | by destruct (Hs _ _ _ eq_refl Hmp)].
      rewrite isEnumType_local in Ee. change (fieldNS i "") with "".
      destruct (structs (i_tables i) !! name) as [d | ] eqn:Ed.
      * apply (Hloc (keyS name)). rewrite localNamedDep_local, Ee, bool_decide_true; [done | by eexists].
      * apply (good_err _ 1%nat (ERuntime (mkRuntimeError (Sprintf "unknown struct %q" [AStr name]) p ""))).
        { cbn [zeroFor]. unfold zeroStructFor, lookupStructDef. rewrite !bool_decide_false by tauto. cbn [andb]. by rewrite Ed. }
        intros HK. destruct (Hk HK) as [Hen | [[Hne _] | Hst]]; [ | done | ].
        -- rewrite isEnumType_local in Hen. congruence.
        -- change (is_Some (structs (i_tables i) !! name)) in Hst. rewrite Ed in Hst. by destruct Hst.
    + apply foreign_struct; [done | done | by rewrite fieldNS_empty | intros; by apply (Hs ns mp name) | ].
      intros HK. destruct (Hk HK) as [Hen | [[_ Ho] | Hst]]; [congruence | by left | by right].
Qed.

Lemma topo_locals i l : ok i -> (forall a m, moduleAliases (i_tables i) !! a = Some m -> localsEnd (interpOf (mod_path m))) ->
  topo (zeroEdges (i_tables i)) l -> forall k, k ∈ l -> declared i k -> localEnds i k.
Proof.
  intros Hi IHm. induction l as [ | n l IH]; intros Ht k Hk Hd; [by apply elem_of_nil in Hk | ]. destruct Ht as [Hdeps Ht].
  apply elem_of_cons in Hk as [-> | Hk]; [ | by apply IH]. apply local_of_fields; [done | done | ].
  apply payload_ends, Forall_forall. intros f Hf. apply (field_ends i n f Hi IHm Hf). intros d Hd'.
  apply IH; [done | | by apply localNamedDep_keys, elem_of_keys in Hd'].
  apply Hdeps. apply list_elem_of_fmap. exists (tt, d). split; [done | ]. apply zeroEdges_spec. eauto.
Qed.

Lemma topo_structs i l : ok i -> (forall a m, moduleAliases (i_tables i) !! a = Some m -> localsEnd (interpOf (mod_path m))) ->
  (forall n, is_Some (enums (i_tables i) !! n) -> localEnds i (keyE n)) ->
  topo (structEdges (i_tables i)) l -> forall n, n ∈ l -> is_Some (structs (i_tables i) !! n) -> localEnds i (keyS n).
Proof.
  intros Hi IHm Hen. induction l as [ | n l IH]; intros Ht k Hk Hd; [by apply elem_of_nil in Hk | ]. destruct Ht as [Hdeps Ht].
  apply elem_of_cons in Hk as [-> | Hk]; [ | by apply IH]. apply local_of_fields; [done | done | ].
  apply payload_ends, Forall_forall. intros f Hf. apply (field_ends i (keyS n) f Hi IHm Hf). intros d Hd'.
  unfold localNamedDep in Hd'. destruct (localName (field_Type f)) as [m | ] eqn:El; [ | done].
  case_bool_decide; [injection Hd' as <-; by apply Hen | ]. case_bool_decide as Hm; [injection Hd' as <- | done].
  apply IH; [done | | done]. apply Hdeps. apply list_elem_of_fmap. exists (f, m). split; [done | ]. apply structEdges_spec.
  unfold zeroFields in Hf. cbn [fst snd keyS] in Hf. destruct Hd as [d Hd]. rewrite Hd in Hf. eauto 10.
Qed.

(** Stamping keeps the edges between local types. *)
Lemma localName_stamped i k q g : ok i -> g ∈ zeroFields (raw i) k -> localName (field_Type (stampField i q g)) = localName (field_Type g).
Proof.
  intros Hi Hg. pose proof (l_source _ _ _ Hl i k g Hi Hg) as Hu. cbn [stampField field_Type].
  destruct (field_Type g) as [ | | | | | | | [o | ] | [[kt vt] | ] | ns mp name | [o | ] | | [o | ]]; try done.
  - cbn. by destruct (snd (resolveDeclaredStructNS i q kt)).
  - cbn in Hu. subst mp. destruct (resolve_struct i q ns name Hi) as (t & e & -> & Hc). cbn [fst].
    destruct Hc as [(a & m & Ha & _ & Hne & ->) | [(c & d & Hne & Hp & _ & ->) | (-> & _)]]; [ | | done]; cbn [localName].
    + destruct (l_module _ _ _ Hl i a m Hi Ha) as (_ & _ & _ & _ & Hn & _). by rewrite (bool_decide_false (mod_ns m = "") Hn), (bool_decide_false (ns = "") Hne).
    + rewrite (bool_decide_false (ns = "")) by done. rewrite bool_decide_false; [done | ]. unfold resolveNamespacePrefix in Hp.
      destruct (i_nsPrefixes i !! ns) eqn:E; [ | by repeat case_match]. injection Hp as ->. by eapply (l_prefix _ _ _ Hl).
Qed.

Lemma declared_raw i n : ok i -> (is_Some (structs (i_tables i) !! n) <-> is_Some (structs (raw i) !! n)) /\
  (is_Some (enums (i_tables i) !! n) <-> is_Some (enums (raw i) !! n)).
Proof. intros Hi. by rewrite (l_structs _ _ _ Hl i Hi), (l_enums _ _ _ Hl i Hi), !lookup_fmap, !fmap_is_Some. Qed.

Lemma topo_deps {N F G} (e1 : N -> list (F * N)) (e2 : N -> list (G * N)) l :
  (forall n d, d ∈ deps e2 n -> d ∈ deps e1 n) -> topo e1 l -> topo e2 l.
Proof. intros H. induction l as [ | n l IH]; [done | ]. intros [Hd Ht]. split; [auto | by apply IH]. Qed.

Lemma zeroEdges_stamped i n d : ok i -> d ∈ deps (zeroEdges (i_tables i)) n -> d ∈ deps (zeroEdges (raw i)) n.
Proof.
  intros Hi. unfold deps. intros ([[] d'] & -> & (f & Hf & Hd)%zeroEdges_spec)%list_elem_of_fmap. apply list_elem_of_fmap. exists (tt, d'). split; [done | ].
  apply zeroEdges_spec. destruct (zeroFields_stamped i n f Hi Hf) as (g & q & Hg & ->). exists g. split; [done | ].
  unfold localNamedDep in *. rewrite (localName_stamped i n q g Hi Hg) in Hd. destruct (localName (field_Type g)) as [m | ]; [ | done].
  destruct (declared_raw i m Hi) as [Hs He]. by rewrite (bool_decide_ext _ _ He), (bool_decide_ext _ _ Hs) in Hd.
Qed.

Lemma structEdges_stamped i n d : ok i -> d ∈ deps (structEdges (i_tables i)) n -> d ∈ deps (structEdges (raw i)) n.
Proof.
  intros Hi. unfold deps. intros ([f d'] & -> & (sd & Hs & Hf & El & Hd)%structEdges_spec)%list_elem_of_fmap. cbn [snd] in *.
  assert (Hf' : f ∈ zeroFields (i_tables i) (keyS n)) by (unfold zeroFields; cbn [fst snd keyS]; by rewrite Hs).
  destruct (zeroFields_stamped i _ f Hi Hf') as (g & q & Hg & ->). rewrite (localName_stamped i _ q g Hi Hg) in El.
  apply list_elem_of_fmap. exists (g, d'). split; [done | ]. apply structEdges_spec. unfold zeroFields in Hg. cbn [fst snd keyS] in Hg.
  destruct (structs (raw i) !! n) as [sd' | ]; [ | by apply elem_of_nil in Hg]. exists sd'. split_and!; try done. by apply declared_raw.
Qed.

Lemma locals_end i : ok i -> localsEnd i.
Proof.
  remember (rank i) as r eqn:Er. revert i Er. induction (Nat.lt_wf_0 r) as [r _ IH].
  intros i -> Hi. assert (IHm : forall a m, moduleAliases (i_tables i) !! a = Some m -> localsEnd (interpOf (mod_path m))).
  { intros a m Ha. destruct (l_module _ _ _ Hl i a m Hi Ha) as (Hj & Hr & _). by eapply IH. }
  destruct (l_checks _ _ _ Hl i Hi) as [[c1 E1] [c2 E2]].
  destruct (checkStructCycles_spec (raw i)) as (r1 & E1' & H1). rewrite E1 in E1'. injection E1' as <-. destruct H1 as (l1 & Ht1 & Hin1).
  destruct (checkEnumZeroCycles_spec (raw i)) as (r2 & E2' & H2). rewrite E2 in E2'. injection E2' as <-. destruct H2 as (l2 & Ht2 & Hin2).
  apply (topo_deps _ (structEdges (i_tables i))) in Ht1; [ | intros; by apply structEdges_stamped].
  apply (topo_deps _ (zeroEdges (i_tables i))) in Ht2; [ | intros; by apply zeroEdges_stamped].
  assert (Hen : forall n, is_Some (enums (i_tables i) !! n) -> localEnds i (keyE n))
    by (intros n Hn; eapply topo_locals; eauto; by apply Hin2, declared_raw).
  intros [[ | ] n] Hd; [by apply Hen | ]. eapply topo_structs; eauto. by apply Hin1, declared_raw.
Qed.
End Loaded.

(** *** Rejected programs *)

Lemma payload_field rec i fs vs f : zeroPayload rec i fs = Some (Ok vs) -> f ∈ fs -> exists v, zeroField rec i (field_Type f) = Some (Ok v).
Proof.
  revert vs. induction fs as [ | g fs IH]; intros vs; [intros _ Hf; by apply elem_of_nil in Hf | ]. rewrite zeroPayload_cons.
  destruct (zeroField rec i (field_Type g)) as [[v | ] | ] eqn:E; try done.
  destruct (zeroPayload rec i fs) as [[vs' | ] | ]; try done. intros _ Hf. apply elem_of_cons in Hf as [-> | Hf]; [by eexists | by eapply IH].
Qed.

Definition valued (n : nat) (i : Interpreter) (k : Key) : Prop := exists v, zero n i (fst k) "" (snd k) "" = Some (Ok v).

Lemma zmap_ok {A B} (f : A -> B) x b : zmap f x = Some (Ok b) -> exists a, x = Some (Ok a).
Proof. destruct x as [[a | ] | ]; try done. by eexists. Qed.

Lemma valued_fields n i k : valued (S n) i k -> exists vs, zeroPayload (zero n) i (zeroFields (i_tables i) k) = Some (Ok vs).
Proof.
  intros [v E]. destruct k as [[ | ] name]; unfold zeroFields; cbn [fst snd zeroFor] in *.
  - unfold zeroEnumFor in E. rewrite !bool_decide_false in E by tauto. cbn [orb] in E.
    change (lookupEnumDef (i_tables i) "" name "") with (enums (i_tables i) !! name) in E. destruct (enums (i_tables i) !! name) as [d | ]; [ | done].
    destruct (enum_Variants d) as [ | v0 ?]; [done | ]. by apply zmap_ok in E.
  - unfold zeroStructFor in E. rewrite !bool_decide_false in E by tauto. cbn [andb] in E.
    change (lookupStructDef (i_tables i) "" name "") with (structs (i_tables i) !! name) in E. destruct (structs (i_tables i) !! name) as [d | ]; [ | done].
    by apply zmap_ok in E.
Qed.

Lemma valued_dep n i k f d : valued (S n) i k -> f ∈ zeroFields (i_tables i) k -> localNamedDep (i_tables i) (field_Type f) = Some d -> valued n i d.
Proof.
  intros [vs E]%valued_fields Hf Hd. destruct (payload_field _ _ _ _ f E Hf) as [v Ev]. unfold localNamedDep in Hd.
  destruct (localName (field_Type f)) as [m | ] eqn:El; [ | done]. rewrite (localName_spec _ _ El) in Ev. cbn [zeroField] in Ev.
  rewrite isEnumType_local in Ev. change (fieldNS i "") with "" in Ev. destruct (bool_decide (is_Some (enums _ !! m))).
  - injection Hd as <-. by exists v.
  - case_bool_decide; [ | done]. injection Hd as <-. by exists v.
Qed.

(** A node on a cycle has no value: each value along it would need one of less fuel. *)
Lemma cycle_not_valued {N} (R : N -> N -> Prop) (val : nat -> N -> Prop) :
  (forall n a b, R a b -> val n a -> exists m, (m < n)%nat /\ val m b) -> forall a, clos_trans N R a a -> forall n, ~ val n a.
Proof.
  intros HR. assert (Ht : forall a b, clos_trans N R a b -> forall n, val n a -> exists m, (m < n)%nat /\ val m b).
  { induction 1 as [a b Hab | a b c _ IH1 _ IH2]; intros n Ha; [by eapply HR | ].
    destruct (IH1 n Ha) as (m & Hm & Hb). destruct (IH2 m Hb) as (o & Ho & Hc). exists o. split; [lia | done]. }
  intros a Ha n. induction (Nat.lt_wf_0 n) as [n _ IH]. intros Hv. destruct (Ht a a Ha n Hv) as (m & Hm & Hv'). by apply (IH m).
Qed.

Lemma reject_structs i : (forall n, structs (i_tables i) !! n = None \/ enums (i_tables i) !! n = None) ->
  cyclic (structEdges (i_tables i)) -> exists k, declared i k /\ forall n, ~ valued n i k.
Proof.
  intros Hdis [a Ha]. exists (keyS a). split.
  - assert (Hd : forall b, clos_trans string (edge (structEdges (i_tables i))) b a -> is_Some (structs (i_tables i) !! a)); [ | by eapply Hd].
    intros b Hb. apply clos_trans_tn1 in Hb.
    assert (He : exists c, edge (structEdges (i_tables i)) c a) by (destruct Hb; eauto). destruct He as [c He].
    apply list_elem_of_fmap in He as ([f d] & -> & He). by apply structEdges_spec in He as (? & _ & _ & _ & He).
  - intros n. apply (cycle_not_valued (edge (structEdges (i_tables i))) (fun n a => valued n i (keyS a))); [ | done].
    clear a Ha n. intros n a b He Hv. apply list_elem_of_fmap in He as ([f d] & -> & He). apply structEdges_spec in He as (sd & Hs & Hf & El & Hd).
    destruct n as [ | n]; [by destruct Hv | ]. exists n. split; [lia | ]. apply (valued_dep n i (keyS a) f).
    + done.
    + unfold zeroFields. cbn [fst snd keyS]. by rewrite Hs.
    + unfold localNamedDep. rewrite El. cbn [snd] in *. destruct (Hdis d) as [Hn | Hn]; [rewrite Hn in Hd; by destruct Hd | ].
      rewrite Hn, bool_decide_false by (by intros []). by rewrite bool_decide_true.
Qed.

Lemma reject_enums i : cyclic (zeroEdges (i_tables i)) -> exists k, declared i k /\ forall n, ~ valued n i k.
Proof.
  intros [a Ha]. exists a. split.
  - apply clos_trans_tn1 in Ha. assert (He : exists c, edge (zeroEdges (i_tables i)) c a) by (destruct Ha; eauto). destruct He as [c He].
    apply list_elem_of_fmap in He as ([[] d] & -> & He). apply zeroEdges_spec in He as (f & _ & He).
    by apply localNamedDep_keys, elem_of_keys in He.
  - intros n. apply (cycle_not_valued (edge (zeroEdges (i_tables i))) (fun n a => valued n i a)); [ | done].
    clear a Ha n. intros n a b He Hv. apply list_elem_of_fmap in He as ([[] d] & -> & He). apply zeroEdges_spec in He as (f & Hf & Hd).
    destruct n as [ | n]; [by destruct Hv | ]. exists n. split; [lia | ]. by apply (valued_dep n i a f).
Qed.
End ZeroFacts.

(** Hoisting keeps the names of structs and enums apart. *)
Lemma hoistEnums_disjoint es i j : hoistEnums i es = Ok j -> (forall n, structs i !! n = None \/ enums i !! n = None) ->
  forall n, structs j !! n = None \/ enums j !! n = None.
Proof.
  revert i. induction es as [ | e es IH]; intros i; cbn [hoistEnums]; [by intros [= <-] | ].
  destruct (structs i !! enum_Name e) eqn:Es; [done | ]. destruct (enums i !! enum_Name e); [done | ]. intros H Hd.
  apply (IH _ H). intros n. cbn. destruct (decide (n = enum_Name e)) as [-> | Hne]; [by left | ]. rewrite lookup_insert_ne by done. apply Hd.
Qed.

Lemma hoistStructs_enums ss i j : hoistStructs i ss = Ok j -> enums j = enums i.
Proof.
  revert i. induction ss as [ | s ss IH]; intros i; cbn [hoistStructs]; [by intros [= <-] | ].
  destruct (structs i !! struct_Name s); [done | ]. intros H. by rewrite (IH _ H).
Qed.

(** ** The theorems *)

Lemma checks_return i : exists r1 r2, checkStructCycles i = Some r1 /\ checkEnumZeroCycles i = Some r2.
Proof. destruct (checkStructCycles_spec i) as (r1 & E1 & _), (checkEnumZeroCycles_spec i) as (r2 & E2 & _). eauto. Qed.


(** A module [geo] with a struct and an enum, and a program with a struct of both. *)
Definition exField (n : string) (t : Typ) : StructFieldDecl := Build_StructFieldDecl n t (Pos "" 1 1).
Definition exStruct (n : string) (fs : list StructFieldDecl) : StructDef := Build_StructDef (Pos "" 1 1) n fs true.
Definition exInterp (t : Tables) : Interpreter := mkInterp 0 t ∅ (fun _ => 0%nat) ∅ ∅ ∅ ∅ ∅ ∅ ∅ false 64.

Definition geoPoint : StructDef := exStruct "Point" [exField "x" TypeInt].
Definition geoShape : EnumDef :=
  Build_EnumDef (Pos "" 2 1) "Shape" [Build_EnumVariant "Dot" [exField "c" (TypeStruct "" "" "Point")] (Pos "" 2 2)] true.
Definition geoTables : Tables := mkTables {["Point" := geoPoint]} {["Shape" := geoShape]} ∅ ∅.
Definition geoInterp : Interpreter := exInterp geoTables.
Definition geoModule : loadedModule := mkModule "/m/geo.j" "geo" (structs geoTables) (enums geoTables) ∅ {["Point"; "Shape"]} false.

Definition exLine (ns mp : string) : StructDef :=
  exStruct "Line" [exField "a" (TypeStruct ns mp "Point"); exField "s" (TypeStruct ns mp "Shape"); exField "n" TypeString].
Definition exTables (ns mp : string) : Tables := mkTables {["Line" := exLine ns mp]} ∅ ∅ {["g" := geoModule]}.
Definition exMain : Interpreter := exInterp (exTables "geo" "/m/geo.j").
Definition exInterpOf (path : string) : Interpreter := if bool_decide (path = "/m/geo.j") then geoInterp else exMain.
Definition exRaw (i : Interpreter) : Tables :=
  if bool_decide (moduleAliases (i_tables i) = ∅) then geoTables else exTables "g" "".
Definition exRank (i : Interpreter) : nat := size (moduleAliases (i_tables i)).
Definition exOk (i : Interpreter) : Prop := i = exMain \/ i = geoInterp.

Lemma ex_fields i k f : exOk i -> f ∈ zeroFields (exRaw i) k ->
  unstamped (field_Type f) /\ forall q, snd (resolveDeclaredStructNS i q (field_Type f)) = None.
Proof.
  intros [-> | ->] Hf; destruct k as [[ | ] n]; unfold zeroFields in Hf; cbn [fst snd] in Hf;
    change (exRaw exMain) with (exTables "g" "") in Hf || change (exRaw geoInterp) with geoTables in Hf; cbn in Hf.
  - by apply elem_of_nil in Hf.
  - destruct (({["Line" := exLine "g" ""]} : gmap string StructDef) !! n) eqn:E; [ | by apply elem_of_nil in Hf].
    apply lookup_singleton_Some in E as [_ <-]. cbn in Hf.
    repeat (apply elem_of_cons in Hf as [-> | Hf]; [split; [done | intros; vm_compute; reflexivity] | ]). by apply elem_of_nil in Hf.
  - destruct (({["Shape" := geoShape]} : gmap string EnumDef) !! n) eqn:E; [ | by apply elem_of_nil in Hf].
    apply lookup_singleton_Some in E as [_ <-]. cbn in Hf.
    repeat (apply elem_of_cons in Hf as [-> | Hf]; [split; [done | intros; vm_compute; reflexivity] | ]). by apply elem_of_nil in Hf.
  - destruct (({["Point" := geoPoint]} : gmap string StructDef) !! n) eqn:E; [ | by apply elem_of_nil in Hf].
    apply lookup_singleton_Some in E as [_ <-]. cbn in Hf.
    repeat (apply elem_of_cons in Hf as [-> | Hf]; [split; [done | intros; vm_compute; reflexivity] | ]). by apply elem_of_nil in Hf.
Qed.

Lemma ex_loaded : loaded exInterpOf exOk exRaw exRank.
Proof.
  assert (Hmod : forall i a m, exOk i -> moduleAliases (i_tables i) !! a = Some m -> i = exMain /\ a = "g" /\ m = geoModule).
  { intros i a m [-> | ->]; cbn; [ | done]. intros [<- <-]%lookup_singleton_Some. done. }
  split.
  - intros i a m Hi Ha. destruct (Hmod i a m Hi Ha) as (-> & -> & ->). split_and!; try done; [by right | vm_compute; lia].
  - by intros i [-> | ->].
  - intros i [-> | ->]; vm_compute; reflexivity.
  - intros i [-> | ->]; vm_compute; reflexivity.
  - intros i k f Hi Hf. by apply (ex_fields i k f).
  - intros i [-> | ->]; split; eexists; vm_compute; reflexivity.
  - intros i d [-> | ->]; cbn; intros [? _]%lookup_singleton_Some; done.
  - intros i k d [-> | ->]; cbn; done.
  - intros i a ns [-> | ->]; cbn; done.
  - intros i n d [-> | ->]; cbn; [done | ]. by intros [_ <-]%lookup_singleton_Some.
  - intros i a m name Hi Ha _. by destruct (Hmod i a m Hi Ha) as (-> & -> & ->).
Qed.

Lemma ex_resolves : resolves exOk exRaw.
Proof.
  split.
  - intros i k f q Hi Hf. by apply (ex_fields i k f Hi Hf).
  - intros i a ns [-> | ->]; cbn; done.
Qed.


(** ** Types that share a library's name *)

(** The module [os.j] with a struct [Result] of its own, imported by a program whose struct [A]
    has a field of it; the library [os] registers [Result] too. *)
Definition osResult : StructDef := exStruct "Result" [exField "a" (TypeStruct "" "" "A")].
Definition osA : StructDef := exStruct "A" [exField "n" TypeInt].
Definition osTables : Tables := mkTables {["Result" := osResult; "A" := osA]} ∅ {[("os", "Result") := exStruct "Result" [exField "code" TypeInt]]} ∅.
Definition osModule : loadedModule := mkModule "/m/os.j" "os" (structs osTables) ∅ ∅ {["Result"]} false.
Definition osMainTables (ns mp : string) : Tables :=
  mkTables {["A" := exStruct "A" [exField "x" (TypeStruct ns mp "Result")]]} ∅ {[("os", "Result") := exStruct "Result" [exField "code" TypeInt]]}
    {["o" := osModule]}.
Definition osMain : Interpreter := exInterp (osMainTables "os" "/m/os.j").

(** A module's type under the stem and name of a library type is zeroed as the library's, in the
    importer's scope.  Both files pass every check and the import graph has one edge, yet the
    zero value of [A] is never built: its field reads the module's [Result], whose field [A] is
    looked up in the program again. *)
Theorem stem_collision_recurses (interpOf : string -> Interpreter) (zeroObject : string -> string -> Value) p :
  (exists c, checkStructCycles osTables = Some (Ok c)) /\ (exists c, checkStructCycles (osMainTables "o" "") = Some (Ok c)) /\
  structs (i_tables osMain) = stampStruct osMain <$> structs (osMainTables "o" "") /\
  forall n, zeroFor interpOf (fun _ _ => false) zeroObject p n osMain false "" "A" "" = None.
Proof.
  split_and!; [eexists; vm_compute; reflexivity | eexists; vm_compute; reflexivity | vm_compute; reflexivity | ].
  assert (H : forall n, zeroFor interpOf (fun _ _ => false) zeroObject p n osMain false "" "A" "" = None /\
    zeroFor interpOf (fun _ _ => false) zeroObject p n osMain false "os" "Result" "/m/os.j" = None); [ | intros n; apply H].
  induction n as [ | n [IH1 IH2]]; [done | ]. split; cbn [zeroFor]; unfold zeroStructFor.
  - assert (E : lookupStructDef (i_tables osMain) "" "A" "" = Some (exStruct "A" [exField "x" (TypeStruct "os" "/m/os.j" "Result")])) by (vm_compute; reflexivity).
    assert (E1 : isEnumType osMain "os" "Result" "/m/os.j" = false) by (vm_compute; reflexivity).
    assert (E2 : fieldNS osMain "os" = "os") by (vm_compute; reflexivity).
    rewrite E, !bool_decide_false by tauto. cbn [andb exStruct struct_Fields]. rewrite zeroPayload_cons. cbn [exField field_Type zeroField].
    by rewrite E1, E2, IH2.
  - assert (E : lookupStructDef (i_tables osMain) "os" "Result" "/m/os.j" = Some osResult) by (vm_compute; reflexivity).
    assert (E1 : isEnumType osMain "" "A" "" = false) by (vm_compute; reflexivity).
    assert (E2 : fieldNS osMain "" = "") by (vm_compute; reflexivity).
    rewrite E, (bool_decide_false (NSStructs _ !! _ = None)) by done. rewrite !andb_false_r.
    cbn [osResult exStruct struct_Fields]. rewrite zeroPayload_cons. cbn [exField field_Type zeroField]. by rewrite E1, E2, IH1.
Qed.

(** A library named by another's alias: after [use kv as store; use sql as kv;] the field
    [store.T] is stamped [kv.T], and its zero value reads the prefix [kv] a second time. *)
Definition kvTables (ns : string) : Tables :=
  mkTables {["S" := exStruct "S" [exField "t" (TypeStruct ns "" "T")]]} ∅ {[("kv", "T") := exStruct "T" [exField "n" TypeInt]]} ∅.
Definition kvMain : Interpreter :=
  mkInterp 0 (kvTables "kv") ∅ (fun _ => 0%nat) ∅ ∅ ∅ {["store" := "kv"; "kv" := "sql"]} {["kv" := "store"; "sql" := "kv"]} {["kv"; "sql"]} ∅ false 64.

(** The declared type resolves, and a variable of it has a zero value; a struct with a field of it
    has none. *)
Theorem prefix_resolved_twice (interpOf : string -> Interpreter) (zeroObject : string -> string -> Value) p :
  resolveDeclaredStructNS kvMain p (TypeStruct "store" "" "T") = (TypeStruct "kv" "" "T", None) /\
  zeroFor interpOf (fun _ _ => false) zeroObject p 2 kvMain false "kv" "T" "" = Some (Ok (NamespacedStructVal "kv" "T" [("n", VInt 0)])) /\
  zeroFor interpOf (fun _ _ => false) zeroObject p 3 kvMain false "" "S" "" = Some (rtErr p "unknown struct %s.%s" [AStr "sql"; AStr "T"]).
Proof. split_and!; vm_compute; reflexivity. Qed.

(** ** Libraries *)

Lemma bindNamespace_spec i imp i' : bindNamespace i imp = (i', None) ->
  i_knownNamespaces i' = i_knownNamespaces i /\ i_imported i' = i_imported i /\ i_tables i' = i_tables i /\
  forall q ns, i_nsPrefixes i' !! q = Some ns <->
    i_nsPrefixes i !! q = Some ns \/ (prefixOf imp = q /\ import_Name imp = ns /\ ns ∈ i_knownNamespaces i).
Proof.
  unfold bindNamespace. case_bool_decide as Hk; [intros [= <-]; split_and!; try done; naive_solver | ].
  assert (Hb : forall ns, i_nsPrefixes i !! prefixOf imp = None \/ i_nsPrefixes i !! prefixOf imp = Some (import_Name imp) -> forall q,
    <[prefixOf imp := import_Name imp]> (i_nsPrefixes i) !! q = Some ns <->
    i_nsPrefixes i !! q = Some ns \/ (prefixOf imp = q /\ import_Name imp = ns /\ ns ∈ i_knownNamespaces i)).
  { intros ns Hp q. rewrite lookup_insert_Some. destruct (decide (prefixOf imp = q)) as [<- | Hne]; naive_solver. }
  cbn. destruct (i_nsPrefixes i !! prefixOf imp) as [ex | ] eqn:Ep.
  - case_bool_decide as He; [done | ]. intros [= <-]. cbn. split_and!; try done. intros q ns. apply Hb. right. by f_equal.
  - intros [= <-]. cbn. split_and!; try done. intros q ns. apply Hb. by left.
Qed.

(** The prefixes of a program are exactly those of its [use] statements, and the imported
    libraries those it names. *)
Lemma importLoop_spec r already imps : forall seen i i', importLoop r false already seen i imps = (i', None) ->
  i_tables i' = i_tables i /\ i_knownNamespaces i' = i_knownNamespaces i /\
  (forall lib, lib ∈ i_imported i' <-> lib ∈ i_imported i \/ lib ∈ map import_Name imps) /\
  forall q ns, i_nsPrefixes i' !! q = Some ns <->
    i_nsPrefixes i !! q = Some ns \/ exists imp, imp ∈ imps /\ prefixOf imp = q /\ import_Name imp = ns /\ ns ∈ i_knownNamespaces i.
Proof.
  induction imps as [ | imp imps IH]; intros seen i i'; cbn [importLoop].
  { intros [= <-]. split_and!; try done; [set_solver | ]. intros q ns. split; [by left | ]. intros [ | (? & []%elem_of_nil & _)]; done. }
  case_bool_decide; [done | ]. destruct (bool_decide (import_Name imp ∈ libsWithGlobals r) && _); [done | ]. cbn [andb].
  destruct (globalsError r i imp); [done | ]. destruct (bindNamespace (activate r i (import_Name imp)) imp) as [i1 [e | ]] eqn:Eb; [done | ].
  intros Hi. destruct (bindNamespace_spec _ _ _ Eb) as (Hk & Him & Ht & Hp). destruct (IH _ _ _ Hi) as (Ht' & Hk' & Him' & Hp').
  cbn [activate i_knownNamespaces i_imported i_tables i_nsPrefixes] in *. split_and!.
  - congruence.
  - congruence.
  - intros lib. rewrite Him', Him. cbn [map]. rewrite elem_of_cons. set_solver.
  - intros q ns. rewrite Hp', Hp, Hk. split.
    + intros [[H1 | H1] | (imp' & H1 & H2)]; [by left | right; exists imp; split; [by left | done] | right; exists imp'; split; [by right | done]].
    + intros [H1 | (imp' & [-> | H1]%elem_of_cons & H2)]; [by left; left | by left; right | right; by exists imp'].
Qed.

Theorem use_statements_exact r i prog i' : i_nsPrefixes i = ∅ -> processImports r false i prog = (i', None) ->
  (forall lib, lib ∈ i_imported i' <-> lib ∈ i_imported i \/ lib ∈ map import_Name (prog_Imports prog)) /\
  (forall q ns, i_nsPrefixes i' !! q = Some ns <->
    exists imp, imp ∈ prog_Imports prog /\ prefixOf imp = q /\ import_Name imp = ns /\ ns ∈ i_knownNamespaces i) /\
  ((forall imp, imp ∈ prog_Imports prog -> import_AsName imp ∉ i_knownNamespaces i) ->
    forall q ns, i_nsPrefixes i' !! q = Some ns -> i_nsPrefixes i' !! ns = None \/ i_nsPrefixes i' !! ns = Some ns).
Proof.
  intros He Hi. destruct (importLoop_spec _ _ _ _ _ _ Hi) as (_ & _ & Him & Hp).
  assert (Hp' : forall q ns, i_nsPrefixes i' !! q = Some ns <->
    exists imp, imp ∈ prog_Imports prog /\ prefixOf imp = q /\ import_Name imp = ns /\ ns ∈ i_knownNamespaces i).
  { intros q ns. rewrite Hp, He, lookup_empty. naive_solver. }
  split_and!; [done | done | ]. intros Hal q ns Hq. apply Hp' in Hq as (imp & _ & _ & _ & Hk).
  destruct (i_nsPrefixes i' !! ns) as [ns' | ] eqn:E; [right | by left]. apply Hp' in E as (imp' & Hin & Hpre & Hname & _).
  unfold prefixOf in Hpre. case_bool_decide; [congruence | ]. subst ns. by destruct (Hal imp' Hin).
Qed.

(** ** Up to the imports of modules *)

Lemma hoistTypes_aliases i prog t : hoistTypes i prog = Some (Ok t) -> moduleAliases t = moduleAliases i.
Proof.
  assert (Hs : forall ss a b, hoistStructs a ss = Ok b -> moduleAliases b = moduleAliases a).
  { induction ss as [ | s ss IH]; intros a b; cbn [hoistStructs]; [by intros [= <-] | ]. destruct (structs a !! _); [done | ]. intros H. by rewrite (IH _ _ H). }
  assert (He : forall es a b, hoistEnums a es = Ok b -> moduleAliases b = moduleAliases a).
  { induction es as [ | e es IH]; intros a b; cbn [hoistEnums]; [by intros [= <-] | ].
    destruct (structs a !! _); [done | ]. destruct (enums a !! _); [done | ]. intros H. by rewrite (IH _ _ H). }
  unfold hoistTypes. destruct (hoistStructs _ _) as [a | ] eqn:Ea; cbn; [ | done]. destruct (hoistEnums a _) as [b | ] eqn:Eb; [ | done].
  destruct (checkStructCycles b) as [[ | ] | ]; try done. destruct (checkEnumZeroCycles b) as [[ | ] | ]; try done. intros [= <-].
  rewrite (He _ _ _ Eb), (Hs _ _ _ Ea). unfold hoistError. by destruct (structs i !! _).
Qed.

Lemma hoistMethods_tables ms i j : hoistMethods i ms = Ok j -> i_tables j = i_tables i.
Proof.
  revert i. induction ms as [ | m ms IH]; intros i; cbn [hoistMethods]; [by intros [= <-] | ]. destruct (i_methods i !! _); [done | ].
  destruct (checkMethodNoShadow i m); [done | ]. intros H. by rewrite (IH _ H).
Qed.

Lemma hoistTypes_returns i prog : exists x, hoistTypes i prog = Some x.
Proof.
  unfold hoistTypes. destruct (let? j := hoistStructs (hoistError i) (prog_Structs prog) in hoistEnums j (prog_Enums prog)) as [t | e]; [ | by eexists].
  destruct (checks_return t) as (r1 & r2 & -> & ->). destruct r1; [ | by eexists]. destruct r2; by eexists.
Qed.

(** Loading a program's own declarations always returns and binds no module alias. *)
Lemma runToImports_aliases r i prog : exists x, runToImports r i prog = Some x /\
  forall j, x = Ok j -> moduleAliases (i_tables j) = moduleAliases (i_tables i).
Proof.
  unfold runToImports. destruct (processImports r false i prog) as [i1 [e | ]] eqn:Ep; [by eexists | ].
  destruct (importLoop_spec _ _ _ _ _ _ Ep) as (Ht & _). rewrite Ht.
  destruct (hoistTypes_returns (i_tables i) prog) as [x Hx]. rewrite Hx. destruct x as [t | e]; [ | by eexists].
  eexists. split; [done | ]. intros j Hj. rewrite (hoistMethods_tables _ _ _ Hj). cbn. by eapply hoistTypes_aliases.
Qed.
