(* ===== verification/Modules.v ===== *)
(** * The module loader (internal/interpreter/module.go, internal/module/resolve.go)

    The checks on a module's top level and on what it exports, and the loader: one registry with
    the cache of loaded modules and the stack of those that are loading, shared by the
    interpreters of a program; the file an import path names; the load phase of an interactive
    input and the check of matches on enums of modules.  The file system, the reading of files
    and [Run] after the imports are parameters. *)

From Stdlib Require Import Ascii.
From S2P Require Import Prelude GoInt GoSort Utf8 Types Value Ast Ops Display Defs Store Interp Load.
Open Scope string_scope.
Open Scope list_scope.
Open Scope Z_scope.
Open Scope go_scope.

(** ** What a module may hold and publish *)

Definition rtError (p : position) (fmt : string) (args : list fmtarg) : evalError := ERuntime (mkRuntimeError (Sprintf fmt args) p "").

(** [posFor] of a statement. *)
Definition stmtPos (s : Stmt) : position :=
  match s with
  | DefineStmt p _ _ _ _ _ _ _ | AssignStmt p _ _ _ _ | IndexAssignStmt p _ _ | AppendStmt p _ _ | FieldAssignStmt p _ _
  | IfStmt p _ _ _ _ | MatchStmt p _ _ _ _ | WhileStmt p _ _ | ForStmt p _ _ _ _ _ | ForEachStmt p _ _ _ _ | ReturnStmt p _
  | BreakStmt p | ContinueStmt p | RepeatStmt p _ _ | ExitStmt p _ | TryStmt p _ _ _ _ _ | ThrowStmt p _ | DeferStmt p _ _
  | ExprStmt p _ => p
  end.

Definition collectExports (prog : Program) : gset string :=
  list_to_set (map method_Name (filter (fun m => method_Exported m = true) (prog_Methods prog))) ∪
  list_to_set (map struct_Name (filter (fun s => struct_Exported s = true) (prog_Structs prog))) ∪
  list_to_set (map enum_Name (filter (fun e => enum_Exported e = true) (prog_Enums prog))) ∪
  list_to_set (omap (fun st => match st with DefineStmt _ true true n _ _ _ _ => Some n | _ => None end) (prog_TopLevel prog)).

Fixpoint checkDeclarations (ss : list Stmt) : option evalError :=
  match ss with
  | [] => None
  | DefineStmt _ true _ _ _ _ _ _ :: ss => checkDeclarations ss
  | DefineStmt p false _ _ _ _ _ _ :: _ =>
      Some (rtError p "mutable `def` is not allowed at a module's top level (a module holds no mutable state); use `def const` for a module constant" [])
  | s :: _ =>
      Some (rtError (stmtPos s) "a module's top level allows only declarations (`def const`, `def struct`, `func`, `use`, `import`); free-standing statements are not allowed" [])
  end.

Definition checkModuleDeclarationsOnly (prog : Program) : option evalError := checkDeclarations (prog_TopLevel prog).

(** [privateStructIn]: a private struct of the module in a type ([""] is [None]). *)
Fixpoint privateStructIn (moduleStructs exports : gset string) (t : Typ) : option string :=
  match t with
  | TypeStruct ns _ name =>
      if bool_decide (ns = "") && bool_decide (name ∈ moduleStructs) && bool_decide (name ∉ exports) then Some name else None
  | TypeList (Some e) | TypeTask (Some e) => privateStructIn moduleStructs exports e
  | TypeMap (Some (k, v)) =>
      match privateStructIn moduleStructs exports k with
      | Some n => Some n
      | None => privateStructIn moduleStructs exports v
      end
  | _ => None
  end.

Section Closure.
Variables moduleStructs exports : gset string.

Fixpoint closedFields (s : StructDef) (fs : list StructFieldDecl) : option evalError :=
  match fs with
  | [] => None
  | f :: fs =>
      match privateStructIn moduleStructs exports (field_Type f) with
      | Some bad =>
          Some (rtError (field_pos f) "exported struct %q exposes private struct %q through field %q; `export` %q too, or drop the field"
            [AStr (struct_Name s); AStr bad; AStr (field_Name f); AStr bad])
      | None => closedFields s fs
      end
  end.

Fixpoint closedStructs (ss : list StructDef) : option evalError :=
  match ss with
  | [] => None
  | s :: ss =>
      if negb (struct_Exported s) then closedStructs ss
      else match closedFields s (struct_Fields s) with Some e => Some e | None => closedStructs ss end
  end.

Fixpoint closedParams (m : MethodDef) (ps : list Param) : option evalError :=
  match ps with
  | [] => None
  | q :: ps =>
      match privateStructIn moduleStructs exports (param_Type q) with
      | Some bad =>
          Some (rtError (param_pos q) "exported func %q takes private struct %q as parameter %q; `export` %q too"
            [AStr (method_Name m); AStr bad; AStr (param_Name q); AStr bad])
      | None => closedParams m ps
      end
  end.

Fixpoint closedMethods (ms : list MethodDef) : option evalError :=
  match ms with
  | [] => None
  | m :: ms =>
      if negb (method_Exported m) then closedMethods ms
      else match closedParams m (method_Params m) with Some e => Some e | None => closedMethods ms end
  end.
End Closure.

Definition checkReferentialClosure (prog : Program) (exports : gset string) : option evalError :=
  let moduleStructs := list_to_set (map struct_Name (prog_Structs prog)) in
  match closedStructs moduleStructs exports (prog_Structs prog) with
  | Some e => Some e
  | None => closedMethods moduleStructs exports (prog_Methods prog)
  end.

Definition exportMsg : string := "`export` is only allowed in a module; this file is run as a script, which has no importers".

Definition rejectExportInScript (prog : Program) : option evalError :=
  match filter (fun m => method_Exported m = true) (prog_Methods prog),
        filter (fun s => struct_Exported s = true) (prog_Structs prog),
        filter (fun e => enum_Exported e = true) (prog_Enums prog),
        omap (fun st => match st with DefineStmt p _ true _ _ _ _ _ => Some p | _ => None end) (prog_TopLevel prog) with
  | m :: _, _, _, _ => Some (rtError (method_pos m) exportMsg [])
  | [], s :: _, _, _ => Some (rtError (struct_pos s) exportMsg [])
  | [], [], e :: _, _ => Some (rtError (enum_pos e) exportMsg [])
  | [], [], [], p :: _ => Some (rtError p exportMsg [])
  | [], [], [], [] => None
  end.

(** ** Interactive inputs ([EvalInteractive] up to its module imports) *)

(** An input may declare a type or a method again. *)
Definition redeclare (i : Tables) (prog : Program) : Tables :=
  let i := hoistError i in
  let i := setStructs i (foldl (fun m s => <[struct_Name s := s]> m) (structs i) (prog_Structs prog)) in
  setEnums i (foldl (fun m e => <[enum_Name e := e]> m) (enums i) (prog_Enums prog)).

Fixpoint redeclareMethods (i : Interpreter) (ms : list MethodDef) : Interpreter * option evalError :=
  match ms with
  | [] => (i, None)
  | m :: ms =>
      match checkMethodNoShadow i m with
      | Some e => (i, Some e)
      | None => redeclareMethods (setMethods i (<[method_Name m := m]> (i_methods i))) ms
      end
  end.

(** The interpreter the next input finds, and the error of this one. *)
Definition inputToImports (r : Registry) (isModule : bool) (i : Interpreter) (prog : Program) : option (Interpreter * option evalError) :=
  match processImports r true i prog with
  | (i, Some e) => Some (i, Some e)
  | (i, None) =>
      match (if isModule then None else rejectExportInScript prog) with
      | Some e => Some (i, Some e)
      | None =>
          let i := setTables i (redeclare (i_tables i) prog) in
          match checkStructCycles (i_tables i) with
          | Some (Err e) => Some (i, Some e)
          | Some (Ok _) =>
              match checkEnumZeroCycles (i_tables i) with
              | Some (Err e) => Some (i, Some e)
              | Some (Ok _) => Some (redeclareMethods i (prog_Methods prog))
              | None => None
              end
          | None => None
          end
      end
  end.

(** ** Matches on enums of modules ([validatePendingEnumMatches]) *)

Definition variantNamed (ed : EnumDef) (name : string) : option EnumVariant := last (filter (fun v => variant_Name v = name) (enum_Variants ed)).

Fixpoint checkArmLoop (ed : EnumDef) (typeName : string) (arms : list MatchArm) (covered : gset string) : gset string + evalError :=
  match arms with
  | [] => inl covered
  | mkArm p _ _ variant bind _ :: arms =>
      match variantNamed ed variant with
      | None => inr (rtError p "%q is not a variant of enum %s" [AStr variant; AStr typeName])
      | Some vdef =>
          if bool_decide (variant ∈ covered) then inr (rtError p "variant %s is covered more than once in this `match`" [AStr variant])
          else
            let covered := {[variant]} ∪ covered in
            if bool_decide (bind <> "") && bool_decide (variant_Fields vdef = [])
            then inr (rtError p "variant %s has no payload to bind (write `when %s`)" [AStr variant; AStr variant])
            else checkArmLoop ed typeName arms covered
      end
  end.

Definition checkEnumArms (p : position) (arms : list MatchArm) (els : option Block) (ed : EnumDef) (typeName : string) : option evalError :=
  match checkArmLoop ed typeName arms ∅ with
  | inr e => Some e
  | inl covered =>
      match els with
      | Some _ => None
      | None =>
          match filter (fun n => n ∉ covered) (map variant_Name (enum_Variants ed)) with
          | [] => None
          | missing =>
              Some (rtError p "`match` on enum %s is not exhaustive: missing %s (cover every variant or add an `else`)"
                [AStr typeName; AStr (String.concat ", " missing)])
          end
      end
  end.

(** The fields that name a type; empty for the others. *)
Definition typeName3 (t : Typ) : string * string * string := match t with TypeStruct ns mp name => (ns, mp, name) | _ => ("", "", "") end.

(** The matches the resolver left pending; one without a type is skipped. *)
Fixpoint validatePendingEnumMatches (i : Interpreter) (pending : list Stmt) : option evalError :=
  match pending with
  | MatchStmt p _ arms els (Some t) :: pending =>
      let t := fst (resolveDeclaredStructNS i p t) in
      let '(ns, mp, name) := typeName3 t in
      match lookupEnumDef (i_tables i) ns name mp with
      | None => Some (rtError p "`match` uses variant patterns, but its subject type %s is not an enum" [AStr (Type_String t)])
      | Some ed =>
          match checkEnumArms p arms els ed (Type_String t) with
          | Some e => Some e
          | None => validatePendingEnumMatches i pending
          end
      end
  | _ :: pending => validatePendingEnumMatches i pending
  | [] => None
  end.

(** ** Module aliases *)

(** [filepath.Base] of a slash-separated path. *)
Fixpoint afterSlash (l seg : list ascii) : list ascii :=
  match l with
  | [] => seg
  | c :: l => if bool_decide (c = "/"%char) then afterSlash l [] else afterSlash l (seg ++ [c])
  end.

Fixpoint dropSlashes (l : list ascii) : list ascii :=
  match l with c :: l' => if bool_decide (c = "/"%char) then dropSlashes l' else l | [] => [] end.

Definition Base (path : string) : string :=
  match String.list_ascii_of_string path with
  | [] => "."
  | l =>
      match reverse (dropSlashes (reverse l)) with
      | [] => "/"
      | l => String.string_of_list_ascii (afterSlash l [])
      end
  end.

Definition TrimSuffixJ (s : string) : string :=
  match reverse (String.list_ascii_of_string s) with
  | "j"%char :: "."%char :: l => String.string_of_list_ascii (reverse l)
  | _ => s
  end.

Definition moduleStem (importPath : string) : string := TrimSuffixJ (Base importPath).

Definition setAliases (i : Interpreter) (a : gmap string loadedModule) : Interpreter :=
  mkInterp (i_self i) (mkTables (structs (i_tables i)) (enums (i_tables i)) (NSStructs (i_tables i)) a)
    (i_methods i) (i_methodAddr i) (i_builtins i) (i_libConstants i) (i_imported i) (i_nsPrefixes i) (i_nsAliasedAway i)
    (i_knownNamespaces i) (i_nsBuiltins i) (i_entryGlobalsImmutable i) (i_cellBytes i).

(** A module is one object of the registry, so two of them are the same when their paths are. *)
Definition bindModuleAlias (i : Interpreter) (alias : string) (m : loadedModule) (p : position) : res Interpreter :=
  match i_nsPrefixes i !! alias with
  | Some _ => rtErr p "module alias %q collides with an imported library namespace; import the module `as` a different name" [AStr alias]
  | None =>
      match moduleAliases (i_tables i) !! alias with
      | Some existing =>
          if bool_decide (mod_path existing = mod_path m) then Ok i
          else rtErr p "module alias %q is already bound; import the module `as` a different name" [AStr alias]
      | None => Ok (setAliases i (<[alias := m]> (moduleAliases (i_tables i))))
      end
  end.

(** ** Loading *)

(** The registry, with the modules in the order in which their bodies finished. *)
Record moduleReg := mkReg {
  cache : gmap string loadedModule;
  stack : list string;
  ran : list string
}.

Definition push (c : string) (reg : moduleReg) : moduleReg := mkReg (cache reg) (stack reg ++ [c]) (ran reg).
Definition pop (reg : moduleReg) : moduleReg := mkReg (cache reg) (removelast (stack reg)) (ran reg).
Definition store (m : loadedModule) (reg : moduleReg) : moduleReg :=
  mkReg (<[mod_path m := m]> (cache reg)) (stack reg) (ran reg ++ [mod_path m]).

Section Loader.
(** [module.Resolve] from a directory (memoised by the registry; [ResolvePath] below),
    [filepath.Dir], [module.InDir]
    of the system directory, the reading and parsing of a file, and [Run] before and after the
    imports of a module are loaded. *)
Variable Resolve : string -> string -> result message string.
Variable Dir : string -> string.
Variable InSysmod : string -> bool.
Variable load : string -> res Program.
Variable runBefore : string -> Program -> res Interpreter.
Variable runAfter : Program -> Interpreter -> res Interpreter.

Abbreviation lres A := (option (res A * moduleReg)) (only parsing).

(** With a registry; without one, an import is an error at its statement. *)
Section Imports.
Variable loadModule : string -> string -> position -> moduleReg -> lres loadedModule.

Fixpoint loadModuleImports (baseDir : string) (i : Interpreter) (ms : list ModuleImportStmt) (reg : moduleReg) : lres Interpreter :=
  match ms with
  | [] => Some (Ok i, reg)
  | mi :: ms =>
      match loadModule baseDir (modimport_Path mi) (modimport_pos mi) reg with
      | Some (Ok m, reg) =>
          let alias := if bool_decide (modimport_AsName mi = "") then moduleStem (modimport_Path mi) else modimport_AsName mi in
          match bindModuleAlias i alias m (modimport_pos mi) with
          | Ok i => loadModuleImports baseDir i ms reg
          | Err e => Some (Err e, reg)
          end
      | Some (Err e, reg) => Some (Err e, reg)
      | None => None
      end
  end.

(** [sub.Run(modProg)] *)
Definition runModule (canonical : string) (prog : Program) (reg : moduleReg) : lres Interpreter :=
  match runBefore canonical prog with
  | Err e => Some (Err e, reg)
  | Ok sub =>
      match loadModuleImports (Dir canonical) sub (prog_ModuleImports prog) reg with
      | Some (Ok sub, reg) => Some (runAfter prog sub, reg)
      | r => r
      end
  end.
End Imports.

Definition newModule (canonical : string) (exports : gset string) (sub : Interpreter) : loadedModule :=
  mkModule canonical (moduleStem canonical) (structs (i_tables sub)) (enums (i_tables sub)) (dom (i_methods sub)) exports (InSysmod canonical).

(** The chain of the message is [stack -> ... -> canonical]. *)
Definition moduleCycle (reg : moduleReg) (canonical : string) (p : position) : evalError :=
  rtError p "module cycle: " (map AStr (stack reg ++ [canonical])).

Fixpoint loadModule (fuel : nat) (baseDir importPath : string) (p : position) (reg : moduleReg) : lres loadedModule :=
  match fuel with
  | O => None
  | S fuel =>
      match Resolve baseDir importPath with
      | Err msg => Some (Err (ERuntime (mkRuntimeError msg p "")), reg)
      | Ok canonical =>
          if bool_decide (canonical ∈ stack reg) then Some (Err (moduleCycle reg canonical p), reg)
          else
            match cache reg !! canonical with
            | Some m => Some (Ok m, reg)
            | None =>
                match load canonical with
                | Err e => Some (Err e, reg)
                | Ok prog =>
                    match checkModuleDeclarationsOnly prog with
                    | Some e => Some (Err e, reg)
                    | None =>
                        let exports := collectExports prog in
                        match checkReferentialClosure prog exports with
                        | Some e => Some (Err e, reg)
                        | None =>
                            match runModule (loadModule fuel) canonical prog (push canonical reg) with
                            | Some (Ok sub, reg) =>
                                let m := newModule canonical exports sub in
                                Some (Ok m, store m (pop reg))
                            | Some (Err e, reg) => Some (Err e, pop reg)
                            | None => None
                            end
                        end
                    end
                end
            end
      end
  end.
End Loader.

(** * Where a module's file is (internal/module/resolve.go)

    Import paths on a system with slash-separated paths, over the file system as a parameter. *)

(** ** Paths ([strings.Split], [path/filepath]) *)

Fixpoint segments (s : string) : list string :=
  match s with
  | "" => [""]
  | String c s =>
      if bool_decide (c = "/"%char) then "" :: segments s
      else match segments s with seg :: rest => String c seg :: rest | [] => [String c ""] end
  end.

Definition IsAbs (s : string) : bool := match s with String c _ => bool_decide (c = "/"%char) | "" => false end.

(** The elements kept so far, the last one first. *)
Definition cleanStep (rooted : bool) (acc : list string) (seg : string) : list string :=
  if bool_decide (seg = "") || bool_decide (seg = ".") then acc
  else if bool_decide (seg = "..") then
    match acc with
    | [] => if rooted then [] else [".."]
    | a :: acc' => if bool_decide (a = "..") then ".." :: acc else acc'
    end
  else seg :: acc.

Definition cleanSegments (s : string) : list string := reverse (foldl (cleanStep (IsAbs s)) [] (segments s)).

Definition Clean (s : string) : string :=
  match IsAbs s, cleanSegments s with
  | true, out => "/" +:+ String.concat "/" out
  | false, [] => "."
  | false, out => String.concat "/" out
  end.

Definition JoinPath (elems : list string) : string :=
  match filter (fun e => e <> "") elems with [] => "" | l => Clean (String.concat "/" l) end.

(** ** Import paths *)

(** The first 256 runes of a path in an error message. *)
Fixpoint truncRunes (n : nat) (s : string) : string :=
  match n, s with
  | _, "" => ""
  | O, _ => "..."
  | S n, s => let w := snd (decodeRune s) in stake w s +:+ truncRunes n (sdrop w s)
  end.
Definition truncPath (p : string) : string := truncRunes 256 p.

Definition hasChar (c : ascii) (s : string) : bool := existsb (fun d => bool_decide (d = c)) (String.list_ascii_of_string s).
Definition hasSuffixJ (s : string) : bool :=
  match reverse (String.list_ascii_of_string s) with "j"%char :: "."%char :: _ => true | _ => false end.
Definition hasPrefix (p s : string) : bool := String.prefix p s.

Inductive Kind := Local | Absolute | Module_.

Definition Classify (importPath : string) : result message Kind :=
  if bool_decide (importPath = "") then Err (Sprintf "empty import path" [])
  else if hasChar "\"%char importPath then
    Err (Sprintf "import path %q must use '/' separators, not '\' (paths are OS-independent)" [AStr (truncPath importPath)])
  else if negb (hasSuffixJ importPath) then Err (Sprintf "import path %q must end in '.j'" [AStr (truncPath importPath)])
  else if hasPrefix "./" importPath || hasPrefix "../" importPath then Ok Local
  else if IsAbs importPath then Ok Absolute
  else Ok Module_.

Definition badSegment (s : string) : bool := bool_decide (s = ".") || bool_decide (s = "..") || bool_decide (s = "").

Inductive StatResult := NotExist | StatError (reason : string) | IsDir | IsFile.

Section Files.
(** [os.Getwd], [filepath.EvalSymlinks], [os.Stat]. *)
Variable Getwd : string + string.
Variable EvalSymlinks : string -> option string.
Variable Stat : string -> StatResult.

(** The error side is the reason. *)
Definition Abs (path : string) : string + string :=
  if IsAbs path then inl (Clean path)
  else match Getwd with inl wd => inl (JoinPath [wd; path]) | inr reason => inr reason end.

Definition resolveReal (abs : string) : string := let cleaned := Clean abs in default cleaned (EvalSymlinks cleaned).

Definition canonical (path : string) : result message string :=
  match Abs path with
  | inl abs => Ok (resolveReal abs)
  | inr reason => Err (Sprintf "cannot resolve %q: %s" [AStr (truncPath path); AStr reason])
  end.

Definition RealPath (path : string) : string :=
  match Abs path with inl abs => resolveReal abs | inr _ => Clean path end.

Definition InDir (path dir : string) : bool :=
  if bool_decide (dir = "") then false else hasPrefix (RealPath dir +:+ "/") path.

(** The files found, by their canonical paths, each once. *)
Fixpoint searchLoop (importPath native : string) (dirs matches : list string) : result message (list string) :=
  match dirs with
  | [] => Ok matches
  | dir :: dirs =>
      let cand := JoinPath [dir; native] in
      match Stat cand with
      | StatError reason => Err (Sprintf "module %q: cannot access a candidate on the search path: %s" [AStr (truncPath importPath); AStr reason])
      | NotExist | IsDir => searchLoop importPath native dirs matches
      | IsFile =>
          match canonical cand with
          | Err e => Err e
          | Ok c => searchLoop importPath native dirs (if bool_decide (c ∈ matches) then matches else matches ++ [c])
          end
      end
  end.

Definition resolveModule (importPath native : string) (searchDirs : list string) : result message string :=
  match searchLoop importPath native searchDirs [] with
  | Err e => Err e
  | Ok [c] => Ok c
  | Ok [] =>
      if bool_decide (searchDirs = []) then Err (Sprintf "module %q not found: the module search path is empty" [AStr (truncPath importPath)])
      else Err (Sprintf "module %q not found on the search path %v" (AStr (truncPath importPath) :: map AStr searchDirs))
  | Ok matches => Err (Sprintf "module %q is ambiguous: found in multiple search dirs: %s" [AStr (truncPath importPath); AStr (String.concat ", " matches)])
  end.

(** [@scope/package[/file.j]] below the vendor directory. *)
Definition resolveVendor (importPath vendorRoot : string) : result message string :=
  let path := AStr (truncPath importPath) in
  if bool_decide (vendorRoot = "") then
    Err (Sprintf "import %q needs a vendor directory, but none was found (pass --vendor DIR, set JENNIFER_VENDOR, or add a `vendor/` dir above the program)" [path])
  else if hasChar "\"%char importPath then Err (Sprintf "import path %q must use '/' separators, not '\'" [path])
  else
    let rest := sdrop 1 importPath in
    if hasChar "@"%char rest then Err (Sprintf "import path %q: '@' is only valid as the first character" [path])
    else
      let explicitFile := hasSuffixJ rest in
      let rest := match reverse (String.list_ascii_of_string rest) with
                  | "/"%char :: l => String.string_of_list_ascii (reverse l)
                  | _ => rest
                  end in
      match segments rest with
      | scope :: pkg :: more =>
          if bool_decide (scope = "") || bool_decide (pkg = "") then Err (Sprintf "import path %q must be @scope/package[/file.j]" [path])
          else if existsb badSegment (segments rest) then Err (Sprintf "import path %q must not contain '.' or '..' segments" [path])
          else
            match canonical (JoinPath [vendorRoot; scope; pkg]) with
            | Err e => Err e
            | Ok deckRoot =>
                let finish target :=
                  match canonical target with
                  | Err e => Err e
                  | Ok c =>
                      if bool_decide (c <> deckRoot) && negb (hasPrefix (deckRoot +:+ "/") c)
                      then Err (Sprintf "import path %q resolves outside its package directory" [path])
                      else Ok c
                  end in
                if explicitFile then finish (JoinPath [vendorRoot; rest])
                else if bool_decide (more = []) then finish (JoinPath [deckRoot; pkg +:+ ".j"])
                else Err (Sprintf "import path %q: only @scope/package expands to an entry file; a subdirectory needs an explicit `.j` file" [path])
            end
      | _ => Err (Sprintf "import path %q must be @scope/package[/file.j]" [path])
      end.

Definition ResolvePath (searchDirs : list string) (vendorRoot importingDir importPath : string) : result message string :=
  if hasPrefix "@" importPath then resolveVendor importPath vendorRoot
  else
    match Classify importPath with
    | Err e => Err e
    | Ok Local => canonical (JoinPath [importingDir; importPath])
    | Ok Absolute => canonical importPath
    | Ok Module_ =>
        if existsb badSegment (segments importPath)
        then Err (Sprintf "import path %q must not contain '.' or '..' segments (use `./` for a local file relative to the importer)" [AStr (truncPath importPath)])
        else resolveModule importPath importPath searchDirs
    end.
End Files.
