(* ===== verification/ModulesFacts.v ===== *)
(** * Modules are loaded once, after what they import

    The loader ends, keeps its stack, runs a module at most once and after its imports, and
    reports a cycle only when the imports have one; what the checks on exports guarantee. *)

From Stdlib Require Import Relations Ascii.
From S2P Require Import Prelude GoInt GoSort Utf8 Types Value Ast Ops Parser Resolver Display Defs Store Interp Eval Load LoadFacts Modules.
Open Scope string_scope.
Open Scope list_scope.
Open Scope Z_scope.
Open Scope go_scope.

Section Loading.
Variable Resolve : string -> string -> result message string.
Variable Dir : string -> string.
Variable InSysmod : string -> bool.
Variable load : string -> res Program.
Variable runBefore : string -> Program -> res Interpreter.
Variable runAfter : Program -> Interpreter -> res Interpreter.

Abbreviation loadM := (loadModule Resolve Dir InSysmod load runBefore runAfter).

(** The files a file imports. *)
Definition imports (c : string) : list (unit * string) :=
  match load c with
  | Ok prog => omap (fun mi => match Resolve (Dir c) (modimport_Path mi) with Ok d => Some (tt, d) | Err _ => None end) (prog_ModuleImports prog)
  | Err _ => []
  end.

(** What a registry keeps: the stack is a chain of imports, the cache holds the modules that ran,
    each after the modules it imports. *)
Record wf (reg : moduleReg) : Prop := {
  w_stack : NoDup (stack reg);
  w_chain : LoadFacts.stack imports (reverse (stack reg));
  w_apart : forall c, c ∈ stack reg -> c ∉ ran reg;
  w_once : NoDup (ran reg);
  w_order : topo imports (reverse (ran reg));
  w_cache : forall c, is_Some (cache reg !! c) <-> c ∈ ran reg;
  w_path : forall c m, cache reg !! c = Some m -> mod_path m = c
}.

(** Later registries. *)
Record grows (reg reg' : moduleReg) : Prop := {
  g_stack : stack reg' = stack reg;
  g_cache : cache reg ⊆ cache reg';
  g_ran : exists l, ran reg' = ran reg ++ l
}.

Lemma grows_refl reg : grows reg reg.
Proof. split; [done | done | by exists []; rewrite app_nil_r]. Qed.

Lemma grows_trans a b c : grows a b -> grows b c -> grows a c.
Proof.
  intros [Ha Hb [l Hl]] [Hc Hd [l' Hl']]. split; [congruence | by etrans | ]. exists (l ++ l'). by rewrite Hl', Hl, app_assoc.
Qed.

Lemma grows_in a b c : grows a b -> c ∈ ran a -> c ∈ ran b.
Proof. intros [_ _ [l ->]] Hc. apply elem_of_app. by left. Qed.

(** Where an error other than a cycle comes from. *)
Inductive origin : evalError -> Prop :=
  | o_resolve b q p msg : Resolve b q = Err msg -> origin (ERuntime (mkRuntimeError msg p ""))
  | o_load c e : load c = Err e -> origin e
  | o_declarations prog e : checkModuleDeclarationsOnly prog = Some e -> origin e
  | o_closure prog e : checkReferentialClosure prog (collectExports prog) = Some e -> origin e
  | o_before c prog e : runBefore c prog = Err e -> origin e
  | o_alias i a m p e : bindModuleAlias i a m p = Err e -> origin e
  | o_after prog i e : runAfter prog i = Err e -> origin e.

Definition failed (e : evalError) : Prop := origin e \/ cyclic imports.

(** A cached module, and the aliases of an interpreter that name cached modules. *)
Definition cached (reg : moduleReg) (m : loadedModule) : Prop := cache reg !! mod_path m = Some m.
Definition aliasesCached (reg : moduleReg) (i : Interpreter) : Prop :=
  forall a m, moduleAliases (i_tables i) !! a = Some m -> cached reg m.

Lemma cached_grows a b m : grows a b -> cached a m -> cached b m.
Proof. intros [_ Hc _] Hm. unfold cached in *. by eapply lookup_weaken. Qed.

Lemma wf_push c reg : wf reg -> c ∉ stack reg -> c ∉ ran reg ->
  match last (stack reg) with Some t => edge imports t c | None => True end -> wf (push c reg).
Proof.
  intros [H1 H2 H3 H4 H5 H6 H7] Hs Hr He. split; cbn [push stack ran cache]; try done.
  - apply NoDup_app. split_and!; [done | | apply NoDup_singleton]. intros d Hd ->%list_elem_of_singleton. done.
  - rewrite reverse_app. cbn. destruct (stack reg) as [ | t l] using rev_ind; [done | ]. rewrite last_snoc in He. rewrite reverse_app in *. done.
  - intros d [Hd | ->%list_elem_of_singleton]%elem_of_app; [by apply H3 | done].
Qed.

Lemma pop_push c reg reg' : grows (push c reg) reg' -> stack (pop reg') = stack reg.
Proof. intros [Hs _ _]. cbn. rewrite Hs. cbn. apply removelast_last. Qed.

Lemma wf_pop c reg reg' : wf reg -> grows (push c reg) reg' -> wf reg' -> wf (pop reg').
Proof.
  intros Hr Hg [H1 H2 H3 H4 H5 H6 H7]. pose proof (pop_push _ _ _ Hg) as Hp. split; try done; rewrite ?Hp.
  - apply Hr.
  - apply Hr.
  - intros d Hd. apply H3. rewrite (g_stack _ _ Hg). cbn. apply elem_of_app. by left.
Qed.

Lemma grows_pop c reg reg' : grows (push c reg) reg' -> grows reg (pop reg').
Proof. intros Hg. split; [by eapply pop_push | apply Hg | apply Hg]. Qed.

Lemma wf_store m reg : wf reg -> mod_path m ∉ stack reg -> mod_path m ∉ ran reg -> (forall d, d ∈ deps imports (mod_path m) -> d ∈ ran reg) -> wf (store m reg).
Proof.
  intros [H1 H2 H3 H4 H5 H6 H7] Hs Hr Hd. split; cbn [store stack ran cache]; try done.
  - intros c Hc [Hin | ->%list_elem_of_singleton]%elem_of_app; [by eapply H3 | done].
  - apply NoDup_app. split_and!; [done | | apply NoDup_singleton]. intros d Hd' ->%list_elem_of_singleton. done.
  - rewrite reverse_app. split; [ | done]. intros d Hdd. apply elem_of_reverse. by apply Hd.
  - intros c. rewrite elem_of_app, list_elem_of_singleton. destruct (decide (c = mod_path m)) as [-> | Hne].
    + rewrite lookup_insert_eq. split; [by right | by eexists].
    + rewrite lookup_insert_ne by done. rewrite H6. naive_solver.
  - intros c m'. destruct (decide (c = mod_path m)) as [-> | Hne]; [rewrite lookup_insert_eq; congruence | rewrite lookup_insert_ne by done; apply H7].
Qed.

Lemma grows_store m reg : mod_path m ∉ ran reg -> wf reg -> grows reg (store m reg).
Proof.
  intros Hr Hw. split; cbn [store stack ran cache]; [done | | by eexists]. apply insert_subseteq.
  destruct (cache reg !! mod_path m) eqn:E; [ | done]. destruct Hr. apply (w_cache _ Hw). by eexists.
Qed.

(** *** The loader *)

Variable files : gset string.
Hypothesis Hfiles : forall b q c, Resolve b q = Ok c -> c ∈ files.

(** What a call of the loader leaves behind. *)
Definition outcome {A} (P : moduleReg -> A -> Prop) (reg : moduleReg) (r : option (res A * moduleReg)) : Prop :=
  exists x reg', r = Some (x, reg') /\ wf reg' /\ grows reg reg' /\ match x with Ok a => P reg' a | Err e => failed e end.

Lemma outcome_err {A} (P : moduleReg -> A -> Prop) reg e : wf reg -> failed e -> outcome P reg (Some (Err e, reg)).
Proof. intros Hw Hf. exists (Err e), reg. split_and!; [done | done | apply grows_refl | done]. Qed.

(** An import of the module on top of the stack. *)
Definition onTop (reg : moduleReg) (b q : string) : Prop :=
  forall c, Resolve b q = Ok c -> match last (stack reg) with Some t => edge imports t c | None => True end.

Definition loads (rec : string -> string -> position -> moduleReg -> option (res loadedModule * moduleReg)) (reg : moduleReg) : Prop :=
  forall b q p, onTop reg b q -> outcome (fun reg' m => cached reg' m /\ Resolve b q = Ok (mod_path m)) reg (rec b q p reg).

Lemma imports_ok rec b ms : forall i reg, wf reg -> (forall reg', wf reg' -> grows reg reg' -> loads rec reg') ->
  (forall mi, mi ∈ ms -> onTop reg b (modimport_Path mi)) -> aliasesCached reg i ->
  outcome (fun reg' i' => aliasesCached reg' i' /\ forall mi, mi ∈ ms -> exists c, Resolve b (modimport_Path mi) = Ok c /\ c ∈ ran reg') reg
    (loadModuleImports rec b i ms reg).
Proof.
  induction ms as [ | mi ms IH]; intros i reg Hw Hrec Htop Hal; cbn [loadModuleImports].
  { exists (Ok i), reg. split_and!; [done | done | apply grows_refl | done | ]. intros mi Hmi. by apply elem_of_nil in Hmi. }
  destruct (Hrec reg Hw (grows_refl reg) b (modimport_Path mi) (modimport_pos mi)) as (x & reg1 & -> & Hw1 & Hg1 & Hx); [apply Htop; by left | ].
  destruct x as [m | e]; [ | by exists (Err e), reg1]. destruct Hx as [Hm HR].
  assert (Hran : mod_path m ∈ ran reg1) by (apply (w_cache _ Hw1); by eexists).
  destruct (bindModuleAlias i _ m (modimport_pos mi)) as [i' | e] eqn:Eb; [ | exists (Err e), reg1; split_and!; try done; left; by eapply o_alias].
  assert (Hal' : aliasesCached reg1 i').
  { intros a m'. unfold bindModuleAlias in Eb. destruct (i_nsPrefixes i !! _); [done | ].
    destruct (moduleAliases (i_tables i) !! _) as [ex | ] eqn:Ea.
    - case_bool_decide; [injection Eb as <- | done]. intros Ha. eapply cached_grows; [exact Hg1 | by eapply Hal].
    - injection Eb as <-. cbn. rewrite lookup_insert_Some. intros [[_ <-] | [_ Ha]]; [done | ].
      eapply cached_grows; [exact Hg1 | by eapply Hal]. }
  destruct (IH i' reg1 Hw1) as (x & reg2 & -> & Hw2 & Hg2 & Hx).
  - intros reg' Hw' Hg'. apply Hrec; [done | by eapply grows_trans].
  - intros mi' Hmi' c. rewrite (g_stack _ _ Hg1). apply Htop. by right.
  - done.
  - exists x, reg2. split_and!; [done | done | by eapply grows_trans | ]. destruct x as [i2 | e]; [ | done]. destruct Hx as [Ha Hi]. split; [done | ].
    intros mi' [-> | Hmi']%elem_of_cons; [ | by apply Hi]. exists (mod_path m). split; [done | by eapply grows_in].
Qed.

(** A file on the stack that the top imports closes a cycle. *)
Lemma stack_cycle reg c : wf reg -> c ∈ stack reg -> match last (stack reg) with Some t => edge imports t c | None => True end -> cyclic imports.
Proof.
  intros Hw Hc He. pose proof (w_chain _ Hw) as Hch. destruct (stack reg) as [ | t l _] using rev_ind; [by apply elem_of_nil in Hc | ].
  rewrite last_snoc in He. rewrite reverse_app in Hch. cbn in Hch.
  destruct (stack_reach imports (reverse l) t c Hch) as [-> | Hr].
  - apply elem_of_app in Hc as [Hc | ->%list_elem_of_singleton]; [right; by apply elem_of_reverse | by left].
  - exists t. by apply t_step.
  - exists c. eapply t_trans; [exact Hr | by apply t_step].
Qed.

(** [Run] before its imports binds no alias. *)
Hypothesis Hbefore : forall c prog i, runBefore c prog = Ok i -> moduleAliases (i_tables i) = ∅.

Lemma run_spec rec c prog reg : wf reg -> load c = Ok prog -> last (stack reg) = Some c ->
  (forall reg', wf reg' -> grows reg reg' -> loads rec reg') ->
  outcome (fun reg' _ => forall d, d ∈ deps imports c -> d ∈ ran reg') reg (runModule Dir runBefore runAfter rec c prog reg).
Proof.
  intros Hw El Ht Hrec. unfold runModule. destruct (runBefore c prog) as [sub | e] eqn:Eb; [ | apply outcome_err; [done | left; by eapply o_before]].
  destruct (imports_ok rec (Dir c) (prog_ModuleImports prog) sub reg Hw Hrec) as (x & reg1 & -> & Hw1 & Hg1 & Hx).
  - intros mi Hmi d Hd. rewrite Ht. unfold edge, deps, imports. rewrite El. apply list_elem_of_fmap. exists (tt, d). split; [done | ].
    apply list_elem_of_omap. exists mi. by rewrite Hd.
  - intros a m. rewrite (Hbefore c prog sub Eb), lookup_empty. done.
  - destruct x as [sub' | e]; [ | by exists (Err e), reg1].
    exists (runAfter prog sub'), reg1. split_and!; try done. destruct (runAfter prog sub') as [i | e] eqn:Ea; [ | left; by eapply o_after].
    intros d. unfold deps, imports. rewrite El. intros ([[] d'] & -> & (mi & Hmi & E)%list_elem_of_omap)%list_elem_of_fmap.
    destruct Hx as [_ Hx]. destruct (Hx mi Hmi) as (d & Hd & Hr). rewrite Hd in E. injection E as ->. done.
Qed.

Lemma loadModule_spec fuel : forall reg, wf reg -> (forall c, c ∈ stack reg -> c ∈ files) -> (size files < fuel + length (stack reg))%nat -> loads (loadM fuel) reg.
Proof.
  induction fuel as [ | fuel IH]; intros reg Hw Hs Hf b q p Htop.
  { exfalso. assert (length (stack reg) <= size files)%nat; [ | lia]. rewrite <- (size_list_to_set (C := gset string) _ (w_stack _ Hw)).
    apply subseteq_size. intros m Hm. apply Hs. by apply elem_of_list_to_set in Hm. }
  cbn [loadModule]. destruct (Resolve b q) as [c | msg] eqn:ER; [ | apply outcome_err; [done | left; by eapply o_resolve]].
  pose proof (Htop c ER) as He. case_bool_decide as Hin.
  { apply outcome_err; [done | right]. by eapply stack_cycle. }
  destruct (cache reg !! c) as [m | ] eqn:Ec.
  { exists (Ok m), reg. pose proof (w_path _ Hw c m Ec) as Hp. split_and!; [done | done | apply grows_refl | unfold cached; by rewrite Hp | by rewrite Hp]. }
  assert (Hnr : c ∉ ran reg) by (intros Hc%(w_cache _ Hw); rewrite Ec in Hc; by destruct Hc).
  destruct (load c) as [prog | e] eqn:El; [ | apply outcome_err; [done | left; by eapply o_load]].
  destruct (checkModuleDeclarationsOnly prog) eqn:Ed; [apply outcome_err; [done | left; by eapply o_declarations] | ].
  destruct (checkReferentialClosure prog (collectExports prog)) eqn:Erc; [apply outcome_err; [done | left; by eapply o_closure] | ].
  pose proof (wf_push c reg Hw Hin Hnr He) as Hwp.
  destruct (run_spec (loadM fuel) c prog (push c reg) Hwp El) as (x & reg1 & -> & Hw1 & Hg1 & Hx).
  - cbn. by rewrite last_snoc.
  - intros reg' Hw' Hg'. pose proof (g_stack _ _ Hg') as Hst. cbn in Hst. apply IH; [done | | rewrite Hst, length_app; simpl; lia].
    rewrite Hst. intros d [Hd | ->%list_elem_of_singleton]%elem_of_app; [by apply Hs | by eapply Hfiles].
  - pose proof (wf_pop c reg reg1 Hw Hg1 Hw1) as Hwq. pose proof (grows_pop c reg reg1 Hg1) as Hgq.
    destruct x as [sub | e]; [ | by exists (Err e), (pop reg1)].
    set (m := newModule InSysmod c (collectExports prog) sub).
    assert (Hn1 : c ∉ ran (pop reg1)).
    { apply (w_apart _ Hw1). rewrite (g_stack _ _ Hg1). cbn. apply elem_of_app. right. by left. }
    exists (Ok m), (store m (pop reg1)). split_and!; [done | | | | done].
    + apply wf_store; [done | by rewrite (g_stack _ _ Hgq) | done | exact Hx].
    + eapply grows_trans; [exact Hgq | by apply grows_store].
    + unfold cached. cbn. by rewrite lookup_insert_eq.
Qed.
End Loading.

(** ** The order has no cycle *)

Lemma topo_reach {N F} (edges : N -> list (F * N)) l x y : topo edges l -> x ∈ l -> clos_trans N (edge edges) x y -> y ∈ l.
Proof.
  intros Ht Hx Hr. apply clos_trans_t1n in Hr.
  assert (Hstep : forall a b, a ∈ l -> edge edges a b -> b ∈ l).
  { clear x y Hx Hr. induction l as [ | n l IH]; [by intros a b []%elem_of_nil | ]. destruct Ht as [Hd Ht].
    intros a b [-> | Ha]%elem_of_cons Hab; right; [by apply Hd | by eapply IH]. }
  induction Hr; eauto.
Qed.

Lemma topo_acyclic {N F} (edges : N -> list (F * N)) l x : topo edges l -> NoDup l -> x ∈ l -> ~ clos_trans N (edge edges) x x.
Proof.
  induction l as [ | n l IH]; [by intros _ _ []%elem_of_nil | ]. intros [Hd Ht] [Hn Hnd]%NoDup_cons [-> | Hx]%elem_of_cons Hr; [ | by apply IH].
  assert (Hin : n ∈ l); [ | done]. apply clos_trans_t1n in Hr. inversion Hr as [y Hy | y z Hy Hz]; subst; [by apply Hd | ].
  eapply topo_reach; [exact Ht | by apply Hd | by apply clos_t1n_trans].
Qed.

Lemma wf_empty Resolve Dir load : wf Resolve Dir load (mkReg ∅ [] []).
Proof.
  split; cbn [stack ran cache]; try done; try apply NoDup_nil_2.
  - intros c []%elem_of_nil.
  - intros c. split; [intros []; done | by intros []%elem_of_nil].
Qed.

(** C17: modules are loaded once, after what they import, and only import cycles are reported.
    Whatever the files hold, loading the imports of a program ends and leaves a well-formed
    registry: the load stack is empty again (after errors too), no module is loaded twice or
    replaced, each module finished after every module it imports, and every alias names a
    module of the registry.  No loaded module takes part in an import cycle; an error is that of
    a path, a file, a check or a module's own run, unless the imports have a cycle. *)
Theorem modules_load_once_in_order Resolve Dir InSysmod load runBefore runAfter (files : gset string) fuel baseDir i ms reg :
  (forall b q c, Resolve b q = Ok c -> c ∈ files) ->
  (forall c prog j, runBefore c prog = Ok j -> moduleAliases (i_tables j) = ∅) ->
  wf Resolve Dir load reg -> stack reg = [] -> aliasesCached reg i -> (size files < fuel)%nat ->
  exists x reg', loadModuleImports (loadModule Resolve Dir InSysmod load runBefore runAfter fuel) baseDir i ms reg = Some (x, reg') /\
    wf Resolve Dir load reg' /\ grows reg reg' /\
    (forall c, c ∈ ran reg' -> ~ clos_trans string (edge (imports Resolve Dir load)) c c) /\
    match x with
    | Ok i' => aliasesCached reg' i' /\ forall mi, mi ∈ ms -> exists c, Resolve baseDir (modimport_Path mi) = Ok c /\ c ∈ ran reg'
    | Err e => origin Resolve load runBefore runAfter e \/ cyclic (imports Resolve Dir load)
    end.
Proof.
  intros Hfiles Hbefore Hw Hs Hal Hf.
  assert (Hload : forall reg', wf Resolve Dir load reg' -> grows reg reg' ->
    loads Resolve Dir load runBefore runAfter (loadModule Resolve Dir InSysmod load runBefore runAfter fuel) reg').
  { intros reg' Hw' Hg'. apply (loadModule_spec _ _ _ _ _ _ files Hfiles Hbefore); [done | | lia].
    rewrite (g_stack _ _ Hg'), Hs. by intros c []%elem_of_nil. }
  destruct (imports_ok Resolve Dir load runBefore runAfter (loadModule Resolve Dir InSysmod load runBefore runAfter fuel) baseDir ms i reg Hw Hload)
    as (x & reg' & E & Hw' & Hg & Hx); [intros mi _ c _; by rewrite Hs | done | ].
  exists x, reg'. split_and!; try done. intros c Hc.
  apply (topo_acyclic _ (reverse (ran reg'))); [apply (w_order _ _ _ _ Hw') | rewrite reverse_Permutation; apply (w_once _ _ _ _ Hw') | by apply elem_of_reverse].
Qed.

(** Two files: the program imports [/a.j], which imports [/b.j]. *)
Definition exResolve (_ q : string) : result message string :=
  if bool_decide (q = "a.j") then Ok "/a.j" else if bool_decide (q = "b.j") then Ok "/b.j" else Err (Sprintf "not found" []).
Definition exImport (q : string) : ModuleImportStmt := Build_ModuleImportStmt (Pos "" 1 1) q "".
Definition exLoad (c : string) : res Program :=
  Ok (Build_Program (Pos c 1 1) [] (if bool_decide (c = "/a.j") then [exImport "b.j"] else []) [] [] [] [] 0).
Definition exBefore (_ : string) (_ : Program) : res Interpreter := Ok (exInterp (mkTables ∅ ∅ ∅ ∅)).
Definition exAfter (_ : Program) (i : Interpreter) : res Interpreter := Ok i.

Lemma modules_load_once_in_order_witness :
  exists i' reg', loadModuleImports (loadModule exResolve (fun c => c) (fun _ => false) exLoad exBefore exAfter 3) "/" (exInterp (mkTables ∅ ∅ ∅ ∅))
      [exImport "a.j"; exImport "b.j"] (mkReg ∅ [] []) = Some (Ok i', reg') /\
    ran reg' = ["/b.j"; "/a.j"] /\ aliasesCached reg' i' /\ wf exResolve (fun c => c) exLoad reg'.
Proof.
  destruct (modules_load_once_in_order exResolve (fun c => c) (fun _ => false) exLoad exBefore exAfter {["/a.j"; "/b.j"]} 3 "/"
    (exInterp (mkTables ∅ ∅ ∅ ∅)) [exImport "a.j"; exImport "b.j"] (mkReg ∅ [] [])) as (x & reg' & E & Hw & _ & _ & Hx).
  - intros b q c. unfold exResolve. repeat case_bool_decide; try done; intros [= <-]; set_solver.
  - by intros c prog j [= <-].
  - apply wf_empty.
  - reflexivity.
  - intros a m. cbn. by rewrite lookup_empty.
  - vm_compute. lia.
  - vm_compute in E. injection E as <- <-. do 2 eexists. split; [vm_compute; reflexivity | ]. split; [reflexivity | ]. split; [apply Hx | exact Hw].
Defined.

(** ** What is exported *)

(** A struct named in a type below lists, tasks and maps. *)
Inductive names (n : string) : Typ -> Prop :=
  | n_struct mp : names n (TypeStruct "" mp n)
  | n_list t : names n t -> names n (TypeList (Some t))
  | n_task t : names n t -> names n (TypeTask (Some t))
  | n_key k v : names n k -> names n (TypeMap (Some (k, v)))
  | n_val k v : names n v -> names n (TypeMap (Some (k, v))).

Lemma private_some ms ex n t : names n t -> n ∈ ms -> n ∉ ex -> is_Some (privateStructIn ms ex t).
Proof.
  intros Hn Hm He. induction Hn as [mp | t _ IH | t _ IH | k v _ IH | k v _ IH]; cbn; try done.
  - rewrite !bool_decide_true by done. by eexists.
  - destruct IH as [x ->]. by eexists.
  - destruct (privateStructIn ms ex k); [by eexists | done].
Qed.

Lemma private_names ms ex t n : privateStructIn ms ex t = Some n -> names n t /\ n ∈ ms /\ n ∉ ex.
Proof.
  induction t as [ | | | | | | | e IH | e IH | ns mp name | e IH | | ] using Typ_deep_ind; try done; cbn [privateStructIn].
  - destruct e as [t | ]; [ | done]. intros Hp. destruct (IH t eq_refl Hp) as (H1 & H2 & H3). split_and!; [by constructor | done | done].
  - destruct e as [[k v] | ]; [ | done]. destruct (IH k v eq_refl) as [IHk IHv]. destruct (privateStructIn ms ex k) as [x | ] eqn:Ek.
    + intros [= ->]. destruct (IHk eq_refl) as (H1 & H2 & H3). split_and!; [by constructor | done | done].
    + intros Hp. destruct (IHv Hp) as (H1 & H2 & H3). split_and!; [by apply n_val | done | done].
  - repeat case_bool_decide; try done. intros [= ->]. subst. split_and!; [constructor | done | done].
  - destruct e as [t | ]; [ | done]. intros Hp. destruct (IH t eq_refl Hp) as (H1 & H2 & H3). split_and!; [by constructor | done | done].
Qed.

(** The types of the public surface: fields of exported structs, parameters of exported
    functions. *)
Definition surface (prog : Program) : list Typ :=
  flat_map (fun s => map field_Type (struct_Fields s)) (filter (fun s => struct_Exported s = true) (prog_Structs prog)) ++
  flat_map (fun m => map param_Type (method_Params m)) (filter (fun m => method_Exported m = true) (prog_Methods prog)).

Lemma closedFields_none ms ex s fs : closedFields ms ex s fs = None <-> Forall (fun t => privateStructIn ms ex t = None) (map field_Type fs).
Proof.
  induction fs as [ | f fs IH]; cbn; [by rewrite Forall_nil | ]. rewrite Forall_cons, <- IH.
  destruct (privateStructIn ms ex (field_Type f)); naive_solver.
Qed.

Lemma closedParams_none ms ex m qs : closedParams ms ex m qs = None <-> Forall (fun t => privateStructIn ms ex t = None) (map param_Type qs).
Proof.
  induction qs as [ | q qs IH]; cbn; [by rewrite Forall_nil | ]. rewrite Forall_cons, <- IH.
  destruct (privateStructIn ms ex (param_Type q)); naive_solver.
Qed.

Lemma closedStructs_none ms ex ss : closedStructs ms ex ss = None <->
  Forall (fun t => privateStructIn ms ex t = None) (flat_map (fun s => map field_Type (struct_Fields s)) (filter (fun s => struct_Exported s = true) ss)).
Proof.
  induction ss as [ | s ss IH]; cbn [closedStructs]; [by rewrite Forall_nil | ]. rewrite filter_cons. destruct (struct_Exported s); cbn [negb].
  - rewrite decide_True by done. cbn [flat_map]. rewrite Forall_app, <- IH, <- (closedFields_none _ _ s). destruct (closedFields ms ex s _); naive_solver.
  - rewrite decide_False by done. exact IH.
Qed.

Lemma closedMethods_none ms ex l : closedMethods ms ex l = None <->
  Forall (fun t => privateStructIn ms ex t = None) (flat_map (fun m => map param_Type (method_Params m)) (filter (fun m => method_Exported m = true) l)).
Proof.
  induction l as [ | m l IH]; cbn [closedMethods]; [by rewrite Forall_nil | ]. rewrite filter_cons. destruct (method_Exported m); cbn [negb].
  - rewrite decide_True by done. cbn [flat_map]. rewrite Forall_app, <- IH, <- (closedParams_none _ _ m). destruct (closedParams ms ex m _); naive_solver.
  - rewrite decide_False by done. exact IH.
Qed.

(** A module passes the check exactly when every struct of its own that the types of its surface
    name, below lists, tasks and maps, is exported. *)
Theorem closure_exact prog : checkReferentialClosure prog (collectExports prog) = None <->
  forall t n, t ∈ surface prog -> names n t -> n ∈ map struct_Name (prog_Structs prog) -> n ∈ collectExports prog.
Proof.
  unfold checkReferentialClosure. set (ms := (list_to_set (map struct_Name (prog_Structs prog)) : gset string)).
  assert (Hms : forall n, n ∈ ms <-> n ∈ map struct_Name (prog_Structs prog)) by (intros n; apply elem_of_list_to_set).
  trans (Forall (fun t => privateStructIn ms (collectExports prog) t = None) (surface prog)).
  { unfold surface. rewrite Forall_app, <- closedStructs_none, <- closedMethods_none.
    destruct (closedStructs ms (collectExports prog) (prog_Structs prog)); naive_solver. }
  rewrite Forall_forall. split.
  - intros H t n Ht Hn Hm. destruct (decide (n ∈ collectExports prog)) as [ | Hex]; [done | ].
    destruct (private_some ms (collectExports prog) n t Hn (proj2 (Hms n) Hm) Hex) as [x Hx]. rewrite (H t Ht) in Hx. done.
  - intros H t Ht. destruct (privateStructIn ms (collectExports prog) t) as [n | ] eqn:E; [ | done].
    destruct (private_names _ _ _ _ E) as (H1 & H2 & H3). destruct H3. apply (H t n Ht H1). by apply Hms.
Qed.

(** An exported function whose parameter is a channel of a private struct passes. *)
Theorem channel_exposes_private :
  let s := Build_StructDef (Pos "" 1 1) "Private" [] false in
  let f := Build_MethodDef (Pos "" 2 1) "f" [Build_Param "c" (TypeChannel (Some (TypeStruct "" "" "Private"))) (Pos "" 2 8) false]
             (mkBlock (Pos "" 2 1) [] 0) true false false false in
  let prog := Build_Program (Pos "" 1 1) [] [] [f] [s] [] [] 0 in
  "Private" ∉ collectExports prog /\ checkReferentialClosure prog (collectExports prog) = None.
Proof. cbn zeta. split; [refine (bool_decide_unpack _ _); vm_compute; exact I | vm_compute; reflexivity]. Qed.

(** ** The loader with the interpreter's own load phase *)

(** [Run] up to the imports, in a fresh interpreter with the standard library. *)
Definition moduleBefore (r : Registry) (sub : Interpreter) (_ : string) (prog : Program) : res Interpreter :=
  match runToImports r sub prog with Some x => x | None => Err (rtError (Pos "" 0 0) "" []) end.

Lemma moduleBefore_no_alias r sub c prog j : moduleAliases (i_tables sub) = ∅ -> moduleBefore r sub c prog = Ok j -> moduleAliases (i_tables j) = ∅.
Proof. intros Hs. unfold moduleBefore. destruct (runToImports_aliases r sub prog) as (x & -> & Hx). intros ->. by rewrite (Hx j eq_refl). Qed.

(** ** Interactive inputs *)

(** An input that declares and exports nothing. *)
Definition plainInput (prog : Program) : Prop :=
  prog_Imports prog = [] /\ prog_Structs prog = [] /\ prog_Enums prog = [] /\ rejectExportInScript prog = None.

Lemma cyclic_session r i e prog : is_Some (structs (i_tables i) !! canonicalErrorStructName) -> checkStructCycles (i_tables i) = Some (Err e) ->
  plainInput prog -> inputToImports r false i prog = Some (i, Some e).
Proof.
  intros [d Hd] Hc (H1 & H2 & H3 & H4). unfold inputToImports, processImports. rewrite H1. cbn [importLoop]. rewrite H4.
  assert (Ht : redeclare (i_tables i) prog = i_tables i) by (unfold redeclare, hoistError; rewrite Hd, H2, H3; by destruct (i_tables i)).
  rewrite Ht. assert (Hs : setTables i (i_tables i) = i) by (by destruct i). by rewrite Hs, Hc.
Qed.

Definition nodeField : StructFieldDecl := exField "next" (TypeStruct "" "" "Node").
Definition nodeInput : Program := Build_Program (Pos "" 1 1) [] [] [] [Build_StructDef (Pos "" 1 1) "Node" [nodeField] false] [] [] 0.
Definition nodeSession : Interpreter := exInterp (redeclare (mkTables ∅ ∅ ∅ ∅) nodeInput).

(** A rejected type stays declared: after the input [def struct Node { next as Node };] every
    input of the session that does not declare it anew fails with the same error. *)
Theorem rejected_type_blocks_session r :
  inputToImports r false (exInterp (mkTables ∅ ∅ ∅ ∅)) nodeInput = Some (nodeSession, Some (structCycle "Node" nodeField "Node")) /\
  forall prog, plainInput prog -> inputToImports r false nodeSession prog = Some (nodeSession, Some (structCycle "Node" nodeField "Node")).
Proof.
  assert (Hc : checkStructCycles (i_tables nodeSession) = Some (Err (structCycle "Node" nodeField "Node"))) by (vm_compute; reflexivity).
  split.
  - unfold inputToImports, processImports. cbn [importLoop nodeInput prog_Imports]. change (rejectExportInScript nodeInput) with (@None evalError).
    change (setTables (exInterp (mkTables ∅ ∅ ∅ ∅)) (redeclare (i_tables (exInterp (mkTables ∅ ∅ ∅ ∅))) nodeInput)) with nodeSession. by rewrite Hc.
  - intros prog Hp. apply cyclic_session; [ | exact Hc | exact Hp]. exists canonicalErrorStructDef. vm_compute. reflexivity.
Qed.

(** A rejected alias is remembered: [use sql as db;] with [db] taken fails, and [use sql;] then
    succeeds without binding the prefix [sql]. *)
Definition dbRegistry : Registry := mkRegistry {["kv"; "sql"]} ∅ ∅ ∅.
Definition dbSession : Interpreter :=
  mkInterp 0 (mkTables ∅ ∅ ∅ ∅) ∅ (fun _ => 0%nat) ∅ ∅ {["kv"]} {["db" := "kv"]} {["kv" := "db"]} {["kv"; "sql"]} ∅ false 64.
Definition useInput (name asName : string) : Program :=
  Build_Program (Pos "" 1 1) [Build_ImportStmt (Pos "" 1 1) name asName] [] [] [] [] [] 0.

Definition dbRejected : Interpreter := fst (processImports dbRegistry true dbSession (useInput "sql" "db")).

Theorem rejected_alias_is_kept :
  snd (processImports dbRegistry true dbSession (useInput "sql" "db")) =
    Some (rtError (Pos "" 1 1) "namespace prefix %q is already bound to library %q" [AStr "db"; AStr "kv"]) /\
  snd (processImports dbRegistry true dbRejected (useInput "sql" "")) = None /\
  i_nsPrefixes (fst (processImports dbRegistry true dbRejected (useInput "sql" ""))) = {["db" := "kv"]} /\
  resolveNamespacePrefix (fst (processImports dbRegistry true dbRejected (useInput "sql" ""))) "sql" =
    Err (Sprintf "namespace %q is aliased; did you mean `%s`?" [AStr "sql"; AStr "db"]).
Proof. split_and!; vm_compute; reflexivity. Qed.

(** ** Matches on enums of modules *)

(** A runtime error with the message and position of a parse error. *)
Definition asRuntime (e : parseError) : option evalError :=
  match e with EParse msg p => Some (ERuntime (mkRuntimeError msg p "")) | ELex _ => None end.

Lemma concat_joinNames l : String.concat ", " l = joinNames l.
Proof. induction l as [ | n [ | m l] IH]; [done | done | ]. cbn in *. by rewrite IH. Qed.

Lemma checkArmLoop_mirrors ed tn arms covered :
  match checkArms arms ed tn covered with
  | Ok (c, l) => checkArmLoop ed tn arms covered = inl c /\ l = []
  | Err e => exists e', checkArmLoop ed tn arms covered = inr e' /\ asRuntime e = Some e'
  end.
Proof.
  revert covered. induction arms as [ | [p vs b variant bind slot] arms IH]; intros covered; cbn [checkArms checkArmLoop]; [done | ].
  unfold checkArm, variantNamed, findVariantDef. destruct (last (filter _ (enum_Variants ed))) as [vdef | ]; [ | by eexists].
  case_bool_decide; [by eexists | ].
  assert (Hb : negb (bool_decide (bind = "")) = bool_decide (bind <> "")) by (repeat case_bool_decide; done).
  rewrite Hb. destruct (bool_decide (bind <> "") && bool_decide (variant_Fields vdef = [])); [by eexists | ].
  specialize (IH ({[variant]} ∪ covered)). cbn [wbind wret]. destruct (checkArms arms ed tn ({[variant]} ∪ covered)) as [[c l] | e]; [ | done]. exact IH.
Qed.

(** The check of a match on a module's enum gives the verdict of the resolver on an enum of the
    same file, with the same message at the same position. *)
Theorem module_match_check_mirrors p arms els ed tn :
  match checkEnumMatchArms p arms els ed tn with
  | Ok _ => checkEnumArms p arms els ed tn = None
  | Err e => checkEnumArms p arms els ed tn = asRuntime e
  end.
Proof.
  unfold checkEnumMatchArms, checkEnumArms. pose proof (checkArmLoop_mirrors ed tn arms ∅) as H.
  destruct (checkArms arms ed tn ∅) as [[c l] | e]; cbn [wbind].
  - destruct H as [-> ->]. destruct els; [done | ]. unfold checkExhaustive, missingVariants.
    destruct (filter _ (map variant_Name (enum_Variants ed))) as [ | n ns]; [done | ]. cbn [werr asRuntime]. by rewrite concat_joinNames.
  - by destruct H as (e' & -> & ->).
Qed.

Lemma checkArmLoop_covers ed tn arms covered c : checkArmLoop ed tn arms covered = inl c ->
  forall v, v ∈ c <-> v ∈ covered \/ exists p vs b bind slot, mkArm p vs b v bind slot ∈ arms.
Proof.
  revert covered. induction arms as [ | [p vs b variant bind slot] arms IH]; intros covered; cbn [checkArmLoop].
  { intros [= <-] v. split; [by left | ]. intros [ | (? & ? & ? & ? & ? & []%elem_of_nil)]; done. }
  destruct (variantNamed ed variant) as [vdef | ]; [ | done]. case_bool_decide; [done | ].
  destruct (bool_decide (bind <> "") && _); [done | ]. intros Hc v. rewrite (IH _ Hc v), elem_of_union, elem_of_singleton. split.
  - intros [[-> | ] | (? & ? & ? & ? & ? & Hin)]; [ | by left | ]; right; do 5 eexists; [by left | by right].
  - intros [ | (? & ? & ? & ? & ? & [Heq | Hin]%elem_of_cons)]; [by left; right | injection Heq; intros; subst; by left; left | ].
    right. by do 5 eexists.
Qed.

Lemma checkArmLoop_named ed tn arms covered c : checkArmLoop ed tn arms covered = inl c ->
  forall p vs b v bind slot, mkArm p vs b v bind slot ∈ arms -> is_Some (variantNamed ed v).
Proof.
  revert covered. induction arms as [ | [p vs b variant bind slot] arms IH]; intros covered; cbn [checkArmLoop]; [by intros _ ? ? ? ? ? ? []%elem_of_nil | ].
  destruct (variantNamed ed variant) as [vdef | ] eqn:Ev; [ | done]. case_bool_decide; [done | ].
  destruct (bool_decide (bind <> "") && _); [done | ]. intros Hc p' vs' b' v' bind' slot' [Heq | Hin]%elem_of_cons; [ | by eapply IH].
  injection Heq. intros; subst. by eexists.
Qed.

(** A match without [else] that passes the check never falls through: whatever variant the subject
    has, the evaluator runs an arm of that variant. *)
Theorem checked_match_selects `{NativeObject} {X} (i : Interpreter) (rec : Rec X) p arms ed tn ns mp name v fs :
  checkEnumArms p arms None ed tn = None -> (forall w, w ∈ map variant_Name (enum_Variants ed) -> w <> "") ->
  v ∈ map variant_Name (enum_Variants ed) ->
  exists q vs body bind slot, mkArm q vs body v bind slot ∈ arms /\
    matchArms i rec arms (VEnum ns mp name v fs) None = runPatternArm rec q body bind slot (VEnum ns mp name v fs).
Proof.
  intros Hc Hne Hv. unfold checkEnumArms in Hc. destruct (checkArmLoop ed tn arms ∅) as [c | ] eqn:Ec; [ | done].
  destruct (filter _ _) as [ | m ms] eqn:Ef; [ | done].
  assert (Hin : v ∈ c).
  { destruct (decide (v ∈ c)) as [ | Hn]; [done | ]. assert (Hf : v ∈ filter (fun n => n ∉ c) (map variant_Name (enum_Variants ed)))
      by (by apply list_elem_of_filter). rewrite Ef in Hf. by apply elem_of_nil in Hf. }
  pose proof (checkArmLoop_named _ _ _ _ _ Ec) as Hnamed.
  apply (checkArmLoop_covers _ _ _ _ _ Ec) in Hin as [ | Hin]; [done | ]. clear Ec Ef Hc c.
  induction arms as [ | [q vs b variant bind slot] arms IH]; [destruct Hin as (? & ? & ? & ? & ? & []%elem_of_nil) | ].
  assert (Hva : variant <> "").
  { apply Hne. destruct (Hnamed q vs b variant bind slot) as [d Hd]; [by left | ]. unfold variantNamed in Hd. apply last_Some in Hd as [l Hl].
    assert (Hd : d ∈ filter (fun v => variant_Name v = variant) (enum_Variants ed)) by (rewrite Hl; apply elem_of_app; right; by left).
    apply list_elem_of_filter in Hd as [<- Hd]. apply list_elem_of_fmap. by eexists. }
  cbn [matchArms]. rewrite (bool_decide_true _ Hva). case_bool_decide as Hs.
  - injection Hs as ->. do 5 eexists. split; [by left | done].
  - destruct Hin as (q' & vs' & b' & bind' & slot' & [Heq | Hin]%elem_of_cons); [injection Heq; intros; subst; done | ].
    destruct IH as (q1 & vs1 & b1 & bind1 & slot1 & H1 & H2); [by do 5 eexists | | do 5 eexists; split; [by right | exact H2]].
    intros. eapply Hnamed. by right.
Qed.

(** ** Where a module's file is *)

Lemma segments_ne s : segments s <> [].
Proof. destruct s as [ | c s]; [done | ]. cbn. case_bool_decide; [done | ]. by destruct (segments s). Qed.

Lemma segments_app a b : segments (a +:+ "/" +:+ b) = segments a ++ segments b.
Proof.
  induction a as [ | c a IH]; [done | ]. rewrite string_app_cons. cbn [segments]. rewrite IH. case_bool_decide; [done | ].
  pose proof (segments_ne a). by destruct (segments a).
Qed.

Lemma concat_segments s : String.concat "/" (segments s) = s.
Proof.
  induction s as [ | c s IH]; [done | ]. cbn [segments]. pose proof (segments_ne s) as Hne. case_bool_decide as Hc.
  - subst c. destruct (segments s) as [ | x l]; [done | ].
    change (String.concat "/" ("" :: x :: l)) with (String "/" (String.concat "/" (x :: l))). by rewrite IH.
  - destruct (segments s) as [ | x l]; [done | ].
    assert (E : String.concat "/" (String c x :: l) = String c (String.concat "/" (x :: l))) by (by destruct l). by rewrite E, IH.
Qed.

Example Clean_examples : map Clean [""; "/a/../b/./c"; "../x/.."; "a//b/"; "/.."] = ["."; "/b/c"; ".."; "a/b"; "/"].
Proof. reflexivity. Qed.

(** A name of a file or directory. *)
Definition normal (seg : string) : Prop := badSegment seg = false.

Lemma clean_normal rooted segs : Forall normal segs -> forall acc, foldl (cleanStep rooted) acc segs = reverse segs ++ acc.
Proof.
  induction 1 as [ | seg segs Hs _ IH]; intros acc; [done | ]. cbn [foldl]. rewrite IH. rewrite reverse_cons, <- app_assoc. f_equal.
  unfold normal, badSegment in Hs. unfold cleanStep. repeat case_bool_decide; try done.
Qed.

Lemma IsAbs_app a b : a <> "" -> IsAbs (a +:+ b) = IsAbs a.
Proof. by destruct a. Qed.

Lemma cleanSegments_below d q : d <> "" -> Forall normal (segments q) -> cleanSegments (d +:+ "/" +:+ q) = cleanSegments d ++ segments q.
Proof.
  intros Hd Hq. unfold cleanSegments. rewrite IsAbs_app, segments_app, foldl_app by done. rewrite (clean_normal _ _ Hq).
  by rewrite reverse_app, reverse_involutive.
Qed.

Lemma concat_app (l m : list string) : l <> [] -> m <> [] -> String.concat "/" (l ++ m) = String.concat "/" l +:+ "/" +:+ String.concat "/" m.
Proof.
  induction l as [ | x l IH]; [done | ]. intros _ Hm. destruct l as [ | y l].
  - destruct m; [done | ]. done.
  - change (String.concat "/" ((x :: y :: l) ++ m)) with (x +:+ "/" +:+ String.concat "/" ((y :: l) ++ m)).
    rewrite IH by done. change (String.concat "/" (x :: y :: l)) with (x +:+ "/" +:+ String.concat "/" (y :: l)). by rewrite !string_app_assoc.
Qed.

(** The path [q] below the directory [d]: the elements of [d], then [q]. *)
Definition below_dir (d q : string) : string := (if IsAbs d then "/" else "") +:+ String.concat "/" (cleanSegments d ++ [q]).

Lemma JoinPath_below d q : d <> "" -> Forall normal (segments q) -> JoinPath [d; q] = below_dir d q.
Proof.
  intros Hd Hq. assert (Hq0 : q <> "") by (intros ->; inversion Hq; done). unfold JoinPath.
  rewrite !filter_cons, !decide_True by done. cbn [filter list_filter]. change (filter (fun e => e <> "") []) with (@nil string).
  change (String.concat "/" [d; q]) with (d +:+ "/" +:+ q). unfold Clean, below_dir. rewrite cleanSegments_below, IsAbs_app by done.
  assert (Hc : String.concat "/" (cleanSegments d ++ segments q) = String.concat "/" (cleanSegments d ++ [q])).
  { destruct (cleanSegments d) as [ | x l]; [apply concat_segments | ]. rewrite !concat_app by (done || apply segments_ne). by rewrite concat_segments. }
  rewrite <- Hc. destruct (IsAbs d); [done | ]. pose proof (segments_ne q).
  destruct (cleanSegments d ++ segments q) eqn:E; [by apply app_eq_nil in E as [_ ?] | done].
Qed.

Section Jail.
Variable Getwd : string + string.
Variable EvalSymlinks : string -> option string.
Variable Stat : string -> StatResult.

Abbreviation canon := (canonical Getwd EvalSymlinks).

(** The files of a search. *)
Definition found (q : string) (dirs : list string) (c : string) : Prop :=
  exists d, d ∈ dirs /\ Stat (JoinPath [d; q]) = IsFile /\ canon (JoinPath [d; q]) = Ok c.

Lemma searchLoop_spec p q dirs : forall ms ms', searchLoop Getwd EvalSymlinks Stat p q dirs ms = Ok ms' ->
  NoDup ms -> NoDup ms' /\ forall c, c ∈ ms' <-> c ∈ ms \/ found q dirs c.
Proof.
  assert (Hskip : forall d dirs c, Stat (JoinPath [d; q]) <> IsFile -> found q (d :: dirs) c <-> found q dirs c).
  { intros d dirs' c Hs. unfold found. split; intros (d' & Hin & H1 & H2); exists d'; [ | split_and!; [by right | done | done]].
    apply elem_of_cons in Hin as [-> | Hin]; done. }
  induction dirs as [ | d dirs IH]; intros ms ms'; cbn [searchLoop].
  { intros [= <-] Hnd. split; [done | ]. intros c. split; [by left | ]. intros [ | (d & []%elem_of_nil & _)]; done. }
  destruct (Stat (JoinPath [d; q])) eqn:Es; [ | done | | ].
  1, 2: intros Hl Hnd; destruct (IH _ _ Hl Hnd) as [H1 H2]; split; [done | ]; intros c; rewrite H2, Hskip by congruence; done.
  destruct (canon (JoinPath [d; q])) as [x | e] eqn:Ex; [ | done]. intros Hl Hnd.
  assert (Hf : forall c, found q (d :: dirs) c <-> c = x \/ found q dirs c).
  { intros c. unfold found. split.
    - intros (d' & [-> | Hin]%elem_of_cons & H1 & H2); [left; congruence | right; eauto].
    - intros [-> | (d' & Hin & H1 & H2)]; [exists d | exists d']; split_and!; try done; [by left | by right]. }
  destruct (IH _ _ Hl) as [H1 H2].
  - case_bool_decide; [done | ]. apply NoDup_app. split_and!; [done | | apply NoDup_singleton]. by intros y Hy ->%list_elem_of_singleton.
  - split; [done | ]. intros c. rewrite H2, Hf. case_bool_decide; [naive_solver | ]. rewrite elem_of_app, list_elem_of_singleton. tauto.
Qed.

(** A bare import reads one file below the search path.  When a path without a leading dot, slash
    or at sign resolves, its elements are names, it is found below a search directory as the
    directory's elements followed by the path, and every other search directory that has such a
    file has the same one. *)
Theorem bare_import_unique search vendor dir q c : q <> "" -> Forall (fun d => d <> "") search ->
  Classify q = Ok Module_ -> hasPrefix "@" q = false ->
  ResolvePath Getwd EvalSymlinks Stat search vendor dir q = Ok c ->
  Forall normal (segments q) /\
  (exists d, d ∈ search /\ Stat (below_dir d q) = IsFile /\ canon (below_dir d q) = Ok c) /\
  forall d c', d ∈ search -> Stat (below_dir d q) = IsFile -> canon (below_dir d q) = Ok c' -> c' = c.
Proof.
  intros Hq Hs Hk Hat. unfold ResolvePath. rewrite Hat, Hk. destruct (existsb badSegment (segments q)) eqn:Eb; [done | ].
  assert (Hn : Forall normal (segments q)).
  { apply Forall_forall. intros x Hx. unfold normal. destruct (badSegment x) eqn:E; [ | done].
    assert (Ht : existsb badSegment (segments q) = true) by (apply existsb_exists; exists x; split; [by apply list_elem_of_In | done]). congruence. }
  assert (Hj : forall d, d ∈ search -> JoinPath [d; q] = below_dir d q)
    by (intros d Hd; apply JoinPath_below; [by eapply (proj1 (Forall_forall _ _) Hs) | done]).
  unfold resolveModule. destruct (searchLoop Getwd EvalSymlinks Stat q q search []) as [ms | e] eqn:El; [ | done].
  destruct (searchLoop_spec _ _ _ _ _ El (NoDup_nil_2)) as [_ Hin]. destruct ms as [ | x [ | y ms]]; [by case_bool_decide | | done].
  intros [= ->]. split; [done | ]. split.
  - destruct (proj1 (Hin c) ltac:(by left)) as [[]%elem_of_nil | (d & Hd & H1 & H2)]. exists d. by rewrite <- Hj.
  - intros d c' Hd H1 H2. rewrite <- Hj in H1, H2 by done. apply list_elem_of_singleton. apply Hin. right. by exists d.
Qed.

(** A vendored import stays in the directory of its package. *)
Theorem vendor_import_jailed search vendor dir q c : hasPrefix "@" q = true ->
  ResolvePath Getwd EvalSymlinks Stat search vendor dir q = Ok c ->
  exists scope pkg root, normal scope /\ normal pkg /\ canon (JoinPath [vendor; scope; pkg]) = Ok root /\
    (c = root \/ hasPrefix (root +:+ "/") c = true).
Proof.
  intros Hat. unfold ResolvePath, resolveVendor. rewrite Hat. case_bool_decide; [done | ]. destruct (hasChar "\" q); [done | ].
  destruct (hasChar "@" (sdrop 1 q)); [done | ].
  destruct (segments _) as [ | scope [ | pkg more]] eqn:Es; [done | done | ].
  destruct (bool_decide (scope = "") || bool_decide (pkg = "")); [done | ].
  cbn [existsb]. destruct (badSegment scope) eqn:E1; [done | ]. destruct (badSegment pkg) eqn:E2; [done | ]. cbn [orb].
  destruct (existsb badSegment more); [done | ]. destruct (canon (JoinPath [vendor; scope; pkg])) as [root | e] eqn:Er; [ | done].
  intros Hf. exists scope, pkg, root. split_and!; [done | done | done | ].
  assert (Hfin : forall t, match canon t with
      | Ok c => if bool_decide (c <> root) && negb (hasPrefix (root +:+ "/") c)
                then Err (Sprintf "import path %q resolves outside its package directory" [AStr (truncPath q)]) else Ok c
      | Err e => Err e end = Ok c -> c = root \/ hasPrefix (root +:+ "/") c = true).
  { intros t. destruct (canon t) as [x | ]; [ | done]. destruct (decide (x = root)) as [-> | Hx].
    - intros E. left. rewrite bool_decide_false in E by tauto. by injection E.
    - rewrite bool_decide_true by done. destruct (hasPrefix (root +:+ "/") x) eqn:Ep; cbn [negb andb]; intros E; [ | discriminate E]. injection E as ->. by right. }
  destruct (hasSuffixJ _); [exact (Hfin _ Hf) | ]. case_bool_decide; [exact (Hfin _ Hf) | discriminate Hf].
Qed.
End Jail.
