(* ===== verification/Channels.v ===== *)
(** * Channels (internal/interpreter/waitset.go, value.go, lib/channel/channellib.go)

    Goroutines that send, receive, close and select on shared channels, one atomic
    operation of the Go program per step.  A channel is the Go channel [Ch] (its buffer and
    the senders parked on it), the [closed] flag, the [done] signal, the wake-up list and
    the count of sends in flight.  [trans s t a] is the step of goroutine [t] when the
    choice left to the scheduler and to Go's [select] is [a]; an idle goroutine may start
    any operation, so every program is covered.

    The critical sections of a wake-up list are one step each; the spin counter of the
    select loop only delays it and is left out.  A sender hands its value to a blocked
    receiver by parking, after which the receiver takes it; so it may park even when a
    signal is up, and then leaves by the signal or by a receiver. *)

From stdpp Require Import functions.
From S2P Require Import Prelude Value.
Open Scope Z_scope.

(** ** Channels *)

Record ChannelState := mkChan {
  Ch : list Value;
  sendq : list (nat * Value);
  Capacity : nat;
  closed : bool;
  done : bool;
  waiters : list nat;
  pending : Z
}.

Definition NewChannelState (capacity : nat) : ChannelState := mkChan [] [] capacity false false [] 0.

Definition setCh (b : list Value) (q : list (nat * Value)) (c : ChannelState) : ChannelState :=
  mkChan b q (Capacity c) (closed c) (done c) (waiters c) (pending c).
Definition setWaiters (w : list nat) (c : ChannelState) : ChannelState :=
  mkChan (Ch c) (sendq c) (Capacity c) (closed c) (done c) w (pending c).
Definition addPending (n : Z) (c : ChannelState) : ChannelState :=
  mkChan (Ch c) (sendq c) (Capacity c) (closed c) (done c) (waiters c) (pending c + n).
Definition setClosed (c : ChannelState) : ChannelState :=
  mkChan (Ch c) (sendq c) (Capacity c) true (done c) (waiters c) (pending c).
Definition setDone (c : ChannelState) : ChannelState :=
  mkChan (Ch c) (sendq c) (Capacity c) (closed c) true (waiters c) (pending c).

(** [waitSet.add] and [waitSet.remove]: the last registration takes the free place. *)
Definition waitAdd (w : nat) (l : list nat) : list nat := l ++ [w].
Definition waitRemove (w : nat) (l : list nat) : list nat :=
  match list_find (fun x => x = w) l with
  | Some (i, _) => take (length l - 1) (<[i := default w (last l)]> l)
  | None => l
  end.

(** A non-blocking receive from the Go channel: the value, the channel after it, and the
    sender whose parked value was taken or moved into the buffer. *)
Definition chanRecv (c : ChannelState) : option (Value * ChannelState * option nat) :=
  match Ch c, sendq c with
  | v :: b, (u, x) :: q => Some (v, setCh (b ++ [x]) q c, Some u)
  | v :: b, [] => Some (v, setCh b [] c, None)
  | [], (u, x) :: q => Some (x, setCh [] q c, Some u)
  | [], [] => None
  end.

Definition HasPendingSend (c : ChannelState) : bool := 0 <? pending c.

(** ** Goroutines *)

Inductive outcome :=
  | ONone
  | OSent | OSendClosed | OCancelled
  | ORecv (v : Value) | ORecvClosed
  | OClose (first : bool)
  | OAllClosed.

(** The three reads of [TryRecv]. *)
Inductive tryPhase := Try1 | TryLoad | Try2.

(** Where a goroutine is; an idle one shows the outcome of its last operation. *)
Inductive pc :=
  | Idle (last : outcome)
  (* Send *)
  | SLoad (c : nat) (v : Value)
  | SPend (c : nat) (v : Value)
  | SNotify (c : nat) (v : Value)
  | SSelect (c : nat) (v : Value)
  | SParked (c : nat) (v : Value)
  | STaken (c : nat)
  | SEnd (c : nat) (r : outcome)
  (* CloseOnce *)
  | CCas (c : nat)
  | CDone (c : nat)
  | CNotify (c : nat)
  (* Recv: TryRecv, the blocking select, TryRecv again *)
  | RTry (c : nat) (ph : tryPhase) (again : bool)
  | RSelect (c : nat)
  (* selectRecv *)
  | WSub (cs todo : list nat)
  | WStart (cs live : list nat)
  | WScan (cs live : list nat) (start k : nat) (pend : bool) (ph : tryPhase)
  | WPend (cs live : list nat) (start k : nat) (pend : bool)
  | WAfter (cs live : list nat) (pend : bool)
  | WSleep (cs live : list nat)
  | WUnsub (todo : list nat) (r : outcome).

Inductive op :=
  | OpSend (c : nat) (v : Value)
  | OpRecv (c : nat)
  | OpClose (c : nat)
  | OpSelect (cs : list nat)
  | OpCancel (t : nat).

(** What a step leaves open: the operation an idle goroutine starts, and the ready case a
    Go [select] takes. *)
Inductive act := AStart (o : op) | AGo | ADone | ACancel.

Record sys := mkSys {
  chans : nat -> ChannelState;
  threads : list pc;
  wakers : nat -> bool;
  cancelled : nat -> bool;
  selectStart : Z
}.

Definition setChan (c : nat) (x : ChannelState) (s : sys) : sys :=
  mkSys (<[c := x]> (chans s)) (threads s) (wakers s) (cancelled s) (selectStart s).
Definition setPc (t : nat) (p : pc) (s : sys) : sys :=
  mkSys (chans s) (<[t := p]> (threads s)) (wakers s) (cancelled s) (selectStart s).
Definition setWaker (t : nat) (b : bool) (s : sys) : sys :=
  mkSys (chans s) (threads s) (<[t := b]> (wakers s)) (cancelled s) (selectStart s).
Definition setCancelled (t : nat) (s : sys) : sys :=
  mkSys (chans s) (threads s) (wakers s) (<[t := true]> (cancelled s)) (selectStart s).
Definition setStart (n : Z) (s : sys) : sys :=
  mkSys (chans s) (threads s) (wakers s) (cancelled s) n.

(** [waitSet.notify]: every registered waker gets its token. *)
Definition notify (c : nat) (s : sys) : sys :=
  mkSys (chans s) (threads s)
    (fun w => if bool_decide (w ∈ waiters (chans s c)) then true else wakers s w)
    (cancelled s) (selectStart s).

(** The sender whose value was taken goes on. *)
Definition releaseSender (u : option nat) (c : nat) (s : sys) : sys :=
  match u with Some u => setPc u (STaken c) s | None => s end.

(** A non-blocking receive on channel [c]. *)
Definition recvFrom (c : nat) (s : sys) : option (Value * sys) :=
  match chanRecv (chans s c) with
  | Some (v, x, u) => Some (v, releaseSender u c (setChan c x s))
  | None => None
  end.

(** ** Steps *)

Definition startOp (t : nat) (o : op) (s : sys) : sys :=
  match o with
  | OpSend c v => setPc t (SLoad c v) s
  | OpRecv c => setPc t (RTry c Try1 false) s
  | OpClose c => setPc t (CCas c) s
  | OpSelect cs => setPc t (WSub cs cs) (setWaker t false s)
  | OpCancel u => setCancelled u s
  end.

(** [Send], after the check of [closed]. *)
Definition stepSelect (t c : nat) (v : Value) (a : act) (s : sys) : option sys :=
  let x := chans s c in
  match a with
  | AGo =>
      if (length (Ch x) <? Capacity x)%nat then
        Some (setPc t (STaken c) (setChan c (setCh (Ch x ++ [v]) (sendq x) x) s))
      else Some (setPc t (SParked c v) (setChan c (setCh (Ch x) (sendq x ++ [(t, v)]) x) s))
  | ADone => if done x then Some (setPc t (SEnd c OSendClosed) s) else None
  | ACancel => if cancelled s t then Some (setPc t (SEnd c OCancelled) s) else None
  | AStart _ => None
  end.

Definition unpark (t : nat) (x : ChannelState) : ChannelState :=
  setCh (Ch x) (filter (fun e => fst e <> t) (sendq x)) x.

Definition stepParked (t c : nat) (a : act) (s : sys) : option sys :=
  let x := chans s c in
  match a with
  | ADone =>
      if done x then Some (setPc t (SEnd c OSendClosed) (setChan c (unpark t x) s)) else None
  | ACancel =>
      if cancelled s t then Some (setPc t (SEnd c OCancelled) (setChan c (unpark t x) s)) else None
  | _ => None
  end.

(** The reads of [TryRecv] in [Recv]. *)
Definition stepTry (t c : nat) (ph : tryPhase) (again : bool) (s : sys) : option sys :=
  match ph with
  | Try1 =>
      match recvFrom c s with
      | Some (v, s') => Some (setPc t (Idle (ORecv v)) s')
      | None => Some (setPc t (RTry c TryLoad again) s)
      end
  | TryLoad =>
      if closed (chans s c) then Some (setPc t (RTry c Try2 again) s)
      else if again then Some (setPc t (Idle ORecvClosed) s)
      else Some (setPc t (RSelect c) s)
  | Try2 =>
      match recvFrom c s with
      | Some (v, s') => Some (setPc t (Idle (ORecv v)) s')
      | None => Some (setPc t (Idle ORecvClosed) s)
      end
  end.

Definition stepRSelect (t c : nat) (a : act) (s : sys) : option sys :=
  match a with
  | AGo =>
      match recvFrom c s with
      | Some (v, s') => Some (setPc t (Idle (ORecv v)) s')
      | None => None
      end
  | ADone => if done (chans s c) then Some (setPc t (RTry c Try1 true) s) else None
  | ACancel => if cancelled s t then Some (setPc t (Idle OCancelled) s) else None
  | AStart _ => None
  end.

(** One poll of the scan of [selectRecv]. *)
Definition stepScan (t : nat) (cs live : list nat) (start k : nat) (pend : bool) (ph : tryPhase)
    (s : sys) : option sys :=
  let i := ((start + k) mod length live)%nat in
  match live !! i with
  | None => None
  | Some c =>
      match ph with
      | Try1 =>
          match recvFrom c s with
          | Some (v, s') => Some (setPc t (WUnsub cs (ORecv v)) s')
          | None => Some (setPc t (WScan cs live start k pend TryLoad) s)
          end
      | TryLoad =>
          if closed (chans s c) then Some (setPc t (WScan cs live start k pend Try2) s)
          else Some (setPc t (WPend cs live start k pend) s)
      | Try2 =>
          match recvFrom c s with
          | Some (v, s') => Some (setPc t (WUnsub cs (ORecv v)) s')
          | None =>
              let live := delete i live in
              match live with
              | [] => Some (setPc t (WUnsub cs OAllClosed) s)
              | _ => Some (setPc t (WScan cs live 0 0 pend Try1) s)
              end
          end
      end
  end.

(** [pending = pending || live[i].HasPendingSend()], and on to the next channel. *)
Definition stepPend (t : nat) (cs live : list nat) (start k : nat) (pend : bool) (s : sys)
    : option sys :=
  match live !! ((start + k) mod length live)%nat with
  | None => None
  | Some c =>
      let pend := pend || HasPendingSend (chans s c) in
      if (S k <? length live)%nat then Some (setPc t (WScan cs live start (S k) pend Try1) s)
      else Some (setPc t (WAfter cs live pend) s)
  end.

Definition stepSleep (t : nat) (cs live : list nat) (a : act) (s : sys) : option sys :=
  match a with
  | AGo => if wakers s t then Some (setPc t (WStart cs live) (setWaker t false s)) else None
  | ACancel => if cancelled s t then Some (setPc t (WUnsub cs OCancelled) s) else None
  | _ => None
  end.

Definition trans (s : sys) (t : nat) (a : act) : option sys :=
  match threads s !! t with
  | None => None
  | Some p =>
      match p, a with
      | Idle _, AStart o => Some (startOp t o s)
      | SLoad c v, AGo =>
          if closed (chans s c) then Some (setPc t (Idle OSendClosed) s)
          else Some (setPc t (SPend c v) s)
      | SPend c v, AGo =>
          Some (setPc t (SNotify c v) (setChan c (addPending 1 (chans s c)) s))
      | SNotify c v, AGo => Some (setPc t (SSelect c v) (notify c s))
      | SSelect c v, a => stepSelect t c v a s
      | SParked c v, a => stepParked t c a s
      | STaken c, AGo => Some (setPc t (SEnd c OSent) (notify c s))
      | SEnd c r, AGo => Some (setPc t (Idle r) (setChan c (addPending (-1) (chans s c)) s))
      | CCas c, AGo =>
          if closed (chans s c) then Some (setPc t (Idle (OClose false)) s)
          else Some (setPc t (CDone c) (setChan c (setClosed (chans s c)) s))
      | CDone c, AGo => Some (setPc t (CNotify c) (setChan c (setDone (chans s c)) s))
      | CNotify c, AGo => Some (setPc t (Idle (OClose true)) (notify c s))
      | RTry c ph again, AGo => stepTry t c ph again s
      | RSelect c, a => stepRSelect t c a s
      | WSub cs [], AGo => Some (setPc t (WStart cs cs) s)
      | WSub cs (c :: todo), AGo =>
          Some (setPc t (WSub cs todo) (setChan c (setWaiters (waitAdd t (waiters (chans s c))) (chans s c)) s))
      | WStart cs [], AGo => Some (setPc t (WUnsub cs OAllClosed) s)
      | WStart cs live, AGo =>
          let n := (selectStart s + 1) mod 2 ^ 32 in
          Some (setPc t (WScan cs live (Z.to_nat (n mod Z.of_nat (length live))) 0 false Try1) (setStart n s))
      | WScan cs live start k pend ph, AGo => stepScan t cs live start k pend ph s
      | WPend cs live start k pend, AGo => stepPend t cs live start k pend s
      | WAfter cs live true, AGo => Some (setPc t (WStart cs live) s)
      | WAfter cs live true, ACancel =>
          if cancelled s t then Some (setPc t (WUnsub cs OCancelled) s) else None
      | WAfter cs live false, AGo => Some (setPc t (WSleep cs live) s)
      | WSleep cs live, a => stepSleep t cs live a s
      | WUnsub [] r, AGo => Some (setPc t (Idle r) s)
      | WUnsub (c :: todo) r, AGo =>
          Some (setPc t (WUnsub todo r) (setChan c (setWaiters (waitRemove t (waiters (chans s c))) (chans s c)) s))
      | _, _ => None
      end
  end.

Definition step (s : sys) (t : nat) (s' : sys) : Prop := exists a, trans s t a = Some s'.

(** [n] goroutines and channels of any capacity, before anything happens. *)
Definition initial (caps : nat -> nat) (n : nat) : sys :=
  mkSys (fun c => NewChannelState (caps c)) (replicate n (Idle ONone)) (fun _ => false)
    (fun _ => false) 0.

Inductive reachable (caps : nat -> nat) (n : nat) : sys -> Prop :=
  | reach_init : reachable caps n (initial caps n)
  | reach_step s t s' : reachable caps n s -> step s t s' -> reachable caps n s'.

(** Running a schedule. *)
Fixpoint runSchedule (s : sys) (l : list (nat * act)) : option sys :=
  match l with
  | [] => Some s
  | (t, a) :: l => match trans s t a with Some s' => runSchedule s' l | None => None end
  end.
