(* ===== verification/ChannelFacts.v ===== *)
(** * Channels: no wake-up is lost

    The invariant behind [selectRecv]: while a select polls its channels and sleeps on its
    waker, a channel it has found empty is still idle, or some goroutine has yet to poke it,
    or the poke has arrived ([Safe]).  From it, liveness under a fair scheduler: a select
    does not sleep for ever on a channel that has a value, a parked sender or is closed. *)

From stdpp Require Import functions.
From S2P Require Import Prelude Value Channels.
Open Scope list_scope.
Open Scope nat_scope.

(** ** What a goroutine has yet to do *)

(** In flight: counted by [pending]. *)
Definition inFlight (c : nat) (p : pc) : bool :=
  match p with
  | SNotify d _ | SSelect d _ | SParked d _ | STaken d | SEnd d _ => d =? c
  | _ => false
  end.

(** A poke of the channel's wake-up list is still to come. *)
Definition owes (c : nat) (p : pc) : bool :=
  match p with
  | SNotify d _ | STaken d | CDone d | CNotify d => d =? c
  | _ => false
  end.

(** Poked, and about to enter the blocking send. *)
Definition selecting (c : nat) (p : pc) : bool :=
  match p with SSelect d _ => d =? c | _ => false end.

Fixpoint count (c : nat) (l : list pc) : nat :=
  match l with [] => 0 | p :: l => Nat.b2n (inFlight c p) + count c l end.

Definition Owes (s : sys) (c : nat) : Prop := Exists (fun p => owes c p = true) (threads s).

Definition idle (s : sys) (c : nat) : Prop :=
  Ch (chans s c) = [] /\ sendq (chans s c) = [] /\ closed (chans s c) = false /\
  Forall (fun p => selecting c p = false) (threads s).

Definition Safe (s : sys) (t c : nat) : Prop := idle s c \/ Owes s c \/ wakers s t = true.

(** Half way through a poll: after the first receive, and after the load of [closed]. *)
Definition Polled (s : sys) (t c : nat) : Prop :=
  Ch (chans s c) = [] \/ Owes s c \/ wakers s t = true.
Definition PolledOpen (s : sys) (t c : nat) : Prop :=
  (Ch (chans s c) = [] /\ closed (chans s c) = false) \/ Owes s c \/ wakers s t = true.

Definition registered (s : sys) (t : nat) (cs : list nat) : Prop :=
  forall c, c ∈ cs -> t ∈ waiters (chans s c).

(** The channels polled before turn [k] of a scan. *)
Definition scanned (s : sys) (t : nat) (live : list nat) (start k : nat) : Prop :=
  forall j c, j < k -> live !! ((start + j) mod length live) = Some c -> Safe s t c.

(** What holds of a goroutine by where it is. *)
Definition local (s : sys) (t : nat) (p : pc) : Prop :=
  match p with
  | WSub cs todo => exists pre, cs = pre ++ todo /\ registered s t pre
  | WStart cs live => registered s t cs /\ live ⊆ cs
  | WScan cs live start k pend ph =>
      registered s t cs /\ live ⊆ cs /\ start < length live /\ k < length live /\
      (pend = false -> scanned s t live start k) /\
      (ph = TryLoad -> forall c, live !! ((start + k) mod length live) = Some c -> Polled s t c)
  | WPend cs live start k pend =>
      registered s t cs /\ live ⊆ cs /\ start < length live /\ k < length live /\
      (pend = false -> scanned s t live start k) /\
      (forall c, live !! ((start + k) mod length live) = Some c -> PolledOpen s t c)
  | WAfter cs live pend =>
      registered s t cs /\ live ⊆ cs /\ (pend = false -> forall c, c ∈ live -> Safe s t c)
  | WSleep cs live => registered s t cs /\ live ⊆ cs /\ forall c, c ∈ live -> Safe s t c
  | _ => True
  end.

Record Inv (s : sys) : Prop := {
  inv_pending : forall c, pending (chans s c) = Z.of_nat (count c (threads s));
  inv_parked : forall c u v, (u, v) ∈ sendq (chans s c) -> threads s !! u = Some (SParked c v);
  inv_nodup : forall c, NoDup (map fst (sendq (chans s c)));
  inv_local : forall t p, threads s !! t = Some p -> local s t p
}.

(** ** Lists of goroutines *)

Lemma exists_new (P : pc -> Prop) l u p p' : l !! u = Some p -> P p' -> Exists P (<[u := p']> l).
Proof.
  intros Hu Hp. apply Exists_exists. exists p'. split; [|done].
  apply list_elem_of_lookup. exists u. apply list_lookup_insert_eq. by eapply lookup_lt_Some.
Qed.

Lemma exists_keep (P : pc -> Prop) l u p p' :
  l !! u = Some p -> ~ P p -> Exists P l -> Exists P (<[u := p']> l).
Proof.
  intros Hu Hp. rewrite !Exists_exists. intros (x & Hx & HP).
  apply list_elem_of_lookup in Hx as [i Hi]. exists x. split; [|done].
  apply list_elem_of_lookup. exists i. rewrite list_lookup_insert_ne; [done|]. intros ->.
  rewrite Hu in Hi. by injection Hi as ->.
Qed.

Lemma count_insert c l u p p' :
  l !! u = Some p ->
  count c (<[u := p']> l) + Nat.b2n (inFlight c p) = count c l + Nat.b2n (inFlight c p').
Proof.
  revert u. induction l as [|x l IH]; intros [|u] Hu; [done | done | |].
  - cbn in Hu. injection Hu as ->. cbn. lia.
  - specialize (IH u Hu). change (<[S u := p']> (x :: l)) with (x :: <[u := p']> l).
    cbn [count]. lia.
Qed.

Lemma count_pos c l u p : l !! u = Some p -> inFlight c p = true -> 0 < count c l.
Proof.
  intros Hu Hp. pose proof (count_insert c l u p (Idle ONone) Hu) as H. rewrite Hp in H. cbn in H. lia.
Qed.

Lemma count_zero c l : count c l = 0 -> Forall (fun p => inFlight c p = false) l.
Proof.
  intros Hc. apply Forall_lookup. intros u p Hu. destruct (inFlight c p) eqn:E; [|done].
  pose proof (count_pos c l u p Hu E). lia.
Qed.

(** ** The effects of a step *)

(** Neither in flight nor owing a poke. *)
Definition quiet (p : pc) : Prop :=
  match p with
  | SNotify _ _ | SSelect _ _ | SParked _ _ | STaken _ | SEnd _ _ | CDone _ | CNotify _ => False
  | _ => True
  end.

Lemma quiet_inFlight c p : quiet p -> inFlight c p = false.
Proof. by destruct p. Qed.
Lemma quiet_owes c p : quiet p -> owes c p = false.
Proof. by destruct p. Qed.
Lemma quiet_selecting c p : quiet p -> selecting c p = false.
Proof. by destruct p. Qed.

(** A step of [u] by what it does to channels, goroutines and wakers. *)
Inductive view (s : sys) (u : nat) : (nat -> ChannelState) -> list pc -> (nat -> bool) -> Prop :=
  | VQuiet p p' :
      threads s !! u = Some p -> quiet p -> quiet p' ->
      view s u (chans s) (<[u := p']> (threads s)) (wakers s)
  | VReset p p' :
      threads s !! u = Some p -> quiet p -> quiet p' ->
      view s u (chans s) (<[u := p']> (threads s)) (<[u := false]> (wakers s))
  | VPend c v :
      threads s !! u = Some (SPend c v) ->
      view s u (<[c := addPending 1 (chans s c)]> (chans s)) (<[u := SNotify c v]> (threads s)) (wakers s)
  | VPoke c p p' :
      threads s !! u = Some p -> owes c p = true -> (inFlight c p = inFlight c p') ->
      (forall d, d <> c -> owes d p = false /\ inFlight d p = false /\ inFlight d p' = false) ->
      owes c p' = false ->
      view s u (chans s) (<[u := p']> (threads s)) (wakers (notify c s))
  | VInsert c v :
      threads s !! u = Some (SSelect c v) ->
      view s u (<[c := setCh (Ch (chans s c) ++ [v]) (sendq (chans s c)) (chans s c)]> (chans s))
        (<[u := STaken c]> (threads s)) (wakers s)
  | VPark c v :
      threads s !! u = Some (SSelect c v) ->
      view s u (<[c := setCh (Ch (chans s c)) (sendq (chans s c) ++ [(u, v)]) (chans s c)]> (chans s))
        (<[u := SParked c v]> (threads s)) (wakers s)
  | VAbort c v r :
      threads s !! u = Some (SSelect c v) ->
      view s u (chans s) (<[u := SEnd c r]> (threads s)) (wakers s)
  | VUnpark c v r :
      threads s !! u = Some (SParked c v) ->
      view s u (<[c := unpark u (chans s c)]> (chans s)) (<[u := SEnd c r]> (threads s)) (wakers s)
  | VEnd c r :
      threads s !! u = Some (SEnd c r) ->
      view s u (<[c := addPending (-1) (chans s c)]> (chans s)) (<[u := Idle r]> (threads s)) (wakers s)
  | VClose c :
      threads s !! u = Some (CCas c) ->
      view s u (<[c := setClosed (chans s c)]> (chans s)) (<[u := CDone c]> (threads s)) (wakers s)
  | VDone c :
      threads s !! u = Some (CDone c) ->
      view s u (<[c := setDone (chans s c)]> (chans s)) (<[u := CNotify c]> (threads s)) (wakers s)
  | VRecv c v x w p p' :
      threads s !! u = Some p -> quiet p -> quiet p' -> chanRecv (chans s c) = Some (v, x, w) ->
      view s u (<[c := x]> (chans s))
        (<[u := p']> match w with Some w => <[w := STaken c]> (threads s) | None => threads s end)
        (wakers s)
  | VWaiters c ws p p' :
      threads s !! u = Some p -> quiet p -> quiet p' ->
      (forall t, t <> u -> t ∈ waiters (chans s c) -> t ∈ ws) ->
      view s u (<[c := setWaiters ws (chans s c)]> (chans s)) (<[u := p']> (threads s)) (wakers s).

Lemma waitRemove_other t u l : t <> u -> t ∈ l -> t ∈ waitRemove u l.
Proof.
  intros Hne Ht. unfold waitRemove. destruct (list_find _ l) as [[i x]|] eqn:E; [|done].
  apply list_find_Some in E as (Hi & -> & _).
  assert (i < length l) as Hlt by (by eapply lookup_lt_Some).
  apply list_elem_of_lookup in Ht as [j Hj]. apply list_elem_of_lookup.
  assert (j < length l) by (by eapply lookup_lt_Some).
  assert (j <> i) by (intros ->; rewrite Hi in Hj; congruence).
  destruct (decide (j = length l - 1)) as [->|Hl].
  - exists i. rewrite lookup_take_lt by lia. rewrite list_lookup_insert_eq by done.
    rewrite last_lookup. replace (pred (length l)) with (length l - 1) by lia. by rewrite Hj.
  - exists j. rewrite lookup_take_lt by lia. by rewrite list_lookup_insert_ne.
Qed.

Lemma recvFrom_view s u c v s1 p p' :
  recvFrom c s = Some (v, s1) -> threads s !! u = Some p -> quiet p -> quiet p' ->
  view s u (chans (setPc u p' s1)) (threads (setPc u p' s1)) (wakers (setPc u p' s1)).
Proof.
  unfold recvFrom. destruct (chanRecv (chans s c)) as [[[v' x] w]|] eqn:E; [|done].
  intros [= -> <-] Hp Hq Hq'. pose proof (VRecv s u c v x w p p' Hp Hq Hq' E) as Hv.
  by destruct w.
Qed.

(** Case analysis of a step, from the program counter. *)
Ltac step_cases H :=
  repeat match type of H with
  | context [match ?x with _ => _ end] => destruct x eqn:?; try discriminate H
  end; try (injection H as <-).

Lemma step_view s u s' : step s u s' -> view s u (chans s') (threads s') (wakers s').
Proof.
  intros [a H]. unfold trans in H. destruct (threads s !! u) as [p|] eqn:Ep; [|done].
  destruct p; destruct a; try discriminate H.
  all: unfold startOp, stepSelect, stepParked, stepTry, stepRSelect, stepScan, stepPend, stepSleep in H.
  all: cbn zeta in H; step_cases H.
  all: try (by eapply recvFrom_view).
  all: cbn [chans threads wakers setPc setChan setWaker setCancelled setStart notify].
  all: try (by eapply VQuiet).
  all: try (by eapply VReset).
  all: try (by constructor).
  all: try (by eapply VAbort).
  all: try (by eapply VUnpark).
  - erewrite <- (list_insert_id (threads s) u) by exact Ep. by eapply VQuiet.
  - eapply (VPoke s u c); [done | apply Nat.eqb_refl | done | | done].
    intros d Hd. cbn. by rewrite (proj2 (Nat.eqb_neq c d)) by congruence.
  - eapply (VPoke s u c); [done | apply Nat.eqb_refl | done | | done].
    intros d Hd. cbn. by rewrite (proj2 (Nat.eqb_neq c d)) by congruence.
  - eapply (VPoke s u c); [done | apply Nat.eqb_refl | done | | done].
    intros d Hd. cbn. by rewrite (proj2 (Nat.eqb_neq c d)) by congruence.
  - eapply VWaiters; [done | done | done |]. intros t _ Ht. unfold waitAdd. set_solver.
  - eapply VWaiters; [done | done | done |]. intros t Hne Ht. by apply waitRemove_other.
Qed.

Section Effects.
Context (s : sys) (u : nat) (C : nat -> ChannelState) (T : list pc) (W : nat -> bool).
Hypothesis Hinv : Inv s.
Hypothesis Hv : view s u C T W.

(** Reading an updated channel table. *)
Ltac chan c d :=
  destruct (decide (d = c)) as [->|?];
  [rewrite ?fn_lookup_insert in * | rewrite ?fn_lookup_insert_ne in * by congruence].

Lemma chanRecv_waiters x v y w :
  chanRecv x = Some (v, y, w) -> waiters y = waiters x /\ closed y = closed x /\ pending y = pending x.
Proof. unfold chanRecv. repeat case_match; intros [= <- <- <-]; done. Qed.

Lemma chanRecv_sender x v y w :
  chanRecv x = Some (v, y, Some w) -> exists v', (w, v') ∈ sendq x.
Proof. unfold chanRecv. repeat case_match; intros [=]; subst; eexists; apply elem_of_cons; by left. Qed.

(** The sender that a receive lets go on was parked there. *)
Lemma recv_parked c x v y w :
  x = chans s c -> chanRecv x = Some (v, y, Some w) -> exists v', threads s !! w = Some (SParked c v').
Proof.
  intros -> Hr. apply chanRecv_sender in Hr as [v' Hin]. exists v'. by apply (inv_parked s Hinv).
Qed.

Lemma view_wakers t : t <> u -> wakers s t = true -> W t = true.
Proof.
  intros Hne Ht. destruct Hv; try done; [by rewrite fn_lookup_insert_ne|].
  cbn. by case_bool_decide.
Qed.

Lemma view_registered t c : t <> u -> t ∈ waiters (chans s c) -> t ∈ waiters (C c).
Proof.
  intros Hne Ht. destruct Hv as [| |d| |d|d| |d|d|d|d|d v x w p p' _ _ _ Hr|d ws p p' _ _ _ Hw];
    try done; chan d c; try done; [|by apply Hw].
  by apply chanRecv_waiters in Hr as (-> & _).
Qed.

(** A pending poke stays pending until it reaches every registered waker. *)
Lemma view_owes c :
  Owes s c -> Exists (fun p => owes c p = true) T \/ (forall t, t ∈ waiters (chans s c) -> W t = true).
Proof.
  intros Ho. unfold Owes in Ho.
  destruct Hv as [p p' Hp Hq _|p p' Hp Hq _|d v Hp|d p p' Hp Hod _ Hd _|d v Hp|d v Hp|d v r Hp|d v r Hp|d r Hp|d Hp|d Hp
    |d v x w p p' Hp Hq _ Hr|d ws p p' Hp Hq _ _].
  - left. eapply exists_keep; [done | by rewrite quiet_owes | done].
  - left. eapply exists_keep; [done | by rewrite quiet_owes | done].
  - left. by eapply exists_keep.
  - destruct (decide (d = c)) as [->|Hne].
    + right. intros t Ht. cbn. by rewrite bool_decide_true.
    + left. eapply exists_keep; [done | | done]. destruct (Hd c) as [-> _]; done.
  - left. by eapply exists_keep.
  - left. by eapply exists_keep.
  - left. by eapply exists_keep.
  - left. by eapply exists_keep.
  - left. by eapply exists_keep.
  - left. by eapply exists_keep.
  - left. destruct (decide (d = c)) as [->|Hne].
    + eapply exists_new; [done | apply Nat.eqb_refl].
    + eapply exists_keep; [done | | done]. cbn. by rewrite (proj2 (Nat.eqb_neq d c)).
  - left. destruct w as [w|].
    + destruct (recv_parked d _ _ _ _ eq_refl Hr) as [v' Hw].
      assert (u <> w) by (intros ->; rewrite Hp in Hw; injection Hw as ->; done).
      eapply (exists_keep _ _ _ p); [by rewrite list_lookup_insert_ne | by rewrite quiet_owes |].
      by eapply exists_keep.
    + eapply exists_keep; [done | by rewrite quiet_owes | done].
  - left. eapply exists_keep; [done | by rewrite quiet_owes | done].
Qed.

Definition poked (c : nat) : Prop :=
  Exists (fun p => owes c p = true) T \/ (forall t, t ∈ waiters (chans s c) -> W t = true).

(** An empty buffer stays empty, or whoever fills it owes a poke. *)
Lemma view_buf c : Ch (chans s c) = [] -> Ch (C c) = [] \/ poked c.
Proof.
  unfold poked. intros Hb.
  destruct Hv as [| |d v Hp| |d v Hp|d v Hp| |d v r Hp|d r Hp|d Hp|d Hp|d v x w p p' Hp Hq Hq' Hr|d ws p p' Hp Hq _ _];
    try (by left); chan d c; try (by left).
  - right. left. eapply exists_new; [done | apply Nat.eqb_refl].
  - unfold chanRecv in Hr. rewrite Hb in Hr. left.
    destruct (sendq (chans s d)) as [|[w' x'] q]; [done|]. by injection Hr as <- <- <-.
Qed.

(** The same for an open channel. *)
Lemma view_open c :
  Ch (chans s c) = [] /\ closed (chans s c) = false ->
  (Ch (C c) = [] /\ closed (C c) = false) \/ poked c.
Proof.
  intros [Hb Hc]. destruct (view_buf c Hb) as [Hb'|]; [|by right]. unfold poked.
  destruct Hv as [| |d v Hp| |d v Hp|d v Hp| |d v r Hp|d r Hp|d Hp|d Hp|d v x w p p' Hp Hq Hq' Hr|d ws p p' Hp Hq _ _];
    try (by left); chan d c; try (by left).
  - right. left. eapply exists_new; [done | apply Nat.eqb_refl].
  - left. split; [done|]. apply chanRecv_waiters in Hr as (_ & -> & _). done.
Qed.

Lemma forall_insert (P : pc -> Prop) l i p : Forall P l -> P p -> Forall P (<[i := p]> l).
Proof. intros. by apply Forall_insert. Qed.

(** An idle channel stays idle, or whoever changes that owes a poke or has given it. *)
Lemma view_idle c : idle s c ->
  (Ch (C c) = [] /\ sendq (C c) = [] /\ closed (C c) = false /\
   Forall (fun p => selecting c p = false) T) \/ poked c.
Proof.
  intros (Hb & Hq & Hc & Hs). destruct (view_open c (conj Hb Hc)) as [[Hb' Hc']|]; [|by right].
  unfold poked.
  destruct Hv as [p p' Hp _ Hq'|p p' Hp _ Hq'|d v Hp|d p p' Hp Hod _ Hd _|d v Hp|d v Hp|d v r Hp|d v r Hp|d r Hp|d Hp|d Hp
    |d v x w p p' Hp Hq1 Hq' Hr|d ws p p' Hp _ Hq' _].
  - left. split_and!; [done | done | done |]. apply forall_insert; [done | by apply quiet_selecting].
  - left. split_and!; [done | done | done |]. apply forall_insert; [done | by apply quiet_selecting].
  - chan d c.
    + right. left. eapply exists_new; [done | apply Nat.eqb_refl].
    + left. split_and!; [done | done | done |]. by apply forall_insert.
  - destruct (decide (d = c)) as [->|Hne].
    + right. right. intros t Ht. cbn. by rewrite bool_decide_true.
    + left. split_and!; [done | done | done |]. apply forall_insert; [done|].
      destruct (Hd c) as (_ & _ & Hf); [done|]. by destruct p'.
  - chan d c; [exfalso | left; split_and!; [done | done | done | by apply forall_insert]].
    rewrite Forall_lookup in Hs. specialize (Hs _ _ Hp). cbn in Hs. by rewrite Nat.eqb_refl in Hs.
  - chan d c; [exfalso | left; split_and!; [done | done | done | by apply forall_insert]].
    rewrite Forall_lookup in Hs. specialize (Hs _ _ Hp). cbn in Hs. by rewrite Nat.eqb_refl in Hs.
  - left. split_and!; [done | done | done | by apply forall_insert].
  - left. chan d c; (split_and!; [done | | done | by apply forall_insert]); [|done].
    cbn. by rewrite Hq.
  - left. chan d c; (split_and!; [done | done | done | by apply forall_insert]).
  - chan d c; [done|]. left. split_and!; [done | done | done | by apply forall_insert].
  - left. chan d c; (split_and!; [done | done | done | by apply forall_insert]).
  - left. chan d c; [by unfold chanRecv in Hr; rewrite Hb, Hq in Hr|].
    split_and!; [done | done | done |]. apply forall_insert; [|by apply quiet_selecting].
    destruct w; [by apply forall_insert | done].
  - left. chan d c; (split_and!; [done | done | done |]);
      (apply forall_insert; [done | by apply quiet_selecting]).
Qed.
End Effects.

(** ** The invariant is kept *)

Section Keep.
Context (s : sys) (u : nat) (s' : sys).
Hypothesis Hinv : Inv s.
Hypothesis Hv : view s u (chans s') (threads s') (wakers s').

Lemma keep_safe t c : t <> u -> t ∈ waiters (chans s c) -> Safe s t c -> Safe s' t c.
Proof.
  intros Hne Ht [Hi|[Ho|Hw]].
  - destruct (view_idle _ _ _ _ _ Hv c Hi) as [?|[?|Hp]]; [by left | by right; left|].
    right; right. by apply Hp.
  - destruct (view_owes _ _ _ _ _ Hinv Hv c Ho) as [?|Hp]; [by right; left|].
    right; right. by apply Hp.
  - right; right. by eapply view_wakers.
Qed.

Lemma keep_polled t c : t <> u -> t ∈ waiters (chans s c) -> Polled s t c -> Polled s' t c.
Proof.
  intros Hne Ht [Hi|[Ho|Hw]].
  - destruct (view_buf _ _ _ _ _ Hv c Hi) as [?|[?|Hp]]; [by left | by right; left|].
    right; right. by apply Hp.
  - destruct (view_owes _ _ _ _ _ Hinv Hv c Ho) as [?|Hp]; [by right; left|].
    right; right. by apply Hp.
  - right; right. by eapply view_wakers.
Qed.

Lemma keep_open t c : t <> u -> t ∈ waiters (chans s c) -> PolledOpen s t c -> PolledOpen s' t c.
Proof.
  intros Hne Ht [Hi|[Ho|Hw]].
  - destruct (view_open _ _ _ _ _ Hv c Hi) as [?|[?|Hp]]; [by left | by right; left|].
    right; right. by apply Hp.
  - destruct (view_owes _ _ _ _ _ Hinv Hv c Ho) as [?|Hp]; [by right; left|].
    right; right. by apply Hp.
  - right; right. by eapply view_wakers.
Qed.

Lemma keep_registered t cs : t <> u -> registered s t cs -> registered s' t cs.
Proof. intros Hne Hr c Hc. eapply view_registered; [done | done | by apply Hr]. Qed.

Lemma keep_scanned t cs live start k :
  t <> u -> registered s t cs -> live ⊆ cs -> scanned s t live start k -> scanned s' t live start k.
Proof.
  intros Hne Hr Hl Hs j c Hj Hc. apply keep_safe; [done | | by eapply Hs].
  apply Hr, Hl. by eapply list_elem_of_lookup_2.
Qed.

Lemma keep_local t p : t <> u -> local s t p -> local s' t p.
Proof.
  intros Hne. destruct p; cbn [local]; try done.
  - intros (pre & -> & Hr). exists pre. split; [done | by apply keep_registered].
  - intros [Hr Hl]. split; [by apply keep_registered | done].
  - intros (Hr & Hl & Hs & Hk & Hsc & Hp). split_and!; try done.
    + by apply keep_registered.
    + intros Hpend. eapply keep_scanned; [done | done | done | by apply Hsc].
    + intros Hph c Hc. apply keep_polled; [done | | by apply Hp].
      apply Hr, Hl. by eapply list_elem_of_lookup_2.
  - intros (Hr & Hl & Hs & Hk & Hsc & Hp). split_and!; try done.
    + by apply keep_registered.
    + intros Hpend. eapply keep_scanned; [done | done | done | by apply Hsc].
    + intros c Hc. apply keep_open; [done | | by apply Hp].
      apply Hr, Hl. by eapply list_elem_of_lookup_2.
  - intros (Hr & Hl & Hs). split_and!; [by apply keep_registered | done |].
    intros Hpend c Hc. apply keep_safe; [done | by apply Hr, Hl | by apply Hs].
  - intros (Hr & Hl & Hs). split_and!; [by apply keep_registered | done |].
    intros c Hc. apply keep_safe; [done | by apply Hr, Hl | by apply Hs].
Qed.

(** Another goroutine is where it was, or is a sender that was let go on. *)
Lemma keep_others t p : t <> u -> threads s' !! t = Some p -> threads s !! t = Some p \/ exists c, p = STaken c.
Proof.
  intros Hne. destruct s' as [C T W k n]; cbn [threads chans wakers] in *.
  destruct Hv as [| | | | | | | | | | |d v x w| ]; rewrite list_lookup_insert_ne by done; try by left.
  destruct w as [w|]; [|by left]. destruct (decide (w = t)) as [->|Hw].
  - intros Hl. right. exists d. apply list_lookup_insert_Some in Hl as [(_ & -> & _)|[? _]]; done.
  - rewrite list_lookup_insert_ne by done. by left.
Qed.
End Keep.

Section Counts.
Context (s : sys) (u : nat) (C : nat -> ChannelState) (T : list pc) (W : nat -> bool).
Hypothesis Hinv : Inv s.

(** An entry that stays queued belongs to a goroutine that did not move. *)
Lemma parked_insert c x v p p' :
  threads s !! u = Some p -> p <> SParked c v -> (x, v) ∈ sendq (chans s c) ->
  <[u := p']> (threads s) !! x = Some (SParked c v).
Proof.
  intros Hp Hne Hin. apply (inv_parked s Hinv) in Hin. rewrite list_lookup_insert_ne; [done|].
  intros ->. rewrite Hp in Hin. by injection Hin as ->.
Qed.

Hypothesis Hv : view s u C T W.

(** A receive takes the first parked sender off the queue, if there is one. *)
Lemma chanRecv_queue x v y w :
  chanRecv x = Some (v, y, w) ->
  match w with
  | Some w => exists v', sendq x = (w, v') :: sendq y
  | None => sendq x = [] /\ sendq y = []
  end.
Proof.
  unfold chanRecv. destruct (Ch x), (sendq x) as [|[? ?] ?] eqn:E; intros [= <- <- <-]; rewrite ?E; cbn; eauto.
Qed.

Lemma count_same c l i p p' :
  l !! i = Some p -> inFlight c p = inFlight c p' -> count c (<[i := p']> l) = count c l.
Proof. intros Hi E. pose proof (count_insert c l i p p' Hi). rewrite E in *. lia. Qed.

Lemma view_pending c : pending (C c) = Z.of_nat (count c T).
Proof.
  pose proof (inv_pending s Hinv c) as Hc.
  destruct Hv as [p p' Hp Hq Hq'|p p' Hp Hq Hq'|d v Hp|d p p' Hp _ He Hd _|d v Hp|d v Hp|d v r Hp|d v r Hp|d r Hp|d Hp|d Hp
    |d v x w p p' Hp Hq Hq' Hr|d ws p p' Hp Hq Hq' _].
  - erewrite count_same; [done | done | by rewrite !quiet_inFlight].
  - erewrite count_same; [done | done | by rewrite !quiet_inFlight].
  - pose proof (count_insert c _ _ _ (SNotify d v) Hp) as Hi. cbn in Hi.
    destruct (Nat.eqb_spec d c) as [->|Hne].
    + rewrite fn_lookup_insert. cbn in *. lia.
    + rewrite fn_lookup_insert_ne by done. cbn in *. lia.
  - erewrite count_same; [done | done|]. destruct (decide (c = d)) as [->|Hne]; [done|].
    destruct (Hd c Hne) as (_ & -> & ->). done.
  - erewrite count_same; [|done | done]. destruct (decide (d = c)) as [->|Hne];
      [by rewrite fn_lookup_insert | by rewrite fn_lookup_insert_ne].
  - erewrite count_same; [|done | done]. destruct (decide (d = c)) as [->|Hne];
      [by rewrite fn_lookup_insert | by rewrite fn_lookup_insert_ne].
  - by erewrite count_same.
  - erewrite count_same; [|done | done]. destruct (decide (d = c)) as [->|Hne];
      [by rewrite fn_lookup_insert | by rewrite fn_lookup_insert_ne].
  - pose proof (count_insert c _ _ _ (Idle r) Hp) as Hi. cbn in Hi.
    destruct (Nat.eqb_spec d c) as [->|Hne].
    + rewrite fn_lookup_insert. cbn in *. lia.
    + rewrite fn_lookup_insert_ne by done. cbn in *. lia.
  - erewrite count_same; [|done | done]. destruct (decide (d = c)) as [->|Hne];
      [by rewrite fn_lookup_insert | by rewrite fn_lookup_insert_ne].
  - erewrite count_same; [|done | done]. destruct (decide (d = c)) as [->|Hne];
      [by rewrite fn_lookup_insert | by rewrite fn_lookup_insert_ne].
  - assert (pending (<[d := x]> (chans s) c) = pending (chans s c)) as ->.
    { destruct (decide (d = c)) as [->|Hne]; [|by rewrite fn_lookup_insert_ne].
      rewrite fn_lookup_insert. by apply chanRecv_waiters in Hr as (_ & _ & ->). }
    destruct w as [w|]; [|by erewrite count_same; [| |rewrite !quiet_inFlight]].
    destruct (recv_parked s Hinv d _ _ _ _ eq_refl Hr) as [v' Hw].
    assert (u <> w) by (intros ->; rewrite Hp in Hw; injection Hw as ->; done).
    erewrite count_same; [by erewrite count_same | by rewrite list_lookup_insert_ne | by rewrite !quiet_inFlight].
  - erewrite count_same; [|done | by rewrite !quiet_inFlight]. destruct (decide (d = c)) as [->|Hne];
      [by rewrite fn_lookup_insert | by rewrite fn_lookup_insert_ne].
Qed.

Lemma view_parked c x v : (x, v) ∈ sendq (C c) -> T !! x = Some (SParked c v).
Proof.
  destruct Hv as [p p' Hp Hq Hq'|p p' Hp Hq Hq'|d v0 Hp|d p p' Hp Hod He Hd _|d v0 Hp|d v0 Hp|d v0 r Hp|d v0 r Hp|d r Hp|d Hp|d Hp
    |d v0 y w p p' Hp Hq Hq' Hr|d ws p p' Hp Hq Hq' _]; intros Hin.
  - eapply parked_insert; [done | by intros -> | done].
  - eapply parked_insert; [done | by intros -> | done].
  - eapply parked_insert; [done | done |]. destruct (decide (d = c)) as [->|Hne];
      [by rewrite fn_lookup_insert in Hin | by rewrite fn_lookup_insert_ne in Hin].
  - eapply parked_insert; [done | | done]. intros ->. done.
  - eapply parked_insert; [done | done |]. destruct (decide (d = c)) as [->|Hne];
      [by rewrite fn_lookup_insert in Hin | by rewrite fn_lookup_insert_ne in Hin].
  - destruct (decide (d = c)) as [->|Hne].
    + rewrite fn_lookup_insert in Hin. cbn in Hin. apply elem_of_app in Hin as [Hin|Hin].
      * eapply parked_insert; [done | done | done].
      * apply list_elem_of_singleton in Hin as [= -> ->].
        apply list_lookup_insert_eq. by eapply lookup_lt_Some.
    + rewrite fn_lookup_insert_ne in Hin by done. by eapply parked_insert.
  - eapply parked_insert; [done | done | done].
  - destruct (decide (d = c)) as [->|Hne].
    + rewrite fn_lookup_insert in Hin. cbn in Hin. apply list_elem_of_filter in Hin as [Hx Hin].
      rewrite list_lookup_insert_ne by (cbn in Hx; congruence). by apply (inv_parked s Hinv).
    + rewrite fn_lookup_insert_ne in Hin by done. eapply parked_insert; [done | | done]. by intros [= -> _].
  - eapply parked_insert; [done | done |]. destruct (decide (d = c)) as [->|Hne];
      [by rewrite fn_lookup_insert in Hin | by rewrite fn_lookup_insert_ne in Hin].
  - eapply parked_insert; [done | done |]. destruct (decide (d = c)) as [->|Hne];
      [by rewrite fn_lookup_insert in Hin | by rewrite fn_lookup_insert_ne in Hin].
  - eapply parked_insert; [done | done |]. destruct (decide (d = c)) as [->|Hne];
      [by rewrite fn_lookup_insert in Hin | by rewrite fn_lookup_insert_ne in Hin].
  - pose proof (chanRecv_queue _ _ _ _ Hr) as Hqu. destruct w as [w|].
    + destruct Hqu as [v' Hqu]. pose proof (inv_nodup s Hinv d) as Hnd. rewrite Hqu in Hnd.
      apply NoDup_cons in Hnd as [Hnw _].
      assert ((x, v) ∈ sendq (chans s c) /\ x <> w) as [Hin' Hxw].
      { destruct (decide (d = c)) as [->|Hne].
        - rewrite fn_lookup_insert in Hin. rewrite Hqu. split; [by apply elem_of_cons; right|].
          intros ->. apply Hnw. apply list_elem_of_fmap. by exists (w, v).
        - rewrite fn_lookup_insert_ne in Hin by done. split; [done|]. intros ->.
          apply (inv_parked s Hinv) in Hin.
          assert ((w, v') ∈ sendq (chans s d)) as Hw by (rewrite Hqu; apply elem_of_cons; by left).
          apply (inv_parked s Hinv) in Hw. rewrite Hin in Hw. injection Hw as ->. done. }
      apply (inv_parked s Hinv) in Hin'.
      assert (x <> u) by (intros ->; rewrite Hp in Hin'; injection Hin' as ->; done).
      by rewrite !list_lookup_insert_ne by done.
    + destruct (decide (d = c)) as [->|Hne].
      * rewrite fn_lookup_insert in Hin. destruct Hqu as [_ Hqu]. rewrite Hqu in Hin. by apply elem_of_nil in Hin.
      * rewrite fn_lookup_insert_ne in Hin by done. eapply parked_insert; [done | by intros -> | done].
  - eapply parked_insert; [done | by intros -> |]. destruct (decide (d = c)) as [->|Hne];
      [by rewrite fn_lookup_insert in Hin | by rewrite fn_lookup_insert_ne in Hin].
Qed.

Lemma view_nodup c : NoDup (map fst (sendq (C c))).
Proof.
  pose proof (inv_nodup s Hinv c) as Hn.
  destruct Hv as [| |d v Hp| |d v Hp|d v Hp| |d v r Hp|d r Hp|d Hp|d Hp|d v x w p p' Hp Hq Hq' Hr|d ws p p' Hp Hq _ _];
    try done; (destruct (decide (d = c)) as [->|Hne];
      [rewrite fn_lookup_insert | by rewrite fn_lookup_insert_ne]); try done.
  - cbn. rewrite map_app. apply NoDup_app. split; [done|]. split; [|apply NoDup_singleton].
    intros x Hx Hu. apply list_elem_of_singleton in Hu. cbn in Hu.
    apply list_elem_of_fmap in Hx as ([x' v'] & Hx' & Hx). apply (inv_parked s Hinv) in Hx.
    cbn in Hx'. subst x'. rewrite Hu in Hx. by rewrite Hp in Hx.
  - cbn. clear -Hn. induction (sendq (chans s c)) as [|[x y] q IH]; [done|].
    cbn in Hn. apply NoDup_cons in Hn as [Hx Hn]. rewrite filter_cons. case_decide; [|by apply IH].
    cbn. apply NoDup_cons. split; [|by apply IH]. intros Hin. apply Hx.
    apply list_elem_of_fmap in Hin as ([x' y'] & -> & Hin). apply list_elem_of_filter in Hin as [_ Hin].
    apply list_elem_of_fmap. by exists (x', y').
  - pose proof (chanRecv_queue _ _ _ _ Hr) as Hqu. destruct w as [w|].
    + destruct Hqu as [v' Hqu]. rewrite Hqu in Hn. by apply NoDup_cons in Hn as [_ Hn].
    + destruct Hqu as [_ ->]. constructor.
Qed.
End Counts.

(** ** The goroutine that steps *)

Section Self.
Context (s : sys) (u : nat) (p p' : pc).
Hypothesis Hinv : Inv s.
Hypothesis Hp : threads s !! u = Some p.
Hypothesis Hq : quiet p.
Hypothesis Hq' : quiet p'.

(** Moving between quiet points changes nothing the channels' facts depend on. *)
Lemma self_owes c : Owes s c -> Owes (setPc u p' s) c.
Proof using Hp Hq. intros Ho. eapply exists_keep; [done | by rewrite quiet_owes | done]. Qed.

Lemma self_idle c : idle s c -> idle (setPc u p' s) c.
Proof using Hq'.
  intros (? & ? & ? & ?). split_and!; [done | done | done |].
  apply Forall_insert; [done | by apply quiet_selecting].
Qed.

Lemma self_safe t c : Safe s t c -> Safe (setPc u p' s) t c.
Proof using Hp Hq Hq'. intros [?|[?|?]]; [left; by apply self_idle | right; left; by apply self_owes | by right; right]. Qed.

Lemma self_polled t c : Polled s t c -> Polled (setPc u p' s) t c.
Proof using Hp Hq. intros [?|[?|?]]; [by left | right; left; by apply self_owes | by right; right]. Qed.

Lemma self_open t c : PolledOpen s t c -> PolledOpen (setPc u p' s) t c.
Proof using Hp Hq. intros [?|[?|?]]; [by left | right; left; by apply self_owes | by right; right]. Qed.

Lemma self_scanned t live start k : scanned s t live start k -> scanned (setPc u p' s) t live start k.
Proof using Hp Hq Hq'. intros Hs j c Hj Hc. apply self_safe. by eapply Hs. Qed.
End Self.

(** No send in flight on an empty open channel: it is idle. *)
Lemma pending_idle s t c : Inv s -> HasPendingSend (chans s c) = false -> PolledOpen s t c -> Safe s t c.
Proof.
  intros Hinv Hf [[Hb Hc]|[?|?]]; [left | by right; left | by right; right].
  unfold HasPendingSend in Hf. apply Z.ltb_ge in Hf. rewrite (inv_pending s Hinv c) in Hf.
  assert (count c (threads s) = 0) as H0 by lia. apply count_zero in H0.
  split_and!; [done | | done |].
  - destruct (sendq (chans s c)) as [|[x v] q] eqn:Eq; [done|].
    assert ((x, v) ∈ sendq (chans s c)) as Hx by (rewrite Eq; apply elem_of_cons; by left).
    apply (inv_parked s Hinv) in Hx. rewrite Forall_lookup in H0. specialize (H0 _ _ Hx). cbn in H0.
    by rewrite Nat.eqb_refl in H0.
  - eapply Forall_impl; [exact H0|]. intros []; done.
Qed.

(** A full turn from any start polls every channel. *)
Lemma rotation_covers start n i : i < n -> exists j, j < n /\ (start + j) mod n = i.
Proof.
  intros Hi. exists ((i + (n - start mod n)) mod n).
  split; [apply Nat.mod_upper_bound; lia|].
  pose proof (Nat.mod_upper_bound start n). pose proof (Nat.div_mod start n).
  rewrite Nat.Div0.add_mod_idemp_r.
  replace (start + (i + (n - start mod n))) with (i + (start / n + 1) * n) by nia.
  rewrite Nat.Div0.mod_add. by apply Nat.mod_small.
Qed.

Lemma scanned_all s t live start : scanned s t live start (length live) -> forall c, c ∈ live -> Safe s t c.
Proof.
  intros Hs c Hc. apply list_elem_of_lookup in Hc as [i Hi].
  destruct (rotation_covers start (length live) i) as (j & Hj & E); [by eapply lookup_lt_Some|].
  eapply Hs; [exact Hj|]. by rewrite E.
Qed.

Lemma scanned_next s t live start k c :
  scanned s t live start k -> live !! ((start + k) mod length live) = Some c -> Safe s t c ->
  scanned s t live start (S k).
Proof.
  intros Hs Hc Hsafe j d Hj Hd. destruct (decide (j = k)) as [->|]; [congruence|].
  eapply Hs; [|done]. lia.
Qed.

Lemma setPc_self u p s q : threads (setPc u p s) !! u = Some q -> q = p.
Proof. cbn. intros H. by apply list_lookup_insert_Some in H as [(_ & <- & _)|[? _]]. Qed.

Lemma recvFrom_none c s : recvFrom c s = None -> Ch (chans s c) = [].
Proof.
  unfold recvFrom, chanRecv. destruct (Ch (chans s c)) as [|v b]; [done|].
  by destruct (sendq (chans s c)) as [|[w x] q].
Qed.

Lemma stepScan_local s u cs live start k pend ph s' q :
  Inv s -> threads s !! u = Some (WScan cs live start k pend ph) ->
  stepScan u cs live start k pend ph s = Some s' -> threads s' !! u = Some q -> local s' u q.
Proof.
  intros Hinv Hp Hs Hq. pose proof (inv_local s Hinv u _ Hp) as (Hr & Hl & Hst & Hk & Hsc & Hpo).
  unfold stepScan in Hs. cbn zeta in Hs.
  destruct (live !! ((start + k) mod length live)) as [c|] eqn:Ec; [|done]. destruct ph.
  - destruct (recvFrom c s) as [[v s1]|] eqn:Er; injection Hs as <-; apply setPc_self in Hq as ->; [done|].
    split_and!; [done | done | done | done | |].
    + intros Hpe. eapply self_scanned; [done | done | done | by apply Hsc].
    + intros _ d Hd. rewrite Ec in Hd. injection Hd as <-. left. by apply (recvFrom_none c s).
  - destruct (closed (chans s c)) eqn:Ecl; injection Hs as <-; apply setPc_self in Hq as ->.
    + split_and!; [done | done | done | done | | done].
      intros Hpe. eapply self_scanned; [done | done | done | by apply Hsc].
    + split_and!; [done | done | done | done | |].
      * intros Hpe. eapply self_scanned; [done | done | done | by apply Hsc].
      * intros d Hd. rewrite Ec in Hd. injection Hd as <-. eapply self_open; [done | done |].
        destruct (Hpo eq_refl c eq_refl) as [?|[?|?]]; [by left | by right; left | by right; right].
  - destruct (recvFrom c s) as [[v s1]|] eqn:Er; [injection Hs as <-; apply setPc_self in Hq as ->; done|].
    destruct (delete _ live) as [|x l] eqn:Ed; injection Hs as <-; apply setPc_self in Hq as ->; [done|].
    split_and!; [done | | cbn; lia | cbn; lia | | done].
    + rewrite <- Ed. intros d Hd. apply Hl. by eapply (sublist_subseteq _ _ (sublist_delete _ _)).
    + intros _ j d Hj. lia.
Qed.

Lemma stepPend_local s u cs live start k pend s' q :
  Inv s -> threads s !! u = Some (WPend cs live start k pend) ->
  stepPend u cs live start k pend s = Some s' -> threads s' !! u = Some q -> local s' u q.
Proof.
  intros Hinv Hp Hs Hq. pose proof (inv_local s Hinv u _ Hp) as (Hr & Hl & Hst & Hk & Hsc & Hpo).
  unfold stepPend in Hs. destruct (live !! ((start + k) mod length live)) as [c|] eqn:Ec; [|done].
  assert (pend || HasPendingSend (chans s c) = false -> scanned s u live start (S k)) as Hnext.
  { intros [Hpe Hf]%orb_false_iff.
    eapply scanned_next; [by apply Hsc | done | apply pending_idle; [done | done | by apply Hpo]]. }
  cbn zeta in Hs. case_match eqn:Elt; injection Hs as <-; apply setPc_self in Hq as ->.
  - apply Nat.ltb_lt in Elt. split_and!; [done | done | done | done | | done].
    intros Hpe. eapply self_scanned; [done | done | done | by apply Hnext].
  - apply Nat.ltb_ge in Elt. split_and!; [done | done |]. intros Hpe d Hd.
    eapply self_safe; [done | done | done |]. apply (scanned_all s u live start); [|done].
    replace (length live) with (S k) by lia. by apply Hnext.
Qed.

Lemma local_self s u s' q :
  Inv s -> step s u s' -> threads s' !! u = Some q -> local s' u q.
Proof.
  intros Hinv [a H] Hq. unfold trans in H. destruct (threads s !! u) as [p|] eqn:Ep; [|done].
  pose proof (inv_local s Hinv u p Ep) as Hloc.
  destruct p; destruct a; try discriminate H.
  all: try (by eapply stepScan_local). all: try (by eapply stepPend_local).
  all: unfold startOp, stepSelect, stepParked, stepTry, stepRSelect, stepSleep in H.
  all: cbn zeta in H; step_cases H.
  all: try (apply setPc_self in Hq as ->); try done.
  - exists []. split; [done|]. intros c Hc. by apply elem_of_nil in Hc.
  - cbn in Hq. rewrite Ep in Hq. by injection Hq as <-.
  - destruct Hloc as (pre & -> & Hr). rewrite app_nil_r. done.
  - destruct Hloc as (pre & -> & Hr). exists (pre ++ [n]). split; [by rewrite <- app_assoc|].
    intros c Hc. cbn. apply elem_of_app in Hc as [Hc|Hc%list_elem_of_singleton].
    + destruct (decide (n = c)) as [->|Hne].
      * rewrite fn_lookup_insert. cbn. apply elem_of_app. left. by apply Hr.
      * rewrite fn_lookup_insert_ne by done. by apply Hr.
    + subst c. rewrite fn_lookup_insert. cbn. apply elem_of_app. right. by apply list_elem_of_singleton.
  - destruct Hloc as [Hr Hl]. split_and!; [done | done | | cbn; lia | | done].
    + apply Nat2Z.inj_lt. rewrite Z2Nat.id; [apply Z.mod_pos_bound; cbn; lia | apply Z.mod_pos_bound; cbn; lia].
    + intros _ j c Hj. lia.
  - by destruct Hloc as (? & ? & _).
  - destruct Hloc as (? & ? & Hs). split_and!; [done | done |]. intros c Hc.
    eapply self_safe; [done | done | done | by apply Hs].
  - by destruct Hloc as (? & ? & _).
Qed.

Lemma step_inv s u s' : Inv s -> step s u s' -> Inv s'.
Proof.
  intros Hinv Hs. pose proof (step_view s u s' Hs) as Hv. split.
  - intros c. by eapply view_pending.
  - intros c x v. by eapply view_parked.
  - intros c. by eapply view_nodup.
  - intros t p Ht. destruct (decide (t = u)) as [->|Hne]; [by eapply local_self|].
    destruct (keep_others s u s' Hv t p Hne Ht) as [Ht'|[c ->]]; [|done].
    eapply keep_local; [done | done | done | by apply (inv_local s Hinv)].
Qed.

Lemma initial_inv caps n : Inv (initial caps n).
Proof.
  split; cbn.
  - intros c. by induction n.
  - intros c u v Hu. by apply elem_of_nil in Hu.
  - intros c. constructor.
  - intros t p [-> _]%lookup_replicate. done.
Qed.

Lemma reachable_inv caps n s : reachable caps n s -> Inv s.
Proof. induction 1; [apply initial_inv | by eapply step_inv]. Qed.

(** ** Fair runs *)

(** The goroutine can go on with the operation it is in; an idle one is not obliged to
    start another. *)
Definition canGo (s : sys) (t : nat) : Prop :=
  exists a s', trans s t a = Some s' /\ match a with AStart _ => False | _ => True end.

(** An infinite run: at each instant one goroutine steps, or none does. *)
Record run (caps : nat -> nat) (n : nat) (sigma : nat -> sys) (tau : nat -> option nat) : Prop := {
  run_start : sigma 0 = initial caps n;
  run_step : forall i, match tau i with
                       | Some t => step (sigma i) t (sigma (S i))
                       | None => sigma (S i) = sigma i
                       end
}.

(** Weak fairness: no goroutine can go on for ever without a step of its own. *)
Definition fair (sigma : nat -> sys) (tau : nat -> option nat) : Prop :=
  forall t i, exists j, i <= j /\ (tau j = Some t \/ ~ canGo (sigma j) t).

Section Runs.
Context (caps : nat -> nat) (n : nat) (sigma : nat -> sys) (tau : nat -> option nat).
Hypothesis Hrun : run caps n sigma tau.

Lemma run_reachable i : reachable caps n (sigma i).
Proof using Hrun.
  induction i as [|i IH]; [rewrite (run_start _ _ _ _ Hrun); constructor|].
  pose proof (run_step _ _ _ _ Hrun i) as Hs. destruct (tau i) as [t|]; [|by rewrite Hs].
  by eapply reach_step.
Qed.

Lemma run_inv i : Inv (sigma i).
Proof using Hrun. eapply reachable_inv, run_reachable. Qed.

(** What the goroutine's own steps end, and nobody else's do, holds until it steps. *)
Lemma run_waits u (P : sys -> Prop) (Q : nat -> Prop) i :
  fair sigma tau -> (forall j, P (sigma j) -> canGo (sigma j) u) ->
  (forall j, P (sigma j) -> tau j <> Some u -> Q j \/ P (sigma (S j))) -> P (sigma i) ->
  exists j, i <= j /\ (Q j \/ (P (sigma j) /\ tau j = Some u)).
Proof.
  intros Hf Hgo Hk Hi. destruct (Hf u i) as (m & Him & Hm).
  remember (m - i) as d eqn:Ed. revert i Him Ed Hi.
  induction d as [|d IH]; intros i Him Ed Hi.
  - replace m with i in * by lia. destruct Hm as [Hm|Hm]; [|by destruct Hm; apply Hgo].
    exists i. split; [done | by right].
  - destruct (decide (tau i = Some u)) as [Hu|Hu]; [exists i; split; [done | by right]|].
    destruct (Hk i Hi Hu) as [Hq|HP]; [exists i; split; [done | by left]|].
    destruct (IH (S i)) as (j & Hj & Hres); [lia | lia | done|]. exists j. split; [lia | done].
Qed.

(** A goroutine stays put until it steps, unless it is a parked sender. *)
Lemma run_put u p i :
  threads (sigma i) !! u = Some p -> (forall c v, p <> SParked c v) -> tau i <> Some u ->
  threads (sigma (S i)) !! u = Some p.
Proof using Hrun.
  intros Hp Hnp Hne. pose proof (run_step _ _ _ _ Hrun i) as Hs.
  destruct (tau i) as [w|]; [|by rewrite Hs]. assert (u <> w) by congruence.
  pose proof (step_view _ _ _ Hs) as Hv. pose proof (run_inv i) as Hinv.
  destruct (sigma (S i)) as [C T W k m]. cbn [threads chans wakers] in *.
  destruct Hv as [| | | | | | | | | | |d v x [y|] q q' _ _ _ Hr| ];
    rewrite ?list_lookup_insert_ne by done; try done.
  destruct (recv_parked _ Hinv d _ _ _ _ eq_refl Hr) as [v' Hy].
  rewrite list_lookup_insert_ne; [done|]. intros ->. rewrite Hp in Hy. injection Hy as ->. by eapply Hnp.
Qed.

Context (t : nat) (cs live : list nat).
Hypothesis Hfair : fair sigma tau.

(** A select that has its token steps. *)
Lemma token_wakes i :
  threads (sigma i) !! t = Some (WSleep cs live) -> wakers (sigma i) t = true ->
  exists j, i <= j /\ tau j = Some t.
Proof using Hrun Hfair.
  intros Ht Hw.
  destruct (run_waits t (fun s => threads s !! t = Some (WSleep cs live) /\ wakers s t = true)
    (fun _ => False) i Hfair) as (j & Hj & Hres).
  - intros j [Hj Hwj]. eexists AGo, _. split; [|done]. unfold trans. rewrite Hj. cbn. by rewrite Hwj.
  - intros j [Hj Hwj] Hne. right. split; [by apply run_put|].
    pose proof (run_step _ _ _ _ Hrun j) as Hs. destruct (tau j) as [w|]; [|by rewrite Hs].
    pose proof (step_view _ _ _ Hs). assert (t <> w) by congruence. by eapply view_wakers.
  - done.
  - exists j. by destruct Hres as [[]|[_ ?]].
Qed.

(** A goroutine that is about to poke a channel does so. *)
Lemma poke_comes u p c i :
  threads (sigma i) !! t = Some (WSleep cs live) -> threads (sigma i) !! u = Some p -> c ∈ live ->
  p <> CDone c -> owes c p = true -> exists j, i <= j /\ tau j = Some t.
Proof using Hrun Hfair.
  intros Ht Hu Hc Hnd Hp.
  destruct (run_waits u (fun s => threads s !! t = Some (WSleep cs live) /\ threads s !! u = Some p)
    (fun j => tau j = Some t) i Hfair) as (j & Hj & Hres).
  - intros j [_ Hj]. destruct p; try done; eexists AGo, _; unfold trans; by rewrite Hj.
  - intros j [Hjt Hju] Hne. destruct (decide (tau j = Some t)) as [?|Hnt]; [by left | right].
    split; apply run_put; try done. by intros ? ? ->.
  - done.
  - destruct Hres as [?|[[Hjt Hju] Hs]]; [by exists j|].
    pose proof (run_step _ _ _ _ Hrun j) as Hst. rewrite Hs in Hst.
    assert (u <> t) by (intros ->; rewrite Hju in Hjt; injection Hjt as ->; done).
    destruct (inv_local _ (run_inv j) t _ Hjt) as (Hr & Hl & _).
    assert (wakers (sigma (S j)) t = true) as Hw.
    { destruct Hst as [a Hst]. unfold trans in Hst. rewrite Hju in Hst.
      destruct p; try done; destruct a; try done; apply Nat.eqb_eq in Hp as ->;
        try (injection Hst as <-; cbn; rewrite bool_decide_true; [done | by apply Hr, Hl]).
      done. }
    destruct (token_wakes (S j)) as (k & Hk & ?); [apply run_put; [done | done | congruence] | done|].
    exists k. split; [lia | done].
Qed.

Lemma owed_comes c i :
  threads (sigma i) !! t = Some (WSleep cs live) -> c ∈ live -> Owes (sigma i) c ->
  exists j, i <= j /\ tau j = Some t.
Proof using Hrun Hfair.
  intros Ht Hc Ho. apply Exists_exists in Ho as (p & Hin & Hp).
  apply list_elem_of_lookup in Hin as [u Hu].
  assert (p = CDone c \/ p <> CDone c) as [->|Hnd];
    [destruct p; try (by right); apply Nat.eqb_eq in Hp as ->; by left | | by eapply poke_comes].
  destruct (run_waits u (fun s => threads s !! t = Some (WSleep cs live) /\ threads s !! u = Some (CDone c))
    (fun j => tau j = Some t) i Hfair) as (j & Hj & Hres).
  - intros j [_ Hj]. eexists AGo, _. unfold trans. by rewrite Hj.
  - intros j [Hjt Hju] Hne. destruct (decide (tau j = Some t)) as [?|Hnt]; [by left | right].
    split; by apply run_put.
  - done.
  - destruct Hres as [?|[[Hjt Hju] Hs]]; [by exists j|].
    pose proof (run_step _ _ _ _ Hrun j) as Hst. rewrite Hs in Hst. destruct Hst as [a Hst].
    unfold trans in Hst. rewrite Hju in Hst. destruct a; try done. injection Hst as Hst.
    assert (u <> t) by (intros ->; by rewrite Hju in Hjt).
    destruct (poke_comes u (CNotify c) c (S j)) as (k & Hk & ?);
      [apply run_put; [done | done | congruence] | | done | done | apply Nat.eqb_refl |].
    + rewrite <- Hst. apply list_lookup_insert_eq. by eapply lookup_lt_Some.
    + exists k. split; [lia | done].
Qed.
End Runs.

(** ** Finite schedules as runs *)

Definition scheduleState (s : sys) (l : list (nat * act)) (i : nat) : sys :=
  default s (runSchedule s (take i l)).
Definition scheduleTurn (l : list (nat * act)) (i : nat) : option nat := fst <$> l !! i.

Lemma runSchedule_app s l1 l2 :
  runSchedule s (l1 ++ l2) = runSchedule s l1 ≫= fun s' => runSchedule s' l2.
Proof.
  revert s. induction l1 as [|[t a] l IH]; intros s; [done|]. cbn.
  destruct (trans s t a) as [s'|]; [apply IH | done].
Qed.

(** A schedule that runs to its end, then rests, is a run; it is fair when it ends with
    every goroutine idle. *)
Lemma schedule_run caps n l s :
  runSchedule (initial caps n) l = Some s ->
  run caps n (scheduleState (initial caps n) l) (scheduleTurn l).
Proof.
  intros Hl. split; [done|]. intros i. unfold scheduleTurn, scheduleState.
  destruct (l !! i) as [[t a]|] eqn:Ei; cbn.
  - rewrite (take_S_r _ _ _ Ei). rewrite <- (take_drop i l) in Hl. rewrite runSchedule_app in Hl |- *.
    destruct (runSchedule _ (take i l)) as [s1|] eqn:E1; [|done]. cbn in Hl |- *.
    erewrite drop_S in Hl by done. cbn in Hl.
    destruct (trans s1 t a) as [s2|] eqn:E2; [|done]. by exists a.
  - apply lookup_ge_None in Ei. by rewrite !take_ge by lia.
Qed.

Lemma schedule_fair caps n l s :
  runSchedule (initial caps n) l = Some s -> Forall (fun p => exists r, p = Idle r) (threads s) ->
  fair (scheduleState (initial caps n) l) (scheduleTurn l).
Proof.
  intros Hl Hs t i. exists (i + length l). split; [lia|]. right. unfold scheduleState.
  rewrite take_ge, Hl by lia. cbn. intros (a & s' & H & Ha). unfold trans in H.
  destruct (threads s !! t) as [p|] eqn:Et; [|done]. rewrite Forall_lookup in Hs.
  destruct (Hs _ _ Et) as [r ->]. by destruct a.
Qed.

(** A sleeping select leaves its sleep at its first step. *)
Definition awake (s : sys) (t : nat) (cs live : list nat) : Prop :=
  threads s !! t = Some (WStart cs live) \/ threads s !! t = Some (WUnsub cs OCancelled).

Lemma sleep_step s t cs live s' :
  threads s !! t = Some (WSleep cs live) -> step s t s' -> awake s' t cs live.
Proof.
  intros Ht [a Hs]. unfold trans, stepSleep in Hs. rewrite Ht in Hs.
  assert (t < length (threads s)) by (by eapply lookup_lt_Some).
  destruct a; try done; case_match; try done; injection Hs as <-;
    [left | right]; by apply list_lookup_insert_eq.
Qed.

Lemma sleep_ends caps n sigma tau t cs live i j :
  run caps n sigma tau -> threads (sigma i) !! t = Some (WSleep cs live) -> i <= j -> tau j = Some t ->
  exists k, i < k /\ awake (sigma k) t cs live.
Proof.
  intros Hrun Ht Hij Hj. remember (j - i) as d eqn:Ed. revert i Ht Hij Ed.
  induction d as [|d IH]; intros i Ht Hij Ed; (destruct (decide (tau i = Some t)) as [Hi|Hi];
    [exists (S i); split; [lia|]; pose proof (run_step _ _ _ _ Hrun i) as Hs; rewrite Hi in Hs; by eapply sleep_step|]).
  - by replace i with j in Hi by lia.
  - destruct (IH (S i)) as (k & Hk & Hres); [by eapply run_put | lia | lia|]. exists k. split; [lia | done].
Qed.

(** ** The properties *)

(** C37: no wake-up is lost.  In every fair run of any number of goroutines that send,
    receive, close, cancel and select on any channels, a [selectRecv] asleep on its waker
    while one of its live channels has a buffered value, a parked sender or is closed is
    eventually woken: it goes back to polling its channels, or leaves because its task was
    cancelled. *)
Theorem selectRecv_wakes caps n sigma tau t cs live c i :
  run caps n sigma tau -> fair sigma tau ->
  threads (sigma i) !! t = Some (WSleep cs live) -> c ∈ live ->
  Ch (chans (sigma i) c) <> [] \/ sendq (chans (sigma i) c) <> [] \/ closed (chans (sigma i) c) = true ->
  exists k, i < k /\ awake (sigma k) t cs live.
Proof.
  intros Hrun Hfair Ht Hc Hready.
  destruct (inv_local _ (run_inv _ _ _ _ Hrun i) t _ Ht) as (_ & _ & Hsafe).
  assert (exists j, i <= j /\ tau j = Some t) as (j & Hj & Hs); [|by eapply sleep_ends].
  destruct (Hsafe c Hc) as [(Hb & Hq & Hcl & _)|[Ho|Hw]].
  - destruct Hready as [?|[?|?]]; congruence.
  - by eapply owed_comes.
  - by eapply token_wakes.
Qed.

(** Goroutine 0 selects on channel 0 and falls asleep; goroutine 1 then sends. *)
Definition selectSchedule : list (nat * act) :=
  (0, AStart (OpSelect [0])) :: replicate 7 (0, AGo) ++
  (1, AStart (OpSend 0 (IntVal 7))) :: replicate 6 (1, AGo) ++ replicate 5 (0, AGo).

Lemma selectRecv_wakes_witness :
  let s0 := initial (fun _ => 1) 2 in
  exists k, 13 < k /\ awake (scheduleState s0 selectSchedule k) 0 [0] [0].
Proof.
  cbn zeta.
  destruct (runSchedule (initial (fun _ => 1) 2) selectSchedule) as [s|] eqn:E; [|by vm_compute in E].
  apply (selectRecv_wakes (fun _ => 1) 2 _ (scheduleTurn selectSchedule) 0 [0] [0] 0).
  - by eapply schedule_run.
  - eapply schedule_fair; [exact E|]. vm_compute in E. injection E as <-. cbn. repeat constructor; by eexists.
  - vm_compute. done.
  - by apply list_elem_of_singleton.
  - left. vm_compute. done.
Defined.

(** A send that has passed its check of [closed] can succeed after the close.
    The channel is closed ([channel.close] has returned) and a receiver has been told that
    it is closed and drained, while a sender stands before its blocking [select]; there the
    free buffer place and the [done] signal are both ready, and when [select] takes the
    former, [Send] returns no error and the value is left in the closed channel. *)
Theorem send_after_drain v :
  exists l1 l2 s1 s2,
    runSchedule (initial (fun _ => 1) 3) l1 = Some s1 /\
    threads s1 = [SSelect 0 v; Idle (OClose true); Idle ORecvClosed] /\ Ch (chans s1 0) = [] /\
    runSchedule s1 l2 = Some s2 /\
    threads s2 = [Idle OSent; Idle (OClose true); Idle ORecvClosed] /\ Ch (chans s2 0) = [v].
Proof.
  eexists ((0, AStart (OpSend 0 v)) :: replicate 3 (0, AGo) ++ (1, AStart (OpClose 0)) :: replicate 3 (1, AGo)
    ++ (2, AStart (OpRecv 0)) :: replicate 3 (2, AGo)), (replicate 3 (0, AGo)).
  eexists _, _. cbv -[Z.add]. done.
Qed.
