(* ===== verification/Lists.v ===== *)
(** * The lists library (internal/lib/lists/listslib.go)

    Every builtin of [lists.] as a function of its argument values.  The functions that take
    a callback run in a small state-and-error monad over [Invoke], the interpreter's way to
    call a func value.  The width of Go's
    [int], 64 bits or the 32 of a small build, is the parameter [intBits], the random source
    of [shuffle] the parameter [intN]. *)

From S2P Require Import Prelude GoInt Float64 GoSort Limits Types Value.
Open Scope string_scope.
Open Scope list_scope.
Open Scope Z_scope.
Open Scope go_scope.

Definition kArg (v : Value) : fmtarg := AStr (ValueKind_String (kindOf v)).
Definition lenArg {A} (l : list A) : fmtarg := AInt (Z.of_nat (length l)).
Definition zlen {A} (l : list A) : Z := Z.of_nat (length l).

Definition lerr {A} (fmt : string) (args : list fmtarg) : result message A := Err (Sprintf fmt args).

(** ** Argument checks *)

Definition requireList (name : string) (v : Value) (argpos : string) : result message (list Value * option Typ) :=
  match v with
  | VList l et => Ok (l, et)
  | _ => lerr "lists.%s: %s must be a list, got %s" [AStr name; AStr argpos; kArg v]
  end.

Definition requireFunc (name : string) (v : Value) (argpos : string) : result message unit :=
  if bool_decide (kindOf v = KindFunc) then Ok tt
  else lerr "lists.%s: %s must be a func, got %s" [AStr name; AStr argpos; kArg v].

Definition requireBool (name : string) (v : Value) : result message bool :=
  match v with
  | VBool b => Ok b
  | _ => lerr "lists.%s: the callback must return bool, got %s" [AStr name; kArg v]
  end.

Section Lists.
Context {NO : NativeObject} {L : Limits}.
Variable intBits : Z.

Definition requireInt (name : string) (v : Value) (argpos : string) : result message Z :=
  match v with
  | VInt n =>
      if (2 ^ (intBits - 1) - 1 <? n) || (n <? - 2 ^ (intBits - 1)) then
        lerr "lists.%s: %s value %d is out of range" [AStr name; AStr argpos; AInt n]
      else Ok n
  | _ => lerr "lists.%s: %s must be int, got %s" [AStr name; AStr argpos; kArg v]
  end.

(** ** Access *)

Definition maxListElements : Z := MaxRangeElements.

Definition pushFn (args : list Value) : result message Value :=
  match args with
  | [xs; item] =>
      let? (l, et) := requireList "push" xs "first argument" in
      if maxListElements <=? zlen l then
        lerr "lists.push: result exceeds the limit of %d elements" [AInt maxListElements]
      else Ok (VList (map Copy l ++ [Copy item]) et)
  | _ => lerr "lists.push expects 2 arguments (list, item), got %d" [lenArg args]
  end.

Definition popFn (args : list Value) : result message Value :=
  match args with
  | [xs] =>
      let? (l, et) := requireList "pop" xs "argument" in
      match l with
      | [] => lerr "lists.pop: cannot pop from an empty list" []
      | _ => Ok (VList (take (length l - 1) (map Copy l)) et)
      end
  | _ => lerr "lists.pop expects 1 argument, got %d" [lenArg args]
  end.

Definition firstFn (args : list Value) : result message Value :=
  match args with
  | [xs] =>
      let? (l, _) := requireList "first" xs "argument" in
      match l with
      | [] => lerr "lists.first: list is empty" []
      | x :: _ => Ok (Copy x)
      end
  | _ => lerr "lists.first expects 1 argument, got %d" [lenArg args]
  end.

Definition lastFn (args : list Value) : result message Value :=
  match args with
  | [xs] =>
      let? (l, _) := requireList "last" xs "argument" in
      match last l with
      | None => lerr "lists.last: list is empty" []
      | Some x => Ok (Copy x)
      end
  | _ => lerr "lists.last expects 1 argument, got %d" [lenArg args]
  end.

Definition headFn (args : list Value) : result message Value :=
  match args with
  | [xs; count] =>
      let? (l, et) := requireList "head" xs "first argument" in
      let? n := requireInt "head" count "count" in
      if (n <? 0) || (zlen l <? n) then
        lerr "lists.head: count %d out of range [0, %d]" [AInt n; lenArg l]
      else Ok (VList (map Copy (take (Z.to_nat n) l)) et)
  | _ => lerr "lists.head expects 2 arguments (list, n), got %d" [lenArg args]
  end.

Definition tailFn (args : list Value) : result message Value :=
  match args with
  | [xs; count] =>
      let? (l, et) := requireList "tail" xs "first argument" in
      let? n := requireInt "tail" count "count" in
      if (n <? 0) || (zlen l <? n) then
        lerr "lists.tail: count %d out of range [0, %d]" [AInt n; lenArg l]
      else Ok (VList (map Copy (drop (length l - Z.to_nat n) l)) et)
  | _ => lerr "lists.tail expects 2 arguments (list, n), got %d" [lenArg args]
  end.

Definition sliceFn (args : list Value) : result message Value :=
  match args with
  | xs :: start :: rest =>
      if (1 <? length rest)%nat then
        lerr "lists.slice expects 2 or 3 arguments (list, start[, end]), got %d" [lenArg args]
      else
        let? (l, et) := requireList "slice" xs "first argument" in
        let? start := requireInt "slice" start "start" in
        let total := zlen l in
        let? end_ := match rest with e :: _ => requireInt "slice" e "end" | [] => Ok total end in
        if (start <? 0) || (total <? start) then
          lerr "lists.slice: start %d out of range [0, %d]" [AInt start; AInt total]
        else if (end_ <? start) || (total <? end_) then
          lerr "lists.slice: end %d out of range [%d, %d]" [AInt end_; AInt start; AInt total]
        else Ok (VList (map Copy (take (Z.to_nat (end_ - start)) (drop (Z.to_nat start) l))) et)
  | _ => lerr "lists.slice expects 2 or 3 arguments (list, start[, end]), got %d" [lenArg args]
  end.

Definition reverseFn (args : list Value) : result message Value :=
  match args with
  | [xs] =>
      let? (l, et) := requireList "reverse" xs "argument" in
      Ok (VList (map Copy (reverse l)) et)
  | _ => lerr "lists.reverse expects 1 argument, got %d" [lenArg args]
  end.

Definition concatFn (args : list Value) : result message Value :=
  match args with
  | [a; b] =>
      let? (la, et) := requireList "concat" a "first argument" in
      let? (lb, _) := requireList "concat" b "second argument" in
      let n := zlen la + zlen lb in
      if maxListElements <? n then
        lerr "lists.concat: %d elements exceed the limit of %d" [AInt n; AInt maxListElements]
      else Ok (VList (map Copy la ++ map Copy lb) et)
  | _ => lerr "lists.concat expects 2 arguments, got %d" [lenArg args]
  end.

(** ** Search *)

Definition containsFn (args : list Value) : result message Value :=
  match args with
  | [xs; item] =>
      let? (l, _) := requireList "contains" xs "first argument" in
      Ok (VBool (existsb (fun v => Equal v item) l))
  | _ => lerr "lists.contains expects 2 arguments (list, item), got %d" [lenArg args]
  end.

Fixpoint indexLoop (i : Z) (l : list Value) (item : Value) : Z :=
  match l with
  | [] => -1
  | v :: l => if Equal v item then i else indexLoop (i + 1) l item
  end.

Definition indexOfFn (args : list Value) : result message Value :=
  match args with
  | [xs; item] =>
      let? (l, _) := requireList "indexOf" xs "first argument" in
      Ok (IntVal (indexLoop 0 l item))
  | _ => lerr "lists.indexOf expects 2 arguments (list, item), got %d" [lenArg args]
  end.

(** The first difference of the common part, from index [i]. *)
Fixpoint mismatchLoop (i : Z) (a b : list Value) : option Z :=
  match a, b with
  | x :: a, y :: b => if Equal x y then mismatchLoop (i + 1) a b else Some i
  | _, _ => None
  end.

Definition mismatchFn (args : list Value) : result message Value :=
  match args with
  | a :: b :: rest =>
      if (1 <? length rest)%nat then
        lerr "lists.mismatch expects 2 or 3 arguments (a, b [, from]), got %d" [lenArg args]
      else
        let? (la, _) := requireList "mismatch" a "first argument" in
        let? (lb, _) := requireList "mismatch" b "second argument" in
        let longest := Z.max (zlen la) (zlen lb) in
        let? from :=
          match rest with
          | f :: _ =>
              let? n := requireInt "mismatch" f "from" in
              if (n <? 0) || (longest <? n) then
                lerr "lists.mismatch: from %d out of range [0, %d]" [AInt n; AInt longest]
              else Ok n
          | [] => Ok 0
          end in
        let shortest := Z.min (zlen la) (zlen lb) in
        match mismatchLoop from (drop (Z.to_nat from) la) (drop (Z.to_nat from) lb) with
        | Some i => Ok (IntVal i)
        | None =>
            if negb (zlen la =? zlen lb) && (from <? longest) then Ok (IntVal (Z.max from shortest))
            else Ok (IntVal (-1))
        end
  | _ => lerr "lists.mismatch expects 2 or 3 arguments (a, b [, from]), got %d" [lenArg args]
  end.

(** ** Sorting *)

Definition isSortable (k : ValueKind) : bool :=
  match k with KindInt | KindFloat | KindString | KindBool => true | _ => false end.
Definition isNumericKind (k : ValueKind) : bool :=
  match k with KindInt | KindFloat => true | _ => false end.

Fixpoint validateLoop (firstKind : ValueKind) (allNumeric : bool) (xs : list Value) : result message unit :=
  match xs with
  | [] => Ok tt
  | v :: xs =>
      let k := kindOf v in
      if negb (isSortable k) then lerr "lists.sort: cannot sort element of kind %s" [kArg v]
      else
        let allNumeric := if isNumericKind k then allNumeric else false in
        if negb (bool_decide (k = firstKind)) && negb (allNumeric && isNumericKind k) then
          lerr "lists.sort: cannot sort mixed-kind list (saw %s and %s)" [AStr (ValueKind_String firstKind); kArg v]
        else validateLoop firstKind allNumeric xs
  end.

Definition validateSortable (xs : list Value) : result message unit :=
  match xs with
  | [] => Ok tt
  | v :: _ => validateLoop (kindOf v) true xs
  end.

Definition less (a b : Value) : bool :=
  match a, b with
  | VInt x, VInt y => x <? y
  | VFloat x, VFloat y => fltb x y
  | VString s _, _ => String.ltb s (match b with VString t _ => t | _ => "" end)
  | VBool x, _ => negb x && match b with VBool y => y | _ => false end
  | _, _ => CompareNumeric a b <? 0
  end.

Definition sortFn (args : list Value) : result message Value :=
  match args with
  | [xs] =>
      let? (l, et) := requireList "sort" xs "argument" in
      let out := map Copy l in
      if (length out <? 2)%nat then Ok (VList out et)
      else
        let? _ := validateSortable out in
        Ok (VList (sliceStable less out) et)
  | _ => lerr "lists.sort expects 1 argument, got %d" [lenArg args]
  end.

(** ** Ranges *)

(** The ascending and the descending loop, with their wrap checks; [fuel] is the number of
    elements counted before. *)
Fixpoint upLoop (fuel : nat) (v end_ step : Z) : list Value :=
  match fuel with
  | O => []
  | S fuel =>
      if v <? end_ then
        let next := wrap64 (v + step) in
        IntVal v :: if next <? v then [] else upLoop fuel next end_ step
      else []
  end.

Fixpoint downLoop (fuel : nat) (v end_ step : Z) : list Value :=
  match fuel with
  | O => []
  | S fuel =>
      if end_ <? v then
        let next := wrap64 (v + step) in
        IntVal v :: if v <? next then [] else downLoop fuel next end_ step
      else []
  end.

Definition uint64 (n : Z) : Z := n mod 2 ^ 64.

Definition rangeSpan (start end_ step : Z) : Z :=
  if 0 <? step then
    if start <? end_ then uint64 (uint64 (uint64 end_ - uint64 start - 1) / uint64 step + 1) else 0
  else
    if end_ <? start then uint64 (uint64 (uint64 start - uint64 end_ - 1) / uint64 (neg64 step) + 1) else 0.

Definition rangeStep (start end_ : Z) (rest : list Value) : result message Z :=
  match rest with
  | [] => Ok (if start <=? end_ then 1 else -1)
  | VInt step :: _ =>
      if step =? 0 then lerr "lists.range: step must be non-zero" []
      else if (start <=? end_) && (step <? 0) then
        lerr "lists.range: ascending range (start=%d, end=%d) requires positive step, got %d" [AInt start; AInt end_; AInt step]
      else if (end_ <? start) && (0 <? step) then
        lerr "lists.range: descending range (start=%d, end=%d) requires negative step, got %d" [AInt start; AInt end_; AInt step]
      else Ok step
  | v :: _ => lerr "lists.range: step must be int, got %s" [kArg v]
  end.

Definition rangeFn (args : list Value) : result message Value :=
  match args with
  | a :: b :: rest =>
      if (1 <? length rest)%nat then
        lerr "lists.range expects 2 or 3 arguments (start, end[, step]), got %d" [lenArg args]
      else
        match a, b with
        | VInt start, VInt end_ =>
            let? step := rangeStep start end_ rest in
            let span := rangeSpan start end_ step in
            if MaxRangeElements <? span then
              lerr "lists.range: %d elements exceeds the limit of %d; iterate lazily with `for (def i in lo..hi)` instead"
                [AInt span; AInt MaxRangeElements]
            else
              let fuel := S (Z.to_nat span) in
              Ok (ListVal TypeInt (if 0 <? step then upLoop fuel start end_ step else downLoop fuel start end_ step))
        | _, _ => lerr "lists.range: start and end must be int, got %s and %s" [kArg a; kArg b]
        end
  | _ => lerr "lists.range expects 2 or 3 arguments (start, end[, step]), got %d" [lenArg args]
  end.
End Lists.

(** ** Callbacks *)

Section Callbacks.
Context {NO : NativeObject} {L : Limits} {St E : Type}.
(** [ctx.Invoke]: the call of a func value, with the state it runs in. *)
Variable Invoke : Value -> list Value -> St -> result E Value * St.

Inductive cbError := LibErr (m : message) | CallErr (e : E).

Definition CB (A : Type) : Type := St -> result cbError A * St.

Definition cret {A} (a : A) : CB A := fun s => (Ok a, s).
Definition cbind {A B} (c : CB A) (k : A -> CB B) : CB B :=
  fun s => let '(r, s) := c s in match r with Ok a => k a s | Err e => (Err e, s) end.
(** A check of the library itself. *)
Definition clib {A} (r : result message A) : CB A :=
  fun s => (match r with Ok a => Ok a | Err m => Err (LibErr m) end, s).
Definition ccall (f : Value) (args : list Value) : CB Value :=
  fun s => let '(r, s) := Invoke f args s in (match r with Ok v => Ok v | Err e => Err (CallErr e) end, s).

Notation "'let%' x ':=' c 'in' k" := (cbind c (fun x => k))
  (at level 10, x pattern, c at level 200, k at level 200,
   format "'let%'  x  ':='  c  'in' '//' k").

Definition cerr {A} (fmt : string) (args : list fmtarg) : CB A := clib (lerr fmt args).

(** The checks shared by the functions of a list and a func. *)
Definition listAndFunc (name : string) (xs f : Value) : CB (list Value * option Typ) :=
  let% l := clib (requireList name xs "first argument") in
  let% _ := clib (requireFunc name f "second argument") in
  cret l.

Fixpoint mapLoop (f : Value) (l : list Value) : CB (list Value) :=
  match l with
  | [] => cret []
  | x :: l =>
      let% r := ccall f [Copy x] in
      let% out := mapLoop f l in
      cret (Copy r :: out)
  end.

Definition mapFn (args : list Value) : CB Value :=
  match args with
  | [xs; f] =>
      let% (l, _) := listAndFunc "map" xs f in
      let% out := mapLoop f l in
      cret (VList out None)
  | _ => cerr "lists.map expects 2 arguments (list, func), got %d" [lenArg args]
  end.

(** The callback's answer on one element. *)
Definition test (name : string) (f x : Value) : CB bool :=
  let% r := ccall f [Copy x] in clib (requireBool name r).

Fixpoint filterLoop (f : Value) (l : list Value) : CB (list Value) :=
  match l with
  | [] => cret []
  | x :: l =>
      let% keep := test "filter" f x in
      let% out := filterLoop f l in
      cret (if keep : bool then Copy x :: out else out)
  end.

Definition filterFn (args : list Value) : CB Value :=
  match args with
  | [xs; f] =>
      let% (l, et) := listAndFunc "filter" xs f in
      let% out := filterLoop f l in
      cret (VList out et)
  | _ => cerr "lists.filter expects 2 arguments (list, func), got %d" [lenArg args]
  end.

Fixpoint reduceLoop (f acc : Value) (l : list Value) : CB Value :=
  match l with
  | [] => cret acc
  | x :: l => let% r := ccall f [acc; Copy x] in reduceLoop f (Copy r) l
  end.

Definition reduceFn (args : list Value) : CB Value :=
  match args with
  | [xs; f; init] =>
      let% (l, _) := listAndFunc "reduce" xs f in
      reduceLoop f (Copy init) l
  | _ => cerr "lists.reduce expects 3 arguments (list, func, init), got %d" [lenArg args]
  end.

(** The first element the callback accepts ([find]), or refuses ([all], with [stop] false). *)
Fixpoint searchLoop (name : string) (f : Value) (stop : bool) (l : list Value) : CB (option Value) :=
  match l with
  | [] => cret None
  | x :: l =>
      let% ok := test name f x in
      if eqb ok stop then cret (Some (Copy x)) else searchLoop name f stop l
  end.

Definition findFn (args : list Value) : CB Value :=
  match args with
  | [xs; f] =>
      let% (l, _) := listAndFunc "find" xs f in
      let% r := searchLoop "find" f true l in
      match r with
      | Some x => cret x
      | None => cerr "lists.find: no element matched (use lists.any to test first, or catch this)" []
      end
  | _ => cerr "lists.find expects 2 arguments (list, func), got %d" [lenArg args]
  end.

Definition anyFn (args : list Value) : CB Value :=
  match args with
  | [xs; f] =>
      let% (l, _) := listAndFunc "any" xs f in
      let% r := searchLoop "any" f true l in
      cret (VBool (match r with Some _ => true | None => false end))
  | _ => cerr "lists.any expects 2 arguments (list, func), got %d" [lenArg args]
  end.

Definition allFn (args : list Value) : CB Value :=
  match args with
  | [xs; f] =>
      let% (l, _) := listAndFunc "all" xs f in
      let% r := searchLoop "all" f false l in
      cret (VBool (match r with Some _ => false | None => true end))
  | _ => cerr "lists.all expects 2 arguments (list, func), got %d" [lenArg args]
  end.

(** The key of every element, in order. *)
Fixpoint keysLoop (f : Value) (l : list Value) : CB (list Value) :=
  match l with
  | [] => cret []
  | x :: l =>
      let% k := ccall f [Copy x] in
      let% ks := keysLoop f l in
      cret (k :: ks)
  end.

Definition sortByFn (args : list Value) : CB Value :=
  match args with
  | [xs; f] =>
      let% (l, et) := listAndFunc "sortBy" xs f in
      if (length l <? 2)%nat then cret xs
      else
        let% keys := keysLoop f l in
        let% _ := clib (match validateSortable keys with
                        | Ok u => Ok u
                        | Err m => lerr ("lists.sortBy: " +:+ msg_format m) (msg_args m)
                        end) in
        let order := sliceStable (fun a b => less (snd a) (snd b)) (zip l keys) in
        cret (VList (map (fun e => Copy (fst e)) order) et)
  | _ => cerr "lists.sortBy expects 2 arguments (list, func), got %d" [lenArg args]
  end.

(** ** Shuffling *)

(** [mathlib.SharedIntN], the random source shared with [math]. *)
Variable intN : Z -> St -> Z * St.

Definition swap (i j : nat) (l : list Value) : list Value :=
  match l !! i, l !! j with
  | Some x, Some y => <[i := y]> (<[j := x]> l)
  | _, _ => l
  end.

(** The Durstenfeld loop, from index [i] down to 1. *)
Fixpoint shuffleLoop (i : nat) (l : list Value) : CB (list Value) :=
  match i with
  | O => cret l
  | S i' =>
      fun s => let '(j, s) := intN (Z.of_nat i + 1) s in shuffleLoop i' (swap i (Z.to_nat j) l) s
  end.

Definition shuffleFn (args : list Value) : CB Value :=
  match args with
  | [xs] =>
      let% (l, et) := clib (requireList "shuffle" xs "argument") in
      let% out := shuffleLoop (length l - 1) (map Copy l) in
      cret (VList out et)
  | _ => cerr "lists.shuffle expects 1 argument, got %d" [lenArg args]
  end.
End Callbacks.
