(* ===== verification/SortFacts.v ===== *)
(** * lists.sort is a stable sort in the order of the language

    A list is sorted exactly when it is short or all its elements are numbers, all strings
    or all bools.  The result holds the copies of the elements in the order of the language's
    own [<=] (exact across int and float), and elements that compare equal keep their
    order. *)


From Stdlib Require Import SpecFloat Sorted Permutation.
From S2P Require Import Prelude GoInt Float64 GoSort Limits Types Value ValueFacts MapFacts Ops.
From S2P Require Import OpsFacts FoldFacts Lists.
Open Scope string_scope.
Open Scope list_scope.
Open Scope Z_scope.
Open Scope go_scope.

(** ** The order of the language *)

(** The three classes of elements that sort together, NaN excluded. *)
Inductive sortClass := Numbers | Strings | Bools.

#[export] Instance sortClass_eq_dec : EqDecision sortClass.
Proof. solve_decision. Defined.

Definition kindClass (k : ValueKind) : option sortClass :=
  match k with
  | KindInt | KindFloat => Some Numbers
  | KindString => Some Strings
  | KindBool => Some Bools
  | _ => None
  end.

Definition ofClass (c : sortClass) (v : Value) : Prop := kindClass (kindOf v) = Some c.

(** All elements sort together. *)
Definition homogeneous (l : list Value) : Prop := exists c, Forall (ofClass c) l.

(** A scalar with its representation invariant, and no NaN. *)
Definition sortOK (v : Value) : Prop := scalarOK v /\ v <> VFloat S754_nan.

Definition valueOrder (a b : Value) : comparison :=
  match a, b with
  | VString s _, VString t _ => String.compare s t
  | VBool x, VBool y => Bool.compare x y
  | _, _ =>
      match numval a, numval b with
      | Some x, Some y => xcompare x y
      | _, _ => Eq
      end
  end.

Definition isLt (c : comparison) : bool := match c with Lt => true | _ => false end.
Definition isEq (c : comparison) : bool := match c with Eq => true | _ => false end.

Lemma numbers_inv v : ofClass Numbers v -> sortOK v -> exists x, numval v = Some x.
Proof.
  intros H [_ Hn]. destruct v as [ | | f | | | | | | | | | | | ]; try done; [by eexists | ].
  destruct f; [by eexists | by eexists | by destruct Hn | by eexists].
Qed.

Lemma strings_inv v : ofClass Strings v -> exists s r, v = VString s r.
Proof. destruct v; try done. by eexists _, _. Qed.

Lemma bools_inv v : ofClass Bools v -> exists b, v = VBool b.
Proof. destruct v; try done. by eexists. Qed.

(** *** Transitivity *)

Lemma xcompare_lawful : lawful xcompare.
Proof.
  split; [apply xcompare_antisym | ]. intros [] [] []; simpl; try done.
  destruct (Z.compare_spec z z0), (Z.compare_spec z0 z1), (Z.compare_spec z z1); simpl; try done; lia.
Qed.

Lemma bool_compare_lawful : lawful Bool.compare.
Proof. split; [by intros [] [] | by intros [] [] []]. Qed.

(** *** The library's comparison and the language's agree *)

Section Order.
Context {NO : NativeObject}.

(** The language's [<=], with [false] before [true] for the bools it does not compare. *)
Definition langLe (a b : Value) : Prop :=
  match a, b with
  | VBool x, VBool y => implb x y = true
  | _, _ => forall p, evalComparison OpLe a b p = Ok (BoolVal true)
  end.

Lemma less_numbers a b x y :
  sortOK a -> sortOK b -> numval a = Some x -> numval b = Some y ->
  less a b = isLt (xcompare x y).
Proof.
  intros [Ha _] [Hb _] Ea Eb.
  destruct a as [ | m | f | | | | | | | | | | | ]; try done;
    destruct b as [ | n | g | | | | | | | | | | | ]; try done; simpl in Ha, Hb; cbn [less CompareNumeric].
  - injection Ea as <-. injection Eb as <-. simpl. rewrite zval_compare.
    destruct (Z.compare_spec m n); simpl; lia.
  - destruct (numval_not_NaN _ _ Hb Eb). injection Ea as <-.
    rewrite compareIntFloat_sign, (exactIntFloat_xcompare _ _ _ Eb) by done. by destruct (xcompare _ _).
  - destruct (numval_not_NaN _ _ Ha Ea). injection Eb as <-.
    rewrite compareIntFloat_sign, (exactIntFloat_xcompare _ _ _ Ea), xcompare_antisym by done.
    by destruct (xcompare x _).
  - unfold fltb, SFltb. rewrite (SFcompare_xcompare f g x y) by done. by destruct (xcompare x y).
Qed.

(** What the comparisons of the code say about two elements of one class. *)
Lemma order_agrees c a b :
  ofClass c a -> ofClass c b -> sortOK a -> sortOK b ->
  less a b = isLt (valueOrder a b) /\ Equal a b = isEq (valueOrder a b) /\
  (notGt (valueOrder a b) = true -> langLe a b).
Proof.
  intros Ca Cb Ha Hb. destruct c.
  - destruct (numbers_inv a Ca Ha) as [x Ex], (numbers_inv b Cb Hb) as [y Ey].
    assert (valueOrder a b = xcompare x y) as ->.
    { destruct a; try done; destruct b; try done; unfold valueOrder; by rewrite Ex, Ey. }
    assert (forall op, IsComparison op = true -> forall p,
      evalComparison op a b p = Ok (BoolVal (cmpSpec op (xcompare x y)))) as Hc.
    { intros. destruct Ha, Hb. by apply evalComparison_numval. }
    split; [by apply less_numbers | ]. split.
    + specialize (Hc OpEq eq_refl p0). simpl in Hc. by injection Hc as ->.
    + intros Hle. assert (forall p, evalComparison OpLe a b p = Ok (BoolVal true)) as Hl.
      { intros p. rewrite Hc by done. by destruct (xcompare x y). }
      by destruct a, b.
  - destruct (strings_inv a Ca) as (s & r & ->), (strings_inv b Cb) as (t & q & ->).
    rewrite Equal_unfold. simpl. unfold String.ltb, String.leb. split; [by destruct (s ?= t)%string | ].
    split; [ | by destruct (s ?= t)%string].
    pose proof (string_compare_Eq s t) as E. case_bool_decide; destruct (s ?= t)%string; intuition congruence.
  - destruct (bools_inv a Ca) as [x ->], (bools_inv b Cb) as [y ->].
    rewrite Equal_unfold. by destruct x, y.
Qed.
End Order.

Lemma valueOrder_antisym c a b :
  ofClass c a -> ofClass c b -> sortOK a -> sortOK b -> valueOrder b a = CompOpp (valueOrder a b).
Proof.
  intros Ca Cb Ha Hb. destruct c.
  - destruct (numbers_inv a Ca Ha) as [x Ex], (numbers_inv b Cb Hb) as [y Ey].
    destruct a; try done; destruct b; try done; unfold valueOrder; rewrite Ex, Ey; apply xcompare_lawful.
  - destruct (strings_inv a Ca) as (s & r & ->), (strings_inv b Cb) as (t & q & ->). apply String_compare_lawful.
  - destruct (bools_inv a Ca) as [x ->], (bools_inv b Cb) as [y ->]. apply bool_compare_lawful.
Qed.

Lemma valueOrder_trans c u v w :
  ofClass c u -> ofClass c v -> ofClass c w -> sortOK u -> sortOK v -> sortOK w ->
  notGt (valueOrder u v) = true -> notGt (valueOrder v w) = true -> notGt (valueOrder u w) = true.
Proof.
  intros Cu Cv Cw Hu Hv Hw. destruct c.
  - destruct (numbers_inv u Cu Hu) as [x Ex], (numbers_inv v Cv Hv) as [y Ey], (numbers_inv w Cw Hw) as [z Ez].
    assert (forall a b m n, ofClass Numbers a -> ofClass Numbers b -> numval a = Some m -> numval b = Some n ->
      valueOrder a b = xcompare m n) as Hn.
    { intros a b m n ? ? Em En. destruct a; try done; destruct b; try done; unfold valueOrder; by rewrite Em, En. }
    rewrite (Hn u v x y), (Hn v w y z), (Hn u w x z) by done. apply xcompare_lawful.
  - destruct (strings_inv u Cu) as (s & r & ->), (strings_inv v Cv) as (t & q & ->), (strings_inv w Cw) as (? & ? & ->).
    apply String_compare_lawful.
  - destruct (bools_inv u Cu) as [x ->], (bools_inv v Cv) as [y ->], (bools_inv w Cw) as [z ->].
    apply bool_compare_lawful.
Qed.

(** ** What can be sorted *)

Lemma validateLoop_spec fk c xs :
  kindClass fk = Some c ->
  validateLoop fk (bool_decide (c = Numbers)) xs = Ok tt <-> Forall (ofClass c) xs.
Proof.
  intros Hc. induction xs as [ | v xs IH]; [by split; [constructor | ] | ].
  rewrite Forall_cons, <- IH. unfold ofClass. simpl.
  destruct (kindOf v); destruct fk; try discriminate Hc; injection Hc as <-; simpl;
    intuition (discriminate || done).
Qed.

Lemma validateSortable_spec v xs : validateSortable (v :: xs) = Ok tt <-> homogeneous (v :: xs).
Proof.
  unfold validateSortable, homogeneous. destruct (kindClass (kindOf v)) as [c | ] eqn:Ec.
  - assert (validateLoop (kindOf v) true (v :: xs) = validateLoop (kindOf v) (bool_decide (c = Numbers)) (v :: xs)) as ->.
    { simpl. by destruct (kindOf v); try discriminate Ec; injection Ec as <-. }
    rewrite (validateLoop_spec _ c) by done. split; [by exists c | ].
    intros [c' H]. inversion H as [ | ? ? H1]. unfold ofClass in H1. congruence.
  - split.
    + simpl. by destruct (kindOf v).
    + intros [c' H]. inversion H as [ | ? ? H1]. unfold ofClass in H1. congruence.
Qed.

Lemma kindOf_Copy v : kindOf (Copy v) = kindOf v.
Proof. by destruct v. Qed.

Lemma ofClass_Copy c v : ofClass c v -> Copy v = v.
Proof. by destruct v. Qed.

Lemma homogeneous_Copy l : homogeneous (map Copy l) <-> homogeneous l.
Proof.
  unfold homogeneous, ofClass. split; intros [c H]; exists c;
    [apply Forall_map in H | apply Forall_map]; eapply Forall_impl; try exact H;
    intros v; simpl; by rewrite kindOf_Copy.
Qed.

Lemma homogeneous_Copy_id l : homogeneous l -> map Copy l = l.
Proof.
  intros [c H]. induction H as [ | v l Hv _ IH]; [done | ]. simpl. by rewrite IH, (ofClass_Copy c).
Qed.

Section Sort.
Context {NO : NativeObject}.

(** The elements of one class that can be compared. *)
Definition inClass (c : sortClass) (v : Value) : Prop := ofClass c v /\ sortOK v.

Lemma order_less c a b : inClass c a -> inClass c b -> less a b = isLt (valueOrder a b).
Proof. intros [] []. by apply (order_agrees c a b). Qed.

Lemma order_Equal c a b : inClass c a -> inClass c b -> Equal a b = isEq (valueOrder a b).
Proof. intros [] []. by apply (order_agrees c a b). Qed.

Lemma order_langLe c a b : inClass c a -> inClass c b -> notGt (valueOrder a b) = true -> langLe a b.
Proof. intros [] []. by apply (order_agrees c a b). Qed.

Lemma order_antisym c a b : inClass c a -> inClass c b -> valueOrder b a = CompOpp (valueOrder a b).
Proof. intros [] []. by apply (valueOrder_antisym c). Qed.

(** [b] not before [a] is [a <= b]. *)
Lemma less_false c a b : inClass c a -> inClass c b -> less b a = false <-> notGt (valueOrder a b) = true.
Proof.
  intros Ha Hb. rewrite (order_less c b a), (order_antisym c a b) by done. by destruct (valueOrder a b).
Qed.

Lemma less_trans c u v w :
  inClass c u -> inClass c v -> inClass c w -> less v u = false -> less w v = false -> less w u = false.
Proof.
  intros Hu Hv Hw. rewrite (less_false c u v), (less_false c v w), (less_false c u w) by done.
  destruct Hu, Hv, Hw. by apply (valueOrder_trans c).
Qed.

Lemma less_asym c a b : inClass c a -> inClass c b -> less a b = true -> less b a = false.
Proof.
  intros Ha Hb. rewrite (less_false c a b), (order_less c a b) by done. by destruct (valueOrder a b).
Qed.

(** Two elements equal to a third do not pass each other. *)
Lemma less_tied c k x y :
  inClass c k -> inClass c x -> inClass c y -> Equal k x = true -> Equal k y = true -> less y x = false.
Proof.
  intros Hk Hx Hy. rewrite (order_Equal c k x), (order_Equal c k y) by done. intros Ex Ey.
  apply (less_trans c x k y); try done; apply (less_false c); try done.
  - rewrite (order_antisym c k x) by done. by destruct (valueOrder k x).
  - by destruct (valueOrder k y).
Qed.

Lemma sorted_langLe c l :
  Forall (inClass c) l -> StronglySorted (fun a b => less b a = false) l -> StronglySorted langLe l.
Proof.
  intros Hl Hs. induction Hs as [ | a r _ IH Ha]; [constructor | ]. inv Hl. constructor; [by apply IH | ].
  rewrite Forall_forall in *. intros b Hb. apply (order_langLe c); auto. apply (less_false c); auto.
Qed.

Lemma sliceStable_order c l :
  Forall (inClass c) l ->
  StronglySorted langLe (sliceStable less l) /\
  forall k, k ∈ l -> List.filter (Equal k) (sliceStable less l) = List.filter (Equal k) l.
Proof.
  intros Hl. split.
  - apply (sorted_langLe c); [by rewrite sliceStable_perm | ].
    eapply sliceStable_sorted; [apply less_asym | apply less_trans | exact Hl].
  - intros k Hk. apply sliceStable_filter. rewrite Forall_forall in Hl. intros x y Hx Hy.
    apply (less_tied c); auto.
Qed.

(** C24: [lists.sort] is a stable sort in the language's own order.  On elements with their
    representation invariant and no NaN it fails exactly when there are two elements or more
    that are not all numbers, all strings or all bools; otherwise the result holds the copies
    of the elements, the language's [<=] holds of every element and each later one (exact
    across int and float, [false] before [true]), elements that are [==] keep the order they
    had, and the list keeps its element type. *)
Theorem sort_stable (l : list Value) (et : option Typ) (Hok : Forall sortOK l) :
  match sortFn [VList l et] with
  | Ok v => exists out, v = VList out et /\ out ≡ₚ map Copy l /\ StronglySorted langLe out /\
      (forall k, k ∈ l -> List.filter (Equal k) out = List.filter (Equal k) (map Copy l)) /\
      ((length l < 2)%nat \/ homogeneous l)
  | Err _ => (2 <= length l)%nat /\ ~ homogeneous l
  end.
Proof.
  cbn [sortFn requireList rbind]. rewrite length_map. destruct (Nat.ltb_spec (length l) 2) as [Hlt | Hge].
  - exists (map Copy l). do 2 (split; [done | ]). split; [ | by auto].
    destruct l as [ | x [ | y l]]; simpl in Hlt; [repeat constructor | repeat constructor | lia].
  - destruct l as [ | x l]; [simpl in Hge; lia | ].
    pose proof (validateSortable_spec (Copy x) (map Copy l)) as Hv.
    change (Copy x :: map Copy l) with (map Copy (x :: l)) in Hv. rewrite homogeneous_Copy in Hv.
    destruct (validateSortable _) as [[] | m]; cbn [rbind].
    + assert (homogeneous (x :: l)) as Hh by (by apply Hv). pose proof Hh as [c Hc].
      destruct (sliceStable_order c (x :: l)) as [Hs Hf]; [by apply Forall_and | ].
      rewrite homogeneous_Copy_id by done. eexists. split; [done | ].
      split; [apply sliceStable_perm | ]. by auto.
    + split; [done | ]. intros Hh. by apply Hv in Hh.
Qed.
End Sort.

Lemma sort_stable_witness :
  exists out, sortFn [VList [VFloat (float64_of_int64 1); VInt 3; VInt 1] None] = Ok (VList out None) /\
    out = [VFloat (float64_of_int64 1); VInt 1; VInt 3] /\ StronglySorted (@langLe trivialNative) out.
Proof.
  assert (Forall sortOK [VFloat (float64_of_int64 1); VInt 3; VInt 1]) as Hok.
  { repeat constructor; vm_compute; try discriminate; intros H; discriminate. }
  destruct (@sort_stable trivialNative _ None Hok) as (out & E & _ & Hs & _).
  exists out. split; [vm_compute in E |- *; by rewrite E | ]. split; [ | exact Hs].
  vm_compute in E |- *. by injection E as <-.
Defined.

(** * lists.range *)

(** How many steps of size [s] start before the distance [d] is used up. *)
Definition steps (d s : Z) : Z := if 0 <? d then (d - 1) / s + 1 else 0.

(** The number of elements, over the integers. *)
Definition rangeCount (start end_ step : Z) : Z :=
  if 0 <? step then steps (end_ - start) step else steps (start - end_) (- step).

Definition progression (start step : Z) (n : nat) : list Value :=
  map (fun i => VInt (start + Z.of_nat i * step)) (seq 0 n).

(** The step a call of [range] runs with: the given one in the right direction, or a unit. *)
Definition validStep (start end_ : Z) (rest : list Value) (step : Z) : Prop :=
  rest = [] /\ step = (if start <=? end_ then 1 else -1) \/
  rest = [VInt step] /\ (start <= end_ -> 0 < step) /\ (end_ < start -> step < 0).

(** ** Counting *)

Lemma steps_nonneg d s : 0 < s -> 0 <= steps d s.
Proof. intros. unfold steps. destruct (Z.ltb_spec 0 d); [ | done]. pose proof (Z.div_pos (d - 1) s). lia. Qed.

Lemma steps_step d s : 0 < s -> 0 < d -> steps d s = steps (d - s) s + 1.
Proof.
  intros Hs Hd. unfold steps. rewrite (proj2 (Z.ltb_lt 0 d)) by done.
  destruct (Z.ltb_spec 0 (d - s)).
  - replace (d - 1) with (d - s - 1 + 1 * s) by lia. rewrite Z.div_add by lia. lia.
  - rewrite Z.div_small by lia. done.
Qed.

Lemma steps_done d s : d <= 0 -> steps d s = 0.
Proof. intros. unfold steps. by destruct (Z.ltb_spec 0 d); [lia | ]. Qed.

(** Step [i] starts before the distance is used up iff it is counted. *)
Lemma steps_spec d s i : 0 < s -> 0 <= i -> i < steps d s <-> i * s < d.
Proof.
  intros Hs Hi. unfold steps. destruct (Z.ltb_spec 0 d) as [Hd | Hd]; [ | nia].
  pose proof (Z.div_mod (d - 1) s). pose proof (Z.mod_pos_bound (d - 1) s). nia.
Qed.

Lemma progression_cons v step n : progression v step (S n) = VInt v :: progression (v + step) step n.
Proof.
  unfold progression. simpl. f_equal; [f_equal; lia | ].
  rewrite <- seq_shift, map_map. apply map_ext. intros i. f_equal. lia.
Qed.

Lemma progression_app v step m n :
  progression v step (m + n) = progression v step m ++ progression (v + Z.of_nat m * step) step n.
Proof.
  revert v. induction m as [ | m IH]; intros v.
  - by rewrite Z.mul_0_l, Z.add_0_r.
  - rewrite Nat.add_succ_l, !progression_cons, IH.
    by replace (v + Z.of_nat (S m) * step) with (v + step + Z.of_nat m * step) by lia.
Qed.

(** ** The loops *)

Lemma upLoop_exact n : forall v end_ step,
  int64_range v -> int64_range end_ -> int64_range step -> 0 < step ->
  n = Z.to_nat (steps (end_ - v) step) -> upLoop (S n) v end_ step = progression v step n.
Proof.
  induction n as [ | n IH]; intros v end_ step Hv He Hst Hs En; cbn [upLoop];
    pose proof (steps_nonneg (end_ - v) step Hs); destruct (Z.ltb_spec v end_) as [Hlt | Hge];
    try (rewrite steps_done in En by lia; done).
  - pose proof (steps_step (end_ - v) step Hs). pose proof (steps_nonneg (end_ - v - step) step Hs). lia.
  - rewrite steps_step in En by lia. pose proof (steps_nonneg (end_ - v - step) step Hs).
    rewrite progression_cons. apply (f_equal (cons _)). unfold int64_range, minInt64, maxInt64 in *.
    destruct (Z.le_gt_cases (v + step) (2 ^ 63 - 1)).
    + rewrite wrap64_id by (unfold int64_range, minInt64, maxInt64; lia).
      destruct (Z.ltb_spec (v + step) v); [lia | ]. apply IH; try (unfold int64_range, minInt64, maxInt64; lia).
      replace (end_ - (v + step)) with (end_ - v - step) by lia. lia.
    + rewrite wrap64_high by lia. rewrite steps_done in En by lia.
      destruct (Z.ltb_spec (v + step - 2 ^ 64) v); [ | lia]. by replace n with O by lia.
Qed.

Lemma downLoop_exact n : forall v end_ step,
  int64_range v -> int64_range end_ -> int64_range step -> step < 0 ->
  n = Z.to_nat (steps (v - end_) (- step)) -> downLoop (S n) v end_ step = progression v step n.
Proof.
  induction n as [ | n IH]; intros v end_ step Hv He Hst Hs En; cbn [downLoop];
    pose proof (steps_nonneg (v - end_) (- step) ltac:(lia)); destruct (Z.ltb_spec end_ v) as [Hlt | Hge];
    try (rewrite steps_done in En by lia; done).
  - pose proof (steps_step (v - end_) (- step)). pose proof (steps_nonneg (v - end_ - - step) (- step)). lia.
  - rewrite steps_step in En by lia. pose proof (steps_nonneg (v - end_ - - step) (- step)).
    rewrite progression_cons. apply (f_equal (cons _)). unfold int64_range, minInt64, maxInt64 in *.
    destruct (Z.le_gt_cases (- 2 ^ 63) (v + step)).
    + rewrite wrap64_id by (unfold int64_range, minInt64, maxInt64; lia).
      destruct (Z.ltb_spec v (v + step)); [lia | ]. apply IH; try (unfold int64_range, minInt64, maxInt64; lia).
      replace (v + step - end_) with (v - end_ - - step) by lia. lia.
    + rewrite wrap64_low by lia. rewrite steps_done in En by lia.
      destruct (Z.ltb_spec v (v + step + 2 ^ 64)); [ | lia]. by replace n with O by lia.
Qed.

(** ** The count *)

Lemma uint64_small n : 0 <= n < 2 ^ 64 -> uint64 n = n.
Proof. apply Z.mod_small. Qed.

Lemma uint64_sub a b : uint64 (uint64 a - uint64 b - 1) = uint64 (a - b - 1).
Proof. unfold uint64. rewrite Zminus_mod, <- (Zminus_mod a b), <- Zminus_mod. done. Qed.

Lemma uint64_neg64 step : int64_range step -> step < 0 -> uint64 (neg64 step) = - step.
Proof.
  unfold int64_range, minInt64, maxInt64. intros H Hs. unfold neg64.
  destruct (Z.eq_dec step (- 2 ^ 63)) as [-> | ]; [done | ].
  rewrite wrap64_id by (unfold int64_range, minInt64, maxInt64; lia). apply uint64_small. lia.
Qed.

(** The difference, its quotient and the successor all fit in 64 bits. *)
Lemma span_steps d s :
  0 < d < 2 ^ 64 -> 0 < s -> uint64 (uint64 (d - 1) / s + 1) = steps d s.
Proof.
  intros Hd Hs. rewrite (uint64_small (d - 1)) by lia. unfold steps.
  rewrite (proj2 (Z.ltb_lt 0 d)) by lia. apply uint64_small.
  pose proof (Z.div_pos (d - 1) s). pose proof (Z.div_le_upper_bound (d - 1) s (d - 1)). nia.
Qed.

Lemma rangeSpan_count start end_ step :
  int64_range start -> int64_range end_ -> int64_range step -> step <> 0 ->
  rangeSpan start end_ step = rangeCount start end_ step.
Proof.
  intros Ha Hb Hs Hn. unfold rangeSpan, rangeCount.
  assert (int64_range start /\ int64_range end_ /\ int64_range step) as (Ha' & Hb' & Hs') by done.
  unfold int64_range, minInt64, maxInt64 in Ha', Hb', Hs'.
  destruct (Z.ltb_spec 0 step).
  - destruct (Z.ltb_spec start end_); [ | by rewrite steps_done by lia].
    rewrite uint64_sub, (uint64_small step) by lia. apply span_steps; lia.
  - destruct (Z.ltb_spec end_ start); [ | by rewrite steps_done by lia].
    rewrite uint64_sub, uint64_neg64 by (done || lia). apply span_steps; lia.
Qed.

Section Range.
Context {L : Limits}.

Lemma rangeStep_valid start end_ rest step : validStep start end_ rest step -> rangeStep start end_ rest = Ok step.
Proof.
  intros [[-> ->] | (-> & Hup & Hdown)]; cbn [rangeStep]; [done | ].
  destruct (Z.eqb_spec step 0); [lia | ].
  destruct (Z.leb_spec start end_), (Z.ltb_spec end_ start), (Z.ltb_spec step 0), (Z.ltb_spec 0 step); simpl; done || lia.
Qed.

Lemma validStep_sign start end_ rest step :
  validStep start end_ rest step ->
  step <> 0 /\ (start <= end_ -> 0 < step) /\ (end_ < start -> step < 0) /\ (length rest <= 1)%nat.
Proof.
  intros [[-> ->] | (-> & Hup & Hdown)]; simpl; [destruct (Z.leb_spec start end_); lia | ].
  repeat split; auto. lia.
Qed.

(** The result of [range] with the step [step]. *)
Definition rangeResult (start end_ step : Z) : result message Value :=
  let n := rangeCount start end_ step in
  if MaxRangeElements <? n then
    lerr "lists.range: %d elements exceeds the limit of %d; iterate lazily with `for (def i in lo..hi)` instead"
      [AInt n; AInt MaxRangeElements]
  else Ok (ListVal TypeInt (progression start step (Z.to_nat n))).

Lemma rangeFn_result start end_ rest step :
  int64_range start -> int64_range end_ -> int64_range step -> validStep start end_ rest step ->
  rangeFn (VInt start :: VInt end_ :: rest) = rangeResult start end_ step.
Proof.
  intros Ha Hb Hs Hv. destruct (validStep_sign _ _ _ _ Hv) as (Hn & Hup & Hdown & Hl).
  unfold rangeFn, rangeResult. destruct (Nat.ltb_spec 1 (length rest)); [lia | ].
  rewrite (rangeStep_valid _ _ _ step) by done. cbn [rbind]. rewrite rangeSpan_count by done.
  split_if; [done | ]. do 2 f_equal. unfold rangeCount. destruct (Z.ltb_spec 0 step).
  - by apply upLoop_exact.
  - apply downLoop_exact; done || lia.
Qed.

(** [lists.range] is exact.  For int64 bounds and a step in the right direction (given,
    or the unit the call defaults to) the result is the list start, start + step, ... of
    exactly the elements on the near side of [end], none of them wrapped, even next to the
    ends of the int64 range and with the step of the smallest int64; when their number, which
    the code computes in uint64 without wrapping, is above the limit, it is that number the
    error reports. *)
Theorem range_exact (start end_ step : Z) (rest : list Value)
    (Hstart : int64_range start) (Hend : int64_range end_) (Hstep : int64_range step)
    (Hvalid : validStep start end_ rest step) :
  rangeFn (VInt start :: VInt end_ :: rest) = rangeResult start end_ step /\
  (forall i, 0 <= i ->
     i < rangeCount start end_ step <->
     if 0 <? step then start + i * step < end_ else end_ < start + i * step).
Proof.
  split; [by apply rangeFn_result | ]. intros i Hi. unfold rangeCount.
  destruct (validStep_sign _ _ _ _ Hvalid) as (Hn & _).
  destruct (Z.ltb_spec 0 step); rewrite steps_spec by lia; lia.
Qed.

(** Half-open ranges compose: [concat(range(a, b), range(b, c))] is [range(a, c)] when [b] lies
    between the others and the whole is within the limit. *)
Lemma range_concat a b c :
  int64_range a -> int64_range b -> int64_range c -> a <= b <= c -> c - a <= MaxRangeElements ->
  exists ab bc, rangeFn [VInt a; VInt b] = Ok ab /\ rangeFn [VInt b; VInt c] = Ok bc /\
    concatFn [ab; bc] = rangeFn [VInt a; VInt c].
Proof.
  intros Ha Hb Hc Hm HM.
  assert (forall x y, int64_range x -> int64_range y -> x <= y -> y - x <= MaxRangeElements ->
    rangeFn [VInt x; VInt y] = Ok (ListVal TypeInt (progression x 1 (Z.to_nat (y - x))))) as Hr.
  { intros x y Hx Hy Hle HM'. rewrite (rangeFn_result x y [] 1); [ | done | done | done | ].
    - unfold rangeResult, rangeCount. assert (steps (y - x) 1 = y - x) as E.
      { unfold steps. destruct (Z.ltb_spec 0 (y - x)); [rewrite Z.div_1_r | ]; lia. }
      simpl. rewrite E. by destruct (Z.ltb_spec MaxRangeElements (y - x)); [lia | ].
    - left. by destruct (Z.leb_spec x y); [ | lia]. }
  eexists _, _. rewrite !Hr by (done || lia). do 2 (split; [done | ]).
  cbn [concatFn requireList rbind ListVal]. unfold zlen, maxListElements.
  assert (forall x n, length (progression x 1 n) = n) as Hlen by (intros; unfold progression; by rewrite length_map, length_seq).
  rewrite !Hlen. destruct (Z.ltb_spec MaxRangeElements (Z.of_nat (Z.to_nat (b - a)) + Z.of_nat (Z.to_nat (c - b)))); [lia | ].
  assert (forall x n, map Copy (progression x 1 n) = progression x 1 n) as Hcopy.
  { intros. unfold progression. rewrite map_map. by apply map_ext. }
  rewrite !Hcopy. unfold ListVal. do 2 f_equal.
  replace (Z.to_nat (c - a)) with (Z.to_nat (b - a) + Z.to_nat (c - b))%nat by lia.
  rewrite progression_app. by replace (a + Z.of_nat (Z.to_nat (b - a)) * 1) with b by lia.
Qed.
End Range.

Lemma range_exact_witness :
  @rangeFn limits_std [VInt maxInt64; VInt minInt64; VInt minInt64] = Ok (ListVal TypeInt [VInt maxInt64; VInt (-1)]).
Proof.
  refine (eq_trans (proj1 (@range_exact limits_std maxInt64 minInt64 minInt64 [VInt minInt64] _ _ _ _)) _).
  - split; discriminate.
  - split; discriminate.
  - split; discriminate.
  - right. split; [reflexivity | ]. split; intros H; [vm_compute in H; congruence | reflexivity].
  - vm_compute. reflexivity.
Defined.
