(* ===== verification/Maps.v ===== *)
(** * The maps library (internal/lib/maps/mapslib.go)

    Every builtin of [maps.] as a function of its argument values.  The text of a missing key
    is the display form of the key. *)

From S2P Require Import Prelude GoInt Float64 Types Value Display.
Open Scope string_scope.
Open Scope list_scope.
Open Scope Z_scope.
Open Scope go_scope.

Section MapsLib.
Context `{NativeObject, GoText}.
Variable hs : Handles.

Abbreviation entries := (list (Value * Value)).

Definition merr {A} (fmt : string) (args : list fmtarg) : result message A := Err (Sprintf fmt args).
Definition kindText (v : Value) : fmtarg := AStr (ValueKind_String (kindOf v)).
Definition countText (args : list Value) : fmtarg := AInt (Z.of_nat (length args)).

Definition requireMap (name : string) (v : Value) (argpos : string)
    : result message (entries * option Typ * option Typ) :=
  match v with
  | VMap m kt vt _ => Ok (m, kt, vt)
  | _ => merr "maps.%s: %s must be a map, got %s" [AStr name; AStr argpos; kindText v]
  end.

Definition copyEntry (e : Value * Value) : Value * Value := (Copy (fst e), Copy (snd e)).

Definition hasFn (args : list Value) : result message Value :=
  match args with
  | [m; key] =>
      let? _ := requireMap "has" m "first argument" in
      Ok (BoolVal (match LookupKey m key with Some _ => true | None => false end))
  | _ => merr "maps.has expects 2 arguments (map, key), got %d" [countText args]
  end.

Definition keysFn (args : list Value) : result message Value :=
  match args with
  | [m] =>
      let? (es, _, _) := requireMap "keys" m "argument" in
      Ok (VList (map (fun e => Copy (fst e)) es) None)
  | _ => merr "maps.keys expects 1 argument, got %d" [countText args]
  end.

Definition valuesFn (args : list Value) : result message Value :=
  match args with
  | [m] =>
      let? (es, _, _) := requireMap "values" m "argument" in
      Ok (VList (map (fun e => Copy (snd e)) es) None)
  | _ => merr "maps.values expects 1 argument, got %d" [countText args]
  end.

(** Copies of the entries that are not marked. *)
Fixpoint keepUnmarked (es : entries) (drop : list bool) : entries :=
  match es, drop with
  | e :: es, d :: drop => if d : bool then keepUnmarked es drop else copyEntry e :: keepUnmarked es drop
  | _, _ => []
  end.

Definition unmarked (es : entries) : list bool := map (fun _ => false) es.

Definition deleteFn (args : list Value) : result message Value :=
  match args with
  | [m; key] =>
      let? (es, kt, vt) := requireMap "delete" m "first argument" in
      match LookupKey m key with
      | Some i => Ok (VMap (keepUnmarked es (<[i := true]> (unmarked es))) kt vt None)
      | None => merr "maps.delete: map has no entry for key %s" [AStr (Display hs key)]
      end
  | _ => merr "maps.delete expects 2 arguments (map, key), got %d" [countText args]
  end.

(** The marks for a list of keys. *)
Fixpoint markLoop (m : Value) (drop : list bool) (keys : list Value) : result message (list bool) :=
  match keys with
  | [] => Ok drop
  | k :: keys =>
      match LookupKey m k with
      | Some i => markLoop m (<[i := true]> drop) keys
      | None => merr "maps.without: map has no entry for key %s" [AStr (Display hs k)]
      end
  end.

Definition withoutFn (args : list Value) : result message Value :=
  match args with
  | [m; ks] =>
      let? (es, kt, vt) := requireMap "without" m "first argument" in
      match ks with
      | VList keys _ =>
          let? drop := markLoop m (unmarked es) keys in
          Ok (VMap (keepUnmarked es drop) kt vt None)
      | _ => merr "maps.without: second argument must be a list, got %s" [kindText ks]
      end
  | _ => merr "maps.without expects 2 arguments (map, keys), got %d" [countText args]
  end.

Definition mergeFn (args : list Value) : result message Value :=
  match args with
  | [a; b] =>
      let? _ := requireMap "merge" a "first argument" in
      let? (es, _, _) := requireMap "merge" b "second argument" in
      Ok (fold_left (fun out e => UpsertKey out (Copy (fst e)) (Copy (snd e))) es (Copy a))
  | _ => merr "maps.merge expects 2 arguments, got %d" [countText args]
  end.
End MapsLib.
