(* ===== verification/MapsFacts.v ===== *)
(** * The maps library computes with finite maps

    [has], [delete], [without] and [merge] as operations on the lookup function of a map,
    hash index included. *)

From S2P Require Import Prelude GoInt Float64 Types Value ValueFacts MapFacts Display Maps.
Open Scope string_scope.
Open Scope list_scope.

Section Facts.
Context `{NativeObject, GoText}.
Variable hs : Handles.

Abbreviation entries := (list (Value * Value)).

(** A key of a well-formed map, and a well-formed map. *)
Definition keyOK (k : Value) : Prop := scalarOK k /\ is_Some (mapKeyEncode k).

Definition wfMap (v : Value) : Prop := mapOK v /\ uniqueKeys (entriesOf v).

Lemma keyOK_Copy k : keyOK k -> Copy k = k.
Proof. intros [_ [e E]]. by destruct k. Qed.

Lemma entry_keyOK m i k x : keysOK m -> uniqueKeys m -> m !! i = Some (k, x) -> keyOK k.
Proof. intros Hk [Hh _] Hi. split; [by eapply keysOK_lookup | by eapply hashable_lookup]. Qed.

Lemma keyOK_Equal a b : keyOK a -> keyOK b -> Equal a b = bool_decide (mapKeyEncode a = mapKeyEncode b).
Proof.
  intros [Ha [ea Ea]] [Hb [eb Eb]]. apply eq_iff_eq_true. rewrite bool_decide_eq_true, Ea, Eb.
  rewrite (mapKeyEncode_Equal a b ea eb) by done. split; congruence.
Qed.

Lemma scanKey_shift j m key : scanKey (S j) m key = S <$> scanKey j m key.
Proof. revert j. induction m as [ | [k x] m IH]; intros j; simpl; [done | ]. by destruct (Equal k key). Qed.

Lemma specLookup_cons k x m key :
  specLookup ((k, x) :: m) key = if Equal k key then Some x else specLookup m key.
Proof.
  unfold specLookup. simpl. destruct (Equal k key); [done | ]. rewrite scanKey_shift.
  by destruct (scanKey 0 m key).
Qed.

Lemma mapGet_spec v key : mapOK v -> scalarOK key -> mapGet v key = specLookup (entriesOf v) key.
Proof. intros Hv Hk. destruct v; try done. unfold mapGet. by rewrite LookupKey_scan. Qed.

(** ** Removing marked entries *)

(** Entries chosen by the encoding of their key. *)
Definition keyIn (f : option string -> bool) (e : Value * Value) : bool := f (mapKeyEncode (fst e)).

Lemma keepUnmarked_filter f es :
  keepUnmarked es (map (keyIn f) es) = map copyEntry (List.filter (fun e => negb (keyIn f e)) es).
Proof. induction es as [ | e es IH]; simpl; [done | ]. destruct (keyIn f e); simpl; by rewrite IH. Qed.

Lemma specLookup_kept f es key :
  keysOK es -> uniqueKeys es -> keyOK key ->
  specLookup (keepUnmarked es (map (keyIn f) es)) key =
  if f (mapKeyEncode key) then None else Copy <$> specLookup es key.
Proof.
  intros Hk Hu Hkey. rewrite keepUnmarked_filter.
  assert (Forall (fun e => keyOK (fst e)) es) as Hes.
  { apply Forall_lookup. intros i [k x] Hi. by eapply entry_keyOK. }
  clear Hk Hu. induction Hes as [ | [k x] es Hx _ IH]; simpl; [by destruct (f _) | ].
  rewrite specLookup_cons, (keyOK_Equal k key) by done. unfold keyIn at 1. simpl.
  destruct (f (mapKeyEncode k)) eqn:Ef; simpl.
  - rewrite IH. case_bool_decide as E; [ | done]. by rewrite <- E, Ef.
  - unfold copyEntry at 1. simpl. rewrite specLookup_cons, keyOK_Copy, (keyOK_Equal k key), IH by done.
    case_bool_decide as E; [ | done]. by rewrite <- E, Ef.
Qed.

Lemma wf_kept f es kt vt :
  keysOK es -> uniqueKeys es -> wfMap (VMap (keepUnmarked es (map (keyIn f) es)) kt vt None).
Proof.
  intros Hk Hu. rewrite keepUnmarked_filter.
  assert (Forall (fun e => keyOK (fst e)) es) as Hes.
  { apply Forall_lookup. intros i [k x] Hi. by eapply entry_keyOK. }
  set (l := List.filter (fun e => negb (keyIn f e)) es).
  assert (l `sublist_of` es) as Hsub.
  { unfold l. clear. induction es as [ | e es IH]; simpl; [constructor | ]. destruct (negb _); by constructor. }
  assert (Forall (fun e => keyOK (fst e)) l) as Hl.
  { rewrite Forall_forall in *. intros e He. apply Hes. by eapply elem_of_sublist. }
  assert (map copyEntry l = map (fun e => (fst e, Copy (snd e))) l) as ->.
  { apply map_ext_in. intros e He%list_elem_of_In. unfold copyEntry. rewrite Forall_forall in Hl. by rewrite keyOK_Copy by auto. }
  split; [split; [ | done] | split].
  - apply Forall_map. eapply Forall_impl; [exact Hl | ]. by intros e [? _].
  - apply Forall_map. eapply Forall_impl; [exact Hl | ]. by intros e [_ ?].
  - simpl. unfold encs. rewrite map_map. simpl. eapply sublist_NoDup; [apply Hu | ].
    exact (fmap_sublist (fun e => mapKeyEncode (fst e)) _ _ Hsub).
Qed.

(** ** The marks *)

Lemma LookupKey_keyAt m kt vt idx key enc i :
  wfMap (VMap m kt vt idx) -> scalarOK key -> mapKeyEncode key = Some enc ->
  LookupKey (VMap m kt vt idx) key = Some i <-> keyAt m i enc.
Proof. intros [Hm Hu] Hk E. rewrite LookupKey_scan by done. apply scan_keyAt; try done. apply Hm. Qed.

(** Marking the position of a key marks the entries with its encoding. *)
Lemma mark_key m i enc f :
  uniqueKeys m -> keyAt m i enc ->
  <[i := true]> (map (keyIn f) m) = map (keyIn (fun o => bool_decide (o = Some enc) || f o)) m.
Proof.
  intros Hu Hi. apply list_eq. intros j. rewrite list_lookup_fmap.
  destruct (decide (j = i)) as [-> | Hne].
  - destruct Hi as (k & x & Hi & E). rewrite list_lookup_insert_eq by (rewrite length_map; by eapply lookup_lt_Some).
    rewrite Hi. simpl. unfold keyIn. simpl. by rewrite E, bool_decide_true.
  - rewrite list_lookup_insert_ne, list_lookup_fmap by done. destruct (m !! j) as [[k x] | ] eqn:Ej; [ | done].
    simpl. unfold keyIn. simpl. rewrite bool_decide_false; [done | ]. intros E. apply Hne.
    apply (uniqueKeys_inj m j i enc); [done | by exists k, x | done].
Qed.

Lemma unmarked_keyIn m : unmarked m = map (keyIn (fun _ => false)) m.
Proof. done. Qed.

(** Whether an encoding is that of a listed key. *)
Definition encIn (keys : list Value) (o : option string) : bool :=
  existsb (fun k => bool_decide (o = mapKeyEncode k)) keys.

Lemma markLoop_spec m kt vt idx keys f :
  wfMap (VMap m kt vt idx) -> Forall keyOK keys ->
  match markLoop hs (VMap m kt vt idx) (map (keyIn f) m) keys with
  | Ok drop => drop = map (keyIn (fun o => encIn keys o || f o)) m /\
      Forall (fun k => mapGet (VMap m kt vt idx) k <> None) keys
  | Err _ => exists k, k ∈ keys /\ mapGet (VMap m kt vt idx) k = None
  end.
Proof.
  intros Hw Hk. revert f. induction Hk as [ | k keys [Hs [enc E]] _ IH]; intros f; cbn [markLoop]; [done | ].
  destruct (LookupKey _ k) as [i | ] eqn:El.
  - pose proof El as Hi. rewrite LookupKey_keyAt in Hi by done.
    rewrite (mark_key m i enc f); [ | apply Hw | done].
    specialize (IH (fun o => bool_decide (o = Some enc) || f o)).
    destruct (markLoop _ _ _ _) as [drop | e].
    + destruct IH as [-> Hall]. split.
      * apply map_ext. intros e. unfold keyIn. simpl. rewrite E.
        by destruct (bool_decide _), (encIn keys _), (f _).
      * constructor; [ | done]. unfold mapGet. rewrite El. simpl. destruct Hi as (k' & x & Hi & _). by rewrite Hi.
    + destruct IH as (k' & Hin & Hg). exists k'. split; [by right | done].
  - exists k. split; [by left | ]. unfold mapGet. by rewrite El.
Qed.

(** An encoding is listed iff some listed key equals the key. *)
Lemma encIn_Equal keys key :
  Forall keyOK keys -> keyOK key -> encIn keys (mapKeyEncode key) = existsb (fun k => Equal k key) keys.
Proof.
  intros Hk Hkey. induction Hk as [ | k keys Hx _ IH]; simpl; [done | ].
  rewrite IH, (keyOK_Equal k key) by done. f_equal. by apply bool_decide_ext.
Qed.

(** ** Merging *)

Lemma uniqueKeys_sameKeys m m' : sameKeys m m' -> uniqueKeys m -> uniqueKeys m'.
Proof.
  unfold sameKeys, uniqueKeys, hashableKeys, encs. intros E [Hh Hn].
  rewrite <- (map_map fst mapKeyEncode), E, map_map in Hn. split; [ | done].
  apply (Forall_map fst (fun k => is_Some (mapKeyEncode k))). rewrite <- E.
  by apply (Forall_map fst (fun k => is_Some (mapKeyEncode k))).
Qed.

Lemma wf_Upsert v key val : wfMap v -> keyOK key -> typesOf v <> None ->
  wfMap (UpsertKey v key val) /\ typesOf (UpsertKey v key val) = typesOf v.
Proof.
  intros [Hv Hu] [Hs [enc E]] Ht. destruct v as [ | | | | | | | m kt vt idx | | | | | | ]; try done.
  destruct (UpsertKey_spec m kt vt idx key val Hv Hs) as (Ee & Et & Hok). split; [ | done]. split; [done | ].
  rewrite Ee. unfold specUpsert. destruct (scanKey 0 m key) as [i | ] eqn:Es.
  - eapply uniqueKeys_sameKeys; [apply setEntry_sameKeys | done].
  - destruct Hu as [Hh Hn]. split; [apply Forall_app; split; [done | repeat constructor; by exists enc] | ].
    unfold encs. rewrite map_app. apply NoDup_app. split; [done | ]. split; [ | apply NoDup_singleton].
    intros o Ho%list_elem_of_In Ho'. apply list_elem_of_singleton in Ho' as ->. simpl in Ho.
    apply in_map_iff in Ho as ([k x] & E' & Hin%list_elem_of_In). simpl in E'. rewrite E in E'.
    apply list_elem_of_lookup_1 in Hin as [j Hj]. rewrite scanKey_None in Es. specialize (Es j k x Hj).
    assert (keyOK k) as Hk by (eapply entry_keyOK; [apply Hv | by split | exact Hj]).
    assert (keyOK key) as Hkey by (split; [done | by exists enc]).
    by rewrite keyOK_Equal, E', E, bool_decide_true in Es.
Qed.

Lemma mapGet_Upsert_key v key val key' :
  wfMap v -> typesOf v <> None -> keyOK key -> keyOK key' ->
  mapGet (UpsertKey v key val) key' = if Equal key key' then Some val else mapGet v key'.
Proof.
  intros [Hv _] Ht [] []. destruct v; try done. by apply mapGet_Upsert.
Qed.

(** The fold of [merge]. *)
Definition mergeInto (out : Value) (es : entries) : Value :=
  fold_left (fun out e => UpsertKey out (Copy (fst e)) (Copy (snd e))) es out.

Lemma uniqueKeys_cons k x es :
  uniqueKeys ((k, x) :: es) -> uniqueKeys es /\ forall j k' x', es !! j = Some (k', x') -> mapKeyEncode k' <> mapKeyEncode k.
Proof.
  intros [Hh Hn]. inv Hh. unfold encs in Hn. simpl in Hn. apply NoDup_cons in Hn as [Hni Hn].
  split; [by split | ]. intros j k' x' Hj E. apply Hni. rewrite <- E.
  apply list_elem_of_In, in_map_iff. exists (k', x'). split; [done | ]. by eapply list_elem_of_In, list_elem_of_lookup_2.
Qed.

Lemma mergeInto_spec es out key :
  wfMap out -> typesOf out <> None -> keysOK es -> uniqueKeys es -> keyOK key ->
  wfMap (mergeInto out es) /\ typesOf (mergeInto out es) = typesOf out /\
  mapGet (mergeInto out es) key =
    match specLookup es key with Some v => Some (Copy v) | None => mapGet out key end.
Proof.
  revert out. induction es as [ | [k x] es IH]; intros out Hw Ht Hk Hu Hkey; [done | ].
  assert (keyOK k) as Hkk by (eapply (entry_keyOK _ 0); [exact Hk | exact Hu | done]).
  destruct (uniqueKeys_cons k x es Hu) as [Hu' Hne]. inv Hk.
  unfold mergeInto. simpl. rewrite (keyOK_Copy k) by done.
  destruct (wf_Upsert out k (Copy x) Hw Hkk Ht) as [Hw' Ht'].
  destruct (IH (UpsertKey out k (Copy x))) as (H1' & H2' & H3'); try done; [by rewrite Ht' | ].
  fold (mergeInto (UpsertKey out k (Copy x)) es). split; [done | ]. split; [by rewrite H2' | ].
  rewrite H3', mapGet_Upsert_key, specLookup_cons by done.
  destruct (Equal k key) eqn:E; [ | done].
  assert (specLookup es key = None) as ->; [ | done].
  unfold specLookup. destruct (scanKey 0 es key) as [i | ] eqn:Es; [ | done]. exfalso.
  destruct (scanKey_lookup _ _ _ Es) as (k' & x' & Hi & E').
  assert (keyOK k') as Hk' by (by eapply entry_keyOK).
  rewrite keyOK_Equal, bool_decide_eq_true in E, E' by done. apply (Hne i k' x' Hi). congruence.
Qed.

Lemma Copy_map m kt vt idx :
  wfMap (VMap m kt vt idx) -> exists m' i', Copy (VMap m kt vt idx) = VMap m' kt vt i' /\
  wfMap (VMap m' kt vt i') /\ forall key, keyOK key -> mapGet (VMap m' kt vt i') key = Copy <$> mapGet (VMap m kt vt idx) key.
Proof.
  intros [[Hk Hi] Hu]. pose proof (wf_kept (fun _ => false) m kt vt Hk Hu) as [Hw Hu'].
  cbn [entriesOf mapOK] in Hw, Hu'. rewrite keepUnmarked_filter in Hw, Hu'.
  assert (List.filter (fun e => negb (keyIn (fun _ => false) e)) m = m) as Hid
    by (clear; induction m as [ | e m IH]; [done | exact (f_equal (cons e) IH)]).
  rewrite Hid in Hw, Hu'. exists (map copyEntry m), (buildIndex (map copyEntry m)).
  assert (map (fun '(k, x) => (DeepCopy k, DeepCopy x)) m = map copyEntry m) as Em by (apply map_ext; by intros []).
  split; [unfold Copy; simpl; by rewrite Em | ].
  assert (mapOK (VMap (map copyEntry m) kt vt (buildIndex (map copyEntry m)))) as Hok
    by (split; [apply Hw | apply buildIndex_OK]).
  split; [by split | ]. intros key Hkey. rewrite !mapGet_spec by (done || apply Hkey). simpl.
  pose proof (specLookup_kept (fun _ => false) m key Hk Hu Hkey) as E. by rewrite keepUnmarked_filter, Hid in E.
Qed.

(** C27: the maps library computes with finite maps.  On a well-formed map (trusted index,
    hashable keys, no two equal) and for every key: [maps.has] tells whether the key is bound;
    [maps.delete] fails exactly when its key is not bound, and otherwise unbinds it and keeps
    a copy of every other binding; [maps.without] does so for a list of keys, failing exactly
    when one of them is not bound, repeated keys allowed; [maps.merge] binds what the second
    map binds and otherwise what the first does.  The results are well formed again. *)
Theorem maps_library (m m2 : entries) (kt vt kt2 vt2 et : option Typ) (idx idx2 : option (gmap string nat))
    (key k : Value) (keys : list Value)
    (Hm : wfMap (VMap m kt vt idx)) (Hm2 : wfMap (VMap m2 kt2 vt2 idx2))
    (Hkey : keyOK key) (Hk : keyOK k) (Hkeys : Forall keyOK keys) :
  let a := VMap m kt vt idx in
  let b := VMap m2 kt2 vt2 idx2 in
  hasFn [a; key] = Ok (BoolVal (match mapGet a key with Some _ => true | None => false end)) /\
  match deleteFn hs [a; k] with
  | Ok r => wfMap r /\ mapGet a k <> None /\
      mapGet r key = if Equal k key then None else Copy <$> mapGet a key
  | Err _ => mapGet a k = None
  end /\
  match withoutFn hs [a; VList keys et] with
  | Ok r => wfMap r /\ Forall (fun k => mapGet a k <> None) keys /\
      mapGet r key = if existsb (fun k => Equal k key) keys then None else Copy <$> mapGet a key
  | Err _ => exists k, k ∈ keys /\ mapGet a k = None
  end /\
  match mergeFn [a; b] with
  | Ok r => wfMap r /\
      mapGet r key = match mapGet b key with Some v => Some (Copy v) | None => Copy <$> mapGet a key end
  | Err _ => False
  end.
Proof.
  intros a b. subst a b. pose proof Hm as [[Hks _] Hu]. simpl in Hu.
  assert (forall f, wfMap (VMap (keepUnmarked m (map (keyIn f) m)) kt vt None) /\
    mapGet (VMap (keepUnmarked m (map (keyIn f) m)) kt vt None) key =
      if f (mapKeyEncode key) then None else Copy <$> mapGet (VMap m kt vt idx) key) as Hkept.
  { intros f. pose proof (wf_kept f m kt vt Hks Hu) as Hw. split; [done | ].
    rewrite !mapGet_spec by (apply Hw || apply Hm || apply Hkey). by apply specLookup_kept. }
  split_and!.
  - unfold hasFn. cbn [requireMap rbind]. unfold mapGet. destruct (LookupKey _ key) as [i | ] eqn:E; [ | done].
    simpl. destruct Hkey as [Hs [enc Ee]]. rewrite LookupKey_keyAt in E by done. destruct E as (k' & x & Hi & _). by rewrite Hi.
  - pose proof (markLoop_spec m kt vt idx [k] (fun _ => false) Hm ltac:(by constructor)) as Hml.
    cbn [markLoop] in Hml. rewrite <- unmarked_keyIn in Hml. unfold deleteFn. cbn [requireMap rbind].
    destruct (LookupKey (VMap m kt vt idx) k) as [i | ].
    + destruct Hml as [-> Hall]. inv Hall. destruct (Hkept (fun o => encIn [k] o || false)) as [Hw Hg].
      split; [done | ]. split; [done | ]. rewrite Hg, orb_false_r, encIn_Equal by (done || by constructor).
      cbn [existsb]. by rewrite orb_false_r.
    + destruct Hml as (k' & Hin & Hg). apply list_elem_of_singleton in Hin as ->. done.
  - pose proof (markLoop_spec m kt vt idx keys (fun _ => false) Hm Hkeys) as Hml.
    rewrite <- unmarked_keyIn in Hml. unfold withoutFn. cbn [requireMap rbind].
    destruct (markLoop _ _ _ _) as [drop | e]; cbn [rbind]; [ | done].
    destruct Hml as [-> Hall]. destruct (Hkept (fun o => encIn keys o || false)) as [Hw Hg].
    split; [done | ]. split; [done | ]. by rewrite Hg, orb_false_r, encIn_Equal.
  - cbn [mergeFn requireMap rbind]. destruct (Copy_map m kt vt idx Hm) as (m' & i' & -> & Hw & Hc).
    destruct Hm2 as [Hok2 Hu2]. pose proof Hok2 as [Hk2 _].
    destruct (mergeInto_spec m2 (VMap m' kt vt i') key Hw) as (H1 & _ & H3); try done.
    fold (mergeInto (VMap m' kt vt i') m2). split; [done | ]. rewrite H3.
    rewrite (mapGet_spec (VMap m2 kt2 vt2 idx2) key) by (done || apply Hkey). simpl. by rewrite Hc.
Qed.
End Facts.

Lemma maps_library_witness :
  exists r, @withoutFn identityNative (Build_GoText (fun _ => "") (fun s => s) (fun _ => "") (fun _ _ => None))
      (Build_Handles ∅ ∅) [VMap demoMap None None None; VList [VInt 1; VFloat one] None] = Ok r /\
    @mapGet identityNative r (VInt 1) = None.
Proof.
  eexists. split; [vm_compute; reflexivity | ].
  assert (@wfMap (VMap demoMap None None None)) as Hm by (destruct demoMap_ok as [Hk Hu]; split; [split; [exact Hk | exact I] | exact Hu]).
  assert (forall v, v = VInt 1 \/ v = VFloat one -> keyOK v) as Hk.
  { intros v [-> | ->]; (split; [vm_compute; try done; split; discriminate | vm_compute; by eexists]). }
  assert (Forall keyOK [VInt 1; VFloat one]) as Hks by (constructor; [apply Hk; auto | constructor; [apply Hk; auto | constructor]]).
  refine (proj2 (proj2 (proj1 (proj2 (proj2 (@maps_library identityNative
    (Build_GoText (fun _ => "") (fun s => s) (fun _ => "") (fun _ _ => None)) (Build_Handles ∅ ∅)
    demoMap demoMap None None None None None None None (VInt 1) (VInt 1) [VInt 1; VFloat one] Hm Hm _ _ Hks)))))); apply Hk; auto.
Defined.
