(* ===== verification/Decimal.v ===== *)
(** * Exact decimals (internal/lib/decimal/arith.go)

    A [dec] is [coef * 10 ^ -scale], [math/big] integers being [Z].  Every operation with its
    size limits; [divExact]'s and [normalize]'s loops run on the size of their argument. *)

From Stdlib Require Import Ascii.
From S2P Require Import Prelude GoInt Utf8 Float64 Strconv Value Display.
Open Scope string_scope.
Open Scope list_scope.
Open Scope Z_scope.
Open Scope go_scope.

Record dec := mkDec { coef : Z; scale : Z }.

#[export] Instance dec_eq_dec : EqDecision dec.
Proof. solve_decision. Defined.

(** The errors of the package. *)
Inductive decError :=
  | errLimit
  | errDivZero
  | errInexact
  | errText (m : message).

Definition maxDigits : Z := 100000.
Definition maxBits : Z := maxDigits * 33220 / 10000.

Definition pow10 (n : Z) : Z := 10 ^ n.

(** [big.Int.BitLen]. *)
Definition BitLen (z : Z) : Z := if z =? 0 then 0 else Z.log2 (Z.abs z) + 1.

Definition checked (d : dec) : result decError dec :=
  if (maxDigits <? scale d) || (maxBits <? BitLen (coef d)) then Err errLimit else Ok d.

Definition fromInt (n : Z) : dec := mkDec n 0.

(** ** Text *)

(** [s] around its first character that satisfies [p] ([strings.IndexAny] and the slices). *)
Fixpoint cutAt (p : ascii -> bool) (s : string) : string * option string :=
  match s with
  | EmptyString => ("", None)
  | String c s => if p c then ("", Some s) else let '(a, b) := cutAt p s in (String c a, b)
  end.

Fixpoint allDigits (s : string) : bool :=
  match s with
  | EmptyString => true
  | String c s => inChars "0" "9" c && allDigits s
  end.

Definition isExp (c : ascii) : bool := bool_decide (c = "e"%char) || bool_decide (c = "E"%char).
Definition isPoint (c : ascii) : bool := bool_decide (c = "."%char).

(** [big.Int.SetString(s, 10)] on digits. *)
Definition digitsValue (s : string) : Z := let '(n, _, _) := digitRun s 0 0 in n.

Definition slen (s : string) : Z := Z.of_nat (String.length s).

(** The exponent, bounded. *)
Definition parseExp (bad : decError) (exp : option string) : result decError Z :=
  match exp with
  | None => Ok 0
  | Some exp =>
      match ParseInt exp 10 with
      | Err _ => Err bad
      | Ok n => if (maxDigits <? n) || (n <? - maxDigits) then Err errLimit else Ok n
      end
  end.

Definition cutSign (s : string) : bool * string :=
  match s with
  | String "-" r => (true, r)
  | String "+" r => (false, r)
  | _ => (false, s)
  end.

Definition parse (s : string) : result decError dec :=
  let bad := errText (Sprintf "%q is not a decimal number" [AStr s]) in
  let '(neg, rest) := cutSign s in
  let '(mant, exp) := cutAt isExp rest in
  if bool_decide (exp = Some "") then Err bad
  else
    let '(intPart, fracPart) := cutAt isPoint mant in
    let frac := default "" fracPart in
    if bool_decide (intPart = "") && bool_decide (frac = "") then Err bad
    else if negb (allDigits intPart && allDigits frac) then Err bad
    else
      let? e := parseExp bad exp in
      let digits := intPart +:+ frac in
      if maxDigits <? slen digits then Err errLimit
      else
        let c := if neg : bool then - digitsValue digits else digitsValue digits in
        let scale := slen frac - e in
        if scale <? 0 then
          if maxDigits <? - scale then Err errLimit
          else checked (mkDec (c * pow10 (- scale)) 0)
        else checked (mkDec c scale).

(** The text without its sign. *)
Definition unsignedText (d : dec) : string :=
  let digits := FormatInt (Z.abs (coef d)) in
  if 0 <? scale d then
    let digits :=
      if slen digits <=? scale d
      then Repeat "0" (Z.to_nat (scale d - slen digits + 1)) +:+ digits else digits in
    let cut := Z.to_nat (slen digits - scale d) in
    stake cut digits +:+ "." +:+ sdrop cut digits
  else digits.

Definition dec_String (d : dec) : string :=
  if coef d <? 0 then "-" +:+ unsignedText d else unsignedText d.

Definition fromFloat `{GoText} (f : float64) : result decError dec := parse (FormatFloat f).

(** ** Arithmetic *)

Definition align (a b : dec) : Z * Z * Z :=
  if scale a =? scale b then (coef a, coef b, scale a)
  else if scale a <? scale b then (coef a * pow10 (scale b - scale a), coef b, scale b)
  else (coef a, coef b * pow10 (scale a - scale b), scale a).

Definition add (a b : dec) : result decError dec :=
  let '(x, y, s) := align a b in checked (mkDec (x + y) s).

Definition sub (a b : dec) : result decError dec :=
  let '(x, y, s) := align a b in checked (mkDec (x - y) s).

Definition mul (a b : dec) : result decError dec :=
  if (maxDigits <? scale a + scale b) || (maxBits + 1 <? BitLen (coef a) + BitLen (coef b)) then Err errLimit
  else checked (mkDec (coef a * coef b) (scale a + scale b)).

Definition cmp (a b : dec) : comparison := let '(x, y, _) := align a b in x ?= y.

(** ** Rounding *)

Inductive mode := halfEven | halfUp | halfDown | up | down | ceiling | floor.

Definition modeNames : list (string * mode) :=
  [("half-even", halfEven); ("half-up", halfUp); ("half-down", halfDown); ("up", up); ("down", down);
   ("ceiling", ceiling); ("floor", floor)].

Definition modeList : string :=
  let q := String (ascii_of_nat 34) "" in
  sepBy ", " (map (fun '(n, _) => q +:+ n +:+ q) modeNames).

Definition isGt (c : comparison) : bool := match c with Gt => true | _ => false end.
Definition isGe (c : comparison) : bool := match c with Lt => false | _ => true end.

Definition roundQuo (num den : Z) (m : mode) : Z :=
  let q := Z.quot num den in
  let r := Z.rem num den in
  if r =? 0 then q
  else
    let neg := negb (eqb (num <? 0) (den <? 0)) in
    let c := (Z.abs r * 2) ?= Z.abs den in
    let away :=
      match m with
      | up => true
      | down => false
      | ceiling => negb neg
      | floor => neg
      | halfUp => isGe c
      | halfDown => isGt c
      | halfEven => isGt c || (match c with Eq => Z.testbit q 0 | _ => false end)
      end in
    if away then (if neg then q - 1 else q + 1) else q.

Definition roundTo (d : dec) (sc : Z) (m : mode) : result decError dec :=
  if maxDigits <? sc then Err errLimit
  else if scale d <=? sc then checked (mkDec (coef d * pow10 (sc - scale d)) sc)
  else Ok (mkDec (roundQuo (coef d) (pow10 (scale d - sc)) m) sc).

(** ** Division *)

(** The factors of two, then of five; the fuel is the number of bits. *)
Fixpoint twosLoop (fuel : nat) (rest twos : Z) : Z * Z :=
  match fuel with
  | O => (rest, twos)
  | S fuel =>
      if negb (Z.testbit rest 0) && negb (rest =? 0) then twosLoop fuel (Z.shiftr rest 1) (twos + 1)
      else (rest, twos)
  end.

Fixpoint fivesLoop (fuel : nat) (rest fives : Z) : Z * Z :=
  match fuel with
  | O => (rest, fives)
  | S fuel =>
      if negb (Z.rem rest 5 =? 0) then (rest, fives)
      else fivesLoop fuel (Z.quot rest 5) (fives + 1)
  end.

Definition divExact (a b : dec) : result decError dec :=
  let num := coef a in
  let den := coef b in
  let '(num, den) := if den <? 0 then (- num, - den) else (num, den) in
  let g := Z.gcd (Z.abs num) den in
  let '(num, den) := if negb (g =? 0) then (Z.quot num g, Z.quot den g) else (num, den) in
  let fuel := Z.to_nat (BitLen den) in
  let '(rest, twos) := twosLoop fuel den 0 in
  let '(rest, fives) := fivesLoop fuel rest 0 in
  if negb (rest =? 1) then Err errInexact
  else
    let k := Z.max twos fives in
    let c := num * Z.quot (pow10 k) den in
    let sc := k + scale a - scale b in
    if sc <? 0 then checked (mkDec (c * pow10 (- sc)) 0) else checked (mkDec c sc).

Definition div (a b : dec) (sc : Z) (m : mode) : result decError dec :=
  if coef b =? 0 then Err errDivZero
  else if sc <? 0 then divExact a b
  else if maxDigits <? sc then Err errLimit
  else
    let e := sc + scale b - scale a in
    let '(num, den) :=
      if 0 <=? e then (coef a * pow10 e, coef b) else (coef a, coef b * pow10 (- e)) in
    checked (mkDec (roundQuo num den m) sc).

(** ** Others *)

Fixpoint normalizeLoop (s : nat) (c : Z) : dec :=
  match s with
  | O => mkDec c 0
  | S s' => if negb (Z.rem c 10 =? 0) then mkDec c (Z.of_nat s) else normalizeLoop s' (Z.quot c 10)
  end.

Definition normalize (d : dec) : dec :=
  if 0 <? scale d then normalizeLoop (Z.to_nat (scale d)) (coef d) else d.

Definition isInteger (d : dec) : bool :=
  (scale d =? 0) || (Z.rem (coef d) (pow10 (scale d)) =? 0).

(** The products are of int64; the scale is an int, 64 bits wide. *)
Definition pow (d : dec) (n : Z) : result decError dec :=
  if (coef d =? 0) || (n =? 0) then Ok (if n =? 0 then fromInt 1 else mkDec 0 0)
  else if (maxDigits <? mul64 (scale d) n) || (maxBits <? mul64 (BitLen (coef d) - 1) n) then Err errLimit
  else checked (mkDec (coef d ^ n) (mul64 (scale d) n)).
