(* ===== verification/DecimalLib.v ===== *)
(** * The builtins of the decimal library (internal/lib/decimal/decimallib.go)

    A [decimal.Decimal] is an opaque object whose payload lives at an address.  The payloads
    are the heap [Heap]; they are never changed, and a builtin that makes a decimal adds one
    ([wrap]).  The heap gives the library's instance of [NativeObject]. *)

From Stdlib Require Import Ascii.
From S2P Require Import Prelude GoInt Float64 Strconv Types Value Display Decimal.
Open Scope string_scope.
Open Scope list_scope.
Open Scope Z_scope.
Open Scope go_scope.

Definition LibraryName : string := "decimal".

Definition Heap : Type := list dec.

(** [EqualNative] and [DisplayNative] of the payloads. *)
Definition decValue (h : Heap) : NativeObject := {|
  EqualNative p q :=
    match h !! p, h !! q with
    | Some a, Some b => match cmp a b with Eq => true | _ => false end
    | _, _ => false
    end;
  DisplayNative p := from_option dec_String "" (h !! p) |}.

(** A plain error, or one raised with its kind. *)
Inductive libError :=
  | Errorf (m : message)
  | Raised (kind : string) (m : message).

Definition errorf {A} (fmt : string) (args : list fmtarg) : result libError A := Err (Errorf (Sprintf fmt args)).

Definition raise (fn : string) (err : decError) : libError :=
  let named kind fmt args := Raised kind (Sprintf ("decimal." +:+ fn +:+ ": " +:+ fmt) args) in
  match err with
  | errLimit => named "limit" "the result would have more than %d digits" [AInt maxDigits]
  | errInexact => named "decimal" "the quotient has no finite decimal form; pass a scale (and a rounding mode)" []
  | errDivZero => named "decimal" "division by zero" []
  | errText m => named "decimal" (msg_format m) (msg_args m)
  end.

(** The result of an operation, its failure raised. *)
Definition raising {A} (fn : string) (r : result decError A) : result libError A :=
  match r with Ok a => Ok a | Err e => Err (raise fn e) end.

(** ** Arguments *)

Definition describe (v : Value) : string :=
  match v with
  | VObject ns name _ => ns +:+ "." +:+ name
  | VStruct ns _ name _ => ns +:+ "." +:+ name
  | _ => ValueKind_String (kindOf v)
  end.

(** [v.AsNativeObject(LibraryName, "Decimal")]. *)
Definition asDecimal (h : Heap) (v : Value) : option dec :=
  match v with
  | VObject ns name (Some (p, None)) =>
      if bool_decide (ns = LibraryName) && bool_decide (name = "Decimal") then h !! p else None
  | _ => None
  end.

Definition operand (h : Heap) (fn : string) (v : Value) : result libError dec :=
  match asDecimal h v with
  | Some d => Ok d
  | None =>
      match v with
      | VInt n => Ok (fromInt n)
      | VString s _ => raising fn (parse s)
      | VFloat _ => errorf "decimal.%s: a float operand must go through decimal.from first" [AStr fn]
      | _ => errorf "decimal.%s: operand must be a decimal.Decimal, int or string, got %s" [AStr fn; AStr (describe v)]
      end
  end.

Fixpoint lookupMode (s : string) (l : list (string * mode)) : option mode :=
  match l with
  | [] => None
  | (n, m) :: l => if bool_decide (n = s) then Some m else lookupMode s l
  end.

Definition modeArg (fn : string) (v : Value) : result libError mode :=
  match v with
  | VString s _ =>
      match lookupMode s modeNames with
      | Some m => Ok m
      | None => errorf "decimal.%s: unknown rounding mode %q; known: %s" [AStr fn; AStr s; AStr modeList]
      end
  | _ => errorf "decimal.%s: rounding mode must be a string, got %s" [AStr fn; AStr (describe v)]
  end.

Definition scaleArg (fn : string) (v : Value) : result libError Z :=
  match v with
  | VInt n =>
      if (n <? 0) || (maxDigits <? n)
      then errorf "decimal.%s: scale must be in 0..%d, got %d" [AStr fn; AInt maxDigits; AInt n]
      else Ok n
  | _ => errorf "decimal.%s: scale must be int, got %s" [AStr fn; AStr (describe v)]
  end.

(** ** Builtins *)

Definition Builtin : Type := Heap -> list Value -> result libError Value * Heap.

Definition argCount (args : list Value) : fmtarg := AInt (Z.of_nat (length args)).

(** A builtin that makes a decimal: a fresh payload at the end of the heap. *)
Definition wrap (h : Heap) (r : result libError dec) : result libError Value * Heap :=
  match r with
  | Ok d => (Ok (VObject LibraryName "Decimal" (Some (length h, None))), h ++ [d])
  | Err e => (Err e, h)
  end.

Definition fromFn `{GoText} : Builtin := fun h args =>
  wrap h
    match args with
    | [VFloat f] => raising "from" (fromFloat f)
    | [v] => operand h "from" v
    | _ => errorf "decimal.from expects 1 argument (string, int or float), got %d" [argCount args]
    end.

Definition binary (fn : string) (op : dec -> dec -> result decError dec) : Builtin := fun h args =>
  wrap h
    match args with
    | [x; y] =>
        let? a := operand h fn x in
        let? b := operand h fn y in
        raising fn (op a b)
    | _ => errorf "decimal.%s expects 2 arguments, got %d" [AStr fn; argCount args]
    end.

Definition unary (fn : string) (op : dec -> result decError dec) : Builtin := fun h args =>
  wrap h
    match args with
    | [x] => let? d := operand h fn x in raising fn (op d)
    | _ => errorf "decimal.%s expects 1 argument, got %d" [AStr fn; argCount args]
    end.

Definition info (fn : string) (get : dec -> Value) : Builtin := fun h args =>
  (match args with
   | [x] => let? d := operand h fn x in Ok (get d)
   | _ => errorf "decimal.%s expects 1 argument, got %d" [AStr fn; argCount args]
   end, h).

Definition divFn : Builtin := fun h args =>
  wrap h
    match args with
    | x :: y :: rest =>
        if (2 <? length rest)%nat then
          errorf "decimal.div expects 2 to 4 arguments (a, b[, scale[, mode]]), got %d" [argCount args]
        else
          let? a := operand h "div" x in
          let? b := operand h "div" y in
          let? sc := match rest with s :: _ => scaleArg "div" s | [] => Ok (-1) end in
          let? m := match rest with [_; m] => modeArg "div" m | _ => Ok halfEven end in
          raising "div" (div a b sc m)
    | _ => errorf "decimal.div expects 2 to 4 arguments (a, b[, scale[, mode]]), got %d" [argCount args]
    end.

Definition roundFn : Builtin := fun h args =>
  wrap h
    match args with
    | x :: s :: rest =>
        if (1 <? length rest)%nat then
          errorf "decimal.round expects 2 or 3 arguments (d, scale[, mode]), got %d" [argCount args]
        else
          let? d := operand h "round" x in
          let? sc := scaleArg "round" s in
          let? m := match rest with m :: _ => modeArg "round" m | [] => Ok halfEven end in
          raising "round" (roundTo d sc m)
    | _ => errorf "decimal.round expects 2 or 3 arguments (d, scale[, mode]), got %d" [argCount args]
    end.

Definition powFn : Builtin := fun h args =>
  wrap h
    match args with
    | [x; e] =>
        let? d := operand h "pow" x in
        match e with
        | VInt n =>
            if n <? 0 then errorf "decimal.pow: the exponent must be an int >= 0" []
            else if maxDigits * 4 <? n then Err (raise "pow" errLimit)
            else raising "pow" (pow d n)
        | _ => errorf "decimal.pow: the exponent must be an int >= 0" []
        end
    | _ => errorf "decimal.pow expects 2 arguments (d, n), got %d" [argCount args]
    end.

Fixpoint sumLoop (h : Heap) (total : dec) (l : list Value) : result libError dec :=
  match l with
  | [] => Ok total
  | v :: l =>
      let? d := operand h "sum" v in
      let? total := raising "sum" (add total d) in
      sumLoop h total l
  end.

Definition sumFn : Builtin := fun h args =>
  wrap h
    match args with
    | [VList l _] => sumLoop h (fromInt 0) l
    | _ => errorf "decimal.sum expects 1 argument, a list of decimals" []
    end.

Definition cmpInt (c : comparison) : Z := match c with Lt => -1 | Eq => 0 | Gt => 1 end.

Definition compareFn : Builtin := fun h args =>
  (match args with
   | [x; y] =>
       let? a := operand h "compare" x in
       let? b := operand h "compare" y in
       Ok (IntVal (cmpInt (cmp a b)))
   | _ => errorf "decimal.compare expects 2 arguments, got %d" [argCount args]
   end, h).

Definition toIntFn : Builtin := fun h args =>
  (match args with
   | [x] =>
       let? d := operand h "toInt" x in
       if negb (isInteger d) then
         Err (raise "toInt" (errText (Sprintf "%s has a fractional part; round it first" [AStr (dec_String d)])))
       else
         let n := Z.quot (coef d) (pow10 (scale d)) in
         if negb (int64_rangeb n) then
           Err (raise "toInt" (errText (Sprintf "%s does not fit an int" [AStr (dec_String d)])))
         else Ok (IntVal n)
   | _ => errorf "decimal.toInt expects 1 argument, got %d" [argCount args]
   end, h).

Definition toFloatFn : Builtin := fun h args =>
  (match args with
   | [x] =>
       let? d := operand h "toFloat" x in
       match parseSigned (dec_String d) with
       | Ok f => Ok (FloatVal f)
       | Err _ => Err (raise "toFloat" (errText (Sprintf "%s is out of float range" [AStr (dec_String d)])))
       end
   | _ => errorf "decimal.toFloat expects 1 argument, got %d" [argCount args]
   end, h).

(** The registered names ([Install]). *)
Definition builtins `{GoText} : list (string * Builtin) := [
  ("from", fromFn);
  ("add", binary "add" add);
  ("sub", binary "sub" sub);
  ("mul", binary "mul" mul);
  ("div", divFn);
  ("neg", unary "neg" (fun d => Ok (mkDec (- coef d) (scale d))));
  ("abs", unary "abs" (fun d => Ok (mkDec (Z.abs (coef d)) (scale d))));
  ("normalize", unary "normalize" (fun d => Ok (normalize d)));
  ("round", roundFn);
  ("pow", powFn);
  ("sum", sumFn);
  ("compare", compareFn);
  ("sign", info "sign" (fun d => IntVal (Z.sgn (coef d))));
  ("scale", info "scale" (fun d => IntVal (scale d)));
  ("isInteger", info "isInteger" (fun d => BoolVal (isInteger d)));
  ("toString", info "toString" (fun d => StringVal (dec_String d)));
  ("toInt", toIntFn);
  ("toFloat", toFloatFn)].
