(* ===== verification/DecimalFacts.v ===== *)
(** * Decimal arithmetic is exact, and rounding is rounding

    The value of a decimal is a rational.  Addition, subtraction and multiplication are exact
    at a known scale, comparison orders the values, and a rounded result is the textbook
    rounding of the exact one in each of the seven modes.  Exact division is complete. *)

From Stdlib Require Import QArith Qround Qabs Qpower Lqa Znumtheory.
From S2P Require Import Prelude GoInt Decimal.
Open Scope Z_scope.

(** ** Values *)

Definition ten (n : Z) : Q := inject_Z (10 ^ n).

Definition dval (d : dec) : Q := (inject_Z (coef d) / ten (scale d))%Q.

(** The representation invariant: no negative scale, and the size limits. *)
Definition decOK (d : dec) : Prop := 0 <= scale d <= maxDigits /\ BitLen (coef d) <= maxBits.

(** The outcome of an operation that computes [q] exactly at the scale [s]. *)
Definition exactAt (q : Q) (s : Z) (r : result decError dec) : Prop :=
  exists c, (dval (mkDec c s) == q)%Q /\ r = checked (mkDec c s).

Lemma ten_pos n : 0 <= n -> (0 < ten n)%Q.
Proof. intros. unfold ten. change 0%Q with (inject_Z 0). rewrite <- Zlt_Qlt. by apply Z.pow_pos_nonneg. Qed.

Lemma ten_nz n : 0 <= n -> ~ (ten n == 0)%Q.
Proof. intros H E. pose proof (ten_pos n H) as Hp. rewrite E in Hp. by apply Qlt_irrefl in Hp. Qed.

Lemma ten_add a b : 0 <= a -> 0 <= b -> ten (a + b) = (ten a * ten b)%Q.
Proof. intros. unfold ten. by rewrite Z.pow_add_r, inject_Z_mult. Qed.

(** More places, the same value. *)
Lemma dval_pad c s k : 0 <= s -> 0 <= k -> (dval (mkDec (c * 10 ^ k) (s + k)) == dval (mkDec c s))%Q.
Proof.
  intros Hs Hk. unfold dval. simpl. rewrite ten_add, inject_Z_mult by done. fold (ten k).
  field. auto using ten_nz.
Qed.

Lemma checked_spec d :
  (0 <= scale d -> decOK d -> checked d = Ok d) /\ (0 <= scale d -> ~ decOK d -> checked d = Err errLimit).
Proof.
  unfold checked, decOK.
  destruct (Z.ltb_spec maxDigits (scale d)), (Z.ltb_spec maxBits (BitLen (coef d))); simpl; split; intros; done || lia.
Qed.

Lemma checked_cases d : checked d = Ok d \/ checked d = Err errLimit.
Proof. unfold checked. destruct (_ || _); auto. Qed.

Lemma align_spec a b x y s :
  0 <= scale a -> 0 <= scale b -> align a b = (x, y, s) ->
  s = Z.max (scale a) (scale b) /\ (dval (mkDec x s) == dval a)%Q /\ (dval (mkDec y s) == dval b)%Q.
Proof.
  intros Ha Hb. destruct a as [ca sa], b as [cb sb]. unfold align, pow10. simpl in *.
  destruct (Z.eqb_spec sa sb) as [-> | ]; [intros [= <- <- <-]; rewrite Z.max_id; repeat split; reflexivity | ].
  destruct (Z.ltb_spec sa sb); intros [= <- <- <-].
  - split; [lia | ]. split; [ | reflexivity]. replace sb with (sa + (sb - sa)) at 2 by lia. apply dval_pad; lia.
  - split; [lia | ]. split; [reflexivity | ]. replace sa with (sb + (sa - sb)) at 2 by lia. apply dval_pad; lia.
Qed.

Lemma dval_add x y s : 0 <= s -> (dval (mkDec (x + y) s) == dval (mkDec x s) + dval (mkDec y s))%Q.
Proof. intros. unfold dval. simpl. rewrite inject_Z_plus. field. by apply ten_nz. Qed.

Lemma dval_opp y s : 0 <= s -> (dval (mkDec (- y) s) == - dval (mkDec y s))%Q.
Proof. intros. unfold dval. simpl. rewrite inject_Z_opp. field. by apply ten_nz. Qed.

Lemma dval_compare x y s : 0 <= s -> (dval (mkDec x s) ?= dval (mkDec y s))%Q = (x ?= y).
Proof.
  intros Hs. pose proof (ten_pos s Hs) as Ht. unfold dval. simpl.
  destruct (Z.compare_spec x y) as [-> | H | H].
  - by apply Qeq_alt.
  - apply Qlt_alt. unfold Qdiv. apply Qmult_lt_compat_r; [by apply Qinv_lt_0_compat | by rewrite <- Zlt_Qlt].
  - apply Qgt_alt. unfold Qdiv. apply Qmult_lt_compat_r; [by apply Qinv_lt_0_compat | by rewrite <- Zlt_Qlt].
Qed.

Lemma dval_mul a b :
  0 <= scale a -> 0 <= scale b -> (dval (mkDec (coef a * coef b) (scale a + scale b)) == dval a * dval b)%Q.
Proof.
  intros. unfold dval. simpl. rewrite ten_add, inject_Z_mult by done. field. auto using ten_nz.
Qed.

(** ** Size guards *)

Lemma BitLen_lower c k : c <> 0 -> 0 <= k -> 2 ^ k <= Z.abs c -> k < BitLen c.
Proof.
  intros Hc Hk H. unfold BitLen. destruct (Z.eqb_spec c 0); [done | ].
  apply Z.log2_le_mono in H. rewrite Z.log2_pow2 in H by done. lia.
Qed.

Lemma BitLen_bound c : c <> 0 -> 1 <= BitLen c /\ 2 ^ (BitLen c - 1) <= Z.abs c.
Proof.
  intros Hc. unfold BitLen. destruct (Z.eqb_spec c 0); [done | ].
  pose proof (Z.log2_nonneg (Z.abs c)). pose proof (Z.log2_spec (Z.abs c) ltac:(lia)).
  replace (Z.log2 (Z.abs c) + 1 - 1) with (Z.log2 (Z.abs c)) by lia. lia.
Qed.

Lemma BitLen_0 : BitLen 0 = 0.
Proof. done. Qed.

Lemma BitLen_mono a b : Z.abs a <= Z.abs b -> BitLen a <= BitLen b.
Proof.
  intros H. unfold BitLen. pose proof (Z.log2_nonneg (Z.abs b)). apply Z.log2_le_mono in H as H'.
  destruct (Z.eqb_spec a 0), (Z.eqb_spec b 0); lia.
Qed.

(** The estimate that [mul] makes before multiplying refuses nothing that [checked] accepts. *)
Lemma mul_checked a b :
  decOK a -> decOK b -> mul a b = checked (mkDec (coef a * coef b) (scale a + scale b)).
Proof.
  intros [[Ha _] Ba] [[Hb _] Bb]. unfold mul, checked. simpl.
  destruct (Z.ltb_spec maxDigits (scale a + scale b)); [done | ]. simpl.
  destruct (Z.ltb_spec (maxBits + 1) (BitLen (coef a) + BitLen (coef b))) as [Hg | ]; [ | done].
  destruct (Z.eq_dec (coef a) 0) as [E | Na]; [rewrite E, BitLen_0 in Hg; lia | ].
  destruct (Z.eq_dec (coef b) 0) as [E | Nb]; [rewrite E, BitLen_0 in Hg; lia | ].
  destruct (BitLen_bound _ Na), (BitLen_bound _ Nb).
  destruct (Z.ltb_spec maxBits (BitLen (coef a * coef b))) as [ | Hle]; [done | ].
  pose proof (BitLen_lower (coef a * coef b) (BitLen (coef a) - 1 + (BitLen (coef b) - 1)) ltac:(nia) ltac:(lia)) as Hl.
  rewrite Z.pow_add_r, Z.abs_mul in Hl by lia.
  assert (forall k, 0 <= 2 ^ k) as Hp by (intros; apply Z.pow_nonneg; lia).
  pose proof (Z.mul_le_mono_nonneg _ _ _ _ (Hp _) H1 (Hp _) H3). lia.
Qed.

(** The largest exponent [powFn] passes on. *)
Definition maxExponent : Z := maxDigits * 4.

Lemma mul64_exponent x n : 0 <= x <= maxBits -> 0 <= n <= maxExponent -> mul64 x n = x * n.
Proof.
  intros Hx Hn. apply wrap64_id. unfold int64_range, minInt64, maxInt64.
  change maxBits with 332200 in Hx. change maxExponent with 400000 in Hn. nia.
Qed.

(** The products of [pow] do not wrap, and its estimate refuses nothing that [checked] accepts. *)
Lemma pow_checked d n :
  decOK d -> coef d <> 0 -> 0 < n <= maxExponent -> pow d n = checked (mkDec (coef d ^ n) (scale d * n)).
Proof.
  intros [Hs Hb] Hc Hn. pose proof (BitLen_bound _ Hc) as [Hp _].
  unfold pow, checked. rewrite !mul64_exponent by (change maxDigits with 100000 in Hs; change maxBits with 332200 in *; lia). simpl.
  destruct (Z.eqb_spec (coef d) 0); [done | ]. destruct (Z.eqb_spec n 0); [lia | ]. simpl.
  destruct (Z.ltb_spec maxDigits (scale d * n)); [done | ]. simpl.
  destruct (Z.ltb_spec maxBits ((BitLen (coef d) - 1) * n)) as [Hg | ]; [ | done].
  destruct (Z.ltb_spec maxBits (BitLen (coef d ^ n))) as [ | Hle]; [done | ].
  destruct (BitLen_bound _ Hc) as [H1 H2].
  pose proof (BitLen_lower (coef d ^ n) ((BitLen (coef d) - 1) * n)
    ltac:(apply Z.pow_nonzero; lia) ltac:(nia)) as Hl.
  rewrite Z.pow_mul_r, Z.abs_pow in Hl by lia.
  pose proof (Z.pow_le_mono_l _ _ n (conj (Z.pow_nonneg 2 (BitLen (coef d) - 1) ltac:(lia)) H2)). lia.
Qed.

Lemma dval_pow d n : 0 <= scale d -> 0 <= n -> (dval (mkDec (coef d ^ n) (scale d * n)) == Qpower (dval d) n)%Q.
Proof.
  intros Hs. revert n. apply natlike_ind.
  - unfold dval, ten. simpl. rewrite Z.mul_0_r. reflexivity.
  - intros n Hn IH. rewrite <- Z.add_1_r, Qpower_plus' by lia. rewrite <- IH.
    rewrite Z.pow_add_r, Z.mul_add_distr_l, Z.pow_1_r, Z.mul_1_r by lia.
    rewrite <- (dval_mul (mkDec (coef d ^ n) (scale d * n)) d) by (simpl; nia). reflexivity.
Qed.

Lemma pow_exact d n :
  decOK d -> 0 <= n <= maxExponent ->
  exactAt (Qpower (dval d) n) (if coef d =? 0 then 0 else scale d * n) (pow d n).
Proof.
  intros Hd Hn. pose proof Hd as [[Hs _] _]. destruct (Z.eqb_spec n 0) as [-> | ].
  - exists 1. unfold pow. rewrite orb_true_r, Z.mul_0_r. split; [by destruct (coef d =? 0) | by destruct (coef d =? 0)].
  - destruct (Z.eqb_spec (coef d) 0) as [E | Hc].
    + exists 0. unfold pow. rewrite E. simpl. destruct (Z.eqb_spec n 0); [lia | ]. split; [ | done].
      rewrite <- dval_pow, E, Z.pow_0_l by lia. unfold dval. simpl. reflexivity.
    + exists (coef d ^ n). split; [apply dval_pow; lia | apply pow_checked; [done | done | lia]].
Qed.



(** * Exact division *)

(** [r] is the quotient of [a] by [b]. *)
Definition exactQuotient (a b r : dec) : Prop := 0 <= scale r /\ (dval r * dval b == dval a)%Q.

(** The quotient the library promises: no fewer places than the difference of the scales, and
    no more than needed. *)
Definition preferredQuotient (a b r : dec) : Prop :=
  exactQuotient a b r /\ scale a - scale b <= scale r /\
  forall r', exactQuotient a b r' -> scale a - scale b <= scale r' -> scale r <= scale r'.

(** ** The factor loops *)

Lemma twosLoop_spec fuel : forall rest t rest' t',
  0 < rest < 2 ^ Z.of_nat fuel -> twosLoop fuel rest t = (rest', t') ->
  exists k, 0 <= k /\ t' = t + k /\ rest = 2 ^ k * rest' /\ Z.odd rest' = true /\ 0 < rest'.
Proof.
  induction fuel as [ | fuel IH]; intros rest t rest' t' Hr; [simpl in Hr; lia | ]. cbn [twosLoop].
  rewrite Z.bit0_odd, Z.negb_odd, Z.shiftr_div_pow2, Z.pow_1_r by lia.
  destruct (Z.eqb_spec rest 0); [lia | ]. rewrite andb_true_r.
  destruct (Z.even rest) eqn:Ev.
  - apply Z.even_spec in Ev as [h ->]. rewrite Z.mul_comm, Z.div_mul by lia. intros H.
    rewrite Nat2Z.inj_succ, Z.pow_succ_r in Hr by lia.
    destruct (IH h (t + 1) rest' t') as (k & Hk & -> & -> & Ho & Hp); [lia | done | ].
    exists (k + 1). rewrite Z.pow_add_r by lia. split_and!; try done; lia.
  - intros [= <- <-]. exists 0. rewrite <- Z.negb_even, Ev. split_and!; try done; lia.
Qed.

Lemma fivesLoop_spec fuel : forall rest t rest' t',
  0 < rest < 2 ^ Z.of_nat fuel -> fivesLoop fuel rest t = (rest', t') ->
  exists k, 0 <= k /\ t' = t + k /\ rest = 5 ^ k * rest' /\ rest' mod 5 <> 0 /\ 0 < rest'.
Proof.
  induction fuel as [ | fuel IH]; intros rest t rest' t' Hr; [simpl in Hr; lia | ]. cbn [fivesLoop].
  rewrite Z.rem_mod_nonneg, Z.quot_div_nonneg by lia.
  destruct (Z.eqb_spec (rest mod 5) 0) as [E | E]; simpl.
  - apply Z.mod_divide in E as [h ->]; [ | lia]. rewrite Z.div_mul by lia. intros H.
    rewrite Nat2Z.inj_succ, Z.pow_succ_r in Hr by lia.
    destruct (IH h (t + 1) rest' t') as (k & Hk & -> & -> & Ho & Hp); [lia | done | ].
    exists (k + 1). rewrite Z.pow_add_r by lia. split_and!; try done; lia.
  - intros [= <- <-]. exists 0. split_and!; try done; lia.
Qed.

(** ** Divisors of powers of ten *)

Lemma coprime_ten p : Z.odd p = true -> p mod 5 <> 0 -> forall t, 0 <= t -> Z.coprime p (10 ^ t).
Proof.
  intros Ho H5 t Ht. apply Z.coprime_pow_r; [done | ]. change 10 with (2 * 5). apply Z.coprime_mul_r.
  - apply Z.coprime_mod_l_iff. by rewrite Zmod_odd, Ho.
  - apply Z.coprime_mod_l_iff. pose proof (Z.mod_pos_bound p 5 ltac:(lia)).
    assert (p mod 5 = 1 \/ p mod 5 = 2 \/ p mod 5 = 3 \/ p mod 5 = 4) as [-> | [-> | [-> | ->]]] by lia; done.
Qed.

Lemma coprime_2_5 x y : 0 <= x -> 0 <= y -> Z.coprime (2 ^ x) (5 ^ y).
Proof. intros. apply Z.coprime_pow_l, Z.coprime_pow_r; done. Qed.

(** What a denominator without other factors than [2^x 5^y rest] divides. *)
Lemma divides_ten x y rest t :
  0 <= x -> 0 <= y -> 0 <= t -> 0 < rest -> Z.odd rest = true -> rest mod 5 <> 0 ->
  (2 ^ x * (5 ^ y * rest) | 10 ^ t) <-> rest = 1 /\ Z.max x y <= t.
Proof.
  intros Hx Hy Ht Hp Ho H5. split.
  - intros Hd.
    assert (rest | 10 ^ t) as Hr by (apply (Z.divide_trans _ (2 ^ x * (5 ^ y * rest))); [ | done]; exists (2 ^ x * 5 ^ y); ring).
    assert (2 ^ x | 10 ^ t) as H2' by (apply (Z.divide_trans _ (2 ^ x * (5 ^ y * rest))); [apply Z.divide_factor_l | done]).
    assert (5 ^ y | 10 ^ t) as H5' by (apply (Z.divide_trans _ (2 ^ x * (5 ^ y * rest))); [ | done]; exists (2 ^ x * rest); ring).
    assert (10 ^ t = 2 ^ t * 5 ^ t) as E by (change 10 with (2 * 5); by apply Z.pow_mul_l).
    split.
    + rewrite <- (Z.mul_1_r (10 ^ t)) in Hr. apply Z.gauss in Hr; [ | by apply coprime_ten].
      apply Z.divide_1_r_nonneg in Hr; lia.
    + rewrite E in H2', H5'. apply Z.gauss in H5'; [ | by rewrite Z.gcd_comm; apply coprime_2_5].
      rewrite Z.mul_comm in H2'. apply Z.gauss in H2'; [ | by apply coprime_2_5].
      apply Z.divide_pos_le in H2'; [ | by apply Z.pow_pos_nonneg].
      apply Z.divide_pos_le in H5'; [ | by apply Z.pow_pos_nonneg].
      apply Z.pow_le_mono_r_iff in H2', H5'; lia.
  - intros [-> Hm]. rewrite Z.mul_1_r. change 10 with (2 * 5). rewrite Z.pow_mul_l.
    exists (2 ^ (t - x) * 5 ^ (t - y)).
    assert (2 ^ t = 2 ^ (t - x) * 2 ^ x) as -> by (rewrite <- Z.pow_add_r by lia; f_equal; lia).
    assert (5 ^ t = 5 ^ (t - y) * 5 ^ y) as -> by (rewrite <- Z.pow_add_r by lia; f_equal; lia). ring.
Qed.

(** ** The quotient *)

(** A quotient over the integers: [n / d] is [coef a / coef b] in lowest terms. *)
Lemma quotient_cross a b r n d :
  0 <= scale a -> 0 <= scale b -> 0 <= scale r -> coef b <> 0 -> d <> 0 -> coef a * d = n * coef b ->
  (dval r * dval b == dval a)%Q <-> coef r * d * 10 ^ scale a = n * 10 ^ (scale r + scale b).
Proof.
  intros Ha Hb Hr Hz Hd E.
  assert ((dval r * dval b == dval a)%Q <->
    coef r * coef b * 10 ^ scale a = coef a * 10 ^ (scale r + scale b)) as ->.
  { rewrite <- inject_Z_injective, !inject_Z_mult. fold (ten (scale a)) (ten (scale r + scale b)).
    rewrite ten_add by done. pose proof (ten_nz _ Ha) as Ta. pose proof (ten_nz _ Hb) as Tb. pose proof (ten_nz _ Hr) as Tr.
    unfold dval. split; intros H.
    - assert (inject_Z (coef a) == inject_Z (coef r) / ten (scale r) * (inject_Z (coef b) / ten (scale b)) * ten (scale a))%Q as ->.
      { rewrite H. field. done. }
      field. done.
    - assert (inject_Z (coef a) == inject_Z (coef r) * inject_Z (coef b) * ten (scale a) / (ten (scale r) * ten (scale b)))%Q as ->.
      { rewrite H. field. done. }
      field. done. }
  split; intros H.
  - apply (Z.mul_reg_r _ _ (coef b)); [done | ].
    transitivity (coef r * coef b * 10 ^ scale a * d); [ring | ]. rewrite H.
    transitivity (coef a * d * 10 ^ (scale r + scale b)); [ring | ]. rewrite E. ring.
  - apply (Z.mul_reg_r _ _ d); [done | ].
    transitivity (coef r * d * 10 ^ scale a * coef b); [ring | ]. rewrite H.
    transitivity (n * coef b * 10 ^ (scale r + scale b)); [ring | ]. rewrite <- E. ring.
Qed.

(** A quotient at [t] places past the difference of the scales makes [d] divide [10 ^ t]. *)
Lemma quotient_divides a b r n d t :
  0 <= scale a -> 0 <= scale b -> coef b <> 0 -> d <> 0 -> coef a * d = n * coef b -> Z.coprime d n ->
  exactQuotient a b r -> 0 <= t -> scale r + scale b <= scale a + t -> (d | 10 ^ t).
Proof.
  intros Ha Hb Hz Hd E Hc [Hr H] Ht Hle.
  apply (quotient_cross a b r n d) in H; try done. apply (Z.gauss _ n); [ | done].
  exists (coef r * 10 ^ (scale a + t - scale r - scale b)).
  apply (Z.mul_reg_r _ _ (10 ^ scale a)); [apply Z.pow_nonzero; lia | ].
  transitivity (n * 10 ^ (scale r + scale b) * 10 ^ (scale a + t - scale r - scale b)).
  - rewrite <- !Z.mul_assoc, <- !Z.pow_add_r by lia. do 2 f_equal. lia.
  - rewrite <- H. ring.
Qed.

(** The reduced fraction of [divExact]. *)
Definition reduced (a b : dec) : Z * Z :=
  let '(num, den) := if coef b <? 0 then (- coef a, - coef b) else (coef a, coef b) in
  let g := Z.gcd (Z.abs num) den in (Z.quot num g, Z.quot den g).

Lemma reduced_spec a b n d :
  coef b <> 0 -> reduced a b = (n, d) ->
  0 < d /\ coef a * d = n * coef b /\ Z.coprime d n.
Proof.
  intros Hz. unfold reduced.
  destruct (if coef b <? 0 then _ else _) as [num den] eqn:E.
  assert (0 < den /\ coef a * den = num * coef b) as [Hden Hx].
  { destruct (Z.ltb_spec (coef b) 0); injection E as <- <-; split; try lia. }
  set (g := Z.gcd (Z.abs num) den). assert (0 < g) as Hg.
  { pose proof (Z.gcd_nonneg (Z.abs num) den). assert (g <> 0) as Hg0 by (intros H0; apply Z.gcd_eq_0_r in H0; lia). lia. }
  assert (Z.gcd den num = g) as Eg by (unfold g; by rewrite Z.gcd_abs_l, Z.gcd_comm).
  clearbody g. clear E.
  assert (exists n' d', num = n' * g /\ den = d' * g /\ Z.gcd d' n' = 1) as (n' & d' & -> & -> & Hc).
  { destruct (Z.gcd_divide_r den num) as [n' En], (Z.gcd_divide_l den num) as [d' Ed]. rewrite Eg in En, Ed.
    exists n', d'. do 2 (split; [done | ]). rewrite En, Ed, Z.gcd_mul_mono_r_nonneg in Eg by lia. nia. }
  rewrite !Z.quot_mul by lia. intros [= <- <-]. split; [nia | ]. split; [ | done].
  apply (Z.mul_reg_r _ _ g); [lia | ]. rewrite <- Z.mul_assoc, Hx. ring.
Qed.

Lemma divExact_reduced a b n d :
  coef b <> 0 -> reduced a b = (n, d) ->
  divExact a b =
    let fuel := Z.to_nat (BitLen d) in
    let '(rest, twos) := twosLoop fuel d 0 in
    let '(rest, fives) := fivesLoop fuel rest 0 in
    if negb (rest =? 1) then Err errInexact
    else
      let k := Z.max twos fives in
      let c := n * Z.quot (10 ^ k) d in
      let sc := k + scale a - scale b in
      if sc <? 0 then checked (mkDec (c * 10 ^ (- sc)) 0) else checked (mkDec c sc).
Proof.
  intros Hz. unfold reduced, divExact, pow10.
  destruct (if coef b <? 0 then _ else _) as [num den] eqn:E.
  destruct (Z.eqb_spec (Z.gcd (Z.abs num) den) 0) as [H | _]; simpl.
  - apply Z.gcd_eq_0_r in H. destruct (Z.ltb_spec (coef b) 0); injection E as <- <-; lia.
  - by intros [= <- <-].
Qed.

Lemma BitLen_fuel d : 0 < d -> d < 2 ^ Z.of_nat (Z.to_nat (BitLen d)).
Proof.
  intros Hd. unfold BitLen. destruct (Z.eqb_spec d 0); [lia | ]. rewrite Z.abs_eq by lia.
  pose proof (Z.log2_nonneg d). rewrite Z2Nat.id by lia. apply (Z.log2_spec d Hd).
Qed.

(** The denominator split into its twos, fives and the rest. *)
Lemma factor_loops d rest twos rest' fives :
  0 < d -> twosLoop (Z.to_nat (BitLen d)) d 0 = (rest, twos) ->
  fivesLoop (Z.to_nat (BitLen d)) rest 0 = (rest', fives) ->
  0 <= twos /\ 0 <= fives /\ d = 2 ^ twos * (5 ^ fives * rest') /\
  0 < rest' /\ Z.odd rest' = true /\ rest' mod 5 <> 0.
Proof.
  intros Hd E2 E5. pose proof (BitLen_fuel d Hd) as Hf.
  apply twosLoop_spec in E2 as (k & Hk & -> & Ed & Ho & Hp); [ | lia].
  assert (0 < 2 ^ k) by (by apply Z.pow_pos_nonneg).
  apply fivesLoop_spec in E5 as (j & Hj & -> & Er & H5 & Hp'); [ | nia].
  rewrite !Z.add_0_l. split_and!; try done.
  - by rewrite <- Er.
  - rewrite Er, Z.odd_mul in Ho. by apply andb_true_iff in Ho as [_ ->].
Qed.

Lemma divExact_spec a b :
  0 <= scale a -> 0 <= scale b -> coef b <> 0 ->
  (exists r, preferredQuotient a b r /\ divExact a b = checked r) \/
  ((forall r, ~ exactQuotient a b r) /\ divExact a b = Err errInexact).
Proof.
  intros Ha Hb Hz. destruct (reduced a b) as [n d] eqn:E. destruct (reduced_spec a b n d Hz E) as (Hd & Hx & Hc).
  rewrite (divExact_reduced a b n d) by done. cbn zeta.
  destruct (twosLoop _ d 0) as [rest twos] eqn:E2. destruct (fivesLoop _ rest 0) as [rest' fives] eqn:E5.
  destruct (factor_loops d rest twos rest' fives Hd E2 E5) as (H2 & H5 & Ed & Hp & Ho & Hm).
  assert (forall t, 0 <= t -> (d | 10 ^ t) <-> rest' = 1 /\ Z.max twos fives <= t) as Hdiv
    by (intros t Ht; rewrite Ed; exact (divides_ten _ _ _ _ H2 H5 Ht Hp Ho Hm)).
  assert (forall r, exactQuotient a b r -> rest' = 1 /\
    (scale a - scale b <= scale r -> Z.max twos fives <= scale r + scale b - scale a)) as Hq.
  { intros r Hr. pose proof Hr as [Hs _].
    destruct (proj1 (Hdiv (scale r + scale b) ltac:(lia))) as [H1 _];
      [eapply quotient_divides; [exact Ha | exact Hb | exact Hz | | exact Hx | exact Hc | exact Hr | | ]; lia | ].
    split; [done | ]. intros Hle. apply (Hdiv (scale r + scale b - scale a) ltac:(lia)).
    eapply quotient_divides; [exact Ha | exact Hb | exact Hz | | exact Hx | exact Hc | exact Hr | | ]; lia. }
  destruct (Z.eqb_spec rest' 1) as [-> | H1]; cbn [negb].
  - left. set (k := Z.max twos fives) in *. destruct (proj2 (Hdiv k ltac:(lia))) as [j Ej]; [lia | ].
    rewrite Ej, Z.quot_mul by lia.
    assert (forall c s, 0 <= s -> scale a - scale b <= s -> (forall s', scale a - scale b <= s' -> 0 <= s' ->
      k <= s' + scale b - scale a -> s <= s') -> c * d * 10 ^ scale a = n * 10 ^ (s + scale b) ->
      preferredQuotient a b (mkDec c s)) as Hpref.
    { intros c s Hs Hle Hmin Heq. split; [ | split; [done | ]].
      - split; [done | ]. apply (quotient_cross a b (mkDec c s) n d); try done. lia.
      - intros r' Hr' Hle'. destruct (Hq r' Hr') as [_ Hk]. destruct Hr'. apply Hmin; auto. }
    destruct (Z.ltb_spec (k + scale a - scale b) 0) as [Hneg | Hpos].
    + exists (mkDec (n * j * 10 ^ (- (k + scale a - scale b))) 0). split; [ | done].
      apply Hpref; try lia.
      transitivity (n * (j * d) * (10 ^ (- (k + scale a - scale b)) * 10 ^ scale a)); [ring | ].
      rewrite <- Ej, <- Z.mul_assoc, <- !Z.pow_add_r by lia. do 2 f_equal. lia.
    + exists (mkDec (n * j) (k + scale a - scale b)). split; [ | done]. apply Hpref; try lia.
      transitivity (n * (j * d) * 10 ^ scale a); [ring | ].
      rewrite <- Ej, <- Z.mul_assoc, <- !Z.pow_add_r by lia. do 2 f_equal. lia.
  - right. split; [ | done]. intros r Hr. by apply H1, (Hq r).
Qed.

(** Exact division is complete and economical.  [div] without a scale gives a quotient
    whose product with the divisor is the dividend, at the fewest decimal places that are
    not below the difference of the scales (or the limit error when that quotient is past
    the limits); it reports [errInexact] exactly when no decimal of any size is the
    quotient, and [errDivZero] for a zero divisor.  In particular the loops that count the
    factors of the denominator have found them all. *)
Theorem division_exact (a b : dec) (m : mode) (Ha : decOK a) (Hb : decOK b) :
  if coef b =? 0 then div a b (-1) m = Err errDivZero
  else
    (exists r, preferredQuotient a b r /\ div a b (-1) m = checked r) \/
    ((forall r, ~ exactQuotient a b r) /\ div a b (-1) m = Err errInexact).
Proof.
  destruct Ha as [[Ha _] _], Hb as [[Hb _] _]. unfold div.
  destruct (Z.eqb_spec (coef b) 0) as [E | E]; [done | ]. by apply divExact_spec.
Qed.

Lemma division_exact_witness :
  div (mkDec 10 1) (mkDec (-8) 0) (-1) halfEven = Ok (mkDec (-125) 3) /\
  forall r, ~ exactQuotient (mkDec 1 0) (mkDec 3 0) r.
Proof.
  split; [reflexivity | ].
  assert (decOK (mkDec 1 0) /\ decOK (mkDec 3 0)) as [H1 H3] by (repeat split; vm_compute; discriminate).
  destruct (division_exact (mkDec 1 0) (mkDec 3 0) halfEven H1 H3) as [(r & _ & E) | [H _]]; [ | exact H].
  exfalso. assert (div (mkDec 1 0) (mkDec 3 0) (-1) halfEven = Err errInexact) as Ei by reflexivity.
  rewrite Ei in E. destruct (checked_cases r) as [E' | E']; rewrite E' in E; discriminate.
Defined.
