(* ===== verification/DecimalRound.v ===== *)
(** * Rounding to a scale

    [roundQuo] against the textbook rounding of a rational, for the seven modes, and what
    follows for [roundTo] and for [div] with a scale. *)

From Stdlib Require Import QArith Qround Qabs.
From S2P Require Import Prelude Decimal DecimalFacts.
Open Scope Z_scope.

Definition half : Q := Qmake 1 2.

(** The integer a rational rounds to. *)
Definition roundRef (m : mode) (x : Q) : Z :=
  let nonneg := Qle_bool 0 x in
  match m with
  | floor => Qfloor x
  | ceiling => Qceiling x
  | down => if nonneg then Qfloor x else Qceiling x
  | up => if nonneg then Qceiling x else Qfloor x
  | halfUp => if nonneg then Qfloor (x + half) else Qceiling (x - half)
  | halfDown => if nonneg then Qceiling (x - half) else Qfloor (x + half)
  | halfEven =>
      let f := Qfloor x in
      match (x - inject_Z f ?= half)%Q with
      | Lt => f
      | Gt => f + 1
      | Eq => if Z.even f then f else f + 1
      end
  end.

#[export] Instance roundRef_proper m : Proper (Qeq ==> eq) (roundRef m).
Proof.
  intros x y E. unfold roundRef.
  assert (Qle_bool 0 x = Qle_bool 0 y) as -> by (apply eq_iff_eq_true; rewrite !Qle_bool_iff, E; done).
  assert (Qfloor x = Qfloor y) as -> by (by rewrite E).
  assert (Qceiling x = Qceiling y) as -> by (by rewrite E).
  assert (Qfloor (x + half) = Qfloor (y + half)) as -> by (by rewrite E).
  assert (Qceiling (x - half) = Qceiling (y - half)) as -> by (by rewrite E).
  assert ((x - inject_Z (Qfloor y) ?= half)%Q = (y - inject_Z (Qfloor y) ?= half)%Q) as -> by (by rewrite E).
  done.
Qed.

(** ** A quotient of integers *)

Definition ratio (n d : Z) : Q := (inject_Z n / inject_Z d)%Q.

Section Quotient.
Variables n d : Z.
Hypothesis Hd : 0 < d.

Lemma d_nz : ~ (inject_Z d == 0)%Q.
Proof. change 0%Q with (inject_Z 0). rewrite inject_Z_injective. lia. Qed.

Lemma floor_div : Qfloor (ratio n d) = n / d.
Proof. by rewrite Zdiv_Qdiv. Qed.

Lemma ceiling_div : Qceiling (ratio n d) = - (- n / d).
Proof.
  unfold Qceiling. f_equal. rewrite Zdiv_Qdiv. apply Qfloor_comp. rewrite inject_Z_opp. unfold ratio. field. apply d_nz.
Qed.

Lemma floor_half : Qfloor (ratio n d + half) = (2 * n + d) / (2 * d).
Proof.
  rewrite Zdiv_Qdiv. apply Qfloor_comp. rewrite inject_Z_plus, !inject_Z_mult. unfold half.
  change (inject_Z 2) with 2%Q. unfold ratio. field. apply d_nz.
Qed.

Lemma ceiling_half : Qceiling (ratio n d - half) = - ((d - 2 * n) / (2 * d)).
Proof.
  unfold Qceiling. f_equal. rewrite Zdiv_Qdiv. apply Qfloor_comp.
  rewrite <- Z.add_opp_r, inject_Z_plus, inject_Z_opp, !inject_Z_mult. unfold half.
  change (inject_Z 2) with 2%Q. unfold ratio. field. apply d_nz.
Qed.

Lemma nonneg_quotient : Qle_bool 0 (ratio n d) = (0 <=? n).
Proof.
  unfold ratio. apply eq_iff_eq_true. rewrite Qle_bool_iff, Z.leb_le, (Zle_Qle 0 n).
  assert (0 < inject_Z d)%Q as Hp by (change 0%Q with (inject_Z 0); by rewrite <- Zlt_Qlt).
  split; intros H.
  - apply (Qmult_le_compat_r _ _ (inject_Z d)) in H; [ | by apply Qlt_le_weak].
    rewrite Qmult_0_l in H. rewrite Qmult_comm, Qmult_div_r in H by apply d_nz. done.
  - apply Qle_shift_div_l; [done | ]. by rewrite Qmult_0_l.
Qed.

Lemma fraction_half : (ratio n d - inject_Z (Qfloor (ratio n d)) ?= half)%Q = (2 * (n mod d) ?= d).
Proof.
  rewrite floor_div.
  assert (ratio n d - inject_Z (n / d) == inject_Z (n mod d) / inject_Z d)%Q as ->.
  { rewrite Z.mod_eq by lia. rewrite <- Z.add_opp_r, inject_Z_plus, inject_Z_opp, inject_Z_mult. unfold ratio. field. apply d_nz. }
  unfold half, Qcompare, Qdiv. destruct d as [ | p | p]; try lia. simpl. rewrite !Z.mul_1_r. f_equal; lia.
Qed.
End Quotient.

Lemma div_eq a d q : 0 < d -> d * q <= a < d * q + d -> a / d = q.
Proof. intros. symmetry. apply (Z.div_unique_pos _ _ _ (a - d * q)); lia. Qed.

(** *** The code's rounding, den > 0 *)

Lemma quot_rem_spec n d :
  0 < d -> n = d * Z.quot n d + Z.rem n d /\
  (0 <= n -> 0 <= Z.rem n d < d) /\ (n <= 0 -> - d < Z.rem n d <= 0).
Proof.
  intros Hd. split; [apply Z.quot_rem' | ].
  split; intros; [pose proof (Z.rem_bound_pos n d) | pose proof (Z.rem_bound_pos_neg n d)]; lia.
Qed.

Lemma roundQuo_pos n d m : 0 < d -> roundQuo n d m = roundRef m (ratio n d).
Proof.
  intros Hd. unfold roundRef. rewrite nonneg_quotient, fraction_half by done.
  rewrite floor_half, ceiling_half, floor_div, ceiling_div by done.
  unfold roundQuo. destruct (quot_rem_spec n d Hd) as (En & Hp & Hn).
  set (q := Z.quot n d) in *. set (r := Z.rem n d) in *.
  rewrite Z.bit0_odd, (proj2 (Z.ltb_ge d 0)), (Z.abs_eq d) by lia.
  destruct (Z.leb_spec 0 n) as [Hs | Hs].
  - rewrite (proj2 (Z.ltb_ge n 0)) by lia. specialize (Hp Hs). clear Hn. simpl.
    assert (n / d = q) as E1 by (apply div_eq; lia).
    assert (n mod d = r) as E2 by (rewrite Z.mod_eq, E1 by lia; lia).
    rewrite E1, E2, (Z.abs_eq r) by lia. replace (r * 2) with (2 * r) by lia.
    destruct (Z.eqb_spec r 0) as [R0 | R0].
    + assert (- n / d = - q) as E3 by (apply div_eq; lia).
      assert ((2 * n + d) / (2 * d) = q) as E4 by (apply div_eq; lia).
      assert ((d - 2 * n) / (2 * d) = - q) as E5 by (apply div_eq; lia).
      rewrite E3, E4, E5. destruct (Z.compare_spec (2 * r) d); destruct m; try lia; by destruct (Z.even q).
    + assert (- n / d = - q - 1) as E3 by (apply div_eq; lia). rewrite E3.
      destruct (Z.compare_spec (2 * r) d) as [C | C | C]; destruct m; simpl; try lia.
      all: try (rewrite <- Z.negb_even; by destruct (Z.even q)).
      all: match goal with |- ?z = ?a / ?b => rewrite (div_eq a b z) by lia; done
                         | |- ?z = - (?a / ?b) => rewrite (div_eq a b (- z)) by lia; lia end.
  - rewrite (proj2 (Z.ltb_lt n 0)) by lia. specialize (Hn ltac:(lia)). clear Hp. simpl.
    rewrite (Z.abs_neq r) by lia. assert (- n / d = - q) as E3 by (apply div_eq; lia). rewrite E3.
    destruct (Z.eqb_spec r 0) as [R0 | R0].
    + assert (n / d = q) as E1 by (apply div_eq; lia).
      assert (n mod d = 0) as E2 by (rewrite Z.mod_eq, E1 by lia; lia).
      assert ((2 * n + d) / (2 * d) = q) as E4 by (apply div_eq; lia).
      assert ((d - 2 * n) / (2 * d) = - q) as E5 by (apply div_eq; lia).
      rewrite E1, E2, E4, E5. destruct (Z.compare_spec (2 * 0) d); destruct m; lia.
    + assert (n / d = q - 1) as E1 by (apply div_eq; lia).
      assert (n mod d = r + d) as E2 by (rewrite Z.mod_eq, E1 by lia; lia).
      rewrite E1, E2.
      destruct (Z.compare_spec (- r * 2) d) as [C | C | C], (Z.compare_spec (2 * (r + d)) d) as [C' | C' | C'];
        try lia; destruct m; simpl; try lia.
      all: try (replace (q - 1) with (Z.pred q) by lia; rewrite Z.even_pred; destruct (Z.odd q); lia).
      all: match goal with |- ?z = ?a / ?b => rewrite (div_eq a b z) by lia; done
                         | |- ?z = - (?a / ?b) => rewrite (div_eq a b (- z)) by lia; lia end.
Qed.

Lemma roundQuo_opp n d m : d <> 0 -> roundQuo (- n) (- d) m = roundQuo n d m.
Proof.
  intros Hd. unfold roundQuo. rewrite Z.quot_opp_opp, Z.rem_opp_opp by done.
  destruct (Z.eqb_spec (Z.rem n d) 0) as [-> | Hr]; [done | ].
  destruct (Z.eqb_spec (- Z.rem n d) 0) as [ | _]; [lia | ]. rewrite !Z.abs_opp.
  assert (n <> 0) as Hn by (intros ->; by rewrite Z.rem_0_l in Hr).
  destruct (Z.ltb_spec n 0), (Z.ltb_spec (- n) 0), (Z.ltb_spec d 0), (Z.ltb_spec (- d) 0); try lia; done.
Qed.

Lemma roundQuo_ref n d m : d <> 0 -> roundQuo n d m = roundRef m (ratio n d).
Proof.
  intros Hd. destruct (Z.lt_total d 0) as [Hn | [ | Hp]]; [ | done | by apply roundQuo_pos].
  rewrite <- roundQuo_opp by done. rewrite roundQuo_pos by lia. apply roundRef_proper.
  unfold ratio. rewrite !inject_Z_opp. field.
  change 0%Q with (inject_Z 0). by rewrite inject_Z_injective.
Qed.

Lemma roundRef_Z m z : roundRef m (inject_Z z) = z.
Proof.
  assert (inject_Z z == ratio z 1)%Q as -> by (unfold ratio; field).
  rewrite <- roundQuo_pos by done. unfold roundQuo. by rewrite Z.rem_1_r, Z.quot_1_r.
Qed.

(** ** Rounded decimals *)

(** Removing a place or more does not grow a coefficient. *)
Lemma roundQuo_shrinks c k m : 0 < k -> Z.abs (roundQuo c (10 ^ k) m) <= Z.abs c.
Proof.
  intros Hk. assert (10 <= 10 ^ k) as H10 by (change 10 with (10 ^ 1) at 1; apply Z.pow_le_mono_r; lia).
  assert (Z.abs (Z.quot c (10 ^ k)) + (if Z.rem c (10 ^ k) =? 0 then 0 else 1) <= Z.abs c) as H.
  { destruct (quot_rem_spec c (10 ^ k) ltac:(lia)) as (E & Hp & Hn).
    destruct (Z.eqb_spec (Z.rem c (10 ^ k)) 0); nia. }
  unfold roundQuo. destruct (Z.rem c (10 ^ k) =? 0); [lia | ]. repeat case_match; lia.
Qed.

Lemma ratio_scale c s k : 0 <= k -> 0 <= s ->
  (ratio c (10 ^ k) == dval (mkDec c (s + k)) * ten s)%Q.
Proof.
  intros. unfold ratio, dval. simpl. rewrite ten_add by done. fold (ten k). field. auto using ten_nz.
Qed.

Lemma roundTo_ref d sc m :
  decOK d -> 0 <= sc <= maxDigits ->
  roundTo d sc m = checked (mkDec (roundRef m (dval d * ten sc)) sc).
Proof.
  intros Hd Hsc. unfold roundTo, pow10. destruct d as [c s]. destruct Hd as [[Hs HM] HB]. simpl in *.
  destruct (Z.ltb_spec maxDigits sc); [lia | ]. destruct (Z.leb_spec s sc) as [Hle | Hgt].
  - do 2 f_equal. rewrite <- (roundRef_Z m (c * 10 ^ (sc - s))). apply roundRef_proper.
    unfold dval. simpl. replace sc with (s + (sc - s)) at 2 by lia. rewrite ten_add, inject_Z_mult by lia.
    fold (ten (sc - s)). field. by apply ten_nz.
  - assert (mkDec (roundRef m (dval (mkDec c s) * ten sc)) sc = mkDec (roundQuo c (10 ^ (s - sc)) m) sc) as ->.
    { f_equal. rewrite roundQuo_ref by (apply Z.pow_nonzero; lia). apply roundRef_proper.
      replace s with (sc + (s - sc)) at 1 by lia. symmetry. apply ratio_scale; lia. }
    symmetry. apply checked_spec; simpl; [lia | ]. split; simpl; [lia | ].
    pose proof (BitLen_mono _ _ (roundQuo_shrinks c (s - sc) m ltac:(lia))). lia.
Qed.

Lemma div_ref a b sc m :
  decOK a -> decOK b -> coef b <> 0 -> 0 <= sc <= maxDigits ->
  div a b sc m = checked (mkDec (roundRef m (dval a / dval b * ten sc)) sc).
Proof.
  intros [[Ha _] _] [[Hb _] _] Hz Hsc. unfold div, pow10.
  destruct (Z.eqb_spec (coef b) 0); [done | ]. destruct (Z.ltb_spec sc 0); [lia | ].
  destruct (Z.ltb_spec maxDigits sc); [lia | ].
  assert (~ (inject_Z (coef b) == 0)%Q) as Hq by (change 0%Q with (inject_Z 0); by rewrite inject_Z_injective).
  destruct (Z.leb_spec 0 (sc + scale b - scale a)) as [He | He]; do 2 f_equal.
  - rewrite roundQuo_ref by done. apply roundRef_proper. unfold ratio, dval.
    set (e := sc + scale b - scale a) in *. rewrite inject_Z_mult. fold (ten e).
    assert (ten e * ten (scale a) == ten sc * ten (scale b))%Q as E.
    { rewrite <- !ten_add by lia. unfold e. by replace (sc + scale b - scale a + scale a) with (sc + scale b) by lia. }
    assert (ten e == ten sc * ten (scale b) / ten (scale a))%Q as ->.
    { rewrite <- E. field. by apply ten_nz. }
    field. auto using ten_nz.
  - set (e := - (sc + scale b - scale a)) in *.
    assert (10 ^ e <> 0) as H10 by (apply Z.pow_nonzero; lia).
    rewrite roundQuo_ref by nia. apply roundRef_proper. unfold ratio, dval.
    rewrite inject_Z_mult. fold (ten e).
    assert (ten (scale a) == ten e * ten sc * ten (scale b))%Q as ->.
    { rewrite <- !ten_add by lia. unfold e. by replace (- (sc + scale b - scale a) + sc + scale b) with (scale a) by lia. }
    field. repeat split; try done; apply ten_nz; lia.
Qed.

(** C20: rounding is the textbook rounding of the exact value.  For decimals within the
    limits, a scale in range and each of the seven modes, [roundTo] gives at that scale the
    rounding of the decimal, and [div] with a scale the rounding of the exact quotient
    (ties to even, away from zero or towards it; up, down, ceiling and floor directed), or
    the limit error when that coefficient is past the limits. *)
Theorem rounding_correct (a b : dec) (sc : Z) (m : mode)
    (Ha : decOK a) (Hb : decOK b) (Hsc : 0 <= sc <= maxDigits) :
  roundTo a sc m = checked (mkDec (roundRef m (dval a * ten sc)) sc) /\
  div a b sc m =
    (if coef b =? 0 then Err errDivZero
     else checked (mkDec (roundRef m (dval a / dval b * ten sc)) sc)).
Proof.
  split; [by apply roundTo_ref | ]. destruct (Z.eqb_spec (coef b) 0) as [E | ]; [ | by apply div_ref].
  unfold div. by rewrite E.
Qed.

Lemma rounding_correct_witness :
  roundTo (mkDec 2675 3) 2 halfEven = Ok (mkDec 268 2) /\
  div (mkDec (-5) 0) (mkDec 3 0) 1 floor = Ok (mkDec (-17) 1).
Proof.
  assert (decOK (mkDec 2675 3) /\ decOK (mkDec (-5) 0) /\ decOK (mkDec 3 0)) as (H1 & H2 & H3).
  { repeat split; vm_compute; discriminate. }
  split.
  - refine (eq_trans (proj1 (rounding_correct (mkDec 2675 3) (mkDec 3 0) 2 halfEven H1 H3 _)) _);
      [split; discriminate | vm_compute; reflexivity].
  - refine (eq_trans (proj2 (rounding_correct (mkDec (-5) 0) (mkDec 3 0) 1 floor H2 H3 _)) _);
      [split; discriminate | vm_compute; reflexivity].
Defined.
