(* ===== verification/DecimalText.v ===== *)
(** * Decimals as text

    Reading what [String] writes gives the decimal back, digit for digit, up to the limit on
    the digits of a text. *)

From stdpp Require Import pretty.
From Stdlib Require Import Ascii.
From S2P Require Import Prelude Utf8 Strconv Types Value Display ParserRoundFacts.
From S2P Require Import Decimal DecimalLib DecimalFacts.
Open Scope string_scope.
Open Scope list_scope.
Open Scope Z_scope.

(** ** Digits *)

Lemma inChars_pretty (x : N) :
  (x < 10)%N -> inChars "0" "9" (pretty_N_char x) = true /\ byte_of (pretty_N_char x) - byte_of "0" = Z.of_N x.
Proof. intros Hx%digit_cases. by repeat destruct Hx as [-> | Hx]; [.. | subst]. Qed.

Lemma allDigits_pretty (x : N) s : allDigits s = true -> allDigits (pretty_N_go x s) = true.
Proof.
  revert s. induction (N.lt_wf_0 x) as [x _ IH]; intros s Hs.
  destruct (N.eq_dec x 0%N) as [-> | Hn]; [done | ].
  rewrite pretty_N_go_step by lia. apply IH; [apply N.div_lt; lia | ]. simpl.
  by rewrite (proj1 (inChars_pretty _ (N.mod_lt x 10%N ltac:(done)))).
Qed.

Lemma digitsValue_pretty (x : N) s k :
  exists k', digitRun (pretty_N_go x s) 0 k = digitRun s (Z.of_N x) k'.
Proof.
  revert s k. induction (N.lt_wf_0 x) as [x _ IH]; intros s k.
  destruct (N.eq_dec x 0%N) as [-> | Hn]; [by exists k | ].
  pose proof (N.div_mod' x 10%N) as Hdm. pose proof (N.mod_lt x 10%N ltac:(done)) as Hm.
  rewrite pretty_N_go_step by lia. destruct (IH (x / 10)%N) with (s := String (pretty_N_char (x mod 10)) s) (k := k)
    as [k' ->]; [apply N.div_lt; lia | ].
  destruct (inChars_pretty _ Hm) as [E1 E2]. cbn [digitRun]. rewrite E1, E2. exists (S k'). f_equal. lia.
Qed.

Lemma FormatInt_digits n : 0 <= n -> allDigits (FormatInt n) = true /\ digitsValue (FormatInt n) = n.
Proof.
  intros Hn. destruct (Z.eq_dec n 0) as [-> | ]; [done | ]. rewrite FormatInt_pos by lia.
  split; [by apply allDigits_pretty | ]. unfold digitsValue.
  destruct (digitsValue_pretty (Z.to_N n) "" 0) as [k ->]. simpl. lia.
Qed.

Lemma slen_app a b : slen (a +:+ b) = slen a + slen b.
Proof. unfold slen. rewrite string_length_app. lia. Qed.

Lemma FormatInt_nonempty n : 1 <= slen (FormatInt n).
Proof.
  unfold slen. destruct (FormatInt n) as [ | c s] eqn:E; simpl; [ | lia].
  exfalso. destruct (Z.le_gt_cases 0 n).
  - destruct (FormatInt_plain n) as [H' | (c & s & H' & _)]; [done | | ]; rewrite H' in E; done.
  - destruct n; try lia. done.
Qed.

(** Leading zeros. *)
Lemma zeros_digits n : allDigits (Repeat "0" n) = true.
Proof. by induction n. Qed.

Lemma allDigits_app a b : allDigits (a +:+ b) = allDigits a && allDigits b.
Proof. induction a as [ | c a IH]; [done | ]. change (String c a +:+ b) with (String c (a +:+ b)). simpl. by rewrite IH, andb_assoc. Qed.

Lemma digitRun_count s : forall n j k, fst (fst (digitRun s n j)) = fst (fst (digitRun s n k)).
Proof. induction s as [ | c s IH]; intros; simpl; [done | ]. by destruct (inChars "0" "9" c). Qed.

Lemma digitsValue_fst s : digitsValue s = fst (fst (digitRun s 0 0)).
Proof. unfold digitsValue. by destruct (digitRun s 0 0) as [[? ?] ?]. Qed.

Lemma digitsValue_zeros n s : digitsValue (Repeat "0" n +:+ s) = digitsValue s.
Proof.
  rewrite !digitsValue_fst. generalize 0%nat as k. induction n as [ | n IH]; intros k; [done | ].
  change (Repeat "0" (S n) +:+ s) with (String "0" (Repeat "0" n +:+ s)). simpl.
  rewrite IH. apply digitRun_count.
Qed.

Lemma slen_Repeat c n : slen (Repeat c n) = Z.of_nat n.
Proof. unfold slen. f_equal. induction n as [ | n IH]; simpl; [done | by rewrite IH]. Qed.

(** ** Cutting *)

Lemma slen_sdrop n s : slen (sdrop n s) = Z.max 0 (slen s - Z.of_nat n).
Proof. unfold slen. rewrite sdrop_length. lia. Qed.

(** A string of digits holds no other character. *)
Lemma cutAt_digits p s :
  (forall c, inChars "0" "9" c = true -> p c = false) -> allDigits s = true -> cutAt p s = (s, None).
Proof.
  intros Hp. induction s as [ | c s IH]; intros H; [done | ]. simpl in *. apply andb_true_iff in H as [Hc Hs].
  by rewrite Hp, IH.
Qed.

Lemma cutAt_app p a b :
  (forall c, inChars "0" "9" c = true -> p c = false) -> allDigits a = true ->
  cutAt p (a +:+ b) = let '(x, y) := cutAt p b in (a +:+ x, y).
Proof.
  intros Hp. induction a as [ | c a IH]; intros H.
  - simpl. change ("" +:+ b) with b. by destruct (cutAt p b).
  - simpl in H. apply andb_true_iff in H as [Hc Ha]. change (String c a +:+ b) with (String c (a +:+ b)).
    simpl. rewrite Hp, IH by done. by destruct (cutAt p b).
Qed.

Lemma digit_other c :
  inChars "0" "9" c = true -> isPoint c = false /\ isExp c = false /\ forall s, cutSign (String c s) = (false, String c s).
Proof. by destruct c as [[] [] [] [] [] [] [] []]. Qed.

(** ** The printed form *)

(** The digits of the text: those of the coefficient, with a zero before the point at least. *)
Definition printedDigits (d : dec) : Z := Z.max (slen (FormatInt (Z.abs (coef d)))) (scale d + 1).

(** The text is [intPart] or [intPart.frac], its digits those of the coefficient. *)
Lemma unsignedText_spec d :
  0 <= scale d ->
  exists c ip fr, unsignedText d = String c ip +:+ (if 0 <? scale d then "." +:+ fr else fr) /\
    allDigits (String c ip) = true /\ allDigits fr = true /\ slen fr = scale d /\
    digitsValue (String c ip +:+ fr) = Z.abs (coef d) /\ slen (String c ip +:+ fr) = printedDigits d.
Proof.
  intros Hs. unfold unsignedText, printedDigits. destruct (FormatInt_digits (Z.abs (coef d)) ltac:(lia)) as [Had Hv].
  pose proof (FormatInt_nonempty (Z.abs (coef d))) as Hne. set (D := FormatInt (Z.abs (coef d))) in *.
  set (D' := if slen D <=? scale d then Repeat "0" (Z.to_nat (scale d - slen D + 1)) +:+ D else D).
  assert (allDigits D' = true /\ digitsValue D' = Z.abs (coef d) /\ slen D' = Z.max (slen D) (scale d + 1)) as (Ha' & Hv' & Hl').
  { unfold D'. destruct (Z.leb_spec (slen D) (scale d)); [ | split_and!; try done; lia].
    rewrite allDigits_app, zeros_digits, digitsValue_zeros, slen_app, slen_Repeat. split_and!; try done; lia. }
  destruct (Z.ltb_spec 0 (scale d)) as [Hp | Hz].
  - set (cut := Z.to_nat (slen D' - scale d)).
    pose proof (stake_sdrop cut D') as Hj. pose proof (slen_sdrop cut D') as Hfr.
    assert (allDigits (stake cut D') = true /\ allDigits (sdrop cut D') = true) as [H1 H2].
    { rewrite <- andb_true_iff, <- allDigits_app, Hj. done. }
    pose proof (slen_app (stake cut D') (sdrop cut D')) as Hsum. rewrite Hj in Hsum.
    destruct (stake cut D') as [ | c ip] eqn:E; [change (slen "") with 0 in Hsum; lia | ].
    exists c, ip, (sdrop cut D'). rewrite Hj. split_and!; try done. lia.
  - replace (scale d) with 0 in * by lia.
    destruct D as [ | c ip] eqn:E; [change (slen "") with 0 in Hne; lia | ].
    exists c, ip, "". assert (String c ip +:+ "" = String c ip) as -> by apply string_app_nil_r.
    split_and!; try done. lia.
Qed.

Lemma slen_0 s : slen s = 0 -> s = "".
Proof. destruct s; [done | ]. unfold slen. simpl. lia. Qed.

(** The pieces [parse] cuts a printed text into. *)
Lemma cut_printed c ip fr b :
  allDigits (String c ip) = true -> allDigits fr = true -> (b = false -> fr = "") ->
  cutAt isExp (String c ip +:+ (if b : bool then "." +:+ fr else fr)) =
    (String c ip +:+ (if b then "." +:+ fr else fr), None) /\
  cutAt isPoint (String c ip +:+ (if b then "." +:+ fr else fr)) = (String c ip, if b then Some fr else None).
Proof.
  intros Hi Hf Hb. assert (forall x, inChars "0" "9" x = true -> isExp x = false) as He by (intros; by apply digit_other).
  assert (forall x, inChars "0" "9" x = true -> isPoint x = false) as Hp by (intros; by apply digit_other).
  rewrite !cutAt_app by done. destruct b.
  - change ("." +:+ fr) with (String "." fr). simpl. by rewrite cutAt_digits, string_app_nil_r.
  - rewrite Hb by done. simpl. by rewrite string_app_nil_r.
Qed.

Lemma cutSign_String d :
  0 <= scale d -> cutSign (dec_String d) = (coef d <? 0, unsignedText d).
Proof.
  intros Hs. unfold dec_String. destruct (coef d <? 0); [done | ].
  destruct (unsignedText_spec d Hs) as (c & ip & fr & -> & Hi & _). simpl in Hi. apply andb_true_iff in Hi as [Hc _].
  rewrite string_app_cons. by apply digit_other.
Qed.

Lemma parse_String d :
  0 <= scale d ->
  parse (dec_String d) = if maxDigits <? printedDigits d then Err errLimit else checked d.
Proof.
  intros Hs. unfold parse. rewrite cutSign_String by done.
  destruct (unsignedText_spec d Hs) as (c & ip & fr & -> & Hi & Hf & Hl & Hv & Hp).
  destruct (cut_printed c ip fr (0 <? scale d) Hi Hf) as [-> ->].
  { intros Hz. apply slen_0. apply Z.ltb_ge in Hz. lia. }
  rewrite bool_decide_false by done. cbv iota beta.
  assert (default "" (if 0 <? scale d then Some fr else None) = fr) as ->.
  { destruct (Z.ltb_spec 0 (scale d)); [done | ]. symmetry. apply slen_0. lia. }
  rewrite (bool_decide_false (String c ip = "")) by done. cbn [andb parseExp rbind].
  rewrite Hi, Hf, Hp, Hv, Hl, Z.sub_0_r. cbn [andb negb]. destruct (maxDigits <? printedDigits d); [done | ].
  rewrite (proj2 (Z.ltb_ge (scale d) 0)) by done. destruct d as [k s]. simpl.
  by destruct (Z.ltb_spec k 0); [rewrite Z.abs_neq, Z.opp_involutive by lia | rewrite Z.abs_eq by lia].
Qed.

(** ** Through the builtins *)

Definition toStringFn : Builtin := info "toString" (fun d => StringVal (dec_String d)).

Lemma operand_decimal h fn x d : asDecimal h x = Some d -> operand h fn x = Ok d.
Proof. unfold operand. by intros ->. Qed.

(** Decimals round-trip through text.  [parse] reads the text [String] writes for a decimal
    within the limits back to the same coefficient and scale (trailing zeros included), or
    refuses it with the limit error exactly when it has more than [maxDigits] digits; and
    [decimal.from] of [decimal.toString] of a decimal value is a new value with the same
    payload, the heap otherwise as before. *)
Theorem decimal_text_roundtrip `{GoText} (d : dec) (h : Heap) (x : Value)
    (Hd : decOK d) (Hx : asDecimal h x = Some d) :
  parse (dec_String d) = (if maxDigits <? printedDigits d then Err errLimit else Ok d) /\
  (printedDigits d <= maxDigits ->
   exists s v, toStringFn h [x] = (Ok s, h) /\ fromFn h [s] = (Ok v, h ++ [d]) /\ asDecimal (h ++ [d]) v = Some d).
Proof.
  assert (parse (dec_String d) = (if maxDigits <? printedDigits d then Err errLimit else Ok d)) as Hp.
  { rewrite parse_String by apply Hd. by rewrite (proj1 (checked_spec d)) by (done || apply Hd). }
  split; [done | ]. intros Hle. rewrite (proj2 (Z.ltb_ge maxDigits (printedDigits d))) in Hp by done.
  do 2 eexists. split; [unfold toStringFn, info; by rewrite (operand_decimal h _ x d) | ].
  split.
  - unfold fromFn, operand. simpl. rewrite Hp. simpl. reflexivity.
  - unfold asDecimal. rewrite !bool_decide_true by done. by apply list_lookup_middle.
Qed.

(** *** The limit on a text is tighter than the limit on a decimal *)

(** A decimal of [maxDigits] places is accepted, but its text, with the zero before the point,
    has one digit too many to be read. *)
Lemma text_limit_gap :
  exists d, parse "1e-100000" = Ok d /\ decOK d /\ parse (dec_String d) = Err errLimit.
Proof.
  exists (mkDec 1 100000). split; [reflexivity | ].
  split; [repeat split; vm_compute; discriminate | ]. by rewrite parse_String.
Qed.

Lemma BitLen_upper c n : 0 < c < 2 ^ n -> BitLen c <= n.
Proof.
  intros [Hp Hlt]. unfold BitLen. destruct (Z.eqb_spec c 0); [lia | ]. rewrite Z.abs_eq by lia.
  apply Z.log2_lt_pow2 in Hlt; lia.
Qed.

Lemma pow_lt_pow a x b y k i j : 0 < b -> 0 <= a -> 0 < k -> 0 <= x -> 0 <= y -> 0 <= i -> 0 <= j ->
  a ^ x < b ^ y -> a ^ i < b ^ j -> a ^ (x * k + i) < b ^ (y * k + j).
Proof.
  intros Hb Ha Hk Hx Hy Hi Hj H1 H2. rewrite !Z.pow_add_r, !Z.pow_mul_r by nia.
  apply Z.mul_lt_mono_nonneg; [by do 2 apply Z.pow_nonneg | | by apply Z.pow_nonneg | done].
  apply Z.pow_lt_mono_l; [done | ]. split; [by apply Z.pow_nonneg | done].
Qed.

(** The limit on a coefficient counts bits: one of 100,003 digits passes. *)
Lemma limit_counts_bits : checked (mkDec (10 ^ 100002) 0) = Ok (mkDec (10 ^ 100002) 0).
Proof.
  apply checked_spec; [done | ]. split; [done | ]. change maxBits with 332200. apply BitLen_upper.
  split; [by apply Z.pow_pos_nonneg | ].
  assert (100002 = 643 * 155 + 337) as -> by reflexivity.
  assert (332200 = 2136 * 155 + 1120) as -> by reflexivity.
  apply pow_lt_pow; by vm_compute.
Qed.

Lemma decimal_text_roundtrip_witness :
  parse (dec_String (mkDec (-1050) 3)) = Ok (mkDec (-1050) 3) /\ dec_String (mkDec (-1050) 3) = "-1.050".
Proof.
  split; [ | reflexivity].
  refine (proj1 (@decimal_text_roundtrip (Build_GoText (fun _ => "") (fun s => s) (fun _ => "") (fun _ _ => None))
    (mkDec (-1050) 3) [mkDec (-1050) 3] (VObject "decimal" "Decimal" (Some (0%nat, None))) _ eq_refl)).
  repeat split; vm_compute; discriminate.
Defined.
