(* ===== verification/Doctree.v ===== *)
(** * The compact document tree (internal/lib/doctree/node.go, edit.go)

    The node tree behind the opaque values of json, toml and yaml: nodes, containers with
    their sorted key index, height and expanded size, lookup, equality, JSON Pointer
    addressing and the non-mutating write verbs.  Containers are values here; the one place
    where Go writes into a shared backing array ([listAppend]) has its own model in DocTail.
    The pointer comparison that shortcuts [Equal] is the parameter [same].  [maxInt] is that
    of a 64-bit build. *)

From Stdlib Require Import Ascii.
From S2P Require Import Prelude GoInt Float64 GoSort Utf8 Limits Types Value.
Open Scope string_scope.
Open Scope list_scope.
Open Scope Z_scope.
Open Scope go_scope.

Definition derr {A} (fmt : string) (args : list fmtarg) : result message A := Err (Sprintf fmt args).

Module Kind.
Inductive t := KindNull | KindBool | KindInt | KindFloat | KindString | KindBytes | KindDatetime | KindList | KindMap.
End Kind.

(** ** Nodes *)

Record container (N : Type) := mkContainer {
  elems : list N;
  keys : list string;
  order : option (list nat);
  height : Z;
  size : Z }.
Arguments mkContainer {N}.
Arguments elems {N}.
Arguments keys {N}.
Arguments order {N}.
Arguments height {N}.
Arguments size {N}.

#[local] Unset Elimination Schemes.
Inductive Node :=
  | NNull
  | NBool (b : bool)
  | NInt (n : Z)
  | NFloat (f : float64)
  | NString (s : string)
  | NBytes (s : string)
  | NDatetime (text : string) (form : Z)
  | NList (c : container Node)
  | NMap (c : container Node).
#[local] Set Elimination Schemes.

Definition Null : Node := NNull.

Definition kind (n : Node) : Kind.t :=
  match n with
  | NNull => Kind.KindNull
  | NBool _ => Kind.KindBool
  | NInt _ => Kind.KindInt
  | NFloat _ => Kind.KindFloat
  | NString _ => Kind.KindString
  | NBytes _ => Kind.KindBytes
  | NDatetime _ _ => Kind.KindDatetime
  | NList _ => Kind.KindList
  | NMap _ => Kind.KindMap
  end.

(** The container of a list or map ([n.c]). *)
Definition cont (n : Node) : option (container Node) :=
  match n with NList c | NMap c => Some c | _ => None end.

(** *** Height and expanded size *)

Definition sizeSaturate : Z := Z.shiftl 1 62.

Definition addSize (a b : Z) : Z :=
  if (sizeSaturate <=? a) || (sizeSaturate - a <=? b) then sizeSaturate else a + b.

Definition nodeSize (n : Node) : Z := match cont n with None => 1 | Some c => size c end.

Definition Height (n : Node) : Z := match cont n with None => 0 | Some c => height c end.

Definition ExceedsDepth (n : Node) (budget : Z) : bool := budget <? Height n.

Definition measure (es : list Node) : Z * Z :=
  let h := fold_left (fun h e => match cont e with
                                 | Some c => if h <? height c then height c else h
                                 | None => h
                                 end) es 0 in
  (h + 1, fold_left (fun n e => addSize n (nodeSize e)) es 1).

Definition newContainer (es : list Node) (ks : list string) (ord : option (list nat)) : container Node :=
  let '(h, n) := measure es in mkContainer es ks ord h n.

(** *** The sorted key index *)

Definition indexThreshold : nat := 8.

Definition keyAtIndex (ks : list string) (i : nat) : string := default "" (ks !! i).

(** [sort.Slice] with distinct keys: any sort gives the one ascending order. *)
Definition buildOrder (ks : list string) : option (list nat) :=
  if (length ks <=? indexThreshold)%nat then None
  else Some (sliceStable (fun a b => String.ltb (keyAtIndex ks a) (keyAtIndex ks b)) (seq 0 (length ks))).

Definition List (es : list Node) : Node := NList (newContainer es [] None).
Definition Map (ks : list string) (es : list Node) : Node := NMap (newContainer es ks (buildOrder ks)).

Definition Len (n : Node) : nat := match cont n with None => 0%nat | Some c => length (elems c) end.

Definition IsContainer (n : Node) : bool := match n with NList _ | NMap _ => true | _ => false end.

Fixpoint scanFrom (i : nat) (ks : list string) (key : string) : option nat :=
  match ks with
  | [] => None
  | k :: ks => if bool_decide (k = key) then Some i else scanFrom (S i) ks key
  end.

(** The first position of the index whose key is not below [key]. *)
Definition lowerBound (ks : list string) (ord : list nat) (key : string) : nat :=
  Search (length ord) (fun i => match ord !! i with
                                | Some o => String.leb key (keyAtIndex ks o)
                                | None => true
                                end).

Definition Find (n : Node) (key : string) : option nat :=
  match cont n with
  | None => None
  | Some c =>
      match order c with
      | None => scanFrom 0 (keys c) key
      | Some ord =>
          match ord !! lowerBound (keys c) ord key with
          | Some o => if bool_decide (keyAtIndex (keys c) o = key) then Some o else None
          | None => None
          end
      end
  end.

Definition TypeName (n : Node) : string :=
  match kind n with
  | Kind.KindNull => "null"
  | Kind.KindBool => "bool"
  | Kind.KindInt => "int"
  | Kind.KindFloat => "float"
  | Kind.KindString => "string"
  | Kind.KindBytes => "bytes"
  | Kind.KindDatetime => "datetime"
  | Kind.KindList => "list"
  | Kind.KindMap => "map"
  end.

Definition ScalarValue (n : Node) : Value :=
  match n with
  | NBool b => BoolVal b
  | NInt n => IntVal n
  | NFloat f => FloatVal f
  | NString s => StringVal s
  | NBytes s => BytesVal (bytesOf s)
  | _ => VNull
  end.

Section Equality.
Context {NO : NativeObject}.
(** [n.c == o.c]: whether two containers are the same object. *)
Variable same : container Node -> container Node -> bool.

Fixpoint NodeEqual (n o : Node) {struct n} : bool :=
  match n, o with
  | (NInt _ | NFloat _), (NInt _ | NFloat _) => Equal (ScalarValue n) (ScalarValue o)
  | NNull, NNull => true
  | NBool a, NBool b => Bool.eqb a b
  | NString s, NString t => bool_decide (s = t)
  | NBytes s, NBytes t => bool_decide (s = t)
  | NDatetime s f, NDatetime t g => bool_decide (s = t) && (f =? g)
  | NList c, NList c' =>
      if same c c' then true
      else if negb (length (elems c) =? length (elems c'))%nat then false
      else
        (fix loop (es es' : list Node) {struct es} : bool :=
           match es, es' with
           | e :: es, e' :: es' => NodeEqual e e' && loop es es'
           | _, _ => true
           end) (elems c) (elems c')
  | NMap c, NMap c' =>
      if same c c' then true
      else if negb (length (elems c) =? length (elems c'))%nat then false
      else
        (fix loop (ks : list string) (es : list Node) {struct es} : bool :=
           match ks, es with
           | k :: ks, e :: es =>
               match Find o k with
               | Some j => match elems c' !! j with Some e' => NodeEqual e e' | None => false end
               | None => false
               end && loop ks es
           | _, _ => true
           end) (keys c) (elems c)
  | _, _ => false
  end.
End Equality.

(** ** JSON Pointer *)

(** [strings.Split(s, sep)] for a one-byte separator. *)
Fixpoint Split (sep : ascii) (s : string) : list string :=
  match s with
  | EmptyString => [""]
  | String c s =>
      if bool_decide (c = sep) then "" :: Split sep s
      else match Split sep s with
           | [] => [String c ""]
           | p :: ps => String c p :: ps
           end
  end.

(** [strings.ReplaceAll(s, ab, r)] for a two-byte pattern of distinct bytes. *)
Fixpoint ReplaceAll (a b : ascii) (r : string) (s : string) : string :=
  match s with
  | EmptyString => ""
  | String c s' =>
      match s' with
      | String d rest => if bool_decide (c = a) && bool_decide (d = b) then r +:+ ReplaceAll a b r rest
                         else String c (ReplaceAll a b r s')
      | EmptyString => String c ""
      end
  end.

Definition ParsePointer (fnName ptr : string) : result message (list string) :=
  match ptr with
  | EmptyString => Ok []
  | String "/" rest =>
      Ok (map (fun p => ReplaceAll "~" "0" "~" (ReplaceAll "~" "1" "/" p)) (Split "/" rest))
  | _ => derr "%s: JSON pointer %q must be empty or start with '/'" [AStr fnName; AStr ptr]
  end.

Definition maxInt : Z := 2 ^ 63 - 1.

Definition digitOf (c : ascii) : option Z :=
  let b := Z.of_N (N_of_ascii c) in if (48 <=? b) && (b <=? 57) then Some (b - 48) else None.

Fixpoint indexDigits (n : Z) (s : string) : option Z :=
  match s with
  | EmptyString => Some n
  | String c s =>
      match digitOf c with
      | None => None
      | Some d => if (maxInt - 9) / 10 <? n then None else indexDigits (n * 10 + d) s
      end
  end.

Definition ArrayIndex (tok : string) : option Z :=
  if bool_decide (tok = "0") then Some 0
  else
    match tok with
    | EmptyString => None
    | String c _ =>
        match digitOf c with
        | Some d => if d =? 0 then None else indexDigits 0 tok
        | None => None
        end
    end.

Definition lenZ (n : Node) : Z := Z.of_nat (Len n).

(** One step of a walk: the position of a token in a container. *)
Definition childPos (fnName : string) (n : Node) (tok : string) : result message nat :=
  match n with
  | NMap _ =>
      match Find n tok with
      | Some pos => Ok pos
      | None => derr "%s: no key %q" [AStr fnName; AStr tok]
      end
  | NList _ =>
      match ArrayIndex tok with
      | None => derr "%s: %q is not a valid list index" [AStr fnName; AStr tok]
      | Some idx =>
          if lenZ n <=? idx then
            derr "%s: list index %d out of range [0, %d)" [AStr fnName; AInt idx; AInt (lenZ n)]
          else Ok (Z.to_nat idx)
      end
  | _ => derr "%s: cannot descend into %s at %q" [AStr fnName; AStr (TypeName n); AStr tok]
  end.

Definition Elem (n : Node) (i : nat) : Node :=
  match cont n with Some c => default Null (elems c !! i) | None => Null end.

Fixpoint Walk (fnName : string) (n : Node) (tokens : list string) : result message Node :=
  match tokens with
  | [] => Ok n
  | tok :: tokens =>
      let? pos := childPos fnName n tok in
      Walk fnName (Elem n pos) tokens
  end.

Definition Resolve (fnName : string) (n : Node) (ptr : string) : result message Node :=
  let? tokens := ParsePointer fnName ptr in Walk fnName n tokens.

(** ** Limits on writes *)

Section Checks.
Context {L : Limits}.

Definition CheckDepth (fnName : string) (pathLen : Z) (v : Node) : result message unit :=
  if (MaxNestingDepth <? pathLen) || ExceedsDepth v (MaxNestingDepth - pathLen) then
    derr "%s: result nests deeper than the %d-level limit" [AStr fnName; AInt MaxNestingDepth]
  else Ok tt.

Definition CheckSize (fnName : string) (r : Node) : result message unit :=
  if MaxDecodedNodes <? nodeSize r then
    derr "%s: result expands to more than %d nodes" [AStr fnName; AInt MaxDecodedNodes]
  else Ok tt.
End Checks.

(** ** Copy-on-write helpers *)

Definition mapReplaceAt (c : container Node) (i : nat) (val : Node) : Node :=
  NMap (newContainer (<[i := val]> (elems c)) (keys c) (order c)).

Definition mapAdd (c : container Node) (key : string) (val : Node) : Node :=
  let n := length (elems c) in
  let ks := keys c ++ [key] in
  let es := elems c ++ [val] in
  let ord :=
    if (n + 1 <=? indexThreshold)%nat then None
    else
      match order c with
      | None => buildOrder ks
      | Some ord =>
          let at_ := lowerBound ks ord key in
          Some (take at_ ord ++ [n] ++ drop at_ ord)
      end in
  NMap (newContainer es ks ord).

Definition mapSet (c : container Node) (key : string) (val : Node) : Node :=
  match Find (NMap c) key with
  | Some i => mapReplaceAt c i val
  | None => mapAdd c key val
  end.

(** The index without member [i]: later members move down. *)
Definition shiftOrder (i : nat) (ord : list nat) : list nat :=
  flat_map (fun o => if (o =? i)%nat then [] else if (i <? o)%nat then [(o - 1)%nat] else [o]) ord.

Definition mapRemoveAt (c : container Node) (i : nat) : Node :=
  let n := length (elems c) in
  let ord :=
    match order c with
    | Some ord => if (indexThreshold <? n - 1)%nat then Some (shiftOrder i ord) else None
    | None => None
    end in
  NMap (newContainer (delete i (elems c)) (delete i (keys c)) ord).

Definition listReplace (c : container Node) (idx : nat) (val : Node) : Node :=
  List (<[idx := val]> (elems c)).

(** The height and size of the longer list are computed from those of the shorter one. *)
Definition listAppend (c : container Node) (val : Node) : Node :=
  let h := match cont val with Some vc => height vc + 1 | None => 1 end in
  let h := if h <? height c then height c else h in
  NList (mkContainer (elems c ++ [val]) [] None h (addSize (size c) (nodeSize val))).

Definition listInsert (c : container Node) (idx : nat) (val : Node) : Node :=
  if (idx =? length (elems c))%nat then listAppend c val
  else List (take idx (elems c) ++ [val] ++ drop idx (elems c)).

Definition listRemove (c : container Node) (idx : nat) : Node := List (delete idx (elems c)).

(** ** The spine *)

(** A container with one child replaced. *)
Definition replaceChild (n : Node) (pos : nat) (child : Node) : Node :=
  match n with
  | NMap c => mapReplaceAt c pos child
  | NList c => listReplace c pos child
  | n => n
  end.

Fixpoint editAt (fnName : string) (n : Node) (seg : string) (rest : list string)
    (op : Node -> string -> result message Node) : result message Node :=
  match rest with
  | [] => op n seg
  | seg' :: rest =>
      let? pos := childPos fnName n seg in
      let? nc := editAt fnName (Elem n pos) seg' rest op in
      Ok (replaceChild n pos nc)
  end.

Definition setOp (fnName : string) (raw : Node) (n : Node) (seg : string) : result message Node :=
  match n with
  | NMap c => Ok (mapSet c seg raw)
  | NList c =>
      match ArrayIndex seg with
      | None => derr "%s: %q is not a valid list index (use append / insert to grow a list)" [AStr fnName; AStr seg]
      | Some idx =>
          if lenZ n <=? idx then
            derr "%s: list index %d out of range [0, %d); use append / insert to grow"
              [AStr fnName; AInt idx; AInt (lenZ n)]
          else Ok (listReplace c (Z.to_nat idx) raw)
      end
  | _ => derr "%s: cannot set a member of %s" [AStr fnName; AStr (TypeName n)]
  end.

Definition Set_ (fnName : string) (n : Node) (tokens : list string) (raw : Node) : result message Node :=
  match tokens with
  | [] => Ok raw
  | seg :: rest => editAt fnName n seg rest (setOp fnName raw)
  end.

Definition insertOp (fnName : string) (raw : Node) (n : Node) (seg : string) : result message Node :=
  match n with
  | NList c =>
      if bool_decide (seg = "-") then Ok (listInsert c (Len n) raw)
      else
        match ArrayIndex seg with
        | None => derr "%s: %q is not a valid list index" [AStr fnName; AStr seg]
        | Some i =>
            if lenZ n <? i then
              derr "%s: list index %d out of range [0, %d]" [AStr fnName; AInt i; AInt (lenZ n)]
            else Ok (listInsert c (Z.to_nat i) raw)
        end
  | _ => derr "%s: expected a list, got a %s" [AStr fnName; AStr (TypeName n)]
  end.

Definition Insert_ (fnName : string) (n : Node) (tokens : list string) (raw : Node) : result message Node :=
  match tokens with
  | [] => derr "%s: pointer must end in a list index (or `-`)" [AStr fnName]
  | seg :: rest => editAt fnName n seg rest (insertOp fnName raw)
  end.

Definition removeOp (fnName : string) (n : Node) (seg : string) : result message Node :=
  match n with
  | NMap c =>
      match Find n seg with
      | None => derr "%s: no key %q" [AStr fnName; AStr seg]
      | Some pos => Ok (mapRemoveAt c pos)
      end
  | NList c =>
      match ArrayIndex seg with
      | None => derr "%s: %q is not a valid list index" [AStr fnName; AStr seg]
      | Some idx =>
          if lenZ n <=? idx then
            derr "%s: list index %d out of range [0, %d)" [AStr fnName; AInt idx; AInt (lenZ n)]
          else Ok (listRemove c (Z.to_nat idx))
      end
  | _ => derr "%s: cannot remove a member of %s" [AStr fnName; AStr (TypeName n)]
  end.

(** The callers check that the pointer is not empty. *)
Definition Remove_ (fnName : string) (n : Node) (seg : string) (rest : list string) : result message Node :=
  editAt fnName n seg rest (removeOp fnName).
