(* ===== verification/DocFacts.v ===== *)
(** * The document tree implements abstract documents

    An abstract document is a tree of scalars, lists and association lists.  [rep] is its one
    representation as a node, with index, heights and sizes; lookup, addressing and the write
    verbs are functions of the abstract document. *)

From Stdlib Require Import Sorted Permutation.
From S2P Require Import Prelude GoInt Float64 GoSort Limits Types Value Doctree.
Open Scope string_scope.
Open Scope list_scope.

(** The order on positions: [b] is not below [a]. *)
Definition posLt (ks : list string) (a b : nat) : bool := String.ltb (keyAtIndex ks a) (keyAtIndex ks b).
Definition posLe (ks : list string) (a b : nat) : Prop := posLt ks b a = false.

(** The sorted arrangement of the positions. *)
Definition sortedPositions (ks : list string) (ord : list nat) : Prop :=
  ord ≡ₚ seq 0 (length ks) /\ StronglySorted (posLe ks) ord.

Lemma posLt_asym ks a b : posLt ks a b = true -> posLt ks b a = false.
Proof.
  unfold posLt. rewrite string_ltb_spec, string_ltb_false. by intros ->.
Qed.

Lemma posLe_trans ks a b c : posLe ks a b -> posLe ks b c -> posLe ks a c.
Proof. unfold posLe, posLt. rewrite !string_ltb_false. apply String_compare_lawful. Qed.

Lemma keyAtIndex_inj ks a b :
  NoDup ks -> (a < length ks)%nat -> (b < length ks)%nat -> keyAtIndex ks a = keyAtIndex ks b -> a = b.
Proof.
  intros Hn Ha Hb E. unfold keyAtIndex in E.
  apply lookup_lt_is_Some in Ha as [x Hx], Hb as [y Hy]. rewrite Hx, Hy in E. simpl in E. subst.
  by eapply NoDup_lookup.
Qed.

(** No two keys are tied, so the arrangement is unique. *)
Lemma sortedPositions_unique ks o1 o2 :
  NoDup ks -> sortedPositions ks o1 -> sortedPositions ks o2 -> o1 = o2.
Proof.
  intros Hn [P1 S1] [P2 S2]. apply (sorted_unique (posLe ks)); [ | by rewrite P1, P2 | done | done].
  intros a b Ha Hb H1 H2. rewrite P1, elem_of_seq in Ha, Hb.
  apply (keyAtIndex_inj ks); [done | lia | lia | ].
  apply string_compare_Eq. unfold posLe, posLt in *. rewrite string_ltb_false in H1, H2.
  rewrite (lawful_antisym _ String_compare_lawful (keyAtIndex ks a)) in H2.
  by destruct (String.compare _ _).
Qed.

Lemma buildOrder_sorted ks :
  buildOrder ks = None /\ (length ks <= indexThreshold)%nat \/
  exists ord, buildOrder ks = Some ord /\ (indexThreshold < length ks)%nat /\ sortedPositions ks ord.
Proof.
  unfold buildOrder. destruct (Nat.leb_spec (length ks) indexThreshold); [by left | right].
  eexists. split; [done | ]. split; [done | ]. split; [apply sliceStable_perm | ].
  apply (sliceStable_sorted (posLt ks) (fun _ => True)).
  - intros. by apply posLt_asym.
  - intros a b c _ _ _. apply (posLe_trans ks).
  - by apply Forall_forall.
Qed.

Lemma buildOrder_unique ks ord :
  NoDup ks -> (indexThreshold < length ks)%nat -> sortedPositions ks ord -> buildOrder ks = Some ord.
Proof.
  intros Hn Hl Hs. destruct (buildOrder_sorted ks) as [[_ H] | (o & -> & _ & Ho)]; [lia | ].
  f_equal. by apply (sortedPositions_unique ks).
Qed.

(** ** Binary search *)

Lemma sorted_lookup_le {A} (R : A -> A -> Prop) l i j x y :
  StronglySorted R l -> (i < j)%nat -> l !! i = Some x -> l !! j = Some y -> R x y.
Proof.
  intros Hs. revert i j. induction Hs as [ | a l _ IH Ha]; intros i j Hij Hi Hj; [done | ].
  destruct j as [ | j]; [lia | ]. simpl in Hj. destruct i as [ | i]; simpl in Hi.
  - injection Hi as <-. rewrite Forall_forall in Ha. apply Ha. by eapply list_elem_of_lookup_2.
  - apply (IH i j); try done. lia.
Qed.

Lemma lowerBound_spec ks ord key (f := lowerBound ks ord key) :
  StronglySorted (posLe ks) ord ->
  (f <= length ord)%nat /\
  (forall i o, (i < f)%nat -> ord !! i = Some o -> String.ltb (keyAtIndex ks o) key = true) /\
  (forall i o, (f <= i)%nat -> ord !! i = Some o -> String.ltb (keyAtIndex ks o) key = false).
Proof.
  intros Hs. unfold f, lowerBound.
  set (p := fun i => match ord !! i with Some o => String.leb key (keyAtIndex ks o) | None => true end).
  assert (forall a b, (a <= b)%nat -> p a = true -> p b = true) as Hmono.
  { intros a b Hab. unfold p. destruct (decide (a = b)) as [-> | Hne]; [done | ].
    destruct (ord !! b) as [ob | ] eqn:Eb; [ | done].
    destruct (ord !! a) as [oa | ] eqn:Ea.
    - pose proof (sorted_lookup_le _ _ a b oa ob Hs ltac:(lia) Ea Eb) as Hle.
      unfold posLe, posLt in Hle. rewrite string_ltb_false in Hle. rewrite !string_leb_notGt. intros H.
      by eapply String_compare_lawful.
    - apply lookup_ge_None in Ea. apply lookup_lt_Some in Eb. lia. }
  destruct (Search_spec (length ord) p Hmono) as (H1 & H2 & H3). split; [done | ]. split.
  - intros i o Hi Ho. specialize (H2 i Hi). unfold p in H2. rewrite Ho, string_leb_notGt in H2.
    apply not_false_iff_true. rewrite string_ltb_false. by rewrite H2.
  - intros i o Hi Ho. specialize (H3 i ltac:(split; [done | by eapply lookup_lt_Some])). unfold p in H3.
    rewrite Ho, string_leb_notGt in H3. by apply string_ltb_false.
Qed.

(** ** Lookup *)

Lemma scanFrom_spec i ks key j :
  NoDup ks -> scanFrom i ks key = Some j <-> exists t, j = (i + t)%nat /\ ks !! t = Some key.
Proof.
  revert i. induction ks as [ | k ks IH]; intros i Hn; simpl.
  { split; [done | ]. by intros (t & _ & H). }
  apply NoDup_cons in Hn as [Hk Hn]. case_bool_decide as E.
  - subst. split.
    + intros [= <-]. exists 0%nat. split; [lia | done].
    + intros ([ | t] & -> & Ht); [f_equal; lia | ]. exfalso. apply Hk. by eapply list_elem_of_lookup_2.
  - rewrite IH by done. split.
    + intros (t & -> & Ht). exists (S t). split; [lia | done].
    + intros ([ | t] & -> & Ht); [simpl in Ht; congruence | ]. exists t. split; [lia | done].
Qed.

Lemma keyAtIndex_lookup ks i k : ks !! i = Some k -> keyAtIndex ks i = k.
Proof. unfold keyAtIndex. by intros ->. Qed.

Lemma positions_lt ks ord i o : sortedPositions ks ord -> ord !! i = Some o -> (o < length ks)%nat.
Proof. intros [Hp _] Hi. apply list_elem_of_lookup_2 in Hi. rewrite Hp, elem_of_seq in Hi. lia. Qed.

(** The binary search in the index finds the key at the position the scan finds. *)
Lemma Find_scan c key :
  NoDup (keys c) -> order c = buildOrder (keys c) -> Find (NMap c) key = scanFrom 0 (keys c) key.
Proof.
  intros Hn Ho. unfold Find. simpl. rewrite Ho.
  destruct (buildOrder_sorted (keys c)) as [[-> _] | (ord & -> & _ & Hs)]; [done | ].
  set (ks := keys c) in *. destruct (lowerBound_spec ks ord key (proj2 Hs)) as (_ & Hlo & Hhi).
  set (f := lowerBound ks ord key) in *.
  destruct (scanFrom 0 ks key) as [j | ] eqn:Es.
  - apply scanFrom_spec in Es as (t & -> & Ht); [ | done]. simpl.
    assert (t ∈ ord) as Hin by (rewrite (proj1 Hs), elem_of_seq; apply lookup_lt_Some in Ht; lia).
    apply list_elem_of_lookup_1 in Hin as [i Hi]. pose proof (keyAtIndex_lookup _ _ _ Ht) as Ek.
    assert (f <= i)%nat as Hfi.
    { destruct (Nat.le_gt_cases f i); [done | ]. pose proof (Hlo i t ltac:(lia) Hi) as H'. rewrite Ek in H'.
      apply string_ltb_spec in H'. assert (String.compare key key = Eq) by (by apply string_compare_Eq). congruence. }
    assert (exists o, ord !! f = Some o) as [o Ho'].
    { apply lookup_lt_is_Some. apply lookup_lt_Some in Hi. lia. }
    rewrite Ho'. assert (keyAtIndex ks o = key) as Eo.
    { destruct (decide (f = i)) as [-> | Hne]; [congruence | ].
      pose proof (sorted_lookup_le _ _ f i o t (proj2 Hs) ltac:(lia) Ho' Hi) as H1. unfold posLe, posLt in H1.
      rewrite Ek, string_ltb_false in H1. pose proof (Hhi f o ltac:(lia) Ho') as H2. rewrite string_ltb_false in H2.
      rewrite (lawful_antisym _ String_compare_lawful (keyAtIndex ks o) key) in H2.
      apply string_compare_Eq. by destruct (String.compare _ _). }
    rewrite bool_decide_true by done. f_equal. apply (keyAtIndex_inj ks); [done | by eapply positions_lt | | congruence].
    by eapply lookup_lt_Some.
  - destruct (ord !! f) as [o | ] eqn:Ef; [ | done]. rewrite bool_decide_false; [done | ]. intros Eo.
    pose proof (positions_lt ks ord f o Hs Ef) as Hlt. apply lookup_lt_is_Some in Hlt as [k Hk].
    rewrite (keyAtIndex_lookup _ _ _ Hk) in Eo. subst k.
    assert (scanFrom 0 ks key = Some o) by (apply scanFrom_spec; [done | by exists o]). congruence.
Qed.

(** ** Keeping the index *)

Lemma StronglySorted_ext {A} (R R' : A -> A -> Prop) l :
  (forall a b, a ∈ l -> b ∈ l -> R a b -> R' a b) -> StronglySorted R l -> StronglySorted R' l.
Proof.
  intros H Hs. induction Hs as [ | a l Hs IH Ha]; constructor.
  - apply IH. intros x y Hx Hy. apply H; by right.
  - rewrite Forall_forall in *. intros x Hx. apply H; [by left | by right | by apply Ha].
Qed.

Lemma StronglySorted_app_2 {A} (R : A -> A -> Prop) l1 l2 :
  StronglySorted R l1 -> StronglySorted R l2 -> (forall a b, a ∈ l1 -> b ∈ l2 -> R a b) -> StronglySorted R (l1 ++ l2).
Proof.
  intros H1 H2 H. induction H1 as [ | a l1 _ IH Ha]; [done | ]. simpl. constructor.
  - apply IH. intros x y Hx Hy. apply H; [by right | done].
  - apply Forall_app. split; [done | ]. apply Forall_forall. intros y Hy. apply H; [by left | done].
Qed.

Lemma StronglySorted_take_drop {A} (R : A -> A -> Prop) l i :
  StronglySorted R l -> StronglySorted R (take i l) /\ StronglySorted R (drop i l).
Proof.
  intros Hs. revert i. induction Hs as [ | a l Hs IH Ha]; intros [ | i]; simpl; try (split; by constructor).
  destruct (IH i) as [H1 H2]. split; [ | done]. constructor; [done | ].
  rewrite Forall_forall in *. intros x Hx. apply Ha. rewrite <- (take_drop i l). apply elem_of_app. by left.
Qed.

Lemma keyAtIndex_app ks key o : (o < length ks)%nat -> keyAtIndex (ks ++ [key]) o = keyAtIndex ks o.
Proof. intros. unfold keyAtIndex. by rewrite lookup_app_l. Qed.

Lemma keyAtIndex_last ks key : keyAtIndex (ks ++ [key]) (length ks) = key.
Proof. unfold keyAtIndex. by rewrite list_lookup_middle. Qed.

(** Inserting the new member at its place keeps the index sorted. *)
Lemma insert_position ks ord key :
  key ∉ ks -> sortedPositions ks ord ->
  let at_ := lowerBound (ks ++ [key]) ord key in
  sortedPositions (ks ++ [key]) (take at_ ord ++ [length ks] ++ drop at_ ord).
Proof.
  intros Hk [Hp Hs] at_.
  assert (forall o, o ∈ ord -> (o < length ks)%nat) as Hlt by (intros o Ho; rewrite Hp, elem_of_seq in Ho; lia).
  assert (StronglySorted (posLe (ks ++ [key])) ord) as Hs'.
  { eapply StronglySorted_ext; [ | exact Hs]. intros a b Ha Hb. unfold posLe, posLt.
    by rewrite !keyAtIndex_app by auto. }
  destruct (lowerBound_spec (ks ++ [key]) ord key Hs') as (_ & Hlo & Hhi). fold at_ in Hlo, Hhi. split.
  - rewrite length_app. simpl. rewrite Nat.add_1_r, seq_S. simpl.
    rewrite (Permutation_app_comm (seq 0 (length ks)) [length ks]), <- Hp. simpl.
    rewrite <- Permutation_middle. by rewrite take_drop.
  - destruct (StronglySorted_take_drop _ _ at_ Hs') as [H1 H2]. apply StronglySorted_app_2; [done | | ].
    + apply (StronglySorted_app_2 _ [length ks]); [by repeat constructor | done | ].
      intros a b ->%list_elem_of_singleton Hb. apply list_elem_of_lookup_1 in Hb as [i Hi]. rewrite lookup_drop in Hi.
      unfold posLe, posLt. rewrite keyAtIndex_last. by apply (Hhi (at_ + i)%nat); [lia | ].
    + intros a b Ha Hb. apply list_elem_of_lookup_1 in Ha as [i Hi].
      apply lookup_take_Some in Hi as [Hi Hia]. pose proof (Hlo i a Hia Hi) as Hak.
      apply elem_of_app in Hb as [->%list_elem_of_singleton | Hb].
      * unfold posLe, posLt. rewrite keyAtIndex_last. by apply (posLt_asym [keyAtIndex (ks ++ [key]) a; key] 0 1).
      * apply list_elem_of_lookup_1 in Hb as [j Hj]. rewrite lookup_drop in Hj.
        apply (sorted_lookup_le _ ord i (at_ + j)%nat); [done | lia | done | done].
Qed.

(** *** Removing a member *)

Lemma elem_of_shiftOrder i ord o :
  o ∈ shiftOrder i ord <-> exists o', o' ∈ ord /\ o' <> i /\ o = if (i <? o')%nat then (o' - 1)%nat else o'.
Proof.
  unfold shiftOrder. rewrite list_elem_of_In, in_flat_map. setoid_rewrite <- list_elem_of_In.
  apply exist_proper. intros o'. split; intros [Ho' H].
  - destruct (Nat.eqb_spec o' i), (Nat.ltb_spec i o'); apply list_elem_of_In in H; try done;
      destruct H as [<- | []]; auto.
  - destruct H as [Hne ->]. split; [done | ]. apply list_elem_of_In.
    destruct (Nat.eqb_spec o' i), (Nat.ltb_spec i o'); try done; by left.
Qed.

Lemma keyAtIndex_delete ks i o :
  o <> i -> keyAtIndex (delete i ks) (if (i <? o)%nat then (o - 1)%nat else o) = keyAtIndex ks o.
Proof.
  intros Hne. unfold keyAtIndex. f_equal. destruct (Nat.ltb_spec i o).
  - rewrite list_lookup_delete_ge by lia. f_equal. lia.
  - apply list_lookup_delete_lt. lia.
Qed.

Lemma shiftOrder_sorted i ks ord :
  StronglySorted (posLe ks) ord -> StronglySorted (posLe (delete i ks)) (shiftOrder i ord).
Proof.
  intros Hs. induction Hs as [ | a ord Hs IH Ha]; [constructor | ].
  change (shiftOrder i (a :: ord)) with
    ((if (a =? i)%nat then [] else if (i <? a)%nat then [(a - 1)%nat] else [a]) ++ shiftOrder i ord).
  destruct (Nat.eqb_spec a i) as [ | Hne]; [done | ].
  assert (forall x, Forall (posLe (delete i ks) x) (shiftOrder i ord) ->
    StronglySorted (posLe (delete i ks)) ([x] ++ shiftOrder i ord)) as Hcons by (intros; by constructor).
  assert (Forall (posLe (delete i ks) (if (i <? a)%nat then (a - 1)%nat else a)) (shiftOrder i ord)) as HF.
  { apply Forall_forall. intros o (o' & Ho' & Hne' & ->)%elem_of_shiftOrder. unfold posLe, posLt.
    rewrite !keyAtIndex_delete by done. rewrite Forall_forall in Ha. by apply Ha. }
  destruct (i <? a)%nat; by apply Hcons.
Qed.

Lemma shiftOrder_seq i s n :
  (s <= i < s + n)%nat -> shiftOrder i (seq s n) = seq s (n - 1).
Proof.
  revert s. induction n as [ | n IH]; intros s Hi; [lia | ].
  change (shiftOrder i (seq s (S n))) with
    ((if (s =? i)%nat then [] else if (i <? s)%nat then [(s - 1)%nat] else [s]) ++ shiftOrder i (seq (S s) n)).
  destruct (Nat.eqb_spec s i) as [-> | Hne].
  - simpl. rewrite Nat.sub_0_r. clear IH Hi. assert (forall m t, (i <= t)%nat -> shiftOrder i (seq (S t) m) = seq t m) as H.
    { induction m as [ | m IHm]; intros t Ht; [done | ].
      change (shiftOrder i (seq (S t) (S m))) with
        ((if (S t =? i)%nat then [] else if (i <? S t)%nat then [(S t - 1)%nat] else [S t]) ++ shiftOrder i (seq (S (S t)) m)).
      destruct (Nat.eqb_spec (S t) i); [lia | ]. destruct (Nat.ltb_spec i (S t)); [ | lia].
      rewrite IHm by lia. simpl. by rewrite Nat.sub_0_r. }
    apply H. lia.
  - destruct (Nat.ltb_spec i s); [lia | ]. rewrite IH by lia. destruct n as [ | n]; [lia | ].
    simpl. by rewrite !Nat.sub_0_r.
Qed.

Lemma remove_position ks ord i :
  (i < length ks)%nat -> sortedPositions ks ord -> sortedPositions (delete i ks) (shiftOrder i ord).
Proof.
  intros Hi [Hp Hs]. split; [ | by apply shiftOrder_sorted].
  apply lookup_lt_is_Some in Hi as [k Hk]. rewrite length_delete by (by exists k).
  rewrite <- (shiftOrder_seq i) by (apply lookup_lt_Some in Hk; lia).
  unfold shiftOrder. by rewrite Hp.
Qed.

(** ** The index the writes leave is the one of the new keys *)

Lemma mapAdd_order c key val :
  NoDup (keys c) -> key ∉ keys c -> length (keys c) = length (elems c) -> order c = buildOrder (keys c) ->
  mapAdd c key val = Map (keys c ++ [key]) (elems c ++ [val]).
Proof.
  intros Hn Hk Hl Ho. unfold mapAdd, Map. do 2 f_equal. rewrite Ho, <- Hl.
  assert (NoDup (keys c ++ [key])) as Hn'.
  { apply NoDup_app. split; [done | ]. split; [ | apply NoDup_singleton]. by intros x Hx ->%list_elem_of_singleton. }
  destruct (Nat.leb_spec (length (keys c) + 1) indexThreshold) as [Hle | Hgt].
  - unfold buildOrder. rewrite length_app. simpl. by destruct (Nat.leb_spec (length (keys c) + 1) indexThreshold); [ | lia].
  - destruct (buildOrder_sorted (keys c)) as [[-> _] | (ord & -> & _ & Hs)]; [done | ].
    symmetry. apply buildOrder_unique; [done | rewrite length_app; simpl; lia | by apply insert_position].
Qed.

Lemma mapRemoveAt_order c i :
  NoDup (keys c) -> (i < length (keys c))%nat -> length (keys c) = length (elems c) -> order c = buildOrder (keys c) ->
  mapRemoveAt c i = Map (delete i (keys c)) (delete i (elems c)).
Proof.
  intros Hn Hi Hl Ho. unfold mapRemoveAt, Map. do 2 f_equal. rewrite Ho, <- Hl.
  assert (length (delete i (keys c)) = (length (keys c) - 1)%nat) as Hld
    by (apply length_delete; by apply lookup_lt_is_Some).
  assert (NoDup (delete i (keys c))) as Hnd by (eapply sublist_NoDup; [exact Hn | apply sublist_delete]).
  destruct (buildOrder_sorted (keys c)) as [[-> Hle] | (ord & -> & _ & Hs)].
  - unfold buildOrder. destruct (Nat.leb_spec (length (delete i (keys c))) indexThreshold); [done | lia].
  - destruct (Nat.ltb_spec indexThreshold (length (keys c) - 1)).
    + symmetry. apply buildOrder_unique; [done | lia | by apply remove_position].
    + unfold buildOrder. destruct (Nat.leb_spec (length (delete i (keys c))) indexThreshold); [done | lia].
Qed.

Open Scope string_scope.
Open Scope list_scope.
Open Scope Z_scope.

(** ** Abstract documents *)

#[local] Unset Elimination Schemes.
Inductive tree :=
  | TNull
  | TBool (b : bool)
  | TInt (n : Z)
  | TFloat (f : float64)
  | TString (s : string)
  | TBytes (s : string)
  | TDatetime (text : string) (form : Z)
  | TList (l : list tree)
  | TMap (l : list (string * tree)).
#[local] Set Elimination Schemes.

Lemma tree_ind (P : tree -> Prop) :
  P TNull -> (forall b, P (TBool b)) -> (forall n, P (TInt n)) -> (forall f, P (TFloat f)) ->
  (forall s, P (TString s)) -> (forall s, P (TBytes s)) -> (forall s f, P (TDatetime s f)) ->
  (forall l, Forall P l -> P (TList l)) -> (forall l, Forall (fun e => P (snd e)) l -> P (TMap l)) ->
  forall t, P t.
Proof.
  intros H1 H2 H3 H4 H5 H6 H7 Hl Hm. fix IH 1. intros [ | | | | | | | l | l];
    [apply H1 | apply H2 | apply H3 | apply H4 | apply H5 | apply H6 | apply H7 | | ].
  - apply Hl. induction l as [ | t l IHl]; constructor; [apply IH | exact IHl].
  - apply Hm. induction l as [ | [k t] l IHl]; constructor; [apply IH | exact IHl].
Qed.

Fixpoint rep (t : tree) : Node :=
  match t with
  | TNull => NNull
  | TBool b => NBool b
  | TInt n => NInt n
  | TFloat f => NFloat f
  | TString s => NString s
  | TBytes s => NBytes s
  | TDatetime s f => NDatetime s f
  | TList l => List (map rep l)
  | TMap l => Map (map fst l) (map (fun e => rep (snd e)) l)
  end.

(** No map has a key twice. *)
Fixpoint wfTree (t : tree) : Prop :=
  match t with
  | TList l => foldr (fun t P => wfTree t /\ P) True l
  | TMap l => NoDup (map fst l) /\ foldr (fun e P => wfTree (snd e) /\ P) True l
  | _ => True
  end.

(** The children, in document order, and a child replaced. *)
Definition children (t : tree) : list tree :=
  match t with TList l => l | TMap l => map snd l | _ => [] end.

Definition putChild (t : tree) (i : nat) (u : tree) : tree :=
  match t with
  | TList l => TList (<[i := u]> l)
  | TMap l => TMap (alter (fun e => (fst e, u)) i l)
  | t => t
  end.

Lemma foldr_Forall {A} (P : A -> Prop) l : foldr (fun x Q => P x /\ Q) True l <-> Forall P l.
Proof. induction l as [ | x l IH]; simpl; [by split; [constructor | ] | ]. by rewrite Forall_cons, IH. Qed.

Lemma wfTree_children t : wfTree t -> Forall wfTree (children t).
Proof.
  destruct t; simpl; try constructor.
  - by rewrite foldr_Forall.
  - intros [_ H]. apply Forall_map. by apply (foldr_Forall (fun e => wfTree (snd e))).
Qed.

(** ** Measures *)

Fixpoint depth (t : tree) : Z :=
  match t with
  | TList l => 1 + foldr (fun t h => Z.max (depth t) h) 0 l
  | TMap l => 1 + foldr (fun e h => Z.max (depth (snd e)) h) 0 l
  | _ => 0
  end.

Fixpoint count (t : tree) : Z :=
  match t with
  | TList l => 1 + foldr (fun t n => count t + n) 0 l
  | TMap l => 1 + foldr (fun e n => count (snd e) + n) 0 l
  | _ => 1
  end.

Lemma treeCount_pos t : 1 <= count t.
Proof.
  induction t as [ | | | | | | | l IH | l IH] using tree_ind; simpl; try lia.
  - assert (0 <= foldr (fun t n => count t + n) 0 l); [ | lia]. induction IH; simpl; lia.
  - assert (0 <= foldr (fun e n => count (snd e) + n) 0 l); [ | lia]. induction IH; simpl; lia.
Qed.

Lemma measure_height es :
  fst (measure es) = 1 + foldr (fun e h => Z.max (Height e) h) 0 es.
Proof.
  unfold measure. simpl. rewrite Z.add_comm. f_equal.
  assert (forall a, 0 <= a -> fold_left (fun h e => match cont e with
      | Some c => if h <? height c then height c else h | None => h end) es a =
    Z.max a (foldr (fun e h => Z.max (Height e) h) 0 es)) as H.
  2: { rewrite H by done. apply Z.max_r. clear H. induction es as [ | e es IH]; simpl; lia. }
  induction es as [ | e es IH]; intros a Ha; simpl; [lia | ]. unfold Height at 1.
  destruct (cont e) as [c | ]; [destruct (Z.ltb_spec a (height c)) | ]; rewrite IH by lia; lia.
Qed.

(** Expanded sizes saturate. *)
Lemma addSize_min a b : 0 <= a -> 0 <= b -> addSize (Z.min a sizeSaturate) (Z.min b sizeSaturate) = Z.min (a + b) sizeSaturate.
Proof.
  intros. unfold addSize. change sizeSaturate with (2 ^ 62).
  destruct (Z.leb_spec (2 ^ 62) (Z.min a (2 ^ 62))), (Z.leb_spec (2 ^ 62 - Z.min a (2 ^ 62)) (Z.min b (2 ^ 62))); simpl; lia.
Qed.

Lemma measure_size es ns :
  Forall2 (fun e n => nodeSize e = Z.min n sizeSaturate /\ 0 <= n) es ns ->
  snd (measure es) = Z.min (1 + foldr Z.add 0 ns) sizeSaturate.
Proof.
  intros H. unfold measure. simpl.
  assert (forall a, 0 <= a -> fold_left (fun n e => addSize n (nodeSize e)) es (Z.min a sizeSaturate) =
    Z.min (a + foldr Z.add 0 ns) sizeSaturate) as H'; [ | by apply (H' 1)].
  induction H as [ | e n es ns [He Hn] _ IH]; intros a Ha; simpl; [f_equal; lia | ].
  rewrite He, addSize_min, IH by lia. f_equal. lia.
Qed.

Lemma newContainer_fields es ks ord :
  newContainer es ks ord = mkContainer es ks ord (fst (measure es)) (snd (measure es)).
Proof. unfold newContainer. by destruct (measure es). Qed.

Lemma Height_List es : Height (List es) = fst (measure es).
Proof. unfold List. by rewrite newContainer_fields. Qed.

Lemma Height_Map ks es : Height (Map ks es) = fst (measure es).
Proof. unfold Map. by rewrite newContainer_fields. Qed.

Lemma nodeSize_List es : nodeSize (List es) = snd (measure es).
Proof. unfold List. by rewrite newContainer_fields. Qed.

Lemma nodeSize_Map ks es : nodeSize (Map ks es) = snd (measure es).
Proof. unfold Map. by rewrite newContainer_fields. Qed.

(** A node carries the depth and the (saturated) number of nodes of its document. *)
Lemma rep_measures t : Height (rep t) = depth t /\ nodeSize (rep t) = Z.min (count t) sizeSaturate.
Proof.
  induction t as [ | | | | | | | l IH | l IH] using tree_ind; cbn [rep]; try done.
  - rewrite Height_List, nodeSize_List, measure_height. split.
    + cbn [depth]. f_equal. induction IH as [ | t l [Ht _] _ IHl]; simpl; [done | by rewrite Ht, IHl].
    + rewrite (measure_size _ (map count l)).
      * cbn [count]. do 2 f_equal. clear IH. induction l as [ | t l IHl]; simpl; [done | by rewrite IHl].
      * induction IH as [ | t l [_ Ht] _ IHl]; simpl; constructor; [ | done]. split; [done | ]. pose proof (treeCount_pos t). lia.
  - rewrite Height_Map, nodeSize_Map, measure_height. split.
    + cbn [depth]. f_equal. induction IH as [ | [k t] l [Ht _] _ IHl]; simpl in *; [done | by rewrite Ht, IHl].
    + rewrite (measure_size _ (map (fun e => count (snd e)) l)).
      * cbn [count]. do 2 f_equal. clear IH. induction l as [ | t l IHl]; simpl; [done | by rewrite IHl].
      * induction IH as [ | [k t] l [_ Ht] _ IHl]; simpl in *; constructor; [ | done].
        split; [done | ]. pose proof (treeCount_pos t). lia.
Qed.

(** ** Addressing and editing, abstractly *)

Definition childIndex (t : tree) (tok : string) : option nat :=
  match t with
  | TMap l => scanFrom 0 (map fst l) tok
  | TList l =>
      i ← ArrayIndex tok;
      if i <? Z.of_nat (length l) then Some (Z.to_nat i) else None
  | _ => None
  end.

Fixpoint treeAt (t : tree) (tokens : list string) : option tree :=
  match tokens with
  | [] => Some t
  | tok :: tokens => i ← childIndex t tok; u ← children t !! i; treeAt u tokens
  end.

(** [op] applied at the container the last token addresses a member of. *)
Fixpoint editTree (t : tree) (seg : string) (rest : list string) (op : tree -> string -> option tree) : option tree :=
  match rest with
  | [] => op t seg
  | seg' :: rest =>
      i ← childIndex t seg; u ← children t !! i; u' ← editTree u seg' rest op; Some (putChild t i u')
  end.

Definition setTree (v t : tree) (seg : string) : option tree :=
  match t with
  | TMap l =>
      match childIndex t seg with
      | Some i => Some (putChild t i v)
      | None => Some (TMap (l ++ [(seg, v)]))
      end
  | _ => i ← childIndex t seg; Some (putChild t i v)
  end.

Definition insertTree (v t : tree) (seg : string) : option tree :=
  match t with
  | TList l =>
      if bool_decide (seg = "-") then Some (TList (l ++ [v]))
      else
        i ← ArrayIndex seg;
        if i <=? Z.of_nat (length l) then Some (TList (take (Z.to_nat i) l ++ [v] ++ drop (Z.to_nat i) l)) else None
  | _ => None
  end.

Definition removeTree (t : tree) (seg : string) : option tree :=
  i ← childIndex t seg;
  match t with
  | TMap l => Some (TMap (delete i l))
  | TList l => Some (TList (delete i l))
  | _ => None
  end.

(** The value of a result. *)
Definition okOf {E A} (r : result E A) : option A := match r with Ok a => Some a | Err _ => None end.

(** ** The representation of children *)

Lemma elems_rep t : from_option elems [] (cont (rep t)) = map rep (children t).
Proof.
  destruct t as [ | | | | | | | l | l]; try done; cbn [rep children]; unfold List, Map; rewrite newContainer_fields; simpl;
    by rewrite ?map_map.
Qed.

Lemma Elem_rep t i u : children t !! i = Some u -> Elem (rep t) i = rep u.
Proof.
  intros H. unfold Elem. pose proof (elems_rep t) as E. destruct (cont (rep t)) as [c | ]; simpl in E.
  - rewrite E, list_lookup_fmap, H. done.
  - destruct (children t); [done | discriminate E].
Qed.

Lemma Len_rep t : Len (rep t) = length (children t).
Proof.
  unfold Len. pose proof (elems_rep t) as E. destruct (cont (rep t)) as [c | ]; simpl in E.
  - by rewrite E, length_map.
  - by destruct (children t).
Qed.

Lemma ArrayIndex_nonneg tok i : ArrayIndex tok = Some i -> 0 <= i.
Proof.
  unfold ArrayIndex. case_bool_decide; [by intros [= <-] | ]. destruct tok as [ | c s]; [done | ].
  destruct (digitOf c) as [d | ]; [ | done]. destruct (d =? 0); [done | ].
  assert (forall s n i, 0 <= n -> indexDigits n s = Some i -> 0 <= i) as Hd; [ | by apply Hd].
  clear. induction s as [ | c s IH]; intros n i Hn; simpl; [by intros [= <-] | ].
  unfold digitOf. destruct (_ && _) eqn:E; [ | done]. b2p. destruct (_ <? n); [done | ]. apply IH. lia.
Qed.

Lemma childIndex_lt t tok i : childIndex t tok = Some i -> (i < length (children t))%nat.
Proof.
  destruct t as [ | | | | | | | l | l]; simpl; try done.
  - destruct (ArrayIndex tok) as [j | ] eqn:E; simpl; [ | done]. apply ArrayIndex_nonneg in E.
    destruct (Z.ltb_spec j (Z.of_nat (length l))); [ | done]. intros [= <-]. lia.
  - rewrite length_map. intros H. assert (forall ks j, scanFrom j ks tok = Some i -> (i < j + length ks)%nat) as Hs.
    { clear. induction ks as [ | k ks IH]; intros j; simpl; [done | ]. case_bool_decide; [intros [= ->]; lia | ].
      intros Hj%IH. lia. }
    apply Hs in H. by rewrite length_map in H.
Qed.

Lemma childPos_rep fn t tok : wfTree t -> okOf (childPos fn (rep t) tok) = childIndex t tok.
Proof.
  destruct t as [ | | | | | | | l | l]; try done; intros Hw.
  - cbn [rep]. unfold childPos, List. cbn [childIndex]. destruct (ArrayIndex tok) as [i | ]; [ | done]. simpl.
    change (lenZ (NList (newContainer (map rep l) [] None))) with (Z.of_nat (Len (rep (TList l)))).
    rewrite Len_rep. simpl. destruct (Z.leb_spec (Z.of_nat (length l)) i), (Z.ltb_spec i (Z.of_nat (length l))); try lia; done.
  - destruct Hw as [Hn _]. cbn [rep]. unfold childPos, Map. rewrite newContainer_fields, Find_scan by done.
    cbn [keys childIndex]. by destruct (scanFrom 0 (map fst l) tok).
Qed.

(** One step down. *)
Lemma child_wf t i u : wfTree t -> children t !! i = Some u -> wfTree u.
Proof. intros H Hi. apply wfTree_children in H. by eapply (Forall_lookup_1 _ _ _ _ H). Qed.

Lemma Walk_rep fn t tokens : wfTree t -> okOf (Walk fn (rep t) tokens) = rep <$> treeAt t tokens.
Proof.
  revert t. induction tokens as [ | tok tokens IH]; intros t Hw; [done | ]. cbn [Walk treeAt].
  pose proof (childPos_rep fn t tok Hw) as Hp. destruct (childPos fn (rep t) tok) as [i | e]; simpl in Hp |- *;
    rewrite <- Hp; [ | done]. simpl. symmetry in Hp. apply childIndex_lt in Hp.
  apply lookup_lt_is_Some in Hp as [u Hu]. rewrite Hu, (Elem_rep t i u) by done. simpl. apply IH. by eapply child_wf.
Qed.

(** ** Writing *)

Lemma map_alter_snd {A B} (f : A -> B) (l : list (string * A)) i u :
  map (fun e => f (snd e)) (alter (fun e => (fst e, u)) i l) = <[i := f u]> (map (fun e => f (snd e)) l).
Proof. revert i. induction l as [ | e l IH]; intros [ | i]; simpl; try done. f_equal. apply IH. Qed.

Lemma map_alter_fst {A} (l : list (string * A)) i u : map fst (alter (fun e => (fst e, u)) i l) = map fst l.
Proof. revert i. induction l as [ | e l IH]; intros [ | i]; simpl; try done. f_equal. apply IH. Qed.

Lemma map_delete {A B} (f : A -> B) (l : list A) i : map f (delete i l) = delete i (map f l).
Proof. revert i. induction l as [ | e l IH]; intros [ | i]; simpl; try done. f_equal. apply IH. Qed.

Lemma replaceChild_rep t i u : (i < length (children t))%nat -> replaceChild (rep t) i (rep u) = rep (putChild t i u).
Proof.
  intros Hi. destruct t as [ | | | | | | | l | l]; simpl in Hi; try lia; cbn [rep putChild replaceChild].
  - unfold List, replaceChild, listReplace. rewrite newContainer_fields. cbn [elems]. unfold List.
    by rewrite list_fmap_insert.
  - unfold Map, replaceChild, mapReplaceAt. rewrite newContainer_fields. cbn [elems keys order].
    by rewrite map_alter_snd, map_alter_fst.
Qed.

Lemma putChild_wf t i u : wfTree t -> wfTree u -> wfTree (putChild t i u).
Proof.
  intros Ht Hu. destruct t as [ | | | | | | | l | l]; try done; cbn [putChild wfTree] in *.
  - rewrite foldr_Forall in *. by apply Forall_insert.
  - destruct Ht as [Hn Hf]. rewrite map_alter_fst. split; [done | ].
    rewrite (foldr_Forall (fun e => wfTree (snd e))) in *. by apply Forall_alter.
Qed.

(** Appending computes the height and size of the longer list from those of the shorter. *)
Lemma listAppend_List es val : listAppend (newContainer es [] None) val = List (es ++ [val]).
Proof.
  rewrite newContainer_fields. unfold listAppend, List. rewrite newContainer_fields. cbn [elems height size].
  unfold measure. rewrite !fold_left_app. cbn [fst snd fold_left].
  set (h := fold_left _ es 0). do 2 f_equal. unfold nodeSize.
  destruct (cont val) as [c | ]; simpl.
  - destruct (Z.ltb_spec (height c + 1) (h + 1)), (Z.ltb_spec h (height c)); lia.
  - destruct (Z.ltb_spec 1 (h + 1)) as [ | Hle]; [done | ]. assert (0 <= h); [ | lia].
    subst h. clear. assert (forall a, 0 <= a -> 0 <= fold_left (fun h e => match cont e with
      | Some c => if h <? height c then height c else h | None => h end) es a) as H; [ | by apply H].
    induction es as [ | e es IH]; intros a Ha; simpl; [done | ]. apply IH.
    destruct (cont e) as [c | ]; [destruct (Z.ltb_spec a (height c)) | ]; lia.
Qed.

Lemma container_List l : exists c, rep (TList l) = NList c /\ c = newContainer (map rep l) [] None.
Proof. by eexists. Qed.

Lemma setOp_rep fn v t seg : wfTree t -> okOf (setOp fn (rep v) (rep t) seg) = rep <$> setTree v t seg.
Proof.
  intros Hw. pose proof (childPos_rep fn t seg Hw) as Hp.
  destruct t as [ | | | | | | | l | l]; try done; cbn [setTree].
  - cbn [childIndex] in *. unfold setOp, childPos in *. cbn [rep] in *. unfold List in *.
    destruct (ArrayIndex seg) as [i | ] eqn:Ei; [ | done]. simpl in Hp |- *.
    destruct (lenZ _ <=? i) eqn:El; simpl in Hp |- *; rewrite <- Hp; [done | ]. simpl. f_equal.
    apply (replaceChild_rep (TList l)). apply (childIndex_lt _ seg). cbn [childIndex]. rewrite Ei. simpl. by rewrite <- Hp.
  - destruct Hw as [Hn _]. cbn [rep]. unfold setOp, Map. cbn [okOf]. unfold mapSet.
    rewrite newContainer_fields, Find_scan by done. cbn [keys childIndex].
    destruct (scanFrom 0 (map fst l) seg) as [i | ] eqn:Es; simpl; f_equal.
    + rewrite <- newContainer_fields. apply (replaceChild_rep (TMap l)). by apply (childIndex_lt _ seg).
    + rewrite mapAdd_order; [ | done | | | done]; cbn [keys elems].
      * by rewrite !map_app.
      * intros H. apply list_elem_of_lookup_1 in H as [i Hi].
        assert (scanFrom 0 (map fst l) seg = Some i) by (apply scanFrom_spec; [done | by exists i]). congruence.
      * by rewrite !length_map.
Qed.

Lemma insertOp_rep fn v t seg : okOf (insertOp fn (rep v) (rep t) seg) = rep <$> insertTree v t seg.
Proof.
  destruct t as [ | | | | | | | l | l]; try done. cbn [rep insertTree]. unfold insertOp, List.
  change (NList (newContainer (map rep l) [] None)) with (rep (TList l)). unfold lenZ. rewrite Len_rep. cbn [children].
  assert (elems (newContainer (map rep l) [] None) = map rep l) as He by (by rewrite newContainer_fields).
  case_bool_decide; simpl.
  - f_equal. unfold listInsert. rewrite He, length_map, Nat.eqb_refl, listAppend_List. unfold List. by rewrite map_app.
  - destruct (ArrayIndex seg) as [i | ] eqn:Ei; [ | done]. apply ArrayIndex_nonneg in Ei. simpl.
    destruct (Z.ltb_spec (Z.of_nat (length l)) i), (Z.leb_spec i (Z.of_nat (length l))); try lia; [done | ]. simpl. f_equal.
    unfold listInsert. rewrite He, length_map. destruct (Nat.eqb_spec (Z.to_nat i) (length l)) as [E | E].
    + rewrite E, listAppend_List, take_ge, drop_ge by lia. by rewrite map_app.
    + unfold List. by rewrite !map_app, firstn_map, skipn_map.
Qed.

Lemma removeOp_rep fn t seg : wfTree t -> okOf (removeOp fn (rep t) seg) = rep <$> removeTree t seg.
Proof.
  intros Hw. pose proof (childPos_rep fn t seg Hw) as Hp. unfold removeTree.
  destruct t as [ | | | | | | | l | l]; try done.
  - cbn [childIndex] in *. unfold removeOp, childPos in *. cbn [rep] in *. unfold List in *.
    destruct (ArrayIndex seg) as [i | ] eqn:Ei; [ | done]. simpl in Hp |- *.
    destruct (lenZ _ <=? i) eqn:El; simpl in Hp |- *; rewrite <- Hp; [done | ]. simpl. f_equal.
    unfold listRemove. rewrite newContainer_fields. cbn [elems]. by rewrite map_delete.
  - destruct Hw as [Hn _]. cbn [childIndex]. cbn [rep]. unfold removeOp, Map.
    rewrite newContainer_fields, Find_scan by done. cbn [keys].
    destruct (scanFrom 0 (map fst l) seg) as [i | ] eqn:Es; [ | done]. simpl. f_equal.
    rewrite mapRemoveAt_order; [ | done | | | done]; cbn [keys elems].
    + by rewrite !map_delete.
    + rewrite length_map. pose proof (childIndex_lt (TMap l) seg i Es) as Hlt. cbn [children] in Hlt. by rewrite length_map in Hlt.
    + by rewrite !length_map.
Qed.

(** The spine: an operation that refines an abstract one still does at the end of a path. *)
Lemma editAt_rep fn op op' t seg rest :
  (forall u s, wfTree u -> okOf (op (rep u) s) = rep <$> op' u s) -> wfTree t ->
  okOf (editAt fn (rep t) seg rest op) = rep <$> editTree t seg rest op'.
Proof.
  intros Hop. revert t seg. induction rest as [ | seg' rest IH]; intros t seg Hw; [by apply Hop | ].
  cbn [editAt editTree]. pose proof (childPos_rep fn t seg Hw) as Hp.
  destruct (childPos fn (rep t) seg) as [i | e]; simpl in Hp |- *; rewrite <- Hp; [ | done]. simpl.
  symmetry in Hp. apply childIndex_lt in Hp as Hlt. apply lookup_lt_is_Some in Hlt as [u Hu].
  rewrite Hu, (Elem_rep t i u) by done. simpl. specialize (IH u seg' (child_wf t i u Hw Hu)).
  destruct (editAt fn (rep u) seg' rest op) as [nc | e]; simpl in IH |- *.
  - destruct (editTree u seg' rest op') as [u' | ]; [ | done]. simpl in *. injection IH as ->. f_equal.
    apply replaceChild_rep. by eapply childIndex_lt.
  - by destruct (editTree u seg' rest op').
Qed.

Lemma editTree_wf op t seg rest t' :
  (forall u s u', wfTree u -> op u s = Some u' -> wfTree u') -> wfTree t ->
  editTree t seg rest op = Some t' -> wfTree t'.
Proof.
  intros Hop. revert t seg t'. induction rest as [ | seg' rest IH]; intros t seg t' Hw; [by apply Hop | ].
  cbn [editTree]. destruct (childIndex t seg) as [i | ]; [ | done]. simpl.
  destruct (children t !! i) as [u | ] eqn:Hu; [ | done]. simpl.
  destruct (editTree u seg' rest op) as [u' | ] eqn:Eu; [ | done]. simpl. intros [= <-].
  apply putChild_wf; [done | ]. by eapply IH, Eu; eapply child_wf.
Qed.
