(* ===== verification/DocLaws.v ===== *)
(** * Laws of document writes

    On abstract documents: what a write leaves at the addressed place, what it leaves
    everywhere else, and how depth and size grow.  With the representation of DocFacts these
    are the laws of [Set], [Insert] and [Remove]. *)

From Stdlib Require Import Ascii.
From S2P Require Import Prelude GoInt Float64 GoSort Limits Types Value Doctree DocFacts.
Open Scope string_scope.
Open Scope list_scope.
Open Scope Z_scope.

(** ** Whole writes *)

Definition setAt (v t : tree) (tokens : list string) : option tree :=
  match tokens with [] => Some v | seg :: rest => editTree t seg rest (setTree v) end.

Definition insertAt (v t : tree) (tokens : list string) : option tree :=
  match tokens with [] => None | seg :: rest => editTree t seg rest (insertTree v) end.

Definition removeAt (t : tree) (tokens : list string) : option tree :=
  match tokens with [] => None | seg :: rest => editTree t seg rest removeTree end.

(** ** A list index has one token *)

Lemma digitOf_spec c d : digitOf c = Some d -> 0 <= d <= 9 /\ Z.of_N (N_of_ascii c) = d + 48.
Proof. unfold digitOf. destruct (_ && _) eqn:E; [ | done]. b2p. intros [= <-]. lia. Qed.

Lemma digitOf_inj c c' d : digitOf c = Some d -> digitOf c' = Some d -> c = c'.
Proof.
  intros [_ H]%digitOf_spec [_ H']%digitOf_spec. rewrite <- (ascii_N_embedding c), <- (ascii_N_embedding c').
  f_equal. lia.
Qed.

Lemma indexDigits_bounds s n v : 0 <= n -> indexDigits n s = Some v ->
  n * 10 ^ Z.of_nat (String.length s) <= v < (n + 1) * 10 ^ Z.of_nat (String.length s).
Proof.
  revert n. induction s as [ | c s IH]; intros n Hn; cbn [indexDigits String.length].
  - intros [= <-]. change (10 ^ Z.of_nat 0) with 1. lia.
  - destruct (digitOf c) as [d | ] eqn:Ed; [ | done]. apply digitOf_spec in Ed as [Hd _].
    destruct (_ <? n); [done | ]. intros H%IH; [ | lia].
    rewrite Nat2Z.inj_succ, Z.pow_succ_r by lia.
    assert (0 < 10 ^ Z.of_nat (String.length s)) by (apply Z.pow_pos_nonneg; lia). nia.
Qed.

Lemma indexDigits_inj s t n m v : 0 <= n -> 0 <= m -> String.length s = String.length t ->
  indexDigits n s = Some v -> indexDigits m t = Some v -> n = m /\ s = t.
Proof.
  revert t n m. induction s as [ | c s IH]; intros [ | c' t] n m Hn Hm Hl; try done; cbn [indexDigits].
  - by intros [= <-] [= <-].
  - destruct (digitOf c) as [d | ] eqn:Ed, (digitOf c') as [d' | ] eqn:Ed'; try done.
    destruct (_ <? n), (_ <? m); try done. intros H H'. injection Hl as Hl.
    pose proof (digitOf_spec _ _ Ed). pose proof (digitOf_spec _ _ Ed').
    destruct (IH t (n * 10 + d) (m * 10 + d') ltac:(lia) ltac:(lia) Hl H H') as [E ->].
    assert (n = m /\ d = d') as [-> ->] by lia. split; [done | ]. f_equal. by eapply digitOf_inj.
Qed.

Lemma ArrayIndex_inj a b i : ArrayIndex a = Some i -> ArrayIndex b = Some i -> a = b.
Proof.
  assert (forall c s d v, digitOf c = Some d -> d <> 0 -> indexDigits 0 (String c s) = Some v ->
    10 ^ Z.of_nat (String.length s) <= v < 10 ^ Z.of_nat (S (String.length s))) as Hv.
  { intros c s d v Hc Hd. cbn [indexDigits]. rewrite Hc. apply digitOf_spec in Hc as [Hc _].
    destruct (_ <? 0); [done | ]. intros H%indexDigits_bounds; [ | lia]. rewrite Nat2Z.inj_succ, Z.pow_succ_r by lia.
    assert (0 < 10 ^ Z.of_nat (String.length s)) by (apply Z.pow_pos_nonneg; lia). nia. }
  assert (forall c s d v, digitOf c = Some d -> d <> 0 -> indexDigits 0 (String c s) = Some v -> v <> 0) as H0.
  { intros c s d v Hc Hd Hi. apply (Hv c s d v) in Hi; try done.
    assert (0 < 10 ^ Z.of_nat (String.length s)) by (apply Z.pow_pos_nonneg; lia). lia. }
  unfold ArrayIndex. destruct (bool_decide_reflect (a = "0")) as [-> | ], (bool_decide_reflect (b = "0")) as [-> | ]; [done | | | ].
  - intros [= <-]. destruct b as [ | c s]; [done | ]. cbv iota beta. destruct (digitOf c) as [d | ] eqn:Ed; [ | done].
    destruct (Z.eqb_spec d 0); [done | ]. intros Hi. by apply (H0 c s d) in Hi.
  - intros Hi [= <-]. destruct a as [ | c s]; [done | ]. cbv iota beta. destruct (digitOf c) as [d | ] eqn:Ed; [ | done].
    destruct (Z.eqb_spec d 0); [done | ]. by apply (H0 c s d) in Hi.
  - destruct a as [ | c s], b as [ | c' s']; try done. cbv iota beta.
    destruct (digitOf c) as [d | ] eqn:Ed, (digitOf c') as [d' | ] eqn:Ed'; try done.
    destruct (Z.eqb_spec d 0), (Z.eqb_spec d' 0); try done. intros Hi Hi'.
    pose proof (Hv c s d i Ed ltac:(done) Hi). pose proof (Hv c' s' d' i Ed' ltac:(done) Hi').
    eapply (indexDigits_inj _ _ 0 0 i); try done. cbn [String.length].
    assert (forall x y, (x < y)%nat -> 10 ^ Z.of_nat (S x) <= 10 ^ Z.of_nat y) as Hp by (intros; apply Z.pow_le_mono_r; lia).
    destruct (Nat.lt_trichotomy (String.length s) (String.length s')) as [Hl | [-> | Hl]]; [ | done | ];
      apply Hp in Hl; lia.
Qed.

Lemma childIndex_inj t a b i : wfTree t -> childIndex t a = Some i -> childIndex t b = Some i -> a = b.
Proof.
  destruct t as [ | | | | | | | l | l]; simpl; try done; intros Hw.
  - destruct (ArrayIndex a) as [j | ] eqn:Ea, (ArrayIndex b) as [k | ] eqn:Eb; simpl; try done.
    destruct (_ <? _), (_ <? _); try done. intros [= <-] [= Hk].
    pose proof (ArrayIndex_nonneg _ _ Ea). pose proof (ArrayIndex_nonneg _ _ Eb).
    apply (ArrayIndex_inj a b j); [done | ]. rewrite Eb. f_equal. lia.
  - intros Ha Hb. apply scanFrom_spec in Ha as (j & -> & Hj); [ | apply Hw].
    apply scanFrom_spec in Hb as (k & Hk & Hk'); [ | apply Hw]. simpl in Hk. subst. congruence.
Qed.

(** ** Children after a write *)

Lemma children_put t i u : children (putChild t i u) = <[i := u]> (children t).
Proof.
  destruct t as [ | | | | | | | l | l]; try done. cbn [putChild children].
  exact (map_alter_snd (fun x => x) l i u).
Qed.

Lemma childIndex_put t i u tok : childIndex (putChild t i u) tok = childIndex t tok.
Proof.
  destruct t as [ | | | | | | | l | l]; try done; cbn [putChild childIndex]; [by rewrite length_insert | ].
  by rewrite map_alter_fst.
Qed.

Lemma scanFrom_app ks key i tok : tok <> key -> scanFrom i (ks ++ [key]) tok = scanFrom i ks tok.
Proof.
  intros H. revert i. induction ks as [ | k ks IH]; intros i; simpl; [by case_bool_decide | ]. by rewrite IH.
Qed.

Lemma scanFrom_new ks key : NoDup ks -> scanFrom 0 ks key = None -> NoDup (ks ++ [key]).
Proof.
  intros Hn Hs. apply NoDup_app. split; [done | ]. split; [ | apply NoDup_singleton].
  intros k Hk ->%list_elem_of_singleton. apply list_elem_of_lookup_1 in Hk as [i Hi].
  assert (scanFrom 0 ks key = Some i) by (apply scanFrom_spec; [done | by exists i]). congruence.
Qed.

Lemma setTree_spec v t seg t' : setTree v t seg = Some t' ->
  (exists i, childIndex t seg = Some i /\ t' = putChild t i v) \/
  (exists l, t = TMap l /\ childIndex t seg = None /\ t' = TMap (l ++ [(seg, v)])).
Proof.
  unfold setTree.
  destruct t as [ | | | | | | | l | l]; try done; destruct (childIndex _ seg) as [i | ] eqn:E; simpl; try done; intros [= <-].
  - left. by exists i.
  - left. by exists i.
  - right. by exists l.
Qed.

(** *** Well-formedness *)

Lemma setTree_wf v t seg t' : wfTree v -> wfTree t -> setTree v t seg = Some t' -> wfTree t'.
Proof.
  intros Hv Ht H. destruct (setTree_spec v t seg t' H) as [(i & _ & ->) | (l & -> & Hi & ->)].
  - by apply putChild_wf.
  - destruct Ht as [Hn Hf]. cbn [wfTree]. rewrite map_app. split; [by apply scanFrom_new | ].
    rewrite (foldr_Forall (fun e => wfTree (snd e))) in *. apply Forall_app. split; [done | ]. by constructor.
Qed.

Lemma insertTree_wf v t seg t' : wfTree v -> wfTree t -> insertTree v t seg = Some t' -> wfTree t'.
Proof.
  intros Hv Ht. destruct t as [ | | | | | | | l | l]; try done. cbn [insertTree wfTree] in *. rewrite foldr_Forall in Ht.
  case_bool_decide.
  - intros [= <-]. cbn [wfTree]. rewrite foldr_Forall. apply Forall_app. split; [done | by constructor].
  - destruct (ArrayIndex seg) as [i | ]; [ | done]. simpl. destruct (i <=? _); [ | done]. intros [= <-].
    cbn [wfTree]. rewrite foldr_Forall. apply Forall_app. split; [by apply Forall_take | ].
    constructor; [done | by apply Forall_drop].
Qed.

Lemma removeTree_wf t seg t' : wfTree t -> removeTree t seg = Some t' -> wfTree t'.
Proof.
  intros Ht. unfold removeTree. destruct (childIndex t seg) as [i | ]; [ | done]. simpl.
  destruct t as [ | | | | | | | l | l]; try done; intros [= <-]; cbn [wfTree] in *.
  - rewrite foldr_Forall in *. by apply Forall_delete.
  - destruct Ht as [Hn Hf]. rewrite map_delete. split; [by apply (sublist_NoDup _ (map fst l)), sublist_delete | ].
    rewrite (foldr_Forall (fun e => wfTree (snd e))) in *. by apply Forall_delete.
Qed.

(** ** What a write leaves *)

#[local] Arguments putChild : simpl never.
#[local] Arguments treeAt : simpl never.

Lemma treeAt_cons t tok p :
  treeAt t (tok :: p) = (i ← childIndex t tok; u ← children t !! i; treeAt u p).
Proof. done. Qed.

(** A write through a child replaces that child: what its token addresses, and what any
    other token addresses. *)
Lemma treeAt_put t i u tok p : childIndex t tok = Some i -> treeAt (putChild t i u) (tok :: p) = treeAt u p.
Proof.
  intros H. rewrite !treeAt_cons. rewrite childIndex_put, H. simpl. rewrite children_put, list_lookup_insert_eq; [done | ].
  by apply childIndex_lt in H.
Qed.

Lemma treeAt_put_other t i u tok tok' q : wfTree t -> childIndex t tok = Some i -> tok <> tok' ->
  treeAt (putChild t i u) (tok' :: q) = treeAt t (tok' :: q).
Proof.
  intros Hw H Hne. rewrite !treeAt_cons. rewrite childIndex_put. destruct (childIndex t tok') as [j | ] eqn:Ej; [ | done]. simpl.
  rewrite children_put, list_lookup_insert_ne; [done | ]. intros <-. by eapply Hne, childIndex_inj.
Qed.

(** The token added to a map. *)
Lemma treeAt_added l seg v p : wfTree (TMap l) -> childIndex (TMap l) seg = None ->
  treeAt (TMap (l ++ [(seg, v)])) (seg :: p) = treeAt v p.
Proof.
  intros [Hn _] Hs. rewrite !treeAt_cons; cbn [childIndex]. rewrite map_app. cbn [map fst].
  assert (scanFrom 0 (map fst l ++ [seg]) seg = Some (length l)) as ->.
  { apply scanFrom_spec; [by apply scanFrom_new | ]. exists (length l). split; [done | ].
    apply list_lookup_middle. by rewrite length_map. }
  simpl. rewrite map_app. cbn [map snd]. rewrite (list_lookup_middle (map snd l) [] v) by (by rewrite length_map). done.
Qed.

Lemma treeAt_added_other l seg v tok q : tok <> seg ->
  treeAt (TMap (l ++ [(seg, v)])) (tok :: q) = treeAt (TMap l) (tok :: q).
Proof.
  intros Hne. rewrite !treeAt_cons; cbn [childIndex]. rewrite map_app. cbn [map fst]. rewrite scanFrom_app by done.
  destruct (scanFrom 0 (map fst l) tok) as [j | ] eqn:Ej; [ | done]. simpl. cbn [children]. rewrite map_app.
  rewrite lookup_app_l; [done | ]. by apply (childIndex_lt (TMap l) tok j).
Qed.

(** Two paths that part at some token. *)
Inductive diverge : list string -> list string -> Prop :=
  | diverge_here a b p q : a <> b -> diverge (a :: p) (b :: q)
  | diverge_below a p q : diverge p q -> diverge (a :: p) (a :: q).

Lemma set_get v t p t' : wfTree t -> setAt v t p = Some t' -> forall q, treeAt t' (p ++ q) = treeAt v q.
Proof.
  destruct p as [ | seg rest]; cbn [setAt]; [by intros _ [= <-] | ]. revert t seg t'.
  induction rest as [ | seg' rest IH]; intros t seg t' Hw; cbn [editTree].
  - intros H q. destruct (setTree_spec v t seg t' H) as [(i & Hi & ->) | (l & -> & Hi & ->)].
    + by apply treeAt_put.
    + by apply treeAt_added.
  - destruct (childIndex t seg) as [i | ] eqn:Hi; [ | done]. simpl.
    destruct (children t !! i) as [u | ] eqn:Hu; [ | done]. simpl.
    destruct (editTree u seg' rest _) as [u' | ] eqn:Eu; [ | done]. simpl. intros [= <-] q.
    change ((seg :: seg' :: rest) ++ q) with (seg :: (seg' :: rest) ++ q). rewrite treeAt_put by done. eapply IH; [ | done]. by eapply child_wf.
Qed.

Lemma set_frame v t p t' q : wfTree t -> setAt v t p = Some t' -> diverge p q -> treeAt t' q = treeAt t q.
Proof.
  intros Hw H Hd. revert t t' Hw H. induction Hd as [a b p q Hne | a p q Hd IH]; intros t t' Hw; cbn [setAt].
  - destruct p as [ | seg' rest]; cbn [editTree].
    + intros H. destruct (setTree_spec v t a t' H) as [(i & Hi & ->) | (l & -> & Hi & ->)].
      * by apply (treeAt_put_other t i v a b).
      * by apply treeAt_added_other.
    + destruct (childIndex t a) as [i | ] eqn:Hi; [ | done]. simpl.
      destruct (children t !! i) as [u | ]; [ | done]. simpl.
      destruct (editTree u seg' rest _) as [u' | ]; [ | done]. simpl. intros [= <-].
      by apply (treeAt_put_other t i u' a b).
  - destruct p as [ | seg' rest]; [by inversion Hd | ]. cbn [editTree].
    destruct (childIndex t a) as [i | ] eqn:Hi; [ | done]. simpl.
    destruct (children t !! i) as [u | ] eqn:Hu; [ | done]. simpl.
    destruct (editTree u seg' rest _) as [u' | ] eqn:Eu; [ | done]. simpl. intros [= <-].
    rewrite treeAt_put by done. rewrite !treeAt_cons. rewrite Hi. simpl. rewrite Hu. simpl.
    apply IH; [by eapply child_wf | done].
Qed.

(** ** Depth and size of a result *)

Definition isContainer (t : tree) : bool := match t with TList _ | TMap _ => true | _ => false end.

Definition maxOf (l : list Z) : Z := foldr Z.max 0 l.
Definition sumOf (l : list Z) : Z := foldr Z.add 0 l.

Lemma depth_children t : depth t = if isContainer t then 1 + maxOf (map depth (children t)) else 0.
Proof.
  destruct t as [ | | | | | | | l | l]; try done; cbn [depth isContainer children]; f_equal;
    induction l as [ | e l IH]; simpl; try done; by rewrite IH.
Qed.

Lemma count_children t : count t = 1 + sumOf (map count (children t)).
Proof.
  destruct t as [ | | | | | | | l | l]; try done; cbn [count children]; f_equal;
    induction l as [ | e l IH]; simpl; try done; by rewrite IH.
Qed.

Lemma maxOf_le l d : 0 <= d -> maxOf l <= d <-> Forall (fun x => x <= d) l.
Proof.
  intros Hd. induction l as [ | x l IH]; simpl; [by split; [constructor | ] | ].
  rewrite Forall_cons, <- IH. lia.
Qed.

Lemma depth_nonneg t : 0 <= depth t.
Proof.
  rewrite depth_children. destruct (isContainer t); [ | done].
  assert (0 <= maxOf (map depth (children t))); [ | lia]. generalize (map depth (children t)). clear.
  induction l; simpl; lia.
Qed.

Lemma depth_le t d : 0 <= d ->
  depth t <= d <-> (isContainer t = true -> 1 <= d) /\ Forall (fun u => depth u <= d - 1) (children t).
Proof.
  intros Hd. rewrite depth_children. destruct (isContainer t) eqn:E.
  - split.
    + intros H. assert (1 <= d).
      { assert (0 <= maxOf (map depth (children t))); [ | lia]. generalize (map depth (children t)). clear. induction l; simpl; lia. }
      split; [done | ]. apply (Forall_map depth (fun x => x <= d - 1)), maxOf_le; lia.
    + intros [H1 H]. specialize (H1 eq_refl). apply (Forall_map depth (fun x => x <= d - 1)), maxOf_le in H; lia.
  - split; [ | done]. intros _. split; [done | ]. by destruct t.
Qed.

Lemma isContainer_put t i u : isContainer (putChild t i u) = isContainer t.
Proof. by destruct t. Qed.

Lemma depth_put t i u d : depth t <= d -> depth u <= d - 1 -> depth (putChild t i u) <= d.
Proof.
  intros Ht Hu. pose proof (depth_nonneg t). pose proof (depth_nonneg u).
  apply depth_le in Ht as [Hc Hf]; [ | lia]. apply depth_le; [lia | ]. rewrite isContainer_put, children_put.
  split; [done | by apply Forall_insert].
Qed.

Lemma child_depth t i u d : children t !! i = Some u -> depth t <= d -> depth u <= d - 1.
Proof.
  intros Hu Ht. pose proof (depth_nonneg t). apply depth_le in Ht as [_ Hf]; [ | lia].
  by eapply (Forall_lookup_1 _ _ _ _ Hf).
Qed.

(** A write that puts a value of depth at most [d] below its container. *)
Lemma editTree_depth op t seg rest t' d e : 0 <= d ->
  (forall u s u' e, op u s = Some u' -> depth u <= e -> 1 + d <= e -> depth u' <= e) ->
  editTree t seg rest op = Some t' -> depth t <= e -> 1 + Z.of_nat (length rest) + d <= e -> depth t' <= e.
Proof.
  intros Hd Hop. revert t seg t' e. induction rest as [ | seg' rest IH]; intros t seg t' e; cbn [editTree length].
  - intros H Ht He. apply (Hop t seg t'); [done | done | lia].
  - destruct (childIndex t seg) as [i | ]; [ | done]. simpl. destruct (children t !! i) as [u | ] eqn:Hu; [ | done]. simpl.
    destruct (editTree u seg' rest op) as [u' | ] eqn:Eu; [ | done]. simpl. intros [= <-] Ht He.
    apply depth_put; [done | ]. apply (IH u seg'); [done | by eapply child_depth | lia].
Qed.

(** A write whose result is no larger. *)
Lemma editTree_shrinks (f : tree -> Z) op t seg rest t' :
  (forall t i u u', children t !! i = Some u -> f u' <= f u -> f (putChild t i u') <= f t) ->
  (forall u s u', op u s = Some u' -> f u' <= f u) -> editTree t seg rest op = Some t' -> f t' <= f t.
Proof.
  intros Hput Hop. revert t seg t'. induction rest as [ | seg' rest IH]; intros t seg t'; cbn [editTree]; [apply Hop | ].
  destruct (childIndex t seg) as [i | ]; [ | done]. simpl. destruct (children t !! i) as [u | ] eqn:Hu; [ | done]. simpl.
  destruct (editTree u seg' rest op) as [u' | ] eqn:Eu; [ | done]. simpl. intros [= <-].
  by eapply Hput, IH.
Qed.

Lemma sumOf_insert l i x y : l !! i = Some x -> y <= x -> sumOf (<[i := y]> l) <= sumOf l.
Proof.
  revert i. induction l as [ | z l IH]; intros [ | i]; simpl; try done; [intros [= ->]; unfold sumOf; lia | ].
  intros H Hy. specialize (IH i H Hy). unfold sumOf in *. simpl. lia.
Qed.

Lemma sumOf_delete l i : Forall (fun x => 0 <= x) l -> sumOf (delete i l) <= sumOf l.
Proof.
  intros H. revert i. induction H as [ | x l Hx _ IH]; intros [ | i]; unfold sumOf in *; simpl; try lia.
  specialize (IH i). simpl. lia.
Qed.

Lemma count_put t i u u' : children t !! i = Some u -> count u' <= count u -> count (putChild t i u') <= count t.
Proof.
  intros Hu H. rewrite (count_children (putChild _ _ _)), (count_children t), children_put.
  change (map count (<[i := u']> (children t))) with (count <$> <[i := u']> (children t)). rewrite list_fmap_insert.
  assert (sumOf (<[i := count u']> (count <$> children t)) <= sumOf (map count (children t))); [ | lia].
  apply (sumOf_insert _ _ (count u)); [ | done]. by rewrite list_lookup_fmap, Hu.
Qed.

Lemma removeTree_children t seg t' : removeTree t seg = Some t' ->
  isContainer t = true /\ isContainer t' = true /\ exists i, children t' = delete i (children t).
Proof.
  unfold removeTree. destruct (childIndex t seg) as [i | ]; [ | done]. simpl.
  destruct t as [ | | | | | | | l | l]; try done; intros [= <-]; do 2 (split; [done | ]); exists i; [done | ].
  apply map_delete.
Qed.

Lemma remove_shrinks t seg t' : removeTree t seg = Some t' -> depth t' <= depth t /\ count t' <= count t.
Proof.
  intros (Hc & Hc' & i & Hi)%removeTree_children. split.
  - pose proof (depth_nonneg t). apply depth_le; [done | ]. rewrite Hi.
    destruct (proj1 (depth_le t (depth t) ltac:(lia)) (Z.le_refl _)) as [H1 Hf].
    split; [by rewrite <- Hc in H1; intros; apply H1 | by apply Forall_delete].
  - rewrite (count_children t'), (count_children t), Hi, map_delete.
    assert (sumOf (delete i (map count (children t))) <= sumOf (map count (children t))); [ | lia].
    apply sumOf_delete, Forall_map, Forall_true. intros u. pose proof (treeCount_pos u). lia.
Qed.

Lemma removeAt_shrinks t p t' : removeAt t p = Some t' -> depth t' <= depth t /\ count t' <= count t.
Proof.
  destruct p as [ | seg rest]; [done | ]. intros H. split.
  - revert H. apply editTree_shrinks; [ | by intros ? ? ? [? _]%remove_shrinks].
    intros u i x y Hx Hy. apply depth_put; [done | ]. transitivity (depth x); [done | ]. by apply (child_depth u i).
  - revert H. apply editTree_shrinks; [ | by intros ? ? ? [_ ?]%remove_shrinks]. intros. by eapply count_put.
Qed.

Lemma setTree_depth v u s u' e : setTree v u s = Some u' -> depth u <= e -> 1 + depth v <= e -> depth u' <= e.
Proof.
  intros H Hu Hv. destruct (setTree_spec v u s u' H) as [(i & _ & ->) | (l & -> & _ & ->)].
  - apply depth_put; lia.
  - pose proof (depth_nonneg v). apply depth_le in Hu as [_ Hf]; [ | lia]. apply depth_le; [lia | ]. split; [lia | ].
    cbn [children] in *. rewrite map_app. apply Forall_app. split; [done | ]. constructor; [simpl; lia | done].
Qed.

Lemma insertTree_depth v u s u' e : insertTree v u s = Some u' -> depth u <= e -> 1 + depth v <= e -> depth u' <= e.
Proof.
  destruct u as [ | | | | | | | l | l]; try done. cbn [insertTree]. intros H Hu Hv. pose proof (depth_nonneg v).
  apply depth_le in Hu as [_ Hf]; [ | lia]. cbn [children] in Hf.
  assert (exists k, u' = TList (take k l ++ [v] ++ drop k l)) as [k ->].
  { revert H. case_bool_decide.
    - intros [= <-]. exists (length l). by rewrite take_ge, drop_ge by lia.
    - destruct (ArrayIndex s) as [i | ]; [ | done]. simpl. destruct (i <=? _); [ | done]. intros [= <-]. by eexists. }
  apply depth_le; [lia | ]. split; [lia | ]. cbn [children]. apply Forall_app. split; [by apply Forall_take | ].
  constructor; [lia | by apply Forall_drop].
Qed.

(** ** Refinement *)

Lemma setAt_wf v t p t' : wfTree v -> wfTree t -> setAt v t p = Some t' -> wfTree t'.
Proof.
  intros Hv Ht. destruct p as [ | seg rest]; cbn [setAt]; [by intros [= <-] | ].
  apply editTree_wf; [ | done]. intros u s u'. by apply setTree_wf.
Qed.

Lemma insertAt_wf v t p t' : wfTree v -> wfTree t -> insertAt v t p = Some t' -> wfTree t'.
Proof.
  intros Hv Ht. destruct p as [ | seg rest]; cbn [insertAt]; [done | ].
  apply editTree_wf; [ | done]. intros u s u'. by apply insertTree_wf.
Qed.

Lemma removeAt_wf t p t' : wfTree t -> removeAt t p = Some t' -> wfTree t'.
Proof.
  intros Ht. destruct p as [ | seg rest]; cbn [removeAt]; [done | ].
  apply editTree_wf; [ | done]. intros u s u'. by apply removeTree_wf.
Qed.

Lemma Set_rep fn t v p : wfTree t -> okOf (Set_ fn (rep t) p (rep v)) = rep <$> setAt v t p.
Proof.
  intros Hw. destruct p as [ | seg rest]; cbn [Set_ setAt]; [done | ]. apply editAt_rep; [ | done].
  intros u s. by apply setOp_rep.
Qed.

Lemma Insert_rep fn t v p : wfTree t -> okOf (Insert_ fn (rep t) p (rep v)) = rep <$> insertAt v t p.
Proof.
  intros Hw. destruct p as [ | seg rest]; cbn [Insert_ insertAt]; [done | ]. apply editAt_rep; [ | done].
  intros u s _. by apply insertOp_rep.
Qed.

Lemma Remove_rep fn t seg rest : wfTree t -> okOf (Remove_ fn (rep t) seg rest) = rep <$> removeAt t (seg :: rest).
Proof. intros Hw. apply editAt_rep; [ | done]. intros u s. by apply removeOp_rep. Qed.

(** C16: addressing and the write verbs of document nodes - with their sorted key index,
    heights and sizes - implement the operations of abstract documents: a walk finds what the
    tokens address, set, insert and remove fail exactly when the abstract operation does and
    otherwise give the one representation of its well-formed result; after a set the path
    reads the new value and every path that parts from it reads what it read before. *)
Theorem document_refinement fn t v p : wfTree t -> wfTree v ->
  okOf (Walk fn (rep t) p) = rep <$> treeAt t p /\
  okOf (Set_ fn (rep t) p (rep v)) = rep <$> setAt v t p /\
  okOf (Insert_ fn (rep t) p (rep v)) = rep <$> insertAt v t p /\
  (forall seg rest, p = seg :: rest -> okOf (Remove_ fn (rep t) seg rest) = rep <$> removeAt t p) /\
  (forall t', insertAt v t p = Some t' \/ removeAt t p = Some t' -> wfTree t') /\
  (forall t', setAt v t p = Some t' -> wfTree t' /\
     (forall q, okOf (Walk fn (rep t') (p ++ q)) = okOf (Walk fn (rep v) q)) /\
     (forall q, diverge p q -> okOf (Walk fn (rep t') q) = okOf (Walk fn (rep t) q))).
Proof.
  intros Ht Hv. split; [by apply Walk_rep | ]. split; [by apply Set_rep | ]. split; [by apply Insert_rep | ].
  split; [intros seg rest ->; by apply Remove_rep | ]. split.
  - intros t' [H | H]; [by apply (insertAt_wf v t p) | by apply (removeAt_wf t p)].
  - intros t' H. assert (wfTree t') by (by apply (setAt_wf v t p)). split; [done | ]. split; intros q.
    + rewrite !Walk_rep by done. f_equal. by apply (set_get v t p t').
    + intros Hd. rewrite !Walk_rep by done. f_equal. by apply (set_frame v t p t').
Qed.

Lemma document_refinement_witness :
  okOf (Set_ "json.set" (rep (TMap [("a", TList [TInt 1; TInt 2])])) ["a"; "1"] (rep (TBool true))) =
    Some (rep (TMap [("a", TList [TInt 1; TBool true])])) /\
  okOf (Walk "json.get" (rep (TMap [("a", TList [TInt 1; TBool true])])) ["a"; "0"]) = Some (NInt 1).
Proof.
  destruct (document_refinement "json.set" (TMap [("a", TList [TInt 1; TInt 2])]) (TBool true) ["a"; "1"]) as (_ & H & _).
  - split; [ | done]. apply NoDup_singleton.
  - done.
  - split; [exact H | vm_compute; reflexivity].
Defined.
