(* ===== verification/DocLib.v ===== *)
(** * The shared surface of the document libraries (internal/lib/doctree/lib.go)

    json, toml and yaml register these builtins over the tree of Doctree.  A [NAME.Value] is
    an opaque object whose payload - one node and the library that made it - lives at an
    address of [Heap]; a builtin that returns a document adds a payload, none changes one.
    An address outside the heap holds a payload of another package.  A [Lib] is a
    package-level value, so its name identifies it.  A [stdtime.Time] is its instant in
    nanoseconds and its zone offset; its RFC 3339 text is the parameter [FormatTime]. *)

From Stdlib Require Import Ascii.
From S2P Require Import Prelude GoInt Float64 GoSort Limits Types Value Utf8 Doctree.
Open Scope string_scope.
Open Scope list_scope.
Open Scope Z_scope.
Open Scope go_scope.

Record Time := mkTime { UnixNano : Z; ZoneOffset : Z }.

Record Lib := mkLib {
  Name : string;
  HasNull : bool;
  Display : option (Node -> result message string);
  TimeNode : option (Value -> option Node);
  AsTime : Node -> result message Time }.

Record payload := mkPayload { root : Node; plib : string }.

Definition Heap : Type := list payload.

(** A message with the builtin's name in front ([fmt.Errorf("%s: %v", fnName, err)]). *)
Definition prefixed {A} (fnName : string) (r : result message A) : result message A :=
  match r with
  | Ok a => Ok a
  | Err m => Err (Sprintf ("%s: " +:+ msg_format m) (AStr fnName :: msg_args m))
  end.

(** A loop that converts every element, stopping at the first error. *)
Definition mapResult {E A B} (f : A -> result E B) : list A -> result E (list B) :=
  fix loop l :=
    match l with
    | [] => Ok []
    | x :: l => let? y := f x in let? ys := loop l in Ok (y :: ys)
    end.

Section Lib.
Context {L : Limits}.
Variable FormatTime : Time -> string.
Variable l : Lib.

(** ** Payloads *)

(** [EqualNative]: [same] compares container addresses; numbers hold no payload. *)
Definition payload_Equal (same : container Node -> container Node -> bool) (p o : payload) : bool :=
  bool_decide (plib o = plib p) &&
  @NodeEqual (Build_NativeObject (fun _ _ => false) (fun _ => "")) same (root p) (root o).

Definition payload_Display (p : payload) : string :=
  match Display l with
  | Some d => match d (root p) with Ok s => s | Err _ => "<" +:+ Name l +:+ ".Value>" end
  | None => "<" +:+ Name l +:+ ".Value>"
  end.

Definition LibTypeName : string := Name l +:+ ".Value".

(** A handle over a fresh payload at the end of the heap. *)
Definition Wrap (h : Heap) (n : Node) : Value * Heap :=
  (VObject (Name l) "Value" (Some (length h, None)), h ++ [mkPayload n (Name l)]).

Definition Zero (h : Heap) : Value * Heap := Wrap h Null.

Definition ValueType : Typ := TypeStruct (Name l) "" "Value".

Definition AsNode (h : Heap) (v : Value) : option Node :=
  match v with
  | VObject ns name obj =>
      if bool_decide (ns = Name l) && bool_decide (name = "Value") then
        match obj with
        | Some (p, None) =>
            match h !! p with
            | Some dp => if bool_decide (plib dp = Name l) then Some (root dp) else None
            | None => None
            end
        | _ => Some Null
        end
      else None
  | _ => None
  end.

Definition Take (h : Heap) (fnName : string) (v : Value) : result message Node :=
  match AsNode h v with
  | Some n => Ok n
  | None => derr "%s: argument must be a %s, got %s" [AStr fnName; AStr LibTypeName; AStr (ValueKind_String (kindOf v))]
  end.

(** ** Values to nodes *)

Definition errTooDeep {A} : result message A :=
  derr "value nests deeper than the %d-level limit" [AInt MaxNestingDepth].

Fixpoint toNode (h : Heap) (keepBytes : bool) (v : Value) (depth : Z) {struct v} : result message Node :=
  match v with
  | VNull => Ok Null
  | VBool b => Ok (NBool b)
  | VInt n => Ok (NInt n)
  | VFloat f => Ok (NFloat f)
  | VString s _ => Ok (NString s)
  | VObject ns name _ =>
      match AsNode h v with
      | Some n => if ExceedsDepth n (MaxNestingDepth - depth) then errTooDeep else Ok n
      | None => derr "cannot convert an opaque %s.%s to a %s" [AStr ns; AStr name; AStr LibTypeName]
      end
  | VBytes b =>
      if keepBytes then Ok (NBytes (string_of_bytes b)) else Ok (NString (EncodeToString b))
  | VList vs _ =>
      if MaxNestingDepth <=? depth then errTooDeep
      else
        let? out := mapResult (fun v => toNode h keepBytes v (depth + 1)) vs in
        Ok (List out)
  | VMap es _ _ _ =>
      if MaxNestingDepth <=? depth then errTooDeep
      else
        let? out := mapResult (fun '(k, v) =>
          match k with
          | VString k _ => let? n := toNode h keepBytes v (depth + 1) in Ok (k, n)
          | k => derr "map key must be string, got %s" [AStr (ValueKind_String (kindOf k))]
          end) es in
        Ok (Map (map fst out) (map snd out))
  | VStruct _ _ _ fs =>
      match (match TimeNode l with Some t => t v | None => None end) with
      | Some dt => Ok dt
      | None =>
          if MaxNestingDepth <=? depth then errTooDeep
          else
            let? out := mapResult (fun '(k, v) =>
              let? n := toNode h keepBytes v (depth + 1) in Ok (k, n)) fs in
            Ok (Map (map fst out) (map snd out))
      end
  | _ => derr "cannot convert a %s value to a %s" [AStr (ValueKind_String (kindOf v)); AStr LibTypeName]
  end.

Definition ToNode (h : Heap) (v : Value) (keepBytes : bool) : result message Node := toNode h keepBytes v 0.

(** ** Times *)

Definition intOf (v : Value) : Z := match v with VInt n => n | _ => 0 end.

(** The fields [nanos] and [offset]; the last one of a name counts. *)
Definition TimeParts (v : Value) : option (Z * Z) :=
  match v with
  | VStruct ns _ name fs =>
      if bool_decide (ns = "time") && bool_decide (name = "Time") then
        Some (fold_left (fun acc f =>
          if bool_decide (fst f = "nanos") then (intOf (snd f), snd acc)
          else if bool_decide (fst f = "offset") then (fst acc, intOf (snd f))
          else acc) fs (0, 0))
      else None
  | _ => None
  end.

Definition TimeRFC3339 (v : Value) : option string :=
  match TimeParts v with
  | Some (nanos, offset) => Some (FormatTime (mkTime nanos offset))
  | None => None
  end.

(** ** Read accessors *)

Definition Accessor : Type := string -> Heap -> list Value -> result message Value * Heap.

Definition argCount (args : list Value) : fmtarg := AInt (Z.of_nat (length args)).

Definition pointerArg (fnName : string) (arg : Value) : result message (list string) :=
  match arg with
  | VString s _ => ParsePointer fnName s
  | _ => derr "%s: pointer must be string, got %s" [AStr fnName; AStr (ValueKind_String (kindOf arg))]
  end.

Definition nodeAt (fnName : string) (h : Heap) (args : list Value) : result message Node :=
  match args with
  | [v] => let? n := Take h fnName v in Resolve fnName n ""
  | [v; p] =>
      let? n := Take h fnName v in
      match p with
      | VString ptr _ => Resolve fnName n ptr
      | _ => derr "%s: pointer must be string, got %s" [AStr fnName; AStr (ValueKind_String (kindOf p))]
      end
  | _ => derr "%s expects 1 or 2 arguments (%s[, pointer]), got %d" [AStr fnName; AStr LibTypeName; argCount args]
  end.

(** An accessor that reads the addressed node and leaves the heap. *)
Definition reading (read : string -> Node -> result message Value) : Accessor := fun fnName h args =>
  (let? n := nodeAt fnName h args in read fnName n, h).

Definition typeOf : Accessor := fun fnName h args =>
  (match args with
   | [v; p] =>
       let? n := Take h fnName v in
       let? tokens := pointerArg fnName p in
       match Walk fnName n tokens with
       | Ok at_ => Ok (StringVal (TypeName at_))
       | Err _ => Ok (StringVal "missing")
       end
   | _ => let? n := nodeAt fnName h args in Ok (StringVal (TypeName n))
   end, h).

Definition get : Accessor := fun fnName h args =>
  match nodeAt fnName h args with
  | Ok n => let '(v, h) := Wrap h n in (Ok v, h)
  | Err e => (Err e, h)
  end.

Definition has : Accessor := fun fnName h args =>
  (match args with
   | [v; p] =>
       let? n := Take h fnName v in
       let? tokens := pointerArg fnName p in
       Ok (BoolVal (match Walk fnName n tokens with Ok _ => true | Err _ => false end))
   | _ => derr "%s expects 2 arguments (%s, pointer), got %d" [AStr fnName; AStr LibTypeName; argCount args]
   end, h).

Definition keysFn : Accessor := reading (fun fnName n =>
  match n with
  | NMap c => Ok (ListVal TypeString (map StringVal (keys c)))
  | _ => derr "%s: expected a map, got a %s" [AStr fnName; AStr (TypeName n)]
  end).

Definition length_ : Accessor := reading (fun fnName n =>
  if IsContainer n then Ok (IntVal (lenZ n))
  else derr "%s: expected a list or map, got a %s" [AStr fnName; AStr (TypeName n)]).

(** The scalar of a node the test accepts. *)
Definition asKind (k : Node -> bool) (what : string) : Accessor := reading (fun fnName n =>
  if k n then Ok (ScalarValue n)
  else derr "%s: node is a %s, not %s" [AStr fnName; AStr (TypeName n); AStr what]).

Definition asInt : Accessor := asKind (fun n => match kind n with Kind.KindInt => true | _ => false end) "an int".
Definition asString : Accessor := asKind (fun n => match kind n with Kind.KindString => true | _ => false end) "a string".
Definition asBool : Accessor := asKind (fun n => match kind n with Kind.KindBool => true | _ => false end) "a bool".

Definition asFloat : Accessor := reading (fun fnName n =>
  match n with
  | NFloat f =>
      if IsNaN f || IsInf f then
        derr "%s: node is a non-finite float (%v), which has no Jennifer value" [AStr fnName; AFloat f]
      else Ok (FloatVal f)
  | NInt i => Ok (FloatVal (float64_of_int64 i))
  | _ => derr "%s: node is a %s, not a number" [AStr fnName; AStr (TypeName n)]
  end).

Definition isNull : Accessor := reading (fun _ n =>
  Ok (BoolVal (match kind n with Kind.KindNull => true | _ => false end))).

Definition isDatetime : Accessor := reading (fun _ n =>
  Ok (BoolVal (match kind n with Kind.KindDatetime => true | _ => false end))).

(** The instants a [time.Time] holds are those of an int64 of nanoseconds. *)
Definition asDatetime : Accessor := reading (fun fnName n =>
  match kind n with
  | Kind.KindDatetime =>
      let? t := prefixed fnName (AsTime l n) in
      if (UnixNano t <? minInt64) || (maxInt64 <? UnixNano t) then
        derr "%s: %s is outside the time.Time range (1677-09-21 .. 2262-04-11)" [AStr fnName; AStr (FormatTime t)]
      else Ok (NamespacedStructVal "time" "Time" [("nanos", IntVal (UnixNano t)); ("offset", IntVal (ZoneOffset t))])
  | _ => derr "%s: node is a %s, not a datetime" [AStr fnName; AStr (TypeName n)]
  end).

(** ** Write verbs *)

(** A document result becomes a handle. *)
Definition wrapping (h : Heap) (r : result message Node) : result message Value * Heap :=
  match r with
  | Ok n => let '(v, h) := Wrap h n in (Ok v, h)
  | Err e => (Err e, h)
  end.

(** The checks of a write of [v] at depth [pathLen] with result [out]. *)
Definition checked (fnName : string) (pathLen : Z) (v out : Node) : result message Node :=
  let? _ := CheckDepth fnName pathLen v in
  let? _ := CheckSize fnName out in
  Ok out.

Definition construct (k : ValueKind) (what : string) (empty : Node) : Accessor := fun fnName h args =>
  match args with
  | [] => wrapping h (Ok empty)
  | [v] =>
      wrapping h
        (if negb (bool_decide (kindOf v = k)) then
           derr "%s: initial value must be a %s, got %s" [AStr fnName; AStr what; AStr (ValueKind_String (kindOf v))]
         else
           let? n := prefixed fnName (ToNode h v false) in
           checked fnName 0 n n)
  | _ => (derr "%s expects 0 or 1 arguments, got %d" [AStr fnName; argCount args], h)
  end.

Definition list_ : Accessor := construct KindList "list" (List []).
Definition mapFn : Accessor := construct KindMap "map" (Map [] []).

Definition writeArgs (fnName : string) (h : Heap) (args : list Value) : result message (Node * list string * Node) :=
  match args with
  | [v; p; x] =>
      let? n := Take h fnName v in
      let? tokens := pointerArg fnName p in
      let? raw := prefixed fnName (ToNode h x false) in
      Ok (n, tokens, raw)
  | _ => derr "%s expects 3 arguments (%s, pointer, value), got %d" [AStr fnName; AStr LibTypeName; argCount args]
  end.

Definition pathLen (tokens : list string) : Z := Z.of_nat (length tokens).

Definition set : Accessor := fun fnName h args =>
  wrapping h
    (let? w := writeArgs fnName h args in
     let '(n, tokens, raw) := w in
     let? out := Set_ fnName n tokens raw in
     checked fnName (pathLen tokens) raw out).

Definition insert : Accessor := fun fnName h args =>
  wrapping h
    (let? w := writeArgs fnName h args in
     let '(n, tokens, raw) := w in
     let? out := Insert_ fnName n tokens raw in
     checked fnName (pathLen tokens) raw out).

Definition appendFn : Accessor := fun fnName h args =>
  wrapping h
    (let? w := writeArgs fnName h args in
     let '(n, tokens, raw) := w in
     let? out := Insert_ fnName n (tokens ++ ["-"]) raw in
     checked fnName (pathLen tokens + 1) raw out).

Definition remove : Accessor := fun fnName h args =>
  wrapping h
    match args with
    | [v; p] =>
        let? n := Take h fnName v in
        let? tokens := pointerArg fnName p in
        match tokens with
        | [] => derr "%s: cannot remove the whole document" [AStr fnName]
        | seg :: rest => Remove_ fnName n seg rest
        end
    | _ => derr "%s expects 2 arguments (%s, pointer), got %d" [AStr fnName; AStr LibTypeName; argCount args]
    end.

Definition move : Accessor := fun fnName h args =>
  wrapping h
    match args with
    | [v; from; to] =>
        let? n := Take h fnName v in
        let? fromTokens := pointerArg fnName from in
        let? toTokens := pointerArg fnName to in
        match fromTokens with
        | [] => derr "%s: cannot move the whole document" [AStr fnName]
        | seg :: rest =>
            let? moved := Walk fnName n fromTokens in
            let? removed := Remove_ fnName n seg rest in
            let? out := Set_ fnName removed toTokens moved in
            checked fnName (pathLen toTokens) moved out
        end
    | _ => derr "%s expects 3 arguments (%s, from, to), got %d" [AStr fnName; AStr LibTypeName; argCount args]
    end.

(** The registered builtins. *)
Definition surface : list (string * Accessor) :=
  [("typeOf", typeOf); ("get", get); ("has", has); ("keys", keysFn); ("length", length_); ("asInt", asInt);
   ("asFloat", asFloat); ("asString", asString); ("asBool", asBool)] ++
  (if HasNull l then [("isNull", isNull)] else []) ++
  (match TimeNode l with Some _ => [("isDatetime", isDatetime); ("asDatetime", asDatetime)] | None => [] end) ++
  [("list", list_); ("map", mapFn); ("set", set); ("insert", insert); ("append", appendFn); ("remove", remove);
   ("move", move)].

(** A registered builtin, called under its qualified name. *)
Definition builtin (name : string) (fn : Accessor) (h : Heap) (args : list Value) : result message Value * Heap :=
  fn (Name l +:+ "." +:+ name) h args.
End Lib.
