(* ===== verification/DocLibFacts.v ===== *)
(** * Every document a program holds is within the limits

    The documents the shared builtins make are representations of well-formed abstract
    documents no deeper than [MaxNestingDepth] and, counting a shared part wherever it
    appears, no larger than [MaxDecodedNodes]; a payload once made is never changed. *)

From S2P Require Import Prelude GoInt Float64 GoSort Limits Types Value ValueFacts Utf8 Doctree DocFacts DocLaws DocLib.
Open Scope string_scope.
Open Scope list_scope.
Open Scope Z_scope.
Open Scope go_scope.

(** ** Values that convert to well-formed documents *)

Definition stringKey (v : Value) : option string := match v with VString s _ => Some s | _ => None end.

(** Map keys and struct fields are distinct, all the way down. *)
Fixpoint valueOK (v : Value) : Prop :=
  match v with
  | VList vs _ => foldr (fun v P => valueOK v /\ P) True vs
  | VMap es _ _ _ => NoDup (omap (fun e => stringKey (fst e)) es) /\ foldr (fun e P => valueOK (snd e) /\ P) True es
  | VStruct _ _ _ fs => NoDup (map fst fs) /\ foldr (fun f P => valueOK (snd f) /\ P) True fs
  | _ => True
  end.

Lemma mapResult_Forall2 {E A B} (f : A -> result E B) xs ys :
  mapResult f xs = Ok ys -> Forall2 (fun x y => f x = Ok y) xs ys.
Proof.
  revert ys. induction xs as [ | x xs IH]; intros ys; simpl; [by intros [= <-] | ].
  destruct (f x) as [y | ] eqn:Ey; [ | done]. simpl. destruct (mapResult f xs) as [ys' | ]; [ | done]. simpl.
  intros [= <-]. constructor; [done | by apply IH].
Qed.

(** ** Sub-documents *)

Lemma child_count t i u : children t !! i = Some u -> count u <= count t.
Proof.
  intros Hu. rewrite (count_children t).
  assert (forall l i, Forall (fun x => 0 <= x) l -> forall x, l !! i = Some x -> x <= sumOf l) as H.
  { clear. induction l as [ | y l IH]; intros [ | i] Hl x; [done | done | | ]; inversion Hl as [ | ? ? Hy Hl']; subst; simpl.
    - intros [= ->]. assert (0 <= sumOf l); [ | unfold sumOf in *; lia]. clear -Hl'. induction Hl'; unfold sumOf in *; simpl; lia.
    - intros Hx. specialize (IH i Hl' x Hx). unfold sumOf in *. lia. }
  assert (count u <= sumOf (map count (children t))); [ | lia]. apply (H _ i).
  - apply Forall_map, Forall_true. intros x. pose proof (treeCount_pos x). lia.
  - by rewrite list_lookup_fmap, Hu.
Qed.

Lemma treeAt_sub t p u : wfTree t -> treeAt t p = Some u -> wfTree u /\ depth u <= depth t /\ count u <= count t.
Proof.
  revert t. induction p as [ | tok p IH]; intros t Hw; cbn [treeAt]; [by intros [= <-] | ].
  destruct (childIndex t tok) as [i | ]; [ | done]. simpl. destruct (children t !! i) as [x | ] eqn:Hx; [ | done]. simpl.
  intros H%IH; [ | by eapply child_wf]. pose proof (child_depth t i x _ Hx (Z.le_refl _)). pose proof (child_count t i x Hx).
  split; [apply H | lia].
Qed.

Section Limits.
Context {L : Limits}.

(** A document within the limits. *)
Definition inLimits (n : Node) : Prop :=
  exists t, wfTree t /\ n = rep t /\ depth t <= MaxNestingDepth /\ count t <= MaxDecodedNodes.

Definition goodHeap (h : Heap) : Prop := Forall (fun p => inLimits (root p)) h.

Lemma inLimits_scalar t : wfTree t -> children t = [] -> isContainer t = false -> inLimits (rep t).
Proof.
  intros Hw Hc Hs. exists t. split; [done | ]. split; [done | ]. rewrite depth_children, count_children, Hs, Hc.
  pose proof MaxNestingDepth_pos. pose proof MaxDecodedNodes_bound. simpl. lia.
Qed.

Lemma Walk_inLimits fn n p u : inLimits n -> Walk fn n p = Ok u -> inLimits u.
Proof.
  intros (t & Hw & -> & Hd & Hc) H. pose proof (Walk_rep fn t p Hw) as E. rewrite H in E. simpl in E.
  destruct (treeAt t p) as [x | ] eqn:Ex; [ | done]. injection E as ->. apply treeAt_sub in Ex; [ | done].
  exists x. split; [apply Ex | ]. split; [done | lia].
Qed.

Lemma checked_inv fn k v out n : checked fn k (rep v) (rep out) = Ok n ->
  n = rep out /\ k + depth v <= MaxNestingDepth /\ count out <= MaxDecodedNodes.
Proof.
  unfold checked, CheckDepth, CheckSize, ExceedsDepth. destruct (rep_measures v) as [-> _], (rep_measures out) as [_ ->].
  destruct (_ || _) eqn:E; [done | ]. b2p. simpl. destruct (_ <? _) eqn:E'; [done | ]. b2p. intros [= <-].
  split; [done | ]. split; [lia | ]. pose proof MaxDecodedNodes_bound. change sizeSaturate with (2 ^ 62) in *. lia.
Qed.

Lemma setAt_depth v t p t' e : setAt v t p = Some t' -> depth t <= e ->
  Z.of_nat (length p) + depth v <= e -> depth t' <= e.
Proof.
  destruct p as [ | seg rest]; cbn [setAt length]; [intros [= <-]; lia | ]. intros H Ht He.
  apply (editTree_depth (setTree v) t seg rest t' (depth v) e); [apply depth_nonneg | | done | done | lia].
  intros u s u' e'. apply setTree_depth.
Qed.

Lemma insertAt_depth v t p t' e : insertAt v t p = Some t' -> depth t <= e ->
  Z.of_nat (length p) + depth v <= e -> depth t' <= e.
Proof.
  destruct p as [ | seg rest]; cbn [insertAt length]; [done | ]. intros H Ht He.
  apply (editTree_depth (insertTree v) t seg rest t' (depth v) e); [apply depth_nonneg | | done | done | lia].
  intros u s u' e'. apply insertTree_depth.
Qed.

(** The results of checked writes. *)
Lemma Set_checked fn t v p out n : wfTree t -> depth t <= MaxNestingDepth -> wfTree v ->
  Set_ fn (rep t) p (rep v) = Ok out -> checked fn (pathLen p) (rep v) out = Ok n -> inLimits n.
Proof.
  intros Ht Hd Hv Hs Hc. pose proof (Set_rep fn t v p Ht) as E. rewrite Hs in E. simpl in E.
  destruct (setAt v t p) as [t' | ] eqn:Et; [ | done]. injection E as ->. apply checked_inv in Hc as (-> & Hk & Hn).
  exists t'. split; [by apply (setAt_wf v t p) | ]. split; [done | ]. split; [ | done]. by apply (setAt_depth v t p).
Qed.

Lemma Insert_checked fn t v p k out n : wfTree t -> depth t <= MaxNestingDepth -> wfTree v -> k = pathLen p ->
  Insert_ fn (rep t) p (rep v) = Ok out -> checked fn k (rep v) out = Ok n -> inLimits n.
Proof.
  intros Ht Hd Hv -> Hs Hc. pose proof (Insert_rep fn t v p Ht) as E. rewrite Hs in E. simpl in E.
  destruct (insertAt v t p) as [t' | ] eqn:Et; [ | done]. injection E as ->. apply checked_inv in Hc as (-> & Hk & Hn).
  exists t'. split; [by apply (insertAt_wf v t p) | ]. split; [done | ]. split; [ | done]. by apply (insertAt_depth v t p).
Qed.

Lemma Remove_inLimits fn n seg rest out : inLimits n -> Remove_ fn n seg rest = Ok out -> inLimits out.
Proof.
  intros (t & Hw & -> & Hd & Hc) H. pose proof (Remove_rep fn t seg rest Hw) as E. rewrite H in E. cbn [okOf] in E.
  destruct (removeAt t (seg :: rest)) as [t' | ] eqn:Et; [ | done]. injection E as ->.
  exists t'. split; [by apply (removeAt_wf t (seg :: rest)) | ]. split; [done | ]. apply removeAt_shrinks in Et. lia.
Qed.

(** ** Conversion *)

Variable FormatTime : Time -> string.
Variable l : Lib.
(** A library stores a time as a datetime node. *)
Hypothesis TimeNode_datetime : forall f v n,
  TimeNode l = Some f -> f v = Some n -> exists text form, n = NDatetime text form.

Lemma AsNode_inLimits h v n : goodHeap h -> AsNode l h v = Some n -> inLimits n.
Proof.
  intros Hh. destruct v as [ | | | | | | | | | | ns name obj | | | ]; try done. cbn [AsNode]. destruct (_ && _); [ | done].
  assert (inLimits Null) by (by apply (inLimits_scalar TNull)).
  destruct obj as [[p [x | ]] | ]; [by intros [= <-] | | by intros [= <-]].
  destruct (h !! p) as [dp | ] eqn:Hp; [ | done]. destruct (bool_decide _); [ | done]. intros [= <-].
  by apply (Forall_lookup_1 _ _ _ _ Hh Hp).
Qed.

(** What converts at depth [d] fits below it. *)
Definition fits (d : Z) (n : Node) (t : tree) : Prop := wfTree t /\ n = rep t /\ depth t <= MaxNestingDepth - d.

Lemma fits_scalar d t : d <= MaxNestingDepth -> wfTree t -> isContainer t = false -> fits d (rep t) t.
Proof. intros Hd Hw Hs. split; [done | ]. split; [done | ]. rewrite depth_children, Hs. lia. Qed.

Lemma fits_depth d ns ts : Forall2 (fits (d + 1)) ns ts -> d < MaxNestingDepth ->
  Forall wfTree ts /\ ns = map rep ts /\ maxOf (map depth ts) <= MaxNestingDepth - (d + 1).
Proof.
  intros H Hd. induction H as [ | n t ns ts (Hw & -> & Ht) _ (IHw & -> & IHt)]; simpl.
  - split; [constructor | ]. split; [done | lia].
  - split; [by constructor | ]. split; [done | lia].
Qed.

Lemma fits_List d ns ts : Forall2 (fits (d + 1)) ns ts -> d < MaxNestingDepth -> fits d (List ns) (TList ts).
Proof.
  intros H Hd. destruct (fits_depth d ns ts H Hd) as (Hw & -> & Ht).
  split; [cbn [wfTree]; by rewrite foldr_Forall | ]. split; [done | ].
  rewrite depth_children. simpl. lia.
Qed.

Lemma fits_Map d ks ns ts : Forall2 (fits (d + 1)) ns ts -> length ks = length ns -> NoDup ks -> d < MaxNestingDepth ->
  fits d (Map ks ns) (TMap (zip ks ts)).
Proof.
  intros H Hl Hn Hd. destruct (fits_depth d ns ts H Hd) as (Hw & -> & Ht). rewrite length_map in Hl.
  assert (map fst (zip ks ts) = ks) as Ef by (apply fst_zip; lia).
  assert (map snd (zip ks ts) = ts) as Es by (apply snd_zip; lia). split.
  - cbn [wfTree]. rewrite Ef. split; [done | ]. apply (foldr_Forall (fun e => wfTree (snd e))).
    apply (Forall_map snd wfTree). by rewrite Es.
  - split.
    + cbn [rep]. rewrite Ef. f_equal. rewrite <- Es at 1. by rewrite map_map.
    + rewrite depth_children. cbn [isContainer children]. rewrite Es. lia.
Qed.

Lemma toNode_object h keepBytes ns name obj d n : goodHeap h -> d <= MaxNestingDepth ->
  toNode l h keepBytes (VObject ns name obj) d = Ok n -> exists t, fits d n t.
Proof.
  intros Hh Hd. cbn [toNode]. destruct (AsNode _ _ _) as [x | ] eqn:Ex; [ | done].
  apply AsNode_inLimits in Ex as (t & Hw & -> & _); [ | done]. unfold ExceedsDepth. destruct (rep_measures t) as [-> _].
  destruct (_ <? _) eqn:E; [done | ]. b2p. intros [= <-]. by exists t.
Qed.

(** The members of a container: elements that convert, keys kept. *)
Lemma members_fit {A} (f : A -> result message (string * Node)) (key : A -> option string) es out d :
  mapResult f es = Ok out -> d < MaxNestingDepth ->
  Forall (fun e => forall k n, f e = Ok (k, n) -> key e = Some k /\ exists t, fits (d + 1) n t) es ->
  NoDup (omap key es) -> exists t, fits d (Map (map fst out) (map snd out)) t.
Proof.
  intros H%mapResult_Forall2 Hd Hf Hn.
  assert (map fst out = omap key es /\ exists ts, Forall2 (fits (d + 1)) (map snd out) ts) as (Hk & ts & Hts).
  { clear Hn. induction H as [ | e [k n] es out He _ IH]; [by split; [ | exists []; constructor] | ].
    inversion Hf as [ | ? ? Hf1 Hf2]; subst. destruct (Hf1 k n He) as [Hk [t Ht]], (IH Hf2) as (Hks & ts & Hts).
    simpl. rewrite Hk, Hks. split; [done | ]. exists (t :: ts). by constructor. }
  exists (TMap (zip (map fst out) ts)). apply fits_Map; [done | by rewrite !length_map | by rewrite Hk | done].
Qed.

Lemma omap_Some {A B} (f : A -> B) xs : omap (fun x => Some (f x)) xs = map f xs.
Proof. induction xs as [ | x xs IH]; [done | ]. cbn. by f_equal. Qed.

Lemma toNode_fits h keepBytes v : goodHeap h -> valueOK v -> forall d n, 0 <= d <= MaxNestingDepth ->
  toNode l h keepBytes v d = Ok n -> exists t, fits d n t.
Proof.
  intros Hh.
  induction v as [v Hs | vs et IH | es kt vt idx IH | ns mp name fs IH | | ] using Value_deep_ind; intros Hok d m Hd.
  - assert (forall t, isContainer t = false -> wfTree t -> @Ok message _ (rep t) = Ok m -> exists t, fits d m t) as Ht
      by (intros t ? ? [= <-]; exists t; apply fits_scalar; [lia | done | done]).
    destruct v as [ | n | f | s r | b | bs | | | | | ns name obj | | | ]; try done.
    + by apply (Ht TNull).
    + by apply (Ht (TInt n)).
    + by apply (Ht (TFloat f)).
    + by apply (Ht (TString s)).
    + by apply (Ht (TBool b)).
    + cbn [toNode]. destruct keepBytes; [by apply (Ht (TBytes _)) | by apply (Ht (TString _))].
    + apply toNode_object; [done | lia].
  - cbn [toNode]. destruct (Z.leb_spec MaxNestingDepth d) as [ | Hlt]; [done | ].
    destruct (mapResult _ vs) as [out | ] eqn:E; [ | done]. simpl. intros [= <-].
    apply mapResult_Forall2 in E. cbn [valueOK] in Hok. rewrite foldr_Forall in Hok.
    assert (exists ts, Forall2 (fits (d + 1)) out ts) as [ts Hts]; [ | by exists (TList ts); apply fits_List].
    induction E as [ | v n vs out He _ IHl]; [by exists []; constructor | ].
    inversion Hok; inversion IH as [ | ? ? Hv ?]; subst. destruct (Hv ltac:(done) (d + 1) n ltac:(lia) He) as [t Ht].
    destruct IHl as [ts Hts]; [done | done | ]. exists (t :: ts). by constructor.
  - cbn [toNode]. destruct (Z.leb_spec MaxNestingDepth d) as [ | Hlt]; [done | ].
    destruct (mapResult _ es) as [out | ] eqn:E; [ | done]. simpl. intros [= <-]. destruct Hok as [Hn Hok].
    rewrite (foldr_Forall (fun e => valueOK (snd e))) in Hok.
    eapply members_fit; [exact E | done | | exact Hn]. eapply Forall_impl; [by apply Forall_and; split; [exact IH | exact Hok] | ].
    intros [k v] [[_ Hv] Hv'] k' n'. destruct k; try done. destruct (toNode _ _ _ v (d + 1)) as [x | ] eqn:Ex; [ | done].
    simpl. intros [= <- <-]. split; [done | ]. apply (Hv Hv'); [lia | done].
  - cbn [toNode]. destruct (match TimeNode l with Some t => t _ | None => None end) as [dt | ] eqn:Et.
    { destruct (TimeNode l) as [f | ] eqn:Ef; [ | done]. destruct (TimeNode_datetime f _ dt eq_refl Et) as (text & form & ->).
      intros [= <-]. exists (TDatetime text form). apply (fits_scalar d (TDatetime text form)); [lia | done | done]. }
    destruct (Z.leb_spec MaxNestingDepth d) as [ | Hlt]; [done | ].
    destruct (mapResult _ fs) as [out | ] eqn:E; [ | done]. simpl. intros [= <-]. destruct Hok as [Hn Hok].
    rewrite (foldr_Forall (fun e => valueOK (snd e))) in Hok. rewrite <- omap_Some in Hn.
    eapply members_fit; [exact E | done | | exact Hn]. eapply Forall_impl; [by apply Forall_and; split; [exact IH | exact Hok] | ].
    intros [k v] [Hv Hv'] k' n'. destruct (toNode _ _ _ v (d + 1)) as [x | ] eqn:Ex; [ | done].
    simpl. intros [= <- <-]. split; [done | ]. apply (Hv Hv'); [lia | done].
  - done.
  - apply toNode_object; [done | lia].
Qed.

Lemma ToNode_prefixed fn h v n : goodHeap h -> valueOK v -> prefixed fn (ToNode l h v false) = Ok n ->
  exists t, fits 0 n t.
Proof.
  intros Hh Hv. unfold ToNode. destruct (toNode l h false v 0) as [x | ] eqn:E; [ | done]. simpl. intros [= <-].
  eapply toNode_fits; [done | done | | done]. pose proof MaxNestingDepth_pos. lia.
Qed.

(** ** Builtins *)

(** The heap after a builtin: good, and the old payloads as they were. *)
Definition goodStep (h h' : Heap) : Prop := goodHeap h' /\ h `prefix_of` h'.

Lemma goodStep_refl h : goodHeap h -> goodStep h h.
Proof. by split. Qed.

Lemma wrapping_good h r : goodHeap h -> (forall n, r = Ok n -> inLimits n) -> goodStep h (snd (wrapping l h r)).
Proof.
  intros Hh Hr. destruct r as [n | e]; [ | by apply goodStep_refl]. simpl. split; [ | by apply prefix_app_r].
  apply Forall_app. split; [done | ]. constructor; [by apply Hr | done].
Qed.

Lemma Take_inLimits h fn v n : goodHeap h -> Take l h fn v = Ok n -> inLimits n.
Proof. intros Hh. unfold Take. destruct (AsNode l h v) as [x | ] eqn:E; [ | done]. intros [= <-]. by eapply AsNode_inLimits. Qed.

Lemma nodeAt_inLimits fn h args n : goodHeap h -> nodeAt l fn h args = Ok n -> inLimits n.
Proof.
  intros Hh. unfold nodeAt, Resolve. destruct args as [ | v [ | p [ | ? ?]]]; try done.
  - intros (x & Hx & H)%rbind_Ok_inv. simpl in H. injection H as <-. by eapply Take_inLimits.
  - intros (x & Hx & H)%rbind_Ok_inv. destruct p; try done. apply rbind_Ok_inv in H as (tokens & _ & H).
    eapply Walk_inLimits; [by eapply Take_inLimits | done].
Qed.

Lemma get_good fn h args : goodHeap h -> goodStep h (snd (get l fn h args)).
Proof.
  intros Hh. pose proof (wrapping_good h (nodeAt l fn h args) Hh) as H. unfold get, wrapping in *.
  destruct (nodeAt l fn h args) as [n | ] eqn:E; apply H; [ | done]. intros ? [= <-]. by eapply nodeAt_inLimits.
Qed.

Lemma construct_good k what empty fn h args : goodHeap h -> Forall valueOK args -> inLimits empty ->
  goodStep h (snd (construct l k what empty fn h args)).
Proof.
  intros Hh Ha He. destruct args as [ | v [ | ? ?]]; cbn [construct].
  - apply wrapping_good; [done | ]. by intros n [= <-].
  - apply wrapping_good; [done | ]. intros n. destruct (negb _); [done | ].
    intros (x & Hx & H)%rbind_Ok_inv. inversion Ha; subst. apply ToNode_prefixed in Hx as (t & Hw & -> & Hd); [ | done | done].
    apply checked_inv in H as (-> & Hk & Hn). by exists t.
  - by apply goodStep_refl.
Qed.

Lemma writeArgs_inv fn h args n tokens raw : goodHeap h -> Forall valueOK args ->
  writeArgs l fn h args = Ok (n, tokens, raw) ->
  exists t v, wfTree t /\ depth t <= MaxNestingDepth /\ n = rep t /\ wfTree v /\ raw = rep v.
Proof.
  intros Hh Ha. destruct args as [ | v [ | p [ | x [ | ? ?]]]]; try done. cbn [writeArgs].
  intros (m & Hm & (toks & Ht & (r & Hr & H)%rbind_Ok_inv)%rbind_Ok_inv)%rbind_Ok_inv. injection H as -> -> ->.
  apply Take_inLimits in Hm as (t & Hw & -> & Hd & _); [ | done].
  inversion Ha as [ | ? ? _ Ha1]; inversion Ha1 as [ | ? ? _ Ha2]; inversion Ha2; subst.
  apply ToNode_prefixed in Hr as (u & Hu & -> & _); [ | done | done]. by exists t, u.
Qed.

Lemma write_good fn h args (op : Node -> list string -> Node -> result message Node) :
  goodHeap h -> Forall valueOK args ->
  (forall t p v n, wfTree t -> depth t <= MaxNestingDepth -> wfTree v -> op (rep t) p (rep v) = Ok n -> inLimits n) ->
  goodStep h (snd (wrapping l h (let? w := writeArgs l fn h args in let '(n, tokens, raw) := w in op n tokens raw))).
Proof.
  intros Hh Ha Hop. apply wrapping_good; [done | ]. intros n ([[m tokens] raw] & Hw & H)%rbind_Ok_inv.
  apply writeArgs_inv in Hw as (t & v & Ht & Hd & -> & Hv & ->); [ | done | done]. by apply (Hop t tokens v).
Qed.

Lemma remove_good fn h args : goodHeap h -> goodStep h (snd (remove l fn h args)).
Proof.
  intros Hh. unfold remove. apply wrapping_good; [done | ]. intros n. destruct args as [ | v [ | p [ | ? ?]]]; try done.
  intros (m & Hm & (toks & _ & H)%rbind_Ok_inv)%rbind_Ok_inv. destruct toks as [ | seg rest]; [done | ].
  eapply Remove_inLimits; [by eapply Take_inLimits | done].
Qed.

Lemma move_good fn h args : goodHeap h -> goodStep h (snd (move l fn h args)).
Proof.
  intros Hh. unfold move. apply wrapping_good; [done | ]. intros n. destruct args as [ | v [ | p [ | q [ | ? ?]]]]; try done.
  intros (m & Hm & (from & _ & (to & _ & H)%rbind_Ok_inv)%rbind_Ok_inv)%rbind_Ok_inv.
  destruct from as [ | seg rest]; [done | ].
  apply rbind_Ok_inv in H as (moved & Hmv & (removed & Hrm & (out & Hout & H)%rbind_Ok_inv)%rbind_Ok_inv).
  apply Take_inLimits in Hm; [ | done].
  destruct (Walk_inLimits _ _ _ _ Hm Hmv) as (u & Hu & -> & _).
  destruct (Remove_inLimits _ _ _ _ _ Hm Hrm) as (t & Ht & -> & Hd & _).
  by apply (Set_checked fn t u to out).
Qed.

(** C23: every document the shared builtins make - read accessors, constructors and the write
    verbs set, insert, append, remove and move, on any arguments whose maps and structs have
    distinct keys - represents a well-formed abstract document nested no deeper than
    MaxNestingDepth and expanding to no more than MaxDecodedNodes nodes, given that the
    documents the program already holds do; and no existing document is changed. *)
Theorem documents_within_limits name fn h args r h' :
  In (name, fn) (surface FormatTime l) -> goodHeap h -> Forall valueOK args ->
  builtin l name fn h args = (r, h') -> goodHeap h' /\ h `prefix_of` h'.
Proof.
  intros Hin Hh Ha E. enough (goodStep h (snd (builtin l name fn h args))) as H by (by rewrite E in H). clear E.
  assert (forall read, goodStep h (snd (builtin l name (reading l read) h args))) as Hread by (intros; by apply goodStep_refl).
  assert (inLimits (List []) /\ inLimits (Map [] [])) as [Hl Hm].
  { pose proof MaxNestingDepth_pos. pose proof MaxDecodedNodes_bound. split.
    - exists (TList []). simpl. split; [done | ]. split; [done | ]. lia.
    - exists (TMap []). simpl. split; [split; [constructor | done] | ]. split; [done | ]. lia. }
  unfold surface in Hin. rewrite !in_app_iff in Hin.
  destruct Hin as [Hin | [Hin | [Hin | Hin]]].
  - simpl in Hin. repeat destruct Hin as [[= <- <-] | Hin]; try done; try (by apply goodStep_refl). by apply get_good.
  - destruct (HasNull l); [ | done]. destruct Hin as [[= <- <-] | []]. apply Hread.
  - destruct (TimeNode l); [ | done]. destruct Hin as [[= <- <-] | [[= <- <-] | []]]; apply Hread.
  - simpl in Hin. repeat destruct Hin as [[= <- <-] | Hin]; [ | | | | | | | done].
    + by apply construct_good.
    + by apply construct_good.
    + apply (write_good _ h args (fun n tokens raw => let? out := Set_ _ n tokens raw in checked _ (pathLen tokens) raw out)); try done.
      intros t p v n Ht Hd Hv (out & Ho & Hc)%rbind_Ok_inv. by eapply (Set_checked _ t v p out).
    + apply (write_good _ h args (fun n tokens raw => let? out := Insert_ _ n tokens raw in checked _ (pathLen tokens) raw out)); try done.
      intros t p v n Ht Hd Hv (out & Ho & Hc)%rbind_Ok_inv. by eapply (Insert_checked _ t v p _ out).
    + apply (write_good _ h args (fun n tokens raw =>
        let? out := Insert_ _ n (tokens ++ ["-"]) raw in checked _ (pathLen tokens + 1) raw out)); try done.
      intros t p v n Ht Hd Hv (out & Ho & Hc)%rbind_Ok_inv. eapply (Insert_checked _ t v (p ++ ["-"]) (pathLen p + 1) out); try done.
      unfold pathLen. rewrite length_app. simpl. lia.
    + by apply remove_good.
    + by apply move_good.
Qed.
End Limits.

(** ** A run *)

Definition plainLib : Lib := mkLib "json" true None None (fun _ => derr "no datetime" []).
Definition demoHeap : Heap := [mkPayload (rep (TMap [("a", TList [TInt 1])])) "json"].
Definition demoArgs : list Value := [VObject "json" "Value" (Some (0%nat, None)); StringVal "/a"; IntVal 2].

Lemma documents_within_limits_witness :
  @goodHeap limits_std (demoHeap ++ [mkPayload (rep (TMap [("a", TList [TInt 1; TInt 2])])) "json"]) /\
  demoHeap `prefix_of` demoHeap ++ [mkPayload (rep (TMap [("a", TList [TInt 1; TInt 2])])) "json"].
Proof.
  refine (@documents_within_limits limits_std (fun _ => "") plainLib _ "append" (@appendFn limits_std plainLib)
    demoHeap demoArgs (Ok (VObject "json" "Value" (Some (1%nat, None)))) _ _ _ _ _).
  - intros f v n [=].
  - simpl. do 14 right. by left.
  - constructor; [ | done]. exists (TMap [("a", TList [TInt 1])]).
    split; [split; [apply NoDup_singleton | done] | ]. split; [done | ]. split; by apply Z.leb_le.
  - by repeat constructor.
  - vm_compute. reflexivity.
Defined.
