(* ===== verification/DocTail.v ===== *)
(** * Appending into a shared backing array (doctree/edit.go listAppend)

    Appending to a document list may write past the end of a backing array other lists
    share.  The model keeps the arrays and the list containers apart: a container is a slice
    header (array and length) and its tail flag.  An append of a goroutine is two steps: the
    test - the capacity check with the compare-and-swap of the tail flag, which is atomic -
    and the rest, which either writes the spare cell or copies.  Any number of goroutines
    interleave.  Containers made otherwise ([List] over a fresh slice) own an array of some
    capacity and never hold the claim. *)

From S2P Require Import Prelude.
Open Scope list_scope.
Open Scope nat_scope.

Section Tail.
(** Nodes, and the zero node a fresh slice is filled with. *)
Context {A : Type} (zero : A).

(** [elems] of a container: the array and the length; and [tail]. *)
Record listC := mkListC { arr : nat; len : nat; tail : bool }.

(** An append past its test: the slice header it read, and the container it appends to. *)
Inductive pend :=
  | PWrite (src a n : nat) (val : A)
  | PCopy (src a n : nat) (val : A).

Record state := mkState {
  arrays : list (list A);
  lists : list listC;
  pending : list pend }.

(** [n < cap(c.elems) && atomic.CompareAndSwapUint32(&c.tail, 1, 0)]. *)
Definition tryClaim (s : state) (src : nat) (val : A) : option state :=
  c ← lists s !! src;
  a ← arrays s !! arr c;
  Some (if (len c <? length a) && tail c
        then mkState (arrays s) (<[src := mkListC (arr c) (len c) false]> (lists s)) (pending s ++ [PWrite src (arr c) (len c) val])
        else mkState (arrays s) (lists s) (pending s ++ [PCopy src (arr c) (len c) val])).

(** The rest of the append: in place, or into a backing of doubled capacity.  Either way
    the new container holds the claim. *)
Definition finishAppend (s : state) (p : pend) (rest : list pend) : option state :=
  match p with
  | PWrite _ a n val =>
      arrs ← arrays s !! a;
      Some (mkState (<[a := <[n := val]> arrs]> (arrays s)) (lists s ++ [mkListC a (n + 1) true]) rest)
  | PCopy _ a n val =>
      arrs ← arrays s !! a;
      Some (mkState (arrays s ++ [take n arrs ++ [val] ++ replicate (n + 3) zero])
                    (lists s ++ [mkListC (length (arrays s)) (n + 1) true]) rest)
  end.

(** A container over a fresh slice with spare capacity. *)
Definition freshList (s : state) (es spare : list A) : state :=
  mkState (arrays s ++ [es ++ spare]) (lists s ++ [mkListC (length (arrays s)) (length es) false]) (pending s).

Inductive step : state -> state -> Prop :=
  | step_fresh s es spare : step s (freshList s es spare)
  | step_test s src val s' : tryClaim s src val = Some s' -> step s s'
  | step_finish s ps p qs s' : pending s = ps ++ p :: qs -> finishAppend s p (ps ++ qs) = Some s' -> step s s'.

Definition init : state := mkState [] [] [].

Inductive reachable : state -> Prop :=
  | reachable_init : reachable init
  | reachable_step s s' : reachable s -> step s s' -> reachable s'.

(** The elements a holder of list [j] reads. *)
Definition view (s : state) (j : nat) : option (list A) :=
  c ← lists s !! j;
  a ← arrays s !! arr c;
  Some (take (len c) a).

(** ** The invariant *)

(** Who may write past the end of an array: a container with the claim, or the append that
    took it; with the cell it may write. *)
Definition claimOf (c : listC) : option (nat * nat) := if tail c then Some (arr c, len c) else None.
Definition writeOf (p : pend) : option (nat * nat) := match p with PWrite _ a n _ => Some (a, n) | PCopy _ _ _ _ => None end.
Definition owners (s : state) : list (nat * nat) := omap claimOf (lists s) ++ omap writeOf (pending s).

Definition sliceOf (p : pend) : nat * nat * nat :=
  match p with PWrite src a n _ | PCopy src a n _ => (src, a, n) end.

Record Inv (s : state) : Prop := {
  inv_list : forall j c, lists s !! j = Some c -> exists a, arrays s !! arr c = Some a /\ len c <= length a;
  inv_owner : NoDup (map fst (owners s));
  inv_bound : forall a n, (a, n) ∈ owners s -> forall j c, lists s !! j = Some c -> arr c = a -> len c <= n;
  inv_pend : forall p src a n, p ∈ pending s -> sliceOf p = (src, a, n) ->
    exists c, lists s !! src = Some c /\ arr c = a /\ len c = n;
  inv_room : forall src a n val, PWrite src a n val ∈ pending s -> exists arrs, arrays s !! a = Some arrs /\ n < length arrs }.

(** An owned array exists. *)
Lemma owner_array s a n : Inv s -> (a, n) ∈ owners s -> a < length (arrays s).
Proof.
  intros I H. unfold owners in H. apply elem_of_app in H as [H | H]; apply list_elem_of_omap in H as (x & Hx & E).
  - unfold claimOf in E. destruct (tail x); [ | done]. injection E as <- <-. apply list_elem_of_lookup_1 in Hx as [j Hj].
    destruct (inv_list s I j x Hj) as (arrs & Ha & _). by eapply lookup_lt_Some.
  - destruct x as [src a' n' val | ]; [ | done]. injection E as -> ->.
    destruct (inv_room s I _ _ _ _ Hx) as (arrs & Ha & _). by eapply lookup_lt_Some.
Qed.

Lemma Inv_init : Inv init.
Proof. split; try done; simpl; [constructor | | ]; intros; by set_solver. Qed.

(** *** Containers are only added, their slice headers stay *)

Definition extends (s s' : state) : Prop :=
  forall j c, lists s !! j = Some c -> exists c', lists s' !! j = Some c' /\ arr c' = arr c /\ len c' = len c.

Lemma extends_app s arrs l ps : extends s (mkState arrs (lists s ++ l) ps).
Proof. intros j c Hj. exists c. simpl. rewrite lookup_app_l by (by eapply lookup_lt_Some). done. Qed.

Lemma tryClaim_extends s src val s' : tryClaim s src val = Some s' -> extends s s'.
Proof.
  unfold tryClaim. destruct (lists s !! src) as [c | ] eqn:Ec; [ | done]. simpl. destruct (arrays s !! arr c); [ | done]. simpl.
  destruct (_ && _); intros [= <-] j c' Hj; simpl; [ | by exists c'].
  destruct (decide (src = j)) as [<- | Hne].
  - rewrite list_lookup_insert_eq by (by eapply lookup_lt_Some). eexists. split; [done | ]. simpl. by simplify_eq.
  - rewrite list_lookup_insert_ne by done. by exists c'.
Qed.

(** ** Preservation *)

Lemma Inv_fresh s es spare : Inv s -> Inv (freshList s es spare).
Proof.
  intros I. assert (owners (freshList s es spare) = owners s) as Eo.
  { unfold owners, freshList. simpl. by rewrite omap_app, app_nil_r. }
  split; simpl.
  - intros j c [Hj | [_ Hj]]%lookup_app_Some.
    + destruct (inv_list s I j c Hj) as (a & Ha & Hl). exists a. split; [ | done].
      rewrite lookup_app_l; [done | by eapply lookup_lt_Some].
    + apply list_lookup_singleton_Some in Hj as [_ <-]. simpl. exists (es ++ spare).
      rewrite list_lookup_middle by done. split; [done | ]. rewrite length_app. lia.
  - rewrite Eo. apply (inv_owner s I).
  - rewrite Eo. intros a n Ho j c [Hj | [_ Hj]]%lookup_app_Some Ha; [by eapply (inv_bound s I) | ].
    apply list_lookup_singleton_Some in Hj as [_ <-]. simpl in *. apply owner_array in Ho; [lia | done].
  - intros p src a n Hp Hs. destruct (inv_pend s I p src a n Hp Hs) as (c & Hc & E).
    exists c. split; [ | done]. rewrite lookup_app_l; [done | by eapply lookup_lt_Some].
  - intros src a n val Hp. destruct (inv_room s I src a n val Hp) as (arrs & Ha & E).
    exists arrs. split; [ | done]. rewrite lookup_app_l; [done | by eapply lookup_lt_Some].
Qed.

(** The claim moves from the container to the append. *)
Lemma owners_claim s src c val : lists s !! src = Some c -> tail c = true ->
  owners (mkState (arrays s) (<[src := mkListC (arr c) (len c) false]> (lists s)) (pending s ++ [PWrite src (arr c) (len c) val]))
  ≡ₚ owners s.
Proof.
  intros Hc Ht. unfold owners. simpl. rewrite omap_app. cbn.
  rewrite <- (take_drop_middle (lists s) src c) at 2 by done.
  rewrite insert_take_drop by (by eapply lookup_lt_Some). rewrite !omap_app.
  assert (claimOf c = Some (arr c, len c)) as E by (unfold claimOf; by rewrite Ht). cbn. rewrite E. solve_Permutation.
Qed.

Lemma Inv_test s src val s' : Inv s -> tryClaim s src val = Some s' -> Inv s'.
Proof.
  intros I H. pose proof (tryClaim_extends s src val s' H) as He. revert H. unfold tryClaim.
  destruct (lists s !! src) as [c | ] eqn:Ec; [ | done]. simpl. destruct (arrays s !! arr c) as [arrs | ] eqn:Ea; [ | done]. simpl.
  assert (forall p, sliceOf p = (src, arr c, len c) -> forall q src' a n, q ∈ pending s ++ [p] -> sliceOf q = (src', a, n) ->
    exists c', lists s !! src' = Some c' /\ arr c' = a /\ len c' = n) as Hp.
  { intros p Ep q src' a n [Hq | ->%list_elem_of_singleton]%elem_of_app Hs; [by eapply (inv_pend s I) | ].
    rewrite Ep in Hs. injection Hs as <- <- <-. by exists c. }
  destruct (_ && _) eqn:Et; intros [= <-].
  - apply andb_true_iff in Et as [Hlt Ht]. apply Nat.ltb_lt in Hlt.
    pose proof (owners_claim s src c val Ec Ht) as Eo.
    assert (forall j c', <[src := mkListC (arr c) (len c) false]> (lists s) !! j = Some c' ->
      exists c0, lists s !! j = Some c0 /\ arr c' = arr c0 /\ len c' = len c0) as Hb.
    { intros j c' Hj. destruct (decide (src = j)) as [<- | Hne].
      - rewrite list_lookup_insert_eq in Hj by (by eapply lookup_lt_Some). injection Hj as <-. by exists c.
      - rewrite list_lookup_insert_ne in Hj by done. by exists c'. }
    split.
    + simpl. intros j c' (c0 & Hj & -> & ->)%Hb. by eapply (inv_list s I).
    + rewrite Eo. apply (inv_owner s I).
    + intros a n Ho j c' (c0 & Hj & -> & ->)%Hb. rewrite Eo in Ho. by eapply (inv_bound s I).
    + simpl. intros q src' a n Hq Hs. destruct (Hp (PWrite src (arr c) (len c) val) eq_refl q src' a n Hq Hs) as (c' & Hc' & <- & <-).
      by apply He in Hc'.
    + simpl. intros src' a n v [Hq | Hq%list_elem_of_singleton]%elem_of_app; [by eapply (inv_room s I) | ].
      injection Hq as -> -> -> ->. by exists arrs.
  - split; simpl.
    + apply (inv_list s I).
    + unfold owners. simpl. rewrite omap_app. cbn. rewrite app_nil_r. apply (inv_owner s I).
    + unfold owners. simpl. rewrite omap_app. cbn. rewrite app_nil_r. apply (inv_bound s I).
    + by apply Hp.
    + intros src' a n v [Hq | Hq%list_elem_of_singleton]%elem_of_app; [by eapply (inv_room s I) | done].
Qed.

Lemma owners_rest s ps p qs : pending s = ps ++ p :: qs ->
  owners s ≡ₚ option_list (writeOf p) ++ omap claimOf (lists s) ++ omap writeOf (ps ++ qs).
Proof.
  intros Hp. unfold owners. rewrite Hp, !omap_app. cbn. destruct (writeOf p); simpl; solve_Permutation.
Qed.

(** What an append still to be finished needs survives: its slice header and its room. *)
Lemma pend_kept s s' ps p qs : Inv s -> pending s = ps ++ p :: qs -> pending s' = ps ++ qs -> extends s s' ->
  (forall a arrs, arrays s !! a = Some arrs -> exists arrs', arrays s' !! a = Some arrs' /\ length arrs' = length arrs) ->
  (forall q src a n, q ∈ pending s' -> sliceOf q = (src, a, n) -> exists c, lists s' !! src = Some c /\ arr c = a /\ len c = n) /\
  (forall src a n val, PWrite src a n val ∈ pending s' -> exists arrs, arrays s' !! a = Some arrs /\ n < length arrs).
Proof.
  intros I Hp Hp' He Ha. assert (forall q, q ∈ pending s' -> q ∈ pending s) as Hq by (intros q; rewrite Hp, Hp', !elem_of_app, elem_of_cons; tauto). split.
  - intros q src a n H%Hq Hs. destruct (inv_pend s I q src a n H Hs) as (c & Hc & <- & <-). by apply He.
  - intros src a n val H%Hq. destruct (inv_room s I src a n val H) as (arrs & Hr & Hl).
    destruct (Ha a arrs Hr) as (arrs' & Hr' & El). exists arrs'. split; [done | lia].
Qed.

Lemma Inv_write s ps src a n val qs arrs : Inv s -> pending s = ps ++ PWrite src a n val :: qs -> arrays s !! a = Some arrs ->
  Inv (mkState (<[a := <[n := val]> arrs]> (arrays s)) (lists s ++ [mkListC a (n + 1) true]) (ps ++ qs)).
Proof.
  intros I Hp Ha. set (s' := mkState _ _ _). pose proof (owners_rest s ps _ qs Hp) as Eo. simpl in Eo.
  assert (owners s' ≡ₚ (a, n + 1) :: omap claimOf (lists s) ++ omap writeOf (ps ++ qs)) as Eo'.
  { unfold owners, s'. simpl. rewrite !omap_app. cbn. solve_Permutation. }
  assert (forall b bs, arrays s !! b = Some bs -> exists bs', arrays s' !! b = Some bs' /\ length bs' = length bs) as Hlen.
  { intros b bs Hb. unfold s'. simpl. destruct (decide (a = b)) as [<- | Hne].
    - rewrite list_lookup_insert_eq by (by eapply lookup_lt_Some). eexists. split; [done | ]. rewrite length_insert. congruence.
    - rewrite list_lookup_insert_ne by done. by exists bs. }
  pose proof (inv_owner s I) as Hn. rewrite Eo in Hn. simpl in Hn. apply NoDup_cons in Hn as [Hn0 Hn].
  destruct (pend_kept s s' ps (PWrite src a n val) qs I Hp eq_refl (extends_app _ _ _ _) Hlen) as [Hk1 Hk2].
  assert (PWrite src a n val ∈ pending s) as Hin by (rewrite Hp; set_solver).
  split; [ | | | exact Hk1 | exact Hk2].
  - intros j c [Hj | [_ Hj]]%lookup_app_Some.
    + destruct (inv_list s I j c Hj) as (bs & Hb & Hl). destruct (Hlen _ _ Hb) as (bs' & Hb' & El). exists bs'. split; [done | lia].
    + apply list_lookup_singleton_Some in Hj as [_ <-]. destruct (inv_room s I _ _ _ _ Hin) as (bs & Hb & Hl).
      destruct (Hlen _ _ Hb) as (bs' & Hb' & El). exists bs'. split; [done | simpl; lia].
  - rewrite Eo'. simpl. by apply NoDup_cons.
  - intros b m Hb j c Hj Hc. rewrite Eo' in Hb. apply elem_of_cons in Hb as [[= -> ->] | Hb];
      apply lookup_app_Some in Hj as [Hj | [_ Hj]].
    + assert (len c <= n); [ | lia]. eapply (inv_bound s I); [rewrite Eo; by left | done | done].
    + by apply list_lookup_singleton_Some in Hj as [_ <-].
    + eapply (inv_bound s I); [rewrite Eo; by right | done | done].
    + apply list_lookup_singleton_Some in Hj as [_ <-]. simpl in Hc. subst b. exfalso. apply Hn0.
      apply list_elem_of_fmap. by exists (a, m).
Qed.

Lemma Inv_copy s ps src a n val qs arrs bs : Inv s -> pending s = ps ++ PCopy src a n val :: qs -> arrays s !! a = Some arrs ->
  n + 1 <= length bs -> Inv (mkState (arrays s ++ [bs]) (lists s ++ [mkListC (length (arrays s)) (n + 1) true]) (ps ++ qs)).
Proof.
  intros I Hp Ha Hbs. set (s' := mkState _ _ _). pose proof (owners_rest s ps _ qs Hp) as Eo. simpl in Eo.
  assert (owners s' ≡ₚ (length (arrays s), n + 1) :: owners s) as Eo'.
  { rewrite Eo. unfold owners, s'. simpl. rewrite !omap_app. cbn. solve_Permutation. }
  assert (forall b bs, arrays s !! b = Some bs -> exists bs', arrays s' !! b = Some bs' /\ length bs' = length bs) as Hlen.
  { intros b cs Hb. exists cs. unfold s'. simpl. by rewrite lookup_app_l by (by eapply lookup_lt_Some). }
  destruct (pend_kept s s' ps (PCopy src a n val) qs I Hp eq_refl (extends_app _ _ _ _) Hlen) as [Hk1 Hk2].
  split; [ | | | exact Hk1 | exact Hk2].
  - intros j c [Hj | [_ Hj]]%lookup_app_Some.
    + destruct (inv_list s I j c Hj) as (cs & Hb & Hl). destruct (Hlen _ _ Hb) as (cs' & Hb' & El). exists cs'. split; [done | lia].
    + apply list_lookup_singleton_Some in Hj as [_ <-]. exists bs. simpl. by rewrite list_lookup_middle.
  - rewrite Eo'. simpl. apply NoDup_cons. split; [ | apply (inv_owner s I)].
    intros ([b m] & E & Hb)%list_elem_of_fmap. simpl in E. subst. apply owner_array in Hb; [lia | done].
  - intros b m Hb j c Hj Hc. rewrite Eo' in Hb. apply elem_of_cons in Hb as [[= -> ->] | Hb];
      apply lookup_app_Some in Hj as [Hj | [_ Hj]].
    + destruct (inv_list s I j c Hj) as (cs & Hcs & _). rewrite Hc in Hcs. apply lookup_lt_Some in Hcs. lia.
    + by apply list_lookup_singleton_Some in Hj as [_ <-].
    + by eapply (inv_bound s I).
    + apply list_lookup_singleton_Some in Hj as [_ <-]. simpl in Hc. subst b. apply owner_array in Hb; [lia | done].
Qed.

Lemma Inv_step s s' : Inv s -> step s s' -> Inv s'.
Proof.
  intros I H. destruct H as [s es spare | s src val s' H | s ps p qs s' Hp H].
  - by apply Inv_fresh.
  - by eapply Inv_test.
  - destruct p as [src a n val | src a n val]; simpl in H; destruct (arrays s !! a) as [arrs | ] eqn:Ea; try done;
      injection H as <-; [by eapply Inv_write | ].
    eapply Inv_copy; [done | done | done | ]. rewrite length_app. simpl. rewrite length_replicate.
    destruct (inv_pend s I (PCopy src a n val) src a n) as (c & Hc & Eac & En); [rewrite Hp; set_solver | done | ].
    destruct (inv_list s I src c Hc) as (bs & Hb & Hl). rewrite Eac, Ea in Hb. injection Hb as <-. rewrite length_take. lia.
Qed.

Lemma Inv_reachable s : reachable s -> Inv s.
Proof. induction 1 as [ | s s' _ IH H]; [apply Inv_init | by eapply Inv_step]. Qed.

(** ** Holders never see a change *)

Lemma view_write s ps src a n val qs arrs j v : Inv s -> pending s = ps ++ PWrite src a n val :: qs ->
  arrays s !! a = Some arrs -> view s j = Some v ->
  view (mkState (<[a := <[n := val]> arrs]> (arrays s)) (lists s ++ [mkListC a (n + 1) true]) (ps ++ qs)) j = Some v.
Proof.
  intros I Hp Ha. unfold view. simpl. destruct (lists s !! j) as [c | ] eqn:Hj; [ | done]. simpl.
  rewrite lookup_app_l, Hj by (by eapply lookup_lt_Some). simpl. destruct (decide (a = arr c)) as [-> | Hne].
  - rewrite list_lookup_insert_eq by (by eapply lookup_lt_Some). rewrite Ha. simpl. rewrite take_insert_ge; [done | ].
    eapply (inv_bound s I); [ | done | done]. rewrite (owners_rest s ps _ qs Hp). by left.
  - by rewrite list_lookup_insert_ne.
Qed.

Lemma view_app s bs l ps j v : view s j = Some v -> view (mkState (arrays s ++ bs) (lists s ++ l) ps) j = Some v.
Proof.
  unfold view. simpl. destruct (lists s !! j) as [c | ] eqn:Hj; [ | done]. simpl.
  rewrite lookup_app_l, Hj by (by eapply lookup_lt_Some). simpl.
  destruct (arrays s !! arr c) as [a | ] eqn:Ha; [ | done]. by rewrite lookup_app_l, Ha by (by eapply lookup_lt_Some).
Qed.

Lemma view_step s s' j v : Inv s -> step s s' -> view s j = Some v -> view s' j = Some v.
Proof.
  intros I H Hv. destruct H as [s es spare | s src val s' H | s ps p qs s' Hp H].
  - by apply view_app.
  - pose proof (tryClaim_extends s src val s' H) as He. revert Hv. unfold view.
    destruct (lists s !! j) as [c | ] eqn:Hj; [ | done]. apply He in Hj as (c' & -> & Ea & El). simpl. rewrite Ea, El.
    assert (arrays s' = arrays s) as ->; [ | done]. revert H. unfold tryClaim.
    destruct (lists s !! src) as [x | ]; [ | done]. simpl. destruct (arrays s !! arr x); [ | done]. simpl.
    by destruct (_ && _); intros [= <-].
  - destruct p as [src a n val | src a n val]; simpl in H; destruct (arrays s !! a) as [arrs | ] eqn:Ea; try done;
      injection H as <-; [by apply (view_write s ps src a n val qs) | by apply view_app].
Qed.

(** The list an append returns. *)
Lemma view_finish s ps p qs s' src a n (val := match p with PWrite _ _ _ v | PCopy _ _ _ v => v end) :
  Inv s -> pending s = ps ++ p :: qs -> sliceOf p = (src, a, n) -> finishAppend s p (ps ++ qs) = Some s' ->
  exists v, view s src = Some v /\ view s' (length (lists s)) = Some (v ++ [val]).
Proof.
  intros I Hp Hs H. destruct (inv_pend s I p src a n) as (c & Hc & Eac & En); [rewrite Hp; set_solver | done | ].
  destruct (inv_list s I src c Hc) as (bs & Hb & Hl). exists (take n bs). unfold view. rewrite Hc. simpl. rewrite Hb. simpl.
  rewrite En. split; [done | ]. rewrite Eac in Hb.
  destruct p as [src' a' n' v | src' a' n' v]; simpl in Hs; injection Hs as -> -> ->; simpl in H; rewrite Hb in H; simpl in H;
    injection H as <-; simpl; rewrite list_lookup_middle by done; simpl.
  - rewrite list_lookup_insert_eq by (by eapply lookup_lt_Some). simpl. f_equal.
    destruct (inv_room s I src a n v) as (bs' & Hb' & Hlt); [rewrite Hp; set_solver | ].
    rewrite Hb in Hb'. injection Hb' as <-. rewrite Nat.add_1_r, (take_S_r _ n v); [ | by rewrite list_lookup_insert_eq].
    by rewrite take_insert_ge.
  - rewrite list_lookup_middle by done. simpl. f_equal.
    assert (length (take n bs) = n) as Hn by (rewrite length_take; lia).
    rewrite take_app, take_ge by lia. f_equal. replace (n + 1 - length (take n bs)) with 1 by lia. done.
Qed.

(** C28: appending to document lists is safe when goroutines share them.  In every reachable
    state, whatever step comes next: each list keeps the elements its holders read; an append
    that finishes returns a list with the elements of its source and the value appended; and
    the appends about to write in place write different arrays, each past the end of every
    list over that array, so no write races with another write or with a read. *)
Theorem append_never_changes_a_list s : reachable s ->
  (forall s' j v, step s s' -> view s j = Some v -> view s' j = Some v) /\
  (forall ps p qs src a n, pending s = ps ++ p :: qs -> sliceOf p = (src, a, n) ->
     exists s' v, finishAppend s p (ps ++ qs) = Some s' /\ view s src = Some v /\
       view s' (length (lists s)) = Some (v ++ [match p with PWrite _ _ _ v | PCopy _ _ _ v => v end])) /\
  NoDup (map fst (omap writeOf (pending s))) /\
  (forall src a n val j c, PWrite src a n val ∈ pending s -> lists s !! j = Some c -> arr c = a -> len c <= n).
Proof.
  intros I%Inv_reachable. split; [by intros; eapply view_step | ]. split.
  - intros ps p qs src a n Hp Hs. destruct (inv_pend s I p src a n) as (c & Hc & Eac & En); [rewrite Hp; set_solver | done | ].
    destruct (inv_list s I src c Hc) as (bs & Hb & _). rewrite Eac in Hb.
    assert (exists s', finishAppend s p (ps ++ qs) = Some s') as [s' H].
    { destruct p; simpl in *; injection Hs as -> -> ->; rewrite Hb; by eexists. }
    destruct (view_finish s ps p qs s' src a n I Hp Hs H) as (v & Hv & Hv'). by exists s', v.
  - split.
    + pose proof (inv_owner s I) as H. unfold owners in H. rewrite map_app in H. by apply NoDup_app in H as (_ & _ & H).
    + intros src a n val j c Hp Hj Hc. eapply (inv_bound s I); [ | done | done]. unfold owners. apply elem_of_app. right.
      apply list_elem_of_omap. by exists (PWrite src a n val).
Qed.
End Tail.

(** A list of one element, one append, then two appends to the result: of these the first is
    in place and the second copies. *)
Definition demoState : option (@state nat) :=
  s ← tryClaim (freshList init [7] []) 0 8;
  s ← match pending s with [p] => finishAppend 0 s p [] | _ => None end;
  s ← tryClaim s 1 9;
  tryClaim s 1 10.

Lemma append_never_changes_a_list_witness :
  exists s, demoState = Some s /\ view s 1 = Some [7; 8] /\
    map sliceOf (pending s) = [(1, 1, 2); (1, 1, 2)] /\ omap writeOf (pending s) = [(1, 2)] /\
    (forall s' j v, step 0 s s' -> view s j = Some v -> view s' j = Some v).
Proof.
  destruct demoState as [s | ] eqn:E; [ | discriminate E]. exists s. split; [reflexivity | ].
  assert (reachable 0 s) as Hr.
  { pose proof (reachable_step 0 _ _ (reachable_init 0) (step_fresh 0 init [7] [])) as R.
    pose proof (reachable_step 0 _ _ R (step_test 0 (freshList init [7] []) 0 8 _ eq_refl)) as R1. cbn in R1.
    match type of R1 with reachable _ ?s1 =>
      pose proof (reachable_step 0 _ _ R1 (step_finish 0 s1 [] _ [] _ eq_refl eq_refl)) as R2 end. cbn in R2.
    match type of R2 with reachable _ ?s2 => pose proof (reachable_step 0 _ _ R2 (step_test 0 s2 1 9 _ eq_refl)) as R3 end. cbn in R3.
    match type of R3 with reachable _ ?s3 => pose proof (reachable_step 0 _ _ R3 (step_test 0 s3 1 10 _ eq_refl)) as R4 end. cbn in R4.
    unfold demoState in E. cbn in E. injection E as <-. exact R4. }
  pose proof (append_never_changes_a_list 0 s Hr) as [H _]. unfold demoState in E. cbn in E. injection E as <-.
  do 3 (split; [reflexivity | ]). exact H.
Defined.
