(* ===== verification/Json.v ===== *)
(** * The json library (internal/lib/json)

    The decoder of jsondecode.go and the encoder of jsonlib.go over the document tree.  The
    text is a string of bytes; a decoder's position is the text it still has to read
    ([rest]), with the two stacks its containers collect on.  [OutOfFuel] marks fuel that ran
    out; JsonFacts shows that the fuel given is always enough. *)

From Stdlib Require Import Ascii.
From S2P Require Import Prelude Utf8 GoInt Float64 Strconv GoSort Limits Types Value Display Doctree DocLib.
Open Scope string_scope.
Open Scope list_scope.
Open Scope Z_scope.
Open Scope go_scope.

Definition JsonName : string := "json".

(** ** The decoder *)

Inductive jerr :=
  | JErr (m : message)
  | OutOfFuel.

Record decoder := mkDecoder {
  rest : string;
  delems : list Node;
  dkeys : list string;
  ddepth : Z;
  dnodes : Z }.

Definition jr (A : Type) : Type := result jerr (A * decoder).

Definition setRest (d : decoder) (r : string) : decoder := mkDecoder r (delems d) (dkeys d) (ddepth d) (dnodes d).
Definition setDepth (d : decoder) (n : Z) : decoder := mkDecoder (rest d) (delems d) (dkeys d) n (dnodes d).
Definition setNodes (d : decoder) (n : Z) : decoder := mkDecoder (rest d) (delems d) (dkeys d) (ddepth d) n.
Definition setStacks (d : decoder) (es : list Node) (ks : list string) : decoder :=
  mkDecoder (rest d) es ks (ddepth d) (dnodes d).

Definition isWS (c : ascii) : bool :=
  bool_decide (c = " "%char) || (byte_of c =? 9) || (byte_of c =? 10) || (byte_of c =? 13).

Fixpoint wsRest (r : string) : string :=
  match r with
  | String c r' => if isWS c then wsRest r' else r
  | EmptyString => r
  end.

Definition skipWS (d : decoder) : decoder := setRest d (wsRest (rest d)).

Definition isDigit (c : ascii) : bool := inChars "0" "9" c.

Definition smallObject : nat := 8.

(** [utf16.IsSurrogate], [utf16.DecodeRune]. *)
Definition IsSurrogate (r : Z) : bool := (55296 <=? r) && (r <? 57344).
Definition DecodeRune (r1 r2 : Z) : Z :=
  if (55296 <=? r1) && (r1 <? 56320) && (56320 <=? r2) && (r2 <? 57344)
  then Z.lor (Z.shiftl (r1 - 55296) 10) (r2 - 56320) + 65536
  else RuneError.

(** The byte of a one-letter escape. *)
Definition escapeByte (c : ascii) : option ascii :=
  let b := byte_of c in
  if b =? 34 then Some c
  else if b =? 92 then Some c
  else if b =? 47 then Some c
  else if b =? 110 then Some (chr 10)
  else if b =? 116 then Some (chr 9)
  else if b =? 114 then Some (chr 13)
  else if b =? 98 then Some (chr 8)
  else if b =? 102 then Some (chr 12)
  else None.

(** Whether the next byte is there and satisfies a test ([d.pos < len(d.s) && ...]). *)
Definition startsWith (p : ascii -> bool) (r : string) : bool :=
  match r with String c _ => p c | EmptyString => false end.

Definition startsDigit : string -> bool := startsWith isDigit.
Definition startsQuote : string -> bool := startsWith (fun c => byte_of c =? 34).
Definition isChar (c : ascii) : ascii -> bool := fun x => bool_decide (x = c).

(** Past the next byte when it satisfies the test. *)
Definition skipIf (p : ascii -> bool) (r : string) : string := if startsWith p r then sdrop 1 r else r.

Fixpoint dropDigits (r : string) : string :=
  match r with
  | String c r' => if isDigit c then dropDigits r' else r
  | EmptyString => r
  end.

Section Decode.
Context {L : Limits}.
(** The whole text ([d.s]), for positions. *)
Variable s : string.

Fixpoint lineCol (line col : Z) (t : string) : Z * Z :=
  match t with
  | EmptyString => (line, col)
  | String c t => if byte_of c =? 10 then lineCol (line + 1) 1 t else lineCol line (col + 1) t
  end.

Definition errf {A} (d : decoder) (fmt : string) (args : list fmtarg) : jr A :=
  let '(line, col) := lineCol 1 1 (stake (String.length s - String.length (rest d)) s) in
  Err (JErr (Sprintf (fmt +:+ " at line %d, column %d") (args ++ [AInt line; AInt col]))).

(** *** Strings *)

(** A string with no escape: its text, and what follows its closing quote. *)
Fixpoint fastScan (r : string) : option (string * string) :=
  match r with
  | EmptyString => None
  | String c r' =>
      if byte_of c =? 34 then Some ("", r')
      else if (byte_of c =? 92) || (byte_of c <? 32) then None
      else match fastScan r' with Some (a, b) => Some (String c a, b) | None => None end
  end.

Definition readHex4 (d : decoder) : jr Z :=
  let r := sdrop 1 (rest d) in
  if (String.length r <? 4)%nat then errf (setRest d r) "incomplete \u escape" []
  else
    match ParseUint (stake 4 r) 16 with
    | Err _ => errf (setRest d r) "invalid \u escape" []
    | Ok v => Ok (v, setRest d (sdrop 4 r))
    end.

Definition parseUnicodeEscape (d : decoder) : jr Z :=
  let? x := readHex4 d in
  let '(hi, d) := x in
  if IsSurrogate hi then
    match rest d with
    | String c (String u r) =>
        if (byte_of c =? 92) && bool_decide (u = "u"%char) then
          let? y := readHex4 (setRest d (String u r)) in
          let '(lo, d) := y in
          let r := DecodeRune hi lo in
          if r =? RuneError then errf d "invalid surrogate pair" [] else Ok (r, d)
        else errf d "unpaired surrogate" []
    | _ => errf d "unpaired surrogate" []
    end
  else Ok (hi, d).

Fixpoint slowScan (fuel : nat) (d : decoder) (sb : string) : jr string :=
  match fuel with
  | O => Err OutOfFuel
  | S fuel =>
      match rest d with
      | EmptyString => errf d "unterminated string" []
      | String c r =>
          if byte_of c =? 34 then Ok (sb, setRest d r)
          else if byte_of c =? 92 then
            match r with
            | EmptyString => errf (setRest d r) "unterminated escape" []
            | String e r' =>
                match escapeByte e with
                | Some b => slowScan fuel (setRest d r') (sb +:+ String b "")
                | None =>
                    if bool_decide (e = "u"%char) then
                      let? x := parseUnicodeEscape (setRest d r) in
                      let '(ru, d) := x in
                      slowScan fuel d (sb +:+ encodeRune ru)
                    else errf (setRest d r) "invalid escape \%c" [AStr (encodeRune (byte_of e))]
                end
            end
          else if byte_of c <? 32 then errf d "control character U+%04X in string" [AInt (byte_of c)]
          else slowScan fuel (setRest d r) (sb +:+ String c "")
      end
  end.

(** At the opening quote. *)
Definition parseString (d : decoder) : jr string :=
  let r := sdrop 1 (rest d) in
  match fastScan r with
  | Some (t, r') => Ok (t, setRest d r')
  | None => slowScan (S (String.length r)) (setRest d r) ""
  end.

(** *** Literals and numbers *)

Definition parseKeyword (d : decoder) : jr Node :=
  if HasPrefix (rest d) "true" then Ok (NBool true, setRest d (sdrop 4 (rest d)))
  else if HasPrefix (rest d) "false" then Ok (NBool false, setRest d (sdrop 5 (rest d)))
  else if HasPrefix (rest d) "null" then Ok (Null, setRest d (sdrop 4 (rest d)))
  else errf d "invalid literal" [].

(** The number at the head of the text: whether it has a fraction or an exponent, and what
    follows it. *)
Definition scanNumber (d : decoder) : jr bool :=
  let r := skipIf (isChar "-") (rest d) in
  if negb (startsDigit r) then errf (setRest d r) "invalid number: expected a digit" []
  else
    let r := if startsWith (isChar "0") r then sdrop 1 r else dropDigits r in
    let? x := if startsWith (isChar ".") r then
                let r := sdrop 1 r in
                if negb (startsDigit r) then errf (setRest d r) "invalid number: a fraction needs at least one digit" []
                else Ok (true, setRest d (dropDigits r))
              else Ok (false, setRest d r) in
    let '(isFloat, d) := x in
    let? x := if startsWith (fun c => isChar "e" c || isChar "E" c) (rest d) then
                let r := skipIf (fun c => isChar "+" c || isChar "-" c) (sdrop 1 (rest d)) in
                if negb (startsDigit r) then errf (setRest d r) "invalid number: an exponent needs at least one digit" []
                else Ok (true, setRest d (dropDigits r))
              else Ok (isFloat, d) in
    let '(isFloat, d) := x in
    if startsDigit (rest d) then errf d "invalid number: leading zeros are not allowed" []
    else Ok (isFloat, d).

Definition parseNumber (d : decoder) : jr Node :=
  let? x := scanNumber d in
  let '(isFloat, d') := x in
  let tok := stake (String.length (rest d) - String.length (rest d')) (rest d) in
  if negb isFloat && bool_decide (tok = "-0") then Ok (NFloat (fneg fzero), d')
  else
    match (if isFloat then Err "" else ParseInt tok 10) with
    | Ok n => Ok (NInt n, d')
    | Err _ =>
        match parseSigned tok with
        | Ok f => Ok (NFloat f, d')
        | Err _ => errf d' "invalid number %q" [AStr tok]
        end
    end.

(** *** Containers *)

Section Containers.
(** [parseValue], for the members. *)
Variable pv : decoder -> jr Node.

Fixpoint arrayLoop (fuel : nat) (base : nat) (d : decoder) : jr Node :=
  match fuel with
  | O => Err OutOfFuel
  | S fuel =>
      let? x := pv (skipWS d) in
      let '(v, d) := x in
      let d := skipWS (setStacks d (delems d ++ [v]) (dkeys d)) in
      if bool_decide (rest d = "") then errf d "unterminated array" []
      else if startsWith (isChar ",") (rest d) then arrayLoop fuel base (setRest d (sdrop 1 (rest d)))
      else if startsWith (isChar "]") (rest d) then
        Ok (List (drop base (delems d)), setRest (setStacks d (take base (delems d)) (dkeys d)) (sdrop 1 (rest d)))
      else errf d "expected ',' or ']' in array" []
  end.

Definition parseArray (d : decoder) : jr Node :=
  let d := setRest d (sdrop 1 (rest d)) in
  let base := length (delems d) in
  let d := skipWS d in
  if startsWith (isChar "]") (rest d) then Ok (List [], setRest d (sdrop 1 (rest d)))
  else arrayLoop (S (String.length (rest d))) base d.

(** Whether a key is already in the object, and the set kept for a large one. *)
Definition seenBefore (seen : option (gset string)) (ks : list string) (key : string) : bool * option (gset string) :=
  match seen with
  | Some m => (bool_decide (key ∈ m), Some ({[key]} ∪ m))
  | None =>
      if (length ks <? smallObject)%nat then (bool_decide (key ∈ ks), None)
      else let m := list_to_set ks in (bool_decide (key ∈ m), Some ({[key]} ∪ m))
  end.

Fixpoint objectLoop (fuel : nat) (kbase ebase : nat) (seen : option (gset string)) (d : decoder) : jr Node :=
  match fuel with
  | O => Err OutOfFuel
  | S fuel =>
      let d := skipWS d in
      if negb (startsQuote (rest d)) then errf d "expected string key in object" []
      else
        let keyStart := rest d in
        let? x := parseString d in
        let '(key, d) := x in
        let '(dup, seen) := seenBefore seen (drop kbase (dkeys d)) key in
        if dup then errf (setRest d keyStart) "duplicate key %q in object" [AStr key]
        else
          let d := skipWS d in
          if negb (startsWith (isChar ":") (rest d)) then errf d "expected ':' after object key" []
          else
            let d := skipWS (setRest d (sdrop 1 (rest d))) in
            let? x := pv (setStacks d (delems d) (dkeys d ++ [key])) in
            let '(val, d) := x in
            let d := skipWS (setStacks d (delems d ++ [val]) (dkeys d)) in
            if bool_decide (rest d = "") then errf d "unterminated object" []
            else if startsWith (isChar ",") (rest d) then objectLoop fuel kbase ebase seen (setRest d (sdrop 1 (rest d)))
            else if startsWith (isChar "}") (rest d) then
              Ok (Map (drop kbase (dkeys d)) (drop ebase (delems d)),
                  setRest (setStacks d (take ebase (delems d)) (take kbase (dkeys d))) (sdrop 1 (rest d)))
            else errf d "expected ',' or '}' in object" []
  end.

Definition parseObject (d : decoder) : jr Node :=
  let d := setRest d (sdrop 1 (rest d)) in
  let kbase := length (dkeys d) in
  let ebase := length (delems d) in
  let d := skipWS d in
  if startsWith (isChar "}") (rest d) then Ok (Map [] [], setRest d (sdrop 1 (rest d)))
  else objectLoop (S (String.length (rest d))) kbase ebase None d.

(** One level deeper, within the nesting limit. *)
Definition nested (p : decoder -> jr Node) (d : decoder) : jr Node :=
  if MaxNestingDepth <=? ddepth d then errf d "nesting exceeds %d levels" [AInt MaxNestingDepth]
  else
    let? x := p (setDepth d (ddepth d + 1)) in
    let '(v, d) := x in
    Ok (v, setDepth d (ddepth d - 1)).
End Containers.

(** *** Values *)

Fixpoint parseValue (fuel : nat) (d : decoder) : jr Node :=
  match fuel with
  | O => Err OutOfFuel
  | S fuel =>
      match rest d with
      | EmptyString => errf d "unexpected end of input" []
      | String c _ =>
          let d := setNodes d (dnodes d + 1) in
          if MaxDecodedNodes <? dnodes d then
            errf d "document expands to more than %d nodes (input rejected as a decode bomb)" [AInt MaxDecodedNodes]
          else if isChar "{" c then nested (parseObject (parseValue fuel)) d
          else if isChar "[" c then nested (parseArray (parseValue fuel)) d
          else if byte_of c =? 34 then
            let? x := parseString d in
            let '(t, d) := x in
            Ok (NString t, d)
          else if isChar "t" c || isChar "f" c then parseKeyword d
          else if isChar "n" c then parseKeyword d
          else if isChar "-" c || isDigit c then parseNumber d
          else errf d "unexpected character %q" [AStr (encodeRune (byte_of c))]
      end
  end.

(** The nesting limit bounds the recursion. *)
Definition valueFuel : nat := S (S (Z.to_nat MaxNestingDepth)).

Definition decodeText : result jerr Node :=
  let? x := parseValue valueFuel (skipWS (mkDecoder s [] [] 0 0)) in
  let '(v, d) := x in
  let d := skipWS d in
  match rest d with
  | EmptyString => Ok v
  | String _ _ =>
      match errf (A := Node) d "unexpected trailing content" [] with Err e => Err e | Ok (v, _) => Ok v end
  end.
End Decode.

(** [None] stands for fuel that ran out. *)
Definition decodeFn {L : Limits} (args : list Value) : option (result message Node) :=
  match args with
  | [VString s _] =>
      match decodeText s with
      | Ok v => Some (Ok v)
      | Err (JErr m) => Some (Err (Sprintf ("json.decode: " +:+ msg_format m) (msg_args m)))
      | Err OutOfFuel => None
      end
  | [v] => Some (derr "json.decode: argument must be string, got %s" [AStr (ValueKind_String (kindOf v))])
  | _ => Some (derr "json.decode expects 1 argument (string), got %d" [AInt (Z.of_nat (length args))])
  end.

(** ** The encoder *)

(** Digit [n] in base 16. *)
Definition hexDigit (n : Z) : ascii := chr (if n <? 10 then 48 + n else 87 + n).

(** [\u] and four hexadecimal digits. *)
Definition unicodeEscape (r : Z) : string :=
  String (chr 92) (String "u" (String (hexDigit (r / 4096)) (String (hexDigit (r / 256 mod 16))
    (String (hexDigit (r / 16 mod 16)) (String (hexDigit (r mod 16)) ""))))).

Definition escaped (c : ascii) : string := String (chr 92) (String c "").

Definition encodeStringRune (r : Z) : string :=
  if r =? 34 then escaped (chr 34)
  else if r =? 92 then escaped (chr 92)
  else if r =? 10 then escaped "n"
  else if r =? 13 then escaped "r"
  else if r =? 9 then escaped "t"
  else if r =? 8 then escaped "b"
  else if r =? 12 then escaped "f"
  else if (r =? 60) || (r =? 62) || (r =? 38) || (r =? 8232) || (r =? 8233) then unicodeEscape r
  else if r <? 32 then unicodeEscape r
  else encodeRune r.

Fixpoint encodeRunes (rs : list rune) : string :=
  match rs with
  | [] => ""
  | r :: rs => encodeStringRune r +:+ encodeRunes rs
  end.

Definition quote : string := String (chr 34) "".

Definition encodeString (s : string) : string := quote +:+ encodeRunes (runes_of_string s) +:+ quote.

Definition colon (pretty : bool) : string := if pretty then ": " else ":".

Definition newlineIndent (pretty : bool) (depth : Z) : string :=
  if pretty then String (chr 10) (Repeat " " (Z.to_nat (depth * 2))) else "".

Fixpoint seqItems (pretty : bool) (depth : Z) (first : bool) (items : list (result message string)) : result message string :=
  match items with
  | [] => Ok ""
  | it :: its =>
      let? x := it in
      let? xs := seqItems pretty depth false its in
      Ok ((if first then "" else ",") +:+ newlineIndent pretty (depth + 1) +:+ x +:+ xs)
  end.

(** An array or object body, the items being what [item(i)] writes. *)
Definition encodeSeq (pretty : bool) (depth : Z) (open close : string) (items : list (result message string)) : result message string :=
  match items with
  | [] => Ok (open +:+ close)
  | _ =>
      let? body := seqItems pretty depth true items in
      Ok (open +:+ body +:+ newlineIndent pretty depth +:+ close)
  end.

(** [strings.ContainsAny(s, chars)]. *)
Fixpoint ContainsAny (p : ascii -> bool) (s : string) : bool :=
  match s with EmptyString => false | String c s => p c || ContainsAny p s end.

Definition pointOrExp (c : ascii) : bool :=
  isChar "." c || isChar "e" c || isChar "E" c.

Section Encode.
Context `{L : Limits} `{GT : GoText}.

Definition floatText (f : float64) : string :=
  let s := FormatFloat f in
  if ContainsAny pointOrExp s then s else s +:+ ".0".

Definition writeFloat (f : float64) : result message string :=
  if IsNaN f || IsInf f then derr "cannot encode non-finite float" []
  else Ok (floatText f).

Definition boolText (b : bool) : string := if b then "true" else "false".

Definition tooDeep {A} : result message A := derr "value nests deeper than the %d-level limit" [AInt MaxNestingDepth].

(** A member: its key, the colon and its value. *)
Definition member (pretty : bool) (k : string) (v : result message string) : result message string :=
  let? x := v in Ok (encodeString k +:+ colon pretty +:+ x).

(** [f(n.Key(i), n.Elem(i))] for every member. *)
Definition withKeys {B} (f : string -> Node -> B) : list string -> list Node -> list B :=
  fix go ks es :=
    match es with
    | [] => []
    | e :: es => f (default "" (head ks)) e :: go (List.tl ks) es
    end.

Fixpoint encodeNode (n : Node) (pretty : bool) (depth : Z) {struct n} : result message string :=
  if MaxNestingDepth <? depth then tooDeep
  else
    match n with
    | NNull => Ok "null"
    | NBool b => Ok (boolText b)
    | NInt i => Ok (FormatInt i)
    | NFloat f => writeFloat f
    | NString s => Ok (encodeString s)
    | NList c => encodeSeq pretty depth "[" "]" (map (fun e => encodeNode e pretty (depth + 1)) (elems c))
    | NMap c =>
        encodeSeq pretty depth "{" "}"
          (withKeys (fun k e => member pretty k (encodeNode e pretty (depth + 1))) (keys c) (elems c))
    | _ => derr "cannot encode a %s node" [AStr (TypeName n)]
    end.

(** The json library's handle on the shared surface. *)
Definition display (n : Node) : result message string := encodeNode n false 0.
Definition lib : Lib := mkLib JsonName true (Some display) None (fun _ => derr "no datetime" []).

Fixpoint encodeValue (h : Heap) (v : Value) (pretty : bool) (depth : Z) {struct v} : result message string :=
  if MaxNestingDepth <? depth then tooDeep
  else
    match v with
    | VNull => Ok "null"
    | VBool b => Ok (boolText b)
    | VInt n => Ok (FormatInt n)
    | VFloat f => writeFloat f
    | VString s _ => Ok (encodeString s)
    | VBytes b => Ok (encodeString (EncodeToString b))
    | VList vs _ => encodeSeq pretty depth "[" "]" (map (fun v => encodeValue h v pretty (depth + 1)) vs)
    | VMap es _ _ _ =>
        match filter (fun e => kindOf (fst e) <> KindString) es with
        | (k, _) :: _ => derr "map key must be string, got %s" [AStr (ValueKind_String (kindOf k))]
        | [] =>
            encodeSeq pretty depth "{" "}"
              (map (fun '(k, v) => member pretty (match k with VString s _ => s | _ => "" end)
                                     (encodeValue h v pretty (depth + 1))) es)
        end
    | VStruct _ _ _ fs =>
        encodeSeq pretty depth "{" "}" (map (fun '(k, v) => member pretty k (encodeValue h v pretty (depth + 1))) fs)
    | VEnum _ _ _ variant fs =>
        match fs with
        | [] => Ok (encodeString variant)
        | _ =>
            encodeSeq pretty depth "{" "}"
              [member pretty variant
                 (encodeSeq pretty (depth + 1) "{" "}"
                    (map (fun '(k, v) => member pretty k (encodeValue h v pretty (depth + 2))) fs))]
        end
    | VObject ns name _ =>
        match AsNode lib h v with
        | Some n => encodeNode n pretty depth
        | None => derr "cannot encode an opaque %s.%s value" [AStr ns; AStr name]
        end
    | VTask _ => derr "cannot encode a task value" []
    | _ => derr "cannot encode value of kind %s" [AStr (ValueKind_String (kindOf v))]
    end.

Definition encodeFn (h : Heap) (args : list Value) (pretty : bool) : result message Value :=
  let verb := if pretty then "json.encodePretty" else "json.encode" in
  match args with
  | [v] => let? s := prefixed verb (encodeValue h v pretty 0) in Ok (StringVal s)
  | _ => derr "%s expects 1 argument (value), got %d" [AStr verb; AInt (Z.of_nat (length args))]
  end.
End Encode.
