(* ===== verification/JsonFacts.v ===== *)
(** * json.decode always returns, with a document within the limits

    The decoder never runs out of fuel, and what it returns represents a well-formed abstract
    document (no key twice) nested no deeper than [MaxNestingDepth] with at most
    [MaxDecodedNodes] nodes: the invariant the write verbs keep (DocLibFacts). *)

From Stdlib Require Import Ascii.
From S2P Require Import Prelude Utf8 GoInt Float64 Strconv GoSort Limits Types Value Display Doctree DocFacts.
From S2P Require Import DocFacts DocLaws DocLib DocLibFacts Json.
Open Scope string_scope.
Open Scope list_scope.
Open Scope Z_scope.
Open Scope go_scope.

#[local] Arguments String.length : simpl nomatch.

(** Fields of an updated decoder. *)
Ltac dsimpl := unfold skipWS, setStacks, setRest, setDepth, setNodes in *; cbn [rest delems dkeys ddepth dnodes] in *.

(** ** Text only gets shorter *)

Lemma wsRest_length r : (String.length (wsRest r) <= String.length r)%nat.
Proof. induction r as [ | c r IH]; simpl; [done | ]. destruct (isWS c); simpl; lia. Qed.

Lemma dropDigits_length r : (String.length (dropDigits r) <= String.length r)%nat.
Proof. induction r as [ | c r IH]; simpl; [done | ]. destruct (isDigit c); simpl; lia. Qed.

Lemma dropDigits_shorter r : startsDigit r = true -> (String.length (dropDigits r) < String.length r)%nat.
Proof. unfold startsDigit. destruct r as [ | c r]; simpl; [done | ]. intros ->. pose proof (dropDigits_length r). lia. Qed.

Lemma fastScan_length r t r' : fastScan r = Some (t, r') -> (String.length r' < String.length r)%nat.
Proof.
  revert t. induction r as [ | c r IH]; intros t; simpl; [done | ]. destruct (_ =? 34); [intros [= _ <-]; lia | ].
  destruct (_ || _); [done | ]. destruct (fastScan r) as [[a b] | ]; [ | done]. intros [= <- <-]. specialize (IH a eq_refl). lia.
Qed.

(** ** Reading below a container *)

Section Total.
Context {L : Limits}.
Variable s : string.

(** A result that only moved on in the text, by at least [n] bytes. *)
Definition moved {A} (n : nat) (d : decoder) (r : jr A) : Prop :=
  r <> Err OutOfFuel /\
  forall x d', r = Ok (x, d') -> exists r', d' = setRest d r' /\ (n + String.length r' <= String.length (rest d))%nat.

Lemma moved_errf {A} n d d0 fmt args : moved n d (errf (A := A) s d0 fmt args).
Proof. unfold errf. by destruct (lineCol _ _ _). Qed.

Lemma moved_Ok {A} n d (x : A) r : (n + String.length r <= String.length (rest d))%nat -> moved n d (Ok (x, setRest d r)).
Proof. intros H. split; [done | ]. intros y d' [= <- <-]. by exists r. Qed.

Lemma moved_here {A} d (x : A) : moved 0 d (Ok (x, d)).
Proof. split; [done | ]. intros y d' [= <- <-]. exists (rest d). split; [by destruct d | lia]. Qed.

Lemma moved_bind {A B} n m d (p : jr A) (k : A * decoder -> jr B) :
  moved n d p -> (forall x r, (n + String.length r <= String.length (rest d))%nat -> moved m (setRest d r) (k (x, setRest d r))) ->
  moved (n + m) d (rbind p k).
Proof.
  intros [Hp Hp'] Hk. destruct p as [[x d'] | e]; simpl.
  - destruct (Hp' x d' eq_refl) as (r & -> & Hr). destruct (Hk x r Hr) as [H1 H2]. split; [done | ].
    intros y d' E. destruct (H2 y d' E) as (r' & -> & Hr'). exists r'. split; [done | ]. simpl in Hr'. lia.
  - split; [congruence | done].
Qed.

(** Starting [n] bytes later in the text. *)
Lemma moved_from {A} n m d r (p : jr A) : (n + String.length r <= String.length (rest d))%nat ->
  moved m (setRest d r) p -> moved (n + m) d p.
Proof.
  intros Hr [H1 H2]. split; [done | ]. intros x d' E. destruct (H2 x d' E) as (r' & -> & Hr'). exists r'. split; [done | ].
  simpl in Hr'. lia.
Qed.

Lemma moved_weaken {A} n m d (p : jr A) : (m <= n)%nat -> moved n d p -> moved m d p.
Proof. intros Hm [H1 H2]. split; [done | ]. intros x d' E. destruct (H2 x d' E) as (r' & -> & Hr'). exists r'. split; [done | lia]. Qed.

Lemma readHex4_moved d : moved 1 d (readHex4 s d).
Proof.
  unfold readHex4. destruct (_ <? 4)%nat eqn:E; [apply moved_errf | ]. apply Nat.ltb_ge in E.
  destruct (ParseUint _ _); [ | apply moved_errf].
  apply (moved_Ok 1 d _ (sdrop 4 (sdrop 1 (rest d)))). rewrite sdrop_length in *. rewrite sdrop_length. lia.
Qed.

Lemma parseUnicodeEscape_moved d : moved 1 d (parseUnicodeEscape s d).
Proof.
  unfold parseUnicodeEscape. apply (moved_bind 1 0); [apply readHex4_moved | ]. intros hi r Hr.
  destruct (IsSurrogate hi); [ | apply moved_here]. simpl.
  destruct r as [ | c [ | u r]]; try apply moved_errf. destruct (_ && _); [ | apply moved_errf].
  apply (moved_from 0 0 _ (String u r)); [simpl; lia | ]. apply (moved_weaken (1 + 0)); [lia | ].
  apply moved_bind; [apply readHex4_moved | ]. intros lo r' Hr'. destruct (_ =? RuneError); [apply moved_errf | apply moved_here].
Qed.

Lemma slowScan_moved fuel d sb : (String.length (rest d) < fuel)%nat -> moved 0 d (slowScan s fuel d sb).
Proof.
  revert d sb. induction fuel as [ | fuel IH]; intros d sb Hf; [lia | ]. cbn [slowScan].
  destruct (rest d) as [ | c r] eqn:Er; [apply moved_errf | ]. cbn [String.length] in Hf.
  assert (forall r' sb', (String.length r' <= String.length r)%nat -> moved 0 d (slowScan s fuel (setRest d r') sb')) as Hr.
  { intros r' sb' Hr. apply (moved_from 0 0 _ r'); [rewrite Er; simpl; lia | ]. apply IH. simpl. lia. }
  destruct (_ =? 34); [apply moved_Ok; rewrite Er; simpl; lia | ].
  destruct (_ =? 92); [ | destruct (_ <? 32); [apply moved_errf | by apply Hr]].
  destruct r as [ | e r']; [apply moved_errf | ].
  destruct (escapeByte e); [apply Hr; simpl; lia | ]. case_bool_decide; [ | apply moved_errf].
  apply (moved_from 0 0 _ (String e r')); [rewrite Er; simpl; lia | ]. apply (moved_weaken (1 + 0)); [lia | ].
  apply moved_bind; [apply parseUnicodeEscape_moved | ]. intros ru r2 H2. apply IH. simpl in *. lia.
Qed.

Lemma parseString_moved d : rest d <> "" -> moved 1 d (parseString s d).
Proof.
  intros Hd. unfold parseString. assert (1 + String.length (sdrop 1 (rest d)) <= String.length (rest d))%nat as Hl.
  { rewrite sdrop_length. destruct (rest d); [done | simpl; lia]. }
  destruct (fastScan _) as [[t r'] | ] eqn:E.
  - apply fastScan_length in E. apply moved_Ok. lia.
  - apply (moved_from 1 0 _ _ _ Hl). apply slowScan_moved. simpl. lia.
Qed.

Lemma parseKeyword_moved d : moved 1 d (parseKeyword s d).
Proof.
  unfold parseKeyword, HasPrefix. assert (forall p n (v : Node), String.prefix p (rest d) = true -> (1 <= String.length p)%nat ->
    moved 1 d (Ok (v, setRest d (sdrop (S n) (rest d))))) as H.
  { intros p n v Hp Hl. apply moved_Ok. rewrite sdrop_length. destruct (rest d); [by destruct p; simpl in *; [lia | ] | simpl; lia]. }
  destruct (String.prefix "true" (rest d)) eqn:E1; [by apply (H "true"); [ | simpl; lia] | ].
  destruct (String.prefix "false" (rest d)) eqn:E2; [by apply (H "false"); [ | simpl; lia] | ].
  destruct (String.prefix "null" (rest d)) eqn:E3; [by apply (H "null"); [ | simpl; lia] | apply moved_errf].
Qed.

Lemma sdrop1_length p r : startsWith p r = true -> (1 + String.length (sdrop 1 r) = String.length r)%nat.
Proof. destruct r as [ | c r]; [done | ]. simpl. destruct r; simpl; lia. Qed.

Lemma skipIf_length p r : (String.length (skipIf p r) <= String.length r)%nat.
Proof. unfold skipIf. destruct (startsWith p r) eqn:E; [ | done]. apply sdrop1_length in E. lia. Qed.

Lemma scanNumber_moved d : moved 1 d (scanNumber s d).
Proof.
  unfold scanNumber. pose proof (skipIf_length (isChar "-") (rest d)) as H0. set (r0 := skipIf (isChar "-") (rest d)) in *.
  destruct (startsDigit r0) eqn:Ed; cbn [negb]; [ | apply moved_errf]. cbv zeta.
  set (r1 := if startsWith (isChar "0") r0 then sdrop 1 r0 else dropDigits r0).
  assert (1 + String.length r1 <= String.length r0)%nat as H1.
  { subst r1. destruct (startsWith _ r0) eqn:E0; [apply sdrop1_length in E0; lia | ]. apply dropDigits_shorter in Ed. lia. }
  clearbody r0 r1. clear Ed. apply (moved_bind 1 0).
  - destruct (startsWith (isChar ".") r1) eqn:E1; [ | apply moved_Ok; lia]. apply sdrop1_length in E1.
    destruct (startsDigit (sdrop 1 r1)) eqn:Es; cbn [negb]; [ | apply moved_errf]. apply dropDigits_shorter in Es. apply moved_Ok. lia.
  - intros isFloat r2 H2. apply (moved_bind 0 0).
    + destruct (startsWith _ (rest (setRest d r2))) eqn:E2; [ | apply moved_here]. apply sdrop1_length in E2. cbn [rest setRest] in *.
      set (r3 := skipIf _ (sdrop 1 r2)). pose proof (skipIf_length (fun c => isChar "+" c || isChar "-" c) (sdrop 1 r2)) as H3. fold r3 in H3.
      destruct (startsDigit r3) eqn:Es; cbn [negb]; [ | apply moved_errf].
      apply dropDigits_shorter in Es. apply (moved_Ok 0 (setRest d r2)). simpl. lia.
    + intros isF r4 H4. destruct (startsDigit _); [apply moved_errf | apply moved_here].
Qed.

Lemma parseNumber_moved d : moved 1 d (parseNumber s d).
Proof.
  unfold parseNumber. apply (moved_bind 1 0); [apply scanNumber_moved | ]. intros isFloat r Hr.
  destruct (_ && _); [apply moved_here | ]. destruct (if isFloat then _ else _); [apply moved_here | ].
  destruct (parseSigned _); [apply moved_here | apply moved_errf].
Qed.

(** ** Documents *)

(** A result, if any, that satisfies [P]; fuel did not run out. *)
Definition yields {A} (P : A -> decoder -> Prop) (r : jr A) : Prop :=
  match r with Ok (x, d) => P x d | Err e => e <> OutOfFuel end.

Lemma yields_errf {A} (P : A -> decoder -> Prop) d fmt args : yields P (errf s d fmt args).
Proof. unfold errf. by destruct (lineCol _ _ _). Qed.

Lemma yields_bind {A B} (Q : A -> decoder -> Prop) (P : B -> decoder -> Prop) (m : jr A) (f : A * decoder -> jr B) :
  yields Q m -> (forall x d, Q x d -> yields P (f (x, d))) -> yields P (rbind m f).
Proof. intros Hm Hf. destruct m as [[x d] | e]; [by apply Hf | done]. Qed.

Lemma yields_impl {A} (P Q : A -> decoder -> Prop) r : yields P r -> (forall x d, P x d -> Q x d) -> yields Q r.
Proof. intros H HPQ. destruct r as [[x d] | e]; [by apply HPQ | done]. Qed.

Lemma moved_yields {A} n d (r : jr A) : moved n d r ->
  yields (fun _ d' => exists r', d' = setRest d r' /\ (n + String.length r' <= String.length (rest d))%nat) r.
Proof. intros [H1 H2]. destruct r as [[x d'] | e]; [by eapply H2 | simpl; congruence]. Qed.

(** A document within what the limits leave at [d], read from there with the stacks and the
    depth restored; [extra] nodes of it were counted before. *)
Definition reads (extra : Z) (d : decoder) : jr Node -> Prop := yields (fun v d' => exists t r',
  d' = mkDecoder r' (delems d) (dkeys d) (ddepth d) (dnodes d + count t - extra) /\
  v = rep t /\ wfTree t /\ ddepth d + DocFacts.depth t <= MaxNestingDepth /\ dnodes d' <= MaxDecodedNodes /\
  (1 + String.length r' <= String.length (rest d))%nat).

(** A scalar: the text moved on and one node was counted before. *)
Lemma reads_scalar d (r : jr Node) : 0 <= ddepth d <= MaxNestingDepth -> dnodes d <= MaxDecodedNodes -> moved 1 d r ->
  yields (fun v _ => exists t, v = rep t /\ isContainer t = false) r -> reads 1 d r.
Proof.
  intros Hd Hn Hm%moved_yields Hs. unfold reads. destruct r as [[v d'] | e]; [ | done]. simpl in *.
  destruct Hm as (r' & -> & Hr), Hs as (t & -> & Ht). exists t, r'. pose proof (depth_children t) as Hdep. rewrite Ht in Hdep.
  assert (count t = 1) as Hc by (by destruct t). assert (wfTree t) by (by destruct t).
  unfold setRest. split; [f_equal; lia | ]. do 2 (split; [done | ]). simpl. split; [lia | ]. split; [lia | done].
Qed.

Section Loops.
Variable pv : decoder -> jr Node.
Variable k : Z.
Hypothesis Hpv : forall d, ddepth d = k -> reads 0 d (pv d).

(** What the members read so far are. *)
Definition fitsAt (t : tree) : Prop := wfTree t /\ k + DocFacts.depth t <= MaxNestingDepth.

(** The loop of an array whose members so far are [ts]. *)
Lemma arrayLoop_reads fuel d be ts : ddepth d = k -> (String.length (rest d) < fuel)%nat -> delems d = be ++ map rep ts ->
  yields (fun v d' => exists ts' r',
    d' = mkDecoder r' be (dkeys d) k (dnodes d + sumOf (map count ts')) /\ v = rep (TList (ts ++ ts')) /\
    Forall fitsAt ts' /\ dnodes d' <= MaxDecodedNodes /\ (1 + String.length r' <= String.length (rest d))%nat)
  (arrayLoop s pv fuel (length be) d).
Proof.
  revert d ts. induction fuel as [ | fuel IH]; intros d ts Hk Hf He; [lia | ]. cbn [arrayLoop].
  pose proof (wsRest_length (rest d)) as Hws. eapply yields_bind; [by apply Hpv | ].
  intros v d1 (t & r' & -> & -> & Hw & Hd & Hn & Hr).
  dsimpl.
  pose proof (wsRest_length r') as Hws'. set (r1 := wsRest r') in *.
  assert (delems d ++ [rep t] = be ++ map rep (ts ++ [t])) as He' by (by rewrite He, <- app_assoc, map_app).
  case_bool_decide; [apply yields_errf | ].
  destruct (startsWith (isChar ",") r1) eqn:E1; [ | destruct (startsWith (isChar "]") r1) eqn:E2; [ | apply yields_errf]].
  - apply sdrop1_length in E1. eapply yields_impl; [apply (IH _ (ts ++ [t])); dsimpl; [done | lia | done] | ].
    intros v' d' (ts' & r2 & -> & -> & Hf' & Hn' & Hr'). exists (t :: ts'), r2. dsimpl.
    unfold sumOf in *. rewrite <- app_assoc. simpl.
    split; [f_equal; lia | ]. split; [done | ]. split; [by constructor; [split; [done | lia] | ] | ].
    dsimpl. split; lia.
  - apply sdrop1_length in E2. exists [t], (sdrop 1 r1). dsimpl. rewrite He', drop_app_length, take_app_length.
    unfold sumOf. simpl map. simpl foldr. split; [f_equal; lia | ]. split; [done | ].
    split; [by constructor; [split; [done | lia] | done] | ]. split; lia.
Qed.

Lemma parseArray_reads d : ddepth d = k -> k <= MaxNestingDepth -> 1 <= k -> dnodes d <= MaxDecodedNodes -> rest d <> "" ->
  yields (fun v d' => exists ts r', d' = mkDecoder r' (delems d) (dkeys d) k (dnodes d + sumOf (map count ts)) /\
    v = rep (TList ts) /\ Forall fitsAt ts /\ dnodes d' <= MaxDecodedNodes /\ (1 + String.length r' <= String.length (rest d))%nat)
  (parseArray s pv d).
Proof.
  intros Hk Hm H1 Hn Hd. unfold parseArray. dsimpl.
  assert (1 + String.length (sdrop 1 (rest d)) <= String.length (rest d))%nat as Hl.
  { rewrite sdrop_length. destruct (rest d); [done | simpl; lia]. }
  pose proof (wsRest_length (sdrop 1 (rest d))) as Hws. set (r1 := wsRest _) in *.
  destruct (startsWith (isChar "]") r1) eqn:E1.
  - apply sdrop1_length in E1. exists [], (sdrop 1 r1). dsimpl. unfold sumOf. simpl map. simpl foldr. rewrite Z.add_0_r, Hk.
    split; [done | ]. split; [done | ]. split; [constructor | ]. split; [done | lia].
  - eapply yields_impl; [apply (arrayLoop_reads _ _ (delems d) []); dsimpl; [done | lia | by rewrite app_nil_r] | ].
    intros v d' (ts & r' & -> & -> & Hf & Hn' & Hr). exists ts, r'. dsimpl. split; [done | ]. split; [done | ].
    split; [done | ]. split; [done | lia].
Qed.

(** The set of a large object holds exactly the keys read so far. *)
Definition seenKeys (seen : option (gset string)) (ks : list string) : Prop :=
  match seen with Some m => forall k, k ∈ m <-> k ∈ ks | None => True end.

Lemma seenBefore_spec seen ks key dup seen' : seenKeys seen ks -> seenBefore seen ks key = (dup, seen') ->
  dup = bool_decide (key ∈ ks) /\ seenKeys seen' (ks ++ [key]).
Proof.
  assert (forall m : gset string, (forall x, x ∈ m <-> x ∈ ks) ->
    bool_decide (key ∈ m) = bool_decide (key ∈ ks) /\ seenKeys (Some ({[key]} ∪ m)) (ks ++ [key])) as Hm.
  { intros m Hm. split; [by apply bool_decide_ext | ]. intros x. rewrite elem_of_union, elem_of_singleton, elem_of_app, Hm.
    rewrite list_elem_of_singleton. tauto. }
  intros Hs. unfold seenBefore. destruct seen as [m | ].
  - intros [= <- <-]. by apply Hm.
  - destruct (_ <? _)%nat; [by intros [= <- <-] | ]. intros [= <- <-]. apply Hm. intros x. apply elem_of_list_to_set.
Qed.

(** The loop of an object whose members so far are [ts] under the keys [ks]. *)
Lemma objectLoop_reads fuel d be kb seen ks ts : ddepth d = k -> (String.length (rest d) < fuel)%nat ->
  delems d = be ++ map rep ts -> dkeys d = kb ++ ks -> length ks = length ts -> NoDup ks -> seenKeys seen ks ->
  yields (fun v d' => exists ms r',
    d' = mkDecoder r' be kb k (dnodes d + sumOf (map count (map snd ms))) /\ v = rep (TMap (zip ks ts ++ ms)) /\
    NoDup (ks ++ map fst ms) /\ Forall fitsAt (map snd ms) /\ dnodes d' <= MaxDecodedNodes /\
    (1 + String.length r' <= String.length (rest d))%nat)
  (objectLoop s pv fuel (length kb) (length be) seen d).
Proof.
  revert d seen ks ts. induction fuel as [ | fuel IH]; intros d seen ks ts Hk Hf He Hks Hl Hnd Hs; [lia | ]. cbn [objectLoop].
  pose proof (wsRest_length (rest d)) as Hws. destruct (startsQuote (rest (skipWS d))) eqn:Eq; cbn [negb]; [ | apply yields_errf].
  assert (rest (skipWS d) <> "") as Hne by (intros E; by rewrite E in Eq).
  eapply yields_bind; [by apply (moved_yields 1 (skipWS d)), parseString_moved | ]. intros key d0 (r0 & -> & Hr0). dsimpl.
  rewrite Hks, drop_app_length. destruct (seenBefore seen ks key) as [dup seen'] eqn:Esn.
  destruct (seenBefore_spec seen ks key dup seen' Hs Esn) as [-> Hs']. case_bool_decide as Hkey; [apply yields_errf | ].
  pose proof (wsRest_length r0) as Hws0. set (r1 := wsRest r0) in *.
  destruct (startsWith (isChar ":") r1) eqn:Ec; cbn [negb]; [ | apply yields_errf]. apply sdrop1_length in Ec.
  pose proof (wsRest_length (sdrop 1 r1)) as Hws1. eapply yields_bind; [by apply Hpv | ].
  intros v d1 (t & r' & -> & -> & Hw & Hd & Hn & Hr). dsimpl.
  pose proof (wsRest_length r') as Hws'. set (r2 := wsRest r') in *.
  assert (delems d ++ [rep t] = be ++ map rep (ts ++ [t])) as He' by (by rewrite He, <- app_assoc, map_app).
  assert ((kb ++ ks) ++ [key] = kb ++ (ks ++ [key])) as Hk' by (by rewrite <- app_assoc).
  assert (zip (ks ++ [key]) (ts ++ [t]) = zip ks ts ++ [(key, t)]) as Hz by (by rewrite zip_with_app).
  assert (NoDup (ks ++ [key])) as Hnd'.
  { apply NoDup_app. split; [done | ]. split; [by intros x Hx ->%list_elem_of_singleton | apply NoDup_singleton]. }
  case_bool_decide; [apply yields_errf | ].
  destruct (startsWith (isChar ",") r2) eqn:E1; [ | destruct (startsWith (isChar "}") r2) eqn:E2; [ | apply yields_errf]].
  - apply sdrop1_length in E1.
    eapply yields_impl; [apply (IH _ seen' (ks ++ [key]) (ts ++ [t])); dsimpl; [done | lia | done | done | | done | done] | ].
    { rewrite !length_app. simpl. lia. }
    intros v' d' (ms & r3 & -> & -> & Hnd2 & Hf' & Hn' & Hr'). exists ((key, t) :: ms), r3. dsimpl. unfold sumOf in *.
    cbn [map snd fst foldr]. rewrite Hz, <- !app_assoc in *. cbn [app] in *.
    split; [f_equal; lia | ]. split; [done | ]. split; [done | ]. split; [by constructor; [split; [done | lia] | ] | ]. split; lia.
  - apply sdrop1_length in E2. exists [(key, t)], (sdrop 1 r2). dsimpl. rewrite He', Hk', !drop_app_length, !take_app_length.
    unfold sumOf. cbn [map snd fst foldr]. split; [f_equal; lia | ]. split.
    + cbn [rep]. rewrite <- Hz. f_equal.
      * symmetry. apply fst_zip. rewrite !length_app. simpl. lia.
      * rewrite <- (map_map snd rep). f_equal. symmetry. apply snd_zip. rewrite !length_app. simpl. lia.
    + split; [done | ]. split; [by constructor; [split; [done | lia] | done] | ]. split; lia.
Qed.

Lemma parseObject_reads d : ddepth d = k -> dnodes d <= MaxDecodedNodes -> rest d <> "" ->
  yields (fun v d' => exists ms r', d' = mkDecoder r' (delems d) (dkeys d) k (dnodes d + sumOf (map count (map snd ms))) /\
    v = rep (TMap ms) /\ NoDup (map fst ms) /\ Forall fitsAt (map snd ms) /\ dnodes d' <= MaxDecodedNodes /\
    (1 + String.length r' <= String.length (rest d))%nat)
  (parseObject s pv d).
Proof.
  intros Hk Hn Hd. unfold parseObject. dsimpl.
  assert (1 + String.length (sdrop 1 (rest d)) <= String.length (rest d))%nat as Hl.
  { rewrite sdrop_length. destruct (rest d); [done | simpl; lia]. }
  pose proof (wsRest_length (sdrop 1 (rest d))) as Hws. set (r1 := wsRest _) in *.
  destruct (startsWith (isChar "}") r1) eqn:E1.
  - apply sdrop1_length in E1. exists [], (sdrop 1 r1). dsimpl. unfold sumOf. simpl map. simpl foldr. rewrite Z.add_0_r, Hk.
    split; [done | ]. split; [done | ]. do 2 (split; [constructor | ]). split; [done | lia].
  - eapply yields_impl; [apply (objectLoop_reads _ _ (delems d) (dkeys d) None [] []); dsimpl;
      [done | lia | by rewrite app_nil_r | by rewrite app_nil_r | done | constructor | done] | ].
    intros v d' (ms & r' & -> & -> & Hnd & Hf & Hn' & Hr). exists ms, r'. dsimpl.
    do 4 (split; [done | ]). split; [done | lia].
Qed.
End Loops.

(** *** Values *)

Lemma TList_fits k ts : Forall (fitsAt (k + 1)) ts -> k + 1 <= MaxNestingDepth ->
  wfTree (TList ts) /\ k + DocFacts.depth (TList ts) <= MaxNestingDepth.
Proof.
  intros H Hk. split.
  - cbn [wfTree]. rewrite foldr_Forall. eapply Forall_impl; [exact H | ]. by intros t [Ht _].
  - assert (DocFacts.depth (TList ts) <= MaxNestingDepth - k); [ | lia]. apply depth_le; [lia | ]. split; [lia | ].
    eapply Forall_impl; [exact H | ]. intros t [_ Ht]. lia.
Qed.

Lemma TMap_fits k ms : Forall (fitsAt (k + 1)) (map snd ms) -> NoDup (map fst ms) -> k + 1 <= MaxNestingDepth ->
  wfTree (TMap ms) /\ k + DocFacts.depth (TMap ms) <= MaxNestingDepth.
Proof.
  intros H Hn Hk. split.
  - split; [done | ]. apply (foldr_Forall (fun e => wfTree (snd e))), (Forall_map snd wfTree).
    eapply Forall_impl; [exact H | ]. by intros t [Ht _].
  - assert (DocFacts.depth (TMap ms) <= MaxNestingDepth - k); [ | lia]. apply depth_le; [lia | ]. split; [lia | ].
    eapply Forall_impl; [exact H | ]. intros t [_ Ht]. lia.
Qed.

Lemma nested_reads d (p : decoder -> jr Node) : dnodes d <= MaxDecodedNodes ->
  (ddepth d + 1 <= MaxNestingDepth -> yields (fun v d' => exists t r',
     d' = mkDecoder r' (delems d) (dkeys d) (ddepth d + 1) (dnodes d + count t - 1) /\ v = rep t /\ wfTree t /\
     ddepth d + DocFacts.depth t <= MaxNestingDepth /\ dnodes d' <= MaxDecodedNodes /\
     (1 + String.length r' <= String.length (rest d))%nat) (p (setDepth d (ddepth d + 1)))) ->
  reads 1 d (nested s p d).
Proof.
  intros Hn Hp. unfold nested. destruct (Z.leb_spec MaxNestingDepth (ddepth d)); [apply yields_errf | ].
  eapply yields_bind; [apply Hp; lia | ]. intros v d' (t & r' & -> & -> & Hw & Hd & Hn' & Hr). exists t, r'. dsimpl.
  split; [f_equal; lia | ]. by do 4 (split; [done | ]).
Qed.

Lemma reads_counted d r : reads 1 (setNodes d (dnodes d + 1)) r -> reads 0 d r.
Proof.
  intros H. eapply yields_impl; [exact H | ]. intros v d' (t & r' & -> & -> & Hw & Hd & Hn & Hr). exists t, r'. dsimpl.
  split; [f_equal; lia | ]. by do 4 (split; [done | ]).
Qed.

Lemma parseValue_reads fuel d : 0 <= ddepth d <= MaxNestingDepth -> MaxNestingDepth - ddepth d < Z.of_nat fuel ->
  reads 0 d (parseValue s fuel d).
Proof.
  revert d. induction fuel as [ | fuel IH]; intros d Hd Hf; [lia | ]. cbn [parseValue].
  destruct (rest d) as [ | c r] eqn:Er; [apply yields_errf | ]. apply reads_counted. set (d1 := setNodes d _).
  destruct (Z.ltb_spec MaxDecodedNodes (dnodes d1)) as [ | Hn]; [apply yields_errf | ].
  assert (0 <= ddepth d1 <= MaxNestingDepth) as Hd1 by done. assert (rest d1 <> "") as Hr by (subst d1; simpl; by rewrite Er).
  assert (forall d', ddepth d' = ddepth d1 + 1 -> ddepth d1 + 1 <= MaxNestingDepth -> reads 0 d' (parseValue s fuel d')) as Hpv.
  { intros d' E Hle. change (ddepth d1) with (ddepth d) in *. apply IH; lia. }
  clearbody d1. clear Er IH. destruct (isChar "{" c).
  { apply nested_reads; [done | ]. intros Hle. eapply yields_impl;
      [apply (parseObject_reads _ (ddepth d1 + 1)); [intros; by apply Hpv | done | done | done] | ].
    intros v d' (ms & r' & -> & -> & Hnd & Hms & Hn' & Hr'). destruct (TMap_fits (ddepth d1) ms Hms Hnd Hle) as [Hw Ht].
    exists (TMap ms), r'. rewrite count_children. cbn [children]. dsimpl. split; [f_equal; lia | ]. do 4 (split; [done | ]). done. }
  destruct (isChar "[" c).
  { apply nested_reads; [done | ]. intros Hle. eapply yields_impl;
      [apply (parseArray_reads _ (ddepth d1 + 1)); [intros; by apply Hpv | done | lia | lia | done | done] | ].
    intros v d' (ts & r' & -> & -> & Hts & Hn' & Hr'). destruct (TList_fits (ddepth d1) ts Hts Hle) as [Hw Ht].
    exists (TList ts), r'. rewrite count_children. cbn [children]. dsimpl. split; [f_equal; lia | ]. do 4 (split; [done | ]). done. }
  destruct (_ =? 34).
  { apply reads_scalar; [done | done | apply (moved_bind 1 0); [by apply parseString_moved | intros; apply moved_here] | ].
    destruct (parseString s d1) as [[t d2] | e] eqn:E; [by exists (TString t) | ].
    destruct (parseString_moved d1 Hr) as [H _]. rewrite E in H. simpl. congruence. }
  assert (forall q : jr Node, moved 1 d1 q -> yields (fun v _ => exists t, v = rep t /\ isContainer t = false) q -> reads 1 d1 q)
    as Hsc by (intros; by apply reads_scalar).
  assert (reads 1 d1 (parseKeyword s d1)) as Hkw.
  { apply Hsc; [apply parseKeyword_moved | ]. unfold parseKeyword.
    destruct (HasPrefix _ _); [by exists (TBool true) | ]. destruct (HasPrefix _ _); [by exists (TBool false) | ].
    destruct (HasPrefix _ _); [by exists TNull | apply yields_errf]. }
  destruct (_ || _); [done | ]. destruct (isChar "n" c); [done | ]. destruct (_ || _); [ | apply yields_errf].
  apply Hsc; [apply parseNumber_moved | ]. unfold parseNumber.
  eapply (yields_bind (fun _ _ => True)); [eapply yields_impl; [apply moved_yields, scanNumber_moved | done] | ].
  intros isFloat d2 _. destruct (_ && _); [by exists (TFloat (fneg fzero)) | ].
  destruct (if isFloat then _ else _) as [n | ]; [by exists (TInt n) | ].
  destruct (parseSigned _) as [f | ]; [by exists (TFloat f) | apply yields_errf].
Qed.
End Total.

Lemma valueFuel_enough `{L : Limits} : MaxNestingDepth - 0 < Z.of_nat valueFuel.
Proof. unfold valueFuel. lia. Qed.

Lemma decodeText_reads `{L : Limits} s :
  match decodeText s with Ok n => inLimits n | Err e => e <> OutOfFuel end.
Proof.
  unfold decodeText. set (d := skipWS _). pose proof MaxNestingDepth_pos as Hp.
  assert (reads 0 d (parseValue s valueFuel d)) as H.
  { apply parseValue_reads; [simpl; lia | apply valueFuel_enough]. }
  unfold reads in H. destruct (parseValue s valueFuel d) as [[v d'] | e]; [ | done]. simpl in *.
  destruct H as (t & r & -> & -> & Hw & Hd & Hn & _). dsimpl.
  destruct (wsRest r).
  - exists t. split; [done | ]. split; [done | ]. simpl in Hd, Hn. lia.
  - unfold errf. by destruct (lineCol _ _ _).
Qed.

(** C31: json.decode returns on every argument - its recursion and loops always have fuel -
    and a document it returns is well formed (no object has a key twice), nested no deeper
    than MaxNestingDepth and of at most MaxDecodedNodes nodes, so what the write verbs assume
    of the documents they edit holds of every decoded one. *)
Theorem json_decode_within_limits `{L : Limits} args :
  exists r, decodeFn args = Some r /\ forall n, r = Ok n -> inLimits n.
Proof.
  unfold decodeFn. destruct args as [ | v args]; [by eexists | ].
  destruct args as [ | w args]; [ | by destruct v; eexists].
  destruct v; try by eexists.
  pose proof (decodeText_reads Str) as H. destruct (decodeText Str) as [n | [m | ]]; [ | by eexists | done].
  eexists. split; [done | ]. by intros n' [= <-].
Qed.
