(* ===== verification/JsonRound.v ===== *)
(** * json.decode reads back what json.encode writes

    For documents of JSON kinds within the limits, compact or pretty. *)

From Stdlib Require Import Ascii SpecFloat.
From stdpp Require Import pretty.
From S2P Require Import Prelude Utf8 GoInt Float64 Strconv GoSort Limits Types Value Display ParserRoundFacts Decimal DecimalText.
From S2P Require Import Utf8 Doctree DocFacts DocLaws DocLib DocLibFacts Json JsonFacts.
Open Scope string_scope.
Open Scope list_scope.
Open Scope Z_scope.
Open Scope go_scope.

#[local] Arguments String.length : simpl nomatch.

Lemma length_cons c r : String.length (String c r) = S (String.length r).
Proof. done. Qed.

(** ** Strings *)

Section Strings.
Variable s : string.

(** A byte the scanner copies. *)
Definition plainByte (c : ascii) : bool := negb (byte_of c =? 34) && negb (byte_of c =? 92) && negb (byte_of c <? 32).

Fixpoint plainText (t : string) : bool :=
  match t with EmptyString => true | String c t => plainByte c && plainText t end.

(** Scanning [t] before [k] adds [x] to the result. *)
Definition scans (t x : string) : Prop := forall d k sb R,
  (forall fuel, (String.length k < fuel)%nat -> slowScan s fuel (setRest d k) (sb +:+ x) = R) ->
  forall fuel, (String.length (t +:+ k) < fuel)%nat -> slowScan s fuel (setRest d (t +:+ k)) sb = R.

Lemma scans_app t1 x1 t2 x2 : scans t1 x1 -> scans t2 x2 -> scans (t1 +:+ t2) (x1 +:+ x2).
Proof.
  intros H1 H2 d k sb R HR fuel. rewrite string_app_assoc. apply H1. intros fuel'. apply H2. intros fuel''.
  rewrite string_app_assoc. apply HR.
Qed.

Lemma scans_nil : scans "" "".
Proof. intros d k sb R HR fuel Hf. rewrite <- (string_app_nil_r sb). by apply HR. Qed.

Lemma scans_byte c : plainByte c = true -> scans (String c "") (String c "").
Proof.
  unfold plainByte. intros Hc d k sb R HR fuel Hf. b2p. destruct fuel as [ | fuel]; [lia | ].
  rewrite string_app_cons, string_app_nil in *. cbn [slowScan setRest rest]. rewrite length_cons in Hf.
  rewrite (proj2 (Z.eqb_neq (byte_of c) 34)), (proj2 (Z.eqb_neq (byte_of c) 92)), (proj2 (Z.ltb_ge (byte_of c) 32)) by done.
  apply HR. lia.
Qed.

Lemma scans_plain t : plainText t = true -> scans t t.
Proof.
  induction t as [ | c t IH]; [intros _; apply scans_nil | ]. cbn [plainText]. intros [Hc Ht]%andb_true_iff.
  by apply (scans_app (String c "") (String c "") t t); [apply scans_byte | apply IH].
Qed.

Lemma scans_escape e b : escapeByte e = Some b -> scans (escaped e) (String b "").
Proof.
  intros He d k sb R HR fuel Hf. destruct fuel as [ | fuel]; [lia | ]. unfold escaped in *.
  rewrite !string_app_cons, string_app_nil, !length_cons in *. cbn [slowScan setRest rest]. rewrite byte_of_chr by lia.
  cbn [Z.eqb Pos.eqb]. rewrite He. apply HR. lia.
Qed.

Lemma hexDigit_val n : 0 <= n < 16 -> digitVal (hexDigit n) = Some n.
Proof.
  intros H. unfold hexDigit, digitVal, inChars. destruct (Z.ltb_spec n 10); rewrite byte_of_chr by lia.
  - change (byte_of "0") with 48. change (byte_of "9") with 57.
    rewrite (proj2 (Z.leb_le 48 _)), (proj2 (Z.leb_le _ 57)) by lia. simpl. f_equal. lia.
  - change (byte_of "0") with 48. change (byte_of "9") with 57. change (byte_of "a") with 97. change (byte_of "z") with 122.
    rewrite (proj2 (Z.leb_gt _ 57)) by lia. rewrite andb_false_r.
    rewrite (proj2 (Z.leb_le 97 _)), (proj2 (Z.leb_le _ 122)) by lia. simpl. f_equal. lia.
Qed.

Lemma uintLoop_hex n a t : 0 <= a < 16 -> 0 <= n < 2 ^ 32 ->
  uintLoop 16 n (String (hexDigit a) t) = uintLoop 16 (n * 16 + a) t.
Proof.
  intros Ha Hn. cbn [uintLoop]. rewrite hexDigit_val by done. rewrite (proj2 (Z.leb_gt _ _)) by lia.
  by rewrite (proj2 (Z.ltb_ge _ _)) by lia.
Qed.

Lemma readHex4_escape d r k : 0 <= r < 65536 ->
  readHex4 s (setRest d (sdrop 1 (unicodeEscape r) +:+ k)) = Ok (r, setRest d k).
Proof.
  intros Hr. unfold readHex4, unicodeEscape. cbn [sdrop setRest rest]. rewrite !string_app_cons, string_app_nil.
  cbn [sdrop]. rewrite !length_cons. cbn [Nat.ltb Nat.leb stake]. unfold ParseUint. rewrite bool_decide_false by done.
  cbn [Z.eqb]. assert (0 <= r / 4096 < 16 /\ 0 <= r / 256 mod 16 < 16 /\ 0 <= r / 16 mod 16 < 16 /\ 0 <= r mod 16 < 16)
    as (H1 & H2 & H3 & H4) by (pose proof (Z.div_lt_upper_bound r 4096 16); pose proof (Z.div_pos r 4096);
      pose proof (Z.mod_pos_bound (r / 256) 16); pose proof (Z.mod_pos_bound (r / 16) 16); pose proof (Z.mod_pos_bound r 16); lia).
  rewrite !uintLoop_hex by lia. cbn [uintLoop]. do 2 f_equal.
  Z.to_euclidean_division_equations. lia.
Qed.

Lemma scans_unicode r : 0 <= r < 55296 -> scans (unicodeEscape r) (encodeRune r).
Proof.
  intros Hr d k sb R HR fuel Hf. destruct fuel as [ | fuel]; [lia | ].
  assert (unicodeEscape r +:+ k = String (chr 92) (sdrop 1 (unicodeEscape r) +:+ k)) as E by done.
  assert (exists x, sdrop 1 (unicodeEscape r) +:+ k = String "u" x /\ (String.length k < String.length x)%nat) as (x & Ex & Hx).
  { eexists. split; [done | ]. rewrite !length_cons. lia. }
  rewrite E in *. rewrite length_cons in Hf. cbn [slowScan setRest rest]. rewrite byte_of_chr by lia. cbn [Z.eqb Pos.eqb].
  rewrite Ex. change (escapeByte "u") with (@None ascii). rewrite bool_decide_true by done. rewrite <- Ex.
  unfold parseUnicodeEscape. change (setRest (setRest d ?y) ?z) with (setRest d z).
  pose proof (readHex4_escape d r k ltac:(lia)) as Hh. cbn [setRest delems dkeys ddepth dnodes] in *. rewrite Hh. cbn [rbind].
  unfold IsSurrogate. rewrite (proj2 (Z.leb_gt _ _)) by lia. cbn [andb rbind].
  apply HR. rewrite Ex, length_cons in Hf. lia.
Qed.

(** The bytes of a rune that needs no escape. *)
Lemma encodeRune_plain r : valid_rune r = true -> 32 <= r -> r <> 34 -> r <> 92 -> plainText (encodeRune r) = true.
Proof.
  intros Hv Hr H1 H2. unfold encodeRune. rewrite Hv. apply valid_rune_bounds in Hv as [Hb _].
  assert (forall b, 32 <= b < 256 -> b <> 34 -> b <> 92 -> plainByte (chr b) = true) as Hp.
  { intros b Hb' E1 E2. unfold plainByte. rewrite byte_of_chr by lia.
    rewrite (proj2 (Z.eqb_neq b 34)), (proj2 (Z.eqb_neq b 92)), (proj2 (Z.ltb_ge b 32)) by lia. done. }
  unfold str1. destruct (Z.ltb_spec r 128); [cbn [plainText]; by rewrite Hp by lia | ].
  destruct (Z.ltb_spec r 2048); [ | destruct (Z.ltb_spec r 65536)];
    rewrite ?string_app_cons, ?string_app_nil; cbn [plainText]; rewrite !Hp by (Z.to_euclidean_division_equations; lia); done.
Qed.

Lemma scans_rune r : valid_rune r = true -> scans (encodeStringRune r) (encodeRune r).
Proof.
  intros Hv. pose proof (valid_rune_bounds r Hv) as [Hb _]. unfold encodeStringRune.
  assert (forall e b, escapeByte e = Some b -> encodeRune r = String b "" -> scans (escaped e) (encodeRune r)) as He
    by (intros e b H ->; by apply scans_escape).
  repeat match goal with |- scans (if (r =? ?n) then _ else _) _ => destruct (Z.eqb_spec r n) as [E | ];
    [by eapply He; [reflexivity | rewrite E] | ] end.
  destruct ((r =? 60) || _ || _ || _ || _) eqn:E; [apply scans_unicode; b2p; lia | ].
  destruct (Z.ltb_spec r 32); [apply scans_unicode; lia | ]. by apply scans_plain, encodeRune_plain.
Qed.

Lemma scans_runes rs : Forall (fun r => valid_rune r = true) rs -> scans (encodeRunes rs) (string_of_runes rs).
Proof. induction 1 as [ | r rs Hr _ IH]; [apply scans_nil | ]. by apply scans_app; [apply scans_rune | ]. Qed.

(** The fast path gives what the general scanner gives. *)
Lemma fastScan_slow d r t r' fuel sb : fastScan r = Some (t, r') -> (String.length r < fuel)%nat ->
  slowScan s fuel (setRest d r) sb = Ok (sb +:+ t, setRest d r').
Proof.
  revert t fuel sb. induction r as [ | c r IH]; intros t fuel sb; [done | ]. destruct fuel as [ | fuel]; [lia | ].
  rewrite length_cons. cbn [fastScan slowScan setRest rest]. intros H Hf.
  destruct (byte_of c =? 34) eqn:E1; [injection H as <- <-; by rewrite string_app_nil_r | ].
  destruct (byte_of c =? 92) eqn:E2; [done | ]. destruct (byte_of c <? 32) eqn:E3; [done | ]. cbn [orb] in H.
  destruct (fastScan r) as [[a b] | ]; [ | done]. injection H as <- <-.
  transitivity (Ok (E := jerr) ((sb +:+ String c "") +:+ a, setRest d b)); [apply IH; [done | lia] | ].
  by rewrite string_app_assoc, string_app_cons, string_app_nil.
Qed.

Lemma parseString_slow d : parseString s d =
  slowScan s (S (String.length (sdrop 1 (rest d)))) (setRest d (sdrop 1 (rest d))) "".
Proof.
  unfold parseString. destruct (fastScan _) as [[t r'] | ] eqn:E; [ | done].
  symmetry. erewrite fastScan_slow; [ | exact E | lia]. by rewrite string_app_nil.
Qed.

(** Valid UTF-8. *)
Definition validText (t : string) : Prop := exists rs, Forall (fun r => valid_rune r = true) rs /\ t = string_of_runes rs.

Lemma parseString_encoded d t k : validText t -> rest d = encodeString t +:+ k ->
  parseString s d = Ok (t, setRest d k).
Proof.
  intros (rs & Hrs & ->) Hr. rewrite parseString_slow, Hr. unfold encodeString, quote.
  rewrite runes_of_string_of_runes by done. rewrite !string_app_cons, !string_app_nil, string_app_assoc, string_app_cons.
  cbn [sdrop]. rewrite string_app_nil. apply (scans_runes rs Hrs d); [ | lia].
  intros fuel Hf. destruct fuel as [ | fuel]; [lia | ]. cbn [slowScan setRest rest]. rewrite byte_of_chr by lia. cbn [Z.eqb Pos.eqb].
  by rewrite string_app_nil.
Qed.
End Strings.

(** ** Numbers *)

(** The text of a JSON number, and what may follow one. *)
Definition digits (t : string) : Prop := allDigits t = true /\ t <> "".
Definition intPart (ip : string) : Prop := digits ip /\ (ip = "0" \/ startsWith (isChar "0") ip = false).
Definition fraction (t : string) : Prop := t = "" \/ exists ds, t = String "." ds /\ digits ds.
Definition exponent (t : string) : Prop :=
  t = "" \/ exists sg ds, t = String "e" (String sg ds) /\ (isChar "+" sg || isChar "-" sg) = true /\ digits ds.
Definition numberEnd (k : string) : Prop := startsWith (fun c => isDigit c || pointOrExp c) k = false.

Lemma digits_app ds k : digits ds -> startsDigit (ds +:+ k) = true.
Proof. intros [H Hn]. destruct ds as [ | c ds]; [done | ]. by apply andb_true_iff in H as [H _]. Qed.

Lemma dropDigits_app ds k : allDigits ds = true -> startsDigit k = false -> dropDigits (ds +:+ k) = k.
Proof.
  intros H Hk. induction ds as [ | c ds IH].
  - rewrite string_app_nil. destruct k as [ | c k]; [done | ]. unfold startsDigit in Hk. simpl in *. by rewrite Hk.
  - cbn [allDigits] in H. apply andb_true_iff in H as [Hc H]. rewrite string_app_cons. cbn [dropDigits]. unfold isDigit.
    by rewrite Hc, IH.
Qed.

Lemma startsWith_false p q k : startsWith q k = false -> (forall c, p c = true -> q c = true) -> startsWith p k = false.
Proof. destruct k as [ | c k]; simpl; [done | ]. intros Hq H. destruct (p c) eqn:E; [ | done]. by rewrite (H c E) in Hq. Qed.

Lemma numberEnd_not p k : numberEnd k -> (forall c, p c = true -> isDigit c = true \/ pointOrExp c = true) -> startsWith p k = false.
Proof.
  intros Hk H. eapply startsWith_false; [exact Hk | ]. intros c Hc. cbv beta. destruct (H c Hc) as [-> | ->]; [done | apply orb_true_r].
Qed.

Lemma pointOrExp_spec c : isChar "." c = true \/ isChar "e" c = true \/ isChar "E" c = true -> pointOrExp c = true.
Proof. unfold pointOrExp. intros [-> | [-> | ->]]; by rewrite ?orb_true_r. Qed.

(** What follows the digits of a part of a number is no digit. *)
Lemma exponent_end e k : exponent e -> numberEnd k ->
  startsDigit (e +:+ k) = false /\ startsWith (isChar ".") (e +:+ k) = false.
Proof.
  intros [-> | (sg & ds & -> & _ & _)] Hk; [ | done]. rewrite string_app_nil.
  split; (apply numberEnd_not; [done | ]); intros c Hc; [by left | ]. right. apply pointOrExp_spec. tauto.
Qed.

Lemma fraction_end f e k : fraction f -> exponent e -> numberEnd k -> startsDigit (f +:+ e +:+ k) = false.
Proof. intros [-> | (ds & -> & _)] He Hk; [ | done]. rewrite string_app_nil. by apply exponent_end. Qed.

Section Numbers.
Variable s : string.

(** The fraction, and the exponent, of a number. *)
Lemma scan_fraction d f e k : fraction f -> exponent e -> numberEnd k ->
  (if startsWith (isChar ".") (f +:+ e +:+ k) then
     if negb (startsDigit (sdrop 1 (f +:+ e +:+ k))) then
       errf s (setRest d (sdrop 1 (f +:+ e +:+ k))) "invalid number: a fraction needs at least one digit" []
     else Ok (true, setRest d (dropDigits (sdrop 1 (f +:+ e +:+ k))))
   else Ok (false, setRest d (f +:+ e +:+ k))) = Ok (negb (bool_decide (f = "")), setRest d (e +:+ k)).
Proof.
  intros [-> | (ds & -> & Hds)] He Hk.
  - rewrite string_app_nil. by rewrite (proj2 (exponent_end e k He Hk)).
  - rewrite string_app_cons. cbn [startsWith sdrop]. rewrite (digits_app ds) by done.
    rewrite dropDigits_app; [done | apply Hds | by apply exponent_end].
Qed.

Lemma scan_exponent d e k (b : bool) : exponent e -> numberEnd k ->
  (if startsWith (fun c => isChar "e" c || isChar "E" c) (e +:+ k) then
     if negb (startsDigit (skipIf (fun c => isChar "+" c || isChar "-" c) (sdrop 1 (e +:+ k)))) then
       errf s (setRest d (skipIf (fun c => isChar "+" c || isChar "-" c) (sdrop 1 (e +:+ k))))
         "invalid number: an exponent needs at least one digit" []
     else Ok (true, setRest d (dropDigits (skipIf (fun c => isChar "+" c || isChar "-" c) (sdrop 1 (e +:+ k)))))
   else Ok (b, setRest d (e +:+ k))) = Ok (b || negb (bool_decide (e = "")), setRest d k).
Proof.
  intros [-> | (sg & ds & -> & Hsg & Hds)] Hk.
  - rewrite string_app_nil. rewrite numberEnd_not; [by rewrite orb_false_r | done | ].
    intros c Hc%orb_true_iff. right. apply pointOrExp_spec. tauto.
  - rewrite !string_app_cons. cbn [startsWith sdrop]. unfold skipIf. cbn [startsWith sdrop]. rewrite Hsg.
    rewrite (digits_app ds) by done. rewrite dropDigits_app; [by rewrite orb_true_r | apply Hds | ].
    apply numberEnd_not; [done | ]. by left.
Qed.

Lemma scanNumber_text d (neg : bool) ip f e k : intPart ip -> fraction f -> exponent e -> numberEnd k ->
  rest d = (if neg then "-" else "") +:+ ip +:+ f +:+ e +:+ k ->
  scanNumber s d = Ok (negb (bool_decide (f = "")) || negb (bool_decide (e = "")), setRest d k).
Proof.
  intros [Hip Hz] Hf He Hk Hr. unfold scanNumber.
  assert (skipIf (isChar "-") (rest d) = ip +:+ f +:+ e +:+ k) as ->.
  { rewrite Hr. destruct neg; [done | ]. rewrite string_app_nil. destruct Hip as [Hd Hn]. destruct ip as [ | c ip]; [done | ].
    unfold skipIf. rewrite string_app_cons. cbn [startsWith]. simpl in Hd. apply andb_true_iff in Hd as [Hd _].
    unfold isChar. case_bool_decide; [by subst c | done]. }
  rewrite (digits_app ip) by done. cbn [negb].
  assert ((if startsWith (isChar "0") (ip +:+ f +:+ e +:+ k) then sdrop 1 (ip +:+ f +:+ e +:+ k)
           else dropDigits (ip +:+ f +:+ e +:+ k)) = f +:+ e +:+ k) as ->.
  { destruct Hz as [-> | Hz]; [done | ]. destruct Hip as [Hd Hn].
    assert (startsWith (isChar "0") (ip +:+ f +:+ e +:+ k) = false) as -> by (by destruct ip).
    apply dropDigits_app; [done | by apply fraction_end]. }
  rewrite scan_fraction by done. cbn [rbind]. change (rest (setRest d (e +:+ k))) with (e +:+ k).
  change (setRest (setRest d (e +:+ k)) ?x) with (setRest d x).
  rewrite (scan_exponent (setRest d (e +:+ k)) e k) by done. cbn [rbind].
  change (rest (setRest (setRest d (e +:+ k)) k)) with k.
  assert (startsDigit k = false) as ->; [ | done]. apply numberEnd_not; [done | ]. by left.
Qed.
End Numbers.

Lemma stake_app a k : stake (String.length (a +:+ k) - String.length k) (a +:+ k) = a.
Proof.
  rewrite string_length_app. replace (String.length a + String.length k - String.length k)%nat with (String.length a) by lia.
  induction a as [ | c a IH]; [by destruct k | ]. rewrite string_app_cons, length_cons. cbn [stake]. by rewrite IH.
Qed.

Lemma FormatInt_neg n : n < 0 -> FormatInt n = String "-" (FormatInt (- n)).
Proof. intros H. destruct n as [ | p | p]; try lia. done. Qed.

Lemma FormatInt_intPart n : 0 <= n -> intPart (FormatInt n).
Proof.
  intros Hn. pose proof (FormatInt_digits n Hn) as [Hd _]. pose proof (FormatInt_nonempty n) as Hne. split.
  - split; [done | ]. intros E. rewrite E in Hne. by apply Hne.
  - destruct (FormatInt_plain n Hn) as [-> | (c & t & -> & Hc & _)]; [by left | ]. right. simpl. unfold isChar. by case_bool_decide.
Qed.

Lemma ParseInt_neg n : minInt64 <= n < 0 -> ParseInt (FormatInt n) 10 = Ok n.
Proof.
  intros Hn. rewrite FormatInt_neg by lia. unfold ParseInt. change (- 2 ^ 63) with minInt64 in *.
  rewrite ParseUint_FormatInt by (unfold minInt64 in *; lia). cbn [negb andb].
  rewrite (proj2 (Z.ltb_ge _ _)) by (unfold minInt64 in *; lia). f_equal. lia.
Qed.

Section Literals.
Variable s : string.

Lemma parseNumber_int d n k : int64_range n -> numberEnd k -> rest d = FormatInt n +:+ k ->
  parseNumber s d = Ok (NInt n, setRest d k).
Proof.
  intros Hn Hk Hr. unfold parseNumber.
  assert (scanNumber s d = Ok (false, setRest d k)) as ->.
  { assert (exists (neg : bool) ip, intPart ip /\ FormatInt n = (if neg then "-" else "") +:+ ip) as (neg & ip & Hip & E).
    { destruct (Z.lt_ge_cases n 0).
      - exists true, (FormatInt (- n)). split; [apply FormatInt_intPart; lia | by rewrite FormatInt_neg].
      - exists false, (FormatInt n). split; [by apply FormatInt_intPart | by rewrite string_app_nil]. }
    rewrite (scanNumber_text s d neg ip "" "" k); [done | done | by left | by left | done | ].
    by rewrite Hr, E, !string_app_nil, string_app_assoc. }
  cbn [rbind]. change (rest (setRest d k)) with k. rewrite Hr, stake_app. cbn [negb andb].
  rewrite bool_decide_false.
  - destruct (Z.lt_ge_cases n 0) as [Hlt | Hge].
    + by rewrite ParseInt_neg by (unfold int64_range in Hn; lia).
    + by rewrite ParseInt_FormatInt by (unfold int64_range, maxInt64 in Hn; lia).
  - intros E. destruct (Z.lt_ge_cases n 0) as [Hlt | Hge].
    + rewrite FormatInt_neg in E by done. injection E as E. change "0" with (FormatInt 0) in E. apply (inj pretty) in E. lia.
    + destruct (FormatInt_intPart n Hge) as [[H _] _]. by rewrite E in H.
Qed.

Lemma parseNumber_float d (neg : bool) ip f e k x (t := (if neg then "-" else "") +:+ ip +:+ f +:+ e) :
  intPart ip -> fraction f -> exponent e -> f <> "" \/ e <> "" -> numberEnd k -> parseSigned t = Ok x ->
  rest d = t +:+ k -> parseNumber s d = Ok (NFloat x, setRest d k).
Proof.
  intros Hip Hf He Hne Hk Hx Hr. unfold parseNumber. rewrite (scanNumber_text s d neg ip f e k); try done.
  - cbn [rbind]. change (rest (setRest d k)) with k. rewrite Hr, stake_app.
    assert (negb (bool_decide (f = "")) || negb (bool_decide (e = "")) = true) as ->.
    { destruct Hne; [rewrite (bool_decide_false (f = "")) by done | rewrite (bool_decide_false (e = "")) by done];
        rewrite ?orb_true_r; done. }
    cbn [negb andb]. by rewrite Hx.
  - rewrite Hr. subst t. by rewrite !string_app_assoc.
Qed.

Lemma prefix_app p k : String.prefix p (p +:+ k) = true.
Proof.
  induction p as [ | c p IH]; [by destruct k | ]. rewrite string_app_cons. simpl. rewrite IH.
  by destruct (Ascii.ascii_dec c c).
Qed.

Lemma parseKeyword_text d t v k :
  In (t, v) [("true", NBool true); ("false", NBool false); ("null", Null)] -> rest d = t +:+ k ->
  parseKeyword s d = Ok (v, setRest d k).
Proof.
  intros H Hr. unfold parseKeyword, HasPrefix. rewrite Hr.
  destruct H as [[= <- <-] | [[= <- <-] | [[= <- <-] | []]]]; rewrite prefix_app; done.
Qed.
End Literals.

(** ** Documents that JSON can hold *)

Section Trees.
Context `{L : Limits} `{GT : GoText}.

(** The text Go formats a float as, and that it reads back. *)
Definition jsonFloat (x : float64) : Prop :=
  IsNaN x || IsInf x = false /\
  (exists (neg : bool) ip f e, FormatFloat x = (if neg then "-" else "") +:+ ip +:+ f +:+ e /\
     intPart ip /\ fraction f /\ exponent e) /\
  parseSigned (floatText x) = Ok x.

(** JSON kinds only: int64 integers, such floats, valid UTF-8. *)
Fixpoint jsonTree (t : tree) : Prop :=
  match t with
  | TNull | TBool _ => True
  | TInt n => int64_range n
  | TFloat x => jsonFloat x
  | TString t => validText t
  | TBytes _ | TDatetime _ _ => False
  | TList l => foldr (fun t P => jsonTree t /\ P) True l
  | TMap l => foldr (fun e P => (validText (fst e) /\ jsonTree (snd e)) /\ P) True l
  end.

Variable pretty : bool.

(** The texts of the members after the first, and of a whole sequence. *)
Definition moreText (dep : Z) (xs : list string) : string :=
  foldr (fun x r => "," +:+ newlineIndent pretty (dep + 1) +:+ x +:+ r) "" xs.

Definition seqText (dep : Z) (open close : string) (xs : list string) : string :=
  match xs with
  | [] => open +:+ close
  | x :: xs => open +:+ (newlineIndent pretty (dep + 1) +:+ x +:+ moreText dep xs) +:+ newlineIndent pretty dep +:+ close
  end.

Fixpoint treeText (dep : Z) (t : tree) : string :=
  match t with
  | TNull => "null"
  | TBool b => boolText b
  | TInt n => FormatInt n
  | TFloat x => floatText x
  | TString t => encodeString t
  | TBytes _ | TDatetime _ _ => ""
  | TList l => seqText dep "[" "]" (map (treeText (dep + 1)) l)
  | TMap l => seqText dep "{" "}" (map (fun e => encodeString (fst e) +:+ colon pretty +:+ treeText (dep + 1) (snd e)) l)
  end.

Lemma seqItems_text dep xs : seqItems pretty dep false (map Ok xs) = Ok (moreText dep xs).
Proof. induction xs as [ | x xs IH]; [done | ]. cbn [map seqItems rbind]. by rewrite IH. Qed.

Lemma encodeSeq_text dep open close xs : encodeSeq pretty dep open close (map Ok xs) = Ok (seqText dep open close xs).
Proof.
  destruct xs as [ | x xs]; [done | ]. unfold encodeSeq. cbn [map seqItems rbind]. rewrite seqItems_text. cbn [rbind seqText].
  by rewrite string_app_nil.
Qed.

Lemma withKeys_map {B} (g : string -> Node -> B) (l : list (string * tree)) :
  withKeys g (map fst l) (map (fun e => rep (snd e)) l) = map (fun e => g (fst e) (rep (snd e))) l.
Proof. induction l as [ | e l IH]; [done | ]. simpl. by rewrite IH. Qed.

Lemma children_depth t d : isContainer t = true -> d + depth t <= MaxNestingDepth ->
  d <= MaxNestingDepth /\ Forall (fun u => d + 1 + depth u <= MaxNestingDepth) (children t).
Proof.
  intros Hc Hd. pose proof (depth_nonneg t). split; [lia | ].
  assert (depth t <= MaxNestingDepth - d) as [_ H']%depth_le by lia; [ | lia].
  eapply Forall_impl; [exact H' | ]. cbv beta. intros u Hu. lia.
Qed.

(** The encoder writes this text. *)
Lemma encodeNode_text t dep : jsonTree t -> dep + depth t <= MaxNestingDepth ->
  encodeNode (rep t) pretty dep = Ok (treeText dep t).
Proof.
  revert dep. induction t as [ | b | n | x | t | | | l IH | l IH] using tree_ind; intros dep Hj Hd; try done.
  1-5: cbn [rep encodeNode treeText DocFacts.depth] in *; rewrite (proj2 (Z.ltb_ge MaxNestingDepth dep)) by lia; try done.
  - unfold writeFloat. destruct Hj as [-> _]. done.
  - destruct (children_depth (TList l) dep eq_refl Hd) as [Hle Hf]. cbn [rep treeText children jsonTree] in *.
    rewrite foldr_Forall in Hj. unfold List. rewrite newContainer_fields. cbn [encodeNode elems].
    rewrite (proj2 (Z.ltb_ge _ _)) by done. rewrite <- encodeSeq_text. f_equal. rewrite !map_map.
    apply map_ext_in. intros t Ht%list_elem_of_In. rewrite Forall_forall in IH, Hj, Hf. by apply IH; [ | apply Hj | apply Hf].
  - destruct (children_depth (TMap l) dep eq_refl Hd) as [Hle Hf]. cbn [rep treeText children jsonTree] in *.
    rewrite (foldr_Forall (fun e => validText (fst e) /\ jsonTree (snd e))) in Hj. apply (Forall_map snd) in Hf.
    unfold Map. rewrite newContainer_fields. cbn [encodeNode elems keys].
    rewrite (proj2 (Z.ltb_ge _ _)) by done. rewrite <- encodeSeq_text. f_equal. rewrite withKeys_map, map_map.
    apply map_ext_in. intros e He%list_elem_of_In. rewrite Forall_forall in IH, Hj, Hf. unfold member.
    by rewrite (IH e He) by (apply Hj || apply Hf; done).
Qed.

(** *** How texts start *)

Definition tokenHead (x : string) : Prop := exists c r, x = String c r /\ isWS c = false /\ isChar "]" c = false.

Lemma numberHead_token c : isChar "-" c || isDigit c = true ->
  isWS c = false /\ isChar "]" c = false /\ isChar "{" c = false /\ isChar "[" c = false /\ (byte_of c =? 34) = false /\
  isChar "t" c || isChar "f" c = false /\ isChar "n" c = false.
Proof.
  intros H. assert (byte_of c = 45 \/ 48 <= byte_of c <= 57) as Hb.
  { apply orb_true_iff in H as [H | H].
    - unfold isChar in H. apply bool_decide_eq_true in H as ->. by left.
    - right. unfold isDigit, inChars in H. b2p. done. }
  assert (forall a, byte_of a <> 45 -> (byte_of a < 48 \/ 57 < byte_of a) -> isChar a c = false) as Hc.
  { intros a H1 H2. unfold isChar. case_bool_decide as E; [ | done]. subst c. lia. }
  assert (isWS c = false) as ->.
  { unfold isWS. assert (bool_decide (c = " "%char) = false) as -> by (apply (Hc " "%char); [done | left; done]).
    rewrite (proj2 (Z.eqb_neq (byte_of c) 9)), (proj2 (Z.eqb_neq (byte_of c) 10)), (proj2 (Z.eqb_neq (byte_of c) 13)) by lia. done. }
  rewrite (proj2 (Z.eqb_neq (byte_of c) 34)) by lia.
  rewrite !Hc by (done || (right; done) || (left; done)). done.
Qed.

Lemma intPart_head ip x : intPart ip -> exists c r, ip +:+ x = String c r /\ isDigit c = true.
Proof. intros [[H Hn] _]. destruct ip as [ | c ip]; [done | ]. exists c, (ip +:+ x). apply andb_true_iff in H as [H _]. done. Qed.

(** The parts of a float's text. *)
Lemma floatText_parts x : jsonFloat x -> exists (neg : bool) ip f e,
  floatText x = (if neg then "-" else "") +:+ ip +:+ f +:+ e /\ intPart ip /\ fraction f /\ exponent e /\ (f <> "" \/ e <> "").
Proof.
  intros (_ & (neg & ip & f & e & E & Hip & Hf & He) & _). unfold floatText. rewrite E.
  assert (forall a b, ContainsAny pointOrExp (a +:+ b) = ContainsAny pointOrExp a || ContainsAny pointOrExp b) as Happ.
  { intros a b. induction a as [ | c a IH]; [done | ]. rewrite string_app_cons. simpl. by rewrite IH, orb_assoc. }
  assert (forall a, allDigits a = true -> ContainsAny pointOrExp a = false) as Hdig.
  { induction a as [ | c a IH]; [done | ]. simpl. intros [Hc Ha]%andb_true_iff. rewrite IH by done. rewrite orb_false_r.
    unfold pointOrExp, isChar, inChars in *. b2p. repeat case_bool_decide; subst; done. }
  rewrite !Happ. assert (ContainsAny pointOrExp (if neg then "-" else "") = false) as -> by (by destruct neg).
  rewrite (Hdig ip) by apply Hip. cbn [orb]. destruct (ContainsAny pointOrExp f || ContainsAny pointOrExp e) eqn:Ec.
  - exists neg, ip, f, e. do 4 (split; [done | ]). destruct f; [right | by left]. by destruct e.
  - apply orb_false_iff in Ec as [Ef Ee]. destruct Hf as [-> | (ds & -> & _)]; [ | done].
    destruct He as [-> | (sg & ds & -> & _)]; [ | done]. exists neg, ip, ".0", "".
    split; [by rewrite !string_app_nil_r, string_app_assoc | ]. split; [done | ]. split; [right; by exists "0" | ]. split; [by left | by left].
Qed.

Lemma text_head t dep : jsonTree t -> tokenHead (treeText dep t).
Proof.
  intros Hj.
  assert (forall (neg : bool) ip x, intPart ip -> tokenHead ((if neg then "-" else "") +:+ ip +:+ x)) as Hn.
  { intros neg ip x Hip. destruct (intPart_head ip x Hip) as (c & r & E & Hc). rewrite E.
    destruct neg; [by exists "-"%char, (String c r) | ]. exists c, r. split; [done | ].
    destruct (numberHead_token c) as (H1 & H2 & _); [by rewrite Hc, orb_true_r | done]. }
  destruct t as [ | b | n | x | t | | | l | l]; try done; cbn [treeText].
  - by eexists _, _.
  - destruct b; by eexists _, _.
  - destruct (Z.lt_ge_cases n 0).
    + rewrite FormatInt_neg by done. by eexists _, _.
    + rewrite <- (string_app_nil_r (FormatInt n)), <- (string_app_nil (FormatInt n +:+ "")). apply (Hn false). by apply FormatInt_intPart.
  - destruct (floatText_parts x Hj) as (neg & ip & f & e & -> & Hip & _). by apply Hn.
  - by eexists _, _.
  - destruct (map _ l); by eexists _, _.
  - destruct (map _ l); by eexists _, _.
Qed.

(** *** Reading a text back *)

Variable s : string.

Lemma wsRest_token x : tokenHead x -> forall k, wsRest (x +:+ k) = x +:+ k.
Proof. intros (c & r & -> & Hc & _) k. rewrite string_app_cons. simpl. by rewrite Hc. Qed.

Lemma wsRest_indent dep k : wsRest (newlineIndent pretty dep +:+ k) = wsRest k.
Proof.
  unfold newlineIndent. destruct pretty; [ | by rewrite string_app_nil]. rewrite string_app_cons. cbn [wsRest].
  change (isWS (chr 10)) with true. cbv iota. generalize (Z.to_nat (dep * 2)). induction n as [ | n IH]; [done | ].
  cbn [Repeat]. rewrite string_app_cons. cbn [wsRest]. change (isWS " ") with true. done.
Qed.

Lemma indent_end dep c k : isDigit c || pointOrExp c = false -> numberEnd (newlineIndent pretty dep +:+ String c k).
Proof. intros Hc. unfold newlineIndent. destruct pretty; done. Qed.

Lemma more_end dep xs c k : isDigit c || pointOrExp c = false ->
  numberEnd (moreText dep xs +:+ newlineIndent pretty dep +:+ String c k).
Proof. intros Hc. destruct xs as [ | x xs]; [ | done]. by apply indent_end. Qed.

(** [pv] reads the text of [t] back. *)
Definition readsBack (pv : decoder -> jr Node) (k : Z) (text : string) (t : tree) : Prop := forall d rest',
  ddepth d = k -> dnodes d + count t <= MaxDecodedNodes -> numberEnd rest' -> rest d = text +:+ rest' ->
  pv d = Ok (rep t, mkDecoder rest' (delems d) (dkeys d) k (dnodes d + count t)).

Lemma sumOf_count ts : 0 <= sumOf (map count ts).
Proof. induction ts as [ | t ts IH]; unfold sumOf in *; simpl; [lia | pose proof (treeCount_pos t); lia]. Qed.

Lemma sumOf_cons x l : sumOf (x :: l) = x + sumOf l.
Proof. done. Qed.

Lemma arrayLoop_text pv k dep (text : tree -> string) rest' fuel d be ts t ts' :
  ddepth d = k -> Forall (fun t => readsBack pv k (text t) t /\ tokenHead (text t)) (t :: ts') ->
  delems d = be ++ map rep ts -> (String.length (rest d) < fuel)%nat ->
  dnodes d + sumOf (map count (t :: ts')) <= MaxDecodedNodes ->
  wsRest (rest d) = text t +:+ moreText dep (map text ts') +:+ newlineIndent pretty dep +:+ String "]" rest' ->
  arrayLoop s pv fuel (length be) d =
    Ok (rep (TList (ts ++ t :: ts')), mkDecoder rest' be (dkeys d) k (dnodes d + sumOf (map count (t :: ts')))).
Proof.
  revert d ts t ts'. induction fuel as [ | fuel IH]; intros d ts t ts' Hk Hf He Hl Hn Hr; [lia | ]. cbn [arrayLoop].
  inversion Hf as [ | ? ? [Hb Ht] Hf']; subst x l. pose proof (sumOf_count ts') as Hp. rewrite map_cons, sumOf_cons in *.
  rewrite (Hb _ (moreText dep (map text ts') +:+ newlineIndent pretty dep +:+ String "]" rest'));
    [ | done | dsimpl; lia | by apply more_end | done].
  cbn [rbind]. dsimpl.
  assert (delems d ++ [rep t] = be ++ map rep (ts ++ [t])) as He' by (by rewrite He, <- app_assoc, map_app).
  destruct ts' as [ | t' ts'].
  - cbn [map moreText foldr]. rewrite string_app_nil, wsRest_indent. cbn [wsRest isWS].
    change (wsRest (String "]" rest')) with (String "]" rest'). rewrite bool_decide_false by done.
    change (startsWith (isChar ",") (String "]" rest')) with false. change (startsWith (isChar "]") (String "]" rest')) with true.
    cbv iota. cbn [sdrop]. rewrite He', drop_app_length, take_app_length. rewrite Z.add_0_r. done.
  - cbn [map moreText foldr]. fold (moreText dep (map text ts')). rewrite !string_app_assoc, string_app_cons, string_app_nil.
    match goal with |- context [wsRest (String "," ?x)] => change (wsRest (String "," x)) with (String "," x); set (R := x) end.
    rewrite bool_decide_false by done. change (startsWith (isChar ",") (String "," R)) with true. cbv iota. cbn [sdrop].
    rewrite (IH _ (ts ++ [t]) t' ts'); dsimpl.
    + rewrite <- app_assoc, !map_cons, !sumOf_cons. f_equal. f_equal. f_equal. lia.
    + done.
    + done.
    + done.
    + pose proof (wsRest_length (rest d)) as Hws. rewrite Hr in Hws. cbn [map moreText foldr] in Hws.
      fold (moreText dep (map text ts')) in Hws. rewrite !string_app_assoc, string_length_app, string_app_cons, length_cons in Hws.
      rewrite string_app_nil in Hws. fold R in Hws. lia.
    + rewrite !map_cons, !sumOf_cons in *. lia.
    + subst R. rewrite wsRest_indent. apply wsRest_token. by inversion Hf' as [ | ? ? [_ ?] _].
Qed.

Lemma seqText_cons dep o c x xs rest' : seqText dep o (String c "") (x :: xs) +:+ rest' =
  o +:+ newlineIndent pretty (dep + 1) +:+ x +:+ moreText dep xs +:+ newlineIndent pretty dep +:+ String c rest'.
Proof. cbn [seqText]. by rewrite !string_app_assoc, string_app_cons, string_app_nil. Qed.

Lemma parseArray_text pv k dep d (text : tree -> string) ts rest' :
  ddepth d = k -> Forall (fun t => readsBack pv k (text t) t /\ tokenHead (text t)) ts ->
  dnodes d + sumOf (map count ts) <= MaxDecodedNodes -> rest d = seqText dep "[" "]" (map text ts) +:+ rest' ->
  parseArray s pv d = Ok (rep (TList ts), mkDecoder rest' (delems d) (dkeys d) k (dnodes d + sumOf (map count ts))).
Proof.
  intros Hk Hf Hn Hr. unfold parseArray. dsimpl. destruct ts as [ | t ts].
  - rewrite Hr. cbn. by rewrite Z.add_0_r, Hk.
  - rewrite Hr, map_cons, seqText_cons, string_app_cons, string_app_nil. cbn [sdrop]. rewrite wsRest_indent.
    inversion Hf as [ | ? ? [_ Ht] _]; subst x l. rewrite wsRest_token by done.
    assert (startsWith (isChar "]") (text t +:+ moreText dep (map text ts) +:+ newlineIndent pretty dep +:+ String "]" rest') = false)
      as -> by (destruct Ht as (c & r & -> & _ & Hc); exact Hc).
    rewrite (arrayLoop_text pv k dep text rest' _ _ (delems d) [] t ts); dsimpl; try done; [by rewrite app_nil_r | lia | by apply wsRest_token].
Qed.

(** The text of a member. *)
Definition memberText (text : tree -> string) (e : string * tree) : string :=
  encodeString (fst e) +:+ colon pretty +:+ text (snd e).

Definition memberReads (pv : decoder -> jr Node) (k : Z) (text : tree -> string) (e : string * tree) : Prop :=
  validText (fst e) /\ readsBack pv k (text (snd e)) (snd e) /\ tokenHead (text (snd e)).

Lemma wsRest_colon x k : tokenHead x -> wsRest (sdrop 1 (colon pretty +:+ x +:+ k)) = x +:+ k /\
  startsWith (isChar ":") (colon pretty +:+ x +:+ k) = true /\ wsRest (colon pretty +:+ x +:+ k) = colon pretty +:+ x +:+ k.
Proof. intros Hx. unfold colon. destruct pretty; (split; [ | done]); apply (wsRest_token x Hx k). Qed.

Lemma wsRest_quote t k : wsRest (encodeString t +:+ k) = encodeString t +:+ k.
Proof. done. Qed.

Lemma startsQuote_encoded t k : startsQuote (encodeString t +:+ k) = true.
Proof. done. Qed.

Lemma objectLoop_text pv k dep (text : tree -> string) rest' fuel d be kb seen (ms : list (string * tree)) e ms' :
  ddepth d = k -> Forall (memberReads pv k text) (e :: ms') ->
  delems d = be ++ map rep (map snd ms) -> dkeys d = kb ++ map fst ms -> NoDup (map fst (ms ++ e :: ms')) ->
  seenKeys seen (map fst ms) -> (String.length (rest d) < fuel)%nat ->
  dnodes d + sumOf (map count (map snd (e :: ms'))) <= MaxDecodedNodes ->
  wsRest (rest d) = memberText text e +:+ moreText dep (map (memberText text) ms') +:+ newlineIndent pretty dep +:+ String "}" rest' ->
  objectLoop s pv fuel (length kb) (length be) seen d =
    Ok (rep (TMap (ms ++ e :: ms')), mkDecoder rest' be kb k (dnodes d + sumOf (map count (map snd (e :: ms'))))).
Proof.
  revert d seen ms e ms'. induction fuel as [ | fuel IH]; intros d seen ms e ms' Hk Hf He Hks Hnd Hs Hl Hn Hr; [lia | ].
  cbn [objectLoop]. inversion Hf as [ | ? ? (Hv & Hb & Ht) Hf']; subst x l. pose proof (sumOf_count (map snd ms')) as Hp.
  rewrite !map_cons, sumOf_cons in *. destruct e as [key t]. cbn [fst snd] in *.
  set (K := moreText dep (map (memberText text) ms') +:+ newlineIndent pretty dep +:+ String "}" rest') in *.
  assert (wsRest (rest d) = encodeString key +:+ colon pretty +:+ text t +:+ K) as Hr'.
  { rewrite Hr. unfold memberText. cbn [fst snd]. by rewrite !string_app_assoc. }
  dsimpl. rewrite Hr', startsQuote_encoded. cbn [negb].
  rewrite (parseString_encoded s _ key (colon pretty +:+ text t +:+ K)) by done. cbn [rbind]. dsimpl.
  rewrite Hks, drop_app_length. destruct (seenBefore seen (map fst ms) key) as [dup seen'] eqn:Esn.
  destruct (seenBefore_spec _ _ _ _ _ Hs Esn) as [-> Hs'].
  assert (key ∉ map fst ms) as Hkey.
  { rewrite map_app in Hnd. apply NoDup_app in Hnd as (_ & H & _). intros Hin. apply (H key Hin). simpl. by left. }
  rewrite bool_decide_false by done. destruct (wsRest_colon (text t) K Ht) as (Hc1 & Hc2 & ->). rewrite Hc2. cbn [negb].
  rewrite Hc1. rewrite (Hb _ K); [ | done | dsimpl; lia | by apply more_end | done]. cbn [rbind]. dsimpl.
  assert (delems d ++ [rep t] = be ++ map rep (map snd (ms ++ [(key, t)]))) as He' by (by rewrite He, <- app_assoc, !map_app).
  assert ((kb ++ map fst ms) ++ [key] = kb ++ map fst (ms ++ [(key, t)])) as Hk' by (by rewrite <- app_assoc, map_app).
  subst K. destruct ms' as [ | e' ms'].
  - cbn [map moreText foldr]. rewrite string_app_nil, wsRest_indent.
    change (wsRest (String "}" rest')) with (String "}" rest'). rewrite bool_decide_false by done.
    change (startsWith (isChar ",") (String "}" rest')) with false. change (startsWith (isChar "}") (String "}" rest')) with true.
    cbv iota. cbn [sdrop]. rewrite He', Hk', !drop_app_length, !take_app_length, Z.add_0_r. cbn [rep]. by rewrite <- (map_map snd rep).
  - cbn [map moreText foldr]. fold (moreText dep (map (memberText text) ms')). rewrite !string_app_assoc, string_app_cons, string_app_nil.
    match goal with |- context [wsRest (String "," ?x)] => change (wsRest (String "," x)) with (String "," x); set (R := x) end.
    rewrite bool_decide_false by done. change (startsWith (isChar ",") (String "," R)) with true. cbv iota. cbn [sdrop].
    rewrite (IH _ _ (ms ++ [(key, t)]) e' ms'); dsimpl.
    + rewrite <- app_assoc, !map_cons, !sumOf_cons. f_equal. f_equal. f_equal. lia.
    + done.
    + done.
    + done.
    + done.
    + by rewrite <- app_assoc.
    + by rewrite map_app.
    + pose proof (wsRest_length (rest d)) as Hws. rewrite Hr in Hws. cbn [map moreText foldr] in Hws.
      fold (moreText dep (map (memberText text) ms')) in Hws.
      rewrite !string_app_assoc, string_length_app, string_app_cons, length_cons in Hws.
      rewrite string_app_nil in Hws. fold R in Hws. lia.
    + rewrite !map_cons, !sumOf_cons in *. lia.
    + subst R. rewrite wsRest_indent. unfold memberText. by rewrite !string_app_assoc, wsRest_quote.
Qed.

Lemma parseObject_text pv k dep d (text : tree -> string) (ms : list (string * tree)) rest' :
  ddepth d = k -> Forall (memberReads pv k text) ms -> NoDup (map fst ms) ->
  dnodes d + sumOf (map count (map snd ms)) <= MaxDecodedNodes ->
  rest d = seqText dep "{" "}" (map (memberText text) ms) +:+ rest' ->
  parseObject s pv d = Ok (rep (TMap ms), mkDecoder rest' (delems d) (dkeys d) k (dnodes d + sumOf (map count (map snd ms)))).
Proof.
  intros Hk Hf Hnd Hn Hr. unfold parseObject. dsimpl. destruct ms as [ | e ms].
  - rewrite Hr. cbn. by rewrite Z.add_0_r, Hk.
  - rewrite Hr, map_cons, seqText_cons, string_app_cons, string_app_nil. cbn [sdrop]. rewrite wsRest_indent.
    assert (wsRest (memberText text e +:+ moreText dep (map (memberText text) ms) +:+ newlineIndent pretty dep +:+ String "}" rest') =
      memberText text e +:+ moreText dep (map (memberText text) ms) +:+ newlineIndent pretty dep +:+ String "}" rest') as Hw
      by (unfold memberText; by rewrite !string_app_assoc, wsRest_quote).
    rewrite Hw. assert (startsWith (isChar "}") (memberText text e +:+ moreText dep (map (memberText text) ms) +:+
      newlineIndent pretty dep +:+ String "}" rest') = false) as -> by done.
    rewrite (objectLoop_text pv k dep text rest' _ _ (delems d) (dkeys d) None [] e ms); dsimpl; try done;
      [by rewrite app_nil_r | by rewrite app_nil_r | lia].
Qed.

(** One level of nesting around a container's reader. *)
Lemma nested_text d (p : decoder -> jr Node) v rest' n : ddepth d + 1 <= MaxNestingDepth ->
  p (setDepth d (ddepth d + 1)) = Ok (v, mkDecoder rest' (delems d) (dkeys d) (ddepth d + 1) n) ->
  nested s p d = Ok (v, mkDecoder rest' (delems d) (dkeys d) (ddepth d) n).
Proof.
  intros Hd Hp. unfold nested. rewrite (proj2 (Z.leb_gt _ _)) by lia. rewrite Hp. cbn [rbind]. unfold setDepth. dsimpl.
  do 3 f_equal. lia.
Qed.

(** What [parseValue] does once the node is counted. *)
Lemma parseValue_step fuel d c r : rest d = String c r -> dnodes d + 1 <= MaxDecodedNodes ->
  parseValue s (S fuel) d =
    let d := setNodes d (dnodes d + 1) in
    if isChar "{" c then nested s (parseObject s (parseValue s fuel)) d
    else if isChar "[" c then nested s (parseArray s (parseValue s fuel)) d
    else if byte_of c =? 34 then rbind (parseString s d) (fun x => let '(t, d) := x in Ok (NString t, d))
    else if isChar "t" c || isChar "f" c then parseKeyword s d
    else if isChar "n" c then parseKeyword s d
    else if isChar "-" c || isDigit c then parseNumber s d
    else errf s d "unexpected character %q" [AStr (encodeRune (byte_of c))].
Proof. intros Hr Hn. cbn [parseValue]. rewrite Hr. cbv zeta. rewrite (proj2 (Z.ltb_ge _ _)) by (dsimpl; lia). done. Qed.

(** A number: its text starts with a sign or a digit. *)
Lemma parseValue_number fuel d (neg : bool) ip x n rest' : intPart ip -> dnodes d + 1 <= MaxDecodedNodes ->
  rest d = (if neg then "-" else "") +:+ ip +:+ x -> 
  parseNumber s (setNodes d (dnodes d + 1)) = Ok (n, setRest (setNodes d (dnodes d + 1)) rest') ->
  parseValue s (S fuel) d = Ok (n, mkDecoder rest' (delems d) (dkeys d) (ddepth d) (dnodes d + 1)).
Proof.
  intros Hip Hn Hr Hp. destruct (intPart_head ip x Hip) as (c0 & r0 & E & Hc0).
  assert (exists c r, rest d = String c r /\ isChar "-" c || isDigit c = true) as (c & r & Er & Hc).
  { rewrite Hr, E. destruct neg; [by eexists _, _ | ]. exists c0, r0. by rewrite Hc0, orb_true_r. }
  rewrite (parseValue_step fuel d c r) by done. cbv zeta.
  destruct (numberHead_token c Hc) as (_ & _ & -> & -> & -> & -> & ->). rewrite Hc. exact Hp.
Qed.

Lemma parseValue_keyword fuel d t v rest' :
  In (t, v) [("true", NBool true); ("false", NBool false); ("null", Null)] -> dnodes d + 1 <= MaxDecodedNodes ->
  rest d = t +:+ rest' ->
  parseValue s (S fuel) d = Ok (v, mkDecoder rest' (delems d) (dkeys d) (ddepth d) (dnodes d + 1)).
Proof.
  intros Hin Hn Hr. transitivity (parseKeyword s (setNodes d (dnodes d + 1))); [ | exact (parseKeyword_text s (setNodes d (dnodes d + 1)) t v rest' Hin Hr)].
  destruct Hin as [[= <- <-] | [[= <- <-] | [[= <- <-] | []]]]; by rewrite (parseValue_step fuel d _ _ Hr).
Qed.

Lemma parseValue_string fuel d t rest' : validText t -> dnodes d + 1 <= MaxDecodedNodes -> rest d = encodeString t +:+ rest' ->
  parseValue s (S fuel) d = Ok (NString t, mkDecoder rest' (delems d) (dkeys d) (ddepth d) (dnodes d + 1)).
Proof.
  intros Ht Hn Hr. transitivity (rbind (parseString s (setNodes d (dnodes d + 1))) (fun x => let '(t, d) := x in Ok (NString t, d))).
  - assert (exists r, rest d = String (chr 34) r) as [r Er] by (rewrite Hr; by eexists). by rewrite (parseValue_step fuel d _ _ Er).
  - by rewrite (parseString_encoded s _ t rest').
Qed.

Lemma container_depth t : isContainer t = true -> 1 <= depth t.
Proof.
  intros Hc. rewrite depth_children, Hc. assert (0 <= maxOf (map depth (children t))); [ | lia].
  generalize (map depth (children t)). clear. induction l; simpl; lia.
Qed.

Lemma parseValue_list fuel d dep l rest' : ddepth d + depth (TList l) <= MaxNestingDepth ->
  dnodes d + count (TList l) <= MaxDecodedNodes ->
  Forall (fun t => readsBack (parseValue s fuel) (ddepth d + 1) (treeText (dep + 1) t) t /\ tokenHead (treeText (dep + 1) t)) l ->
  rest d = treeText dep (TList l) +:+ rest' ->
  parseValue s (S fuel) d = Ok (rep (TList l), mkDecoder rest' (delems d) (dkeys d) (ddepth d) (dnodes d + count (TList l))).
Proof.
  intros Hd Hn Hf Hr. rewrite count_children in *. cbn [children] in *. pose proof (sumOf_count l).
  transitivity (nested s (parseArray s (parseValue s fuel)) (setNodes d (dnodes d + 1))).
  - assert (exists r, rest d = String "[" r) as [r Er] by (rewrite Hr; destruct l; by eexists).
    by rewrite (parseValue_step fuel d _ _ Er) by lia.
  - pose proof (container_depth (TList l) eq_refl). apply (nested_text (setNodes d (dnodes d + 1))); [dsimpl; lia | ].
    rewrite (parseArray_text _ (ddepth d + 1) dep _ (treeText (dep + 1)) l rest'); dsimpl; [do 3 f_equal; lia | done | done | lia | done].
Qed.

Lemma parseValue_map fuel d dep l rest' : ddepth d + depth (TMap l) <= MaxNestingDepth ->
  dnodes d + count (TMap l) <= MaxDecodedNodes -> NoDup (map fst l) ->
  Forall (memberReads (parseValue s fuel) (ddepth d + 1) (treeText (dep + 1))) l ->
  rest d = treeText dep (TMap l) +:+ rest' ->
  parseValue s (S fuel) d = Ok (rep (TMap l), mkDecoder rest' (delems d) (dkeys d) (ddepth d) (dnodes d + count (TMap l))).
Proof.
  intros Hd Hn Hnd Hf Hr. rewrite count_children in *. cbn [children] in *. pose proof (sumOf_count (map snd l)).
  transitivity (nested s (parseObject s (parseValue s fuel)) (setNodes d (dnodes d + 1))).
  - assert (exists r, rest d = String "{" r) as [r Er] by (rewrite Hr; destruct l; by eexists).
    by rewrite (parseValue_step fuel d _ _ Er) by lia.
  - pose proof (container_depth (TMap l) eq_refl). apply (nested_text (setNodes d (dnodes d + 1))); [dsimpl; lia | ].
    rewrite (parseObject_text _ (ddepth d + 1) dep _ (treeText (dep + 1)) l rest'); dsimpl;
      [do 3 f_equal; lia | done | done | done | lia | done].
Qed.

(** [parseValue] reads the text of a document back. *)
Lemma parseValue_text t : jsonTree t -> wfTree t -> forall fuel k dep, 0 <= k -> k + depth t <= MaxNestingDepth ->
  MaxNestingDepth - k < Z.of_nat fuel -> readsBack (parseValue s fuel) k (treeText dep t) t.
Proof.
  assert (forall t k fuel, 0 <= k -> k + depth t <= MaxNestingDepth -> MaxNestingDepth - k < Z.of_nat fuel ->
    exists f, fuel = S f) as Hfuel.
  { intros t' k fuel Hk Hd Hf. pose proof (depth_nonneg t'). destruct fuel as [ | f]; [lia | by exists f]. }
  induction t as [ | b | n | x | t | | | l IH | l IH] using tree_ind; intros Hj Hw fuel k dep Hk Hd Hf d rest' <- Hn He Hr;
    try done; destruct (Hfuel _ _ _ Hk Hd Hf) as [fu ->].
  - by apply (parseValue_keyword fu d "null"); [simpl; tauto | | ].
  - destruct b; [apply (parseValue_keyword fu d "true") | apply (parseValue_keyword fu d "false")]; simpl; tauto || done.
  - assert (exists (neg : bool) ip, intPart ip /\ FormatInt n = (if neg then "-" else "") +:+ ip) as (neg & ip & Hip & E).
    { destruct (Z.lt_ge_cases n 0).
      - exists true, (FormatInt (- n)). split; [apply FormatInt_intPart; lia | by rewrite FormatInt_neg].
      - exists false, (FormatInt n). split; [by apply FormatInt_intPart | by rewrite string_app_nil]. }
    apply (parseValue_number fu d neg ip rest'); [done | done | cbn [treeText] in Hr; by rewrite Hr, E, string_app_assoc | ].
    by apply parseNumber_int.
  - destruct (floatText_parts x Hj) as (neg & ip & f & e & E & Hip & Hfr & Hex & Hne). cbn [treeText] in Hr.
    apply (parseValue_number fu d neg ip (f +:+ e +:+ rest')); [done | done | by rewrite Hr, E, !string_app_assoc | ].
    apply (parseNumber_float s _ neg ip f e rest' x); try done; [ | by rewrite <- E]. rewrite <- E. apply Hj.
  - by apply parseValue_string.
  - destruct (children_depth (TList l) (ddepth d) eq_refl Hd) as [_ Hch]. cbn [children wfTree jsonTree] in *.
    rewrite foldr_Forall in Hw, Hj. apply (parseValue_list fu d dep); try done. rewrite Forall_forall in *.
    intros t Ht. split; [ | apply text_head; by apply Hj].
    apply IH; [done | by apply Hj | by apply Hw | lia | by apply Hch | lia].
  - destruct (children_depth (TMap l) (ddepth d) eq_refl Hd) as [_ Hch]. cbn [children wfTree jsonTree] in *.
    destruct Hw as [Hnd Hw]. rewrite (foldr_Forall (fun e => wfTree (snd e))) in Hw.
    rewrite (foldr_Forall (fun e => validText (fst e) /\ jsonTree (snd e))) in Hj. apply (Forall_map snd) in Hch.
    apply (parseValue_map fu d dep); try done. rewrite Forall_forall in *.
    intros e Ht. destruct (Hj e Ht) as [Hv Hje]. split; [done | ]. split; [ | by apply text_head].
    apply IH; [done | done | by apply Hw | lia | by apply Hch | lia].
Qed.
End Trees.

Lemma decodeText_text `{L : Limits} `{GT : GoText} pretty t : jsonTree t -> wfTree t -> depth t <= MaxNestingDepth ->
  count t <= MaxDecodedNodes -> decodeText (treeText pretty 0 t) = Ok (rep t).
Proof.
  intros Hj Hw Hd Hc. unfold decodeText. set (s := treeText pretty 0 t).
  assert (skipWS (mkDecoder s [] [] 0 0) = mkDecoder s [] [] 0 0) as ->.
  { unfold skipWS. cbn [rest]. rewrite <- (string_app_nil_r s). unfold s. rewrite (wsRest_token _ (text_head pretty t 0 Hj)). done. }
  assert (readsBack (parseValue s valueFuel) 0 s t) as H
    by (apply parseValue_text; [done | done | lia | lia | apply valueFuel_enough]).
  rewrite (H _ ""); [done | done | simpl; lia | done | by rewrite string_app_nil_r].
Qed.

(** C25: json.encode and json.encodePretty accept every json.Value that is well formed, within
    the limits and of JSON kinds (int64 integers, valid UTF-8, floats whose text has Go's
    form and reads back), and json.decode of the text they return is that document. *)
Theorem json_roundtrip `{L : Limits} `{GT : GoText} pretty t h v :
  wfTree t -> jsonTree t -> depth t <= MaxNestingDepth -> count t <= MaxDecodedNodes -> AsNode lib h v = Some (rep t) ->
  exists s, encodeFn h [v] pretty = Ok (StringVal s) /\ decodeFn [StringVal s] = Some (Ok (rep t)).
Proof.
  intros Hw Hj Hd Hc Hv. exists (treeText pretty 0 t). split.
  - unfold encodeFn. assert (encodeValue h v pretty 0 = Ok (treeText pretty 0 t)) as ->; [ | done].
    pose proof MaxNestingDepth_pos. destruct v; try done. cbn [encodeValue]. rewrite (proj2 (Z.ltb_ge _ _)) by lia.
    rewrite Hv. by apply encodeNode_text.
  - unfold decodeFn, StringVal. by rewrite decodeText_text.
Qed.

(** ** A run *)

Definition demoText : GoText :=
  {| FormatFloat := fun _ => "2.5"; Quote := fun s => s; render := msg_format; objectDisplayer := fun _ _ => None |}.
Definition demoTree : tree := TMap [("a", TList [TInt (-7); TFloat (S754_finite false 5629499534213120 (-51)); TList []]); ("b", TNull)].
Definition demoHandle : Value := VObject "json" "Value" (Some (0%nat, None)).

Lemma json_roundtrip_witness : exists s,
  @encodeFn limits_std demoText [mkPayload (rep demoTree) "json"] [demoHandle] true = Ok (StringVal s) /\
  @decodeFn limits_std [StringVal s] = Some (Ok (rep demoTree)).
Proof.
  apply (@json_roundtrip limits_std demoText true demoTree).
  - split; [ | repeat split].
    apply NoDup_cons. split; [by intros H%list_elem_of_singleton | apply NoDup_singleton].
  - assert (forall c, valid_rune c = true -> c < 128 -> validText (str1 c)) as Hv.
    { intros c Hc Hl. exists [c]. split; [by constructor | ]. simpl. unfold encodeRune. rewrite Hc.
      by rewrite (proj2 (Z.ltb_lt c 128)), string_app_nil_r by done. }
    cbn [jsonTree foldr fst snd demoTree]. split; [split; [by apply (Hv 97) | ] | split; [ | done]].
    + split; [done | ]. split; [ | done]. split; [reflexivity | ]. split; [ | reflexivity].
      exists false, "2", ".5", "". split; [done | ]. split; [split; [done | by right] | ].
      split; [right; by exists "5" | by left].
    + by split; [apply (Hv 98) | ].
  - by apply Z.leb_le.
  - by apply Z.leb_le.
  - reflexivity.
Defined.

(** ** The encoder's depth check

    It admits one level of nesting more than the decoder: the innermost of
    [MaxNestingDepth + 1] nested lists is written when it is empty, and its text is refused. *)
Fixpoint nestedLists (n : nat) : Value :=
  match n with O => VList [] None | S n => VList [nestedLists n] None end.

Definition deepText : string := Repeat "[" 65 +:+ Repeat "]" 65.

Example encode_deeper_than_decode :
  @encodeFn limits_tiny demoText [] [nestedLists 64] false = Ok (StringVal deepText) /\
  match @decodeFn limits_tiny [StringVal deepText] with
  | Some (Err m) => msg_format m = "json.decode: nesting exceeds %d levels at line %d, column %d"
  | _ => False
  end.
Proof. split; vm_compute; reflexivity. Qed.
