(* ===== verification/Binary.v ===== *)
(** * The binary library (internal/lib/binary)

    Bulk operations on bytes.  A Go slice expression or index out of range, a [make] of a
    negative length and a division by zero panic, and the interpreter has no recover:
    [None] is a panic (or a loop that does not end), and a builtin is a function to
    [option (result message Value)].  int64 arithmetic wraps ([wrap64]).  The second part models
    the readers of fixed-width numbers (numbers.go) and the table of the library. *)

From Stdlib Require Import Ascii SpecFloat.
From S2P Require Import Prelude GoInt Float64 Utf8 Limits Types Value.
Open Scope string_scope.
Open Scope list_scope.
Open Scope Z_scope.
Open Scope go_scope.

(** ** Go slices *)

Definition blen (b : list Z) : Z := Z.of_nat (length b).

(** [b[i:j]]. *)
Definition slice (b : list Z) (i j : Z) : option (list Z) :=
  if (0 <=? i) && (i <=? j) && (j <=? blen b) then Some (take (Z.to_nat (j - i)) (drop (Z.to_nat i) b)) else None.

(** [make([]byte, n)]: a negative length panics. *)
Definition makeBytes (n : Z) : option (list Z) :=
  if n <? 0 then None else Some (replicate (Z.to_nat n) 0).

(** [make([]Value, n)], the elements to be filled in: only its length matters. *)
Definition makeValues (n : Z) : option nat :=
  if n <? 0 then None else Some (Z.to_nat n).

(** [b[i] = x]. *)
Definition setIndex (b : list Z) (i : nat) (x : Z) : option (list Z) :=
  if (i <? length b)%nat then Some (<[i := x]> b) else None.

(** [a / b] of two int64: a zero divisor panics. *)
Definition divide (a b : Z) : option Z :=
  if b =? 0 then None else Some (quot64 a b).

(** [copy(dst[at:], src)]. *)
Definition copyAt (dst : list Z) (at_ : nat) (src : list Z) : list Z :=
  take at_ dst ++ take (length dst - at_) src ++ drop (at_ + length src) dst.

(** [for ; j < len(out); j *= 2 { copy(out[j:], out[:j]) }]; with [j = 0] it does not end. *)
Fixpoint doubling (fuel : nat) (out : list Z) (j : nat) : option (list Z) :=
  match fuel with
  | O => None
  | S fuel => if (j <? length out)%nat then doubling fuel (copyAt out j (take j out)) (j * 2) else Some out
  end.

(** [bytes.HasPrefix], [bytes.HasSuffix]. *)
Fixpoint HasPrefix (b p : list Z) : bool :=
  match p, b with
  | [], _ => true
  | x :: p, y :: b => (x =? y) && HasPrefix b p
  | _ :: _, [] => false
  end.

Definition HasSuffix (b p : list Z) : bool :=
  (length p <=? length b)%nat && HasPrefix (drop (length b - length p) b) p.

(** [bytes.Index]: the first position, if any. *)
Fixpoint Index (b p : list Z) : option nat :=
  if HasPrefix b p then Some 0%nat
  else match b with
       | [] => None
       | _ :: b => match Index b p with Some i => Some (S i) | None => None end
       end.

(** [bytes.Count] of a non-empty separator: the matches found one after the other. *)
Fixpoint Count (fuel : nat) (b p : list Z) : nat :=
  match fuel with
  | O => 0
  | S fuel => match Index b p with Some i => S (Count fuel (drop (i + length p) b) p) | None => 0 end
  end.

(** ** Arguments *)

Definition berr {A} (fmt : string) (args : list fmtarg) : option (result message A) := Some (Err (Sprintf fmt args)).
Definition ok {A} (x : A) : option (result message A) := Some (Ok x).

(** Go on after a call that may fail or panic. *)
Definition bind {A B} (m : option (result message A)) (k : A -> option (result message B)) : option (result message B) :=
  match m with
  | Some (Ok x) => k x
  | Some (Err e) => Some (Err e)
  | None => None
  end.
Notation "'do!' x ':=' m 'in' k" := (bind m (fun x => k))
  (at level 10, x pattern, m at level 200, k at level 200, format "'do!'  x  ':='  m  'in' '//' k") : go_scope.

(** Go on with the value of an expression that may panic. *)
Definition safely {A B} (m : option A) (k : A -> option (result message B)) : option (result message B) :=
  match m with Some x => k x | None => None end.

Definition kindName (v : Value) : fmtarg := AStr (ValueKind_String (kindOf v)).
Definition nargs (args : list Value) : fmtarg := AInt (Z.of_nat (length args)).

Definition takeBytes (fn : string) (v : Value) (role : string) : option (result message (list Z)) :=
  match v with VBytes b => ok b | _ => berr "%s: %s must be bytes, got %s" [AStr fn; AStr role; kindName v] end.

Definition takeInt (fn : string) (v : Value) (role : string) : option (result message Z) :=
  match v with VInt n => ok n | _ => berr "%s: %s must be int, got %s" [AStr fn; AStr role; kindName v] end.

Section Binary.
Context {L : Limits}.

Definition maxMakeBytes : Z := MaxAllocBytes.

(** ** Building *)

Definition makeFn (args : list Value) : option (result message Value) :=
  match args with
  | n :: fill =>
      if (1 <? length fill)%nat then berr "binary.make expects 1 or 2 arguments (n[, fill]), got %d" [nargs args]
      else
        do! n := takeInt "binary.make" n "n" in
        if n <? 0 then berr "binary.make: n must be >= 0, got %d" [AInt n]
        else if maxMakeBytes <? n then berr "binary.make: %d exceeds the %d-byte limit" [AInt n; AInt maxMakeBytes]
        else
          do! fill := match fill with
                      | f :: _ =>
                          do! f := takeInt "binary.make" f "fill" in
                          if (f <? 0) || (255 <? f)
                          then berr "binary.make: fill must be a byte value in [0, 255], got %d" [AInt f]
                          else ok f
                      | [] => ok 0
                      end in
          safely (makeBytes n) (fun out =>
            if negb (fill =? 0) && (0 <? n) then
              safely (setIndex out 0 fill) (fun out =>
                safely (doubling (S (length out)) out 1) (fun out => ok (BytesVal out)))
            else ok (BytesVal out))
  | [] => berr "binary.make expects 1 or 2 arguments (n[, fill]), got %d" [nargs args]
  end.

Definition concatFn (args : list Value) : option (result message Value) :=
  match args with
  | [a; b] =>
      do! a := takeBytes "binary.concat" a "first argument" in
      do! b := takeBytes "binary.concat" b "second argument" in
      ok (BytesVal (a ++ b))
  | _ => berr "binary.concat expects 2 arguments (a, b), got %d" [nargs args]
  end.

(** The length of the parts, checked at every step. *)
Fixpoint joinTotal (i : Z) (total : Z) (parts : list Value) : option (result message Z) :=
  match parts with
  | [] => ok total
  | VBytes b :: parts =>
      let total := add64 total (blen b) in
      if maxMakeBytes <? total then berr "binary.join: result exceeds the %d-byte limit" [AInt maxMakeBytes]
      else joinTotal (i + 1) total parts
  | e :: _ => berr "binary.join: element %d is %s, expected bytes" [AInt i; kindName e]
  end.

(** The length with the separators, checked by a division. *)
Definition joinGaps (gaps total : Z) (sep : list Z) : option (result message Z) :=
  if (0 <? gaps) && (0 <? blen sep) then
    safely (divide (sub64 maxMakeBytes total) (blen sep)) (fun q =>
      if q <? gaps then berr "binary.join: result exceeds the %d-byte limit" [AInt maxMakeBytes]
      else ok (add64 total (mul64 gaps (blen sep))))
  else ok total.

(** The parts with the separator between them. *)
Fixpoint joinParts (first : bool) (sep : list Z) (parts : list Value) : list Z :=
  match parts with
  | [] => []
  | e :: parts => (if first then [] else sep) ++ (match e with VBytes b => b | _ => [] end) ++ joinParts false sep parts
  end.

Definition joinFn (args : list Value) : option (result message Value) :=
  match args with
  | parts :: sep =>
      if (1 <? length sep)%nat then berr "binary.join expects 1 or 2 arguments (parts[, sep]), got %d" [nargs args]
      else
        match parts with
        | VList l _ =>
            do! sep := match sep with s :: _ => takeBytes "binary.join" s "separator" | [] => ok [] end in
            do! total := joinTotal 0 0 l in
            do! total := joinGaps (sub64 (Z.of_nat (length l)) 1) total sep in
            safely (makeBytes total) (fun _ => ok (BytesVal (joinParts true sep l)))
        | _ => berr "binary.join: first argument must be a list of bytes, got %s" [kindName parts]
        end
  | [] => berr "binary.join expects 1 or 2 arguments (parts[, sep]), got %d" [nargs args]
  end.

(** ** Parts *)

Definition sliceFn (args : list Value) : option (result message Value) :=
  match args with
  | b :: start :: rest =>
      if (1 <? length rest)%nat then berr "binary.slice expects 2 or 3 arguments (b, start[, end]), got %d" [nargs args]
      else
        do! b := takeBytes "binary.slice" b "first argument" in
        do! start := takeInt "binary.slice" start "start" in
        do! end_ := match rest with e :: _ => takeInt "binary.slice" e "end" | [] => ok (blen b) end in
        if (start <? 0) || (blen b <? end_) || (end_ <? start)
        then berr "binary.slice: range [%d, %d) out of bounds for %d bytes" [AInt start; AInt end_; AInt (blen b)]
        else safely (slice b start end_) (fun s => ok (BytesVal s))
  | _ => berr "binary.slice expects 2 or 3 arguments (b, start[, end]), got %d" [nargs args]
  end.

Definition indexOfFn (args : list Value) : option (result message Value) :=
  match args with
  | hay :: needle :: rest =>
      if (2 <? length rest)%nat then
        berr "binary.indexOf expects 2 to 4 arguments (haystack, needle[, from[, limit]]), got %d" [nargs args]
      else
        do! hay := takeBytes "binary.indexOf" hay "haystack" in
        do! needle := takeBytes "binary.indexOf" needle "needle" in
        do! from := match rest with
                    | f :: _ =>
                        do! f := takeInt "binary.indexOf" f "from" in
                        if (f <? 0) || (blen hay <? f)
                        then berr "binary.indexOf: from %d out of range for %d bytes" [AInt f; AInt (blen hay)]
                        else ok f
                    | [] => ok 0
                    end in
        do! limit := match rest with
                     | [_; l] =>
                         do! l := takeInt "binary.indexOf" l "limit" in
                         if (l <? from) || (blen hay <? l)
                         then berr "binary.indexOf: limit %d out of range for from %d and %d bytes" [AInt l; AInt from; AInt (blen hay)]
                         else ok l
                     | _ => ok (blen hay)
                     end in
        safely (slice hay from limit) (fun part =>
          match Index part needle with
          | None => ok (IntVal (-1))
          | Some rel => ok (IntVal (add64 from (Z.of_nat rel)))
          end)
  | _ => berr "binary.indexOf expects 2 to 4 arguments (haystack, needle[, from[, limit]]), got %d" [nargs args]
  end.

(** The builtins that test one bytes value against another. *)
Definition testing (fn usage r1 r2 : string) (test : list Z -> list Z -> bool) (args : list Value) : option (result message Value) :=
  match args with
  | [a; b] =>
      do! a := takeBytes fn a r1 in
      do! b := takeBytes fn b r2 in
      ok (BoolVal (test a b))
  | _ => berr (fn +:+ " expects 2 arguments " +:+ usage +:+ ", got %d") [nargs args]
  end.

Definition containsFn : list Value -> option (result message Value) :=
  testing "binary.contains" "(haystack, needle)" "haystack" "needle"
    (fun b p => match Index b p with Some _ => true | None => false end).
Definition startsWithFn : list Value -> option (result message Value) :=
  testing "binary.startsWith" "(b, prefix)" "first argument" "prefix" HasPrefix.
Definition endsWithFn : list Value -> option (result message Value) :=
  testing "binary.endsWith" "(b, suffix)" "first argument" "suffix" HasSuffix.

(** The parts before the last; a missing separator would make [b[:j]] panic. *)
Fixpoint splitLoop (n : nat) (b sep : list Z) : option (list (list Z)) :=
  match n with
  | O => Some [b]
  | S n =>
      match Index b sep with
      | None => None
      | Some j =>
          match slice b 0 (Z.of_nat j), slice b (Z.of_nat j + blen sep) (blen b) with
          | Some part, Some b => match splitLoop n b sep with Some parts => Some (part :: parts) | None => None end
          | _, _ => None
          end
      end
  end.

Definition splitFn (args : list Value) : option (result message Value) :=
  match args with
  | [b; sep] =>
      do! b := takeBytes "binary.split" b "first argument" in
      do! sep := takeBytes "binary.split" sep "separator" in
      match sep with
      | [] => berr "binary.split: separator must be non-empty" []
      | _ =>
          let n := (Count (length b) b sep + 1)%nat in
          if MaxRangeElements <? Z.of_nat n
          then berr "binary.split: %d parts exceed the limit of %d" [AInt (Z.of_nat n); AInt MaxRangeElements]
          else safely (splitLoop (n - 1) b sep) (fun parts => ok (ListVal TypeBytes (map BytesVal parts)))
      end
  | _ => berr "binary.split expects 2 arguments (b, sep), got %d" [nargs args]
  end.

(** ** Bitwise operations *)

Definition keyBlockBytes : Z := 4096.

(** [op] on slices of equal length; a shorter operand would panic. *)
Fixpoint zipOp (op : Z -> Z -> Z) (a b : list Z) : option (list Z) :=
  match a, b with
  | [], _ => Some []
  | x :: a, y :: b => match zipOp op a b with Some r => Some (op x y :: r) | None => None end
  | _ :: _, [] => None
  end.

(** The key repeated into one block. *)
Definition keyBlock (data key : list Z) : option (list Z) :=
  if blen key <? blen data then
    match divide keyBlockBytes (blen key) with
    | None => None
    | Some q =>
        let n := mul64 (Z.max q 1) (blen key) in
        match makeBytes (Z.min n (blen data)) with
        | None => None
        | Some block => doubling (S (length block)) (copyAt block 0 key) (length key)
        end
    end
  else Some key.

(** One chunk of [data] after the other; with an empty block it does not end. *)
Fixpoint bitLoop (fuel : nat) (op : Z -> Z -> Z) (data block : list Z) (off : Z) : option (list Z) :=
  match fuel with
  | O => None
  | S fuel =>
      if off <? blen data then
        let end_ := off + blen block in
        let end_ := if blen data <? end_ then blen data else end_ in
        match slice data off end_, slice block 0 (end_ - off) with
        | Some a, Some b =>
            match zipOp op a b, bitLoop fuel op data block (off + blen block) with
            | Some r, Some rs => Some (r ++ rs)
            | _, _ => None
            end
        | _, _ => None
        end
      else Some []
  end.

Definition bitwise (fn : string) (op : Z -> Z -> Z) (args : list Value) : option (result message Value) :=
  match args with
  | [data; key] =>
      do! data := takeBytes fn data "data" in
      do! key := takeBytes fn key "key" in
      match key with
      | [] => berr "%s: key must not be empty" [AStr fn]
      | _ =>
          safely (keyBlock data key) (fun block =>
            safely (bitLoop (S (length data)) op data block 0) (fun out => ok (BytesVal out)))
      end
  | _ => berr "%s expects 2 arguments (data, key), got %d" [AStr fn; nargs args]
  end.

Definition bitXorFn : list Value -> option (result message Value) := bitwise "binary.bitXor" Z.lxor.
Definition bitAndFn : list Value -> option (result message Value) := bitwise "binary.bitAnd" Z.land.
Definition bitOrFn : list Value -> option (result message Value) := bitwise "binary.bitOr" Z.lor.

(** [^b] of a byte. *)
Definition bitNotFn (args : list Value) : option (result message Value) :=
  match args with
  | [data] =>
      do! data := takeBytes "binary.bitNot" data "data" in
      ok (BytesVal (map (Z.lxor 255) data))
  | _ => berr "binary.bitNot expects 1 argument (data), got %d" [nargs args]
  end.
End Binary.

(** * Fixed-width numbers (binary/numbers.go) *)

(** ** Byte order *)

Definition inQuotes (s : string) : string := str1 34 +:+ s +:+ str1 34.

Inductive ByteOrder := LittleEndian | BigEndian.

Definition takeOrder (fn : string) (v : Value) : option (result message ByteOrder) :=
  match v with
  | VString s _ =>
      if String.eqb s "le" then ok LittleEndian
      else if String.eqb s "be" then ok BigEndian
      else berr ("%s: order must be " +:+ inQuotes "le" +:+ " or " +:+ inQuotes "be" +:+ ", got %q") [AStr fn; AStr s]
  | _ => berr ("%s: order must be a string (" +:+ inQuotes "le" +:+ " or " +:+ inQuotes "be" +:+ "), got %s") [AStr fn; kindName v]
  end.

Definition intSizes : list Z := [1; 2; 4; 8].
Definition floatSizes : list Z := [4; 8].

(** [%v] of the two slices. *)
Definition sizesText (allowed : list Z) : string :=
  if (length allowed =? 4)%nat then "[1 2 4 8]" else "[4 8]".

Definition takeSize (fn : string) (v : Value) (allowed : list Z) : option (result message Z) :=
  do! n := takeInt fn v "size" in
  if existsb (Z.eqb n) allowed then ok n
  else berr "%s: size must be one of %v, got %d" [AStr fn; AStr (sizesText allowed); AInt n].

Definition checkSpan (fn : string) (b : list Z) (off size : Z) : option (result message unit) :=
  if off <? 0 then berr "%s: offset %d is negative" [AStr fn; AInt off]
  else if (blen b <? off) || (sub64 (blen b) off <? size)
  then berr "%s: %d-byte value at offset %d runs past the end of %d bytes" [AStr fn; AInt size; AInt off; AInt (blen b)]
  else ok tt.

(** [b[off:]]. *)
Definition sliceFrom (b : list Z) (off : Z) : option (list Z) := slice b off (blen b).

(** [order.Uint16], [Uint32], [Uint64]: the first byte is the lowest, or the highest. *)
Fixpoint littleEndian (b : list Z) : Z :=
  match b with [] => 0 | x :: b => Z.lor x (Z.shiftl (littleEndian b) 8) end.

Definition combine (order : ByteOrder) (b : list Z) : Z :=
  match order with LittleEndian => littleEndian b | BigEndian => littleEndian (rev b) end.

(** 1, 2 or 4 bytes, or else 8; fewer would panic. *)
Definition rawUint (b : list Z) (size : Z) (order : ByteOrder) : option Z :=
  let width := if existsb (Z.eqb size) [1; 2; 4] then size else 8 in
  if blen b <? width then None else Some (combine order (take (Z.to_nat width) b)).

(** [int64(u<<shift) >> shift]. *)
Definition signed (u size : Z) : Z :=
  let shift := 64 - 8 * size in shr64 (shl64 u shift) shift.

(** ** IEEE 754 *)

(** [math.Float64frombits]. *)
Definition Float64frombits (u : Z) : float64 :=
  let s := Z.testbit u 63 in
  let e := Z.land (Z.shiftr u 52) 2047 in
  let m := Z.land u (2 ^ 52 - 1) in
  if e =? 2047 then (if m =? 0 then S754_infinity s else S754_nan)
  else if e =? 0 then (match m with Zpos p => S754_finite s p (-1074) | _ => S754_zero s end)
  else match 2 ^ 52 + m with Zpos p => S754_finite s p (e - 1075) | _ => S754_nan end.

(** [float64(math.Float32frombits(u))]: exact. *)
Definition Float32frombits (u : Z) : float64 :=
  let s := Z.testbit u 31 in
  let e := Z.land (Z.shiftr u 23) 255 in
  let m := Z.land u (2 ^ 23 - 1) in
  let exact m e := binary_normalize prec emax (if s then - m else m) e s in
  if e =? 255 then (if m =? 0 then S754_infinity s else S754_nan)
  else if e =? 0 then exact m (-149)
  else exact (2 ^ 23 + m) (e - 150).

Definition floatAt (fn : string) (b : list Z) (size : Z) (order : ByteOrder) (off : Z) : option (result message float64) :=
  safely (rawUint b size order) (fun u =>
    let f := if size =? 4 then Float32frombits u else Float64frombits u in
    if IsNaN f || IsInf f
    then berr "%s: the %d bytes at offset %d are not a finite number (NaN or infinity)" [AStr fn; AInt size; AInt off]
    else ok f).

(** ** Single numbers *)

Record number := mkNumber { n_b : list Z; n_off : Z; n_size : Z; n_order : ByteOrder }.

Definition numberArgs (fn : string) (args : list Value) (allowed : list Z) : option (result message number) :=
  match args with
  | [b; off; size; order] =>
      do! b := takeBytes fn b "first argument" in
      do! off := takeInt fn off "offset" in
      do! size := takeSize fn size allowed in
      do! order := takeOrder fn order in
      do! _ := checkSpan fn b off size in
      ok (mkNumber b off size order)
  | _ => berr "%s expects 4 arguments (b, offset, size, order), got %d" [AStr fn; nargs args]
  end.

Definition readIntFn (args : list Value) : option (result message Value) :=
  do! n := numberArgs "binary.readInt" args intSizes in
  safely (sliceFrom (n_b n) (n_off n)) (fun b =>
    safely (rawUint b (n_size n) (n_order n)) (fun u => ok (IntVal (signed u (n_size n))))).

Definition readUintFn (args : list Value) : option (result message Value) :=
  do! n := numberArgs "binary.readUint" args intSizes in
  safely (sliceFrom (n_b n) (n_off n)) (fun b =>
    safely (rawUint b (n_size n) (n_order n)) (fun u =>
      if maxInt64 <? u
      then berr "binary.readUint: the value at offset %d (%d) exceeds the int range" [AInt (n_off n); AInt u]
      else ok (IntVal u))).

Definition readFloatFn (args : list Value) : option (result message Value) :=
  do! n := numberArgs "binary.readFloat" args floatSizes in
  safely (sliceFrom (n_b n) (n_off n)) (fun b =>
    do! f := floatAt "binary.readFloat" b (n_size n) (n_order n) (n_off n) in
    ok (FloatVal f)).

(** ** Strided numbers *)

(** Divides instead of computing [(count-1)*stride], which can overflow. *)
Definition checkStrided (fn : string) (n off count size stride : Z) : option (result message unit) :=
  if (off <? 0) || (n <? off) then berr "%s: offset %d is outside %d bytes" [AStr fn; AInt off; AInt n]
  else if count =? 0 then ok tt
  else
    let room := sub64 (sub64 n off) size in
    let past := berr "%s: %d values %d bytes apart from offset %d run past the end of %d bytes"
                  [AStr fn; AInt count; AInt stride; AInt off; AInt n] in
    if room <? 0 then past
    else if 1 <? count then
      safely (divide room (sub64 count 1)) (fun q => if q <? stride then past else ok tt)
    else ok tt.

Section BinaryNum.
Context {L : Limits}.

Record bulk := mkBulk { k_number : number; k_count : Z; k_stride : Z }.

Definition bulkArgs (fn : string) (args : list Value) (allowed : list Z) : option (result message bulk) :=
  let usage := berr "%s expects 5 or 6 arguments (b, offset, count, size, order[, stride]), got %d" [AStr fn; nargs args] in
  match args with
  | b :: off :: count :: size :: order :: rest =>
      if (1 <? length rest)%nat then usage
      else
        do! b := takeBytes fn b "first argument" in
        do! off := takeInt fn off "offset" in
        do! count := takeInt fn count "count" in
        do! size := takeSize fn size allowed in
        do! order := takeOrder fn order in
        do! stride := match rest with
                      | s :: _ =>
                          do! s := takeInt fn s "stride" in
                          if s <? 1 then berr "%s: stride must be >= 1, got %d" [AStr fn; AInt s] else ok s
                      | [] => ok size
                      end in
        if (count <? 0) || (blen b <? count)
        then berr "%s: count must be in [0, %d], got %d" [AStr fn; AInt (blen b); AInt count]
        else if MaxRangeElements <? count
        then berr "%s: count %d exceeds the limit of %d values" [AStr fn; AInt count; AInt MaxRangeElements]
        else
          do! _ := checkStrided fn (blen b) off count size stride in
          ok (mkBulk (mkNumber b off size order) count stride)
  | _ => usage
  end.

(** [p := off + i*stride] in int64. *)
Definition bulkPos (k : bulk) (i : nat) : Z :=
  add64 (n_off (k_number k)) (mul64 (Z.of_nat i) (k_stride k)).

(** [for i := 0; i < count; i++]: [todo] values from the [i]-th on. *)
Fixpoint bulkLoop (read : list Z -> Z -> option (result message Value)) (k : bulk) (i todo : nat) : option (result message (list Value)) :=
  match todo with
  | O => ok []
  | S todo =>
      safely (sliceFrom (n_b (k_number k)) (bulkPos k i)) (fun b =>
        do! v := read b (bulkPos k i) in
        do! vs := bulkLoop read k (S i) todo in
        ok (v :: vs))
  end.

Definition readIntsFn (args : list Value) : option (result message Value) :=
  do! k := bulkArgs "binary.readInts" args intSizes in
  safely (makeValues (k_count k)) (fun count =>
    do! out := bulkLoop (fun b _ =>
        safely (rawUint b (n_size (k_number k)) (n_order (k_number k))) (fun u => ok (IntVal (signed u (n_size (k_number k))))))
      k 0 count in
    ok (ListVal TypeInt out)).

Definition readFloatsFn (args : list Value) : option (result message Value) :=
  do! k := bulkArgs "binary.readFloats" args floatSizes in
  safely (makeValues (k_count k)) (fun count =>
    do! out := bulkLoop (fun b p =>
        do! f := floatAt "binary.readFloats" b (n_size (k_number k)) (n_order (k_number k)) p in ok (FloatVal f))
      k 0 count in
    ok (ListVal TypeFloat out)).

(** ** The registered names ([Install]) *)

Definition binaryBuiltins : list (string * (list Value -> option (result message Value))) :=
  [("make", makeFn); ("concat", concatFn); ("join", joinFn); ("slice", sliceFn); ("indexOf", indexOfFn);
   ("contains", containsFn); ("split", splitFn); ("startsWith", startsWithFn); ("endsWith", endsWithFn);
   ("bitXor", bitXorFn); ("bitAnd", bitAndFn); ("bitOr", bitOrFn); ("bitNot", bitNotFn);
   ("readInt", readIntFn); ("readUint", readUintFn); ("readFloat", readFloatFn);
   ("readInts", readIntsFn); ("readFloats", readFloatsFn)].
End BinaryNum.
