(* ===== verification/BinaryLaws.v ===== *)
(** * Laws of the binary library

    What the builtins promise: no call panics, the strided readers agree with the single
    ones, the bitwise operations repeat the key, and splitting is undone by joining. *)

From S2P Require Import Prelude GoInt Float64 Limits Types Value Binary.
Open Scope list_scope.
Open Scope Z_scope.
Open Scope go_scope.

(** ** Slices *)

Lemma slice_some (b : list Z) (i j : nat) :
  (i <= j <= length b)%nat -> slice b (Z.of_nat i) (Z.of_nat j) = Some (take (j - i) (drop i b)).
Proof.
  intros H. unfold slice, blen.
  replace ((0 <=? Z.of_nat i) && (Z.of_nat i <=? Z.of_nat j) && (Z.of_nat j <=? Z.of_nat (length b))) with true
    by (symmetry; rewrite !andb_true_iff, !Z.leb_le; lia).
  by rewrite <- Nat2Z.inj_sub, !Nat2Z.id by lia.
Qed.

Lemma slice_range b i j :
  0 <= i -> i <= j -> j <= blen b -> exists r, slice b i j = Some r.
Proof.
  intros. rewrite <- (Z2Nat.id i), <- (Z2Nat.id j) by lia. rewrite slice_some; [eauto | unfold blen in *; lia].
Qed.

Lemma copyAt_length dst at_ src : (at_ <= length dst)%nat -> length (copyAt dst at_ src) = length dst.
Proof. intros. unfold copyAt. rewrite !length_app, !length_take, length_drop. lia. Qed.

Lemma copyAt_lookup dst at_ src i :
  (at_ <= length dst)%nat -> (i < length dst)%nat ->
  copyAt dst at_ src !! i =
    if (i <? at_)%nat then dst !! i else if (i <? at_ + length src)%nat then src !! (i - at_)%nat else dst !! i.
Proof.
  intros Ha Hi. unfold copyAt. destruct (Nat.ltb_spec i at_).
  - rewrite lookup_app_l by (rewrite length_take; lia). by rewrite lookup_take_lt by lia.
  - rewrite lookup_app_r by (rewrite length_take; lia). rewrite length_take, Nat.min_l by lia.
    destruct (Nat.ltb_spec i (at_ + length src)).
    + rewrite lookup_app_l by (rewrite length_take; lia). by rewrite lookup_take_lt by lia.
    + rewrite lookup_app_r by (rewrite length_take; lia). rewrite length_take, lookup_drop. f_equal. lia.
Qed.

(** ** Repeated keys *)

(** [l] repeats [key], as far as [n]. *)
Definition repeats (key l : list Z) (n : nat) : Prop :=
  forall i, (i < n)%nat -> (i < length l)%nat -> l !! i = key !! (i mod length key)%nat.

Lemma mod_shift k i j : (0 < k)%nat -> (j <= i)%nat -> Nat.divide k j -> ((i - j) mod k = i mod k)%nat.
Proof.
  intros Hk Hj [q ->]. rewrite <- (Nat.Div0.mod_add (i - q * k) q k). f_equal. lia.
Qed.

Lemma doubling_repeats key fuel : key <> [] -> forall out j,
  (0 < j)%nat -> Nat.divide (length key) j -> (length out < fuel + j)%nat -> repeats key out j -> (0 < fuel)%nat ->
  exists r, doubling fuel out j = Some r /\ length r = length out /\ repeats key r (length out).
Proof.
  intros Hkey. assert (0 < length key)%nat by (destruct key; simpl; [done | lia]).
  induction fuel as [ | fuel IH]; intros out j Hj Hd Hf Hr H0; simpl; [lia | ].
  - destruct (Nat.ltb_spec j (length out)) as [Hlt | Hge].
    + rewrite <- (copyAt_length out j (take j out)) by lia. apply IH; [lia | by apply Nat.divide_mul_l | | | lia].
      * rewrite copyAt_length by lia. lia.
      * intros i Hi Hl. rewrite copyAt_length in Hl by lia. rewrite copyAt_lookup, length_take, Nat.min_l by lia.
        destruct (Nat.ltb_spec i j); [apply Hr; lia | ].
        destruct (Nat.ltb_spec i (j + j)); [ | lia].
        rewrite lookup_take_lt by lia. rewrite Hr by lia. by rewrite mod_shift by (done || lia).
    + exists out. split; [done | ]. split; [done | ]. intros i Hi Hl. apply Hr; lia.
Qed.

Lemma makeBytes_some n : 0 <= n -> makeBytes n = Some (replicate (Z.to_nat n) 0).
Proof. intros. unfold makeBytes. by destruct (Z.ltb_spec n 0); [lia | ]. Qed.

Lemma divide_some a b : 0 <= a <= maxInt64 -> 0 < b -> divide a b = Some (a / b).
Proof.
  intros Ha Hb. unfold divide, quot64. destruct (Z.eqb_spec b 0); [lia | ].
  rewrite Z.quot_div_nonneg by lia. rewrite wrap64_id; [done | ].
  assert (0 <= a / b <= a) by (split; [apply Z.div_pos | apply Z.div_le_upper_bound]; nia).
  unfold int64_range, minInt64, maxInt64 in *. lia.
Qed.

Lemma keyBlock_spec data key :
  key <> [] -> blen data <= maxInt64 ->
  exists block, keyBlock data key = Some block /\ (0 < length block)%nat /\ repeats key block (length block) /\
  (Nat.divide (length key) (length block) \/ (length data <= length block)%nat).
Proof.
  intros Hkey Hdata. assert (Hk : (0 < length key)%nat) by (destruct key; simpl; [done | lia]).
  unfold keyBlock, blen, keyBlockBytes in *. destruct (Z.ltb_spec (Z.of_nat (length key)) (Z.of_nat (length data))) as [Hlt | Hge].
  - rewrite divide_some by (unfold maxInt64; lia). set (q := Z.max (4096 / Z.of_nat (length key)) 1).
    assert (Hn : Z.of_nat (length key) <= q * Z.of_nat (length key) <= Z.max 4096 (Z.of_nat (length key))).
    { assert (Z.of_nat (length key) * (4096 / Z.of_nat (length key)) <= 4096) by (apply Z.mul_div_le; lia).
      unfold q. nia. }
    unfold mul64. rewrite wrap64_id by (unfold int64_range, minInt64, maxInt64 in *; lia).
    rewrite makeBytes_some by lia.
    set (m := Z.to_nat (Z.min (q * Z.of_nat (length key)) (Z.of_nat (length data)))).
    assert (Hm : (length key <= m)%nat) by (unfold m; lia).
    assert (Hl0 : length (copyAt (replicate m 0) 0 key) = m) by (rewrite copyAt_length; rewrite length_replicate; lia).
    destruct (doubling_repeats key (S (length (replicate m 0))) Hkey (copyAt (replicate m 0) 0 key) (length key))
      as (block & Hb & Hl & Hr).
    + done.
    + apply Nat.divide_refl.
    + rewrite Hl0, length_replicate. lia.
    + intros i Hi Hi'. rewrite copyAt_lookup by (rewrite length_replicate; lia). simpl.
      destruct (Nat.ltb_spec i (length key)); [ | lia]. by rewrite Nat.sub_0_r, Nat.mod_small.
    + lia.
    + rewrite Hl0 in Hl, Hr. exists block. split; [done | ]. rewrite Hl. split; [lia | ]. split; [done | ].
      destruct (Z.le_gt_cases (q * Z.of_nat (length key)) (Z.of_nat (length data))).
      * left. exists (Z.to_nat q). unfold m. rewrite Z.min_l by lia. rewrite Z2Nat.inj_mul, Nat2Z.id by lia. done.
      * right. unfold m. lia.
  - exists key. split; [done | ]. split; [done | ]. split; [ | right; lia]. intros i Hi _. by rewrite Nat.mod_small.
Qed.

(** ** The bitwise operations *)

(** The definition the chunked loop implements. *)
Definition byKey (op : Z -> Z -> Z) (data key : list Z) : list Z :=
  imap (fun i x => op x (nth (i mod length key) key 0)) data.

Lemma zipOp_lookup op a : forall b, length a = length b ->
  exists r, zipOp op a b = Some r /\ length r = length a /\
    forall i x, a !! i = Some x -> r !! i = Some (op x (nth i b 0)).
Proof.
  induction a as [ | x a IH]; intros [ | y b] Hl; simpl in *; try done.
  - eexists. split; [done | ]. split; [done | ]. intros i x. by rewrite lookup_nil.
  - destruct (IH b ltac:(lia)) as (r & -> & Hr & Hn). eexists. split; [done | ]. split; [simpl; lia | ].
    intros [ | i] z; simpl; [by intros [= ->] | apply Hn].
Qed.

Lemma nth_lookup_eq (l k : list Z) i j : l !! i = k !! j -> nth i l 0 = nth j k 0.
Proof. intros H. by rewrite !nth_lookup, H. Qed.

Lemma bitLoop_spec op data key block :
  (0 < length block)%nat -> (0 < length key)%nat -> repeats key block (length block) ->
  (Nat.divide (length key) (length block) \/ (length data <= length block)%nat) ->
  forall fuel off, (length data < fuel + off)%nat -> (0 < fuel)%nat ->
    (Nat.divide (length key) off \/ (length data <= off)%nat) ->
    exists r, bitLoop fuel op data block (Z.of_nat off) = Some r /\ (length r = length data - off)%nat /\
      forall i x, data !! (off + i)%nat = Some x -> r !! i = Some (op x (nth ((off + i) mod length key) key 0)).
Proof.
  intros Hb Hk Hr Hd fuel. induction fuel as [ | fuel IH]; intros off Hf H0 Ho; [lia | ].
  simpl. unfold blen in *. destruct (Z.ltb_spec (Z.of_nat off) (Z.of_nat (length data))) as [Hlt | Hge]; last first.
  { exists []. split; [done | ]. split; [simpl; lia | ]. intros i x Hi. apply lookup_lt_Some in Hi. lia. }
  destruct Ho as [Ho | Ho]; [ | lia].
  set (e := Nat.min (off + length block) (length data)).
  replace (if _ <? _ then _ else _) with (Z.of_nat e)
    by (unfold e; destruct (Z.ltb_spec (Z.of_nat (length data)) (Z.of_nat off + Z.of_nat (length block))); lia).
  rewrite slice_some by lia. rewrite <- Nat2Z.inj_sub, (slice_some block 0) by lia. rewrite drop_0, Nat.sub_0_r.
  destruct (zipOp_lookup op (take (e - off) (drop off data)) (take (e - off) block)) as (r & -> & Hlr & Hzr).
  { rewrite !length_take, length_drop. lia. }
  rewrite length_take, length_drop in Hlr.
  rewrite <- Nat2Z.inj_add. destruct (IH (off + length block)%nat) as (rs & -> & Hls & Hrs); [lia | lia | | ].
  { destruct Hd as [Hd | Hd]; [left; by apply Nat.divide_add_r | right; lia]. }
  exists (r ++ rs). split; [done | ]. split; [rewrite length_app; lia | ].
  intros i x Hi. assert (off + i < length data)%nat by (by eapply lookup_lt_Some).
  destruct (Nat.lt_ge_cases i (e - off)).
  - rewrite lookup_app_l by lia. rewrite (Hzr i x) by (rewrite lookup_take_lt, lookup_drop by lia; done).
    do 2 f_equal. rewrite <- (mod_shift _ (off + i) off) by (done || lia).
    replace (off + i - off)%nat with i by lia. apply nth_lookup_eq.
    rewrite lookup_take_lt by lia. apply Hr; lia.
  - rewrite lookup_app_r by lia. rewrite (Hrs (i - length r)%nat x); replace (off + length block + (i - length r))%nat with (off + i)%nat by lia; done.
Qed.

Lemma bitwise_byKey fn op data key :
  key <> [] -> blen data <= maxInt64 -> bitwise fn op [VBytes data; VBytes key] = ok (BytesVal (byKey op data key)).
Proof.
  intros Hkey Hdata. unfold bitwise, takeBytes, ok, bind. cbv beta iota.
  assert (Hk : (0 < length key)%nat) by (destruct key; simpl; [done | lia]).
  destruct (keyBlock_spec data key Hkey Hdata) as (block & Hkb & Hb & Hr & Hd).
  destruct (bitLoop_spec op data key block Hb Hk Hr Hd (S (length data)) 0) as (r & Hl & Hn & Hi);
    [lia | lia | left; apply Nat.divide_0_r | ].
  destruct key as [ | k ks]; [done | ]. change (Z.of_nat 0) with 0 in Hl. rewrite Hkb. unfold safely. rewrite Hl. do 3 f_equal.
  apply list_eq_same_length with (length data); [unfold byKey; by rewrite length_imap | lia | ].
  intros i x y Hx Hy1 Hy2. unfold byKey in Hy2. rewrite list_lookup_imap in Hy2.
  destruct (data !! i) as [z | ] eqn:E; [ | done]. rewrite (Hi i z E) in Hy1. simpl in *. congruence.
Qed.

Lemma byKey_involutive data key : byKey Z.lxor (byKey Z.lxor data key) key = data.
Proof.
  apply list_eq. intros i. unfold byKey. rewrite !list_lookup_imap. destruct (data !! i) as [x | ]; [ | done]. simpl.
  by rewrite Z.lxor_assoc, Z.lxor_nilpotent, Z.lxor_0_r.
Qed.

Lemma repeats_one fill l : repeats [fill] l (length l) -> l = replicate (length l) fill.
Proof.
  intros H. apply list_eq. intros i. destruct (Nat.lt_ge_cases i (length l)).
  - rewrite H, lookup_replicate_2 by done. cbn [length]. by rewrite Nat.mod_1_r.
  - by rewrite !lookup_ge_None_2 by (rewrite ?length_replicate; lia).
Qed.

Lemma fillLoop n fill : (0 < n)%nat ->
  safely (setIndex (replicate n 0) 0 fill) (fun out =>
    safely (doubling (S (length out)) out 1) (fun out => ok (BytesVal out))) = ok (BytesVal (replicate n fill)).
Proof.
  intros Hn. unfold setIndex. rewrite length_replicate. destruct (Nat.ltb_spec 0 n); [ | lia]. unfold safely.
  set (out := <[0%nat := fill]> (replicate n 0)).
  assert (Hl : length out = n) by (unfold out; by rewrite length_insert, length_replicate).
  destruct (doubling_repeats [fill] (S (length out)) ltac:(done) out 1) as (r & -> & Hd & Hr);
    [lia | done | lia | | lia | ].
  - intros i Hi Hi'. replace i with 0%nat by lia. unfold out. simpl. rewrite list_lookup_insert_eq; [done | ].
    rewrite length_replicate. lia.
  - simpl. rewrite <- Hd in Hr. rewrite (repeats_one _ _ Hr). by rewrite Hd, Hl.
Qed.

Lemma makeFn_replicate `{Limits} n fill :
  0 <= n <= maxMakeBytes -> 0 <= fill <= 255 ->
  makeFn [VInt n; VInt fill] = ok (BytesVal (replicate (Z.to_nat n) fill)).
Proof.
  intros Hn Hf. unfold makeFn. cbn [length Nat.ltb Nat.leb takeInt bind ok].
  destruct (Z.ltb_spec n 0); [lia | ]. destruct (Z.ltb_spec maxMakeBytes n); [lia | ].
  destruct (Z.ltb_spec fill 0); [lia | ]. destruct (Z.ltb_spec 255 fill); [lia | ]. cbn [orb bind ok].
  rewrite makeBytes_some by lia. cbn [safely].
  destruct (Z.eqb_spec fill 0) as [-> | ]; [done | ]. destruct (Z.ltb_spec 0 n); cbn [negb andb].
  - apply fillLoop. lia.
  - by replace (Z.to_nat n) with 0%nat by lia.
Qed.

(** ** Searching *)

Lemma HasPrefix_spec b p : HasPrefix b p = true -> b = p ++ drop (length p) b.
Proof.
  revert b. induction p as [ | x p IH]; intros [ | y b]; simpl; try done.
  rewrite andb_true_iff, Z.eqb_eq. intros [-> H]. f_equal. by apply IH.
Qed.

Lemma HasPrefix_app p b : HasPrefix (p ++ b) p = true.
Proof. induction p as [ | x p IH]; simpl; [by destruct b | ]. by rewrite Z.eqb_refl. Qed.

Lemma Index_spec b p j :
  Index b p = Some j -> (j + length p <= length b)%nat /\ b = take j b ++ p ++ drop (j + length p) b.
Proof.
  revert j. induction b as [ | x b IH]; intros j; cbn [Index].
  - destruct p; simpl; [intros [= <-]; split; [simpl; lia | done] | done].
  - destruct (HasPrefix (x :: b) p) eqn:E.
    + intros [= <-]. apply HasPrefix_spec in E. split; [ | done].
      apply (f_equal length) in E. rewrite length_app in E. simpl in *. lia.
    + destruct (Index b p) as [i | ]; [ | done]. intros [= <-].
      destruct (IH i eq_refl) as [Hl Hb]. simpl. split; [lia | by f_equal].
Qed.

Lemma Index_None_app p b c : Index (b ++ p ++ c) p = None -> False.
Proof.
  induction b as [ | x b IH]; cbn [app Index].
  - destruct (p ++ c) as [ | y l] eqn:E; cbn [Index]; rewrite <- E; by rewrite HasPrefix_app.
  - destruct (HasPrefix _ _); [done | ]. destruct (Index (b ++ p ++ c) p); [done | ]. auto.
Qed.

(** The part before the first match has no match. *)
Lemma Index_first b p j : p <> [] -> Index b p = Some j -> Index (take j b) p = None.
Proof.
  intros Hp. revert j. induction b as [ | x b IH]; intros j; cbn [Index].
  - by destruct p.
  - destruct (HasPrefix (x :: b) p) eqn:E.
    + intros [= <-]. simpl. by destruct p.
    + destruct (Index b p) as [i | ]; [ | done]. intros [= <-]. cbn [firstn Index]. rewrite (IH i eq_refl).
      destruct (HasPrefix (x :: take i b) p) eqn:E'; [ | done].
      apply HasPrefix_spec in E'. rewrite <- (take_drop i b), app_comm_cons, E', <- app_assoc, HasPrefix_app in E. done.
Qed.

(** ** Splitting *)

(** The parts put together with the separator between them. *)
Fixpoint intercalate (sep : list Z) (parts : list (list Z)) : list Z :=
  match parts with
  | [] => []
  | [p] => p
  | p :: parts => p ++ sep ++ intercalate sep parts
  end.

Lemma intercalate_cons sep p parts :
  parts <> [] -> intercalate sep (p :: parts) = p ++ sep ++ intercalate sep parts.
Proof. by destruct parts. Qed.

Lemma splitLoop_spec sep : sep <> [] -> forall fuel b, (length b <= fuel)%nat ->
  exists parts, splitLoop (Count fuel b sep) b sep = Some parts /\ length parts = S (Count fuel b sep) /\
    intercalate sep parts = b /\ Forall (fun p => Index p sep = None) parts.
Proof.
  intros Hs. induction fuel as [ | fuel IH]; intros b Hl; simpl.
  { exists [b]. do 3 (split; [done | ]). constructor; [ | constructor]. destruct b; [ | simpl in Hl; lia]. by destruct sep. }
  destruct (Index b sep) as [j | ] eqn:E; simpl; last first.
  { exists [b]. do 3 (split; [done | ]). by constructor. }
  rewrite E. destruct (Index_spec _ _ _ E) as [Hj Hb].
  change 0 with (Z.of_nat 0). rewrite (slice_some b 0 j) by lia. unfold blen. rewrite <- Nat2Z.inj_add, slice_some by lia.
  rewrite drop_0, Nat.sub_0_r, take_ge by (rewrite length_drop; lia).
  assert (0 < length sep)%nat by (destruct sep; simpl; [done | lia]).
  destruct (IH (drop (j + length sep) b)) as (parts & -> & Hn & Hi & Hf); [rewrite length_drop; lia | ].
  exists (take j b :: parts). split; [done | ]. split; [simpl; lia | ]. split.
  - rewrite intercalate_cons, Hi by (intros ->; done). by symmetry.
  - constructor; [by apply Index_first | done].
Qed.

(** ** Joining *)

Definition sumLen (parts : list (list Z)) : Z := fold_right (fun p n => blen p + n) 0 parts.

Lemma sumLen_nonneg parts : 0 <= sumLen parts.
Proof. induction parts as [ | p parts IH]; simpl; [done | ]. unfold blen. lia. Qed.

Lemma joinTotal_ok `{Limits} parts : forall i total,
  0 <= total -> total + sumLen parts <= maxMakeBytes ->
  joinTotal i total (map BytesVal parts) = ok (total + sumLen parts).
Proof.
  pose proof MaxAllocBytes_bound. induction parts as [ | p parts IH]; intros i total Ht Hs; simpl in *; [by rewrite Z.add_0_r | ].
  pose proof (sumLen_nonneg parts). assert (0 <= blen p) by (unfold blen; lia). unfold maxMakeBytes in *.
  unfold add64. rewrite wrap64_id by (unfold int64_range, minInt64, maxInt64; lia).
  destruct (Z.ltb_spec MaxAllocBytes (total + blen p)); [lia | ]. rewrite IH by lia. by rewrite Z.add_assoc.
Qed.

Lemma joinParts_false sep parts :
  joinParts false sep (map BytesVal parts) = concat (map (app sep) parts).
Proof. induction parts as [ | p parts IH]; simpl; [done | ]. by rewrite IH, app_assoc. Qed.

Lemma intercalate_concat sep p parts : intercalate sep (p :: parts) = p ++ concat (map (app sep) parts).
Proof.
  revert p. induction parts as [ | q parts IH]; intros p; [simpl; by rewrite app_nil_r | ].
  rewrite intercalate_cons by done. rewrite IH. simpl. by rewrite <- !app_assoc.
Qed.

Lemma joinParts_intercalate sep parts : joinParts true sep (map BytesVal parts) = intercalate sep parts.
Proof.
  destruct parts as [ | p parts]; [done | ]. rewrite intercalate_concat. simpl. by rewrite joinParts_false.
Qed.

Lemma intercalate_length sep p parts :
  blen (intercalate sep (p :: parts)) = sumLen (p :: parts) + Z.of_nat (length parts) * blen sep.
Proof.
  rewrite intercalate_concat. unfold blen. revert p. induction parts as [ | q parts IH]; intros p; simpl in *.
  - rewrite app_nil_r. unfold blen. lia.
  - rewrite length_app. specialize (IH q). rewrite length_app in IH. rewrite !length_app. unfold blen in *. lia.
Qed.

Lemma joinGaps_spec `{Limits} gaps total sep :
  0 <= gaps <= maxInt64 -> 0 <= total <= maxMakeBytes ->
  joinGaps gaps total sep =
    if maxMakeBytes <? total + gaps * blen sep
    then berr "binary.join: result exceeds the %d-byte limit" [AInt maxMakeBytes]
    else ok (total + gaps * blen sep).
Proof.
  intros Hg Ht. pose proof MaxAllocBytes_bound. unfold joinGaps, maxMakeBytes in *.
  assert (0 <= blen sep) by (unfold blen; lia).
  destruct (Z.ltb_spec 0 gaps), (Z.ltb_spec 0 (blen sep)); cbn [andb]; cycle 1.
  1-3: assert (gaps * blen sep = 0) as -> by nia; rewrite Z.add_0_r; by destruct (Z.ltb_spec MaxAllocBytes total); [lia | ].
  unfold sub64. rewrite wrap64_id by (unfold int64_range, minInt64, maxInt64; lia).
  rewrite divide_some by (unfold maxInt64; lia). cbn [safely].
  assert (Hd : (MaxAllocBytes - total) / blen sep < gaps <-> MaxAllocBytes < total + gaps * blen sep).
  { split; intros Hx; [ | apply Z.div_lt_upper_bound; nia].
    destruct (Z.le_gt_cases (total + gaps * blen sep) MaxAllocBytes); [ | lia].
    assert (gaps <= (MaxAllocBytes - total) / blen sep) by (apply Z.div_le_lower_bound; lia). lia. }
  destruct (Z.ltb_spec ((MaxAllocBytes - total) / blen sep) gaps), (Z.ltb_spec MaxAllocBytes (total + gaps * blen sep)); try (done || lia).
  unfold add64, mul64. rewrite !wrap64_id by (rewrite ?wrap64_id; unfold int64_range, minInt64, maxInt64; nia). done.
Qed.

Lemma joinFn_ok `{Limits} t sep parts :
  parts <> [] -> blen (intercalate sep parts) <= maxMakeBytes ->
  joinFn [VList (map BytesVal parts) t; VBytes sep] = ok (BytesVal (intercalate sep parts)).
Proof.
  intros Hne Hl. destruct parts as [ | p parts]; [done | ]. rewrite intercalate_length in Hl.
  unfold joinFn. cbn [length Nat.ltb Nat.leb takeBytes ok bind].
  assert (0 <= blen sep) by (unfold blen; lia). assert (0 <= Z.of_nat (length parts) * blen sep) by nia.
  rewrite joinTotal_ok by lia. cbn [ok bind]. rewrite Z.add_0_l, length_map. cbn [length].
  rewrite joinParts_intercalate. pose proof MaxAllocBytes_bound. pose proof (sumLen_nonneg (p :: parts)).
  destruct (Z.leb_spec (blen sep) 0) as [Hsep | Hsep].
  { unfold joinGaps. destruct (Z.ltb_spec 0 (blen sep)); [lia | ]. rewrite andb_false_r. cbn [bind ok].
    by rewrite makeBytes_some. }
  assert (Z.of_nat (length parts) <= maxMakeBytes) by nia.
  replace (sub64 (Z.of_nat (S (length parts))) 1) with (Z.of_nat (length parts))
    by (unfold sub64; rewrite wrap64_id; unfold int64_range, minInt64, maxInt64, maxMakeBytes in *; lia).
  rewrite joinGaps_spec by (unfold maxInt64, maxMakeBytes in *; lia). destruct (Z.ltb_spec maxMakeBytes (sumLen (p :: parts) + Z.of_nat (length parts) * blen sep)); [lia | ].
  cbn [bind ok]. rewrite makeBytes_some by lia. done.
Qed.

(** ** No panic *)

(** What every Go value satisfies: lengths and integers fit in an int64, and no value is
    longer than the address space. *)
Definition allocated (v : Value) : Prop := match v with VBytes b => blen b <= 2 ^ 62 | _ => True end.

Definition goValue (v : Value) : Prop :=
  match v with
  | VBytes b => blen b <= maxInt64
  | VInt n => int64_range n
  | VList l _ =>
      Z.of_nat (length l) <= maxInt64 /\ Forall allocated l
  | _ => True
  end.

Definition safe {A} (m : option (result message A)) : Prop := m <> None.

Lemma safe_ok {A} (x : A) : safe (ok x).
Proof. done. Qed.

Lemma safe_berr {A} fmt args : safe (berr (A := A) fmt args).
Proof. done. Qed.

Lemma safe_then {A B} (m : option (result message A)) (k : A -> option (result message B)) :
  safe m -> (forall x, m = ok x -> safe (k x)) -> safe (bind m k).
Proof. intros Hm Hk. destruct m as [[x | e] | ]; simpl; [by apply Hk | done | done]. Qed.

Lemma safe_if {A} (c : bool) (m n : option (result message A)) :
  (c = true -> safe m) -> (c = false -> safe n) -> safe (if c then m else n).
Proof. destruct c; auto. Qed.

Lemma safe_takeBytes fn v role : safe (takeBytes fn v role).
Proof. by destruct v. Qed.

Lemma safe_takeInt fn v role : safe (takeInt fn v role).
Proof. by destruct v. Qed.

Lemma safe_takeSize fn v allowed : safe (takeSize fn v allowed).
Proof. apply safe_then; [apply safe_takeInt | ]. intros n _. by destruct (existsb _ _). Qed.

Lemma safe_takeOrder fn v : safe (takeOrder fn v).
Proof. destruct v; try done. simpl. by repeat case_match. Qed.

Lemma safe_checkSpan fn b off size : safe (checkSpan fn b off size).
Proof. unfold checkSpan. by repeat case_match. Qed.

Lemma sub64_id a b : 0 <= a <= maxInt64 -> 0 <= b <= maxInt64 -> sub64 a b = a - b.
Proof. intros. apply wrap64_id. unfold int64_range, minInt64, maxInt64 in *. lia. Qed.

Lemma safe_checkStrided fn n off count size stride :
  0 <= count <= maxInt64 -> safe (checkStrided fn n off count size stride).
Proof.
  intros Hc. unfold checkStrided. cbv zeta. repeat case_match; try done.
  match goal with H : (1 <? count) = true |- _ => apply Z.ltb_lt in H end.
  unfold divide. rewrite sub64_id by (unfold maxInt64 in *; lia).
  destruct (Z.eqb_spec (count - 1) 0); [lia | ]. simpl. by case_match.
Qed.

Create HintDb panic discriminated.
#[export] Hint Resolve safe_ok safe_berr safe_takeBytes safe_takeInt safe_takeSize safe_takeOrder
  safe_checkSpan : panic.

(** Follow the source through its checks to the calls that can panic. *)
Ltac walk :=
  repeat first
    [ solve [auto with panic nocore]
    | apply safe_then; [ | intros ? ?]
    | apply safe_if; intros ?
    | progress case_match ].

Lemma takeBytes_inv fn v role b : takeBytes fn v role = ok b -> v = VBytes b.
Proof. destruct v; try discriminate. by intros [= ->]. Qed.

Lemma takeInt_inv fn v role n : takeInt fn v role = ok n -> v = VInt n.
Proof. destruct v; try discriminate. by intros [= ->]. Qed.

Lemma takeSize_inv fn v allowed n : takeSize fn v allowed = ok n -> v = VInt n /\ existsb (Z.eqb n) allowed = true.
Proof.
  unfold takeSize, bind. destruct (takeInt fn v "size") as [[m | ] | ] eqn:E; try discriminate.
  apply takeInt_inv in E as ->. destruct (existsb _ _) eqn:E; [ | discriminate]. by intros [= <-].
Qed.

(** The widths of a number. *)
Definition wide (n : Z) : Prop := n = 1 \/ n = 2 \/ n = 4 \/ n = 8.

Lemma size_wide n : existsb (Z.eqb n) intSizes = true \/ existsb (Z.eqb n) floatSizes = true -> wide n.
Proof. simpl. rewrite !orb_true_iff, !Z.eqb_eq. unfold wide. intuition (subst; lia || discriminate). Qed.

Lemma wide_bounds n : wide n -> 1 <= n <= 8.
Proof. intros [-> | [-> | [-> | ->]]]; lia. Qed.

Ltac takeInv :=
  repeat match goal with
    | H : takeBytes _ _ _ = ok _ |- _ => apply takeBytes_inv in H; subst
    | H : takeInt _ _ _ = ok _ |- _ => apply takeInt_inv in H; subst
    | H : takeSize _ _ _ = ok _ |- _ => apply takeSize_inv in H as [-> H]
    end.

Lemma bind_inv {A B} (m : option (result message A)) (k : A -> option (result message B)) y :
  bind m k = ok y -> exists x, m = ok x /\ k x = ok y.
Proof. destruct m as [[x | e] | ]; simpl; try discriminate. eauto. Qed.

Lemma ok_inj {A} (x y : A) : ok x = ok y -> x = y.
Proof. by intros [= ->]. Qed.

Lemma berr_ok {A} fmt args (x : A) : berr fmt args <> ok x.
Proof. done. Qed.

(** Read a successful run backwards through its checks. *)
Ltac back :=
  repeat match goal with
    | H : bind _ _ = ok _ |- _ => apply bind_inv in H as (? & ? & H)
    | H : berr _ _ = ok _ |- _ => by apply berr_ok in H
    | H : ok _ = ok _ |- _ => apply ok_inj in H; subst
    | H : (if ?c then _ else _) = ok _ |- _ => destruct c eqn:?
    | H : (match ?l with [] => _ | _ :: _ => _ end) = ok _ |- _ => destruct l
    end;
  rewrite ?orb_false_iff, ?Z.ltb_ge in *.

Section Panic.
Context {L : Limits}.

Lemma safe_joinTotal parts : forall i total, safe (joinTotal i total parts).
Proof. induction parts as [ | e parts IH]; intros i total; simpl; [done | ]. destruct e; try done. by case_match. Qed.

Lemma safe_makeFn args : safe (makeFn args).
Proof.
  unfold makeFn. walk; back; rewrite makeBytes_some by lia; cbn [safely]; try done;
    match goal with H : _ && _ = true |- _ => apply andb_true_iff in H as [_ H%Z.ltb_lt] end; by rewrite fillLoop by lia.
Qed.

Lemma safe_concatFn args : safe (concatFn args).
Proof. unfold concatFn. walk. Qed.

Lemma joinTotal_bound parts : forall i total t,
  Forall allocated parts ->
  0 <= total <= maxMakeBytes -> joinTotal i total parts = ok t -> 0 <= t <= maxMakeBytes.
Proof.
  pose proof MaxAllocBytes_bound. unfold maxMakeBytes.
  induction parts as [ | e parts IH]; intros i total t Hp Ht; simpl; [by intros [= <-] | ].
  apply Forall_cons in Hp as [He Hp]. destruct e as [ | | | | | b | | | | | | | | ]; try discriminate.
  unfold maxMakeBytes. case_match eqn:E; [discriminate | ]. apply IH; [done | ]. revert E. rewrite Z.ltb_ge. intros E.
  split; [ | done]. unfold add64 in *. assert (0 <= blen b) by (unfold blen; lia).
  simpl in He. rewrite wrap64_id by (unfold int64_range, minInt64, maxInt64 in *; lia). lia.
Qed.

Lemma safe_joinGaps gaps total sep :
  -1 <= gaps <= maxInt64 -> 0 <= total <= maxMakeBytes ->
  safe (joinGaps gaps total sep) /\ forall t, joinGaps gaps total sep = ok t -> 0 <= t <= maxMakeBytes.
Proof.
  intros Hg Ht. destruct (Z.eq_dec gaps (-1)) as [-> | ]; [split; [done | by intros t [= <-]] | ].
  rewrite joinGaps_spec by lia. case_match eqn:E; [split; [done | discriminate] | ].
  split; [done | ]. intros t [= <-]. assert (0 <= blen sep) by (unfold blen; lia). revert E. rewrite Z.ltb_ge. nia.
Qed.

#[local] Opaque joinGaps.

Lemma safe_joinFn args : Forall goValue args -> safe (joinFn args).
Proof.
  intros Hv. pose proof MaxAllocBytes_bound. unfold joinFn. walk; try apply safe_joinTotal.
  all: apply Forall_cons in Hv as [[Hlen Hl] _].
  all: match goal with H : joinTotal _ _ _ = ok ?t |- _ => apply joinTotal_bound in H; [ | done | unfold maxMakeBytes; lia] end.
  all: rewrite sub64_id in * by (unfold maxInt64 in *; lia).
  all: match goal with |- safe (joinGaps ?g ?t ?sep) => apply (safe_joinGaps g t sep); lia | _ => idtac end.
  all: match goal with H : joinGaps ?g ?t ?sep = ok ?u |- _ => apply (safe_joinGaps g t sep) in H; [ | lia | done] end.
  all: by rewrite makeBytes_some by lia.
Qed.

Lemma safe_sliceFn args : safe (sliceFn args).
Proof.
  unfold sliceFn. walk; rewrite !orb_false_iff, !Z.ltb_ge in *;
    match goal with |- safe (safely (slice ?b ?i ?j) _) => destruct (slice_range b i j) as [r ->]; [lia .. | done] end.
Qed.

Lemma safe_indexOfFn args : safe (indexOfFn args).
Proof.
  unfold indexOfFn. walk; takeInv; back; takeInv;
    match goal with |- safe (safely (slice ?b ?i ?j) _) => destruct (slice_range b i j) as [r ->]; [unfold blen in *; lia .. | ] end;
    simpl; by case_match.
Qed.

Lemma safe_splitFn args : safe (splitFn args).
Proof.
  unfold splitFn. walk.
  match goal with |- safe (safely (splitLoop _ ?b ?s) _) =>
    destruct (splitLoop_spec s ltac:(done) (length b) b) as (parts & Hs & _); [done | ] end.
  by rewrite Nat.add_sub, Hs.
Qed.
End Panic.

Lemma safe_bitwise fn op args : Forall goValue args -> safe (bitwise fn op args).
Proof.
  intros Hv. destruct args as [ | d [ | k [ | ]]]; try done. apply Forall_cons in Hv as [Hd _].
  destruct d; try done. destruct k as [ | | | | | [ | x key] | | | | | | | | ]; try done. by rewrite bitwise_byKey.
Qed.

Lemma safe_testing fn usage r1 r2 test args : safe (testing fn usage r1 r2 test args).
Proof. unfold testing. walk. Qed.

Lemma safe_bitNotFn args : safe (bitNotFn args).
Proof. unfold bitNotFn. walk. Qed.

(** ** Numbers *)

(** The number that [size] bytes at [off] encode. *)
Definition uintAt (b : list Z) (off size : Z) (order : ByteOrder) : Z :=
  combine order (take (Z.to_nat size) (drop (Z.to_nat off) b)).

Lemma rawWidth size : wide size -> (if existsb (Z.eqb size) [1; 2; 4] then size else 8) = size.
Proof. by intros [-> | [-> | [-> | ->]]]. Qed.

Lemma read_at {A} b off size order (k : Z -> option (result message A)) :
  0 <= off -> wide size -> off + size <= blen b ->
  safely (sliceFrom b off) (fun s => safely (rawUint s size order) k) = k (uintAt b off size order).
Proof.
  intros Ho Hs Hb. assert (1 <= size <= 8) by (destruct Hs as [-> | [-> | [-> | ->]]]; lia). unfold sliceFrom. unfold blen in *.
  rewrite <- (Z2Nat.id off) at 1 by lia. rewrite slice_some by lia. simpl.
  rewrite take_ge by (rewrite length_drop; lia). unfold rawUint, blen. rewrite length_drop, rawWidth by done. cbv zeta.
  destruct (Z.ltb_spec (Z.of_nat (length b - Z.to_nat off)) size); [lia | done].
Qed.

Lemma numberArgs_inv fn args allowed n :
  (allowed = intSizes \/ allowed = floatSizes) -> Forall goValue args -> numberArgs fn args allowed = ok n ->
  0 <= n_off n /\ wide (n_size n) /\ n_off n + n_size n <= blen (n_b n).
Proof.
  intros Ha Hv H. destruct args as [ | b [ | off [ | size [ | order [ | ]]]]]; try discriminate.
  unfold numberArgs in H. back. takeInv. simpl.
  rewrite !Forall_cons in Hv. simpl in Hv. destruct Hv as (Hb & Ho & _).
  match goal with H : existsb _ allowed = true |- _ => rename H into Hs end.
  assert (Hw : wide x1) by (apply size_wide; destruct Ha as [-> | ->]; auto). pose proof (wide_bounds _ Hw).
  match goal with H : checkSpan _ _ _ _ = ok _ |- _ => unfold checkSpan in H; back end.
  unfold sub64, int64_range, blen in *. rewrite wrap64_id in * by (unfold int64_range, minInt64, maxInt64 in *; lia).
  split; [lia | ]. split; [done | lia].
Qed.

Lemma signed_twos_complement u size :
  1 <= size <= 8 -> 0 <= u < 2 ^ (8 * size) ->
  signed u size = if u <? 2 ^ (8 * size - 1) then u else u - 2 ^ (8 * size).
Proof.
  intros Hs Hu. unfold signed, shl64, shr64. cbv zeta. rewrite Z.shiftl_mul_pow2, Z.shiftr_div_pow2 by lia.
  set (sh := 64 - 8 * size). assert (0 < 2 ^ sh) by (apply Z.pow_pos_nonneg; lia).
  assert (H64 : 2 ^ (8 * size) * 2 ^ sh = 2 ^ 64) by (rewrite <- Z.pow_add_r by lia; f_equal; lia).
  assert (H63 : 2 ^ (8 * size - 1) * 2 ^ sh = 2 ^ 63) by (rewrite <- Z.pow_add_r by lia; f_equal; lia).
  destruct (Z.ltb_spec u (2 ^ (8 * size - 1))).
  - rewrite wrap64_id by (unfold int64_range, minInt64, maxInt64; nia). apply Z.div_mul. lia.
  - rewrite wrap64_high by nia. rewrite <- H64, <- Z.mul_sub_distr_r. apply Z.div_mul. lia.
Qed.

Lemma lor_byte x y : 0 <= x < 256 -> Z.lor x (Z.shiftl y 8) = x + 256 * y.
Proof.
  intros Hx. rewrite Z.lor_comm, (lor_low 8) by lia. change (2 ^ 8) with 256. lia.
Qed.

Lemma littleEndian_bounds b : Forall (fun x => 0 <= x < 256) b -> 0 <= littleEndian b < 2 ^ (8 * blen b).
Proof.
  induction 1 as [ | x b Hx Hb IH]; simpl; [done | ].
  rewrite lor_byte by done. unfold blen in *. cbn [length].
  replace (8 * Z.of_nat (S (length b))) with (8 + 8 * Z.of_nat (length b)) by lia. rewrite Z.pow_add_r by lia.
  change (2 ^ 8) with 256. lia.
Qed.

Section Bulk.
Context {L : Limits}.

Lemma strided_bounds fn n off count size stride :
  0 <= n <= maxInt64 -> int64_range off -> 0 <= count <= n -> 1 <= size <= 8 -> 1 <= stride -> int64_range stride ->
  checkStrided fn n off count size stride = ok tt ->
  forall i, (i < Z.to_nat count)%nat ->
    add64 off (mul64 (Z.of_nat i) stride) = off + Z.of_nat i * stride /\
    0 <= off + Z.of_nat i * stride /\ off + Z.of_nat i * stride + size <= n.
Proof.
  intros Hn Ho Hc Hs Ht Htr H i Hi. unfold int64_range in *. unfold checkStrided in H. cbv zeta in H.
  destruct ((off <? 0) || (n <? off)) eqn:E; [discriminate | ]. apply orb_false_iff in E as [Ho0%Z.ltb_ge Hon%Z.ltb_ge].
  destruct (Z.eqb_spec count 0); [lia | ]. rewrite (sub64_id n off) in H by lia.
  replace (sub64 (n - off) size) with (n - off - size) in H
    by (unfold sub64; rewrite wrap64_id; unfold int64_range, minInt64, maxInt64 in *; lia).
  destruct (Z.ltb_spec (n - off - size) 0); [discriminate | ].
  assert (Hmul : Z.of_nat i * stride <= n - off - size).
  { destruct (Z.ltb_spec 1 count); [ | nia]. rewrite sub64_id, divide_some in H by lia. cbn [safely] in H.
    destruct (Z.ltb_spec ((n - off - size) / (count - 1)) stride); [discriminate | ].
    assert ((n - off - size) / (count - 1) * (count - 1) <= n - off - size) by (rewrite Z.mul_comm; apply Z.mul_div_le; lia).
    nia. }
  unfold add64, mul64.
  assert (0 <= Z.of_nat i * stride) by nia.
  rewrite (wrap64_id (Z.of_nat i * stride)) by (unfold int64_range, minInt64 in *; lia).
  rewrite wrap64_id by (unfold int64_range, minInt64 in *; lia). lia.
Qed.

(** The bulk arguments that pass the checks, and where their values lie. *)
Definition bulkOk (k : bulk) : Prop :=
  0 <= k_count k <= Z.min (blen (n_b (k_number k))) MaxRangeElements /\ wide (n_size (k_number k)) /\
  forall i, (i < Z.to_nat (k_count k))%nat ->
    bulkPos k i = n_off (k_number k) + Z.of_nat i * k_stride k /\
    0 <= bulkPos k i /\ bulkPos k i + n_size (k_number k) <= blen (n_b (k_number k)).

Lemma bulkOk_intro fn b off count size order stride allowed u :
  (allowed = intSizes \/ allowed = floatSizes) -> blen b <= maxInt64 -> int64_range off ->
  existsb (Z.eqb size) allowed = true -> 0 <= count <= blen b -> count <= MaxRangeElements ->
  (stride = size \/ 1 <= stride /\ int64_range stride) ->
  checkStrided fn (blen b) off count size stride = ok u ->
  bulkOk (mkBulk (mkNumber b off size order) count stride).
Proof.
  intros Ha Hb Ho He Hc Hm Ht Hs. destruct u.
  assert (Hw : wide size) by (apply size_wide; destruct Ha as [-> | ->]; auto). pose proof (wide_bounds _ Hw).
  split; [simpl; lia | ]. split; [done | ]. intros i Hi. unfold bulkPos. simpl in *.
  edestruct strided_bounds as (Hp & Hp0 & Hp1); [ .. | exact Hs | exact Hi | by rewrite Hp]; try done;
    unfold int64_range, minInt64, maxInt64, blen in *; lia.
Qed.

Lemma bulkArgs_inv fn args allowed k :
  (allowed = intSizes \/ allowed = floatSizes) -> Forall goValue args -> bulkArgs fn args allowed = ok k -> bulkOk k.
Proof.
  intros Ha Hv H. destruct args as [ | b [ | off [ | count [ | size [ | order rest]]]]]; try discriminate.
  unfold bulkArgs in H. cbv zeta in H.
  back; takeInv; rewrite !Forall_cons in Hv; simpl in Hv; destruct Hv as (Hb & Ho & Hc & _ & _ & Hr);
    eapply bulkOk_intro; eauto.
  right. split; [done | apply Hr].
Qed.

Lemma bulkLoop_spec read (k : bulk) (g : Z -> option (result message Value)) n : forall i,
  (forall j, (i <= j < i + n)%nat ->
     safely (sliceFrom (n_b (k_number k)) (bulkPos k j)) (fun b => read b (bulkPos k j)) = g (bulkPos k j) /\ safe (g (bulkPos k j))) ->
  safe (bulkLoop read k i n) /\
  forall vs, bulkLoop read k i n = ok vs ->
    length vs = n /\ forall j v, vs !! j = Some v -> g (bulkPos k (i + j)) = ok v.
Proof.
  induction n as [ | n IH]; intros i Hg; simpl.
  - split; [done | ]. intros vs [= <-]. split; [done | ]. intros j v. by rewrite lookup_nil.
  - destruct (Hg i ltac:(lia)) as [Hi Hs]. destruct (IH (S i)) as [Hs' Hv']; [intros j Hj; apply Hg; lia | ].
    destruct (sliceFrom _ _) as [b | ]; simpl in *; [ | by rewrite <- Hi in Hs]. rewrite Hi. split.
    + apply safe_then; [done | ]. intros v _. apply safe_then; [done | ]. done.
    + intros vs H. back. destruct (Hv' x0 ltac:(done)) as [Hl Hn]. split; [simpl; lia | ].
      intros [ | j] v; simpl.
      * intros [= <-]. by rewrite Nat.add_0_r.
      * intros Hj. rewrite <- Nat.add_succ_comm. by apply Hn.
Qed.
End Bulk.

Section Laws.
Context {L : Limits}.

Lemma safe_floatRead fn b off size order p :
  0 <= off -> wide size -> off + size <= blen b ->
  exists g, safe g /\
    safely (sliceFrom b off) (fun s => do! f := floatAt fn s size order p in ok (FloatVal f)) = g.
Proof.
  intros Ho Hs Hb. pose proof (wide_bounds _ Hs). eexists. split; [ | done].
  destruct (slice_range b off (blen b)) as [s E]; [lia .. | ]. unfold sliceFrom. rewrite E. simpl.
  pose proof (read_at b off size order (fun u => ok u) Ho Hs Hb) as Hr.
  unfold sliceFrom in Hr. rewrite E in Hr. simpl in Hr. unfold floatAt.
  destruct (rawUint s size order); [ | done]. simpl. by repeat case_match.
Qed.

(** The single integer at an offset inside the bytes. *)
Lemma readInt_at b off size order o :
  existsb (Z.eqb size) intSizes = true -> takeOrder "binary.readInt" o = ok order ->
  0 <= off -> off + size <= blen b -> blen b <= maxInt64 ->
  readIntFn [VBytes b; VInt off; VInt size; o] = ok (IntVal (signed (uintAt b off size order) size)).
Proof.
  intros Hs Ho H0 Hb Hm. assert (Hw : wide size) by (apply size_wide; auto). pose proof (wide_bounds _ Hw).
  unfold readIntFn, numberArgs, takeSize. cbn [takeBytes takeInt bind ok]. rewrite Hs, Ho. cbn [bind ok].
  unfold checkSpan, sub64. rewrite wrap64_id by (unfold int64_range, minInt64, maxInt64 in *; lia).
  destruct (Z.ltb_spec off 0); [lia | ]. destruct (Z.ltb_spec (blen b) off); [lia | ].
  destruct (Z.ltb_spec (blen b - off) size); [lia | ]. cbn [orb bind ok n_b n_off n_size n_order].
  by rewrite read_at by (done || lia).
Qed.

Lemma takeOrder_fn fn fn' o order : takeOrder fn o = ok order -> takeOrder fn' o = ok order.
Proof. destruct o; try done. simpl. by repeat case_match. Qed.

(** The integer a strided read takes at position [p]. *)
Definition intRead (k : bulk) (p : Z) : option (result message Value) :=
  let n := k_number k in ok (IntVal (signed (uintAt (n_b n) p (n_size n) (n_order n)) (n_size n))).

Lemma intRead_at (k : bulk) i :
  bulkOk k -> (i < Z.to_nat (k_count k))%nat ->
  safely (sliceFrom (n_b (k_number k)) (bulkPos k i)) (fun b =>
    safely (rawUint b (n_size (k_number k)) (n_order (k_number k)))
      (fun u => ok (IntVal (signed u (n_size (k_number k)))))) = intRead k (bulkPos k i).
Proof. intros (Hc & Hs & Hp) Hi. destruct (Hp i Hi) as (_ & H0 & Hb). by rewrite read_at. Qed.

Lemma bulkArgs_fields fn b off count size o stride allowed k :
  bulkArgs fn [VBytes b; VInt off; VInt count; VInt size; o; VInt stride] allowed = ok k ->
  exists order, takeOrder fn o = ok order /\ existsb (Z.eqb size) allowed = true /\
    k = mkBulk (mkNumber b off size order) count stride.
Proof.
  intros H. unfold bulkArgs, takeSize in H. cbv zeta in H. cbn [takeBytes takeInt bind ok length Nat.ltb Nat.leb] in H.
  back. eauto.
Qed.

#[local] Opaque checkStrided.

Lemma safe_bulkArgs fn args allowed : Forall goValue args -> safe (bulkArgs fn args allowed).
Proof.
  intros Hv. destruct args as [ | b [ | off [ | count [ | size [ | order rest]]]]]; try done.
  unfold bulkArgs. cbv zeta. walk; back; takeInv;
    rewrite !Forall_cons in Hv; destruct Hv as (Hb & _ & Hc & _); simpl in Hb, Hc; apply safe_checkStrided; lia.
Qed.

Lemma makeValues_some n : 0 <= n -> makeValues n = Some (Z.to_nat n).
Proof. intros. unfold makeValues. by destruct (Z.ltb_spec n 0); [lia | ]. Qed.

Lemma safe_readIntsFn args : Forall goValue args -> safe (readIntsFn args).
Proof.
  intros Hv. unfold readIntsFn. apply safe_then.
  { by apply safe_bulkArgs. }
  intros k Hk. apply bulkArgs_inv in Hk; [ | by left | done]. rewrite makeValues_some by apply Hk. apply safe_then; [ | done].
  apply bulkLoop_spec with (g := intRead k). intros j Hj. split; [ | done]. apply intRead_at; [done | lia].
Qed.

Lemma safe_readFloatsFn args : Forall goValue args -> safe (readFloatsFn args).
Proof.
  intros Hv. unfold readFloatsFn. apply safe_then.
  { by apply safe_bulkArgs. }
  intros k Hk. apply bulkArgs_inv in Hk as (Hc & Hs & Hp); [ | by right | done].
  rewrite makeValues_some by lia. apply safe_then; [ | done].
  apply bulkLoop_spec with (g := fun p => safely (sliceFrom (n_b (k_number k)) p) (fun b =>
    do! f := floatAt "binary.readFloats" b (n_size (k_number k)) (n_order (k_number k)) p in ok (FloatVal f))).
  intros j Hj. destruct (Hp j ltac:(lia)) as (_ & H0 & Hb). split; [done | ].
  destruct (safe_floatRead "binary.readFloats" (n_b (k_number k)) (bulkPos k j) (n_size (k_number k)) (n_order (k_number k)) (bulkPos k j))
    as (g & Hg & <-); done.
Qed.

Lemma safe_numbers args :
  Forall goValue args -> safe (readIntFn args) /\ safe (readUintFn args) /\ safe (readFloatFn args).
Proof.
  intros Hv.
  assert (Hn : forall fn allowed, safe (numberArgs fn args allowed)) by (intros; unfold numberArgs; walk).
  repeat split; apply safe_then; try apply Hn; intros n H; apply numberArgs_inv in H as (H0 & Hs & Hb); auto.
  - by rewrite read_at.
  - rewrite read_at by done. by case_match.
  - by destruct (safe_floatRead "binary.readFloat" (n_b n) (n_off n) (n_size n) (n_order n) (n_off n)) as (g & Hg & ->).
Qed.

(** ** Sizes *)

(** Within the limits on one allocation and on the elements of one list. *)
Definition withinLimits (v : Value) : Prop :=
  match v with
  | VBytes b => blen b <= maxMakeBytes
  | VList l _ => Z.of_nat (length l) <= MaxRangeElements
  | _ => True
  end.

Lemma joinTotal_sum parts : forall i total t,
  Forall allocated parts -> 0 <= total <= maxMakeBytes -> joinTotal i total parts = ok t ->
  exists bs, parts = map BytesVal bs /\ t = total + sumLen bs.
Proof.
  induction parts as [ | e parts IH]; intros i total t Hp Ht; simpl; [intros [= <-]; exists []; simpl; split; [done | lia] | ].
  apply Forall_cons in Hp as [He Hp]. destruct e as [ | | | | | b | | | | | | | | ]; try discriminate.
  pose proof MaxAllocBytes_bound. unfold maxMakeBytes in *. simpl in He. assert (0 <= blen b) by (unfold blen; lia).
  unfold add64. rewrite wrap64_id by (unfold int64_range, minInt64, maxInt64 in *; lia).
  destruct (Z.ltb_spec MaxAllocBytes (total + blen b)); [discriminate | ]. intros Hj.
  destruct (IH (i + 1) (total + blen b) t Hp ltac:(lia) Hj) as (bs & -> & ->). exists (b :: bs). simpl. split; [done | lia].
Qed.

Lemma size_makeFn args v : makeFn args = ok v -> withinLimits v.
Proof.
  unfold makeFn. intros H. destruct args as [ | n fill]; back; takeInv; rewrite makeBytes_some in H by lia; cbn [safely] in H;
    (destruct (_ && _) eqn:E in H;
     [apply andb_true_iff in E as [_ E%Z.ltb_lt]; rewrite fillLoop in H by lia | ]);
    apply ok_inj in H as <-; simpl; unfold blen; rewrite length_replicate; lia.
Qed.

Lemma size_joinFn args v : Forall goValue args -> joinFn args = ok v -> withinLimits v.
Proof.
  intros Hv H. pose proof MaxAllocBytes_bound. unfold joinFn in H. destruct args as [ | parts sep]; [discriminate | ].
  destruct (_ <? _)%nat; [discriminate | ]. destruct parts as [ | | | | | | l t | | | | | | | ]; try discriminate.
  apply Forall_cons in Hv as [[Hlen Hl] _]. apply bind_inv in H as (sp & _ & H). apply bind_inv in H as (total & Ht & H).
  assert (Hm : 0 <= 0 <= maxMakeBytes) by (unfold maxMakeBytes; lia).
  pose proof (joinTotal_bound l 0 0 total Hl Hm Ht) as Hb.
  apply joinTotal_sum in Ht as (bs & -> & Hs); [ | done | unfold maxMakeBytes; lia].
  apply bind_inv in H as (total' & Hg & H). destruct (makeBytes total'); [ | discriminate]. apply ok_inj in H as <-.
  simpl. rewrite joinParts_intercalate. destruct bs as [ | b bs]; [unfold blen, maxMakeBytes; simpl; lia | ].
  rewrite intercalate_length. rewrite length_map in *. simpl length in *. rewrite sub64_id in Hg by (unfold maxInt64 in *; lia).
  rewrite joinGaps_spec in Hg by lia. case_match eqn:E; [discriminate | ]. revert E. rewrite Z.ltb_ge. simpl in Hs. simpl sumLen. lia.
Qed.

Lemma size_splitFn args v : splitFn args = ok v -> withinLimits v.
Proof.
  unfold splitFn. intros H. destruct args as [ | b [ | sep [ | ]]]; try discriminate.
  apply bind_inv in H as (b' & _ & H). apply bind_inv in H as (sep' & _ & H).
  destruct sep' as [ | x sep']; [discriminate | ]. case_match eqn:E; [discriminate | ].
  destruct (splitLoop_spec (x :: sep') ltac:(done) (length b') b' (Nat.le_refl _)) as (parts & Hs & Hn & _).
  rewrite Nat.add_sub, Hs in H. apply ok_inj in H as <-. simpl. rewrite length_map, Hn. revert E. rewrite Z.ltb_ge. lia.
Qed.

Lemma bulkLoop_length read k : forall n i vs, bulkLoop read k i n = ok vs -> length vs = n.
Proof.
  induction n as [ | n IH]; intros i vs; simpl; [by intros [= <-] | ].
  destruct (sliceFrom _ _); [ | discriminate]. simpl. intros H. back. simpl. f_equal. eauto.
Qed.

Lemma size_readIntsFn args v : Forall goValue args -> readIntsFn args = ok v -> withinLimits v.
Proof.
  intros Hv H. apply bind_inv in H as (k & Hk & H). apply bulkArgs_inv in Hk as (Hc & _ & _); [ | by left | done].
  rewrite makeValues_some in H by lia. apply bind_inv in H as (vs & Hl & H). apply ok_inj in H as <-.
  apply bulkLoop_length in Hl. simpl. lia.
Qed.

Lemma size_readFloatsFn args v : Forall goValue args -> readFloatsFn args = ok v -> withinLimits v.
Proof.
  intros Hv H. apply bind_inv in H as (k & Hk & H). apply bulkArgs_inv in Hk as (Hc & _ & _); [ | by right | done].
  rewrite makeValues_some in H by lia. apply bind_inv in H as (vs & Hl & H). apply ok_inj in H as <-.
  apply bulkLoop_length in Hl. simpl. lia.
Qed.

(** C15: the binary library is memory safe.  No builtin panics, whatever its arguments: every slice
    expression, index and copy of the code is inside its bytes, no [make] gets a negative
    length, no division has a zero divisor and every loop ends, for the strided readers
    also where count and stride are near the int64 limits.  What make, join, split, readInts
    and readFloats allocate for their result is within the byte and element limits.  And a
    strided read is the list of the single reads: it returns [count] elements, with [count] between 0 and
    the number of bytes, and element i is what readInt returns at offset + i * stride, with no wrap-around.
    Lengths and integers are those of Go (64 bits), the parts of a list to join at most
    2^62 bytes each. *)
Theorem binary_memory_safe :
  (forall name f args, In (name, f) binaryBuiltins -> Forall goValue args -> f args <> None) /\
  (forall f args v, In f [makeFn; joinFn; splitFn; readIntsFn; readFloatsFn] -> Forall goValue args ->
     f args = ok v -> withinLimits v) /\
  (forall b off count size o stride l t,
     Forall goValue [VBytes b; VInt off; VInt count; VInt size; o; VInt stride] ->
     readIntsFn [VBytes b; VInt off; VInt count; VInt size; o; VInt stride] = ok (VList l t) ->
     0 <= count <= blen b /\ Z.of_nat (length l) = count /\
     forall i v, l !! i = Some v -> readIntFn [VBytes b; VInt (off + Z.of_nat i * stride); VInt size; o] = ok v).
Proof.
  split; [ | split].
  - intros name f args Hin Hv. simpl in Hin. pose proof (safe_numbers args Hv) as (? & ? & ?).
    repeat destruct Hin as [[= <- <-] | Hin]; try done.
    all: first [apply safe_makeFn | apply safe_concatFn | by apply safe_joinFn | apply safe_sliceFn | apply safe_indexOfFn
      | apply safe_testing | apply safe_splitFn | by apply safe_bitwise | apply safe_bitNotFn
      | by apply safe_readIntsFn | by apply safe_readFloatsFn].
  - intros f args v Hin Hv. simpl in Hin. repeat destruct Hin as [<- | Hin]; try done;
      eauto using size_makeFn, size_joinFn, size_splitFn, size_readIntsFn, size_readFloatsFn.
  - intros b off count size o stride l t Hv H. unfold readIntsFn in H.
    apply bind_inv in H as (k & Hk & H).
    assert (Hg : bulkOk k) by (eapply bulkArgs_inv; [by left | exact Hv | exact Hk]).
    rewrite makeValues_some in H by apply Hg. apply bind_inv in H as (vs & Hl & H). apply ok_inj in H as [= <- <-].
    apply Forall_inv in Hv.
    apply bulkArgs_fields in Hk as (order & Hord & Hsz & ->).
    eapply bulkLoop_spec with (g := intRead _) in Hl as [Hn Hi]; last first.
    { intros j Hj. split; [ | done]. apply intRead_at; [done | simpl in *; lia]. }
    destruct Hg as (H0 & H1 & Hp). simpl in *. split; [lia | ]. split; [lia | ]. intros i v Hiv.
    pose proof (lookup_lt_Some _ _ _ Hiv). destruct (Hp i ltac:(lia)) as (Hpos & Hge & Hle).
    rewrite Hpos in *. erewrite readInt_at; eauto using takeOrder_fn. rewrite <- Hpos. by apply Hi.
Qed.

(** The chunked bitwise operations are the byte-wise ones.  For a non-empty key, bitXor, bitAnd and bitOr
    combine byte i of the data with byte i mod len(key) of the key, however the code builds
    its block by doubling and cuts the data into chunks; masking twice with bitXor gives the data
    back; and the doubling of make fills every byte. *)
Theorem bitwise_repeats_key data key :
  key <> [] -> blen data <= maxInt64 ->
  bitXorFn [VBytes data; VBytes key] = ok (BytesVal (byKey Z.lxor data key)) /\
  bitAndFn [VBytes data; VBytes key] = ok (BytesVal (byKey Z.land data key)) /\
  bitOrFn [VBytes data; VBytes key] = ok (BytesVal (byKey Z.lor data key)) /\
  bitXorFn [VBytes (byKey Z.lxor data key); VBytes key] = ok (BytesVal data) /\
  (forall n fill, 0 <= n <= maxMakeBytes -> 0 <= fill <= 255 ->
     makeFn [VInt n; VInt fill] = ok (BytesVal (replicate (Z.to_nat n) fill))).
Proof.
  intros Hk Hd. do 3 (split; [by apply bitwise_byKey | ]). split.
  - unfold bitXorFn. rewrite bitwise_byKey; [ | done | unfold byKey, blen in *; by rewrite length_imap]. do 2 f_equal. by rewrite byKey_involutive.
  - intros n fill Hn Hf. by apply makeFn_replicate.
Qed.

(** Joining undoes splitting.  For a non-empty separator and bytes within the limits, split returns one
    part more than there are separators - or the error about the number of parts - no
    part contains the separator, and join with the separator gives the bytes back. *)
Theorem split_join_roundtrip b sep :
  sep <> [] -> blen b <= maxMakeBytes ->
  let n := (Count (length b) b sep + 1)%nat in
  if MaxRangeElements <? Z.of_nat n
  then splitFn [VBytes b; VBytes sep] = berr "binary.split: %d parts exceed the limit of %d" [AInt (Z.of_nat n); AInt MaxRangeElements]
  else exists parts, splitFn [VBytes b; VBytes sep] = ok (ListVal TypeBytes (map BytesVal parts)) /\ length parts = n /\
       Forall (fun part => containsFn [BytesVal part; VBytes sep] = ok (BoolVal false)) parts /\
       joinFn [ListVal TypeBytes (map BytesVal parts); VBytes sep] = ok (VBytes b).
Proof.
  intros Hs Hb n. destruct (splitLoop_spec sep Hs (length b) b (Nat.le_refl _)) as (parts & Hl & Hn & Hi & Hf).
  assert (Hsplit : splitFn [VBytes b; VBytes sep] =
    if MaxRangeElements <? Z.of_nat n
    then berr "binary.split: %d parts exceed the limit of %d" [AInt (Z.of_nat n); AInt MaxRangeElements]
    else ok (ListVal TypeBytes (map BytesVal parts))).
  { unfold splitFn. cbn [takeBytes bind ok]. destruct sep; [done | ]. rewrite Nat.add_sub, Hl. done. }
  rewrite Hsplit. case_match; [done | ]. exists parts. split; [done | ]. split; [lia | ]. split.
  - eapply Forall_impl; [exact Hf | ]. intros part Hp. unfold containsFn, testing. simpl. by rewrite Hp.
  - unfold ListVal. rewrite joinFn_ok; [by rewrite Hi | intros ->; done | by rewrite Hi].
Qed.
End Laws.

Lemma binary_memory_safe_witness :
  (forall f, In ("readInts"%string, f) (@binaryBuiltins limits_std) ->
     f [VBytes [1; 2; 3]; VInt 1; VInt 3; VInt 1; StringVal "le"; VInt maxInt64] <> None) /\
  readIntFn [VBytes [255; 0; 254; 255]; VInt 2; VInt 2; StringVal "le"] = ok (VInt (-2)).
Proof.
  split.
  - intros f Hf. apply (proj1 (@binary_memory_safe limits_std) _ _ _ Hf). repeat constructor; vm_compute; done.
  - pose proof (proj2 (proj2 (@binary_memory_safe limits_std)) [255; 0; 254; 255] 0 2 2 (StringVal "le") 2 [VInt 255; VInt (-2)] (Some TypeInt)) as H.
    assert (Hv : Forall goValue [VBytes [255; 0; 254; 255]; VInt 0; VInt 2; VInt 2; StringVal "le"; VInt 2])
      by (repeat constructor; vm_compute; done).
    destruct (H Hv eq_refl) as (_ & _ & Hi). exact (Hi 1%nat (VInt (-2)) eq_refl).
Defined.

Lemma bitwise_repeats_key_witness :
  bitXorFn [VBytes [1; 2; 3]; VBytes [255; 15]] = ok (BytesVal [254; 13; 252]).
Proof. exact (proj1 (@bitwise_repeats_key limits_std [1; 2; 3] [255; 15] ltac:(done) ltac:(done))). Defined.

Lemma split_join_roundtrip_witness :
  exists parts, @splitFn limits_std [VBytes [7; 0; 0; 8]; VBytes [0]] = ok (ListVal TypeBytes (map BytesVal parts)) /\
    @joinFn limits_std [ListVal TypeBytes (map BytesVal parts); VBytes [0]] = ok (VBytes [7; 0; 0; 8]).
Proof.
  pose proof (@split_join_roundtrip limits_std [7; 0; 0; 8] [0] ltac:(done) ltac:(vm_compute; done)) as H.
  destruct H as (parts & Hs & _ & _ & Hj). by exists parts.
Defined.
