(* ===== verification/GlobalSafe.v ===== *)
(** * Which methods may write a global (interpreter/globalsafe.go)

    The analysis that widens read-only-parameter borrowing to programs with mutable
    globals.  A scan of every method body records hazards and named calls; the hazards then
    spread against the call edges with a worklist.  A [*MethodDef] is represented by the
    method's name; [ms] is the method table in the order a [range] visits it.  The pass that marks the arguments to copy early (argsnap.go) uses the result and
    follows it. *)

From S2P Require Import Prelude Types Value Ast Ownership Environment Defs Store Interp.
Open Scope string_scope.
Open Scope list_scope.

(** The builtins that run arbitrary code of the program. *)
Definition jCallbackBuiltins : list (string * string) :=
  [("meta", "call"); ("meta", "callMain"); ("testing", "run"); ("testing", "runWith");
   ("testing", "assertThrows"); ("testing", "assertThrowsWith"); ("lists", "map"); ("lists", "filter");
   ("lists", "reduce"); ("lists", "find"); ("lists", "any"); ("lists", "all"); ("lists", "sortBy")].

(** ** Names bound in a body *)

(** [collectLocalsStmt]; spawn bodies are not entered. *)
Fixpoint collectLocalsStmt (s : Stmt) (locals : gset string) : gset string :=
  match s with
  | DefineStmt _ _ _ name _ _ _ _ => {[name]} ∪ locals
  | IfStmt _ _ thn elifs els =>
      let locals := collectLocalsBlock thn locals in
      let locals := foldl (fun locals '(_, b) => collectLocalsBlock b locals) locals elifs in
      match els with Some b => collectLocalsBlock b locals | None => locals end
  | MatchStmt _ _ arms els _ =>
      let locals := foldl (fun locals a => collectLocalsArm a locals) locals arms in
      match els with Some b => collectLocalsBlock b locals | None => locals end
  | WhileStmt _ _ b | RepeatStmt _ b _ => collectLocalsBlock b locals
  | ForStmt _ init _ st b _ =>
      let locals := match init with Some s => collectLocalsStmt s locals | None => locals end in
      let locals := match st with Some s => collectLocalsStmt s locals | None => locals end in
      collectLocalsBlock b locals
  | ForEachStmt _ name _ b _ => collectLocalsBlock b ({[name]} ∪ locals)
  | TryStmt _ b name cb _ _ => collectLocalsBlock cb ({[name]} ∪ collectLocalsBlock b locals)
  | AssignStmt _ _ _ _ _ | IndexAssignStmt _ _ _ | AppendStmt _ _ _ | FieldAssignStmt _ _ _ | ReturnStmt _ _
  | ExitStmt _ _ | ThrowStmt _ _ | DeferStmt _ _ _ | ExprStmt _ _ | BreakStmt _ | ContinueStmt _ => locals
  end
with collectLocalsBlock (b : Block) (locals : gset string) : gset string :=
  match b with mkBlock _ ss _ => foldl (fun locals s => collectLocalsStmt s locals) locals ss end
with collectLocalsArm (a : MatchArm) (locals : gset string) : gset string :=
  match a with
  | mkArm _ _ b _ bind _ => collectLocalsBlock b (if bool_decide (bind = "") then locals else {[bind]} ∪ locals)
  end.

Definition collectMethodLocals (ss : list Stmt) (locals : gset string) : gset string :=
  foldl (fun locals s => collectLocalsStmt s locals) locals ss.

(** [lvalueRoot]: the same walk as the parser's. *)
Definition lvalueRoot (e : Expr) : string := lvalueRootName e.

Section Analysis.
Variable i : Interpreter.
(** The [ReentryFree] stamp a module's own analysis left on its method. *)
Variable reentryFree : loadedModule -> string -> bool.

(** The [moduleMethodTarget] that [resolveQualifiedRefs] stamps on a qualified call. *)
Definition moduleTarget (prefix callee : string) : option loadedModule :=
  match i_nsPrefixes i !! prefix with
  | Some _ => None
  | None =>
      match moduleAliases (i_tables i) !! prefix with
      | Some m => if bool_decide (callee ∈ mod_methods m) && bool_decide (callee ∈ mod_exports m) then Some m else None
      | None => None
      end
  end.

Definition isModule (prefix : string) : bool := bool_decide (is_Some (moduleAliases (i_tables i) !! prefix)).

Definition moduleReentryFree (prefix callee : string) : bool :=
  match moduleTarget prefix callee with Some m => reentryFree m callee | None => false end.

(** A callback builtin, by its canonical namespace. *)
Definition isCallback (prefix callee : string) : bool :=
  let ns := match resolveNamespacePrefix i prefix with Ok canon => canon | Err _ => prefix end in
  bool_decide ((ns, callee) ∈ jCallbackBuiltins).

(** The user method a call names: resolved, or looked up by name (spawn bodies). *)
Definition calledMethod (callee : string) (m : option MethodRef) : option string :=
  match m with
  | Some r => Some (ref_Name r)
  | None => match i_methods i !! callee with Some d => Some (method_Name d) | None => None end
  end.

(** ** The scan *)

Record globalHazardScan := mkHazard {
  unsafe : bool;
  reenters : bool;
  callees : list string;
  inSpawn : nat;
  spawnReenters : bool;
  spawnCallees : list string
}.

Definition emptyScan : globalHazardScan := mkHazard false false [] 0 false [].

Definition reentry (s : globalHazardScan) : globalHazardScan :=
  if (0 <? inSpawn s)%nat then mkHazard (unsafe s) (reenters s) (callees s) (inSpawn s) true (spawnCallees s)
  else mkHazard true true (callees s) (inSpawn s) (spawnReenters s) (spawnCallees s).

Definition call (m : string) (s : globalHazardScan) : globalHazardScan :=
  if (0 <? inSpawn s)%nat
  then mkHazard (unsafe s) (reenters s) (callees s) (inSpawn s) (spawnReenters s) (spawnCallees s ++ [m])
  else mkHazard (unsafe s) (reenters s) (callees s ++ [m]) (inSpawn s) (spawnReenters s) (spawnCallees s).

Definition enterSpawn (s : globalHazardScan) : globalHazardScan :=
  mkHazard (unsafe s) (reenters s) (callees s) (S (inSpawn s)) (spawnReenters s) (spawnCallees s).
Definition leaveSpawn (s : globalHazardScan) : globalHazardScan :=
  mkHazard (unsafe s) (reenters s) (callees s) (pred (inSpawn s)) (spawnReenters s) (spawnCallees s).

Section Walk.
Variable locals : gset string.

Definition writesGlobal (root : string) (s : globalHazardScan) : globalHazardScan :=
  if (0 <? inSpawn s)%nat then s
  else if bool_decide (root = "") || bool_decide (root ∉ locals)
  then mkHazard true (reenters s) (callees s) (inSpawn s) (spawnReenters s) (spawnCallees s)
  else s.

Fixpoint walkExpr (e : Expr) (s : globalHazardScan) : globalHazardScan :=
  match e with
  | IntLit _ _ | FloatLit _ _ | StringLit _ _ | BoolLit _ _ | NullLit _ | VarExpr _ _ _ _ _ | ConstRefExpr _ _ _ _
  | QualifiedConstRefExpr _ _ _ | PreEval _ _ => s
  | BinaryExpr _ _ a b _ | IndexExpr _ a b | RangeExpr _ a b => walkExpr b (walkExpr a s)
  | UnaryExpr _ _ a _ | LenExpr _ a | FieldAccessExpr _ a _ => walkExpr a s
  | SliceExpr _ t lo hi =>
      let s := walkExpr t s in
      let s := match lo with Some e => walkExpr e s | None => s end in
      match hi with Some e => walkExpr e s | None => s end
  | ListLit _ es => foldl (fun s e => walkExpr e s) s es
  | MapLit _ kvs =>
      let s := foldl (fun s '(k, _) => walkExpr k s) s kvs in
      foldl (fun s '(_, v) => walkExpr v s) s kvs
  | StructLit _ _ _ _ _ fs => foldl (fun s '(_, e, _) => walkExpr e s) s fs
  | InterpStringExpr _ parts => foldl (fun s '(_, o) => match o with Some e => walkExpr e s | None => s end) s parts
  | CallExpr _ callee args m _ _ =>
      let s := match calledMethod callee m with Some m => call m s | None => reentry s end in
      foldl (fun s e => walkExpr e s) s args
  | QualifiedCallExpr _ prefix callee args _ _ =>
      let s := if isModule prefix then (if moduleReentryFree prefix callee then s else reentry s)
               else if isCallback prefix callee then reentry s else s in
      foldl (fun s e => walkExpr e s) s args
  | CallValueExpr _ callee args _ =>
      foldl (fun s e => walkExpr e s) (walkExpr callee (reentry s)) args
  | SpawnExpr _ body _ => leaveSpawn (foldl (fun s st => walkStmt st s) (enterSpawn s) body)
  end
with walkStmt (st : Stmt) (s : globalHazardScan) : globalHazardScan :=
  match st with
  | DefineStmt _ _ _ _ _ init _ _ => match init with Some e => walkExpr e s | None => s end
  | AssignStmt _ name v _ _ => walkExpr v (writesGlobal name s)
  | IndexAssignStmt _ t v | AppendStmt _ t v | FieldAssignStmt _ t v =>
      walkExpr v (walkExpr t (writesGlobal (lvalueRoot t) s))
  | IfStmt _ c thn elifs els =>
      let s := walkBlock thn (walkExpr c s) in
      let s := foldl (fun s '(c, b) => walkBlock b (walkExpr c s)) s elifs in
      match els with Some b => walkBlock b s | None => s end
  | MatchStmt _ subject arms els _ =>
      let s := foldl (fun s a => walkArm a s) (walkExpr subject s) arms in
      match els with Some b => walkBlock b s | None => s end
  | WhileStmt _ c b => walkBlock b (walkExpr c s)
  | ForStmt _ init c step b _ =>
      let s := match init with Some st => walkStmt st s | None => s end in
      let s := match c with Some e => walkExpr e s | None => s end in
      let s := match step with Some st => walkStmt st s | None => s end in
      walkBlock b s
  | ForEachStmt _ _ c b _ => walkBlock b (walkExpr c s)
  | RepeatStmt _ b c => walkExpr c (walkBlock b s)
  | ReturnStmt _ o | ExitStmt _ o => match o with Some e => walkExpr e s | None => s end
  | ThrowStmt _ e | DeferStmt _ e _ | ExprStmt _ e => walkExpr e s
  | TryStmt _ b _ cb _ _ => walkBlock cb (walkBlock b s)
  | BreakStmt _ | ContinueStmt _ => s
  end
with walkBlock (b : Block) (s : globalHazardScan) : globalHazardScan :=
  match b with mkBlock _ ss _ => foldl (fun s st => walkStmt st s) s ss end
(** A pattern arm's head is not evaluated. *)
with walkArm (a : MatchArm) (s : globalHazardScan) : globalHazardScan :=
  match a with
  | mkArm _ values b variant _ _ =>
      walkBlock b (if bool_decide (variant = "") then foldl (fun s e => walkExpr e s) s values else s)
  end.

Definition walkStmts (ss : list Stmt) (s : globalHazardScan) : globalHazardScan := foldl (fun s st => walkStmt st s) s ss.
End Walk.

Definition scanMethod (m : MethodDef) : globalHazardScan :=
  let locals := foldl (fun l p => {[param_Name p]} ∪ l) ∅ (method_Params m) in
  let locals := collectMethodLocals (block_Stmts (method_Body m)) locals in
  walkStmts locals (block_Stmts (method_Body m)) emptyScan.

(** ** Spreading a fact to the callers *)

(** Reverse call edges: who calls [c]. *)
Definition callersOf (scans : list (string * globalHazardScan)) (c : string) : list string :=
  flat_map (fun '(m, s) => map (fun _ => m) (filter (fun d => d = c) (callees s))) scans.

(** The inner loop: mark the callers that lack the fact and queue them. *)
Definition markCallers (has : gset string) (callers work : list string) : gset string * list string :=
  foldl (fun '(has, work) c => if bool_decide (c ∈ has) then (has, work) else ({[c]} ∪ has, c :: work))
    (has, work) callers.

(** [for len(work) > 0]: the head of [work] is its last element in the source. *)
Fixpoint propagateLoop (fuel : nat) (scans : list (string * globalHazardScan)) (has : gset string) (work : list string)
    : option (gset string) :=
  match fuel with
  | O => None
  | S fuel =>
      match work with
      | [] => Some has
      | m :: work =>
          let '(has, work) := markCallers has (callersOf scans m) work in
          propagateLoop fuel scans has work
      end
  end.

(** [propagate]: the methods that have the fact in the end. *)
Definition propagate (scans : list (string * globalHazardScan)) (fact : globalHazardScan -> bool) : option (gset string) :=
  let seed := map fst (filter (fun x => fact (snd x) = true) scans) in
  propagateLoop (S (length scans)) scans (list_to_set seed) (rev seed).

(** ** The analysis *)

Record entrySafety := mkSafety { e_methods : list MethodDef; e_spawnReentry : bool }.

(** A spawn body re-enters by itself or through a method it calls. *)
Definition spawnScanReenters (re : gset string) (s : globalHazardScan) : bool :=
  spawnReenters s || existsb (fun c => bool_decide (c ∈ re)) (spawnCallees s).

Definition stampSafety (un re : gset string) (m : MethodDef) : MethodDef :=
  {| method_pos := method_pos m; method_Name := method_Name m; method_Params := method_Params m;
     method_Body := method_Body m; method_Exported := method_Exported m;
     method_GlobalSafe := bool_decide (method_Name m ∉ un); method_ReentryFree := bool_decide (method_Name m ∉ re);
     method_ReturnsOwned := method_ReturnsOwned m |}.

Definition computeEntryGlobalSafe (ms : list MethodDef) (top : list Stmt) : option entrySafety :=
  let scans := map (fun m => (method_Name m, scanMethod m)) ms in
  match propagate scans unsafe, propagate scans reenters with
  | Some un, Some re =>
      Some (mkSafety (map (stampSafety un re) ms)
        (existsb (fun x => spawnScanReenters re (snd x)) scans ||
         spawnScanReenters re (walkStmts ∅ top emptyScan)))
  | _, _ => None
  end.
End Analysis.

(** * Which arguments a call must copy early (interpreter/argsnap.go) *)

(** [snapArg]: the value the call uses. *)
Definition snapArg (v : Value) (snap : list bool) (idx : nat) : Value :=
  match snap !! idx with Some true => Copy v | _ => v end.

Section Snap.
Variable i : Interpreter.
(** The mutable top-level variables. *)
Variable globals : gset string.

(** The value is part of a global's backing. *)
Fixpoint aliasesGlobal (e : Expr) : bool :=
  match e with
  | VarExpr _ name _ _ _ => bool_decide (name ∈ globals)
  | IndexExpr _ t _ | FieldAccessExpr _ t _ => aliasesGlobal t
  | _ => false
  end.

(** A call that is not known to leave the globals alone. *)
Definition unsafeCall (callee : string) (m : option MethodRef) : bool :=
  match calledMethod i callee m with
  | Some name => match i_methods i !! name with Some d => negb (method_GlobalSafe d) | None => true end
  | None => true
  end.

Fixpoint mayMutateGlobals (e : Expr) : bool :=
  match e with
  | IntLit _ _ | FloatLit _ _ | StringLit _ _ | BoolLit _ _ | NullLit _ | VarExpr _ _ _ _ _ | ConstRefExpr _ _ _ _
  | QualifiedConstRefExpr _ _ _ | PreEval _ _ => false
  | BinaryExpr _ _ a b _ | IndexExpr _ a b | RangeExpr _ a b => mayMutateGlobals a || mayMutateGlobals b
  | UnaryExpr _ _ a _ | LenExpr _ a | FieldAccessExpr _ a _ => mayMutateGlobals a
  | SliceExpr _ t lo hi =>
      mayMutateGlobals t || match lo with Some e => mayMutateGlobals e | None => false end
                         || match hi with Some e => mayMutateGlobals e | None => false end
  | ListLit _ es => existsb mayMutateGlobals es
  | MapLit _ kvs => existsb (fun '(k, _) => mayMutateGlobals k) kvs || existsb (fun '(_, v) => mayMutateGlobals v) kvs
  | StructLit _ _ _ _ _ fs => existsb (fun '(_, e, _) => mayMutateGlobals e) fs
  | InterpStringExpr _ parts => existsb (fun '(_, o) => match o with Some e => mayMutateGlobals e | None => false end) parts
  | CallExpr _ callee args m _ _ => unsafeCall callee m || existsb mayMutateGlobals args
  | QualifiedCallExpr _ prefix callee args _ _ =>
      isModule i prefix || isCallback i prefix callee || existsb mayMutateGlobals args
  | CallValueExpr _ _ _ _ | SpawnExpr _ _ _ => true
  end.

Definition anyMutates (es : list Expr) : bool := existsb mayMutateGlobals es.

(** The marks of [args], from the last argument backwards, and whether a hazard was seen. *)
Fixpoint snapsFrom (args : list Expr) : list bool * bool :=
  match args with
  | [] => ([], false)
  | a :: args =>
      let '(out, hazardAfter) := snapsFrom args in
      ((hazardAfter && aliasesGlobal a) :: out, hazardAfter || mayMutateGlobals a)
  end.

(** [snaps]: nil when no argument is marked. *)
Definition snaps (args : list Expr) : list bool :=
  let out := fst (snapsFrom args) in if existsb id out then out else [].

Fixpoint snapExpr (e : Expr) : Expr :=
  match e with
  | CallExpr p callee args m mv _ => CallExpr p callee (map snapExpr args) m mv (snaps args)
  | CallValueExpr p callee args _ => CallValueExpr p (snapExpr callee) (map snapExpr args) (snaps args)
  | QualifiedCallExpr p prefix callee args mv _ => QualifiedCallExpr p prefix callee (map snapExpr args) mv (snaps args)
  | BinaryExpr p op a b f => BinaryExpr p op (snapExpr a) (snapExpr b) f
  | UnaryExpr p op a f => UnaryExpr p op (snapExpr a) f
  | LenExpr p a => LenExpr p (snapExpr a)
  | IndexExpr p a b => IndexExpr p (snapExpr a) (snapExpr b)
  | FieldAccessExpr p a f => FieldAccessExpr p (snapExpr a) f
  | RangeExpr p a b => RangeExpr p (snapExpr a) (snapExpr b)
  | SliceExpr p t lo hi => SliceExpr p (snapExpr t) (option_map snapExpr lo) (option_map snapExpr hi)
  | ListLit p es => ListLit p (map snapExpr es)
  | MapLit p kvs => MapLit p (map (fun '(k, v) => (snapExpr k, snapExpr v)) kvs)
  | StructLit p ns en nm ba fs => StructLit p ns en nm ba (map (fun '(n, e, q) => (n, snapExpr e, q)) fs)
  | InterpStringExpr p parts => InterpStringExpr p (map (fun '(t, o) => (t, option_map snapExpr o)) parts)
  | SpawnExpr p body caps => SpawnExpr p (map snapStmt body) caps
  | e => e
  end
with snapStmt (st : Stmt) : Stmt :=
  match st with
  | DefineStmt p c x n t init sl bo => DefineStmt p c x n t (option_map snapExpr init) sl bo
  | AssignStmt p n v d sl => AssignStmt p n (snapExpr v) d sl
  | IndexAssignStmt p t v => IndexAssignStmt p (snapExpr t) (snapExpr v)
  | AppendStmt p t v => AppendStmt p (snapExpr t) (snapExpr v)
  | FieldAssignStmt p t v => FieldAssignStmt p (snapExpr t) (snapExpr v)
  | IfStmt p c thn elifs els =>
      IfStmt p (snapExpr c) (snapBlock thn) (map (fun '(c, b) => (snapExpr c, snapBlock b)) elifs) (option_map snapBlock els)
  | MatchStmt p subject arms els et => MatchStmt p (snapExpr subject) (map snapArm arms) (option_map snapBlock els) et
  | WhileStmt p c b => WhileStmt p (snapExpr c) (snapBlock b)
  | ForStmt p init c step b h =>
      ForStmt p (option_map snapStmt init) (option_map snapExpr c) (option_map snapStmt step) (snapBlock b) h
  | ForEachStmt p x c b sl => ForEachStmt p x (snapExpr c) (snapBlock b) sl
  | RepeatStmt p b c => RepeatStmt p (snapBlock b) (snapExpr c)
  | ReturnStmt p o => ReturnStmt p (option_map snapExpr o)
  | ExitStmt p o => ExitStmt p (option_map snapExpr o)
  | ThrowStmt p e => ThrowStmt p (snapExpr e)
  | DeferStmt p e o => DeferStmt p (snapExpr e) o
  | ExprStmt p e => ExprStmt p (snapExpr e)
  | TryStmt p b x cb cp sl => TryStmt p (snapBlock b) x (snapBlock cb) cp sl
  | st => st
  end
with snapBlock (b : Block) : Block :=
  match b with mkBlock p ss n => mkBlock p (map snapStmt ss) n end
with snapArm (a : MatchArm) : MatchArm :=
  match a with
  | mkArm p values b variant bind sl =>
      mkArm p (if bool_decide (variant = "") then map snapExpr values else values) (snapBlock b) variant bind sl
  end.
End Snap.

(** The mutable variables of the top level; the others live in frames no method can reach. *)
Definition mutableGlobals (top : list Stmt) : gset string :=
  list_to_set (flat_map (fun s =>
    match s with DefineStmt _ false _ name _ _ _ _ => [name] | _ => [] end) top).

Definition withSnaps (i : Interpreter) (globals : gset string) (m : MethodDef) : MethodDef :=
  {| method_pos := method_pos m; method_Name := method_Name m; method_Params := method_Params m;
     method_Body := snapBlock i globals (method_Body m); method_Exported := method_Exported m;
     method_GlobalSafe := method_GlobalSafe m; method_ReentryFree := method_ReentryFree m;
     method_ReturnsOwned := method_ReturnsOwned m |}.

Definition stampArgSnapshots (i : Interpreter) (module_ : bool) (ms : list MethodDef) (top : list Stmt) : list MethodDef * list Stmt :=
  if module_ then (ms, top)
  else let globals := mutableGlobals top in (map (withSnaps i globals) ms, map (snapStmt i globals) top).

(** ** What is marked *)

Lemma snapsFrom_spec i globals args :
  snd (snapsFrom i globals args) = anyMutates i args /\
  forall k, fst (snapsFrom i globals args) !! k = Some true <->
    exists a, args !! k = Some a /\ aliasesGlobal globals a = true /\ anyMutates i (drop (S k) args) = true.
Proof.
  induction args as [ | a args [IH1 IH2]]; simpl; [split; [done | ]; intros k; split; [done | by intros (? & ? & _)] | ].
  destruct (snapsFrom i globals args) as [out h]. simpl in *. split.
  - unfold anyMutates in *. simpl. by rewrite IH1, orb_comm.
  - intros [ | k]; simpl; [ | apply IH2]. rewrite drop_0, <- IH1. split.
    + intros [= E]. apply andb_true_iff in E as [E1 E2]. exists a. done.
    + intros (b & [= <-] & E & ->). by rewrite E.
Qed.

(** An argument is copied early exactly when it is part of a global and a later argument may write
    globals. *)
Theorem snaps_spec i globals args k :
  snaps i globals args !! k = Some true <->
    exists a, args !! k = Some a /\ aliasesGlobal globals a = true /\ anyMutates i (drop (S k) args) = true.
Proof.
  destruct (snapsFrom_spec i globals args) as [_ H]. unfold snaps. rewrite <- H.
  destruct (existsb id (fst (snapsFrom i globals args))) eqn:E; [done | ]. split; [done | ].
  intros Hk. apply list_elem_of_lookup_2, list_elem_of_In in Hk. exfalso.
  assert (existsb id (fst (snapsFrom i globals args)) = true) by (apply existsb_exists; by exists true). congruence.
Qed.
