(* ===== verification/GlobalSafeFacts.v ===== *)
(** * The global-write analysis is reachability in the call graph

    The worklist of [computeEntryGlobalSafe] ends, and marks a method exactly when a method
    with a hazard of its own can be reached through named calls. *)

From S2P Require Import Prelude Types Value Ast Ownership Defs Environment Interp GlobalSafe.
Open Scope list_scope.

Section Spread.
Variable scans : list (string * globalHazardScan).
Hypothesis Hnodup : NoDup (map fst scans).

(** A named call outside spawn bodies. *)
Definition calls (m c : string) : Prop := exists s, (m, s) ∈ scans /\ c ∈ callees s.

(** A method from which one with the fact can be reached. *)
Definition reachesFact (fact : globalHazardScan -> bool) (m : string) : Prop :=
  exists h s, rtc calls m h /\ (h, s) ∈ scans /\ fact s = true.

Definition names : gset string := list_to_set (map fst scans).

Lemma elem_names m : m ∈ names <-> exists s, (m, s) ∈ scans.
Proof.
  unfold names. rewrite elem_of_list_to_set, list_elem_of_fmap. split.
  - intros ([x s] & -> & H). by exists s.
  - intros [s H]. by exists (m, s).
Qed.

Lemma callersOf_spec m c : m ∈ callersOf scans c <-> calls m c.
Proof.
  unfold callersOf, calls. rewrite list_elem_of_In, in_flat_map. split.
  - intros ([x s] & Hin & Hm). apply in_map_iff in Hm as (d & <- & Hd). exists s.
    rewrite <- list_elem_of_In in *. apply list_elem_of_filter in Hd as [-> Hd]. split; [by apply list_elem_of_In | done].
  - intros (s & Hin & Hc). exists (m, s). split; [by apply list_elem_of_In | ].
    apply in_map_iff. exists c. split; [done | ]. apply list_elem_of_In, list_elem_of_filter. by split.
Qed.

(** What is left to do: unmarked methods and queued ones. *)
Definition todo (has : gset string) (work : list string) : nat := (size (names ∖ has) + length work)%nat.

Lemma todo_mark c has work : c ∈ names -> c ∉ has -> todo ({[c]} ∪ has) (c :: work) = todo has work.
Proof.
  intros Hn Hh. unfold todo. simpl.
  assert (names ∖ has = {[c]} ∪ names ∖ ({[c]} ∪ has)) as ->.
  { apply set_eq. intros x. rewrite elem_of_union, !elem_of_difference, elem_of_union, elem_of_singleton.
    destruct (decide (x = c)) as [-> | ]; tauto. }
  rewrite (size_union {[c]}), size_singleton; [lia | ].
  intros x Hx Hy. apply elem_of_singleton in Hx as ->. apply elem_of_difference in Hy as [_ Hy]. apply Hy, elem_of_union_l.
  by apply elem_of_singleton.
Qed.

Lemma markCallers_spec callers : forall has work has' work',
  markCallers has callers work = (has', work') -> (forall c, c ∈ callers -> c ∈ names) ->
  (forall x, x ∈ has' <-> x ∈ has \/ x ∈ callers) /\
  (forall x, x ∈ work' <-> x ∈ work \/ (x ∈ has' /\ x ∉ has)) /\
  todo has' work' = todo has work.
Proof.
  induction callers as [ | c callers IH]; intros has work has' work'; unfold markCallers; simpl.
  - intros [= <- <-] _. split; [ | split; [ | done]]; intros x; rewrite ?elem_of_nil; tauto.
  - fold (markCallers). intros H Hn. case_bool_decide as Hc.
    + destruct (IH _ _ _ _ H) as (H1 & H2 & H3); [intros d Hd; apply Hn; by right | ].
      split; [ | done]. intros x. rewrite H1, elem_of_cons. split; [tauto | ]. intros [ | [-> | ]]; auto.
    + destruct (IH _ _ _ _ H) as (H1 & H2 & H3); [intros d Hd; apply Hn; by right | ]. split; [ | split].
      * intros x. rewrite H1, elem_of_cons, elem_of_union, elem_of_singleton. tauto.
      * intros x. rewrite H2, elem_of_cons, elem_of_union, elem_of_singleton. destruct (decide (x = c)) as [-> | ].
        -- split; [ | by auto]. intros _. right. split; [ | done]. apply H1. left. apply elem_of_union_l. by apply elem_of_singleton.
        -- tauto.
      * rewrite H3. apply todo_mark; [apply Hn; by left | done].
Qed.

Section Loop.
Variable fact : globalHazardScan -> bool.

Record inv (has : gset string) (work : list string) : Prop := {
  inv_seed : forall m s, (m, s) ∈ scans -> fact s = true -> m ∈ has;
  inv_sound : forall m, m ∈ has -> reachesFact fact m;
  inv_work : forall m, m ∈ work -> m ∈ has;
  inv_closed : forall m c, calls m c -> c ∈ has -> c ∉ work -> m ∈ has
}.

Lemma reachesFact_step m c : calls m c -> reachesFact fact c -> reachesFact fact m.
Proof. intros Hc (h & s & Hr & Hs). exists h, s. split; [by eapply rtc_l | done]. Qed.

Lemma inv_step m work has has' work' :
  inv has (m :: work) -> markCallers has (callersOf scans m) work = (has', work') ->
  inv has' work' /\ todo has' work' = todo has work.
Proof.
  intros [Hseed Hsound Hwork Hclosed] H.
  apply markCallers_spec in H as (H1 & H2 & H3).
  2: { intros c Hc. apply callersOf_spec in Hc as (s & Hs & _). apply elem_names. by exists s. }
  split; [ | done]. split.
  - intros x s Hs Hf. apply H1. left. by eapply Hseed.
  - intros x Hx. apply H1 in Hx as [Hx | Hx]; [by apply Hsound | ].
    apply callersOf_spec in Hx. apply (reachesFact_step _ m Hx). apply Hsound, Hwork. by left.
  - intros x Hx. apply H2 in Hx as [Hx | [Hx _]]; [ | done]. apply H1. left. apply Hwork. by right.
  - intros x c Hcall Hc Hw. rewrite H1. destruct (decide (c = m)) as [-> | Hne].
    { right. by apply callersOf_spec. }
    left. rewrite H2 in Hw. assert (c ∈ has) by (destruct (decide (c ∈ has)); [done | tauto]).
    apply (Hclosed x c); [done | done | ]. rewrite elem_of_cons. intros [-> | Hcw]; [done | ]. apply Hw. by left.
Qed.

Lemma inv_done has : inv has [] -> forall m, m ∈ has <-> reachesFact fact m.
Proof.
  intros [Hseed Hsound _ Hclosed] m. split; [apply Hsound | ].
  intros (h & s & Hr & Hs & Hf). induction Hr as [x | x y z Hxy _ IH]; [by eapply Hseed | ].
  apply (Hclosed _ _ Hxy); [by apply IH | by apply not_elem_of_nil].
Qed.

Lemma propagateLoop_spec fuel : forall has work,
  inv has work -> (todo has work < fuel)%nat ->
  exists r, propagateLoop fuel scans has work = Some r /\ forall m, m ∈ r <-> reachesFact fact m.
Proof.
  induction fuel as [ | fuel IH]; intros has work Hi Hf; [lia | ]. simpl. destruct work as [ | m work].
  - exists has. split; [done | ]. by apply inv_done.
  - destruct (markCallers _ _ _) as [has' work'] eqn:E. destruct (inv_step _ _ _ _ _ Hi E) as [Hi' Ht].
    apply IH; [done | ]. rewrite Ht. unfold todo in *. simpl in Hf. lia.
Qed.
End Loop.

Lemma seed_size fact : let seed := map fst (filter (fun x => fact (snd x) = true) scans) in
  todo (list_to_set seed) (rev seed) = length scans.
Proof.
  intros seed. unfold todo. rewrite length_rev.
  assert (Hs : NoDup seed) by (unfold seed; eapply sublist_NoDup; [exact Hnodup | apply fmap_sublist, sublist_filter]).
  pose proof (size_list_to_set (C := gset string) seed Hs) as Hsz.
  assert (list_to_set seed ⊆ names) as Hsub.
  { unfold seed, names. intros x. rewrite !elem_of_list_to_set, !list_elem_of_fmap. intros (y & -> & Hy).
    exists y. split; [done | ]. by apply list_elem_of_filter in Hy as [_ Hy]. }
  rewrite size_difference by done. assert (size (list_to_set (C := gset string) seed) <= size names)%nat by (by apply subseteq_size).
  assert (size names = length scans) as Hn; [ | lia].
  unfold names. by rewrite size_list_to_set, length_map by done.
Qed.

Lemma propagate_spec fact :
  exists r, propagate scans fact = Some r /\ forall m, m ∈ r <-> reachesFact fact m.
Proof.
  unfold propagate. apply propagateLoop_spec; [ | by rewrite seed_size; lia].
  set (seed := map fst _).
  assert (Hseed : forall m, m ∈ seed <-> exists s, (m, s) ∈ scans /\ fact s = true).
  { intros m. unfold seed. rewrite list_elem_of_fmap. split.
    - intros ([x s] & -> & Hx). apply list_elem_of_filter in Hx as [Hf Hx]. by exists s.
    - intros (s & Hs & Hf). exists (m, s). split; [done | ]. by apply list_elem_of_filter. }
  split.
  - intros m s Hs Hf. apply elem_of_list_to_set, Hseed. by exists s.
  - intros m Hm. apply elem_of_list_to_set, Hseed in Hm as (s & Hs & Hf). by exists m, s.
  - intros m Hm. apply elem_of_list_to_set. by rewrite list_elem_of_In, <- in_rev, <- list_elem_of_In in Hm.
  - intros m c _ Hc Hw. apply elem_of_list_to_set in Hc. exfalso. apply Hw.
    by rewrite list_elem_of_In, <- in_rev, <- list_elem_of_In.
Qed.
End Spread.

(** ** The stamps *)

Section Stamps.
Variables (i : Interpreter) (reentryFree : loadedModule -> string -> bool).

Definition scansOf (ms : list MethodDef) : list (string * globalHazardScan) :=
  map (fun m => (method_Name m, scanMethod i reentryFree m)) ms.

(** A spawn body re-enters: by a node of its own, or through a method it calls. *)
Definition spawnMayReenter (ms : list MethodDef) (s : globalHazardScan) : Prop :=
  spawnReenters s = true \/ exists c, c ∈ spawnCallees s /\ reachesFact (scansOf ms) reenters c.

Lemma spawnScanReenters_spec ms re s :
  (forall m, m ∈ re <-> reachesFact (scansOf ms) reenters m) ->
  spawnScanReenters re s = true <-> spawnMayReenter ms s.
Proof.
  intros H. unfold spawnScanReenters, spawnMayReenter. rewrite orb_true_iff, existsb_exists.
  split; (intros [ | (c & Hc & Hr)]; [by left | right; exists c]).
  - apply bool_decide_eq_true in Hr. by rewrite list_elem_of_In, <- H.
  - by rewrite <- list_elem_of_In, bool_decide_eq_true, H.
Qed.

(** [m'] is [m] but for the two stamps. *)
Definition stampsOnly (m m' : MethodDef) : Prop :=
  m' = {| method_pos := method_pos m; method_Name := method_Name m; method_Params := method_Params m;
          method_Body := method_Body m; method_Exported := method_Exported m;
          method_GlobalSafe := method_GlobalSafe m'; method_ReentryFree := method_ReentryFree m';
          method_ReturnsOwned := method_ReturnsOwned m |}.

Lemma stamp_absent (r : gset string) (P : string -> Prop) n :
  (forall m, m ∈ r <-> P m) -> bool_decide (n ∉ r) = true <-> ~ P n.
Proof. intros H. by rewrite bool_decide_eq_true, H. Qed.

End Stamps.

(** ** An example *)

Definition noWhere : position := Pos "" 0 0.

Definition demoMethod (name : string) (body : list Stmt) : MethodDef :=
  {| method_pos := noWhere; method_Name := name; method_Params := []; method_Body := mkBlock noWhere body 0;
     method_Exported := false; method_GlobalSafe := false; method_ReentryFree := false; method_ReturnsOwned := false |}.

Definition demoCall (name : string) : Stmt := ExprStmt noWhere (CallExpr noWhere name [] (Some {| ref_Name := name; ref_ReturnsOwned := false |}) 0 []).

(** a calls b, b writes the global g; c writes a local. *)
Definition demoMethods : list MethodDef :=
  [demoMethod "a" [demoCall "b"]; demoMethod "b" [AssignStmt noWhere "g" (IntLit noWhere 1) 1 0];
   demoMethod "c" [DefineStmt noWhere false false "x" TypeInt None 0 false; AssignStmt noWhere "x" (IntLit noWhere 1) 0 0]].

Definition demoInterp : Interpreter :=
  mkInterp 0 (mkTables ∅ ∅ ∅ ∅) ∅ (fun _ => 0%nat) ∅ ∅ ∅ ∅ ∅ ∅ ∅ false 16.

