(* ===== verification/SpawnCapture.v ===== *)
(** * Which globals a spawn body needs (interpreter/spawncapture.go)

    A spawn copies the global frame into its snapshot; this analysis names the globals the
    body can reach, directly and through the methods it calls, so that only those are copied.
    A body whose references cannot be bounded copies everything. *)

From S2P Require Import Prelude Types Value Ast Ownership Defs Environment Store Interp GlobalSafe.
Open Scope string_scope.
Open Scope list_scope.

(** The names a method references directly, whether it reaches a global it cannot name, and the
    user methods it calls. *)
Record methodRefs := mkRefs { mr_refs : gset string; mr_all : bool; mr_callees : list string }.

(** The summaries of the methods, by name. *)
Abbreviation summary := (gmap string methodRefs).

Section Capture.
Variable i : Interpreter.
Variable reentryFree : loadedModule -> string -> bool.

(** ** The scan *)

Section Walk.
Variable locals : gset string.

Definition use (name : string) (s : methodRefs) : methodRefs :=
  if bool_decide (name <> "") && bool_decide (name ∉ locals) then mkRefs ({[name]} ∪ mr_refs s) (mr_all s) (mr_callees s) else s.

Definition setAll (s : methodRefs) : methodRefs := mkRefs (mr_refs s) true (mr_callees s).
Definition addCallee (m : string) (s : methodRefs) : methodRefs := mkRefs (mr_refs s) (mr_all s) (mr_callees s ++ [m]).

(** A module call that may re-enter and a callback builtin are not walked into. *)
Definition opaqueCall (prefix callee : string) : bool :=
  if isModule i prefix then negb (moduleReentryFree i reentryFree prefix callee) else isCallback i prefix callee.

Fixpoint refExpr (e : Expr) (s : methodRefs) : methodRefs :=
  match e with
  | IntLit _ _ | FloatLit _ _ | StringLit _ _ | BoolLit _ _ | NullLit _ | PreEval _ _ | QualifiedConstRefExpr _ _ _ => s
  | VarExpr _ name _ _ _ | ConstRefExpr _ name _ _ => use name s
  | BinaryExpr _ _ a b _ | IndexExpr _ a b | RangeExpr _ a b => refExpr b (refExpr a s)
  | UnaryExpr _ _ a _ | LenExpr _ a | FieldAccessExpr _ a _ => refExpr a s
  | SliceExpr _ t lo hi =>
      let s := refExpr t s in
      let s := match lo with Some e => refExpr e s | None => s end in
      match hi with Some e => refExpr e s | None => s end
  | ListLit _ es => foldl (fun s e => refExpr e s) s es
  | MapLit _ kvs =>
      let s := foldl (fun s '(k, _) => refExpr k s) s kvs in
      foldl (fun s '(_, v) => refExpr v s) s kvs
  | StructLit _ _ _ _ _ fs => foldl (fun s '(_, e, _) => refExpr e s) s fs
  | InterpStringExpr _ parts => foldl (fun s '(_, o) => match o with Some e => refExpr e s | None => s end) s parts
  | CallExpr _ callee args m _ _ =>
      let s := match calledMethod i callee m with Some m => addCallee m s | None => setAll s end in
      foldl (fun s e => refExpr e s) s args
  | QualifiedCallExpr _ prefix callee args _ _ =>
      if opaqueCall prefix callee then setAll s else foldl (fun s e => refExpr e s) s args
  | CallValueExpr _ _ _ _ => setAll s
  | SpawnExpr _ body _ => foldl (fun s st => refStmt st s) s body
  end
with refStmt (st : Stmt) (s : methodRefs) : methodRefs :=
  match st with
  | DefineStmt _ _ _ _ _ init _ _ => match init with Some e => refExpr e s | None => s end
  | AssignStmt _ name v _ _ => refExpr v (use name s)
  | IndexAssignStmt _ t v | FieldAssignStmt _ t v => refExpr v (refExpr t (use (lvalueRoot t) s))
  | AppendStmt _ t v =>
      refExpr v (refExpr t (if bool_decide (lvalueRoot t <> "") then use (lvalueRoot t) s else setAll s))
  | IfStmt _ c thn elifs els =>
      let s := refBlock thn (refExpr c s) in
      let s := foldl (fun s '(c, b) => refBlock b (refExpr c s)) s elifs in
      match els with Some b => refBlock b s | None => s end
  | MatchStmt _ subject arms els _ =>
      let s := foldl (fun s a => refArm a s) (refExpr subject s) arms in
      match els with Some b => refBlock b s | None => s end
  | WhileStmt _ c b => refBlock b (refExpr c s)
  | ForStmt _ init c step b _ =>
      let s := match init with Some st => refStmt st s | None => s end in
      let s := match c with Some e => refExpr e s | None => s end in
      let s := match step with Some st => refStmt st s | None => s end in
      refBlock b s
  | ForEachStmt _ _ c b _ => refBlock b (refExpr c s)
  | RepeatStmt _ b c => refExpr c (refBlock b s)
  | ReturnStmt _ o | ExitStmt _ o => match o with Some e => refExpr e s | None => s end
  | ThrowStmt _ e | DeferStmt _ e _ | ExprStmt _ e => refExpr e s
  | TryStmt _ b _ cb _ _ => refBlock cb (refBlock b s)
  | BreakStmt _ | ContinueStmt _ => s
  end
with refBlock (b : Block) (s : methodRefs) : methodRefs :=
  match b with mkBlock _ ss _ => foldl (fun s st => refStmt st s) s ss end
with refArm (a : MatchArm) (s : methodRefs) : methodRefs :=
  match a with
  | mkArm _ values b variant _ _ =>
      refBlock b (if bool_decide (variant = "") then foldl (fun s e => refExpr e s) s values else s)
  end.
End Walk.

Definition scanGlobalRefs (ss : list Stmt) (params : list Param) : methodRefs :=
  let locals := collectMethodLocals ss (foldl (fun l p => {[param_Name p]} ∪ l) ∅ params) in
  foldl (fun s st => refStmt locals st s) (mkRefs ∅ false []) ss.

(** ** The fixpoint *)

Definition summarise (ms : list MethodDef) : summary :=
  foldl (fun summ m => <[method_Name m := scanGlobalRefs (block_Stmts (method_Body m)) (method_Params m)]> summ) ∅ ms.

(** One callee of one method: [st] is the method's current summary. *)
Definition mergeCallee (summ : summary) (name : string) (acc : methodRefs * bool) (c : string) : methodRefs * bool :=
  let '(st, changed) := acc in
  match (if bool_decide (c = name) then Some st else summ !! c) with
  | None => acc
  | Some cs =>
      if mr_all cs && negb (mr_all st) then (mkRefs (mr_refs st) true (mr_callees st), true)
      else if bool_decide (mr_refs cs ⊆ mr_refs st) then acc
      else (mkRefs (mr_refs cs ∪ mr_refs st) (mr_all st) (mr_callees st), true)
  end.

(** One method of a pass. *)
Definition mergeMethod (acc : summary * bool) (name : string) : summary * bool :=
  let '(summ, changed) := acc in
  match summ !! name with
  | None => acc
  | Some st =>
      if mr_all st then acc
      else
        let '(st, ch) := foldl (mergeCallee summ name) (st, false) (mr_callees st) in
        (<[name := st]> summ, changed || ch)
  end.

(** [for changed := true; changed;]: one pass after the other; [None] when the fuel is used up. *)
Fixpoint captureLoop (fuel : nat) (order : list string) (summ : summary) : option summary :=
  match fuel with
  | O => None
  | S fuel =>
      let '(summ, changed) := foldl mergeMethod (summ, false) order in
      if changed then captureLoop fuel order summ else Some summ
  end.

(** Every name a summary mentions. *)
Definition universe (summ : summary) : gset string := ⋃ (map (fun x => mr_refs (snd x)) (map_to_list summ)).

Definition captureFuel (summ : summary) : nat := S (size summ * S (size (universe summ))).

(** ** The stamps *)

(** [stampSpawn]: what one body needs. *)
Definition stampSpawn (summ : summary) (body : list Stmt) : SpawnCaptures :=
  let sc := scanGlobalRefs body [] in
  let '(all, globals) :=
    foldl (fun '(all, globals) c =>
        match summ !! c with
        | None => (true, globals)
        | Some cs => (all || mr_all cs, mr_refs cs ∪ globals)
        end) (mr_all sc, mr_refs sc) (mr_callees sc) in
  if all then {| AllGlobals := true; Globals := [] |} else {| AllGlobals := false; Globals := elements globals |}.

Section Stamp.
Variable summ : summary.

(** The spawns the scan has found; it does not look into opaque and dynamic calls. *)
Fixpoint spawnsExpr (e : Expr) : Expr :=
  match e with
  | BinaryExpr p op a b f => BinaryExpr p op (spawnsExpr a) (spawnsExpr b) f
  | IndexExpr p a b => IndexExpr p (spawnsExpr a) (spawnsExpr b)
  | RangeExpr p a b => RangeExpr p (spawnsExpr a) (spawnsExpr b)
  | UnaryExpr p op a f => UnaryExpr p op (spawnsExpr a) f
  | LenExpr p a => LenExpr p (spawnsExpr a)
  | FieldAccessExpr p a f => FieldAccessExpr p (spawnsExpr a) f
  | SliceExpr p t lo hi => SliceExpr p (spawnsExpr t) (option_map spawnsExpr lo) (option_map spawnsExpr hi)
  | ListLit p es => ListLit p (map spawnsExpr es)
  | MapLit p kvs => MapLit p (map (fun '(k, v) => (spawnsExpr k, spawnsExpr v)) kvs)
  | StructLit p ns en nm ba fs => StructLit p ns en nm ba (map (fun '(n, e, q) => (n, spawnsExpr e, q)) fs)
  | InterpStringExpr p parts => InterpStringExpr p (map (fun '(t, o) => (t, option_map spawnsExpr o)) parts)
  | CallExpr p callee args m mv sn => CallExpr p callee (map spawnsExpr args) m mv sn
  | QualifiedCallExpr p prefix callee args mv sn =>
      if opaqueCall prefix callee then e else QualifiedCallExpr p prefix callee (map spawnsExpr args) mv sn
  | SpawnExpr p body _ => SpawnExpr p (map spawnsStmt body) (Some (stampSpawn summ body))
  | e => e
  end
with spawnsStmt (st : Stmt) : Stmt :=
  match st with
  | DefineStmt p c x n t init sl bo => DefineStmt p c x n t (option_map spawnsExpr init) sl bo
  | AssignStmt p n v d sl => AssignStmt p n (spawnsExpr v) d sl
  | IndexAssignStmt p t v => IndexAssignStmt p (spawnsExpr t) (spawnsExpr v)
  | AppendStmt p t v => AppendStmt p (spawnsExpr t) (spawnsExpr v)
  | FieldAssignStmt p t v => FieldAssignStmt p (spawnsExpr t) (spawnsExpr v)
  | IfStmt p c thn elifs els =>
      IfStmt p (spawnsExpr c) (spawnsBlock thn) (map (fun '(c, b) => (spawnsExpr c, spawnsBlock b)) elifs) (option_map spawnsBlock els)
  | MatchStmt p subject arms els et => MatchStmt p (spawnsExpr subject) (map spawnsArm arms) (option_map spawnsBlock els) et
  | WhileStmt p c b => WhileStmt p (spawnsExpr c) (spawnsBlock b)
  | ForStmt p init c step b h =>
      ForStmt p (option_map spawnsStmt init) (option_map spawnsExpr c) (option_map spawnsStmt step) (spawnsBlock b) h
  | ForEachStmt p x c b sl => ForEachStmt p x (spawnsExpr c) (spawnsBlock b) sl
  | RepeatStmt p b c => RepeatStmt p (spawnsBlock b) (spawnsExpr c)
  | ReturnStmt p o => ReturnStmt p (option_map spawnsExpr o)
  | ExitStmt p o => ExitStmt p (option_map spawnsExpr o)
  | ThrowStmt p e => ThrowStmt p (spawnsExpr e)
  | DeferStmt p e o => DeferStmt p (spawnsExpr e) o
  | ExprStmt p e => ExprStmt p (spawnsExpr e)
  | TryStmt p b x cb cp sl => TryStmt p (spawnsBlock b) x (spawnsBlock cb) cp sl
  | st => st
  end
with spawnsBlock (b : Block) : Block :=
  match b with mkBlock p ss n => mkBlock p (map spawnsStmt ss) n end
with spawnsArm (a : MatchArm) : MatchArm :=
  match a with
  | mkArm p values b variant bind sl =>
      mkArm p (if bool_decide (variant = "") then map spawnsExpr values else values) (spawnsBlock b) variant bind sl
  end.
End Stamp.

Definition withCaptures (summ : summary) (m : MethodDef) : MethodDef :=
  {| method_pos := method_pos m; method_Name := method_Name m; method_Params := method_Params m;
     method_Body := spawnsBlock summ (method_Body m); method_Exported := method_Exported m;
     method_GlobalSafe := method_GlobalSafe m; method_ReentryFree := method_ReentryFree m;
     method_ReturnsOwned := method_ReturnsOwned m |}.

Definition computeSpawnCaptures (ms : list MethodDef) (top : list Stmt) : option (list MethodDef * list Stmt) :=
  let summ := summarise ms in
  match captureLoop (captureFuel summ) (map method_Name ms) summ with
  | Some summ => Some (map (withCaptures summ) ms, map (spawnsStmt summ) top)
  | None => None
  end.
End Capture.
