(* ===== verification/SpawnCaptureFacts.v ===== *)
(** * The capture analysis computes what can be reached

    The fixpoint of [computeSpawnCaptures] ends, and a spawn is stamped with exactly the names its
    body and the methods it can reach reference, or with everything when one of them cannot be
    bounded.  The last part is a program whose spawn misses a global. *)

From S2P Require Import Prelude Utf8 Limits Types Value MapFacts Ast Ops Ownership Environment.
From S2P Require Import Display Defs Store StoreFacts Interp Eval FastFacts GlobalSafe SpawnCapture.
Open Scope list_scope.

(** ** Growing summaries *)

Definition refsLe (a b : methodRefs) : Prop :=
  mr_callees b = mr_callees a /\ mr_refs a ⊆ mr_refs b /\ (mr_all a = true -> mr_all b = true).

#[export] Instance refsLe_preorder : PreOrder refsLe.
Proof.
  split; [done | ]. intros a b c (C1 & R1 & A1) (C2 & R2 & A2). split; [congruence | ]. split; [by etrans | tauto].
Qed.

Definition weight (st : methodRefs) : nat := ((if mr_all st then 1 else 0) + size (mr_refs st))%nat.

Lemma weight_le a b : refsLe a b -> (weight a <= weight b)%nat.
Proof.
  intros (_ & R & A). unfold weight. apply subseteq_size in R. destruct (mr_all a); [rewrite A by done; lia | ].
  destruct (mr_all b); lia.
Qed.

Section Merge.
Variables (summ : summary) (name : string).

(** Nothing left to take from callee [c]. *)
Definition closedFor (st : methodRefs) (c : string) : Prop :=
  forall cs, (if bool_decide (c = name) then Some st else summ !! c) = Some cs ->
    (mr_all cs = true -> mr_all st = true) /\ mr_refs cs ⊆ mr_refs st.

Lemma mergeCallee_spec st ch c st' ch' :
  mergeCallee summ name (st, ch) c = (st', ch') ->
  refsLe st st' /\ (ch' = false -> ch = false /\ st' = st /\ closedFor st c) /\
  (ch' = true -> ch = true \/ (weight st < weight st')%nat).
Proof.
  unfold mergeCallee, closedFor. destruct (if bool_decide _ then _ else _) as [cs | ]; last first.
  { intros [= <- <-]. split; [done | ]. split; [done | auto]. }
  destruct (mr_all cs && negb (mr_all st)) eqn:Ea.
  - intros [= <- <-]. apply andb_true_iff in Ea as [E1 E2]. apply negb_true_iff in E2.
    split; [split; [done | ]; split; [done | by simpl] | ]. split; [done | ].
    intros _. right. unfold weight. simpl. rewrite E2. lia.
  - apply andb_false_iff in Ea. case_bool_decide as Hs; intros [= <- <-].
    + split; [done | ]. split; [ | auto]. intros ->. split; [done | ]. split; [done | ]. intros ? [= <-].
      split; [ | done]. destruct Ea as [-> | E]; [done | by apply negb_false_iff in E].
    + split; [split; [done | ]; split; [apply union_subseteq_r | done] | ]. split; [done | ]. intros _. right. unfold weight. simpl.
      assert (mr_refs st ⊂ mr_refs cs ∪ mr_refs st) as Hlt.
      { split; [apply union_subseteq_r | ]. intros H. apply Hs. etrans; [ | exact H]. apply union_subseteq_l. }
      apply subset_size in Hlt. lia.
Qed.

Lemma mergeCallees_spec cs : forall st ch st' ch',
  foldl (mergeCallee summ name) (st, ch) cs = (st', ch') ->
  refsLe st st' /\ (ch' = false -> ch = false /\ st' = st /\ forall c, c ∈ cs -> closedFor st c) /\
  (ch' = true -> ch = true \/ (weight st < weight st')%nat).
Proof.
  induction cs as [ | c cs IH]; intros st ch st' ch'; cbn [foldl].
  - intros [= <- <-]. split; [done | ]. split; [ | auto]. intros ->. split; [done | ]. split; [done | ]. by intros c ?%elem_of_nil.
  - destruct (mergeCallee summ name (st, ch) c) as [st1 ch1] eqn:E. intros H.
    apply mergeCallee_spec in E as (L1 & F1 & T1). apply IH in H as (L2 & F2 & T2).
    split; [by etrans | ]. split.
    + intros Hf. destruct (F2 Hf) as (-> & -> & Hc). destruct (F1 eq_refl) as (-> & -> & Hc').
      split; [done | ]. split; [done | ]. intros d [-> | Hd]%elem_of_cons; auto.
    + intros Ht. apply weight_le in L2 as ?. apply weight_le in L1 as ?.
      destruct (T2 Ht) as [-> | ]; [ | right; lia]. destruct (T1 eq_refl); [auto | right; lia].
Qed.

(** What the merged names and the flag stem from. *)
Lemma mergeCallees_origin (P : string -> Prop) (Q : Prop) cs : forall st ch st' ch',
  foldl (mergeCallee summ name) (st, ch) cs = (st', ch') ->
  (forall c x, c ∈ cs -> summ !! c = Some x -> (forall n, n ∈ mr_refs x -> P n) /\ (mr_all x = true -> Q)) ->
  (forall n, n ∈ mr_refs st -> P n) /\ (mr_all st = true -> Q) ->
  (forall n, n ∈ mr_refs st' -> P n) /\ (mr_all st' = true -> Q).
Proof.
  induction cs as [ | c cs IH]; intros st ch st' ch'; cbn [foldl]; [by intros [= <- <-] | ].
  destruct (mergeCallee summ name (st, ch) c) as [st1 ch1] eqn:E. intros H Hx Hst.
  eapply IH; [exact H | intros d x Hd; apply Hx; by right | ]. clear H IH.
  unfold mergeCallee in E. destruct (if bool_decide _ then _ else _) as [cs' | ] eqn:Ec; [ | by injection E as <- <-].
  assert ((forall n, n ∈ mr_refs cs' -> P n) /\ (mr_all cs' = true -> Q)) as [HP HQ].
  { destruct (bool_decide (c = name)); [by injection Ec as <- | ]. apply (Hx c); [by left | done]. }
  destruct (mr_all cs' && negb (mr_all st)) eqn:Ea.
  - injection E as <- <-. simpl. apply andb_true_iff in Ea as [Ea _]. split; [apply Hst | auto].
  - case_bool_decide; injection E as <- <-; [done | ]. simpl. split; [ | apply Hst].
    intros n [Hn | Hn]%elem_of_union; [by apply HP | by apply Hst].
Qed.
End Merge.

(** ** Passes *)

Section Fixpoint_.
Variable s0 : summary.

Definition callsIn (m c : string) : Prop :=
  exists st, s0 !! m = Some st /\ c ∈ mr_callees st /\ is_Some (s0 !! c).

(** What can be reached from [m]: a name, or an unbounded method. *)
Definition reachesName (m n : string) : Prop :=
  exists h st, rtc callsIn m h /\ s0 !! h = Some st /\ n ∈ mr_refs st.
Definition reachesAll (m : string) : Prop :=
  exists h st, rtc callsIn m h /\ s0 !! h = Some st /\ mr_all st = true.

Definition goodEntry (m : string) (a b : methodRefs) : Prop :=
  refsLe a b /\ (forall n, n ∈ mr_refs b -> reachesName m n) /\ (mr_all b = true -> reachesAll m).

Definition goodSummary (summ : summary) : Prop :=
  forall m, option_Forall2 (goodEntry m) (s0 !! m) (summ !! m).

Lemma goodSummary_refl : goodSummary s0.
Proof.
  intros m. destruct (s0 !! m) as [st | ] eqn:E; constructor. split; [done | ]. split.
  - intros n Hn. by exists m, st.
  - intros Ha. by exists m, st.
Qed.

Lemma goodSummary_lookup summ m b :
  goodSummary summ -> summ !! m = Some b -> exists a, s0 !! m = Some a /\ goodEntry m a b.
Proof. intros H E. specialize (H m). rewrite E in H. inversion H; subst. eauto. Qed.

Lemma reachesName_step m c n : callsIn m c -> reachesName c n -> reachesName m n.
Proof. intros H (h & st & Hr & Hs). exists h, st. split; [by eapply rtc_l | done]. Qed.

Lemma reachesAll_step m c : callsIn m c -> reachesAll c -> reachesAll m.
Proof. intros H (h & st & Hr & Hs). exists h, st. split; [by eapply rtc_l | done]. Qed.

(** [b] grew in the pass. *)
Definition grows (summ summ' : summary) : Prop :=
  forall m st, summ !! m = Some st -> exists st', summ' !! m = Some st' /\ refsLe st st'.

Definition strictly (summ summ' : summary) : Prop :=
  exists m st st', summ !! m = Some st /\ summ' !! m = Some st' /\ (weight st < weight st')%nat.

#[export] Instance grows_preorder : PreOrder grows.
Proof.
  split; [intros a m st E; by exists st | ]. intros a b c H1 H2 m st E.
  destruct (H1 m st E) as (st1 & E1 & L1). destruct (H2 m st1 E1) as (st2 & E2 & L2). exists st2. split; [done | by etrans].
Qed.

(** Nothing left to take for method [m]. *)
Definition closedAt (summ : summary) (m : string) : Prop :=
  forall st c, summ !! m = Some st -> mr_all st = false -> c ∈ mr_callees st -> closedFor summ m st c.

Lemma mergeMethod_spec summ ch name summ' ch' :
  goodSummary summ -> mergeMethod (summ, ch) name = (summ', ch') ->
  goodSummary summ' /\ grows summ summ' /\
  (ch' = false -> ch = false /\ summ' = summ /\ closedAt summ name) /\
  (ch' = true -> ch = true \/ strictly summ summ').
Proof.
  intros Hg. unfold mergeMethod. destruct (summ !! name) as [st | ] eqn:E; last first.
  { intros [= <- <-]. split; [done | ]. split; [done | ]. split; [ | auto]. intros ->. split; [done | ]. split; [done | ].
    intros st c Hs. by rewrite E in Hs. }
  destruct (mr_all st) eqn:Ea.
  { intros [= <- <-]. split; [done | ]. split; [done | ]. split; [ | auto]. intros ->. split; [done | ]. split; [done | ].
    intros st' c Hs Ha. rewrite E in Hs. injection Hs as <-. congruence. }
  destruct (foldl _ _ _) as [st1 ch1] eqn:Ef. intros [= <- <-].
  destruct (goodSummary_lookup _ _ _ Hg E) as (a & Ha0 & (La & Hn & Hall)).
  pose proof (mergeCallees_spec _ _ _ _ _ _ _ Ef) as (L1 & F1 & T1).
  assert (Hnew : goodEntry name a st1).
  { split; [by etrans | ]. eapply (mergeCallees_origin summ name (reachesName name) (reachesAll name)); [exact Ef | | by split].
    intros c x Hc Hx. destruct (goodSummary_lookup _ _ _ Hg Hx) as (ax & Hax & (_ & Hxn & Hxa)).
    assert (callsIn name c). { exists a. split; [done | ]. destruct La as [<- _]. split; [done | by exists ax]. }
    split; [intros n ?; eapply reachesName_step; eauto | intros ?; eapply reachesAll_step; eauto]. }
  split; [ | split; [ | split]].
  - intros m. destruct (decide (m = name)) as [-> | Hne].
    + rewrite lookup_insert_eq, Ha0. by constructor.
    + rewrite lookup_insert_ne by done. apply Hg.
  - intros m s Hs. destruct (decide (m = name)) as [-> | Hne].
    + rewrite lookup_insert_eq. rewrite E in Hs. injection Hs as <-. by exists st1.
    + rewrite lookup_insert_ne by done. by exists s.
  - intros [-> ->]%orb_false_iff. destruct (F1 eq_refl) as (_ & -> & Hc). split; [done | ].
    split; [by apply insert_id | ]. intros s c Hs _ Hin. rewrite E in Hs. injection Hs as <-. by apply Hc.
  - intros [-> | ->]%orb_true_iff; [auto | ]. destruct (T1 eq_refl) as [ | Hw]; [done | ]. right.
    exists name, st, st1. rewrite lookup_insert_eq. done.
Qed.

Lemma strictly_grows_l a b c : grows a b -> strictly b c -> (forall m, is_Some (b !! m) -> is_Some (a !! m)) -> strictly a c.
Proof.
  intros Hg (m & st & st' & Hb & Hc & Hw) Hd. destruct (Hd m) as [sa Ha]; [by exists st | ].
  destruct (Hg m sa Ha) as (x & Hx & Lx). rewrite Hb in Hx. injection Hx as <-. apply weight_le in Lx.
  exists m, sa, st'. split; [done | ]. split; [done | lia].
Qed.

Lemma strictly_grows_r a b c : strictly a b -> grows b c -> strictly a c.
Proof.
  intros (m & st & st' & Ha & Hb & Hw) Hg. destruct (Hg m st' Hb) as (x & Hx & Lx). apply weight_le in Lx.
  exists m, st, x. split; [done | ]. split; [done | lia].
Qed.

Lemma goodSummary_dom summ m : goodSummary summ -> is_Some (summ !! m) <-> is_Some (s0 !! m).
Proof. intros H. specialize (H m). inversion H as [? ? ? E1 E2 | E1 E2]; rewrite <- ?E1, <- ?E2; split; intros [? ?]; eauto; done. Qed.

Lemma pass_spec_ order : forall summ ch summ' ch',
  goodSummary summ -> foldl mergeMethod (summ, ch) order = (summ', ch') ->
  goodSummary summ' /\ grows summ summ' /\
  (ch' = false -> ch = false /\ summ' = summ /\ forall m, m ∈ order -> closedAt summ m) /\
  (ch' = true -> ch = true \/ strictly summ summ').
Proof.
  induction order as [ | name order IH]; intros summ ch summ' ch' Hg; cbn [foldl].
  - intros [= <- <-]. split; [done | ]. split; [done | ]. split; [ | auto]. intros ->. split; [done | ]. split; [done | ].
    by intros m ?%elem_of_nil.
  - destruct (mergeMethod (summ, ch) name) as [s1 c1] eqn:E. intros H.
    apply mergeMethod_spec in E as (G1 & W1 & F1 & T1); [ | done].
    destruct (IH _ _ _ _ G1 H) as (G2 & W2 & F2 & T2).
    split; [done | ]. split; [by etrans | ]. split.
    + intros Hf. destruct (F2 Hf) as (-> & -> & Hc). destruct (F1 eq_refl) as (-> & -> & Hc').
      split; [done | ]. split; [done | ]. intros m [-> | Hm]%elem_of_cons; auto.
    + intros Ht. destruct (T2 Ht) as [-> | Hs].
      * destruct (T1 eq_refl) as [ | Hs]; [auto | right]. by eapply strictly_grows_r.
      * right. eapply strictly_grows_l; [done | done | ].
        intros m Hm. by apply (goodSummary_dom summ), (goodSummary_dom s1).
Qed.

(** ** The loop ends *)

Definition weightAt (summ : summary) (m : string) : nat := match summ !! m with Some st => weight st | None => 0 end.
Definition total (ks : list string) (summ : summary) : nat := sum_list_with (weightAt summ) ks.

Lemma grows_weightAt summ summ' m : grows summ summ' -> (weightAt summ m <= weightAt summ' m)%nat.
Proof.
  intros H. unfold weightAt. destruct (summ !! m) as [st | ] eqn:E; [ | lia].
  destruct (H m st E) as (st' & -> & L). by apply weight_le.
Qed.

Lemma total_le ks summ summ' : grows summ summ' -> (total ks summ <= total ks summ')%nat.
Proof.
  intros H. unfold total. induction ks as [ | m ks IH]; simpl; [lia | ]. pose proof (grows_weightAt _ _ m H). lia.
Qed.

Lemma total_lt ks summ summ' :
  grows summ summ' -> strictly summ summ' -> (forall m, is_Some (summ !! m) -> m ∈ ks) -> (total ks summ < total ks summ')%nat.
Proof.
  intros Hg (m & st & st' & E & E' & Hw) Hk. assert (Hm : m ∈ ks) by (apply Hk; by exists st).
  clear Hk. unfold total. induction ks as [ | k ks IH]; [by apply elem_of_nil in Hm | ]. simpl.
  pose proof (grows_weightAt _ _ k Hg). pose proof (total_le ks _ _ Hg) as Ht. unfold total in Ht.
  apply elem_of_cons in Hm as [<- | Hm]; [ | specialize (IH Hm); lia].
  unfold weightAt in *. rewrite E, E' in *. lia.
Qed.

Lemma universe_spec m st : s0 !! m = Some st -> mr_refs st ⊆ universe s0.
Proof.
  intros E n Hn. unfold universe. apply elem_of_union_list. exists (mr_refs st). split; [ | done].
  apply list_elem_of_fmap. exists (m, st). split; [done | ]. by apply elem_of_map_to_list.
Qed.

Lemma weightAt_bound summ m : goodSummary summ -> (weightAt summ m <= S (size (universe s0)))%nat.
Proof.
  intros Hg. unfold weightAt. destruct (summ !! m) as [st | ] eqn:E; [ | lia].
  destruct (goodSummary_lookup _ _ _ Hg E) as (a & _ & (_ & Hn & _)).
  assert (mr_refs st ⊆ universe s0) as Hs.
  { intros n (h & sh & _ & Hh & Hin)%Hn. by eapply universe_spec. }
  apply subseteq_size in Hs. unfold weight. destruct (mr_all st); lia.
Qed.

Lemma total_bound ks summ : goodSummary summ -> (total ks summ <= length ks * S (size (universe s0)))%nat.
Proof.
  intros Hg. unfold total. induction ks as [ | m ks IH]; simpl; [lia | ]. pose proof (weightAt_bound _ m Hg). lia.
Qed.

Section Loop.
Variable order : list string.
Hypothesis Horder : forall m, is_Some (s0 !! m) -> m ∈ order.

Lemma captureLoop_spec ks fuel : (forall m, is_Some (s0 !! m) -> m ∈ ks) -> forall summ,
  goodSummary summ -> (length ks * S (size (universe s0)) < fuel + total ks summ)%nat ->
  exists r, captureLoop fuel order summ = Some r /\ goodSummary r /\ forall m, closedAt r m.
Proof.
  intros Hk. induction fuel as [ | fuel IH]; intros summ Hg Hf.
  { pose proof (total_bound ks _ Hg). lia. }
  simpl. destruct (foldl _ _ _) as [summ' ch] eqn:E.
  destruct (pass_spec_ _ _ _ _ _ Hg E) as (Hg' & Hw & HF & HT). destruct ch.
  - apply IH; [done | ]. destruct (HT eq_refl) as [ | Hs]; [done | ].
    enough (total ks summ < total ks summ')%nat by lia. apply total_lt; [done | done | ].
    intros m Hm. by apply Hk, (goodSummary_dom summ).
  - destruct (HF eq_refl) as (_ & -> & Hc). exists summ. split; [done | ]. split; [done | ].
    intros m st c Hs. apply Hc; [ | done]. apply Horder, (goodSummary_dom summ); [done | by exists st].
Qed.

Lemma captureLoop_ends : exists r, captureLoop (captureFuel s0) order s0 = Some r /\ goodSummary r /\ forall m, closedAt r m.
Proof.
  apply captureLoop_spec with (ks := map fst (map_to_list s0)).
  - intros m [st E]. apply list_elem_of_fmap. exists (m, st). split; [done | ]. by apply elem_of_map_to_list.
  - apply goodSummary_refl.
  - unfold captureFuel. rewrite length_map, length_map_to_list. lia.
Qed.
End Loop.

(** ** The result *)

Section Result.
Variable r : summary.
Hypothesis Hgood : goodSummary r.
Hypothesis Hclosed : forall m, closedAt r m.

Lemma closed_callee m c b cs :
  callsIn m c -> r !! m = Some b -> r !! c = Some cs -> mr_all b = false -> mr_all cs = false /\ mr_refs cs ⊆ mr_refs b.
Proof.
  intros (a & Ha & Hc & _) Hb Hcs Hall. destruct (goodSummary_lookup _ _ _ Hgood Hb) as (a' & Ha' & ((C & _) & _)).
  rewrite Ha in Ha'. injection Ha' as <-. rewrite <- C in Hc.
  destruct (Hclosed m b c Hb Hall Hc cs) as [H1 H2].
  { case_bool_decide as E; [subst; congruence | done]. }
  split; [ | done]. destruct (mr_all cs); [ | done]. rewrite H1 in Hall; done.
Qed.

Lemma result_all m b : r !! m = Some b -> mr_all b = true <-> reachesAll m.
Proof.
  intros Hb. split; [destruct (goodSummary_lookup _ _ _ Hgood Hb) as (a & _ & (_ & _ & H)); apply H | ].
  intros (h & st & Hr & Hh & Ha). revert b Hb. induction Hr as [x | x y z Hxy _ IH]; intros b Hb.
  - destruct (goodSummary_lookup _ _ _ Hgood Hb) as (a & E & ((_ & _ & H) & _)). rewrite Hh in E. injection E as <-. auto.
  - pose proof Hxy as (_ & _ & _ & Hy). apply (goodSummary_dom r) in Hy as [cs Hcs]; [ | done].
    destruct (mr_all b) eqn:Eb; [done | ]. destruct (closed_callee _ _ _ _ Hxy Hb Hcs Eb) as [E _].
    rewrite (IH Hh cs Hcs) in E. done.
Qed.

Lemma result_names m b n : r !! m = Some b -> mr_all b = false -> n ∈ mr_refs b <-> reachesName m n.
Proof.
  intros Hb Hall. split; [destruct (goodSummary_lookup _ _ _ Hgood Hb) as (a & _ & (_ & H & _)); apply H | ].
  intros (h & st & Hr & Hh & Hn). revert b Hb Hall. induction Hr as [x | x y z Hxy _ IH]; intros b Hb Hall.
  - destruct (goodSummary_lookup _ _ _ Hgood Hb) as (a & E & ((_ & H & _) & _)). rewrite Hh in E. injection E as <-. auto.
  - pose proof Hxy as (_ & _ & _ & Hy). apply (goodSummary_dom r) in Hy as [cs Hcs]; [ | done].
    destruct (closed_callee _ _ _ _ Hxy Hb Hcs Hall) as [E Hs]. by apply Hs, (IH Hh cs).
Qed.
End Result.
End Fixpoint_.

(** ** The stamps *)

Section Stamps.
Variables (i : Interpreter) (reentryFree : loadedModule -> string -> bool).

Lemma summarise_names ms m : is_Some (summarise i reentryFree ms !! m) -> m ∈ map method_Name ms.
Proof.
  unfold summarise. enough (forall s : summary, is_Some (foldl (fun summ m => <[method_Name m := scanGlobalRefs i reentryFree
    (block_Stmts (method_Body m)) (method_Params m)]> summ) s ms !! m) -> is_Some (s !! m) \/ m ∈ map method_Name ms) as H.
  { intros Hs. destruct (H _ Hs) as [[? E] | ]; [by rewrite lookup_empty in E | done]. }
  induction ms as [ | d ms IH]; intros s; simpl; [auto | ]. intros [H | H]%IH; [ | right; by right].
  destruct (decide (method_Name d = m)) as [<- | Hne]; [right; by left | left]. by rewrite lookup_insert_ne in H.
Qed.

Section Callees.
Variables (s0 r : summary).
Hypothesis Hgood : goodSummary s0 r.
Hypothesis Hclosed : forall m, closedAt r m.

Definition unbounded (c : string) : Prop := s0 !! c = None \/ reachesAll s0 c.

Lemma callee_cases c :
  match r !! c with
  | None => s0 !! c = None
  | Some cs => is_Some (s0 !! c) /\ (mr_all cs = true <-> reachesAll s0 c) /\
               (mr_all cs = false -> forall n, n ∈ mr_refs cs <-> reachesName s0 c n)
  end.
Proof.
  destruct (r !! c) as [cs | ] eqn:E.
  - split; [apply (goodSummary_dom s0 r); [done | by exists cs] | ]. split; [by apply (result_all s0 r) | ].
    intros Ha n. by apply (result_names s0 r).
  - pose proof (Hgood c) as H. rewrite E in H. by inversion H.
Qed.

Lemma stampLoop_spec cs : forall all globals,
  let '(all', globals') := foldl (fun '(all, globals) c =>
        match r !! c with
        | None => (true, globals)
        | Some cs => (all || mr_all cs, mr_refs cs ∪ globals)
        end) (all, globals) cs in
  (all' = true <-> all = true \/ exists c, c ∈ cs /\ unbounded c) /\
  (all' = false -> forall n, n ∈ globals' <-> n ∈ globals \/ exists c, c ∈ cs /\ reachesName s0 c n).
Proof.
  induction cs as [ | c cs IH]; intros all globals; cbn [foldl].
  - split; [split; [auto | intros [ | (c & Hc & _)]; [done | by apply elem_of_nil in Hc]] | ].
    intros _ n. split; [auto | ]. intros [ | (c & Hc & _)]; [done | by apply elem_of_nil in Hc].
  - pose proof (callee_cases c) as Hc. destruct (r !! c) as [d | ].
    + destruct Hc as (Hd & Hall & Hn). specialize (IH (all || mr_all d) (mr_refs d ∪ globals)).
      destruct (foldl _ _ _) as [all' globals']. destruct IH as [IA IN]. split.
      * rewrite IA, orb_true_iff, Hall. unfold unbounded. setoid_rewrite elem_of_cons. split.
        -- intros [[ | ] | (x & Hx & Hu)]; [by left | right; exists c; auto | right; exists x; auto].
        -- intros [ | (x & [-> | Hx] & Hu)]; [by do 2 left | | right; exists x; auto].
           left. right. destruct Hu as [E | ]; [ | done]. destruct Hd as [? Hd]. by rewrite E in Hd.
      * intros Hf n. rewrite IN, elem_of_union by done. assert (mr_all d = false) as Ed.
        { destruct (mr_all d); [ | done]. rewrite (proj2 IA) in Hf; [done | ]. left. by rewrite orb_true_r. }
        rewrite (Hn Ed). setoid_rewrite elem_of_cons. split.
        -- intros [[ | ] | (x & Hx & Hu)]; [right; exists c; auto | by left | right; exists x; auto].
        -- intros [ | (x & [-> | Hx] & Hu)]; [by left; right | by do 2 left | right; exists x; auto].
    + specialize (IH true globals). destruct (foldl _ _ _) as [all' globals']. destruct IH as [IA IN].
      rewrite (proj2 IA) by auto. split; [ | done]. split; [ | done]. intros _. right. exists c.
      split; [by left | by left].
Qed.
End Callees.

End Stamps.

(** * A global the capture analysis misses *)

Open Scope string_scope.
Open Scope list_scope.
Open Scope Z_scope.

Definition here : position := Pos "a.j" 1 1.

(** [if (false) { def x as int init 1; } return $x;] *)
Definition missBody : list Stmt :=
  [IfStmt here (BoolLit here false)
     (mkBlock here [DefineStmt here false false "x" TypeInt (Some (IntLit here 1)) (-1) false] 0) [] None;
   ReturnStmt here (Some (VarExpr here "x" (-1) (-1) false))].

(** The program's last statement: [spawn { ... }] with that body. *)
Definition missTop (caps : option SpawnCaptures) : list Stmt := [ExprStmt here (SpawnExpr here missBody caps)].

(** The global frame of the program, after [def x as int init n;]. *)
Definition missGlobals (n : Z) : Environment := [emptyNamed {["x" := mkBinding (IntVal n) TypeInt false 0 "x"]}].

(** The task's body on the snapshot made with the captures [caps]. *)
Definition missRun (n : Z) (caps : option SpawnCaptures) : outcome unit flow :=
  r_stmts (@run identityNative plainText limits_std unit bareHost (bareInterp ∅) true 20) missBody
    (mkWorld (snapshotForSpawn (missGlobals n) caps) (mkChain 0 0) {| taskStates := ∅; chanStates := ∅ |} tt).

(** C26: the capture analysis is not an over-approximation.  For the program
    [def x as int init n; spawn { if (false) { def x as int init 1; } return $x; }] it stamps the
    spawn with no global at all; on the snapshot made with this stamp the body fails with an undefined
    variable, while on the snapshot of all globals, as a spawn without the stamp makes it, the
    body returns n. *)
Theorem spawn_capture_misses_global (n : Z) :
  let caps := {| AllGlobals := false; Globals := [] |} in
  computeSpawnCaptures (bareInterp ∅) (fun _ _ => false) [] (missTop None) = Some ([], missTop (Some caps)) /\
  (exists w, missRun n None = Done (FReturn (IntVal n)) w) /\
  (exists w, missRun n (Some caps) =
     Raise (ERuntime (mkRuntimeError (Sprintf "undefined variable %q" [AStr "x"]) here "")) w).
Proof. split; [vm_compute; reflexivity | ]. split; vm_compute; eexists; reflexivity. Qed.
