(* ===== verification/StructLits.v ===== *)
(** * Struct and enum literals checked at load (interpreter/structlit_check.go)

    Before any statement runs, the fields of every struct and enum literal are compared with
    their declaration; an unknown or missing field is reported at load. *)

From S2P Require Import Prelude GoInt Float64 Utf8 Limits Types Value Ast Ops Display Defs.
From S2P Require Import Store Environment Interp Eval MapFacts StoreFacts FastFacts.
Open Scope string_scope.
Open Scope list_scope.
Open Scope Z_scope.

Abbreviation LitField := (string * Expr * position)%type.

(** ** The literals of a program *)

(** [walkExprForQualifiedRefs], as far as it collects literals: an outer literal before those in its fields. *)
Fixpoint litsExpr (e : Expr) : list Expr :=
  match e with
  | StructLit _ _ _ _ _ fs => e :: flat_map (fun '(_, e, _) => litsExpr e) fs
  | QualifiedCallExpr _ _ _ args _ _ | CallExpr _ _ args _ _ _ => flat_map litsExpr args
  | BinaryExpr _ _ a b _ | IndexExpr _ a b | RangeExpr _ a b => litsExpr a ++ litsExpr b
  | UnaryExpr _ _ a _ | LenExpr _ a | FieldAccessExpr _ a _ => litsExpr a
  | ListLit _ es => flat_map litsExpr es
  | MapLit _ kvs => flat_map (fun '(k, v) => litsExpr k ++ litsExpr v) kvs
  | SpawnExpr _ body _ => flat_map litsStmt body
  | CallValueExpr _ callee args _ => litsExpr callee ++ flat_map litsExpr args
  | SliceExpr _ t lo hi =>
      litsExpr t ++ match lo with Some e => litsExpr e | None => [] end ++ match hi with Some e => litsExpr e | None => [] end
  | InterpStringExpr _ parts => flat_map (fun '(_, o) => match o with Some e => litsExpr e | None => [] end) parts
  | IntLit _ _ | FloatLit _ _ | StringLit _ _ | BoolLit _ _ | NullLit _ | VarExpr _ _ _ _ _ | ConstRefExpr _ _ _ _
  | QualifiedConstRefExpr _ _ _ | PreEval _ _ => []
  end
with litsStmt (s : Stmt) : list Expr :=
  match s with
  | DefineStmt _ _ _ _ _ o _ _ | ReturnStmt _ o | ExitStmt _ o => match o with Some e => litsExpr e | None => [] end
  | AssignStmt _ _ v _ _ => litsExpr v
  | IndexAssignStmt _ t v | AppendStmt _ t v | FieldAssignStmt _ t v => litsExpr t ++ litsExpr v
  | IfStmt _ c thn elifs els =>
      litsExpr c ++ litsBlock thn ++ flat_map (fun '(c, b) => litsExpr c ++ litsBlock b) elifs ++
      match els with Some b => litsBlock b | None => [] end
  | WhileStmt _ c b | ForEachStmt _ _ c b _ => litsExpr c ++ litsBlock b
  | ForStmt _ init c step b _ =>
      match init with Some s => litsStmt s | None => [] end ++ match c with Some e => litsExpr e | None => [] end ++
      match step with Some s => litsStmt s | None => [] end ++ litsBlock b
  | RepeatStmt _ b c => litsBlock b ++ litsExpr c
  | ThrowStmt _ e | DeferStmt _ e _ | ExprStmt _ e => litsExpr e
  | TryStmt _ b _ cb _ _ => litsBlock b ++ litsBlock cb
  | MatchStmt _ subject arms els _ =>
      litsExpr subject ++ flat_map litsArm arms ++ match els with Some b => litsBlock b | None => [] end
  | BreakStmt _ | ContinueStmt _ => []
  end
with litsBlock (b : Block) : list Expr := match b with mkBlock _ ss _ => flat_map litsStmt ss end
with litsArm (a : MatchArm) : list Expr := match a with mkArm _ values b _ _ _ => flat_map litsExpr values ++ litsBlock b end.

(** [resolveQualifiedRefs]: top-level statements, then methods. *)
Definition structLits (prog : Program) : list Expr :=
  flat_map litsStmt (prog_TopLevel prog) ++ flat_map (fun m => litsBlock (method_Body m)) (prog_Methods prog).

(** ** The check *)

Section Check.
Variable i : Interpreter.

(** The first declared field the literal leaves out and may not. *)
Fixpoint missingField (p : position) (fs : list LitField) (missing : string -> option message) (declared : list StructFieldDecl) : res unit :=
  match declared with
  | [] => Ok tt
  | d :: declared =>
      if bool_decide (field_Name d ∈ map litName fs) then missingField p fs missing declared
      else match missing (field_Name d) with
           | None => missingField p fs missing declared
           | Some m => Err (ERuntime (mkRuntimeError m p ""))
           end
  end.

(** [litFieldsError]: unknown fields first, at the field; then missing ones, at the literal. *)
Definition litFieldsError (p : position) (fs : list LitField) (declared : list StructFieldDecl)
    (unknown : string -> message) (missing : string -> option message) : res unit :=
  match undeclared fs declared with
  | Some f => Err (ERuntime (mkRuntimeError (unknown (litName f)) (snd f) ""))
  | None => missingField p fs missing declared
  end.

Definition checkEnumLit (p : position) (ns enum name : string) (bare : bool) (fs : list LitField) : res unit :=
  let def :=
    if bool_decide (enum <> "") then
      match moduleAliases (i_tables i) !! ns with
      | Some m => if bool_decide (enum ∈ mod_exports m) then mod_enums m !! enum else None
      | None => None
      end
    else enums (i_tables i) !! ns in
  match def with
  | None => Ok tt
  | Some def =>
      match findVariant def name with
      | None => rtErr p "enum %s has no variant %q" [AStr (enum_Name def); AStr name]
      | Some v =>
          match bare, variant_Fields v with
          | true, _ :: _ => rtErr p "variant %s.%s carries a payload; construct it as %s.%s{ ... }"
                         [AStr (enum_Name def); AStr name; AStr (enum_Name def); AStr name]
          | true, [] => Ok tt
          | false, [] => rtErr p "variant %s.%s has no payload; write it as %s.%s, without braces"
                       [AStr (enum_Name def); AStr name; AStr (enum_Name def); AStr name]
          | false, declared =>
              litFieldsError p fs declared
                (fun n => Sprintf "unknown field %q in variant %s.%s" [AStr n; AStr (enum_Name def); AStr name])
                (fun n => Some (Sprintf "missing field %q in variant %s.%s literal" [AStr n; AStr (enum_Name def); AStr name]))
          end
      end
  end.

Definition checkStructLit (p : position) (ns enum name : string) (bare : bool) (fs : list LitField) : res unit :=
  if bool_decide (enum <> "") ||
     (bool_decide (ns <> "") && bool_decide (is_Some (enums (i_tables i) !! ns)) && negb (isNamespaceOrAlias i ns))
  then checkEnumLit p ns enum name bare fs
  else
    let def :=
      match moduleAliases (i_tables i) !! ns with
      | Some m =>
          match mod_structs m !! name with
          | Some d => if bool_decide (name ∈ mod_exports m) then Some (d, mod_bundled m) else None
          | None => None
          end
      | None =>
          if bool_decide (ns <> "") then
            match resolveNamespacePrefix i ns with
            | Ok canonical => match NSStructs (i_tables i) !! (canonical, name) with Some d => Some (d, true) | None => None end
            | Err _ => None
            end
          else match structs (i_tables i) !! name with Some d => Some (d, false) | None => None end
      end in
    match def with
    | None => Ok tt
    | Some (d, library) =>
        litFieldsError p fs (struct_Fields d)
          (fun n => Sprintf "unknown field %q in struct %q" [AStr n; AStr name])
          (fun n => if library then None
                    else match errorLocationZero ns name n with
                         | Some _ => None
                         | None => Some (Sprintf "missing field %q in struct %q literal" [AStr n; AStr name])
                         end)
    end.

(** [checkStructLits]: the first literal that fails. *)
Fixpoint checkStructLits (lits : list Expr) : res unit :=
  match lits with
  | [] => Ok tt
  | StructLit p ns enum name bare fs :: lits =>
      match checkStructLit p ns enum name bare fs with
      | Ok _ => checkStructLits lits
      | Err e => Err e
      end
  | _ :: lits => checkStructLits lits
  end.
End Check.

Lemma checkStructLits_all i lits :
  checkStructLits i lits = Ok tt ->
  forall p ns enum name bare fs, StructLit p ns enum name bare fs ∈ lits -> checkStructLit i p ns enum name bare fs = Ok tt.
Proof.
  induction lits as [ | l lits IH]; [by intros _ ? ? ? ? ? ? ?%elem_of_nil | ]. simpl.
  destruct l; try (intros Hc p' ns' en' nm' ba' fs' [E | Hin]%elem_of_cons; [discriminate E | by apply IH]).
  destruct (checkStructLit _ _ _ _ _ _ _) as [[] | ] eqn:E; [ | done].
  intros Hc p' ns' en' nm' ba' fs' [El | Hin]%elem_of_cons; [ | by apply IH]. by injection El as -> -> -> -> -> ->.
Qed.

(** ** The check and the evaluator agree *)

Section Agree.
Context `{NativeObject, GoText, Limits}.
Context {X : Type}.
Variables (host : Host X) (i : Interpreter) (rec : Rec X).

(** Loaded modules have a path, registered namespaces a name. *)
Record tablesOK : Prop := {
  paths_nonempty : forall ns m, moduleAliases (i_tables i) !! ns = Some m -> mod_path m <> "";
  namespaces_nonempty : forall p c, resolveNamespacePrefix i p = Ok c -> c <> ""
}.

(** A loop over the fields stops at the first one that fails, with what the fields before it did. *)
Lemma mapM_stops {A B} (f : nat -> A -> M X B) (g : list B -> M X Value) x e before after :
  (forall j w, f j x w = Raise e w) -> forall k w,
  bind (mapM f k (before ++ x :: after)) g w = bind (mapM f k before) (fun _ => raise e) w.
Proof.
  intros Hx k w.
  assert (Hm : mapM f k (before ++ x :: after) w =
    match mapM f k before w with Done _ w' => Raise e w' | Raise e' w' => Raise e' w' | NoFuel => NoFuel end).
  { revert k w. induction before as [ | y before IH]; intros k w; cbn [app mapM]; unfold bind.
    - by rewrite Hx.
    - destruct (f k y w) as [b w1 | | ]; [ | done | done]. rewrite IH. by destruct (mapM f (S k) before w1). }
  unfold bind. rewrite Hm. by destruct (mapM f k before w).
Qed.

Lemma provided_None fs n : provided fs n = None <-> n ∉ map litName fs.
Proof.
  unfold provided. rewrite last_None. split.
  - intros E Hn. apply list_elem_of_fmap in Hn as (f & -> & Hf).
    assert (f ∈ filter (fun g : LitField => litName g = litName f) fs) as Hx by (by apply list_elem_of_filter).
    rewrite E in Hx. by apply elem_of_nil in Hx.
  - intros Hn. destruct (filter _ fs) as [ | f l] eqn:E; [done | ]. exfalso. apply Hn.
    assert (f ∈ filter (fun g : LitField => litName g = n) fs) as Hx by (rewrite E; by left).
    apply list_elem_of_filter in Hx as [<- Hx]. apply list_elem_of_fmap. by exists f.
Qed.

Lemma missingField_spec p fs missing declared :
  match missingField p fs missing declared with
  | Ok _ => forall d, d ∈ declared -> provided fs (field_Name d) = None -> missing (field_Name d) = None
  | Err e => exists before d after m, declared = before ++ d :: after /\
      (forall d', d' ∈ before -> provided fs (field_Name d') = None -> missing (field_Name d') = None) /\
      provided fs (field_Name d) = None /\ missing (field_Name d) = Some m /\ e = ERuntime (mkRuntimeError m p "")
  end.
Proof.
  induction declared as [ | d declared IH]; simpl; [by intros d ?%elem_of_nil | ].
  assert (Hstep : (provided fs (field_Name d) = None -> missing (field_Name d) = None) ->
    match missingField p fs missing declared with
    | Ok _ => forall d', d' ∈ d :: declared -> provided fs (field_Name d') = None -> missing (field_Name d') = None
    | Err e => exists before d' after m, d :: declared = before ++ d' :: after /\
        (forall d'', d'' ∈ before -> provided fs (field_Name d'') = None -> missing (field_Name d'') = None) /\
        provided fs (field_Name d') = None /\ missing (field_Name d') = Some m /\ e = ERuntime (mkRuntimeError m p "")
    end).
  { intros Hd. destruct (missingField p fs missing declared) as [u | e].
    - intros d' [-> | H']%elem_of_cons; [done | by apply IH].
    - destruct IH as (before & d' & after & m & -> & Hb & H'). exists (d :: before), d', after, m.
      split; [done | ]. split; [ | done]. intros d'' [-> | H'']%elem_of_cons; [done | by apply Hb]. }
  case_bool_decide as Hd; [apply Hstep; by intros ?%provided_None | ].
  destruct (missing (field_Name d)) as [m | ] eqn:Em; [ | by apply Hstep].
  exists [], d, declared, m. split; [done | ]. split; [by intros d' ?%elem_of_nil | ]. by rewrite provided_None.
Qed.

Lemma undeclared_spec fs declared :
  match undeclared fs declared with
  | Some f => f ∈ fs /\ litName f ∉ map field_Name declared
  | None => forall f, f ∈ fs -> litName f ∈ map field_Name declared
  end.
Proof.
  unfold undeclared. destruct (filter _ fs) as [ | f l] eqn:E; simpl.
  - intros f Hf. destruct (decide (litName f ∈ map field_Name declared)) as [ | Hn]; [done | ].
    assert (f ∈ filter (fun g : LitField => litName g ∉ map field_Name declared) fs) as Hx by (by apply list_elem_of_filter).
    rewrite E in Hx. by apply elem_of_nil in Hx.
  - assert (f ∈ filter (fun g : LitField => litName g ∉ map field_Name declared) fs) as Hx by (rewrite E; by left).
    by apply list_elem_of_filter in Hx as [? ?].
Qed.

(** The evaluation of [fs] for the declared fields [before], the first ones of the literal. *)
Definition evalBefore (p : position) (ns enum name : string) (fs : list LitField) (before : list StructFieldDecl)
    : M X (list (string * Value)) :=
  if bool_decide (enum <> "") ||
     (bool_decide (ns <> "") && bool_decide (is_Some (enums (i_tables i) !! ns)) && negb (isNamespaceOrAlias i ns))
  then bind (lift (resolveEnum i p ns enum name))
         (fun '(def, _, _, retag) => evalEnumFields rec p (enum_Name def) name fs retag before)
  else bind (lift (resolveStruct i p ns name))
         (fun '(d, rns, rmp, bundled, retag) =>
            evalStructFields host rec p ns name fs before rns rmp bundled retag).

(** The error of a field left out of a literal at [p]. *)
Definition missingError (p : position) (field : string) (e : evalError) : Prop :=
  (exists name, e = ERuntime (mkRuntimeError (Sprintf "missing field %q in struct %q literal" [AStr field; AStr name]) p "")) \/
  (exists enum name, e = ERuntime (mkRuntimeError (Sprintf "missing field %q in variant %s.%s literal" [AStr field; AStr enum; AStr name]) p "")).

(** The literal fails with [e] at once; or [e] is the error of a field left out, and it is raised, at [p],
    after the fields declared before that one, each given or filled in by the evaluator, have been evaluated: one of them
    may fail first, and then its error is the literal's. *)
Definition fails (p : position) (ns enum name : string) (bare : bool) (fs : list LitField) (e : evalError) : Prop :=
  (forall w, evalStructLit host i rec p ns enum name bare fs w = Raise e w) \/
  exists before field, field ∉ map litName fs /\ missingError p field e /\
    forall w, evalStructLit host i rec p ns enum name bare fs w = bind (evalBefore p ns enum name fs before) (fun _ => raise e) w.

(** A literal whose fields the check rejects. *)
Lemma fields_fail {A} p fs decls unknown missing e (unk : LitField -> M X Value)
    (f : nat -> StructFieldDecl -> M X A) (k : list A -> M X Value) :
  litFieldsError p fs decls unknown missing = Err e ->
  (forall x w, unk x w = Raise (ERuntime (mkRuntimeError (unknown (litName x)) (snd x) "")) w) ->
  (forall d m j w, provided fs (field_Name d) = None -> missing (field_Name d) = Some m ->
     f j d w = Raise (ERuntime (mkRuntimeError m p "")) w) ->
  let c := match undeclared fs decls with Some x => unk x | None => bind (mapM f 0 decls) k end in
  (forall w, c w = Raise e w) \/
  exists before d m, provided fs (field_Name d) = None /\ missing (field_Name d) = Some m /\
    e = ERuntime (mkRuntimeError m p "") /\ forall w, c w = bind (mapM f 0 before) (fun _ => raise e) w.
Proof.
  unfold litFieldsError. intros Hc Hu Hf. destruct (undeclared fs decls) as [x | ].
  { injection Hc as <-. left. apply Hu. }
  pose proof (missingField_spec p fs missing decls) as Hs. rewrite Hc in Hs.
  destruct Hs as (before & d & after & m & -> & _ & Hp & Hdm & ->). right. exists before, d, m. split_and!; try done.
  intros w. apply mapM_stops. intros j w'. by apply Hf.
Qed.

(** The struct definition a literal names at load, and whether its fields may be left out, is the one
    the evaluator finds. *)
Lemma structDef_agrees p ns name d library :
  tablesOK ->
  match moduleAliases (i_tables i) !! ns with
  | Some m =>
      match mod_structs m !! name with
      | Some d => if bool_decide (name ∈ mod_exports m) then Some (d, mod_bundled m) else None
      | None => None
      end
  | None =>
      if bool_decide (ns <> "") then
        match resolveNamespacePrefix i ns with
        | Ok canonical => match NSStructs (i_tables i) !! (canonical, name) with Some d => Some (d, true) | None => None end
        | Err _ => None
        end
      else match structs (i_tables i) !! name with Some d => Some (d, false) | None => None end
  end = Some (d, library) ->
  exists a b bu g, resolveStruct i p ns name = Ok (d, a, b, bu, g) /\
    library = bool_decide (a <> "") && bool_decide (b = "") || bu.
Proof.
  intros [Hp Hn]. unfold resolveStruct. destruct (moduleAliases (i_tables i) !! ns) as [m | ] eqn:Em.
  - destruct (mod_structs m !! name); [ | done]. destruct (bool_decide (name ∈ mod_exports m)); [ | done].
    intros [= <- <-]. eexists _, _, _, _. split; [done | ].
    by rewrite (bool_decide_eq_false_2 (mod_path m = "")), andb_false_r by eauto.
  - destruct (bool_decide (ns <> "")).
    + destruct (resolveNamespacePrefix i ns) as [c | ] eqn:Ec; [ | done]. destruct (NSStructs _ !! _); [ | done].
      intros [= <- <-]. eexists _, _, _, _. split; [done | ]. rewrite (bool_decide_eq_true_2 (c <> "")) by eauto. done.
    + destruct (structs _ !! _); [ | done]. intros [= <- <-]. by eexists _, _, _, _.
Qed.

Lemma checkEnumLit_fails p ns enum name bare fs e :
  bool_decide (enum <> "") ||
    (bool_decide (ns <> "") && bool_decide (is_Some (enums (i_tables i) !! ns)) && negb (isNamespaceOrAlias i ns)) = true ->
  checkEnumLit i p ns enum name bare fs = Err e -> fails p ns enum name bare fs e.
Proof.
  intros Hen. unfold fails, evalStructLit, evalBefore. rewrite Hen. unfold checkEnumLit, evalEnumLit.
  set (def := if bool_decide (enum <> "") then _ else _).
  assert (Hr : forall d, def = Some d -> exists a b g, resolveEnum i p ns enum name = Ok (d, a, b, g)).
  { intros d. unfold resolveEnum, def. destruct (bool_decide (enum <> "")).
    - destruct (moduleAliases (i_tables i) !! ns) as [m | ]; [ | done].
      destruct (bool_decide (enum ∈ mod_exports m)); [ | done]. intros ->. eauto.
    - intros ->. eauto. }
  destruct def as [d | ]; [ | done]. destruct (Hr d eq_refl) as (a & b & g & ->). clear Hr. intros Hc. cbv beta iota delta [bind ret lift].
  destruct (findVariant d name) as [v | ]; [ | injection Hc as <-; left; intros w; reflexivity].
  destruct bare; destruct (variant_Fields v) as [ | x xs]; try done; try (injection Hc as <-; left; intros w; reflexivity).
  destruct (fields_fail p fs (x :: xs) _ _ e
              (fun x => rt (snd x) "unknown field %q in variant %s.%s" [AStr (litName x); AStr (enum_Name d); AStr name])
              (fun _ => evalEnumField rec p (enum_Name d) name fs g)
              (fun out => ret (EnumVal a b (enum_Name d) name out)) Hc) as [Hn | (before & decl & m & Hp & [= <-] & He & Hw)].
  - done.
  - intros decl m j w Hp [= <-]. unfold evalEnumField. by rewrite Hp.
  - left. exact Hn.
  - right. exists before, (field_Name decl). split; [by apply provided_None | ]. split; [right; eexists _, _; exact He | exact Hw].
Qed.

Lemma checkStructLit_fails p ns enum name bare fs e :
  tablesOK -> checkStructLit i p ns enum name bare fs = Err e -> fails p ns enum name bare fs e.
Proof.
  intros Hok. unfold checkStructLit. destruct (_ || _) eqn:Hen; [by apply checkEnumLit_fails | ].
  unfold fails, evalStructLit, evalBefore. rewrite Hen.
  pose proof (structDef_agrees p ns name) as Hr. set (def := match moduleAliases _ !! ns with Some _ => _ | None => _ end) in *.
  destruct def as [[d library] | ]; [ | done]. destruct (Hr d library Hok eq_refl) as (a & b & bu & g & -> & Hlib).
  clear Hr. intros Hc. cbv beta iota delta [bind ret lift].
  destruct (fields_fail p fs (struct_Fields d) _ _ e
              (fun x => rt (snd x) "unknown field %q in struct %q" [AStr (litName x); AStr name])
              (fun _ => evalStructField host rec p ns name fs a b bu g)
              (fun out => ret (VStruct a b name out)) Hc) as [Hn | (before & decl & m & Hp & Hm & He & Hw)].
  - done.
  - intros decl m j w Hp Hm. unfold evalStructField. rewrite Hp. destruct library; [done | ].
    destruct (errorLocationZero ns name (field_Name decl)); [done | ]. rewrite <- Hlib. by injection Hm as <-.
  - left. exact Hn.
  - right. exists before, (field_Name decl). split; [by apply provided_None | ]. split; [ | exact Hw]. left. exists name.
    destruct library; [done | ]. destruct (errorLocationZero ns name (field_Name decl)); [done | ]. by injection Hm as <-.
Qed.

(** A literal that passes has no field the evaluator could miss or not know. *)
Lemma checkStructLit_passes p ns enum name bare fs d a b bu g :
  tablesOK -> checkStructLit i p ns enum name bare fs = Ok tt ->
  bool_decide (enum <> "") ||
    (bool_decide (ns <> "") && bool_decide (is_Some (enums (i_tables i) !! ns)) && negb (isNamespaceOrAlias i ns)) = false ->
  resolveStruct i p ns name = Ok (d, a, b, bu, g) ->
  (forall f, f ∈ fs -> litName f ∈ map field_Name (struct_Fields d)) /\
  forall decl, decl ∈ struct_Fields d -> provided fs (field_Name decl) = None ->
    errorLocationZero ns name (field_Name decl) <> None \/ bool_decide (a <> "") && bool_decide (b = "") || bu = true.
Proof.
  intros Hok Hc He Hr. unfold checkStructLit in Hc. rewrite He in Hc.
  pose proof (structDef_agrees p ns name) as Hd. set (def := match moduleAliases _ !! ns with Some _ => _ | None => _ end) in *.
  assert (exists library, def = Some (d, library)) as [library Hdef].
  { revert Hr. unfold resolveStruct, def. destruct (moduleAliases (i_tables i) !! ns) as [m | ].
    - destruct (mod_structs m !! name); [ | done]. destruct (bool_decide (name ∈ mod_exports m)); [ | done]. intros [= <- _ _ _ _]. eauto.
    - destruct (bool_decide (ns <> "")).
      + destruct (resolveNamespacePrefix i ns); [ | done]. destruct (NSStructs _ !! _); [ | done]. intros [= <- _ _ _ _]. eauto.
      + destruct (structs _ !! _); [ | done]. intros [= <- _ _ _ _]. eauto. }
  rewrite Hdef in Hc. destruct (Hd d library Hok Hdef) as (a' & b' & bu' & g' & Hr' & Hlib).
  rewrite Hr in Hr'. injection Hr' as <- <- <- <-.
  unfold litFieldsError in Hc. pose proof (undeclared_spec fs (struct_Fields d)) as Hu.
  destruct (undeclared fs (struct_Fields d)); [done | ]. split; [done | ]. intros decl Hdecl Hp.
  match type of Hc with missingField ?p ?fs ?m ?ds = _ => pose proof (missingField_spec p fs m ds) as Hm end.
  rewrite Hc in Hm. specialize (Hm decl Hdecl Hp). simpl in Hm. rewrite <- Hlib. destruct library; [auto | ].
  left. by destruct (errorLocationZero _ _ _).
Qed.

End Agree.

(** ** An example *)

Definition litAt (c : Z) : position := Pos "a.j" 1 c.

Definition pointStruct : StructDef :=
  {| struct_pos := litAt 1; struct_Name := "Point"; struct_Exported := false;
     struct_Fields := [{| field_Name := "x"; field_Type := TypeInt; field_pos := litAt 1 |};
                       {| field_Name := "y"; field_Type := TypeInt; field_pos := litAt 2 |}] |}.

Definition pointInterp : Interpreter :=
  mkInterp 0 (mkTables {["Point" := pointStruct]} ∅ ∅ ∅) ∅ (fun _ => 0%nat) ∅ ∅ ∅ ∅ ∅ ∅ ∅ false 64.

Lemma pointInterp_ok : tablesOK pointInterp.
Proof.
  split; [intros ns m E; simpl in E; by rewrite lookup_empty in E | ]. intros p c. unfold resolveNamespacePrefix. simpl.
  rewrite !lookup_empty. by case_match.
Qed.

