(* ===== verification/Strings.v ===== *)
(** * The strings library (internal/lib/strings/stringslib.go)

    Text utilities on Go strings.  Searching works on bytes, positions are rune positions; on
    a string of one-byte runes the code takes byte offsets for rune offsets.  The platform's
    int is 64 bits wide.  The case tables of Go's unicode package are the interface [GoCase]. *)

From Stdlib Require Import Ascii.
From S2P Require Import Prelude GoInt Utf8 Limits Types Value.
Open Scope string_scope.
Open Scope list_scope.
Open Scope Z_scope.
Open Scope go_scope.

(** [strings.ToUpper], [strings.ToLower]. *)
Class GoCase := { ToUpper : string -> string; ToLower : string -> string }.

(** ** Checked arithmetic (internal/limits/size.go) *)

Definition AddInt64 (a b : Z) : Z * bool :=
  let c := add64 a b in
  if ((0 <? b) && (c <? a)) || ((b <? 0) && (a <? c)) then (0, false) else (c, true).

Definition MulInt64 (a b : Z) : Z * bool :=
  if (a =? 0) || (b =? 0) then (0, true)
  else
    let c := mul64 a b in
    if negb (Bool.eqb (c <? 0) (negb (Bool.eqb (a <? 0) (b <? 0)))) || negb (quot64 c b =? a) then (0, false)
    else (c, true).

(** ** Go's strings package *)

Definition slen (s : string) : Z := Z.of_nat (String.length s).

Definition hasSuffix (s p : string) : bool :=
  (String.length p <=? String.length s)%nat && String.eqb (sdrop (String.length s - String.length p) s) p.

(** [strings.Index] and [strings.LastIndex]: byte offsets. *)
Fixpoint index (s p : string) : option nat :=
  if String.prefix p s then Some 0%nat
  else match s with
       | "" => None
       | String _ s => option_map S (index s p)
       end.

Fixpoint lastIndex (s p : string) : option nat :=
  match match s with "" => None | String _ s => lastIndex s p end with
  | Some i => Some (S i)
  | None => if String.prefix p s then Some 0%nat else None
  end.

(** [strings.Count]: an empty [p] matches before every rune and at the end. *)
Fixpoint countLoop (fuel : nat) (s p : string) : nat :=
  match fuel with
  | O => 0
  | S fuel => match index s p with Some i => S (countLoop fuel (sdrop (i + String.length p) s) p) | None => 0 end
  end.
Definition count (s p : string) : nat :=
  if String.eqb p "" then (RuneCountInString s + 1)%nat else countLoop (String.length s) s p.

(** [strings.ReplaceAll]: [n] replacements left, [first] the first of them. *)
Fixpoint replaceLoop (n : nat) (first : bool) (s old new : string) : string :=
  match n with
  | O => s
  | S n =>
      let j := if String.eqb old "" then (if first then 0%nat else snd (decodeRune s))
               else match index s old with Some j => j | None => 0%nat end in
      stake j s +:+ new +:+ replaceLoop n false (sdrop (j + String.length old) s) old new
  end.
Definition ReplaceAll (s old new : string) : string :=
  if String.eqb old new then s else replaceLoop (count s old) true s old new.

(** [strings.Split] with a separator. *)
Fixpoint splitParts (n : nat) (s sep : string) : list string :=
  match n with
  | O => [s]
  | S n =>
      match index s sep with
      | None => [s]
      | Some j => stake j s :: splitParts n (sdrop (j + String.length sep) s) sep
      end
  end.
Definition Split (s sep : string) : list string := splitParts (count s sep) s sep.

Fixpoint Join (parts : list string) (sep : string) : string :=
  match parts with
  | [] => ""
  | [p] => p
  | p :: parts => p +:+ sep +:+ Join parts sep
  end.

Fixpoint RepeatString (s : string) (n : nat) : string := match n with O => "" | S n => s +:+ RepeatString s n end.

(** [unicode.IsSpace]. *)
Definition IsSpace (r : Z) : bool :=
  in_range 9 13 r || (r =? 32) || (r =? 133) || (r =? 160) || (r =? 5760) || in_range 8192 8202 r ||
  (r =? 8232) || (r =? 8233) || (r =? 8239) || (r =? 8287) || (r =? 12288).

(** [strings.TrimLeftFunc]: drop the runes that satisfy [f]. *)
Fixpoint trimLeftLoop (fuel : nat) (f : Z -> bool) (s : string) : string :=
  match fuel, s with
  | S fuel, String _ _ => let '(r, w) := decodeRune s in if f r then trimLeftLoop fuel f (sdrop w s) else s
  | _, _ => s
  end.
Definition TrimLeftFunc (s : string) (f : Z -> bool) : string := trimLeftLoop (String.length s) f s.

(** [strings.TrimRightFunc]: the last rune whose test fails, as [lastIndexFunc] finds it, ends the result. *)
Fixpoint keepTo (fuel : nat) (f : Z -> bool) (s : string) (off last : nat) : nat :=
  match fuel, s with
  | S fuel, String _ _ =>
      let '(r, w) := decodeRune s in
      keepTo fuel f (sdrop w s) (off + w) (if f r then last else (off + w)%nat)
  | _, _ => last
  end.
Definition TrimRightFunc (s : string) (f : Z -> bool) : string := stake (keepTo (String.length s) f s 0 0) s.

(** ** Arguments *)

Definition serr {A} (fmt : string) (args : list fmtarg) : result message A := Err (Sprintf fmt args).
Definition kindText (v : Value) : fmtarg := AStr (ValueKind_String (kindOf v)).
Definition nargs (args : list Value) : fmtarg := AInt (Z.of_nat (length args)).

Definition arityN {A} (name : string) (args : list Value) (want : Z) : result message A :=
  serr "%s expects %d argument(s), got %d" [AStr name; AInt want; nargs args].

Definition requireString (name : string) (v : Value) (i : Z) : result message string :=
  match v with VString s _ => Ok s | _ => serr "%s(): argument %d must be string, got %s" [AStr name; AInt (i + 1); kindText v] end.

Definition requireInt (name : string) (v : Value) (i : Z) : result message Z :=
  match v with VInt n => Ok n | _ => serr "%s(): argument %d must be int, got %s" [AStr name; AInt (i + 1); kindText v] end.

Definition requireIndex (name what : string) (v : Value) (i : Z) : result message Z :=
  let? n := requireInt name v i in
  if (maxInt64 <? n) || (n <? minInt64) then serr "%s(): %s %d out of range" [AStr name; AStr what; AInt n] else Ok n.

(** [args[0].RuneLen()]. *)
Definition RuneLen (v : Value) : Z := match v with VString s n => runeLen s n | _ => 0 end.

(** [-1], or the runes before the byte offset. *)
Definition runeIndex (s : string) (off : option nat) : Z :=
  match off with None => -1 | Some off => Z.of_nat (RuneCountInString (stake off s)) end.

(** [skipRunes]: the new offset and the number of runes skipped. *)
Fixpoint skipRunes (s : string) (off n : nat) : nat * nat :=
  match n with
  | O => (off, 0%nat)
  | S n =>
      match sdrop off s with
      | "" => (off, 0%nat)
      | String c _ as rest =>
          let w := if byte_of c <? 128 then 1%nat else snd (decodeRune rest) in
          let '(off, k) := skipRunes s (off + w) n in (off, S k)
      end
  end.

(** ** Builtins *)

Definition withString (name : string) (args : list Value) (k : string -> result message Value) : result message Value :=
  match args with
  | [s] => let? s := requireString name s 0 in k s
  | _ => arityN name args 1
  end.

Definition withStrings (name : string) (args : list Value) (k : string -> string -> result message Value) : result message Value :=
  match args with
  | [s; p] => let? s := requireString name s 0 in let? p := requireString name p 1 in k s p
  | _ => arityN name args 2
  end.

Definition upperFn `{GoCase} (args : list Value) : result message Value := withString "upper" args (fun s => Ok (StringVal (ToUpper s))).
Definition lowerFn `{GoCase} (args : list Value) : result message Value := withString "lower" args (fun s => Ok (StringVal (ToLower s))).

(** [foldMap]: base letters and the runes that fold to them. *)
Definition foldMap : list (string * list Z) :=
  [("A", [192; 193; 194; 195; 196; 197; 256; 258; 260]);
   ("a", [224; 225; 226; 227; 228; 229; 257; 259; 261]);
   ("AE", [198]);
   ("ae", [230]);
   ("C", [199; 262; 264; 266; 268]);
   ("c", [231; 263; 265; 267; 269]);
   ("D", [208; 270; 272]);
   ("d", [240; 271; 273]);
   ("E", [200; 201; 202; 203; 274; 276; 278; 280; 282]);
   ("e", [232; 233; 234; 235; 275; 277; 279; 281; 283]);
   ("G", [284; 286; 288; 290]);
   ("g", [285; 287; 289; 291]);
   ("H", [292; 294]);
   ("h", [293; 295]);
   ("I", [204; 205; 206; 207; 296; 298; 300; 302; 304]);
   ("i", [236; 237; 238; 239; 297; 299; 301; 303; 305]);
   ("J", [308]);
   ("j", [309]);
   ("K", [310]);
   ("k", [311]);
   ("L", [313; 315; 317; 321]);
   ("l", [314; 316; 318; 322]);
   ("N", [209; 323; 325; 327]);
   ("n", [241; 324; 326; 328]);
   ("O", [210; 211; 212; 213; 214; 216; 332; 334; 336]);
   ("o", [242; 243; 244; 245; 246; 248; 333; 335; 337]);
   ("OE", [338]);
   ("oe", [339]);
   ("R", [340; 342; 344]);
   ("r", [341; 343; 345]);
   ("S", [346; 348; 350; 352]);
   ("s", [347; 349; 351; 353]);
   ("ss", [223]);
   ("SS", [7838]);
   ("T", [354; 356; 358]);
   ("t", [355; 357; 359]);
   ("U", [217; 218; 219; 220; 360; 362; 364; 366; 368; 370]);
   ("u", [249; 250; 251; 252; 361; 363; 365; 367; 369; 371]);
   ("W", [372]);
   ("w", [373]);
   ("Y", [221; 374; 376]);
   ("y", [253; 375; 255]);
   ("Z", [377; 379; 381]);
   ("z", [378; 380; 382]);
   ("Th", [222]);
   ("th", [254])].

Fixpoint foldLookup (m : list (string * list Z)) (r : Z) : option string :=
  match m with
  | [] => None
  | (t, rs) :: m => if existsb (Z.eqb r) rs then Some t else foldLookup m r
  end.

Definition isCombiningMark (r : Z) : bool := in_range 768 879 r || in_range 6832 6911 r || in_range 7616 7679 r.

Definition foldRune (r : Z) : string :=
  match foldLookup foldMap r with
  | Some t => t
  | None => if isCombiningMark r then "" else encodeRune r
  end.

Definition foldFn (args : list Value) : result message Value :=
  withString "fold" args (fun s => Ok (StringVal (fold_right (fun r t => foldRune r +:+ t) "" (runes_of_string s)))).

Definition containsFn (args : list Value) : result message Value :=
  withStrings "contains" args (fun s p => Ok (BoolVal (match index s p with Some _ => true | None => false end))).
Definition startsWithFn (args : list Value) : result message Value :=
  withStrings "startsWith" args (fun s p => Ok (BoolVal (String.prefix p s))).
Definition endsWithFn (args : list Value) : result message Value :=
  withStrings "endsWith" args (fun s p => Ok (BoolVal (hasSuffix s p))).

Definition indexOfFn (args : list Value) : result message Value :=
  match args with
  | v :: sub :: rest =>
      if (1 <? length rest)%nat then serr "indexOf(): expects 2 or 3 arguments (s, sub[, from]), got %d" [nargs args]
      else
        let? s := requireString "indexOf" v 0 in
        let? sub := requireString "indexOf" sub 1 in
        match rest with
        | [] => Ok (IntVal (runeIndex s (index s sub)))
        | from :: _ =>
            let? from := requireIndex "indexOf" "from" from 2 in
            if from <? 0 then serr "indexOf(): from negative index %d" [AInt from]
            else if RuneLen v =? slen s then
              if slen s <? from
              then serr "indexOf(): from index %d out of range (length %d)" [AInt from; AInt (slen s)]
              else match index (sdrop (Z.to_nat from) s) sub with
                   | None => Ok (IntVal (-1))
                   | Some rel => Ok (IntVal (add64 from (Z.of_nat rel)))
                   end
            else
              let '(byteFrom, k) := skipRunes s 0 (Z.to_nat from) in
              if Z.of_nat k <? from
              then serr "indexOf(): from index %d out of range (length %d)" [AInt from; AInt (Z.of_nat k)]
              else match index (sdrop byteFrom s) sub with
                   | None => Ok (IntVal (-1))
                   | Some rel => Ok (IntVal (add64 from (Z.of_nat (RuneCountInString (stake rel (sdrop byteFrom s))))))
                   end
        end
  | _ => serr "indexOf(): expects 2 or 3 arguments (s, sub[, from]), got %d" [nargs args]
  end.

Definition lastIndexOfFn (args : list Value) : result message Value :=
  withStrings "lastIndexOf" args (fun s p => Ok (IntVal (runeIndex s (lastIndex s p)))).

Definition countFn (args : list Value) : result message Value :=
  withStrings "count" args (fun s p =>
    if String.eqb p "" then serr "count(): substring must not be empty" [] else Ok (IntVal (Z.of_nat (count s p)))).

Definition trimFn (args : list Value) : result message Value :=
  withString "trim" args (fun s => Ok (StringVal (TrimRightFunc (TrimLeftFunc s IsSpace) IsSpace))).
Definition trimLeftFn (args : list Value) : result message Value :=
  withString "trimLeft" args (fun s => Ok (StringVal (TrimLeftFunc s IsSpace))).
Definition trimRightFn (args : list Value) : result message Value :=
  withString "trimRight" args (fun s => Ok (StringVal (TrimRightFunc s IsSpace))).

Section Limited.
Context {L : Limits}.

Definition maxRepeatBytes : Z := MaxStringBytes.

Definition replaceFn (args : list Value) : result message Value :=
  match args with
  | [s; old; new] =>
      let? s := requireString "replace" s 0 in
      let? old := requireString "replace" old 1 in
      let? new := requireString "replace" new 2 in
      let '(grow, ok) := MulInt64 (Z.of_nat (count s old)) (sub64 (slen new) (slen old)) in
      let '(grow, ok) := if ok then AddInt64 (slen s) grow else (grow, ok) in
      if negb ok || (maxRepeatBytes <? grow)
      then serr "replace(): result exceeds the %d-byte limit" [AInt maxRepeatBytes]
      else Ok (StringVal (ReplaceAll s old new))
  | _ => arityN "replace" args 3
  end.

Definition repeatFn (args : list Value) : result message Value :=
  match args with
  | [s; n] =>
      let? s := requireString "repeat" s 0 in
      let? n := requireInt "repeat" n 1 in
      if n <? 0 then serr "repeat(): negative count %d" [AInt n]
      else if maxInt64 <? n then serr "repeat(): count %d exceeds the platform limit" [AInt n]
      else
        let total := mul64 (slen s) n in
        if (0 <? n) && (0 <? slen s) && (negb (quot64 total n =? slen s) || (maxRepeatBytes <? total))
        then serr "repeat(): result of %d bytes exceeds the %d-byte limit" [AInt total; AInt maxRepeatBytes]
        else Ok (StringVal (RepeatString s (Z.to_nat n)))
  | _ => arityN "repeat" args 2
  end.

Definition substringFn (args : list Value) : result message Value :=
  match args with
  | v :: start :: rest =>
      if (1 <? length rest)%nat then serr "substring expects 2 or 3 arguments, got %d" [nargs args]
      else
        let? s := requireString "substring" v 0 in
        let? start := requireIndex "substring" "start" start 1 in
        let? end_ := match rest with e :: _ => requireIndex "substring" "end" e 2 | [] => Ok (-1) end in
        if start <? 0 then serr "substring(): start %d is negative" [AInt start]
        else if RuneLen v =? slen s then
          if slen s <? start then serr "substring(): start out of range (length %d)" [AInt (slen s)]
          else match rest with
               | [] => Ok (StringVal (sdrop (Z.to_nat start) s))
               | _ =>
                   if end_ <? start then serr "substring(): end %d is before start %d" [AInt end_; AInt start]
                   else if slen s <? end_ then serr "substring(): end out of range (length %d)" [AInt (slen s)]
                   else Ok (StringVal (stake (Z.to_nat (end_ - start)) (sdrop (Z.to_nat start) s)))
               end
        else
          let '(startByte, k) := skipRunes s 0 (Z.to_nat start) in
          if Z.of_nat k <? start then serr "substring(): start out of range (length %d)" [AInt (Z.of_nat k)]
          else match rest with
               | [] => Ok (StringVal (sdrop startByte s))
               | _ =>
                   if end_ <? start then serr "substring(): end %d is before start %d" [AInt end_; AInt start]
                   else
                     let '(endByte, k) := skipRunes s startByte (Z.to_nat (end_ - start)) in
                     if Z.of_nat k <? end_ - start then serr "substring(): end out of range (length %d)" [AInt (start + Z.of_nat k)]
                     else Ok (StringVal (stake (endByte - startByte) (sdrop startByte s)))
               end
  | _ => serr "substring expects 2 or 3 arguments, got %d" [nargs args]
  end.

Definition splitFn (args : list Value) : result message Value :=
  withStrings "split" args (fun s sep =>
    if String.eqb sep "" then serr "split(): separator must be non-empty; use chars() to split into runes" []
    else
      let n := Z.of_nat (count s sep) + 1 in
      if MaxRangeElements <? n then serr "split(): %d parts exceed the limit of %d" [AInt n; AInt MaxRangeElements]
      else Ok (ListVal TypeString (map StringVal (Split s sep)))).

Definition charsFn (args : list Value) : result message Value :=
  withString "chars" args (fun s =>
    let n := Z.of_nat (RuneCountInString s) in
    if MaxRangeElements <? n
    then serr "chars(): %d runes exceed the limit of %d; slice with $s[a..b] instead" [AInt n; AInt MaxRangeElements]
    else Ok (ListVal TypeString (map (fun r => StringVal (encodeRune r)) (runes_of_string s)))).

(** The elements and their total size; [ok] is false after an overflow. *)
Fixpoint joinElements (i : Z) (total : Z) (ok : bool) (l : list Value) : result message (list string * Z * bool) :=
  match l with
  | [] => Ok ([], total, ok)
  | VString s _ :: l =>
      let '(total, ok) := if ok then AddInt64 total (slen s) else (total, ok) in
      let? (strs, total, ok) := joinElements (i + 1) total ok l in
      Ok (s :: strs, total, ok)
  | e :: _ => serr "join(): element %d is %s, expected string" [AInt i; kindText e]
  end.

Definition joinFn (args : list Value) : result message Value :=
  match args with
  | [parts; sep] =>
      match parts with
      | VList l _ =>
          let? sep := requireString "join" sep 1 in
          let '(total, ok) :=
            if (1 <? length l)%nat then MulInt64 (slen sep) (Z.of_nat (length l) - 1) else (0, true) in
          let? (strs, total, ok) := joinElements 0 total ok l in
          if negb ok || (maxRepeatBytes <? total)
          then serr "join(): result exceeds the %d-byte limit" [AInt maxRepeatBytes]
          else Ok (StringVal (Join strs sep))
      | _ => serr "join(): first argument must be a list of string, got %s" [kindText parts]
      end
  | _ => arityN "join" args 2
  end.

(** The registered names ([Install]). *)
Definition stringsBuiltins `{GoCase} : list (string * (list Value -> result message Value)) :=
  [("upper", upperFn); ("lower", lowerFn); ("fold", foldFn); ("contains", containsFn); ("startsWith", startsWithFn);
   ("endsWith", endsWithFn); ("indexOf", indexOfFn); ("lastIndexOf", lastIndexOfFn); ("count", countFn);
   ("trim", trimFn); ("trimLeft", trimLeftFn); ("trimRight", trimRightFn); ("replace", replaceFn);
   ("repeat", repeatFn); ("substring", substringFn); ("split", splitFn); ("chars", charsFn); ("join", joinFn)].
End Limited.
