(* ===== verification/StringsFacts.v ===== *)
(** * The strings library works on runes

    UTF-8 is self-synchronising: a valid string occurs in a valid string only at rune
    boundaries.  So the library's byte searches, offsets and shortcuts compute the rune-wise
    definitions; and its size checks are exact. *)

From Stdlib Require Import Ascii.
From S2P Require Import Prelude GoInt Utf8 Limits Types Value Strings.
Open Scope string_scope.
Open Scope list_scope.
Open Scope Z_scope.

Definition validRunes (rs : list Z) : Prop := Forall (fun r => valid_rune r = true) rs.

Abbreviation sor := string_of_runes (only parsing).

(** ** Strings *)

Lemma prefix_spec p s : String.prefix p s = true <-> exists x, s = p +:+ x.
Proof.
  revert s. induction p as [ | c p IH]; intros s; simpl.
  - split; [intros _; exists s; done | by destruct s].
  - destruct s as [ | d s]; simpl; [split; [done | intros [x [=]]] | ].
    destruct (ascii_dec c d) as [-> | Hne].
    + rewrite IH. split; intros [x Hx]; exists x; [by rewrite Hx | by injection Hx].
    + split; [done | ]. intros [x [= -> _]]. done.
Qed.

Lemma stake_prefix a b : stake (String.length a) (a +:+ b) = a.
Proof. induction a as [ | c a IH]; [by destruct b | ]. change (String c (stake (String.length a) (a +:+ b)) = String c a). by rewrite IH. Qed.

Lemma sdrop_app a b n : sdrop (String.length a + n) (a +:+ b) = sdrop n b.
Proof. induction a as [ | c a IH]; [done | ]. exact IH. Qed.

Lemma sdrop_app_all a b : sdrop (String.length a) (a +:+ b) = b.
Proof. rewrite <- (Nat.add_0_r (String.length a)), sdrop_app. by destruct b. Qed.

Lemma string_app_inj a b c : a +:+ b = a +:+ c -> b = c.
Proof. intros H. rewrite <- (sdrop_app_all a b), H. apply sdrop_app_all. Qed.

(** ** Lead and continuation bytes *)

Definition contByte (c : ascii) : bool := continuation (byte_of c).

Fixpoint allCont (s : string) : bool := match s with "" => true | String c s => contByte c && allCont s end.

Lemma encodeRune_shape r : valid_rune r = true -> exists c u, encodeRune r = String c u /\ contByte c = false /\ allCont u = true.
Proof.
  intros Hv. unfold encodeRune. rewrite Hv. apply valid_rune_bounds in Hv as [Hr _].
  unfold str1, contByte, continuation, in_range.
  destruct (Z.ltb_spec r 128); [ | destruct (Z.ltb_spec r 2048); [ | destruct (Z.ltb_spec r 65536)]];
    autorewrite with go; eexists _, _; (split; [done | ]); cbn [allCont]; unfold contByte, continuation, in_range;
    rewrite !byte_of_chr by (Z.to_euclidean_division_equations; lia); split; zbool; try done; Z.to_euclidean_division_equations; lia.
Qed.

Lemma encode_cancel p r a b :
  valid_rune p = true -> valid_rune r = true -> encodeRune p +:+ a = encodeRune r +:+ b -> p = r /\ a = b.
Proof.
  intros Hp Hr H. destruct (decode_encode p a Hp) as (w & Hd & Hs & _).
  destruct (decode_encode r b Hr) as (w' & Hd' & Hs' & _). rewrite H in Hd, Hs. rewrite Hd' in Hd.
  injection Hd as -> ->. split; [done | congruence].
Qed.

(** ** The reference on runes *)

Fixpoint runePrefix (ps rs : list Z) : bool :=
  match ps, rs with
  | [], _ => true
  | p :: ps, r :: rs => (p =? r) && runePrefix ps rs
  | _ :: _, [] => false
  end.

(** The first and the last position of [ps] in [rs]. *)
Fixpoint runeFind (rs ps : list Z) : option nat :=
  if runePrefix ps rs then Some 0%nat
  else match rs with [] => None | _ :: rs => option_map S (runeFind rs ps) end.

Fixpoint runeFindLast (rs ps : list Z) : option nat :=
  match match rs with [] => None | _ :: rs => runeFindLast rs ps end with
  | Some i => Some (S i)
  | None => if runePrefix ps rs then Some 0%nat else None
  end.

Lemma prefix_runes ps : forall rs, validRunes ps -> validRunes rs -> String.prefix (sor ps) (sor rs) = runePrefix ps rs.
Proof.
  induction ps as [ | p ps IH]; intros rs Hp Hr; [simpl; by destruct (sor rs) | ].
  apply Forall_cons in Hp as [Hp Hps]. destruct rs as [ | r rs]; cbn [string_of_runes runePrefix].
  - destruct (encodeRune_shape p Hp) as (c & u & -> & _). done.
  - apply Forall_cons in Hr as [Hr Hrs]. apply eq_true_iff_eq. rewrite andb_true_iff, Z.eqb_eq, <- IH by done.
    rewrite !prefix_spec. split.
    + intros [x Hx]. rewrite string_app_assoc in Hx. symmetry in Hx.
      apply encode_cancel in Hx as [-> Hx]; [ | done | done]. split; [done | ]. by exists x.
    + intros [-> [x Hx]]. exists x. by rewrite Hx, string_app_assoc.
Qed.

(** No match starts at a continuation byte. *)
Lemma index_cont u rest p :
  allCont u = true -> (exists c t, p = String c t /\ contByte c = false) ->
  index (u +:+ rest) p = option_map (Nat.add (String.length u)) (index rest p).
Proof.
  intros Hu (c & t & -> & Hc). induction u as [ | d u IH].
  - change ("" +:+ rest) with rest. by destruct (index rest _).
  - simpl in Hu. apply andb_true_iff in Hu as [Hd Hu]. change (String d u +:+ rest) with (String d (u +:+ rest)).
    cbn [index String.prefix]. destruct (ascii_dec c d) as [-> | _]; [congruence | ].
    rewrite (IH Hu). by destruct (index rest _).
Qed.

Lemma lastIndex_cont u rest p :
  allCont u = true -> (exists c t, p = String c t /\ contByte c = false) ->
  lastIndex (u +:+ rest) p = option_map (Nat.add (String.length u)) (lastIndex rest p).
Proof.
  intros Hu (c & t & -> & Hc). induction u as [ | d u IH].
  - change ("" +:+ rest) with rest. by destruct (lastIndex rest _).
  - simpl in Hu. apply andb_true_iff in Hu as [Hd Hu]. change (String d u +:+ rest) with (String d (u +:+ rest)).
    cbn [lastIndex String.prefix]. rewrite (IH Hu). destruct (ascii_dec c d) as [-> | _]; [congruence | ].
    by destruct (lastIndex rest _).
Qed.

Lemma pattern_lead ps : validRunes ps -> ps <> [] -> exists c t, sor ps = String c t /\ contByte c = false.
Proof.
  intros Hp Hn. destruct ps as [ | p ps]; [done | ]. apply Forall_cons in Hp as [Hp _]. simpl.
  destruct (encodeRune_shape p Hp) as (c & u & -> & Hc & _). exists c, (u +:+ sor ps). done.
Qed.

(** The byte offset of rune [k]. *)
Definition offsetOf (rs : list Z) (k : nat) : nat := String.length (sor (take k rs)).

Lemma offsetOf_cons r rs k : offsetOf (r :: rs) (S k) = (String.length (encodeRune r) + offsetOf rs k)%nat.
Proof. unfold offsetOf. simpl. by rewrite string_length_app. Qed.

Lemma index_runes ps : validRunes ps -> forall rs, validRunes rs ->
  index (sor rs) (sor ps) = option_map (offsetOf rs) (runeFind rs ps).
Proof.
  intros Hp. induction rs as [ | r rs IH]; intros Hr.
  - destruct ps as [ | p ps]; [done | ]. apply Forall_cons in Hp as [Hp _]. simpl.
    destruct (encodeRune_shape p Hp) as (c & u & -> & _). done.
  - apply Forall_cons in Hr as [Hr Hrs]. cbn [runeFind].
    pose proof (prefix_runes ps (r :: rs) Hp ltac:(by constructor)) as Hpre.
    destruct (runePrefix ps (r :: rs)) eqn:E.
    + destruct (sor (r :: rs)) as [ | d x]; cbn [index]; by rewrite Hpre.
    + assert (ps <> []) as Hne by (intros ->; done).
      destruct (encodeRune_shape r Hr) as (c & u & Hcu & _ & Hu). cbn [string_of_runes] in *. rewrite Hcu in *.
      change (String c u +:+ sor rs) with (String c (u +:+ sor rs)) in *. cbn [index]. rewrite Hpre.
      rewrite (index_cont _ _ _ Hu (pattern_lead ps Hp Hne)), (IH Hrs).
      destruct (runeFind rs ps) as [k | ]; [ | done]. simpl. f_equal. rewrite offsetOf_cons, Hcu. done.
Qed.

Lemma lastIndex_empty s : lastIndex s "" = Some (String.length s).
Proof. induction s as [ | c s IH]; [done | ]. cbn [lastIndex]. by rewrite IH. Qed.

Lemma runeFindLast_nil rs : runeFindLast rs [] = Some (length rs).
Proof. induction rs as [ | r rs IH]; [done | ]. cbn [runeFindLast]. by rewrite IH. Qed.

Lemma lastIndex_runes ps : validRunes ps -> forall rs, validRunes rs ->
  lastIndex (sor rs) (sor ps) = option_map (offsetOf rs) (runeFindLast rs ps).
Proof.
  intros Hp. destruct (decide (ps = [])) as [-> | Hne].
  { intros rs _. rewrite lastIndex_empty, runeFindLast_nil. simpl. unfold offsetOf. by rewrite take_ge. }
  destruct (pattern_lead ps Hp Hne) as (pc & pt & Hpt & Hpc).
  induction rs as [ | r rs IH]; intros Hr.
  - rewrite Hpt. simpl. by destruct ps.
  - pose proof (prefix_runes ps (r :: rs) Hp Hr) as Hpre.
    apply Forall_cons in Hr as [Hr Hrs]. cbn [runeFindLast].
    destruct (encodeRune_shape r Hr) as (c & u & Hcu & _ & Hu). cbn [string_of_runes] in *. rewrite Hcu in *.
    change (String c u +:+ sor rs) with (String c (u +:+ sor rs)) in *. cbn [lastIndex]. rewrite Hpre.
    rewrite (lastIndex_cont _ _ _ Hu (pattern_lead ps Hp Hne)), (IH Hrs).
    destruct (runeFindLast rs ps) as [k | ]; simpl.
    + f_equal. rewrite offsetOf_cons, Hcu. done.
    + by destruct (runePrefix ps (r :: rs)).
Qed.

(** ** Offsets and positions *)

Lemma validRunes_take k rs : validRunes rs -> validRunes (take k rs).
Proof. apply Forall_take. Qed.
Lemma validRunes_drop k rs : validRunes rs -> validRunes (drop k rs).
Proof. apply Forall_drop. Qed.
#[local] Hint Resolve validRunes_take validRunes_drop : core.

Lemma runeCount_sor rs : validRunes rs -> RuneCountInString (sor rs) = length rs.
Proof. intros. unfold RuneCountInString. by rewrite runes_of_string_of_runes. Qed.

Lemma stake_offset rs k : stake (offsetOf rs k) (sor rs) = sor (take k rs).
Proof. unfold offsetOf. rewrite <- (take_drop k rs) at 2. rewrite string_of_runes_app. apply stake_prefix. Qed.

Lemma sdrop_offset rs k : sdrop (offsetOf rs k) (sor rs) = sor (drop k rs).
Proof. unfold offsetOf. rewrite <- (take_drop k rs) at 2. rewrite string_of_runes_app. apply sdrop_app_all. Qed.

Lemma runeFind_bound rs ps k : runeFind rs ps = Some k -> (k <= length rs)%nat.
Proof.
  revert k. induction rs as [ | r rs IH]; intros k; cbn [runeFind].
  - destruct (runePrefix ps []); [ | done]. intros [= <-]. lia.
  - destruct (runePrefix ps (r :: rs)); [intros [= <-]; lia | ].
    destruct (runeFind rs ps) as [j | ]; [ | done]. intros [= <-]. specialize (IH j eq_refl). simpl. lia.
Qed.

Lemma runeFindLast_bound rs ps k : runeFindLast rs ps = Some k -> (k <= length rs)%nat.
Proof.
  revert k. induction rs as [ | r rs IH]; intros k; cbn [runeFindLast].
  - destruct (runePrefix ps []); [ | done]. intros [= <-]. lia.
  - destruct (runeFindLast rs ps) as [j | ].
    + intros [= <-]. specialize (IH j eq_refl). simpl. lia.
    + destruct (runePrefix ps (r :: rs)); [ | done]. intros [= <-]. lia.
Qed.

(** A position found, as the library returns it. *)
Definition found (k : option nat) : Z := match k with Some k => Z.of_nat k | None => -1 end.

Lemma runeIndex_offset rs k :
  validRunes rs -> (forall j, k = Some j -> (j <= length rs)%nat) -> runeIndex (sor rs) (option_map (offsetOf rs) k) = found k.
Proof.
  intros Hr Hk. destruct k as [k | ]; [ | done]. simpl. f_equal. specialize (Hk k eq_refl).
  rewrite stake_offset, runeCount_sor, length_take by auto. lia.
Qed.

Lemma RuneLen_StringVal s : RuneLen (StringVal s) = Z.of_nat (RuneCountInString s).
Proof.
  unfold StringVal, RuneLen, runeLen. destruct (Z.ltb_spec MaxInt32 (Z.of_nat (RuneCountInString s))); [done | ].
  by destruct (Z.eqb_spec (Z.of_nat (RuneCountInString s)) 0).
Qed.

Lemma encode_length r : valid_rune r = true -> (1 <= String.length (encodeRune r))%nat.
Proof. intros (c & u & -> & _)%encodeRune_shape. simpl. lia. Qed.

Lemma sor_length rs : validRunes rs -> (length rs <= String.length (sor rs))%nat.
Proof.
  induction 1 as [ | r rs Hr _ IH]; [done | ]. cbn [string_of_runes length]. rewrite string_length_app.
  apply encode_length in Hr. lia.
Qed.

(** On a string of one-byte runes byte offsets are rune offsets. *)
Lemma offset_one_byte rs k :
  validRunes rs -> String.length (sor rs) = length rs -> offsetOf rs k = Nat.min k (length rs).
Proof.
  intros Hr Hl. unfold offsetOf. rewrite <- (length_take rs k).
  pose proof (sor_length (take k rs) ltac:(auto)). pose proof (sor_length (drop k rs) ltac:(auto)).
  rewrite <- (take_drop k rs) in Hl. rewrite string_of_runes_app, string_length_app, length_app in Hl. lia.
Qed.

Lemma sdrop_runes rs k :
  validRunes rs -> String.length (sor rs) = length rs -> (k <= length rs)%nat -> sdrop k (sor rs) = sor (drop k rs).
Proof. intros Hr Hl Hk. rewrite <- sdrop_offset, offset_one_byte by done. f_equal. lia. Qed.

Lemma skipRunes_sor rs : validRunes rs -> forall n k, (k <= length rs)%nat ->
  skipRunes (sor rs) (offsetOf rs k) n = (offsetOf rs (Nat.min (k + n) (length rs)), (Nat.min (k + n) (length rs) - k)%nat).
Proof.
  intros Hr. induction n as [ | n IH]; intros k Hk; cbn [skipRunes].
  { replace (Nat.min (k + 0) (length rs)) with k by lia. by rewrite Nat.sub_diag. }
  rewrite sdrop_offset. destruct (drop k rs) as [ | r rest] eqn:E.
  { apply (f_equal length) in E. rewrite length_drop in E. simpl in *.
    replace (Nat.min (k + S n) (length rs)) with k by lia. by rewrite Nat.sub_diag. }
  assert (Hrr : valid_rune r = true). { apply (validRunes_drop k) in Hr. rewrite E in Hr. by apply Forall_inv in Hr. }
  assert (Hlen : (k < length rs)%nat). { apply (f_equal length) in E. rewrite length_drop in E. simpl in E. lia. }
  assert (Hnext : offsetOf rs (S k) = (offsetOf rs k + String.length (encodeRune r))%nat).
  { unfold offsetOf. rewrite <- string_length_app. f_equal.
    replace (take (S k) rs) with (take k rs ++ [r]).
    - rewrite string_of_runes_app. cbn [string_of_runes]. by rewrite string_app_nil_r.
    - rewrite <- (take_drop k rs) at 2. rewrite E. rewrite take_app_ge by (rewrite length_take; lia).
      rewrite length_take, Nat.min_l by lia. by replace (S k - k)%nat with 1%nat by lia. }
  destruct (decode_encode r (sor rest) Hrr) as (w & Hd & _ & _ & Hw).
  destruct (encodeRune_shape r Hrr) as (c & u & Hcu & Hc & _). cbn [string_of_runes].
  assert (Hwidth : (if byte_of c <? 128 then 1%nat else snd (decodeRune (encodeRune r +:+ sor rest))) = String.length (encodeRune r)).
  { rewrite Hd. destruct (Z.ltb_spec (byte_of c) 128) as [Hlt | ]; [ | done].
    assert (Hdec : decodeRune (encodeRune r +:+ sor rest) = (byte_of c, 1%nat)).
    { rewrite Hcu. change (String c u +:+ sor rest) with (String c (u +:+ sor rest)). unfold decodeRune.
      by rewrite (proj2 (Z.ltb_lt _ _) Hlt). }
    rewrite Hdec in Hd. injection Hd as _ <-. lia. }
  rewrite Hcu in *. change (String c u +:+ sor rest) with (String c (u +:+ sor rest)) in *.
  cbv beta iota zeta. rewrite Hwidth, <- Hnext, IH by lia. f_equal; [f_equal | ]; lia.
Qed.

(** ** The builtins on runes *)

(** What indexOf and substring do, on the runes. *)
Definition indexOfRunes (rs ps : list Z) (from : Z) : result message Value :=
  if from <? 0 then serr "indexOf(): from negative index %d" [AInt from]
  else if Z.of_nat (length rs) <? from
  then serr "indexOf(): from index %d out of range (length %d)" [AInt from; AInt (Z.of_nat (length rs))]
  else Ok (IntVal (found (option_map (Nat.add (Z.to_nat from)) (runeFind (drop (Z.to_nat from) rs) ps)))).

Definition substringRunes (rs : list Z) (start : Z) (end_ : option Z) : result message Value :=
  let n := Z.of_nat (length rs) in
  if start <? 0 then serr "substring(): start %d is negative" [AInt start]
  else if n <? start then serr "substring(): start out of range (length %d)" [AInt n]
  else match end_ with
       | None => Ok (StringVal (sor (drop (Z.to_nat start) rs)))
       | Some e =>
           if e <? start then serr "substring(): end %d is before start %d" [AInt e; AInt start]
           else if n <? e then serr "substring(): end out of range (length %d)" [AInt n]
           else Ok (StringVal (sor (take (Z.to_nat (e - start)) (drop (Z.to_nat start) rs))))
       end.

Section Runes.
Context {L : Limits}.
Variable rs : list Z.
Hypothesis Hrs : validRunes rs.
Hypothesis Hsize : slen (sor rs) <= maxInt64.

Lemma requireIndex_int name what n i : int64_range n -> requireIndex name what (VInt n) i = Ok n.
Proof.
  intros [H1 H2]. unfold requireIndex. cbn [requireInt rbind]. rewrite (proj2 (Z.ltb_ge _ _)), (proj2 (Z.ltb_ge _ _)) by lia. done.
Qed.

Lemma requireString_val name s i : requireString name (StringVal s) i = Ok s.
Proof. done. Qed.

Lemma one_byte_cases :
  (RuneLen (StringVal (sor rs)) =? slen (sor rs)) = true /\ String.length (sor rs) = length rs \/
  (RuneLen (StringVal (sor rs)) =? slen (sor rs)) = false.
Proof.
  rewrite RuneLen_StringVal, runeCount_sor by done. unfold slen.
  destruct (Z.eqb_spec (Z.of_nat (length rs)) (Z.of_nat (String.length (sor rs)))); [left | by right].
  split; [done | lia].
Qed.

Lemma skip_from n : skipRunes (sor rs) 0 n = (offsetOf rs (Nat.min n (length rs)), Nat.min n (length rs)).
Proof.
  pose proof (skipRunes_sor rs Hrs n 0 ltac:(lia)) as H. change (offsetOf rs 0) with 0%nat in H. rewrite H.
  by rewrite Nat.sub_0_r.
Qed.

Lemma found_add from k :
  0 <= from <= Z.of_nat (length rs) -> (forall j, k = Some j -> (j <= length rs - Z.to_nat from)%nat) ->
  match k with None => Ok (E := message) (IntVal (-1)) | Some j => Ok (IntVal (add64 from (Z.of_nat j))) end =
  Ok (IntVal (found (option_map (Nat.add (Z.to_nat from)) k))).
Proof.
  intros Hf Hk. destruct k as [j | ]; [ | done]. specialize (Hk j eq_refl). simpl. do 2 f_equal. unfold add64.
  pose proof (sor_length rs Hrs). unfold slen in Hsize. rewrite wrap64_id; [lia | ].
  unfold int64_range, minInt64, maxInt64 in *. lia.
Qed.

Lemma indexOf_from ps from :
  validRunes ps -> int64_range from ->
  indexOfFn [StringVal (sor rs); StringVal (sor ps); VInt from] = indexOfRunes rs ps from.
Proof.
  intros Hp Hf. unfold indexOfFn, indexOfRunes. cbn [length Nat.ltb Nat.leb]. rewrite !requireString_val. cbn [rbind].
  rewrite requireIndex_int by done. cbn [rbind]. destruct (Z.ltb_spec from 0); [done | ].
  destruct one_byte_cases as [[-> Hl] | ->].
  - unfold slen. rewrite Hl. destruct (Z.ltb_spec (Z.of_nat (length rs)) from); [done | ].
    rewrite sdrop_runes, index_runes by (auto; lia). rewrite <- found_add; [ | lia | ].
    + destruct (runeFind (drop (Z.to_nat from) rs) ps) as [k | ] eqn:E; [ | done]. simpl. do 3 f_equal.
      apply runeFind_bound in E. rewrite length_drop in E.
      pose proof (sor_length (take k (drop (Z.to_nat from) rs)) ltac:(auto)) as H1.
      pose proof (sor_length (drop k (drop (Z.to_nat from) rs)) ltac:(auto)) as H2.
      pose proof (sor_length (take (Z.to_nat from) rs) ltac:(auto)) as H3.
      rewrite <- (take_drop (Z.to_nat from) rs), <- (take_drop k (drop (Z.to_nat from) rs)) in Hl.
      rewrite !string_of_runes_app, !string_length_app, !length_app in Hl.
      unfold offsetOf. rewrite !length_take, !length_drop in *. lia.
    + intros j E%runeFind_bound. by rewrite length_drop in E.
  - rewrite skip_from. destruct (Z.ltb_spec (Z.of_nat (length rs)) from).
    + rewrite Nat.min_r by lia. destruct (Z.ltb_spec (Z.of_nat (length rs)) from); [done | lia].
    + rewrite Nat.min_l by lia. rewrite Z2Nat.id by lia. rewrite Z.ltb_irrefl, sdrop_offset, index_runes by auto.
      rewrite <- found_add; [ | lia | intros j E%runeFind_bound; by rewrite length_drop in E].
      destruct (runeFind (drop (Z.to_nat from) rs) ps) as [k | ] eqn:E; [ | done]. simpl. do 4 f_equal.
      rewrite stake_offset, runeCount_sor, length_take by auto. apply runeFind_bound in E. lia.
Qed.

Lemma substring_start start :
  int64_range start -> substringFn [StringVal (sor rs); VInt start] = substringRunes rs start None.
Proof.
  intros Hs. unfold substringFn, substringRunes. cbn [length Nat.ltb Nat.leb]. rewrite !requireString_val. cbn [rbind].
  rewrite requireIndex_int by done. cbn [rbind]. destruct (Z.ltb_spec start 0); [done | ].
  destruct one_byte_cases as [[-> Hl] | ->].
  - unfold slen. rewrite Hl. destruct (Z.ltb_spec (Z.of_nat (length rs)) start); [done | ].
    by rewrite sdrop_runes by (auto; lia).
  - rewrite skip_from. destruct (Z.ltb_spec (Z.of_nat (length rs)) start).
    + rewrite Nat.min_r by lia. destruct (Z.ltb_spec (Z.of_nat (length rs)) start); [done | lia].
    + rewrite Nat.min_l, Z2Nat.id, Z.ltb_irrefl, sdrop_offset by lia. done.
Qed.

Lemma substring_end start end_ :
  int64_range start -> int64_range end_ ->
  substringFn [StringVal (sor rs); VInt start; VInt end_] = substringRunes rs start (Some end_).
Proof.
  intros Hs He. unfold substringFn, substringRunes. cbn [length Nat.ltb Nat.leb]. rewrite !requireString_val. cbn [rbind].
  rewrite !requireIndex_int by done. cbn [rbind]. destruct (Z.ltb_spec start 0); [done | ].
  destruct one_byte_cases as [[-> Hl] | ->].
  - unfold slen. rewrite Hl. destruct (Z.ltb_spec (Z.of_nat (length rs)) start); [done | ].
    destruct (Z.ltb_spec end_ start); [done | ]. destruct (Z.ltb_spec (Z.of_nat (length rs)) end_); [done | ].
    rewrite sdrop_runes by (auto; lia). do 2 f_equal. rewrite <- stake_offset. f_equal.
    assert (String.length (sor (drop (Z.to_nat start) rs)) = length (drop (Z.to_nat start) rs)) as Hd.
    { rewrite <- sdrop_runes by (auto; lia). rewrite sdrop_length, length_drop. lia. }
    rewrite offset_one_byte, length_drop by auto. lia.
  - rewrite skip_from. destruct (Z.ltb_spec (Z.of_nat (length rs)) start).
    + rewrite Nat.min_r by lia. destruct (Z.ltb_spec (Z.of_nat (length rs)) start); [done | lia].
    + rewrite Nat.min_l, Z2Nat.id, Z.ltb_irrefl by lia. destruct (Z.ltb_spec end_ start); [done | ].
      rewrite skipRunes_sor by (done || lia).
      replace (Z.to_nat start + Z.to_nat (end_ - start))%nat with (Z.to_nat end_) by lia.
      destruct (Z.ltb_spec (Z.of_nat (length rs)) end_).
      * rewrite Nat.min_r by lia. destruct (Z.ltb_spec (Z.of_nat (length rs - Z.to_nat start)) (end_ - start)); [ | lia].
        unfold serr. do 4 f_equal. lia.
      * rewrite Nat.min_l by lia. destruct (Z.ltb_spec (Z.of_nat (Z.to_nat end_ - Z.to_nat start)) (end_ - start)); [lia | ].
        do 2 f_equal. rewrite sdrop_offset, <- stake_offset. f_equal.
        unfold offsetOf. rewrite take_drop_commute.
        replace (Z.to_nat start + Z.to_nat (end_ - start))%nat with (Z.to_nat end_) by lia.
        rewrite <- (take_drop (Z.to_nat start) (take (Z.to_nat end_) rs)) at 1.
        rewrite string_of_runes_app, string_length_app, take_take, Nat.min_l by lia. lia.
Qed.
End Runes.

(** ** Sizes *)

Lemma AddInt64_spec a b :
  int64_range a -> int64_range b -> AddInt64 a b = if int64_rangeb (a + b) then (a + b, true) else (0, false).
Proof.
  intros Ha Hb. unfold AddInt64, add64. destruct (int64_rangeb (a + b)) eqn:E.
  - apply int64_rangeb_true in E. rewrite wrap64_id by done. zbool; try done; lia.
  - apply int64_rangeb_false in E. unfold int64_range, minInt64, maxInt64 in *.
    destruct (Z.lt_ge_cases (a + b) 0).
    + rewrite wrap64_low by lia. zbool; try done; lia.
    + rewrite wrap64_high by lia. zbool; try done; lia.
Qed.

(** For the products the library computes: a count and a difference of lengths. *)
Lemma MulInt64_spec a b :
  0 <= a <= maxInt64 -> int64_range b ->
  MulInt64 a b = if int64_rangeb (a * b) then (a * b, true) else (0, false).
Proof.
  intros Ha Hb. unfold MulInt64. destruct (Z.eqb_spec a 0) as [-> | Ha0]; [done | ].
  destruct (Z.eqb_spec b 0) as [-> | Hb0]; [by rewrite Z.mul_0_r | ]. cbn [orb].
  assert (Hp : quot64 (mul64 a b) b = a <-> int64_range (a * b)).
  { unfold mul64. rewrite (Z.mul_comm a b). apply mul64_probe; try done; unfold int64_range, minInt64, maxInt64 in *; lia. }
  destruct (int64_rangeb (a * b)) eqn:E.
  - apply int64_rangeb_true in E. rewrite (proj2 Hp E), Z.eqb_refl. unfold mul64. rewrite wrap64_id by done.
    rewrite (proj2 (Z.ltb_ge a 0)) by lia. assert ((a * b <? 0) = (b <? 0)) as -> by (zbool; try done; nia).
    by destruct (b <? 0).
  - apply int64_rangeb_false in E. destruct (Z.eqb_spec (quot64 (mul64 a b) b) a) as [Hq | ]; [tauto | ].
    by rewrite orb_true_r.
Qed.

Lemma byteLen_app a b : slen (a +:+ b) = slen a + slen b.
Proof. unfold slen. rewrite string_length_app. lia. Qed.

Lemma slen_parts n s : slen (stake n s) + slen (sdrop n s) = slen s.
Proof. rewrite <- byteLen_app. by rewrite stake_sdrop. Qed.

Lemma index_spec s p j : index s p = Some j -> s = stake j s +:+ p +:+ sdrop (j + String.length p) s.
Proof.
  revert j. induction s as [ | c s IH]; intros j; cbn [index].
  - destruct (String.prefix p "") eqn:E; [ | done]. intros [= <-]. apply prefix_spec in E as [x E].
    destruct p; [by destruct x | done].
  - destruct (String.prefix p (String c s)) eqn:E.
    + intros [= <-]. apply prefix_spec in E as [x ->]. cbn [stake Nat.add]. by rewrite sdrop_app_all.
    + destruct (index s p) as [i | ]; [ | done]. intros [= <-]. cbn [Nat.add stake sdrop].
      change (String c s = String c (stake i s +:+ p +:+ sdrop (i + String.length p) s)). by rewrite <- IH.
Qed.

Lemma index_slen s p j : index s p = Some j -> slen (stake j s) + slen p + slen (sdrop (j + String.length p) s) = slen s.
Proof.
  intros E%index_spec. apply (f_equal slen) in E. rewrite !byteLen_app in E. lia.
Qed.

Lemma replaceLoop_empty n : forall first s new, slen (replaceLoop n first s "" new) = slen s + Z.of_nat n * slen new.
Proof.
  induction n as [ | n IH]; intros first s new; cbn [replaceLoop]; [lia | ].
  cbn [String.eqb String.length]. rewrite Nat.add_0_r, !byteLen_app, IH.
  pose proof (slen_parts (if first then 0%nat else (decodeRune s).2) s). lia.
Qed.

Lemma replaceLoop_size old new : old <> "" -> forall fuel first s,
  slen (replaceLoop (countLoop fuel s old) first s old new) = slen s + Z.of_nat (countLoop fuel s old) * (slen new - slen old).
Proof.
  intros Ho. apply String.eqb_neq in Ho. induction fuel as [ | fuel IH]; intros first s; cbn [countLoop replaceLoop]; [lia | ].
  destruct (index s old) as [j | ] eqn:E; cbn [replaceLoop]; [ | lia].
  rewrite Ho, E, !byteLen_app, IH. pose proof (index_slen _ _ _ E). lia.
Qed.

Lemma ReplaceAll_size s old new :
  slen (ReplaceAll s old new) = slen s + Z.of_nat (count s old) * (slen new - slen old).
Proof.
  unfold ReplaceAll, count. destruct (String.eqb_spec old new) as [-> | ]; [lia | ].
  destruct (String.eqb_spec old "") as [-> | Ho].
  - rewrite replaceLoop_empty. change (slen "") with 0. lia.
  - by apply replaceLoop_size.
Qed.

Lemma slen_nonneg s : 0 <= slen s.
Proof. unfold slen. lia. Qed.

Lemma runes_le_fuel fuel s : (length (runes_fuel fuel s) <= fuel)%nat.
Proof.
  revert s. induction fuel as [ | fuel IH]; intros [ | c s]; cbn [runes_fuel length]; try lia.
  destruct (decodeRune (String c s)) as [r w]. cbn [length]. specialize (IH (sdrop w (String c s))). lia.
Qed.

Lemma count_bound s old : Z.of_nat (count s old) <= slen s + 1 /\ (old <> "" -> Z.of_nat (count s old) * slen old <= slen s).
Proof.
  unfold count, slen. destruct (String.eqb_spec old "") as [-> | Ho].
  - pose proof (runes_le_fuel (String.length s) s). unfold RuneCountInString, runes_of_string. split; [lia | done].
  - assert (H : forall fuel t, Z.of_nat (countLoop fuel t old) * slen old <= slen t).
    { induction fuel as [ | fuel IH]; intros t; cbn [countLoop]; [unfold slen; lia | ].
      destruct (index t old) as [j | ] eqn:E; [ | unfold slen; lia].
      pose proof (index_slen _ _ _ E). specialize (IH (sdrop (j + String.length old) t)).
      pose proof (slen_nonneg (stake j t)). lia. }
    specialize (H (String.length s) s). unfold slen in H. assert (1 <= Z.of_nat (String.length old)) by (destruct old; [done | simpl; lia]).
    split; [nia | done].
Qed.

Section Sizes.
Context {L : Limits}.

(** A Go string: shorter than the largest int. *)
Definition goString (s : string) : Prop := slen s < maxInt64.

Lemma replace_size_exact s old new :
  goString s -> goString old -> goString new ->
  replaceFn [StringVal s; StringVal old; StringVal new] =
    if maxRepeatBytes <? slen (ReplaceAll s old new)
    then serr "replace(): result exceeds the %d-byte limit" [AInt maxRepeatBytes]
    else Ok (StringVal (ReplaceAll s old new)).
Proof.
  unfold goString. intros Hs Ho Hn. unfold replaceFn. rewrite !requireString_val. cbn [rbind].
  destruct (count_bound s old) as [Hc Hc']. rewrite ReplaceAll_size.
  pose proof (slen_nonneg s). pose proof (slen_nonneg old). pose proof (slen_nonneg new). pose proof MaxStringBytes_bound.
  set (n := Z.of_nat (count s old)) in *. assert (0 <= n) by (unfold n; lia).
  unfold sub64. rewrite wrap64_id by (unfold int64_range, minInt64, maxInt64 in *; lia).
  set (d := slen new - slen old). rewrite MulInt64_spec by (unfold d, int64_range, minInt64, maxInt64 in *; lia).
  assert (Hlow : - slen s <= n * d).
  { destruct (decide (old = "")) as [-> | Hne]; [unfold d; change (slen "") with 0; nia | ]. specialize (Hc' Hne). unfold d. nia. }
  unfold maxRepeatBytes. destruct (int64_rangeb (n * d)) eqn:E1.
  - apply int64_rangeb_true in E1. rewrite AddInt64_spec by (done || unfold int64_range, minInt64, maxInt64 in *; lia).
    destruct (int64_rangeb (slen s + n * d)) eqn:E2; cbn [negb orb]; [done | ].
    apply int64_rangeb_false in E2. unfold int64_range, minInt64, maxInt64 in *.
    destruct (Z.ltb_spec MaxStringBytes (slen s + n * d)); [done | lia].
  - apply int64_rangeb_false in E1. cbn [negb orb]. unfold int64_range, minInt64, maxInt64 in *.
    destruct (Z.ltb_spec MaxStringBytes (slen s + n * d)); [done | lia].
Qed.

Lemma RepeatString_size s n : slen (RepeatString s n) = slen s * Z.of_nat n.
Proof. induction n as [ | n IH]; cbn [RepeatString]; [change (slen "") with 0; lia | ]. rewrite byteLen_app, IH. lia. Qed.

Lemma repeat_size_exact s n :
  goString s -> 0 <= n <= maxInt64 ->
  repeatFn [StringVal s; VInt n] =
    if maxRepeatBytes <? slen s * n
    then serr "repeat(): result of %d bytes exceeds the %d-byte limit" [AInt (mul64 (slen s) n); AInt maxRepeatBytes]
    else Ok (StringVal (RepeatString s (Z.to_nat n))).
Proof.
  unfold goString. intros Hs Hn. unfold repeatFn. rewrite !requireString_val. cbn [rbind requireInt].
  pose proof (slen_nonneg s). pose proof MaxStringBytes_bound. unfold maxRepeatBytes.
  destruct (Z.ltb_spec n 0); [lia | ]. destruct (Z.ltb_spec maxInt64 n); [lia | ].
  destruct (Z.ltb_spec 0 n); [ | replace n with 0 by lia; rewrite Z.mul_0_r; by destruct (Z.ltb_spec MaxStringBytes 0); [lia | ]].
  destruct (Z.ltb_spec 0 (slen s)); [ | replace (slen s) with 0 by lia; by destruct (Z.ltb_spec MaxStringBytes (0 * n)); [lia | ]].
  cbn [andb]. assert (Hp : quot64 (mul64 (slen s) n) n = slen s <-> int64_range (slen s * n)).
  { unfold mul64. rewrite (Z.mul_comm (slen s) n). apply mul64_probe; unfold int64_range, minInt64, maxInt64 in *; lia. }
  destruct (Z.eqb_spec (quot64 (mul64 (slen s) n) n) (slen s)) as [Hq | Hq]; cbn [negb orb].
  - apply Hp in Hq. unfold mul64 at 1. by rewrite wrap64_id by done.
  - destruct (Z.ltb_spec MaxStringBytes (slen s * n)); [done | ]. exfalso. apply Hq, Hp.
    unfold int64_range, minInt64, maxInt64 in *. nia.
Qed.

Definition sumSlen (l : list string) : Z := fold_right (fun s n => slen s + n) 0 l.

Lemma sumSlen_nonneg l : 0 <= sumSlen l.
Proof. induction l as [ | s l IH]; [done | ]. simpl. pose proof (slen_nonneg s). lia. Qed.

Lemma Join_size p l sep : slen (Join (p :: l) sep) = sumSlen (p :: l) + Z.of_nat (length l) * slen sep.
Proof.
  revert p. induction l as [ | q l IH]; intros p; [simpl; lia | ].
  change (Join (p :: q :: l) sep) with (p +:+ sep +:+ Join (q :: l) sep). rewrite !byteLen_app, IH. simpl. lia.
Qed.

Lemma joinElements_spec l : Forall goString l -> forall i total ok,
  (ok = true -> 0 <= total <= maxInt64) ->
  exists total' ok', joinElements i total ok (map StringVal l) = Ok (l, total', ok') /\
    (ok = true -> if ok' then total' = total + sumSlen l /\ total' <= maxInt64 else maxInt64 < total + sumSlen l) /\
    (ok = false -> ok' = false).
Proof.
  induction 1 as [ | s l Hs Hl IH]; intros i total ok Hok.
  - exists total, ok. split; [done | ]. split; [ | done]. intros ->. simpl. specialize (Hok eq_refl). lia.
  - cbn [map]. unfold StringVal at 1. cbn [joinElements]. pose proof (slen_nonneg s). pose proof (sumSlen_nonneg l).
    unfold goString in Hs. destruct ok.
    + specialize (Hok eq_refl). rewrite AddInt64_spec by (unfold int64_range, minInt64, maxInt64 in *; lia).
      destruct (int64_rangeb (total + slen s)) eqn:E.
      * apply int64_rangeb_true in E. destruct (IH (i + 1) (total + slen s) true) as (t & o & -> & H1 & _).
        { intros _. unfold int64_range in E. lia. }
        exists t, o. split; [done | ]. split; [ | done]. intros _. specialize (H1 eq_refl). simpl. destruct o; lia.
      * apply int64_rangeb_false in E. destruct (IH (i + 1) 0 false) as (t & o & -> & _ & H2); [done | ].
        rewrite (H2 eq_refl). exists t, false. split; [done | ]. split; [ | done]. intros _. simpl.
        unfold int64_range, minInt64, maxInt64 in *. lia.
    + destruct (IH (i + 1) total false) as (t & o & -> & _ & H2); [done | ]. rewrite (H2 eq_refl).
      exists t, false. done.
Qed.

Lemma join_size_exact l sep t :
  Forall goString l -> goString sep -> Z.of_nat (length l) <= maxInt64 ->
  joinFn [VList (map StringVal l) t; StringVal sep] =
    if maxRepeatBytes <? slen (Join l sep)
    then serr "join(): result exceeds the %d-byte limit" [AInt maxRepeatBytes]
    else Ok (StringVal (Join l sep)).
Proof.
  intros Hl Hs Hn. unfold joinFn. rewrite requireString_val. cbn [rbind]. rewrite length_map.
  pose proof MaxStringBytes_bound. unfold goString in Hs. pose proof (slen_nonneg sep). unfold maxRepeatBytes.
  assert (Hinit : exists t0 o0, (if (1 <? length l)%nat then MulInt64 (slen sep) (Z.of_nat (length l) - 1) else (0, true)) = (t0, o0) /\
    (if o0 then 0 <= t0 <= maxInt64 /\ slen (Join l sep) = t0 + sumSlen l else maxInt64 < slen (Join l sep))).
  { destruct l as [ | p l]; [exists 0, true; split; [done | ]; split; [unfold maxInt64; lia | done] | ].
    rewrite Join_size. pose proof (sumSlen_nonneg (p :: l)). destruct (Nat.ltb_spec 1 (length (p :: l))); last first.
    { exists 0, true. split; [done | ]. split; [unfold maxInt64; lia | ]. destruct l; [simpl; lia | simpl in *; lia]. }
    replace (Z.of_nat (length (p :: l)) - 1) with (Z.of_nat (length l)) by (simpl; lia). cbn [length] in Hn.
    rewrite MulInt64_spec by (unfold int64_range, minInt64, maxInt64 in *; lia).
    destruct (int64_rangeb (slen sep * Z.of_nat (length l))) eqn:E.
    - apply int64_rangeb_true in E. eexists _, _. split; [done | ]. unfold int64_range in E. split; [nia | lia].
    - apply int64_rangeb_false in E. eexists _, _. split; [done | ]. unfold int64_range, minInt64, maxInt64 in *. nia. }
  destruct Hinit as (t0 & o0 & -> & Hi0). pose proof (sumSlen_nonneg l).
  destruct (joinElements_spec l Hl 0 t0 o0) as (t1 & o1 & -> & Hi1 & Hi2); [destruct o0; [intros _; apply Hi0 | done] | ].
  cbn [rbind]. destruct o0.
  - specialize (Hi1 eq_refl). destruct Hi0 as [Hi0 ->]. destruct o1; cbn [negb orb].
    + destruct Hi1 as [-> _]. done.
    + destruct (Z.ltb_spec MaxStringBytes (t0 + sumSlen l)); [done | ]. unfold maxInt64 in *. lia.
  - rewrite (Hi2 eq_refl). cbn [negb orb]. destruct (Z.ltb_spec MaxStringBytes (slen (Join l sep))); [done | ]. unfold maxInt64 in *. lia.
Qed.
End Sizes.

(** ** Splitting and joining *)

Lemma splitParts_nonempty n s sep : exists p l, splitParts n s sep = p :: l.
Proof. destruct n; simpl; [eauto | ]. destruct (index s sep); eauto. Qed.

Lemma Join_cons p l sep : l <> [] -> Join (p :: l) sep = p +:+ sep +:+ Join l sep.
Proof. by destruct l. Qed.

Lemma Join_splitParts n sep : forall s, Join (splitParts n s sep) sep = s.
Proof.
  induction n as [ | n IH]; intros s; cbn [splitParts]; [done | ]. destruct (index s sep) as [j | ] eqn:E; [ | done].
  rewrite Join_cons; [ | by destruct (splitParts_nonempty n (sdrop (j + String.length sep) s) sep) as (? & ? & ->)].
  rewrite IH. symmetry. by apply index_spec.
Qed.

Lemma replaceLoop_split old new : old <> "" -> forall fuel first s,
  replaceLoop (countLoop fuel s old) first s old new = Join (splitParts (countLoop fuel s old) s old) new.
Proof.
  intros Ho. apply String.eqb_neq in Ho. induction fuel as [ | fuel IH]; intros first s; cbn [countLoop replaceLoop splitParts]; [done | ].
  destruct (index s old) as [j | ] eqn:E; [ | done]. cbn [replaceLoop splitParts]. rewrite Ho, E, IH.
  rewrite Join_cons; [done | ].
  by destruct (splitParts_nonempty (countLoop fuel (sdrop (j + String.length old) s) old) (sdrop (j + String.length old) s) old) as (? & ? & ->).
Qed.

(** Joining undoes splitting, and replacing is splitting and joining with the new text. *)
Theorem split_join_replace s old new :
  old <> "" -> Join (Split s old) old = s /\ ReplaceAll s old new = Join (Split s old) new.
Proof.
  intros Ho. unfold Split. split; [apply Join_splitParts | ]. unfold ReplaceAll.
  destruct (String.eqb_spec old new) as [<- | ]; [by rewrite Join_splitParts | ].
  unfold count. apply String.eqb_neq in Ho as Ho'. rewrite Ho'. by apply replaceLoop_split.
Qed.

(** ** Theorems *)

Section Claims.
Context {L : Limits}.

(** C22: the strings library computes on runes.  On valid UTF-8 text, indexOf (with and without a start), lastIndexOf,
    contains and startsWith answer as a search of the list of runes for the list of runes, and
    substring returns the runes between its bounds, with the same errors whether the string takes
    the shortcut for one-byte runes or the walk over its bytes. *)
Theorem strings_on_runes (rs ps : list Z) (Hrs : validRunes rs) (Hps : validRunes ps) (Hsize : slen (sor rs) <= maxInt64) :
  let s := StringVal (sor rs) in
  let p := StringVal (sor ps) in
  indexOfFn [s; p] = Ok (IntVal (found (runeFind rs ps))) /\
  lastIndexOfFn [s; p] = Ok (IntVal (found (runeFindLast rs ps))) /\
  containsFn [s; p] = Ok (BoolVal (match runeFind rs ps with Some _ => true | None => false end)) /\
  startsWithFn [s; p] = Ok (BoolVal (runePrefix ps rs)) /\
  (forall from, int64_range from -> indexOfFn [s; p; VInt from] = indexOfRunes rs ps from) /\
  (forall a, int64_range a -> substringFn [s; VInt a] = substringRunes rs a None) /\
  (forall a b, int64_range a -> int64_range b -> substringFn [s; VInt a; VInt b] = substringRunes rs a (Some b)).
Proof.
  intros s p. split; [ | split; [ | split; [ | split; [ | split; [ | split]]]]].
  - unfold indexOfFn. cbn [length Nat.ltb Nat.leb]. unfold s, p. rewrite !requireString_val. cbn [rbind].
    rewrite index_runes, runeIndex_offset; [done | done | | done | done]. by intros j E%runeFind_bound.
  - unfold lastIndexOfFn, withStrings, s, p. rewrite !requireString_val. cbn [rbind].
    rewrite lastIndex_runes, runeIndex_offset; [done | done | | done | done]. by intros j E%runeFindLast_bound.
  - unfold containsFn, withStrings, s, p. rewrite !requireString_val. cbn [rbind]. rewrite index_runes by done.
    by destruct (runeFind rs ps).
  - unfold startsWithFn, withStrings, s, p. rewrite !requireString_val. cbn [rbind]. by rewrite prefix_runes.
  - intros from Hf. by apply indexOf_from.
  - intros a Ha. by apply substring_start.
  - intros a b Ha Hb. by apply substring_end.
Qed.

(** C33: the size checks of the strings library are exact.  For strings and counts of Go's sizes,
    replace, repeat and join return the whole result when it is at most the limit, and the limit error
    exactly when it would be longer: the overflow-checked size they compute before they allocate
    is the length of the result. *)
Theorem strings_sizes_exact (s old new sep : string) (n : Z) (l : list string) (t : option Typ)
    (Hs : goString s) (Ho : goString old) (Hn : goString new) (Hsep : goString sep)
    (Hc : 0 <= n <= maxInt64) (Hl : Forall goString l) (Hll : Z.of_nat (length l) <= maxInt64) :
  replaceFn [StringVal s; StringVal old; StringVal new] =
    (if maxRepeatBytes <? slen (ReplaceAll s old new)
     then serr "replace(): result exceeds the %d-byte limit" [AInt maxRepeatBytes]
     else Ok (StringVal (ReplaceAll s old new))) /\
  repeatFn [StringVal s; VInt n] =
    (if maxRepeatBytes <? slen s * n
     then serr "repeat(): result of %d bytes exceeds the %d-byte limit" [AInt (mul64 (slen s) n); AInt maxRepeatBytes]
     else Ok (StringVal (RepeatString s (Z.to_nat n)))) /\
  joinFn [VList (map StringVal l) t; StringVal sep] =
    (if maxRepeatBytes <? slen (Join l sep)
     then serr "join(): result exceeds the %d-byte limit" [AInt maxRepeatBytes]
     else Ok (StringVal (Join l sep))).
Proof.
  split; [by apply replace_size_exact | ]. split; [by apply repeat_size_exact | by apply join_size_exact].
Qed.
End Claims.

(** "aé€a" and "€": runes of one, two and three bytes. *)
Lemma strings_on_runes_witness :
  indexOfFn [StringVal (sor [97; 233; 8364; 97]); StringVal (sor [8364])] = Ok (IntVal 2) /\
  substringFn [StringVal (sor [97; 233; 8364; 97]); VInt 1; VInt 3] = Ok (StringVal (sor [233; 8364])).
Proof.
  assert (Hz : slen (sor [97; 233; 8364; 97]) <= maxInt64) by (by apply Z.leb_le).
  assert (H1 : validRunes [97; 233; 8364; 97]) by (repeat constructor).
  assert (H2 : validRunes [8364]) by (repeat constructor).
  destruct (strings_on_runes [97; 233; 8364; 97] [8364] H1 H2 Hz) as (E1 & _ & _ & _ & _ & _ & E7).
  split; [exact E1 | ]. apply (E7 1 3); by apply int64_rangeb_true.
Defined.

Lemma strings_sizes_exact_witness :
  @replaceFn limits_std [StringVal "a.b.c"; StringVal "."; StringVal "::"] = Ok (StringVal "a::b::c") /\
  @joinFn limits_std [VList (map StringVal ["a"; "b"]) None; StringVal "-"] = Ok (StringVal "a-b").
Proof.
  assert (H1 : goString "a.b.c") by (by apply Z.ltb_lt).
  assert (H2 : goString ".") by (by apply Z.ltb_lt).
  assert (H3 : goString "::") by (by apply Z.ltb_lt).
  assert (H4 : goString "-") by (by apply Z.ltb_lt).
  assert (H5 : 0 <= 0 <= maxInt64) by (unfold maxInt64; lia).
  assert (H6 : Forall goString ["a"; "b"]) by (repeat constructor; by apply Z.ltb_lt).
  assert (H7 : Z.of_nat (length ["a"; "b"]) <= maxInt64) by (by apply Z.leb_le).
  destruct (@strings_sizes_exact limits_std "a.b.c" "." "::" "-" 0 ["a"; "b"] None H1 H2 H3 H4 H5 H6 H7) as (E1 & _ & E3).
  split; [exact E1 | exact E3].
Defined.
