(* ===== verification/Asn1.v ===== *)
(** * The asn1 library (internal/lib/asn1: asn1codec.go, asn1lib.go)

    BER decoding and DER encoding of element trees.  An element is an object that never
    changes, lives at an address of [Heap] and may be a child of several others; an
    [asn1.Value] is an opaque object that holds such an address.  A builtin that makes an element
    adds it at the end of the heap.  A tail of the input stands for the slice and the index
    the decoder reads at.  [None] marks fuel that ran out; Asn1Facts shows that the fuel
    given is always enough. *)

From Stdlib Require Import Ascii.
From S2P Require Import Prelude GoInt GoSort Utf8 Strconv Limits Types Value Strings.
Open Scope string_scope.
Open Scope list_scope.
Open Scope Z_scope.
Open Scope go_scope.

(** ** Elements *)

Definition classUniversal : Z := 0.
Definition classApplication : Z := 1.
Definition classContext : Z := 2.
Definition classPrivate : Z := 3.

Definition tagBoolean : Z := 1.
Definition tagInteger : Z := 2.
Definition tagBitString : Z := 3.
Definition tagOctetString : Z := 4.
Definition tagNull : Z := 5.
Definition tagOID : Z := 6.
Definition tagEnumerated : Z := 10.
Definition tagUTF8String : Z := 12.
Definition tagSequence : Z := 16.
Definition tagSet : Z := 17.
Definition tagPrintableString : Z := 19.
Definition tagIA5String : Z := 22.
Definition tagUTCTime : Z := 23.
Definition tagGeneralizedTime : Z := 24.

Definition maxTagNumber : Z := Z.shiftl 1 24.
Definition maxOIDArc : Z := Z.shiftl 1 57 - 1.

Definition Addr : Type := nat.

Record elem := mkElem {
  elemClass : Z;
  elemConstructed : bool;
  elemTag : Z;
  elemContent : list Z;
  elemChildren : list Addr }.

Definition Heap : Type := list elem.

Definition uint8 (n : Z) : Z := n mod 2 ^ 8.
Definition int32 (n : Z) : Z := (n + 2 ^ 31) mod 2 ^ 32 - 2 ^ 31.
Definition uint64 (n : Z) : Z := n mod 2 ^ 64.

Definition nilElem : elem := mkElem 0 false 0 [] [].
Definition load (h : Heap) (e : Addr) : elem := nth e h nilElem.

(** [makeElem]: a new element at the end of the heap. *)
Definition makeElem (class tag : Z) (constructed : bool) (content : list Z) (children : list Addr) (h : Heap) : Addr * Heap :=
  (length h, h ++ [mkElem (uint8 class) constructed (int32 tag) content children]).

(** A result that can also run out of fuel. *)
Abbreviation fres A := (option (result message A)) (only parsing).

Definition fbind {A B} (m : fres A) (k : A -> fres B) : fres B :=
  match m with
  | Some (Ok x) => k x
  | Some (Err e) => Some (Err e)
  | None => None
  end.
Notation "'let!' x ':=' m 'in' k" := (fbind m (fun x => k))
  (at level 10, x pattern, m at level 200, k at level 200, format "'let!'  x  ':='  m  'in' '//' k") : go_scope.

Definition ferr {A} (fmt : string) (args : list fmtarg) : fres A := Some (Err (Sprintf fmt args)).
Definition aerr {A} (fmt : string) (args : list fmtarg) : result message A := Err (Sprintf fmt args).
Definition lenZ {A} (l : list A) : Z := Z.of_nat (length l).

(** ** Contents *)

(** [base128]: the octets from the last to the first, then reversed with continuation bits. *)
Fixpoint base128Loop (fuel : nat) (v : Z) : list Z :=
  match fuel with
  | O => []
  | S fuel => if 0 <? v then uint8 (Z.land v 127) :: base128Loop fuel (Z.shiftr v 7) else []
  end.

Definition continued (tmp : list Z) : list Z :=
  match tmp with [] => [] | last :: tmp => rev (last :: map (Z.lor 128) tmp) end.

Definition base128 (v : Z) : list Z := if v =? 0 then [0] else continued (base128Loop 10 v).

(** [encodeLength]. *)
Fixpoint lengthLoop (fuel : nat) (n : Z) (tmp : list Z) : list Z :=
  match fuel with
  | O => tmp
  | S fuel => if 0 <? n then lengthLoop fuel (Z.shiftr n 8) (uint8 (Z.land n 255) :: tmp) else tmp
  end.

Definition encodeLength (n : Z) : list Z :=
  if n <? 128 then [uint8 n]
  else let tmp := lengthLoop 8 n [] in Z.lor 128 (uint8 (lenZ tmp)) :: tmp.

(** [binary.BigEndian.PutUint64]. *)
Definition putUint64 (n : Z) : list Z := map (fun k => Z.land (Z.shiftr n (8 * k)) 255) [7; 6; 5; 4; 3; 2; 1; 0].

(** [encodeIntContent]: octets that only repeat the sign are dropped. *)
Fixpoint dropRedundant (b : list Z) : list Z :=
  match b with
  | x :: (y :: _) as b' =>
      if (x =? 0) && (Z.land y 128 =? 0) then dropRedundant b'
      else if (x =? 255) && negb (Z.land y 128 =? 0) then dropRedundant b'
      else b
  | _ => b
  end.

Definition encodeIntContent (n : Z) : list Z := dropRedundant (putUint64 (uint64 n)).

Definition decodeIntContent (b : list Z) : result message Z :=
  match b with
  | [] => aerr "empty integer content" []
  | b0 :: _ =>
      if (8 <? length b)%nat then aerr "integer does not fit in a 64-bit int" []
      else Ok (fold_left (fun n c => Z.lor (shl64 n 8) c) b (if negb (Z.land b0 128 =? 0) then -1 else 0))
  end.

(** [encodeOID]: the arcs of the dotted text. *)
Fixpoint parseArcs (parts : list string) : result message (list Z) :=
  match parts with
  | [] => Ok []
  | p :: parts =>
      match ParseUint p 10 with
      | Err _ => aerr "OID arc %q is not a non-negative integer" [AStr p]
      | Ok a =>
          if maxOIDArc <? a then aerr "OID arc %d exceeds the maximum sub-identifier" [AInt a]
          else let? arcs := parseArcs parts in Ok (a :: arcs)
      end
  end.

Definition encodeOID (dotted : string) : result message (list Z) :=
  let parts := Split dotted "." in
  if (length parts <? 2)%nat then aerr "OID %q needs at least two arcs" [AStr dotted]
  else
    let? arcs := parseArcs parts in
    match arcs with
    | a0 :: a1 :: arcs =>
        if 2 <? a0 then aerr "OID first arc must be 0, 1, or 2 (got %d)" [AInt a0]
        else if (a0 <? 2) && (40 <=? a1)
        then aerr "OID second arc must be < 40 when the first is 0 or 1 (got %d)" [AInt a1]
        else Ok (base128 (uint64 (a0 * 40 + a1)) ++ concat (map base128 arcs))
    | _ => Ok []
    end.

(** [decodeOID]: both loops in one; [inside] holds between the octets of one sub-identifier. *)
Fixpoint decodeArcs (v : Z) (inside : bool) (b : list Z) : result message (list Z) :=
  match b with
  | [] => if inside then aerr "truncated OID sub-identifier" [] else Ok []
  | c :: b =>
      if maxOIDArc <? v then aerr "OID sub-identifier too large" []
      else
        let v := Z.lor (uint64 (Z.shiftl v 7)) (Z.land c 127) in
        if Z.land c 128 =? 0 then let? arcs := decodeArcs 0 false b in Ok (v :: arcs)
        else decodeArcs v true b
  end.

Fixpoint dotted (arcs : list Z) : string :=
  match arcs with
  | [] => ""
  | a :: arcs => "." +:+ FormatInt a +:+ dotted arcs
  end.

Definition decodeOID (b : list Z) : result message string :=
  match b with
  | [] => aerr "empty OID content" []
  | _ =>
      let? arcs := decodeArcs 0 false b in
      match arcs with
      | [] => Ok ""
      | first :: arcs =>
          let '(a0, a1) := if first <? 80 then (first / 40, first mod 40) else (2, first - 80) in
          Ok (FormatInt a0 +:+ "." +:+ FormatInt a1 +:+ dotted arcs)
      end
  end.

(** ** Decoding *)

(** A high tag number. *)
Fixpoint highTag (t : Z) (rest : list Z) : result message (Z * list Z) :=
  match rest with
  | [] => aerr "asn1.decode: truncated high-tag-number identifier" []
  | c :: rest =>
      let t := Z.lor (uint64 (Z.shiftl t 7)) (Z.land c 127) in
      if maxTagNumber <? t then aerr "asn1.decode: tag number too large" []
      else if Z.land c 128 =? 0 then Ok (t, rest) else highTag t rest
  end.

(** The octets of a long length; [avail] is the length of the whole input. *)
Fixpoint longLength (k : nat) (length_ avail : Z) (rest : list Z) : result message (Z * list Z) :=
  match k with
  | O => Ok (length_, rest)
  | S k =>
      match rest with
      | [] => aerr "asn1.decode: truncated long-form length" []
      | c :: rest =>
          let length_ := Z.lor (uint64 (Z.shiftl length_ 8)) c in
          if avail <? length_ then aerr "asn1.decode: length exceeds the available data" []
          else longLength k length_ avail rest
      end
  end.

(** The length octets; [None] is the indefinite form. *)
Definition readLength (avail : Z) (rest : list Z) : result message (option Z * list Z) :=
  match rest with
  | [] => aerr "asn1.decode: missing length octet" []
  | l0 :: rest =>
      if Z.land l0 128 =? 0 then Ok (Some l0, rest)
      else
        let n := Z.land l0 127 in
        if n =? 0 then Ok (None, rest)
        else if 8 <? n then aerr "asn1.decode: length field of %d octets is unsupported" [AInt n]
        else let? (len, rest) := longLength (Z.to_nat n) 0 avail rest in Ok (Some len, rest)
  end.

(** The identifier octets: class, constructed, tag. *)
Definition readIdent (b0 : Z) (rest : list Z) : result message (Z * bool * Z * list Z) :=
  let class := Z.shiftr b0 6 in
  let constructed := negb (Z.land b0 32 =? 0) in
  let tag := Z.land b0 31 in
  if tag =? 31 then let? (t, rest) := highTag 0 rest in Ok (class, constructed, t, rest)
  else Ok (class, constructed, tag, rest).

(** An element's address, the rest of the input, the node count and the heap. *)
Abbreviation decoded := (Addr * list Z * Z * Heap)%type (only parsing).

(** The children of a definite length. *)
Fixpoint definiteLoop (dec : list Z -> Z -> Heap -> fres decoded) (fuel : nat) (cdata : list Z) (nodes : Z) (h : Heap)
    : fres (list Addr * Z * Heap) :=
  match cdata with
  | [] => Some (Ok ([], nodes, h))
  | _ =>
      match fuel with
      | O => None
      | S fuel =>
          let! (child, r, nodes, h) := dec cdata nodes h in
          let! (children, nodes, h) := definiteLoop dec fuel r nodes h in
          Some (Ok (child :: children, nodes, h))
      end
  end.

(** [len(rest) >= 2 && rest[0] == 0 && rest[1] == 0], and what follows. *)
Definition endOfContents (rest : list Z) : option (list Z) :=
  match rest with b0 :: b1 :: r => if (b0 =? 0) && (b1 =? 0) then Some r else None | _ => None end.

(** The children of an indefinite length, up to the two zero octets. *)
Fixpoint indefiniteLoop (dec : list Z -> Z -> Heap -> fres decoded) (fuel : nat) (rest : list Z) (nodes : Z) (h : Heap)
    : fres (list Addr * list Z * Z * Heap) :=
  match endOfContents rest with
  | Some r => Some (Ok ([], r, nodes, h))
  | None =>
      match rest with
      | [] => ferr "asn1.decode: unterminated indefinite-length element" []
      | _ =>
          match fuel with
          | O => None
          | S fuel =>
              let! (child, r, nodes, h) := dec rest nodes h in
              let! (children, r, nodes, h) := indefiniteLoop dec fuel r nodes h in
              Some (Ok (child :: children, r, nodes, h))
          end
      end
  end.

(** What the encoder measures of an element, and its memo. *)
Record measured := mkMeasured { m_content : Z; m_total : Z; m_height : Z }.
Abbreviation Seen := (gmap Addr measured) (only parsing).

Section Limited.
Context {L : Limits}.

Definition maxNodes : Z := MaxDecodedNodes.

Fixpoint decodeOne (fuel : nat) (depth : Z) (data : list Z) (nodes : Z) (h : Heap) {struct fuel} : fres decoded :=
  match fuel with
  | O => None
  | S fuel =>
      if MaxNestingDepth <? depth then ferr "asn1.decode: nesting deeper than the %d-level limit" [AInt MaxNestingDepth]
      else
        let nodes := nodes + 1 in
        if maxNodes <? nodes
        then ferr "asn1.decode: more than %d elements (input rejected as a decode bomb)" [AInt maxNodes]
        else
          match data with
          | b0 :: (_ :: _) as rest =>
              let! (class, constructed, tag, rest) := Some (readIdent b0 rest) in
              let! (len, rest) := Some (readLength (lenZ data) rest) in
              match len with
              | None =>
                  if negb constructed then ferr "asn1.decode: indefinite length on a primitive element" []
                  else
                    let! (children, rest, nodes, h) := indefiniteLoop (decodeOne fuel (depth + 1)) (length rest) rest nodes h in
                    let '(e, h) := makeElem class tag true [] children h in
                    Some (Ok (e, rest, nodes, h))
              | Some contentLen =>
                  if lenZ rest <? contentLen
                  then ferr "asn1.decode: element length %d exceeds the %d available bytes" [AInt contentLen; AInt (lenZ rest)]
                  else
                    let content := take (Z.to_nat contentLen) rest in
                    let rest := drop (Z.to_nat contentLen) rest in
                    if constructed then
                      let! (children, nodes, h) := definiteLoop (decodeOne fuel (depth + 1)) (length content) content nodes h in
                      let '(e, h) := makeElem class tag true [] children h in
                      Some (Ok (e, rest, nodes, h))
                    else
                      let '(e, h) := makeElem class tag false content [] h in
                      Some (Ok (e, rest, nodes, h))
              end
          | _ => ferr "asn1.decode: truncated element (need at least an identifier and a length octet)" []
          end
  end.

(** One level of recursion per level of nesting, and one more to reject the next. *)
Definition depthFuel : nat := Z.to_nat MaxNestingDepth + 2.

Definition decodeTree (data : list Z) (h : Heap) : fres (Addr * Heap) :=
  let! (e, rest, _, h) := decodeOne depthFuel 0 data 0 h in
  if negb (lenZ rest =? 0)
  then ferr "asn1.decode: %d trailing byte(s) after the top-level element" [AInt (lenZ rest)]
  else Some (Ok (e, h)).

(** ** Encoding *)

Definition headerLen (e : elem) (n : Z) : Z :=
  (if 31 <=? elemTag e then 1 + lenZ (base128 (uint64 (elemTag e))) else 1) + lenZ (encodeLength n).

Definition errEncodeDepth {A} : result message A :=
  aerr "asn1.encode: nesting deeper than the %d-level limit" [AInt MaxNestingDepth].

(** The loop of [measure] over the children: content length and height so far. *)
Fixpoint measureChildren (rec : Addr -> Seen -> fres (measured * Seen)) (cs : list Addr) (content height : Z) (seen : Seen)
    : fres (Z * Z * Seen) :=
  match cs with
  | [] => Some (Ok (content, height, seen))
  | ch :: cs =>
      let! (cm, seen) := rec ch seen in
      let '(content, ok) := AddInt64 content (m_total cm) in
      if negb ok then ferr "asn1.encode: encoding size overflows" []
      else measureChildren rec cs content (Z.max height (m_height cm + 1)) seen
  end.

Definition checkHeight (depth : Z) (m : measured) (seen : Seen) : fres (measured * Seen) :=
  if MaxNestingDepth <? depth + m_height m then Some errEncodeDepth else Some (Ok (m, seen)).

Fixpoint measure (fuel : nat) (h : Heap) (depth : Z) (e : Addr) (seen : Seen) {struct fuel} : fres (measured * Seen) :=
  match fuel with
  | O => None
  | S fuel =>
      match seen !! e with
      | Some m => checkHeight depth m seen
      | None =>
          if MaxNestingDepth <? depth then Some errEncodeDepth
          else
            let x := load h e in
            let! (content, height, seen) :=
              (if elemConstructed x then measureChildren (measure fuel h (depth + 1)) (elemChildren x) 0 0 seen
               else Some (Ok (lenZ (elemContent x), 0, seen))) in
            let '(total, ok) := AddInt64 (headerLen x content) content in
            if negb ok then ferr "asn1.encode: encoding size overflows" []
            else
              let m := mkMeasured content total height in
              checkHeight depth m (<[e := m]> seen)
      end
  end.

(** [bytes.Compare(a, b) < 0]. *)
Fixpoint bytesLess (a b : list Z) : bool :=
  match a, b with
  | _, [] => false
  | [], _ :: _ => true
  | x :: a, y :: b => (x <? y) || ((x =? y) && bytesLess a b)
  end.

(** A loop that collects what every child gives. *)
Fixpoint collect {A B} (f : A -> option B) (l : list A) : option (list B) :=
  match l with
  | [] => Some []
  | x :: l => match f x, collect f l with Some y, Some ys => Some (y :: ys) | _, _ => None end
  end.

(** The identifier octets of [write]. *)
Definition identOctets (x : elem) : list Z :=
  let id := Z.lor (uint8 (Z.shiftl (elemClass x) 6)) (if elemConstructed x then 32 else 0) in
  if elemTag x <? 31 then [Z.lor id (uint8 (elemTag x))]
  else Z.lor id 31 :: base128 (uint64 (elemTag x)).

(** [write]: the octets it appends to its buffer. *)
Fixpoint write (fuel : nat) (h : Heap) (seen : Seen) (e : Addr) {struct fuel} : option (list Z) :=
  match fuel with
  | O => None
  | S fuel =>
      let x := load h e in
      let content := match seen !! e with Some m => m_content m | None => 0 end in
      let out := identOctets x ++ encodeLength content in
      if negb (elemConstructed x) then Some (out ++ elemContent x)
      else
        match collect (write fuel h seen) (elemChildren x) with
        | None => None
        | Some parts =>
            if (elemClass x =? classUniversal) && (elemTag x =? tagSet) && (1 <? length (elemChildren x))%nat
            then Some (out ++ concat (sliceStable bytesLess parts))
            else Some (out ++ concat parts)
        end
  end.

Definition encodeTree (h : Heap) (e : Addr) : fres (list Z) :=
  let! (m, seen) := measure depthFuel h 0 e ∅ in
  if MaxAllocBytes <? m_total m then ferr "asn1.encode: encoding exceeds the %d-byte limit" [AInt MaxAllocBytes]
  else match write depthFuel h seen e with Some out => Some (Ok out) | None => None end.

(** ** Equality *)

(** A loop over the children of both sides, as long as they are equal. *)
Fixpoint allEqual (f : Addr -> Addr -> option bool) (l1 l2 : list Addr) : option bool :=
  match l1, l2 with
  | a :: l1, b :: l2 => match f a b with Some true => allEqual f l1 l2 | r => r end
  | _, _ => Some true
  end.

Fixpoint elemEqual (fuel : nat) (h : Heap) (depth : Z) (a b : Addr) {struct fuel} : option bool :=
  match fuel with
  | O => None
  | S fuel =>
      if (a =? b)%nat then Some true
      else
        let x := load h a in
        let y := load h b in
        if negb (elemClass x =? elemClass y) || negb (elemTag x =? elemTag y) ||
           negb (Bool.eqb (elemConstructed x) (elemConstructed y)) || negb (bool_decide (elemContent x = elemContent y)) ||
           negb (length (elemChildren x) =? length (elemChildren y))%nat
        then Some false
        else if MaxNestingDepth <? depth then Some false
        else allEqual (elemEqual fuel h (depth + 1)) (elemChildren x) (elemChildren y)
  end.

Definition EqualNative (h : Heap) (a b : Addr) : option bool := elemEqual depthFuel h 0 a b.
End Limited.

(** ** Names *)

Definition typeName (class tag : Z) : string :=
  if class =? classApplication then "application"
  else if class =? classContext then "context"
  else if class =? classPrivate then "private"
  else if tag =? tagBoolean then "boolean"
  else if tag =? tagInteger then "integer"
  else if tag =? tagBitString then "bitString"
  else if tag =? tagOctetString then "octetString"
  else if tag =? tagNull then "null"
  else if tag =? tagOID then "oid"
  else if tag =? tagEnumerated then "enumerated"
  else if tag =? tagUTF8String then "utf8String"
  else if tag =? tagSequence then "sequence"
  else if tag =? tagSet then "set"
  else if tag =? tagPrintableString then "printableString"
  else if tag =? tagIA5String then "ia5String"
  else if tag =? tagUTCTime then "utcTime"
  else if tag =? tagGeneralizedTime then "generalizedTime"
  else "universal".

Definition quoted (s : string) : string := str1 34 +:+ s +:+ str1 34.

Definition className (s : string) : result message Z :=
  if String.eqb s "universal" then Ok classUniversal
  else if String.eqb s "application" then Ok classApplication
  else if String.eqb s "context" then Ok classContext
  else if String.eqb s "private" then Ok classPrivate
  else aerr ("unknown tag class %q (want " +:+ quoted "universal" +:+ ", " +:+ quoted "application" +:+ ", " +:+ quoted "context" +:+
             ", or " +:+ quoted "private" +:+ ")") [AStr s].

Definition classString (class : Z) : string :=
  if class =? classApplication then "application"
  else if class =? classContext then "context"
  else if class =? classPrivate then "private"
  else "universal".

(** ** Arguments *)

Definition LibraryName : string := "asn1".

Definition wrap (e : Addr) : Value := VObject LibraryName "Value" (Some (e, None)).

(** An address outside the heap holds a payload of another package. *)
Definition takeElem (fnName : string) (h : Heap) (v : Value) : result message Addr :=
  match v with
  | VObject ns name obj =>
      if bool_decide (ns = LibraryName) && bool_decide (name = "Value") then
        match obj with
        | Some (p, None) =>
            if (p <? length h)%nat then Ok p
            else aerr "%s: argument must be an asn1.Value, got %s" [AStr fnName; kindText v]
        | _ => aerr "%s: asn1.Value is empty" [AStr fnName]
        end
      else aerr "%s: argument must be an asn1.Value, got %s" [AStr fnName; kindText v]
  | _ => aerr "%s: argument must be an asn1.Value, got %s" [AStr fnName; kindText v]
  end.

(** One step of [resolvePointer]: the child a token names. *)
Definition childAt (fnName : string) (h : Heap) (cur : Addr) (tok : string) : result message Addr :=
  match ParseInt tok 10 with
  | Ok idx =>
      if idx <? 0 then aerr "%s: pointer token %q is not a child index" [AStr fnName; AStr tok]
      else if negb (elemConstructed (load h cur)) then aerr "%s: cannot index into a primitive element" [AStr fnName]
      else
        match elemChildren (load h cur) !! Z.to_nat idx with
        | Some ch => Ok ch
        | None =>
            aerr "%s: child index %d out of range (%d children)" [AStr fnName; AInt idx; AInt (lenZ (elemChildren (load h cur)))]
        end
  | Err _ => aerr "%s: pointer token %q is not a child index" [AStr fnName; AStr tok]
  end.

Fixpoint walkTokens (fnName : string) (h : Heap) (cur : Addr) (toks : list string) : result message Addr :=
  match toks with
  | [] => Ok cur
  | tok :: toks => let? cur := childAt fnName h cur tok in walkTokens fnName h cur toks
  end.

Definition resolvePointer (fnName : string) (h : Heap) (node : Addr) (ptr : string) : result message Addr :=
  match ptr with
  | "" => Ok node
  | String c ptr' =>
      if negb (Ascii.eqb c "/") then aerr "%s: pointer %q must be empty or start with '/'" [AStr fnName; AStr ptr]
      else walkTokens fnName h node (Split ptr' "/")
  end.

Definition nodeAt (fnName : string) (h : Heap) (args : list Value) : result message Addr :=
  match args with
  | [v] => let? node := takeElem fnName h v in resolvePointer fnName h node ""
  | [v; p] =>
      let? node := takeElem fnName h v in
      match p with
      | VString ptr _ => resolvePointer fnName h node ptr
      | _ => aerr "%s: pointer must be string, got %s" [AStr fnName; kindText p]
      end
  | _ => aerr "%s expects 1 or 2 arguments (asn1.Value[, pointer]), got %d" [AStr fnName; nargs args]
  end.

Definition typeText (x : elem) : fmtarg := AStr (typeName (elemClass x) (elemTag x)).

Definition isUniversal (x : elem) (tag : Z) : bool :=
  (elemClass x =? classUniversal) && (elemTag x =? tag) && negb (elemConstructed x).

Definition requireUniversal (fnName : string) (x : elem) (tag : Z) (want : string) : result message unit :=
  if negb (isUniversal x tag) then aerr "%s: element is %s, not %s" [AStr fnName; typeText x; AStr want] else Ok tt.

(** An error of a content codec behind the builtin's name ([fmt.Errorf("%s: %v", ...)]). *)
Definition behind {A} (fnName : string) (r : result message A) : result message A :=
  match r with
  | Ok a => Ok a
  | Err m => Err (Sprintf ("%s: " +:+ msg_format m) (AStr fnName :: msg_args m))
  end.

(** ** Builtins *)

(** A builtin that reads the heap and leaves it as it is. *)
Definition reads (h : Heap) (r : result message Value) : fres (Value * Heap) :=
  match r with Ok v => Some (Ok (v, h)) | Err e => Some (Err e) end.

(** A builtin that returns a new element. *)
Definition builds (r : result message (Addr * Heap)) : fres (Value * Heap) :=
  match r with Ok (e, h) => Some (Ok (wrap e, h)) | Err e => Some (Err e) end.

Section Builtins.
Context {L : Limits}.

Definition decodeFn (h : Heap) (args : list Value) : fres (Value * Heap) :=
  match args with
  | [VBytes b] => let! (e, h) := decodeTree b h in Some (Ok (wrap e, h))
  | [v] => ferr "asn1.decode: argument must be bytes, got %s" [kindText v]
  | _ => ferr "asn1.decode expects 1 argument (bytes), got %d" [nargs args]
  end.

Definition encodeFn (h : Heap) (args : list Value) : fres (Value * Heap) :=
  match args with
  | [v] =>
      let! e := Some (takeElem "asn1.encode" h v) in
      let! out := encodeTree h e in
      Some (Ok (BytesVal out, h))
  | _ => ferr "asn1.encode expects 1 argument (asn1.Value), got %d" [nargs args]
  end.

Definition typeOfFn (h : Heap) (args : list Value) : fres (Value * Heap) := reads h (
  let? node := nodeAt "asn1.typeOf" h args in
  Ok (StringVal (typeName (elemClass (load h node)) (elemTag (load h node))))).

Definition tagClassFn (h : Heap) (args : list Value) : fres (Value * Heap) := reads h (
  let? node := nodeAt "asn1.tagClass" h args in
  Ok (StringVal (classString (elemClass (load h node))))).

Definition tagNumberFn (h : Heap) (args : list Value) : fres (Value * Heap) := reads h (
  let? node := nodeAt "asn1.tagNumber" h args in
  Ok (IntVal (elemTag (load h node)))).

Definition isConstructedFn (h : Heap) (args : list Value) : fres (Value * Heap) := reads h (
  let? node := nodeAt "asn1.isConstructed" h args in
  Ok (BoolVal (elemConstructed (load h node)))).

Definition getFn (h : Heap) (args : list Value) : fres (Value * Heap) := reads h (
  let? node := nodeAt "asn1.get" h args in
  Ok (wrap node)).

Definition hasFn (h : Heap) (args : list Value) : fres (Value * Heap) := reads h (
  match args with
  | [v; p] =>
      let? node := takeElem "asn1.has" h v in
      match p with
      | VString ptr _ => Ok (BoolVal (is_ok (resolvePointer "asn1.has" h node ptr)))
      | _ => aerr "asn1.has: pointer must be string, got %s" [kindText p]
      end
  | _ => aerr "asn1.has expects 2 arguments (asn1.Value, pointer), got %d" [nargs args]
  end).

Definition lengthFn (h : Heap) (args : list Value) : fres (Value * Heap) := reads h (
  let? node := nodeAt "asn1.length" h args in
  let x := load h node in
  if negb (elemConstructed x) then aerr "asn1.length: element is primitive (%s), not a container" [typeText x]
  else Ok (IntVal (lenZ (elemChildren x)))).

Definition asIntFn (h : Heap) (args : list Value) : fres (Value * Heap) := reads h (
  let? node := nodeAt "asn1.asInt" h args in
  let x := load h node in
  if negb (isUniversal x tagInteger || isUniversal x tagEnumerated)
  then aerr "asn1.asInt: element is %s, not integer or enumerated" [typeText x]
  else let? n := behind "asn1.asInt" (decodeIntContent (elemContent x)) in Ok (IntVal n)).

Definition asBoolFn (h : Heap) (args : list Value) : fres (Value * Heap) := reads h (
  let? node := nodeAt "asn1.asBool" h args in
  let x := load h node in
  let? _ := requireUniversal "asn1.asBool" x tagBoolean "boolean" in
  match elemContent x with
  | [b] => Ok (BoolVal (negb (b =? 0)))
  | b => aerr "asn1.asBool: boolean content must be exactly one octet, got %d" [AInt (lenZ b)]
  end).

(** [utf8.Valid]. *)
Fixpoint validLoop (fuel : nat) (s : string) : bool :=
  match fuel, s with
  | S fuel, String _ _ =>
      let '(r, w) := decodeRune s in negb ((r =? RuneError) && (w =? 1)%nat) && validLoop fuel (sdrop w s)
  | _, _ => true
  end.
Definition validUtf8 (s : string) : bool := validLoop (String.length s) s.

Definition asStringFn (h : Heap) (args : list Value) : fres (Value * Heap) := reads h (
  let? node := nodeAt "asn1.asString" h args in
  let x := load h node in
  if negb (isUniversal x tagUTF8String || isUniversal x tagPrintableString || isUniversal x tagIA5String ||
           isUniversal x tagOctetString)
  then aerr "asn1.asString: element is %s, not a string type" [typeText x]
  else
    let s := string_of_bytes (elemContent x) in
    if negb (validUtf8 s) then aerr "asn1.asString: content is not valid UTF-8 (use asBytes for raw octets)" []
    else Ok (StringVal s)).

Definition asBytesFn (h : Heap) (args : list Value) : fres (Value * Heap) := reads h (
  let? node := nodeAt "asn1.asBytes" h args in
  let x := load h node in
  if elemConstructed x then aerr "asn1.asBytes: element is constructed (%s); it has children, not raw content" [typeText x]
  else Ok (BytesVal (elemContent x))).

Definition asOidFn (h : Heap) (args : list Value) : fres (Value * Heap) := reads h (
  let? node := nodeAt "asn1.asOid" h args in
  let x := load h node in
  let? _ := requireUniversal "asn1.asOid" x tagOID "oid" in
  let? s := behind "asn1.asOid" (decodeOID (elemContent x)) in
  Ok (StringVal s)).

Definition isNullFn (h : Heap) (args : list Value) : fres (Value * Heap) := reads h (
  let? node := nodeAt "asn1.isNull" h args in
  Ok (BoolVal (isUniversal (load h node) tagNull))).

(** ** Constructors *)

Definition oneInt (fnName : string) (args : list Value) : result message Z :=
  match args with
  | [VInt n] => Ok n
  | [v] => aerr "%s: argument must be int, got %s" [AStr fnName; kindText v]
  | _ => aerr "%s expects 1 argument (int), got %d" [AStr fnName; nargs args]
  end.

Definition integerFn (h : Heap) (args : list Value) : fres (Value * Heap) := builds (
  let? n := oneInt "asn1.integer" args in
  Ok (makeElem classUniversal tagInteger false (encodeIntContent n) [] h)).

Definition enumeratedFn (h : Heap) (args : list Value) : fres (Value * Heap) := builds (
  let? n := oneInt "asn1.enumerated" args in
  Ok (makeElem classUniversal tagEnumerated false (encodeIntContent n) [] h)).

Definition booleanFn (h : Heap) (args : list Value) : fres (Value * Heap) := builds (
  match args with
  | [VBool b] => Ok (makeElem classUniversal tagBoolean false [if b then 255 else 0] [] h)
  | _ => aerr "asn1.boolean expects 1 bool argument" []
  end).

Definition nullFn (h : Heap) (args : list Value) : fres (Value * Heap) := builds (
  match args with
  | [] => Ok (makeElem classUniversal tagNull false [] [] h)
  | _ => aerr "asn1.null expects no arguments, got %d" [nargs args]
  end).

Definition oneBytes (fnName : string) (args : list Value) : result message (list Z) :=
  match args with
  | [VBytes b] => Ok b
  | [v] => aerr "%s: argument must be bytes, got %s" [AStr fnName; kindText v]
  | _ => aerr "%s expects 1 argument (bytes), got %d" [AStr fnName; nargs args]
  end.

Definition octetStringFn (h : Heap) (args : list Value) : fres (Value * Heap) := builds (
  let? b := oneBytes "asn1.octetString" args in
  Ok (makeElem classUniversal tagOctetString false b [] h)).

Definition oneString (fnName : string) (args : list Value) : result message string :=
  match args with
  | [VString s _] => Ok s
  | [v] => aerr "%s: argument must be string, got %s" [AStr fnName; kindText v]
  | _ => aerr "%s expects 1 argument (string), got %d" [AStr fnName; nargs args]
  end.

Definition utf8StringFn (h : Heap) (args : list Value) : fres (Value * Heap) := builds (
  let? s := oneString "asn1.utf8String" args in
  Ok (makeElem classUniversal tagUTF8String false (bytesOf s) [] h)).

Definition isPrintableChar (c : Z) : bool :=
  in_range 65 90 c || in_range 97 122 c || in_range 48 57 c || existsb (Z.eqb c) (bytesOf " '()+,-./:=?").

(** The first byte that fails the test, with its index. *)
Fixpoint firstBad (f : Z -> bool) (i : Z) (b : list Z) : option (Z * Z) :=
  match b with
  | [] => None
  | c :: b => if f c then firstBad f (i + 1) b else Some (i, c)
  end.

Definition printableStringFn (h : Heap) (args : list Value) : fres (Value * Heap) := builds (
  let? s := oneString "asn1.printableString" args in
  match firstBad isPrintableChar 0 (bytesOf s) with
  | Some (i, c) =>
      aerr "asn1.printableString: byte %d (%q) is outside the PrintableString set (A-Z a-z 0-9 space '()+,-./:=?)" [AInt i; AInt c]
  | None => Ok (makeElem classUniversal tagPrintableString false (bytesOf s) [] h)
  end).

Definition ia5StringFn (h : Heap) (args : list Value) : fres (Value * Heap) := builds (
  let? s := oneString "asn1.ia5String" args in
  match firstBad (fun c => c <? 128) 0 (bytesOf s) with
  | Some (i, c) => aerr "asn1.ia5String: byte %d (0x%02x) is not ASCII" [AInt i; AInt c]
  | None => Ok (makeElem classUniversal tagIA5String false (bytesOf s) [] h)
  end).

Definition oidFn (h : Heap) (args : list Value) : fres (Value * Heap) := builds (
  let? s := oneString "asn1.oid" args in
  let? content := behind "asn1.oid" (encodeOID s) in
  Ok (makeElem classUniversal tagOID false content [] h)).

Fixpoint childLoop (fnName : string) (h : Heap) (i : Z) (vs : list Value) : result message (list Addr) :=
  match vs with
  | [] => Ok []
  | v :: vs =>
      match takeElem fnName h v with
      | Err _ => aerr "%s: element %d is not an asn1.Value" [AStr fnName; AInt i]
      | Ok e => let? es := childLoop fnName h (i + 1) vs in Ok (e :: es)
      end
  end.

Definition childElems (fnName : string) (h : Heap) (v : Value) : result message (list Addr) :=
  match v with
  | VList vs _ => childLoop fnName h 0 vs
  | _ => aerr "%s: argument must be a list of asn1.Value, got %s" [AStr fnName; kindText v]
  end.

Definition containerFn (fnName : string) (tag : Z) (h : Heap) (args : list Value) : fres (Value * Heap) := builds (
  match args with
  | [v] =>
      let? children := childElems fnName h v in
      Ok (makeElem classUniversal tag true [] children h)
  | _ => aerr "%s expects 1 argument (list of asn1.Value), got %d" [AStr fnName; nargs args]
  end).

Definition sequenceFn : Heap -> list Value -> fres (Value * Heap) := containerFn "asn1.sequence" tagSequence.
Definition setFn : Heap -> list Value -> fres (Value * Heap) := containerFn "asn1.set" tagSet.

Definition classAndTag (fnName : string) (h : Heap) (args : list Value) : result message (Z * Z * Addr) :=
  match args with
  | [c; t; v] =>
      match c with
      | VString s _ =>
          let? class := behind fnName (className s) in
          match t with
          | VInt tag =>
              if (tag <? 0) || (maxTagNumber <? tag)
              then aerr "%s: tagNumber must be between 0 and %d" [AStr fnName; AInt maxTagNumber]
              else let? inner := takeElem fnName h v in Ok (class, tag, inner)
          | _ => aerr "%s: tagNumber must be between 0 and %d" [AStr fnName; AInt maxTagNumber]
          end
      | _ => aerr "%s: class must be a string, got %s" [AStr fnName; kindText c]
      end
  | _ => aerr "%s expects 3 arguments (class, tagNumber, value), got %d" [AStr fnName; nargs args]
  end.

Definition taggedFn (h : Heap) (args : list Value) : fres (Value * Heap) := builds (
  let? (class, tag, inner) := classAndTag "asn1.tagged" h args in
  Ok (makeElem class tag true [] [inner] h)).

Definition retagFn (h : Heap) (args : list Value) : fres (Value * Heap) := builds (
  let? (class, tag, inner) := classAndTag "asn1.retag" h args in
  let x := load h inner in
  Ok (makeElem class tag (elemConstructed x) (elemContent x) (elemChildren x) h)).

(** The registered names ([Install]). *)
Definition asn1Builtins : list (string * (Heap -> list Value -> fres (Value * Heap))) :=
  [("decode", decodeFn); ("encode", encodeFn);
   ("typeOf", typeOfFn); ("tagClass", tagClassFn); ("tagNumber", tagNumberFn); ("isConstructed", isConstructedFn);
   ("get", getFn); ("has", hasFn); ("length", lengthFn); ("asInt", asIntFn); ("asBool", asBoolFn);
   ("asString", asStringFn); ("asBytes", asBytesFn); ("asOid", asOidFn); ("isNull", isNullFn);
   ("integer", integerFn); ("enumerated", enumeratedFn); ("boolean", booleanFn); ("null", nullFn);
   ("octetString", octetStringFn); ("utf8String", utf8StringFn); ("printableString", printableStringFn);
   ("ia5String", ia5StringFn); ("oid", oidFn); ("sequence", sequenceFn); ("set", setFn);
   ("tagged", taggedFn); ("retag", retagFn)].
End Builtins.

(** ** Display *)

(** The content of a primitive element. *)
Definition describeContent (x : elem) : string :=
  if (elemClass x =? classUniversal) && (elemTag x =? tagNull) then ""
  else if (elemClass x =? classUniversal) && (elemTag x =? tagBoolean) && (length (elemContent x) =? 1)%nat
  then if negb (nth 0 (elemContent x) 0 =? 0) then " true" else " false"
  else if (elemClass x =? classUniversal) && ((elemTag x =? tagInteger) || (elemTag x =? tagEnumerated))
  then match decodeIntContent (elemContent x) with Ok n => " " +:+ FormatInt n | Err _ => "" end
  else if (elemClass x =? classUniversal) && (elemTag x =? tagOID)
  then match decodeOID (elemContent x) with Ok s => " " +:+ s | Err _ => "" end
  else " (" +:+ FormatInt (lenZ (elemContent x)) +:+ " bytes)".

(** The children: at most sixteen. *)
Fixpoint describeChildren (f : Addr -> string) (i : nat) (total : nat) (cs : list Addr) : string :=
  match cs with
  | [] => ""
  | c :: cs =>
      if (16 <=? i)%nat then " ... " +:+ FormatInt (Z.of_nat (total - i)) +:+ " more"
      else (if (0 <? i)%nat then "," else "") +:+ " " +:+ f c +:+ describeChildren f (S i) total cs
  end.

(** [describe], with [levels] levels before the summary stops. *)
Fixpoint describe (levels : nat) (h : Heap) (node : Addr) : string :=
  let x := load h node in
  let name := if negb (elemClass x =? classUniversal)
              then typeName (elemClass x) (elemTag x) +:+ "[" +:+ FormatInt (elemTag x) +:+ "]"
              else typeName (elemClass x) (elemTag x) in
  if elemConstructed x then
    name +:+ " {" +:+
    match levels with
    | O => " ... }"
    | S levels => describeChildren (describe levels h) 0 (length (elemChildren x)) (elemChildren x) +:+ " }"
    end
  else name +:+ describeContent x.

Definition DisplayNative (h : Heap) (e : Addr) : string := describe 6 h e.
