(* ===== verification/Asn1Facts.v ===== *)
(** * Facts about the asn1 library

    Element trees without sharing, the addresses of a heap that represent them, the encodings of
    tag numbers and lengths and their readers, the encoder against a one-pass definition
    of DER, and the decoder. *)

From Stdlib Require Import Sorted Permutation Ascii.
From S2P Require Import Prelude GoInt GoSort Utf8 Strconv Limits Types Value Strings StringsFacts Asn1.
Open Scope string_scope.
Open Scope list_scope.
Open Scope Z_scope.
Open Scope go_scope.

(** ** Bits *)

(** A test of all numbers of a small range. *)
Lemma below_all (n : nat) (f : Z -> bool) : forallb f (seqZ 0 (Z.of_nat n)) = true -> forall z, 0 <= z < Z.of_nat n -> f z = true.
Proof. intros H z Hz. rewrite forallb_forall in H. apply H, list_elem_of_In, elem_of_seqZ. lia. Qed.

Lemma uint64_id n : 0 <= n < 2 ^ 64 -> uint64 n = n.
Proof. apply Z.mod_small. Qed.

Lemma land_127 n : Z.land n 127 = n mod 128.
Proof. apply (Z.land_ones n 7). lia. Qed.
Lemma land_255 n : Z.land n 255 = n mod 256.
Proof. apply (Z.land_ones n 8). lia. Qed.
Lemma uint8_255 n : uint8 (Z.land n 255) = n mod 256.
Proof. rewrite land_255. unfold uint8. apply Z.mod_mod. lia. Qed.
Lemma uint8_127 n : uint8 (Z.land n 127) = n mod 128.
Proof. rewrite land_127. unfold uint8. pose proof (Z.mod_pos_bound n 128). rewrite Z.mod_small; lia. Qed.

(** The octets of a base-128 number: a continuation octet and a last one. *)
Lemma septet_cont s : 0 <= s < 128 -> Z.land (Z.lor 128 s) 127 = s /\ (Z.land (Z.lor 128 s) 128 =? 0) = false.
Proof.
  intros Hs. assert (((Z.land (Z.lor 128 s) 127 =? s) && negb (Z.land (Z.lor 128 s) 128 =? 0)) = true) as H.
  { apply (below_all 128 (fun s => (Z.land (Z.lor 128 s) 127 =? s) && negb (Z.land (Z.lor 128 s) 128 =? 0))); [by vm_compute | done]. }
  apply andb_prop in H as [H1%Z.eqb_eq H2%negb_true_iff]. done.
Qed.

Lemma septet_last s : 0 <= s < 128 -> Z.land s 127 = s /\ (Z.land s 128 =? 0) = true.
Proof.
  intros Hs. assert (((Z.land s 127 =? s) && (Z.land s 128 =? 0)) = true) as H.
  { apply (below_all 128 (fun s => (Z.land s 127 =? s) && (Z.land s 128 =? 0))); [by vm_compute | done]. }
  apply andb_prop in H as [H1%Z.eqb_eq H2]. done.
Qed.

Lemma septet_append v s : 0 <= v -> v * 128 + s < 2 ^ 64 -> 0 <= s < 128 ->
  Z.lor (uint64 (Z.shiftl v 7)) s = v * 128 + s.
Proof.
  intros Hv H Hs. rewrite uint64_id; [by apply (lor_low 7) | ]. rewrite Z.shiftl_mul_pow2 by done. lia.
Qed.

(** ** Base 128 *)

(** The continuation octets of the high part of a number. *)
Definition leading (fuel : nat) (v : Z) : list Z := rev (map (Z.lor 128) (base128Loop fuel v)).

Lemma leading_step fuel v : 0 < v -> leading (S fuel) v = leading fuel (v / 128) ++ [Z.lor 128 (v mod 128)].
Proof.
  intros Hv. unfold leading. cbn [base128Loop]. destruct (Z.ltb_spec 0 v); [ | lia].
  cbn [map rev]. by rewrite uint8_127, Z.shiftr_div_pow2.
Qed.

Lemma leading_0 fuel v : v <= 0 -> leading fuel v = [].
Proof. intros Hv. destruct fuel; [done | ]. unfold leading. cbn [base128Loop]. destruct (Z.ltb_spec 0 v); [lia | done]. Qed.

Lemma base128_split v : 0 <= v -> base128 v = leading 9 (v / 128) ++ [v mod 128].
Proof.
  intros Hv. unfold base128. destruct (Z.eqb_spec v 0) as [-> | ]; [done | ].
  change (base128Loop 10 v) with (if 0 <? v then uint8 (Z.land v 127) :: base128Loop 9 (Z.shiftr v 7) else []).
  destruct (Z.ltb_spec 0 v); [ | lia]. unfold continued, leading. cbn [rev]. by rewrite uint8_127, Z.shiftr_div_pow2.
Qed.

Lemma div128_pow f v : 0 <= v < 128 ^ Z.of_nat (S f) -> 0 <= v / 128 < 128 ^ Z.of_nat f.
Proof.
  rewrite Nat2Z.inj_succ, Z.pow_succ_r by lia. intros Hv. split; [apply Z.div_pos; lia | ].
  apply Z.div_lt_upper_bound; lia.
Qed.

Lemma highTag_leading fuel : forall v rest, 0 <= v < 128 ^ Z.of_nat fuel -> v <= maxTagNumber ->
  highTag 0 (leading fuel v ++ rest) = highTag v rest.
Proof.
  induction fuel as [ | fuel IH]; intros v rest Hv Hm.
  { replace v with 0 by (simpl in Hv; lia). done. }
  destruct (Z.eq_dec v 0) as [-> | Hn]; [by rewrite leading_0 | ].
  rewrite leading_step, <- app_assoc by lia. pose proof (Z.div_mod v 128 ltac:(lia)). pose proof (Z.mod_pos_bound v 128 ltac:(lia)).
  pose proof (Z.div_pos v 128 ltac:(lia) ltac:(lia)). cbn [app].
  rewrite IH; [ | by apply div128_pow | lia]. cbn [highTag].
  destruct (septet_cont (v mod 128)) as [-> ->]; [lia | ]. change maxTagNumber with 16777216 in *.
  rewrite septet_append by lia. replace (v / 128 * 128 + v mod 128) with v by lia.
  destruct (Z.ltb_spec 16777216 v); [lia | done].
Qed.

Lemma highTag_base128 v rest : 0 <= v <= maxTagNumber -> highTag 0 (base128 v ++ rest) = Ok (v, rest).
Proof.
  intros Hv. rewrite base128_split, <- app_assoc by lia. pose proof (Z.div_mod v 128 ltac:(lia)).
  pose proof (Z.mod_pos_bound v 128 ltac:(lia)). pose proof (Z.div_pos v 128 ltac:(lia) ltac:(lia)).
  change maxTagNumber with 16777216 in *. rewrite highTag_leading by (change maxTagNumber with 16777216; lia). cbn [app highTag].
  destruct (septet_last (v mod 128)) as [-> ->]; [lia | ]. rewrite septet_append by lia.
  replace (v / 128 * 128 + v mod 128) with v by lia. change maxTagNumber with 16777216.
  destruct (Z.ltb_spec 16777216 v); [lia | done].
Qed.

Lemma decodeArcs_leading fuel : forall v rest, 0 < v < 128 ^ Z.of_nat fuel -> v <= maxOIDArc -> forall b,
  decodeArcs 0 b (leading fuel v ++ rest) = decodeArcs v true rest.
Proof.
  induction fuel as [ | fuel IH]; intros v rest Hv Hm b; [simpl in Hv; lia | ].
  rewrite leading_step, <- app_assoc by lia. pose proof (Z.div_mod v 128 ltac:(lia)). pose proof (Z.mod_pos_bound v 128 ltac:(lia)).
  pose proof (Z.div_pos v 128 ltac:(lia) ltac:(lia)). change maxOIDArc with 144115188075855871 in *. cbn [app].
  assert (Hstep : forall b, decodeArcs (v / 128) b (Z.lor 128 (v mod 128) :: rest) = decodeArcs v true rest).
  { intros b'. cbn [decodeArcs]. change maxOIDArc with 144115188075855871. destruct (Z.ltb_spec 144115188075855871 (v / 128)); [lia | ].
    destruct (septet_cont (v mod 128)) as [-> ->]; [lia | ]. rewrite septet_append by lia.
    by replace (v / 128 * 128 + v mod 128) with v by lia. }
  destruct (Z.eq_dec (v / 128) 0) as [E | ]; [rewrite E in *; rewrite leading_0 by lia; apply Hstep | ].
  rewrite IH; [apply Hstep | | lia]. pose proof (div128_pow fuel v). lia.
Qed.

Lemma decodeArcs_base128 v rest : 0 <= v <= maxOIDArc + 80 ->
  decodeArcs 0 false (base128 v ++ rest) = (let? arcs := decodeArcs 0 false rest in Ok (v :: arcs)).
Proof.
  intros Hv. rewrite base128_split, <- app_assoc by lia. pose proof (Z.div_mod v 128 ltac:(lia)).
  pose proof (Z.mod_pos_bound v 128 ltac:(lia)). pose proof (Z.div_pos v 128 ltac:(lia) ltac:(lia)).
  change maxOIDArc with 144115188075855871 in *. cbn [app].
  assert (Hstep : forall b, decodeArcs (v / 128) b (v mod 128 :: rest) = (let? arcs := decodeArcs 0 false rest in Ok (v :: arcs))).
  { intros b. cbn [decodeArcs]. change maxOIDArc with 144115188075855871. destruct (Z.ltb_spec 144115188075855871 (v / 128)); [lia | ].
    destruct (septet_last (v mod 128)) as [-> ->]; [lia | ]. rewrite septet_append by lia.
    by replace (v / 128 * 128 + v mod 128) with v by lia. }
  destruct (Z.eq_dec (v / 128) 0) as [E | ]; [rewrite E in *; rewrite leading_0 by lia; apply Hstep | ].
  rewrite decodeArcs_leading; [apply Hstep | lia | change maxOIDArc with 144115188075855871; lia].
Qed.

(** ** Lengths *)

Lemma lengthLoop_app fuel : forall n tmp, lengthLoop fuel n tmp = lengthLoop fuel n [] ++ tmp.
Proof.
  induction fuel as [ | fuel IH]; intros n tmp; cbn [lengthLoop]; [done | ]. destruct (0 <? n); [ | done].
  rewrite IH, (IH _ [uint8 _]), <- app_assoc. done.
Qed.

Lemma lengthLoop_step fuel n : 0 < n -> lengthLoop (S fuel) n [] = lengthLoop fuel (n / 256) [] ++ [n mod 256].
Proof.
  intros Hn. cbn [lengthLoop]. destruct (Z.ltb_spec 0 n); [ | lia].
  by rewrite lengthLoop_app, uint8_255, Z.shiftr_div_pow2.
Qed.

Lemma lengthLoop_0 fuel n : n <= 0 -> lengthLoop fuel n [] = [].
Proof. intros Hn. destruct fuel; [done | ]. cbn [lengthLoop]. destruct (Z.ltb_spec 0 n); [lia | done]. Qed.

Lemma div256_pow f v : 0 <= v < 256 ^ Z.of_nat (S f) -> 0 <= v / 256 < 256 ^ Z.of_nat f.
Proof.
  rewrite Nat2Z.inj_succ, Z.pow_succ_r by lia. intros Hv. split; [apply Z.div_pos; lia | ].
  apply Z.div_lt_upper_bound; lia.
Qed.

Lemma lengthLoop_length fuel : forall n, (length (lengthLoop fuel n []) <= fuel)%nat.
Proof.
  induction fuel as [ | fuel IH]; intros n; [done | ]. destruct (Z.le_gt_cases n 0); [by rewrite lengthLoop_0; simpl; lia | ].
  rewrite lengthLoop_step, length_app by done. specialize (IH (n / 256)). cbn [length]. lia.
Qed.

Lemma lengthLoop_bytes fuel : forall n, Forall (fun x => 0 <= x < 256) (lengthLoop fuel n []).
Proof.
  induction fuel as [ | fuel IH]; intros n; [constructor | ]. destruct (Z.le_gt_cases n 0); [by rewrite lengthLoop_0; try lia; constructor | ].
  rewrite lengthLoop_step by done. apply Forall_app. split; [apply IH | ]. repeat constructor; apply Z.mod_pos_bound; lia.
Qed.

Lemma longLength_loop fuel avail : forall n k rest, 0 <= n < 256 ^ Z.of_nat fuel -> n <= avail -> n < 2 ^ 63 ->
  longLength (length (lengthLoop fuel n []) + k) 0 avail (lengthLoop fuel n [] ++ rest) = longLength k n avail rest.
Proof.
  induction fuel as [ | fuel IH]; intros n k rest Hn Ha Hw.
  { replace n with 0 by (simpl in Hn; lia). done. }
  destruct (Z.eq_dec n 0) as [-> | Hnz]; [by rewrite lengthLoop_0 | ].
  rewrite lengthLoop_step, length_app, <- Nat.add_assoc, <- app_assoc by lia. cbn [length app Nat.add].
  pose proof (Z.div_mod n 256 ltac:(lia)). pose proof (Z.mod_pos_bound n 256 ltac:(lia)).
  pose proof (Z.div_pos n 256 ltac:(lia) ltac:(lia)).
  rewrite IH; [ | by apply div256_pow | lia | lia]. cbn [longLength].
  rewrite uint64_id by (rewrite Z.shiftl_mul_pow2; lia). rewrite (lor_low 8) by lia.
  replace (n / 256 * 2 ^ 8 + n mod 256) with n by lia. destruct (Z.ltb_spec avail n); [lia | done].
Qed.

(** The first octet of a length: short form, or the number of octets that follow. *)
Lemma length_short n : 0 <= n < 128 -> uint8 n = n /\ (Z.land n 128 =? 0) = true.
Proof. intros Hn. split; [apply Z.mod_small; lia | by apply septet_last]. Qed.

Lemma length_long k : (1 <= k <= 8)%nat ->
  let l0 := Z.lor 128 (uint8 (Z.of_nat k)) in
  (Z.land l0 128 =? 0) = false /\ Z.land l0 127 = Z.of_nat k.
Proof.
  intros Hk l0. unfold l0, uint8. rewrite Z.mod_small by lia. destruct (septet_cont (Z.of_nat k)); [lia | done].
Qed.

Lemma encodeLength_cases n : 0 <= n < 2 ^ 63 ->
  (n < 128 /\ encodeLength n = [n]) \/
  (128 <= n /\ let b := lengthLoop 8 n [] in (1 <= length b <= 8)%nat /\ encodeLength n = Z.lor 128 (uint8 (Z.of_nat (length b))) :: b).
Proof.
  intros Hn. unfold encodeLength. destruct (Z.ltb_spec n 128).
  - left. split; [done | ]. by destruct (length_short n) as [-> _]; [lia | ].
  - right. split; [done | ]. split; [ | reflexivity]. split; [ | apply lengthLoop_length].
    rewrite (lengthLoop_step 7), length_app by lia. cbn [length]. apply Nat.le_add_l.
Qed.

Lemma readLength_encode n avail rest : 0 <= n < 2 ^ 63 -> n <= avail ->
  readLength avail (encodeLength n ++ rest) = Ok (Some n, rest).
Proof.
  intros Hn Ha. destruct (encodeLength_cases n Hn) as [[Hs ->] | [Hl [Hk ->]]]; cbn [app]; unfold readLength.
  - by destruct (length_short n) as [_ ->]; [lia | ].
  - set (b := lengthLoop 8 n []) in *. destruct (length_long (length b) Hk) as [-> ->].
    destruct (Z.eqb_spec (Z.of_nat (length b)) 0); [lia | ]. destruct (Z.ltb_spec 8 (Z.of_nat (length b))); [lia | ].
    rewrite Nat2Z.id, <- (Nat.add_0_r (length b)). unfold b. rewrite longLength_loop; [reflexivity | | exact Ha | apply Hn].
    change (256 ^ Z.of_nat 8) with (2 ^ 64). lia.
Qed.

(** ** Identifiers *)

Definition identOK (class tag : Z) : Prop := 0 <= class <= 3 /\ 0 <= tag <= maxTagNumber.

(** The identifier octets of a class, a kind and a tag. *)
Definition ident (class : Z) (constructed : bool) (tag : Z) : list Z := identOctets (mkElem class constructed tag [] []).

Definition lowIdent (k : bool) (n : Z) : bool :=
  let class := n / 32 in
  let tag := n mod 32 in
  let b0 := Z.lor (Z.lor (uint8 (Z.shiftl class 6)) (if k then 32 else 0)) (uint8 tag) in
  (Z.shiftr b0 6 =? class) && Bool.eqb (negb (Z.land b0 32 =? 0)) k && (Z.land b0 31 =? tag) && (0 <=? b0) && (b0 <? 256).

Lemma ident_octet class (k : bool) tag : 0 <= class <= 3 -> 0 <= tag <= 31 ->
  let b0 := Z.lor (Z.lor (uint8 (Z.shiftl class 6)) (if k then 32 else 0)) (uint8 tag) in
  Z.shiftr b0 6 = class /\ negb (Z.land b0 32 =? 0) = k /\ Z.land b0 31 = tag /\ 0 <= b0 < 256.
Proof.
  intros Hc Ht. assert (H : lowIdent k (class * 32 + tag) = true).
  { apply (below_all 128 (lowIdent k)); [destruct k; by vm_compute | lia]. }
  unfold lowIdent in H. rewrite Z.div_add_l, (Z.div_small tag), Z.add_0_r in H by lia.
  rewrite Z.add_comm, Z.mod_add, (Z.mod_small tag) in H by lia. cbv zeta in *.
  repeat (apply andb_prop in H as [H ?]). b2p. apply eqb_prop in H3. split_and!; done || lia.
Qed.

Lemma readIdent_ident class k tag rest : identOK class tag ->
  exists b0 r, ident class k tag ++ rest = b0 :: r /\ readIdent b0 r = Ok (class, k, tag, rest) /\ (length rest <= length r)%nat.
Proof.
  intros [Hc Ht]. unfold ident, identOctets. cbn [elemClass elemConstructed elemTag]. destruct (Z.ltb_spec tag 31).
  - eexists _, _. split; [done | ]. split; [ | done]. destruct (ident_octet class k tag) as (E1 & E2 & E3 & _); [done | lia | ].
    unfold readIdent. rewrite E1, E2, E3. destruct (Z.eqb_spec tag 31); [lia | done].
  - eexists _, _. split; [done | ]. split; [ | fold (app (A := Z)); rewrite length_app; lia].
    destruct (ident_octet class k 31) as (E1 & E2 & E3 & _); [done | lia | ]. change (uint8 31) with 31 in *.
    unfold readIdent. rewrite E1, E2, E3. change maxTagNumber with 16777216 in *. rewrite uint64_id by lia.
    change (31 =? 31) with true. cbv iota. rewrite highTag_base128 by (change maxTagNumber with 16777216; lia). done.
Qed.

(** ** Trees *)

#[local] Unset Elimination Schemes.
Inductive tree :=
  | Prim (class tag : Z) (content : list Z)
  | Cons (class tag : Z) (children : list tree).

Definition tree_ind (P : tree -> Prop) (HP : forall c tg b, P (Prim c tg b))
    (HC : forall c tg ts, Forall P ts -> P (Cons c tg ts)) : forall t, P t :=
  fix go t :=
    match t with
    | Prim c tg b => HP c tg b
    | Cons c tg ts =>
        HC c tg ts ((fix all ts : Forall P ts :=
          match ts with [] => List.Forall_nil P | t :: ts => List.Forall_cons P t ts (go t) (all ts) end) ts)
    end.

(** An address of a heap stands for a tree. *)
Inductive rep (h : Heap) : Addr -> tree -> Prop :=
  | rep_prim e c tg b : h !! e = Some (mkElem c false tg b []) -> rep h e (Prim c tg b)
  | rep_cons e c tg cs ts : h !! e = Some (mkElem c true tg [] cs) -> Forall2 (rep h) cs ts -> rep h e (Cons c tg ts).

Definition sumBy {A} (f : A -> Z) (l : list A) : Z := fold_right (fun x n => f x + n) 0 l.
Definition maxBy {A} (f : A -> Z) (l : list A) : Z := fold_right (fun x n => Z.max (f x + 1) n) 0 l.

(** The number of elements of a tree, and the depth of its deepest element. *)
Fixpoint nodeCount (t : tree) : Z := match t with Prim _ _ _ => 1 | Cons _ _ ts => 1 + sumBy nodeCount ts end.
Fixpoint height (t : tree) : Z := match t with Prim _ _ _ => 0 | Cons _ _ ts => maxBy height ts end.

(** A byte slice of Go. *)
Definition bytesOK (b : list Z) : Prop := Forall (fun x => 0 <= x < 256) b /\ lenZ b <= maxInt64.

Inductive wfTree : tree -> Prop :=
  | wf_prim c tg b : identOK c tg -> bytesOK b -> wfTree (Prim c tg b)
  | wf_cons c tg ts : identOK c tg -> Forall wfTree ts -> wfTree (Cons c tg ts).
#[local] Set Elimination Schemes.

(** The encoding in one pass: every element in front of its children, with the length of
    what follows.  The second definition sorts the encodings of the children of a SET. *)
Definition header (c : Z) (k : bool) (tg n : Z) : list Z := ident c k tg ++ encodeLength n.

Fixpoint plain (t : tree) : list Z :=
  match t with
  | Prim c tg b => header c false tg (lenZ b) ++ b
  | Cons c tg ts => let body := concat (map plain ts) in header c true tg (lenZ body) ++ body
  end.

Definition isSet (c tg : Z) : bool := (c =? classUniversal) && (tg =? tagSet).

Definition derBody (c tg : Z) (parts : list (list Z)) : list Z :=
  concat (if isSet c tg then sliceStable bytesLess parts else parts).

Fixpoint der (t : tree) : list Z :=
  match t with
  | Prim c tg b => header c false tg (lenZ b) ++ b
  | Cons c tg ts => let body := derBody c tg (map der ts) in header c true tg (lenZ body) ++ body
  end.

(** The tree with the children of every SET in the order of their encodings. *)
Fixpoint canon (t : tree) : tree :=
  match t with
  | Prim c tg b => Prim c tg b
  | Cons c tg ts =>
      let ts := map canon ts in
      Cons c tg (if isSet c tg then sliceStable (fun a b => bytesLess (plain a) (plain b)) ts else ts)
  end.

(** What makes a heap: children stand before their parents, and a primitive element has no
    children, a constructed one no content. *)
Definition elemOK (i : nat) (x : elem) : Prop :=
  identOK (elemClass x) (elemTag x) /\ bytesOK (elemContent x) /\ Forall (fun c => (c < i)%nat) (elemChildren x) /\
  (if elemConstructed x then elemContent x = [] else elemChildren x = []).

Definition heapOK (h : Heap) : Prop := forall i x, h !! i = Some x -> elemOK i x.

Lemma load_lookup h e x : h !! e = Some x -> load h e = x.
Proof. intros H. unfold load. by apply nth_lookup_Some. Qed.

Lemma rep_lookup h e t : rep h e t -> (e < length h)%nat.
Proof. intros H. apply lookup_lt_is_Some. inv H; eauto. Qed.

Lemma Forall2_mono_in {A B} (P Q : A -> B -> Prop) l ts :
  Forall (fun t => forall a, P a t -> Q a t) ts -> Forall2 P l ts -> Forall2 Q l ts.
Proof. intros H H2. induction H2; inv H; constructor; auto. Qed.

Lemma rep_prefix h h' : h `prefix_of` h' -> forall t e, rep h e t -> rep h' e t.
Proof.
  intros [k ->] t. induction t as [c tg b | c tg ts IH] using tree_ind; intros e H; inv H.
  - constructor. by apply lookup_app_l_Some.
  - econstructor; [by apply lookup_app_l_Some | ]. by eapply Forall2_mono_in.
Qed.

Lemma rep_fun h t : forall e t', rep h e t -> rep h e t' -> t = t'.
Proof.
  induction t as [c tg b | c tg ts IH] using tree_ind; intros e t' H H'.
  - inversion H; inversion H'; simplify_eq/=; done.
  - inversion H as [ | ? ? ? cs ? Hx H2]; inversion H' as [ | ? ? ? cs' ts' Hx' H2']; simplify_eq/=. f_equal. clear H H' Hx.
    revert ts' H2'. induction H2; intros ts' H2'; inv H2'; [done | ]. inv IH. f_equal; eauto.
Qed.

Lemma rep_exists h : heapOK h -> forall e, (e < length h)%nat -> exists t, rep h e t /\ wfTree t.
Proof.
  intros Hh e. induction (lt_wf e) as [e _ IH]. intros He. destruct (lookup_lt_is_Some_2 h e He) as [x Hx].
  destruct (Hh e x Hx) as (Hid & Hb & Hc & Hk). destruct x as [c k tg b cs]; simpl in *. destruct k; subst.
  - assert (exists ts, Forall2 (rep h) cs ts /\ Forall wfTree ts) as (ts & H1 & H2).
    { clear Hx. induction Hc as [ | a cs Ha Hc IHc]; [by exists [] | ]. destruct IHc as (ts & ? & ?).
      destruct (IH a Ha) as (t & ? & ?); [lia | ]. exists (t :: ts). auto. }
    exists (Cons c tg ts). split; [by econstructor | by constructor].
  - exists (Prim c tg b). split; [by apply rep_prim | by apply wf_prim].
Qed.

(** ** Sizes *)

Lemma sumBy_perm {A} (f : A -> Z) l l' : l ≡ₚ l' -> sumBy f l = sumBy f l'.
Proof. induction 1; simpl; lia. Qed.
Lemma maxBy_perm {A} (f : A -> Z) l l' : l ≡ₚ l' -> maxBy f l = maxBy f l'.
Proof. induction 1; simpl; lia. Qed.
Lemma sumBy_map {A B} (f : B -> Z) (g : A -> B) l : sumBy f (map g l) = sumBy (fun x => f (g x)) l.
Proof. induction l; simpl; lia. Qed.
Lemma sumBy_ext {A} (f g : A -> Z) l : Forall (fun x => f x = g x) l -> sumBy f l = sumBy g l.
Proof. induction 1; simpl; lia. Qed.
Lemma maxBy_ext {A} (f g : A -> Z) l : Forall (fun x => f x = g x) l -> maxBy f l = maxBy g l.
Proof. induction 1; simpl; lia. Qed.
Lemma maxBy_map {A B} (f : B -> Z) (g : A -> B) l : maxBy f (map g l) = maxBy (fun x => f (g x)) l.
Proof. induction l; simpl; lia. Qed.
Lemma maxBy_nonneg {A} (f : A -> Z) l : 0 <= maxBy f l.
Proof. induction l; simpl; lia. Qed.

Lemma lenZ_nonneg {A} (l : list A) : 0 <= lenZ l.
Proof. unfold lenZ. lia. Qed.
Lemma lenZ_nat {A} (l : list A) : Z.to_nat (lenZ l) = length l.
Proof. apply Nat2Z.id. Qed.
Lemma lenZ_app {A} (l k : list A) : lenZ (l ++ k) = lenZ l + lenZ k.
Proof. unfold lenZ. rewrite length_app. lia. Qed.
Lemma maxBy_elem {A} (f : A -> Z) l x : x ∈ l -> f x + 1 <= maxBy f l.
Proof. induction 1; simpl; lia. Qed.
Lemma concat_part {A B} (f : A -> list B) l x : x ∈ l -> lenZ (f x) <= lenZ (concat (map f l)).
Proof. induction 1; simpl; rewrite lenZ_app; pose proof (lenZ_nonneg (concat (map f l))); [ | pose proof (lenZ_nonneg (f y))]; lia. Qed.
Lemma lenZ_concat {A} (ls : list (list A)) : lenZ (concat ls) = sumBy lenZ ls.
Proof. induction ls as [ | l ls IH]; [done | ]. simpl. by rewrite lenZ_app, IH. Qed.

Lemma height_nonneg t : 0 <= height t.
Proof. destruct t; simpl; [lia | apply maxBy_nonneg]. Qed.

Lemma nodeCount_pos t : 1 <= nodeCount t.
Proof.
  induction t as [c tg b | c tg ts IH] using tree_ind; simpl; [lia | ].
  assert (0 <= sumBy nodeCount ts); [ | lia]. induction IH; simpl; lia.
Qed.

(** Sorting the encodings does not change their size. *)
Lemma derBody_length c tg parts : lenZ (derBody c tg parts) = sumBy lenZ parts.
Proof. unfold derBody. rewrite lenZ_concat. destruct (isSet c tg); [ | done]. apply sumBy_perm, sliceStable_perm. Qed.

(** *** The canonical tree *)

Lemma insertSorted_map {A B} (lt : B -> B -> bool) (f : A -> B) x l :
  map f (insertSorted (fun a b => lt (f a) (f b)) x l) = insertSorted lt (f x) (map f l).
Proof. induction l as [ | y l IH]; simpl; [done | ]. destruct (lt (f y) (f x)); simpl; [by rewrite IH | done]. Qed.

Lemma sliceStable_map {A B} (lt : B -> B -> bool) (f : A -> B) l :
  map f (sliceStable (fun a b => lt (f a) (f b)) l) = sliceStable lt (map f l).
Proof. induction l as [ | x l IH]; simpl; [done | ]. by rewrite insertSorted_map, IH. Qed.

Lemma map_ext_Forall_eq {A B} (f g : A -> B) l : Forall (fun x => f x = g x) l -> map f l = map g l.
Proof. induction 1; simpl; congruence. Qed.

Lemma plain_canon t : plain (canon t) = der t.
Proof.
  induction t as [c tg b | c tg ts IH] using tree_ind; [done | ]. cbn [canon plain der]. unfold derBody.
  assert (E : map plain (map canon ts) = map der ts) by (rewrite map_map; by apply map_ext_Forall_eq).
  destruct (isSet c tg); [ | by rewrite E]. by rewrite sliceStable_map, E.
Qed.

Lemma canon_children c tg ts : exists ts', canon (Cons c tg ts) = Cons c tg ts' /\ ts' ≡ₚ map canon ts.
Proof. eexists. split; [done | ]. simpl. destruct (isSet c tg); [apply sliceStable_perm | done]. Qed.

Lemma canon_height t : height (canon t) = height t.
Proof.
  induction t as [c tg b | c tg ts IH] using tree_ind; [done | ].
  destruct (canon_children c tg ts) as (ts' & -> & Hp). simpl. rewrite (maxBy_perm _ _ _ Hp), maxBy_map.
  by apply maxBy_ext.
Qed.

Lemma canon_count t : nodeCount (canon t) = nodeCount t.
Proof.
  induction t as [c tg b | c tg ts IH] using tree_ind; [done | ].
  destruct (canon_children c tg ts) as (ts' & -> & Hp). simpl. rewrite (sumBy_perm _ _ _ Hp), sumBy_map.
  f_equal. by apply sumBy_ext.
Qed.

Lemma canon_wf t : wfTree t -> wfTree (canon t).
Proof.
  induction t as [c tg b | c tg ts IH] using tree_ind; intros H; [done | ]. inv H.
  destruct (canon_children c tg ts) as (ts' & -> & Hp). constructor; [done | ]. rewrite Hp.
  apply List.Forall_map. rewrite Forall_forall in *. auto.
Qed.

(** ** Encoding *)

Lemma base128Loop_length fuel : forall v, (length (base128Loop fuel v) <= fuel)%nat.
Proof. induction fuel as [ | f IH]; intros v; cbn [base128Loop]; [done | ]. destruct (0 <? v); cbn [length]; [specialize (IH (Z.shiftr v 7)) | ]; lia. Qed.

Lemma base128_length v : 0 <= lenZ (base128 v) <= 10.
Proof.
  split; [apply lenZ_nonneg | ]. unfold base128. destruct (v =? 0); [done | ]. pose proof (base128Loop_length 10 v) as H.
  unfold continued, lenZ in *. destruct (base128Loop 10 v) as [ | l tmp]; [done | ]. rewrite length_rev. cbn [length] in *.
  rewrite length_map. lia.
Qed.

Lemma encodeLength_length n : 0 <= lenZ (encodeLength n) <= 9.
Proof.
  split; [apply lenZ_nonneg | ]. unfold encodeLength. destruct (n <? 128); [done | ].
  pose proof (lengthLoop_length 8 n). unfold lenZ. cbn [length]. lia.
Qed.

Lemma ident_length c k tg : lenZ (ident c k tg) = if 31 <=? tg then 1 + lenZ (base128 (uint64 tg)) else 1.
Proof.
  unfold ident, identOctets. cbn [elemClass elemConstructed elemTag]. destruct (Z.ltb_spec tg 31), (Z.leb_spec 31 tg); try lia; [done | ].
  unfold lenZ. cbn [length]. lia.
Qed.

Lemma headerLen_header x n : headerLen x n = lenZ (header (elemClass x) (elemConstructed x) (elemTag x) n).
Proof. unfold headerLen, header. rewrite lenZ_app, ident_length. done. Qed.

Lemma header_bound c k tg n : 0 <= lenZ (header c k tg n) <= 20.
Proof.
  unfold header. rewrite lenZ_app, ident_length. pose proof (encodeLength_length n). pose proof (base128_length (uint64 tg)).
  destruct (31 <=? tg); lia.
Qed.

(** The content length, size and height of a tree. *)
Definition body (t : tree) : list Z := match t with Prim _ _ b => b | Cons c tg ts => derBody c tg (map der ts) end.
Definition measureOf (t : tree) : measured := mkMeasured (lenZ (body t)) (lenZ (der t)) (height t).

(** What the memo holds: the measures of trees whose children it holds too. *)
Definition seenOK (h : Heap) (seen : Seen) : Prop := forall a m, seen !! a = Some m ->
  exists t, rep h a t /\ m = measureOf t /\ lenZ (der t) <= maxInt64 /\
            Forall (fun c => is_Some (seen !! c)) (elemChildren (load h a)).

Lemma seenOK_insert h seen e t : seenOK h seen -> rep h e t -> lenZ (der t) <= maxInt64 ->
  Forall (fun c => is_Some (seen !! c)) (elemChildren (load h e)) -> seenOK h (<[e := measureOf t]> seen).
Proof.
  assert (Hmono : forall c, is_Some (seen !! c) -> is_Some (<[e := measureOf t]> seen !! c)).
  { intros c Hc. destruct (decide (e = c)) as [-> | ]; [rewrite lookup_insert_eq | rewrite lookup_insert_ne by done]; eauto. }
  intros Hs Hr Hsz Hc a m. destruct (decide (e = a)) as [<- | Hne].
  - rewrite lookup_insert_eq. intros [= <-]. exists t. split_and!; try done. eapply Forall_impl; [exact Hc | auto].
  - rewrite lookup_insert_ne by done. intros Ha. destruct (Hs a m Ha) as (t' & ? & ? & ? & Hcs).
    exists t'. split_and!; try done. eapply Forall_impl; [exact Hcs | auto].
Qed.

Section Encoding.
Context {L : Limits}.

(** The outcome of [measure] at a depth. *)
Definition measures (h : Heap) (depth : Z) (t : tree) (e : Addr) (seen : Seen) (r : result message (measured * Seen)) : Prop :=
  match r with
  | Ok (m, seen') =>
      m = measureOf t /\ depth + height t <= MaxNestingDepth /\ lenZ (der t) <= maxInt64 /\
      seen ⊆ seen' /\ seenOK h seen' /\ is_Some (seen' !! e)
  | Err _ => MaxNestingDepth < depth + height t \/ maxInt64 < lenZ (der t)
  end.

Lemma checkHeight_measures h depth t e seen seen' : seen ⊆ seen' -> seenOK h seen' -> is_Some (seen' !! e) -> lenZ (der t) <= maxInt64 ->
  exists r, checkHeight depth (measureOf t) seen' = Some r /\ measures h depth t e seen r.
Proof.
  intros Hsub Hs He Hsz. unfold checkHeight. cbn [measureOf m_height].
  destruct (Z.ltb_spec MaxNestingDepth (depth + height t)); eexists; (split; [done | ]); simpl; [auto | ].
  split_and!; done || lia.
Qed.

Lemma sumDer_nonneg ts : 0 <= sumBy (fun t => lenZ (der t)) ts.
Proof. induction ts as [ | t ts IH]; simpl; [done | ]. pose proof (lenZ_nonneg (der t)). lia. Qed.

Lemma measureChildren_spec h depth rec cs ts :
  Forall (fun t => forall a seen, rep h a t -> seenOK h seen -> exists r, rec a seen = Some r /\ measures h depth t a seen r) ts ->
  Forall2 (rep h) cs ts -> forall content hgt seen, seenOK h seen -> 0 <= content <= maxInt64 -> 0 <= hgt ->
  let total := content + sumBy (fun t => lenZ (der t)) ts in
  exists r, measureChildren rec cs content hgt seen = Some r /\
  match r with
  | Ok (content', hgt', seen') =>
      content' = total /\ total <= maxInt64 /\ hgt' = Z.max hgt (maxBy height ts) /\
      Forall (fun t => depth + height t <= MaxNestingDepth) ts /\
      seen ⊆ seen' /\ seenOK h seen' /\ Forall (fun c => is_Some (seen' !! c)) cs
  | Err _ => Exists (fun t => MaxNestingDepth < depth + height t) ts \/ maxInt64 < total
  end.
Proof.
  intros Hrec H2. induction H2 as [ | a t cs ts Ha H2 IH]; intros content hgt seen Hs Hc Hh0 total; cbn [measureChildren].
  { eexists. split; [done | ]. unfold total. simpl. split_and!; try done; lia. }
  inv Hrec. rename H1 into Hr, H3 into Hrec. destruct (Hr a seen Ha Hs) as (r & -> & Hm). pose proof (lenZ_nonneg (der t)) as Hd.
  pose proof (sumDer_nonneg ts) as Hsum. subst total. cbn [sumBy fold_right]. fold (sumBy (fun t => lenZ (der t)) ts).
  destruct r as [[m seen1] | e]; cbn [fbind].
  2: { eexists. split; [done | ]. destruct Hm; [left; by left | right; lia]. }
  destruct Hm as (-> & Hh & Hsz & Hsub & Hs1 & Hin). cbn [measureOf m_total m_height].
  rewrite AddInt64_spec by (unfold int64_range, minInt64, maxInt64 in *; lia).
  destruct (int64_rangeb (content + lenZ (der t))) eqn:E; cbn [negb].
  - apply int64_rangeb_true in E. destruct (IH Hrec (content + lenZ (der t)) (Z.max hgt (height t + 1)) seen1 Hs1) as (r & -> & Hm).
    { unfold int64_range in E. lia. }
    { lia. }
    exists r. split; [done | ]. destruct r as [[[c' h'] seen2] | e].
    + destruct Hm as (-> & Hle & -> & Hall & Hsub2 & Hs2 & Hcs).
      split_and!; try lia; try done; try (by constructor).
      * cbn [maxBy fold_right]. fold (maxBy height ts). lia.
      * by etransitivity.
      * constructor; [ | done]. destruct Hin as [m0 Hin]. exists m0. by eapply lookup_weaken.
    + destruct Hm; [left; by right | right; lia].
  - apply int64_rangeb_false in E. eexists. split; [done | ]. right. unfold int64_range, minInt64, maxInt64 in *. lia.
Qed.

Lemma height_children c tg ts depth : depth <= MaxNestingDepth ->
  Forall (fun t => depth + 1 + height t <= MaxNestingDepth) ts -> depth + height (Cons c tg ts) <= MaxNestingDepth.
Proof. intros Hd. simpl. induction 1; simpl; lia. Qed.

Lemma height_exists c tg ts depth :
  Exists (fun t => MaxNestingDepth < depth + 1 + height t) ts -> MaxNestingDepth < depth + height (Cons c tg ts).
Proof. simpl. induction 1; simpl; lia. Qed.

Lemma der_header t : wfTree t -> exists k c tg, der t = header c k tg (lenZ (body t)) ++ body t.
Proof. destruct t; eauto. Qed.

(** The end of [measure] at an element whose content has been measured. *)
Lemma measure_finish h depth t e seen seen1 x n : rep h e t -> load h e = x -> n = lenZ (body t) -> n <= maxInt64 ->
  der t = header (elemClass x) (elemConstructed x) (elemTag x) n ++ body t ->
  seen ⊆ seen1 -> seenOK h seen1 -> Forall (fun c => is_Some (seen1 !! c)) (elemChildren x) ->
  exists r, (let '(total, ok) := AddInt64 (headerLen x n) n in
    if negb ok then ferr "asn1.encode: encoding size overflows" []
    else let m := mkMeasured n total (height t) in checkHeight depth m (<[e := m]> seen1)) = Some r /\ measures h depth t e seen r.
Proof.
  intros Hr Hx -> Hn Hder Hsub Hs Hcs. pose proof (lenZ_nonneg (body t)). rewrite headerLen_header.
  pose proof (header_bound (elemClass x) (elemConstructed x) (elemTag x) (lenZ (body t))).
  assert (El : lenZ (der t) = lenZ (header (elemClass x) (elemConstructed x) (elemTag x) (lenZ (body t))) + lenZ (body t))
    by (rewrite Hder at 1; apply lenZ_app).
  rewrite AddInt64_spec by (unfold int64_range, minInt64, maxInt64 in *; lia). rewrite <- El.
  destruct (int64_rangeb (lenZ (der t))) eqn:E; cbn [negb].
  - apply int64_rangeb_true in E. apply (checkHeight_measures h depth t e seen).
    + etransitivity; [done | ]. destruct (seen1 !! e) as [m | ] eqn:E1; [ | by apply insert_subseteq].
      destruct (Hs e m E1) as (t' & Hr' & -> & _). rewrite (rep_fun h t e t' Hr Hr'). by rewrite insert_id.
    + subst x. apply seenOK_insert; try done. apply E.
    + rewrite lookup_insert_eq. eauto.
    + apply E.
  - apply int64_rangeb_false in E. eexists. split; [done | ]. right. unfold int64_range, minInt64, maxInt64 in *. lia.
Qed.
Lemma measure_spec h t : wfTree t -> forall fuel depth e seen,
  0 <= depth <= MaxNestingDepth + 1 -> (Z.to_nat (MaxNestingDepth + 2 - depth) <= fuel)%nat ->
  rep h e t -> seenOK h seen ->
  exists r, measure fuel h depth e seen = Some r /\ measures h depth t e seen r.
Proof.
  induction t as [c tg b | c tg ts IH] using tree_ind; intros Hwf fuel depth e seen Hd Hf Hr Hs.
  all: (destruct fuel as [ | fuel]; [lia | ]); cbn [measure].
  all: destruct (seen !! e) as [m | ] eqn:Ee;
    [destruct (Hs e m Ee) as (t' & Hr' & -> & ? & _); rewrite <- (rep_fun _ _ _ _ Hr Hr') in *; apply checkHeight_measures; eauto | ].
  all: destruct (Z.ltb_spec MaxNestingDepth depth).
  - eexists. split; [done | ]. left. simpl. lia.
  - assert (load h e = mkElem c false tg b []) as Hx by (inv Hr; by apply load_lookup). inv Hwf. rewrite Hx. cbn [elemConstructed fbind].
    apply (measure_finish h depth (Prim c tg b) e seen seen); try done; try apply H4.
  - eexists. split; [done | ]. left. pose proof (height_nonneg (Cons c tg ts)). lia.
  - inversion Hr as [ | ? ? ? cs ? Hl H2]; subst. inv Hwf. pose proof (load_lookup _ _ _ Hl) as Hx. rewrite Hx.
    cbn [elemConstructed elemChildren].
    destruct (measureChildren_spec h (depth + 1) (measure fuel h (depth + 1)) cs ts) with (content := 0) (hgt := 0) (seen := seen)
      as (r & -> & Hm); try done.
    { rewrite Forall_forall in *. intros t Ht a s Ha Hsa. apply IH; auto; lia. }
    rewrite Z.add_0_l in Hm. assert (Eb : sumBy (fun t => lenZ (der t)) ts = lenZ (body (Cons c tg ts))).
    { cbn [body]. by rewrite derBody_length, sumBy_map. }
    rewrite Eb in Hm. destruct r as [[[n hg] seen1] | er]; cbn [fbind].
    + destruct Hm as (-> & Hle & -> & Hall & Hsub & Hs1 & Hcs). rewrite Z.max_r by apply maxBy_nonneg.
      change (maxBy height ts) with (height (Cons c tg ts)). by apply (measure_finish h depth (Cons c tg ts) e seen seen1).
    + eexists. split; [done | ]. destruct Hm as [Hm | Hm]; [left; by apply height_exists | right].
      cbn [der]. rewrite lenZ_app. cbn [body] in Hm. pose proof (header_bound c true tg (lenZ (derBody c tg (map der ts)))). lia.
Qed.

(** ** Writing *)

Lemma collect_spec {A B} (f : A -> option B) l ys : Forall2 (fun x y => f x = Some y) l ys -> collect f l = Some ys.
Proof. induction 1 as [ | x y l ys H _ IH]; simpl; [done | ]. by rewrite H, IH. Qed.

Lemma derBody_single c tg parts : (length parts <= 1)%nat -> derBody c tg parts = concat parts.
Proof. intros H. unfold derBody. destruct (isSet c tg); [ | done]. by destruct parts as [ | p [ | q parts]]; simpl in *; try lia. Qed.

Lemma write_spec h seen t : seenOK h seen -> forall fuel e,
  (Z.to_nat (height t) < fuel)%nat -> rep h e t -> is_Some (seen !! e) -> write fuel h seen e = Some (der t).
Proof.
  intros Hs. induction t as [c tg b | c tg ts IH] using tree_ind; intros fuel e Hf Hr [m He].
  all: (destruct fuel as [ | fuel]; [lia | ]); cbn [write]; rewrite He.
  all: destruct (Hs e m He) as (t' & Hr' & -> & _ & Hcs); rewrite <- (rep_fun _ _ _ _ Hr Hr') in *; cbn [measureOf m_content].
  - inversion Hr as [? ? ? ? Hl | ]; subst. by rewrite (load_lookup _ _ _ Hl).
  - inversion Hr as [ | ? ? ? cs ? Hl H2]; subst. pose proof (load_lookup _ _ _ Hl) as Hx. rewrite Hx in *.
    cbn [elemConstructed elemChildren elemClass elemTag negb] in *.
    rewrite (collect_spec (write fuel h seen) cs (map der ts)).
    2: { clear Hx Hl Hr Hr' He. cbn [height] in Hf. induction H2 as [ | a t cs ts Ha H2 IH2]; [constructor | ].
         cbn [maxBy fold_right map] in *. fold (maxBy height ts) in *.
         inv IH. inv Hcs. pose proof (height_nonneg t). pose proof (maxBy_nonneg height ts). constructor; [ | apply IH2; auto; lia].
         apply H1; [lia | done | done]. }
    assert (Hlen : length cs = length (map der ts)) by (rewrite length_map; by eapply Forall2_length).
    cbn [der body]. fold (isSet c tg). rewrite Hlen. unfold header, ident.
    destruct (Nat.ltb_spec 1 (length (map der ts))).
    + rewrite andb_true_r. unfold derBody. by destruct (isSet c tg).
    + rewrite andb_false_r. by rewrite derBody_single by lia.
Qed.

(** The encoder against the one-pass definition. *)
Lemma encodeTree_spec h e t : heapOK h -> rep h e t -> wfTree t ->
  (height t <= MaxNestingDepth /\ lenZ (der t) <= MaxAllocBytes /\ encodeTree h e = Some (Ok (der t))) \/
  ((MaxNestingDepth < height t \/ MaxAllocBytes < lenZ (der t)) /\ exists m, encodeTree h e = Some (Err m)).
Proof.
  intros Hh Hr Hwf. unfold encodeTree. pose proof MaxNestingDepth_pos. pose proof MaxAllocBytes_bound. pose proof (height_nonneg t).
  destruct (measure_spec h t Hwf depthFuel 0 e ∅) as (r & -> & Hm); [lia | unfold depthFuel; lia | done | | ].
  { intros a m. by rewrite lookup_empty. }
  destruct r as [[m seen] | er]; cbn [fbind].
  2: { right. split; [ | eauto]. simpl in Hm. unfold maxInt64 in Hm. lia. }
  destruct Hm as (-> & Hd & Hsz & _ & Hs & He). cbn [measureOf m_total].
  destruct (Z.ltb_spec MaxAllocBytes (lenZ (der t))); [right; split; [auto | eauto] | left].
  split_and!; [lia | done | ]. rewrite (write_spec h seen t); [done | done | unfold depthFuel; lia | done | done].
Qed.
End Encoding.

(** ** Decoding *)

Lemma makeElem_ident c k tg b cs h : identOK c tg -> makeElem c tg k b cs h = (length h, h ++ [mkElem c k tg b cs]).
Proof.
  intros [Hc Ht]. unfold makeElem, uint8, int32. change maxTagNumber with 16777216 in Ht. rewrite (Z.mod_small c) by lia.
  rewrite Z.mod_small by lia. by replace (tg + 2 ^ 31 - 2 ^ 31) with tg by lia.
Qed.

Lemma lookup_new {A} (h : list A) x : (h ++ [x]) !! length h = Some x.
Proof. by rewrite lookup_app_r, Nat.sub_diag by lia. Qed.

Lemma prefix_new {A} (h h' : list A) x : h `prefix_of` h' -> h `prefix_of` h' ++ [x].
Proof. apply prefix_app_r. Qed.

Lemma fbind_Ok {A B} (x : A) (k : A -> option (result message B)) : fbind (Some (Ok x)) k = k x.
Proof. done. Qed.

Lemma header_cons c k tg n rest : identOK c tg -> 0 <= n < 2 ^ 63 -> exists b0 b1 r r', header c k tg n ++ rest = b0 :: b1 :: r /\
  readIdent b0 (b1 :: r) = Ok (c, k, tg, r') /\ (forall avail, n <= avail -> readLength avail r' = Ok (Some n, rest)).
Proof.
  intros Hid Hn. unfold header. rewrite <- app_assoc. destruct (readIdent_ident c k tg (encodeLength n ++ rest) Hid) as (b0 & r & E & Hr & Hl).
  assert (1 <= length (encodeLength n))%nat.
  { destruct (encodeLength_cases n Hn) as [[_ ->] | [_ [_ ->]]]; cbn [length]; lia. }
  rewrite length_app in Hl. destruct r as [ | b1 r]; [simpl in Hl; lia | ].
  exists b0, b1, r, (encodeLength n ++ rest). split_and!; [done | done | ]. intros avail Ha. by apply readLength_encode.
Qed.

Section Decoding.
Context {L : Limits}.

(** Reading back an encoding with room to spare for depth and nodes. *)
Definition readsBack (dec : list Z -> Z -> Heap -> option (result message (Addr * list Z * Z * Heap))) (t : tree) : Prop :=
  forall rest nodes h, 0 <= nodes -> nodes + nodeCount t <= maxNodes ->
  exists e h', dec (plain t ++ rest) nodes h = Some (Ok (e, rest, nodes + nodeCount t, h')) /\ h `prefix_of` h' /\ rep h' e t.

Lemma plain_nonempty t : (1 <= length (plain t))%nat.
Proof.
  destruct t as [c tg b | c tg ts]; cbn [plain]; unfold header; rewrite !length_app; pose proof (ident_length c false tg) as H1;
    pose proof (ident_length c true tg) as H2; pose proof (base128_length (uint64 tg)); unfold lenZ in *; destruct (31 <=? tg); lia.
Qed.

Lemma definiteLoop_plain dec ts : Forall (readsBack dec) ts -> forall fuel nodes h,
  (length (concat (map plain ts)) <= fuel)%nat -> 0 <= nodes -> nodes + sumBy nodeCount ts <= maxNodes ->
  exists cs h', definiteLoop dec fuel (concat (map plain ts)) nodes h = Some (Ok (cs, nodes + sumBy nodeCount ts, h')) /\
    h `prefix_of` h' /\ Forall2 (rep h') cs ts.
Proof.
  induction 1 as [ | t ts Ht Hts IH]; intros fuel nodes h Hf Hn Hc.
  { exists [], h. destruct fuel; simpl; rewrite Z.add_0_r; split_and!; constructor || done. }
  cbn [map concat sumBy fold_right] in *. fold (sumBy nodeCount ts) in *. rewrite length_app in Hf. pose proof (plain_nonempty t).
  pose proof (nodeCount_pos t). assert (0 <= sumBy nodeCount ts).
  { clear. induction ts as [ | t ts IH]; simpl; [done | ]. pose proof (nodeCount_pos t). lia. }
  destruct (plain t ++ concat (map plain ts)) as [ | b0 data] eqn:E.
  { apply app_eq_nil in E as [E _]. rewrite E in *. simpl in *. lia. }
  destruct fuel as [ | fuel]; [lia | ]. cbn [definiteLoop]. rewrite <- E.
  destruct (Ht (concat (map plain ts)) nodes h) as (e & h1 & -> & Hp1 & Hr1); [lia | lia | ]. rewrite fbind_Ok.
  destruct (IH fuel (nodes + nodeCount t) h1) as (cs & h2 & -> & Hp2 & Hr2); [lia | lia | lia | ]. rewrite fbind_Ok.
  exists (e :: cs), h2. rewrite Z.add_assoc. split_and!; [done | by etransitivity | ]. constructor; [by eapply rep_prefix | done].
Qed.

Lemma decode_plain t : wfTree t -> forall fuel depth, 0 <= depth -> depth + height t <= MaxNestingDepth ->
  (Z.to_nat (height t) < fuel)%nat -> lenZ (plain t) <= maxInt64 -> readsBack (decodeOne fuel depth) t.
Proof.
  induction t as [c tg b | c tg ts IH] using tree_ind; intros Hwf fuel depth Hd Hh Hf Hsz rest nodes h Hn Hc; inversion Hwf; subst.
  all: (destruct fuel as [ | fuel]; [lia | ]).
  - cbn [plain] in *. rewrite lenZ_app in Hsz. pose proof (header_bound c false tg (lenZ b)). pose proof (lenZ_nonneg b).
    rewrite <- app_assoc. destruct (header_cons c false tg (lenZ b) (b ++ rest)) as (b0 & b1 & r & r' & E & E1 & E2);
      [done | unfold maxInt64 in *; lia | ]. cbn [decodeOne nodeCount] in *. rewrite E.
    destruct (Z.ltb_spec MaxNestingDepth depth); [simpl in *; lia | ]. destruct (Z.ltb_spec maxNodes (nodes + 1)); [lia | ].
    rewrite E1, fbind_Ok, E2, fbind_Ok by (rewrite <- E, !lenZ_app; pose proof (lenZ_nonneg rest); lia).
    rewrite lenZ_app. destruct (Z.ltb_spec (lenZ b + lenZ rest) (lenZ b)); [pose proof (lenZ_nonneg rest); lia | ].
    rewrite !lenZ_nat, take_app_length, drop_app_length, makeElem_ident by done.
    eexists _, _. split_and!; [done | by apply prefix_app_r | ]. constructor. apply lookup_new.
  - cbn [plain] in *. set (bd := concat (map plain ts)) in *. rewrite lenZ_app in Hsz. pose proof (header_bound c true tg (lenZ bd)).
    pose proof (lenZ_nonneg bd). rewrite <- app_assoc.
    destruct (header_cons c true tg (lenZ bd) (bd ++ rest)) as (b0 & b1 & r & r' & E & E1 & E2);
      [done | unfold maxInt64 in *; lia | ]. cbn [decodeOne nodeCount height] in *. rewrite E.
    pose proof (maxBy_nonneg height ts). destruct (Z.ltb_spec MaxNestingDepth depth); [lia | ].
    assert (0 <= sumBy nodeCount ts).
    { clear. induction ts as [ | t ts IH]; simpl; [done | ]. pose proof (nodeCount_pos t). lia. }
    destruct (Z.ltb_spec maxNodes (nodes + 1)); [lia | ].
    rewrite E1, fbind_Ok, E2, fbind_Ok by (rewrite <- E, !lenZ_app; pose proof (lenZ_nonneg rest); lia).
    rewrite lenZ_app. destruct (Z.ltb_spec (lenZ bd + lenZ rest) (lenZ bd)); [pose proof (lenZ_nonneg rest); lia | ].
    rewrite !lenZ_nat, take_app_length, drop_app_length.
    destruct (definiteLoop_plain (decodeOne fuel (depth + 1)) ts) with (fuel := length bd) (nodes := nodes + 1) (h := h)
      as (cs & h1 & E3 & Hp & Hr); [ | done | lia | lia | ].
    + rewrite Forall_forall in *. intros t Ht. pose proof (maxBy_elem height ts t Ht). pose proof (concat_part plain ts t Ht) as Hpt.
      fold bd in Hpt. pose proof (height_nonneg t). apply IH; [done | by auto | lia | lia | lia | lia].
    + unfold bd at 2. rewrite E3, fbind_Ok, makeElem_ident by done. eexists _, _. rewrite Z.add_assoc. split_and!; [done | by apply prefix_app_r | ].
      econstructor; [apply lookup_new | ]. eapply Forall2_impl; [exact Hr | ]. intros a t Ha. eapply rep_prefix; [ | exact Ha]. by apply prefix_app_r.
Qed.

(** *** Any input *)

Lemma fres_bind {A B} (m : option (result message A)) (k : A -> option (result message B)) (P : A -> Prop) (Q : result message B -> Prop) :
  (exists r, m = Some r /\ (forall a, r = Ok a -> P a)) -> (forall e, Q (Err e)) -> (forall a, P a -> exists r, k a = Some r /\ Q r) ->
  exists r, fbind m k = Some r /\ Q r.
Proof. intros (r & -> & Hr) He Hk. destruct r as [a | e]; simpl; eauto. Qed.

Lemma highTag_ok rest : forall t n r, 0 <= t <= maxTagNumber -> highTag t rest = Ok (n, r) -> r `suffix_of` rest /\ 0 <= n <= maxTagNumber.
Proof.
  induction rest as [ | c rest IH]; intros t n r Ht H; [done | ]. cbn [highTag] in H.
  set (t' := Z.lor (uint64 (Z.shiftl t 7)) (Z.land c 127)) in *.
  assert (0 <= t').
  { apply Z.lor_nonneg. split; [unfold uint64; apply Z.mod_pos_bound; lia | ]. rewrite land_127. apply Z.mod_pos_bound. lia. }
  destruct (Z.ltb_spec maxTagNumber t'); [done | ]. destruct (Z.land c 128 =? 0).
  - injection H as <- <-. split; [by exists [c] | lia].
  - apply IH in H as [? ?]; [ | lia]. split; [by apply suffix_cons_r | lia].
Qed.

Lemma readIdent_ok b0 rest c k tg r : 0 <= b0 < 256 -> readIdent b0 rest = Ok (c, k, tg, r) -> identOK c tg /\ r `suffix_of` rest.
Proof.
  intros Hb. unfold readIdent.
  assert (0 <= Z.shiftr b0 6 <= 3).
  { rewrite Z.shiftr_div_pow2 by lia. pose proof (Z.div_pos b0 (2 ^ 6)). pose proof (Z.div_lt_upper_bound b0 (2 ^ 6) 4). lia. }
  assert (0 <= Z.land b0 31 <= 31).
  { pose proof (Z.land_ones b0 5 ltac:(lia)) as E. change (Z.ones 5) with 31 in E. rewrite E. pose proof (Z.mod_pos_bound b0 (2 ^ 5)). lia. }
  destruct (Z.land b0 31 =? 31).
  - intros ([t r'] & H1 & H2)%rbind_Ok_inv. apply highTag_ok in H1 as [? ?]; [ | done]. injection H2 as <- <- <- <-. split; [split; lia | done].
  - intros [= <- <- <- <-]. split; [split; [lia | change maxTagNumber with 16777216; lia] | done].
Qed.

Lemma longLength_ok k avail : forall len rest n r, 0 <= len -> Forall (fun x => 0 <= x < 256) rest -> longLength k len avail rest = Ok (n, r) ->
  0 <= n /\ r `suffix_of` rest.
Proof.
  induction k as [ | k IH]; intros len rest n r Hl Hb H; cbn [longLength] in H; [by injection H as <- <- | ].
  destruct rest as [ | c rest]; [done | ]. inv Hb. destruct (avail <? _); [done | ]. apply IH in H as [? ?]; [ | | done].
  - split; [done | by apply suffix_cons_r].
  - apply Z.lor_nonneg. split; [ | lia]. unfold uint64. apply Z.mod_pos_bound. lia.
Qed.

Lemma readLength_ok avail rest len r : Forall (fun x => 0 <= x < 256) rest -> readLength avail rest = Ok (len, r) ->
  r `suffix_of` rest /\ (length r < length rest)%nat /\ (forall n, len = Some n -> 0 <= n).
Proof.
  intros Hb. destruct rest as [ | l0 rest]; [done | ]. inv Hb. unfold readLength.
  assert (Hs : rest `suffix_of` l0 :: rest) by by exists [l0].
  destruct (Z.land l0 128 =? 0); [intros [= <- <-]; split_and!; [done | simpl; lia | intros ? [= <-]; lia] | ].
  destruct (Z.land l0 127 =? 0); [intros [= <- <-]; split_and!; done || simpl; lia | ].
  destruct (8 <? Z.land l0 127); [done | ].
  intros ([n r'] & H & H')%rbind_Ok_inv. apply longLength_ok in H as [? Hr]; [ | lia | done]. injection H' as <- <-.
  split_and!; [by etransitivity | apply suffix_length in Hr; simpl; lia | by intros ? [= <-]].
Qed.

(** What a call of the decoder leaves: a shorter rest, a larger heap, and an element that
    stands for a tree within the limits. *)
Definition childrenOK (depth nodes nodes' : Z) (h h' : Heap) (cs : list Addr) : Prop :=
  h `prefix_of` h' /\ heapOK h' /\ exists ts, Forall2 (rep h') cs ts /\ Forall wfTree ts /\
  Forall (fun t => depth + height t <= MaxNestingDepth) ts /\ nodes' = nodes + sumBy nodeCount ts /\ nodes' <= maxNodes.

Definition decodedOK (depth : Z) (data : list Z) (nodes : Z) (h : Heap) (x : Addr * list Z * Z * Heap) : Prop :=
  let '(e, rest, nodes', h') := x in
  rest `suffix_of` data /\ (length rest < length data)%nat /\ childrenOK depth nodes nodes' h h' [e].

Definition decodes (depth : Z) (dec : list Z -> Z -> Heap -> option (result message (Addr * list Z * Z * Heap))) : Prop :=
  forall data nodes h, bytesOK data -> heapOK h -> 0 <= nodes <= maxNodes ->
  exists r, dec data nodes h = Some r /\ (forall x, r = Ok x -> decodedOK depth data nodes h x).

Lemma bytesOK_suffix b b' : b' `suffix_of` b -> bytesOK b -> bytesOK b'.
Proof.
  intros [k ->] [Hb Hl]. rewrite lenZ_app in Hl. apply Forall_app in Hb as [_ Hb]. pose proof (lenZ_nonneg k). split; [done | lia].
Qed.

Lemma sumNodes_nonneg ts : 0 <= sumBy nodeCount ts.
Proof. induction ts as [ | t ts IH]; simpl; [done | ]. pose proof (nodeCount_pos t). lia. Qed.

Lemma childrenOK_nil depth nodes h : heapOK h -> nodes <= maxNodes -> childrenOK depth nodes nodes h h [].
Proof. intros. split_and!; try done. exists []. split_and!; try constructor; simpl; lia. Qed.

Lemma childrenOK_cons depth n1 n2 n3 h1 h2 h3 e cs :
  childrenOK depth n1 n2 h1 h2 [e] -> childrenOK depth n2 n3 h2 h3 cs -> childrenOK depth n1 n3 h1 h3 (e :: cs).
Proof.
  intros (Hp1 & _ & ts1 & Hr1 & Hw1 & Hd1 & -> & _) (Hp2 & Hh & ts2 & Hr2 & Hw2 & Hd2 & -> & Hn).
  destruct ts1 as [ | t [ | ? ?]]; inv Hr1; [ | by inv H4]. inv Hw1. inv Hd1. split_and!; [by etransitivity | done | ].
  exists (t :: ts2). split_and!; try by constructor.
  - constructor; [by eapply rep_prefix | done].
  - simpl. lia.
  - simpl in *. lia.
Qed.

Lemma definiteLoop_ok depth dec : decodes depth dec -> forall fuel cdata nodes h,
  bytesOK cdata -> heapOK h -> 0 <= nodes <= maxNodes -> (length cdata <= fuel)%nat ->
  exists r, definiteLoop dec fuel cdata nodes h = Some r /\
    (forall x, r = Ok x -> let '(cs, nodes', h') := x in childrenOK depth nodes nodes' h h' cs).
Proof.
  intros Hdec. induction fuel as [ | fuel IH]; intros cdata nodes h Hb Hh Hn Hf.
  all: destruct cdata as [ | b0 cd] eqn:E;
    [eexists; split; [done | intros x [= <-]]; apply childrenOK_nil; [done | lia] | ]; rewrite <- E in *.
  { subst. simpl in Hf. lia. }
  replace (definiteLoop dec (S fuel) cdata nodes h) with
    (let! (child, r, nodes, h) := dec cdata nodes h in
     let! (children, nodes, h) := definiteLoop dec fuel r nodes h in Some (Ok (child :: children, nodes, h))) by by rewrite E.
  apply (fres_bind _ _ (decodedOK depth cdata nodes h)); [by apply Hdec | done | ]. intros [[[e r] n1] h1] (Hs & Hl & Hc).
  pose proof Hc as (_ & Hh1 & ts & _ & _ & _ & -> & Hn1). pose proof (sumNodes_nonneg ts).
  apply (fres_bind _ _ (fun x => let '(cs, n2, h2) := x in childrenOK depth (nodes + sumBy nodeCount ts) n2 h1 h2 cs)).
  - apply IH; [by eapply bytesOK_suffix | done | lia | lia].
  - done.
  - intros [[cs n2] h2] Hcs. eexists. split; [done | ]. intros x [= <-]. by eapply childrenOK_cons.
Qed.

Lemma endOfContents_suffix rest r : endOfContents rest = Some r -> r `suffix_of` rest.
Proof.
  unfold endOfContents. destruct rest as [ | b0 [ | b1 rest]]; try done. destruct (_ && _); [intros [= <-] | done]. by exists [b0; b1].
Qed.

Lemma indefiniteLoop_ok depth dec : decodes depth dec -> forall fuel rest nodes h,
  bytesOK rest -> heapOK h -> 0 <= nodes <= maxNodes -> (length rest <= fuel)%nat ->
  exists r, indefiniteLoop dec fuel rest nodes h = Some r /\
    (forall x, r = Ok x -> let '(cs, rest', nodes', h') := x in rest' `suffix_of` rest /\ childrenOK depth nodes nodes' h h' cs).
Proof.
  intros Hdec. induction fuel as [ | fuel IH]; intros rest nodes h Hb Hh Hn Hf; cbn [indefiniteLoop].
  all: destruct (endOfContents rest) as [r | ] eqn:Ee;
    [eexists; split; [done | intros x [= <-]]; split; [by apply endOfContents_suffix | apply childrenOK_nil; [done | lia]] | ].
  all: destruct rest as [ | b0 rest0] eqn:E; [eexists; split; [done | by intros ? [=]] | ]; rewrite <- E in *.
  { subst. simpl in Hf. lia. }
  apply (fres_bind _ _ (decodedOK depth rest nodes h)); [by apply Hdec | done | ]. intros [[[e r] n1] h1] (Hs & Hl & Hc).
  pose proof Hc as (_ & Hh1 & ts & _ & _ & _ & -> & Hn1). pose proof (sumNodes_nonneg ts).
  apply (fres_bind _ _ (fun x => let '(cs, r', n2, h2) := x in r' `suffix_of` r /\ childrenOK depth (nodes + sumBy nodeCount ts) n2 h1 h2 cs)).
  - apply IH; [by eapply bytesOK_suffix | done | lia | lia].
  - done.
  - intros [[[cs r'] n2] h2] [Hs' Hcs]. eexists. split; [done | ]. intros x [= <-]. split; [by etransitivity | by eapply childrenOK_cons].
Qed.

(** A new element over children that are there. *)
Lemma heapOK_new h x : heapOK h -> elemOK (length h) x -> heapOK (h ++ [x]).
Proof. intros Hh Hx i y Hy. apply lookup_snoc_Some in Hy as [[_ H] | [-> <-]]; [by apply Hh | done]. Qed.

Lemma rep_children_lt h cs ts : Forall2 (rep h) cs ts -> Forall (fun c => (c < length h)%nat) cs.
Proof. induction 1; constructor; auto. by eapply rep_lookup. Qed.

Lemma childrenOK_parent depth nodes nodes' h h' cs c tg : 0 <= depth <= MaxNestingDepth -> identOK c tg ->
  childrenOK (depth + 1) (nodes + 1) nodes' h h' cs ->
  childrenOK depth nodes nodes' h (h' ++ [mkElem c true tg [] cs]) [length h'].
Proof.
  intros Hd Hid (Hp & Hh & ts & Hr & Hw & Hds & -> & Hn). split_and!; [by apply prefix_app_r | | ].
  { apply heapOK_new; [done | ]. unfold elemOK. cbn [elemClass elemTag elemContent elemChildren elemConstructed].
    split_and!; [done | by split; [constructor | ] | by eapply rep_children_lt | done]. }
  exists [Cons c tg ts]. split_and!; [ | by apply Forall_singleton, wf_cons | | simpl; lia | done].
  - constructor; [ | constructor]. econstructor; [apply lookup_new | ]. eapply Forall2_impl; [exact Hr | ]. intros a t Ha.
    eapply rep_prefix; [ | exact Ha]. by apply prefix_app_r.
  - constructor; [ | constructor]. apply height_children; [lia | done].
Qed.

Lemma childrenOK_leaf depth nodes h c tg b : 0 <= depth <= MaxNestingDepth -> identOK c tg -> bytesOK b -> heapOK h -> nodes + 1 <= maxNodes ->
  childrenOK depth nodes (nodes + 1) h (h ++ [mkElem c false tg b []]) [length h].
Proof.
  intros Hd Hid Hb Hh Hn. split_and!; [by apply prefix_app_r | by apply heapOK_new | ].
  exists [Prim c tg b]. split_and!; [ | by apply Forall_singleton, wf_prim | | simpl; lia | done].
  - constructor; [ | constructor]. constructor. apply lookup_new.
  - constructor; [simpl; lia | constructor].
Qed.

Lemma decodeOne_ok fuel : forall depth, 0 <= depth <= MaxNestingDepth + 1 -> (Z.to_nat (MaxNestingDepth + 2 - depth) <= fuel)%nat ->
  decodes depth (decodeOne fuel depth).
Proof.
  induction fuel as [ | fuel IH]; intros depth Hd Hf data nodes h Hb Hh Hn; [lia | ]. cbn [decodeOne].
  destruct (Z.ltb_spec MaxNestingDepth depth); [by eexists | ]. destruct (Z.ltb_spec maxNodes (nodes + 1)); [by eexists | ].
  destruct data as [ | b0 [ | b1 rest]]; [by eexists | by eexists | ]. set (data := b1 :: rest) in *.
  assert (Hrec : decodes (depth + 1) (decodeOne fuel (depth + 1))) by (apply IH; lia).
  assert (Hb0 : 0 <= b0 < 256) by (destruct Hb as [Hb _]; by inv Hb).
  assert (Hbd : bytesOK data) by (eapply bytesOK_suffix; [by exists [b0] | exact Hb]).
  apply (fres_bind _ _ (fun x => let '(c, k, tg, r) := x in identOK c tg /\ r `suffix_of` data)); [ | done | ].
  { eexists. split; [done | ]. intros [[[c k] tg] r] E. by apply readIdent_ok in E. }
  intros [[[c k] tg] r1] [Hid Hs1]. pose proof (bytesOK_suffix _ _ Hs1 Hbd) as Hb1.
  apply (fres_bind _ _ (fun x => let '(len, r) := x in r `suffix_of` data /\ (length r < length (b0 :: data))%nat /\ forall n, len = Some n -> 0 <= n)); [ | done | ].
  { eexists. split; [done | ]. intros [len r] E. apply readLength_ok in E as (? & ? & ?); [ | apply Hb1].
    split_and!; [by etransitivity | apply suffix_length in Hs1; simpl in *; lia | done]. }
  intros [len r2] (Hs2 & Hl2 & Hlen). pose proof (bytesOK_suffix _ _ Hs2 Hbd) as Hb2.
  assert (Hs0 : r2 `suffix_of` b0 :: data) by by apply suffix_cons_r.
  destruct len as [n | ].
  - specialize (Hlen n eq_refl). destruct (Z.ltb_spec (lenZ r2) n); [by eexists | ]. set (m := Z.to_nat n) in *.
    assert (Hs3 : drop m r2 `suffix_of` b0 :: data) by (etransitivity; [apply suffix_drop | done]).
    assert (Hl3 : (length (drop m r2) < length (b0 :: data))%nat) by (rewrite length_drop; lia).
    assert (Hbc : bytesOK (take m r2)).
    { destruct Hb2 as [Hb2 Hz2]. split; [by apply Forall_take | ]. unfold lenZ in *. rewrite length_take. lia. }
    destruct k.
    + apply (fres_bind _ _ (fun x => let '(cs, nodes', h') := x in childrenOK (depth + 1) (nodes + 1) nodes' h h' cs)); [ | done | ].
      { destruct (definiteLoop_ok (depth + 1) _ Hrec (length (take m r2)) (take m r2) (nodes + 1) h) as (r & E & Hr); [done | done | lia | done | eauto]. }
      intros [[cs n2] h2] Hcs. rewrite makeElem_ident by done. eexists. split; [done | ]. intros x [= <-].
      split_and!; [done | done | ]. apply childrenOK_parent; [lia | done | done].
    + rewrite makeElem_ident by done. eexists. split; [done | ]. intros x [= <-]. split_and!; [done | done | ].
      apply childrenOK_leaf; done || lia.
  - destruct k; cbn [negb]; [ | by eexists].
    apply (fres_bind _ _ (fun x => let '(cs, r3, nodes', h') := x in r3 `suffix_of` r2 /\ childrenOK (depth + 1) (nodes + 1) nodes' h h' cs)); [ | done | ].
    { destruct (indefiniteLoop_ok (depth + 1) _ Hrec (length r2) r2 (nodes + 1) h) as (r & E & Hr); [done | done | lia | done | eauto]. }
    intros [[[cs r3] n2] h2] [Hs3 Hcs]. rewrite makeElem_ident by done. eexists. split; [done | ]. intros x [= <-].
    split_and!; [by etransitivity | apply suffix_length in Hs3; lia | ]. apply childrenOK_parent; [lia | done | done].
Qed.

(** The decoder on any bytes. *)
Lemma decodeTree_ok data h : bytesOK data -> heapOK h -> exists r, decodeTree data h = Some r /\
  (forall e h', r = Ok (e, h') -> h `prefix_of` h' /\ heapOK h' /\ exists t, rep h' e t /\ wfTree t /\
    height t <= MaxNestingDepth /\ nodeCount t <= maxNodes).
Proof.
  intros Hb Hh. pose proof MaxNestingDepth_pos. pose proof MaxDecodedNodes_bound. unfold decodeTree.
  apply (fres_bind _ _ (decodedOK 0 data 0 h)); [ | done | ].
  - apply decodeOne_ok; [lia | unfold depthFuel; lia | done | done | unfold maxNodes; lia].
  - intros [[[e rest] n] h'] (_ & _ & Hp & Hh' & ts & Hr & Hw & Hd & -> & Hn).
    destruct (negb (lenZ rest =? 0)); eexists; (split; [done | ]); [done | ]. intros ? ? [= <- <-].
    destruct ts as [ | t [ | ? ?]]; inv Hr; [ | by inv H6]. inv Hw. inv Hd. simpl in *. split_and!; [done | done | ].
    exists t. split_and!; done || lia.
Qed.
End Decoding.

(** ** Integer contents *)

(** The value of big-endian octets, and of a two's-complement number. *)
Fixpoint unsigned (b : list Z) : Z := match b with [] => 0 | x :: b => x * 256 ^ lenZ b + unsigned b end.
Definition signedOctet (x : Z) : Z := if x <? 128 then x else x - 256.
Definition signed (b : list Z) : Z := match b with [] => 0 | x :: b => signedOctet x * 256 ^ lenZ b + unsigned b end.

Definition octets : list Z -> Prop := Forall (fun x => 0 <= x < 256).

Lemma lenZ_cons {A} (x : A) l : lenZ (x :: l) = lenZ l + 1.
Proof. unfold lenZ. cbn [length]. lia. Qed.

Lemma unsigned_bounds b : octets b -> 0 <= unsigned b < 256 ^ lenZ b.
Proof.
  induction 1 as [ | x b Hx Hb IH]; [done | ]. cbn [unsigned]. rewrite lenZ_cons, Z.pow_add_r by (try lia; apply lenZ_nonneg).
  change (256 ^ 1) with 256. pose proof (lenZ_nonneg b). nia.
Qed.

Lemma sign_bit x : 0 <= x < 256 -> (Z.land x 128 =? 0) = (x <? 128).
Proof.
  intros Hx. apply eqb_prop, (below_all 256 (fun x => Bool.eqb (Z.land x 128 =? 0) (x <? 128))); [by vm_compute | done].
Qed.

Lemma decode_fold b : octets b -> forall v, (length b <= 7)%nat -> - 2 ^ (63 - 8 * lenZ b) <= v < 2 ^ (63 - 8 * lenZ b) ->
  fold_left (fun n c => Z.lor (shl64 n 8) c) b v = v * 256 ^ lenZ b + unsigned b.
Proof.
  induction 1 as [ | x b Hx Hb IH]; intros v Hl Hv; [change (lenZ []) with 0; cbn [fold_left unsigned]; lia | ]. cbn [fold_left unsigned]. pose proof (lenZ_nonneg b).
  rewrite lenZ_cons in *. cbn [length] in Hl.
  replace (63 - 8 * lenZ b) with ((63 - 8 * (lenZ b + 1)) + 8) in IH by lia. rewrite Z.pow_add_r in IH by (unfold lenZ in *; lia).
  assert (2 ^ (63 - 8 * (lenZ b + 1)) <= 2 ^ 55) by (apply Z.pow_le_mono_r; lia).
  unfold shl64. rewrite wrap64_id by (rewrite Z.shiftl_mul_pow2 by lia; unfold int64_range, minInt64, maxInt64; lia).
  rewrite (lor_low 8) by lia. rewrite IH by lia. rewrite Z.pow_add_r by lia. change (2 ^ 8) with 256. change (256 ^ 1) with 256. ring.
Qed.

Lemma decodeIntContent_signed b : octets b -> (1 <= length b <= 8)%nat -> decodeIntContent b = Ok (signed b).
Proof.
  intros Hb Hl. destruct b as [ | x b]; [simpl in Hl; lia | ]. inv Hb. unfold decodeIntContent. cbn [length] in *.
  destruct (Nat.ltb_spec 8 (S (length b))); [lia | ]. rewrite sign_bit by done. cbn [fold_left signed]. f_equal.
  replace (Z.lor _ x) with (signedOctet x).
  - apply decode_fold; [done | lia | ]. assert (2 ^ 7 <= 2 ^ (63 - 8 * lenZ b)) by (apply Z.pow_le_mono_r; unfold lenZ; lia).
    unfold signedOctet. destruct (Z.ltb_spec x 128); lia.
  - unfold signedOctet. destruct (Z.ltb_spec x 128); cbn [negb]; unfold shl64; [done | ].
    change (wrap64 (Z.shiftl (-1) 8)) with (Z.shiftl (-1) 8). rewrite (lor_low 8) by lia. lia.
Qed.

(** A redundant first octet. *)
Definition redundant (x y : Z) : bool := ((x =? 0) && (y <? 128)) || ((x =? 255) && negb (y <? 128)).

Lemma dropRedundant_step x y b : 0 <= y < 256 ->
  dropRedundant (x :: y :: b) = if redundant x y then dropRedundant (y :: b) else x :: y :: b.
Proof.
  intros Hy. unfold redundant. cbn [dropRedundant]. rewrite sign_bit by done.
  destruct (x =? 0), (y <? 128), (x =? 255); done.
Qed.

Lemma redundant_signed x y b : 0 <= y < 256 -> redundant x y = true -> signed (x :: y :: b) = signed (y :: b).
Proof.
  intros Hy. unfold redundant, signed, signedOctet. cbn [unsigned]. rewrite lenZ_cons, Z.pow_add_r by (try lia; apply lenZ_nonneg).
  change (256 ^ 1) with 256. intros H. destruct (Z.ltb_spec y 128).
  - rewrite andb_true_r, andb_false_r, orb_false_r in H. apply Z.eqb_eq in H as ->. simpl. lia.
  - rewrite andb_true_r, andb_false_r in H. apply Z.eqb_eq in H as ->. simpl. ring.
Qed.

(** No shorter content has the value of one without a redundant octet. *)
Lemma signed_bounds b : octets b -> b <> [] -> - 128 * 256 ^ (lenZ b - 1) <= signed b < 128 * 256 ^ (lenZ b - 1).
Proof.
  intros Hb Hn. destruct b as [ | x b]; [done | ]. inv Hb. rewrite lenZ_cons. replace (lenZ b + 1 - 1) with (lenZ b) by lia.
  cbn [signed]. pose proof (unsigned_bounds b H2). unfold signedOctet. destruct (Z.ltb_spec x 128); nia.
Qed.

Lemma irredundant_bounds x y b : octets (x :: y :: b) -> redundant x y = false ->
  signed (x :: y :: b) < - 128 * 256 ^ lenZ b \/ 128 * 256 ^ lenZ b <= signed (x :: y :: b).
Proof.
  intros Hb Hr. inv Hb. inv H2. pose proof (unsigned_bounds b H4). cbn [signed unsigned]. rewrite lenZ_cons, Z.pow_add_r by (try lia; apply lenZ_nonneg).
  change (256 ^ 1) with 256. unfold redundant in Hr. unfold signedOctet. set (p := 256 ^ lenZ b) in *.
  destruct (Z.ltb_spec x 128), (Z.ltb_spec y 128), (Z.eqb_spec x 0), (Z.eqb_spec x 255); try discriminate Hr; try lia.
  all: try (right; nia). all: left; nia.
Qed.

Lemma dropRedundant_spec b : octets b -> b <> [] -> let d := dropRedundant b in
  d `suffix_of` b /\ d <> [] /\ signed d = signed b /\
  (forall b', octets b' -> b' <> [] -> signed b' = signed b -> (length d <= length b')%nat).
Proof.
  induction b as [ | x b IH]; intros Hb Hn d; [done | ]. destruct b as [ | y b].
  { split_and!; try done. intros b' _ Hn' _. destruct b'; [done | simpl; lia]. }
  inversion Hb as [ | ? ? Hx Hyb]; subst. inversion Hyb as [ | ? ? Hy Hb']; subst. unfold d. rewrite dropRedundant_step by done.
  destruct (redundant x y) eqn:Er.
  - destruct (IH Hyb) as (H1 & H2 & H3 & H4); [done | ]. rewrite (redundant_signed x y b Hy Er).
    split_and!; [by apply suffix_cons_r | done | done | done].
  - split_and!; [done | done | done | ]. intros b' Ho Hn' E. destruct (Nat.le_gt_cases (length (x :: y :: b)) (length b')); [done | ].
    pose proof (signed_bounds b' Ho Hn') as Hs. pose proof (irredundant_bounds x y b Hb Er) as Hi. rewrite E in Hs.
    assert (256 ^ (lenZ b' - 1) <= 256 ^ lenZ b) by (apply Z.pow_le_mono_r; unfold lenZ; simpl in *; lia). lia.
Qed.

Lemma putUint64_unsigned u : 0 <= u < 2 ^ 64 -> octets (putUint64 u) /\ unsigned (putUint64 u) = u.
Proof.
  intros Hu. split.
  { apply List.Forall_map. repeat constructor; rewrite land_255; apply Z.mod_pos_bound; lia. }
  unfold putUint64. cbn [map]. rewrite !land_255.
  assert (Hq : forall k, 0 <= k -> Z.shiftr u (8 * k) = 256 * Z.shiftr u (8 * (k + 1)) + Z.shiftr u (8 * k) mod 256).
  { intros k Hk. rewrite (Z.div_mod (Z.shiftr u (8 * k)) 256) at 1 by lia. f_equal. f_equal.
    replace (8 * (k + 1)) with (8 * k + 8) by lia. rewrite <- Z.shiftr_shiftr by lia. by rewrite (Z.shiftr_div_pow2 _ 8). }
  assert (E0 : Z.shiftr u (8 * 0) = 256 * Z.shiftr u (8 * 1) + Z.shiftr u (8 * 0) mod 256) by by apply (Hq 0).
  assert (E1 : Z.shiftr u (8 * 1) = 256 * Z.shiftr u (8 * 2) + Z.shiftr u (8 * 1) mod 256) by by apply (Hq 1).
  assert (E2 : Z.shiftr u (8 * 2) = 256 * Z.shiftr u (8 * 3) + Z.shiftr u (8 * 2) mod 256) by by apply (Hq 2).
  assert (E3 : Z.shiftr u (8 * 3) = 256 * Z.shiftr u (8 * 4) + Z.shiftr u (8 * 3) mod 256) by by apply (Hq 3).
  assert (E4 : Z.shiftr u (8 * 4) = 256 * Z.shiftr u (8 * 5) + Z.shiftr u (8 * 4) mod 256) by by apply (Hq 4).
  assert (E5 : Z.shiftr u (8 * 5) = 256 * Z.shiftr u (8 * 6) + Z.shiftr u (8 * 5) mod 256) by by apply (Hq 5).
  assert (E6 : Z.shiftr u (8 * 6) = 256 * Z.shiftr u (8 * 7) + Z.shiftr u (8 * 6) mod 256) by by apply (Hq 6).
  assert (E7 : Z.shiftr u (8 * 7) = 256 * Z.shiftr u (8 * 8) + Z.shiftr u (8 * 7) mod 256) by by apply (Hq 7).
  assert (E9 : Z.shiftr u (8 * 8) = 0) by (rewrite Z.shiftr_div_pow2 by lia; by apply Z.div_small).
  change (Z.shiftr u (8 * 0)) with u in *. unfold unsigned, lenZ. cbn [length Z.of_nat Pos.of_succ_nat Pos.succ]. lia.
Qed.

Lemma putUint64_signed n : int64_range n -> signed (putUint64 (uint64 n)) = n.
Proof.
  intros Hn. unfold uint64. pose proof (Z.mod_pos_bound n (2 ^ 64) ltac:(lia)) as Hu.
  unfold int64_range, minInt64, maxInt64 in Hn. assert (Hc : n mod 2 ^ 64 = n \/ n mod 2 ^ 64 = n + 2 ^ 64).
  { destruct (Z.lt_ge_cases n 0); [right | left; apply Z.mod_small; lia].
    rewrite <- (Z.mod_add n 1) by lia. rewrite Z.mod_small; lia. }
  set (u := n mod 2 ^ 64) in *. clearbody u. destruct (putUint64_unsigned u Hu) as [Ho Hv]. destruct (putUint64 u) as [ | x b] eqn:E; [done | ].
  assert (Hl : lenZ b = 7) by (unfold putUint64 in E; cbn [map] in E; by injection E as _ <-).
  cbn [signed unsigned] in *. rewrite Hl in *. inv Ho. pose proof (unsigned_bounds b H2) as Hub. rewrite Hl in Hub.
  unfold signedOctet. destruct (Z.ltb_spec x 128); lia.
Qed.

(** The contents of an integer: octets, at most eight, read back, and no shorter content has the value. *)
Lemma encodeIntContent_spec n : int64_range n -> let b := encodeIntContent n in
  octets b /\ (1 <= length b <= 8)%nat /\ decodeIntContent b = Ok n /\
  (forall b', octets b' -> decodeIntContent b' = Ok n -> (length b <= length b')%nat).
Proof.
  intros Hn b. pose proof (Z.mod_pos_bound n (2 ^ 64) ltac:(lia)) as Hu. destruct (putUint64_unsigned (uint64 n) Hu) as [Ho _].
  destruct (dropRedundant_spec (putUint64 (uint64 n)) Ho) as (Hs & Hne & Hv & Hmin); [done | ].
  fold (encodeIntContent n) in *. fold b in Hs, Hne, Hv, Hmin. rewrite putUint64_signed in * by done.
  assert (Hob : octets b) by (destruct Hs as [k E]; unfold octets in *; rewrite E in Ho; by apply Forall_app in Ho as [_ ?]).
  assert (Hlb : (1 <= length b <= 8)%nat).
  { apply suffix_length in Hs. split; [destruct b; [done | simpl; lia] | done]. }
  split_and!; try done; try lia; [by rewrite decodeIntContent_signed, Hv | ].
  intros b' Ho' Hd. destruct b' as [ | x b']; [done | ]. apply Hmin; [done | done | ].
  destruct (Nat.le_gt_cases (length (x :: b')) 8).
  - assert (E : decodeIntContent (x :: b') = Ok (signed (x :: b'))) by (apply decodeIntContent_signed; [done | cbn [length] in *; lia]).
    rewrite E in Hd. injection Hd as Hd. exact Hd.
  - unfold decodeIntContent in Hd. destruct (Nat.ltb_spec 8 (length (x :: b'))); [done | lia].
Qed.

(** ** Object identifiers *)

Lemma digitVal_nonneg c d : digitVal c = Some d -> 0 <= d.
Proof.
  unfold digitVal, inChars. change (byte_of "0") with 48. change (byte_of "a") with 97. change (byte_of "A") with 65.
  repeat split_if; intros [= <-]; b2p; lia.
Qed.

Lemma uintLoop_nonneg base s : 0 <= base -> forall n a, 0 <= n -> uintLoop base n s = Ok a -> 0 <= a.
Proof.
  intros Hb. induction s as [ | c s IH]; intros n a Hn H; cbn [uintLoop] in H; [by injection H as <- | ].
  destruct (digitVal c) as [d | ] eqn:E; [ | done]. apply digitVal_nonneg in E. destruct (base <=? d); [done | ].
  destruct (_ <? _); [done | ]. apply IH in H; [done | nia].
Qed.

Lemma ParseUint_nonneg p a : ParseUint p 10 = Ok a -> 0 <= a.
Proof. unfold ParseUint. destruct (bool_decide (p = "")); [done | ]. by apply uintLoop_nonneg. Qed.

Lemma parseArcs_ok parts : forall arcs, parseArcs parts = Ok arcs ->
  Forall2 (fun p a => ParseUint p 10 = Ok a) parts arcs /\ Forall (fun a => 0 <= a <= maxOIDArc) arcs.
Proof.
  induction parts as [ | p parts IH]; intros arcs H; cbn [parseArcs] in H; [by injection H as <- | ].
  destruct (ParseUint p 10) as [a | ] eqn:E; [ | done]. destruct (Z.ltb_spec maxOIDArc a); [done | ].
  apply rbind_Ok_inv in H as (arcs' & H & H'). injection H' as <-. apply IH in H as [? ?]. pose proof (ParseUint_nonneg p a E).
  split; constructor; done || lia.
Qed.

Lemma decodeArcs_concat arcs : Forall (fun a => 0 <= a <= maxOIDArc) arcs -> decodeArcs 0 false (concat (map base128 arcs)) = Ok arcs.
Proof.
  induction 1 as [ | a arcs Ha H IH]; [done | ]. cbn [map concat]. rewrite decodeArcs_base128 by lia. by rewrite IH.
Qed.

Lemma base128_nonempty v : 0 <= v -> base128 v <> [].
Proof. intros Hv. rewrite base128_split by done. by destruct (leading 9 (v / 128)). Qed.

Lemma Join_dotted a arcs : Join (map FormatInt (a :: arcs)) "." = FormatInt a +:+ dotted arcs.
Proof.
  revert a. induction arcs as [ | b arcs IH]; intros a; cbn [map Join dotted]; [by rewrite string_app_nil_r | ].
  f_equal. cbn [map] in IH. by rewrite <- IH.
Qed.

(** Reading back the arcs of an identifier. *)
Lemma oid_roundtrip s b : encodeOID s = Ok b ->
  exists arcs, Forall2 (fun p a => ParseUint p 10 = Ok a) (Split s ".") arcs /\ decodeOID b = Ok (Join (map FormatInt arcs) ".").
Proof.
  unfold encodeOID. destruct (Nat.ltb_spec (length (Split s ".")) 2) as [ | Hlen]; [done | ].
  intros (arcs & Hp & H)%rbind_Ok_inv. apply parseArcs_ok in Hp as [H2 Ha]. exists arcs. split; [done | ].
  destruct arcs as [ | a0 [ | a1 arcs]]; [apply Forall2_length in H2; simpl in H2; lia.. | ].
  inversion Ha as [ | ? ? Ha0 Ha']; subst. inversion Ha' as [ | ? ? Ha1 Hr]; subst. change maxOIDArc with 144115188075855871 in *.
  destruct (Z.ltb_spec 2 a0); [done | ]. destruct ((a0 <? 2) && (40 <=? a1)) eqn:Ec; [done | ]. injection H as <-.
  assert (Hc : a0 = 2 \/ a1 < 40). { apply andb_false_iff in Ec as [Ec | Ec]; b2p; lia. }
  rewrite uint64_id by lia. pose proof (base128_nonempty (a0 * 40 + a1)) as Hne. unfold decodeOID.
  destruct (base128 (a0 * 40 + a1) ++ concat (map base128 arcs)) as [ | x l] eqn:E.
  { apply app_eq_nil in E as [E _]. exfalso. apply Hne; [lia | done]. }
  rewrite <- E, decodeArcs_base128, decodeArcs_concat by (change maxOIDArc with 144115188075855871; done || lia). cbn [rbind].
  rewrite Join_dotted. cbn [dotted].
  destruct (Z.ltb_spec (a0 * 40 + a1) 80).
  - rewrite Z.div_add_l, (Z.div_small a1), Z.add_0_r by lia. by rewrite (Z.add_comm _ a1), Z.mod_add, Z.mod_small by lia.
  - replace a0 with 2 by lia. by replace (2 * 40 + a1 - 80) with a1 by lia.
Qed.

Lemma octet_lor128 k : 0 <= k < 128 -> 0 <= Z.lor 128 k < 256.
Proof.
  intros Hk. assert (H : ((0 <=? Z.lor 128 k) && (Z.lor 128 k <? 256)) = true); [ | b2p; lia].
  apply (below_all 128 (fun k => (0 <=? Z.lor 128 k) && (Z.lor 128 k <? 256))); [by vm_compute | done].
Qed.

(** The size of an identifier. *)
Lemma base128_octets v : octets (base128 v).
Proof.
  unfold base128. destruct (v =? 0); [by repeat constructor | ].
  assert (H : forall fuel v, Forall (fun s => 0 <= s < 128) (base128Loop fuel v)).
  { induction fuel as [ | fuel IH]; intros u; cbn [base128Loop]; [constructor | ]. destruct (0 <? u); [ | constructor].
    constructor; [ | apply IH]. rewrite uint8_127. apply Z.mod_pos_bound. lia. }
  specialize (H 10%nat v). unfold continued. destruct (base128Loop 10 v) as [ | l tmp]; [constructor | ]. inv H.
  apply Forall_rev. constructor; [lia | ]. apply List.Forall_map. eapply Forall_impl; [exact H3 | ]. intros s Hs.
  by apply octet_lor128.
Qed.

Lemma countLoop_le fuel : forall s p, (countLoop fuel s p <= fuel)%nat.
Proof. induction fuel as [ | fuel IH]; intros s p; simpl; [done | ]. destruct (index s p); [specialize (IH (sdrop (n + String.length p) s) p) | ]; lia. Qed.

Lemma splitParts_length n : forall s sep, (length (splitParts n s sep) <= S n)%nat.
Proof. induction n as [ | n IH]; intros s sep; simpl; [done | ]. destruct (index s sep); simpl; [specialize (IH (sdrop (n0 + String.length sep) s) sep) | ]; lia. Qed.

Lemma encodeOID_bytes s b : encodeOID s = Ok b -> slen s <= 2 ^ 48 -> bytesOK b.
Proof.
  unfold encodeOID. destruct (Nat.ltb_spec (length (Split s ".")) 2) as [ | Hlen]; [done | ].
  intros (arcs & Hp & H)%rbind_Ok_inv Hs. apply parseArcs_ok in Hp as [H2 _]. apply Forall2_length in H2.
  assert (length (Split s ".") <= S (String.length s))%nat as Hn.
  { unfold Split, count. simpl String.eqb. cbv iota. pose proof (splitParts_length (countLoop (String.length s) s ".") s ".").
    pose proof (countLoop_le (String.length s) s "."). lia. }
  destruct arcs as [ | a0 [ | a1 arcs]]; [by injection H as <-; split; [constructor | ].. | ].
  destruct (2 <? a0); [done | ]. destruct (_ && _); [done | ]. injection H as <-. split.
  - apply Forall_app. split; [apply base128_octets | ]. apply Forall_concat, List.Forall_map, Forall_forall. intros a _. apply base128_octets.
  - rewrite lenZ_app, lenZ_concat, sumBy_map. pose proof (base128_length (uint64 (a0 * 40 + a1))).
    assert (sumBy (fun x => lenZ (base128 x)) arcs <= 10 * lenZ arcs).
    { clear. induction arcs as [ | a arcs IH]; [done | ]. rewrite lenZ_cons. pose proof (base128_length a). simpl. lia. }
    unfold slen, lenZ, maxInt64 in *. simpl in H2. lia.
Qed.

(** *** The octets of an encoding *)

Lemma header_octets c k tg n : identOK c tg -> 0 <= n < 2 ^ 63 -> octets (header c k tg n).
Proof.
  intros [Hc Ht] Hn. apply Forall_app. split.
  - unfold ident, identOctets. cbn [elemClass elemConstructed elemTag]. destruct (Z.ltb_spec tg 31).
    + constructor; [ | constructor]. apply (ident_octet c k tg); lia.
    + constructor; [apply (ident_octet c k 31); lia | apply base128_octets].
  - destruct (encodeLength_cases n Hn) as [[? ->] | (_ & Hl & ->)]; [by constructor; [lia | constructor] | ].
    constructor; [ | apply lengthLoop_bytes]. apply octet_lor128. unfold uint8. rewrite Z.mod_small; lia.
Qed.

Lemma plain_octets t : wfTree t -> lenZ (plain t) <= maxInt64 -> octets (plain t).
Proof.
  induction t as [c tg b | c tg ts IH] using tree_ind; intros Hw Hl; inv Hw; cbn [plain] in *; rewrite lenZ_app in Hl.
  - pose proof (header_bound c false tg (lenZ b)). pose proof (lenZ_nonneg b). destruct H3 as [Hb _].
    apply Forall_app. split; [apply header_octets; [done | unfold maxInt64 in *; lia] | done].
  - set (bd := concat (map plain ts)) in *. pose proof (header_bound c true tg (lenZ bd)). pose proof (lenZ_nonneg bd).
    apply Forall_app. split; [apply header_octets; [done | unfold maxInt64 in *; lia] | ].
    apply Forall_concat, List.Forall_map. rewrite Forall_forall in *. intros t Ht. apply IH; [done | by auto | ].
    pose proof (concat_part plain ts t Ht) as Hp. fold bd in Hp. lia.
Qed.

(** ** Builtins *)

Definition argOK (v : Value) : Prop :=
  match v with
  | VBytes b => bytesOK b
  | VString s _ => slen s <= 2 ^ 48
  | VInt n => int64_range n
  | _ => True
  end.

Definition resultOK (h : Heap) (v : Value) : Prop :=
  match v with VObject _ _ (Some (p, None)) => (p < length h)%nat | _ => True end.

Definition extends (h h' : Heap) : Prop := h `prefix_of` h' /\ heapOK h'.

Definition builtinOK (f : Heap -> list Value -> option (result message (Value * Heap))) : Prop :=
  forall h args, heapOK h -> Forall argOK args ->
  exists r, f h args = Some r /\ (forall v h', r = Ok (v, h') -> extends h h' /\ resultOK h' v).

Lemma reads_ok h (r : result message Value) : heapOK h -> (forall v, r = Ok v -> resultOK h v) ->
  exists x, reads h r = Some x /\ (forall v h', x = Ok (v, h') -> extends h h' /\ resultOK h' v).
Proof. intros Hh Hr. destruct r as [v | e]; eexists; (split; [done | ]); [ | done]. intros ? ? [= <- <-]. split; [by split | by apply Hr]. Qed.

Lemma builds_ok h (r : result message (Addr * Heap)) :
  (forall e h', r = Ok (e, h') -> extends h h' /\ (e < length h')%nat) ->
  exists x, builds r = Some x /\ (forall v h', x = Ok (v, h') -> extends h h' /\ resultOK h' v).
Proof. intros Hr. destruct r as [[e h'] | m]; eexists; (split; [done | ]); [ | done]. intros ? ? [= <- <-]. by apply Hr. Qed.

Lemma makeElem_ok c tg k b cs h e h' : heapOK h -> elemOK (length h) (mkElem c k tg b cs) ->
  @Ok message _ (makeElem c tg k b cs h) = Ok (e, h') -> extends h h' /\ (e < length h')%nat.
Proof.
  intros Hh Hx. destruct Hx as (Hid & Hx). rewrite makeElem_ident by apply Hid. intros [= <- <-]. split.
  - split; [by apply prefix_app_r | by apply heapOK_new].
  - rewrite length_app. simpl. lia.
Qed.

Lemma leaf_ok tg b h e h' : heapOK h -> 0 <= tg <= 24 -> bytesOK b ->
  @Ok message _ (makeElem classUniversal tg false b [] h) = Ok (e, h') -> extends h h' /\ (e < length h')%nat.
Proof.
  intros Hh Ht Hb. apply makeElem_ok; [done | ]. split_and!; [ | done | constructor | done].
  split; [cbv; split; discriminate | ]. change maxTagNumber with 16777216. simpl. lia.
Qed.

Lemma octets_short b : octets b -> (length b <= 8)%nat -> bytesOK b.
Proof. intros Ho Hl. split; [done | ]. unfold lenZ, maxInt64. lia. Qed.

Lemma bytesOf_ok s : slen s <= 2 ^ 48 -> bytesOK (bytesOf s).
Proof.
  assert (H : octets (bytesOf s) /\ lenZ (bytesOf s) = slen s).
  { induction s as [ | c s [IH1 IH2]]; [by repeat constructor | ]. cbn [bytesOf]. rewrite lenZ_cons, IH2. split.
    - constructor; [ | done]. pose proof (N_ascii_bounded c). lia.
    - unfold slen. cbn [String.length]. lia. }
  destruct H as [H1 H2]. intros Hs. split; [done | ]. rewrite H2. unfold maxInt64. lia.
Qed.

Lemma takeElem_ok fn h v e : takeElem fn h v = Ok e -> (e < length h)%nat.
Proof.
  destruct v as [ | | | | | | | | | | ns name [[p [ | ]] | ] | | | ]; try done; cbn [takeElem]; destruct (_ && _); try done.
  destruct (Nat.ltb_spec p (length h)); [by intros [= <-] | done].
Qed.

Lemma childAt_ok fn h cur tok e : heapOK h -> (cur < length h)%nat -> childAt fn h cur tok = Ok e -> (e < length h)%nat.
Proof.
  intros Hh Hc. destruct (lookup_lt_is_Some_2 h cur Hc) as [x Hx]. destruct (Hh cur x Hx) as (_ & _ & Hcs & _).
  unfold childAt. rewrite (load_lookup _ _ _ Hx). destruct (ParseInt tok 10) as [idx | ]; [ | done]. destruct (idx <? 0); [done | ].
  destruct (negb _); [done | ]. destruct (elemChildren x !! Z.to_nat idx) as [ch | ] eqn:E; [ | done]. intros [= <-].
  rewrite Forall_lookup in Hcs. apply Hcs in E. lia.
Qed.

Lemma walkTokens_ok fn h toks e : heapOK h -> forall cur, (cur < length h)%nat -> walkTokens fn h cur toks = Ok e -> (e < length h)%nat.
Proof.
  intros Hh. induction toks as [ | tok toks IH]; intros cur Hc H; cbn [walkTokens] in H; [by injection H as <- | ].
  apply rbind_Ok_inv in H as (a & H1 & H2). eapply IH; [ | exact H2]. by eapply childAt_ok.
Qed.

Lemma resolvePointer_ok fn h node ptr e : heapOK h -> (node < length h)%nat -> resolvePointer fn h node ptr = Ok e -> (e < length h)%nat.
Proof.
  intros Hh Hn. destruct ptr as [ | c ptr]; cbn [resolvePointer]; [by intros [= <-] | ]. destruct (negb _); [done | ].
  by apply walkTokens_ok.
Qed.

Lemma nodeAt_ok fn h args e : heapOK h -> nodeAt fn h args = Ok e -> (e < length h)%nat.
Proof.
  intros Hh. destruct args as [ | v [ | p [ | ? ?]]]; cbn [nodeAt]; try done.
  - intros (a & H1 & H2)%rbind_Ok_inv. apply takeElem_ok in H1. by eapply resolvePointer_ok.
  - intros (a & H1 & H2)%rbind_Ok_inv. apply takeElem_ok in H1. destruct p; try done. by eapply resolvePointer_ok.
Qed.

Lemma childLoop_ok fn h vs : forall i es, childLoop fn h i vs = Ok es -> Forall (fun c => (c < length h)%nat) es.
Proof.
  induction vs as [ | v vs IH]; intros i es H; cbn [childLoop] in H; [by injection H as <- | ].
  destruct (takeElem fn h v) eqn:E; [ | done]. apply rbind_Ok_inv in H as (a' & H1 & H2). injection H2 as <-.
  constructor; [by eapply takeElem_ok | by eapply IH].
Qed.

Lemma classAndTag_ok fn h args c tg e : classAndTag fn h args = Ok (c, tg, e) -> identOK c tg /\ (e < length h)%nat.
Proof.
  destruct args as [ | v1 [ | v2 [ | v3 [ | ? ?]]]]; cbn [classAndTag]; try done. destruct v1; try done.
  intros (c' & H1 & H)%rbind_Ok_inv. destruct v2 as [ | tag | | | | | | | | | | | | ]; try done.
  destruct ((tag <? 0) || (maxTagNumber <? tag)) eqn:Et; [done | ]. apply rbind_Ok_inv in H as (a & H2 & [= <- <- <-]).
  apply orb_false_iff in Et as [? ?]. b2p. split; [ | by eapply takeElem_ok]. split; [ | lia].
  unfold className in H1. repeat (destruct (String.eqb _ _); [injection H1 as <-; cbv; split; discriminate | ]). done.
Qed.

(** Walk through a builtin whose result is no object. *)
Ltac plainResult :=
  repeat match goal with
  | H : (let x := _ in _) = Ok _ |- _ => cbv zeta in H
  | H : rbind _ _ = Ok _ |- _ => apply rbind_Ok_inv in H as (? & ? & H)
  | H : (if ?b then _ else _) = Ok _ |- _ => destruct b
  | H : (match ?l with [] => _ | _ :: _ => _ end) = Ok _ |- _ => destruct l
  | H : (match ?v with VNull => _ | _ => _ end) = Ok _ |- _ => destruct v
  | H : aerr _ _ = Ok _ |- _ => discriminate H
  | H : Ok _ = Ok _ |- _ => injection H as <-
  end; try done.

Section AllBuiltins.
Context {L : Limits}.

Lemma decodeFn_ok : builtinOK decodeFn.
Proof.
  intros h args Hh Ha. destruct args as [ | v [ | ? ?]]; [by eexists | | by eexists; split; [destruct v | ]].
  destruct v; try by eexists. inv Ha. unfold decodeFn.
  apply (fres_bind _ _ (fun x => let '(e, h') := x in extends h h' /\ (e < length h')%nat)); [ | done | ].
  - destruct (decodeTree_ok Bytes h H1 Hh) as (r & -> & Hr). eexists. split; [done | ]. intros [e h'] ->.
    destruct (Hr e h' eq_refl) as (? & ? & t & ? & _). split; [by split | by eapply rep_lookup].
  - intros [e h'] [He Hl]. eexists. split; [done | ]. intros ? ? [= <- <-]. done.
Qed.

Lemma encodeFn_ok : builtinOK encodeFn.
Proof.
  intros h args Hh Ha. destruct args as [ | v [ | ? ?]]; [by eexists | | by eexists]. unfold encodeFn.
  apply (fres_bind _ _ (fun e => (e < length h)%nat)); [ | done | ].
  { eexists. split; [done | ]. intros e. apply takeElem_ok. }
  intros e He. destruct (rep_exists h Hh e He) as (t & Hr & Hw).
  destruct (encodeTree_spec h e t Hh Hr Hw) as [(_ & _ & ->) | (_ & m & ->)]; eexists; (split; [done | ]); [ | done].
  intros ? ? [= <- <-]. split; [by split | done].
Qed.

Lemma getFn_ok : builtinOK getFn.
Proof.
  intros h args Hh Ha. apply reads_ok; [done | ]. intros v (e & H & [= <-])%rbind_Ok_inv. by eapply nodeAt_ok.
Qed.

Lemma readers_ok : Forall builtinOK
  [typeOfFn; tagClassFn; tagNumberFn; isConstructedFn; hasFn; lengthFn; asIntFn; asBoolFn; asStringFn; asBytesFn; asOidFn; isNullFn].
Proof.
  repeat (constructor; [intros h args Hh Ha; apply reads_ok; [done | ]; intros v H; plainResult | ]). constructor.
Qed.

Lemma oneInt_ok fn args n : Forall argOK args -> oneInt fn args = Ok n -> int64_range n.
Proof. intros Ha. destruct args as [ | [] [ | ? ?]]; try done. inv Ha. by intros [= <-]. Qed.

Lemma oneBytes_ok fn args b : Forall argOK args -> oneBytes fn args = Ok b -> bytesOK b.
Proof. intros Ha. destruct args as [ | [] [ | ? ?]]; try done. inv Ha. by intros [= <-]. Qed.

Lemma oneString_ok fn args s : Forall argOK args -> oneString fn args = Ok s -> slen s <= 2 ^ 48.
Proof. intros Ha. destruct args as [ | [] [ | ? ?]]; try done. inv Ha. by intros [= <-]. Qed.

Lemma intContent_ok n : int64_range n -> bytesOK (encodeIntContent n).
Proof. intros Hn. destruct (encodeIntContent_spec n Hn) as (? & [_ ?] & _). by apply octets_short. Qed.

Lemma leaves_ok : Forall builtinOK
  [integerFn; enumeratedFn; booleanFn; nullFn; octetStringFn; utf8StringFn; printableStringFn; ia5StringFn; oidFn].
Proof.
  repeat (constructor; [intros h args Hh Ha; apply builds_ok; intros e h' H | ]); try apply Forall_nil_2.
  - apply rbind_Ok_inv in H as (n & H1%oneInt_ok & H); [ | done]. revert H. apply leaf_ok; [done | done | by apply intContent_ok].
  - apply rbind_Ok_inv in H as (n & H1%oneInt_ok & H); [ | done]. revert H. apply leaf_ok; [done | done | by apply intContent_ok].
  - destruct args as [ | [] [ | ? ?]]; try done. revert H. apply leaf_ok; [done | done | ].
    apply octets_short; [ | simpl; lia]. constructor; [split_if; lia | constructor].
  - destruct args; [ | done]. revert H. by apply leaf_ok.
  - apply rbind_Ok_inv in H as (b & H1%oneBytes_ok & H); [ | done]. revert H. by apply leaf_ok.
  - apply rbind_Ok_inv in H as (s & H1%oneString_ok & H); [ | done]. revert H. apply leaf_ok; [done | done | by apply bytesOf_ok].
  - apply rbind_Ok_inv in H as (s & H1%oneString_ok & H); [ | done]. destruct (firstBad _ _ _) as [[? ?] | ]; [done | ].
    revert H. apply leaf_ok; [done | done | by apply bytesOf_ok].
  - apply rbind_Ok_inv in H as (s & H1%oneString_ok & H); [ | done]. destruct (firstBad _ _ _) as [[? ?] | ]; [done | ].
    revert H. apply leaf_ok; [done | done | by apply bytesOf_ok].
  - apply rbind_Ok_inv in H as (s & H1%oneString_ok & H); [ | done]. apply rbind_Ok_inv in H as (b & H2 & H). revert H.
    apply leaf_ok; [done | done | ]. unfold behind in H2. destruct (encodeOID s) eqn:E; [ | done]. injection H2 as <-. by eapply encodeOID_bytes.
Qed.

Lemma containerFn_ok fn tg : 0 <= tg <= maxTagNumber -> builtinOK (containerFn fn tg).
Proof.
  intros Ht h args Hh Ha. apply builds_ok. intros e h' H. destruct args as [ | v [ | ? ?]]; try done.
  apply rbind_Ok_inv in H as (cs & H1 & H). revert H. apply makeElem_ok; [done | ].
  split_and!; [split; [cbv; split; discriminate | exact Ht] | by split; [constructor | ] | | done].
  destruct v; try done. by eapply childLoop_ok.
Qed.

Lemma taggedFn_ok : builtinOK taggedFn.
Proof.
  intros h args Hh Ha. apply builds_ok. intros e h' H. apply rbind_Ok_inv in H as ([[c tg] inner] & H1%classAndTag_ok & H).
  destruct H1 as [Hid Hi]. revert H. apply makeElem_ok; [done | ]. split_and!; [done | by split; [constructor | ] | by repeat constructor | done].
Qed.

Lemma retagFn_ok : builtinOK retagFn.
Proof.
  intros h args Hh Ha. apply builds_ok. intros e h' H. apply rbind_Ok_inv in H as ([[c tg] inner] & H1%classAndTag_ok & H).
  destruct H1 as [Hid Hi]. revert H. destruct (lookup_lt_is_Some_2 h inner Hi) as [x Hx]. rewrite (load_lookup _ _ _ Hx).
  destruct (Hh inner x Hx) as (_ & Hb & Hcs & Hk). apply makeElem_ok; [done | ]. split_and!; [done | done | | done].
  eapply Forall_impl; [exact Hcs | ]. simpl. lia.
Qed.

Lemma builtins_ok : Forall (fun b => builtinOK (snd b)) asn1Builtins.
Proof.
  pose proof readers_ok as Hr. pose proof leaves_ok as Hl.
  repeat match goal with H : Forall _ (_ :: _) |- _ => inv H end.
  repeat constructor; simpl; try assumption; auto using decodeFn_ok, encodeFn_ok, getFn_ok, taggedFn_ok, retagFn_ok.
  all: apply containerFn_ok; change maxTagNumber with 16777216; cbv; split; discriminate.
Qed.
End AllBuiltins.

(** ** The order of a SET *)

Lemma bytesLess_asym a : forall b, bytesLess a b = true -> bytesLess b a = false.
Proof.
  induction a as [ | x a IH]; intros [ | y b]; try done. cbn [bytesLess]. intros H.
  destruct (Z.ltb_spec x y), (Z.ltb_spec y x), (Z.eqb_spec x y), (Z.eqb_spec y x); simpl in *; try lia; try done. by apply IH.
Qed.

Lemma bytesLess_total a : forall b, bytesLess a b = false -> bytesLess b a = false -> a = b.
Proof.
  induction a as [ | x a IH]; intros [ | y b]; try done. cbn [bytesLess].
  destruct (Z.ltb_spec x y), (Z.ltb_spec y x), (Z.eqb_spec x y), (Z.eqb_spec y x); simpl; try lia; try done. subst. intros. f_equal. by apply IH.
Qed.

Lemma bytesLess_trans a : forall b c, bytesLess b a = false -> bytesLess c b = false -> bytesLess c a = false.
Proof.
  induction a as [ | x a IH]; intros [ | y b] [ | z c]; try done. cbn [bytesLess]. rewrite !orb_false_iff.
  intros [H1 H2] [H3 H4]. split; [b2p; lia | ]. destruct (Z.eqb_spec z x); [ | done]. destruct (Z.eqb_spec y x), (Z.eqb_spec z y); simpl in *; b2p; try lia.
  by eapply IH.
Qed.

Lemma bytes_sort_perm l l' : l ≡ₚ l' -> sliceStable bytesLess l = sliceStable bytesLess l'.
Proof.
  intros Hp. apply (sorted_unique (fun a b => bytesLess b a = false)).
  - intros a b _ _ H1 H2. by apply bytesLess_total.
  - by rewrite !sliceStable_perm.
  - apply (sliceStable_sorted _ (fun _ => True)); [intros; by apply bytesLess_asym | intros; by eapply bytesLess_trans | by apply Forall_true].
  - apply (sliceStable_sorted _ (fun _ => True)); [intros; by apply bytesLess_asym | intros; by eapply bytesLess_trans | by apply Forall_true].
Qed.

Lemma derBody_set tg l l' : isSet 0 tg = true -> l ≡ₚ l' -> derBody 0 tg l = derBody 0 tg l'.
Proof. intros Hs Hp. unfold derBody. rewrite Hs. by rewrite (bytes_sort_perm l l' Hp). Qed.

Lemma der_canon t : der (canon t) = der t.
Proof.
  induction t as [c tg b | c tg ts IH] using tree_ind; [done | ].
  assert (E : map der (map canon ts) = map der ts) by (rewrite map_map; by apply map_ext_Forall_eq).
  cbn [canon der]. unfold derBody. destruct (isSet c tg); [ | by rewrite E].
  rewrite (bytes_sort_perm (map der _) (map der ts)); [done | ]. rewrite <- E. by rewrite sliceStable_perm.
Qed.

(** ** Equality *)

Lemma allEqual_spec h f cs1 cs2 ts1 ts2 :
  Forall (fun t1 => forall a b t2, rep h a t1 -> rep h b t2 -> exists r, f a b = Some r /\ (r = true <-> t1 = t2)) ts1 ->
  Forall2 (rep h) cs1 ts1 -> Forall2 (rep h) cs2 ts2 -> length cs1 = length cs2 ->
  exists r, allEqual f cs1 cs2 = Some r /\ (r = true <-> ts1 = ts2).
Proof.
  intros Hf H1. revert cs2 ts2.
  induction H1 as [ | a t1 cs1 ts1 Ha H1 IH]; intros cs2 ts2 H2 Hl; inversion H2 as [ | b t2 cs2' ts2' Hb H2']; subst; try done; [by exists true | ].
  inversion Hf as [ | ? ? Hft Hfs]; subst. destruct (Hft a b t2 Ha Hb) as (r & E & Hr). cbn [allEqual]. rewrite E. destruct r.
  - destruct (IH Hfs cs2' ts2' H2') as (r & -> & Hr'); [by injection Hl | ]. exists r. split; [done | ].
    rewrite Hr'. assert (t1 = t2) as -> by by apply Hr. split; [by intros -> | by intros [= ->]].
  - exists false. split; [done | ]. split; [done | ]. intros [= Et _]. by apply Hr in Et.
Qed.

Section Equality.
Context {L : Limits}.

Lemma elemEqual_spec h t1 : forall fuel depth a b t2,
  0 <= depth -> depth + height t1 <= MaxNestingDepth -> (Z.to_nat (height t1) < fuel)%nat -> rep h a t1 -> rep h b t2 ->
  exists r, elemEqual fuel h depth a b = Some r /\ (r = true <-> t1 = t2).
Proof.
  induction t1 as [c tg bs | c tg ts IH] using tree_ind; intros fuel depth a b t2 Hd Hh Hf Ha Hb.
  all: (destruct fuel as [ | fuel]; [lia | ]); cbn [elemEqual].
  all: destruct (Nat.eqb_spec a b) as [<- | Hne]; [exists true; split; [done | ]; split; [by intros _; eapply rep_fun | done] | ].
  all: inversion Ha as [? ? ? ? Hx | ? ? ? cs1 ? Hx Hc1]; inversion Hb as [? ? ? ? Hy | ? ? ? cs2 ts2 Hy Hc2]; subst.
  all: rewrite (load_lookup _ _ _ Hx), (load_lookup _ _ _ Hy); cbn [elemClass elemTag elemConstructed elemContent elemChildren Bool.eqb negb length].
  all: rewrite ?orb_true_r; cbn [orb]; try (exists false; by split).
  - destruct (Z.ltb_spec MaxNestingDepth depth); [simpl in *; lia | ]. cbn [Nat.eqb allEqual negb]. rewrite !orb_false_r.
    repeat match goal with |- context [(?x =? ?y)%Z] => destruct (Z.eqb_spec x y) end; cbn [negb orb];
      try (exists false; split; [done | ]; split; congruence).
    subst. case_bool_decide; cbn [negb]; [exists true | exists false]; (split; [done | ]); split; congruence.
  - destruct (Z.ltb_spec MaxNestingDepth depth); [pose proof (height_nonneg (Cons c tg ts)); lia | ].
    rewrite bool_decide_true by done. cbn [negb]. rewrite !orb_false_r.
    repeat match goal with |- context [(?x =? ?y)%Z] => destruct (Z.eqb_spec x y) end; cbn [negb orb];
      try (exists false; split; [done | ]; split; congruence).
    subst. destruct (Nat.eqb_spec (length cs1) (length cs2)) as [El | El]; cbn [negb].
    + destruct (allEqual_spec h (elemEqual fuel h (depth + 1)) cs1 cs2 ts ts2) as (r & -> & Hr); [ | done | done | done | ].
      * cbn [height] in *. rewrite Forall_forall in *. intros t Ht a' b' t2 Ha' Hb'. pose proof (maxBy_elem height ts t Ht). pose proof (height_nonneg t).
        apply IH; done || lia.
      * exists r. split; [done | ]. rewrite Hr. split; congruence.
    + exists false. split; [done | ]. split; [done | ]. intros [= ->]. apply Forall2_length in Hc1, Hc2. lia.
Qed.

(** Two chains of explicit tags over a null, [k] levels each, built one after the other. *)
Definition chain (o k : nat) : Heap := mkElem 0 false 5 [] [] :: map (fun i => mkElem 2 true 0 [] [(o + i)%nat]) (seq 0 k).
Definition twoChains (k : nat) : Heap := chain 0 k ++ chain (S k) k.

Fixpoint chainTree (k : nat) : tree := match k with O => Prim 0 5 [] | S k => Cons 2 0 [chainTree k] end.

Lemma chain_lookup o k i : (i <= k)%nat ->
  chain o k !! i = Some (match i with O => mkElem 0 false 5 [] [] | S i => mkElem 2 true 0 [] [(o + i)%nat] end).
Proof.
  intros Hi. destruct i as [ | i]; [done | ]. unfold chain. simpl. rewrite list_lookup_fmap, lookup_seq_lt by lia. done.
Qed.

Lemma twoChains_lookup k i : (i <= k)%nat ->
  twoChains k !! i = Some (match i with O => mkElem 0 false 5 [] [] | S i => mkElem 2 true 0 [] [i] end) /\
  twoChains k !! (S k + i)%nat = Some (match i with O => mkElem 0 false 5 [] [] | S i => mkElem 2 true 0 [] [(S k + i)%nat] end).
Proof.
  intros Hi. assert (Hl : length (chain 0 k) = S k) by (unfold chain; cbn [length]; by rewrite length_map, length_seq).
  unfold twoChains. split.
  - apply lookup_app_l_Some. rewrite chain_lookup by done. by destruct i.
  - etransitivity; [apply lookup_app_r; lia | ]. rewrite Hl. replace (S k + i - S k)%nat with i by lia. by apply chain_lookup.
Qed.

Lemma twoChains_rep k i : (i <= k)%nat -> rep (twoChains k) i (chainTree i) /\ rep (twoChains k) (S k + i)%nat (chainTree i).
Proof.
  induction i as [ | i IH]; intros Hi; destruct (twoChains_lookup k _ Hi) as [H1 H2]; [by split; apply rep_prim | ].
  destruct IH as [I1 I2]; [lia | ]. split; econstructor; try eassumption; by repeat constructor.
Qed.

Lemma twoChains_unequal k i fuel depth : (i <= k)%nat -> depth + Z.of_nat i = MaxNestingDepth + 1 -> (i < fuel)%nat ->
  elemEqual fuel (twoChains k) depth i (S k + i)%nat = Some false.
Proof.
  revert fuel depth. induction i as [ | i IH]; intros fuel depth Hi Hd Hf; (destruct fuel as [ | fuel]; [lia | ]); cbn [elemEqual].
  all: destruct (twoChains_lookup k _ Hi) as [H1 H2]; rewrite (load_lookup _ _ _ H1), (load_lookup _ _ _ H2).
  all: cbn [elemClass elemTag elemConstructed elemContent elemChildren].
  - destruct (Nat.eqb_spec 0 (S k + 0)); [lia | ]. simpl. destruct (Z.ltb_spec MaxNestingDepth depth); [done | lia].
  - destruct (Nat.eqb_spec (S i) (S k + S i)); [lia | ]. simpl orb. cbv iota. destruct (Z.ltb_spec MaxNestingDepth depth); [done | ].
    cbn [allEqual]. rewrite IH; [done | lia | lia | lia].
Qed.
End Equality.

(** ** Theorems *)

Section Claims.
Context {L : Limits}.

(** The contents of integers and object identifiers.  An integer is written in the fewest octets
    whose value it is and read back; an identifier that is accepted is read back as its arcs. *)
Theorem asn1_contents (n : Z) (s : string) (b : list Z) (Hn : int64_range n) :
  (decodeIntContent (encodeIntContent n) = Ok n /\
   forall b', octets b' -> decodeIntContent b' = Ok n -> (length (encodeIntContent n) <= length b')%nat) /\
  (encodeOID s = Ok b -> exists arcs, Forall2 (fun p a => ParseUint p 10 = Ok a) (Split s ".") arcs /\
     decodeOID b = Ok (Join (map FormatInt arcs) ".")).
Proof. destruct (encodeIntContent_spec n Hn) as (_ & _ & H1 & H2). split; [done | apply oid_roundtrip]. Qed.

(** The cap on a sub-identifier is tested before its last seven bits are read, so [decodeOID] accepts
    arcs up to 2^64 - 1 and gives texts that [encodeOID] rejects. *)
Theorem oid_cap_not_symmetric :
  decodeOID [255; 255; 255; 255; 255; 255; 255; 255; 127] = Ok "2.9223372036854775727" /\
  encodeOID "2.9223372036854775727" = aerr "OID arc %d exceeds the maximum sub-identifier" [AInt 9223372036854775727].
Proof. by vm_compute. Qed.

(** Within the nesting limit two elements compare equal exactly when they stand for the same tree,
    whatever they share.  The builders have no such limit: one level above it, two elements for the
    same tree compare unequal. *)
Theorem asn1_equality h a b t1 t2 :
  rep h a t1 -> rep h b t2 -> height t1 <= MaxNestingDepth ->
  (exists r, EqualNative h a b = Some r /\ (r = true <-> t1 = t2)) /\
  (let k := S (Z.to_nat MaxNestingDepth) in
   rep (twoChains k) k (chainTree k) /\ rep (twoChains k) (S k + k)%nat (chainTree k) /\
   EqualNative (twoChains k) k (S k + k)%nat = Some false).
Proof.
  intros Ha Hb Hh. pose proof MaxNestingDepth_pos. pose proof (height_nonneg t1). split.
  - apply elemEqual_spec; try done; unfold depthFuel; lia.
  - intros k. destruct (twoChains_rep k k) as [H1 H2]; [done | ]. split_and!; try done.
    apply twoChains_unequal; [done | lia | unfold depthFuel; lia].
Qed.

(** C13: the two-pass encoder of asn1 writes DER.  For an element that stands for a tree - its
    descendants may be shared by several parents, at different depths - the sizes measured once
    per element and the second pass give the octets of the one-pass definition [der], in which every
    element carries the length of what follows and a SET its members in the order of their
    encodings; a tree above the nesting or the size limit, and no other, is an error.  The
    encoding of a SET does not depend on the order its members were given in. *)
Theorem asn1_encoder_exact (h : Heap) (e : Addr) (t : tree) (Hh : heapOK h) (Hr : rep h e t) :
  (if (height t <=? MaxNestingDepth) && (lenZ (der t) <=? MaxAllocBytes) then encodeTree h e = Some (Ok (der t))
   else exists m, encodeTree h e = Some (Err m)) /\
  (forall ts ts', ts ≡ₚ ts' -> der (Cons classUniversal tagSet ts) = der (Cons classUniversal tagSet ts')).
Proof.
  destruct (rep_exists h Hh e (rep_lookup h e t Hr)) as (t' & Hr' & Hw). rewrite <- (rep_fun h t e t' Hr Hr') in Hw. split.
  - destruct (encodeTree_spec h e t Hh Hr Hw) as [(H1 & H2 & H3) | (H1 & H2)];
      destruct (Z.leb_spec (height t) MaxNestingDepth), (Z.leb_spec (lenZ (der t)) MaxAllocBytes); simpl; done || lia.
  - intros ts ts' Hp. cbn [der]. change classUniversal with 0. rewrite (derBody_set tagSet (map der ts) (map der ts')); [done | done | by rewrite Hp].
Qed.

(** C38: asn1 trees survive encode and decode.  The octets of an element whose encoding succeeds, with
    at most the decoder's number of elements, decode to an element for the same tree, the members of every
    SET in the order of their encodings; encoding that element gives the same octets again. *)
Theorem asn1_roundtrip (h : Heap) (e : Addr) (t : tree) (b : list Z) (Hh : heapOK h) (Hr : rep h e t)
    (Hc : nodeCount t <= maxNodes) (He : encodeTree h e = Some (Ok b)) :
  exists e' h', decodeTree b h = Some (Ok (e', h')) /\ extends h h' /\ rep h' e' (canon t) /\ encodeTree h' e' = Some (Ok b).
Proof.
  destruct (rep_exists h Hh e (rep_lookup h e t Hr)) as (t' & Hr' & Hw). rewrite <- (rep_fun h t e t' Hr Hr') in Hw. clear Hr'.
  pose proof MaxAllocBytes_bound. pose proof (height_nonneg t).
  destruct (encodeTree_spec h e t Hh Hr Hw) as [(H1 & H2 & H3) | (_ & m & H2)]; [ | by rewrite H2 in He].
  rewrite H3 in He. injection He as <-.
  destruct (decode_plain (canon t) (canon_wf t Hw) depthFuel 0) with (rest := @nil Z) (nodes := 0) (h := h) as (e' & h' & E & Hp & Hre);
    rewrite ?canon_height, ?canon_count, ?plain_canon in *; try lia; try (unfold depthFuel, maxInt64 in *; lia).
  rewrite app_nil_r in E. exists e', h'. unfold decodeTree. rewrite E. cbn [fbind].
  assert (Hb : bytesOK (der t)).
  { rewrite <- plain_canon. split; [apply plain_octets; [by apply canon_wf | ] | ]; rewrite plain_canon; unfold maxInt64; lia. }
  destruct (decodeTree_ok (der t) h Hb Hh) as (r & E' & Hok). unfold decodeTree in E'. rewrite E in E'. injection E' as <-.
  destruct (Hok e' h' eq_refl) as (_ & Hh' & _). split_and!; [done | done | done | ].
  destruct (encodeTree_spec h' e' (canon t) Hh' Hre (canon_wf t Hw)) as [(_ & _ & ->) | (Hl & _)]; [by rewrite der_canon | ].
  rewrite canon_height, der_canon in Hl. lia.
Qed.

(** C29: the asn1 builtins keep their elements in order.  On a heap where children stand before their
    parents and every element is well formed, each of the 28 builtins returns - the fuel of the
    decoder, of both passes of the encoder and of the walks is enough for any input -, changes no
    element, leaves such a heap, and hands out only addresses that hold an element; so
    elements never form a cycle, and decoded trees are within the depth and node limits. *)
Theorem asn1_builtins_keep_heap (name : string) (f : Heap -> list Value -> option (result message (Value * Heap)))
    (h : Heap) (args : list Value) (Hf : (name, f) ∈ asn1Builtins) (Hh : heapOK h) (Ha : Forall argOK args) :
  (exists r, f h args = Some r /\ (forall v h', r = Ok (v, h') -> extends h h' /\ resultOK h' v)) /\
  (forall b e h', bytesOK b -> decodeTree b h = Some (Ok (e, h')) ->
     exists t, rep h' e t /\ height t <= MaxNestingDepth /\ nodeCount t <= maxNodes).
Proof.
  split.
  - pose proof builtins_ok as Hb. rewrite Forall_forall in Hb. by apply (Hb (name, f) Hf).
  - intros b e h' Hb Hd. destruct (decodeTree_ok b h Hb Hh) as (r & E & Hr). rewrite Hd in E. injection E as <-.
    destruct (Hr e h' eq_refl) as (_ & _ & t & ? & _ & ? & ?). eauto.
Qed.
End Claims.

(** A sequence that holds one SET of two octet strings twice. *)
Definition demoElems : Heap :=
  [mkElem 0 false 4 [2] []; mkElem 0 false 4 [1] []; mkElem 0 true 17 [] [0; 1]%nat; mkElem 0 true 16 [] [2; 2]%nat].
Definition demoSet : tree := Cons 0 17 [Prim 0 4 [2]; Prim 0 4 [1]].
Definition demoTree : tree := Cons 0 16 [demoSet; demoSet].

Lemma demo_heapOK : heapOK demoElems.
Proof.
  intros i x H. destruct i as [ | [ | [ | [ | i]]]]; simplify_eq/=.
  all: unfold elemOK, identOK, bytesOK; simpl; split_and!; try done; repeat constructor; lia.
Qed.

Lemma demo_rep : rep demoElems 3%nat demoTree.
Proof.
  assert (rep demoElems 2%nat demoSet).
  { eapply rep_cons; [reflexivity | ]. repeat constructor. }
  eapply rep_cons; [reflexivity | ]. by repeat constructor.
Qed.

Definition demoDer : list Z := [48; 16; 49; 6; 4; 1; 1; 4; 1; 2; 49; 6; 4; 1; 1; 4; 1; 2].

Lemma asn1_encoder_exact_witness : @encodeTree limits_std demoElems 3%nat = Some (Ok demoDer).
Proof.
  destruct (@asn1_encoder_exact limits_std demoElems 3%nat demoTree demo_heapOK demo_rep) as [E _].
  assert (C : (height demoTree <=? @MaxNestingDepth limits_std) && (lenZ (der demoTree) <=? @MaxAllocBytes limits_std) = true) by by vm_compute.
  rewrite C in E. rewrite E. by vm_compute.
Defined.

Lemma asn1_roundtrip_witness : exists e' h', @decodeTree limits_std demoDer demoElems = Some (Ok (e', h')) /\ rep h' e' (canon demoTree).
Proof.
  assert (C : nodeCount demoTree <= @maxNodes limits_std) by (by apply Z.leb_le; vm_compute).
  assert (E : @encodeTree limits_std demoElems 3%nat = Some (Ok demoDer)) by by vm_compute.
  destruct (@asn1_roundtrip limits_std demoElems 3%nat demoTree demoDer demo_heapOK demo_rep C E) as (e' & h' & H1 & _ & H2 & _).
  exists e', h'. split; [exact H1 | exact H2].
Defined.

Lemma asn1_builtins_keep_heap_witness :
  exists r, @decodeFn limits_std demoElems [VBytes [48; 128; 5; 0; 0; 0]] = Some r /\ (forall v h', r = Ok (v, h') -> extends demoElems h' /\ resultOK h' v).
Proof.
  assert (Hin : ("decode", @decodeFn limits_std) ∈ @asn1Builtins limits_std) by by left.
  assert (Ha : Forall argOK [VBytes [48; 128; 5; 0; 0; 0]]).
  { constructor; [ | constructor]. split; [repeat constructor; lia | by apply Z.leb_le]. }
  exact (proj1 (@asn1_builtins_keep_heap limits_std "decode" decodeFn demoElems [VBytes [48; 128; 5; 0; 0; 0]] Hin demo_heapOK Ha)).
Defined.
